(* ===== verification/_CoqProject ===== *)
-Q . S2P
Prelude.v
Glob.v
Json.v
Net.v
Auth.v
PolicyVars.v
Condition.v
Evaluator.v
EvaluatorTheory.v
Arn.v
BTree.v
Text.v
MultiAccount.v
Iam.v
IamTheory.v
Sigv4.v
Sigv4Theory.v
Cbor.v
CborTheory.v
AwsChunked.v
AwsChunkedTheory.v
Form.v
FormTheory.v
Dispatch.v
DispatchTheory.v
Routing.v
RoutingTheory.v
EventPattern.v
BodyCache.v
BodyCacheTheory.v
Sqs.v
SqsSend.v
SqsReceive.v
SqsTheory.v
SqsOrder.v
SqsQueues.v
SqsMoves.v
SqsDeliver.v
SqsSystem.v
SqsSystemTheory.v
SqsMoveTheory.v
SqsListTheory.v
SqsDeliverTheory.v
SqsIam.v
Kinesis.v
KinesisService.v
KinesisLayout.v
KinesisTheory.v
KinesisReads.v
OrdMap.v
DdbNumber.v
DdbNumberTheory.v
DdbValue.v
DdbReserved.v
DdbExpr.v
DdbExprTheory.v
DdbTable.v
DdbTableTheory.v
DdbScan.v
DdbUpdate.v
DdbUpdateTheory.v
DdbLex.v
DdbCondition.v
DdbConditionTheory.v
DdbItems.v
DdbKeyGuard.v
DdbItemsTheory.v
DdbTransact.v
DdbTransactTheory.v
DdbQuery.v
DdbQueryTheory.v
DdbBatch.v
DdbBatchTheory.v
