(* ===== verification/Prelude.v ===== *)
(** * fakecloud: a verification library

    fakecloud emulates the AWS APIs in one process.  A request is
    authenticated to a principal by its signature, authorized by the IAM
    evaluator against the identity, boundary, session, organization and
    resource policies that apply to it, and handed to the service it names,
    which reads and changes the state it keeps per account and region.  This
    library models that path, from the request off the wire to the handler,
    together with three data services, SQS, Kinesis and DynamoDB, and proves
    what makes them correct.

    ** The parts and where they are modelled

    Each file is named after the component it models; a file that ends in
    [Theory] (and [SqsOrder], [KinesisLayout], [KinesisReads], [DdbScan],
    [DdbLex], [DdbKeyGuard]) holds the theorems of the files before it.  Source
    paths are below [src/crates].

    - [Prelude]: results, Rust strings and integer parsing and printing, the
      tactics and the hint database [rust] of the library.
    - [Glob]: the two-pointer wildcard loop that the IAM crates carry three
      times, written once over a pattern alphabet, against the textbook
      definition of wildcard matching.
    - [Json]: [serde_json::Value] and [f64] as IEEE binary64.
    - [Net]: [IpAddr] parsing and both CIDR tests of the repository.
    - [Auth] ([fakecloud-core/src/auth.rs]): principals, actions, the condition
      context, internal callers.  [PolicyVars] and [Condition]
      ([fakecloud-iam/src/policy_variables.rs], [condition.rs]): policy
      variables and condition blocks.  [Evaluator] and [EvaluatorTheory]
      ([evaluator.rs]): documents, statement matching, the layered decision.
    - [Iam] and [IamTheory] ([evaluator.rs], [policy_evaluator.rs],
      [pass_role.rs], [resource_policy.rs]): which policies a principal has and
      the implementations of the traits the dispatcher calls.  The traits are
      the classes [IamPolicyEvaluator], [ResourcePolicyProvider] and
      [RoleTrustValidator].
    - [Arn] ([fakecloud-aws/src/arn.rs]) and [BTree] (ordered maps).
    - [MultiAccount] ([fakecloud-core/src/multi_account.rs]): the container of
      every service's state; the traits [AccountState] and [SplitByRegion] are
      classes that a service instantiates, as [Sqs] does.
    - [Sigv4] and [Sigv4Theory] ([fakecloud-aws/src/sigv4.rs]): reading a
      signature from a header or a presigned URL, the canonical request, and
      verification with its time window.
    - [Cbor] and [CborTheory] ([fakecloud-core/src/cbor.rs]), [Form] and
      [FormTheory] (the form decoding of [protocol.rs]), [AwsChunked] and
      [AwsChunkedTheory] ([service.rs]): the bodies of RPC v2 requests, of
      query requests and of S3 uploads.
    - [Dispatch] and [DispatchTheory] ([fakecloud-core/src/dispatch.rs], with
      [path.rs], [auth_message.rs], the request and service types of
      [service.rs] and the resolver traits of [auth.rs]): [dispatch_inner] from
      the routed request to the handler's call: the credential, the signature
      gate, the request a handler sees, the condition context, and enforcement
      for in-process, anonymous, root and identity callers.  The evaluator is
      any instance of [IamPolicyEvaluator]; the services, resolvers and policy
      providers are records of operations.
    - [Routing] and [RoutingTheory] ([protocol.rs], the first part of
      [dispatch_inner] and the functions it calls): reading the body, detection
      of service, action and protocol, host names, streaming routes.
      [Routing.serve] is [dispatch_inner] as a whole.
    - [EventPattern] ([fakecloud-aws/src/event_pattern.rs]): the pattern
      language of EventBridge, Pipes and event source mappings.
    - [BodyCache] and [BodyCacheTheory] ([fakecloud-persistence/src/cache.rs]):
      the LRU cache of object bodies.
    - [Sqs] ([fakecloud-sqs/src/state.rs] and request helpers of
      [helpers.rs]), [SqsSend] and [SqsReceive] ([service/messages.rs], the
      helpers it calls, [simulation.rs]), [SqsTheory] and [SqsOrder]: queues,
      the message handlers and the background operations.  [SqsQueues]
      ([service/queues.rs], [tags.rs], [dlq.rs], [permissions.rs]), [SqsMoves]
      ([moves.rs], the mover of [service/mod.rs]) and [SqsDeliver]
      ([delivery.rs]): the other handlers and delivery from other services.
      [SqsSystem]: the dispatch of [service/mod.rs] and the step relation of
      one region; [SqsSystemTheory], [SqsMoveTheory], [SqsListTheory] and
      [SqsDeliverTheory] hold their theorems.  [SqsIam] ([service/mod.rs],
      [helpers.rs]): what an SQS request is authorized for, with theorems.
    - [Kinesis] ([fakecloud-kinesis/src/state.rs], [service_helpers.rs]):
      streams, shards with their hash ranges and sequence numbers, iterators,
      retention, routing and resharding.  [KinesisService] ([service.rs],
      [delivery.rs]): the handlers.  [KinesisLayout]: the well-formedness of a
      stream and that each operation on shards keeps it; [KinesisTheory]: the
      histories of a region and what holds after each; [KinesisReads]: readers.
    - DynamoDB, below [fakecloud-dynamodb/src].  [Text] and [OrdMap]: the string
      methods and the [BTreeMap] it uses.  [DdbNumber] and [DdbNumberTheory]
      ([service/helpers/partiql.rs], [sizing.rs]): decimals.  [DdbValue]
      ([partiql.rs], [sizing.rs], [keys.rs]): attribute values and items.
      [DdbExpr] and [DdbReserved] with [DdbExprTheory] and [DdbLex]
      ([expr.rs], [reserved_words.rs]): the expression language.  [DdbTable]
      with [DdbTableTheory] and [DdbScan] ([state.rs]): the rows of a table,
      its key index and its statistics.  [DdbUpdate] with [DdbUpdateTheory]
      ([updates.rs], [paths.rs], [helpers/mod.rs]): update expressions and
      projections; [DdbCondition] with [DdbConditionTheory] ([conditions.rs]):
      conditions on stored items and the legacy parameters.  [DdbItems] with
      [DdbKeyGuard] and [DdbItemsTheory] ([service/items.rs], [request.rs],
      [table_lookup.rs], [keys.rs], [metrics.rs], [streams.rs]): PutItem,
      GetItem, DeleteItem and UpdateItem.  [DdbTransact] with
      [DdbTransactTheory] ([service/batch.rs], [cross_account.rs],
      [service/mod.rs]): TransactWriteItems and its idempotency cache.
      [DdbQuery] with [DdbQueryTheory] ([service/queries.rs]): Query and Scan.
      [DdbBatch] with [DdbBatchTheory] ([service/batch.rs]): BatchGetItem,
      BatchWriteItem and TransactGetItems.

    ** How the code is read

    Pure functions are Gallina functions under the source's names.  A method
    with [&mut self] takes the state and returns it with its result; a handler
    that fails after changing something returns the changed state with the
    error.  A lock makes its block one atomic step, so clients are sequences
    of calls.  Integers are [Z] with the wrap-around or saturation of the
    operation written out.  A panic is [None] where the code could panic; the
    theorems prove it unreachable.  A [BTreeMap] is a [gmap] with its
    iteration order written out ([BTree]); a [HashMap] is a [gmap] whose
    iteration order, where the code depends on it, is an argument.

    Packages that are not part of the repository are parameters: JSON text
    parsing ([Json.SerdeJson]), date parsing ([Auth.Chrono]), snapshot codecs
    ([MultiAccount.SnapshotCodec]), the embedded managed-policy catalog, and
    for SQS the clock, random ids, base64, MD5 and SHA-256 ([Sqs.Host]) and
    the KMS hook ([Sqs.KmsHook]), JSON printing ([SqsQueues.SerdePrint])
    and the pagination token's base64 ([SqsQueues.TokenCodec]).  For the
    request path they are SHA-256, HMAC and hex ([Sigv4.SigCrypto]), percent
    coding ([Sigv4.PercentCodec]), the signing date ([Sigv4.AmzDate]), JSON
    text as bytes ([Dispatch.WireFormats]), header syntax
    ([Dispatch.HeaderSyntax]), the compression of the denial message
    ([Dispatch.DenyCodec]), the CBOR reader and base64 ([Cbor.CborReader],
    [Cbor.Base64]), gzip ([Routing.Gunzip]) and the lossy decoding of bytes
    that are not text of the library ([Form.LossyText]); for Kinesis MD5,
    base64 and instants ([Kinesis.KinesisHost]) and the text of list tokens
    ([KinesisService.ListShardsToken]); for DynamoDB base64
    ([DdbValue.Base64Decode]), the JSON text of a value
    ([DdbTable.JsonText], with the injectivity the code relies on as
    [DdbTableTheory.JsonTextLaws]), the text of an item in an error
    ([DdbCondition.ItemText]) and the hashes of texts and bodies
    ([DdbTransact.TextHash]).
    What a theorem needs of them (injectivity of an encoding, no collision at
    the two inputs at hand) is a hypothesis of that theorem.

    ** What the theorems show

    - Authorization ([EvaluatorTheory], [Condition], [PolicyVars],
      [IamTheory]): exact conditions for allow and explicit deny of one layer,
      of the boundary/session/SCP intersection and of the combination with
      resource policies, including the KMS rules; independence of statement
      order; failing closed on malformed policies and conditions; policy
      variables match literally; the policies a principal is evaluated with;
      what an anonymous caller and a dangling boundary get.
    - Matching ([Glob], [EventPattern], [Net]): the iterative matchers against
      their specifications, the two CIDR tests against each other, the
      algebra of pattern operators.
    - The request path ([Sigv4Theory], [DispatchTheory]): which signatures are
      accepted, that canonical queries are equal exactly for equal parameters,
      that a signature binds its request; that state changes only by permitted
      requests, that an identity is proven before it is used, and, composed
      with the evaluator, that an identity is served exactly when the layered
      policies grant it.  [RoutingTheory]: S3 host names are read back, only
      uploads with a key are streamed, the body that routing buffers stays
      within the limit (what a handler drains from a stream has none), and
      what can steer a request to a service.  [AwsChunkedTheory], [FormTheory],
      [CborTheory]: uploads, forms and documents are read back as sent.
    - State ([MultiAccount], [Arn]): accounts and regions are independent
      cells, routing by ARN, snapshot migration, the ARN round trip.
    - The body cache refines an abstract LRU list, never panics, stays within
      its budget and never serves a stale body.
    - SQS ([SqsTheory]): no message is lost or duplicated by a receive, an
      expiry tick or a forced dead-letter move; what a batch contains, its fresh
      receipt handles and what stays in flight; an open visibility window
      excludes redelivery but for the replay of a FIFO attempt.  [SqsOrder]: FIFO group order,
      fairness of standard queues, deduplication, receipt handles.
      [SqsSystemTheory]: an invariant of every reachable state, by rule
      induction, and that URLs, names and ARNs resolve; [SqsMoveTheory]: moves
      conserve messages and movers finish; [SqsListTheory]: pagination;
      [SqsDeliverTheory]: deliveries; [SqsIam]: the queue a request is
      authorized for is the queue it is served from.
    - Kinesis ([KinesisTheory]): in every reachable state the open shards of a
      stream partition the hash space and records carry gap-free sequence
      numbers, by induction on the history; routing, resharding and sequence
      numbers resolve as documented.  [KinesisReads]: reads stay in bounds,
      trimming moves no reader, and a consumer reads everything once, in order.
    - DynamoDB.  Numbers compare and add as rationals ([DdbNumberTheory]); the
      condition parser recognises a declarative grammar and records exactly
      the placeholders used ([DdbExprTheory]); the index answers as a scan of
      the rows, and rows, index and counters agree in every reachable table
      ([DdbTableTheory]), with Scan in key order ([DdbScan]); SET reads the
      item before the update ([DdbUpdateTheory]); legacy conditions mean what
      their operators say ([DdbConditionTheory]); an update that passes the key
      check leaves the key alone ([DdbKeyGuard]); the item operations refine a
      map from primary keys with conditional writes, fail without a trace and
      never panic ([DdbItemsTheory]); a transaction is all or nothing across
      accounts, and a retry under its token is applied once
      ([DdbTransactTheory]); following the cursors of a Query or a Scan reads
      every row once, and segments share the rows out ([DdbQueryTheory]);
      a batch write is refused with no trace or applied as a whole
      ([DdbBatchTheory]).
      The theorems about writes hold for typed requests
      ([DdbItemsTheory.typed_write]): key attributes of one tag with a text,
      looked-up numbers in range, update expressions without double quotes
      over placeholders that are a mark and a word, and key names that are
      plain words ([DdbKeyGuard.plain]).  Outside, [dotted_key_is_written]: an
      update can rewrite a key whose name has a dot.
    - Departures from the documented behaviour are theorems as well:
      [literal_star_defeats_wildcard], [malformed_operand_matches_everything],
      [not_principal_admits_anonymous], [decrypt_failure_drops_dead_letters],
      [fifo_redelivery_out_of_order], [fifo_batch_delay_overtakes],
      [self_move_never_finishes], [prepended_credential_reroutes],
      [truncated_upload_is_stored], [arn_as_url_evades_policy],
      [access_point_hosts_unrecognized], [body_steers_presigned],
      [recreated_stream_panics], [trim_moves_foreign_checkpoint]; and of
      DynamoDB [removes_are_sequential], [appends_are_sequential],
      [add_nested_path], [add_after_tab], [keyword_without_blank],
      [if_not_exists_of_another], [nested_functions], [nested_arithmetic],
      [dotted_key_is_written], [upsert_record_has_old_image],
      [upsert_stores_any_number], [legacy_add_stores_any_type],
      [legacy_delete_leaves_empty_set], [transaction_accepts_long_key],
      [deleted_cursor_skips_ties], [deleted_cursor_starts_over],
      [duplicate_across_entries], [batch_leaves_no_record].

    ** Fuel

    Only loops that are not structural carry fuel.  The glob loop's fuel
    ([Glob.glob_fuel]) exceeds the number of its iterations on any input, and
    [glob_match_correct] is proved for it, so it never runs out.  The eviction
    loop of the cache gets one unit per arena slot and one more; the
    refinement theorem includes that it suffices.  The repeated suffix removal
    of [SqsQueues] gets the length of the text; [run_mover], iterations of a
    mover, gets one unit per waiting message and one more, which
    [mover_drains] shows to suffice.  Decimal printing gets one
    unit per bit ([print_Z_parse] shows all digits are written).  The chunk
    decoder gets one unit per input byte, each turn consuming at least one;
    the tag scan of [SqsIam] one per query parameter and one more; text
    replacement in [Routing] the length of the text; a Kinesis
    consumer ([consume]) one read per remaining record and one more, which
    [consumer_reads_everything] shows to suffice.  Of DynamoDB, the lexer gets
    the length of the text, the parser the number of tokens, which
    [expressions_within_bounds] and [condition_parser_grammar] show never to
    run out; the text evaluators the length of the text
    ([condition_text_recursion]); the keyword splitters the length of the
    expression; the merge of projections the height of the documents; a client
    of Query or Scan ([follow]) one page per row and one more, which
    [query_reads_everything] and [scan_reads_everything] show to suffice.

    ** Not modelled, and the plan

    Response rendering and error envelopes, the parsing of HTTP itself,
    persistence I/O (errors of the spool file and of a broken stream
    included), SDKs and test tooling are glue.  Of Kinesis, the channel
    handlers, the read-only descriptions and ListStreams are left for later.
    Of DynamoDB, vector indexes (a table here has none, so the checks of
    written items and reads against them are left out), PartiQL, the stream
    readers, import and export, backups and the table operations.  The other
    services have the shape of these three, handlers over a regional state.
    Next: the table operations and PartiQL of DynamoDB, the rest of Kinesis,
    KMS key state, the IAM and STS handlers and the Step Functions
    interpreter. *)

From Stdlib Require Import ZArith Lia Bool String Ascii.
From stdpp Require Import base option list strings gmap.

#[global] Arguments String.append !_ _ : simpl nomatch.
#[global] Arguments String.eqb : simpl never.

(** ** Results

    A Rust [Result<A, E>]; the [?] operator is the bind. *)

Inductive Result (E A : Type) : Type :=
| Ok (a : A)
| Err (e : E).
Arguments Ok {E A} a.
Arguments Err {E A} e.

#[global] Instance result_ret E : MRet (Result E) := fun A a => Ok a.
#[global] Instance result_bind E : MBind (Result E) :=
  fun A B f r => match r with Ok a => f a | Err e => Err e end.

(** [Option::ok_or_else]. *)
Definition ok_or {E A} (e : E) (o : option A) : Result E A :=
  match o with Some a => Ok a | None => Err e end.

Definition is_ok {E A} (r : Result E A) : bool :=
  match r with Ok _ => true | Err _ => false end.

Lemma bind_Ok {E A B} (f : A -> Result E B) (r : Result E A) b :
  r ≫= f = Ok b -> exists a, r = Ok a /\ f a = Ok b.
Proof. destruct r as [a|e]; [|done]. intros Hf. by exists a. Qed.

Lemma ok_or_Ok {E A} (e : E) (o : option A) a : ok_or e o = Ok a -> o = Some a.
Proof. destruct o; [|done]. by intros [= ->]. Qed.

(** ** Characters and strings

    A Rust [String] is a [string] whose characters are the Unicode scalars
    U+0000 to U+00FF, one [ascii] each.  All the code modelled here compares
    text with ASCII markers, so this range exercises every branch; where the
    code counts UTF-8 bytes ([str::len]) the two-byte scalars are counted as
    two by [byte_len]. *)

Definition char_code (c : ascii) : N := N_of_ascii c.

Definition is_ascii_digit (c : ascii) : bool :=
  (48 <=? char_code c)%N && (char_code c <=? 57)%N.

Definition is_ascii_upper (c : ascii) : bool :=
  (65 <=? char_code c)%N && (char_code c <=? 90)%N.

Definition is_ascii_lower (c : ascii) : bool :=
  (97 <=? char_code c)%N && (char_code c <=? 122)%N.

Definition is_ascii_alphanumeric (c : ascii) : bool :=
  is_ascii_digit c || is_ascii_upper c || is_ascii_lower c.

Definition is_ascii_hexdigit (c : ascii) : bool :=
  is_ascii_digit c
  || ((65 <=? char_code c)%N && (char_code c <=? 70)%N)
  || ((97 <=? char_code c)%N && (char_code c <=? 102)%N).

Definition ascii_lower (c : ascii) : ascii :=
  if is_ascii_upper c then ascii_of_N (char_code c + 32)%N else c.

(** [char::to_lowercase] on U+0000..U+00FF: the ASCII letters and the Latin-1
    capitals U+00C0..U+00DE except the multiplication sign U+00D7. *)
Definition char_lower (c : ascii) : ascii :=
  if is_ascii_upper c
     || ((192 <=? char_code c)%N && (char_code c <=? 222)%N
         && negb (char_code c =? 215)%N)
  then ascii_of_N (char_code c + 32)%N else c.

(** [char::is_whitespace] on the same range. *)
Definition is_whitespace (c : ascii) : bool :=
  ((9 <=? char_code c)%N && (char_code c <=? 13)%N)
  || (char_code c =? 32)%N || (char_code c =? 133)%N || (char_code c =? 160)%N.

Fixpoint string_map (f : ascii -> ascii) (s : string) : string :=
  match s with
  | EmptyString => EmptyString
  | String c s' => String (f c) (string_map f s')
  end.

Fixpoint string_forallb (f : ascii -> bool) (s : string) : bool :=
  match s with
  | EmptyString => true
  | String c s' => f c && string_forallb f s'
  end.

Definition to_ascii_lowercase (s : string) : string := string_map ascii_lower s.
Definition to_lowercase (s : string) : string := string_map char_lower s.

Definition eq_ignore_ascii_case (a b : string) : bool :=
  String.eqb (to_ascii_lowercase a) (to_ascii_lowercase b).

Definition is_empty_str (s : string) : bool :=
  match s with EmptyString => true | String _ _ => false end.

(** [str::len]: the number of UTF-8 bytes. *)
Fixpoint byte_len (s : string) : nat :=
  match s with
  | EmptyString => 0
  | String c s' => (if (char_code c <? 128)%N then 1 else 2) + byte_len s'
  end.

(** [str::as_bytes]: the UTF-8 encoding. *)
Fixpoint as_bytes (s : string) : list Z :=
  match s with
  | EmptyString => []
  | String c s' =>
      let n := Z.of_N (char_code c) in
      (if (n <? 128)%Z then [n] else [192 + n / 64; 128 + n mod 64]%Z) ++ as_bytes s'
  end.

Fixpoint strip_prefix (p s : string) : option string :=
  match p, s with
  | EmptyString, _ => Some s
  | String a p', String b s' =>
      if Ascii.eqb a b then strip_prefix p' s' else None
  | String _ _, EmptyString => None
  end.

Definition starts_with (p s : string) : bool :=
  match strip_prefix p s with Some _ => true | None => false end.

Fixpoint strip_suffix (x s : string) : option string :=
  if String.eqb s x then Some EmptyString
  else match s with
       | EmptyString => None
       | String c s' => String c <$> strip_suffix x s'
       end.

Definition ends_with (x s : string) : bool :=
  match strip_suffix x s with Some _ => true | None => false end.

(** [str::find] with a string needle: what precedes the leftmost occurrence
    and what follows it. *)
Fixpoint split_at_needle (x s : string) : option (string * string) :=
  match strip_prefix x s with
  | Some rest => Some (EmptyString, rest)
  | None =>
      match s with
      | EmptyString => None
      | String c s' => prod_map (String c) id <$> split_at_needle x s'
      end
  end.

Definition contains_str (x s : string) : bool :=
  match split_at_needle x s with Some _ => true | None => false end.

(** [str::split_once]. *)
Definition split_once (x s : string) : option (string * string) :=
  split_at_needle x s.

(** [str::rsplit_once]: the rightmost occurrence. *)
Fixpoint rsplit_once (x s : string) : option (string * string) :=
  match s with
  | EmptyString => if String.eqb x EmptyString then Some (EmptyString, EmptyString) else None
  | String c s' =>
      match rsplit_once x s' with
      | Some (a, b) => Some (String c a, b)
      | None => pair EmptyString <$> strip_prefix x s
      end
  end.

(** [str::split] on one character: never empty. *)
Fixpoint split_char (d : ascii) (s : string) : list string :=
  match s with
  | EmptyString => [EmptyString]
  | String c s' =>
      if Ascii.eqb c d then EmptyString :: split_char d s'
      else match split_char d s' with
           | [] => [String c EmptyString]
           | w :: ws => String c w :: ws
           end
  end.

(** [str::splitn]: at most [n] pieces, the last one unsplit. *)
Fixpoint splitn (n : nat) (d : ascii) (s : string) : list string :=
  match n with
  | 0 => []
  | 1 => [s]
  | S n' =>
      match split_at_needle (String d EmptyString) s with
      | Some (a, b) => a :: splitn n' d b
      | None => [s]
      end
  end.

(** [rsplit(c).next()]: the piece after the last separator. *)
Definition last_segment (d : ascii) (s : string) : string :=
  default s (last (split_char d s)).

(** [split(c).next()]: the piece before the first separator. *)
Definition first_segment (d : ascii) (s : string) : string :=
  default s (head (split_char d s)).

(** [&s[n..]] at a character boundary. *)
Fixpoint string_drop (n : nat) (s : string) : string :=
  match n, s with
  | S n', String _ s' => string_drop n' s'
  | _, _ => s
  end.

Fixpoint trim_start (s : string) : string :=
  match s with
  | String c s' => if is_whitespace c then trim_start s' else s
  | EmptyString => EmptyString
  end.

Fixpoint trim_end (s : string) : string :=
  match s with
  | EmptyString => EmptyString
  | String c s' =>
      match trim_end s' with
      | EmptyString => if is_whitespace c then EmptyString else String c EmptyString
      | t => String c t
      end
  end.

Definition trim (s : string) : string := trim_end (trim_start s).

(** ** Decimal integers

    [str::parse::<iN>()] / [<uN>()]: an optional sign, at least one digit,
    and an error on overflow. *)

Fixpoint digits_val (acc : Z) (s : string) : option Z :=
  match s with
  | EmptyString => Some acc
  | String c s' =>
      if is_ascii_digit c
      then digits_val (acc * 10 + (Z.of_N (char_code c) - 48)) s'
      else None
  end.

Definition parse_digits (s : string) : option Z :=
  match s with EmptyString => None | _ => digits_val 0 s end.

Definition in_range (lo hi z : Z) : option Z :=
  if (lo <=? z)%Z && (z <=? hi)%Z then Some z else None.

Definition parse_signed (lo hi : Z) (s : string) : option Z :=
  match s with
  | String "-" s' => parse_digits s' ≫= fun z => in_range lo hi (- z)
  | String "+" s' => parse_digits s' ≫= in_range lo hi
  | _ => parse_digits s ≫= in_range lo hi
  end.

Definition parse_unsigned (hi : Z) (s : string) : option Z :=
  match s with
  | String "+" s' => parse_digits s' ≫= in_range 0 hi
  | _ => parse_digits s ≫= in_range 0 hi
  end.

Definition i64_min : Z := - 2 ^ 63.
Definition i64_max : Z := 2 ^ 63 - 1.
Definition u64_max : Z := 2 ^ 64 - 1.
Definition u32_max : Z := 2 ^ 32 - 1.
Definition u8_max : Z := 255.

Definition parse_i64 (s : string) : option Z := parse_signed i64_min i64_max s.
Definition parse_u64 (s : string) : option Z := parse_unsigned u64_max s.
Definition parse_u32 (s : string) : option Z := parse_unsigned u32_max s.
Definition parse_u8 (s : string) : option Z := parse_unsigned u8_max s.

(** Decimal printing ([ToString] on integers). *)

Definition digit_char (z : Z) : ascii := ascii_of_N (Z.to_N (48 + z)).

Fixpoint print_digits (fuel : nat) (z : Z) (acc : string) : string :=
  match fuel with
  | 0 => acc
  | S f =>
      let acc' := String (digit_char (z mod 10)) acc in
      if (z <? 10)%Z then acc' else print_digits f (z / 10) acc'
  end.

Definition print_nonneg (z : Z) : string :=
  print_digits (S (Z.to_nat (Z.log2 z))) z EmptyString.

Definition print_Z (z : Z) : string :=
  if (z <? 0)%Z then String "-" (print_nonneg (- z)) else print_nonneg z.

Definition print_bool (b : bool) : string := if b then "true"%string else "false"%string.

(** ** Tactics *)

Ltac destruct_match :=
  match goal with
  | |- context [match ?x with _ => _ end] => destruct x eqn:?
  end.

Ltac destruct_match_in H :=
  match type of H with
  | context [match ?x with _ => _ end] => destruct x eqn:?
  end.

(** Split every boolean hypothesis into its propositional content. *)
Ltac boolify :=
  repeat match goal with
  | H : _ && _ = true |- _ => apply andb_true_iff in H as [? ?]
  | H : _ || _ = false |- _ => apply orb_false_iff in H as [? ?]
  | H : negb _ = true |- _ => apply negb_true_iff in H
  | H : negb _ = false |- _ => apply negb_false_iff in H
  | H : String.eqb _ _ = true |- _ => apply String.eqb_eq in H
  | H : Ascii.eqb _ _ = true |- _ => apply Ascii.eqb_eq in H
  | H : Z.leb _ _ = true |- _ => apply Z.leb_le in H
  | H : Z.ltb _ _ = true |- _ => apply Z.ltb_lt in H
  | H : Z.leb _ _ = false |- _ => apply Z.leb_gt in H
  | H : Z.ltb _ _ = false |- _ => apply Z.ltb_ge in H
  end.

(** ** Shared lemmas *)

Create HintDb rust discriminated.
Create Rewrite HintDb rust.

Lemma strip_prefix_Some p s r : strip_prefix p s = Some r <-> s = p +:+ r.
Proof.
  revert s. induction p as [|a p IH]; intros s; simpl.
  - split; [by intros [= ->]|by intros ->].
  - destruct s as [|b s]; simpl; [done|].
    destruct (Ascii.eqb_spec a b) as [->|Hne].
    + rewrite IH. split; [by intros ->|by intros [= ->]].
    + split; [done|congruence].
Qed.

Lemma starts_with_spec p s : starts_with p s = true <-> exists r, s = p +:+ r.
Proof.
  unfold starts_with. split.
  - destruct (strip_prefix p s) eqn:E; [|done].
    intros _. eexists. by apply strip_prefix_Some.
  - intros [r Hr]. apply strip_prefix_Some in Hr. by rewrite Hr.
Qed.

Lemma string_app_nil_r s : s +:+ EmptyString = s.
Proof. induction s as [|c s IH]; simpl; [done|]. by rewrite IH. Qed.

Lemma string_app_assoc a b c : (a +:+ b) +:+ c = a +:+ (b +:+ c).
Proof. induction a as [|x a IH]; simpl; [done|]. by rewrite IH. Qed.

Lemma string_length_app a b : String.length (a +:+ b) = String.length a + String.length b.
Proof. induction a as [|x a IH]; simpl; [done|]. by rewrite IH. Qed.

#[export] Hint Rewrite string_app_nil_r string_app_assoc string_length_app : rust.

Lemma strip_suffix_Some x s r : strip_suffix x s = Some r -> s = r +:+ x.
Proof.
  revert r. induction s as [|c s IH]; intros r; simpl.
  - destruct (String.eqb_spec EmptyString x); naive_solver.
  - destruct (String.eqb_spec (String c s) x); [naive_solver|].
    destruct (strip_suffix x s) eqn:E; [|done].
    simpl. intros [= <-]. simpl. f_equal. by apply IH.
Qed.

Lemma strip_suffix_app x r : strip_suffix x (r +:+ x) = Some r.
Proof.
  induction r as [|c r IH]; simpl.
  - destruct x; cbn -[String.eqb]; by rewrite String.eqb_refl.
  - destruct (String.eqb_spec (String c (r +:+ x)) x) as [Heq|_].
    + apply (f_equal String.length) in Heq. simpl in Heq.
      rewrite string_length_app in Heq. lia.
    + by rewrite IH.
Qed.

Lemma split_at_needle_Some x s a b :
  split_at_needle x s = Some (a, b) -> s = a +:+ (x +:+ b).
Proof.
  revert a. induction s as [|c s IH]; intros a; simpl.
  - destruct (strip_prefix x EmptyString) eqn:E; [|done].
    intros [= <- <-]. simpl. by apply strip_prefix_Some.
  - destruct (strip_prefix x (String c s)) eqn:E.
    + intros [= <- <-]. simpl. by apply strip_prefix_Some.
    + destruct (split_at_needle x s) as [[a' b']|] eqn:E'; [|done].
      simpl. intros [= <- <-]. simpl. f_equal. by apply IH.
Qed.

(** *** Separators *)

(** A string in which the character [d] does not occur. *)
Definition no_char (d : ascii) (s : string) : bool :=
  string_forallb (fun c => negb (Ascii.eqb c d)) s.

Lemma no_char_cons d c s : no_char d (String c s) = true <-> c <> d /\ no_char d s = true.
Proof.
  unfold no_char. simpl. rewrite andb_true_iff, negb_true_iff.
  destruct (Ascii.eqb_spec c d); intuition congruence.
Qed.

Lemma string_forallb_app f a b :
  string_forallb f (a +:+ b) = string_forallb f a && string_forallb f b.
Proof. induction a as [|c a IH]; simpl; [done|]. by rewrite IH, andb_assoc. Qed.

Lemma no_char_app d a b : no_char d (a +:+ b) = no_char d a && no_char d b.
Proof. apply string_forallb_app. Qed.

Lemma split_sep_app d a b :
  no_char d a = true ->
  split_at_needle (String d EmptyString) (a +:+ String d b) = Some (a, b).
Proof.
  induction a as [|c a IH]; intros Ha.
  - cbn. by rewrite Ascii.eqb_refl.
  - apply no_char_cons in Ha as [Hc Ha]. cbn.
    destruct (Ascii.eqb_spec d c) as [<-|_]; [done|]. by rewrite IH.
Qed.

Lemma split_sep_None d s :
  split_at_needle (String d EmptyString) s = None <-> no_char d s = true.
Proof.
  induction s as [|c s IH]; [done|]. rewrite no_char_cons. cbn.
  destruct (Ascii.eqb_spec d c) as [<-|Hne].
  - split; [done|by intros [? _]].
  - destruct (split_at_needle (String d EmptyString) s) as [[x y]|]; simpl.
    + split; [done|]. intros [_ H]. apply IH in H. done.
    + split; [|done]. intros _. split; [congruence|by apply IH].
Qed.

Lemma split_sep_Some d s a b :
  split_at_needle (String d EmptyString) s = Some (a, b) <->
  s = a +:+ String d b /\ no_char d a = true.
Proof.
  split; [|intros [-> ?]; by apply split_sep_app]. intros H. split.
  - apply split_at_needle_Some in H. done.
  - revert a H. induction s as [|c s IH]; intros a; cbn; [done|].
    destruct (Ascii.eqb_spec d c) as [<-|Hne]; [by intros [= <- <-]|].
    destruct (split_at_needle (String d EmptyString) s) as [[x y]|]; simpl; [|done].
    intros [= <- <-]. apply no_char_cons. split; [congruence|by apply IH].
Qed.

Lemma split_char_app d a b :
  no_char d a = true -> split_char d (a +:+ String d b) = a :: split_char d b.
Proof.
  induction a as [|c a IH]; intros Ha; cbn.
  - by rewrite Ascii.eqb_refl.
  - apply no_char_cons in Ha as [Hc Ha].
    destruct (Ascii.eqb_spec c d); [done|]. by rewrite IH.
Qed.

Lemma split_char_no d s : no_char d s = true -> split_char d s = [s].
Proof.
  induction s as [|c s IH]; intros Hs; cbn; [done|]. apply no_char_cons in Hs as [Hc Hs].
  destruct (Ascii.eqb_spec c d); [done|]. by rewrite IH.
Qed.

(** The string is cut at its separators and nothing is lost. *)
Lemma split_char_unfold d s :
  split_char d s = match split_at_needle (String d EmptyString) s with
                   | Some (a, b) => a :: split_char d b
                   | None => [s]
                   end.
Proof.
  destruct (split_at_needle _ s) as [[a b]|] eqn:E.
  - apply split_sep_Some in E as [-> ?]. by apply split_char_app.
  - apply split_sep_None in E. by apply split_char_no.
Qed.

(** *** Suffixes *)

Lemma app_suffix a b c d :
  a +:+ b = c +:+ d -> String.length b <= String.length d -> exists y, d = y +:+ b.
Proof.
  revert c. induction a as [|x a IH]; intros c Heq Hlen; cbn in Heq.
  - subst b. destruct c as [|x c]; [by exists EmptyString|].
    exfalso. cbn in Hlen. rewrite string_length_app in Hlen. lia.
  - destruct c as [|x' c]; cbn in Heq.
    + exists (String x a). by subst d.
    + injection Heq as _ Heq. by apply (IH c).
Qed.

Lemma byte_len_app a b : byte_len (a +:+ b) = byte_len a + byte_len b.
Proof. induction a as [|c a IH]; cbn; [done|]. rewrite IH. lia. Qed.

Lemma byte_len_pos c s : 0 < byte_len (String c s).
Proof. cbn. destruct (char_code c <? 128)%N; lia. Qed.

Lemma ends_with_spec x s : ends_with x s = true <-> exists r, s = r +:+ x.
Proof.
  unfold ends_with. split.
  - destruct (strip_suffix x s) as [r|] eqn:E; [|done]. intros _. exists r.
    by apply strip_suffix_Some.
  - intros [r ->]. by rewrite strip_suffix_app.
Qed.

(** ** Printed integers *)

Lemma digit_char_spec z :
  (0 <= z < 10)%Z ->
  is_ascii_digit (digit_char z) = true /\ (Z.of_N (char_code (digit_char z)) - 48)%Z = z.
Proof.
  intros Hz. assert (Hc : z ∈ [0; 1; 2; 3; 4; 5; 6; 7; 8; 9]%Z).
  { rewrite !elem_of_cons. lia. }
  repeat (apply elem_of_cons in Hc as [->|Hc]; [done|]). by apply elem_of_nil in Hc.
Qed.

(** Reading back the digits written for [z] and going on with [acc]. *)
Lemma digits_val_print fuel z acc :
  (0 <= z < 2 ^ Z.of_nat fuel)%Z -> digits_val 0 (print_digits fuel z acc) = digits_val z acc.
Proof.
  revert z acc. induction fuel as [|f IH]; intros z acc Hz.
  { simpl in *. by assert (z = 0)%Z as -> by lia. }
  cbn [print_digits].
  destruct (digit_char_spec (z mod 10)) as [Hd Hv]; [apply Z.mod_pos_bound; lia|].
  assert (Hstep : forall a, digits_val a (String (digit_char (z mod 10)) acc)
                            = digits_val (a * 10 + z mod 10) acc).
  { intros a. cbn [digits_val]. by rewrite Hd, Hv. }
  destruct (Z.ltb_spec z 10).
  - rewrite Hstep. f_equal. rewrite Z.mod_small by lia. lia.
  - rewrite IH, Hstep.
    + f_equal. pose proof (Z.div_mod z 10). lia.
    + rewrite Nat2Z.inj_succ, Z.pow_succ_r in Hz by lia.
      split; [apply Z.div_pos; lia|]. apply Z.div_lt_upper_bound; lia.
Qed.

Lemma print_digits_shape fuel z acc :
  (0 <= z)%Z -> string_forallb is_ascii_digit acc = true ->
  string_forallb is_ascii_digit (print_digits fuel z acc) = true.
Proof.
  revert z acc. induction fuel as [|f IH]; intros z acc Hz Hacc; [done|]. cbn [print_digits].
  destruct (digit_char_spec (z mod 10)) as [Hd _]; [apply Z.mod_pos_bound; lia|].
  assert (Hs : string_forallb is_ascii_digit (String (digit_char (z mod 10)) acc) = true)
    by (cbn; by rewrite Hd).
  destruct (z <? 10)%Z; [done|]. apply IH; [apply Z.div_pos; lia|done].
Qed.

Lemma print_digits_cons fuel z acc :
  exists c s, print_digits (S fuel) z acc = String c s.
Proof.
  revert z acc. induction fuel as [|f IH]; intros z acc; cbn [print_digits].
  - destruct (z <? 10)%Z; eauto.
  - destruct (z <? 10)%Z; [eauto|]. apply IH.
Qed.

Lemma print_Z_parse z : (0 <= z)%Z -> parse_digits (print_Z z) = Some z.
Proof.
  intros Hz. unfold print_Z. destruct (Z.ltb_spec z 0); [lia|]. unfold print_nonneg.
  destruct (print_digits_cons (Z.to_nat (Z.log2 z)) z EmptyString) as (c & s & Hp).
  unfold parse_digits. rewrite Hp, <- Hp, digits_val_print; [done|].
  rewrite Nat2Z.inj_succ, Z2Nat.id by apply Z.log2_nonneg.
  destruct (Z.eq_dec z 0%Z) as [->|Hne]; [done|]. pose proof (Z.log2_spec z). lia.
Qed.

Lemma print_Z_inj a b : (0 <= a)%Z -> (0 <= b)%Z -> print_Z a = print_Z b -> a = b.
Proof.
  intros Ha Hb Heq. pose proof (print_Z_parse a Ha) as Pa. rewrite Heq, print_Z_parse in Pa by done.
  congruence.
Qed.

Lemma print_Z_digits z : (0 <= z)%Z -> string_forallb is_ascii_digit (print_Z z) = true.
Proof.
  intros Hz. unfold print_Z. destruct (Z.ltb_spec z 0); [lia|]. by apply print_digits_shape.
Qed.

Lemma string_forallb_impl (f g : ascii -> bool) s :
  (forall c, f c = true -> g c = true) -> string_forallb f s = true -> string_forallb g s = true.
Proof.
  intros Hfg. induction s as [|c s IH]; simpl; [done|]. rewrite !andb_true_iff. intuition.
Qed.

Lemma digits_no_char d s :
  is_ascii_digit d = false -> string_forallb is_ascii_digit s = true -> no_char d s = true.
Proof.
  intros Hd. apply string_forallb_impl. intros c Hc. rewrite negb_true_iff.
  destruct (Ascii.eqb_spec c d); congruence.
Qed.

(** A prefix is determined by its length in bytes. *)
Lemma byte_len_prefix a b x y : a +:+ x = b +:+ y -> byte_len a = byte_len b -> a = b /\ x = y.
Proof.
  revert b. induction a as [|c a IH]; intros [|d b] Heq Hlen.
  - done.
  - pose proof (byte_len_pos d b). change (byte_len EmptyString) with 0 in Hlen. lia.
  - pose proof (byte_len_pos c a). change (byte_len EmptyString) with 0 in Hlen. lia.
  - cbn in Heq. injection Heq as -> Heq. cbn in Hlen.
    destruct (IH b Heq) as [-> ->]; [lia|done].
Qed.

(** *** Last segments *)

Lemma split_char_not_nil d s : split_char d s <> [].
Proof.
  destruct s as [|c s]; [done|]. cbn. destruct (Ascii.eqb c d); [done|].
  by destruct (split_char d s).
Qed.

Lemma split_char_sep d a b :
  split_char d (a +:+ String d b) = split_char d a ++ split_char d b.
Proof.
  induction a as [|c a IH]; cbn [String.append split_char].
  - by rewrite Ascii.eqb_refl.
  - rewrite IH. destruct (Ascii.eqb c d); [done|].
    pose proof (split_char_not_nil d a) as Hne. by destruct (split_char d a).
Qed.

Lemma last_segment_app d a b :
  no_char d b = true -> last_segment d (a +:+ String d b) = b.
Proof.
  intros Hb. unfold last_segment. by rewrite split_char_sep, (split_char_no d b), last_snoc by done.
Qed.

Lemma last_segment_no d s : no_char d s = true -> last_segment d s = s.
Proof. intros Hs. unfold last_segment. by rewrite split_char_no. Qed.

Lemma split_char_join d (l : list string) :
  l <> [] -> Forall (fun s => no_char d s = true) l ->
  split_char d (String.concat (String d EmptyString) l) = l.
Proof.
  intros Hne Hl. induction Hl as [|s l Hs Hl IH]; [done|].
  destruct l as [|t l]; [by apply split_char_no|].
  change (String.concat (String d EmptyString) (s :: t :: l))
    with (s +:+ String d (String.concat (String d EmptyString) (t :: l))).
  rewrite split_char_app by done. by rewrite IH.
Qed.

Lemma append_inj_r a b c : a +:+ c = b +:+ c -> a = b.
Proof.
  intros Heq. revert b Heq. induction a as [|x a IH]; intros [|y b] Heq; [done|..].
  - apply (f_equal String.length) in Heq. simpl in Heq. rewrite string_length_app in Heq. lia.
  - apply (f_equal String.length) in Heq. simpl in Heq. rewrite string_length_app in Heq. lia.
  - simpl in Heq. injection Heq as -> Heq. f_equal. by apply IH.
Qed.

(** UTF-8 is injective: the first byte tells the length of the character. *)
Lemma as_bytes_inj s t : as_bytes s = as_bytes t -> s = t.
Proof.
  assert (Hb : forall c, (0 <= Z.of_N (char_code c) < 256)%Z).
  { intros c. pose proof (N_ascii_bounded c). unfold char_code. lia. }
  assert (Hc : forall c d, Z.of_N (char_code c) = Z.of_N (char_code d) -> c = d).
  { intros c d ?%N2Z.inj. rewrite <- (ascii_N_embedding c), <- (ascii_N_embedding d). by f_equal. }
  revert t. induction s as [|c s IH]; intros [|d t]; cbn [as_bytes]; [done|..].
  - destruct (Z.of_N (char_code d) <? 128)%Z; done.
  - destruct (Z.of_N (char_code c) <? 128)%Z; done.
  - specialize (Hc c d). pose proof (Hb c). pose proof (Hb d).
    revert Hc. generalize dependent (Z.of_N (char_code c)). generalize dependent (Z.of_N (char_code d)).
    intros y Hy x Hx Hc. pose proof (Z.div_mod x 64 ltac:(lia)). pose proof (Z.div_mod y 64 ltac:(lia)).
    assert (0 <= x / 64 /\ 0 <= y / 64)%Z by (split; apply Z.div_pos; lia).
    destruct (Z.ltb_spec x 128), (Z.ltb_spec y 128); cbn [app]; intros [= ]; try lia.
    + f_equal; [by apply Hc|by apply IH].
    + f_equal; [apply Hc; lia|by apply IH].
Qed.

(** A text has as many bytes as [byte_len] counts, each of them a byte. *)
Lemma length_as_bytes s : length (as_bytes s) = byte_len s.
Proof.
  induction s as [|c s IH]; [done|]. cbn [as_bytes byte_len]. rewrite length_app, IH. f_equal.
  destruct (N.ltb_spec (char_code c) 128), (Z.ltb_spec (Z.of_N (char_code c)) 128); (done || lia).
Qed.
