(* ===== verification/Glob.v ===== *)
(** * Wildcard matching

    The iterative two-pointer matcher that fakecloud carries three times:
    [glob_match] in [fakecloud-iam/src/evaluator.rs], its copy [glob] in
    [fakecloud-iam/src/condition.rs], and [glob] over expanded pieces in
    [fakecloud-iam/src/policy_variables.rs].  The loop is written once over an
    abstract pattern alphabet: [eats p c] says that pattern element [p]
    consumes character [c] (the first branch of the loop) and [runs p] that
    it is a [*] (the second branch).  [ref_match] is the textbook definition
    of wildcard matching; the loop is related to it below. *)

From Stdlib Require Import ZArith Lia Bool String Ascii.
From stdpp Require Import base option list strings.
From S2P Require Import Prelude.

Section Matcher.
Context {P : Type} (eats : P -> ascii -> bool) (runs : P -> bool).

(** The four mutable variables of the loop. *)
Record glob_state := GlobState {
  gs_pi : nat;
  gs_vi : nat;
  gs_star : option nat;
  gs_star_v : nat
}.

(** The trailing [while pi < p.len() && p[pi] == '*' { pi += 1 }] followed by
    [pi == p.len()]. *)
Fixpoint only_runs (p : list P) : bool :=
  match p with
  | [] => true
  | x :: p' => runs x && only_runs p'
  end.

(** One iteration of [while vi < v.len()]: [inl] continues, [inr] returns. *)
Definition glob_step (p : list P) (v : list ascii) (st : glob_state)
  : glob_state + bool :=
  match v !! gs_vi st with
  | None => inr (only_runs (drop (gs_pi st) p))
  | Some c =>
      let eaten := match p !! gs_pi st with Some x => eats x c | None => false end in
      let star_here := match p !! gs_pi st with Some x => runs x | None => false end in
      if eaten then
        inl (GlobState (S (gs_pi st)) (S (gs_vi st)) (gs_star st) (gs_star_v st))
      else if star_here then
        inl (GlobState (S (gs_pi st)) (gs_vi st) (Some (gs_pi st)) (gs_vi st))
      else match gs_star st with
           | Some s => inl (GlobState (S s) (S (gs_star_v st)) (Some s) (S (gs_star_v st)))
           | None => inr false
           end
  end.

Fixpoint glob_loop (fuel : nat) (p : list P) (v : list ascii) (st : glob_state)
  : option bool :=
  match fuel with
  | 0 => None
  | S f =>
      match glob_step p v st with
      | inl st' => glob_loop f p v st'
      | inr b => Some b
      end
  end.

(** The number of iterations the loop can make: every iteration either
    advances [pi] or restarts after the last [*] one character later. *)
Definition glob_fuel (p : list P) (v : list ascii) : nat :=
  S (length v * S (length p) + length p).

Definition glob_run (p : list P) (v : list ascii) : option bool :=
  glob_loop (glob_fuel p v) p v (GlobState 0 0 None 0).

Definition glob_bool (p : list P) (v : list ascii) : bool :=
  default false (glob_run p v).

(** ** Reference semantics *)

Fixpoint ref_match (p : list P) : list ascii -> bool :=
  match p with
  | [] => fun v => match v with [] => true | _ => false end
  | x :: p' =>
      if runs x then
        fix any (v : list ascii) : bool :=
          ref_match p' v || match v with [] => false | _ :: v' => any v' end
      else
        fun v => match v with
                 | [] => false
                 | c :: v' => eats x c && ref_match p' v'
                 end
  end.

Lemma ref_match_run x p v :
  runs x = true ->
  ref_match (x :: p) v = true <-> exists k, k <= length v /\ ref_match p (drop k v) = true.
Proof.
  intros Hx. simpl. rewrite Hx. induction v as [|c v IH].
  - rewrite orb_false_r. split.
    + intros H. exists 0. by split.
    + intros (k & Hk & H). by rewrite drop_nil in H.
  - rewrite orb_true_iff. split.
    + intros [H|H].
      * exists 0. split; [lia|done].
      * apply IH in H as (k & Hk & H). exists (S k). simpl. split; [lia|done].
    + intros ([|k] & Hk & H).
      * by left.
      * right. apply IH. exists k. simpl in *. split; [lia|done].
Qed.

Lemma ref_match_one x p v :
  runs x = false ->
  ref_match (x :: p) v = match v with
                         | [] => false
                         | c :: v' => eats x c && ref_match p v'
                         end.
Proof. intros Hx. simpl. by rewrite Hx. Qed.

Lemma ref_match_nil p : ref_match p [] = only_runs p.
Proof.
  induction p as [|x p IH]; [done|]. simpl.
  destruct (runs x); [|done]. by rewrite orb_false_r, IH.
Qed.

(** [at_pos p v i j]: the rest of the pattern from [i] matches the rest of the
    value from [j]. *)
Definition at_pos (p : list P) (v : list ascii) (i j : nat) : Prop :=
  ref_match (drop i p) (drop j v) = true.

Lemma at_pos_eat p v i j x c :
  p !! i = Some x -> v !! j = Some c -> eats x c = true ->
  at_pos p v (S i) (S j) -> at_pos p v i j.
Proof.
  unfold at_pos. intros Hp Hv He H.
  rewrite (drop_S p x i Hp).
  destruct (runs x) eqn:Hr.
  - apply ref_match_run; [done|]. exists 1. rewrite drop_drop.
    apply lookup_lt_Some in Hv. rewrite length_drop.
    replace (j + 1) with (S j) by lia. split; [lia|done].
  - rewrite (drop_S v c j Hv), ref_match_one, He by done. done.
Qed.

Lemma at_pos_eat_inv p v i j x c :
  p !! i = Some x -> v !! j = Some c -> runs x = false ->
  at_pos p v i j -> eats x c = true /\ at_pos p v (S i) (S j).
Proof.
  unfold at_pos. intros Hp Hv Hr.
  rewrite (drop_S p x i Hp), (drop_S v c j Hv), ref_match_one by done.
  by intros [? ?]%andb_true_iff.
Qed.

Lemma at_pos_run p v i j x :
  p !! i = Some x -> runs x = true -> j <= length v ->
  at_pos p v i j <-> exists k, j <= k <= length v /\ at_pos p v (S i) k.
Proof.
  intros Hp Hr Hj. unfold at_pos. rewrite (drop_S p x i Hp), ref_match_run by done.
  rewrite length_drop. split.
  - intros (k & Hk & H). exists (j + k). rewrite drop_drop in H. split; [lia|done].
  - intros (k & Hk & H). exists (k - j). rewrite drop_drop.
    replace (j + (k - j)) with k by lia. split; [lia|done].
Qed.

Lemma at_pos_past p v i j : length p <= i -> at_pos p v i j <-> length v <= j.
Proof.
  intros Hi. unfold at_pos. rewrite (drop_ge p) by done. simpl.
  pose proof (length_drop v j). destruct (drop j v); simpl in *; split; try done; lia.
Qed.

(** ** Termination *)

Definition glob_measure (p : list P) (v : list ascii) (st : glob_state) : nat :=
  (length v - gs_star_v st) * S (length p) + (length p - gs_pi st).

Definition glob_inv (p : list P) (st : glob_state) : Prop :=
  gs_pi st <= length p /\ gs_star_v st <= gs_vi st
  /\ match gs_star st with Some s => s < length p | None => True end.

Lemma glob_step_inv p v st st' :
  glob_inv p st -> glob_step p v st = inl st' ->
  glob_inv p st' /\ glob_measure p v st' < glob_measure p v st.
Proof.
  destruct st as [i j star k]. unfold glob_inv, glob_measure, glob_step. simpl.
  intros (Hi & Hk & Hs). destruct (v !! j) as [c|] eqn:Hc; [|done].
  apply lookup_lt_Some in Hc.
  destruct (p !! i) as [x|] eqn:Hx.
  - apply lookup_lt_Some in Hx.
    destruct (eats x c); [intros [= <-]; simpl; repeat split; try done; lia|].
    destruct (runs x); [intros [= <-]; simpl; repeat split; try lia; nia|].
    destruct star as [s|]; [|done]. intros [= <-]. simpl. repeat split; try lia; nia.
  - destruct star as [s|]; [|done]. intros [= <-]. simpl. repeat split; try lia; nia.
Qed.

Lemma glob_loop_total p v fuel st :
  glob_inv p st -> glob_measure p v st < fuel -> exists b, glob_loop fuel p v st = Some b.
Proof.
  revert st. induction fuel as [|f IH]; intros st Hinv Hm; [lia|]. simpl.
  destruct (glob_step p v st) as [st'|b] eqn:E; [|by eexists].
  destruct (glob_step_inv p v st st' Hinv E). apply IH; [done|lia].
Qed.

Lemma glob_run_total p v : exists b, glob_run p v = Some b.
Proof.
  apply glob_loop_total; unfold glob_inv, glob_measure, glob_fuel; simpl; repeat split; lia.
Qed.

(** ** Soundness: the loop never accepts what the reference rejects *)

Definition glob_sound_inv (p : list P) (v : list ascii) (st : glob_state) : Prop :=
  (at_pos p v (gs_pi st) (gs_vi st) -> at_pos p v 0 0)
  /\ gs_vi st <= length v /\ gs_star_v st <= gs_vi st
  /\ forall s, gs_star st = Some s ->
       forall k, gs_star_v st <= k <= length v -> at_pos p v (S s) k -> at_pos p v 0 0.

Lemma glob_sound_step p v st :
  glob_sound_inv p v st ->
  match glob_step p v st with
  | inl st' => glob_sound_inv p v st'
  | inr b => b = true -> at_pos p v 0 0
  end.
Proof.
  destruct st as [i j star k]. unfold glob_sound_inv, glob_step. simpl.
  intros (Hij & Hj & Hk & Hstar).
  destruct (v !! j) as [c|] eqn:Hc.
  2: { apply lookup_ge_None in Hc. intros H. apply Hij. unfold at_pos.
       rewrite (drop_ge v) by done. by rewrite ref_match_nil. }
  pose proof (lookup_lt_Some _ _ _ Hc).
  assert (Hback : match star with
          | Some s => glob_sound_inv p v (GlobState (S s) (S k) (Some s) (S k))
          | None => True end).
  { destruct star as [s|]; [|done]. unfold glob_sound_inv. simpl.
    repeat split; try lia.
    - apply (Hstar s); [done|lia].
    - intros s' [= <-] k' Hk'. apply (Hstar s); [done|lia]. }
  destruct (p !! i) as [x|] eqn:Hx; [|by destruct star].
  destruct (eats x c) eqn:He; simpl.
  { repeat split; try lia.
    - intros H'. apply Hij. by eapply at_pos_eat.
    - intros s Hs k' Hk'. apply (Hstar s); [done|lia]. }
  destruct (runs x) eqn:Hr; simpl; [|by destruct star].
  repeat split; try lia.
  - intros H'. apply Hij, (at_pos_run p v i j x); [done..|]. exists j. split; [lia|done].
  - intros s [= <-] k' Hk' H'. apply Hij, (at_pos_run p v i j x); [done..|].
    exists k'. split; [lia|done].
Qed.

Lemma glob_loop_sound p v fuel st :
  glob_sound_inv p v st -> glob_loop fuel p v st = Some true -> at_pos p v 0 0.
Proof.
  revert st. induction fuel as [|f IH]; intros st Hinv; simpl; [done|].
  pose proof (glob_sound_step p v st Hinv) as Hs.
  destruct (glob_step p v st) as [st'|b]; [by apply IH|].
  intros [= ->]. by apply Hs.
Qed.

Lemma glob_bool_sound p v : glob_bool p v = true -> ref_match p v = true.
Proof.
  unfold glob_bool, glob_run. intros H.
  destruct (glob_loop _ p v _) as [[|]|] eqn:E; try done.
  apply glob_loop_sound in E.
  - unfold at_pos in E. by rewrite !drop_0 in E.
  - repeat split; simpl; try done; lia.
Qed.

(** ** Completeness, when no [*] element can be consumed as a character *)

(** Elements between the last [*] and the current position are not [*], and
    each consumed one character. *)
Definition glob_inv_full (p : list P) (v : list ascii) (st : glob_state) : Prop :=
  gs_vi st <= length v
  /\ match gs_star st with
     | None => at_pos p v 0 0 -> at_pos p v (gs_pi st) (gs_vi st)
     | Some s =>
         s < gs_pi st
         /\ gs_vi st = gs_star_v st + (gs_pi st - S s)
         /\ (forall i x, S s <= i < gs_pi st -> p !! i = Some x -> runs x = false)
         /\ (at_pos p v 0 0 -> at_pos p v (gs_pi st) (gs_vi st)
             \/ exists k, gs_star_v st < k <= length v /\ at_pos p v (S s) k)
     end.

(** Elements that are not [*] consume one character each. *)
Lemma at_pos_fixed p v n i k :
  i + n <= length p ->
  (forall i' x, i <= i' < i + n -> p !! i' = Some x -> runs x = false) ->
  at_pos p v i k -> k + n <= Nat.max k (length v) /\ at_pos p v (i + n) (k + n).
Proof.
  revert i k. induction n as [|n IH]; intros i k Hlen Hno H.
  - rewrite !Nat.add_0_r. split; [lia|done].
  - destruct (lookup_lt_is_Some_2 p i) as [x Hx]; [lia|].
    assert (Hr : runs x = false) by (eapply Hno; [|done]; lia).
    destruct (v !! k) as [c|] eqn:Hc.
    + destruct (at_pos_eat_inv p v i k x c Hx Hc Hr H) as [_ H'].
      apply lookup_lt_Some in Hc. rewrite <- !Nat.add_succ_comm.
      destruct (IH (S i) (S k)) as [? ?]; [lia| |done|].
      * intros i' x' Hi'. apply Hno. lia.
      * split; [lia|done].
    + apply lookup_ge_None in Hc. unfold at_pos in H.
      rewrite (drop_S p x i Hx), (drop_ge v), ref_match_one in H by done. done.
Qed.

Section Disjoint.
Context (p : list P) (v : list ascii).
Hypothesis disjoint : forall x c, x ∈ p -> c ∈ v -> runs x = true -> eats x c = false.

Lemma eaten_not_run i j x c :
  p !! i = Some x -> v !! j = Some c -> eats x c = true -> runs x = false.
Proof.
  intros Hx Hc He. destruct (runs x) eqn:Hr; [|done].
  apply list_elem_of_lookup_2 in Hx, Hc. rewrite (disjoint x c) in He; done.
Qed.

(** Backtracking: the current alignment is dead, the next start is tried. *)
Lemma glob_full_back i j s k :
  j < length v -> i <= length p -> s < i -> j = k + (i - S s) ->
  (~ at_pos p v i j) ->
  (at_pos p v 0 0 -> at_pos p v i j
     \/ exists k', k < k' <= length v /\ at_pos p v (S s) k') ->
  glob_inv_full p v (GlobState (S s) (S k) (Some s) (S k)).
Proof.
  intros Hj Hi Hs Hjk Hdead Halt. unfold glob_inv_full; simpl.
  repeat split; try lia.
  intros H. destruct (Halt H) as [?|(k' & Hk' & Hat)]; [done|].
  destruct (decide (k' = S k)) as [->|]; [by left|].
  right. exists k'. split; [lia|done].
Qed.

(** A new [*] subsumes the alternatives of the previous one. *)
Lemma glob_full_run i j star k x :
  glob_inv_full p v (GlobState i j star k) -> i <= length p ->
  p !! i = Some x -> runs x = true -> j < length v ->
  glob_inv_full p v (GlobState (S i) j (Some i) j).
Proof.
  unfold glob_inv_full; simpl. intros [Hj Hst] Hi Hx Hr Hjv.
  assert (Hcur : at_pos p v i j ->
    at_pos p v (S i) j \/ exists k', j < k' <= length v /\ at_pos p v (S i) k').
  { intros Hat. apply (at_pos_run p v i j x) in Hat as (k' & Hk' & Hat); [|done..].
    destruct (decide (k' = j)) as [->|]; [by left|]. right. exists k'. split; [lia|done]. }
  repeat split; try lia. intros H. destruct star as [s|]; [|by apply Hcur, Hst].
  destruct Hst as (Hs & Heq & Hfix & Halt).
  destruct (Halt H) as [?|(k' & Hk' & Hat)]; [by apply Hcur|].
  destruct (at_pos_fixed p v (i - S s) (S s) k') as [Hle Hat'];
    [lia|intros i' x' Hi'; apply Hfix; lia|done|].
  replace (S s + (i - S s)) with i in Hat' by lia.
  apply (at_pos_run p v i _ x) in Hat' as (k2 & Hk2 & Hat2); [|done|done|lia].
  right. exists k2. split; [lia|done].
Qed.

Lemma at_pos_dead i j x c :
  p !! i = Some x -> v !! j = Some c -> runs x = false -> eats x c = false ->
  ~ at_pos p v i j.
Proof.
  intros Hx Hc Hr He H. destruct (at_pos_eat_inv p v i j x c Hx Hc Hr H). congruence.
Qed.

Lemma glob_full_step st :
  glob_inv p st -> glob_inv_full p v st ->
  match glob_step p v st with
  | inl st' => glob_inv_full p v st'
  | inr b => at_pos p v 0 0 -> b = true
  end.
Proof.
  destruct st as [i j star k]. intros Hbase Hfull.
  pose proof Hfull as [Hj Hst]. destruct Hbase as (Hi & Hk & Hs). simpl in *.
  unfold glob_step. simpl. destruct (v !! j) as [c|] eqn:Hc.
  2: { apply lookup_ge_None in Hc.
    assert (Hend : at_pos p v i j -> only_runs (drop i p) = true).
    { unfold at_pos. rewrite (drop_ge v), ref_match_nil by lia. done. }
    intros H. destruct star as [s|]; [|by apply Hend, Hst].
    destruct Hst as (Hsi & Heq & Hfix & Halt).
    destruct (Halt H) as [?|(k' & Hk' & Hat)]; [by apply Hend|].
    destruct (at_pos_fixed p v (i - S s) (S s) k'); [lia| |done|lia].
    intros i' x' Hi'. apply Hfix. lia. }
  pose proof (lookup_lt_Some _ _ _ Hc).
  destruct (p !! i) as [x|] eqn:Hx.
  - destruct (eats x c) eqn:He.
    + pose proof (eaten_not_run i j x c Hx Hc He) as Hr.
      unfold glob_inv_full; simpl. split; [lia|].
      assert (Hadv : at_pos p v i j -> at_pos p v (S i) (S j)).
      { intros Hat. by destruct (at_pos_eat_inv p v i j x c Hx Hc Hr Hat). }
      destruct star as [s|]; [|by auto].
      destruct Hst as (Hsi & Heq & Hfix & Halt). repeat split; try lia.
      * intros i' x' Hi' Hx'. destruct (decide (i' = i)) as [->|]; [congruence|].
        apply (Hfix i'); [lia|done].
      * intros H'. destruct (Halt H') as [?|?]; [left; by apply Hadv|by right].
    + destruct (runs x) eqn:Hr; [by eapply glob_full_run|].
      pose proof (at_pos_dead i j x c Hx Hc Hr He) as Hdead.
      destruct star as [s|]; [|intros Hg; by apply Hst in Hg].
      destruct Hst as (Hsi & Heq & Hfix & Halt).
      by apply (glob_full_back i j).
  - apply lookup_ge_None in Hx.
    assert (Hdead : ~ at_pos p v i j) by (rewrite at_pos_past by done; lia).
    destruct star as [s|]; [|intros Hg; by apply Hst in Hg].
    destruct Hst as (Hsi & Heq & Hfix & Halt). by apply (glob_full_back i j).
Qed.

Lemma glob_loop_complete fuel st b :
  glob_inv p st -> glob_inv_full p v st -> glob_loop fuel p v st = Some b ->
  at_pos p v 0 0 -> b = true.
Proof.
  revert st. induction fuel as [|f IH]; intros st Hb Hf; simpl; [done|].
  pose proof (glob_full_step st Hb Hf) as Hs.
  destruct (glob_step p v st) as [st'|b'] eqn:E; [|by intros [= <-]].
  apply IH; [|done]. by destruct (glob_step_inv p v st st' Hb E).
Qed.

Lemma glob_bool_complete : glob_bool p v = ref_match p v.
Proof.
  apply eq_bool_prop_intro. split.
  - intros H. apply Is_true_true, glob_bool_sound. by apply Is_true_true.
  - intros H. apply Is_true_true in H. apply Is_true_true.
    destruct (glob_run_total p v) as [b Hb]. unfold glob_bool. rewrite Hb. simpl.
    eapply glob_loop_complete; [| |exact Hb|unfold at_pos; by rewrite !drop_0].
    + repeat split; simpl; lia.
    + split; simpl; [lia|done].
Qed.
End Disjoint.
End Matcher.

(** ** Concatenation of patterns *)

Section Concatenation.
Context {P : Type} (eats : P -> ascii -> bool) (runs : P -> bool).

Lemma ref_match_app p q v :
  ref_match eats runs (p ++ q) v = true
  <-> exists v1 v2, v = v1 ++ v2 /\ ref_match eats runs p v1 = true
                    /\ ref_match eats runs q v2 = true.
Proof.
  revert v. induction p as [|x p IH]; intros v.
  - simpl. split.
    + intros H. by exists [], v.
    + by intros ([|? ?] & v2 & -> & H1 & H2).
  - destruct (runs x) eqn:Hx; cbn [app].
    + rewrite ref_match_run by done. split.
      * intros (k & Hk & (v1 & v2 & Hv & H1 & H2)%IH).
        exists (take k v ++ v1), v2. split_and!; [|apply ref_match_run; [done|]|done].
        -- by rewrite <- app_assoc, <- Hv, take_drop.
        -- exists k. rewrite length_app, length_take, drop_app_length' by (rewrite length_take; lia).
           split; [lia|done].
      * intros (v1 & v2 & -> & (k & Hk & H1)%ref_match_run & H2); [|done].
        exists k. rewrite length_app, drop_app_le by done. split; [lia|].
        apply IH. by exists (drop k v1), v2.
    + rewrite ref_match_one by done. split.
      * destruct v as [|c v]; [done|]. intros [He (v1 & v2 & -> & H1 & H2)%IH]%andb_true_iff.
        exists (c :: v1), v2. split_and!; [done| |done].
        rewrite ref_match_one by done. by rewrite He.
      * intros (v1 & v2 & -> & H1 & H2). rewrite ref_match_one in H1 by done.
        destruct v1 as [|c v1]; [done|]. apply andb_true_iff in H1 as [He H1]. simpl.
        rewrite He. apply IH. by exists v1, v2.
Qed.

End Concatenation.
