(* ===== verification/Json.v ===== *)
(** * JSON values and numbers

    [serde_json::Value] as the data type the modelled code matches on, with
    the accessors it uses ([get], indexing, [as_str], [as_array], ...), and
    Rust's [f64] as the executable IEEE 754 binary64 of the standard library
    ([SpecFloat], precision 53, maximal exponent 1024).

    [serde_json] itself is a third-party package: parsing JSON text and
    printing a floating-point number are parameters, the fields of the class
    [SerdeJson].  Object members are an association list in iteration order
    (the lock file enables [serde_json]'s insertion-ordered map). *)

From Stdlib Require Import ZArith Lia Bool String Ascii SpecFloat.
From stdpp Require Import base option list strings.
From S2P Require Import Prelude.

(** ** f64 *)

Definition f64 : Type := spec_float.

Definition f64_prec : Z := 53.
Definition f64_emax : Z := 1024.

(** [x as f64] for an integer. *)
Definition f64_of_Z (z : Z) : f64 := binary_normalize f64_prec f64_emax z 0 false.

Definition f64_eqb (x y : f64) : bool := SFeqb x y.
Definition f64_ltb (x y : f64) : bool := SFltb x y.
Definition f64_leb (x y : f64) : bool := SFleb x y.

(** The correctly rounded value of [(-1)^s * m * 10^e]. *)
Definition f64_of_decimal (s : bool) (m : Z) (e : Z) : f64 :=
  if (m =? 0)%Z then S754_zero s
  else if (0 <=? e)%Z
  then binary_normalize f64_prec f64_emax (cond_Zopp s (m * 10 ^ e)) 0 s
  else let '(q, e', l) := SFdiv_core_binary f64_prec f64_emax m 0 (10 ^ (- e)) 0 in
       binary_round_aux f64_prec f64_emax s q e' l.

(** Leading digits of a string: their value, how many, and the rest. *)
Fixpoint take_digits (acc : Z) (n : nat) (s : string) : Z * nat * string :=
  match s with
  | String c s' =>
      if is_ascii_digit c
      then take_digits (acc * 10 + (Z.of_N (char_code c) - 48)) (S n) s'
      else (acc, n, s)
  | EmptyString => (acc, n, EmptyString)
  end.

Definition split_sign (s : string) : bool * string :=
  match s with
  | String "-" s' => (true, s')
  | String "+" s' => (false, s')
  | _ => (false, s)
  end.

(** [e[sign]digits] at the end of a number; [Some 0] when absent. *)
Definition parse_exponent (s : string) : option Z :=
  match s with
  | EmptyString => Some 0%Z
  | String c s' =>
      if Ascii.eqb (ascii_lower c) "e" then
        let '(neg, d) := split_sign s' in
        (fun e : Z => if neg then (- e)%Z else e) <$> parse_digits d
      else None
  end.

(** [str::parse::<f64>()]. *)
Definition parse_f64 (s : string) : option f64 :=
  let '(neg, body) := split_sign s in
  let low := to_ascii_lowercase body in
  if String.eqb low "inf" || String.eqb low "infinity" then Some (S754_infinity neg)
  else if String.eqb low "nan" then Some S754_nan
  else
    let '(ip, ni, rest) := take_digits 0 0 body in
    let '(m, nf, rest') :=
      match rest with
      | String "." r => take_digits ip 0 r
      | _ => (ip, 0, rest)
      end in
    if Nat.eqb (ni + nf) 0 then None
    else (fun e => f64_of_decimal neg m (e - Z.of_nat nf)) <$> parse_exponent rest'.

(** ** Values *)

Inductive Number : Type :=
| PosInt (n : Z)      (* u64 *)
| NegInt (n : Z)      (* a negative i64 *)
| Float (x : f64).

Unset Elimination Schemes.
Inductive Value : Type :=
| Null
| VBool (b : bool)
| VNumber (n : Number)
| VString (s : string)
| VArray (l : list Value)
| VObject (m : list (string * Value)).
Set Elimination Schemes.

Section Induction.
Context (Q : Value -> Prop).
Context (HNull : Q Null) (HBool : forall b, Q (VBool b)) (HNum : forall n, Q (VNumber n))
  (HStr : forall s, Q (VString s)) (HArr : forall l, Forall Q l -> Q (VArray l))
  (HObj : forall m, Forall (fun kv => Q kv.2) m -> Q (VObject m)).

Fixpoint Value_ind (v : Value) : Q v :=
  match v with
  | Null => HNull
  | VBool b => HBool b
  | VNumber n => HNum n
  | VString s => HStr s
  | VArray l =>
      HArr l ((fix go (l : list Value) : Forall Q l :=
                 match l with
                 | [] => List.Forall_nil _
                 | x :: l' => List.Forall_cons _ _ _ (Value_ind x) (go l')
                 end) l)
  | VObject m =>
      HObj m ((fix go (m : list (string * Value)) : Forall (fun kv => Q kv.2) m :=
                 match m with
                 | [] => List.Forall_nil _
                 | kv :: m' => List.Forall_cons _ _ _ (Value_ind kv.2) (go m')
                 end) m)
  end.
End Induction.

(** Association-list lookup ([Map::get]). *)
Fixpoint assoc {A} (k : string) (m : list (string * A)) : option A :=
  match m with
  | [] => None
  | (k', a) :: m' => if String.eqb k' k then Some a else assoc k m'
  end.

Definition as_object (v : Value) : option (list (string * Value)) :=
  match v with VObject m => Some m | _ => None end.

Definition as_array (v : Value) : option (list Value) :=
  match v with VArray l => Some l | _ => None end.

Definition as_str (v : Value) : option string :=
  match v with VString s => Some s | _ => None end.

Definition as_bool (v : Value) : option bool :=
  match v with VBool b => Some b | _ => None end.

Definition number_as_f64 (n : Number) : f64 :=
  match n with PosInt z | NegInt z => f64_of_Z z | Float x => x end.

Definition as_f64 (v : Value) : option f64 :=
  match v with VNumber n => Some (number_as_f64 n) | _ => None end.

Definition as_i64 (v : Value) : option Z :=
  match v with
  | VNumber (PosInt z) => if (z <=? i64_max)%Z then Some z else None
  | VNumber (NegInt z) => Some z
  | _ => None
  end.

(** [Value::get] with a string key. *)
Definition get (k : string) (v : Value) : option Value :=
  as_object v ≫= assoc k.

(** [value["key"]]: [Null] when absent or not an object. *)
Definition index (v : Value) (k : string) : Value := default Null (get k v).

(** ** Equality *)

(** [PartialEq for Number]. *)
Definition number_eqb (x y : Number) : bool :=
  match x, y with
  | PosInt a, PosInt b | NegInt a, NegInt b => Z.eqb a b
  | Float a, Float b => f64_eqb a b
  | _, _ => false
  end.

(** [PartialEq for Value]: objects are compared as maps. *)
Fixpoint value_eqb (a b : Value) {struct a} : bool :=
  match a, b with
  | Null, Null => true
  | VBool x, VBool y => Bool.eqb x y
  | VNumber x, VNumber y => number_eqb x y
  | VString x, VString y => String.eqb x y
  | VArray l1, VArray l2 =>
      (fix go (l1 l2 : list Value) : bool :=
         match l1, l2 with
         | [], [] => true
         | x :: l1', y :: l2' => value_eqb x y && go l1' l2'
         | _, _ => false
         end) l1 l2
  | VObject m1, VObject m2 =>
      Nat.eqb (length m1) (length m2)
      && (fix go (m1 : list (string * Value)) : bool :=
            match m1 with
            | [] => true
            | (k, x) :: m1' =>
                match assoc k m2 with
                | Some y => value_eqb x y && go m1'
                | None => false
                end
            end) m1
  | _, _ => false
  end.

(** ** The parts of [serde_json] that are not modelled *)

Class SerdeJson := {
  json_from_str : string -> option Value;   (* serde_json::from_str::<Value> *)
  json_float_to_string : f64 -> string      (* Display of a float Number *)
}.

Definition number_to_string `{SerdeJson} (n : Number) : string :=
  match n with
  | PosInt z | NegInt z => print_Z z
  | Float x => json_float_to_string x
  end.

(** ** Facts about f64 comparisons used by the operators *)

Lemma SFcompare_flip x y :
  SFcompare y x = (fun c => CompOpp c) <$> SFcompare x y.
Proof.
  destruct x as [sx|sx| |sx mx ex], y as [sy|sy| |sy my ey]; simpl; try done;
    try (by destruct sx); try (by destruct sy); try (by destruct sx, sy).
  destruct sx, sy; simpl; try done.
  - destruct (Z.compare_spec ex ey) as [->|?|?].
    + rewrite Z.compare_refl. simpl. do 2 f_equal.
      change (Pcompare my mx Eq) with (Pos.compare my mx).
      change (Pcompare mx my Eq) with (Pos.compare mx my).
      by rewrite (Pos.compare_antisym mx my).
    + rewrite (proj2 (Z.compare_gt_iff _ _)) by done. done.
    + rewrite (proj2 (Z.compare_lt_iff _ _)) by done. done.
  - destruct (Z.compare_spec ex ey) as [->|?|?].
    + rewrite Z.compare_refl. simpl. f_equal.
      change (Pcompare my mx Eq) with (Pos.compare my mx).
      change (Pcompare mx my Eq) with (Pos.compare mx my).
      by rewrite (Pos.compare_antisym mx my).
    + rewrite (proj2 (Z.compare_gt_iff _ _)) by done. done.
    + rewrite (proj2 (Z.compare_lt_iff _ _)) by done. done.
Qed.

(** [<=] is [<] or [==]. *)
Lemma f64_leb_split x y : f64_leb x y = f64_ltb x y || f64_eqb x y.
Proof.
  unfold f64_leb, f64_ltb, f64_eqb, SFleb, SFltb, SFeqb.
  by destruct (SFcompare x y) as [[]|].
Qed.

(** At most one of [<], [==], [>] holds. *)
Lemma f64_lt_excl x y :
  f64_ltb x y = true -> f64_ltb y x = false /\ f64_eqb x y = false.
Proof.
  unfold f64_ltb, f64_eqb, SFltb, SFeqb. rewrite (SFcompare_flip x y).
  by destruct (SFcompare x y) as [[]|].
Qed.
