(* ===== verification/Net.v ===== *)
(** * IP addresses and CIDR blocks

    [std::net::IpAddr] with the standard library's parser and printer, and the
    two CIDR tests of the repository: [cidr_match] of
    [fakecloud-iam/src/condition.rs] (policy [IpAddress] operators) and
    [cidr_matches] of [fakecloud-aws/src/event_pattern.rs] (event patterns). *)

From Stdlib Require Import ZArith Lia Bool String Ascii.
From stdpp Require Import base option list strings.
From S2P Require Import Prelude.

Local Open Scope Z_scope.

(** An address as the big-endian integer [u32::from] / [u128::from] gives. *)
Inductive IpAddr : Type :=
| V4 (bits : Z)
| V6 (bits : Z).

(** ** Parsing ([core::net::parser]) *)

Definition to_digit (radix : Z) (c : ascii) : option Z :=
  let n := Z.of_N (char_code c) in
  let d := if is_ascii_digit c then Some (n - 48)
           else if is_ascii_lower c then Some (n - 87)
           else if is_ascii_upper c then Some (n - 55)
           else None in
  d ≫= fun d => if d <? radix then Some d else None.

(** All leading digits, with their count. *)
Fixpoint read_digits (radix acc : Z) (n : nat) (s : string) : Z * nat * string :=
  match s with
  | String c s' =>
      match to_digit radix c with
      | Some d => read_digits radix (acc * radix + d) (S n) s'
      | None => (acc, n, s)
      end
  | EmptyString => (acc, n, EmptyString)
  end.

(** [Parser::read_number]: at most [max_digits] digits, a value of at most
    [hi], and no leading zero unless allowed. *)
Definition read_number (radix : Z) (max_digits : nat) (hi : Z) (zero_prefix : bool)
  (s : string) : option (Z * string) :=
  let '(z, n, rest) := read_digits radix 0 0 s in
  let leading_zero := starts_with "0" s in
  if Nat.ltb max_digits n || Nat.eqb n 0 then None
  else if negb zero_prefix && leading_zero && Nat.ltb 1 n then None
  else if z <=? hi then Some (z, rest) else None.

Definition read_sep (sep : string) (s : string) : option string := strip_prefix sep s.

Definition read_octet (s : string) : option (Z * string) := read_number 10 3 255 false s.

(** [Parser::read_ipv4_addr]. *)
Definition read_ipv4 (s : string) : option (Z * string) :=
  '(a, s) ← read_octet s;
  s ← read_sep "." s;
  '(b, s) ← read_octet s;
  s ← read_sep "." s;
  '(c, s) ← read_octet s;
  s ← read_sep "." s;
  '(d, s) ← read_octet s;
  Some (((a * 256 + b) * 256 + c) * 256 + d, s).

(** The groups of an IPv6 address, at most [limit]; [i] counts those already
    read.  The flag says that an embedded IPv4 address ended the list. *)
Fixpoint read_groups (limit i : nat) (s : string) : list Z * bool * string :=
  match limit with
  | O => ([], false, s)
  | S limit' =>
      let here := if Nat.eqb i 0 then Some s else read_sep ":" s in
      let v4 := if Nat.ltb 0 limit' then here ≫= read_ipv4 else None in
      match v4 with
      | Some (z, rest) => ([z / 65536; z mod 65536], true, rest)
      | None =>
          match here ≫= read_number 16 4 65535 true with
          | Some (g, rest) =>
              let '(gs, e, rest') := read_groups limit' (S i) rest in
              (g :: gs, e, rest')
          | None => ([], false, s)
          end
      end
  end.

Definition groups_to_Z (gs : list Z) : Z := foldl (fun acc g => acc * 65536 + g) 0 gs.

(** [Parser::read_ipv6_addr]. *)
Definition read_ipv6 (s : string) : option (Z * string) :=
  let '(hd, hd_v4, rest) := read_groups 8 0 s in
  if Nat.eqb (length hd) 8 then Some (groups_to_Z hd, rest)
  else if hd_v4 then None
  else
    rest ← read_sep "::" rest;
    let '(tl, _, rest') := read_groups (8 - (length hd + 1)) 0 rest in
    Some (groups_to_Z (hd ++ replicate (8 - length hd - length tl) 0 ++ tl), rest').

(** [IpAddr::from_str]: the whole string must be consumed. *)
Definition parse_ip (s : string) : option IpAddr :=
  match read_ipv4 s with
  | Some (z, rest) => if is_empty_str rest then Some (V4 z) else None
  | None =>
      match read_ipv6 s with
      | Some (z, rest) => if is_empty_str rest then Some (V6 z) else None
      | None => None
      end
  end.

(** ** Printing ([Display for IpAddr]) *)

Definition octet (z : Z) (i : Z) : Z := (z / 256 ^ i) mod 256.

Definition print_ipv4 (z : Z) : string :=
  print_Z (octet z 3) +:+ "." +:+ print_Z (octet z 2) +:+ "."
  +:+ print_Z (octet z 1) +:+ "." +:+ print_Z (octet z 0).

Definition hex_char (z : Z) : ascii :=
  if z <? 10 then ascii_of_N (Z.to_N (48 + z)) else ascii_of_N (Z.to_N (87 + z)).

(** [{:x}] of a 16-bit group: no leading zeros. *)
Definition print_hex16 (z : Z) : string :=
  let d3 := z / 4096 in
  let d2 := (z / 256) mod 16 in
  let d1 := (z / 16) mod 16 in
  let tail := String (hex_char (z mod 16)) EmptyString in
  if z <? 16 then tail
  else if z <? 256 then String (hex_char d1) tail
  else if z <? 4096 then String (hex_char d2) (String (hex_char d1) tail)
  else String (hex_char d3) (String (hex_char d2) (String (hex_char d1) tail)).

Definition segments (z : Z) : list Z :=
  (fun i => (z / 65536 ^ i) mod 65536) <$> [7; 6; 5; 4; 3; 2; 1; 0].

Fixpoint join_hex (gs : list Z) : string :=
  match gs with
  | [] => EmptyString
  | [g] => print_hex16 g
  | g :: gs' => print_hex16 g +:+ ":" +:+ join_hex gs'
  end.

(** The longest run of zero groups (the first among equals): start, length. *)
Fixpoint zero_span (i : nat) (cur longest : nat * nat) (gs : list Z) : nat * nat :=
  match gs with
  | [] => longest
  | g :: gs' =>
      if g =? 0 then
        let cur' := if Nat.eqb cur.2 0 then (i, 1%nat) else (cur.1, S cur.2) in
        zero_span (S i) cur' (if Nat.ltb longest.2 cur'.2 then cur' else longest) gs'
      else zero_span (S i) (0%nat, 0%nat) longest gs'
  end.

Definition print_ipv6 (z : Z) : string :=
  if z / 2 ^ 32 =? 65535 then "::ffff:" +:+ print_ipv4 (z mod 2 ^ 32)
  else
    let gs := segments z in
    let '(st, len) := zero_span 0 (0%nat, 0%nat) (0%nat, 0%nat) gs in
    if Nat.ltb 1 len
    then join_hex (take st gs) +:+ "::" +:+ join_hex (drop (st + len) gs)
    else join_hex gs.

Definition ip_to_string (ip : IpAddr) : string :=
  match ip with V4 z => print_ipv4 z | V6 z => print_ipv6 z end.

(** ** CIDR membership *)

(** [uW::MAX << (W - pl)], with the bits shifted out of the word dropped; the
    code special-cases a zero prefix, where the shift would be too large. *)
Definition prefix_mask (w pl : Z) : Z :=
  if pl =? 0 then 0 else (Z.shiftl (2 ^ w - 1) (w - pl)) mod 2 ^ w.

Definition same_network (w pl n a : Z) : bool :=
  Z.land n (prefix_mask w pl) =? Z.land a (prefix_mask w pl).

(** [condition.rs::cidr_match]. *)
Definition cidr_match (pattern value : string) : bool :=
  match parse_ip value with
  | None => false
  | Some addr =>
      let parts :=
        match split_once "/" pattern with
        | Some (n, p) => (fun pl => (n, Some pl)) <$> parse_u8 p
        | None => Some (pattern, None)
        end in
      match parts with
      | None => false
      | Some (net_str, prefix_len) =>
          match parse_ip net_str with
          | None => false
          | Some net =>
              match net, addr with
              | V4 n, V4 a =>
                  let pl := default 32 prefix_len in
                  if 32 <? pl then false else same_network 32 pl n a
              | V6 n, V6 a =>
                  let pl := default 128 prefix_len in
                  if 128 <? pl then false else same_network 128 pl n a
              | _, _ => false
              end
          end
      end
  end.

(** [event_pattern.rs::masked_v4] / [masked_v6]. *)
Definition masked (w addr pl : Z) : Z :=
  if pl =? 0 then 0 else Z.land addr ((Z.shiftl (2 ^ w - 1) (w - pl)) mod 2 ^ w).

(** [event_pattern.rs::cidr_matches]. *)
Definition cidr_matches (cidr actual : string) : bool :=
  let parts :=
    match split_once "/" cidr with
    | Some (n, p) => (fun pl => (n, Some pl)) <$> parse_u32 p
    | None => Some (cidr, None)
    end in
  match parts with
  | None => false
  | Some (net_str, prefix) =>
      match parse_ip net_str, parse_ip actual with
      | Some (V4 n), Some (V4 v) =>
          let pl := default 32 prefix in
          (pl <=? 32) && (masked 32 n pl =? masked 32 v pl)
      | Some (V6 n), Some (V6 v) =>
          let pl := default 128 prefix in
          (pl <=? 128) && (masked 128 n pl =? masked 128 v pl)
      | _, _ => false
      end
  end.

(** ** Correctness *)

(** Masking keeps exactly the top [pl] bits. *)
Lemma land_prefix_mask w pl n :
  0 < pl <= w -> 0 <= n < 2 ^ w ->
  Z.land n (prefix_mask w pl) = Z.shiftl (Z.shiftr n (w - pl)) (w - pl).
Proof.
  intros Hpl Hn. unfold prefix_mask. destruct (Z.eqb_spec pl 0); [lia|].
  apply Z.bits_inj'. intros i Hi.
  rewrite Z.land_spec, Z.shiftl_spec by lia.
  destruct (Z.lt_ge_cases i w) as [Hlt|Hge].
  - rewrite Z.mod_pow2_bits_low, Z.shiftl_spec by lia.
    destruct (Z.lt_ge_cases i (w - pl)).
    + rewrite (Z.testbit_neg_r (2 ^ w - 1)), (Z.testbit_neg_r (Z.shiftr _ _)) by lia.
      by rewrite andb_false_r.
    + replace (2 ^ w - 1) with (Z.ones w) by (rewrite Z.ones_equiv; lia).
      rewrite Z.ones_spec_low by lia.
      rewrite Z.shiftr_spec by lia. rewrite andb_true_r. f_equal. lia.
  - rewrite Z.mod_pow2_bits_high by lia. rewrite andb_false_r.
    rewrite Z.shiftr_spec by lia. replace (i - (w - pl) + (w - pl)) with i by lia.
    symmetry. destruct (Z.eq_dec n 0) as [->|]; [apply Z.bits_0|].
    apply Z.bits_above_log2; [lia|]. apply Z.log2_lt_pow2; [lia|].
    apply Z.lt_le_trans with (2 ^ w); [lia|]. apply Z.pow_le_mono_r; lia.
Qed.

Lemma same_network_spec w pl n a :
  0 <= pl <= w -> 0 <= n < 2 ^ w -> 0 <= a < 2 ^ w ->
  same_network w pl n a = true <-> n / 2 ^ (w - pl) = a / 2 ^ (w - pl).
Proof.
  intros Hpl Hn Ha. unfold same_network. rewrite Z.eqb_eq.
  destruct (decide (pl = 0)) as [->|Hne].
  - unfold prefix_mask. simpl. rewrite !Z.land_0_r, Z.sub_0_r.
    rewrite !Z.div_small by lia. done.
  - rewrite !land_prefix_mask, !Z.shiftr_div_pow2, !Z.shiftl_mul_pow2 by lia.
    assert (0 < 2 ^ (w - pl)) by (apply Z.pow_pos_nonneg; lia). nia.
Qed.

Lemma masked_same_network w pl n a :
  (masked w n pl =? masked w a pl) = same_network w pl n a.
Proof.
  unfold masked, same_network, prefix_mask. destruct (pl =? 0); [|done].
  by rewrite !Z.land_0_r.
Qed.

(** Parsed addresses fit their width. *)
Lemma to_digit_range radix c d : to_digit radix c = Some d -> 0 <= d < radix.
Proof.
  unfold to_digit, is_ascii_digit, is_ascii_lower, is_ascii_upper. intros H.
  repeat case_match; simplify_option_eq; repeat case_match; simplify_eq;
    boolify; rewrite ?N.leb_le in *; lia.
Qed.

Lemma read_digits_nonneg radix acc n s z m rest :
  0 <= radix -> 0 <= acc -> read_digits radix acc n s = (z, m, rest) -> 0 <= z.
Proof.
  intros Hr. revert acc n. induction s as [|c s IH]; intros acc n Hacc; simpl.
  - by intros [= <- _ _].
  - destruct (to_digit radix c) as [d|] eqn:Hd; [|by intros [= <- _ _]].
    apply to_digit_range in Hd. apply IH. nia.
Qed.

Lemma read_number_range radix md hi zp s z rest :
  0 <= radix -> read_number radix md hi zp s = Some (z, rest) -> 0 <= z <= hi.
Proof.
  intros Hr. unfold read_number.
  destruct (read_digits radix 0 0 s) as [[z' n] r] eqn:E.
  destruct (_ || _); [done|]. destruct (_ && _); [done|].
  destruct (Z.leb_spec z' hi); [|done]. intros [= <- <-].
  apply read_digits_nonneg in E; lia.
Qed.

Lemma read_ipv4_range s z rest : read_ipv4 s = Some (z, rest) -> 0 <= z < 2 ^ 32.
Proof.
  unfold read_ipv4, read_octet. intros H.
  repeat (apply bind_Some in H as ([? ?] & ?%read_number_range & H); [|lia];
          try (apply bind_Some in H as (? & _ & H))).
  injection H as <- <-. lia.
Qed.

Lemma groups_to_Z_range gs :
  Forall (fun g => 0 <= g < 65536) gs -> 0 <= groups_to_Z gs < 65536 ^ Z.of_nat (length gs).
Proof.
  unfold groups_to_Z. induction gs as [|g gs IH] using rev_ind; [simpl; lia|].
  intros [H1 H2]%Forall_app. specialize (IH H1). rewrite Forall_singleton in H2.
  rewrite foldl_app, length_app. cbn [foldl length].
  rewrite Nat2Z.inj_add, Z.pow_add_r by lia. nia.
Qed.

Lemma read_groups_range limit i s gs e rest :
  read_groups limit i s = (gs, e, rest) ->
  Forall (fun g => 0 <= g < 65536) gs /\ (length gs <= limit)%nat.
Proof.
  revert i s gs e rest. induction limit as [|l IH]; intros i s gs e rest;
    cbn [read_groups].
  { intros ?; simplify_eq. split; [done|simpl; lia]. }
  set (here := if Nat.eqb i 0 then Some s else read_sep ":" s).
  destruct (if Nat.ltb 0 l then here ≫= read_ipv4 else None) as [[z r]|] eqn:E4.
  - intros ?; simplify_eq. destruct (Nat.ltb_spec 0 l); [|done].
    apply bind_Some in E4 as (? & _ & E4%read_ipv4_range). split; [|simpl; lia].
    repeat constructor; try (apply Z.div_pos; lia); try (apply Z.div_lt_upper_bound; lia);
      apply Z.mod_pos_bound; lia.
  - destruct (here ≫= read_number 16 4 65535 true) as [[g r]|] eqn:Eg.
    + apply bind_Some in Eg as (? & _ & Eg%read_number_range); [|lia].
      destruct (read_groups l (S i) r) as [[gs' e'] r'] eqn:Er.
      intros ?; simplify_eq. apply IH in Er as [? ?]. split; [constructor; [lia|done]|simpl; lia].
    + intros ?; simplify_eq. split; [done|simpl; lia].
Qed.

Lemma Forall_groups_8 gs :
  Forall (fun g => 0 <= g < 65536) gs -> length gs = 8%nat ->
  0 <= groups_to_Z gs < 2 ^ 128.
Proof. intros H Hl. apply groups_to_Z_range in H. rewrite Hl in H. lia. Qed.

Lemma read_ipv6_range s z rest : read_ipv6 s = Some (z, rest) -> 0 <= z < 2 ^ 128.
Proof.
  unfold read_ipv6. destruct (read_groups 8 0 s) as [[hd e] r] eqn:E.
  apply read_groups_range in E as [Hh Hlen].
  destruct (Nat.eqb_spec (length hd) 8) as [Heq|Hne].
  { intros [= <- _]. by apply Forall_groups_8. }
  destruct e; [done|]. intros (r' & _ & H)%bind_Some.
  destruct (read_groups _ 0 r') as [[tl e'] r2] eqn:E2.
  apply read_groups_range in E2 as [Ht Htl]. injection H as <- _.
  apply Forall_groups_8.
  - apply Forall_app. split; [done|]. apply Forall_app. split; [|done].
    apply Forall_replicate. lia.
  - rewrite !length_app, length_replicate. lia.
Qed.

Lemma parse_ip_range s ip :
  parse_ip s = Some ip ->
  match ip with V4 z => 0 <= z < 2 ^ 32 | V6 z => 0 <= z < 2 ^ 128 end.
Proof.
  unfold parse_ip. destruct (read_ipv4 s) as [[z r]|] eqn:E4.
  - destruct (is_empty_str r); [|done]. intros [= <-]. by eapply read_ipv4_range.
  - destruct (read_ipv6 s) as [[z r]|] eqn:E6; [|done].
    destruct (is_empty_str r); [|done]. intros [= <-]. by eapply read_ipv6_range.
Qed.

Lemma parse_u8_u32 s : parse_u8 s = parse_u32 s ≫= in_range 0 255.
Proof.
  assert (H : forall o : option Z,
    (o ≫= in_range 0 255) = (o ≫= in_range 0 u32_max) ≫= in_range 0 255).
  { intros [z|]; [|done]. simpl. unfold in_range, u32_max.
    destruct (Z.leb_spec 0 z), (Z.leb_spec z 255), (Z.leb_spec z (2 ^ 32 - 1)); simpl;
      repeat case_bool_decide; try done; try lia;
      rewrite ?(proj2 (Z.leb_le 0 z)), ?(proj2 (Z.leb_le z 255)),
        ?(proj2 (Z.leb_gt z 255)) by lia; done. }
  unfold parse_u8, parse_u32, parse_unsigned, u8_max.
  destruct s as [|[[] [] [] [] [] [] [] []] s]; apply H.
Qed.

Lemma network_test lim w pl n a :
  (if lim <? pl then false else same_network w pl n a)
  = (pl <=? lim) && (masked w n pl =? masked w a pl).
Proof. rewrite masked_same_network, (Z.leb_antisym lim pl). by destruct (lim <? pl). Qed.

Lemma parse_u32_range s z : parse_u32 s = Some z -> 0 <= z <= u32_max.
Proof.
  assert (H : forall o : option Z, (o ≫= in_range 0 u32_max) = Some z -> 0 <= z <= u32_max).
  { intros [y|]; simpl; [|done]. unfold in_range.
    destruct (_ && _) eqn:E; [|done]. intros [= <-]. boolify. lia. }
  unfold parse_u32, parse_unsigned. destruct s as [|[[] [] [] [] [] [] [] []] s]; apply H.
Qed.

(** ** Main results *)

(** Theorem (equivalence) The CIDR test of IAM conditions, which reads the prefix
    length as a [u8], and the one of event patterns, which reads it as a
    [u32] and masks separately, agree on every pair of strings, malformed
    ones included. *)
Theorem cidr_match_agrees (pattern value : string) :
  cidr_match pattern value = cidr_matches pattern value.
Proof.
  unfold cidr_match, cidr_matches.
  destruct (parse_ip value) as [addr|] eqn:Ea.
  2: { destruct (split_once "/" pattern) as [[net p]|]; [destruct (parse_u32 p)|]; simpl;
         repeat case_match; done. }
  destruct (split_once "/" pattern) as [[net p]|].
  - rewrite parse_u8_u32. destruct (parse_u32 p) as [pl|] eqn:Ep; [|done].
    apply parse_u32_range in Ep. cbn [mbind option_bind fmap option_fmap option_map].
    unfold in_range. rewrite (proj2 (Z.leb_le 0 pl)) by lia.
    destruct (Z.leb_spec pl 255); cbn [andb option_map default fmap option_fmap].
    + destruct (parse_ip net) as [[n|n]|]; [| |done]; destruct addr as [a|a];
        try done; apply network_test.
    + destruct (parse_ip net) as [[n|n]|]; [| |done]; destruct addr as [a|a]; try done;
        rewrite (proj2 (Z.leb_gt pl _)) by lia; done.
  - destruct (parse_ip pattern) as [[n|n]|]; [| |done]; destruct addr as [a|a];
      try done; apply network_test.
Qed.

(** Theorem (functional) Membership in [net/pl] is agreement on the top [pl] bits:
    for an IPv4 pattern with a valid prefix length, the value is accepted
    exactly when both addresses fall in the same block of size [2^(32-pl)];
    a prefix length above 32 accepts nothing. *)
Theorem cidr_match_v4_spec (pattern value net p : string) (pl n a : Z)
  (Hsplit : split_once "/" pattern = Some (net, p))
  (Hpl : parse_u8 p = Some pl)
  (Hnet : parse_ip net = Some (V4 n))
  (Hval : parse_ip value = Some (V4 a)) :
  cidr_match pattern value = true
  <-> pl <= 32 /\ n / 2 ^ (32 - pl) = a / 2 ^ (32 - pl).
Proof.
  unfold cidr_match. rewrite Hval, Hsplit, Hpl. cbn [fmap option_fmap option_map default from_option id].
  rewrite Hnet. apply parse_ip_range in Hnet, Hval.
  rewrite parse_u8_u32 in Hpl. apply bind_Some in Hpl as (z & Hz%parse_u32_range & Hr).
  unfold in_range in Hr. destruct (_ && _); [|done]. injection Hr as ->.
  destruct (Z.ltb_spec 32 pl).
  - split; [done|lia].
  - rewrite same_network_spec by lia. split; [|by intros [_ ?]]. intros ?. split; [lia|done].
Qed.

Lemma cidr_match_v4_spec_witness :
  cidr_match "10.1.0.0/16" "10.1.200.7" = true
  <-> 16 <= 32 /\ 167837696 / 2 ^ (32 - 16) = 167888903 / 2 ^ (32 - 16).
Proof.
  apply (cidr_match_v4_spec "10.1.0.0/16" "10.1.200.7" "10.1.0.0" "16"); reflexivity.
Defined.
