(* ===== verification/Auth.v ===== *)
(** * Principals and the request context

    [fakecloud-core/src/auth.rs]: who makes a request ([Principal]), what IAM
    evaluates ([IamAction]), the request-time condition keys
    ([ConditionContext] and its [lookup]), the enforcement mode, and the
    principals fakecloud's own services act as ([InternalCaller]).

    Instants are nanoseconds since the epoch; [chrono], the package that parses
    and prints them, is the class [Chrono]. *)

From Stdlib Require Import ZArith Lia Bool String Ascii.
From stdpp Require Import base option list strings gmap.
From S2P Require Import Prelude Json Net.

(** [chrono]: RFC 3339 parsing, construction from epoch seconds (range
    checked by the package), and printing with second precision. *)
Class Chrono := {
  parse_from_rfc3339 : string -> option Z;
  dt_from_timestamp : Z -> option Z;
  to_rfc3339_secs : Z -> string
}.

(** ** Principals *)

Inductive PrincipalType : Type :=
| TUser | TAssumedRole | TFederatedUser | TRoot | TUnknown | TService.

#[global] Instance PrincipalType_eq_dec : EqDecision PrincipalType.
Proof. solve_decision. Defined.

Definition principal_type_as_str (t : PrincipalType) : string :=
  match t with
  | TUser => "user"
  | TAssumedRole => "assumed-role"
  | TFederatedUser => "federated-user"
  | TRoot => "root"
  | TUnknown => "unknown"
  | TService => "service"
  end.

(** [PrincipalType::from_arn]. *)
Definition principal_type_from_arn (arn : string) : PrincipalType :=
  if ends_with ":root" arn then TRoot
  else if contains_str ":user/" arn then TUser
  else if contains_str ":assumed-role/" arn then TAssumedRole
  else if contains_str ":federated-user/" arn then TFederatedUser
  else TUnknown.

Record Principal := {
  arn : string;
  user_id : string;
  account_id : string;
  principal_type : PrincipalType;
  source_identity : option string;
  principal_tags_of : option (gmap string string)
}.

(** [Principal::is_root]. *)
Definition is_root (p : Principal) : bool :=
  bool_decide (principal_type p = TRoot) || ends_with ":root" (arn p).

(** ** Actions *)

Record IamAction := {
  ia_service : string;
  ia_action : string;
  ia_resource : string
}.

Definition action_string (a : IamAction) : string :=
  ia_service a +:+ ":" +:+ ia_action a.

Definition pass_role (role_arn : string) : IamAction :=
  {| ia_service := "iam"; ia_action := "PassRole"; ia_resource := role_arn |}.

Definition is_pass_role (a : IamAction) : bool :=
  String.eqb (ia_service a) "iam" && String.eqb (ia_action a) "PassRole".

(** [pass_role_condition_keys]: a [BTreeMap], listed in key order. *)
Definition pass_role_condition_keys (passed_to_service : string)
  (associated : option string) : list (string * list string) :=
  let assoc_entry :=
    match associated with
    | Some a =>
        if negb (is_empty_str a) && negb (String.eqb a "*")
        then [("iam:associatedresourcearn"%string, [a])] else []
    | None => []
    end in
  assoc_entry ++ [("iam:passedtoservice"%string, [passed_to_service])].

(** ** Enforcement mode *)

Inductive IamMode : Type := IamOff | IamSoft | IamStrict.

Definition iam_mode_is_enabled (m : IamMode) : bool :=
  match m with IamOff => false | _ => true end.

Definition iam_mode_is_strict (m : IamMode) : bool :=
  match m with IamStrict => true | _ => false end.

Definition iam_mode_as_str (m : IamMode) : string :=
  match m with IamOff => "off" | IamSoft => "soft" | IamStrict => "strict" end.

(** [FromStr for IamMode]; the error carries the normalised input. *)
Definition iam_mode_from_str (s : string) : Result string IamMode :=
  let t := to_ascii_lowercase (trim s) in
  if String.eqb t "off" || String.eqb t "none" || String.eqb t "disabled" then Ok IamOff
  else if String.eqb t "soft" || String.eqb t "audit" || String.eqb t "warn" then Ok IamSoft
  else if String.eqb t "strict" || String.eqb t "enforce" || String.eqb t "deny"
  then Ok IamStrict
  else Err t.

Fixpoint string_take (n : nat) (s : string) : option string :=
  match n, s with
  | 0, _ => Some EmptyString
  | S n', String c s' => String c <$> string_take n' s'
  | S _, EmptyString => None
  end.

(** [is_root_bypass]: access keys that begin with [test].  [get(..4)] is
    [None] when byte 4 is not a character boundary, which also makes the
    comparison with four ASCII letters fail. *)
Definition is_root_bypass (access_key_id : string) : bool :=
  match string_take 4 (trim access_key_id) with
  | Some prefix => eq_ignore_ascii_case prefix "test"
  | None => false
  end.

(** ** Internal callers *)

Inductive InternalCaller : Type :=
| CallerService (service source_arn source_account : string)
| CallerServiceOwned (arn : string) (canonical_user_id : option string)
    (acting_account : string).

(** [InternalCaller::principal]. *)
Definition caller_principal (c : InternalCaller) : Principal :=
  match c with
  | CallerService service _ _ =>
      {| arn := service; user_id := service; account_id := EmptyString;
         principal_type := TService; source_identity := None;
         principal_tags_of := None |}
  | CallerServiceOwned a canonical _ =>
      {| arn := a; user_id := default EmptyString canonical; account_id := EmptyString;
         principal_type := principal_type_from_arn a; source_identity := None;
         principal_tags_of := None |}
  end.

Definition caller_acting_account (c : InternalCaller) : string :=
  match c with
  | CallerService _ _ source_account => source_account
  | CallerServiceOwned _ _ acting_account => acting_account
  end.

(** [InternalCaller::condition_keys], in key order. *)
Definition caller_condition_keys (c : InternalCaller) : list (string * list string) :=
  match c with
  | CallerService service source_arn source_account =>
      [("aws:PrincipalIsAWSService"%string, ["true"%string]);
       ("aws:PrincipalServiceName"%string, [service]);
       ("aws:SourceAccount"%string, [source_account]);
       ("aws:SourceArn"%string, [source_arn])]
  | CallerServiceOwned _ _ _ =>
      [("aws:PrincipalIsAWSService"%string, ["false"%string])]
  end.

(** ** Condition context *)

Record ConditionContext := {
  aws_username : option string;
  aws_userid : option string;
  aws_principal_arn : option string;
  aws_principal_account : option string;
  aws_principal_type : option string;
  aws_source_ip : option IpAddr;
  aws_current_time : option Z;
  aws_epoch_time : option Z;
  aws_secure_transport : option bool;
  aws_requested_region : option string;
  aws_mfa_present : option bool;
  aws_mfa_age_seconds : option Z;
  aws_called_via : list string;
  aws_source_vpce : option string;
  aws_source_vpc : option string;
  aws_vpc_source_ip : option IpAddr;
  aws_federated_provider : option string;
  aws_token_issue_time : option Z;
  service_keys : list (string * list string);
  resource_tags : option (gmap string string);
  request_tags : option (gmap string string);
  principal_tags : option (gmap string string)
}.

(** [ConditionContext::default()]. *)
Definition empty_context : ConditionContext :=
  {| aws_username := None; aws_userid := None; aws_principal_arn := None;
     aws_principal_account := None; aws_principal_type := None; aws_source_ip := None;
     aws_current_time := None; aws_epoch_time := None; aws_secure_transport := None;
     aws_requested_region := None; aws_mfa_present := None; aws_mfa_age_seconds := None;
     aws_called_via := []; aws_source_vpce := None; aws_source_vpc := None;
     aws_vpc_source_ip := None; aws_federated_provider := None;
     aws_token_issue_time := None; service_keys := []; resource_tags := None;
     request_tags := None; principal_tags := None |}.

(** The [split] helper of [same_condition_key]: name and [/tail]. *)
Definition split_condition_key (k : string) : string * string :=
  match split_once "/" k with
  | Some (name, tail) => (name, "/" +:+ tail)
  | None => (k, EmptyString)
  end.

Definition same_condition_key (a b : string) : bool :=
  let '(a_name, a_tail) := split_condition_key a in
  let '(b_name, b_tail) := split_condition_key b in
  eq_ignore_ascii_case a_name b_name && String.eqb a_tail b_tail.

(** [iter().find(|(k, _)| pred(k))], then the value. *)
Fixpoint find_key {A} (pred : string -> bool) (m : list (string * A)) : option A :=
  match m with
  | [] => None
  | (k, a) :: m' => if pred k then Some a else find_key pred m'
  end.

Section Lookup.
Context `{Chrono}.

Definition one_value (o : option string) : option (list string) := (fun s => [s]) <$> o.

(** The ABAC keys: [Some] when the key has the tag form, whatever its value. *)
Definition lookup_tagged (ctx : ConditionContext) (key : string)
  : option (option (list string)) :=
  let lower := to_ascii_lowercase key in
  if starts_with "aws:resourcetag/" lower then
    Some (one_value (resource_tags ctx ≫= lookup (string_drop 16 key)))
  else if starts_with "aws:requesttag/" lower then
    Some (one_value (request_tags ctx ≫= lookup (string_drop 15 key)))
  else if starts_with "aws:principaltag/" lower then
    Some (one_value (principal_tags ctx ≫= lookup (string_drop 17 key)))
  else if String.eqb lower "aws:tagkeys" then
    Some ((fun tags : gmap string string => (map_to_list tags).*1) <$> request_tags ctx)
  else None.

(** The global keys with a typed field. *)
Definition lookup_typed (ctx : ConditionContext) (lower : string) : option (list string) :=
  if String.eqb lower "aws:username" then one_value (aws_username ctx)
  else if String.eqb lower "aws:userid" then one_value (aws_userid ctx)
  else if String.eqb lower "aws:principalarn" then one_value (aws_principal_arn ctx)
  else if String.eqb lower "aws:principalaccount" then one_value (aws_principal_account ctx)
  else if String.eqb lower "aws:principaltype" then one_value (aws_principal_type ctx)
  else if String.eqb lower "aws:sourceip" then one_value (ip_to_string <$> aws_source_ip ctx)
  else if String.eqb lower "aws:currenttime" then
    one_value (to_rfc3339_secs <$> aws_current_time ctx)
  else if String.eqb lower "aws:epochtime" then one_value (print_Z <$> aws_epoch_time ctx)
  else if String.eqb lower "aws:securetransport" then
    one_value (print_bool <$> aws_secure_transport ctx)
  else if String.eqb lower "aws:requestedregion" then one_value (aws_requested_region ctx)
  else if String.eqb lower "aws:multifactorauthpresent" then
    one_value (print_bool <$> aws_mfa_present ctx)
  else if String.eqb lower "aws:multifactorauthage" then
    one_value (print_Z <$> aws_mfa_age_seconds ctx)
  else if String.eqb lower "aws:calledvia" then
    match aws_called_via ctx with [] => None | vs => Some vs end
  else if String.eqb lower "aws:sourcevpce" then one_value (aws_source_vpce ctx)
  else if String.eqb lower "aws:sourcevpc" then one_value (aws_source_vpc ctx)
  else if String.eqb lower "aws:vpcsourceip" then
    one_value (ip_to_string <$> aws_vpc_source_ip ctx)
  else if String.eqb lower "aws:federatedprovider" then one_value (aws_federated_provider ctx)
  else if String.eqb lower "aws:tokenissuetime" then
    one_value (to_rfc3339_secs <$> aws_token_issue_time ctx)
  else None.

Definition or_else {A} (o : option A) (d : option A) : option A :=
  match o with Some a => Some a | None => d end.

(** [ConditionContext::lookup]. *)
Definition ctx_lookup (ctx : ConditionContext) (key : string) : option (list string) :=
  match lookup_tagged ctx key with
  | Some tagged =>
      or_else tagged (find_key (fun entry => same_condition_key entry key) (service_keys ctx))
  | None =>
      let lower := to_ascii_lowercase key in
      or_else (lookup_typed ctx lower)
        (or_else (assoc lower (service_keys ctx))
           (find_key (fun k => eq_ignore_ascii_case k key) (service_keys ctx)))
  end.

End Lookup.

(** ** [lookup] respects condition-key equality

    Two spellings of a key are the same key when their names agree up to ASCII
    case and their tag parts agree exactly. *)

Definition same_key (a b : string) : Prop := same_condition_key a b = true.

Lemma same_key_spec a b :
  same_key a b <->
  to_ascii_lowercase (split_condition_key a).1 = to_ascii_lowercase (split_condition_key b).1
  /\ (split_condition_key a).2 = (split_condition_key b).2.
Proof.
  unfold same_key, same_condition_key, eq_ignore_ascii_case.
  destruct (split_condition_key a), (split_condition_key b); simpl.
  by rewrite andb_true_iff, !String.eqb_eq.
Qed.

#[global] Instance same_key_equiv : Equivalence same_key.
Proof.
  split.
  - intros a. by apply same_key_spec.
  - intros a b. rewrite !same_key_spec. intros [? ?]. by split.
  - intros a b c. rewrite !same_key_spec. intros [? ?] [? ?]. split; congruence.
Qed.

Lemma string_map_app f a b : string_map f (a +:+ b) = string_map f a +:+ string_map f b.
Proof. induction a as [|c a IH]; simpl; [done|]. by rewrite IH. Qed.

Lemma string_map_length f a : String.length (string_map f a) = String.length a.
Proof. induction a as [|c a IH]; simpl; [done|]. by rewrite IH. Qed.

Lemma split_condition_key_app k :
  k = (split_condition_key k).1 +:+ (split_condition_key k).2.
Proof.
  unfold split_condition_key. destruct (split_once "/" k) as [[n t]|] eqn:E; simpl.
  - by apply split_at_needle_Some in E.
  - by rewrite string_app_nil_r.
Qed.

Fixpoint no_slash (s : string) : Prop :=
  match s with EmptyString => True | String c s' => c <> "/"%char /\ no_slash s' end.

Lemma split_slash_no_slash k n t :
  split_at_needle "/" k = Some (n, t) -> no_slash n.
Proof.
  revert n. induction k as [|c k IH]; intros n; cbn [split_at_needle strip_prefix]; [done|].
  destruct (Ascii.eqb_spec "/" c) as [<-|Hne]; [by intros [= <- <-]|].
  destruct (split_at_needle "/" k) as [[n' t']|]; [|done].
  simpl. intros [= <- <-]. split; [congruence|by apply IH].
Qed.

Lemma split_slash_None k : split_at_needle "/" k = None -> no_slash k.
Proof.
  induction k as [|c k IH]; cbn [split_at_needle strip_prefix]; [done|].
  destruct (Ascii.eqb_spec "/" c) as [<-|Hne]; [done|].
  destruct (split_at_needle "/" k) as [[n' t']|]; [done|].
  intros _. split; [congruence|by apply IH].
Qed.

Lemma split_condition_key_name_no_slash k : no_slash (split_condition_key k).1.
Proof.
  unfold split_condition_key, split_once.
  destruct (split_at_needle "/" k) as [[n t]|] eqn:E; simpl.
  - by eapply split_slash_no_slash.
  - by apply split_slash_None.
Qed.

Lemma ascii_lower_slash c : ascii_lower c = "/"%char -> c = "/"%char.
Proof. destruct c as [[] [] [] [] [] [] [] []]; vm_compute; congruence. Qed.

(** A prefix whose only slash is its last character cannot extend past the
    name. *)
Lemma prefix_within_name p n t :
  no_slash n -> starts_with (p +:+ "/") (string_map ascii_lower n +:+ t) = true ->
  String.length n <= String.length p.
Proof.
  revert n. induction p as [|c p IH]; intros n Hn;
    (destruct n as [|d n]; [simpl; lia|]); destruct Hn as [Hd Hn];
    unfold starts_with; cbn [String.append string_map strip_prefix].
  - destruct (Ascii.eqb_spec "/" (ascii_lower d)) as [e|]; [|done].
    symmetry in e. by apply ascii_lower_slash in e.
  - destruct (Ascii.eqb c (ascii_lower d)); [|done].
    intros H. simpl. apply le_n_S, IH; done.
Qed.

Lemma string_drop_app n a b :
  String.length a <= n -> string_drop n (a +:+ b) = string_drop (n - String.length a) b.
Proof.
  revert n. induction a as [|c a IH]; intros n Hn; simpl in *.
  - by rewrite Nat.sub_0_r.
  - destruct n as [|n]; [lia|]. simpl. apply IH. lia.
Qed.

Lemma to_ascii_lowercase_same a b : same_key a b -> to_ascii_lowercase a = to_ascii_lowercase b.
Proof.
  rewrite same_key_spec. intros [Hn Ht].
  rewrite (split_condition_key_app a), (split_condition_key_app b).
  unfold to_ascii_lowercase in *. rewrite !string_map_app. congruence.
Qed.

(** Dropping a tag prefix from two spellings of one key leaves the same tag. *)
Lemma string_drop_same a b p n :
  same_key a b -> S (String.length p) = n ->
  starts_with (p +:+ "/") (to_ascii_lowercase a) = true ->
  string_drop n a = string_drop n b.
Proof.
  intros Hab Hlen Hpre. pose proof Hab as [Hn Ht]%same_key_spec.
  assert (Hl : String.length (split_condition_key a).1 = String.length (split_condition_key b).1).
  { apply (f_equal String.length) in Hn. unfold to_ascii_lowercase in Hn.
    by rewrite !string_map_length in Hn. }
  pose proof (split_condition_key_app a) as Ea. pose proof (split_condition_key_app b) as Eb.
  rewrite Ea in Hpre. unfold to_ascii_lowercase in Hpre. rewrite string_map_app in Hpre.
  apply prefix_within_name in Hpre; [|apply split_condition_key_name_no_slash].
  rewrite Ea, Eb, !string_drop_app by lia. by rewrite Hl, Ht.
Qed.

Lemma find_key_ext {A} (f g : string -> bool) (m : list (string * A)) :
  (forall k, f k = g k) -> find_key f m = find_key g m.
Proof. intros H. induction m as [|[k a] m IH]; simpl; [done|]. by rewrite H, IH. Qed.

Lemma same_condition_key_r e a b :
  same_key a b -> same_condition_key e a = same_condition_key e b.
Proof.
  intros H. apply eq_bool_prop_intro.
  split; intros He%Is_true_true; apply Is_true_true; fold (same_key e a) (same_key e b) in *.
  - by etrans.
  - by rewrite H.
Qed.

Section LookupProper.
Context `{Chrono}.

Lemma lookup_tagged_same ctx a b : same_key a b -> lookup_tagged ctx a = lookup_tagged ctx b.
Proof.
  intros Hab. pose proof (to_ascii_lowercase_same a b Hab) as Hl.
  unfold lookup_tagged. rewrite <- Hl.
  destruct (starts_with "aws:resourcetag/" _) eqn:E1.
  { by rewrite (string_drop_same a b "aws:resourcetag" 16). }
  destruct (starts_with "aws:requesttag/" _) eqn:E2.
  { by rewrite (string_drop_same a b "aws:requesttag" 15). }
  destruct (starts_with "aws:principaltag/" _) eqn:E3; [|done].
  by rewrite (string_drop_same a b "aws:principaltag" 17).
Qed.

(** Theorem (functional) Condition keys are looked up up to the spelling of their
    name: two keys whose names agree ignoring ASCII case and whose tag parts
    (after the first [/]) agree exactly have the same values in every
    context, whether the value comes from a tag map, a typed field or the
    service keys. *)
Theorem ctx_lookup_same_key (ctx : ConditionContext) (a b : string)
  (Hab : same_condition_key a b = true) :
  ctx_lookup ctx a = ctx_lookup ctx b.
Proof.
  change (same_key a b) in Hab. unfold ctx_lookup.
  rewrite (lookup_tagged_same ctx a b Hab), <- (to_ascii_lowercase_same a b Hab).
  destruct (lookup_tagged ctx b).
  - f_equal. apply find_key_ext. intros k. by apply same_condition_key_r.
  - do 2 f_equal. apply find_key_ext. intros k. unfold eq_ignore_ascii_case.
    by rewrite (to_ascii_lowercase_same a b Hab).
Qed.

End LookupProper.

Lemma ctx_lookup_same_key_witness :
  let C := {| parse_from_rfc3339 := fun _ => None; dt_from_timestamp := fun _ => None;
              to_rfc3339_secs := fun _ => EmptyString |} in
  @ctx_lookup C empty_context "AWS:PrincipalTag/Team"
  = @ctx_lookup C empty_context "aws:principaltag/Team".
Proof. intros C. apply (@ctx_lookup_same_key C). reflexivity. Defined.
