(* ===== verification/PolicyVars.v ===== *)
(** * Policy variables

    [fakecloud-iam/src/policy_variables.rs]: expansion of [${key}]
    placeholders into pattern pieces, in which a substituted value is literal
    text, and wildcard matching of the pieces. *)

From Stdlib Require Import ZArith Lia Bool String Ascii.
From stdpp Require Import base option list strings gmap.
From S2P Require Import Prelude Glob Json Net Auth.

Inductive Piece : Type :=
| PLiteral (c : ascii)
| AnyRun
| AnyOne.

#[global] Instance Piece_eq_dec : EqDecision Piece.
Proof. solve_decision. Defined.

Definition chars (s : string) : list ascii := list_ascii_of_string s.

Definition has_variables (text : string) : bool := contains_str "${" text.

(** [push_policy_text], as the pieces it appends. *)
Definition policy_char (c : ascii) : Piece :=
  if Ascii.eqb c "*" then AnyRun
  else if Ascii.eqb c "?" then AnyOne
  else PLiteral c.

Definition policy_text (text : string) : list Piece := policy_char <$> chars text.

(** [split_default]. *)
Definition split_default (reference : string) : string * option string :=
  match split_once "," reference with
  | Some (key, dflt) =>
      match strip_prefix "'" (trim dflt) ≫= strip_suffix "'" with
      | Some quoted => (trim key, Some quoted)
      | None => (reference, None)
      end
  | None => (reference, None)
  end.

(** [to_text]. *)
Definition to_text (pieces : list Piece) : string :=
  string_of_list_ascii
    ((fun p => match p with PLiteral c => c | AnyRun => "*"%char | AnyOne => "?"%char end)
       <$> pieces).

(** [glob] over pieces. *)
Definition piece_eats (ignore_case : bool) (p : Piece) (c : ascii) : bool :=
  match p with
  | AnyOne => true
  | PLiteral a =>
      if ignore_case then Ascii.eqb (ascii_lower a) (ascii_lower c) else Ascii.eqb a c
  | AnyRun => false
  end.

Definition piece_runs (p : Piece) : bool :=
  match p with AnyRun => true | _ => false end.

Definition piece_glob (pieces : list Piece) (value : string) (ignore_case : bool) : bool :=
  glob_bool (piece_eats ignore_case) piece_runs pieces (chars value).

(** The text up to and including the [n]-th colon, and the rest. *)
Fixpoint split_after_colons (n : nat) (s : string) : option (string * string) :=
  match n with
  | 0 => Some (EmptyString, s)
  | S n' =>
      '(a, b) ← split_once ":" s;
      '(c, d) ← split_after_colons n' b;
      Some (a +:+ ":" +:+ c, d)
  end.

Section Expansion.
Context `{Chrono}.

(** What one [${inner}] contributes: [None] when it has no value. *)
Definition expand_reference (ctx : ConditionContext) (inner : string) : option (list Piece) :=
  let t := trim inner in
  if String.eqb t "*" then Some [PLiteral "*"%char]
  else if String.eqb t "?" then Some [PLiteral "?"%char]
  else if String.eqb t "$" then Some [PLiteral "$"%char]
  else
    let '(key, dflt) := split_default t in
    let value := match ctx_lookup ctx key with
                 | Some [v] => Some v
                 | _ => dflt
                 end in
    (fun v => PLiteral <$> chars v) <$> value.

(** The [while let Some(start) = rest.find("${")] loop; the outer [None] is
    exhausted fuel, the inner one a variable without a value. *)
Fixpoint expand_loop (fuel : nat) (ctx : ConditionContext) (out : list Piece) (rest : string)
  : option (option (list Piece)) :=
  match fuel with
  | 0 => None
  | S f =>
      match split_at_needle "${" rest with
      | None => Some (Some (out ++ policy_text rest))
      | Some (before, after) =>
          match split_at_needle "}" after with
          | None => Some (Some (out ++ policy_text before ++ policy_text ("${" +:+ after)))
          | Some (inner, rest') =>
              match expand_reference ctx inner with
              | None => Some None
              | Some ps => expand_loop f ctx (out ++ policy_text before ++ ps) rest'
              end
          end
      end
  end.

Definition expand (text : string) (ctx : ConditionContext) : option (list Piece) :=
  default None (expand_loop (S (String.length text)) ctx [] text).

(** [resource_pattern]: only the part after the fifth colon is expanded. *)
Definition resource_pattern (pattern : string) (ctx : ConditionContext)
  : option (list Piece) :=
  let '(before, after) := default (EmptyString, pattern) (split_after_colons 5 pattern) in
  (fun ps => policy_text before ++ ps) <$> expand after ctx.

(** ** The fuel is enough *)

Lemma split_at_needle_shorter x s a b :
  split_at_needle x s = Some (a, b) -> String.length x + String.length b <= String.length s.
Proof.
  intros E%split_at_needle_Some. subst. rewrite !string_length_app. lia.
Qed.

Lemma expand_loop_total fuel ctx out rest :
  String.length rest < fuel -> exists r, expand_loop fuel ctx out rest = Some r.
Proof.
  revert out rest. induction fuel as [|f IH]; intros out rest Hlt; [lia|].
  cbn [expand_loop]. destruct (split_at_needle "${" rest) as [[before after]|] eqn:E; [|eauto].
  apply split_at_needle_shorter in E. simpl in E.
  destruct (split_at_needle "}" after) as [[inner rest']|] eqn:E'; [|eauto].
  apply split_at_needle_shorter in E'. simpl in E'.
  destruct (expand_reference ctx inner) as [ps|]; [|eauto]. apply IH. lia.
Qed.

Lemma expand_loop_fuel f1 f2 ctx out rest :
  String.length rest < f1 -> String.length rest < f2 ->
  expand_loop f1 ctx out rest = expand_loop f2 ctx out rest.
Proof.
  revert f2 out rest. induction f1 as [|f1 IH]; intros [|f2] out rest H1 H2; try lia.
  cbn [expand_loop]. destruct (split_at_needle "${" rest) as [[before after]|] eqn:E; [|done].
  apply split_at_needle_shorter in E. simpl in E.
  destruct (split_at_needle "}" after) as [[inner rest']|] eqn:E'; [|done].
  apply split_at_needle_shorter in E'. simpl in E'.
  destruct (expand_reference ctx inner) as [ps|]; [|done]. apply IH; lia.
Qed.

(** The accumulator is a prefix of the result. *)
Lemma expand_loop_out fuel ctx out rest :
  expand_loop fuel ctx out rest
  = option_map (option_map (app out)) (expand_loop fuel ctx [] rest).
Proof.
  revert out rest. induction fuel as [|f IH]; intros out rest; [done|].
  cbn [expand_loop]. destruct (split_at_needle "${" rest) as [[before after]|]; [|done].
  destruct (split_at_needle "}" after) as [[inner rest']|]; [|done].
  destruct (expand_reference ctx inner) as [ps|]; [|done].
  rewrite IH, (IH ([] ++ _)). destruct (expand_loop f ctx [] rest') as [[r|]|]; simpl; [|done..].
  by rewrite <- !app_assoc.
Qed.

(** One iteration of the loop, as an equation on [expand]. *)
Lemma expand_unfold text ctx :
  expand text ctx =
  match split_at_needle "${" text with
  | None => Some (policy_text text)
  | Some (before, after) =>
      match split_at_needle "}" after with
      | None => Some (policy_text before ++ policy_text ("${" +:+ after))
      | Some (inner, rest') =>
          ps ← expand_reference ctx inner;
          qs ← expand rest' ctx;
          Some (policy_text before ++ ps ++ qs)
      end
  end.
Proof.
  unfold expand at 1. cbn [expand_loop].
  destruct (split_at_needle "${" text) as [[before after]|] eqn:E; [|done].
  destruct (split_at_needle "}" after) as [[inner rest']|] eqn:E'; [|done].
  destruct (expand_reference ctx inner) as [ps|]; [|done].
  apply split_at_needle_shorter in E, E'. simpl in E, E'.
  rewrite expand_loop_out, (expand_loop_fuel _ (S (String.length rest'))) by lia.
  destruct (expand_loop_total (S (String.length rest')) ctx [] rest') as [r Hr]; [lia|].
  unfold expand. rewrite Hr. destruct r as [qs|]; cbn; [|done]. by rewrite <- app_assoc.
Qed.

End Expansion.

(** ** Matching pieces *)

(** A piece that is a run never consumes a character as itself, so the loop
    decides the reference semantics. *)
Lemma piece_glob_ref pieces value ic :
  piece_glob pieces value ic = ref_match (piece_eats ic) piece_runs pieces (chars value).
Proof. apply glob_bool_complete. by intros [] ? _ _. Qed.

Lemma ref_match_literals l v :
  ref_match (piece_eats false) piece_runs (PLiteral <$> l) v = true <-> v = l.
Proof.
  revert v. induction l as [|c l IH]; intros v; simpl.
  - by destruct v.
  - destruct v as [|d v]; [done|]. rewrite andb_true_iff, IH, Ascii.eqb_eq.
    split; [by intros [-> ->]|by intros [= -> ->]].
Qed.

(** ** Main results *)

Lemma split_at_needle_cons x c s :
  split_at_needle x (String c s) =
  match strip_prefix x (String c s) with
  | Some rest => Some (EmptyString, rest)
  | None => prod_map (String c) id <$> split_at_needle x s
  end.
Proof. done. Qed.

Lemma split_at_dollar_app pre rest :
  split_at_needle "${" pre = None ->
  split_at_needle "${" (pre +:+ ("${" +:+ rest)) = Some (pre, rest).
Proof.
  induction pre as [|c pre IH]; [done|].
  change (String c pre +:+ ("${" +:+ rest)) with (String c (pre +:+ ("${" +:+ rest))).
  rewrite !split_at_needle_cons. intros Hn.
  destruct (strip_prefix "${" (String c pre)) eqn:E; [done|].
  assert (strip_prefix "${" (String c (pre +:+ ("${" +:+ rest))) = None) as ->.
  { cbn [strip_prefix] in *. destruct (Ascii.eqb "$" c); [|done].
    destruct pre as [|d pre]; [done|]. cbn [String.append]. by destruct (Ascii.eqb "{" d). }
  rewrite IH; [done|]. by destruct (split_at_needle "${" pre).
Qed.

Lemma split_at_brace_app key rest :
  split_at_needle "}" key = None ->
  split_at_needle "}" (key +:+ ("}" +:+ rest)) = Some (key, rest).
Proof.
  induction key as [|c key IH]; [done|].
  change (String c key +:+ ("}" +:+ rest)) with (String c (key +:+ ("}" +:+ rest))).
  rewrite !split_at_needle_cons. cbn [strip_prefix].
  destruct (Ascii.eqb "}" c); [done|]. intros Hn.
  rewrite IH; [done|]. by destruct (split_at_needle "}" key).
Qed.

Section Results.
Context `{Chrono}.

(** Theorem (functional) A policy variable stands for exactly its value: when
    [key] names a condition key with the single value [val], the pattern
    [pre ${key} post] matches a string exactly when it is a match of [pre],
    followed by [val] character for character, followed by a match of
    [post].  A [*] or [?] inside [val] is never a wildcard, so a tag value
    cannot widen what a policy grants. *)
Theorem expand_variable_literal (ctx : ConditionContext) (pre key post val value : string)
  (qs : list Piece)
  (Hpre : split_at_needle "${" pre = None)
  (Hbrace : split_at_needle "}" key = None)
  (Htrim : trim key = key)
  (Hspecial : key <> "*"%string /\ key <> "?"%string /\ key <> "$"%string)
  (Hcomma : split_once "," key = None)
  (Hval : ctx_lookup ctx key = Some [val])
  (Hpost : expand post ctx = Some qs) :
  exists ps, expand (pre +:+ ("${" +:+ (key +:+ ("}" +:+ post)))) ctx = Some ps
  /\ (piece_glob ps value false = true
      <-> exists v1 v3, chars value = v1 ++ chars val ++ v3
          /\ ref_match (piece_eats false) piece_runs (policy_text pre) v1 = true
          /\ ref_match (piece_eats false) piece_runs qs v3 = true).
Proof.
  exists (policy_text pre ++ (PLiteral <$> chars val) ++ qs). split.
  - rewrite expand_unfold, split_at_dollar_app, split_at_brace_app by done.
    destruct Hspecial as (H1 & H2 & H3). unfold expand_reference.
    apply String.eqb_neq in H1, H2, H3. rewrite Htrim, H1, H2, H3.
    unfold split_default. rewrite Hcomma, Hval. simpl. by rewrite Hpost.
  - rewrite piece_glob_ref, ref_match_app. split.
    + intros (v1 & v2 & -> & Hv1 & Hv2). apply ref_match_app in Hv2 as (v2' & v3 & -> & Hl & Hq).
      apply ref_match_literals in Hl as ->. eauto.
    + intros (v1 & v3 & -> & Hv1 & Hq). exists v1, (chars val ++ v3). split_and!; [done..|].
      apply ref_match_app. exists (chars val), v3. split_and!; [done| |done].
      by apply ref_match_literals.
Qed.

(** Theorem (error) Fail closed: a variable whose key has no value, or several,
    and no quoted default makes the whole string null, whatever surrounds
    it. *)
Theorem expand_variable_missing (ctx : ConditionContext) (pre key post : string)
  (Hpre : split_at_needle "${" pre = None)
  (Hbrace : split_at_needle "}" key = None)
  (Htrim : trim key = key)
  (Hspecial : key <> "*"%string /\ key <> "?"%string /\ key <> "$"%string)
  (Hcomma : split_once "," key = None)
  (Hval : forall v, ctx_lookup ctx key <> Some [v]) :
  expand (pre +:+ ("${" +:+ (key +:+ ("}" +:+ post)))) ctx = None.
Proof.
  rewrite expand_unfold, split_at_dollar_app, split_at_brace_app by done.
  destruct Hspecial as (H1 & H2 & H3). unfold expand_reference.
  apply String.eqb_neq in H1, H2, H3. rewrite Htrim, H1, H2, H3.
  unfold split_default. rewrite Hcomma. simpl.
  destruct (ctx_lookup ctx key) as [[|v [|]]|] eqn:E; try done. by destruct (Hval v).
Qed.

End Results.

(** A context in which [aws:username] is [a*b]. *)
Definition star_user_context : ConditionContext :=
  {| aws_username := Some "a*b"%string; aws_userid := None; aws_principal_arn := None;
     aws_principal_account := None; aws_principal_type := None; aws_source_ip := None;
     aws_current_time := None; aws_epoch_time := None; aws_secure_transport := None;
     aws_requested_region := None; aws_mfa_present := None; aws_mfa_age_seconds := None;
     aws_called_via := []; aws_source_vpce := None; aws_source_vpc := None;
     aws_vpc_source_ip := None; aws_federated_provider := None;
     aws_token_issue_time := None; service_keys := []; resource_tags := None;
     request_tags := None; principal_tags := None |}.

(** A concrete stand-in for [chrono], used by the witnesses. *)
Definition null_chrono : Chrono :=
  {| parse_from_rfc3339 := fun _ => None; dt_from_timestamp := fun _ => None;
     to_rfc3339_secs := fun _ => EmptyString |}.

Lemma expand_variable_literal_witness :
  exists ps, @expand null_chrono "home/${aws:username}/*" star_user_context = Some ps
  /\ (piece_glob ps "home/a*b/x" false = true
      <-> exists v1 v3, chars "home/a*b/x" = v1 ++ chars "a*b" ++ v3
          /\ ref_match (piece_eats false) piece_runs (policy_text "home/") v1 = true
          /\ ref_match (piece_eats false) piece_runs (policy_text "/*") v3 = true).
Proof.
  apply (@expand_variable_literal null_chrono star_user_context "home/" "aws:username" "/*"
           "a*b" "home/a*b/x" (policy_text "/*")); try reflexivity.
  repeat split; discriminate.
Defined.

Lemma expand_variable_missing_witness :
  @expand null_chrono "x-${aws:PrincipalTag/team}/*" star_user_context = None.
Proof.
  apply (@expand_variable_missing null_chrono star_user_context "x-" "aws:PrincipalTag/team" "/*");
    try reflexivity.
  - repeat split; discriminate.
  - vm_compute. discriminate.
Defined.
