(* ===== verification/Condition.v ===== *)
(** * Policy conditions

    [fakecloud-iam/src/condition.rs]: the condition operators, parsing of a
    [Condition] block, and its evaluation against a [ConditionContext]. *)

From Stdlib Require Import ZArith Lia Bool String Ascii.
From stdpp Require Import base option list strings gmap.
From S2P Require Import Prelude Glob Json Net Auth PolicyVars.

(** ** Operators *)

Inductive ConditionOperator : Type :=
| StringEquals | StringNotEquals | StringEqualsIgnoreCase | StringNotEqualsIgnoreCase
| StringLike | StringNotLike
| NumericEquals | NumericNotEquals | NumericLessThan | NumericLessThanEquals
| NumericGreaterThan | NumericGreaterThanEquals
| DateEquals | DateNotEquals | DateLessThan | DateLessThanEquals
| DateGreaterThan | DateGreaterThanEquals
| OpBool | BinaryEquals | IpAddress | NotIpAddress
| ArnEquals | ArnNotEquals | ArnLike | ArnNotLike | OpNull.

#[global] Instance ConditionOperator_eq_dec : EqDecision ConditionOperator.
Proof. solve_decision. Defined.

(** [ConditionOperator::is_negated]. *)
Definition is_negated (op : ConditionOperator) : bool :=
  match op with
  | StringNotEquals | StringNotEqualsIgnoreCase | StringNotLike | NumericNotEquals
  | DateNotEquals | NotIpAddress | ArnNotEquals | ArnNotLike => true
  | _ => false
  end.

(** [ConditionOperator::from_str]. *)
Definition operator_from_str (name : string) : option ConditionOperator :=
  if String.eqb name "StringEquals" then Some StringEquals
  else if String.eqb name "StringNotEquals" then Some StringNotEquals
  else if String.eqb name "StringEqualsIgnoreCase" then Some StringEqualsIgnoreCase
  else if String.eqb name "StringNotEqualsIgnoreCase" then Some StringNotEqualsIgnoreCase
  else if String.eqb name "StringLike" then Some StringLike
  else if String.eqb name "StringNotLike" then Some StringNotLike
  else if String.eqb name "NumericEquals" then Some NumericEquals
  else if String.eqb name "NumericNotEquals" then Some NumericNotEquals
  else if String.eqb name "NumericLessThan" then Some NumericLessThan
  else if String.eqb name "NumericLessThanEquals" then Some NumericLessThanEquals
  else if String.eqb name "NumericGreaterThan" then Some NumericGreaterThan
  else if String.eqb name "NumericGreaterThanEquals" then Some NumericGreaterThanEquals
  else if String.eqb name "DateEquals" then Some DateEquals
  else if String.eqb name "DateNotEquals" then Some DateNotEquals
  else if String.eqb name "DateLessThan" then Some DateLessThan
  else if String.eqb name "DateLessThanEquals" then Some DateLessThanEquals
  else if String.eqb name "DateGreaterThan" then Some DateGreaterThan
  else if String.eqb name "DateGreaterThanEquals" then Some DateGreaterThanEquals
  else if String.eqb name "Bool" then Some OpBool
  else if String.eqb name "BinaryEquals" then Some BinaryEquals
  else if String.eqb name "IpAddress" then Some IpAddress
  else if String.eqb name "NotIpAddress" then Some NotIpAddress
  else if String.eqb name "ArnEquals" then Some ArnEquals
  else if String.eqb name "ArnNotEquals" then Some ArnNotEquals
  else if String.eqb name "ArnLike" then Some ArnLike
  else if String.eqb name "ArnNotLike" then Some ArnNotLike
  else if String.eqb name "Null" then Some OpNull
  else None.

Inductive Qualifier : Type := QSingle | QForAnyValue | QForAllValues.

#[global] Instance Qualifier_eq_dec : EqDecision Qualifier.
Proof. solve_decision. Defined.

Record ParsedOperatorName := {
  po_op : ConditionOperator;
  po_if_exists : bool;
  po_qualifier : Qualifier
}.

(** [ParsedOperatorName::parse]. *)
Definition parse_operator_name (raw : string) : option ParsedOperatorName :=
  let '(q, rest) :=
    match strip_prefix "ForAllValues:" raw with
    | Some s => (QForAllValues, s)
    | None =>
        match strip_prefix "ForAnyValue:" raw with
        | Some s => (QForAnyValue, s)
        | None => (QSingle, raw)
        end
    end in
  let '(base, if_exists) :=
    match strip_suffix "IfExists" rest with
    | Some s => (s, true)
    | None => (rest, false)
    end in
  (fun op => {| po_op := op; po_if_exists := if_exists; po_qualifier := q |})
    <$> operator_from_str base.

(** ** Condition blocks *)

Record ParsedCondition := {
  pc_operator : ParsedOperatorName;
  pc_key : string;
  pc_values : list string;
  pc_policy_variables : bool
}.

Record CompiledCondition := { entries : list ParsedCondition }.

Definition unknown_operator_prefix : string := "__unknown_operator__:".

Section Parsing.
Context `{SerdeJson}.

Definition value_to_string (v : Value) : option string :=
  match v with
  | VString s => Some s
  | VBool b => Some (print_bool b)
  | VNumber n => Some (number_to_string n)
  | _ => None
  end.

Definition coerce_value_list (v : Value) : list string :=
  match v with
  | VString s => [s]
  | VBool b => [print_bool b]
  | VNumber n => [number_to_string n]
  | VArray l => omap value_to_string l
  | _ => []
  end.

(** The entries one [operator: {key: values}] member contributes. *)
Definition parse_condition_member (op_name : string) (key_map : Value)
  : list ParsedCondition :=
  match parse_operator_name op_name with
  | None =>
      [{| pc_operator := {| po_op := OpNull; po_if_exists := false; po_qualifier := QSingle |};
          pc_key := unknown_operator_prefix +:+ op_name;
          pc_values := []; pc_policy_variables := false |}]
  | Some operator =>
      match as_object key_map with
      | None => []
      | Some inner =>
          (fun kv : string * Value =>
             {| pc_operator := operator; pc_key := kv.1;
                pc_values := coerce_value_list kv.2; pc_policy_variables := false |})
            <$> inner
      end
  end.

(** [CompiledCondition::parse]. *)
Definition parse_condition (v : Value) : CompiledCondition :=
  match as_object v with
  | None => {| entries := [] |}
  | Some obj =>
      {| entries := obj ≫= fun kv => parse_condition_member kv.1 kv.2 |}
  end.

End Parsing.

(** [CompiledCondition::with_policy_variables]. *)
Definition with_policy_variables (enabled : bool) (c : CompiledCondition) : CompiledCondition :=
  {| entries :=
       (fun e => {| pc_operator := pc_operator e; pc_key := pc_key e;
                    pc_values := pc_values e; pc_policy_variables := enabled |})
         <$> entries c |}.

(** ** Value matching *)

Definition char_eats (p c : ascii) : bool := Ascii.eqb p "?" || Ascii.eqb p c.
Definition char_runs (p : ascii) : bool := Ascii.eqb p "*".

(** [condition.rs::glob]. *)
Definition cond_glob (pattern value : string) : bool :=
  glob_bool char_eats char_runs (chars pattern) (chars value).

Definition numeric_cmp (pred : f64 -> f64 -> bool) (policy_values : list string)
  (context_value : string) : bool :=
  match parse_f64 context_value with
  | None => false
  | Some c =>
      existsb (fun pv => match parse_f64 pv with Some p => pred p c | None => false end)
        policy_values
  end.

Definition numeric_cmp_all (pred : f64 -> f64 -> bool) (policy_values : list string)
  (context_value : string) : bool :=
  match parse_f64 context_value with
  | None => false
  | Some c =>
      forallb (fun pv => match parse_f64 pv with Some p => pred p c | None => false end)
        policy_values
  end.

Definition bool_match (policy_values : list string) (context_value : string) : bool :=
  let cv := eq_ignore_ascii_case context_value "true" in
  existsb (fun pv =>
    let pvb := eq_ignore_ascii_case pv "true" in
    let pv_is_bool := eq_ignore_ascii_case pv "true" || eq_ignore_ascii_case pv "false" in
    pv_is_bool && Bool.eqb pvb cv) policy_values.

Section Evaluation.
Context `{Chrono}.

Definition parse_date (s : string) : option Z :=
  match parse_from_rfc3339 s with
  | Some dt => Some dt
  | None =>
      match parse_i64 s with
      | Some secs => dt_from_timestamp secs
      | None => None
      end
  end.

Definition date_cmp (pred : Z -> Z -> bool) (policy_values : list string)
  (context_value : string) : bool :=
  match parse_date context_value with
  | None => false
  | Some c =>
      existsb (fun pv => match parse_date pv with Some p => pred p c | None => false end)
        policy_values
  end.

Definition date_cmp_all (pred : Z -> Z -> bool) (policy_values : list string)
  (context_value : string) : bool :=
  match parse_date context_value with
  | None => false
  | Some c =>
      forallb (fun pv => match parse_date pv with Some p => pred p c | None => false end)
        policy_values
  end.

(** [match_values]: policy values against one context value. *)
Definition match_values (op : ConditionOperator) (policy_values : list string)
  (context_value : string) : bool :=
  match op with
  | StringEquals => existsb (fun pv => String.eqb pv context_value) policy_values
  | StringNotEquals => forallb (fun pv => negb (String.eqb pv context_value)) policy_values
  | StringEqualsIgnoreCase =>
      existsb (fun pv => eq_ignore_ascii_case pv context_value) policy_values
  | StringNotEqualsIgnoreCase =>
      forallb (fun pv => negb (eq_ignore_ascii_case pv context_value)) policy_values
  | StringLike => existsb (fun pv => cond_glob pv context_value) policy_values
  | StringNotLike => forallb (fun pv => negb (cond_glob pv context_value)) policy_values
  | NumericEquals => numeric_cmp (fun p c => f64_eqb p c) policy_values context_value
  | NumericNotEquals =>
      numeric_cmp_all (fun p c => negb (f64_eqb p c)) policy_values context_value
  | NumericLessThan => numeric_cmp (fun p c => f64_ltb c p) policy_values context_value
  | NumericLessThanEquals => numeric_cmp (fun p c => f64_leb c p) policy_values context_value
  | NumericGreaterThan => numeric_cmp (fun p c => f64_ltb p c) policy_values context_value
  | NumericGreaterThanEquals =>
      numeric_cmp (fun p c => f64_leb p c) policy_values context_value
  | DateEquals => date_cmp (fun p c => (p =? c)%Z) policy_values context_value
  | DateNotEquals => date_cmp_all (fun p c => negb (p =? c)%Z) policy_values context_value
  | DateLessThan => date_cmp (fun p c => (c <? p)%Z) policy_values context_value
  | DateLessThanEquals => date_cmp (fun p c => (c <=? p)%Z) policy_values context_value
  | DateGreaterThan => date_cmp (fun p c => (p <? c)%Z) policy_values context_value
  | DateGreaterThanEquals => date_cmp (fun p c => (p <=? c)%Z) policy_values context_value
  | OpBool => bool_match policy_values context_value
  | BinaryEquals => existsb (fun pv => String.eqb pv context_value) policy_values
  | IpAddress => existsb (fun pv => cidr_match pv context_value) policy_values
  | NotIpAddress => forallb (fun pv => negb (cidr_match pv context_value)) policy_values
  | ArnEquals | ArnLike => existsb (fun pv => cond_glob pv context_value) policy_values
  | ArnNotEquals | ArnNotLike =>
      forallb (fun pv => negb (cond_glob pv context_value)) policy_values
  | OpNull => false
  end.

Definition supports_policy_variables (op : ConditionOperator) : bool :=
  match op with
  | StringEquals | StringNotEquals | StringEqualsIgnoreCase | StringNotEqualsIgnoreCase
  | StringLike | StringNotLike | ArnEquals | ArnLike | ArnNotEquals | ArnNotLike => true
  | _ => false
  end.

(** [match_expanded]: the same with policy variables expanded. *)
Definition match_expanded (op : ConditionOperator) (values : list (option (list Piece)))
  (context_value : string) : bool :=
  let positive (pred : list Piece -> bool) :=
    existsb (fun v => match v with Some p => pred p | None => false end) values in
  let inverted (pred : list Piece -> bool) :=
    forallb (fun v => match v with Some p => negb (pred p) | None => true end) values in
  match op with
  | StringEquals => positive (fun p => String.eqb (to_text p) context_value)
  | StringNotEquals => inverted (fun p => String.eqb (to_text p) context_value)
  | StringEqualsIgnoreCase => positive (fun p => eq_ignore_ascii_case (to_text p) context_value)
  | StringNotEqualsIgnoreCase =>
      inverted (fun p => eq_ignore_ascii_case (to_text p) context_value)
  | StringLike | ArnEquals | ArnLike => positive (fun p => piece_glob p context_value false)
  | StringNotLike | ArnNotEquals | ArnNotLike =>
      inverted (fun p => piece_glob p context_value false)
  | _ => false
  end.

(** [evaluate_null]. *)
Definition evaluate_null (entry : ParsedCondition) (ctx : ConditionContext) : bool :=
  let key_present := match ctx_lookup ctx (pc_key entry) with
                     | Some (_ :: _) => true
                     | _ => false
                     end in
  existsb (fun v => if String.eqb v "true" then negb key_present
                    else if String.eqb v "false" then key_present
                    else false) (pc_values entry).

(** The qualifier's quantifier over the context values. *)
Definition quantify (q : Qualifier) (one : string -> bool) (context_values : list string)
  : bool :=
  match q with
  | QSingle | QForAnyValue => existsb one context_values
  | QForAllValues => forallb one context_values
  end.

(** The answer for a key with no values. *)
Definition evaluate_missing (operator : ParsedOperatorName) : bool :=
  po_if_exists operator
  || (bool_decide (po_qualifier operator = QSingle) && is_negated (po_op operator)).

(** [evaluate_entry]. *)
Definition evaluate_entry (entry : ParsedCondition) (ctx : ConditionContext) : bool :=
  let operator := pc_operator entry in
  if bool_decide (po_op operator = OpNull) then evaluate_null entry ctx
  else
    match ctx_lookup ctx (pc_key entry) with
    | Some (cv :: cvs) =>
        let context_values := cv :: cvs in
        if pc_policy_variables entry && supports_policy_variables (po_op operator)
           && existsb has_variables (pc_values entry)
        then
          let expanded := (fun v => expand v ctx) <$> pc_values entry in
          quantify (po_qualifier operator) (match_expanded (po_op operator) expanded)
            context_values
        else
          quantify (po_qualifier operator) (match_values (po_op operator) (pc_values entry))
            context_values
    | Some [] =>
        if bool_decide (po_qualifier operator = QForAllValues) then true
        else evaluate_missing operator
    | None => evaluate_missing operator
    end.

Definition is_unknown_entry (entry : ParsedCondition) : bool :=
  starts_with unknown_operator_prefix (pc_key entry).

(** The loop of [matches_for_effect]. *)
Fixpoint match_entries (es : list ParsedCondition) (ctx : ConditionContext) (is_deny : bool)
  : bool :=
  match es with
  | [] => true
  | e :: es' =>
      if is_unknown_entry e then (if is_deny then match_entries es' ctx is_deny else false)
      else if negb (evaluate_entry e ctx) then false
      else match_entries es' ctx is_deny
  end.

(** [CompiledCondition::matches_for_effect]. *)
Definition matches_for_effect (c : CompiledCondition) (ctx : ConditionContext)
  (is_deny : bool) : bool :=
  match_entries (entries c) ctx is_deny.

(** [CompiledCondition::matches] and [evaluate_condition_block]. *)
Definition condition_matches (c : CompiledCondition) (ctx : ConditionContext) : bool :=
  matches_for_effect c ctx false.

Definition evaluate_condition_block (block : CompiledCondition) (ctx : ConditionContext)
  : bool := condition_matches block ctx.

End Evaluation.

(** ** Operator names *)

(** The name a policy author writes for an operator. *)
Definition operator_label (op : ConditionOperator) : string :=
  match op with
  | StringEquals => "StringEquals"
  | StringNotEquals => "StringNotEquals"
  | StringEqualsIgnoreCase => "StringEqualsIgnoreCase"
  | StringNotEqualsIgnoreCase => "StringNotEqualsIgnoreCase"
  | StringLike => "StringLike"
  | StringNotLike => "StringNotLike"
  | NumericEquals => "NumericEquals"
  | NumericNotEquals => "NumericNotEquals"
  | NumericLessThan => "NumericLessThan"
  | NumericLessThanEquals => "NumericLessThanEquals"
  | NumericGreaterThan => "NumericGreaterThan"
  | NumericGreaterThanEquals => "NumericGreaterThanEquals"
  | DateEquals => "DateEquals"
  | DateNotEquals => "DateNotEquals"
  | DateLessThan => "DateLessThan"
  | DateLessThanEquals => "DateLessThanEquals"
  | DateGreaterThan => "DateGreaterThan"
  | DateGreaterThanEquals => "DateGreaterThanEquals"
  | OpBool => "Bool"
  | BinaryEquals => "BinaryEquals"
  | IpAddress => "IpAddress"
  | NotIpAddress => "NotIpAddress"
  | ArnEquals => "ArnEquals"
  | ArnNotEquals => "ArnNotEquals"
  | ArnLike => "ArnLike"
  | ArnNotLike => "ArnNotLike"
  | OpNull => "Null"
  end.

Definition qualifier_label (q : Qualifier) : string :=
  match q with
  | QSingle => EmptyString
  | QForAnyValue => "ForAnyValue:"
  | QForAllValues => "ForAllValues:"
  end.

Definition operator_name (p : ParsedOperatorName) : string :=
  qualifier_label (po_qualifier p)
  +:+ (operator_label (po_op p) +:+ if po_if_exists p then "IfExists" else EmptyString).

Lemma operator_from_str_Some name op :
  operator_from_str name = Some op -> name = operator_label op.
Proof.
  unfold operator_from_str. intros H.
  repeat match type of H with
  | (if String.eqb name ?l then _ else _) = _ =>
      destruct (String.eqb_spec name l) as [->|_]; [by injection H as <-|]
  end. done.
Qed.

(** Theorem (roundtrip) The operator grammar is exactly
    [[ForAllValues:|ForAnyValue:]Operator[IfExists]]: a JSON key parses to an
    operator if and only if it is the printed name of that operator, its
    qualifier and its [IfExists] flag. *)
Theorem parse_operator_name_iff (raw : string) (p : ParsedOperatorName) :
  parse_operator_name raw = Some p <-> raw = operator_name p.
Proof.
  split.
  - unfold parse_operator_name, operator_name.
    destruct (strip_prefix "ForAllValues:" raw) as [s|] eqn:E1;
      [apply strip_prefix_Some in E1|
       destruct (strip_prefix "ForAnyValue:" raw) as [s|] eqn:E2;
         [apply strip_prefix_Some in E2|]]; subst.
    all: match goal with
         | |- context [strip_suffix "IfExists" ?r] =>
             destruct (strip_suffix "IfExists" r) as [b|] eqn:Es;
             [apply strip_suffix_Some in Es|]
         end.
    all: intros (op & Hop & Hp)%fmap_Some; apply operator_from_str_Some in Hop;
      subst; simpl; by rewrite ?string_app_nil_r.
  - intros ->. destruct p as [[] [] []]; reflexivity.
Qed.

(** ** Evaluation of blocks *)

Section Results.
Context `{Chrono}.

Lemma match_entries_forallb es ctx is_deny :
  match_entries es ctx is_deny
  = forallb (fun e => if is_unknown_entry e then is_deny else evaluate_entry e ctx) es.
Proof.
  induction es as [|e es IH]; simpl; [done|]. rewrite IH.
  destruct (is_unknown_entry e); [by destruct is_deny|].
  by destruct (evaluate_entry e ctx).
Qed.

(** Theorem (safety) A condition block fails closed on operators it does not know:
    a block is the conjunction of its entries, an unknown operator makes an
    Allow inapplicable, and whatever makes an Allow apply also makes a Deny
    apply.  So an unreadable condition never widens a grant and never narrows
    a restriction. *)
Theorem condition_block_fails_closed (c : CompiledCondition) (ctx : ConditionContext) :
  (matches_for_effect c ctx false = true <->
     Forall (fun e => is_unknown_entry e = false /\ evaluate_entry e ctx = true) (entries c))
  /\ (matches_for_effect c ctx true = true <->
     Forall (fun e => is_unknown_entry e = true \/ evaluate_entry e ctx = true) (entries c))
  /\ (matches_for_effect c ctx false = true -> matches_for_effect c ctx true = true).
Proof.
  unfold matches_for_effect. rewrite !match_entries_forallb, !forallb_forall, !Forall_forall.
  setoid_rewrite list_elem_of_In.
  split_and!; [split|split|]; intros Hf e He; specialize (Hf e He);
    destruct (is_unknown_entry e); naive_solver.
Qed.

(** ** Missing keys *)

(** Theorem (functional) The answer for a key the request does not carry: [true]
    for an [IfExists] operator, [true] for a negated operator without a
    qualifier, [false] for everything else, whatever the policy values.  In
    particular a [Deny ... StringNotEquals] guard cannot be skipped by
    omitting the key. *)
Theorem evaluate_entry_missing (entry : ParsedCondition) (ctx : ConditionContext)
  (Hop : po_op (pc_operator entry) <> OpNull)
  (Hmiss : ctx_lookup ctx (pc_key entry) = None) :
  evaluate_entry entry ctx = true <->
  po_if_exists (pc_operator entry) = true
  \/ (po_qualifier (pc_operator entry) = QSingle
      /\ is_negated (po_op (pc_operator entry)) = true).
Proof.
  unfold evaluate_entry. rewrite bool_decide_eq_false_2 by done. rewrite Hmiss.
  unfold evaluate_missing. by rewrite orb_true_iff, andb_true_iff, bool_decide_eq_true.
Qed.

(** ** Negated operators *)

Definition positive_form (op : ConditionOperator) : ConditionOperator :=
  match op with
  | StringNotEquals => StringEquals
  | StringNotEqualsIgnoreCase => StringEqualsIgnoreCase
  | StringNotLike => StringLike
  | NumericNotEquals => NumericEquals
  | DateNotEquals => DateEquals
  | NotIpAddress => IpAddress
  | ArnNotEquals => ArnEquals
  | ArnNotLike => ArnLike
  | op => op
  end.

(** Numeric and date operators require every operand to parse. *)
Definition operands_parse (op : ConditionOperator) (policy_values : list string)
  (context_value : string) : bool :=
  match op with
  | NumericNotEquals =>
      bool_decide (is_Some (parse_f64 context_value))
      && forallb (fun pv => bool_decide (is_Some (parse_f64 pv))) policy_values
  | DateNotEquals =>
      bool_decide (is_Some (parse_date context_value))
      && forallb (fun pv => bool_decide (is_Some (parse_date pv))) policy_values
  | _ => true
  end.

Lemma forallb_negb_existsb {A} (f : A -> bool) l :
  forallb (fun x => negb (f x)) l = negb (existsb f l).
Proof. induction l as [|x l IH]; simpl; [done|]. by rewrite IH, negb_orb. Qed.

Lemma cmp_all_complement {A} (parse : string -> option A) (f : A -> bool) l :
  forallb (fun pv => match parse pv with Some p => negb (f p) | None => false end) l
  = forallb (fun pv => bool_decide (is_Some (parse pv))) l
    && negb (existsb (fun pv => match parse pv with Some p => f p | None => false end) l).
Proof.
  induction l as [|x l IH]; simpl; [done|]. rewrite IH.
  destruct (parse x) as [a|]; simpl.
  - destruct (f a); simpl; [by rewrite andb_false_r|done].
  - done.
Qed.

(** Theorem (functional) Every negated operator is the complement of its positive
    form: for each context value it holds exactly when the positive operator
    does not, except that a numeric or date comparison with an operand that
    does not parse is false in both forms. *)
Theorem negated_operator_complement (op : ConditionOperator) (policy_values : list string)
  (context_value : string) (Hneg : is_negated op = true) :
  match_values op policy_values context_value
  = operands_parse op policy_values context_value
    && negb (match_values (positive_form op) policy_values context_value).
Proof.
  destruct op; try discriminate Hneg; cbn [match_values positive_form operands_parse andb];
    try apply forallb_negb_existsb.
  - unfold numeric_cmp_all, numeric_cmp. destruct (parse_f64 context_value) as [c|]; simpl.
    + apply (cmp_all_complement parse_f64 (fun p => f64_eqb p c)).
    + done.
  - unfold date_cmp_all, date_cmp. destruct (parse_date context_value) as [c|]; simpl.
    + apply (cmp_all_complement parse_date (fun p => (p =? c)%Z)).
    + done.
Qed.

End Results.

Lemma evaluate_entry_missing_witness :
  let entry := {| pc_operator := {| po_op := StringNotEquals; po_if_exists := false;
                                    po_qualifier := QSingle |};
                  pc_key := "aws:SourceVpc"; pc_values := ["vpc-1"%string];
                  pc_policy_variables := false |} in
  @evaluate_entry null_chrono entry empty_context = true <->
  false = true \/ (QSingle = QSingle /\ true = true).
Proof.
  intros entry. apply (@evaluate_entry_missing null_chrono entry empty_context).
  - discriminate.
  - reflexivity.
Defined.

Lemma negated_operator_complement_witness :
  @match_values null_chrono NumericNotEquals ["1"%string; "2.5"%string] "3"
  = @operands_parse null_chrono NumericNotEquals ["1"%string; "2.5"%string] "3"
    && negb (@match_values null_chrono NumericEquals ["1"%string; "2.5"%string] "3").
Proof. apply (@negated_operator_complement null_chrono NumericNotEquals). reflexivity. Defined.
