(* ===== verification/Evaluator.v ===== *)
(** * The IAM policy evaluator

    [fakecloud-iam/src/evaluator.rs]: policy documents, statement matching,
    the Allow / implicit deny / explicit deny decision, its intersection with
    permission boundaries, session policies and service control policies, and
    its combination with resource policies (cross-account and KMS rules). *)

From Stdlib Require Import ZArith Lia Bool String Ascii.
From stdpp Require Import base option list strings gmap.
From S2P Require Import Prelude Glob Json Net Auth PolicyVars Condition.

(** ** Decisions and parsed policies *)

Inductive Decision : Type := Allow | ImplicitDeny | ExplicitDeny.

#[global] Instance Decision_eq_dec : EqDecision Decision.
Proof. solve_decision. Defined.

Definition is_allow (d : Decision) : bool :=
  match d with Allow => true | _ => false end.

Inductive Effect : Type := EAllow | EDeny.

#[global] Instance Effect_eq_dec : EqDecision Effect.
Proof. solve_decision. Defined.

Inductive ActionMatch : Type :=
| Action (patterns : list string)
| NotAction (patterns : list string).

Inductive ResourceMatch : Type :=
| Resource (patterns : list string)
| NotResource (patterns : list string)
| ImplicitResource.

Inductive PrincipalRef : Type :=
| AnyAws
| AwsAccountRoot (account : string)
| AwsArn (a : string)
| ServiceRef (service : string)
| FederatedRef (provider : string)
| CanonicalUser (id : string).

#[global] Instance PrincipalRef_eq_dec : EqDecision PrincipalRef.
Proof. solve_decision. Defined.

Inductive PrincipalPattern : Type :=
| NoPrincipal
| PrincipalIs (refs : list PrincipalRef)
| PrincipalIsNot (refs : list PrincipalRef).

Record ParsedStatement := {
  st_effect : Effect;
  st_action : ActionMatch;
  st_resource : ResourceMatch;
  st_condition : option CompiledCondition;
  st_principal : PrincipalPattern;
  st_variables : bool
}.

Record PolicyDocument := { statements : list ParsedStatement }.

Definition empty_document : PolicyDocument := {| statements := [] |}.

Record EvalRequest := {
  rq_principal : Principal;
  rq_action : string;
  rq_resource : string;
  rq_context : ConditionContext
}.

(** ** Wildcards *)

(** [glob_match]: the matcher of [Glob] on plain characters. *)
Definition glob_match (pattern value : string) : bool :=
  glob_bool char_eats char_runs (chars pattern) (chars value).

(** [iam_glob_match]. *)
Definition iam_glob_match (pattern value : string) (is_action : bool) : bool :=
  match is_action, split_once ":" pattern, split_once ":" value with
  | true, Some (p_svc, p_act), Some (v_svc, v_act) =>
      if negb (glob_match (to_ascii_lowercase p_svc) (to_ascii_lowercase v_svc)) then false
      else glob_match (to_ascii_lowercase p_act) (to_ascii_lowercase v_act)
  | _, _, _ => glob_match pattern value
  end.

(** ** Principals *)

Definition arn_denotes_service (a service : string) : bool :=
  contains_str ("aws-service-role/" +:+ service) a.

Definition principal_is_service (p : Principal) (service : string) : bool :=
  match principal_type p with
  | TService => eq_ignore_ascii_case (arn p) service
  | TAssumedRole => arn_denotes_service (arn p) service
  | _ => false
  end.

Definition principal_is_federated (p : Principal) (provider : string) : bool :=
  bool_decide (principal_type p = TFederatedUser) && String.eqb (arn p) provider.

Definition principal_is_canonical_user (p : Principal) (id : string) : bool :=
  negb (is_empty_str id) && string_forallb is_ascii_hexdigit id
  && eq_ignore_ascii_case (user_id p) id.

(** One entry of [principal_matches_scoped]. *)
Definition principal_ref_matches (ignore_account_wide : bool) (p : Principal)
  (r : PrincipalRef) : bool :=
  match r with
  | AnyAws => negb ignore_account_wide
  | AwsAccountRoot account => negb ignore_account_wide && String.eqb (account_id p) account
  | AwsArn a => String.eqb (arn p) a
  | ServiceRef service => principal_is_service p service
  | FederatedRef provider => principal_is_federated p provider
  | CanonicalUser id => principal_is_canonical_user p id
  end.

Definition principal_matches_scoped (refs : list PrincipalRef) (p : Principal)
  (ignore_account_wide : bool) : bool :=
  existsb (principal_ref_matches ignore_account_wide p) refs.

Definition principal_matches (refs : list PrincipalRef) (p : Principal) : bool :=
  principal_matches_scoped refs p false.

(** [classify_aws_principal]. *)
Definition classify_aws_principal (s : string) : PrincipalRef :=
  if String.eqb s "*" then AnyAws
  else
    let root_account :=
      rest ← strip_prefix "arn:" s;
      '(_, r) ← split_once ":" rest;
      rest ← strip_prefix "iam::" r;
      '(account, tail) ← split_once ":" rest;
      if String.eqb tail "root" && negb (is_empty_str account) then Some account else None in
    match root_account with
    | Some account => AwsAccountRoot account
    | None =>
        if Nat.eqb (byte_len s) 12 && string_forallb is_ascii_digit s
        then AwsAccountRoot s
        else AwsArn s
    end.

(** ** Parsing *)

Definition coerce_string_list (v : Value) : list string :=
  match v with
  | VString s => [s]
  | VArray l => omap as_str l
  | _ => []
  end.

(** [parse_principal]. *)
Definition parse_principal (v : Value) : list PrincipalRef :=
  match v with
  | VString s => if String.eqb s "*" then [AnyAws] else []
  | VObject m =>
      m ≫= fun kv : string * Value =>
        let values := coerce_string_list kv.2 in
        if String.eqb kv.1 "AWS" then classify_aws_principal <$> values
        else if String.eqb kv.1 "Service" then ServiceRef <$> values
        else if String.eqb kv.1 "Federated" then FederatedRef <$> values
        else if String.eqb kv.1 "CanonicalUser" then CanonicalUser <$> values
        else []
  | _ => []
  end.

Section Parsing.
Context `{SerdeJson}.

(** [parse_statement]. *)
Definition parse_statement (variables : bool) (v : Value) : option ParsedStatement :=
  obj ← as_object v;
  eff ← assoc "Effect" obj ≫= as_str;
  effect ← (if String.eqb eff "Allow" then Some EAllow
            else if String.eqb eff "Deny" then Some EDeny
            else None);
  action ← match assoc "Action" obj with
           | Some a => Some (Action (coerce_string_list a))
           | None =>
               match assoc "NotAction" obj with
               | Some na => Some (NotAction (coerce_string_list na))
               | None => None
               end
           end;
  let resource :=
    match assoc "Resource" obj with
    | Some r => Resource (coerce_string_list r)
    | None =>
        match assoc "NotResource" obj with
        | Some nr => NotResource (coerce_string_list nr)
        | None => ImplicitResource
        end
    end in
  let condition :=
    (fun c => with_policy_variables variables (parse_condition c)) <$> assoc "Condition" obj in
  let principal :=
    match assoc "NotPrincipal" obj with
    | Some np => PrincipalIsNot (parse_principal np)
    | None =>
        match assoc "Principal" obj with
        | Some p => PrincipalIs (parse_principal p)
        | None => NoPrincipal
        end
    end in
  Some {| st_effect := effect; st_action := action; st_resource := resource;
          st_condition := condition; st_principal := principal;
          st_variables := variables |}.

(** [PolicyDocument::from_value]. *)
Definition document_from_value (v : Value) : PolicyDocument :=
  let variables := match get "Version" v ≫= as_str with
                   | Some s => String.eqb s "2012-10-17"
                   | None => false
                   end in
  match get "Statement" v with
  | Some (VArray l) => {| statements := omap (parse_statement variables) l |}
  | Some (VObject m) => {| statements := option_list (parse_statement variables (VObject m)) |}
  | _ => empty_document
  end.

(** [PolicyDocument::parse]: malformed JSON is an empty document. *)
Definition document_parse (json : string) : PolicyDocument :=
  match json_from_str json with
  | Some v => document_from_value v
  | None => empty_document
  end.

End Parsing.

(** ** Matching a statement *)

Definition action_matches (a : ActionMatch) (request_action : string) : bool :=
  match a with
  | Action patterns => existsb (fun p => iam_glob_match p request_action true) patterns
  | NotAction patterns =>
      match patterns with
      | [] => false
      | _ => forallb (fun p => negb (iam_glob_match p request_action true)) patterns
      end
  end.

Section Evaluation.
Context `{Chrono}.

(** The closure [pattern_matches] of [resource_matches]. *)
Definition resource_pattern_matches (variables : bool) (request_resource : string)
  (ctx : ConditionContext) (p : string) : bool :=
  if variables && has_variables p then
    match resource_pattern p ctx with
    | Some pieces => piece_glob pieces request_resource false
    | None => false
    end
  else iam_glob_match p request_resource false.

Definition resource_matches (s : ParsedStatement) (request_resource : string)
  (ctx : ConditionContext) : bool :=
  let pm := resource_pattern_matches (st_variables s) request_resource ctx in
  match st_resource s with
  | Resource patterns => existsb pm patterns
  | NotResource patterns =>
      match patterns with
      | [] => false
      | _ => forallb (fun p => negb (pm p)) patterns
      end
  | ImplicitResource => true
  end.

(** The principal gate at the head of the statement loop. *)
Definition principal_gate (s : ParsedStatement) (p : Principal)
  (is_resource_policy ignore_account_wide : bool) : bool :=
  match st_principal s with
  | NoPrincipal => negb is_resource_policy
  | PrincipalIs refs => principal_matches_scoped refs p ignore_account_wide
  | PrincipalIsNot refs =>
      match refs with
      | [] => false
      | _ => negb (principal_matches refs p)
      end
  end.

Definition condition_gate (s : ParsedStatement) (ctx : ConditionContext) : bool :=
  match st_condition s with
  | Some c => matches_for_effect c ctx (bool_decide (st_effect s = EDeny))
  | None => true
  end.

(** A statement that survives every [continue] of the loop. *)
Definition statement_applies (rq : EvalRequest) (is_resource_policy ignore_account_wide : bool)
  (s : ParsedStatement) : bool :=
  principal_gate s (rq_principal rq) is_resource_policy ignore_account_wide
  && action_matches (st_action s) (rq_action rq)
  && resource_matches s (rq_resource rq) (rq_context rq)
  && condition_gate s (rq_context rq).

(** The statement loop: a Deny returns at once, an Allow is remembered. *)
Fixpoint scan_statements (applies : ParsedStatement -> bool) (allowed : bool)
  (sts : list ParsedStatement) : Decision :=
  match sts with
  | [] => if allowed then Allow else ImplicitDeny
  | s :: rest =>
      if applies s then
        match st_effect s with
        | EDeny => ExplicitDeny
        | EAllow => scan_statements applies true rest
        end
      else scan_statements applies allowed rest
  end.

(** [evaluate_inner_scoped]: the statements of all policies, in order. *)
Definition evaluate_inner_scoped (policies : list PolicyDocument) (rq : EvalRequest)
  (is_resource_policy ignore_account_wide : bool) : Decision :=
  scan_statements (statement_applies rq is_resource_policy ignore_account_wide) false
    (policies ≫= statements).

Definition evaluate_inner (policies : list PolicyDocument) (rq : EvalRequest)
  (is_resource_policy : bool) : Decision :=
  evaluate_inner_scoped policies rq is_resource_policy false.

(** [PolicyDocument::matching_identity_statements]. *)
Definition matching_identity_statements (d : PolicyDocument) (rq : EvalRequest)
  (allow : bool) : nat :=
  let want := if allow then EAllow else EDeny in
  length (filter (fun s =>
    (match st_principal s with NoPrincipal => true | _ => false end
     && bool_decide (st_effect s = want)
     && action_matches (st_action s) (rq_action rq)
     && resource_matches s (rq_resource rq) (rq_context rq)
     && match st_condition s with
        | Some c => matches_for_effect c (rq_context rq) (negb allow)
        | None => true
        end) = true) (statements d)).

(** ** Layers *)

(** The loop of [evaluate_scp_chain]. *)
Fixpoint scan_scps (rq : EvalRequest) (all_allow : bool) (scps : list PolicyDocument)
  : Decision :=
  match scps with
  | [] => if all_allow then Allow else ImplicitDeny
  | doc :: rest =>
      match evaluate_inner [doc] rq false with
      | ExplicitDeny => ExplicitDeny
      | Allow => scan_scps rq all_allow rest
      | ImplicitDeny => scan_scps rq false rest
      end
  end.

Definition evaluate_scp_chain (scps : list PolicyDocument) (rq : EvalRequest) : Decision :=
  match scps with
  | [] => ImplicitDeny
  | _ => scan_scps rq true scps
  end.

Definition allows_opt (d : option Decision) : bool :=
  match d with Some d => is_allow d | None => true end.

Definition denies_opt (d : option Decision) : bool :=
  match d with Some ExplicitDeny => true | _ => false end.

(** [intersect_layers]. *)
Definition intersect_layers (identity_decision : Decision)
  (boundary session scps : option (list PolicyDocument)) (rq : EvalRequest) : Decision :=
  if bool_decide (identity_decision = ExplicitDeny) then ExplicitDeny
  else
    let scp_decision := (fun docs => evaluate_scp_chain docs rq) <$> scps in
    if denies_opt scp_decision then ExplicitDeny
    else
      let boundary_decision := (fun ps => evaluate_inner ps rq false) <$> boundary in
      if denies_opt boundary_decision then ExplicitDeny
      else
        let session_decision := (fun ps => evaluate_inner ps rq false) <$> session in
        if denies_opt session_decision then ExplicitDeny
        else if is_allow identity_decision && allows_opt boundary_decision
                && allows_opt session_decision && allows_opt scp_decision
        then Allow else ImplicitDeny.

Definition evaluate_with_gates_and_scps (identity : list PolicyDocument)
  (boundary session scps : option (list PolicyDocument)) (rq : EvalRequest) : Decision :=
  intersect_layers (evaluate_inner identity rq false) boundary session scps rq.

Definition evaluate_with_gates (identity : list PolicyDocument)
  (boundary session : option (list PolicyDocument)) (rq : EvalRequest) : Decision :=
  evaluate_with_gates_and_scps identity boundary session None rq.

Definition evaluate (policies : list PolicyDocument) (rq : EvalRequest) : Decision :=
  evaluate_with_gates policies None None rq.

Definition evaluate_resource_policy_only (policy : PolicyDocument) (rq : EvalRequest)
  : Decision := evaluate_inner [policy] rq true.

(** ** Resource policies *)

(** [evaluate_kms_same_account]. *)
Definition evaluate_kms_same_account (key_policy : PolicyDocument)
  (identity_gated : Decision) (rq : EvalRequest) : Decision :=
  let full := evaluate_inner_scoped [key_policy] rq true false in
  if bool_decide (full = ExplicitDeny) then ExplicitDeny
  else
    let direct := evaluate_inner_scoped [key_policy] rq true true in
    if bool_decide (direct = Allow) then Allow
    else if bool_decide (full = Allow) && bool_decide (identity_gated = Allow) then Allow
    else ImplicitDeny.

Definition is_kms_action (action : string) : bool :=
  match split_once ":" action with
  | Some (svc, _) => eq_ignore_ascii_case svc "kms"
  | None => false
  end.

(** [evaluate_with_resource_policy_and_gates_and_scps]. *)
Definition evaluate_with_resource_policy_and_gates_and_scps
  (identity_policies : list PolicyDocument)
  (boundary session scps : option (list PolicyDocument))
  (resource_policy : option PolicyDocument) (rq : EvalRequest)
  (resource_account_id : string) : Decision :=
  let identity_raw := evaluate_inner identity_policies rq false in
  if bool_decide (identity_raw = ExplicitDeny) then ExplicitDeny
  else
    let identity_gated := intersect_layers identity_raw boundary session scps rq in
    if bool_decide (identity_gated = ExplicitDeny) then ExplicitDeny
    else
      let same_account := String.eqb (account_id (rq_principal rq)) resource_account_id in
      let is_kms := is_kms_action (rq_action rq) in
      let combine (_ : unit) :=
        let resource := match resource_policy with
                        | Some policy => evaluate_inner [policy] rq true
                        | None => ImplicitDeny
                        end in
        if bool_decide (resource = ExplicitDeny) then ExplicitDeny
        else
          let allowed := if same_account
                         then is_allow identity_gated || is_allow resource
                         else is_allow identity_gated && is_allow resource in
          if allowed then Allow else ImplicitDeny in
      match resource_policy with
      | Some policy =>
          if same_account && is_kms
          then evaluate_kms_same_account policy identity_gated rq
          else combine tt
      | None => if same_account then identity_gated else combine tt
      end.

Definition evaluate_with_resource_policy_and_gates
  (identity_policies : list PolicyDocument)
  (boundary session : option (list PolicyDocument))
  (resource_policy : option PolicyDocument) (rq : EvalRequest)
  (resource_account_id : string) : Decision :=
  evaluate_with_resource_policy_and_gates_and_scps identity_policies boundary session None
    resource_policy rq resource_account_id.

Definition evaluate_with_resource_policy (identity_policies : list PolicyDocument)
  (resource_policy : option PolicyDocument) (rq : EvalRequest)
  (resource_account_id : string) : Decision :=
  evaluate_with_resource_policy_and_gates identity_policies None None resource_policy rq
    resource_account_id.

End Evaluation.
