(* ===== verification/EvaluatorTheory.v ===== *)
(** * Correctness of the policy evaluator

    What [Evaluator] decides, stated against the prose of AWS policy
    evaluation: deny precedence, independence of statement order, the
    intersection of layers, cross-account and KMS combination, wildcard
    matching, and fail-closed parsing. *)

From Stdlib Require Import ZArith Lia Bool String Ascii.
From stdpp Require Import base option list strings gmap.
From S2P Require Import Prelude Glob Json Net Auth PolicyVars Condition Evaluator.

(** ** Wildcards *)

Lemma char_disjoint (p v : list ascii) :
  "*"%char ∉ v -> forall x c, x ∈ p -> c ∈ v -> char_runs x = true -> char_eats x c = false.
Proof.
  unfold char_runs, char_eats. intros Hv x c _ Hc Hx. apply Ascii.eqb_eq in Hx as ->.
  destruct (Ascii.eqb_spec "*" c) as [<-|]; [done|]. done.
Qed.

(** C40 (equivalence) [glob_match] and its copy in the condition module are
    the same function; it accepts only strings the textbook definition of
    [*] and [?] accepts, and it accepts all of them when the value contains
    no literal asterisk. The loop always terminates within its fuel. *)
Theorem glob_match_correct (pattern value : string) :
  (exists b, glob_run char_eats char_runs (chars pattern) (chars value) = Some b)
  /\ cond_glob pattern value = glob_match pattern value
  /\ (glob_match pattern value = true ->
      ref_match char_eats char_runs (chars pattern) (chars value) = true)
  /\ ("*"%char ∉ chars value ->
      glob_match pattern value = ref_match char_eats char_runs (chars pattern) (chars value)).
Proof.
  split_and!.
  - apply glob_run_total.
  - done.
  - apply glob_bool_sound.
  - intros Hv. apply glob_bool_complete. by apply char_disjoint.
Qed.

Section Decisions.
Context `{Chrono}.

(** ** The decision of one layer *)

(** Some statement of the policies has effect [e] and applies. *)
Definition applicable (e : Effect) (policies : list PolicyDocument) (rq : EvalRequest)
  (is_resource_policy ignore_account_wide : bool) : Prop :=
  exists d s, d ∈ policies /\ s ∈ statements d /\ st_effect s = e
    /\ statement_applies rq is_resource_policy ignore_account_wide s = true.

Lemma scan_statements_spec applies allowed sts :
  match scan_statements applies allowed sts with
  | ExplicitDeny => exists s, s ∈ sts /\ st_effect s = EDeny /\ applies s = true
  | Allow =>
      (forall s, s ∈ sts -> applies s = true -> st_effect s = EAllow)
      /\ (allowed = true \/ exists s, s ∈ sts /\ st_effect s = EAllow /\ applies s = true)
  | ImplicitDeny => allowed = false /\ forall s, s ∈ sts -> applies s = false
  end.
Proof.
  revert allowed. induction sts as [|s sts IH]; intros allowed; simpl.
  { destruct allowed; split; try done; try (by left); by intros s ?%elem_of_nil. }
  destruct (applies s) eqn:Es; [destruct (st_effect s) eqn:Ee|].
  - specialize (IH true). destruct (scan_statements applies true sts).
    + destruct IH as [Hall _]. split.
      * intros s' [->|Hs']%elem_of_cons; [done|by apply Hall].
      * right. exists s. split_and!; [left|done|done].
    + by destruct IH.
    + destruct IH as (s' & Hs' & He & Ha). exists s'. split_and!; [by right|done|done].
  - exists s. split_and!; [left|done|done].
  - specialize (IH allowed). destruct (scan_statements applies allowed sts).
    + destruct IH as [Hall Hex]. split.
      * intros s' [->|Hs']%elem_of_cons; [congruence|by apply Hall].
      * destruct Hex as [?|(s' & Hs' & He & Ha)]; [by left|right].
        exists s'. split_and!; [by right|done|done].
    + destruct IH as [Hal Hall]. split; [done|].
      intros s' [->|Hs']%elem_of_cons; [done|by apply Hall].
    + destruct IH as (s' & Hs' & He & Ha). exists s'. split_and!; [by right|done|done].
Qed.

Lemma elem_of_all_statements s (policies : list PolicyDocument) :
  s ∈ (policies ≫= statements) <-> exists d, d ∈ policies /\ s ∈ statements d.
Proof.
  rewrite list_elem_of_bind. split; intros (d & ? & ?); exists d; tauto.
Qed.

Lemma inner_scoped_cases (policies : list PolicyDocument) (rq : EvalRequest)
  (is_resource_policy ignore_account_wide : bool) :
  let app e := applicable e policies rq is_resource_policy ignore_account_wide in
  match evaluate_inner_scoped policies rq is_resource_policy ignore_account_wide with
  | ExplicitDeny => app EDeny
  | Allow => ~ app EDeny /\ app EAllow
  | ImplicitDeny => ~ app EDeny /\ ~ app EAllow
  end.
Proof.
  intros app. unfold evaluate_inner_scoped.
  pose proof (scan_statements_spec (statement_applies rq is_resource_policy ignore_account_wide)
    false (policies ≫= statements)) as Hs.
  destruct (scan_statements _ _ _).
  - destruct Hs as [Hall [?|(s & Hin & He & Ha)]]; [done|].
    split.
    + intros (d & s' & Hd & Hs' & He' & Ha'). specialize (Hall s').
      rewrite Hall in He'; [done| |done]. apply elem_of_all_statements; eauto.
    + apply elem_of_all_statements in Hin as (d & Hd & Hs'). by exists d, s.
  - destruct Hs as [_ Hall].
    assert (Hno : forall e, ~ app e).
    { intros e (d & s & Hd & Hs & He & Ha). rewrite Hall in Ha; [done|].
      apply elem_of_all_statements; eauto. }
    split; apply Hno.
  - destruct Hs as (s & Hin & He & Ha). apply elem_of_all_statements in Hin as (d & Hd & Hs').
    by exists d, s.
Qed.

(** C2 (refinement) One layer decides as AWS documents it: explicit deny
    exactly when some applicable statement denies; allow exactly when none
    denies and one allows; implicit deny otherwise. *)
Theorem evaluate_inner_scoped_spec (policies : list PolicyDocument) (rq : EvalRequest)
  (is_resource_policy ignore_account_wide : bool) :
  let app e := applicable e policies rq is_resource_policy ignore_account_wide in
  match evaluate_inner_scoped policies rq is_resource_policy ignore_account_wide with
  | ExplicitDeny => app EDeny
  | Allow => ~ app EDeny /\ app EAllow
  | ImplicitDeny => ~ app EDeny /\ ~ app EAllow
  end.
Proof. apply inner_scoped_cases. Qed.

Lemma inner_ExplicitDeny ps rq r w :
  evaluate_inner_scoped ps rq r w = ExplicitDeny <-> applicable EDeny ps rq r w.
Proof.
  pose proof (inner_scoped_cases ps rq r w) as Hs. simpl in Hs.
  destruct (evaluate_inner_scoped ps rq r w); split; (done || tauto || intuition done).
Qed.

Lemma inner_Allow ps rq r w :
  evaluate_inner_scoped ps rq r w = Allow
  <-> ~ applicable EDeny ps rq r w /\ applicable EAllow ps rq r w.
Proof.
  pose proof (inner_scoped_cases ps rq r w) as Hs. simpl in Hs.
  destruct (evaluate_inner_scoped ps rq r w); split; (done || tauto || intuition done).
Qed.

(** Policy sets with the same statements, in whatever order and grouping. *)
Definition same_statements (ps qs : list PolicyDocument) : Prop :=
  forall s, s ∈ (ps ≫= statements) <-> s ∈ (qs ≫= statements).

#[global] Instance same_statements_equiv : Equivalence same_statements.
Proof.
  split.
  - intros ps s. done.
  - intros ps qs Hpq s. by rewrite (Hpq s).
  - intros ps qs rs Hpq Hqr s. by rewrite (Hpq s).
Qed.

#[global] Instance applicable_proper e :
  Proper (same_statements ==> eq ==> eq ==> eq ==> iff) (applicable e).
Proof.
  intros ps qs Hpq rq ? <- r ? <- w ? <-. unfold applicable.
  assert (Hone : forall xs ys, same_statements xs ys ->
    (exists d s, d ∈ xs /\ s ∈ statements d /\ st_effect s = e
       /\ statement_applies rq r w s = true) ->
    exists d s, d ∈ ys /\ s ∈ statements d /\ st_effect s = e
       /\ statement_applies rq r w s = true).
  { intros xs ys Hxy (d & s & Hd & Hs & He & Ha).
    assert (s ∈ (ys ≫= statements)) as (d' & ? & ?)%elem_of_all_statements.
    { apply Hxy, elem_of_all_statements. eauto. }
    by exists d', s. }
  split; apply Hone; [done|by symmetry].
Qed.

(** Theorem (invariant) The decision of a layer depends only on the set of its
    statements: reordering policies or statements, duplicating them, or
    moving them between documents changes nothing, so the iteration order of
    the maps the policies are collected from is irrelevant. *)
Theorem evaluate_inner_order_irrelevant (ps qs : list PolicyDocument) (rq : EvalRequest)
  (r w : bool)
  (Hsame : forall s, s ∈ (ps ≫= statements) <-> s ∈ (qs ≫= statements)) :
  evaluate_inner_scoped ps rq r w = evaluate_inner_scoped qs rq r w.
Proof.
  change (same_statements ps qs) in Hsame.
  pose proof (inner_scoped_cases ps rq r w) as Hp.
  pose proof (inner_scoped_cases qs rq r w) as Hq. simpl in Hp, Hq.
  assert (Hiff : forall e, applicable e ps rq r w <-> applicable e qs rq r w)
    by (intros e; by rewrite Hsame).
  pose proof (Hiff EDeny). pose proof (Hiff EAllow).
  destruct (evaluate_inner_scoped ps rq r w), (evaluate_inner_scoped qs rq r w); tauto.
Qed.

(** ** Layers *)

Lemma scan_scps_spec rq all_allow scps :
  match scan_scps rq all_allow scps with
  | ExplicitDeny => exists d, d ∈ scps /\ evaluate_inner [d] rq false = ExplicitDeny
  | Allow => all_allow = true /\ forall d, d ∈ scps -> evaluate_inner [d] rq false = Allow
  | ImplicitDeny =>
      (forall d, d ∈ scps -> evaluate_inner [d] rq false <> ExplicitDeny)
      /\ (all_allow = false \/ exists d, d ∈ scps /\ evaluate_inner [d] rq false <> Allow)
  end.
Proof.
  revert all_allow. induction scps as [|d scps IH]; intros aa; simpl.
  { destruct aa; split; try done; try (by left); by intros ? ?%elem_of_nil. }
  destruct (evaluate_inner [d] rq false) eqn:Ed.
  - specialize (IH aa). destruct (scan_scps rq aa scps).
    + destruct IH as [-> IH]. split; [done|].
      intros d' [->|?]%elem_of_cons; [done|by apply IH].
    + destruct IH as [IH1 IH2]. split.
      * intros d' [->|?]%elem_of_cons; [by rewrite Ed|by apply IH1].
      * destruct IH2 as [?|(d' & ? & ?)]; [by left|right]. exists d'. split; [by right|done].
    + destruct IH as (d' & ? & ?). exists d'. split; [by right|done].
  - specialize (IH false). destruct (scan_scps rq false scps).
    + by destruct IH.
    + destruct IH as [IH1 _]. split.
      * intros d' [->|?]%elem_of_cons; [by rewrite Ed|by apply IH1].
      * right. exists d. split; [left|by rewrite Ed].
    + destruct IH as (d' & ? & ?). exists d'. split; [by right|done].
  - exists d. split; [left|done].
Qed.

(** Every document of a present layer group satisfies [P]. *)
Definition present {A} (o : option A) (P : A -> Prop) : Prop :=
  forall a, o = Some a -> P a.

Lemma scp_chain_Allow docs rq :
  evaluate_scp_chain docs rq = Allow
  <-> docs <> [] /\ forall d, d ∈ docs -> evaluate_inner [d] rq false = Allow.
Proof.
  unfold evaluate_scp_chain. destruct docs as [|d0 docs]; [by split; [|intros []]|].
  pose proof (scan_scps_spec rq true (d0 :: docs)) as Hs.
  destruct (scan_scps rq true (d0 :: docs)); split; try done.
  - by destruct Hs.
  - intros [_ Hall]. destruct Hs as [_ [?|(d & Hd & Hne)]]; [done|]. by destruct Hne; apply Hall.
  - intros [_ Hall]. destruct Hs as (d & Hd & He). rewrite Hall in He; done.
Qed.

Lemma scp_chain_ExplicitDeny docs rq :
  evaluate_scp_chain docs rq = ExplicitDeny
  <-> exists d, d ∈ docs /\ evaluate_inner [d] rq false = ExplicitDeny.
Proof.
  unfold evaluate_scp_chain. destruct docs as [|d0 docs].
  { split; [done|]. by intros (? & ?%elem_of_nil & _). }
  pose proof (scan_scps_spec rq true (d0 :: docs)) as Hs.
  destruct (scan_scps rq true (d0 :: docs)); split; try done.
  - intros (d & Hd & He). destruct Hs as [_ Hs]. rewrite Hs in He; done.
  - intros (d & Hd & He). destruct Hs as [Hs _]. by destruct (Hs d).
Qed.

Lemma denies_opt_spec {A} (f : A -> Decision) (o : option A) :
  denies_opt (f <$> o) = true <-> exists a, o = Some a /\ f a = ExplicitDeny.
Proof.
  split.
  - destruct o as [a|]; simpl; [|done]. destruct (f a) eqn:E; [done|done|eauto].
  - intros (a & -> & Ha). simpl. by rewrite Ha.
Qed.

Lemma allows_opt_spec {A} (f : A -> Decision) (o : option A) :
  allows_opt (f <$> o) = true <-> present o (fun a => f a = Allow).
Proof.
  unfold present. destruct o as [a|]; simpl; [|done]. split.
  - destruct (f a) eqn:E; [|done..]. intros _ a' [= <-]. done.
  - intros Ha. by rewrite (Ha a).
Qed.

Lemma allows_not_denies {A} (f : A -> Decision) (o : option A) :
  allows_opt (f <$> o) = true -> denies_opt (f <$> o) = false.
Proof. destruct o as [a|]; simpl; [|done]. by destruct (f a). Qed.

(** The explicit denies of the layers. *)
Definition layer_denies (identity : Decision)
  (boundary session scps : option (list PolicyDocument)) (rq : EvalRequest) : Prop :=
  identity = ExplicitDeny
  \/ (exists ps, boundary = Some ps /\ evaluate_inner ps rq false = ExplicitDeny)
  \/ (exists ps, session = Some ps /\ evaluate_inner ps rq false = ExplicitDeny)
  \/ (exists docs d, scps = Some docs /\ d ∈ docs
       /\ evaluate_inner [d] rq false = ExplicitDeny).

(** Every present layer allows. *)
Definition layers_allow (identity : Decision)
  (boundary session scps : option (list PolicyDocument)) (rq : EvalRequest) : Prop :=
  identity = Allow
  /\ present boundary (fun ps => evaluate_inner ps rq false = Allow)
  /\ present session (fun ps => evaluate_inner ps rq false = Allow)
  /\ present scps (fun docs => docs <> []
       /\ forall d, d ∈ docs -> evaluate_inner [d] rq false = Allow).

Lemma intersect_ExplicitDeny identity boundary session scps rq :
  intersect_layers identity boundary session scps rq = ExplicitDeny
  <-> layer_denies identity boundary session scps rq.
Proof.
  unfold intersect_layers, layer_denies. case_bool_decide as Hi; [by split; [left|]|].
  destruct (denies_opt (_ <$> scps)) eqn:Es.
  { apply denies_opt_spec in Es as (docs & -> & Hd).
    apply scp_chain_ExplicitDeny in Hd as (d & ? & ?).
    split; [|done]. intros _. do 3 right. eauto. }
  destruct (denies_opt (_ <$> boundary)) eqn:Eb.
  { apply denies_opt_spec in Eb as (ps & -> & Hd). split; [|done]. intros _. right. left. eauto. }
  destruct (denies_opt (_ <$> session)) eqn:Ess.
  { apply denies_opt_spec in Ess as (ps & -> & Hd). split; [|done].
    intros _. right. right. left. eauto. }
  split.
  - by destruct (_ && _).
  - intros [?|[Hx|[Hx|(docs & d & -> & Hd & He)]]]; [done| | |].
    + apply denies_opt_spec in Hx. congruence.
    + apply denies_opt_spec in Hx. congruence.
    + assert (denies_opt ((fun docs => evaluate_scp_chain docs rq) <$> Some docs) = true);
        [|congruence].
      apply denies_opt_spec. exists docs. split; [done|]. apply scp_chain_ExplicitDeny. eauto.
Qed.

Lemma intersect_Allow identity boundary session scps rq :
  intersect_layers identity boundary session scps rq = Allow
  <-> layers_allow identity boundary session scps rq.
Proof.
  unfold layers_allow.
  assert (Hscp : allows_opt ((fun docs => evaluate_scp_chain docs rq) <$> scps) = true
    <-> present scps (fun docs => docs <> []
          /\ forall d, d ∈ docs -> evaluate_inner [d] rq false = Allow)).
  { rewrite allows_opt_spec. unfold present. by setoid_rewrite scp_chain_Allow. }
  rewrite <- Hscp, <- !allows_opt_spec. unfold intersect_layers.
  split.
  - case_bool_decide; [done|].
    destruct (denies_opt _); [done|]. destruct (denies_opt _); [done|].
    destruct (denies_opt _); [done|].
    destruct (is_allow identity && _ && _ && _) eqn:E; [|done].
    boolify. by destruct identity.
  - intros (-> & Hb & Hs & Hc). rewrite bool_decide_eq_false_2 by done.
    rewrite !allows_not_denies by done. by rewrite Hb, Hs, Hc.
Qed.

(** C3 (refinement) Layer intersection: with optional boundary, session and
    SCP layers, the request is explicitly denied exactly when some layer
    explicitly denies (SCP documents are separate layers), and allowed
    exactly when the identity policies and every present layer allow; an SCP
    chain that is present but empty allows nothing. *)
Theorem evaluate_with_gates_spec (identity : list PolicyDocument)
  (boundary session scps : option (list PolicyDocument)) (rq : EvalRequest) :
  let d := evaluate_inner identity rq false in
  (evaluate_with_gates_and_scps identity boundary session scps rq = ExplicitDeny
     <-> layer_denies d boundary session scps rq)
  /\ (evaluate_with_gates_and_scps identity boundary session scps rq = Allow
     <-> layers_allow d boundary session scps rq).
Proof. split; [apply intersect_ExplicitDeny|apply intersect_Allow]. Qed.

(** ** Resource policies *)

(** The resource has a policy, with a statement of effect [e] that applies. *)
Definition resource_has (e : Effect) (resource_policy : option PolicyDocument)
  (rq : EvalRequest) (ignore_account_wide : bool) : Prop :=
  match resource_policy with
  | Some p => applicable e [p] rq true ignore_account_wide
  | None => False
  end.

(** Who may grant a request on a resource of [account]. *)
Definition grants (identity : list PolicyDocument)
  (boundary session scps : option (list PolicyDocument))
  (resource_policy : option PolicyDocument) (rq : EvalRequest) (account : string) : Prop :=
  let identity_allows :=
    layers_allow (evaluate_inner identity rq false) boundary session scps rq in
  let resource_allows := resource_has EAllow resource_policy rq in
  if String.eqb (account_id (rq_principal rq)) account then
    if is_kms_action (rq_action rq) && bool_decide (is_Some resource_policy) then
      resource_allows true \/ (resource_allows false /\ identity_allows)
    else identity_allows \/ resource_allows false
  else identity_allows /\ resource_allows false.

(** Ignoring the account-wide principals only drops statements. *)
Lemma scoped_statement_applies rq r s :
  statement_applies rq r true s = true -> statement_applies rq r false s = true.
Proof.
  unfold statement_applies. rewrite !andb_true_iff. intros [[[Hp ?] ?] ?].
  split_and!; [|done..]. revert Hp. unfold principal_gate.
  destruct (st_principal s) as [|refs|refs]; [done| |done].
  unfold principal_matches_scoped. rewrite !existsb_exists.
  intros (x & Hx & Hm). exists x. split; [done|]. by destruct x.
Qed.

Lemma scoped_applicable e ps rq r :
  applicable e ps rq r true -> applicable e ps rq r false.
Proof.
  intros (d & s & Hd & Hs & He & Ha). exists d, s.
  split_and!; [done..|by apply scoped_statement_applies].
Qed.

Lemma intersect_cases identity boundary session scps rq :
  let d := intersect_layers identity boundary session scps rq in
  (d = ExplicitDeny <-> layer_denies identity boundary session scps rq)
  /\ (is_allow d = true <-> layers_allow identity boundary session scps rq).
Proof.
  intros d. rewrite <- intersect_ExplicitDeny, <- intersect_Allow.
  split; [done|]. fold d. by destruct d.
Qed.

Lemma layer_denies_identity boundary session scps rq :
  layer_denies ExplicitDeny boundary session scps rq.
Proof. by left. Qed.

Lemma kms_cases key_policy gated rq :
  gated <> ExplicitDeny ->
  (evaluate_kms_same_account key_policy gated rq = ExplicitDeny
     <-> applicable EDeny [key_policy] rq true false)
  /\ (evaluate_kms_same_account key_policy gated rq = Allow
     <-> ~ applicable EDeny [key_policy] rq true false
         /\ (applicable EAllow [key_policy] rq true true
             \/ (applicable EAllow [key_policy] rq true false /\ gated = Allow))).
Proof.
  intros Hg. unfold evaluate_kms_same_account.
  pose proof (inner_scoped_cases [key_policy] rq true false) as Hf.
  pose proof (inner_scoped_cases [key_policy] rq true true) as Hd.
  pose proof (scoped_applicable EDeny [key_policy] rq true) as HD.
  pose proof (scoped_applicable EAllow [key_policy] rq true) as HA.
  cbn zeta in Hf, Hd.
  destruct (evaluate_inner_scoped [key_policy] rq true false),
    (evaluate_inner_scoped [key_policy] rq true true), gated; simpl;
    (split; split; intros; (done || intuition (done || congruence))).
Qed.

Lemma resource_cases p rq :
  (evaluate_inner [p] rq true = ExplicitDeny <-> applicable EDeny [p] rq true false)
  /\ (is_allow (evaluate_inner [p] rq true) = true
      <-> ~ applicable EDeny [p] rq true false /\ applicable EAllow [p] rq true false).
Proof.
  unfold evaluate_inner. split; [apply inner_ExplicitDeny|].
  rewrite <- inner_Allow. by destruct (evaluate_inner_scoped _ _ _ _).
Qed.

(** Some layer of the caller or the resource policy denies explicitly. *)
Definition denied (identity : list PolicyDocument)
  (boundary session scps : option (list PolicyDocument))
  (resource_policy : option PolicyDocument) (rq : EvalRequest) : Prop :=
  layer_denies (evaluate_inner identity rq false) boundary session scps rq
  \/ resource_has EDeny resource_policy rq false.

(** A decision procedure that denies on [D] and otherwise allows on [G]. *)
Record decides (d : Decision) (D G : Prop) : Prop := {
  decides_ExplicitDeny : d = ExplicitDeny <-> D;
  decides_Allow : d = Allow <-> ~ D /\ G
}.

Lemma decides_deny (D G : Prop) : D -> decides ExplicitDeny D G.
Proof. split; intuition done. Qed.

Lemma decides_grant (b : bool) (D G : Prop) :
  ~ D -> (b = true <-> G) -> decides (if b then Allow else ImplicitDeny) D G.
Proof. split; destruct b; intuition done. Qed.

Lemma resource_policy_decides identity boundary session scps resource_policy rq account :
  decides
    (evaluate_with_resource_policy_and_gates_and_scps identity boundary session scps
       resource_policy rq account)
    (denied identity boundary session scps resource_policy rq)
    (grants identity boundary session scps resource_policy rq account).
Proof.
  unfold evaluate_with_resource_policy_and_gates_and_scps, denied, grants.
  set (i := evaluate_inner identity rq false).
  destruct (intersect_cases i boundary session scps rq) as [HD HA].
  case_bool_decide as Hi.
  { apply decides_deny. left. rewrite Hi. apply layer_denies_identity. }
  case_bool_decide as Hg.
  { apply decides_deny. left. by apply HD. }
  assert (HnD : ~ layer_denies i boundary session scps rq).
  { rewrite <- intersect_ExplicitDeny. done. }
  set (g := intersect_layers i boundary session scps rq) in *.
  assert (Hga : g = Allow <-> is_allow g = true) by (by destruct g).
  destruct resource_policy as [p|]; cbn [resource_has].
  - rewrite (bool_decide_eq_true_2 (is_Some (Some p))) by eauto. rewrite andb_true_r.
    destruct (resource_cases p rq) as [RD RA], (kms_cases p g rq Hg) as [KD KA].
    destruct (String.eqb _ account); simpl; [destruct (is_kms_action _)|].
    + split; tauto.
    + case_bool_decide as Hr; [apply decides_deny; tauto|].
      apply decides_grant; [tauto|]. rewrite orb_true_iff. tauto.
    + case_bool_decide as Hr; [apply decides_deny; tauto|].
      apply decides_grant; [tauto|]. rewrite andb_true_iff. tauto.
  - rewrite (bool_decide_eq_false_2 (is_Some None)) by (by intros [? ?]).
    rewrite (andb_false_r (is_kms_action _)).
    destruct (String.eqb _ account); simpl; [split; tauto|].
    rewrite andb_false_r. split; split; (done || tauto).
Qed.

(** C1 (refinement) The full decision with a resource policy: explicit deny
    exactly when a caller layer or the resource policy denies; otherwise
    allow exactly when granted, where a cross-account request needs both
    sides, a same-account one either side, and a same-account KMS request
    with a key policy needs the key policy to name the caller directly or to
    delegate to IAM while the caller's own layers allow. *)
Theorem evaluate_with_resource_policy_spec (identity : list PolicyDocument)
  (boundary session scps : option (list PolicyDocument))
  (resource_policy : option PolicyDocument) (rq : EvalRequest) (account : string) :
  let d := evaluate_with_resource_policy_and_gates_and_scps identity boundary session scps
             resource_policy rq account in
  let is_denied := denied identity boundary session scps resource_policy rq in
  (d = ExplicitDeny <-> is_denied)
  /\ (d = Allow <->
      ~ is_denied /\ grants identity boundary session scps resource_policy rq account).
Proof. split; apply resource_policy_decides. Qed.

(** A key policy that never delegates to the account: every principal entry
    of an Allow statement is something else than [*] or an account root. *)
Definition no_delegation (key_policy : PolicyDocument) : Prop :=
  forall s, s ∈ statements key_policy -> st_effect s = EAllow ->
    exists refs, st_principal s = PrincipalIs refs
      /\ Forall (fun r => match r with AnyAws | AwsAccountRoot _ => False | _ => True end) refs.

Lemma no_delegation_applicable key_policy rq :
  no_delegation key_policy ->
  applicable EAllow [key_policy] rq true false -> applicable EAllow [key_policy] rq true true.
Proof.
  intros Hno (d & s & ->%list_elem_of_singleton & Hs & He & Ha).
  exists key_policy, s. split_and!; [by left|done|done|].
  destruct (Hno s Hs He) as (refs & Hp & Hrefs).
  unfold statement_applies in *. rewrite !andb_true_iff in *.
  destruct Ha as [[[Hpg ?] ?] ?]. split_and!; [|done..].
  unfold principal_gate, principal_matches_scoped in *. rewrite Hp in *.
  rewrite existsb_exists in *. destruct Hpg as (x & Hx & Hm).
  exists x. split; [done|]. rewrite List.Forall_forall in Hrefs. specialize (Hrefs x Hx).
  by destruct x.
Qed.

(** Theorem (safety) KMS: when no Allow of the key policy names an account or
    the wildcard, identity policies have no say in granting the key. Unless
    a caller layer denies explicitly, the decision on a same-account KMS
    request is that of the key policy alone, whatever the identity, boundary,
    session and SCP layers grant. *)
Theorem kms_identity_grant_powerless (identity : list PolicyDocument)
  (boundary session scps : option (list PolicyDocument)) (key_policy : PolicyDocument)
  (rq : EvalRequest)
  (Hkms : is_kms_action (rq_action rq) = true)
  (Hno : no_delegation key_policy)
  (Hlayers : ~ layer_denies (evaluate_inner identity rq false) boundary session scps rq) :
  evaluate_with_resource_policy_and_gates_and_scps identity boundary session scps
    (Some key_policy) rq (account_id (rq_principal rq))
  = evaluate_resource_policy_only key_policy rq.
Proof.
  destruct (resource_policy_decides identity boundary session scps (Some key_policy) rq
    (account_id (rq_principal rq))) as [HD HA].
  unfold denied, grants in HD, HA. rewrite String.eqb_refl, Hkms in HA. simpl in HD, HA.
  pose proof (no_delegation_applicable key_policy rq Hno) as Hfd.
  pose proof (inner_scoped_cases [key_policy] rq true false) as Hr. cbn zeta in Hr.
  unfold evaluate_resource_policy_only, evaluate_inner.
  pose proof (scoped_applicable EAllow [key_policy] rq true).
  destruct (evaluate_inner_scoped [key_policy] rq true false),
    (evaluate_with_resource_policy_and_gates_and_scps identity boundary session scps
      (Some key_policy) rq (account_id (rq_principal rq))); try done; exfalso; intuition done.
Qed.

(** Theorem (safety) Boundaries, session policies and SCPs only narrow: a
    request the full stack of layers allows is allowed by the identity
    policies alone, and an explicit deny of the identity policies survives
    every stack of layers and every resource policy. *)
Theorem layers_only_narrow (identity : list PolicyDocument)
  (boundary session scps : option (list PolicyDocument))
  (resource_policy : option PolicyDocument) (rq : EvalRequest) (account : string) :
  (evaluate_with_gates_and_scps identity boundary session scps rq = Allow ->
     evaluate identity rq = Allow)
  /\ (evaluate identity rq = ExplicitDeny ->
     evaluate_with_gates_and_scps identity boundary session scps rq = ExplicitDeny
     /\ evaluate_with_resource_policy_and_gates_and_scps identity boundary session scps
          resource_policy rq account = ExplicitDeny).
Proof.
  unfold evaluate, evaluate_with_gates, evaluate_with_gates_and_scps. split.
  - rewrite !intersect_Allow. intros (Hi & _). by split_and!.
  - rewrite !intersect_ExplicitDeny. intros [Hi|[(? & ? & _)|[(? & ? & _)|(? & ? & ? & _)]]];
      [|done..].
    rewrite Hi. split; [by left|].
    apply resource_policy_decides. left. rewrite Hi. by left.
Qed.

End Decisions.

(** ** Parsing fails closed *)

Section Parsing.
Context `{SerdeJson}.

(** A JSON value the parser turns into a statement with effect [e]. *)
Definition statement_shape (e : Effect) (v : Value) : Prop :=
  exists obj, v = VObject obj
    /\ (assoc "Effect" obj ≫= as_str) = Some (match e with EAllow => "Allow" | EDeny => "Deny" end)
    /\ (is_Some (assoc "Action" obj) \/ is_Some (assoc "NotAction" obj)).

Lemma parse_statement_effect variables v e :
  (exists s, parse_statement variables v = Some s /\ st_effect s = e) <-> statement_shape e v.
Proof.
  unfold statement_shape, parse_statement. split.
  - intros (s & Hs & He). destruct v as [| | | | |obj]; try done. cbn [as_object mbind option_bind] in Hs.
    exists obj. split; [done|].
    destruct (assoc "Effect" obj ≫= as_str) as [eff|]; [|done]. cbn [mbind option_bind] in Hs.
    destruct (String.eqb eff "Allow") eqn:E1; [|destruct (String.eqb eff "Deny") eqn:E2; [|done]];
      boolify; subst eff; cbn [mbind option_bind] in Hs;
      (destruct (assoc "Action" obj); [|destruct (assoc "NotAction" obj); [|done]]);
      cbn [mbind option_bind] in Hs; simplify_eq; (split; [done|]); eauto.
  - intros (obj & -> & Heff & Hact). cbn [as_object mbind option_bind].
    rewrite Heff. cbn [mbind option_bind].
    destruct e;
      [rewrite String.eqb_refl|
       change (String.eqb "Deny" "Allow") with false; rewrite String.eqb_refl];
      cbn [mbind option_bind];
      (destruct Hact as [[a Ha]|[a Ha]]; rewrite ?Ha;
       [|destruct (assoc "Action" obj); rewrite ?Ha]); eexists; split; reflexivity.
Qed.

Lemma elem_of_opt_list {A} (o : option A) (x : A) : x ∈ option_list o <-> o = Some x.
Proof.
  destruct o as [y|]; cbn.
  - rewrite list_elem_of_singleton. split; [by intros ->|by intros [= ->]].
  - split; [by intros ?%elem_of_nil|done].
Qed.

(** Theorem (error) Parsing fails closed: a document has an Allow (or a Deny)
    statement exactly when its Statement member is, or lists, an object whose
    Effect is exactly that word and which has an Action or NotAction member;
    malformed JSON and everything else contribute no statement. *)
Theorem document_parse_fails_closed (json : string) (e : Effect) :
  (exists s, s ∈ statements (document_parse json) /\ st_effect s = e)
  <-> exists v stmt, json_from_str json = Some v /\ get "Statement" v = Some stmt
        /\ (statement_shape e stmt
            \/ exists l x, stmt = VArray l /\ x ∈ l /\ statement_shape e x).
Proof.
  unfold document_parse, document_from_value.
  destruct (json_from_str json) as [v|].
  2: { split; [by intros (? & ?%elem_of_nil & _)|by intros (? & ? & ? & _)]. }
  split.
  - intros (s & Hs & He). exists v. destruct (get "Statement" v) as [[| | | |l|m]|];
      try (by apply elem_of_nil in Hs); eexists; (split; [done|split; [done|]]).
    + right. apply list_elem_of_omap in Hs as (x & Hx & Hp).
      exists l, x. split_and!; [done..|]. eapply parse_statement_effect. eauto.
    + left. apply elem_of_opt_list in Hs. eapply parse_statement_effect. eauto.
  - intros (v' & stmt & [= <-] & Hget & Hshape). rewrite Hget.
    destruct Hshape as [Hs|(l & x & -> & Hx & Hs)].
    + pose proof Hs as (obj & -> & _).
      eapply parse_statement_effect in Hs as (s & Hs & He).
      exists s. split; [|done]. by apply elem_of_opt_list.
    + eapply parse_statement_effect in Hs as (s & Hs & He).
      exists s. split; [|done]. apply list_elem_of_omap. eauto.
Qed.

(** Theorem (error) A condition operator whose operand is not an object, and a
    Condition member that is not an object, parse to a block with no entries,
    and such a block holds for every request: the statement applies
    unconditionally. The module documentation says a parse error evaluates
    the operator to false. *)
Theorem malformed_operand_matches_everything `{Chrono} (op_name : string) (operand cond : Value)
  (ctx : ConditionContext) (is_deny variables : bool)
  (Hop : is_Some (parse_operator_name op_name))
  (Hoperand : as_object operand = None) (Hcond : as_object cond = None) :
  matches_for_effect (with_policy_variables variables
    (parse_condition (VObject [(op_name, operand)]))) ctx is_deny = true
  /\ matches_for_effect (with_policy_variables variables (parse_condition cond)) ctx is_deny = true.
Proof.
  destruct Hop as [o Ho]. unfold parse_condition. rewrite Hcond. cbn [as_object].
  cbn [mbind list_bind app fst snd]. unfold parse_condition_member. rewrite Ho, Hoperand. done.
Qed.

End Parsing.

(** ** A wildcard that a literal asterisk defeats *)

(** The documents of the examples below are parsed from these values. *)
Definition statement_value (effect action resource : string) : Value :=
  VObject [("Effect", VString effect); ("Action", VString action);
           ("Resource", VString resource)]%string.

Definition document_value (sts : list Value) : Value :=
  VObject [("Version", VString "2012-10-17"); ("Statement", VArray sts)]%string.

Definition null_serde : SerdeJson :=
  {| json_from_str := fun _ => None; json_float_to_string := fun _ => EmptyString |}.

Definition alice : Principal :=
  {| arn := "arn:aws:iam::111111111111:user/alice"; user_id := "AIDAALICE";
     account_id := "111111111111"; principal_type := TUser;
     source_identity := None; principal_tags_of := None |}.

Definition request_of (action resource : string) : EvalRequest :=
  {| rq_principal := alice; rq_action := action; rq_resource := resource;
     rq_context := empty_context |}.

Definition guarded_bucket : PolicyDocument :=
  @document_from_value null_serde (document_value
    [statement_value "Allow" "s3:GetObject" "arn:aws:s3:::b*";
     statement_value "Deny" "s3:*" "arn:aws:s3:::b/*"]).

(** Theorem (functional) The pattern [*] does not match a longer value that
    begins with an asterisk: the loop compares the pattern character with the
    value character before it looks for a wildcard, and consumes the star
    literally. A Deny on every object of a bucket is therefore passed over
    for an object whose key begins with an asterisk, and the request is
    allowed, while any other key is denied. *)
Theorem literal_star_defeats_wildcard :
  (forall c w, glob_match "*" (String "*" (String c w)) = false)
  /\ @evaluate null_chrono [guarded_bucket] (request_of "s3:GetObject" "arn:aws:s3:::b/secret")
     = ExplicitDeny
  /\ @evaluate null_chrono [guarded_bucket] (request_of "s3:GetObject" "arn:aws:s3:::b/*secret")
     = Allow.
Proof. split_and!; [|vm_compute; reflexivity..]. intros c w. reflexivity. Qed.

(** ** Witnesses *)

Lemma malformed_operand_matches_everything_witness :
  let c := @parse_condition null_serde (VObject [("StringEquals", VString "x")]%string) in
  @matches_for_effect null_chrono (with_policy_variables true c) empty_context false = true.
Proof.
  apply (@malformed_operand_matches_everything null_serde null_chrono "StringEquals"
           (VString "x") Null empty_context false true).
  - vm_compute. eauto.
  - reflexivity.
  - reflexivity.
Defined.

Lemma evaluate_inner_order_irrelevant_witness :
  let split_doc := fun d => (fun s => {| statements := [s] |}) <$> rev (statements d) in
  @evaluate_inner_scoped null_chrono [guarded_bucket]
    (request_of "s3:GetObject" "arn:aws:s3:::b/x") false false
  = @evaluate_inner_scoped null_chrono (split_doc guarded_bucket)
    (request_of "s3:GetObject" "arn:aws:s3:::b/x") false false.
Proof.
  intros split_doc. apply evaluate_inner_order_irrelevant. intros s.
  replace ([guarded_bucket] ≫= statements) with (rev (split_doc guarded_bucket ≫= statements))
    by reflexivity.
  rewrite !list_elem_of_In, <- in_rev. done.
Defined.

Definition key_policy_for_bob : PolicyDocument :=
  {| statements :=
       [{| st_effect := EAllow; st_action := Action ["kms:*"%string];
           st_resource := Resource ["*"%string]; st_condition := None;
           st_principal := PrincipalIs [AwsArn "arn:aws:iam::111111111111:user/bob"];
           st_variables := false |}] |}.

Lemma kms_identity_grant_powerless_witness :
  let admin := @document_from_value null_serde (document_value [statement_value "Allow" "*" "*"]) in
  let rq := request_of "kms:Decrypt" "arn:aws:kms:us-east-1:111111111111:key/k" in
  @evaluate null_chrono [admin] rq = Allow
  /\ @evaluate_with_resource_policy_and_gates_and_scps null_chrono [admin] None None None
       (Some key_policy_for_bob) rq "111111111111" = ImplicitDeny.
Proof.
  intros admin rq. split; [vm_compute; reflexivity|].
  etransitivity; [|vm_compute; reflexivity].
  apply (@kms_identity_grant_powerless null_chrono [admin] None None None key_policy_for_bob rq).
  - vm_compute. reflexivity.
  - intros s Hs _. apply list_elem_of_singleton in Hs as ->. eexists. split; [reflexivity|].
    repeat constructor.
  - intros [?|[(? & ? & _)|[(? & ? & _)|(? & ? & ? & _)]]]; vm_compute in *; discriminate.
Defined.
