(* ===== verification/Arn.v ===== *)
(** * Amazon Resource Names

    [fakecloud-aws/src/arn.rs]: the [Arn] record, its constructors, printer
    and parser, the field accessors that work on the printed form, the
    region-to-partition tables, and the unique ids derived from an ARN by
    hashing (64-bit arithmetic with its wrap-around written out). *)

From Stdlib Require Import ZArith Lia Bool String Ascii.
From stdpp Require Import base option list strings gmap.
From S2P Require Import Prelude.

Module Arn.

Record Arn := mk {
  partition : string;
  service : string;
  region : string;
  account_id : string;
  resource : string
}.

(** ** Partitions *)

Definition PARTITIONS : list string :=
  ["aws"; "aws-cn"; "aws-us-gov"; "aws-iso"; "aws-iso-b"; "aws-iso-f"; "aws-iso-e"]%string.

Definition partition_for (region : string) : string :=
  if starts_with "cn-" region then "aws-cn"
  else if starts_with "us-gov-" region then "aws-us-gov"
  else if starts_with "us-iso-" region then "aws-iso"
  else if starts_with "us-isob-" region then "aws-iso-b"
  else if starts_with "us-isof-" region then "aws-iso-f"
  else if starts_with "eu-isoe-" region then "aws-iso-e"
  else "aws".

Definition implicit_global_region (partition : string) : string :=
  if String.eqb partition "aws-cn" then "cn-northwest-1"
  else if String.eqb partition "aws-us-gov" then "us-gov-west-1"
  else if String.eqb partition "aws-iso" then "us-iso-east-1"
  else if String.eqb partition "aws-iso-b" then "us-isob-east-1"
  else if String.eqb partition "aws-iso-f" then "us-isof-south-1"
  else if String.eqb partition "aws-iso-e" then "eu-isoe-west-1"
  else "us-east-1".

(** ** Constructors *)

Definition new (service region account_id resource : string) : Arn :=
  mk "aws" service region account_id resource.

Definition with_partition (a : Arn) (partition : string) : Arn :=
  mk partition (service a) (region a) (account_id a) (resource a).

Definition regional (service region account_id resource : string) : Arn :=
  with_partition (new service region account_id resource) (partition_for region).

Definition global (service account_id resource : string) : Arn :=
  new service "" account_id resource.

Definition global_in (region service account_id resource : string) : Arn :=
  with_partition (new service "" account_id resource) (partition_for region).

Definition s3 (resource : string) : Arn := mk "aws" "s3" "" "" resource.

Definition s3_in (region resource : string) : Arn :=
  with_partition (s3 resource) (partition_for region).

Definition s3_access_point (region account_id name : string) : Arn :=
  mk (partition_for region) "s3" region account_id ("accesspoint/" +:+ name).

(** ** Printing and parsing *)

(** [Display for Arn]. *)
Definition to_string (a : Arn) : string :=
  "arn:" +:+ partition a +:+ ":" +:+ service a +:+ ":" +:+ region a +:+ ":"
  +:+ account_id a +:+ ":" +:+ resource a.

Inductive ArnParseError : Type := InvalidArn (s : string).

(** [FromStr for Arn]. *)
Definition from_str (s : string) : Result ArnParseError Arn :=
  match splitn 6 ":" s with
  | [tag; p; svc; r; acct; res] =>
      if String.eqb tag "arn" then Ok (mk p svc r acct res) else Err (InvalidArn s)
  | _ => Err (InvalidArn s)
  end.

(** ** Accessors on the printed form *)

Definition arn_resource (arn service : string) : option string :=
  rest ← strip_prefix "arn:" arn;
  '(partition, rest) ← split_once ":" rest;
  if negb (existsb (String.eqb partition) PARTITIONS) then None
  else strip_prefix service rest ≫= strip_prefix ":".

(** [filter(|x| !x.is_empty())]. *)
Definition non_empty (s : string) : option string :=
  if is_empty_str s then None else Some s.

Definition account_of (arn : string) : option string :=
  rest ← strip_prefix "arn:" arn;
  split_char ":" rest !! 3 ≫= non_empty.

Definition region_of (arn : string) : option string :=
  rest ← strip_prefix "arn:" arn;
  split_char ":" rest !! 2 ≫= non_empty.

Definition partition_of (arn : string) : string :=
  default "aws"%string (split_char ":" arn !! 1 ≫= non_empty).

(** ** Unique ids *)

Definition u64 (z : Z) : Z := z mod 2 ^ 64.

(** FNV-1a over the bytes. *)
Definition fnv_step (hash b : Z) : Z := u64 (Z.lxor hash b * 0x100000001b3).
Definition fnv1a (bytes : list Z) : Z := foldl fnv_step 0xcbf29ce484222325%Z bytes.

(** [u64::rotate_left]. *)
Definition rotate_left (x k : Z) : Z :=
  let k := (k mod 64)%Z in
  Z.lor (u64 (Z.shiftl x k)) (Z.shiftr x (64 - k)).

Definition ALPHABET : string := "ABCDEFGHIJKLMNOPQRSTUVWXYZ234567".

Definition alphabet_at (i : Z) : ascii :=
  default "A"%char (String.get (Z.to_nat i) ALPHABET).

Definition id_char (hash : Z) (i : nat) : ascii :=
  alphabet_at (rotate_left hash (Z.of_nat i * 5) mod 32).

Definition unique_id_for (prefix arn : string) : string :=
  let hash := fnv1a (as_bytes arn) in
  prefix +:+ string_of_list_ascii (id_char hash <$> seq 0 17).

(** ** Theorems *)

Lemma splitn_app n d a b :
  no_char d a = true -> splitn (S (S n)) d (a +:+ String d b) = a :: splitn (S n) d b.
Proof. intros Ha. cbn [splitn]. by rewrite split_sep_app. Qed.

Lemma splitn_cons n d s x xs :
  splitn (S (S n)) d s = x :: xs -> xs <> [] ->
  exists b, s = x +:+ String d b /\ no_char d x = true /\ splitn (S n) d b = xs.
Proof.
  cbn [splitn]. destruct (split_at_needle _ s) as [[a b]|] eqn:E.
  - intros [= <- <-] _. apply split_sep_Some in E as [-> ?]. by exists b.
  - intros [= <- <-]. done.
Qed.

(** Fields that can be told apart in the printed form. *)
Definition wf (a : Arn) : Prop :=
  no_char ":" (partition a) = true /\ no_char ":" (service a) = true
  /\ no_char ":" (region a) = true /\ no_char ":" (account_id a) = true.

Lemma from_str_to_string a : wf a -> from_str (to_string a) = Ok a.
Proof.
  destruct a as [p svc r acct res]. intros (Hp & Hs & Hr & Ha). simpl in *.
  unfold from_str, to_string. cbn [partition service region account_id resource].
  change ("arn:" +:+ ?x) with ("arn" +:+ String ":" x).
  repeat change (":" +:+ ?x) with (String ":" x).
  by rewrite !splitn_app.
Qed.

Lemma to_string_from_str s a : from_str s = Ok a -> s = to_string a /\ wf a.
Proof.
  unfold from_str. intros H.
  destruct (splitn 6 ":" s) as [|tag [|p [|svc [|r [|acct [|res [|]]]]]]] eqn:E; try done.
  destruct (String.eqb_spec tag "arn") as [->|]; [|done]. injection H as <-.
  apply splitn_cons in E as (s1 & -> & _ & E); [|done].
  apply splitn_cons in E as (s2 & -> & ? & E); [|done].
  apply splitn_cons in E as (s3' & -> & ? & E); [|done].
  apply splitn_cons in E as (s4 & -> & ? & E); [|done].
  apply splitn_cons in E as (s5 & -> & ? & E); [|done].
  cbn [splitn] in E. injection E as <-. done.
Qed.

(** Theorem (roundtrip) ARNs round-trip: parsing accepts exactly the strings that
    are the printed form of an ARN whose first four fields contain no colon,
    and returns that ARN. *)
Theorem arn_roundtrip (s : string) (a : Arn) :
  from_str s = Ok a <-> s = to_string a /\ wf a.
Proof.
  split; [apply to_string_from_str|]. intros [-> Hwf]. by apply from_str_to_string.
Qed.

Lemma strip_service svc svc' x :
  no_char ":" svc = true -> no_char ":" svc' = true ->
  (strip_prefix svc (svc' +:+ String ":" x) ≫= strip_prefix ":")
  = if String.eqb svc svc' then Some x else None.
Proof.
  revert svc'. induction svc as [|c svc IH]; intros svc' H1 H2.
  - destruct svc' as [|c' svc']; [done|]. apply no_char_cons in H2 as [H2 _].
    cbn [String.append strip_prefix mbind option_bind].
    destruct (Ascii.eqb_spec ":" c'); [congruence|done].
  - apply no_char_cons in H1 as [Hc H1]. destruct svc' as [|c' svc'].
    + cbn [String.append strip_prefix]. by destruct (Ascii.eqb_spec c ":").
    + apply no_char_cons in H2 as [Hc' H2]. cbn [String.append strip_prefix].
      destruct (Ascii.eqb_spec c c') as [<-|Hne].
      * rewrite IH by done. destruct (String.eqb_spec svc svc') as [->|?];
          [by rewrite String.eqb_refl|].
        by destruct (String.eqb_spec (String c svc) (String c svc')); [congruence|].
      * by destruct (String.eqb_spec (String c svc) (String c' svc')); [congruence|].
Qed.

Lemma partition_no_colon rg : no_char ":" (partition_for rg) = true.
Proof. unfold partition_for. by repeat case_match. Qed.

Lemma accessors_spec (s svc : string) (a : Arn)
  (Hparse : from_str s = Ok a) (Hsvc : no_char ":" svc = true) :
  account_of s = non_empty (account_id a)
  /\ region_of s = non_empty (region a)
  /\ partition_of s = default "aws"%string (non_empty (partition a))
  /\ arn_resource s svc =
       if existsb (String.eqb (partition a)) PARTITIONS && String.eqb svc (service a)
       then Some (region a +:+ ":" +:+ account_id a +:+ ":" +:+ resource a) else None.
Proof.
  apply to_string_from_str in Hparse as [-> Hwf].
  destruct a as [p sv r acct res]. destruct Hwf as (Hp & Hs & Hr & Ha).
  cbn [partition service region account_id resource] in *.
  set (rest := p +:+ String ":" (sv +:+ String ":" (r +:+ String ":" (acct +:+ String ":" res)))).
  assert (E : to_string (mk p sv r acct res) = "arn" +:+ String ":" rest) by reflexivity.
  assert (Estrip : strip_prefix "arn:" ("arn" +:+ String ":" rest) = Some rest) by reflexivity.
  assert (Esplit : split_char ":" rest = p :: sv :: r :: acct :: split_char ":" res)
    by (unfold rest; by rewrite !split_char_app).
  unfold account_of, region_of, partition_of, arn_resource. rewrite E, Estrip.
  cbn [mbind option_bind]. rewrite split_char_app, Esplit by reflexivity.
  split_and!; [done..|]. unfold split_once, rest. rewrite split_sep_app by done.
  cbn [mbind option_bind].
  destruct (existsb (String.eqb p) PARTITIONS); cbn [negb andb]; [|reflexivity].
  by rewrite strip_service.
Qed.

(** Theorem (equivalence) The accessors that scan the printed form agree with
    the parser: on every string that parses, [account_of], [region_of] and
    [partition_of] return the parsed fields (nothing, or the default
    partition, when the field is empty), and [arn_resource] recognises
    exactly the ARN's own service in a known partition. *)
Theorem accessors_agree_with_parser (s svc : string) (a : Arn)
  (Hparse : from_str s = Ok a) (Hsvc : no_char ":" svc = true) :
  account_of s = non_empty (account_id a)
  /\ region_of s = non_empty (region a)
  /\ partition_of s = default "aws"%string (non_empty (partition a))
  /\ arn_resource s svc =
       if existsb (String.eqb (partition a)) PARTITIONS && String.eqb svc (service a)
       then Some (region a +:+ ":" +:+ account_id a +:+ ":" +:+ resource a) else None.
Proof. by apply accessors_spec. Qed.

Lemma accessors_agree_with_parser_witness :
  account_of "arn:aws-cn:sqs:cn-north-1:111122223333:a:b" = Some "111122223333"%string
  /\ region_of "arn:aws-cn:sqs:cn-north-1:111122223333:a:b" = Some "cn-north-1"%string
  /\ partition_of "arn:aws-cn:sqs:cn-north-1:111122223333:a:b" = "aws-cn"%string
  /\ arn_resource "arn:aws-cn:sqs:cn-north-1:111122223333:a:b" "sqs"
     = Some "cn-north-1:111122223333:a:b"%string.
Proof.
  apply (accessors_agree_with_parser "arn:aws-cn:sqs:cn-north-1:111122223333:a:b" "sqs"
           (mk "aws-cn" "sqs" "cn-north-1" "111122223333" "a:b")); reflexivity.
Defined.

(** Theorem (invariant) Partitions: every region maps to a listed partition, a
    partition's global region maps back to that partition, and an ARN built
    for a region is always recognised by [arn_resource], whatever the
    region. *)
Theorem partitions_consistent (rg svc acct res : string)
  (Hsvc : no_char ":" svc = true) :
  partition_for rg ∈ PARTITIONS
  /\ (forall p, p ∈ PARTITIONS -> partition_for (implicit_global_region p) = p)
  /\ arn_resource (to_string (regional svc rg acct res)) svc
     = Some (rg +:+ ":" +:+ acct +:+ ":" +:+ res).
Proof.
  assert (Hin : partition_for rg ∈ PARTITIONS).
  { unfold partition_for. repeat case_match; vm_compute; set_solver. }
  split_and!; [done| |].
  - intros p Hp. unfold PARTITIONS in Hp.
    repeat (apply elem_of_cons in Hp as [->|Hp]; [reflexivity|]). by apply elem_of_nil in Hp.
  - pose proof (partition_no_colon rg) as Hno.
    unfold arn_resource, regional, with_partition, new, to_string.
    cbn [partition service region account_id resource].
    change (strip_prefix "arn:" ("arn:" +:+ ?x)) with (Some x). cbn [mbind option_bind].
    unfold split_once. repeat change (":" +:+ ?x) with (String ":" x).
    rewrite split_sep_app by done. cbn [mbind option_bind].
    rewrite (proj2 (existsb_exists _ _)); [|exists (partition_for rg)].
    + cbn [negb]. by rewrite strip_service, String.eqb_refl.
    + split; [by apply list_elem_of_In|apply String.eqb_refl].
Qed.

Lemma partitions_consistent_witness :
  arn_resource (to_string (regional "lambda" "us-gov-west-1" "1" "function:f")) "lambda"
  = Some "us-gov-west-1:1:function:f"%string.
Proof.
  apply (partitions_consistent "us-gov-west-1" "lambda" "1" "function:f"). reflexivity.
Defined.

Lemma string_of_list_length l : String.length (string_of_list_ascii l) = length l.
Proof. induction l as [|c l IH]; simpl; [done|]. by rewrite IH. Qed.

Lemma alphabet_at_in i : (0 <= i < 32)%Z -> alphabet_at i ∈ list_ascii_of_string ALPHABET.
Proof.
  intros Hi.
  assert (Hall : forallb (fun n => existsb (Ascii.eqb (alphabet_at (Z.of_nat n)))
    (list_ascii_of_string ALPHABET)) (seq 0 32) = true) by (vm_compute; reflexivity).
  rewrite forallb_forall in Hall. specialize (Hall (Z.to_nat i)).
  rewrite Z2Nat.id, existsb_exists in Hall by lia.
  destruct Hall as (x & Hx & Heq); [apply in_seq; lia|].
  apply Ascii.eqb_eq in Heq as ->. by apply list_elem_of_In.
Qed.

Lemma rotate_left_0 h : (0 <= h < 2 ^ 64)%Z -> rotate_left h 0 = h.
Proof.
  intros Hh. unfold rotate_left, u64. rewrite Z.mod_0_l, Z.shiftl_0_r by lia.
  rewrite Z.mod_small by lia. replace (64 - 0)%Z with 64%Z by lia.
  rewrite Z.shiftr_div_pow2, Z.div_small by lia. apply Z.lor_0_r.
Qed.

Lemma fnv1a_range bytes : (0 <= fnv1a bytes < 2 ^ 64)%Z.
Proof.
  unfold fnv1a. assert (Hs : (0 <= 0xcbf29ce484222325 < 2 ^ 64)%Z) by lia.
  revert Hs. generalize 0xcbf29ce484222325%Z.
  induction bytes as [|b bytes IH]; intros h Hh; simpl; [done|].
  apply IH. unfold fnv_step, u64. apply Z.mod_pos_bound. lia.
Qed.

(** Theorem (bounds) Unique ids: the id is the prefix followed by exactly 17
    characters of the base-32 alphabet, the hash never leaves 64 bits, and
    the first of the 17 is a function of the hash's low five bits alone. *)
Theorem unique_id_shape (prefix arn : string) :
  exists suffix, unique_id_for prefix arn = prefix +:+ suffix
  /\ String.length suffix = 17
  /\ (forall c, c ∈ list_ascii_of_string suffix -> c ∈ list_ascii_of_string ALPHABET)
  /\ (0 <= fnv1a (as_bytes arn) < 2 ^ 64)%Z
  /\ String.get 0 suffix = Some (alphabet_at (fnv1a (as_bytes arn) mod 2 ^ 5)).
Proof.
  eexists. split; [reflexivity|]. split_and!.
  - by rewrite string_of_list_length, length_fmap, length_seq.
  - intros c. rewrite list_ascii_of_string_of_list_ascii.
    intros (i & -> & _)%list_elem_of_fmap. apply alphabet_at_in, Z.mod_pos_bound. lia.
  - apply fnv1a_range.
  - apply fnv1a_range.
  - cbn [seq fmap list_fmap string_of_list_ascii String.get]. unfold id_char.
    by rewrite Nat2Z.inj_0, Z.mul_0_l, rotate_left_0 by apply fnv1a_range.
Qed.

End Arn.
