(* ===== verification/BTree.v ===== *)
(** * Ordered maps

    Rust's [BTreeMap<String, V>] as a [gmap] with its iteration order written
    out: keys in byte-lexicographic order, which on the modelled characters is
    the order of character codes. *)

From Stdlib Require Import ZArith Lia Bool String Ascii.
From stdpp Require Import base option list strings gmap sorting.
From S2P Require Import Prelude.

Module BTree.

(** Byte-lexicographic order of strings. *)
Fixpoint str_leb (a b : string) : bool :=
  match a, b with
  | EmptyString, _ => true
  | String _ _, EmptyString => false
  | String x a', String y b' =>
      if (char_code x <? char_code y)%N then true
      else if (char_code y <? char_code x)%N then false
      else str_leb a' b'
  end.

Definition str_le (a b : string) : Prop := str_leb a b = true.

#[global] Instance str_le_dec : RelDecision str_le.
Proof. intros a b. unfold str_le. apply _. Defined.

Lemma char_code_inj x y : char_code x = char_code y -> x = y.
Proof. unfold char_code. intros H. by rewrite <- (ascii_N_embedding x), H, ascii_N_embedding. Qed.

#[global] Instance str_le_total : Total str_le.
Proof.
  intros a. unfold str_le. induction a as [|x a IH]; intros b; [by left|].
  destruct b as [|y b]; [by right|]. cbn [str_leb].
  destruct (N.ltb_spec (char_code x) (char_code y)), (N.ltb_spec (char_code y) (char_code x));
    eauto; lia.
Qed.

#[global] Instance str_le_trans : Transitive str_le.
Proof.
  intros a. unfold str_le. induction a as [|x a IH]; intros b c; [done|].
  destruct b as [|y b], c as [|z c]; try done. cbn [str_leb].
  destruct (N.ltb_spec (char_code x) (char_code y)), (N.ltb_spec (char_code y) (char_code x)),
    (N.ltb_spec (char_code y) (char_code z)), (N.ltb_spec (char_code z) (char_code y)),
    (N.ltb_spec (char_code x) (char_code z)), (N.ltb_spec (char_code z) (char_code x));
    try done; try lia. apply IH.
Qed.

#[global] Instance str_le_antisymm : AntiSymm eq str_le.
Proof.
  intros a. unfold str_le. induction a as [|x a IH]; intros b; [by destruct b|].
  destruct b as [|y b]; [done|]. cbn [str_leb].
  destruct (N.ltb_spec (char_code x) (char_code y)), (N.ltb_spec (char_code y) (char_code x));
    try done; try lia.
  intros. f_equal; [apply char_code_inj; lia|by apply IH].
Qed.

(** Entries are ordered by their keys. *)
Definition entry_le {V} (a b : string * V) : Prop := str_le a.1 b.1.

#[global] Instance entry_le_dec {V} : RelDecision (@entry_le V).
Proof. intros a b. unfold entry_le. apply _. Defined.

#[global] Instance entry_le_total {V} : Total (@entry_le V).
Proof. intros a b. apply str_le_total. Qed.

#[global] Instance entry_le_trans {V} : Transitive (@entry_le V).
Proof. intros a b c. apply str_le_trans. Qed.

(** [BTreeMap::iter] and [BTreeMap::values]. *)
Definition iter {V} (m : gmap string V) : list (string * V) :=
  merge_sort entry_le (map_to_list m).

Definition values {V} (m : gmap string V) : list V := snd <$> iter m.

(** [values().next()]: the value under the least key. *)
Definition first_value {V} (m : gmap string V) : option V := head (values m).

Lemma iter_Permutation {V} (m : gmap string V) : iter m ≡ₚ map_to_list m.
Proof. apply merge_sort_Permutation. Qed.

Lemma elem_of_iter {V} (m : gmap string V) k v : (k, v) ∈ iter m <-> m !! k = Some v.
Proof. rewrite iter_Permutation. apply elem_of_map_to_list. Qed.

Lemma elem_of_values {V} (m : gmap string V) v : v ∈ values m <-> exists k, m !! k = Some v.
Proof.
  unfold values. rewrite list_elem_of_fmap. split.
  - intros ([k v'] & -> & Hin). exists k. by apply elem_of_iter.
  - intros [k Hk]. exists (k, v). split; [done|]. by apply elem_of_iter.
Qed.

Lemma iter_sorted {V} (m : gmap string V) : StronglySorted entry_le (iter m).
Proof. apply StronglySorted_merge_sort; apply _. Qed.

Lemma first_value_elem {V} (m : gmap string V) v :
  first_value m = Some v -> exists k, m !! k = Some v.
Proof.
  unfold first_value. intros H. apply elem_of_values.
  destruct (values m) as [|x l]; [done|]. injection H as <-. left.
Qed.

Lemma first_value_None {V} (m : gmap string V) : first_value m = None <-> m = ∅.
Proof.
  unfold first_value. split.
  - intros H. apply map_eq. intros k. rewrite lookup_empty.
    destruct (m !! k) as [v|] eqn:E; [|done].
    assert (Hv : v ∈ values m) by (apply elem_of_values; eauto).
    destruct (values m); [by apply elem_of_nil in Hv|done].
  - intros ->. reflexivity.
Qed.

End BTree.
