(* ===== verification/Text.v ===== *)
(** * More string methods

    The methods of [str] that the DynamoDB expression code uses beyond those
    of [Prelude]: slices by position, character searches, trimming of a given
    character, comparison.  A position counts characters; the source counts
    bytes, but only ever slices at positions it found by scanning, so the
    slices are the same texts. *)

From Stdlib Require Import ZArith Lia Bool String Ascii.
From stdpp Require Import base option list strings.
From S2P Require Import Prelude BTree.

(** [&s[..n]]. *)
Fixpoint string_take (n : nat) (s : string) : string :=
  match n, s with
  | S n', String c s' => String c (string_take n' s')
  | _, _ => EmptyString
  end.

(** [&s[i..j]]. *)
Definition slice (s : string) (i j : nat) : string := string_take (j - i) (string_drop i s).

(** [str::repeat] of one character. *)
Fixpoint repeat_char (c : ascii) (n : nat) : string :=
  match n with 0 => EmptyString | S n' => String c (repeat_char c n') end.

(** [s.split_once(pred)]: at the first character that satisfies [p]. *)
Fixpoint split_once_at (p : ascii -> bool) (s : string) : option (string * string) :=
  match s with
  | EmptyString => None
  | String c s' =>
      if p c then Some (EmptyString, s')
      else (fun '(a, b) => (String c a, b)) <$> split_once_at p s'
  end.

(** [trim_start_matches(c)] and [trim_end_matches(c)]. *)
Fixpoint trim_start_matches (c : ascii) (s : string) : string :=
  match s with
  | String x s' => if Ascii.eqb x c then trim_start_matches c s' else s
  | EmptyString => EmptyString
  end.

Fixpoint trim_end_matches (c : ascii) (s : string) : string :=
  match s with
  | EmptyString => EmptyString
  | String x s' =>
      match trim_end_matches c s' with
      | EmptyString => if Ascii.eqb x c then EmptyString else String x EmptyString
      | t => String x t
      end
  end.

(** [trim_matches(c)]. *)
Definition trim_matches (c : ascii) (s : string) : string :=
  trim_end_matches c (trim_start_matches c s).

(** [str::cmp]: byte-lexicographic. *)
Fixpoint str_cmp (a b : string) : comparison :=
  match a, b with
  | EmptyString, EmptyString => Eq
  | EmptyString, String _ _ => Lt
  | String _ _, EmptyString => Gt
  | String x a', String y b' =>
      match (char_code x ?= char_code y)%N with
      | Eq => str_cmp a' b'
      | c => c
      end
  end.

(** [Ordering::then_with]. *)
Definition then_cmp (c d : comparison) : comparison := match c with Eq => d | _ => c end.

(** [s.find(needle)] as the position of its first occurrence. *)
Definition find_str (x s : string) : option nat :=
  (fun '(a, _) => String.length a) <$> split_at_needle x s.

(** [sep.join(parts)] of the source's [parts.join(sep)]. *)
Definition join (sep : string) (parts : list string) : string := String.concat sep parts.

(** ASCII upper-casing. *)
Definition ascii_upper (c : ascii) : ascii :=
  if is_ascii_lower c then ascii_of_N (char_code c - 32)%N else c.

Definition to_ascii_uppercase (s : string) : string := string_map ascii_upper s.

(** [u8::is_ascii_whitespace]: space, tab, line feed, form feed, return. *)
Definition is_ascii_whitespace (c : ascii) : bool :=
  let n := char_code c in
  ((n =? 9) || (n =? 10) || (n =? 12) || (n =? 13) || (n =? 32))%N.

(** ** Lemmas *)

Lemma string_take_app a b : string_take (String.length a) (a +:+ b) = a.
Proof. induction a as [|c a IH]; simpl; [by destruct b|by rewrite IH]. Qed.

Lemma string_drop_prefix a b : string_drop (String.length a) (a +:+ b) = b.
Proof. by induction a as [|c a IH]. Qed.

Lemma string_take_drop n s : string_take n s +:+ string_drop n s = s.
Proof. revert s. induction n as [|n IH]; intros [|c s]; simpl; [done..|by rewrite IH]. Qed.

Lemma string_take_length n s : n <= String.length s -> String.length (string_take n s) = n.
Proof. revert s. induction n as [|n IH]; intros [|c s] H; simpl in *; [done|done|lia|]. rewrite IH; lia. Qed.

Lemma string_drop_length n s : String.length (string_drop n s) = String.length s - n.
Proof. revert s. induction n as [|n IH]; intros [|c s]; simpl; try done. Qed.

Lemma repeat_char_length c n : String.length (repeat_char c n) = n.
Proof. induction n as [|n IH]; simpl; congruence. Qed.

Lemma str_cmp_refl a : str_cmp a a = Eq.
Proof. induction a as [|c a IH]; simpl; [done|]. by rewrite N.compare_refl. Qed.

Lemma str_cmp_eq a b : str_cmp a b = Eq <-> a = b.
Proof.
  split; [|intros ->; apply str_cmp_refl].
  revert b. induction a as [|x a IH]; intros [|y b]; simpl; try done.
  destruct (N.compare_spec (char_code x) (char_code y)) as [E|?|?]; try done.
  intros H. f_equal; [by apply BTree.char_code_inj|by apply IH].
Qed.

Lemma str_cmp_antisym a b : str_cmp b a = CompOpp (str_cmp a b).
Proof.
  revert b. induction a as [|x a IH]; intros [|y b]; simpl; try done.
  rewrite (N.compare_antisym (char_code x) (char_code y)).
  destruct (char_code x ?= char_code y)%N; simpl; auto.
Qed.

Lemma str_cmp_leb a b : BTree.str_leb a b = match str_cmp a b with Gt => false | _ => true end.
Proof.
  revert b. induction a as [|x a IH]; intros [|y b]; cbn [BTree.str_leb str_cmp]; try done.
  destruct (N.compare_spec (char_code x) (char_code y)) as [E|E|E].
  - rewrite E, N.ltb_irrefl. apply IH.
  - by rewrite (proj2 (N.ltb_lt _ _) E).
  - rewrite (proj2 (N.ltb_ge _ _)) by lia. by rewrite (proj2 (N.ltb_lt _ _) E).
Qed.

Lemma split_once_at_Some p s a b :
  split_once_at p s = Some (a, b) ->
  exists c, s = a +:+ String c b /\ p c = true /\ string_forallb (fun x => negb (p x)) a = true.
Proof.
  revert a b. induction s as [|c s IH]; intros a b; simpl; [done|].
  destruct (p c) eqn:Hp.
  - intros [= <- <-]. by exists c.
  - destruct (split_once_at p s) as [[a' b']|]; simpl; [|done].
    intros [= <- <-]. destruct (IH a' b' eq_refl) as (d & -> & Hd & Ha).
    exists d. simpl. by rewrite Hp, Ha.
Qed.

Lemma split_once_at_None p s :
  split_once_at p s = None <-> string_forallb (fun x => negb (p x)) s = true.
Proof.
  induction s as [|c s IH]; simpl; [done|]. destruct (p c); simpl; [done|].
  rewrite <- IH. by destruct (split_once_at p s) as [[]|].
Qed.

Lemma split_once_at_app p a c b :
  string_forallb (fun x => negb (p x)) a = true -> p c = true ->
  split_once_at p (a +:+ String c b) = Some (a, b).
Proof.
  intros Ha Hc. induction a as [|x a IH]; simpl in *; [by rewrite Hc|].
  apply andb_true_iff in Ha as [Hx Ha]. apply negb_true_iff in Hx. by rewrite Hx, IH.
Qed.

(** ** Trimming *)

Lemma trim_start_matches_app c s :
  exists n, s = repeat_char c n +:+ trim_start_matches c s.
Proof.
  induction s as [|x s [n IH]]; simpl; [by exists 0|].
  destruct (Ascii.eqb_spec x c) as [->|Hx]; [|by exists 0].
  exists (S n). simpl. by rewrite <- IH.
Qed.

Lemma trim_end_matches_app c s :
  exists n, s = trim_end_matches c s +:+ repeat_char c n.
Proof.
  induction s as [|x s [n IH]]; simpl; [by exists 0|].
  destruct (trim_end_matches c s) as [|y t] eqn:E.
  - simpl in IH. destruct (Ascii.eqb_spec x c) as [->|Hx].
    + exists (S n). simpl. by rewrite <- IH.
    + exists n. simpl. by rewrite <- IH.
  - exists n. rewrite IH at 1. done.
Qed.

Lemma repeat_char_snoc c n : repeat_char c n +:+ String c EmptyString = String c (repeat_char c n).
Proof. induction n as [|n IH]; simpl; [done|by rewrite IH]. Qed.
