(* ===== verification/MultiAccount.v ===== *)
(** * Account- and region-partitioned state

    [fakecloud-core/src/multi_account.rs]: the container every service keeps
    its state in.  [MultiAccountState] holds one state per account,
    [RegionalState] one per region of an account, and [MultiRegionState] is
    their composition.  A method returning [&mut T] is modelled by the
    container after the call paired with the state the reference points to;
    writing through the reference is [put] (or [put_regional]).  A [HashMap]
    is a [gmap]; where the code depends on its unspecified iteration order the
    order is an argument. *)

From Stdlib Require Import ZArith Lia Bool String Ascii.
From stdpp Require Import base option list strings gmap.
From S2P Require Import Prelude Arn BTree.

(** The trait [AccountState]. *)
Class AccountState (T : Type) := {
  new_for_account : string -> string -> string -> T;   (* account, region, endpoint *)
  inherit_from : T -> T -> T                           (* self, sibling *)
}.

Record MultiAccountState (T : Type) := mkMAS {
  default_account_id : string;
  mas_region : string;
  mas_endpoint : string;
  accounts : gmap string T
}.
Arguments mkMAS {T}.
Arguments default_account_id {T}.
Arguments mas_region {T}.
Arguments mas_endpoint {T}.
Arguments accounts {T}.

Definition with_accounts {T} (m : MultiAccountState T) (acc : gmap string T)
  : MultiAccountState T :=
  mkMAS (default_account_id m) (mas_region m) (mas_endpoint m) acc.

(** Writing [t] through a reference to the state of [account_id]. *)
Definition put {T} (m : MultiAccountState T) (account_id : string) (t : T)
  : MultiAccountState T := with_accounts m (<[account_id := t]> (accounts m)).

Definition map_accounts {T U} (f : T -> U) (m : MultiAccountState T) : MultiAccountState U :=
  mkMAS (default_account_id m) (mas_region m) (mas_endpoint m) (f <$> accounts m).

Definition map_into {T U} (f : string -> T -> U) (m : MultiAccountState T)
  : MultiAccountState U :=
  mkMAS (default_account_id m) (mas_region m) (mas_endpoint m)
    (map_imap (fun k v => Some (f k v)) (accounts m)).

(** [get] and [get_mut]: both look the account up without creating it. *)
Definition get_account {T} (m : MultiAccountState T) (account_id : string) : option T :=
  accounts m !! account_id.

(** [find_account] over the map's iteration order [entries]. *)
Definition find_account {T} (entries : list (string * T)) (predicate : T -> bool)
  : option string :=
  fst <$> head (filter (fun kv => predicate kv.2 = true) entries).

Definition account_count {T} (m : MultiAccountState T) : nat := size (accounts m).

Section Accounts.
Context {T : Type} `{AccountState T}.
Implicit Types (m : MultiAccountState T).

Definition new_mas (default_id region endpoint : string) : MultiAccountState T :=
  mkMAS default_id region endpoint
    {[ default_id := new_for_account default_id region endpoint ]}.

Definition get_or_create m (account_id : string) : MultiAccountState T * T :=
  match accounts m !! account_id with
  | Some t => (m, t)
  | None =>
      let state := new_for_account account_id (mas_region m) (mas_endpoint m) in
      let state := match accounts m !! default_account_id m with
                   | Some sibling => inherit_from state sibling
                   | None => state
                   end in
      (put m account_id state, state)
  end.

Definition get_or_create_with m (account_id : string) (init : T -> T)
  : MultiAccountState T * T :=
  match accounts m !! account_id with
  | Some t => (m, t)
  | None =>
      let state := init (new_for_account account_id (mas_region m) (mas_endpoint m)) in
      (put m account_id state, state)
  end.

(** [default_mut] and [default_ref] unwrap the default account: [None] is the
    panic. *)
Definition default_ref m : option T := accounts m !! default_account_id m.

Definition reset m : MultiAccountState T :=
  with_accounts m
    {[ default_account_id m :=
         new_for_account (default_account_id m) (mas_region m) (mas_endpoint m) ]}.

Definition reset_account m (account_id : string) : MultiAccountState T :=
  match accounts m !! account_id with
  | Some _ =>
      put m account_id (new_for_account account_id (mas_region m) (mas_endpoint m))
  | None => m
  end.

End Accounts.

(** ** Regions of one account *)

Record RegionalState (T : Type) := mkRS {
  rs_account_id : string;
  rs_default_region : string;
  rs_endpoint : string;
  regions : gmap string T        (* BTreeMap *)
}.
Arguments mkRS {T}.
Arguments rs_account_id {T}.
Arguments rs_default_region {T}.
Arguments rs_endpoint {T}.
Arguments regions {T}.

Definition with_regions {T} (a : RegionalState T) (rs : gmap string T) : RegionalState T :=
  mkRS (rs_account_id a) (rs_default_region a) (rs_endpoint a) rs.

Definition new_regional {T} (account_id default_region endpoint : string) : RegionalState T :=
  mkRS account_id default_region endpoint ∅.

(** [region] and [get_region_mut]. *)
Definition region_of_account {T} (a : RegionalState T) (region : string) : option T :=
  regions a !! region.

(** [insert_region]: the new container and the state it replaced. *)
Definition insert_region {T} (a : RegionalState T) (region : string) (t : T)
  : RegionalState T * option T :=
  (with_regions a (<[region := t]> (regions a)), regions a !! region).

Definition clear_regions {T} (a : RegionalState T) : RegionalState T := with_regions a ∅.

Definition map_regions {T U} (f : T -> U) (a : RegionalState T) : RegionalState U :=
  mkRS (rs_account_id a) (rs_default_region a) (rs_endpoint a) (f <$> regions a).

Section Regions.
Context {T : Type} `{AccountState T}.

(** A fresh state, inheriting from [sibling] when there is one. *)
Definition inheriting (state : T) (sibling : option T) : T :=
  match sibling with Some s => inherit_from state s | None => state end.

Definition region_mut (a : RegionalState T) (region : string) : RegionalState T * T :=
  match regions a !! region with
  | Some t => (a, t)
  | None =>
      let state := inheriting (new_for_account (rs_account_id a) region (rs_endpoint a))
                     (BTree.first_value (regions a)) in
      (with_regions a (<[region := state]> (regions a)), state)
  end.

Definition region_or_default_mut (a : RegionalState T) (region : option string)
  : RegionalState T * T :=
  let region := match region with
                | Some r => if is_empty_str r then rs_default_region a else r
                | None => rs_default_region a
                end in
  region_mut a region.

#[global] Instance regional_account_state : AccountState (RegionalState T) := {
  new_for_account := new_regional;
  inherit_from := fun self sibling =>
    match BTree.first_value (regions sibling) with
    | Some shared => with_regions self ((fun state => inherit_from state shared) <$> regions self)
    | None => self
    end
}.

End Regions.

(** ** Accounts and regions together *)

Definition MultiRegionState (T : Type) : Type := MultiAccountState (RegionalState T).

Definition regional {T} (m : MultiRegionState T) (account_id region : string) : option T :=
  get_account m account_id ≫= fun a => region_of_account a region.

Definition by_arn {T} (m : MultiRegionState T) (arn : string) : option T :=
  account ← Arn.account_of arn;
  region ← Arn.region_of arn;
  regional m account region.

Definition iter_regional {T} (entries : list (string * RegionalState T))
  : list (string * string * T) :=
  entries ≫= fun kv : string * RegionalState T =>
    (fun rt : string * T => (kv.1, rt.1, rt.2)) <$> BTree.iter (regions kv.2).

(** Writing through a reference to one (account, region) state. *)
Definition put_regional {T} (m : MultiRegionState T) (account_id region : string) (t : T)
  : MultiRegionState T :=
  match get_account m account_id with
  | Some a => put m account_id (with_regions a (<[region := t]> (regions a)))
  | None => m
  end.

Section MultiRegion.
Context {T : Type} `{AccountState T}.
Implicit Types (m : MultiRegionState T).

(** The state a first use of (account, region) inherits from. *)
Definition regional_sibling m (account_id region : string) : option T :=
  match get_account m account_id ≫= fun a => BTree.first_value (regions a) with
  | Some t => Some t
  | None =>
      default_acct ← get_account m (default_account_id m);
      match region_of_account default_acct region with
      | Some t => Some t
      | None => BTree.first_value (regions default_acct)
      end
  end.

(** [regional_mut]; [None] is the panic of its final [expect]. *)
Definition regional_mut m (account_id region : string) : option (MultiRegionState T * T) :=
  let m :=
    match regional m account_id region with
    | Some _ => m
    | None =>
        let state := inheriting (new_for_account account_id region (mas_endpoint m))
                       (regional_sibling m account_id region) in
        let '(m', a) := get_or_create m account_id in
        put m' account_id (with_regions a (<[region := state]> (regions a)))
    end in
  pair m <$> regional m account_id region.

(** [default_regional_mut]; [None] is the panic of [default_mut]. *)
Definition default_regional_mut m : option (MultiRegionState T * T) :=
  a ← default_ref m;
  let '(a', t) := region_mut a (mas_region m) in
  Some (put m (default_account_id m) a', t).

Definition default_regional m : option T :=
  default_ref m ≫= fun a => region_of_account a (mas_region m).

End MultiRegion.

(** ** Migration of account-wide snapshots *)

(** The trait [SplitByRegion], implemented by each service. *)
Class SplitByRegion (T : Type) := {
  split_by_region : T -> RegionalState T -> RegionalState T
}.

Definition from_legacy {T} `{SplitByRegion T} (account_id default_region endpoint : string)
  (legacy : T) : RegionalState T :=
  split_by_region legacy (new_regional account_id default_region endpoint).

Definition into_regional {T} `{SplitByRegion T} (m : MultiAccountState T) : MultiRegionState T :=
  map_into (fun account state => from_legacy account (mas_region m) (mas_endpoint m) state) m.

Record RegionalSnapshot (T : Type) := mkSnapshot {
  schema_version : Z;            (* u32 *)
  snap_accounts : option (MultiRegionState T);
  snap_state : option (RegionalState T)
}.
Arguments mkSnapshot {T}.
Arguments schema_version {T}.
Arguments snap_accounts {T}.
Arguments snap_state {T}.

Definition snapshot_of {T} (version : Z) (m : MultiRegionState T) : RegionalSnapshot T :=
  mkSnapshot version (Some m) None.

Record LegacySnapshot (T : Type) := mkLegacy {
  legacy_accounts : option (MultiAccountState T);
  legacy_state : option T
}.
Arguments mkLegacy {T}.
Arguments legacy_accounts {T}.
Arguments legacy_state {T}.

(** The three [serde_json::from_slice] calls, at their three types. *)
Record SnapshotCodec (Bytes E T : Type) := {
  probe_version : Bytes -> Result E Z;
  read_current : Bytes -> Result E (RegionalSnapshot T);
  read_legacy : Bytes -> Result E (LegacySnapshot T)
}.
Arguments probe_version {Bytes E T}.
Arguments read_current {Bytes E T}.
Arguments read_legacy {Bytes E T}.

Definition parse_regional_snapshot {Bytes E T} `{SplitByRegion T}
  (codec : SnapshotCodec Bytes E T) (bytes : Bytes) (current : Z)
  (legacy_single : T -> RegionalState T) : Result E (RegionalSnapshot T) :=
  version ← probe_version codec bytes;
  if (current <? version)%Z then Ok (mkSnapshot version None None)
  else if (version =? current)%Z then read_current codec bytes
  else
    legacy ← read_legacy codec bytes;
    Ok (mkSnapshot current (into_regional <$> legacy_accounts legacy)
          (legacy_single <$> legacy_state legacy)).

Definition arn_region_or (arn default_region : string) : string :=
  default default_region (Arn.region_of arn).

(** ** Theorems: accounts *)

Section AccountTheory.
Context {T : Type} `{AccountState T}.
Implicit Types (m : MultiAccountState T).

(** The calls a service makes on its container, with what it then writes
    through the reference it got. *)
Inductive Op : Type :=
| OGetOrCreate (account : string) (write : T -> T)
| OGetOrCreateWith (account : string) (init write : T -> T)
| OGetMut (account : string) (write : T -> T)
| OReset
| OResetAccount (account : string).

Definition run_op m (o : Op) : MultiAccountState T :=
  match o with
  | OGetOrCreate a write => let '(m', t) := get_or_create m a in put m' a (write t)
  | OGetOrCreateWith a init write =>
      let '(m', t) := get_or_create_with m a init in put m' a (write t)
  | OGetMut a write =>
      match get_account m a with Some t => put m a (write t) | None => m end
  | OReset => reset m
  | OResetAccount a => reset_account m a
  end.

(** The account an operation addresses; [OReset] addresses all of them. *)
Definition op_touches (o : Op) (a : string) : Prop :=
  match o with
  | OGetOrCreate b _ | OGetOrCreateWith b _ _ | OGetMut b _ | OResetAccount b => a = b
  | OReset => True
  end.

Lemma get_put m a b t : get_account (put m a t) b = if decide (a = b) then Some t else get_account m b.
Proof.
  unfold get_account, put, with_accounts. simpl. case_decide as E.
  - subst. apply lookup_insert_eq.
  - by apply lookup_insert_ne.
Qed.

Lemma get_or_create_spec m a :
  let '(m', t) := get_or_create m a in
  get_account m' a = Some t
  /\ (forall b, b <> a -> get_account m' b = get_account m b)
  /\ default_account_id m' = default_account_id m
  /\ mas_region m' = mas_region m /\ mas_endpoint m' = mas_endpoint m.
Proof.
  unfold get_or_create. destruct (accounts m !! a) as [t|] eqn:E; [done|].
  split_and!; try done; [|intros b Hb]; rewrite get_put; by case_decide.
Qed.

Lemma run_op_other m o a : ~ op_touches o a -> get_account (run_op m o) a = get_account m a.
Proof.
  destruct o as [b w|b i w|b w| |b]; simpl; intros Hne; [| | |done|].
  - pose proof (get_or_create_spec m b) as Hs. destruct (get_or_create m b) as [m' t].
    rewrite get_put, decide_False by done. by apply Hs.
  - unfold get_or_create_with. destruct (accounts m !! b); rewrite !get_put, !decide_False; done.
  - destruct (get_account m b); [|done]. by rewrite get_put, decide_False.
  - unfold reset_account. destruct (accounts m !! b); [|done]. by rewrite get_put, decide_False.
Qed.

Lemma run_op_default_id m o : default_account_id (run_op m o) = default_account_id m.
Proof.
  destruct o; simpl; try done.
  - unfold get_or_create. by destruct (accounts m !! account).
  - unfold get_or_create_with. by destruct (accounts m !! account).
  - by destruct (get_account m account).
  - unfold reset_account. by destruct (accounts m !! account).
Qed.

Lemma put_present m a b t : is_Some (get_account m b) -> is_Some (get_account (put m a t) b).
Proof. rewrite get_put. case_decide; eauto. Qed.

Lemma run_op_default m o : is_Some (default_ref m) -> is_Some (default_ref (run_op m o)).
Proof.
  unfold default_ref. rewrite run_op_default_id. fold (get_account m (default_account_id m)).
  fold (get_account (run_op m o) (default_account_id m)). intros Hd.
  destruct o as [b w|b i w|b w| |b]; simpl.
  - unfold get_or_create. destruct (accounts m !! b); repeat apply put_present; done.
  - unfold get_or_create_with. destruct (accounts m !! b); repeat apply put_present; done.
  - destruct (get_account m b); [by apply put_present|done].
  - unfold get_account, reset, with_accounts. simpl. rewrite lookup_singleton_eq. eauto.
  - unfold reset_account. destruct (accounts m !! b); [by apply put_present|done].
Qed.

(** Theorem (invariant) The default account always exists: whatever sequence of
    calls a service makes on a fresh container, and whatever it writes into
    the states it borrows, the unwraps in [default_ref] and [default_mut]
    cannot panic and the default account id never changes. *)
Theorem default_account_always_exists (default_id region endpoint : string) (ops : list Op) :
  let m := foldl run_op (new_mas default_id region endpoint) ops in
  is_Some (default_ref m) /\ default_account_id m = default_id.
Proof.
  intros m.
  assert (Hgen : forall m0, is_Some (default_ref m0) ->
    is_Some (default_ref (foldl run_op m0 ops))
    /\ default_account_id (foldl run_op m0 ops) = default_account_id m0).
  { induction ops as [|o ops IH]; intros m0 Hm0; [done|]. simpl.
    rewrite <- (run_op_default_id m0 o). apply IH. by apply run_op_default. }
  apply Hgen. unfold default_ref, new_mas. simpl. rewrite lookup_singleton_eq. eauto.
Qed.

(** Theorem (safety) Account isolation: a sequence of calls none of which
    addresses account [a] (a full reset addresses every account) leaves the
    state of [a] exactly as it was, present or absent. *)
Theorem accounts_are_isolated m (a : string) (ops : list Op)
  (Hother : Forall (fun o => ~ op_touches o a) ops) :
  get_account (foldl run_op m ops) a = get_account m a.
Proof.
  revert m. induction Hother as [|o ops Ho _ IH]; intros m; [done|]. simpl.
  rewrite IH. by apply run_op_other.
Qed.

End AccountTheory.

(** ** Theorems: accounts and regions *)

Section RegionTheory.
Context {T : Type} `{AccountState T}.
Implicit Types (m : MultiRegionState T).

Lemma get_or_create_regions m a :
  let '(m', s) := get_or_create m a in
  get_account m' a = Some s
  /\ regions s = match get_account m a with Some s0 => regions s0 | None => ∅ end.
Proof.
  pose proof (get_or_create_spec m a) as Hs. revert Hs. unfold get_or_create, get_account.
  destruct (accounts m !! a) as [s0|] eqn:E; [by intros _; rewrite E|]. intros (Hg & _). split; [done|].
  destruct (accounts m !! default_account_id m) as [d|]; [|done]. simpl.
  destruct (BTree.first_value (regions d)); [|done]. simpl. apply fmap_empty.
Qed.

Lemma regional_put m a b r s :
  regional (put m a s) b r = if decide (a = b) then regions s !! r else regional m b r.
Proof. unfold regional. rewrite get_put. by case_decide. Qed.

(** Theorem (refinement) The container is a map from (account, region) to
    independent states: [regional_mut] never panics, returns the state of its
    own cell, leaves an existing cell (and then the whole container) as it
    was, creates a missing one fresh from its sibling, and touches no other
    cell. *)
Theorem regional_mut_spec m (account_id region : string) :
  exists m' t, regional_mut m account_id region = Some (m', t)
  /\ regional m' account_id region = Some t
  /\ (forall a r, (a, r) <> (account_id, region) -> regional m' a r = regional m a r)
  /\ match regional m account_id region with
     | Some t0 => m' = m /\ t = t0
     | None => t = inheriting (new_for_account account_id region (mas_endpoint m))
                     (regional_sibling m account_id region)
     end
  /\ default_account_id m' = default_account_id m
  /\ (is_Some (default_ref m) -> is_Some (default_ref m')).
Proof.
  unfold regional_mut. destruct (regional m account_id region) as [t0|] eqn:E0.
  { exists m, t0. rewrite E0. by split_and!. }
  pose proof (get_or_create_regions m account_id) as Hr.
  pose proof (get_or_create_spec m account_id) as Hs.
  destruct (get_or_create m account_id) as [m1 s].
  destruct Hs as (Hg & Hother & Hdef & _), Hr as [_ Hregs].
  rewrite regional_put, decide_True by done. cbn [regions with_regions].
  rewrite lookup_insert_eq. eexists _, _. split; [reflexivity|].
  split_and!; [rewrite regional_put, decide_True by done; apply lookup_insert_eq| |done|done|].
  - intros a r Hne. rewrite regional_put. case_decide as Ha.
    + subst a. cbn [regions with_regions]. rewrite lookup_insert_ne by congruence.
      rewrite Hregs. unfold regional, region_of_account.
      destruct (get_account m account_id); [done|]. apply lookup_empty.
    + unfold regional. by rewrite Hother.
  - unfold default_ref. simpl. rewrite Hdef. intros Hd. apply (put_present m1).
    destruct (decide (default_account_id m = account_id)) as [->|Hne]; [by rewrite Hg|].
    by rewrite Hother.
Qed.

Lemma non_empty_Some s : is_empty_str s = false -> Arn.non_empty s = Some s.
Proof. unfold Arn.non_empty. by intros ->. Qed.

(** Theorem (roundtrip) Routing by ARN: after a service touches the state of an
    account in a region, looking up the printed form of any ARN built for
    that region and account finds the same state. *)
Theorem by_arn_finds_regional m m' (svc account region res : string) (t : T)
  (Hsvc : no_char ":" svc = true)
  (Haccount : no_char ":" account = true /\ is_empty_str account = false)
  (Hregion : no_char ":" region = true /\ is_empty_str region = false)
  (Hmut : regional_mut m account region = Some (m', t)) :
  by_arn m' (Arn.to_string (Arn.regional svc region account res)) = Some t.
Proof.
  destruct Haccount as [Ha Hae], Hregion as [Hr Hre].
  assert (Hwf : Arn.wf (Arn.regional svc region account res)).
  { split_and!; try done. apply Arn.partition_no_colon. }
  unfold by_arn.
  destruct (Arn.accessors_spec _ svc _ (Arn.from_str_to_string _ Hwf) Hsvc) as (-> & -> & _).
  simpl. rewrite !non_empty_Some by done. simpl.
  unfold regional_mut in Hmut. by apply fmap_Some in Hmut as (t' & ? & [= -> ->]).
Qed.

End RegionTheory.

(** Theorem (error) Snapshots: a snapshot newer than this build comes back with
    its own version and no state, for the caller to refuse; one of the
    current version is read as it is; an older one is migrated, keeping every
    account of the old container (and adding none), each split by region
    with that container's region and endpoint; read errors pass through. *)
Theorem parse_regional_snapshot_cases {Bytes E T} `{SplitByRegion T}
  (codec : SnapshotCodec Bytes E T) (bytes : Bytes) (current : Z)
  (legacy_single : T -> RegionalState T) :
  match probe_version codec bytes with
  | Err e => parse_regional_snapshot codec bytes current legacy_single = Err e
  | Ok v =>
      ((current < v)%Z ->
         parse_regional_snapshot codec bytes current legacy_single = Ok (mkSnapshot v None None))
      /\ (v = current ->
         parse_regional_snapshot codec bytes current legacy_single = read_current codec bytes)
      /\ ((v < current)%Z ->
         match read_legacy codec bytes with
         | Err e => parse_regional_snapshot codec bytes current legacy_single = Err e
         | Ok legacy => exists snap,
             parse_regional_snapshot codec bytes current legacy_single = Ok snap
             /\ schema_version snap = current
             /\ snap_state snap = legacy_single <$> legacy_state legacy
             /\ (is_Some (snap_accounts snap) <-> is_Some (legacy_accounts legacy))
             /\ forall old new, legacy_accounts legacy = Some old -> snap_accounts snap = Some new ->
                 default_account_id new = default_account_id old
                 /\ forall a, get_account new a =
                      (fun t => from_legacy a (mas_region old) (mas_endpoint old) t)
                        <$> get_account old a
         end)
  end.
Proof.
  unfold parse_regional_snapshot.
  destruct (probe_version codec bytes) as [v|e]; [|done]. cbn [mbind result_bind].
  split_and!; intros Hv.
  - by rewrite (proj2 (Z.ltb_lt _ _) Hv).
  - subst. by rewrite Z.ltb_irrefl, Z.eqb_refl.
  - rewrite (proj2 (Z.ltb_ge _ _)), (proj2 (Z.eqb_neq _ _)) by lia.
    destruct (read_legacy codec bytes) as [legacy|e]; [|done]. cbn [mbind result_bind].
    eexists. split; [reflexivity|]. split_and!; [done|done|apply fmap_is_Some|].
    intros old new Hold Hnew. cbn [snap_accounts] in Hnew. rewrite Hold in Hnew.
    injection Hnew as <-. split; [done|]. intros a.
    unfold get_account, into_regional, map_into. cbn [accounts].
    rewrite map_lookup_imap. by destruct (accounts old !! a).
Qed.

(** ** Witnesses *)

(** A service state that is a list of names, as in the module's own tests. *)
Definition items_state : AccountState (list string) :=
  {| new_for_account := fun _ _ _ => []; inherit_from := fun self _ => self |}.

Lemma accounts_are_isolated_witness :
  let m := @new_mas _ items_state "111111111111" "us-east-1" "http://localhost:4566" in
  @get_account (list string)
    (foldl (@run_op _ items_state) m
      [OGetOrCreate "222222222222" (fun l => "x"%string :: l); OResetAccount "222222222222"])
    "111111111111" = Some [].
Proof.
  intros m. etransitivity;
    [apply (@accounts_are_isolated _ items_state m "111111111111")|reflexivity].
  repeat constructor; discriminate.
Defined.

Lemma by_arn_finds_regional_witness :
  let m := @new_mas _ (@regional_account_state _ items_state) "111111111111" "us-east-1" "" in
  exists m' t,
    @regional_mut _ items_state m "222222222222" "eu-west-1" = Some (m', t)
    /\ by_arn m' "arn:aws:sqs:eu-west-1:222222222222:queue" = Some t.
Proof.
  intros m. eexists _, _. split; [reflexivity|].
  apply (@by_arn_finds_regional _ items_state m _ "sqs" "222222222222" "eu-west-1" "queue");
    [reflexivity|split; reflexivity|split; reflexivity|reflexivity].
Defined.
