(* ===== verification/Iam.v ===== *)
(** * IAM state and its adapters

    What [fakecloud-iam] builds on the evaluator: the account state it reads
    ([state.rs]), the collection of a principal's policies and boundary
    ([evaluator.rs]), the adapter that answers the dispatcher's
    [IamPolicyEvaluator] calls ([policy_evaluator.rs]), the PassRole trust
    check ([pass_role.rs]) and the STS resource-policy provider
    ([resource_policy.rs]).  The traits are the classes at the top. *)

From Stdlib Require Import ZArith Lia Bool String Ascii.
From stdpp Require Import base option list strings gmap.
From S2P Require Import Prelude Glob Json Net Auth PolicyVars Condition Arn BTree MultiAccount.
From S2P Require Import Evaluator EvaluatorTheory.

(** ** Interfaces *)

Inductive IamDecision : Type := IamAllow | IamImplicitDeny | IamExplicitDeny.

(** The trait [IamPolicyEvaluator], implemented by a type [S]. *)
Class IamPolicyEvaluator (S : Type) := {
  ev_evaluate : S -> Principal -> IamAction -> ConditionContext ->
    list string -> option (list string) -> IamDecision;
  ev_with_resource_policy : S -> Principal -> IamAction -> ConditionContext ->
    option string -> string -> list string -> option (list string) -> IamDecision;
  ev_anonymous : S -> IamAction -> ConditionContext -> option string -> IamDecision;
  ev_resource_policy_only : S -> Principal -> IamAction -> ConditionContext ->
    option string -> IamDecision
}.

(** The trait [ResourcePolicyProvider]. *)
Class ResourcePolicyProvider (S : Type) := {
  rp_policy : S -> string -> string -> option string;
  rp_owner_account : S -> string -> string -> option string;
  rp_public_acl_allows : S -> string -> string -> string -> bool
}.

Inductive PassRoleError : Type :=
| RoleNotFound (role_arn : string)
| TrustPolicyDenies (role_arn service_principal : string)
| InvalidTrustPolicy (role_arn : string).

(** The trait [RoleTrustValidator]. *)
Class RoleTrustValidator (S : Type) := {
  rt_validate : S -> string -> string -> string -> Result PassRoleError unit
}.

(** ** [MultiResourcePolicyProvider] *)

(** A provider as a value: the composite holds [Arc<dyn ...>]s. *)
Record DynProvider := {
  dyn_policy : string -> string -> option string;
  dyn_owner_account : string -> string -> option string;
  dyn_public_acl_allows : string -> string -> string -> bool
}.

Definition dyn_of {S} `{ResourcePolicyProvider S} (s : S) : DynProvider :=
  {| dyn_policy := rp_policy s; dyn_owner_account := rp_owner_account s;
     dyn_public_acl_allows := rp_public_acl_allows s |}.

(** [Iterator::find_map]. *)
Fixpoint find_map {A B} (f : A -> option B) (l : list A) : option B :=
  match l with
  | [] => None
  | x :: l' => match f x with Some b => Some b | None => find_map f l' end
  end.

Record MultiResourcePolicyProvider := { providers : list DynProvider }.

#[global] Instance multi_provider : ResourcePolicyProvider MultiResourcePolicyProvider := {
  rp_policy m service arn := find_map (fun p => dyn_policy p service arn) (providers m);
  rp_owner_account m service arn :=
    find_map (fun p => dyn_owner_account p service arn) (providers m);
  rp_public_acl_allows m service arn action :=
    existsb (fun p => dyn_public_acl_allows p service arn action) (providers m)
}.

(** ** Account state *)

Record Tag := { tag_key : string; tag_value : string }.

Record IamUser := {
  iu_user_name : string;
  iu_user_id : string;
  iu_arn : string;
  iu_path : string;
  iu_created_at : Z;                       (* an instant *)
  iu_tags : list Tag;
  iu_permissions_boundary : option string
}.

Record IamRole := {
  ir_role_name : string;
  ir_role_id : string;
  ir_arn : string;
  ir_path : string;
  ir_assume_role_policy_document : string;
  ir_created_at : Z;
  ir_description : option string;
  ir_max_session_duration : Z;             (* i32 *)
  ir_tags : list Tag;
  ir_permissions_boundary : option string
}.

Record PolicyVersion := {
  pv_version_id : string;
  pv_document : string;
  pv_is_default : bool;
  pv_created_at : Z
}.

Record IamPolicy := {
  ip_policy_name : string;
  ip_policy_id : string;
  ip_arn : string;
  ip_path : string;
  ip_description : string;
  ip_created_at : Z;
  ip_tags : list Tag;
  ip_default_version_id : string;
  ip_versions : list PolicyVersion;
  ip_next_version_num : Z;                 (* u32 *)
  ip_attachment_count : Z                  (* u32 *)
}.

Record IamGroup := {
  ig_group_name : string;
  ig_group_id : string;
  ig_arn : string;
  ig_path : string;
  ig_created_at : Z;
  ig_members : list string;
  ig_inline_policies : gmap string string;
  ig_attached_policies : list string
}.

(** The fields of [IamState] the evaluator reads; all are [BTreeMap]s. *)
Record IamState := {
  users : gmap string IamUser;
  roles : gmap string IamRole;
  policies : gmap string IamPolicy;
  role_policies : gmap string (list string);
  role_inline_policies : gmap string (gmap string string);
  user_policies : gmap string (list string);
  user_inline_policies : gmap string (gmap string string);
  groups : gmap string IamGroup
}.

Definition SharedIamState : Type := MultiAccountState IamState.

(** The embedded catalog of AWS-managed policies: generated data. *)
Record ManagedPolicy := { mp_arn : string; mp_document : string }.

Class ManagedCatalog := { catalog : list ManagedPolicy }.

(** ** Names in ARNs *)

Definition user_name_from_arn (a : string) : option string :=
  '(_, after) ← rsplit_once ":user/" a;
  Some (last_segment "/" after).

Definition role_name_from_assumed_role_arn (a : string) : option string :=
  '(_, after) ← rsplit_once ":assumed-role/" a;
  Some (first_segment "/" after).

Section Iam.
Context `{SerdeJson} `{Chrono} `{ManagedCatalog}.

(** ** Collecting policies *)

(** [managed_policies::lookup] and [default_document]. *)
Definition lookup_managed (a : string) : option ManagedPolicy :=
  head (filter (fun p => mp_arn p = a) catalog).

Definition default_document (a : string) : option string := mp_document <$> lookup_managed a.

Definition managed_policy_default_document (state : IamState) (a : string) : option string :=
  match policies state !! a with
  | Some policy =>
      pv_document <$>
        match head (filter (fun v => pv_is_default v = true) (ip_versions policy)) with
        | Some v => Some v
        | None => head (ip_versions policy)
        end
  | None => default_document a
  end.

(** The collector's two accumulators. *)
Record Collected := { docs : list PolicyDocument; seen_managed : gset string }.

Definition push_inline (inline : gmap string string) (c : Collected) : Collected :=
  {| docs := docs c ++ (document_parse <$> BTree.values inline);
     seen_managed := seen_managed c |}.

(** One turn of the loop over attached managed-policy ARNs. *)
Definition push_managed (state : IamState) (c : Collected) (a : string) : Collected :=
  if decide (a ∈ seen_managed c) then c
  else {| docs := docs c ++
            option_list (document_parse <$> managed_policy_default_document state a);
          seen_managed := {[ a ]} ∪ seen_managed c |}.

Definition push_all_managed (state : IamState) (arns : list string) (c : Collected) : Collected :=
  foldl (push_managed state) c arns.

(** One turn of the loop over groups. *)
Definition push_group (state : IamState) (user_name : string) (c : Collected) (g : IamGroup)
  : Collected :=
  if negb (existsb (fun m => String.eqb m user_name) (ig_members g)) then c
  else push_all_managed state (ig_attached_policies g) (push_inline (ig_inline_policies g) c).

Definition collect_user_policies (state : IamState) (user_name : string) (c : Collected)
  : Collected :=
  let c := match user_inline_policies state !! user_name with
           | Some inline => push_inline inline c
           | None => c
           end in
  let c := match user_policies state !! user_name with
           | Some arns => push_all_managed state arns c
           | None => c
           end in
  foldl (push_group state user_name) c (BTree.values (groups state)).

Definition collect_role_policies (state : IamState) (role_name : string) (c : Collected)
  : Collected :=
  let c := match role_inline_policies state !! role_name with
           | Some inline => push_inline inline c
           | None => c
           end in
  match role_policies state !! role_name with
  | Some arns => push_all_managed state arns c
  | None => c
  end.

Definition collect_identity_policies (state : IamState) (p : Principal) : list PolicyDocument :=
  let start := {| docs := []; seen_managed := ∅ |} in
  docs match principal_type p with
       | TUser =>
           match user_name_from_arn (arn p) with
           | Some user_name => collect_user_policies state user_name start
           | None => start
           end
       | TAssumedRole =>
           match role_name_from_assumed_role_arn (arn p) with
           | Some role_name => collect_role_policies state role_name start
           | None => start
           end
       | TRoot | TFederatedUser | TUnknown | TService => start
       end.

(** The boundary ARN [collect_boundary_policies] resolves, if any. *)
Definition boundary_arn (state : IamState) (p : Principal) : option string :=
  match principal_type p with
  | TUser =>
      user_name ← user_name_from_arn (arn p);
      user ← users state !! user_name;
      iu_permissions_boundary user
  | TAssumedRole =>
      role_name ← role_name_from_assumed_role_arn (arn p);
      if starts_with "AWSServiceRoleFor" role_name then None
      else
        role ← roles state !! role_name;
        ir_permissions_boundary role
  | _ => None
  end.

Definition collect_boundary_policies (state : IamState) (p : Principal)
  : option (list PolicyDocument) :=
  if is_root p then None
  else
    a ← boundary_arn state p;
    match managed_policy_default_document state a with
    | Some doc => Some [document_parse doc]
    | None => Some []
    end.

(** ** The adapter *)

Record IamPolicyEvaluatorImpl := { ev_state : SharedIamState }.

Definition anonymous_principal : Principal :=
  {| arn := ""; user_id := ""; account_id := ""; principal_type := TUnknown;
     source_identity := None; principal_tags_of := None |}.

Definition parse_session_policies (raw : list string) : option (list PolicyDocument) :=
  match raw with [] => None | _ => Some (document_parse <$> raw) end.

Definition parse_scp_policies (raw : option (list string)) : option (list PolicyDocument) :=
  match raw with Some l => Some (document_parse <$> l) | None => None end.

Definition decision_to_core (d : Decision) : IamDecision :=
  match d with
  | Allow => IamAllow
  | ImplicitDeny => IamImplicitDeny
  | ExplicitDeny => IamExplicitDeny
  end.

Definition eval_request (p : Principal) (action : IamAction) (ctx : ConditionContext)
  : EvalRequest :=
  {| rq_principal := p; rq_action := action_string action;
     rq_resource := ia_resource action; rq_context := ctx |}.

Definition impl_evaluate (s : IamPolicyEvaluatorImpl) (p : Principal) (action : IamAction)
  (ctx : ConditionContext) (session : list string) (scps : option (list string)) : IamDecision :=
  match get_account (ev_state s) (account_id p) with
  | None => IamImplicitDeny
  | Some state =>
      decision_to_core (evaluate_with_gates_and_scps
        (collect_identity_policies state p) (collect_boundary_policies state p)
        (parse_session_policies session) (parse_scp_policies scps) (eval_request p action ctx))
  end.

Definition impl_with_resource_policy (s : IamPolicyEvaluatorImpl) (p : Principal)
  (action : IamAction) (ctx : ConditionContext) (resource_policy_json : option string)
  (resource_account_id : string) (session : list string) (scps : option (list string))
  : IamDecision :=
  match get_account (ev_state s) (account_id p) with
  | None => IamImplicitDeny
  | Some state =>
      decision_to_core (evaluate_with_resource_policy_and_gates_and_scps
        (collect_identity_policies state p) (collect_boundary_policies state p)
        (parse_session_policies session) (parse_scp_policies scps)
        (document_parse <$> resource_policy_json) (eval_request p action ctx)
        resource_account_id)
  end.

Definition impl_resource_policy_only (s : IamPolicyEvaluatorImpl) (p : Principal)
  (action : IamAction) (ctx : ConditionContext) (resource_policy_json : option string)
  : IamDecision :=
  match resource_policy_json with
  | None => IamImplicitDeny
  | Some json =>
      decision_to_core
        (evaluate_resource_policy_only (document_parse json) (eval_request p action ctx))
  end.

Definition impl_anonymous (s : IamPolicyEvaluatorImpl) (action : IamAction)
  (ctx : ConditionContext) (resource_policy_json : option string) : IamDecision :=
  match resource_policy_json with
  | None => IamImplicitDeny
  | Some json =>
      decision_to_core (evaluate_resource_policy_only (document_parse json)
        (eval_request anonymous_principal action ctx))
  end.

#[global] Instance iam_policy_evaluator : IamPolicyEvaluator IamPolicyEvaluatorImpl := {
  ev_evaluate := impl_evaluate;
  ev_with_resource_policy := impl_with_resource_policy;
  ev_anonymous := impl_anonymous;
  ev_resource_policy_only := impl_resource_policy_only
}.

(** ** PassRole *)

Record IamRoleTrustValidator := { tv_state : SharedIamState }.

Definition role_name_from_arn (role_arn : string) : option string :=
  rest ← strip_prefix "arn:" role_arn;
  '(_, rest) ← split_once ":" rest;
  role_part ← strip_prefix "iam::" rest;
  '(_, rest) ← split_once ":" role_part;
  role_path ← strip_prefix "role/" rest;
  Some (last_segment "/" role_path).

Definition is_target_or_star (target : string) (v : Value) : bool :=
  match v with
  | VString s => String.eqb s target || String.eqb s "*"
  | _ => false
  end.

Definition action_includes (action : option Value) (target : string) : bool :=
  match action with
  | Some (VString s) => is_target_or_star target (VString s)
  | Some (VArray l) => existsb (is_target_or_star target) l
  | _ => false
  end.

Definition is_star (v : Value) : bool :=
  match as_str v with Some s => String.eqb s "*" | None => false end.

Definition principal_service_includes (principal : Value) (service_principal : string) : bool :=
  match principal with
  | VString s => String.eqb s "*"
  | _ =>
      let aws_star := match get "AWS" principal with
                      | Some (VString s) => String.eqb s "*"
                      | Some (VArray l) => existsb is_star l
                      | _ => false
                      end in
      if aws_star then true
      else match get "Service" principal with
           | Some (VString s) => is_target_or_star service_principal (VString s)
           | Some (VArray l) => existsb (is_target_or_star service_principal) l
           | _ => false
           end
  end.

(** One statement of the loop in [trust_policy_allows]. *)
Definition trust_statement_allows (service_principal : string) (stmt : Value) : bool :=
  let effect := default "Allow"%string (get "Effect" stmt ≫= as_str) in
  eq_ignore_ascii_case effect "Allow"
  && action_includes (get "Action" stmt) "sts:AssumeRole"
  && match get "Principal" stmt with
     | Some principal => principal_service_includes principal service_principal
     | None => false
     end.

Definition trust_policy_allows (policy : Value) (service_principal : string) : bool :=
  match get "Statement" policy with
  | Some (VArray l) => existsb (trust_statement_allows service_principal) l
  | Some stmt => existsb (trust_statement_allows service_principal) [stmt]
  | None => false
  end.

Definition validate (v : IamRoleTrustValidator) (account role_arn service_principal : string)
  : Result PassRoleError unit :=
  match role_name_from_arn role_arn with
  | None => Ok tt
  | Some name =>
      match get_account (tv_state v) account with
      | None => Ok tt
      | Some state =>
          match roles state !! name with
          | None => Ok tt
          | Some role =>
              parsed ← ok_or (InvalidTrustPolicy role_arn)
                         (json_from_str (ir_assume_role_policy_document role));
              if trust_policy_allows parsed service_principal then Ok tt
              else Err (TrustPolicyDenies role_arn service_principal)
          end
      end
  end.

#[global] Instance iam_role_trust_validator : RoleTrustValidator IamRoleTrustValidator := {
  rt_validate := validate
}.

End Iam.

(** ** The STS provider *)

Record StsResourcePolicyProvider := { sts_state : SharedIamState }.

Definition sts_resource_policy (s : StsResourcePolicyProvider) (service resource_arn : string)
  : option string :=
  if negb (eq_ignore_ascii_case service "sts") then None
  else
    let parts := split_char ":" resource_arn in
    if (length parts <? 6) then None
    else
      account ← parts !! 4;
      resource ← parts !! 5;
      role_path ← strip_prefix "role/" resource;
      state ← get_account (sts_state s) account;
      role ← roles state !! last_segment "/" role_path;
      Some (ir_assume_role_policy_document role).

(** The trait's default methods cover the rest. *)
#[global] Instance sts_provider : ResourcePolicyProvider StsResourcePolicyProvider := {
  rp_policy := sts_resource_policy;
  rp_owner_account _ _ _ := None;
  rp_public_acl_allows _ _ _ _ := false
}.
