(* ===== verification/IamTheory.v ===== *)
(** * Correctness of the IAM adapters

    Which policies a principal is evaluated with, what a missing boundary
    policy does, who an anonymous request can be granted by, and what the
    PassRole validator accepts. *)

From Stdlib Require Import ZArith Lia Bool String Ascii.
From stdpp Require Import base option list strings gmap.
From S2P Require Import Prelude Glob Json Net Auth PolicyVars Condition Arn BTree MultiAccount.
From S2P Require Import Evaluator EvaluatorTheory Iam.

(** ** Names *)

Lemma rsplit_once_None d x s : no_char d s = true -> rsplit_once (String d x) s = None.
Proof.
  induction s as [|c s IH]; intros Hs; [done|]. apply no_char_cons in Hs as [Hc Hs].
  cbn [rsplit_once]. rewrite IH by done. cbn [strip_prefix].
  destruct (Ascii.eqb_spec d c); [congruence|done].
Qed.

Lemma rsplit_once_app d x a b :
  no_char d (x +:+ b) = true ->
  rsplit_once (String d x) (a +:+ String d (x +:+ b)) = Some (a, b).
Proof.
  intros Hb. induction a as [|c a IH].
  - cbn [String.append rsplit_once]. rewrite rsplit_once_None by done.
    assert (Hs : strip_prefix (String d x) (String d (x +:+ b)) = Some b)
      by (by apply strip_prefix_Some).
    by rewrite Hs.
  - cbn [String.append rsplit_once]. by rewrite IH.
Qed.

(** An IAM path: [/] or [/a/b/]. *)
Definition iam_path (path : string) : Prop :=
  exists dirs, path = String "/" dirs /\ (dirs = EmptyString \/ exists d, dirs = d +:+ "/").

Lemma last_segment_path path name :
  iam_path path -> no_char "/" name = true -> last_segment "/" (string_drop 1 path +:+ name) = name.
Proof.
  intros (dirs & -> & [->|(d & ->)]) Hname; cbn [string_drop].
  - by apply last_segment_no.
  - rewrite string_app_assoc. by apply last_segment_app.
Qed.

(** Theorem (roundtrip) Principal names: the policies of an IAM user are looked
    up under the bare user name whatever the user's path, those of a role
    session under the role name whatever the session name, in every
    partition, for names without a colon or slash and paths without a
    colon. *)
Theorem principal_names_roundtrip (rg account path name session : string)
  (Hpath : iam_path path) (Hcolon : no_char ":" (path +:+ name) = true)
  (Hslash : no_char "/" name = true) (Hsession : no_char ":" session = true) :
  user_name_from_arn
    (Arn.to_string (Arn.global_in rg "iam" account ("user" +:+ path +:+ name))) = Some name
  /\ role_name_from_assumed_role_arn
    (Arn.to_string (Arn.global_in rg "sts" account ("assumed-role/" +:+ name +:+ "/" +:+ session)))
     = Some name.
Proof.
  destruct Hpath as (dirs & -> & Hdirs).
  assert (Hdn : no_char ":" (dirs +:+ name) = true).
  { cbn [String.append] in Hcolon. by apply no_char_cons in Hcolon as [_ ?]. }
  assert (Hn : no_char ":" name = true).
  { rewrite no_char_app in Hdn. by apply andb_true_iff in Hdn as [_ ?]. }
  unfold Arn.global_in, Arn.with_partition, Arn.new, Arn.to_string.
  cbn [Arn.partition Arn.service Arn.region Arn.account_id Arn.resource].
  split.
  - set (pre := "arn:" +:+ Arn.partition_for rg +:+ ":" +:+ "iam" +:+ ":" +:+ "" +:+ ":" +:+ account).
    assert (E : "arn:" +:+ Arn.partition_for rg +:+ ":" +:+ "iam" +:+ ":" +:+ "" +:+ ":" +:+ account
      +:+ ":" +:+ "user" +:+ String "/" dirs +:+ name
      = pre +:+ String ":" ("user/" +:+ (dirs +:+ name))).
    { unfold pre. by rewrite !string_app_assoc. }
    rewrite E. unfold user_name_from_arn. rewrite rsplit_once_app by done.
    cbn [mbind option_bind]. f_equal.
    apply (last_segment_path (String "/" dirs)); [by exists dirs|done].
  - set (pre := "arn:" +:+ Arn.partition_for rg +:+ ":" +:+ "sts" +:+ ":" +:+ "" +:+ ":" +:+ account).
    assert (E : "arn:" +:+ Arn.partition_for rg +:+ ":" +:+ "sts" +:+ ":" +:+ "" +:+ ":" +:+ account
      +:+ ":" +:+ "assumed-role/" +:+ name +:+ "/" +:+ session
      = pre +:+ String ":" ("assumed-role/" +:+ (name +:+ String "/" session))).
    { unfold pre. by rewrite !string_app_assoc. }
    rewrite E. unfold role_name_from_assumed_role_arn. rewrite rsplit_once_app.
    + cbn [mbind option_bind]. unfold first_segment. by rewrite split_char_app.
    + change (no_char ":" (name +:+ String "/" session) = true).
      rewrite no_char_app, Hn. by apply no_char_cons.
Qed.

Lemma principal_names_roundtrip_witness :
  user_name_from_arn "arn:aws-cn:iam::123456789012:user/engineering/alice" = Some "alice"%string
  /\ role_name_from_assumed_role_arn "arn:aws-cn:sts::123456789012:assumed-role/alice/s/1"
     = Some "alice"%string.
Proof.
  apply (principal_names_roundtrip "cn-north-1" "123456789012" "/engineering/" "alice" "s/1");
    [|reflexivity..].
  exists "engineering/"%string. split; [reflexivity|]. right. exists "engineering"%string. reflexivity.
Defined.

Section Theory.
Context `{SerdeJson} `{Chrono} `{ManagedCatalog}.

(** ** Collecting policies *)

(** The default version of the managed policy [a], parsed. *)
Definition managed_doc (state : IamState) (a : string) (d : PolicyDocument) : Prop :=
  exists json, managed_policy_default_document state a = Some json /\ d = document_parse json.

Definition inline_doc (inline : gmap string string) (d : PolicyDocument) : Prop :=
  exists name json, inline !! name = Some json /\ d = document_parse json.

(** The accumulators hold the inline documents [I] and the documents of the
    managed policies [A], each managed ARN taken once. *)
Record holds (state : IamState) (I : PolicyDocument -> Prop) (A : string -> Prop)
  (c : Collected) : Prop := {
  holds_docs : forall d, d ∈ docs c <-> I d \/ exists a, A a /\ managed_doc state a d;
  holds_seen : forall a, a ∈ seen_managed c <-> A a
}.

Lemma holds_start state :
  holds state (fun _ => False) (fun _ => False) {| docs := []; seen_managed := ∅ |}.
Proof.
  split; simpl.
  - intros d. rewrite elem_of_nil. split; [done|]. by intros [?|(? & ? & _)].
  - set_solver.
Qed.

Lemma holds_iff state I I' A A' c :
  (forall d, I d <-> I' d) -> (forall a, A a <-> A' a) -> holds state I A c -> holds state I' A' c.
Proof.
  intros HI HA [Hd Hs]. split.
  - intros d. rewrite Hd, HI. by setoid_rewrite HA.
  - intros a. by rewrite Hs, HA.
Qed.

Lemma holds_inline state I A inline c :
  holds state I A c -> holds state (fun d => I d \/ inline_doc inline d) A (push_inline inline c).
Proof.
  intros [Hd Hs]. split; simpl; [|done]. intros d. rewrite elem_of_app, Hd, list_elem_of_fmap.
  assert (Hin : (exists y, d = document_parse y /\ y ∈ BTree.values inline) <-> inline_doc inline d).
  { unfold inline_doc. split.
    - intros (j & -> & Hj). apply BTree.elem_of_values in Hj as [k Hk]. eauto.
    - intros (k & j & Hk & ->). exists j. split; [done|]. apply BTree.elem_of_values. eauto. }
  rewrite Hin. tauto.
Qed.

Lemma holds_managed state I A c a :
  holds state I A c -> holds state I (fun b => A b \/ b = a) (push_managed state c a).
Proof.
  intros [Hd Hs]. unfold push_managed. case_decide as Hin.
  - apply (holds_iff state I I A); [done| |by split].
    intros b. split; [by left|]. intros [?| ->]; [done|by apply Hs].
  - split; simpl.
    + intros d. rewrite elem_of_app, Hd, elem_of_opt_list, fmap_Some. unfold managed_doc.
      split.
      * intros [[?|(b & Hb & Hm)]|Hm]; [by left|right; eauto|]. right. exists a. split; [by right|done].
      * intros [?|(b & [Hb| ->] & Hm)]; [by do 2 left|left; right; eauto|by right].
    + intros b. rewrite elem_of_union, elem_of_singleton, Hs. tauto.
Qed.

Lemma holds_all_managed state I A c arns :
  holds state I A c ->
  holds state I (fun b => A b \/ b ∈ arns) (push_all_managed state arns c).
Proof.
  unfold push_all_managed. revert A c. induction arns as [|a arns IH]; intros A c Hc; simpl.
  - eapply holds_iff; [done| |done]. intros b. rewrite elem_of_nil. tauto.
  - eapply holds_iff; [done| |apply IH; by apply holds_managed].
    intros b. rewrite elem_of_cons. tauto.
Qed.

(** [u] is a member of [g]. *)
Definition member (u : string) (g : IamGroup) : Prop := u ∈ ig_members g.

Lemma holds_groups state u I A c gs :
  holds state I A c ->
  holds state (fun d => I d \/ exists g, g ∈ gs /\ member u g /\ inline_doc (ig_inline_policies g) d)
    (fun a => A a \/ exists g, g ∈ gs /\ member u g /\ a ∈ ig_attached_policies g)
    (foldl (push_group state u) c gs).
Proof.
  revert I A c. induction gs as [|g gs IH]; intros I A c Hc; simpl.
  { eapply holds_iff; [| |done]; intros x; setoid_rewrite elem_of_nil; naive_solver. }
  unfold push_group at 2.
  assert (Hm : existsb (fun m => String.eqb m u) (ig_members g) = true <-> member u g).
  { unfold member. rewrite existsb_exists. split.
    - intros (m & Hin & ->%String.eqb_eq). by apply list_elem_of_In.
    - intros Hin. exists u. split; [by apply list_elem_of_In|apply String.eqb_refl]. }
  destruct (existsb _ _); simpl.
  - assert (member u g) by (by apply Hm).
    eapply holds_iff; [| |apply IH, holds_all_managed, holds_inline, Hc];
      intros x; setoid_rewrite elem_of_cons; naive_solver.
  - assert (~ member u g) by (by intros ?%Hm).
    eapply holds_iff; [| |apply IH, Hc]; intros x; setoid_rewrite elem_of_cons; naive_solver.
Qed.

(** The inline documents and managed policies of a user, group memberships
    included, and of a role. *)
Definition user_inline (state : IamState) (u : string) (d : PolicyDocument) : Prop :=
  (exists m, user_inline_policies state !! u = Some m /\ inline_doc m d)
  \/ exists n g, groups state !! n = Some g /\ member u g /\ inline_doc (ig_inline_policies g) d.

Definition user_managed (state : IamState) (u a : string) : Prop :=
  (exists arns, user_policies state !! u = Some arns /\ a ∈ arns)
  \/ exists n g, groups state !! n = Some g /\ member u g /\ a ∈ ig_attached_policies g.

Definition role_inline (state : IamState) (r : string) (d : PolicyDocument) : Prop :=
  exists m, role_inline_policies state !! r = Some m /\ inline_doc m d.

Definition role_managed (state : IamState) (r a : string) : Prop :=
  exists arns, role_policies state !! r = Some arns /\ a ∈ arns.

Lemma holds_inline_opt state I A (o : option (gmap string string)) c :
  holds state I A c ->
  holds state (fun d => I d \/ exists m, o = Some m /\ inline_doc m d) A
    (match o with Some m => push_inline m c | None => c end).
Proof.
  intros Hc. destruct o as [m|].
  - eapply holds_iff; [|done|by apply holds_inline]. intros d. naive_solver.
  - eapply holds_iff; [|done|done]. intros d. naive_solver.
Qed.

Lemma holds_managed_opt state I A (o : option (list string)) c :
  holds state I A c ->
  holds state I (fun a => A a \/ exists l, o = Some l /\ a ∈ l)
    (match o with Some l => push_all_managed state l c | None => c end).
Proof.
  intros Hc. destruct o as [l|].
  - eapply holds_iff; [done| |by apply holds_all_managed]. intros d. naive_solver.
  - eapply holds_iff; [done| |done]. intros d. naive_solver.
Qed.

Lemma collect_user_holds state u :
  holds state (user_inline state u) (user_managed state u)
    (collect_user_policies state u {| docs := []; seen_managed := ∅ |}).
Proof.
  eapply holds_iff; [| |apply holds_groups, holds_managed_opt, holds_inline_opt, holds_start];
    intros x; unfold user_inline, user_managed; setoid_rewrite BTree.elem_of_values; naive_solver.
Qed.

Lemma collect_role_holds state r :
  holds state (role_inline state r) (role_managed state r)
    (collect_role_policies state r {| docs := []; seen_managed := ∅ |}).
Proof.
  eapply holds_iff; [| |apply holds_managed_opt, holds_inline_opt, holds_start];
    intros x; unfold role_inline, role_managed; naive_solver.
Qed.

(** Theorem (functional) A principal is evaluated with exactly its policies: a
    user with the inline documents and the default versions of the managed
    policies attached to the user or to any group the user is a member of; a
    role session with those of the role; every other kind of principal, and a
    principal whose ARN carries no name, with none. *)
Theorem collect_identity_policies_spec (state : IamState) (p : Principal) (d : PolicyDocument) :
  d ∈ collect_identity_policies state p
  <-> match principal_type p with
      | TUser => exists u, user_name_from_arn (arn p) = Some u
          /\ (user_inline state u d \/ exists a, user_managed state u a /\ managed_doc state a d)
      | TAssumedRole => exists r, role_name_from_assumed_role_arn (arn p) = Some r
          /\ (role_inline state r d \/ exists a, role_managed state r a /\ managed_doc state a d)
      | _ => False
      end.
Proof.
  unfold collect_identity_policies.
  destruct (principal_type p); try (by rewrite elem_of_nil).
  - destruct (user_name_from_arn (arn p)) as [u|].
    + rewrite (holds_docs _ _ _ _ (collect_user_holds state u)). naive_solver.
    + rewrite elem_of_nil. naive_solver.
  - destruct (role_name_from_assumed_role_arn (arn p)) as [r|].
    + rewrite (holds_docs _ _ _ _ (collect_role_holds state r)). naive_solver.
    + rewrite elem_of_nil. naive_solver.
Qed.

(** ** Boundaries *)

Lemma decision_to_core_Allow d : decision_to_core d = IamAllow <-> d = Allow.
Proof. by destruct d. Qed.

Lemma evaluate_inner_nil rq r : evaluate_inner [] rq r = ImplicitDeny.
Proof. done. Qed.

(** Theorem (safety) A dangling permission boundary denies everything: when the
    boundary ARN set on a user or role resolves to no policy, the principal's
    own policies allow no action at all, whatever they grant. *)
Theorem dangling_boundary_denies (s : IamPolicyEvaluatorImpl) (p : Principal)
  (state : IamState) (a : string)
  (Hstate : get_account (ev_state s) (account_id p) = Some state)
  (Hroot : is_root p = false)
  (Hboundary : boundary_arn state p = Some a)
  (Hdangling : managed_policy_default_document state a = None) :
  forall action ctx session scps, ev_evaluate s p action ctx session scps <> IamAllow.
Proof.
  intros action ctx session scps Hallow. cbn [ev_evaluate iam_policy_evaluator] in Hallow.
  unfold impl_evaluate in Hallow. rewrite Hstate in Hallow.
  apply decision_to_core_Allow in Hallow.
  apply intersect_Allow in Hallow as (_ & Hb & _).
  specialize (Hb []). unfold collect_boundary_policies in Hb.
  rewrite Hroot, Hboundary in Hb. cbn [mbind option_bind] in Hb. rewrite Hdangling in Hb.
  by specialize (Hb eq_refl).
Qed.

(** ** Anonymous callers *)

(** A principal element open to a caller without identity: the wildcard, or
    an entry that is itself empty. *)
Definition public_ref (r : PrincipalRef) : Prop :=
  r = AnyAws \/ r = AwsArn "" \/ r = AwsAccountRoot "".

Definition public_principal (pp : PrincipalPattern) : Prop :=
  match pp with
  | NoPrincipal => False
  | PrincipalIs refs => Exists public_ref refs
  | PrincipalIsNot refs => refs <> [] /\ ~ Exists public_ref refs
  end.

Lemma anonymous_ref r :
  principal_ref_matches false anonymous_principal r = true <-> public_ref r.
Proof.
  unfold public_ref. destruct r as [|account|a|service|provider|id]; simpl.
  - tauto.
  - rewrite String.eqb_eq. split; [intros <-; tauto|]. intros [?|[?|?]]; congruence.
  - rewrite String.eqb_eq. split; [intros <-; tauto|]. intros [?|[?|?]]; congruence.
  - split; [done|]. intros [?|[?|?]]; congruence.
  - split; [done|]. intros [?|[?|?]]; congruence.
  - unfold principal_is_canonical_user. destruct id as [|c id]; simpl.
    + split; [done|]. intros [?|[?|?]]; congruence.
    + unfold eq_ignore_ascii_case. simpl. rewrite andb_false_r.
      split; [done|]. intros [?|[?|?]]; congruence.
Qed.

Lemma anonymous_refs refs :
  principal_matches_scoped refs anonymous_principal false = true <-> Exists public_ref refs.
Proof.
  unfold principal_matches_scoped. rewrite existsb_exists, Exists_exists.
  setoid_rewrite list_elem_of_In. by setoid_rewrite anonymous_ref.
Qed.

Lemma anonymous_gate s :
  principal_gate s anonymous_principal true false = true <-> public_principal (st_principal s).
Proof.
  unfold principal_gate, public_principal. destruct (st_principal s) as [|refs|refs]; [done| |].
  - apply anonymous_refs.
  - destruct refs as [|r refs]; [naive_solver|]. rewrite negb_true_iff, <- not_true_iff_false.
    unfold principal_matches. rewrite anonymous_refs. naive_solver.
Qed.

(** Theorem (safety) Anonymous requests: an unsigned request is allowed only
    when the resource has a policy with an applicable Allow whose principal
    is open to everyone, and no applicable Deny. Open to everyone means: a
    Principal containing the wildcard (or an empty entry), or a NotPrincipal
    that does not; an account, a service, a canonical user or a named ARN
    never opens a resource to anonymous callers. *)
Theorem anonymous_needs_public_statement (s : IamPolicyEvaluatorImpl) (action : IamAction)
  (ctx : ConditionContext) (resource_policy : option string)
  (Hallow : ev_anonymous s action ctx resource_policy = IamAllow) :
  exists json, resource_policy = Some json
  /\ (exists st, st ∈ statements (document_parse json) /\ st_effect st = EAllow
       /\ public_principal (st_principal st)
       /\ action_matches (st_action st) (action_string action) = true
       /\ resource_matches st (ia_resource action) ctx = true
       /\ condition_gate st ctx = true)
  /\ (forall st, st ∈ statements (document_parse json) -> st_effect st = EDeny ->
       public_principal (st_principal st) ->
       action_matches (st_action st) (action_string action) = true ->
       resource_matches st (ia_resource action) ctx = true ->
       condition_gate st ctx = false).
Proof.
  cbn [ev_anonymous iam_policy_evaluator] in Hallow. unfold impl_anonymous in Hallow.
  destruct resource_policy as [json|]; [|done]. exists json. split; [done|].
  apply decision_to_core_Allow, inner_Allow in Hallow as [Hno Hyes]. split.
  - destruct Hyes as (d & st & ->%list_elem_of_singleton & Hst & He & Ha).
    unfold statement_applies in Ha. rewrite !andb_true_iff in Ha.
    destruct Ha as [[[Hp Hact] Hres] Hc]. exists st. apply anonymous_gate in Hp. by split_and!.
  - intros st Hst He Hp Hact Hres. apply not_true_iff_false. intros Hc. apply Hno.
    exists (document_parse json), st. split_and!; [by left|done|done|].
    unfold statement_applies. rewrite !andb_true_iff. apply anonymous_gate in Hp. by split_and!.
Qed.

(** ** PassRole *)

(** Theorem (error) The PassRole validator rejects exactly the roles it knows
    and whose trust policy does not admit the service: an ARN that is not a
    role ARN, an unknown account and an unknown role are accepted, and so is
    a known role whose document parses and has an admitting statement;
    [RoleNotFound] is never returned. *)
Theorem validate_spec (v : IamRoleTrustValidator) (account role_arn service_principal : string) :
  let known role := exists name state, role_name_from_arn role_arn = Some name
    /\ get_account (tv_state v) account = Some state /\ roles state !! name = Some role in
  match rt_validate v account role_arn service_principal with
  | Ok _ => forall role, known role ->
      exists j, json_from_str (ir_assume_role_policy_document role) = Some j
        /\ trust_policy_allows j service_principal = true
  | Err (InvalidTrustPolicy a) => a = role_arn /\ exists role, known role
      /\ json_from_str (ir_assume_role_policy_document role) = None
  | Err (TrustPolicyDenies a svc) => a = role_arn /\ svc = service_principal
      /\ exists role j, known role
           /\ json_from_str (ir_assume_role_policy_document role) = Some j
           /\ trust_policy_allows j service_principal = false
  | Err (RoleNotFound _) => False
  end.
Proof.
  intros known. cbn [rt_validate iam_role_trust_validator]. unfold validate.
  destruct (role_name_from_arn role_arn) as [name|] eqn:E1;
    [|intros role (n & st & [=] & _)].
  destruct (get_account (tv_state v) account) as [state|] eqn:E2;
    [|intros role (n & st & _ & [=] & _)].
  destruct (roles state !! name) as [role|] eqn:E3;
    [|intros role (n & st & [= <-] & [= <-] & ?); congruence].
  assert (Hk : known role) by (by exists name, state).
  assert (Hu : forall role', known role' -> role' = role)
    by (intros role' (n & st & [= <-] & [= <-] & ?); congruence).
  destruct (json_from_str _) as [j|] eqn:Ej; cbn [ok_or mbind result_bind]; [|eauto].
  destruct (trust_policy_allows j service_principal) eqn:Et; [|eauto 10].
  intros role' Hr. apply Hu in Hr as ->. eauto.
Qed.

End Theory.

(** ** Two readers of role ARNs *)

(** Theorem (equivalence) The PassRole validator and the STS resource-policy
    provider read role ARNs the same way: for the ARN of a role in any
    partition and under any path, both look up the bare role name, the
    provider in the account the ARN names, so an AssumeRole request is
    evaluated against the very trust policy PassRole validates. *)
Theorem role_lookup_agrees (s : StsResourcePolicyProvider) (rg account path name : string)
  (Hpath : iam_path path) (Hcolon : no_char ":" (path +:+ name) = true)
  (Hslash : no_char "/" name = true) (Haccount : no_char ":" account = true) :
  let role_arn := Arn.to_string (Arn.global_in rg "iam" account ("role" +:+ path +:+ name)) in
  role_name_from_arn role_arn = Some name
  /\ rp_policy s "sts" role_arn =
       (state ← get_account (sts_state s) account;
        role ← roles state !! name;
        Some (ir_assume_role_policy_document role)).
Proof.
  intros role_arn. pose proof (last_segment_path path name Hpath Hslash) as Hlast.
  destruct Hpath as (dirs & -> & _). cbn [string_drop] in Hlast.
  pose proof (Arn.partition_no_colon rg) as Hpart.
  assert (E : role_arn = "arn" +:+ String ":" (Arn.partition_for rg +:+ String ":"
    ("iam" +:+ String ":" ("" +:+ String ":" (account +:+ String ":" ("role/" +:+ (dirs +:+ name)))))))
    by reflexivity.
  rewrite E. split.
  - unfold role_name_from_arn.
    change (strip_prefix "arn:" ("arn" +:+ String ":" ?x)) with (Some x). cbn [mbind option_bind].
    unfold split_once. rewrite split_sep_app by done. cbn [mbind option_bind].
    change (strip_prefix "iam::" ("iam" +:+ String ":" ("" +:+ String ":" ?x))) with (Some x).
    cbn [mbind option_bind]. rewrite split_sep_app by done. cbn [mbind option_bind].
    change (strip_prefix "role/" ("role/" +:+ ?x)) with (Some x). cbn [mbind option_bind].
    by rewrite Hlast.
  - cbn [rp_policy sts_provider]. unfold sts_resource_policy.
    rewrite !split_char_app by done. rewrite (split_char_no ":" ("role/" +:+ _)) by done.
    cbn -[String.append last_segment strip_prefix].
    change (strip_prefix "role/" ("role/" +:+ ?x)) with (Some x). cbn [mbind option_bind].
    by rewrite Hlast.
Qed.

(** ** Witnesses *)

Definition no_catalog : ManagedCatalog := {| catalog := [] |}.

(** An account in which alice has a boundary that does not exist. *)
Definition alice_account : IamState :=
  {| users := {[ "alice"%string := {| iu_user_name := "alice"; iu_user_id := "AIDAALICE";
       iu_arn := "arn:aws:iam::111111111111:user/alice"; iu_path := "/"; iu_created_at := 0;
       iu_tags := []; iu_permissions_boundary := Some "arn:aws:iam::111111111111:policy/gone"%string |} ]};
     roles := {[ "app"%string := {| ir_role_name := "app"; ir_role_id := "AROAAPP";
       ir_arn := "arn:aws:iam::111111111111:role/team/app"; ir_path := "/team/";
       ir_assume_role_policy_document := "trust"; ir_created_at := 0; ir_description := None;
       ir_max_session_duration := 3600; ir_tags := []; ir_permissions_boundary := None |} ]};
     policies := ∅; role_policies := ∅; role_inline_policies := ∅;
     user_policies := ∅; user_inline_policies := ∅; groups := ∅ |}.

Definition shared_iam : SharedIamState :=
  mkMAS "111111111111" "us-east-1" "" {[ "111111111111"%string := alice_account ]}.

Definition get_object : IamAction :=
  {| ia_service := "s3"; ia_action := "GetObject"; ia_resource := "arn:aws:s3:::b/k" |}.

Lemma dangling_boundary_denies_witness :
  @ev_evaluate _ (@iam_policy_evaluator null_serde null_chrono no_catalog)
    {| ev_state := shared_iam |} alice get_object empty_context [] None <> IamAllow.
Proof.
  apply (@dangling_boundary_denies null_serde null_chrono no_catalog
           {| ev_state := shared_iam |} alice alice_account
           "arn:aws:iam::111111111111:policy/gone"); vm_compute; reflexivity.
Defined.

Lemma role_lookup_agrees_witness :
  @rp_policy _ sts_provider {| sts_state := shared_iam |} "sts"
    "arn:aws:iam::111111111111:role/team/app" = Some "trust"%string.
Proof.
  apply (role_lookup_agrees {| sts_state := shared_iam |} "us-east-1" "111111111111" "/team/" "app");
    [|reflexivity..].
  exists "team/"%string. split; [reflexivity|]. right. exists "team"%string. reflexivity.
Defined.

(** A parser that knows one policy: Allow to everyone but one account. *)
Definition not_principal_policy : Value :=
  document_value [VObject
    [("Effect", VString "Allow"); ("NotPrincipal", VObject [("AWS", VString "222222222222")]);
     ("Action", VString "s3:GetObject"); ("Resource", VString "*")]]%string.

Definition one_policy_serde : SerdeJson :=
  {| json_from_str := fun _ => Some not_principal_policy;
     json_float_to_string := fun _ => EmptyString |}.

(** Theorem (functional) A resource policy without any wildcard principal can
    open a resource to anonymous callers: an Allow whose NotPrincipal names
    one account is granted to an unsigned request, while the documentation
    of [evaluate_anonymous] says only a wildcard principal can. *)
Theorem not_principal_admits_anonymous (s : IamPolicyEvaluatorImpl) (json : string) :
  let public d := exists st refs, st ∈ statements d /\ st_principal st = PrincipalIs refs
                    /\ AnyAws ∈ refs in
  ~ public (@document_parse one_policy_serde json)
  /\ @ev_anonymous _ (@iam_policy_evaluator one_policy_serde null_chrono no_catalog) s
       get_object empty_context (Some json) = IamAllow.
Proof.
  split; [|vm_compute; reflexivity].
  intros (st & refs & Hst & Hp & _). vm_compute in Hst.
  apply list_elem_of_singleton in Hst as ->. discriminate.
Qed.

Lemma anonymous_needs_public_statement_witness :
  exists st, st ∈ statements (@document_parse one_policy_serde "policy")
    /\ public_principal (st_principal st).
Proof.
  destruct (@anonymous_needs_public_statement one_policy_serde null_chrono no_catalog
    {| ev_state := shared_iam |} get_object empty_context (Some "policy"%string))
    as (j & [= <-] & (st & Hst & _ & Hp & _) & _).
  - vm_compute. reflexivity.
  - by exists st.
Defined.
