(* ===== verification/Sigv4.v ===== *)
(** * Signature Version 4

    [fakecloud-aws/src/sigv4.rs]: the routing parse of a signed request, the
    full parses of an [Authorization] header and of presigned query
    parameters, canonicalization and verification.  SHA-256, HMAC and hex
    encoding ([sha2], [hmac], [hex]), percent encoding ([percent_encoding])
    and date parsing ([chrono]) are packages: the classes [SigCrypto],
    [PercentCodec] and [AmzDate]. *)

From Stdlib Require Import ZArith Lia Bool String Ascii.
From stdpp Require Import base option list strings gmap sorting.
From S2P Require Import Prelude BTree.

Module Sigv4.

Class SigCrypto := {
  sha256 : list Z -> list Z;
  hmac_sha256 : list Z -> list Z -> list Z;      (* key, data *)
  hex_encode : list Z -> string
}.

(** [utf8_percent_encode] with the set [SIGV4_URI_ENCODE], and
    [percent_decode_str(..).decode_utf8_lossy()]. *)
Class PercentCodec := {
  sigv4_encode : string -> string;
  percent_decode : string -> string
}.

(** [%Y%m%dT%H%M%SZ] as nanoseconds since the epoch. *)
Class AmzDate := { parse_amz_datetime : string -> option Z }.

(** ** Data *)

Record SigV4Info := mkInfo { info_access_key : string; info_region : string; info_service : string }.

Record ParsedSigV4 := mkParsed {
  access_key : string;
  date_stamp : string;
  region : string;
  service : string;
  signed_headers : list string;
  signature : string;
  amz_date : string;
  is_presigned : bool
}.

Definition as_info (p : ParsedSigV4) : SigV4Info := mkInfo (access_key p) (region p) (service p).

Inductive SigV4Error : Type :=
| RequestTimeTooSkewed (signed server : Z)
| Malformed (msg : string)
| SignatureMismatch
| InvalidDate (msg : string)
| PresignedUrlExpired (signed server expires_secs : Z)
| InvalidPresignExpires (expires : Z).

Definition CLOCK_SKEW_SECONDS : Z := 15 * 60.
Definition MAX_PRESIGN_EXPIRES_SECONDS : Z := 7 * 24 * 60 * 60.

Record VerifyRequest := mkVerify {
  vr_method : string;
  vr_path : string;
  vr_query : string;
  vr_headers : list (string * string);
  vr_body : list Z
}.

(** ** Parsing *)

Definition parse_credential_scope (credential : string) : option SigV4Info :=
  match split_char "/" credential with
  | [key; _; rg; svc; last] => if String.eqb last "aws4_request" then Some (mkInfo key rg svc) else None
  | _ => None
  end.

(** The text after the first [Credential=], to the next comma. *)
Definition parse_header_credential (auth_header : string) : option SigV4Info :=
  auth ← strip_prefix "AWS4-HMAC-SHA256 " auth_header;
  '(_, value) ← split_at_needle "Credential=" auth;
  parse_credential_scope
    (match split_at_needle "," value with Some (credential, _) => credential | None => value end).

Definition parse_sigv4 (auth_header : string) : option SigV4Info := parse_header_credential auth_header.

(** One comma-separated field of the header. *)
Definition header_field (acc : option string * option string * option string) (part : string)
  : option string * option string * option string :=
  let '(credential, signed, sig) := acc in
  let part := trim part in
  match strip_prefix "Credential=" part with
  | Some v => (Some v, signed, sig)
  | None =>
      match strip_prefix "SignedHeaders=" part with
      | Some v => (credential, Some v, sig)
      | None =>
          match strip_prefix "Signature=" part with
          | Some v => (credential, signed, Some v)
          | None => acc
          end
      end
  end.

Definition split_signed_headers (s : string) : list string := to_ascii_lowercase <$> split_char ";" s.

Definition parse_sigv4_header (auth_header : string) (date : option string) : option ParsedSigV4 :=
  auth ← strip_prefix "AWS4-HMAC-SHA256 " auth_header;
  let '(credential, signed, sig) := foldl header_field (None, None, None) (split_char "," auth) in
  credential ← credential;
  signed ← signed;
  sig ← sig;
  scope ← parse_credential_scope credential;
  stamp ← split_char "/" credential !! 1;
  let names := split_signed_headers signed in
  if bool_decide (names = []) then None
  else
    date ← date;
    Some (mkParsed (info_access_key scope) stamp (info_region scope) (info_service scope) names sig date
            false).

Definition parse_sigv4_presigned (query : gmap string string) : option ParsedSigV4 :=
  if bool_decide (query !! "X-Amz-Algorithm" = Some "AWS4-HMAC-SHA256")%string then
    credential ← query !! "X-Amz-Credential"%string;
    scope ← parse_credential_scope credential;
    stamp ← split_char "/" credential !! 1;
    signed ← query !! "X-Amz-SignedHeaders"%string;
    sig ← query !! "X-Amz-Signature"%string;
    date ← query !! "X-Amz-Date"%string;
    Some (mkParsed (info_access_key scope) stamp (info_region scope) (info_service scope)
            (split_signed_headers signed) sig date true)
  else None.

(** The lifetime of a presigned URL: the first [X-Amz-Expires] pair. *)
Definition presigned_expires_secs (query : string) : Result SigV4Error Z :=
  let expires pair :=
    match split_at_needle "=" pair with
    | Some (k, v) => if String.eqb k "X-Amz-Expires" then Some v else None
    | None => None
    end in
  match omap expires (split_char "&" query) with
  | v :: _ =>
      match parse_i64 v with
      | Some n => Ok n
      | None => Err (Malformed "missing or invalid X-Amz-Expires")
      end
  | [] => Err (Malformed "missing or invalid X-Amz-Expires")
  end.

(** [headers_from_http]; a value that is not visible text is [None]. *)
Definition headers_from_http (headers : list (string * option string)) : list (string * string) :=
  let grouped :=
    foldl (fun out (h : string * option string) =>
             match h.2 with
             | Some v =>
                 let key := to_ascii_lowercase h.1 in
                 <[key := default [] (out !! key) ++ [v]]> out
             | None => out
             end) (∅ : gmap string (list string)) headers in
  (fun kv : string * list string => (kv.1, String.concat ", " kv.2)) <$> BTree.iter grouped.

(** ** Canonicalization *)

Definition ascii_upper (c : ascii) : ascii :=
  if (97 <=? char_code c)%N && (char_code c <=? 122)%N then ascii_of_N (char_code c - 32) else c.

Definition to_ascii_uppercase (s : string) : string := string_map ascii_upper s.

Definition is_blank (c : ascii) : bool := Ascii.eqb c " " || Ascii.eqb c "009".

(** Runs of blanks become one space. *)
Fixpoint collapse_runs (in_ws : bool) (s : string) : string :=
  match s with
  | EmptyString => EmptyString
  | String c s =>
      if is_blank c then
        if in_ws then collapse_runs true s else String " " (collapse_runs true s)
      else String c (collapse_runs false s)
  end.

Definition collapse_ws (v : string) : string := collapse_runs false (trim v).

(** Pairs of strings, ordered as Rust orders tuples. *)
Definition pair_le (a b : string * string) : Prop :=
  BTree.str_leb a.1 b.1 = true /\ (a.1 = b.1 -> BTree.str_leb a.2 b.2 = true).

#[global] Instance pair_le_dec : RelDecision pair_le.
Proof. intros a b. unfold pair_le. apply _. Defined.

Section Canonical.
Context `{PercentCodec}.

(** Once for S3, twice elsewhere. *)
Definition encode_segment (svc seg : string) : string :=
  let once := sigv4_encode (percent_decode seg) in
  if String.eqb svc "s3" then once else sigv4_encode once.

Definition canonical_uri (path svc : string) : string :=
  if is_empty_str path then "/"
  else String.concat "/" (encode_segment svc <$> split_char "/" path).

Definition canonical_pair (presigned : bool) (kv : string) : option (string * string) :=
  if is_empty_str kv then None
  else
    let '(k, v) := match split_at_needle "=" kv with Some p => p | None => (kv, EmptyString) end in
    if presigned && String.eqb (percent_decode k) "X-Amz-Signature" then None
    else Some (sigv4_encode (percent_decode k), sigv4_encode (percent_decode v)).

Definition query_pairs (query : string) (presigned : bool) : list (string * string) :=
  omap (canonical_pair presigned) (split_char "&" query).

Definition render_pair (p : string * string) : string := p.1 +:+ "=" +:+ p.2.

Definition canonical_query (query : string) (presigned : bool) : string :=
  if is_empty_str query then EmptyString
  else String.concat "&" (render_pair <$> merge_sort pair_le (query_pairs query presigned)).

(** The header map: later values of a name replace earlier ones. *)
Definition canonical_header_map (headers : list (string * string)) : gmap string string :=
  foldl (fun m (h : string * string) => <[to_ascii_lowercase h.1 := collapse_ws h.2]> m) ∅ headers.

Fixpoint canonical_headers (m : gmap string string) (names : list string) : Result SigV4Error string :=
  match names with
  | [] => Ok EmptyString
  | name :: names =>
      value ← ok_or (Malformed "signed header not present in request") (m !! name);
      rest ← canonical_headers m names;
      Ok (name +:+ ":" +:+ value +:+ String "010" rest)
  end.

Context `{SigCrypto}.

Definition payload_hash (p : ParsedSigV4) (m : gmap string string) (body : list Z) : string :=
  match m !! "x-amz-content-sha256"%string with
  | Some h => h
  | None => if is_presigned p then "UNSIGNED-PAYLOAD" else hex_encode (sha256 body)
  end.

(** Six lines, the headers' own lines inside the fourth. *)
Definition newline : string := String "010" EmptyString.

Definition build_canonical_request (p : ParsedSigV4) (req : VerifyRequest) : Result SigV4Error string :=
  let m := canonical_header_map (vr_headers req) in
  hs ← canonical_headers m (signed_headers p);
  Ok (String.concat newline
        [to_ascii_uppercase (vr_method req); canonical_uri (vr_path req) (service p);
         canonical_query (vr_query req) (is_presigned p); hs;
         String.concat ";" (signed_headers p); payload_hash p m (vr_body req)]).

(** ** Verification *)

Definition derive_signing_key (secret date rg svc : string) : list Z :=
  let k_date := hmac_sha256 (as_bytes ("AWS4" +:+ secret)) (as_bytes date) in
  let k_region := hmac_sha256 k_date (as_bytes rg) in
  let k_service := hmac_sha256 k_region (as_bytes svc) in
  hmac_sha256 k_service (as_bytes "aws4_request").

Definition sign_string (secret stamp rg svc string_to_sign : string) : string :=
  hex_encode (hmac_sha256 (derive_signing_key secret stamp rg svc) (as_bytes string_to_sign)).

Definition verify_signature (secret stamp rg svc string_to_sign provided : string) : bool :=
  String.eqb (sign_string secret stamp rg svc string_to_sign) (to_ascii_lowercase provided).

Definition string_to_sign (p : ParsedSigV4) (canonical : string) : string :=
  String.concat newline
    ["AWS4-HMAC-SHA256"%string; amz_date p;
     date_stamp p +:+ "/" +:+ region p +:+ "/" +:+ service p +:+ "/aws4_request";
     hex_encode (sha256 (as_bytes canonical))].

Context `{AmzDate}.

Definition parse_amz_date (s : string) : Result SigV4Error Z :=
  ok_or (InvalidDate "expected YYYYMMDDTHHMMSSZ") (parse_amz_datetime s).

(** [(a - b).num_seconds()]: whole seconds, towards zero. *)
Definition seconds_between (a b : Z) : Z := Z.quot (a - b) 1000000000.

Definition check_time (p : ParsedSigV4) (query : string) (signed_at now : Z) : Result SigV4Error unit :=
  if is_presigned p then
    expires ← presigned_expires_secs query;
    if negb ((1 <=? expires)%Z && (expires <=? MAX_PRESIGN_EXPIRES_SECONDS)%Z)
    then Err (InvalidPresignExpires expires)
    else
      let age := seconds_between now signed_at in
      if (age <? - CLOCK_SKEW_SECONDS)%Z || (expires <? age)%Z
      then Err (PresignedUrlExpired signed_at now expires) else Ok tt
  else
    if (CLOCK_SKEW_SECONDS <? Z.abs (seconds_between now signed_at))%Z
    then Err (RequestTimeTooSkewed signed_at now) else Ok tt.

Definition expected_signature (p : ParsedSigV4) (secret canonical : string) : string :=
  hex_encode (hmac_sha256 (derive_signing_key secret (date_stamp p) (region p) (service p))
                (as_bytes (string_to_sign p canonical))).

Definition verify (p : ParsedSigV4) (req : VerifyRequest) (secret : string) (now : Z)
  : Result SigV4Error unit :=
  signed_at ← parse_amz_date (amz_date p);
  _ ← check_time p (vr_query req) signed_at now;
  canonical ← build_canonical_request p req;
  if String.eqb (expected_signature p secret canonical) (signature p) then Ok tt
  else Err SignatureMismatch.

End Canonical.

End Sigv4.
