(* ===== verification/Sigv4Theory.v ===== *)
(** * What a verified signature proves

    Theorems about [Sigv4]: when [verify] accepts, which requests share a
    canonical query string, and what two requests accepted under one signature
    have in common. *)

From Stdlib Require Import ZArith Lia Bool String Ascii.
From stdpp Require Import base option list strings gmap sorting.
From S2P Require Import Prelude BTree Sigv4.
Import Sigv4.

(** ** Joined strings

    A join on a separator that no piece contains is undone by [split_char]. *)

Lemma join_inj d (l k : list string) :
  l <> [] -> k <> [] ->
  Forall (fun s => no_char d s = true) l -> Forall (fun s => no_char d s = true) k ->
  String.concat (String d EmptyString) l = String.concat (String d EmptyString) k -> l = k.
Proof.
  intros Hl Hk Fl Fk Heq. apply (f_equal (split_char d)) in Heq. by rewrite !split_char_join in Heq.
Qed.

Lemma no_char_one d c : c <> d -> no_char d (String c EmptyString) = true.
Proof. intros Hc. by apply no_char_cons. Qed.

Lemma split_char_head d s : split_char d (String d s) = EmptyString :: split_char d s.
Proof. by apply (split_char_app d EmptyString). Qed.

(** Two texts cut at their last separator. *)
Lemma last_sep_inj d a1 b1 a2 b2 :
  no_char d b1 = true -> no_char d b2 = true ->
  a1 +:+ String d b1 = a2 +:+ String d b2 -> a1 = a2 /\ b1 = b2.
Proof.
  intros H1 H2 Heq. assert (Hb : b1 = b2).
  { apply (f_equal (last_segment d)) in Heq. by rewrite !last_segment_app in Heq. }
  subst b2. split; [|done]. by eapply append_inj_r.
Qed.

(** ** Acceptance *)

Section Accept.
Context `{PercentCodec} `{SigCrypto} `{AmzDate}.

(** The time window of a request: fixed around the signing time for a header
    signature, the URL's own lifetime for a presigned one. *)
Definition in_window (p : ParsedSigV4) (query : string) (signed_at now : Z) : Prop :=
  let age := seconds_between now signed_at in
  if is_presigned p then
    exists n, presigned_expires_secs query = Ok n /\
      (1 <= n <= MAX_PRESIGN_EXPIRES_SECONDS)%Z /\ (- CLOCK_SKEW_SECONDS <= age <= n)%Z
  else (- CLOCK_SKEW_SECONDS <= age <= CLOCK_SKEW_SECONDS)%Z.

Lemma check_time_Ok p query signed_at now :
  check_time p query signed_at now = Ok tt <-> in_window p query signed_at now.
Proof.
  unfold check_time, in_window. destruct (is_presigned p).
  - destruct (presigned_expires_secs query) as [n|e]; simpl; [|naive_solver].
    destruct (Z.leb_spec 1 n), (Z.leb_spec n MAX_PRESIGN_EXPIRES_SECONDS); simpl;
      try (split; [done|intros (m & [= <-] & ?); lia]).
    destruct (Z.ltb_spec (seconds_between now signed_at) (- CLOCK_SKEW_SECONDS)),
      (Z.ltb_spec n (seconds_between now signed_at)); simpl;
      try (split; [done|intros (m & [= <-] & ?); lia]).
    split; [|done]. intros _. exists n. split; [done|lia].
  - unfold CLOCK_SKEW_SECONDS. destruct (Z.ltb_spec (15 * 60) (Z.abs (seconds_between now signed_at)));
      split; try done; lia.
Qed.

Lemma canonical_headers_Ok m names :
  is_ok (canonical_headers m names) = true <-> Forall (fun n => is_Some (m !! n)) names.
Proof.
  induction names as [|n names IH]; simpl; [by rewrite Forall_nil|]. rewrite Forall_cons, <- IH.
  destruct (m !! n) as [v|] eqn:E; simpl.
  - destruct (canonical_headers m names); simpl; naive_solver.
  - split; [done|]. intros [[? ?] _]. done.
Qed.

Lemma build_canonical_request_Ok p req :
  is_ok (build_canonical_request p req) = true <->
  Forall (fun n => is_Some (canonical_header_map (vr_headers req) !! n)) (signed_headers p).
Proof.
  rewrite <- canonical_headers_Ok. unfold build_canonical_request.
  by destruct (canonical_headers _ _).
Qed.

Lemma verify_accepts p req secret now :
  verify p req secret now = Ok tt ->
  exists signed_at canonical,
    parse_amz_datetime (amz_date p) = Some signed_at /\
    in_window p (vr_query req) signed_at now /\
    build_canonical_request p req = Ok canonical /\
    signature p = expected_signature p secret canonical.
Proof.
  unfold verify, parse_amz_date. intros (t & Ht%ok_or_Ok & Hv)%bind_Ok.
  apply bind_Ok in Hv as ([] & Hw%check_time_Ok & Hv).
  apply bind_Ok in Hv as (canonical & Hc & Hv). exists t, canonical.
  destruct (String.eqb_spec (expected_signature p secret canonical) (signature p)); done.
Qed.

(** Theorem (functional): a signature is accepted exactly when its date parses, the
    request is inside its time window, its canonical request can be built, and the
    signature is the one computed from the canonical request under the
    caller's secret. *)
Theorem verify_spec p req secret now :
  verify p req secret now = Ok tt <->
  exists signed_at canonical,
    parse_amz_datetime (amz_date p) = Some signed_at /\
    in_window p (vr_query req) signed_at now /\
    build_canonical_request p req = Ok canonical /\
    signature p = expected_signature p secret canonical.
Proof.
  split; [apply verify_accepts|].
  intros (t & canonical & Ht & Hw%check_time_Ok & Hc & Hs). unfold verify, parse_amz_date.
  rewrite Ht. simpl. rewrite Hw. simpl. rewrite Hc. simpl. by rewrite Hs, String.eqb_refl.
Qed.

End Accept.

(** ** The canonical query string *)

#[global] Instance pair_le_total : Total pair_le.
Proof.
  intros [a1 a2] [b1 b2]. unfold pair_le. simpl.
  destruct (String.string_dec a1 b1) as [<-|Hne].
  - destruct (BTree.str_le_total a2 b2) as [?|?]; [left|right]; (split; [|done]);
      destruct (BTree.str_le_total a1 a1); done.
  - destruct (BTree.str_le_total a1 b1) as [?|?]; [left|right]; (split; [done|]); congruence.
Qed.

#[global] Instance pair_le_trans : Transitive pair_le.
Proof.
  intros [a1 a2] [b1 b2] [c1 c2] [H1 H2] [H3 H4]. simpl in *. split; simpl.
  - by apply (BTree.str_le_trans a1 b1 c1).
  - intros <-. assert (a1 = b1) as <- by by apply (BTree.str_le_antisymm a1 b1).
    apply (BTree.str_le_trans a2 b2 c2); [by apply H2|by apply H4].
Qed.

#[global] Instance pair_le_antisymm : AntiSymm eq pair_le.
Proof.
  intros [a1 a2] [b1 b2] [H1 H2] [H3 H4]. simpl in *.
  assert (a1 = b1) as <- by by apply (BTree.str_le_antisymm a1 b1).
  f_equal. apply (BTree.str_le_antisymm a2 b2); [by apply H2|by apply H4].
Qed.

(** The unreserved characters, all that [SIGV4_URI_ENCODE] leaves besides the
    escape sign. *)
Definition encoded_char (c : ascii) : bool :=
  is_ascii_alphanumeric c || existsb (Ascii.eqb c) ["-"; "_"; "."; "~"; "%"]%char.

Lemma encoded_no_char d s :
  encoded_char d = false -> string_forallb encoded_char s = true -> no_char d s = true.
Proof.
  intros Hd. apply string_forallb_impl. intros c Hc. rewrite negb_true_iff.
  destruct (Ascii.eqb_spec c d); congruence.
Qed.

Section Query.
Context `{PercentCodec}.

(** The [percent_encoding] crate: only unreserved characters and escapes are
    written, and decoding undoes encoding. *)
Hypothesis encode_clean : forall s, string_forallb encoded_char (sigv4_encode s) = true.
Hypothesis decode_encode : forall s, percent_decode (sigv4_encode s) = s.

Lemma sigv4_encode_inj s t : sigv4_encode s = sigv4_encode t -> s = t.
Proof. intros Heq. by rewrite <- (decode_encode s), Heq, decode_encode. Qed.

(** The parameters of a query string: decoded names and values, the signature
    of a presigned URL left out. *)
Definition decoded_param (presigned : bool) (kv : string) : option (string * string) :=
  if is_empty_str kv then None
  else
    let '(k, v) := match split_at_needle "=" kv with Some p => p | None => (kv, EmptyString) end in
    if presigned && String.eqb (percent_decode k) "X-Amz-Signature" then None
    else Some (percent_decode k, percent_decode v).

Definition query_params (query : string) (presigned : bool) : list (string * string) :=
  omap (decoded_param presigned) (split_char "&" query).

Lemma query_pairs_params query presigned :
  query_pairs query presigned = prod_map sigv4_encode sigv4_encode <$> query_params query presigned.
Proof.
  unfold query_pairs, query_params. induction (split_char "&" query) as [|kv l IH]; [done|].
  cbn [omap list_omap]. unfold canonical_pair at 1, decoded_param at 1.
  destruct (is_empty_str kv); [done|].
  destruct (match split_at_needle "=" kv with Some p => p | None => (kv, EmptyString) end) as [k v].
  destruct (presigned && _); [done|]. rewrite fmap_cons. by f_equal.
Qed.

Lemma query_pairs_clean query presigned :
  Forall (fun p => string_forallb encoded_char p.1 = true /\ string_forallb encoded_char p.2 = true)
    (query_pairs query presigned).
Proof.
  rewrite query_pairs_params. apply Forall_fmap, Forall_true. intros p. by split; apply encode_clean.
Qed.

Lemma render_pair_inj p q :
  string_forallb encoded_char p.1 = true -> string_forallb encoded_char q.1 = true ->
  render_pair p = render_pair q -> p = q.
Proof.
  destruct p as [k1 v1], q as [k2 v2]. unfold render_pair. simpl. intros H1 H2 Heq.
  assert (Hsplit : Some (k1, v1) = Some (k2, v2)); [|congruence].
  rewrite <- (split_sep_app "=" k1 v1), <- (split_sep_app "=" k2 v2) by (by apply encoded_no_char).
  simpl in Heq. by rewrite Heq.
Qed.

Lemma render_pair_no_amp p :
  string_forallb encoded_char p.1 = true -> string_forallb encoded_char p.2 = true ->
  no_char "&" (render_pair p) = true.
Proof.
  intros H1 H2. unfold render_pair. rewrite !no_char_app.
  rewrite (encoded_no_char "&" p.1), (encoded_no_char "&" p.2) by done. done.
Qed.

Lemma join_pairs_inj l k :
  Forall (fun p => string_forallb encoded_char p.1 = true /\ string_forallb encoded_char p.2 = true) l ->
  Forall (fun p => string_forallb encoded_char p.1 = true /\ string_forallb encoded_char p.2 = true) k ->
  String.concat "&" (render_pair <$> l) = String.concat "&" (render_pair <$> k) -> l = k.
Proof.
  assert (Hne : forall (p : string * string) r, String.concat "&" (render_pair <$> p :: r) <> EmptyString).
  { intros [u v] r. unfold render_pair. destruct r, u; simpl; done. }
  intros Hl Hk Heq. destruct l as [|p l], k as [|q k]; [done|by destruct (Hne q k)|by destruct (Hne p l)|].
  assert (Hmap : render_pair <$> p :: l = render_pair <$> q :: k).
  { apply (join_inj "&"); try done; apply Forall_fmap; eapply Forall_impl; try done;
      intros ? [? ?]; by apply render_pair_no_amp. }
  clear Heq. revert Hmap. generalize dependent (q :: k). generalize dependent (p :: l). clear p l q k.
  intros l Hl. induction Hl as [|p l [Hp _] Hl IH]; intros [|q k] Hk Heq; try done.
  apply Forall_cons in Hk as [[Hq _] Hk]. injection Heq as Hpq Hlk.
  f_equal; [by apply render_pair_inj|by apply IH].
Qed.

Lemma canonical_query_unfold query presigned :
  canonical_query query presigned =
  String.concat "&" (render_pair <$> merge_sort pair_le (query_pairs query presigned)).
Proof. by destruct query. Qed.

Lemma canonical_query_encoded query presigned d :
  encoded_char d = false -> d <> "="%char -> d <> "&"%char ->
  no_char d (canonical_query query presigned) = true.
Proof.
  intros Hd He Ha. rewrite canonical_query_unfold.
  pose proof (query_pairs_clean query presigned) as Hc.
  rewrite <- (merge_sort_Permutation pair_le (query_pairs query presigned)) in Hc.
  induction Hc as [|p l [H1 H2] Hl IH]; [done|].
  assert (Hp : no_char d (render_pair p) = true).
  { unfold render_pair. rewrite !no_char_app, (encoded_no_char d p.1), (encoded_no_char d p.2) by done.
    by rewrite (no_char_one d "=") by congruence. }
  destruct l as [|q l]; [done|]. rewrite fmap_cons.
  change (String.concat "&" (render_pair p :: (render_pair <$> q :: l)))
    with (render_pair p +:+ ("&" +:+ String.concat "&" (render_pair <$> q :: l))).
  rewrite !no_char_app, Hp, IH. by rewrite (no_char_one d "&") by congruence.
Qed.

Lemma canonical_query_inj q1 q2 b1 b2 :
  canonical_query q1 b1 = canonical_query q2 b2 -> query_params q1 b1 ≡ₚ query_params q2 b2.
Proof.
  rewrite !canonical_query_unfold. intros Heq%join_pairs_inj;
    [|rewrite merge_sort_Permutation; apply query_pairs_clean ..].
  assert (Hp : query_pairs q1 b1 ≡ₚ query_pairs q2 b2).
  { by rewrite <- (merge_sort_Permutation pair_le), Heq, merge_sort_Permutation. }
  rewrite !query_pairs_params in Hp. apply Permutation_map_inv in Hp as (l & Hl & Hp).
  rewrite Hp. apply reflexive_eq.
  apply (list_fmap_eq_inj (prod_map sigv4_encode sigv4_encode)); [|done].
  intros [a b] [c d] [= Ha Hb]. by rewrite (sigv4_encode_inj _ _ Ha), (sigv4_encode_inj _ _ Hb).
Qed.

(** Theorem (equivalence): two query strings have the same canonical form exactly
    when they carry the same decoded parameters with the same multiplicities:
    neither the order of parameters, nor how they are escaped, nor empty
    pieces between separators matter, and nothing else is identified. *)
Theorem canonical_query_exact q1 q2 b1 b2 :
  canonical_query q1 b1 = canonical_query q2 b2 <-> query_params q1 b1 ≡ₚ query_params q2 b2.
Proof.
  split; [apply canonical_query_inj|]. intros Hp. rewrite !canonical_query_unfold. do 2 f_equal.
  apply (StronglySorted_unique pair_le); [apply (StronglySorted_merge_sort _) ..|].
  rewrite !merge_sort_Permutation, !query_pairs_params. by rewrite Hp.
Qed.

End Query.

(** ** What one signature binds *)

(** What HTTP guarantees of a request: a path, a method and header names that
    are tokens, header values of visible text. *)
Record wire_ok (req : VerifyRequest) : Prop := {
  wire_path : vr_path req <> EmptyString;
  wire_method : no_char "010" (vr_method req) = true;
  wire_headers :
    Forall (fun h : string * string =>
              no_char "010" h.1 = true /\ no_char ":" h.1 = true /\ no_char ";" h.1 = true /\
              no_char "010" h.2 = true) (vr_headers req)
}.

Lemma no_char_map f d s :
  (forall c, f c = d -> c = d) -> no_char d s = true -> no_char d (string_map f s) = true.
Proof.
  intros Hf. induction s as [|c s IH]; [done|]. rewrite no_char_cons. intros [Hc Hs]. simpl.
  apply no_char_cons. split; [|by apply IH]. intros Heq. by apply Hc, Hf.
Qed.

(** Case mapping only moves letters. *)
Lemma ascii_lower_reflects c d : is_ascii_lower d = false -> ascii_lower c = d -> c = d.
Proof.
  intros Hd <-. revert Hd.
  destruct c as [[] [] [] [] [] [] [] []]; vm_compute; congruence.
Qed.

Lemma ascii_upper_reflects c d : is_ascii_upper d = false -> ascii_upper c = d -> c = d.
Proof.
  intros Hd <-. revert Hd.
  destruct c as [[] [] [] [] [] [] [] []]; vm_compute; congruence.
Qed.

Lemma no_char_lower d s :
  is_ascii_lower d = false -> no_char d s = true -> no_char d (to_ascii_lowercase s) = true.
Proof. intros Hd. apply no_char_map. intros c. by apply ascii_lower_reflects. Qed.

Lemma no_char_upper d s :
  is_ascii_upper d = false -> no_char d s = true -> no_char d (to_ascii_uppercase s) = true.
Proof. intros Hd. apply no_char_map. intros c. by apply ascii_upper_reflects. Qed.

Lemma no_char_trim_start d s : no_char d s = true -> no_char d (trim_start s) = true.
Proof.
  induction s as [|c s IH]; [done|]. intros Hs. simpl. destruct (is_whitespace c); [|done].
  apply IH. by apply no_char_cons in Hs as [_ ?].
Qed.

Lemma no_char_trim_end d s : no_char d s = true -> no_char d (trim_end s) = true.
Proof.
  induction s as [|c s IH]; [done|]. intros [Hc Hs]%no_char_cons. specialize (IH Hs). simpl.
  destruct (trim_end s) as [|c' t]; [|by apply no_char_cons].
  destruct (is_whitespace c); [done|]. by apply no_char_cons.
Qed.

Lemma no_char_collapse d b s : d <> " "%char -> no_char d s = true -> no_char d (collapse_runs b s) = true.
Proof.
  intros Hd. revert b. induction s as [|c s IH]; intros b Hs; [done|].
  apply no_char_cons in Hs as [Hc Hs]. simpl.
  destruct (is_blank c); [destruct b; [by apply IH|]|]; apply no_char_cons; split; auto.
Qed.

Lemma no_char_collapse_ws d s : d <> " "%char -> no_char d s = true -> no_char d (collapse_ws s) = true.
Proof. intros Hd Hs. apply no_char_collapse, no_char_trim_end, no_char_trim_start; done. Qed.

(** A property of every header is one of every entry of the header map. *)
Lemma canonical_header_map_ind (P : string -> string -> Prop) headers :
  Forall (fun h : string * string => P (to_ascii_lowercase h.1) (collapse_ws h.2)) headers ->
  map_Forall P (canonical_header_map headers).
Proof.
  unfold canonical_header_map. intros Hl.
  assert (H0 : map_Forall P (∅ : gmap string string)) by apply map_Forall_empty.
  revert H0. generalize (∅ : gmap string string). induction Hl as [|h l Hh Hl IH]; intros m Hm; [done|].
  simpl. apply IH. by apply map_Forall_insert_2.
Qed.

Lemma wire_header_map req :
  wire_ok req ->
  map_Forall (fun n v => no_char "010" n = true /\ no_char ":" n = true /\ no_char ";" n = true /\
                         no_char "010" v = true) (canonical_header_map (vr_headers req)).
Proof.
  intros [_ _ Hh]. apply canonical_header_map_ind. eapply Forall_impl; [done|].
  intros h (? & ? & ? & ?). split_and!; try (by apply no_char_lower). by apply no_char_collapse_ws.
Qed.

Definition header_line (m : gmap string string) (name : string) : string :=
  name +:+ ":" +:+ default EmptyString (m !! name).

Lemma canonical_headers_lines m names hs tail :
  map_Forall (fun n v => no_char "010" n = true /\ no_char ":" n = true /\ no_char ";" n = true /\
                         no_char "010" v = true) m ->
  canonical_headers m names = Ok hs ->
  split_char "010" (hs +:+ tail) = (header_line m <$> names) ++ split_char "010" tail.
Proof.
  intros Hm. revert hs. induction names as [|n names IH]; intros hs; [by intros [= <-]|].
  cbn [canonical_headers]. intros (v & Hv%ok_or_Ok & Hr)%bind_Ok. apply bind_Ok in Hr as (rest & Hrest & [= <-]).
  destruct (Hm n v Hv) as (Hn & _ & _ & Hnv).
  assert (Hline : header_line m n = n +:+ ":" +:+ v) by (unfold header_line; by rewrite Hv).
  rewrite fmap_cons, Hline. cbn [app]. rewrite <- (IH rest) by done. rewrite <- split_char_app.
  - f_equal. rewrite !string_app_assoc. simpl. by rewrite !string_app_assoc.
  - rewrite !no_char_app, Hn, Hnv. done.
Qed.

Section Binding.
Context `{PercentCodec} `{SigCrypto} `{AmzDate}.

Hypothesis encode_clean : forall s, string_forallb encoded_char (sigv4_encode s) = true.
Hypothesis decode_encode : forall s, percent_decode (sigv4_encode s) = s.

(** [hex::encode] writes hexadecimal digits and loses nothing. *)
Hypothesis hex_clean : forall b, string_forallb is_ascii_hexdigit (hex_encode b) = true.
Hypothesis hex_inj : forall a b, hex_encode a = hex_encode b -> a = b.

Lemma hex_no_newline b : no_char "010" (hex_encode b) = true.
Proof.
  generalize (hex_clean b). apply string_forallb_impl. intros c Hc.
  destruct (Ascii.eqb_spec c "010"); [by subst|done].
Qed.

(** The path as the service reads it. *)
Definition decoded_path (path : string) : list string := percent_decode <$> split_char "/" path.

Lemma encode_segment_decoded svc a b :
  encode_segment svc a = encode_segment svc b <-> percent_decode a = percent_decode b.
Proof.
  unfold encode_segment. destruct (String.eqb svc "s3"); split; try congruence;
    intros Heq; repeat apply (sigv4_encode_inj decode_encode) in Heq; done.
Qed.

Lemma encode_segment_clean svc seg : string_forallb encoded_char (encode_segment svc seg) = true.
Proof. unfold encode_segment. destruct (String.eqb svc "s3"); apply encode_clean. Qed.

Lemma canonical_uri_inj p1 p2 svc :
  p1 <> EmptyString -> p2 <> EmptyString ->
  canonical_uri p1 svc = canonical_uri p2 svc -> decoded_path p1 = decoded_path p2.
Proof.
  assert (Hf : forall l : list string,
    Forall (fun s => no_char "/" s = true) (encode_segment svc <$> l)).
  { intros l. apply Forall_fmap, Forall_true. intros s. apply encoded_no_char; [done|].
    apply encode_segment_clean. }
  intros Hp1 Hp2. unfold canonical_uri, decoded_path.
  destruct (is_empty_str p1) eqn:E1; [by destruct p1|]. destruct (is_empty_str p2) eqn:E2; [by destruct p2|].
  intros Heq%(join_inj "/"); [|intros ?%fmap_nil_inv; by eapply split_char_not_nil .. |apply Hf|apply Hf].
  revert Heq. generalize (split_char "/" p2). induction (split_char "/" p1) as [|a l IH]; intros [|b k];
    try done. rewrite !fmap_cons. intros [= Hab Hlk]. f_equal; [|by apply IH].
  by apply (encode_segment_decoded svc).
Qed.

Lemma canonical_uri_no_newline path svc : no_char "010" (canonical_uri path svc) = true.
Proof.
  unfold canonical_uri. destruct (is_empty_str path); [done|].
  induction (split_char "/" path) as [|s l IH]; [done|].
  assert (Hs : no_char "010" (encode_segment svc s) = true)
    by (apply encoded_no_char; [done|]; apply encode_segment_clean).
  destruct l as [|t l]; [done|]. rewrite fmap_cons.
  change (String.concat "/" (encode_segment svc s :: (encode_segment svc <$> t :: l)))
    with (encode_segment svc s +:+ ("/" +:+ String.concat "/" (encode_segment svc <$> t :: l))).
  by rewrite !no_char_app, Hs, IH.
Qed.

Lemma payload_hash_no_newline p req :
  wire_ok req ->
  no_char "010" (payload_hash p (canonical_header_map (vr_headers req)) (vr_body req)) = true.
Proof.
  intros Hw. unfold payload_hash. destruct (_ !! _) as [h|] eqn:E.
  - by apply (wire_header_map req Hw) in E as (_ & _ & _ & ?).
  - destruct (is_presigned p); [done|]. apply hex_no_newline.
Qed.

(** The lines of a canonical request. *)
Lemma canonical_request_lines p req c :
  wire_ok req -> build_canonical_request p req = Ok c ->
  let m := canonical_header_map (vr_headers req) in
  Forall (fun n => no_char "010" n = true /\ no_char ":" n = true /\ no_char ";" n = true /\
                   is_Some (m !! n)) (signed_headers p) /\
  split_char "010" c =
    [to_ascii_uppercase (vr_method req); canonical_uri (vr_path req) (service p);
     canonical_query (vr_query req) (is_presigned p)]
    ++ (header_line m <$> signed_headers p)
    ++ [EmptyString; String.concat ";" (signed_headers p); payload_hash p m (vr_body req)].
Proof.
  intros Hw Hc m. assert (Hnames : Forall (fun n => no_char "010" n = true /\ no_char ":" n = true /\
    no_char ";" n = true /\ is_Some (m !! n)) (signed_headers p)).
  { assert (Hok : is_ok (build_canonical_request p req) = true) by by rewrite Hc.
    apply build_canonical_request_Ok in Hok. eapply Forall_impl; [exact Hok|].
    intros n [v Hv]. destruct (wire_header_map req Hw n v Hv) as (? & ? & ? & _). split_and!; eauto. }
  split; [done|]. unfold build_canonical_request in Hc. apply bind_Ok in Hc as (hs & Hhs & [= <-]).
  unfold newline. cbn [String.concat String.append].
  rewrite split_char_app by (apply no_char_upper, Hw; done). cbn [app]. f_equal.
  rewrite split_char_app by apply canonical_uri_no_newline. f_equal.
  rewrite split_char_app by by apply canonical_query_encoded. f_equal.
  rewrite (canonical_headers_lines m (signed_headers p)) by (done || by apply wire_header_map).
  f_equal. assert (Hlist : no_char "010" (String.concat ";" (signed_headers p)) = true).
  { clear -Hnames. induction Hnames as [|n l (Hn & _) Hl IH]; [done|]. destruct l as [|n' l]; [done|].
    change (String.concat ";" (n :: n' :: l)) with (n +:+ (";" +:+ String.concat ";" (n' :: l))).
    by rewrite !no_char_app, Hn, IH. }
  rewrite split_char_head. f_equal. rewrite split_char_app by done. f_equal.
  apply split_char_no. by apply payload_hash_no_newline.
Qed.

Lemma signed_header_line_inj (m1 m2 : gmap string string) n :
  is_Some (m1 !! n) -> is_Some (m2 !! n) -> header_line m1 n = header_line m2 n -> m1 !! n = m2 !! n.
Proof.
  intros [v1 Hv1] [v2 Hv2]. unfold header_line. rewrite Hv1, Hv2. simpl. intros Heq.
  f_equal. apply (f_equal (strip_prefix (n +:+ ":"))) in Heq.
  assert (Hs : forall v, strip_prefix (n +:+ ":") (n +:+ String ":" v) = Some v).
  { intros v. apply strip_prefix_Some. by rewrite string_app_assoc. }
  rewrite !Hs in Heq. congruence.
Qed.

(** Everything a signature speaks of. *)
Record same_request (p1 : ParsedSigV4) (r1 : VerifyRequest) (p2 : ParsedSigV4) (r2 : VerifyRequest)
  : Prop := {
  same_date : amz_date p1 = amz_date p2;
  same_method : to_ascii_uppercase (vr_method r1) = to_ascii_uppercase (vr_method r2);
  same_path : decoded_path (vr_path r1) = decoded_path (vr_path r2);
  same_query : query_params (vr_query r1) (is_presigned p1) ≡ₚ query_params (vr_query r2) (is_presigned p2);
  same_signed_headers : signed_headers p1 = signed_headers p2;
  same_header_values :
    Forall (fun n => canonical_header_map (vr_headers r1) !! n = canonical_header_map (vr_headers r2) !! n)
      (signed_headers p1);
  same_payload :
    payload_hash p1 (canonical_header_map (vr_headers r1)) (vr_body r1)
    = payload_hash p2 (canonical_header_map (vr_headers r2)) (vr_body r2)
}.

Lemma canonical_request_inj p1 p2 r1 r2 c :
  wire_ok r1 -> wire_ok r2 -> service p1 = service p2 -> amz_date p1 = amz_date p2 ->
  signed_headers p1 <> [] -> signed_headers p2 <> [] ->
  build_canonical_request p1 r1 = Ok c -> build_canonical_request p2 r2 = Ok c ->
  same_request p1 r1 p2 r2.
Proof.
  intros Hw1 Hw2 Hsvc Hdate Hn1 Hn2 Hc1 Hc2.
  destruct (canonical_request_lines p1 r1 c Hw1 Hc1) as [F1 L1].
  destruct (canonical_request_lines p2 r2 c Hw2 Hc2) as [F2 L2].
  rewrite L1 in L2. clear L1. apply app_inj_1 in L2 as [Htop Hrest]; [|done].
  apply app_inj_2 in Hrest as [Hlines Hend]; [|done].
  injection Htop as Hm Hu Hq. injection Hend as Hlist Hpay.
  assert (Hnames : signed_headers p1 = signed_headers p2).
  { apply (join_inj ";"); try done; (eapply Forall_impl; [eassumption|]); naive_solver. }
  split; try done.
  - rewrite Hsvc in Hu. apply (canonical_uri_inj _ _ _ (wire_path _ Hw1) (wire_path _ Hw2) Hu).
  - by apply canonical_query_inj.
  - rewrite <- Hnames in Hlines, F2. clear -Hlines F1 F2.
    induction (signed_headers p1) as [|n l IH]; [done|].
    apply Forall_cons in F1 as [(_ & _ & _ & Hs1) F1]. apply Forall_cons in F2 as [(_ & _ & _ & Hs2) F2].
    rewrite !fmap_cons in Hlines. injection Hlines as Hn Hl.
    constructor; [by apply signed_header_line_inj|by apply IH].
Qed.

Lemma string_to_sign_inj p1 p2 c1 c2 :
  date_stamp p1 = date_stamp p2 -> region p1 = region p2 -> service p1 = service p2 ->
  string_to_sign p1 c1 = string_to_sign p2 c2 ->
  amz_date p1 = amz_date p2 /\ sha256 (as_bytes c1) = sha256 (as_bytes c2).
Proof.
  intros Hd Hr Hs.
  assert (Hshape : forall p c, string_to_sign p c =
    (("AWS4-HMAC-SHA256" +:+ newline +:+ amz_date p)
     +:+ (newline +:+ date_stamp p +:+ "/" +:+ region p +:+ "/" +:+ service p +:+ "/aws4_request"))
    +:+ String "010" (hex_encode (sha256 (as_bytes c)))).
  { intros p c. unfold string_to_sign, newline. simpl.
    repeat (rewrite string_app_assoc; simpl). done. }
  rewrite !Hshape, Hd, Hr, Hs. intros [Ha Hh]%last_sep_inj; [|apply hex_no_newline ..].
  split; [|by apply hex_inj]. apply append_inj_r in Ha. by injection Ha.
Qed.

(** Distinct texts with one digest: what forging the signature would need. *)
Definition collision (p1 p2 : ParsedSigV4) (secret c1 c2 : string) : Prop :=
  (as_bytes c1 <> as_bytes c2 /\ sha256 (as_bytes c1) = sha256 (as_bytes c2)) \/
  (let key := derive_signing_key secret (date_stamp p1) (region p1) (service p1) in
   as_bytes (string_to_sign p1 c1) <> as_bytes (string_to_sign p2 c2) /\
   hmac_sha256 key (as_bytes (string_to_sign p1 c1)) = hmac_sha256 key (as_bytes (string_to_sign p2 c2))).

(** C6 (safety): a signature binds the request it was made for.  When two
    requests are accepted under the same secret, scope and signature, they
    agree on the signing date, the method, the decoded path, the multiset of
    decoded query parameters, the list of signed headers with their values and
    the payload hash; otherwise their canonical requests or strings to sign
    are themselves a collision of SHA-256 or of HMAC. *)
Theorem signature_binds_request p1 p2 r1 r2 secret now1 now2 :
  wire_ok r1 -> wire_ok r2 ->
  date_stamp p1 = date_stamp p2 -> region p1 = region p2 -> service p1 = service p2 ->
  signed_headers p1 <> [] -> signed_headers p2 <> [] ->
  signature p1 = signature p2 ->
  verify p1 r1 secret now1 = Ok tt -> verify p2 r2 secret now2 = Ok tt ->
  same_request p1 r1 p2 r2 \/
  exists c1 c2, build_canonical_request p1 r1 = Ok c1 /\ build_canonical_request p2 r2 = Ok c2 /\
                collision p1 p2 secret c1 c2.
Proof.
  intros Hw1 Hw2 Hd Hr Hs Hn1 Hn2 Hsig (t1 & c1 & _ & _ & Hc1 & He1)%verify_accepts
    (t2 & c2 & _ & _ & Hc2 & He2)%verify_accepts.
  rewrite Hsig, He2 in He1. unfold expected_signature in He1. rewrite <- Hd, <- Hr, <- Hs in He1.
  apply hex_inj in He1. unfold collision.
  destruct (decide (as_bytes (string_to_sign p1 c1) = as_bytes (string_to_sign p2 c2)))
    as [Heq%as_bytes_inj|Hne]; [|naive_solver].
  apply string_to_sign_inj in Heq as [Hdate Hsha]; [|done ..].
  destruct (decide (as_bytes c1 = as_bytes c2)) as [<-%as_bytes_inj|Hne]; [|naive_solver].
  left. by apply (canonical_request_inj _ _ _ _ c1).
Qed.

End Binding.

(** ** The [Authorization] header *)

Definition field_char (c : ascii) : bool :=
  negb (is_whitespace c) && negb (Ascii.eqb c "/") && negb (Ascii.eqb c ",").

Lemma field_char_spec c :
  field_char c = true ->
  negb (is_whitespace c) = true /\ negb (Ascii.eqb c "/") = true /\ negb (Ascii.eqb c ",") = true.
Proof. unfold field_char. rewrite !andb_true_iff. tauto. Qed.

Definition field_ok (s : string) : Prop := string_forallb field_char s = true.

Record header_ok (p : ParsedSigV4) : Prop := {
  ok_access_key : field_ok (access_key p);
  ok_date_stamp : field_ok (date_stamp p);
  ok_region : field_ok (region p);
  ok_service : field_ok (service p);
  ok_signature : field_ok (signature p);
  ok_names : Forall (fun n => field_ok n /\ no_char ";" n = true /\ to_ascii_lowercase n = n) (signed_headers p);
  ok_signed : signed_headers p <> [];
  ok_kind : is_presigned p = false
}.

(** The header a signer writes. *)
Definition render_credential (p : ParsedSigV4) : string :=
  String.concat "/" [access_key p; date_stamp p; region p; service p; "aws4_request"%string].

Definition render_authorization (p : ParsedSigV4) : string :=
  "AWS4-HMAC-SHA256 " +:+
  String.concat "," [("Credential=" +:+ render_credential p)%string;
                     (" SignedHeaders=" +:+ String.concat ";" (signed_headers p))%string;
                     (" Signature=" +:+ signature p)%string].

Lemma trim_dense s : string_forallb (fun c => negb (is_whitespace c)) s = true -> trim s = s.
Proof.
  intros Hs. unfold trim.
  assert (Hstart : trim_start s = s).
  { destruct s as [|c s]; [done|]. simpl in *. apply andb_true_iff in Hs as [Hc%negb_true_iff _].
    by rewrite Hc. }
  rewrite Hstart. clear Hstart. induction s as [|c s IH]; [done|]. simpl in *.
  apply andb_true_iff in Hs as [Hc%negb_true_iff Hs]. rewrite (IH Hs), Hc. by destruct s.
Qed.

Lemma trim_blank_head s : trim (String " " s) = trim s.
Proof. done. Qed.

Lemma string_forallb_join f d (l : list string) :
  f d = true -> Forall (fun s => string_forallb f s = true) l ->
  string_forallb f (String.concat (String d EmptyString) l) = true.
Proof.
  intros Hd Hl. induction Hl as [|s l Hs Hl IH]; [done|]. destruct l as [|t l]; [done|].
  change (String.concat (String d EmptyString) (s :: t :: l))
    with (s +:+ (String d (String.concat (String d EmptyString) (t :: l)))).
  rewrite string_forallb_app, Hs. cbn [string_forallb]. by rewrite Hd, IH.
Qed.

Lemma field_dense s : field_ok s -> string_forallb (fun c => negb (is_whitespace c)) s = true.
Proof. apply string_forallb_impl. intros c Hc. by apply field_char_spec. Qed.

Lemma field_no_slash s : field_ok s -> no_char "/" s = true.
Proof. apply string_forallb_impl. intros c Hc. by apply field_char_spec. Qed.

Lemma field_no_comma s : field_ok s -> no_char "," s = true.
Proof. apply string_forallb_impl. intros c Hc. by apply field_char_spec. Qed.

Section Header.
Variable p : ParsedSigV4.
Hypothesis Hp : header_ok p.

Lemma credential_pieces :
  split_char "/" (render_credential p)
  = [access_key p; date_stamp p; region p; service p; "aws4_request"%string].
Proof.
  apply split_char_join; [done|].
  repeat (apply Forall_cons; split; [first [apply field_no_slash, Hp|done]|]). done.
Qed.

Lemma credential_scope_parses : parse_credential_scope (render_credential p) = Some (as_info p).
Proof. unfold parse_credential_scope. by rewrite credential_pieces. Qed.

Lemma credential_chars f :
  (forall c, field_char c = true -> f c = true) -> f "/"%char = true ->
  string_forallb f "aws4_request" = true -> string_forallb f (render_credential p) = true.
Proof.
  intros Hf Hs Hl. apply string_forallb_join; [done|].
  repeat (apply Forall_cons; split; [first [eapply string_forallb_impl; [exact Hf|apply Hp]|done]|]). done.
Qed.

Lemma signed_chars f :
  (forall c, field_char c = true -> f c = true) -> f ";"%char = true ->
  string_forallb f (String.concat ";" (signed_headers p)) = true.
Proof.
  intros Hf Hs. apply string_forallb_join; [done|]. eapply Forall_impl; [apply Hp|].
  intros n (Hn & _). by eapply string_forallb_impl.
Qed.

Lemma split_signed_headers_render :
  split_signed_headers (String.concat ";" (signed_headers p)) = signed_headers p.
Proof.
  unfold split_signed_headers. rewrite split_char_join.
  - pose proof (ok_names p Hp) as Hn. induction Hn as [|n l (_ & _ & Hlow) Hl IH]; [done|].
    by rewrite fmap_cons, Hlow, IH.
  - apply Hp.
  - eapply Forall_impl; [apply Hp|]. naive_solver.
Qed.

Lemma credential_no_comma : no_char "," (render_credential p) = true.
Proof. apply credential_chars; [|done|done]. intros c Hc. by apply field_char_spec. Qed.

Lemma signed_no_comma : no_char "," (String.concat ";" (signed_headers p)) = true.
Proof. apply signed_chars; [|done]. intros c Hc. by apply field_char_spec. Qed.

Lemma header_field_credential c h g :
  header_field (c, h, g) ("Credential=" +:+ render_credential p) = (Some (render_credential p), h, g).
Proof.
  unfold header_field. rewrite trim_dense; [done|]. rewrite string_forallb_app.
  apply andb_true_iff. split; [done|]. apply credential_chars; [|done|done].
  intros x Hx. by apply field_char_spec.
Qed.

Lemma header_field_signed c h g :
  header_field (c, h, g) (" SignedHeaders=" +:+ String.concat ";" (signed_headers p))
  = (c, Some (String.concat ";" (signed_headers p)), g).
Proof.
  unfold header_field.
  change (" SignedHeaders=" +:+ String.concat ";" (signed_headers p))
    with (String " " ("SignedHeaders=" +:+ String.concat ";" (signed_headers p))).
  rewrite trim_blank_head, trim_dense; [done|]. rewrite string_forallb_app.
  apply andb_true_iff. split; [done|]. apply signed_chars; [|done].
  intros x Hx. by apply field_char_spec.
Qed.

Lemma header_field_signature c h g :
  header_field (c, h, g) (" Signature=" +:+ signature p) = (c, h, Some (signature p)).
Proof.
  unfold header_field.
  change (" Signature=" +:+ signature p) with (String " " ("Signature=" +:+ signature p)).
  rewrite trim_blank_head, trim_dense; [done|]. rewrite string_forallb_app.
  apply andb_true_iff. split; [done|]. apply field_dense, Hp.
Qed.

Lemma header_fields_split :
  split_char "," (String.concat "," [("Credential=" +:+ render_credential p)%string;
                     (" SignedHeaders=" +:+ String.concat ";" (signed_headers p))%string;
                     (" Signature=" +:+ signature p)%string])
  = [("Credential=" +:+ render_credential p)%string;
     (" SignedHeaders=" +:+ String.concat ";" (signed_headers p))%string;
     (" Signature=" +:+ signature p)%string].
Proof.
  apply split_char_join; [done|]. repeat apply Forall_cons_2; [..|done]; rewrite no_char_app;
    apply andb_true_iff; (split; [done|]).
  - apply credential_no_comma.
  - apply signed_no_comma.
  - apply field_no_comma, Hp.
Qed.

(** The fields of the header, once found, give the signature back. *)
Lemma parsed_fields_Some :
  (credential ← Some (render_credential p);
   signed ← Some (String.concat ";" (signed_headers p));
   sig ← Some (signature p);
   scope ← parse_credential_scope credential;
   stamp ← split_char "/" credential !! 1;
   let names := split_signed_headers signed in
   if bool_decide (names = []) then None
   else
     date ← Some (amz_date p);
     Some (mkParsed (info_access_key scope) stamp (info_region scope) (info_service scope) names sig date
             false)) = Some p.
Proof.
  cbn [mbind option_bind]. rewrite credential_scope_parses. cbn [mbind option_bind].
  rewrite credential_pieces. cbn [lookup list_lookup mbind option_bind].
  rewrite split_signed_headers_render. rewrite bool_decide_false by apply Hp.
  cbn [mbind option_bind]. pose proof (ok_kind p Hp) as Hk. destruct p; simpl in *. by subst.
Qed.

Lemma first_credential_parses header (s : string) (l : list string) :
  strip_prefix "AWS4-HMAC-SHA256 " header
    = Some (String.concat "," (("Credential=" +:+ render_credential p)%string :: s :: l)) ->
  parse_header_credential header = Some (as_info p).
Proof.
  intros Hstrip. unfold parse_header_credential. rewrite Hstrip. cbn [mbind option_bind].
  assert (Hcut : split_at_needle "Credential="
    (String.concat "," (("Credential=" +:+ render_credential p)%string :: s :: l))
    = Some (EmptyString, render_credential p +:+ String "," (String.concat "," (s :: l)))) by done.
  rewrite Hcut. cbn [mbind option_bind]. rewrite split_sep_app by apply credential_no_comma.
  apply credential_scope_parses.
Qed.

(** Theorem (roundtrip): the header a signer writes is read back in full by the
    parse that verification uses, and the parse that routes the request finds
    the same access key, region and service in it. *)
Theorem authorization_header_roundtrip :
  parse_sigv4_header (render_authorization p) (Some (amz_date p)) = Some p /\
  parse_sigv4 (render_authorization p) = Some (as_info p).
Proof.
  assert (Hstrip : strip_prefix "AWS4-HMAC-SHA256 " (render_authorization p)
    = Some (String.concat "," [("Credential=" +:+ render_credential p)%string;
              (" SignedHeaders=" +:+ String.concat ";" (signed_headers p))%string;
              (" Signature=" +:+ signature p)%string])) by by apply strip_prefix_Some.
  split.
  - unfold parse_sigv4_header. rewrite Hstrip. cbn [mbind option_bind].
    rewrite header_fields_split. cbn [foldl].
    rewrite header_field_credential, header_field_signed, header_field_signature.
    apply parsed_fields_Some.
  - unfold parse_sigv4. by eapply first_credential_parses.
Qed.

End Header.

(** ** Two readers of one header

    Routing takes the first [Credential=] of the header, verification the last
    credential field.  The header itself is not signed. *)

Definition prepend_credential (q p : ParsedSigV4) : string :=
  "AWS4-HMAC-SHA256 " +:+
  String.concat "," [("Credential=" +:+ render_credential q)%string;
                     (" Credential=" +:+ render_credential p)%string;
                     (" SignedHeaders=" +:+ String.concat ";" (signed_headers p))%string;
                     (" Signature=" +:+ signature p)%string].

Lemma header_field_second_credential p c h g :
  header_ok p ->
  header_field (c, h, g) (" Credential=" +:+ render_credential p) = (Some (render_credential p), h, g).
Proof.
  intros Hp. rewrite <- (header_field_credential p Hp c h g). unfold header_field.
  change (" Credential=" +:+ render_credential p) with (String " " ("Credential=" +:+ render_credential p)).
  by rewrite trim_blank_head.
Qed.

Lemma prepended_fields_split q p :
  header_ok q -> header_ok p ->
  split_char "," (String.concat "," [("Credential=" +:+ render_credential q)%string;
                     (" Credential=" +:+ render_credential p)%string;
                     (" SignedHeaders=" +:+ String.concat ";" (signed_headers p))%string;
                     (" Signature=" +:+ signature p)%string])
  = [("Credential=" +:+ render_credential q)%string;
     (" Credential=" +:+ render_credential p)%string;
     (" SignedHeaders=" +:+ String.concat ";" (signed_headers p))%string;
     (" Signature=" +:+ signature p)%string].
Proof.
  intros Hq Hp. apply split_char_join; [done|]. repeat apply Forall_cons_2; [..|done]; rewrite no_char_app;
    apply andb_true_iff; (split; [done|]).
  - by apply credential_no_comma.
  - by apply credential_no_comma.
  - by apply signed_no_comma.
  - apply field_no_comma, Hp.
Qed.

(** Theorem (safety): the signature does not bind the scope a request is routed
    by.  Put any credential in front of a valid [Authorization] header and
    verification still reads the signed request's credential, scope and
    signature, while routing reads the new access key, region and service. *)
Theorem prepended_credential_reroutes q p :
  header_ok q -> header_ok p ->
  parse_sigv4_header (prepend_credential q p) (Some (amz_date p)) = Some p /\
  parse_sigv4 (prepend_credential q p) = Some (as_info q).
Proof.
  intros Hq Hp.
  assert (Hstrip : strip_prefix "AWS4-HMAC-SHA256 " (prepend_credential q p)
    = Some (String.concat "," [("Credential=" +:+ render_credential q)%string;
              (" Credential=" +:+ render_credential p)%string;
              (" SignedHeaders=" +:+ String.concat ";" (signed_headers p))%string;
              (" Signature=" +:+ signature p)%string])) by by apply strip_prefix_Some.
  split.
  - unfold parse_sigv4_header. rewrite Hstrip. cbn [mbind option_bind].
    rewrite prepended_fields_split by done. cbn [foldl].
    rewrite header_field_credential, header_field_second_credential by done.
    rewrite header_field_signed, header_field_signature by done. by apply parsed_fields_Some.
  - unfold parse_sigv4. eapply first_credential_parses; [done|exact Hstrip].
Qed.

(** ** Witnesses

    A percent codec over single bytes, digests that keep the length, and a
    clock at the epoch. *)

Definition hex_digit (n : N) : ascii := if (n <? 10)%N then ascii_of_N (48 + n) else ascii_of_N (55 + n).

Definition hex_digit_val (c : ascii) : N :=
  if is_ascii_digit c then (char_code c - 48)%N else (char_code c - 55)%N.

Fixpoint byte_encode (s : string) : string :=
  match s with
  | EmptyString => EmptyString
  | String c s =>
      if encoded_char c && negb (Ascii.eqb c "%") then String c (byte_encode s)
      else String "%" (String (hex_digit (char_code c / 16)) (String (hex_digit (char_code c mod 16)) (byte_encode s)))
  end.

Fixpoint byte_decode (s : string) : string :=
  match s with
  | EmptyString => EmptyString
  | String c s' =>
      if Ascii.eqb c "%" then
        match s' with
        | String h (String l s) => String (ascii_of_N (16 * hex_digit_val h + hex_digit_val l)) (byte_decode s)
        | _ => s'
        end
      else String c (byte_decode s')
  end.

#[local] Instance byte_codec : PercentCodec := {| sigv4_encode := byte_encode; percent_decode := byte_decode |}.

#[local] Instance length_crypto : SigCrypto := {|
  sha256 := fun l => [Z.of_nat (length l)];
  hmac_sha256 := fun k d => [Z.of_nat (length k); Z.of_nat (length d)];
  hex_encode := fun l => print_Z (Zpos (encode l))
|}.

#[local] Instance epoch_date : AmzDate := {| parse_amz_datetime := fun _ => Some 0%Z |}.

Lemma byte_encode_clean s : string_forallb encoded_char (byte_encode s) = true.
Proof.
  induction s as [|c s IH]; [done|]. cbn [byte_encode].
  destruct (encoded_char c && negb (Ascii.eqb c "%")) eqn:E.
  - apply andb_true_iff in E as [E _]. cbn [string_forallb]. by rewrite E.
  - cbn [string_forallb]. rewrite IH. clear. by destruct c as [[] [] [] [] [] [] [] []].
Qed.

Lemma byte_decode_encode s : byte_decode (byte_encode s) = s.
Proof.
  induction s as [|c s IH]; [done|]. cbn [byte_encode].
  destruct (encoded_char c && negb (Ascii.eqb c "%")) eqn:E.
  - apply andb_true_iff in E as [_ E%negb_true_iff]. cbn [byte_decode]. by rewrite E, IH.
  - cbn -[ascii_of_N hex_digit_val hex_digit N.add N.mul N.div N.modulo char_code]. rewrite IH. f_equal.
    clear. by destruct c as [[] [] [] [] [] [] [] []].
Qed.

Lemma length_hex_clean b : string_forallb is_ascii_hexdigit (hex_encode b) = true.
Proof.
  apply (string_forallb_impl is_ascii_digit); [|by apply print_Z_digits].
  intros c Hc. unfold is_ascii_hexdigit. by rewrite Hc.
Qed.

Lemma length_hex_inj a b : hex_encode a = hex_encode b -> a = b.
Proof. intros Heq%print_Z_inj; [|done ..]. injection Heq. apply encode_inj. Qed.

Lemma canonical_query_exact_witness :
  canonical_query "b=2&&a=%31" false = canonical_query "a=1&b=2" false <->
  query_params "b=2&&a=%31" false ≡ₚ query_params "a=1&b=2" false.
Proof. apply (@canonical_query_exact byte_codec byte_encode_clean byte_decode_encode). Defined.

Definition sample_parsed : ParsedSigV4 :=
  mkParsed "AKIA" "19700101" "us-east-1" "sqs" ["host"] "6328112" "19700101T000000Z" false.

Definition sample_request (query : string) : VerifyRequest :=
  mkVerify "GET" "/q" query [("Host", "sqs.local")]%string [].

Lemma sample_wire_ok query : wire_ok (sample_request query).
Proof. split; [done|done|]. by repeat constructor. Qed.

Lemma signature_binds_request_witness :
  let r1 := sample_request "b=2&a=%31" in
  let r2 := sample_request "a=1&b=2" in
  same_request sample_parsed r1 sample_parsed r2 \/
  exists c1 c2, build_canonical_request sample_parsed r1 = Ok c1 /\
                build_canonical_request sample_parsed r2 = Ok c2 /\
                collision sample_parsed sample_parsed "secret" c1 c2.
Proof.
  apply (@signature_binds_request byte_codec length_crypto epoch_date byte_encode_clean
           byte_decode_encode length_hex_clean length_hex_inj sample_parsed sample_parsed
           (sample_request "b=2&a=%31") (sample_request "a=1&b=2") "secret" 0 60000000000).
  - apply sample_wire_ok.
  - apply sample_wire_ok.
  - reflexivity.
  - reflexivity.
  - reflexivity.
  - discriminate.
  - discriminate.
  - reflexivity.
  - vm_compute. reflexivity.
  - vm_compute. reflexivity.
Defined.

Lemma authorization_header_roundtrip_witness :
  parse_sigv4_header (render_authorization sample_parsed) (Some (amz_date sample_parsed)) = Some sample_parsed /\
  parse_sigv4 (render_authorization sample_parsed) = Some (as_info sample_parsed).
Proof.
  apply (authorization_header_roundtrip sample_parsed). split; try reflexivity; [|discriminate].
  repeat constructor.
Defined.

Definition sample_elsewhere : ParsedSigV4 :=
  mkParsed "AKIA" "19700101" "eu-west-1" "sns" ["host"] "0" "19700101T000000Z" false.

Lemma prepended_credential_reroutes_witness :
  parse_sigv4_header (prepend_credential sample_elsewhere sample_parsed) (Some (amz_date sample_parsed))
    = Some sample_parsed /\
  parse_sigv4 (prepend_credential sample_elsewhere sample_parsed) = Some (as_info sample_elsewhere).
Proof.
  apply (prepended_credential_reroutes sample_elsewhere sample_parsed);
    (split; try reflexivity; [|discriminate]; repeat constructor).
Defined.
