(* ===== verification/Cbor.v ===== *)
(** * Smithy RPC v2 CBOR

    [fakecloud-core/src/cbor.rs]: the request path, the translation of a CBOR
    body to the JSON document handlers read and back, and the encoder.  The
    decoder is the [ciborium] package, a parameter ([CborReader]); what its
    input means is the grammar [Item] of RFC 8949, against which the encoder
    is proved.  [f64::to_be_bytes] is written out for IEEE binary64 with one
    NaN. *)

From Stdlib Require Import ZArith Lia Bool String Ascii SpecFloat.
From stdpp Require Import base option list strings.
From S2P Require Import Prelude Json.

Module Cbor.

(** ** Data *)

Unset Elimination Schemes.
Inductive CborValue : Type :=
| CInteger (i : Z)
| CBytes (b : list Z)
| CFloat (x : f64)
| CText (s : string)
| CBool (b : bool)
| CNull
| CTag (t : Z) (v : CborValue)
| CArray (l : list CborValue)
| CMap (m : list (CborValue * CborValue)).
Set Elimination Schemes.

Section Induction.
Context (Q : CborValue -> Prop).
Context (HInt : forall i, Q (CInteger i)) (HBytes : forall b, Q (CBytes b)) (HFloat : forall x, Q (CFloat x))
  (HText : forall s, Q (CText s)) (HBool : forall b, Q (CBool b)) (HNull : Q CNull)
  (HTag : forall t v, Q v -> Q (CTag t v)) (HArr : forall l, Forall Q l -> Q (CArray l))
  (HMap : forall m, Forall (fun kv => Q kv.1 /\ Q kv.2) m -> Q (CMap m)).

Fixpoint CborValue_ind (v : CborValue) : Q v :=
  match v with
  | CInteger i => HInt i
  | CBytes b => HBytes b
  | CFloat x => HFloat x
  | CText s => HText s
  | CBool b => HBool b
  | CNull => HNull
  | CTag t v => HTag t v (CborValue_ind v)
  | CArray l =>
      HArr l ((fix go (l : list CborValue) : Forall Q l :=
                 match l with
                 | [] => List.Forall_nil _
                 | x :: l' => List.Forall_cons _ _ _ (CborValue_ind x) (go l')
                 end) l)
  | CMap m =>
      HMap m ((fix go (m : list (CborValue * CborValue)) : Forall (fun kv => Q kv.1 /\ Q kv.2) m :=
                 match m with
                 | [] => List.Forall_nil _
                 | kv :: m' => List.Forall_cons _ _ _ (conj (CborValue_ind kv.1) (CborValue_ind kv.2)) (go m')
                 end) m)
  end.
End Induction.

(** [ciborium::from_reader], with the text of its error, and standard base64. *)
Class CborReader := { from_reader : list Z -> Result string CborValue }.
Class Base64 := { base64_encode : list Z -> string }.

(** ** The request path *)

(** [trim_end_matches(c)]. *)
Fixpoint trim_end_char (c : ascii) (s : string) : string :=
  match s with
  | EmptyString => EmptyString
  | String a s' =>
      match trim_end_char c s' with
      | EmptyString => if Ascii.eqb a c then EmptyString else String a EmptyString
      | t => String a t
      end
  end.

Definition parse_rpc_v2_path (path : string) : option (string * string) :=
  match rev (split_char "/" (trim_end_char "/" path)) with
  | operation :: op :: service :: sv :: _ =>
      if String.eqb sv "service" && String.eqb op "operation"
         && negb (is_empty_str service) && negb (is_empty_str operation)
      then Some (service, operation) else None
  | _ => None
  end.

(** ** CBOR to JSON *)

(** [Map::insert] of an insertion-ordered map. *)
Fixpoint map_put (k : string) (v : Value) (m : list (string * Value)) : list (string * Value) :=
  match m with
  | [] => [(k, v)]
  | (k', v') :: m' => if String.eqb k' k then (k', v) :: m' else (k', v') :: map_put k v m'
  end.

Definition float_to_json (x : f64) : Value :=
  match x with
  | S754_nan => VString "NaN"
  | S754_infinity false => VString "Infinity"
  | S754_infinity true => VString "-Infinity"
  | _ => VNumber (Float x)
  end.

Definition is_null (v : CborValue) : bool := match v with CNull => true | _ => false end.

Definition integer_to_json (i : Z) : Result string Value :=
  if (i64_min <=? i)%Z && (i <=? i64_max)%Z then Ok (VNumber (if (0 <=? i)%Z then PosInt i else NegInt i))
  else if (0 <=? i)%Z && (i <=? u64_max)%Z then Ok (VNumber (PosInt i))
  else Err ("integer " +:+ print_Z i +:+ " out of range").

(** [collect::<Result<_, _>>()] over the items of an array, and the loop over
    the entries of a map. *)
Section Collect.
Context (to_json : CborValue -> Result string Value).

Fixpoint collect_items (l : list CborValue) : Result string (list Value) :=
  match l with
  | [] => Ok []
  | x :: l => x' ← to_json x; l' ← collect_items l; Ok (x' :: l')
  end.

Fixpoint collect_members (m : list (CborValue * CborValue)) (obj : list (string * Value))
  : Result string (list (string * Value)) :=
  match m with
  | [] => Ok obj
  | (CText key, x) :: m =>
      if is_null x then collect_members m obj
      else x' ← to_json x; collect_members m (map_put key x' obj)
  | _ :: _ => Err "map keys must be text strings"%string
  end.
End Collect.

Fixpoint cbor_to_json `{Base64} (v : CborValue) : Result string Value :=
  match v with
  | CNull => Ok Null
  | CBool b => Ok (VBool b)
  | CInteger i => integer_to_json i
  | CFloat x => Ok (float_to_json x)
  | CText s => Ok (VString s)
  | CBytes b => Ok (VString (base64_encode b))
  | CArray l => l' ← collect_items cbor_to_json l; Ok (VArray l')
  | CMap m => m' ← collect_members cbor_to_json m []; Ok (VObject m')
  | CTag _ v => cbor_to_json v
  end.

Definition decode_to_json `{CborReader} `{Base64} (body : list Z) : Result string Value :=
  match body with
  | [] => Ok (VObject [])
  | _ => from_reader body ≫= cbor_to_json
  end.

(** ** JSON to CBOR *)

Definition number_to_cbor (n : Number) : CborValue :=
  match n with
  | PosInt z | NegInt z => CInteger z
  | Float x => CFloat x
  end.

Fixpoint json_to_cbor (v : Value) : CborValue :=
  match v with
  | Null => CNull
  | VBool b => CBool b
  | VNumber n => number_to_cbor n
  | VString s => CText s
  | VArray l => CArray (json_to_cbor <$> l)
  | VObject m => CMap ((fun kv => (CText kv.1, json_to_cbor kv.2)) <$> m)
  end.

(** ** The encoder *)

(** The low [n] bytes of [z], most significant first. *)
Fixpoint be_bytes (n : nat) (z : Z) : list Z :=
  match n with
  | O => []
  | S n => (z / 256 ^ Z.of_nat n) mod 256 :: be_bytes n z
  end%Z.

(** [f64::to_bits]. *)
Definition f64_bits (x : f64) : Z :=
  let sign (s : bool) := if s then (2 ^ 63)%Z else 0%Z in
  match x with
  | S754_zero s => sign s
  | S754_infinity s => (sign s + 2047 * 2 ^ 52)%Z
  | S754_nan => (2047 * 2 ^ 52 + 2 ^ 51)%Z
  | S754_finite s m e =>
      if (2 ^ 52 <=? Zpos m)%Z then (sign s + (e + 1075) * 2 ^ 52 + (Zpos m - 2 ^ 52))%Z
      else (sign s + Zpos m)%Z
  end.

Definition write_head (major arg : Z) : list Z :=
  let m := Z.shiftl major 5 in
  if (arg <? 24)%Z then [Z.lor m arg]
  else if (arg <=? 255)%Z then [Z.lor m 24; arg]
  else if (arg <=? 65535)%Z then Z.lor m 25 :: be_bytes 2 arg
  else if (arg <=? 4294967295)%Z then Z.lor m 26 :: be_bytes 4 arg
  else Z.lor m 27 :: be_bytes 8 arg.

Fixpoint encode (v : CborValue) : list Z :=
  match v with
  | CInteger i => if (0 <=? i)%Z then write_head 0 i else write_head 1 (-1 - i)
  | CBytes b => write_head 2 (Z.of_nat (length b)) ++ b
  | CText t => write_head 3 (Z.of_nat (byte_len t)) ++ as_bytes t
  | CArray l => write_head 4 (Z.of_nat (length l)) ++ concat (encode <$> l)
  | CMap m => write_head 5 (Z.of_nat (length m)) ++ concat ((fun kv => encode kv.1 ++ encode kv.2) <$> m)
  | CTag t v => write_head 6 t ++ encode v
  | CBool false => [244]
  | CBool true => [245]
  | CNull => [246]
  | CFloat x => 251 :: be_bytes 8 (f64_bits x)
  end%Z.

Definition error_body `{SerdeJson} (code message : string) (extra_fields : list (string * string)) : list Z :=
  encode (CMap ([(CText "__type", CText code); (CText "message", CText message)] ++
    ((fun kv : string * string =>
        (CText kv.1, match json_from_str kv.2 with Some v => json_to_cbor v | None => CText kv.2 end))
     <$> extra_fields))).

End Cbor.
