(* ===== verification/CborTheory.v ===== *)
(** * CBOR bodies: theorems

    The data items of RFC 8949 as a relation between bytes and values, in
    every width a head may have; the encoder of [Cbor] produces an item of its
    value, and bytes denote at most one value. *)

From Stdlib Require Import ZArith Lia Bool String Ascii SpecFloat.
From stdpp Require Import base option list strings sets.
From S2P Require Import Prelude Json Cbor.
Import Cbor.

(** ** Items *)

Definition is_byte (b : Z) : Prop := (0 <= b < 256)%Z.

(** The double is one that 64 bits can hold. *)
Definition f64_valid (x : f64) : bool :=
  match x with S754_finite s m e => valid_binary f64_prec f64_emax x | _ => true end.

Definition head_widths : list (Z * nat) := [(24%Z, 1); (25%Z, 2); (26%Z, 4); (27%Z, 8)].

(** The initial byte, major type above additional information, with its
    argument in the byte itself or in the bytes after it. *)
Inductive Head (major arg : Z) : list Z -> Prop :=
| Head_direct : (0 <= arg < 24)%Z -> Head major arg [(major * 32 + arg)%Z]
| Head_bytes info n :
    (info, n) ∈ head_widths -> (0 <= arg < 256 ^ Z.of_nat n)%Z ->
    Head major arg ((major * 32 + info)%Z :: be_bytes n arg).

(** Definite-length items: a head with the content its major type asks for, or
    a simple value. *)
Inductive Item : list Z -> CborValue -> Prop :=
| Item_head major arg h c v : Head major arg h -> Content major arg c v -> Item (h ++ c) v
| Item_simple c v : Simple c v -> Item c v
with Simple : list Z -> CborValue -> Prop :=
| Simple_false : Simple [244%Z] (CBool false)
| Simple_true : Simple [245%Z] (CBool true)
| Simple_null : Simple [246%Z] CNull
| Simple_double x : f64_valid x = true -> Simple (251%Z :: be_bytes 8 (f64_bits x)) (CFloat x)
with Content : Z -> Z -> list Z -> CborValue -> Prop :=
| Content_unsigned a : Content 0 a [] (CInteger a)
| Content_negative a : Content 1 a [] (CInteger (-1 - a))
| Content_bytes b : Content 2 (Z.of_nat (length b)) b (CBytes b)
| Content_text s : Content 3 (Z.of_nat (byte_len s)) (as_bytes s) (CText s)
| Content_array b l : Items b l -> Content 4 (Z.of_nat (length l)) b (CArray l)
| Content_map b m : Pairs b m -> Content 5 (Z.of_nat (length m)) b (CMap m)
| Content_tag b t v : Item b v -> Content 6 t b (CTag t v)
with Items : list Z -> list CborValue -> Prop :=
| Items_nil : Items [] []
| Items_cons b v b' l : Item b v -> Items b' l -> Items (b ++ b') (v :: l)
with Pairs : list Z -> list (CborValue * CborValue) -> Prop :=
| Pairs_nil : Pairs [] []
| Pairs_cons b k b1 v b' m : Item b k -> Item b1 v -> Pairs b' m -> Pairs (b ++ b1 ++ b') ((k, v) :: m).

Scheme Item_mut := Minimality for Item Sort Prop
  with Simple_mut := Minimality for Simple Sort Prop
  with Content_mut := Minimality for Content Sort Prop
  with Items_mut := Minimality for Items Sort Prop
  with Pairs_mut := Minimality for Pairs Sort Prop.
Combined Scheme item_ind from Item_mut, Simple_mut, Content_mut, Items_mut, Pairs_mut.

(** The range of each field of a value. *)
Fixpoint encodable (v : CborValue) : bool :=
  match v with
  | CInteger i => (- 2 ^ 64 <=? i)%Z && (i <? 2 ^ 64)%Z
  | CBytes b => (Z.of_nat (length b) <? 2 ^ 64)%Z
  | CText s => (Z.of_nat (byte_len s) <? 2 ^ 64)%Z
  | CFloat x => f64_valid x
  | CBool _ | CNull => true
  | CTag t v => (0 <=? t)%Z && (t <? 2 ^ 64)%Z && encodable v
  | CArray l => (Z.of_nat (length l) <? 2 ^ 64)%Z && forallb encodable l
  | CMap m => (Z.of_nat (length m) <? 2 ^ 64)%Z && forallb (fun kv => encodable kv.1 && encodable kv.2) m
  end.

(** ** Bytes and heads *)

Lemma length_be_bytes n z : length (be_bytes n z) = n.
Proof. induction n as [|n IH]; cbn [be_bytes length]; [done|]. by rewrite IH. Qed.

Lemma be_bytes_mod n z : be_bytes n (z mod 256 ^ Z.of_nat n) = be_bytes n z.
Proof.
  assert (Hgo : forall k, (n <= k)%nat -> be_bytes n (z mod 256 ^ Z.of_nat k) = be_bytes n z); [|by apply Hgo].
  induction n as [|n IH]; intros k Hk; cbn [be_bytes]; [done|]. f_equal; [|apply IH; lia].
  replace (256 ^ Z.of_nat k)%Z with (256 ^ Z.of_nat n * (256 * 256 ^ Z.of_nat (k - S n)))%Z.
  2:{ rewrite <- Z.pow_succ_r, <- Z.pow_add_r by lia. f_equal. lia. }
  rewrite Z.rem_mul_r by lia.
  rewrite Z.add_comm, Z.mul_comm, Z.div_add_l, (Z.div_small (z mod _)), Z.add_0_r by (first [apply Z.mod_pos_bound; lia|lia]).
  rewrite Z.rem_mul_r by lia. rewrite Z.mul_comm, Z.mod_add by lia. by apply Z.mod_mod.
Qed.

Lemma be_bytes_inj n a b :
  (0 <= a < 256 ^ Z.of_nat n)%Z -> (0 <= b < 256 ^ Z.of_nat n)%Z -> be_bytes n a = be_bytes n b -> a = b.
Proof.
  revert a b. induction n as [|n IH]; intros a b Ha Hb Heq; cbn [be_bytes] in Heq; [simpl in *; lia|].
  injection Heq as Hd Heq. rewrite Nat2Z.inj_succ, Z.pow_succ_r in Ha by lia. rewrite Nat2Z.inj_succ, Z.pow_succ_r in Hb by lia.
  assert (Hp : (0 < 256 ^ Z.of_nat n)%Z) by lia.
  rewrite !Z.mod_small in Hd by (split; [apply Z.div_pos; lia|apply Z.div_lt_upper_bound; lia]).
  rewrite <- (be_bytes_mod n a), <- (be_bytes_mod n b) in Heq.
  apply IH in Heq; [|apply Z.mod_pos_bound; lia..].
  rewrite (Z.div_mod a (256 ^ Z.of_nat n)), (Z.div_mod b (256 ^ Z.of_nat n)) by lia. congruence.
Qed.

Lemma head_widths_info info n : (info, n) ∈ head_widths -> (24 <= info < 28)%Z.
Proof. intros Hin. unfold head_widths in Hin. set_unfold in Hin. naive_solver lia. Qed.

Lemma head_widths_fun info n n' : (info, n) ∈ head_widths -> (info, n') ∈ head_widths -> n = n'.
Proof. intros Hin Hin'. unfold head_widths in *. set_unfold in Hin. set_unfold in Hin'. naive_solver lia. Qed.

(** A head never reads past its own bytes, and its first byte carries the
    major type. *)
Lemma Head_unambiguous m m' a a' h h' r r' :
  Head m a h -> Head m' a' h' -> h ++ r = h' ++ r' -> m = m' /\ a = a' /\ h = h' /\ r = r'.
Proof.
  intros H1 H2 Heq.
  destruct H1 as [Ha|i n Hi Ha], H2 as [Ha'|i' n' Hi' Ha']; cbn [app] in Heq;
    repeat match goal with Hw : _ ∈ head_widths |- _ => pose proof (head_widths_info _ _ Hw); revert Hw end;
    intros; injection Heq as Hb Heq.
  - assert (m = m' /\ a = a') as [-> ->] by lia. done.
  - lia.
  - lia.
  - assert (m = m' /\ i = i') as [-> ->] by lia. pose proof (head_widths_fun _ _ _ Hi Hi') as <-.
    apply app_inj_1 in Heq as [Hbe ->]; [|by rewrite !length_be_bytes].
    apply be_bytes_inj in Hbe as ->; done.
Qed.

Lemma major_info major info : (0 <= major < 8)%Z -> (0 <= info < 32)%Z ->
  Z.lor (Z.shiftl major 5) info = (major * 32 + info)%Z.
Proof.
  intros Hm Hi.
  assert (Hall : Forall (fun m => Forall (fun i => Z.lor (Z.shiftl m 5) i = (m * 32 + i)%Z) (seqZ 0 32)) (seqZ 0 8))
    by (vm_compute; repeat constructor).
  rewrite Forall_forall in Hall. specialize (Hall major). rewrite Forall_forall in Hall.
  apply Hall; apply elem_of_seqZ; lia.
Qed.

Lemma Head_write major arg : (0 <= major < 7)%Z -> (0 <= arg < 2 ^ 64)%Z -> Head major arg (write_head major arg).
Proof.
  intros Hm Ha. unfold write_head.
  rewrite (major_info _ 24), (major_info _ 25), (major_info _ 26), (major_info _ 27) by lia.
  destruct (Z.ltb_spec arg 24) as [|H1].
  { rewrite major_info by lia. apply Head_direct. lia. }
  destruct (Z.leb_spec arg 255) as [|H2].
  { replace [(major * 32 + 24)%Z; arg] with ((major * 32 + 24)%Z :: be_bytes 1 arg)
      by (cbn; by rewrite Z.div_1_r, Z.mod_small by lia).
    apply Head_bytes; [unfold head_widths; set_solver|cbn; lia]. }
  destruct (Z.leb_spec arg 65535); [|destruct (Z.leb_spec arg 4294967295)];
    (apply Head_bytes; [unfold head_widths; set_solver|cbn; lia]).
Qed.

(** The first byte of a head is below those of the simple values. *)
Lemma Head_first major arg h : (0 <= major < 7)%Z -> Head major arg h -> exists b h', h = b :: h' /\ (0 <= b < 224)%Z.
Proof.
  intros Hm [Ha|i n Hi%head_widths_info Ha]; eexists _, _; (split; [done|lia]).
Qed.

(** ** Doubles *)

Lemma digits2_pos_size m : digits2_pos m = Pos.size m.
Proof. induction m; cbn; by rewrite ?IHm. Qed.

(** A valid finite double is normal, or has the least exponent. *)
Lemma f64_valid_finite s m e : f64_valid (S754_finite s m e) = true ->
  (Zpos m < 2 ^ 53)%Z /\ (-1074 <= e <= 971)%Z /\ ((2 ^ 52 <= Zpos m)%Z \/ e = (-1074)%Z).
Proof.
  unfold f64_valid, valid_binary, bounded, canonical_mantissa, fexp, emin, f64_prec, f64_emax.
  rewrite andb_true_iff, Z.leb_le, digits2_pos_size. intros [He%Zeq_bool_eq Hle].
  pose proof (Pos.size_gt m) as Hgt. pose proof (Pos.size_le m) as Hsz.
  assert (Hu : (Zpos m < 2 ^ Zpos (Pos.size m))%Z) by (rewrite <- Pos2Z.inj_pow; lia).
  assert (Hl : (2 ^ Zpos (Pos.size m) <= 2 * Zpos m)%Z) by (rewrite <- Pos2Z.inj_pow; lia).
  set (d := Zpos (Pos.size m)) in *. assert (Hd : (d <= 53)%Z) by lia.
  assert (2 ^ d <= 2 ^ 53)%Z by (apply Z.pow_le_mono_r; lia).
  repeat split; [lia..|]. destruct (decide (d = 53%Z)) as [Hd'|]; [|right; lia].
  left. rewrite Hd' in Hl. change (2 ^ 53)%Z with (2 * 2 ^ 52)%Z in Hl. lia.
Qed.

Lemma f64_bits_range x : f64_valid x = true -> (0 <= f64_bits x < 256 ^ Z.of_nat 8)%Z.
Proof.
  intros Hx. change (256 ^ Z.of_nat 8)%Z with (2 ^ 64)%Z.
  destruct x as [[]|[]| |s m e]; [(cbn; lia)..|].
  apply f64_valid_finite in Hx as (Hm & He & Hcase). unfold f64_bits. cbv beta zeta.
  destruct (Z.leb_spec (2 ^ 52) (Zpos m)), s; lia.
Qed.

Lemma f64_bits_inj x y : f64_valid x = true -> f64_valid y = true -> f64_bits x = f64_bits y -> x = y.
Proof.
  intros Hx Hy Heq. unfold f64_bits in Heq. cbv beta zeta in Heq.
  destruct x as [sx|sx| |sx mx ex]; destruct y as [sy|sy| |sy my ey];
    repeat match goal with Hv : f64_valid (S754_finite _ _ _) = true |- _ =>
      apply f64_valid_finite in Hv as (? & ? & ?) end;
    repeat match goal with s : bool |- _ => destruct s end; try done;
    repeat match type of Heq with context [(?a <=? ?b)%Z] => destruct (Z.leb_spec a b) end;
    try (exfalso; lia);
    (assert (ex = ey /\ Zpos mx = Zpos my) as [-> [= ->]] by lia; done).
Qed.

(** ** Items are unambiguous *)

Definition item_unique (b : list Z) (v : CborValue) : Prop :=
  forall b' v' r r', Item b' v' -> b ++ r = b' ++ r' -> v = v' /\ r = r'.

Definition content_unique (major arg : Z) (c : list Z) (v : CborValue) : Prop :=
  forall c' v' r r', Content major arg c' v' -> c ++ r = c' ++ r' -> v = v' /\ r = r'.

Definition simple_unique (c : list Z) (v : CborValue) : Prop :=
  forall c' v' r r', Simple c' v' -> c ++ r = c' ++ r' -> v = v' /\ r = r'.

Definition items_unique (b : list Z) (l : list CborValue) : Prop :=
  forall b' l' r r', Items b' l' -> length l = length l' -> b ++ r = b' ++ r' -> l = l' /\ r = r'.

Definition pairs_unique (b : list Z) (m : list (CborValue * CborValue)) : Prop :=
  forall b' m' r r', Pairs b' m' -> length m = length m' -> b ++ r = b' ++ r' -> m = m' /\ r = r'.

Lemma Content_major major arg c v : Content major arg c v -> (0 <= major < 7)%Z.
Proof. by intros []. Qed.

Lemma Simple_first c v : Simple c v -> exists b c', c = b :: c' /\ (244 <= b)%Z.
Proof. intros []; by eexists _, _. Qed.

(** A head and a simple value never begin alike. *)
Lemma head_not_simple major arg h c v r s w r' :
  Head major arg h -> Content major arg c v -> Simple s w -> (h ++ c) ++ r <> s ++ r'.
Proof.
  intros Hh Hc%Content_major Hs Heq. destruct (Head_first _ _ _ Hc Hh) as (b & h' & -> & Hb).
  destruct (Simple_first _ _ Hs) as (b' & s' & -> & Hb'). cbn in Heq. injection Heq as -> _. lia.
Qed.

Lemma simple_values_unique c v : Simple c v -> simple_unique c v.
Proof.
  intros Hc c' v' r r' Hc' Heq.
  destruct Hc as [| | |x Hx], Hc' as [| | |y Hy]; try discriminate Heq; try (by injection Heq).
  apply app_inj_1 in Heq as [Hb ->]; [|cbn [length]; by rewrite !length_be_bytes].
  apply (f_equal tail) in Hb. change (be_bytes 8 (f64_bits x) = be_bytes 8 (f64_bits y)) in Hb.
  apply be_bytes_inj in Hb; [|by apply f64_bits_range..]. by apply f64_bits_inj in Hb as ->.
Qed.

(** Bytes denote at most one value, and end where its item ends. *)
Lemma items_unambiguous :
  (forall b v, Item b v -> item_unique b v) /\
  (forall c v, Simple c v -> simple_unique c v) /\
  (forall major arg c v, Content major arg c v -> content_unique major arg c v) /\
  (forall b l, Items b l -> items_unique b l) /\
  (forall b m, Pairs b m -> pairs_unique b m).
Proof.
  apply item_ind; try (intros; apply simple_values_unique; by constructor).
  - intros major arg h c v Hh Hc IH b' v' r r' Hi Heq.
    destruct Hi as [major' arg' h' c' v' Hh' Hc'|c' v' Hs']; [|by eapply head_not_simple in Heq].
    rewrite <- !app_assoc in Heq. destruct (Head_unambiguous _ _ _ _ _ _ _ _ Hh Hh' Heq) as (-> & -> & -> & Heq').
    by apply (IH c').
  - intros c v Hc IH b' v' r r' Hi Heq. destruct Hi as [major' arg' h' c' v' Hh' Hc'|c' v' Hs'].
    + symmetry in Heq. by eapply head_not_simple in Heq.
    + by eapply IH.
  - intros a c' v' r r' Hc Heq. by inversion Hc; subst.
  - intros a c' v' r r' Hc Heq. by inversion Hc; subst.
  - intros b c' v' r r' Hc Heq. inversion Hc as [| |b' Hlen| | | |]; subst.
    apply app_inj_1 in Heq as [-> ->]; [done|lia].
  - intros s c' v' r r' Hc Heq. inversion Hc as [| | |s' Hlen| | |]; subst.
    apply app_inj_1 in Heq as [->%as_bytes_inj ->]; [done|]. rewrite !length_as_bytes. lia.
  - intros b l _ IH c' v' r r' Hc Heq. inversion Hc as [| | | |? l' ?| |]; subst.
    destruct (IH c' l' r r') as [-> ->]; [done|lia|done..].
  - intros b m _ IH c' v' r r' Hc Heq. inversion Hc; subst.
    match goal with Hp : Pairs _ ?m' |- _ => destruct (IH c' m' r r') as [-> ->]; [done|lia|done..] end.
  - intros b t v _ IH c' v' r r' Hc Heq. inversion Hc; subst.
    match goal with Hp : Item _ ?w |- _ => by destruct (IH c' w r r') as [-> ->] end.
  - intros b' l' r r' Hi Hlen Heq. by destruct Hi.
  - intros b v b' l _ IHv _ IHl b2 l2 r r' Hi Hlen Heq. destruct Hi as [|b2 v2 b2' l2 Hv2 Hl2]; [done|].
    rewrite <- !app_assoc in Heq. apply (IHv b2 v2) in Heq as [-> Heq]; [|done].
    apply (IHl b2' l2) in Heq as [-> ->]; [done..|]. cbn in Hlen. lia.
  - intros b' m' r r' Hi Hlen Heq. by destruct Hi.
  - intros b k b1 v b' m _ IHk _ IHv _ IHm b2 m2 r r' Hi Hlen Heq.
    destruct Hi as [|b2 k2 b3 v2 b2' m2 Hk2 Hv2 Hm2]; [done|].
    rewrite <- !app_assoc in Heq. apply (IHk b2 k2) in Heq as [-> Heq]; [|done].
    apply (IHv b3 v2) in Heq as [-> Heq]; [|done].
    apply (IHm b2' m2) in Heq as [-> ->]; [done..|]. cbn in Hlen. lia.
Qed.

(** ** The encoder *)

Lemma Items_concat l :
  Forall (fun v => encodable v = true -> Item (encode v) v) l -> forallb encodable l = true ->
  Items (concat (encode <$> l)) l.
Proof.
  induction 1 as [|v l Hv Hl IH]; cbn; [constructor|]. rewrite andb_true_iff. intros [He Hl']. constructor; auto.
Qed.

Lemma Pairs_concat m :
  Forall (fun kv => (encodable kv.1 = true -> Item (encode kv.1) kv.1) /\
                    (encodable kv.2 = true -> Item (encode kv.2) kv.2)) m ->
  forallb (fun kv => encodable kv.1 && encodable kv.2) m = true ->
  Pairs (concat ((fun kv => encode kv.1 ++ encode kv.2) <$> m)) m.
Proof.
  induction 1 as [|[k v] m [Hk Hv] Hm IH]; cbn; [constructor|].
  rewrite !andb_true_iff. intros [[He1 He2] Hm']. rewrite <- app_assoc. constructor; auto.
Qed.

Lemma Item_content major arg c v :
  Content major arg c v -> (0 <= arg < 2 ^ 64)%Z -> Item (write_head major arg ++ c) v.
Proof.
  intros Hc Ha. eapply Item_head; [|done]. apply Head_write; [|done]. by apply Content_major in Hc.
Qed.

Lemma encode_Item v : encodable v = true -> Item (encode v) v.
Proof.
  induction v as [i|b|x|s|b| |t v IH|l IH|m IH] using CborValue_ind; cbn [encodable encode]; intros Hv;
    rewrite ?andb_true_iff, ?Z.ltb_lt, ?Z.leb_le in Hv.
  - destruct (Z.leb_spec 0 i).
    + rewrite <- (app_nil_r (write_head 0 i)). apply Item_content; [constructor|lia].
    + rewrite <- (app_nil_r (write_head 1 (-1 - i))). apply Item_content; [|lia].
      replace (CInteger i) with (CInteger (-1 - (-1 - i))) by (f_equal; lia). constructor.
  - apply Item_content; [constructor|lia].
  - by apply Item_simple, Simple_double.
  - apply Item_content; [constructor|lia].
  - destruct b; apply Item_simple; constructor.
  - apply Item_simple; constructor.
  - apply Item_content; [constructor; apply IH|]; naive_solver.
  - apply Item_content; [constructor; apply Items_concat|]; naive_solver lia.
  - apply Item_content; [constructor; apply Pairs_concat|]; naive_solver lia.
Qed.

(** Theorem (roundtrip): encoded bodies are read back as what they encode.  The
    bytes written for a value are a well-formed item of it in the sense of RFC
    8949, and whatever follows them, every reading of those bytes as an item
    gives that value and ends where the value ends. *)
Theorem encode_unambiguous v : encodable v = true ->
  Item (encode v) v /\
  forall b w r r', Item b w -> b ++ r' = encode v ++ r -> w = v /\ r' = r.
Proof.
  intros Hv%encode_Item. split; [done|]. intros b w r r' Hw Heq.
  destruct items_unambiguous as [Hu _]. by eapply Hu.
Qed.

(** ** Documents through CBOR *)

(** What [serde_json] guarantees of a value: numbers in range and finite,
    object keys distinct. *)
Definition number_ok (n : Number) : bool :=
  match n with
  | PosInt z => (0 <=? z)%Z && (z <=? u64_max)%Z
  | NegInt z => (i64_min <=? z)%Z && (z <? 0)%Z
  | Float (S754_zero _) => true
  | Float (S754_finite s m e) => f64_valid (S754_finite s m e)
  | Float _ => false
  end.

Fixpoint json_ok (v : Value) : bool :=
  match v with
  | VNumber n => number_ok n
  | VArray l => forallb json_ok l
  | VObject m => bool_decide (NoDup m.*1) && forallb (fun kv => json_ok kv.2) m
  | _ => true
  end.

Definition is_json_null (v : Value) : bool := match v with Null => true | _ => false end.

(** The document without the members of objects that are null. *)
Fixpoint present (f : Value -> Value) (m : list (string * Value)) : list (string * Value) :=
  match m with
  | [] => []
  | (k, x) :: m => if is_json_null x then present f m else (k, f x) :: present f m
  end.

Fixpoint without_nulls (v : Value) : Value :=
  match v with
  | VArray l => VArray (without_nulls <$> l)
  | VObject m => VObject (present without_nulls m)
  | _ => v
  end.

Section Documents.
Context `{CborReader} `{Base64}.

Lemma map_put_fresh k v (m : list (string * Value)) : k ∉ m.*1 -> map_put k v m = m ++ [(k, v)].
Proof.
  induction m as [|[k' v'] m IH]; cbn; [done|]. rewrite not_elem_of_cons. intros [Hk Hm].
  rewrite (proj2 (String.eqb_neq k' k)) by congruence. by rewrite IH.
Qed.

Lemma collect_items_ok (l : list Value) :
  Forall (fun v => json_ok v = true -> cbor_to_json (json_to_cbor v) = Ok (without_nulls v)) l ->
  forallb json_ok l = true -> collect_items cbor_to_json (json_to_cbor <$> l) = Ok (without_nulls <$> l).
Proof.
  induction 1 as [|v l Hv Hl IH]; cbn [fmap list_fmap forallb collect_items]; [done|].
  rewrite andb_true_iff. intros [Ho Hl']. rewrite Hv by done. cbn. by rewrite IH.
Qed.

Lemma is_null_json_to_cbor v : is_null (json_to_cbor v) = is_json_null v.
Proof. by destruct v as [| |[]| | |]. Qed.

Lemma collect_members_ok (m obj : list (string * Value)) :
  Forall (fun kv => json_ok kv.2 = true -> cbor_to_json (json_to_cbor kv.2) = Ok (without_nulls kv.2)) m ->
  forallb (fun kv => json_ok kv.2) m = true -> NoDup (obj.*1 ++ m.*1) ->
  collect_members cbor_to_json ((fun kv => (CText kv.1, json_to_cbor kv.2)) <$> m) obj
  = Ok (obj ++ present without_nulls m).
Proof.
  intros Hall. revert obj.
  induction Hall as [|[k v] m Hv Hm IH]; intros obj; cbn [fmap list_fmap forallb collect_members present fst snd].
  { intros _ _. by rewrite app_nil_r. }
  rewrite andb_true_iff, is_null_json_to_cbor. intros [Ho Hm'] Hnd.
  destruct (is_json_null v).
  - apply IH; [done|]. eapply sublist_NoDup; [done|]. apply sublist_app; [done|]. by apply sublist_cons.
  - cbn [snd] in Hv. rewrite Hv by done. cbn [mbind result_bind].
    rewrite map_put_fresh.
    + rewrite IH; [by rewrite <- app_assoc|done|]. by rewrite fmap_app, <- app_assoc.
    + apply NoDup_app in Hnd as (_ & Hd & _). intros Hin. by apply (Hd k Hin), elem_of_cons; left.
Qed.

Lemma integer_to_json_number n : number_ok n = true -> cbor_to_json (number_to_cbor n) = Ok (VNumber n).
Proof.
  destruct n as [z|z|[]]; cbn; try done; unfold integer_to_json; rewrite andb_true_iff, Z.leb_le;
    rewrite ?Z.leb_le, ?Z.ltb_lt; intros [H1 H2].
  - rewrite (proj2 (Z.leb_le i64_min z)), (proj2 (Z.leb_le 0 z)), (proj2 (Z.leb_le z u64_max))
      by (unfold i64_min in *; lia). by destruct (z <=? i64_max)%Z.
  - rewrite (proj2 (Z.leb_le i64_min z)), (proj2 (Z.leb_le z i64_max)), (proj2 (Z.leb_gt 0 z))
      by (unfold i64_max in *; lia). done.
Qed.

Lemma json_cbor_json v : json_ok v = true -> cbor_to_json (json_to_cbor v) = Ok (without_nulls v).
Proof.
  induction v as [| |n| |l IH|m IH]; cbn [json_ok]; intros Hok; try done.
  - by apply integer_to_json_number.
  - cbn [json_to_cbor cbor_to_json without_nulls]. by rewrite collect_items_ok.
  - rewrite andb_true_iff, bool_decide_eq_true in Hok. destruct Hok as [Hnd Hm].
    cbn [json_to_cbor cbor_to_json without_nulls]. by rewrite collect_members_ok.
Qed.

Lemma Item_not_nil v : ~ Item [] v.
Proof.
  intros Hi. remember [] as e eqn:Hnil. destruct Hi as [? ? ? ? ? Hh Hc|? ? Hs].
  - apply app_eq_nil in Hnil as [-> _].
    by apply (Head_first _ _ _ (Content_major _ _ _ _ Hc)) in Hh as (? & ? & ? & _).
  - by apply Simple_first in Hs as (? & ? & -> & _).
Qed.

(** C33 (roundtrip): a JSON document survives RPC v2 CBOR.  Encode a document
    of a JSON handler and decode the bytes again, with any reader that reads
    an item of RFC 8949 as the value it denotes: the result is the document,
    integers of the whole 64-bit range and doubles included, less the null
    members of objects. *)
Theorem document_survives_cbor (v : Value) (bytes := encode (json_to_cbor v)) :
  json_ok v = true -> encodable (json_to_cbor v) = true ->
  (forall w, Item bytes w -> from_reader bytes = Ok w) ->
  decode_to_json bytes = Ok (without_nulls v).
Proof.
  intros Hok He Hread. pose proof (encode_Item _ He) as Hi. specialize (Hread _ Hi).
  unfold decode_to_json. subst bytes.
  destruct (encode (json_to_cbor v)); [by apply Item_not_nil in Hi|]. rewrite Hread. by apply json_cbor_json.
Qed.

End Documents.

(** ** Witnesses *)

Definition sample_document : Value :=
  VObject [("n", VNumber (PosInt 18446744073709551615)); ("x", VNumber (Float (S754_finite false 6755399441055744 (-52))));
           ("gone", Null); ("l", VArray [VString "a"; VNumber (NegInt (-1)); Null])]%string.

Lemma encode_unambiguous_witness :
  Item (encode (json_to_cbor sample_document)) (json_to_cbor sample_document) /\
  forall b w r r', Item b w -> b ++ r' = encode (json_to_cbor sample_document) ++ r ->
    w = json_to_cbor sample_document /\ r' = r.
Proof. apply (encode_unambiguous (json_to_cbor sample_document)). reflexivity. Defined.

Definition sample_reader : CborReader :=
  {| from_reader := fun _ => Ok (json_to_cbor sample_document) |}.
Definition no_base64 : Base64 := {| base64_encode := fun _ => EmptyString |}.

Lemma document_survives_cbor_witness :
  @decode_to_json sample_reader no_base64 (encode (json_to_cbor sample_document))
  = Ok (VObject [("n", VNumber (PosInt 18446744073709551615));
                 ("x", VNumber (Float (S754_finite false 6755399441055744 (-52))));
                 ("l", VArray [VString "a"; VNumber (NegInt (-1)); Null])]%string).
Proof.
  apply (@document_survives_cbor sample_reader no_base64 sample_document); [reflexivity..|].
  intros w Hw. destruct items_unambiguous as [Hu _].
  assert (Hi : Item (encode (json_to_cbor sample_document)) (json_to_cbor sample_document))
    by (apply encode_Item; reflexivity).
  cbn [from_reader sample_reader]. f_equal. by destruct (Hu _ _ Hi _ w [] [] Hw eq_refl).
Defined.
