(* ===== verification/AwsChunked.v ===== *)
(** * The [aws-chunked] decoder

    [fakecloud-core/src/service.rs]: the incremental decoder of the framing
    that S3 clients put around upload bodies, fed with network frames that do
    not align with chunks, the spooling loop that drives it, and the header
    helpers.  Bytes are [Z]; a line is decoded as UTF-8 in the character range
    of the library (a character beyond it makes the chunk size malformed). *)

From Stdlib Require Import ZArith Lia Bool String Ascii.
From stdpp Require Import base option list strings.
From S2P Require Import Prelude.

Module AwsChunked.

(** ** Numbers and text *)

Definition CR : Z := 13.
Definition LF : Z := 10.
Definition SEMI : Z := 59.

Fixpoint from_utf8 (b : list Z) : option string :=
  match b with
  | [] => Some EmptyString
  | x :: b' =>
      if (0 <=? x)%Z && (x <? 128)%Z then String (ascii_of_N (Z.to_N x)) <$> from_utf8 b'
      else if (194 <=? x)%Z && (x <=? 195)%Z then
        match b' with
        | y :: b'' =>
            if (128 <=? y)%Z && (y <=? 191)%Z
            then String (ascii_of_N (Z.to_N ((x - 192) * 64 + (y - 128)))) <$> from_utf8 b''
            else None
        | [] => None
        end
      else None
  end.

Definition hex_value (c : ascii) : option Z :=
  let n := Z.of_N (char_code c) in
  if is_ascii_digit c then Some (n - 48)%Z
  else if (97 <=? n)%Z && (n <=? 102)%Z then Some (n - 87)%Z
  else if (65 <=? n)%Z && (n <=? 70)%Z then Some (n - 55)%Z
  else None.

Fixpoint hex_digits (acc : Z) (s : string) : option Z :=
  match s with
  | EmptyString => Some acc
  | String c s' => v ← hex_value c; hex_digits (acc * 16 + v) s'
  end.

(** [usize::from_str_radix(s, 16)] on a 64-bit target. *)
Definition usize_from_hex (s : string) : option Z :=
  let digits := match s with String "+" s' => s' | _ => s end in
  match digits with
  | EmptyString => None
  | _ => hex_digits 0 digits ≫= in_range 0 u64_max
  end.

(** ** The decoder *)

Inductive ChunkState : Type := Header | Data | AfterData | Trailer.

#[global] Instance ChunkState_eq_dec : EqDecision ChunkState.
Proof. solve_decision. Defined.

Record AwsChunkedDecoder := mkDecoder {
  state : ChunkState;
  line : list Z;
  remaining : Z;
  done : bool
}.

Definition decoder_default : AwsChunkedDecoder := mkDecoder Header [] 0 false.

Inductive MalformedChunk : Type := Malformed.

(** [line.split(|&c| c == b';').next()]. *)
Fixpoint before_semi (l : list Z) : list Z :=
  match l with
  | [] => []
  | b :: l' => if (b =? SEMI)%Z then [] else b :: before_semi l'
  end.

(** The chunk size a header line announces. *)
Definition chunk_size (l : list Z) : option Z :=
  s ← from_utf8 (before_semi l);
  usize_from_hex (trim s).

(** A complete header or trailer line. *)
Definition end_of_line (is_header : bool) (d : AwsChunkedDecoder) : Result MalformedChunk AwsChunkedDecoder :=
  if is_header then
    size ← ok_or Malformed (chunk_size (line d));
    Ok (if (size =? 0)%Z then mkDecoder Trailer [] (remaining d) (done d)
        else mkDecoder Data [] size (done d))
  else Ok (mkDecoder (state d) [] (remaining d) (bool_decide (line d = []) || done d)).

(** The inner loop of a line: bytes up to a newline, carriage returns dropped;
    whether a newline was seen, and the rest of the input. *)
Fixpoint read_line (acc input : list Z) : list Z * bool * list Z :=
  match input with
  | [] => (acc, false, [])
  | b :: input' =>
      if (b =? LF)%Z then (acc, true, input')
      else read_line (if (b =? CR)%Z then acc else acc ++ [b]) input'
  end.

(** Bytes up to and including a newline are dropped. *)
Fixpoint skip_line (input : list Z) : bool * list Z :=
  match input with
  | [] => (false, [])
  | b :: input' => if (b =? LF)%Z then (true, input') else skip_line input'
  end.

(** One turn of the loop of [feed]: the decoder, the bytes yielded, the rest of
    the input. *)
Definition feed_turn (d : AwsChunkedDecoder) (input : list Z)
  : Result MalformedChunk (AwsChunkedDecoder * list Z * list Z) :=
  match state d with
  | Data =>
      let take := Z.min (remaining d) (Z.of_nat (length input)) in
      let rest := (remaining d - take)%Z in
      Ok (mkDecoder (if (rest =? 0)%Z then AfterData else Data) (line d) rest (done d),
          firstn (Z.to_nat take) input, skipn (Z.to_nat take) input)
  | AfterData =>
      let '(found, rest) := skip_line input in
      Ok (mkDecoder (if found then Header else AfterData) (line d) (remaining d) (done d), [], rest)
  | Header | Trailer =>
      let '(acc, found, rest) := read_line (line d) input in
      let d := mkDecoder (state d) acc (remaining d) (done d) in
      if found then
        d' ← end_of_line (bool_decide (state d = Header)) d;
        Ok (d', [], rest)
      else Ok (d, [], rest)
  end.

Fixpoint feed_loop (fuel : nat) (d : AwsChunkedDecoder) (input out : list Z)
  : Result MalformedChunk (AwsChunkedDecoder * list Z) :=
  match fuel with
  | 0 => Ok (d, out)
  | S fuel =>
      match input with
      | [] => Ok (d, out)
      | _ =>
          if done d then Ok (d, out)
          else
            '(d', yielded, rest) ← feed_turn d input;
            feed_loop fuel d' rest (out ++ yielded)
      end
  end.

(** Every turn outside an empty chunk consumes a byte, so the length of the
    input bounds the turns. *)
Definition feed (d : AwsChunkedDecoder) (input : list Z) : Result MalformedChunk (AwsChunkedDecoder * list Z) :=
  feed_loop (length input) d input [].

(** ** Spooling

    The frames of a body through the decoder, if there is one; the payload
    written to disk. *)

Inductive SpoolError : Type := InvalidChunkSizeError.

Fixpoint spool_frames (decoder : option AwsChunkedDecoder) (frames : list (list Z)) (written : list Z)
  : Result SpoolError (list Z) :=
  match frames with
  | [] => Ok written
  | raw :: frames =>
      if bool_decide (raw = []) then spool_frames decoder frames written
      else
        match decoder with
        | Some d =>
            match feed d raw with
            | Ok (d', decoded) => spool_frames (Some d') frames (written ++ decoded)
            | Err _ => Err InvalidChunkSizeError
            end
        | None => spool_frames None frames (written ++ raw)
        end
  end.

Definition spool_request_stream (aws_chunked : bool) (frames : list (list Z)) : Result SpoolError (list Z) :=
  spool_frames (if aws_chunked then Some decoder_default else None) frames [].

(** ** Headers *)

Definition is_aws_chunked (content_encoding content_sha256 : option string) : bool :=
  match content_encoding with
  | Some v => existsb (fun t => eq_ignore_ascii_case (trim t) "aws-chunked") (split_char "," v)
  | None => false
  end
  || match content_sha256 with Some v => starts_with "STREAMING-" v | None => false end.

Definition strip_aws_chunked_encoding (content_encoding : option string) : option string :=
  ce ← content_encoding;
  let kept := filter (fun t => is_empty_str t = false /\ eq_ignore_ascii_case t "aws-chunked" = false)
                (trim <$> split_char "," ce) in
  if bool_decide (kept = []) then None else Some (String.concat ", " kept).

End AwsChunked.
