(* ===== verification/AwsChunkedTheory.v ===== *)
(** * The chunked decoder does not see frames

    Theorems about [AwsChunked]: feeding is a byte machine, so the frames a
    body arrives in do not matter, and decoding inverts the encoding S3
    clients use. *)

From Stdlib Require Import ZArith Lia Bool String Ascii.
From stdpp Require Import base option list strings.
From S2P Require Import Prelude AwsChunked.
Import AwsChunked.

(** ** The byte machine *)

Definition step (d : AwsChunkedDecoder) (b : Z) : Result MalformedChunk (AwsChunkedDecoder * list Z) :=
  if done d then Ok (d, [])
  else
    match state d with
    | Data =>
        let rest := (remaining d - 1)%Z in
        Ok (mkDecoder (if (rest =? 0)%Z then AfterData else Data) (line d) rest false, [b])
    | AfterData =>
        Ok (mkDecoder (if (b =? LF)%Z then Header else AfterData) (line d) (remaining d) false, [])
    | Header | Trailer =>
        if (b =? LF)%Z then d' ← end_of_line (bool_decide (state d = Header)) d; Ok (d', [])
        else Ok (mkDecoder (state d) (if (b =? CR)%Z then line d else line d ++ [b]) (remaining d) false, [])
    end.

Fixpoint steps (d : AwsChunkedDecoder) (input : list Z) : Result MalformedChunk (AwsChunkedDecoder * list Z) :=
  match input with
  | [] => Ok (d, [])
  | b :: input =>
      '(d1, out1) ← step d b;
      '(d2, out2) ← steps d1 input;
      Ok (d2, out1 ++ out2)
  end.

(** In a chunk there is always something left to read. *)
Definition inv (d : AwsChunkedDecoder) : Prop := state d = Data -> (0 < remaining d)%Z.

Lemma steps_app d a b :
  steps d (a ++ b) =
  ('(d1, out1) ← steps d a; '(d2, out2) ← steps d1 b; Ok (d2, out1 ++ out2)).
Proof.
  revert d. induction a as [|x a IH]; intros d; simpl.
  - by destruct (steps d b) as [[? ?]|].
  - destruct (step d x) as [[d1 o1]|]; simpl; [|done]. rewrite IH.
    destruct (steps d1 a) as [[d2 o2]|]; simpl; [|done].
    destruct (steps d2 b) as [[d3 o3]|]; simpl; [|done]. by rewrite app_assoc.
Qed.

Lemma steps_done d input : done d = true -> steps d input = Ok (d, []).
Proof.
  intros Hd. induction input as [|b input IH]; simpl; [done|].
  unfold step at 1. rewrite Hd. simpl. by rewrite IH.
Qed.

Lemma steps_data l r input :
  (0 < r)%Z -> (Z.of_nat (length input) <= r)%Z ->
  steps (mkDecoder Data l r false) input =
  Ok (mkDecoder (if (r - Z.of_nat (length input) =? 0)%Z then AfterData else Data) l
        (r - Z.of_nat (length input)) false, input).
Proof.
  revert r. induction input as [|b input IH]; intros r Hr Hlen; cbn [length steps].
  - rewrite Z.sub_0_r. destruct (Z.eqb_spec r 0); [lia|done].
  - cbn [length] in Hlen. unfold step. cbn [done state remaining line]. cbn [mbind result_bind].
    destruct (Z.eqb_spec (r - 1) 0).
    + assert (length input = 0) as ->%nil_length_inv by lia. by assert (r = 1)%Z as -> by lia.
    + rewrite IH by lia. cbn [mbind result_bind]. by replace (r - Z.of_nat (Datatypes.S (length input)))%Z
        with (r - 1 - Z.of_nat (length input))%Z by lia.
Qed.

Lemma skip_line_steps l r input :
  let '(found, rest) := skip_line input in
  exists pre, input = pre ++ rest /\ (input <> [] -> pre <> []) /\
    steps (mkDecoder AfterData l r false) pre =
    Ok (mkDecoder (if found then Header else AfterData) l r false, []).
Proof.
  induction input as [|b input IH]; simpl; [by exists []|].
  destruct (b =? LF)%Z eqn:E.
  - exists [b]. split_and!; [done|done|]. simpl. unfold step. simpl. by rewrite E.
  - destruct (skip_line input) as [found rest]. destruct IH as (pre & -> & _ & Hs).
    exists (b :: pre). split_and!; [done|done|]. cbn [steps]. unfold step. cbn [done state].
    rewrite E. cbn [mbind result_bind line remaining]. by rewrite Hs.
Qed.

Lemma read_line_steps s l r input :
  s = Header \/ s = Trailer ->
  let '(acc, found, rest) := read_line l input in
  exists pre, input = pre ++ rest /\ (input <> [] -> pre <> []) /\
    steps (mkDecoder s l r false) pre =
    if found then d' ← end_of_line (bool_decide (s = Header)) (mkDecoder s acc r false); Ok (d', [])
    else Ok (mkDecoder s acc r false, []).
Proof.
  intros Hs. revert l. induction input as [|b input IH]; intros l; cbn [read_line]; [by exists []|].
  destruct (b =? LF)%Z eqn:E.
  - exists [b]. split_and!; [done|done|]. cbn [steps]. unfold step. cbn [done state].
    rewrite E. destruct Hs as [->| ->]; by destruct (end_of_line _ _).
  - specialize (IH (if (b =? CR)%Z then l else l ++ [b])).
    destruct (read_line _ input) as [[acc found] rest]. destruct IH as (pre & -> & _ & Hst).
    exists (b :: pre). split_and!; [done|done|]. cbn [steps]. unfold step. cbn [done state].
    rewrite E. cbn [line remaining]. destruct Hs as [-> | ->]; cbn [mbind result_bind]; rewrite Hst;
      destruct found; [by destruct (end_of_line _ _)|done|by destruct (end_of_line _ _)|done].
Qed.

(** A turn of the loop is some bytes of the machine, at least one. *)
Lemma feed_turn_steps d input :
  inv d -> done d = false -> input <> [] ->
  match feed_turn d input with
  | Ok (d', out, rest) =>
      exists pre, input = pre ++ rest /\ pre <> [] /\ steps d pre = Ok (d', out)
  | Err e => exists pre rest, input = pre ++ rest /\ steps d pre = Err e
  end.
Proof.
  intros Hi Hd Hne. destruct d as [s l r dn]. simpl in Hd. subst dn. unfold feed_turn. cbn [state line remaining done].
  destruct s.
  - pose proof (read_line_steps Header l r input (or_introl eq_refl)) as Hr.
    destruct (read_line l input) as [[acc found] rest]. destruct Hr as (pre & -> & Hp & Hs).
    cbn [state]. destruct found; [|eauto].
    destruct (end_of_line _ _) as [d'|e]; cbn [mbind result_bind] in *; eauto.
  - specialize (Hi eq_refl). simpl in Hi.
    set (take := Z.min r (Z.of_nat (length input))).
    assert (Hlen : Z.of_nat (length (firstn (Z.to_nat take) input)) = take).
    { rewrite length_take. subst take. lia. }
    exists (firstn (Z.to_nat take) input). rewrite take_drop. split_and!; [done| |].
    + intros Hnil. rewrite Hnil in Hlen. subst take. destruct input; [done|]. cbn [length] in Hlen. lia.
    + rewrite steps_data by lia. by rewrite Hlen.
  - pose proof (skip_line_steps l r input) as Hr.
    destruct (skip_line input) as [found rest]. destruct Hr as (pre & -> & Hp & Hs). eauto.
  - pose proof (read_line_steps Trailer l r input (or_intror eq_refl)) as Hr.
    destruct (read_line l input) as [[acc found] rest]. destruct Hr as (pre & -> & Hp & Hs).
    cbn [state]. destruct found; [|eauto].
    destruct (end_of_line _ _) as [d'|e]; cbn [mbind result_bind] in *; eauto.
Qed.

Lemma step_inv d b d' out : inv d -> step d b = Ok (d', out) -> inv d'.
Proof.
  unfold inv, step, end_of_line. intros Hi. destruct (done d); [by intros [= <- <-]|].
  destruct (state d) eqn:Es; simpl.
  - destruct (b =? LF)%Z; simpl; [|by intros [= <- <-]; simpl].
    destruct (chunk_size (line d)) as [n|] eqn:En; simpl; [|done].
    destruct (Z.eqb_spec n 0); intros [= <- <-]; simpl; [done|].
    intros _. unfold chunk_size, usize_from_hex in En. apply bind_Some in En as (s & _ & En).
    destruct (match trim s with String "+" s' => s' | _ => trim s end); [done|].
    apply bind_Some in En as (z & _ & Hz). unfold in_range in Hz.
    destruct (Z.leb_spec 0 z); simpl in Hz; [|done]. destruct (_ <=? _)%Z; [|done].
    injection Hz as <-. lia.
  - specialize (Hi eq_refl). destruct (Z.eqb_spec (remaining d - 1) 0); intros [= <- <-]; simpl; [done|].
    intros _. lia.
  - destruct (b =? LF)%Z; intros [= <- <-]; simpl; done.
  - destruct (b =? LF)%Z; simpl; intros [= <- <-]; simpl; try done; by rewrite Es.
Qed.

Lemma steps_inv d input d' out : inv d -> steps d input = Ok (d', out) -> inv d'.
Proof.
  revert d out. induction input as [|b input IH]; intros d out Hi; simpl; [by intros [= <- <-]|].
  intros ([d1 o1] & H1 & ([d2 o2] & H2 & [= <- <-])%bind_Ok)%bind_Ok.
  eapply IH; [|exact H2]. by eapply step_inv.
Qed.

Lemma feed_loop_steps fuel d input out :
  inv d -> length input <= fuel ->
  feed_loop fuel d input out = ('(d', o) ← steps d input; Ok (d', out ++ o)).
Proof.
  revert d input out. induction fuel as [|fuel IH]; intros d input out Hi Hlen.
  - destruct input; [|simpl in Hlen; lia]. simpl. by rewrite app_nil_r.
  - destruct input as [|b input]; [simpl; by rewrite app_nil_r|]. cbn [feed_loop].
    destruct (done d) eqn:Hd; [rewrite steps_done by done; simpl; by rewrite app_nil_r|].
    pose proof (feed_turn_steps d (b :: input) Hi Hd ltac:(done)) as Ht.
    destruct (feed_turn d (b :: input)) as [[[d' o] rest]|e]; cbn [mbind result_bind].
    + destruct Ht as (pre & Hin & Hne & Hs). rewrite Hin, steps_app, Hs. cbn [mbind result_bind].
      rewrite IH; [|by eapply steps_inv|].
      * destruct (steps d' rest) as [[d2 o2]|]; cbn [mbind result_bind]; [|done]. by rewrite app_assoc.
      * apply (f_equal length) in Hin. rewrite length_app in Hin. destruct pre; [done|].
        simpl in *. lia.
    + destruct Ht as (pre & rest & Hin & Hs). by rewrite Hin, steps_app, Hs.
Qed.

Lemma feed_steps d input : inv d -> feed d input = steps d input.
Proof.
  intros Hi. unfold feed. rewrite feed_loop_steps by done. by destruct (steps d input) as [[? ?]|].
Qed.

(** ** Frames *)

Lemma default_inv : inv decoder_default.
Proof. done. Qed.

Lemma spool_frames_steps d frames written :
  inv d ->
  spool_frames (Some d) frames written =
  match steps d (concat frames) with
  | Ok (_, out) => Ok (written ++ out)
  | Err _ => Err InvalidChunkSizeError
  end.
Proof.
  revert d written. induction frames as [|raw frames IH]; intros d written Hi; simpl.
  - by rewrite app_nil_r.
  - rewrite steps_app. case_bool_decide as Hraw.
    + subst raw. simpl. rewrite IH by done. by destruct (steps d (concat frames)) as [[? ?]|].
    + rewrite feed_steps by done. destruct (steps d raw) as [[d' o]|e] eqn:Hs; cbn [mbind result_bind]; [|done].
      rewrite IH by (by eapply steps_inv). destruct (steps d' (concat frames)) as [[? ?]|]; simpl; [|done].
      by rewrite app_assoc.
Qed.

(** Theorem (equivalence): the frames a body arrives in do not matter.  Two
    sequences of network frames that carry the same bytes are spooled alike,
    whatever their boundaries, errors included. *)
Theorem spooling_ignores_frames aws_chunked frames1 frames2 :
  concat frames1 = concat frames2 ->
  spool_request_stream aws_chunked frames1 = spool_request_stream aws_chunked frames2.
Proof.
  intros Heq. unfold spool_request_stream. destruct aws_chunked.
  - by rewrite !(spool_frames_steps _ _ _ default_inv), Heq.
  - assert (Hn : forall frames written, spool_frames None frames written = Ok (written ++ concat frames)).
    { induction frames as [|raw frames IH]; intros w; simpl; [by rewrite app_nil_r|].
      case_bool_decide; [by subst; rewrite IH|]. by rewrite IH, app_assoc. }
    by rewrite !Hn, Heq.
Qed.

Lemma spooling_ignores_frames_witness :
  spool_request_stream true [[51; 13]; [10; 97; 98]; [99; 13; 10; 48; 13; 10; 13; 10]]%Z
  = spool_request_stream true [[51; 13; 10; 97; 98; 99; 13; 10; 48; 13; 10; 13; 10]]%Z.
Proof. apply spooling_ignores_frames. reflexivity. Defined.

(** ** Encoding

    What a client writes: per chunk its size in hexadecimal, an extension such
    as [;chunk-signature=...], and the data; a chunk of size zero, trailers,
    and a blank line. *)

Definition hex_char (n : Z) : ascii :=
  if (n <? 10)%Z then ascii_of_N (Z.to_N (48 + n)) else ascii_of_N (Z.to_N (87 + n)).

Fixpoint print_hex (fuel : nat) (z : Z) (acc : string) : string :=
  match fuel with
  | 0 => acc
  | S f =>
      let acc' := String (hex_char (z mod 16)) acc in
      if (z <? 16)%Z then acc' else print_hex f (z / 16) acc'
  end.

Definition hex_size (z : Z) : string := print_hex (S (Z.to_nat (Z.log2 z))) z EmptyString.

Record Chunk := { c_ext : list Z; c_data : list Z }.

Definition line_bytes (l : list Z) : Prop := Forall (fun b => b <> LF /\ b <> CR) l.
Definition ext_ok (l : list Z) : Prop := line_bytes l /\ (l = [] \/ exists l', l = SEMI :: l').
Definition chunk_ok (c : Chunk) : Prop :=
  ext_ok (c_ext c) /\ c_data c <> [] /\ (Z.of_nat (length (c_data c)) <= u64_max)%Z.

Definition encode_chunk (c : Chunk) : list Z :=
  as_bytes (hex_size (Z.of_nat (length (c_data c)))) ++ c_ext c ++ [CR; LF] ++ c_data c ++ [CR; LF].

Definition encode_body (chunks : list Chunk) (last_ext : list Z) (trailers : list (list Z)) : list Z :=
  concat (encode_chunk <$> chunks) ++ [48%Z] ++ last_ext ++ [CR; LF]
  ++ concat ((fun t => t ++ [CR; LF]) <$> trailers) ++ [CR; LF].

Lemma from_utf8_as_bytes s : from_utf8 (as_bytes s) = Some s.
Proof.
  induction s as [|c s IH]; [done|]. transitivity (String c <$> from_utf8 (as_bytes s)); [|by rewrite IH].
  cbn [as_bytes]. generalize (as_bytes s). intros t.
  by destruct c as [[] [] [] [] [] [] [] []].
Qed.

Lemma hex_char_spec z :
  (0 <= z < 16)%Z -> hex_value (hex_char z) = Some z /\ is_whitespace (hex_char z) = false /\
    as_bytes (String (hex_char z) EmptyString) = [Z.of_N (char_code (hex_char z))] /\
    Z.of_N (char_code (hex_char z)) <> LF /\ Z.of_N (char_code (hex_char z)) <> CR /\
    Z.of_N (char_code (hex_char z)) <> SEMI /\ hex_char z <> "+"%char.
Proof.
  intros Hz. assert (Hc : z ∈ [0; 1; 2; 3; 4; 5; 6; 7; 8; 9; 10; 11; 12; 13; 14; 15]%Z).
  { rewrite !elem_of_cons. lia. }
  repeat (apply elem_of_cons in Hc as [->|Hc]; [done|]). by apply elem_of_nil in Hc.
Qed.

Definition hex_ok (c : ascii) : bool :=
  bool_decide (is_Some (hex_value c)) && negb (is_whitespace c) && (char_code c <? 128)%N
  && negb (Ascii.eqb c "+") && negb (Ascii.eqb c ";").

Lemma hex_ok_char z : (0 <= z < 16)%Z -> hex_ok (hex_char z) = true.
Proof.
  intros Hz. assert (Hc : z ∈ [0; 1; 2; 3; 4; 5; 6; 7; 8; 9; 10; 11; 12; 13; 14; 15]%Z).
  { rewrite !elem_of_cons. lia. }
  repeat (apply elem_of_cons in Hc as [->|Hc]; [done|]). by apply elem_of_nil in Hc.
Qed.

Lemma print_hex_ok fuel z acc :
  (0 <= z)%Z -> string_forallb hex_ok acc = true -> string_forallb hex_ok (print_hex fuel z acc) = true.
Proof.
  revert z acc. induction fuel as [|f IH]; intros z acc Hz Hacc; [done|]. cbn [print_hex].
  assert (Hs : string_forallb hex_ok (String (hex_char (z mod 16)) acc) = true).
  { cbn. by rewrite hex_ok_char by (apply Z.mod_pos_bound; lia). }
  destruct (z <? 16)%Z; [done|]. apply IH; [apply Z.div_pos; lia|done].
Qed.

Lemma hex_digits_print fuel z acc :
  (0 <= z < 2 ^ Z.of_nat fuel)%Z -> hex_digits 0 (print_hex fuel z acc) = hex_digits z acc.
Proof.
  revert z acc. induction fuel as [|f IH]; intros z acc Hz.
  { simpl in *. by assert (z = 0)%Z as -> by lia. }
  cbn [print_hex].
  destruct (hex_char_spec (z mod 16)) as [Hv _]; [apply Z.mod_pos_bound; lia|].
  assert (Hstep : forall a, hex_digits a (String (hex_char (z mod 16)) acc) = hex_digits (a * 16 + z mod 16) acc).
  { intros a. cbn [hex_digits]. by rewrite Hv. }
  destruct (Z.ltb_spec z 16).
  - rewrite Hstep. f_equal. rewrite Z.mod_small by lia. lia.
  - rewrite IH, Hstep.
    + f_equal. pose proof (Z.div_mod z 16). lia.
    + rewrite Nat2Z.inj_succ, Z.pow_succ_r in Hz by lia.
      split; [apply Z.div_pos; lia|]. apply Z.div_lt_upper_bound; lia.
Qed.

Lemma print_hex_cons fuel z acc : exists c s, print_hex (S fuel) z acc = String c s.
Proof.
  revert z acc. induction fuel as [|f IH]; intros z acc; cbn [print_hex].
  - destruct (z <? 16)%Z; eauto.
  - destruct (z <? 16)%Z; [eauto|]. apply IH.
Qed.

Lemma hex_size_parses z : (0 <= z <= u64_max)%Z -> usize_from_hex (hex_size z) = Some z.
Proof.
  intros Hz. unfold hex_size.
  pose proof (print_hex_ok (S (Z.to_nat (Z.log2 z))) z EmptyString ltac:(lia) eq_refl) as Hok.
  assert (Hd : hex_digits 0 (print_hex (S (Z.to_nat (Z.log2 z))) z EmptyString) = Some z).
  { rewrite hex_digits_print; [done|]. rewrite Nat2Z.inj_succ, Z2Nat.id by apply Z.log2_nonneg.
    destruct (Z.eq_dec z 0%Z) as [->|Hne]; [done|]. pose proof (Z.log2_spec z). lia. }
  destruct (print_hex_cons (Z.to_nat (Z.log2 z)) z EmptyString) as (c & s & Hp). rewrite Hp in *.
  simpl in Hok. assert (Hc : c <> "+"%char).
  { intros ->. done. }
  unfold usize_from_hex.
  assert (Hm : match String c s with String "+" s' => s' | _ => String c s end = String c s).
  { destruct c as [[] [] [] [] [] [] [] []]; try reflexivity. by destruct Hc. }
  rewrite Hm, Hd. simpl. unfold in_range.
  destruct (Z.leb_spec 0 z), (Z.leb_spec z u64_max); simpl; try done; lia.
Qed.

Lemma hex_trim s : string_forallb hex_ok s = true -> trim s = s.
Proof.
  intros Hs. assert (Hw : string_forallb (fun c => negb (is_whitespace c)) s = true).
  { revert Hs. apply string_forallb_impl. unfold hex_ok. intros c Hc. boolify. by apply negb_true_iff. }
  clear Hs. unfold trim. assert (Hstart : trim_start s = s).
  { destruct s as [|c s]; [done|]. simpl in *. apply andb_true_iff in Hw as [Hc%negb_true_iff _].
    by rewrite Hc. }
  rewrite Hstart. clear Hstart. induction s as [|c s IH]; [done|]. simpl in *.
  apply andb_true_iff in Hw as [Hc%negb_true_iff Hw]. rewrite (IH Hw), Hc. by destruct s.
Qed.

Lemma hex_bytes s :
  string_forallb hex_ok s = true -> Forall (fun b => b <> LF /\ b <> CR /\ b <> SEMI) (as_bytes s).
Proof.
  induction s as [|c s IH]; [constructor|]. cbn [string_forallb as_bytes].
  rewrite andb_true_iff. intros [Hc Hs]. apply Forall_app. split; [|by apply IH]. revert Hc. clear.
  by destruct c as [[] [] [] [] [] [] [] []]; vm_compute; intros [=]; repeat constructor.
Qed.

Lemma before_semi_app a l :
  Forall (fun b => b <> SEMI) a -> (l = [] \/ exists l', l = SEMI :: l') -> before_semi (a ++ l) = a.
Proof.
  intros Ha Hl. induction Ha as [|b a Hb Ha IH]; simpl.
  - by destruct Hl as [->|[l' ->]].
  - destruct (Z.eqb_spec b SEMI); [done|]. by rewrite IH.
Qed.

Lemma chunk_size_line z ext :
  (0 <= z <= u64_max)%Z -> ext_ok ext -> chunk_size (as_bytes (hex_size z) ++ ext) = Some z.
Proof.
  intros Hz [_ Hext]. unfold chunk_size.
  assert (Hok : string_forallb hex_ok (hex_size z) = true) by (apply print_hex_ok; [lia|done]).
  rewrite before_semi_app; [|eapply Forall_impl; [by apply hex_bytes|naive_solver]|done].
  rewrite from_utf8_as_bytes. cbn [mbind option_bind]. rewrite hex_trim by done. by apply hex_size_parses.
Qed.

(** A line without line breaks is collected. *)
Lemma steps_line s l r bytes :
  s = Header \/ s = Trailer -> line_bytes bytes ->
  steps (mkDecoder s l r false) (bytes ++ [CR]) = Ok (mkDecoder s (l ++ bytes) r false, []).
Proof.
  intros Hs Hb. revert l. induction Hb as [|b bytes [HL HC] Hb IH]; intros l.
  - rewrite app_nil_r. destruct Hs as [->| ->]; reflexivity.
  - cbn [app steps]. unfold step at 1. cbn [done state line remaining].
    rewrite (proj2 (Z.eqb_neq b LF)), (proj2 (Z.eqb_neq b CR)) by done.
    destruct Hs as [->| ->]; cbn [mbind result_bind]; rewrite IH by (by auto); cbn [mbind result_bind];
      by rewrite <- app_assoc.
Qed.

Lemma steps_header r z ext :
  (0 <= z <= u64_max)%Z -> ext_ok ext ->
  steps (mkDecoder Header [] r false) (as_bytes (hex_size z) ++ ext ++ [CR; LF]) =
  Ok (if (z =? 0)%Z then mkDecoder Trailer [] r false else mkDecoder Data [] z false, []).
Proof.
  intros Hz Hext. change [CR; LF] with ([CR] ++ [LF]). rewrite !app_assoc, steps_app, steps_line.
  - cbn [mbind result_bind steps]. unfold step. cbn [done state].
    change (LF =? LF)%Z with true. cbn iota. unfold end_of_line. rewrite bool_decide_true by done.
    cbn [line app]. rewrite chunk_size_line by done. cbn [ok_or mbind result_bind remaining done].
    by destruct (z =? 0)%Z.
  - by left.
  - apply Forall_app. split; [|apply Hext]. eapply Forall_impl; [apply hex_bytes|naive_solver].
    apply print_hex_ok; [lia|done].
Qed.

Lemma steps_chunk r c :
  chunk_ok c ->
  steps (mkDecoder Header [] r false) (encode_chunk c) = Ok (mkDecoder Header [] 0 false, c_data c).
Proof.
  intros (Hext & Hne & Hlen). unfold encode_chunk.
  set (z := Z.of_nat (length (c_data c))) in *.
  assert (Hpos : (0 < z)%Z) by (subst z; destruct (c_data c); [done|simpl; lia]).
  rewrite (app_assoc (c_ext c)), (app_assoc (as_bytes _)), steps_app, steps_header by (done || lia).
  destruct (Z.eqb_spec z 0); [lia|]. cbn [mbind result_bind].
  rewrite steps_app, steps_data by lia. cbn [mbind result_bind].
  fold z. rewrite Z.sub_diag. change (0 =? 0)%Z with true. cbn. by rewrite app_nil_r.
Qed.

Lemma steps_chunks r chunks :
  Forall chunk_ok chunks ->
  exists r', steps (mkDecoder Header [] r false) (concat (encode_chunk <$> chunks)) =
    Ok (mkDecoder Header [] r' false, concat (c_data <$> chunks)).
Proof.
  intros Hc. revert r. induction Hc as [|c chunks Hc Hcs IH]; intros r; [by exists r|].
  destruct (IH 0%Z) as [r' Hr]. exists r'. rewrite !fmap_cons. cbn [concat].
  rewrite steps_app, steps_chunk by done. cbn [mbind result_bind]. by rewrite Hr.
Qed.

Lemma steps_trailers r trailers :
  Forall (fun t => line_bytes t /\ t <> []) trailers ->
  steps (mkDecoder Trailer [] r false) (concat ((fun t => t ++ [CR; LF]) <$> trailers) ++ [CR; LF]) =
  Ok (mkDecoder Trailer [] r true, []).
Proof.
  intros Ht. induction Ht as [|t trailers [Hl Hne] Hts IH]; [done|].
  rewrite fmap_cons. cbn [concat]. rewrite <- app_assoc, steps_app.
  replace (t ++ [CR; LF]) with ((t ++ [CR]) ++ [LF]) by (by rewrite <- app_assoc).
  rewrite (steps_app _ (t ++ [CR])).
  rewrite steps_line by (by auto). cbn [mbind result_bind]. cbn [steps]. unfold step. cbn [done state].
  change (LF =? LF)%Z with true. cbn iota. unfold end_of_line. rewrite bool_decide_false by done.
  cbn [line app state remaining done orb mbind result_bind]. rewrite bool_decide_false by done.
  cbn [orb mbind result_bind]. by rewrite IH.
Qed.

Lemma encoded_steps chunks last_ext trailers :
  Forall chunk_ok chunks -> ext_ok last_ext -> Forall (fun t => line_bytes t /\ t <> []) trailers ->
  exists r, steps decoder_default (encode_body chunks last_ext trailers) =
    Ok (mkDecoder Trailer [] r true, concat (c_data <$> chunks)).
Proof.
  intros Hc Hext Ht. destruct (steps_chunks 0 chunks Hc) as [r Hr]. exists r.
  unfold decoder_default, encode_body. rewrite steps_app, Hr. cbn [mbind result_bind].
  change [48%Z] with (as_bytes (hex_size 0)).
  rewrite (app_assoc last_ext), (app_assoc (as_bytes _)), steps_app.
  rewrite steps_header by (done || vm_compute; split; discriminate). change (0 =? 0)%Z with true.
  cbn iota. cbn [mbind result_bind]. rewrite steps_trailers by done. cbn [mbind result_bind app].
  by rewrite app_nil_r.
Qed.

(** C32 (roundtrip): an upload is stored as the client's payload.  Whatever
    chunk sizes, chunk extensions and trailers a client uses, whatever follows
    the end of the encoded body, and however the network cuts the bytes into
    frames, spooling stores the concatenated chunk data, nothing of the
    framing. *)
Theorem chunked_upload_roundtrip chunks last_ext trailers extra frames :
  Forall chunk_ok chunks -> ext_ok last_ext -> Forall (fun t => line_bytes t /\ t <> []) trailers ->
  concat frames = encode_body chunks last_ext trailers ++ extra ->
  spool_request_stream true frames = Ok (concat (c_data <$> chunks)).
Proof.
  intros Hc Hext Ht Hframes. unfold spool_request_stream.
  rewrite spool_frames_steps, Hframes, steps_app by apply default_inv.
  destruct (encoded_steps chunks last_ext trailers Hc Hext Ht) as [r ->]. cbn [mbind result_bind].
  rewrite steps_done by done. cbn [mbind result_bind]. by rewrite app_nil_r.
Qed.

(** Theorem (error): a truncated upload is not an error.  When the body ends
    anywhere before the end of its encoding, in a chunk or before the final
    one, spooling succeeds with the part of the payload that arrived. *)
Theorem truncated_upload_is_stored chunks last_ext trailers arrived missing frames :
  Forall chunk_ok chunks -> ext_ok last_ext -> Forall (fun t => line_bytes t /\ t <> []) trailers ->
  arrived ++ missing = encode_body chunks last_ext trailers -> concat frames = arrived ->
  exists stored lost, spool_request_stream true frames = Ok stored /\
    concat (c_data <$> chunks) = stored ++ lost.
Proof.
  intros Hc Hext Ht Hbody Hframes.
  pose proof (encoded_steps chunks last_ext trailers Hc Hext Ht) as [r Hs].
  rewrite <- Hbody, steps_app in Hs. apply bind_Ok in Hs as ([d1 o1] & H1 & Hs).
  apply bind_Ok in Hs as ([d2 o2] & H2 & [= Hd Ho]). exists o1, o2. split; [|done].
  unfold spool_request_stream. rewrite spool_frames_steps, Hframes, H1 by apply default_inv. done.
Qed.

Lemma truncated_upload_is_stored_witness :
  exists stored lost, spool_request_stream true [[51; 59; 120; 13]; [10; 97]]%Z = Ok stored /\
    [97; 98; 99]%Z = stored ++ lost.
Proof.
  apply (truncated_upload_is_stored [ {| c_ext := [59; 120]; c_data := [97; 98; 99] |} ]%Z [] []
           [51; 59; 120; 13; 10; 97]%Z [98; 99; 13; 10; 48; 13; 10; 13; 10]%Z).
  - constructor; [|constructor]. split; [|split; [discriminate|vm_compute; discriminate]].
    split; [repeat constructor; discriminate|]. right. exists [120%Z]. reflexivity.
  - split; [constructor|]. by left.
  - constructor.
  - vm_compute. reflexivity.
  - reflexivity.
Defined.

Lemma chunked_upload_roundtrip_witness :
  spool_request_stream true [[51; 59; 120; 13]; [10; 97; 98]; [99; 13; 10; 48; 13; 10; 116; 13; 10; 13; 10; 7]]%Z
  = Ok [97; 98; 99]%Z.
Proof.
  apply (chunked_upload_roundtrip [ {| c_ext := [59; 120]; c_data := [97; 98; 99] |} ]%Z [] [[116]]%Z [7]%Z).
  - constructor; [|constructor]. split; [|split; [discriminate|vm_compute; discriminate]].
    split; [repeat constructor; discriminate|]. right. exists [120%Z]. reflexivity.
  - split; [constructor|]. by left.
  - repeat constructor; discriminate.
  - vm_compute. reflexivity.
Defined.
