(* ===== verification/Form.v ===== *)
(** * Form bodies

    The form and query-string decoding of [fakecloud-core/src/protocol.rs],
    and the flattening of a JSON document to query parameters.  Decoding works
    on bytes, as the code does; only the result is text.  A character beyond
    the range of [string] has no counterpart there, so what
    [String::from_utf8_lossy] makes of such bytes is left to the class
    [LossyText]; theorems ask that it reads the bytes of a text as that text. *)

From Stdlib Require Import ZArith Lia Bool String Ascii.
From stdpp Require Import base option list strings gmap.
From S2P Require Import Prelude Json.

Module Form.

Class LossyText := { from_utf8_lossy : list Z -> string }.

(** ** UTF-8 *)

Definition in_bytes (lo hi b : Z) : bool := (lo <=? b)%Z && (b <=? hi)%Z.

(** [std::str::from_utf8(..).is_ok()]: the well-formed byte sequences of the
    Unicode standard (no overlong forms, no surrogates, at most U+10FFFF). *)
Fixpoint utf8_valid (b : list Z) : bool :=
  match b with
  | [] => true
  | x :: b1 =>
      if in_bytes 0 127 x then utf8_valid b1
      else match b1 with
      | [] => false
      | y :: b2 =>
          if in_bytes 194 223 x then in_bytes 128 191 y && utf8_valid b2
          else match b2 with
          | [] => false
          | z :: b3 =>
              if in_bytes 224 239 x then
                in_bytes (if (x =? 224)%Z then 160 else 128) (if (x =? 237)%Z then 159 else 191) y
                && in_bytes 128 191 z && utf8_valid b3
              else match b3 with
              | [] => false
              | w :: b4 =>
                  in_bytes 240 244 x
                  && in_bytes (if (x =? 240)%Z then 144 else 128) (if (x =? 244)%Z then 143 else 191) y
                  && in_bytes 128 191 z && in_bytes 128 191 w && utf8_valid b4
              end
          end
      end
  end.

(** ** Decoding *)

Definition AMP : Z := 38.
Definition EQUALS : Z := 61.
Definition PLUS : Z := 43.
Definition PERCENT : Z := 37.
Definition SPACE : Z := 32.

Definition from_hex (b : Z) : option Z :=
  if in_bytes 48 57 b then Some (b - 48)%Z
  else if in_bytes 97 102 b then Some (b - 97 + 10)%Z
  else if in_bytes 65 70 b then Some (b - 65 + 10)%Z
  else None.

(** The byte loop of [url_decode]; a percent sign takes the next two bytes with
    it, whether or not they are digits. *)
Fixpoint url_decode_bytes (b : list Z) : list Z :=
  match b with
  | [] => []
  | x :: b1 =>
      if (x =? PLUS)%Z then SPACE :: url_decode_bytes b1
      else if (x =? PERCENT)%Z then
        match b1 with
        | [] => []
        | y :: b2 =>
            match b2 with
            | [] => []
            | z :: b3 =>
                match from_hex y, from_hex z with
                | Some h, Some l => Z.lor (Z.shiftl h 4) l :: url_decode_bytes b3
                | _, _ => url_decode_bytes b3
                end
            end
        end
      else x :: url_decode_bytes b1
  end.

(** [split(sep)] on bytes. *)
Fixpoint split_byte (sep : Z) (b : list Z) : list (list Z) :=
  match b with
  | [] => [[]]
  | x :: b' =>
      if (x =? sep)%Z then [] :: split_byte sep b'
      else match split_byte sep b' with
           | p :: ps => (x :: p) :: ps
           | [] => [[x]]
           end
  end.

(** What precedes the first separator, and what follows it. *)
Fixpoint cut_byte (sep : Z) (b : list Z) : list Z * list Z :=
  match b with
  | [] => ([], [])
  | x :: b' => if (x =? sep)%Z then ([], b') else let '(k, v) := cut_byte sep b' in (x :: k, v)
  end.

Section Decode.
Context `{LossyText}.

Definition url_decode (b : list Z) : string := from_utf8_lossy (url_decode_bytes b).

Definition form_pair (piece : list Z) : string * string :=
  let '(k, v) := cut_byte EQUALS piece in (url_decode k, url_decode v).

Definition non_empty (piece : list Z) : bool := match piece with [] => false | _ => true end.

(** [form_urlencoded_pairs] on the bytes of its text. *)
Definition form_urlencoded_pairs (b : list Z) : list (string * string) :=
  form_pair <$> filter (fun p => non_empty p = true) (split_byte AMP b).

Definition decode_form_urlencoded (input : list Z) : gmap string string :=
  let s := if utf8_valid input then input else [] in
  foldl (fun result piece => if non_empty piece then let '(k, v) := form_pair piece in <[k := v]> result else result)
    ∅ (split_byte AMP s).

Definition parse_query_body (body : list Z) : gmap string string := decode_form_urlencoded body.

End Decode.

(** ** Flattening a JSON document *)

(** [bool::to_string]. *)
Definition bool_to_string (b : bool) : string := if b then "true" else "false".

Fixpoint flatten_json_value `{SerdeJson} (prefix : string) (v : Value) (out : gmap string string)
  : gmap string string :=
  match v with
  | VObject m =>
      (fix go (m : list (string * Value)) (out : gmap string string) : gmap string string :=
         match m with
         | [] => out
         | (k, x) :: m =>
             let child := if is_empty_str prefix then k else prefix +:+ "." +:+ k in
             go m (flatten_json_value child x out)
         end) m out
  | VArray l =>
      (fix go (i : Z) (l : list Value) (out : gmap string string) : gmap string string :=
         match l with
         | [] => out
         | x :: l =>
             go (i + 1)%Z l (flatten_json_value (prefix +:+ ".member." +:+ print_Z (i + 1)) x out)
         end) 0%Z l out
  | Null => out
  | VString s => <[prefix := s]> out
  | VBool b => <[prefix := bool_to_string b]> out
  | VNumber n => <[prefix := number_to_string n]> out
  end.

(** [from_slice] is [serde_json::from_slice]. *)
Definition flatten_json_to_query `{SerdeJson} (from_slice : list Z -> option Value) (body : list Z)
  : gmap string string :=
  match from_slice body with
  | Some (VObject m) => flatten_json_value EmptyString (VObject m) ∅
  | _ => ∅
  end.

End Form.
