(* ===== verification/FormTheory.v ===== *)
(** * Form bodies: theorems

    Whatever escapes a client chooses, the decoder reads back the pairs it
    encoded. *)

From Stdlib Require Import ZArith Lia Bool String Ascii.
From stdpp Require Import base option list strings gmap.
From S2P Require Import Prelude Json AwsChunked AwsChunkedTheory Form.
Import Form.

(** ** Encodings *)

Definition delimiter (b : Z) : Prop := b ∈ [AMP; EQUALS; PLUS; PERCENT].

(** [Escapes raw e]: [e] is a form encoding of the bytes [raw].  An ASCII byte
    that is no delimiter may stand for itself, a space may be a plus sign, and
    every byte may be written as a percent escape, in either case. *)
Inductive Escapes : list Z -> list Z -> Prop :=
| Escapes_nil : Escapes [] []
| Escapes_literal b raw e : (0 <= b < 128)%Z -> ~ delimiter b -> Escapes raw e -> Escapes (b :: raw) (b :: e)
| Escapes_space raw e : Escapes raw e -> Escapes (SPACE :: raw) (PLUS :: e)
| Escapes_percent h l hi lo raw e :
    from_hex h = Some hi -> from_hex l = Some lo -> Escapes raw e ->
    Escapes ((16 * hi + lo)%Z :: raw) (PERCENT :: h :: l :: e).

(** A piece [key=value] of a form for a pair of texts. *)
Definition encodes_pair (kv : string * string) (piece : list Z) : Prop :=
  exists ek ev, Escapes (as_bytes kv.1) ek /\ Escapes (as_bytes kv.2) ev /\ piece = ek ++ EQUALS :: ev.

(** Pieces joined by ampersands. *)
Fixpoint join_pieces (pieces : list (list Z)) : list Z :=
  match pieces with
  | [] => []
  | [p] => p
  | p :: ps => p ++ AMP :: join_pieces ps
  end.

(** ** Bytes *)

Lemma from_hex_range b v : from_hex b = Some v -> (0 <= v < 16)%Z /\ (0 <= b < 128)%Z /\ ~ delimiter b.
Proof.
  unfold from_hex, in_bytes. intros Hb.
  assert (Hd : forall x, delimiter x -> x = 38%Z \/ x = 61%Z \/ x = 43%Z \/ x = 37%Z).
  { unfold delimiter, AMP, EQUALS, PLUS, PERCENT. intros x Hx. set_unfold in Hx. tauto. }
  repeat case_match; simplify_eq;
    repeat match goal with H : _ && _ = true |- _ => apply andb_true_iff in H as [?%Z.leb_le ?%Z.leb_le] end;
    (split; [lia|split; [lia|intros Hx%Hd; lia]]).
Qed.

Lemma hex_byte hi lo : (0 <= hi < 16)%Z -> (0 <= lo < 16)%Z -> Z.lor (Z.shiftl hi 4) lo = (16 * hi + lo)%Z.
Proof.
  intros Hh Hl.
  assert (Hall : Forall (fun h => Forall (fun l => Z.lor (Z.shiftl h 4) l = (16 * h + l)%Z) (seqZ 0 16)) (seqZ 0 16))
    by (vm_compute; repeat constructor).
  rewrite Forall_forall in Hall. specialize (Hall hi). rewrite Forall_forall in Hall.
  apply Hall; apply elem_of_seqZ; lia.
Qed.

Lemma url_decode_escapes raw e : Escapes raw e -> url_decode_bytes e = raw.
Proof.
  induction 1 as [|b raw e Hb Hd He IH|raw e He IH|h l hi lo raw e Hh Hl He IH]; cbn [url_decode_bytes].
  - done.
  - unfold delimiter in Hd. rewrite !not_elem_of_cons in Hd.
    rewrite (proj2 (Z.eqb_neq b PLUS)), (proj2 (Z.eqb_neq b PERCENT)) by naive_solver. by rewrite IH.
  - by rewrite IH.
  - rewrite Hh, Hl, IH. apply from_hex_range in Hh as [Hh _]. apply from_hex_range in Hl as [Hl _].
    by rewrite hex_byte.
Qed.

(** What an encoding is made of: ASCII, without the separators. *)
Lemma Escapes_bytes raw e : Escapes raw e ->
  Forall (fun b => (0 <= b < 128)%Z /\ b <> AMP /\ b <> EQUALS) e.
Proof.
  assert (Hd : forall b, ~ delimiter b -> b <> AMP /\ b <> EQUALS).
  { unfold delimiter. intros b Hb. rewrite !not_elem_of_cons in Hb. tauto. }
  induction 1 as [|b raw e Hb Hn He IH|raw e He IH|h l hi lo raw e Hh Hl He IH]; repeat constructor; auto;
    try lia; try done;
    try (by destruct (Hd b Hn));
    (apply from_hex_range in Hh as (_ & ? & ?); apply from_hex_range in Hl as (_ & ? & ?);
     first [lia|by destruct (Hd h)|by destruct (Hd l)]).
Qed.

Lemma utf8_valid_ascii b : Forall (fun x => 0 <= x < 128)%Z b -> utf8_valid b = true.
Proof.
  induction 1 as [|x b Hx Hb IH]; [done|]. cbn [utf8_valid]. unfold in_bytes at 1.
  rewrite (proj2 (Z.leb_le 0 x)), (proj2 (Z.leb_le x 127)) by lia. done.
Qed.

Lemma cut_byte_app sep k v : Forall (fun b => b <> sep) k -> cut_byte sep (k ++ sep :: v) = (k, v).
Proof.
  induction 1 as [|x k Hx Hk IH]; cbn [app cut_byte]; [by rewrite Z.eqb_refl|].
  by rewrite (proj2 (Z.eqb_neq _ _) Hx), IH.
Qed.

Lemma split_byte_no sep p : Forall (fun b => b <> sep) p -> split_byte sep p = [p].
Proof.
  induction 1 as [|x p Hx Hp IH]; cbn [split_byte]; [done|]. by rewrite (proj2 (Z.eqb_neq _ _) Hx), IH.
Qed.

Lemma split_byte_app sep p b :
  Forall (fun x => x <> sep) p -> split_byte sep (p ++ sep :: b) = p :: split_byte sep b.
Proof.
  induction 1 as [|x p Hx Hp IH]; cbn [app split_byte]; [by rewrite Z.eqb_refl|].
  by rewrite (proj2 (Z.eqb_neq _ _) Hx), IH.
Qed.

Lemma split_join pieces :
  pieces <> [] -> Forall (Forall (fun b => b <> AMP)) pieces -> split_byte AMP (join_pieces pieces) = pieces.
Proof.
  intros Hne Hp. induction Hp as [|p ps Hp Hps IH]; [done|]. destruct ps as [|q ps]; [by apply split_byte_no|].
  change (join_pieces (p :: q :: ps)) with (p ++ AMP :: join_pieces (q :: ps)).
  rewrite split_byte_app by done. by rewrite IH.
Qed.

(** ** Pairs *)

Section Pairs.
Context `{LossyText} (Hlossy : forall s, from_utf8_lossy (as_bytes s) = s).

Lemma encodes_pair_bytes kv piece : encodes_pair kv piece ->
  Forall (fun b => (0 <= b < 128)%Z) piece /\ Forall (fun b => b <> AMP) piece /\ non_empty piece = true.
Proof.
  intros (ek & ev & Hk%Escapes_bytes & Hv%Escapes_bytes & ->).
  split; [|split; [|by destruct ek]]; (apply Forall_app; split; [|constructor]; [|done|]);
    (eapply Forall_impl; [eassumption|cbn; tauto]).
Qed.

Lemma form_pair_encodes kv piece : encodes_pair kv piece -> form_pair piece = kv.
Proof using Hlossy.
  intros (ek & ev & Hk & Hv & ->). unfold form_pair, url_decode.
  rewrite cut_byte_app by (eapply Forall_impl; [by eapply Escapes_bytes|cbn; tauto]).
  rewrite (url_decode_escapes _ _ Hk), (url_decode_escapes _ _ Hv), !Hlossy. by destruct kv.
Qed.

Lemma encoded_pieces pairs pieces : Forall2 encodes_pair pairs pieces ->
  utf8_valid (join_pieces pieces) = true /\
  filter (fun p => non_empty p = true) (split_byte AMP (join_pieces pieces)) = pieces /\
  form_pair <$> pieces = pairs.
Proof using Hlossy.
  intros Hall.
  assert (Hb : Forall (fun p => Forall (fun b => (0 <= b < 128)%Z) p /\ Forall (fun b => b <> AMP) p /\
                                non_empty p = true) pieces).
  { clear Hlossy. induction Hall as [|kv p pairs pieces Hp Hall IH]; constructor; [|done].
    by eapply encodes_pair_bytes. }
  split; [|split].
  - apply utf8_valid_ascii. clear Hall. induction Hb as [|p ps (Hp & _) Hps IH]; [done|].
    destruct ps as [|q ps]; [done|]. apply Forall_app. split; [done|]. constructor; [done|]. apply IH.
  - destruct pieces as [|p ps]; [done|]. rewrite split_join; [|done|eapply Forall_impl; [exact Hb|by intros ? (_ & ? & _)]].
    clear Hall. induction Hb as [|q qs (_ & _ & Hq) Hqs IH]; [done|]. by rewrite filter_cons_True, IH.
  - clear Hb. induction Hall as [|kv p pairs pieces Hp Hall IH]; [done|]. cbn. by rewrite (form_pair_encodes _ _ Hp), IH.
Qed.

Lemma decode_form_pairs b : utf8_valid b = true ->
  decode_form_urlencoded b
  = foldl (fun m kv => <[kv.1 := kv.2]> m) ∅ (form_pair <$> filter (fun p => non_empty p = true) (split_byte AMP b)).
Proof.
  intros Hb. unfold decode_form_urlencoded. rewrite Hb. generalize (∅ : gmap string string).
  induction (split_byte AMP b) as [|p ps IH]; intros m; [done|]. cbn [foldl].
  destruct (non_empty p) eqn:Hp.
  - rewrite filter_cons_True by done. cbn [fmap list_fmap foldl]. rewrite IH. by destruct (form_pair p).
  - rewrite filter_cons_False by congruence. apply IH.
Qed.

(** Theorem (roundtrip): form bodies are read back as the pairs a client encoded.
    For any texts, any choice of escapes (literal ASCII, plus signs for
    spaces, percent escapes in either case) and any number of pairs, the
    ordered decoding returns the pairs with their repetitions, and the map
    the handlers read holds for each key its last value. *)
Theorem form_roundtrip (pairs : list (string * string)) (pieces : list (list Z)) :
  Forall2 encodes_pair pairs pieces ->
  form_urlencoded_pairs (join_pieces pieces) = pairs /\
  parse_query_body (join_pieces pieces) = foldl (fun m kv => <[kv.1 := kv.2]> m) ∅ pairs.
Proof using Hlossy.
  intros (Hv & Hp & Hk)%encoded_pieces. unfold parse_query_body. rewrite decode_form_pairs by done.
  unfold form_urlencoded_pairs. by rewrite Hp, Hk.
Qed.

End Pairs.

(** ** Witness *)

Definition utf8_text : LossyText := {| from_utf8_lossy := fun b => default EmptyString (AwsChunked.from_utf8 b) |}.

Lemma form_roundtrip_witness :
  @parse_query_body utf8_text (as_bytes "Action=Send+It&a%26=%3d") = {[ "Action" := "Send It"; "a&" := "=" ]}%string.
Proof.
  assert (Hlossy : forall s, @from_utf8_lossy utf8_text (as_bytes s) = s).
  { intros s. cbn. by rewrite from_utf8_as_bytes. }
  destruct (@form_roundtrip utf8_text Hlossy [("Action", "Send It"); ("a&", "=")]%string
    [as_bytes "Action=Send+It"; as_bytes "a%26=%3d"]) as [_ Heq].
  - assert (Hdel : forall b, bool_decide (b ∈ [AMP; EQUALS; PLUS; PERCENT]) = false -> ~ delimiter b).
    { intros b Hb. by apply bool_decide_eq_false in Hb. }
    repeat constructor.
    + exists (as_bytes "Action"), (as_bytes "Send+It"). split; [|split]; [..|reflexivity]; cbn;
        repeat first [apply Escapes_nil|apply Escapes_space
                     |apply Escapes_literal; [lia|by apply Hdel|]].
    + exists (as_bytes "a%26"), (as_bytes "%3d"). split; [|split]; [..|reflexivity]; cbn.
      * apply Escapes_literal; [lia|by apply Hdel|].
        apply (Escapes_percent 50 54 2 6); [reflexivity..|apply Escapes_nil].
      * apply (Escapes_percent 51 100 3 13); [reflexivity..|apply Escapes_nil].
  - etransitivity; [exact Heq|]. reflexivity.
Defined.
