(* ===== verification/Dispatch.v ===== *)
(** * Request dispatch

    [fakecloud-core/src/dispatch.rs] from the detected service on: the access
    key and the credential it resolves to, the signature gate, the request
    handed to the service, IAM enforcement and the call of the handler.  The
    traits [AwsService] ([service.rs]), [CredentialResolver] and
    [ScpResolver] ([auth.rs]) are records of their methods; services share
    one state, which only [handle] changes.

    Detection of the service and the routing hints of the [Host] and
    [User-Agent] headers come with the request ([Routed]) from [Routing].
    JSON text ([serde_json]), header syntax ([http]) and the compression of the
    encoded deny reason ([flate2]) are the classes [WireFormats],
    [HeaderSyntax] and [DenyCodec].  An error response is its status, code and
    message; rendering is left out, and so are log lines. *)

From Stdlib Require Import ZArith Lia Bool String Ascii.
From stdpp Require Import base option list strings gmap.
From S2P Require Import Prelude Json Net Auth Arn BTree Iam Sigv4 Cbor Form.

Module Dispatch.

(** ** Data *)

Inductive AwsProtocol : Type := PQuery | PEc2Query | PJson | PRest | PRestJson | PRpcV2Cbor.

#[global] Instance AwsProtocol_eq_dec : EqDecision AwsProtocol.
Proof. solve_decision. Defined.

Record DetectedRequest := mkDetected { d_service : string; d_action : string; d_protocol : AwsProtocol }.

Record ErrorResponse := mkError { er_status : Z; er_code : string; er_message : string }.

Definition build_error_response (status : Z) (code message : string) : ErrorResponse :=
  mkError status code message.

(** An HTTP request: header names in lower case, a value that is not visible
    text as [None]; [h_internal] is the extension only in-process code sets. *)
Record HttpRequest := mkHttp {
  h_method : string;
  h_path : string;
  h_query : string;
  h_headers : list (string * option string);
  h_query_params : gmap string string;
  h_body : list Z;
  h_wire_body : list Z;                 (* before decompression *)
  h_body_stream : option (list Z);      (* the unread body of a streaming route *)
  h_internal : option InternalCaller;
  h_remote_ip : option IpAddr
}.

(** What the routing stage found. *)
Record Routed := mkRouted {
  rt_detected : DetectedRequest;
  rt_host_region : option string;
  rt_host_bucket : option string;
  rt_agent_region : option string
}.

Record AwsRequest := mkRequest {
  rq_service : string;
  rq_action : string;
  rq_region : string;
  rq_account_id : string;
  rq_headers : list (string * option string);
  rq_query_params : gmap string string;
  rq_body : list Z;
  rq_body_stream : option (list Z);
  rq_path_segments : list string;
  rq_raw_path : string;
  rq_raw_query : string;
  rq_method : string;
  rq_is_query_protocol : bool;
  rq_access_key_id : option string;
  rq_principal : option Principal
}.

Record ResolvedCredential := mkResolved {
  rc_secret_access_key : string;
  rc_session_token : option string;
  rc_principal : Principal;
  rc_session_policies : list string;
  rc_mfa_present : bool;
  rc_token_issued_at : option Z;
  rc_federated_provider : option string
}.

Record CredentialResolver := { cr_resolve : string -> option ResolvedCredential; cr_is_expired : string -> bool }.

Record ScpResolver := {
  scps_for : Principal -> option (list string);
  principal_org : string -> option (string * string)
}.

(** The trait [AwsService] over a state [St], answering with [Resp]. *)
Record AwsService (St Resp : Type) := mkService {
  handle : St -> AwsRequest -> St * Resp;
  iam_enforceable : bool;
  iam_actions_for : St -> AwsRequest -> list IamAction;
  iam_resource_in_caller_account : St -> AwsRequest -> bool;
  iam_condition_keys_for : St -> AwsRequest -> IamAction -> list (string * list string);
  resource_tags_for : St -> string -> option (gmap string string);
  request_tags_from : St -> AwsRequest -> string -> option (gmap string string)
}.
Arguments handle {St Resp}.
Arguments iam_enforceable {St Resp}.
Arguments iam_actions_for {St Resp}.
Arguments iam_resource_in_caller_account {St Resp}.
Arguments iam_condition_keys_for {St Resp}.
Arguments resource_tags_for {St Resp}.
Arguments request_tags_from {St Resp}.

(** [S] is the type of the policy evaluator. *)
Record DispatchConfig (S : Type) := mkConfig {
  cf_region : string;
  cf_account_id : string;
  verify_sigv4 : bool;
  iam_mode : IamMode;
  credential_resolver : option CredentialResolver;
  policy_evaluator : option S;
  resource_policy_provider : option DynProvider;
  scp_resolver : option ScpResolver
}.
Arguments cf_region {S}.
Arguments cf_account_id {S}.
Arguments verify_sigv4 {S}.
Arguments iam_mode {S}.
Arguments credential_resolver {S}.
Arguments policy_evaluator {S}.
Arguments resource_policy_provider {S}.
Arguments scp_resolver {S}.

(** The instants the code reads, in nanoseconds: one for the signature, and
    for the [n]-th authorization one for its context and one for the age of
    its MFA assertion. *)
Record Clock := { verify_at : Z; context_at : nat -> Z; mfa_at : nat -> Z }.

(** [serde_json::from_slice] and the bytes of [Value::to_string]. *)
Class WireFormats := {
  from_slice : list Z -> option Value;
  json_bytes : Value -> list Z
}.

Class HeaderSyntax := {
  header_name_ok : string -> bool;
  header_value_ok : string -> bool
}.

(** A document, as JSON text compressed and in base64. *)
Class DenyCodec := { seal : Value -> string }.

(** ** Small helpers *)

Definition FORBIDDEN : Z := 403.
Definition BAD_REQUEST : Z := 400.

(** [headers.get(name).and_then(|v| v.to_str().ok())]: the first value. *)
Definition header_str (headers : list (string * option string)) (name : string) : option string :=
  mjoin (find_key (String.eqb name) headers).

(** [BTreeMap::entry(k).or_insert(v)] and [insert] on a map in key order. *)
Fixpoint entry_or_insert (k : string) (v : list string) (m : list (string * list string))
  : list (string * list string) :=
  match m with
  | [] => [(k, v)]
  | (k', v') :: m' =>
      if String.eqb k k' then m
      else if BTree.str_leb k k' then (k, v) :: m
      else (k', v') :: entry_or_insert k v m'
  end.

Fixpoint map_insert (k : string) (v : list string) (m : list (string * list string))
  : list (string * list string) :=
  match m with
  | [] => [(k, v)]
  | (k', v') :: m' =>
      if String.eqb k k' then (k, v) :: m'
      else if BTree.str_leb k k' then (k, v) :: m
      else (k', v') :: map_insert k v m'
  end.

Definition map_extend (m ks : list (string * list string)) : list (string * list string) :=
  foldl (fun m (kv : string * list string) => map_insert kv.1 kv.2 m) m ks.

Definition parse_account_from_arn (a : string) : option string :=
  match splitn 6 ":" a with
  | [first; _; _; _; account; _] =>
      if String.eqb first "arn" then (if is_empty_str account then None else Some account) else None
  | _ => None
  end.

Definition sigv2_presigned_access_key (query_params : gmap string string) : option string :=
  if bool_decide (is_Some (query_params !! "Signature"%string))
     && bool_decide (is_Some (query_params !! "Expires"%string))
  then query_params !! "AWSAccessKeyId"%string else None.

Definition is_lower_hexdigit (c : ascii) : bool :=
  is_ascii_digit c || ((97 <=? char_code c)%N && (char_code c <=? 102)%N).

Definition is_hex_sha256 (s : string) : bool :=
  (byte_len s =? 64)%nat && string_forallb is_lower_hexdigit s.

Definition is_secure_transport (headers : list (string * option string)) : bool :=
  match header_str headers "x-forwarded-proto" with
  | Some s => eq_ignore_ascii_case s "https"
  | None => false
  end.

Definition principal_type_label (t : PrincipalType) : string :=
  match t with
  | TUser => "User"
  | TAssumedRole => "AssumedRole"
  | TFederatedUser => "FederatedUser"
  | TRoot => "Account"
  | TUnknown => "Unknown"
  | TService => "Service"
  end.

Definition aws_username_from_principal (p : Principal) : option string :=
  if bool_decide (principal_type p = TUser) then
    '(_, after) ← rsplit_once ":user/" (arn p);
    Some (last_segment "/" after)
  else None.

(** [split_path_segments]: split, drop empty pieces, decode each once. *)
Definition percent_decode_segment `{Sigv4.PercentCodec} (segment : string) : string :=
  if contains_str "%" segment then Sigv4.percent_decode segment else segment.

Definition split_path_segments `{Sigv4.PercentCodec} (raw_path : string) : list string :=
  percent_decode_segment <$> filter (fun s => is_empty_str s = false) (split_char "/" raw_path).

Definition s3_routing_path (wire_path : string) (host_bucket : option string) : string :=
  match host_bucket with
  | None => wire_path
  | Some bucket =>
      if String.eqb wire_path "/" || is_empty_str wire_path then "/" +:+ bucket
      else "/" +:+ bucket +:+ wire_path
  end.

Definition PRESIGN_AUTH_PARAMS : list string :=
  ["x-amz-algorithm"; "x-amz-credential"; "x-amz-date"; "x-amz-expires"; "x-amz-signedheaders";
   "x-amz-signature"; "x-amz-security-token"].

(** [rfc2047::encode]. *)
Definition rfc2047_encode `{Cbor.Base64} (value : string) : string :=
  if forallb (fun b => (b =? 9)%Z || ((32 <=? b)%Z && (b <? 127)%Z)) (as_bytes value) then value
  else "=?UTF-8?B?" +:+ Cbor.base64_encode (as_bytes value) +:+ "?=".

(** One query parameter of a presigned URL as a header. *)
Definition hoist_one `{HeaderSyntax} `{Cbor.Base64} (headers : list (string * option string)) (kv : string * string)
  : list (string * option string) :=
  let lower := to_ascii_lowercase kv.1 in
  if negb (starts_with "x-amz-" lower) || bool_decide (lower ∈ PRESIGN_AUTH_PARAMS) then headers
  else if negb (header_name_ok lower) then headers
  else if bool_decide (lower ∈ headers.*1) then headers
  else
    let value := if starts_with "x-amz-meta-" lower then rfc2047_encode kv.2 else kv.2 in
    if header_value_ok value then headers ++ [(lower, Some value)] else headers.

Definition hoist_presigned_query_headers `{HeaderSyntax} `{Cbor.Base64} (headers : list (string * option string))
  (query_params : list (string * string)) : list (string * option string) :=
  foldl hoist_one headers query_params.

Definition unresolved_credential_response {S} (config : DispatchConfig S) (access_key_id : string)
  : ErrorResponse :=
  if match credential_resolver config with Some r => cr_is_expired r access_key_id | None => false end
  then build_error_response FORBIDDEN "ExpiredToken" "The security token included in the request is expired"
  else build_error_response FORBIDDEN "InvalidClientTokenId"
         "The security token included in the request is invalid".

(** ** Credentials *)

Definition auth_header (h : HttpRequest) : string := default EmptyString (header_str (h_headers h) "authorization").

(** The SigV4 scope of the header, else of the presigned query. *)
Definition sigv4_info (h : HttpRequest) : option Sigv4.SigV4Info :=
  or_else (Sigv4.parse_sigv4 (auth_header h))
    (Sigv4.as_info <$> Sigv4.parse_sigv4_presigned (h_query_params h)).

Definition access_key_id (h : HttpRequest) : option string :=
  or_else (Sigv4.info_access_key <$> sigv4_info h) (sigv2_presigned_access_key (h_query_params h)).

Definition caller_akid (h : HttpRequest) : string := default EmptyString (access_key_id h).

Definition request_region {S} (config : DispatchConfig S) (h : HttpRequest) (rt : Routed) : string :=
  default (cf_region config)
    (or_else (Sigv4.info_region <$> sigv4_info h) (or_else (rt_host_region rt) (rt_agent_region rt))).

Definition resolved {S} (config : DispatchConfig S) (h : HttpRequest) : option ResolvedCredential :=
  if negb (is_empty_str (caller_akid h)) && negb (is_root_bypass (caller_akid h))
  then r ← credential_resolver config; cr_resolve r (caller_akid h)
  else None.

Definition is_fully_anonymous (h : HttpRequest) : bool :=
  is_empty_str (auth_header h)
  && bool_decide (h_query_params h !! "X-Amz-Credential"%string = None)
  && bool_decide (sigv2_presigned_access_key (h_query_params h) = None).

(** ** The signature gate *)

Section Signature.
Context `{Sigv4.PercentCodec} `{Sigv4.SigCrypto} `{Sigv4.AmzDate}.

Definition sha256_hex_lower (bytes : list Z) : string := Sigv4.hex_encode (Sigv4.sha256 bytes).

Definition SIGNATURE_MISMATCH : ErrorResponse :=
  build_error_response FORBIDDEN "SignatureDoesNotMatch"
    "The request signature we calculated does not match the signature you provided".

Definition sigv4_error_response (e : Sigv4.SigV4Error) : ErrorResponse :=
  match e with
  | Sigv4.RequestTimeTooSkewed _ _ =>
      build_error_response FORBIDDEN "RequestTimeTooSkewed"
        "The difference between the request time and the current time is too large"
  | Sigv4.InvalidDate msg =>
      build_error_response FORBIDDEN "IncompleteSignature" ("Invalid x-amz-date: " +:+ msg)
  | Sigv4.Malformed msg =>
      build_error_response FORBIDDEN "IncompleteSignature" ("Malformed SigV4 signature: " +:+ msg)
  | Sigv4.SignatureMismatch => SIGNATURE_MISMATCH
  | Sigv4.PresignedUrlExpired _ _ _ =>
      build_error_response FORBIDDEN "AccessDenied" "Request has expired"
  | Sigv4.InvalidPresignExpires _ =>
      build_error_response BAD_REQUEST "AuthorizationQueryParametersError"
        "X-Amz-Expires must be a number between 1 and 604800 seconds"
  end.

Definition parsed_signature (h : HttpRequest) : option Sigv4.ParsedSigV4 :=
  or_else (Sigv4.parse_sigv4_header (auth_header h) (header_str (h_headers h) "x-amz-date"))
    (Sigv4.parse_sigv4_presigned (h_query_params h)).

Definition verify_request (h : HttpRequest) : Sigv4.VerifyRequest :=
  Sigv4.mkVerify (h_method h) (h_path h) (h_query h) (Sigv4.headers_from_http (h_headers h)) (h_wire_body h).

(** The body against the signed payload hash, for every service but S3. *)
Definition check_body_hash (h : HttpRequest) (service : string) (parsed : Sigv4.ParsedSigV4)
  : Result ErrorResponse unit :=
  if negb (Sigv4.is_presigned parsed) && negb (String.eqb service "s3") then
    match header_str (h_headers h) "x-amz-content-sha256" with
    | Some signed_hash =>
        if is_hex_sha256 signed_hash && negb (String.eqb (sha256_hex_lower (h_wire_body h)) signed_hash)
        then Err SIGNATURE_MISMATCH else Ok tt
    | None => Ok tt
    end
  else Ok tt.

Definition signature_gate {S} (config : DispatchConfig S) (clock : Clock) (h : HttpRequest) (service : string)
  : Result ErrorResponse unit :=
  if verify_sigv4 config && negb (is_fully_anonymous h) && negb (is_root_bypass (caller_akid h))
     && bool_decide (is_Some (credential_resolver config))
  then
    parsed ← ok_or (build_error_response FORBIDDEN "IncompleteSignature"
                      "Request is missing or has a malformed AWS Signature") (parsed_signature h);
    credential ← ok_or (unresolved_credential_response config (caller_akid h)) (resolved config h);
    match Sigv4.verify parsed (verify_request h) (rc_secret_access_key credential) (verify_at clock) with
    | Ok _ => check_body_hash h service parsed
    | Err e => Err (sigv4_error_response e)
    end
  else Ok tt.

End Signature.

(** ** The request the service sees *)

Section Request.
Context `{Sigv4.PercentCodec} `{WireFormats} `{HeaderSyntax}.
Context `{Cbor.CborReader} `{Cbor.Base64} `{Form.LossyText} `{SerdeJson}.

(** Decoding of the payload: CBOR to JSON, validity of JSON bodies, form and
    flattened parameters, which never override those of the query string
    ([entry(k).or_insert(v)] is the left-biased union). *)
Definition decode_payload (h : HttpRequest) (d : DetectedRequest)
  : Result ErrorResponse (list Z * gmap string string) :=
  body ←
    (if bool_decide (d_protocol d = PRpcV2Cbor) then
       match Cbor.decode_to_json (h_body h) with
       | Ok json => Ok (json_bytes json)
       | Err e => Err (build_error_response BAD_REQUEST "SerializationException"
                         ("Unable to decode CBOR request body: " +:+ e))
       end
     else Ok (h_body h));
  if bool_decide (d_protocol d = PJson) && negb (bool_decide (body = [])) && bool_decide (from_slice body = None)
  then Err (build_error_response BAD_REQUEST "SerializationException"
              "Start of structure or map found where not expected")
  else
    let params :=
      match d_protocol d with
      | PQuery | PEc2Query => h_query_params h ∪ Form.parse_query_body body
      | _ => h_query_params h
      end in
    let params :=
      match d_protocol d with
      | PJson | PRpcV2Cbor =>
          if String.eqb (d_service d) "monitoring"
          then params ∪ Form.flatten_json_to_query from_slice body else params
      | _ => params
      end in
    Ok (body, params).

Definition internal_caller (h : HttpRequest) : option InternalCaller :=
  if is_fully_anonymous h && bool_decide (access_key_id h = None) then h_internal h else None.

Definition internal_caller_account {S} (caller : InternalCaller) (service : string)
  (path_segments : list string) (config : DispatchConfig S) : string :=
  let bucket_owner :=
    if String.eqb service "s3" then
      bucket ← head path_segments;
      provider ← resource_policy_provider config;
      dyn_owner_account provider "s3" (Arn.to_string (Arn.s3 bucket))
    else None in
  default (caller_acting_account caller) bucket_owner.

Definition request_principal {S} (config : DispatchConfig S) (h : HttpRequest) : option Principal :=
  or_else (rc_principal <$> resolved config h) (caller_principal <$> internal_caller h).

Definition build_request {S} (config : DispatchConfig S) (h : HttpRequest) (rt : Routed)
  (payload : list Z * gmap string string) : AwsRequest :=
  let d := rt_detected rt in
  let headers :=
    if String.eqb (d_service d) "s3" && bool_decide (is_Some (h_query_params h !! "X-Amz-Credential"%string))
    then hoist_presigned_query_headers (h_headers h) (map_to_list (h_query_params h))
    else h_headers h in
  let path := if String.eqb (d_service d) "s3" then s3_routing_path (h_path h) (rt_host_bucket rt)
              else h_path h in
  let path_segments := split_path_segments path in
  let principal := request_principal config h in
  mkRequest (d_service d) (d_action d) (request_region config h rt)
    (match internal_caller h with
     | Some caller => internal_caller_account caller (d_service d) path_segments config
     | None => default (cf_account_id config) (account_id <$> principal)
     end)
    headers payload.2 payload.1 (h_body_stream h) path_segments path (h_query h) (h_method h)
    (match d_protocol d with PQuery | PEc2Query => true | _ => false end)
    (access_key_id h) principal.

End Request.

(** ** Condition contexts *)

Definition timestamp (t : Z) : Z := (t / 1000000000)%Z.

Definition build_condition_context (p : Principal) (remote_ip : option IpAddr) (region : string)
  (secure_transport : bool) (now : Z) : ConditionContext :=
  {| aws_username := aws_username_from_principal p;
     aws_userid := Some (user_id p);
     aws_principal_arn := Some (arn p);
     aws_principal_account := Some (account_id p);
     aws_principal_type := Some (principal_type_label (principal_type p));
     aws_source_ip := remote_ip;
     aws_current_time := Some now;
     aws_epoch_time := Some (timestamp now);
     aws_secure_transport := Some secure_transport;
     aws_requested_region := Some region;
     aws_mfa_present := None; aws_mfa_age_seconds := None; aws_called_via := [];
     aws_source_vpce := None; aws_source_vpc := None; aws_vpc_source_ip := None;
     aws_federated_provider := None; aws_token_issue_time := None; service_keys := [];
     resource_tags := None; request_tags := None; principal_tags := None |}.

(** The keys that ride on the credential. *)
Definition with_session_keys (rc : option ResolvedCredential) (mfa_now : Z) (c : ConditionContext)
  : ConditionContext :=
  match rc with
  | None => c
  | Some rc =>
      {| aws_username := aws_username c; aws_userid := aws_userid c;
         aws_principal_arn := aws_principal_arn c; aws_principal_account := aws_principal_account c;
         aws_principal_type := aws_principal_type c; aws_source_ip := aws_source_ip c;
         aws_current_time := aws_current_time c; aws_epoch_time := aws_epoch_time c;
         aws_secure_transport := aws_secure_transport c; aws_requested_region := aws_requested_region c;
         aws_mfa_present := Some (rc_mfa_present rc);
         aws_mfa_age_seconds :=
           if rc_mfa_present rc
           then (fun issued => Z.max (Sigv4.seconds_between mfa_now issued) 0) <$> rc_token_issued_at rc
           else aws_mfa_age_seconds c;
         aws_called_via := aws_called_via c; aws_source_vpce := aws_source_vpce c;
         aws_source_vpc := aws_source_vpc c; aws_vpc_source_ip := aws_vpc_source_ip c;
         aws_federated_provider := rc_federated_provider rc;
         aws_token_issue_time := rc_token_issued_at rc;
         service_keys := service_keys c; resource_tags := resource_tags c;
         request_tags := request_tags c; principal_tags := principal_tags c |}
  end.

(** The context with its last four fields replaced. *)
Definition with_keys_and_tags (keys : list (string * list string))
  (resource request principal : option (gmap string string)) (c : ConditionContext) : ConditionContext :=
  {| aws_username := aws_username c; aws_userid := aws_userid c;
     aws_principal_arn := aws_principal_arn c; aws_principal_account := aws_principal_account c;
     aws_principal_type := aws_principal_type c; aws_source_ip := aws_source_ip c;
     aws_current_time := aws_current_time c; aws_epoch_time := aws_epoch_time c;
     aws_secure_transport := aws_secure_transport c; aws_requested_region := aws_requested_region c;
     aws_mfa_present := aws_mfa_present c; aws_mfa_age_seconds := aws_mfa_age_seconds c;
     aws_called_via := aws_called_via c; aws_source_vpce := aws_source_vpce c;
     aws_source_vpc := aws_source_vpc c; aws_vpc_source_ip := aws_vpc_source_ip c;
     aws_federated_provider := aws_federated_provider c; aws_token_issue_time := aws_token_issue_time c;
     service_keys := keys; resource_tags := resource; request_tags := request;
     principal_tags := principal |}.

Definition with_service_keys (keys : list (string * list string)) (c : ConditionContext) : ConditionContext :=
  with_keys_and_tags keys (resource_tags c) (request_tags c) (principal_tags c) c.

Definition add_global_request_keys (c : ConditionContext) (p : Principal) (resource_account_id : string)
  (scp : option ScpResolver) : ConditionContext :=
  let keys := service_keys c in
  let keys := if is_empty_str resource_account_id then keys
              else entry_or_insert "aws:resourceaccount" [resource_account_id] keys in
  let keys :=
    match (r ← scp; principal_org r (account_id p)) with
    | Some (org_id, path) =>
        entry_or_insert "aws:principalorgpaths" [path] (entry_or_insert "aws:principalorgid" [org_id] keys)
    | None => keys
    end in
  with_service_keys keys c.

(** ** Enforcement *)

Definition is_allow (d : IamDecision) : bool := match d with IamAllow => true | _ => false end.
Definition is_explicit_deny (d : IamDecision) : bool := match d with IamExplicitDeny => true | _ => false end.

Definition ACCESS_DENIED : ErrorResponse := build_error_response FORBIDDEN "AccessDenied" "Access Denied".

Section Enforce.
Context {S St Resp : Type} `{IamPolicyEvaluator S} `{DenyCodec}.
Variable config : DispatchConfig S.
Variable clock : Clock.
Variable service : AwsService St Resp.
Variable st : St.
Variable evaluator : S.
Variable d : DetectedRequest.
Variable remote_ip : option IpAddr.

Definition principal_condition_context (n : nat) (p : Principal) (rc : option ResolvedCredential)
  (rq : AwsRequest) (a : IamAction) : ConditionContext :=
  let c := build_condition_context p remote_ip (rq_region rq) (is_secure_transport (rq_headers rq))
             (context_at clock n) in
  with_keys_and_tags (iam_condition_keys_for service st rq a)
    (if is_pass_role a then None else resource_tags_for service st (ia_resource a))
    (request_tags_from service st rq (ia_action a)) (principal_tags_of p)
    (with_session_keys rc (mfa_at clock n) c).

(** The ACL of the resource, unless its policy denies explicitly. *)
Definition acl_allows (decision : IamDecision) (a : IamAction) : bool :=
  negb (is_explicit_deny decision) &&
  match resource_policy_provider config with
  | Some p => dyn_public_acl_allows p (d_service d) (ia_resource a) (ia_action a)
  | None => false
  end.

Definition resource_policy_of (a : IamAction) : option string :=
  p ← resource_policy_provider config; dyn_policy p (d_service d) (ia_resource a).

Definition owner_of (a : IamAction) : option string :=
  p ← resource_policy_provider config; dyn_owner_account p (d_service d) (ia_resource a).

(** [Some] is the response to send; outside strict mode a denial is logged. *)
Definition denied_under_strict (e : ErrorResponse) : option ErrorResponse :=
  if iam_mode_is_strict (iam_mode config) then Some e else None.

(** *** In-process callers *)

Definition internal_context (n : nat) (caller : InternalCaller) (rq : AwsRequest) (a : IamAction)
  : ConditionContext :=
  let now := context_at clock n in
  let keys :=
    entry_or_insert "aws:resourceaccount" [rq_account_id rq]
      (map_extend (iam_condition_keys_for service st rq a) (caller_condition_keys caller)) in
  {| aws_username := None; aws_userid := None;
     aws_principal_arn := Some (arn (caller_principal caller)); aws_principal_account := None;
     aws_principal_type := None; aws_source_ip := None; aws_current_time := Some now;
     aws_epoch_time := Some (timestamp now);
     aws_secure_transport := Some (is_secure_transport (rq_headers rq));
     aws_requested_region := Some (rq_region rq); aws_mfa_present := None; aws_mfa_age_seconds := None;
     aws_called_via := []; aws_source_vpce := None; aws_source_vpc := None; aws_vpc_source_ip := None;
     aws_federated_provider := None; aws_token_issue_time := None; service_keys := keys;
     resource_tags := None; request_tags := None; principal_tags := None |}.

Definition internal_decision (n : nat) (caller : InternalCaller) (rq : AwsRequest) (a : IamAction)
  : IamDecision :=
  ev_resource_policy_only evaluator (caller_principal caller) a (internal_context n caller rq a)
    (resource_policy_of a).

Definition authorize_internal_caller (caller : InternalCaller) (rq : AwsRequest) : option ErrorResponse :=
  match iam_actions_for service st rq with
  | [] => denied_under_strict ACCESS_DENIED
  | actions =>
      find_map (fun na : nat * IamAction =>
        let decision := internal_decision na.1 caller rq na.2 in
        if is_allow decision || acl_allows decision na.2 then None else denied_under_strict ACCESS_DENIED)
        (imap pair (filter (fun a => is_pass_role a = false) actions))
  end.

(** *** Account roots *)

Definition root_decision (n : nat) (p : Principal) (rc : option ResolvedCredential) (rq : AwsRequest)
  (owner : string) (a : IamAction) : IamDecision :=
  ev_resource_policy_only evaluator p a
    (add_global_request_keys (principal_condition_context n p rc rq a) p owner (scp_resolver config))
    (resource_policy_of a).

Definition cross_account_denied (p : Principal) (a : IamAction) : ErrorResponse :=
  build_error_response FORBIDDEN "AccessDeniedException"
    ("User: " +:+ arn p +:+ " is not authorized to perform: " +:+ action_string a +:+ " on resource: "
     +:+ ia_resource a +:+ " because no resource-based policy allows the " +:+ action_string a +:+ " action").

Definition authorize_root_cross_account (p : Principal) (rc : option ResolvedCredential) (rq : AwsRequest)
  : option ErrorResponse :=
  if iam_resource_in_caller_account service st rq then None
  else
    find_map (fun na : nat * IamAction =>
      match owner_of na.2 with
      | None => None
      | Some owner =>
          if String.eqb owner (account_id p) then None
          else
            let decision := root_decision na.1 p rc rq owner na.2 in
            if is_allow decision || acl_allows decision na.2 then None
            else denied_under_strict (cross_account_denied p na.2)
      end) (imap pair (iam_actions_for service st rq)).

(** *** Identities *)

(** The account that owns the resource: the provider's answer, the account of
    the ARN, else the caller's. *)
Definition resource_account (p : Principal) (in_caller_account : bool) (a : IamAction) : string :=
  default (account_id p)
    (or_else (if negb (is_pass_role a) && negb in_caller_account then owner_of a else None)
       (parse_account_from_arn (ia_resource a))).

Definition principal_context (n : nat) (p : Principal) (rc : option ResolvedCredential) (rq : AwsRequest)
  (a : IamAction) : ConditionContext :=
  add_global_request_keys (principal_condition_context n p rc rq a) p
    (resource_account p (iam_resource_in_caller_account service st rq) a) (scp_resolver config).

Definition principal_decision (n : nat) (p : Principal) (rc : option ResolvedCredential) (rq : AwsRequest)
  (a : IamAction) : IamDecision :=
  let in_caller_account := iam_resource_in_caller_account service st rq in
  ev_with_resource_policy evaluator p a (principal_context n p rc rq a)
    (if negb (is_pass_role a) && negb in_caller_account then resource_policy_of a else None)
    (resource_account p in_caller_account a)
    (match rc with Some rc => rc_session_policies rc | None => [] end)
    (r ← scp_resolver config; scps_for r p).

(** [auth_message::encode_deny], and the summary the dispatcher puts in it. *)
Definition encode_deny (explicit : bool) (action principal_arn : option string)
  (matched_statements : list Value) (context : option Value) : string :=
  let member (key : string) (o : option Value) := match o with Some v => [(key, v)] | None => [] end in
  seal (VObject ([("allowed", VBool false); ("explicitDeny", VBool explicit);
                  ("matchedStatements", VObject [("items", VArray matched_statements)])]%string
                 ++ member "action" (VString <$> action) ++ member "principal" (VString <$> principal_arn)
                 ++ member "context" context)).

(** [format!("{:?}", decision)]. *)
Definition decision_debug (d : IamDecision) : string :=
  match d with IamAllow => "Allow" | IamImplicitDeny => "ImplicitDeny" | IamExplicitDeny => "ExplicitDeny" end.

Definition context_summary (p : Principal) (c : ConditionContext) (a : IamAction) (d : IamDecision) : Value :=
  VObject [("aws:PrincipalArn", VString (arn p)); ("aws:PrincipalAccount", VString (account_id p));
           ("aws:RequestedRegion", VString (default EmptyString (aws_requested_region c)));
           ("aws:SecureTransport", VBool (default false (aws_secure_transport c)));
           ("aws:Action", VString (action_string a)); ("aws:Resource", VString (ia_resource a));
           ("decision", VString (decision_debug d))]%string.

Definition principal_denied (n : nat) (p : Principal) (rc : option ResolvedCredential) (rq : AwsRequest)
  (a : IamAction) : ErrorResponse :=
  build_error_response FORBIDDEN "AccessDeniedException"
    ("User: " +:+ arn p +:+ " is not authorized to perform: " +:+ action_string a +:+ " on resource: "
     +:+ ia_resource a +:+ " Encoded authorization failure message: "
     +:+ (let d := principal_decision n p rc rq a in
          encode_deny (is_explicit_deny d) (Some (action_string a)) (Some (arn p)) []
            (Some (context_summary p (principal_context n p rc rq a) a d)))).

Definition authorize_principal (p : Principal) (rc : option ResolvedCredential) (rq : AwsRequest)
  : option ErrorResponse :=
  match iam_actions_for service st rq with
  | [] =>
      denied_under_strict (build_error_response FORBIDDEN "AccessDeniedException"
        ("User: " +:+ arn p +:+ " is not authorized to perform: " +:+ rq_action rq +:+
         ": no IAM action mapping exists for this operation, so it cannot be authorized under strict IAM enforcement"))
  | actions =>
      find_map (fun na : nat * IamAction =>
        if is_allow (principal_decision na.1 p rc rq na.2) then None
        else denied_under_strict (principal_denied na.1 p rc rq na.2))
        (imap pair actions)
  end.

(** *** Anonymous callers *)

Definition anonymous_context (n : nat) (rq : AwsRequest) (a : IamAction) : ConditionContext :=
  let now := context_at clock n in
  let keys := iam_condition_keys_for service st rq a in
  {| aws_username := None; aws_userid := None; aws_principal_arn := None; aws_principal_account := None;
     aws_principal_type := None; aws_source_ip := remote_ip; aws_current_time := Some now;
     aws_epoch_time := Some (timestamp now);
     aws_secure_transport := Some (is_secure_transport (rq_headers rq));
     aws_requested_region := Some (rq_region rq); aws_mfa_present := None; aws_mfa_age_seconds := None;
     aws_called_via := []; aws_source_vpce := None; aws_source_vpc := None; aws_vpc_source_ip := None;
     aws_federated_provider := None; aws_token_issue_time := None;
     service_keys :=
       match or_else (owner_of a) (parse_account_from_arn (ia_resource a)) with
       | Some owner => entry_or_insert "aws:resourceaccount" [owner] keys
       | None => keys
       end;
     resource_tags := None; request_tags := None; principal_tags := None |}.

Definition anonymous_decision (n : nat) (rq : AwsRequest) (a : IamAction) : IamDecision :=
  ev_anonymous evaluator a (anonymous_context n rq a) (resource_policy_of a).

Definition authorize_anonymous (rq : AwsRequest) : option ErrorResponse :=
  match iam_actions_for service st rq with
  | [] => denied_under_strict ACCESS_DENIED
  | actions =>
      find_map (fun na : nat * IamAction =>
        let decision := anonymous_decision na.1 rq na.2 in
        if is_allow decision || acl_allows decision na.2 then None else denied_under_strict ACCESS_DENIED)
        (imap pair actions)
  end.

(** The branches of the enforcement block, in the code's order. *)
Definition authorize (caller : option InternalCaller) (rc : option ResolvedCredential) (rq : AwsRequest)
  : option ErrorResponse :=
  match caller, rq_principal rq, rq_access_key_id rq with
  | Some caller, _, _ => authorize_internal_caller caller rq
  | None, Some p, _ =>
      if is_root p then authorize_root_cross_account p rc rq else authorize_principal p rc rq
  | None, None, Some akid => denied_under_strict (unresolved_credential_response config akid)
  | None, None, None => authorize_anonymous rq
  end.

End Enforce.

(** ** Dispatch *)

Section Dispatch.
Context {S St Resp : Type} `{IamPolicyEvaluator S} `{DenyCodec}.
Context `{Sigv4.PercentCodec} `{Sigv4.SigCrypto} `{Sigv4.AmzDate} `{WireFormats} `{HeaderSyntax}.
Context `{Cbor.CborReader} `{Cbor.Base64} `{Form.LossyText} `{SerdeJson}.
Variable registry : gmap string (AwsService St Resp).
Variable config : DispatchConfig S.

(** The enforcement block. *)
Definition enforce (clock : Clock) (service : AwsService St Resp) (st : St) (h : HttpRequest)
  (d : DetectedRequest) (rq : AwsRequest) : option ErrorResponse :=
  if iam_mode_is_enabled (iam_mode config) && iam_enforceable service
     && negb (is_root_bypass (default EmptyString (rq_access_key_id rq)))
  then
    evaluator ← policy_evaluator config;
    authorize config clock service st evaluator d (h_remote_ip h) (internal_caller h)
      (resolved config h) rq
  else None.

Inductive Outcome : Type := Rejected (e : ErrorResponse) | Answered (r : Resp).

(** From the registry lookup to the answer. *)
Definition admission (clock : Clock) (st : St) (h : HttpRequest) (rt : Routed)
  : Result ErrorResponse (AwsService St Resp * AwsRequest) :=
  let d := rt_detected rt in
  service ← ok_or (build_error_response BAD_REQUEST "UnknownService"
                     ("Service '" +:+ d_service d +:+ "' is not available")) (registry !! d_service d);
  _ ← signature_gate config clock h (d_service d);
  payload ← decode_payload h d;
  let rq := build_request config h rt payload in
  match enforce clock service st h d rq with
  | Some e => Err e
  | None => Ok (service, rq)
  end.

Definition dispatch (clock : Clock) (st : St) (h : HttpRequest) (rt : Routed) : St * Outcome :=
  match admission clock st h rt with
  | Err e => (st, Rejected e)
  | Ok (service, rq) => let '(st', r) := handle service st rq in (st', Answered r)
  end.

End Dispatch.

End Dispatch.
