(* ===== verification/DispatchTheory.v ===== *)
(** * What dispatch admits

    Theorems about [Dispatch]: which requests reach a handler under strict
    enforcement, that an identity is proven before it is used, that soft mode
    never denies, and the composition with the policy evaluator. *)

From Stdlib Require Import ZArith Lia Bool String Ascii.
From stdpp Require Import base option list strings gmap.
From S2P Require Import Prelude Json Net Auth Arn BTree Evaluator EvaluatorTheory MultiAccount Iam IamTheory.
From S2P Require Import PolicyVars Sigv4 Sigv4Theory Cbor Form Dispatch.
Import Dispatch.

(** ** Searching a list of authorizations *)

Lemma find_map_None {A B} (f : A -> option B) l : find_map f l = None <-> Forall (fun a => f a = None) l.
Proof.
  induction l as [|a l IH]; simpl; [by rewrite Forall_nil|]. rewrite Forall_cons, <- IH.
  destruct (f a); naive_solver.
Qed.

Lemma Forall_imap_pair {A} (P : nat * A -> Prop) (l : list A) :
  Forall P (imap pair l) <-> forall n a, l !! n = Some a -> P (n, a).
Proof.
  rewrite Forall_lookup. split.
  - intros HP n a Ha. apply (HP n). by rewrite list_lookup_imap, Ha.
  - intros HP n [m a] Hn. rewrite list_lookup_imap in Hn. destruct (l !! n) as [b|] eqn:E; [|done].
    simpl in Hn. injection Hn as <- <-. by apply HP.
Qed.

Section Permission.
Context {S St Resp : Type} `{IamPolicyEvaluator S} `{DenyCodec}.
Variable config : DispatchConfig S.
Variable clock : Clock.
Variable service : AwsService St Resp.
Variable st : St.
Variable evaluator : S.
Variable d : DetectedRequest.
Variable remote_ip : option IpAddr.

(** A resource policy or a public ACL lets the action through, and the policy
    does not deny it. *)
Definition granted (decision : IamDecision) (a : IamAction) : Prop :=
  decision = IamAllow \/
  (decision <> IamExplicitDeny /\
   exists p, resource_policy_provider config = Some p /\
     dyn_public_acl_allows p (d_service d) (ia_resource a) (ia_action a) = true).

Lemma granted_spec decision a :
  is_allow decision || acl_allows config d decision a = true <-> granted decision a.
Proof.
  unfold granted, acl_allows. destruct decision, (resource_policy_provider config); simpl;
    naive_solver.
Qed.

(** Who may do what under strict enforcement, by kind of caller. *)
Definition permitted (caller : option InternalCaller) (rc : option ResolvedCredential) (rq : AwsRequest)
  : Prop :=
  let actions := iam_actions_for service st rq in
  match caller, rq_principal rq, rq_access_key_id rq with
  | Some caller, _, _ =>
      actions <> [] /\
      forall n a, filter (fun a => is_pass_role a = false) actions !! n = Some a ->
        granted (internal_decision config clock service st evaluator d n caller rq a) a
  | None, Some p, _ =>
      if is_root p then
        iam_resource_in_caller_account service st rq = true \/
        forall n a owner, actions !! n = Some a -> owner_of config d a = Some owner ->
          owner <> account_id p ->
          granted (root_decision config clock service st evaluator d remote_ip n p rc rq owner a) a
      else
        actions <> [] /\
        forall n a, actions !! n = Some a ->
          principal_decision config clock service st evaluator d remote_ip n p rc rq a = IamAllow
  | None, None, Some _ => False
  | None, None, None =>
      actions <> [] /\
      forall n a, actions !! n = Some a ->
        granted (anonymous_decision config clock service st evaluator d remote_ip n rq a) a
  end.

Lemma denied_under_strict_None e :
  iam_mode config = IamStrict -> denied_under_strict config e <> None.
Proof. unfold denied_under_strict. by intros ->. Qed.

Lemma deny_unless_None (b : bool) e :
  iam_mode config = IamStrict ->
  (if b then None else denied_under_strict config e) = None <-> b = true.
Proof.
  intros Hs. destruct b; [done|]. split; [|done]. intros Hn. by destruct (denied_under_strict_None e Hs).
Qed.

Lemma authorize_root_strict p rc rq :
  iam_mode config = IamStrict ->
  authorize_root_cross_account config clock service st evaluator d remote_ip p rc rq = None <->
  iam_resource_in_caller_account service st rq = true \/
  forall n a owner, iam_actions_for service st rq !! n = Some a -> owner_of config d a = Some owner ->
    owner <> account_id p ->
    granted (root_decision config clock service st evaluator d remote_ip n p rc rq owner a) a.
Proof.
  intros Hs. unfold authorize_root_cross_account.
  destruct (iam_resource_in_caller_account service st rq); [naive_solver|].
  rewrite find_map_None, Forall_imap_pair. split.
  - intros Hall. right. intros n a owner Ha Ho Hne. specialize (Hall n a Ha). simpl in Hall.
    rewrite Ho in Hall. destruct (String.eqb_spec owner (account_id p)); [done|].
    by rewrite deny_unless_None, granted_spec in Hall.
  - intros [?|Hall] n a Ha; [done|]. simpl. destruct (owner_of config d a) as [owner|] eqn:Ho; [|done].
    destruct (String.eqb_spec owner (account_id p)); [done|].
    rewrite deny_unless_None, granted_spec by done. by apply (Hall n a owner).
Qed.

(** The shape shared by the enforced branches: no mapping is a denial,
    otherwise every action is asked about. *)
Ltac by_actions Hs :=
  match goal with
  | |- context [iam_actions_for ?service ?st ?rq] =>
      destruct (iam_actions_for service st rq) as [|a0 actions] eqn:?;
      [split; [by intros ?%(denied_under_strict_None _ Hs)|naive_solver]|];
      rewrite find_map_None, Forall_imap_pair;
      let n := fresh "n" in let a := fresh "a" in
      match goal with
      | |- ?L <-> _ /\ ?R =>
          cut (L <-> R); [intros Hcut; rewrite Hcut; naive_solver|];
          apply forall_proper; intros n; apply forall_proper; intros a
      end
  end.

Lemma authorize_strict caller rc rq :
  iam_mode config = IamStrict ->
  authorize config clock service st evaluator d remote_ip caller rc rq = None <-> permitted caller rc rq.
Proof.
  intros Hs. unfold authorize, permitted.
  destruct caller as [c|]; [|destruct (rq_principal rq) as [p|]; [|destruct (rq_access_key_id rq) as [k|]]].
  - unfold authorize_internal_caller. by_actions Hs. by rewrite deny_unless_None, granted_spec.
  - destruct (is_root p); [by apply authorize_root_strict|].
    unfold authorize_principal. by_actions Hs. rewrite deny_unless_None by done. simpl.
    destruct (principal_decision _ _ _ _ _ _ _ _ _ _ _ _); naive_solver.
  - split; [|done]. apply denied_under_strict_None; done.
  - unfold authorize_anonymous. by_actions Hs. by rewrite deny_unless_None, granted_spec.
Qed.

End Permission.

(** ** Credentials *)

Lemma or_else_None {A} (a b : option A) : or_else a b = None <-> a = None /\ b = None.
Proof. destruct a; simpl; naive_solver. Qed.

(** A request that presents no credential has no access key. *)
Lemma anonymous_no_key h : is_fully_anonymous h = true -> access_key_id h = None.
Proof.
  unfold is_fully_anonymous, access_key_id, sigv4_info. intros Ha. boolify.
  rewrite !bool_decide_eq_true in *. destruct (auth_header h) as [|c s]; [|done].
  unfold Sigv4.parse_sigv4_presigned. rewrite !or_else_None.
  split; [|done]. apply fmap_None. rewrite or_else_None. split; [done|]. apply fmap_None.
  case_bool_decide; [|done]. by match goal with Hc : _ !! _ = None |- _ => rewrite Hc end.
Qed.

Lemma internal_caller_anonymous h c : internal_caller h = Some c -> is_fully_anonymous h = true.
Proof. unfold internal_caller. by destruct (is_fully_anonymous h). Qed.

Lemma anonymous_unresolved {S} (config : DispatchConfig S) h :
  access_key_id h = None -> resolved config h = None.
Proof. unfold resolved, caller_akid. by intros ->. Qed.

Section Admission.
Context {S St Resp : Type} `{IamPolicyEvaluator S} `{DenyCodec}.
Context `{Sigv4.PercentCodec} `{Sigv4.SigCrypto} `{Sigv4.AmzDate} `{WireFormats} `{HeaderSyntax}.
Context `{Cbor.CborReader} `{Cbor.Base64} `{Form.LossyText} `{SerdeJson}.
Variable registry : gmap string (AwsService St Resp).
Variable config : DispatchConfig S.

(** Requests enforcement does not look at. *)
Definition exempt (service : AwsService St Resp) (rq : AwsRequest) : Prop :=
  iam_enforceable service = false \/ policy_evaluator config = None \/
  is_root_bypass (default EmptyString (rq_access_key_id rq)) = true.

Lemma enforce_strict clock service st h d rq :
  iam_mode config = IamStrict ->
  enforce config clock service st h d rq = None <->
  exempt service rq \/
  exists evaluator, policy_evaluator config = Some evaluator /\
    permitted config clock service st evaluator d (h_remote_ip h) (internal_caller h) (resolved config h) rq.
Proof.
  intros Hs. unfold enforce, exempt. rewrite Hs. cbn [iam_mode_is_enabled andb].
  destruct (iam_enforceable service); cbn [andb]; [|naive_solver].
  destruct (is_root_bypass _); cbn [negb]; [naive_solver|].
  destruct (policy_evaluator config) as [ev|]; cbn [mbind option_bind]; [|naive_solver].
  rewrite (authorize_strict config clock service st ev d (h_remote_ip h)) by done. naive_solver.
Qed.

Lemma admit_Ok clock st h rt service rq :
  admission registry config clock st h rt = Ok (service, rq) <->
  registry !! d_service (rt_detected rt) = Some service /\
  signature_gate config clock h (d_service (rt_detected rt)) = Ok tt /\
  (exists payload, decode_payload h (rt_detected rt) = Ok payload /\ rq = build_request config h rt payload) /\
  enforce config clock service st h (rt_detected rt) rq = None.
Proof.
  unfold admission. split.
  - intros (svc & Hsvc%ok_or_Ok & Hr)%bind_Ok. apply bind_Ok in Hr as ([] & Hsig & Hr).
    apply bind_Ok in Hr as (payload & Hp & Hr).
    destruct (enforce _ _ _ _ _ _ _) eqn:He; [done|]. injection Hr as -> <-. split_and!; eauto.
  - intros (Hsvc & Hsig & (payload & Hp & ->) & He). rewrite Hsvc. cbn [ok_or mbind result_bind].
    rewrite Hsig. cbn [mbind result_bind]. rewrite Hp. cbn [mbind result_bind]. by rewrite He.
Qed.

(** C4 (safety): under strict enforcement state changes only by permitted
    requests.  Whenever dispatch changes the services' state, the service was
    registered, the signature gate passed, the handler ran on the request built
    from this HTTP request, and either enforcement does not cover the request
    (the service does not take part, no evaluator is configured, the reserved
    test key) or every authorization it needs was granted: by the resource
    policy or a public ACL for an in-process, anonymous or cross-account root
    caller, by the layered evaluation for an identity; an access key that
    resolves to nobody and an operation without a mapping are never served. *)
Theorem only_permitted_requests_change_state clock st h rt st' out :
  iam_mode config = IamStrict ->
  dispatch registry config clock st h rt = (st', out) -> st' <> st ->
  exists service payload,
    let d := rt_detected rt in
    let rq := build_request config h rt payload in
    registry !! d_service d = Some service /\
    signature_gate config clock h (d_service d) = Ok tt /\
    decode_payload h d = Ok payload /\
    (exists r, handle service st rq = (st', r) /\ out = Answered r) /\
    (exempt service rq \/
     exists evaluator, policy_evaluator config = Some evaluator /\
       permitted config clock service st evaluator d (h_remote_ip h) (internal_caller h)
         (resolved config h) rq).
Proof.
  intros Hs Hd Hne. unfold dispatch in Hd.
  destruct (admission registry config clock st h rt) as [[service rq]|e] eqn:Ha;
    [|injection Hd as -> _; done].
  apply admit_Ok in Ha as (Hsvc & Hsig & (payload & Hp & ->) & He%enforce_strict); [|done].
  destruct (handle service st _) as [st1 r] eqn:Hh. injection Hd as <- <-.
  exists service, payload. split_and!; eauto.
Qed.

(** Theorem (functional): admission under strict enforcement, in both directions: a
    request reaches its handler exactly when its service is registered, its
    signature passes, its payload decodes and it is exempt or permitted. *)
Theorem strict_admission clock st h rt service rq :
  iam_mode config = IamStrict ->
  (admission registry config clock st h rt = Ok (service, rq) <->
   registry !! d_service (rt_detected rt) = Some service /\
   signature_gate config clock h (d_service (rt_detected rt)) = Ok tt /\
   (exists payload, decode_payload h (rt_detected rt) = Ok payload /\ rq = build_request config h rt payload) /\
   (exempt service rq \/
    exists evaluator, policy_evaluator config = Some evaluator /\
      permitted config clock service st evaluator (rt_detected rt) (h_remote_ip h) (internal_caller h)
        (resolved config h) rq)).
Proof. intros Hs. by rewrite admit_Ok, enforce_strict. Qed.

(** C29 (safety): with signature verification on, a request acts under an
    identity only after proving it.  If an admitted request has a principal,
    then either it is an in-process call with no credential of its own, or its
    signature verified under the secret of the credential whose principal this
    is; and outside S3 a header-signed payload hash is the hash of the body
    received. *)
Theorem identity_is_proven clock st h rt service rq p :
  verify_sigv4 config = true -> is_Some (credential_resolver config) ->
  admission registry config clock st h rt = Ok (service, rq) -> rq_principal rq = Some p ->
  (exists c, internal_caller h = Some c /\ p = caller_principal c /\ rq_access_key_id rq = None) \/
  (exists credential parsed,
     resolved config h = Some credential /\ rc_principal credential = p /\
     parsed_signature h = Some parsed /\
     Sigv4.verify parsed (verify_request h) (rc_secret_access_key credential) (verify_at clock) = Ok tt /\
     (forall hash, Sigv4.is_presigned parsed = false -> d_service (rt_detected rt) <> "s3"%string ->
        header_str (h_headers h) "x-amz-content-sha256" = Some hash -> is_hex_sha256 hash = true ->
        sha256_hex_lower (h_wire_body h) = hash)).
Proof.
  intros Hv Hr (Hsvc & Hsig & (payload & Hp & ->) & _)%admit_Ok Hprin.
  change (request_principal config h = Some p) in Hprin.
  change (rq_access_key_id (build_request config h rt payload)) with (access_key_id h).
  unfold request_principal in Hprin. destruct (resolved config h) as [credential|] eqn:Hres.
  - right. injection Hprin as <-. exists credential.
    assert (Hkey : is_fully_anonymous h = false).
    { destruct (is_fully_anonymous h) eqn:E; [|done]. apply anonymous_no_key in E.
      by rewrite (anonymous_unresolved config h E) in Hres. }
    assert (Hbypass : is_root_bypass (caller_akid h) = false).
    { unfold resolved in Hres. by destruct (is_root_bypass (caller_akid h)); [rewrite andb_false_r in Hres|]. }
    unfold signature_gate in Hsig. rewrite Hv, Hkey, Hbypass, bool_decide_true in Hsig by done.
    cbn [negb andb] in Hsig. apply bind_Ok in Hsig as (parsed & Hpar%ok_or_Ok & Hsig).
    rewrite Hres in Hsig. cbn [ok_or mbind result_bind] in Hsig. exists parsed.
    destruct (Sigv4.verify _ _ _ _) as [[]|e]; [|done]. split_and!; try done.
    intros hash Hps Hs3 Hh Hhex. unfold check_body_hash in Hsig. rewrite Hps, Hh, Hhex in Hsig.
    destruct (String.eqb_spec (d_service (rt_detected rt)) "s3"); [done|]. simpl in Hsig.
    by destruct (String.eqb_spec (sha256_hex_lower (h_wire_body h)) hash).
  - left. destruct (internal_caller h) as [c|] eqn:Hc; [|done]. injection Hprin as <-. exists c.
    split_and!; try done. by apply anonymous_no_key, (internal_caller_anonymous h c).
Qed.

(** Theorem (error): only strict mode denies.  In any other mode enforcement never
    produces a response, whatever the policies say. *)
Theorem soft_mode_never_denies clock (service : AwsService St Resp) st h d rq :
  iam_mode config <> IamStrict -> enforce config clock service st h d rq = None.
Proof.
  intros Hs. assert (Hd : forall e, denied_under_strict config e = None).
  { intros e. unfold denied_under_strict. by destruct (iam_mode config). }
  unfold enforce. destruct (_ && _ && _); [|done].
  destruct (policy_evaluator config) as [ev|]; cbn [mbind option_bind]; [|done].
  assert (Hfm : forall {A} (f : A -> option ErrorResponse) l,
    (forall a, f a = None) -> find_map f l = None).
  { intros A f l Hf. apply find_map_None, Forall_true. apply Hf. }
  unfold authorize, authorize_internal_caller, authorize_principal, authorize_anonymous,
    authorize_root_cross_account.
  destruct (internal_caller h); [|destruct (rq_principal rq) as [p|]; [|destruct (rq_access_key_id rq)]];
    try destruct (is_root p); try destruct (iam_resource_in_caller_account service st rq);
    try destruct (iam_actions_for service st rq);
    try apply Hd; try done; apply Hfm; intros [n a]; repeat case_match; try apply Hd; done.
Qed.

End Admission.

(** ** With the evaluator of [fakecloud-iam] *)

Section Composition.
Context {St Resp : Type} `{DenyCodec} `{SerdeJson} `{Chrono} `{ManagedCatalog}.
Context `{Sigv4.PercentCodec} `{Sigv4.SigCrypto} `{Sigv4.AmzDate} `{WireFormats} `{HeaderSyntax}.
Context `{Cbor.CborReader} `{Cbor.Base64} `{Form.LossyText}.
Variable registry : gmap string (AwsService St Resp).
Variable config : DispatchConfig IamPolicyEvaluatorImpl.

(** What the dispatcher hands to the evaluator for the [n]-th action. *)
Definition asked clock (service : AwsService St Resp) st h d n p rq a : EvalRequest :=
  eval_request p a (principal_context config clock service st d (h_remote_ip h) n p (resolved config h) rq a).

(** One action of one identity, layer by layer. *)
Definition layers_allow clock (service : AwsService St Resp) st h d n p rq a evaluator : Prop :=
  exists state, get_account (ev_state evaluator) (account_id p) = Some state /\
  let identity := collect_identity_policies state p in
  let boundary := collect_boundary_policies state p in
  let session := parse_session_policies
    (match resolved config h with Some rc => rc_session_policies rc | None => [] end) in
  let scps := parse_scp_policies (r ← scp_resolver config; scps_for r p) in
  let in_caller := iam_resource_in_caller_account service st rq in
  let resource := document_parse <$>
    (if negb (is_pass_role a) && negb in_caller then resource_policy_of config d a else None) in
  let ask := asked clock service st h d n p rq a in
  ~ denied identity boundary session scps resource ask /\
  grants identity boundary session scps resource ask (resource_account config d p in_caller a).

Lemma principal_decision_Allow clock service st evaluator h d n p rq a :
  principal_decision config clock service st evaluator d (h_remote_ip h) n p (resolved config h) rq a
    = IamAllow <-> layers_allow clock service st h d n p rq a evaluator.
Proof.
  unfold principal_decision, layers_allow. cbn [ev_with_resource_policy iam_policy_evaluator].
  unfold impl_with_resource_policy. destruct (get_account _ _) as [state|] eqn:Hst.
  - rewrite decision_to_core_Allow. destruct (resource_policy_decides
      (collect_identity_policies state p) (collect_boundary_policies state p)
      (parse_session_policies (match resolved config h with Some rc => rc_session_policies rc | None => [] end))
      (parse_scp_policies (r ← scp_resolver config; scps_for r p))
      (document_parse <$> (if negb (is_pass_role a) && negb (iam_resource_in_caller_account service st rq)
                           then resource_policy_of config d a else None))
      (asked clock service st h d n p rq a)
      (resource_account config d p (iam_resource_in_caller_account service st rq) a)) as [_ HA].
    unfold asked in *. rewrite HA. naive_solver.
  - split; [done|]. intros (? & ? & _). done.
Qed.

(** C5 (refinement): the dispatcher and the evaluator together implement the
    layered policy decision.  A request of an IAM identity is served under
    strict enforcement exactly when it needs at least one action and, for each
    of them, the identity's account exists, no layer (its own policies,
    boundary, session, organization, resource policy) denies it and the
    layers grant it. *)
Theorem identity_served_by_policies clock st h rt service payload p evaluator :
  let d := rt_detected rt in
  let rq := build_request config h rt payload in
  iam_mode config = IamStrict -> policy_evaluator config = Some evaluator ->
  iam_enforceable service = true -> is_root_bypass (caller_akid h) = false ->
  internal_caller h = None -> request_principal config h = Some p -> is_root p = false ->
  (enforce config clock service st h d rq = None <->
   iam_actions_for service st rq <> [] /\
   forall n a, iam_actions_for service st rq !! n = Some a ->
     layers_allow clock service st h d n p rq a evaluator).
Proof.
  intros d rq Hs Hev Henf Hby Hint Hp Hroot. rewrite enforce_strict by done.
  assert (Hex : ~ exempt config service rq).
  { unfold exempt. rewrite Henf, Hev. intros [?|[?|Hb]]; try done.
    change (is_root_bypass (caller_akid h) = true) in Hb. congruence. }
  assert (Hper : permitted config clock service st evaluator d (h_remote_ip h) (internal_caller h)
    (resolved config h) rq <-> iam_actions_for service st rq <> [] /\
    forall n a, iam_actions_for service st rq !! n = Some a ->
      principal_decision config clock service st evaluator d (h_remote_ip h) n p (resolved config h) rq a
      = IamAllow).
  { unfold permitted. rewrite Hint. change (rq_principal rq) with (request_principal config h).
    by rewrite Hp, Hroot. }
  transitivity (permitted config clock service st evaluator d (h_remote_ip h) (internal_caller h)
    (resolved config h) rq); [split; [intros [?|(ev & Hev' & Hperm)]; [done|congruence]|by eauto]|].
  rewrite Hper. by setoid_rewrite principal_decision_Allow.
Qed.

End Composition.

(** ** Witnesses

    A service that counts the requests it serves, and one IAM user. *)

Definition yes_evaluator : IamPolicyEvaluator unit := {|
  ev_evaluate := fun _ _ _ _ _ _ => IamAllow;
  ev_with_resource_policy := fun _ _ _ _ _ _ _ _ => IamAllow;
  ev_anonymous := fun _ _ _ _ => IamImplicitDeny;
  ev_resource_policy_only := fun _ _ _ _ _ => IamImplicitDeny
|}.

Definition no_deny_codec : DenyCodec := {| seal := fun _ => EmptyString |}.
Definition plain_wire : WireFormats := {| from_slice := fun _ => Some Null; json_bytes := fun _ => [] |}.
Definition plain_headers : HeaderSyntax := {| header_name_ok := fun _ => true; header_value_ok := fun _ => true |}.
Definition no_cbor : Cbor.CborReader := {| Cbor.from_reader := fun _ => Ok Cbor.CNull |}.
Definition no_base64 : Cbor.Base64 := {| Cbor.base64_encode := fun _ => EmptyString |}.
Definition no_text : Form.LossyText := {| Form.from_utf8_lossy := fun _ => EmptyString |}.

Definition ping_action : IamAction :=
  {| ia_service := "sqs"; ia_action := "Ping"; ia_resource := "arn:aws:sqs:us-east-1:111111111111:q" |}.

Definition counter_service : AwsService nat nat :=
  mkService nat nat (fun n _ => (S n, n)) true (fun _ _ => [ping_action]) (fun _ _ => false)
    (fun _ _ _ => []) (fun _ _ => None) (fun _ _ _ => None).

Definition sample_user : Principal :=
  {| arn := "arn:aws:iam::111111111111:user/bob"; user_id := "AIDABOB"; account_id := "111111111111";
     principal_type := TUser; source_identity := None; principal_tags_of := None |}.

Definition sample_credential : ResolvedCredential :=
  mkResolved "secret" None sample_user [] false None None.

Definition sample_config (S : Type) (ev : S) : DispatchConfig S :=
  mkConfig S "us-east-1" "111111111111" true IamStrict
    (Some {| cr_resolve := fun k => if String.eqb k "AKIA" then Some sample_credential else None;
             cr_is_expired := fun _ => false |})
    (Some ev) None None.

Definition signed_header : string :=
  render_authorization
    (Sigv4.mkParsed "AKIA" "19700101" "us-east-1" "sqs" ["host"%string] "6325040" "19700101T000000Z" false).

Definition sample_http : HttpRequest :=
  mkHttp "GET" "/q" "" [("authorization", Some signed_header);
                        ("host", Some "sqs.local"); ("x-amz-date", Some "19700101T000000Z")]%string
    ∅ [] [] None None None.

Definition sample_routed : Routed := mkRouted (mkDetected "sqs" "Ping" PQuery) None None None.
Definition sample_clock : Clock := {| verify_at := 0; context_at := fun _ => 0%Z; mfa_at := fun _ => 0%Z |}.
Definition sample_registry : gmap string (AwsService nat nat) := {[ "sqs"%string := counter_service ]}.

#[local] Existing Instance yes_evaluator.
#[local] Existing Instance no_deny_codec.
#[local] Existing Instance byte_codec.
#[local] Existing Instance length_crypto.
#[local] Existing Instance epoch_date.
#[local] Existing Instance plain_wire.
#[local] Existing Instance plain_headers.
#[local] Existing Instance no_cbor.
#[local] Existing Instance no_base64.
#[local] Existing Instance no_text.
#[local] Existing Instance null_serde.

Lemma only_permitted_requests_change_state_witness :
  exists service payload,
    sample_registry !! "sqs"%string = Some service /\
    decode_payload sample_http (rt_detected sample_routed) = Ok payload /\
    exists r, handle service 0 (build_request (sample_config unit tt) sample_http sample_routed payload)
              = (1, r).
Proof.
  destruct (only_permitted_requests_change_state sample_registry (sample_config unit tt) sample_clock 0
    sample_http sample_routed 1 (Answered 0)) as (service & payload & Hreg & _ & Hp & (r & Hh & _) & _).
  - reflexivity.
  - vm_compute. reflexivity.
  - discriminate.
  - exists service, payload. split; [exact Hreg|]. split; [exact Hp|]. by exists r.
Defined.

Lemma strict_admission_witness :
  exists evaluator, policy_evaluator (sample_config unit tt) = Some evaluator.
Proof.
  set (rq := build_request (sample_config unit tt) sample_http sample_routed ([], ∅)).
  destruct (strict_admission sample_registry (sample_config unit tt) sample_clock 0 sample_http sample_routed
    counter_service rq eq_refl) as [Hadm _].
  destruct Hadm as (_ & _ & _ & [Hex|(ev & Hev & _)]).
  - vm_compute. reflexivity.
  - by exists tt.
  - by exists ev.
Defined.

Lemma identity_is_proven_witness :
  exists credential parsed,
    resolved (sample_config unit tt) sample_http = Some credential /\
    rc_principal credential = sample_user /\ parsed_signature sample_http = Some parsed.
Proof.
  destruct (identity_is_proven sample_registry (sample_config unit tt) sample_clock 0 sample_http sample_routed
    counter_service (build_request (sample_config unit tt) sample_http sample_routed ([], ∅)) sample_user)
    as [(c & Hc & _)|(credential & parsed & Hr & Hp & Hs & _)].
  - reflexivity.
  - by eexists.
  - vm_compute. reflexivity.
  - vm_compute. reflexivity.
  - discriminate.
  - by exists credential, parsed.
Defined.

Lemma soft_mode_never_denies_witness :
  let config := mkConfig unit "us-east-1" "111111111111" false IamSoft None (Some tt) None None in
  enforce config sample_clock counter_service 0 sample_http (rt_detected sample_routed)
    (build_request config sample_http sample_routed ([], ∅)) = None.
Proof.
  apply (soft_mode_never_denies (mkConfig unit "us-east-1" "111111111111" false IamSoft None (Some tt) None None)).
  discriminate.
Defined.

Lemma identity_served_by_policies_witness :
  let ev := {| ev_state := shared_iam |} in
  let config := sample_config IamPolicyEvaluatorImpl ev in
  let rq := build_request config sample_http sample_routed ([], ∅) in
  @enforce _ _ _ (@iam_policy_evaluator null_serde null_chrono no_catalog) _ config sample_clock
    counter_service 0 sample_http (rt_detected sample_routed) rq = None <->
  [ping_action] <> [] /\
  forall n a, [ping_action] !! n = Some a ->
    @layers_allow _ _ null_serde null_chrono no_catalog config sample_clock counter_service 0
      sample_http (rt_detected sample_routed) n sample_user rq a ev.
Proof.
  apply (@identity_served_by_policies _ _ _ null_serde null_chrono no_catalog _ _ _
    (sample_config IamPolicyEvaluatorImpl {| ev_state := shared_iam |}) sample_clock 0 sample_http
    sample_routed counter_service ([], ∅) sample_user).
  - reflexivity.
  - reflexivity.
  - reflexivity.
  - vm_compute. reflexivity.
  - vm_compute. reflexivity.
  - vm_compute. reflexivity.
  - vm_compute. reflexivity.
Defined.
