(* ===== verification/Routing.v ===== *)
(** * Routing

    The stage of [fakecloud-core/src/dispatch.rs] before [Dispatch]: reading
    the body, the detection of service, action and protocol
    ([fakecloud-core/src/protocol.rs]) from target header, query, form body,
    credential scope and host name, the streaming routes, and the corrections
    by path and user agent.  [route] turns a request off the wire into what
    [Dispatch.dispatch] takes.  Query parameters come parsed ([axum]), and
    gzip is the class [Gunzip] ([flate2]). *)

From Stdlib Require Import ZArith Lia Bool String Ascii.
From stdpp Require Import base option list strings gmap.
From S2P Require Import Prelude Json Net Auth Arn Iam Sigv4 Cbor Form Dispatch.
Import Dispatch.

Module Routing.

Definition Headers : Type := list (string * option string).

(** The first [n] bytes a decoder yields, or the text of its error. *)
Class Gunzip := { gunzip_take : Z -> list Z -> Result string (list Z) }.

(** ** Text *)

(** [split_whitespace]. *)
Fixpoint split_whitespace_from (word s : string) : list string :=
  let done_ := if is_empty_str word then [] else [word] in
  match s with
  | EmptyString => done_
  | String c s' =>
      if is_whitespace c then done_ ++ split_whitespace_from EmptyString s'
      else split_whitespace_from (word +:+ String c EmptyString) s'
  end.

Definition split_whitespace (s : string) : list string := split_whitespace_from EmptyString s.

(** [str::replace] of a non-empty pattern; each step consumes an occurrence. *)
Fixpoint replace_fuel (fuel : nat) (pat rep s : string) : string :=
  match fuel with
  | O => s
  | S fuel =>
      match split_at_needle pat s with
      | Some (before, after) => before +:+ rep +:+ replace_fuel fuel pat rep after
      | None => s
      end
  end.

Definition replace_str (pat rep s : string) : string := replace_fuel (String.length s) pat rep s.

Definition one_of (names : list string) (s : string) : bool := existsb (String.eqb s) names.

(** ** Services and protocols *)

Definition query_protocol_for (service : string) : AwsProtocol :=
  if String.eqb service "ec2" then PEc2Query else PQuery.

Definition REST_XML_SERVICES : list string := ["s3"; "cloudfront"; "route53"]%string.

Definition REST_JSON_SERVICES : list string :=
  ["managedblockchain"; "lambda"; "ses"; "apigateway"; "bedrock"; "bedrock-agent";
   "bedrock-agent-runtime"; "scheduler"; "batch"; "pipes"; "rds-data"; "dsql"; "resource-groups";
   "eks"; "glacier"; "backup"; "ram"; "s3tables"; "lakeformation"; "es"; "account"; "appconfig";
   "codeartifact"; "elasticfilesystem"; "mq"; "kafka"; "mwaa"; "fis"; "xray"; "appsync"; "amplify";
   "mediaconvert"; "serverlessrepo"; "iotdata"; "pinpoint"; "iot"; "iotwireless"]%string.

(** The arms of [parse_amz_target], in order: a prefix compared whole, or only
    its beginning. *)
Inductive TargetPattern : Type := Exact (s : string) | Prefix (s : string).

Definition AMZ_TARGETS : list (TargetPattern * string) :=
  [(Exact "AWSEvents", "events"); (Exact "AmazonSSM", "ssm"); (Exact "AmazonSQS", "sqs");
   (Exact "AmazonSNS", "sns"); (Exact "DynamoDB_20120810", "dynamodb");
   (Exact "DynamoDBStreams_20120810", "dynamodbstreams"); (Exact "Logs_20140328", "logs");
   (Prefix "secretsmanager", "secretsmanager"); (Prefix "TrentService", "kms");
   (Prefix "AWSCognitoIdentityProviderService", "cognito-idp");
   (Prefix "AWSCognitoIdentityService", "cognito-identity");
   (Prefix "Kinesis_20131202", "kinesis"); (Prefix "AmazonEC2ContainerRegistry_V", "ecr");
   (Prefix "AmazonEC2ContainerServiceV", "ecs"); (Prefix "AWSStepFunctions", "states");
   (Prefix "AWSOrganizationsV", "organizations"); (Exact "CertificateManager", "acm");
   (Exact "ACMPrivateCA", "acm-pca"); (Exact "Route53Resolver", "route53resolver");
   (Exact "StarlingDoveService", "config");
   (Exact "AnyScaleFrontendService", "application-autoscaling");
   (Exact "AWSWAF_20190729", "wafv2"); (Exact "AmazonAthena", "athena");
   (Prefix "Firehose_", "firehose"); (Exact "AWSGlue", "glue"); (Exact "ElasticMapReduce", "emr");
   (Exact "Textract", "textract"); (Exact "Transcribe", "transcribe");
   (Exact "AWSShineFrontendService_20170701", "translate"); (Exact "AWSShield_20160616", "shield");
   (Exact "Comprehend_20171127", "comprehend"); (Exact "SimpleWorkflowService", "swf");
   (Exact "Timestream_20181101", "timestream"); (Exact "AWSSupport_20130415", "support");
   (Exact "CloudApiService", "cloudcontrolapi");
   (Exact "ResourceGroupsTaggingAPI_20170126", "tagging"); (Exact "AmazonMemoryDB", "memorydb");
   (Prefix "KinesisAnalytics_20180523", "kinesisanalyticsv2");
   (Exact "Route53AutoNaming_v20170314", "servicediscovery"); (Exact "AmazonDMSv20160101", "dms");
   (Exact "CloudTrail_20131101", "cloudtrail");
   (Exact "com.amazonaws.cloudtrail.v20131101.CloudTrail_20131101", "cloudtrail");
   (Exact "AWSInsightsIndexService", "ce");
   (Exact "com.amazonaws.costexplorer.v20171025.AWSInsightsIndexService", "ce");
   (Exact "TransferService", "transfer"); (Exact "CodeBuild_20161006", "codebuild");
   (Exact "CodeCommit_20150413", "codecommit"); (Exact "ServiceQuotasV20190624", "servicequotas");
   (Exact "AWSIdentityStore", "identitystore"); (Exact "SWBExternalService", "sso");
   (Exact "VerifiedPermissions", "verifiedpermissions");
   (Exact "CodeConnections_20231201", "codeconnections");
   (Exact "CodeStar_connections_20191201", "codeconnections");
   (Exact "CodeDeploy_20141006", "codedeploy"); (Exact "CodePipeline_20150709", "codepipeline");
   (Prefix "GraniteServiceVersion", "monitoring"); (Exact "SageMaker", "sagemaker")]%string.

Definition STS_ACTIONS : list string :=
  ["AssumeRole"; "AssumeRoleWithSAML"; "AssumeRoleWithWebIdentity"; "GetCallerIdentity";
   "GetSessionToken"; "GetFederationToken"; "GetAccessKeyInfo"; "DecodeAuthorizationMessage"]%string.

Definition IAM_ACTIONS : list string :=
  ["CreateUser"; "DeleteUser"; "GetUser"; "ListUsers"; "CreateRole"; "DeleteRole"; "GetRole";
   "ListRoles"; "CreatePolicy"; "DeletePolicy"; "GetPolicy"; "ListPolicies"; "AttachRolePolicy";
   "DetachRolePolicy"; "CreateAccessKey"; "DeleteAccessKey"; "ListAccessKeys"; "ListRolePolicies"]%string.

Definition SES_ACTIONS : list string :=
  ["VerifyEmailIdentity"; "VerifyDomainIdentity"; "VerifyDomainDkim"; "ListIdentities";
   "GetIdentityVerificationAttributes"; "GetIdentityDkimAttributes"; "DeleteIdentity";
   "SetIdentityDkimEnabled"; "SetIdentityNotificationTopic";
   "SetIdentityFeedbackForwardingEnabled"; "GetIdentityNotificationAttributes";
   "GetIdentityMailFromDomainAttributes"; "SetIdentityMailFromDomain"; "SendEmail"; "SendRawEmail";
   "SendTemplatedEmail"; "SendBulkTemplatedEmail"; "CreateTemplate"; "GetTemplate";
   "ListTemplates"; "DeleteTemplate"; "UpdateTemplate"; "CreateConfigurationSet";
   "DeleteConfigurationSet"; "DescribeConfigurationSet"; "ListConfigurationSets";
   "CreateConfigurationSetEventDestination"; "UpdateConfigurationSetEventDestination";
   "DeleteConfigurationSetEventDestination"; "GetSendQuota"; "GetSendStatistics";
   "GetAccountSendingEnabled"; "CreateReceiptRuleSet"; "DeleteReceiptRuleSet";
   "DescribeReceiptRuleSet"; "ListReceiptRuleSets"; "CloneReceiptRuleSet";
   "SetActiveReceiptRuleSet"; "ReorderReceiptRuleSet"; "CreateReceiptRule"; "DeleteReceiptRule";
   "DescribeReceiptRule"; "UpdateReceiptRule"; "CreateReceiptFilter"; "DeleteReceiptFilter";
   "ListReceiptFilters"]%string.

Definition SNS_ACTIONS : list string :=
  ["ConfirmSubscription"; "Unsubscribe"]%string.

Definition rest_protocol_for (service : string) : option AwsProtocol :=
  if one_of REST_XML_SERVICES service then Some PRest
  else if one_of REST_JSON_SERVICES service then Some PRestJson
  else None.

Definition normalize_service_name (service : string) : string :=
  if String.eqb service "bedrock-runtime" then "bedrock"
  else if String.eqb service "apigatewayv2" then "apigateway"
  else if String.eqb service "opensearch" then "es"
  else if String.eqb service "appconfigdata" then "appconfig"
  else if String.eqb service "airflow" then "mwaa"
  else if String.eqb service "mobiletargeting" then "pinpoint"
  else service.

Definition extract_service_from_auth (headers : Headers) : option string :=
  auth ← header_str headers "authorization";
  info ← Sigv4.parse_sigv4 auth;
  Some (normalize_service_name (Sigv4.info_service info)).

(** *** Targets *)

Definition target_matches (prefix : string) (p : TargetPattern) : bool :=
  match p with
  | Exact s => String.eqb prefix s
  | Prefix s => starts_with s prefix
  end.

Definition parse_amz_target (target : string) : option DetectedRequest :=
  '(prefix, action) ← rsplit_once "." target;
  entry ← List.find (fun e : TargetPattern * string => target_matches prefix e.1) AMZ_TARGETS;
  Some (mkDetected entry.2 action PJson).

Definition infer_service_from_action (action : string) : option string :=
  if one_of STS_ACTIONS action then Some "sts"%string
  else if one_of IAM_ACTIONS action then Some "iam"%string
  else if one_of SES_ACTIONS action then Some "ses"%string
  else if one_of SNS_ACTIONS action then Some "sns"%string
  else None.

Definition detect_rpc_v2_cbor (headers : Headers) (path : string) : option DetectedRequest :=
  v ← header_str headers "smithy-protocol";
  if negb (eq_ignore_ascii_case (trim v) "rpc-v2-cbor") then None
  else
    '(service_shape, operation) ← Cbor.parse_rpc_v2_path path;
    d ← parse_amz_target (service_shape +:+ "." +:+ operation);
    Some (mkDetected (d_service d) (d_action d) PRpcV2Cbor).

(** ** Host names *)

Record RoutingHost := mkHost { rh_service : string; rh_region : string; rh_bucket : option string }.

Definition LOCALSTACK_SUFFIX : string := ".localhost.localstack.cloud".

Definition DNS_SUFFIXES : list string :=
  ["amazonaws.com"; "amazonaws.com.cn"; "c2s.ic.gov"; "sc2s.sgov.gov"; "cloud.adc-e.uk"; "csp.hci.ic.gov"]%string.

(** All labels but the last [n], joined. *)
Definition bucket_of (n : nat) (labels : list string) : string :=
  String.concat "." (take (length labels - n) labels).

(** [None] for other hosts; [Some None] for one without a region. *)
Definition parse_execute_api_labels (labels : list string) : option (option RoutingHost) :=
  match labels with
  | [_; api] => if String.eqb api "execute-api" then Some None else None
  | [_; api; region] => if String.eqb api "execute-api" then Some (Some (mkHost "execute-api" region None)) else None
  | _ => None
  end.

Definition parse_localstack_prefix (prefix : string) : option RoutingHost :=
  if is_empty_str prefix then None
  else
    let labels := split_char "." prefix in
    if existsb is_empty_str labels then None
    else match parse_execute_api_labels labels with
    | Some host => host
    | None =>
        match labels, rev labels with
        | [service; region], _ => Some (mkHost service region None)
        | _, region :: endpoint :: _ :: _ =>
            if String.eqb endpoint "s3" || String.eqb endpoint "s3-accesspoint"
            then Some (mkHost "s3" region (Some (bucket_of 2 labels)))
            else if String.eqb endpoint "s3-control" then Some (mkHost "s3" region None)
            else None
        | _, _ => None
        end
    end.

(** The bucket labels before an S3 endpoint that stands before the region. *)
Definition s3_endpoint_bucket (before_region : list string) : option (list string) :=
  match rev before_region with
  | dualstack :: s3 :: rest =>
      if String.eqb dualstack "dualstack" && (String.eqb s3 "s3" || String.eqb s3 "s3-fips") then Some (rev rest)
      else if one_of ["s3"; "s3-fips"; "s3-website"]%string dualstack then Some (rev (s3 :: rest))
      else None
  | [endpoint] => if one_of ["s3"; "s3-fips"; "s3-website"]%string endpoint then Some [] else None
  | [] => None
  end.

Definition non_empty_text (s : string) : option string := if is_empty_str s then None else Some s.

Definition parse_aws_prefix (prefix : string) : option RoutingHost :=
  if is_empty_str prefix then None
  else
    let labels := split_char "." prefix in
    let n := length labels in
    if existsb is_empty_str labels then None
    else match last labels with
    | None => None
    | Some last =>
        match strip_prefix "s3-website-" last ≫= non_empty_text, bool_decide (2 <= n) with
        | Some region, true => Some (mkHost "s3" region (Some (bucket_of 1 labels)))
        | _, _ =>
            match strip_prefix "s3-" last ≫= non_empty_text with
            | Some region =>
                Some (mkHost "s3" region (if bool_decide (2 <= n) then Some (bucket_of 1 labels) else None))
            | None =>
                if String.eqb last "s3" then
                  Some (mkHost "s3" "us-east-1" (if (n =? 1)%nat then None else Some (bucket_of 1 labels)))
                else if String.eqb last "s3-accesspoint" && (n =? 2)%nat then
                  Some (mkHost "s3" (nth 0 labels EmptyString) None)
                else if String.eqb last "s3-accesspoint" && bool_decide (3 <= n) then
                  Some (mkHost "s3" last (Some (bucket_of 2 labels)))
                else if bool_decide (2 <= n) && String.eqb (nth (n - 2) labels EmptyString) "s3-control" then
                  Some (mkHost "s3" last None)
                else match s3_endpoint_bucket (take (n - 1) labels) with
                | Some bucket =>
                    Some (mkHost "s3" last (match bucket with [] => None | _ => Some (String.concat "." bucket) end))
                | None =>
                    match parse_execute_api_labels labels with
                    | Some host => host
                    | None =>
                        match labels with
                        | [service; region] => Some (mkHost service region None)
                        | _ => None
                        end
                    end
                end
            end
        end
    end.

Definition strip_dns_suffix (hostname suffix : string) : option string :=
  prefix ← strip_suffix suffix hostname; strip_suffix "." prefix.

Definition parse_routing_host (host : string) : option RoutingHost :=
  let hostname := first_segment ":" host in
  if is_empty_str hostname then None
  else
    let hostname := to_ascii_lowercase hostname in
    match strip_suffix LOCALSTACK_SUFFIX hostname with
    | Some prefix => parse_localstack_prefix prefix
    | None => find_map (strip_dns_suffix hostname) DNS_SUFFIXES ≫= parse_aws_prefix
    end.

Definition parse_routing_host_from_headers (headers : Headers) : option RoutingHost :=
  header_str headers "host" ≫= parse_routing_host.

(** ** Detection *)

(** [X-Amz-Credential]: AKID/date/region/service/aws4_request. *)
Definition presigned_scope_service (query_params : gmap string string) : option string :=
  credential ← query_params !! "X-Amz-Credential"%string;
  split_char "/" credential !! 3.

Definition sigv2_presigned (query_params : gmap string string) : bool :=
  bool_decide (is_Some (query_params !! "AWSAccessKeyId"%string))
  && bool_decide (is_Some (query_params !! "Signature"%string))
  && bool_decide (is_Some (query_params !! "Expires"%string)).

Definition rest_request (service : string) : option DetectedRequest :=
  mkDetected service EmptyString <$> rest_protocol_for service.

(** Steps 2 and 3: an [Action], in the query string or the form body. *)
Definition detect_by_action (headers : Headers) (params : gmap string string) : option DetectedRequest :=
  action ← params !! "Action"%string;
  service ← or_else (extract_service_from_auth headers)
              (or_else (infer_service_from_action action)
                 (rh_service <$> parse_routing_host_from_headers headers));
  Some (mkDetected service action (query_protocol_for service)).

(** Steps 4 to 7: credential scope, presigned scope, SigV2, host name. *)
Definition detect_rest (headers : Headers) (query_params : gmap string string) : option DetectedRequest :=
  or_else (extract_service_from_auth headers ≫= rest_request)
    (or_else (presigned_scope_service query_params ≫= fun s => rest_request (normalize_service_name s))
       (if sigv2_presigned query_params then Some (mkDetected "s3" EmptyString PRest)
        else parse_routing_host_from_headers headers ≫= fun h => rest_request (rh_service h))).

Definition detect_service_headers_only (headers : Headers) (query_params : gmap string string)
  : option DetectedRequest :=
  match header_str headers "x-amz-target" with
  | Some target => parse_amz_target target
  | None => or_else (detect_by_action headers query_params) (detect_rest headers query_params)
  end.

Definition detect_service `{Form.LossyText} (headers : Headers) (query_params : gmap string string)
  (body : list Z) : option DetectedRequest :=
  match header_str headers "x-amz-target" with
  | Some target => parse_amz_target target
  | None =>
      or_else (detect_by_action headers query_params)
        (or_else (detect_by_action headers (Form.decode_form_urlencoded body)) (detect_rest headers query_params))
  end.

(** ** Streaming routes *)

Definition has_key (headers : Headers) (path : string) : bool :=
  let host_bucket :=
    h ← parse_routing_host_from_headers headers;
    if String.eqb (rh_service h) "s3" then rh_bucket h else None in
  bool_decide (2 <= length (filter (fun seg => is_empty_str seg = false)
                              (split_char "/" (s3_routing_path path host_bucket)))).

Definition streaming_route (method path : string) (headers : Headers) (query_params : gmap string string)
  : option string :=
  if (String.eqb method "PATCH" || String.eqb method "PUT")
     && starts_with "/v2/" path && contains_str "/blobs/uploads/" path
  then Some "ecr"%string
  else if String.eqb method "PUT" then
    if negb (has_key headers path) then None
    else
      let header_s3 :=
        match header_str headers "authorization" ≫= Sigv4.parse_sigv4 with
        | Some info => String.eqb (Sigv4.info_service info) "s3"
        | None => false
        end in
      let presigned_v4_s3 :=
        match presigned_scope_service query_params with Some s => String.eqb s "s3" | None => false end in
      if header_s3 || presigned_v4_s3 || sigv2_presigned query_params then Some "s3"%string else None
  else None.

(** ** Bodies *)

Definition DEFAULT_MAX_REQUEST_BODY_BYTES : Z := 1024 * 1024 * 1024.

(** [env] is [FAKECLOUD_MAX_REQUEST_BODY_BYTES]. *)
Definition max_request_body_bytes (env : option string) : Z :=
  match env ≫= parse_u64 with
  | Some n => if (0 <? n)%Z then n else DEFAULT_MAX_REQUEST_BODY_BYTES
  | None => DEFAULT_MAX_REQUEST_BODY_BYTES
  end.

Definition REQUEST_COMPRESSION_SERVICES : list string := ["monitoring"]%string.

Definition is_gzipped (headers : Headers) : bool :=
  existsb (fun h : string * option string =>
    String.eqb h.1 "content-encoding" &&
    match h.2 with
    | Some v => existsb (fun enc => eq_ignore_ascii_case (trim enc) "gzip") (split_char "," v)
    | None => false
    end) headers.

(** The service a compressed body is for, as far as the headers tell. *)
Definition compression_service (headers : Headers) (rpc_v2_cbor : option DetectedRequest) : option string :=
  match rpc_v2_cbor, header_str headers "x-amz-target" ≫= parse_amz_target with
  | Some d, _ | None, Some d => Some (d_service d)
  | None, None => extract_service_from_auth headers
  end.

(** The limit is a [u64] here, and the addition wraps as a release build's
    does: at a limit of [u64::MAX] nothing is read. *)
Definition decode_request_compression `{Gunzip} (limit : Z) (headers : Headers)
  (rpc_v2_cbor : option DetectedRequest) (body : list Z) : Result string (list Z) :=
  if negb (is_gzipped headers) || bool_decide (body = []) then Ok body
  else if negb (match compression_service headers rpc_v2_cbor with
                | Some s => one_of REQUEST_COMPRESSION_SERVICES s
                | None => false
                end) then Ok body
  else match gunzip_take ((limit + 1) mod 2 ^ 64)%Z body with
  | Ok out =>
      if (limit <? Z.of_nat (length out))%Z then Err "Decompressed request body too large"%string else Ok out
  | Err e => Err ("Unable to decompress gzip request body: " +:+ e)
  end.

(** ** Fallbacks and corrections *)

Definition is_execute_api_host (headers : Headers) : bool :=
  match header_str headers "host" with Some host => contains_str ".execute-api." host | None => false end.

Definition anonymous_s3_bucket {S} (config : DispatchConfig S) (path : string) : option string :=
  provider ← resource_policy_provider config;
  segment ← List.find (fun s => negb (is_empty_str s)) (split_char "/" path);
  _ ← dyn_owner_account provider "s3" (Arn.to_string (Arn.s3 segment));
  Some segment.

Definition user_agent_has (token : string) (headers : Headers) : bool :=
  existsb (fun name =>
    match header_str headers name with
    | Some ua =>
        existsb (fun part =>
          match strip_prefix token part with
          | Some rest => is_empty_str rest || starts_with "#" rest || starts_with "/" rest
          | None => false
          end) (split_whitespace ua)
    | None => false
    end) ["user-agent"; "x-amz-user-agent"]%string.

Definition user_agent_indicates_neptune : Headers -> bool := user_agent_has "api/neptune".
Definition user_agent_indicates_docdb : Headers -> bool := user_agent_has "api/docdb".

Definition extract_region_from_user_agent (headers : Headers) : option string :=
  ua ← header_str headers "user-agent";
  find_map (fun part => strip_prefix "region/" part ≫= non_empty_text) (split_whitespace ua).

Definition names_bedrock_session (label : string) : bool :=
  let decoded := replace_str "%2f" "/" (replace_str "%3a" ":" (to_ascii_lowercase label)) in
  starts_with "arn:" decoded && contains_str ":bedrock:" decoded && contains_str ":session/" decoded.

(** The path families of the two Bedrock Agents services. *)
Definition BEDROCK_AGENT_PATHS : list string :=
  ["agents"; "knowledgebases"; "flows"; "prompts"; "tags"; "retrieveAndGenerate"; "retrieveAndGenerateStream";
   "optimize-prompt"; "sessions"; "invocations"; "generate-query"; "rerank"]%string.

Definition is_bedrock_runtime_path (method : string) (segs : list string) : bool :=
  match segs with
  | first :: segs =>
      is_empty_str first &&
      match segs with
      | [a] =>
          one_of ["retrieveAndGenerate"; "retrieveAndGenerateStream"; "optimize-prompt"; "sessions";
                  "invocations"; "generate-query"; "rerank"]%string a
      | [a; b] =>
          one_of ["sessions"; "invocations"]%string a
          || (String.eqb a "agents" && String.eqb method "POST" && negb (is_empty_str b))
      | [a; b; c] =>
          one_of ["sessions"; "invocations"]%string a
          || (String.eqb a "flows" && String.eqb c "executions")
          || (String.eqb a "knowledgebases" && String.eqb c "retrieve")
      | a :: b :: c :: d :: rest =>
          one_of ["sessions"; "invocations"]%string a
          || (String.eqb a "agents" && String.eqb c "agentAliases")
          || (String.eqb a "flows" && String.eqb c "aliases" &&
              match rest with
              | [] => String.eqb method "POST"
              | e :: _ => String.eqb e "executions"
              end)
      | [] => false
      end
  | [] => false
  end.

Definition bedrock_agent_service_for (method path : string) : option string :=
  let segs := split_char "/" path in
  if negb (match segs !! 1 with Some s => one_of BEDROCK_AGENT_PATHS s | None => false end) then None
  else
    Some (if is_bedrock_runtime_path method segs
             || match strip_prefix "/tags/" path with Some label => names_bedrock_session label | None => false end
          then "bedrock-agent-runtime" else "bedrock-agent")%string.

Definition with_service (service : string) (d : DetectedRequest) : DetectedRequest :=
  mkDetected service (d_action d) (d_protocol d).

(** The services that share a signing scope, told apart by path or user agent. *)
Definition disambiguate (method path : string) (headers : Headers) (d : DetectedRequest) : DetectedRequest :=
  let d :=
    if String.eqb (d_service d) "bedrock" then
      match bedrock_agent_service_for method path with Some s => with_service s d | None => d end
    else d in
  let d := if String.eqb (d_service d) "rds" && user_agent_indicates_docdb headers then with_service "docdb" d else d in
  if String.eqb (d_service d) "rds" && user_agent_indicates_neptune headers then with_service "neptune" d else d.

(** ** The routing stage *)

(** A request off the wire; [r_pinned] is the extension only
    [dispatch_to_service] sets. *)
Record WireRequest := mkWire {
  r_method : string;
  r_path : string;
  r_query : string;
  r_headers : Headers;
  r_query_params : gmap string string;
  r_body : list Z;
  r_pinned : option string;
  r_internal : option InternalCaller;
  r_remote_ip : option IpAddr
}.

Section Route.
Context {S : Type} `{Form.LossyText} `{Gunzip}.
Variable config : DispatchConfig S.
Variable limit : Z.                       (* max_request_body_bytes *)

(** The request whose body is handed over unread. *)
Definition stream_dispatch (r : WireRequest) (rpc_v2_cbor : option DetectedRequest) : option DetectedRequest :=
  match r_pinned r, rpc_v2_cbor with
  | Some _, _ | None, Some _ => None
  | None, None =>
      match streaming_route (r_method r) (r_path r) (r_headers r) (r_query_params r),
            detect_service_headers_only (r_headers r) (r_query_params r) with
      | Some service, Some d => if String.eqb service (d_service d) then Some d else None
      | Some service, None =>
          if String.eqb service "ecr" then Some (mkDetected "ecr" EmptyString PRest) else None
      | None, _ => None
      end
  end.

(** A request that names no service. *)
Definition detect_fallback (r : WireRequest) : Result ErrorResponse DetectedRequest :=
  match header_str (r_headers r) "x-amz-target" with
  | Some target =>
      Err (build_error_response BAD_REQUEST "UnknownOperationException"
             ("The operation " +:+ target +:+ " is not recognized."))
  | None =>
      let options := String.eqb (r_method r) "OPTIONS" in
      if options && is_execute_api_host (r_headers r) then Ok (mkDetected "apigateway" EmptyString PRestJson)
      else if options then Ok (mkDetected "s3" EmptyString PRest)
      else if String.eqb (r_path r) "/v2" || starts_with "/v2/" (r_path r)
      then Ok (mkDetected "ecr" EmptyString PRest)
      else if bool_decide (is_Some (anonymous_s3_bucket config (r_path r)))
      then Ok (mkDetected "s3" EmptyString PRest)
      else if negb (starts_with "/_" (r_path r)) || starts_with "/_aws/execute-api/" (r_path r)
      then Ok (mkDetected "apigateway" EmptyString PRestJson)
      else Err (build_error_response BAD_REQUEST "MissingAction"
                  "Could not determine target service or action from request")
  end.

Definition detect (r : WireRequest) (rpc_v2_cbor stream : option DetectedRequest) (body : list Z)
  : Result ErrorResponse DetectedRequest :=
  match r_pinned r, rpc_v2_cbor, stream with
  | Some service, _, _ => Ok (mkDetected service EmptyString PRest)
  | None, Some d, _ | None, None, Some d => Ok d
  | None, None, None =>
      match detect_service (r_headers r) (r_query_params r) body with
      | Some d => Ok d
      | None => detect_fallback r
      end
  end.

(** The buffered body, within the limit and decompressed. *)
Definition read_body (r : WireRequest) (rpc_v2_cbor : option DetectedRequest) : Result ErrorResponse (list Z) :=
  if (limit <? Z.of_nat (length (r_body r)))%Z
  then Err (build_error_response 413 "RequestEntityTooLarge" "Request body too large")
  else match r_pinned r with
  | Some _ => Ok (r_body r)
  | None =>
      match decode_request_compression limit (r_headers r) rpc_v2_cbor (r_body r) with
      | Ok b => Ok b
      | Err e => Err (build_error_response BAD_REQUEST "SerializationException" e)
      end
  end.

Definition routed_of (r : WireRequest) (d : DetectedRequest) : Routed :=
  let host := parse_routing_host_from_headers (r_headers r) in
  mkRouted (disambiguate (r_method r) (r_path r) (r_headers r) d)
    (rh_region <$> host) (host ≫= rh_bucket) (extract_region_from_user_agent (r_headers r)).

Definition route (r : WireRequest) : Result ErrorResponse (HttpRequest * Routed) :=
  let rpc := match r_pinned r with
             | None => detect_rpc_v2_cbor (r_headers r) (r_path r)
             | Some _ => None
             end in
  let stream := stream_dispatch r rpc in
  bodies ← (match stream with
            | Some _ => Ok ([], [], Some (r_body r))
            | None => b ← read_body r rpc; Ok (b, r_body r, None)
            end);
  let '(body, wire_body, body_stream) := bodies in
  d ← detect r rpc stream body;
  Ok (mkHttp (r_method r) (r_path r) (r_query r) (r_headers r) (r_query_params r) body wire_body body_stream
        (r_internal r) (r_remote_ip r),
      routed_of r d).

End Route.

(** ** Serving a request *)

Section Serve.
Context {S St Resp : Type} `{IamPolicyEvaluator S} `{DenyCodec}.
Context `{Sigv4.PercentCodec} `{Sigv4.SigCrypto} `{Sigv4.AmzDate} `{WireFormats} `{HeaderSyntax}.
Context `{Cbor.CborReader} `{Cbor.Base64} `{Form.LossyText} `{SerdeJson} `{Gunzip}.
Variable registry : gmap string (AwsService St Resp).
Variable config : DispatchConfig S.
Variable limit : Z.

(** [dispatch_inner], the whole of it. *)
Definition serve (clock : Clock) (st : St) (r : WireRequest) : St * Outcome (Resp := Resp) :=
  match route config limit r with
  | Err e => (st, Rejected e)
  | Ok (h, rt) => dispatch registry config clock st h rt
  end.

End Serve.

End Routing.
