(* ===== verification/RoutingTheory.v ===== *)
(** * Routing: theorems

    Which host names are recognized, that the decision to stream a body agrees
    with the request the handler gets, the bound on buffered bodies, and what
    can and cannot steer a request to a service. *)

From Stdlib Require Import ZArith Lia Bool String Ascii.
From stdpp Require Import base option list strings gmap.
From S2P Require Import Prelude Json Net Auth Arn BTree EvaluatorTheory Iam Sigv4 Cbor Form FormTheory Dispatch Sigv4Theory DispatchTheory Routing.
Import Dispatch Routing.

(** ** Host names *)

(** A label of a DNS name, in lower case. *)
Definition dns_label (s : string) : bool :=
  negb (is_empty_str s) && no_char "." s && no_char ":" s && String.eqb (to_ascii_lowercase s) s.

(** The endpoints S3 has published for a region, as the labels that follow the
    bucket, with the region each denotes. *)
Definition s3_endpoints (region : string) : list (list string * string) :=
  [(["s3"; region], region); (["s3-" +:+ region], region); (["s3"], "us-east-1");
   (["s3"; "dualstack"; region], region); (["s3-fips"; region], region);
   (["s3-fips"; "dualstack"; region], region); (["s3-website"; region], region)]%string.

Definition bucket_name (labels : list string) : option string :=
  match labels with [] => None | _ => Some (String.concat "." labels) end.

(** A region's name does not look like an S3 endpoint. *)
Definition region_label (region : string) : bool :=
  dns_label region && negb (starts_with "s3" region) && negb (starts_with "website-" region).

Lemma suffix_incomparable x y p :
  ends_with y x = false -> ends_with x y = false -> strip_suffix y (p +:+ x) = None.
Proof.
  intros Hx Hy. destruct (strip_suffix y (p +:+ x)) as [r|] eqn:E; [|done]. exfalso.
  apply strip_suffix_Some in E.
  assert (ends_with y x = true \/ ends_with x y = true) as [?|?]; [|congruence..].
  rewrite !ends_with_spec. destruct (Nat.le_ge_cases (String.length x) (String.length y)) as [Hle|Hle].
  - right. by apply (app_suffix p x r y).
  - left. by apply (app_suffix r y p x).
Qed.

Lemma find_dns_suffix p suffix : suffix ∈ DNS_SUFFIXES ->
  strip_suffix LOCALSTACK_SUFFIX (p +:+ "." +:+ suffix) = None /\
  find_map (strip_dns_suffix (p +:+ "." +:+ suffix)) DNS_SUFFIXES = Some p.
Proof.
  intros Hin.
  assert (Hhit : forall s, strip_dns_suffix (p +:+ "." +:+ s) s = Some p).
  { intros s. unfold strip_dns_suffix. rewrite <- string_app_assoc, strip_suffix_app. cbn [mbind option_bind].
    apply strip_suffix_app. }
  assert (Hmiss : forall y, ends_with y suffix = false -> ends_with suffix y = false ->
                    strip_suffix y (p +:+ "." +:+ suffix) = None).
  { intros y H1 H2. rewrite <- string_app_assoc. by apply suffix_incomparable. }
  unfold DNS_SUFFIXES in *. set_unfold in Hin. cbn [find_map].
  destruct_or! Hin; subst suffix; (split; [by apply Hmiss|]);
    repeat first [by rewrite Hhit | unfold strip_dns_suffix at 1; rewrite Hmiss by reflexivity; cbn [mbind option_bind]].
Qed.

Lemma labels_of_prefix labels : labels <> [] -> Forall (fun l => dns_label l = true) labels ->
  is_empty_str (String.concat "." labels) = false /\
  split_char "." (String.concat "." labels) = labels /\ existsb is_empty_str labels = false.
Proof.
  intros Hne Hall.
  assert (Hl : forall l, dns_label l = true -> is_empty_str l = false /\ no_char "." l = true).
  { intros l Hl. unfold dns_label in Hl. rewrite !andb_true_iff, negb_true_iff in Hl. tauto. }
  split_and!.
  - destruct Hall as [|l labels Hl1 Hall]; [done|]. apply Hl in Hl1 as [Hl1 _].
    destruct l; [done|]. by destruct labels.
  - apply split_char_join; [done|]. eapply Forall_impl; [done|]. intros l ?%Hl. tauto.
  - induction Hall as [|l labels Hl1 Hall IH]; [done|]. cbn. apply Hl in Hl1 as [-> _]. cbn.
    destruct labels; [done|]. by apply IH.
Qed.

Lemma starts_with_strip p q s : starts_with p s = false -> strip_prefix (p +:+ q) s = None.
Proof.
  intros Hs. destruct (strip_prefix (p +:+ q) s) as [r|] eqn:E; [|done].
  apply strip_prefix_Some in E. rewrite string_app_assoc in E.
  assert (starts_with p s = true) by (apply starts_with_spec; eauto). congruence.
Qed.

Lemma bucket_of_app bucket endpoint n :
  length endpoint = n -> bucket_of n (bucket ++ endpoint) = String.concat "." bucket.
Proof.
  intros <-. unfold bucket_of. rewrite length_app, Nat.add_sub, take_app_le, take_ge by lia. done.
Qed.

Lemma s3_endpoint_bucket_app bucket endpoint :
  endpoint ∈ [["s3"]; ["s3-fips"]; ["s3-website"]; ["s3"; "dualstack"]; ["s3-fips"; "dualstack"]]%string ->
  s3_endpoint_bucket (bucket ++ endpoint) = Some bucket.
Proof.
  intros Hin. unfold s3_endpoint_bucket. rewrite rev_app_distr. rewrite <- (rev_involutive bucket) at 2.
  set_unfold in Hin. destruct_or! Hin; subst endpoint; cbn; by destruct (rev bucket).
Qed.

Lemma dns_label_spec s : dns_label s = true <->
  is_empty_str s = false /\ no_char "." s = true /\ no_char ":" s = true /\ to_ascii_lowercase s = s.
Proof. unfold dns_label. rewrite !andb_true_iff, negb_true_iff, String.eqb_eq. tauto. Qed.

(** The part of a host name before its DNS suffix, label by label: what
    [parse_aws_prefix] does once the labels are split. *)
Lemma parse_aws_prefix_labels (labels : list string) (lst : string) :
  Forall (fun l => dns_label l = true) (labels ++ [lst]) -> starts_with "s3" lst = false ->
  last labels <> Some "s3-control"%string ->
  parse_aws_prefix (String.concat "." (labels ++ [lst])) =
  match s3_endpoint_bucket labels with
  | Some bucket => Some (mkHost "s3" lst (bucket_name bucket))
  | None =>
      match parse_execute_api_labels (labels ++ [lst]) with
      | Some host => host
      | None => match labels with [service] => Some (mkHost service lst None) | _ => None end
      end
  end.
Proof.
  intros Hall Hs3 Hctl.
  destruct (labels_of_prefix (labels ++ [lst])) as (He & Hsplit & Hex); [by destruct labels|done|].
  unfold parse_aws_prefix. rewrite He, Hsplit, Hex, last_snoc.
  pose proof (starts_with_strip "s3" "-website-" lst Hs3) as Hst1.
  pose proof (starts_with_strip "s3" "-" lst Hs3) as Hst2. cbn [String.append] in Hst1, Hst2.
  rewrite Hst1, Hst2. cbn [mbind option_bind].
  assert (Hne : forall t, starts_with "s3" t = true -> String.eqb lst t = false).
  { intros t Ht. apply String.eqb_neq. intros ->. congruence. }
  rewrite (Hne "s3"%string), (Hne "s3-accesspoint"%string) by reflexivity. cbn [andb].
  rewrite length_app. cbn [length]. replace (length labels + 1 - 1) with (length labels) by lia.
  replace (length labels + 1 - 2) with (length labels - 1) by lia. rewrite take_app_length.
  replace (bool_decide (2 <= length labels + 1) && String.eqb (nth (length labels - 1) (labels ++ [lst]) EmptyString) "s3-control")
    with false.
  2:{ symmetry. destruct labels as [|l labels _] using rev_ind; [done|]. rewrite last_snoc in Hctl.
      rewrite length_app. cbn [length]. replace (length labels + 1 - 1) with (length labels) by lia.
      rewrite <- app_assoc, app_nth2, Nat.sub_diag by lia. cbn [app nth].
      rewrite (proj2 (String.eqb_neq l "s3-control")) by congruence. apply andb_false_r. }
  destruct (s3_endpoint_bucket labels) as [bucket|]; [by destruct bucket|].
  destruct (parse_execute_api_labels _); [done|]. by destruct labels as [|l [|l' [|l'' labels]]].
Qed.

Lemma dns_label_endpoint p region :
  string_forallb (fun c => negb (Ascii.eqb c ".") && negb (Ascii.eqb c ":") && Ascii.eqb (ascii_lower c) c) p = true ->
  p <> EmptyString -> dns_label region = true -> dns_label (p +:+ region) = true.
Proof.
  rewrite !dns_label_spec. intros Hp Hne (_ & H1 & H2 & H3).
  assert (Hp' : no_char "." p = true /\ no_char ":" p = true /\ to_ascii_lowercase p = p).
  { clear -Hp. induction p as [|c p IH]; [done|]. cbn in Hp |- *. rewrite !andb_true_iff in Hp.
    destruct Hp as (((Hc1 & Hc2) & Hc3%Ascii.eqb_eq) & Hp). destruct (IH Hp) as (I1 & I2 & I3).
    unfold no_char, to_ascii_lowercase in *. cbn. rewrite Hc1, Hc2, Hc3, I1, I2, I3. done. }
  destruct Hp' as (P1 & P2 & P3). split_and!.
  - by destruct p.
  - by rewrite no_char_app, P1, H1.
  - by rewrite no_char_app, P2, H2.
  - clear -P3 H3. revert P3. unfold to_ascii_lowercase in *. induction p as [|c p IH]; [done|].
    cbn. intros [= Hc Hp]. by rewrite Hc, (IH Hp).
Qed.

(** Endpoints whose last label carries the region, or none. *)
Lemma parse_aws_prefix_dash bucket region :
  Forall (fun l => dns_label l = true) bucket -> region_label region = true ->
  parse_aws_prefix (String.concat "." (bucket ++ ["s3-" +:+ region]))
  = Some (mkHost "s3" region (bucket_name bucket)) /\
  parse_aws_prefix (String.concat "." (bucket ++ ["s3"%string])) = Some (mkHost "s3" "us-east-1" (bucket_name bucket)).
Proof.
  intros Hb Hr. unfold region_label in Hr. rewrite !andb_true_iff, !negb_true_iff in Hr.
  destruct Hr as [[Hr Hs3] Hweb].
  assert (Hbn : forall e, (if bool_decide (2 <= length (bucket ++ [e])) then Some (bucket_of 1 (bucket ++ [e])) else None)
                     = bucket_name bucket).
  { intros e. rewrite bucket_of_app by done. rewrite length_app. cbn [length].
    destruct bucket; [done|]. cbn [length]. by rewrite bool_decide_true by lia. }
  split.
  - destruct (labels_of_prefix (bucket ++ ["s3-" +:+ region])) as (He & Hsplit & Hex).
    { by destruct bucket. }
    { apply Forall_app. split; [done|]. repeat constructor. by apply dns_label_endpoint. }
    unfold parse_aws_prefix. rewrite He, Hsplit, Hex, last_snoc.
    change (strip_prefix "s3-website-" ("s3-" +:+ region)) with (strip_prefix "website-" region).
    replace (strip_prefix "website-" region) with (@None string)
      by (unfold starts_with in Hweb; by destruct (strip_prefix "website-" region)).
    change (strip_prefix "s3-" ("s3-" +:+ region)) with (strip_prefix EmptyString region).
    rewrite (proj2 (strip_prefix_Some EmptyString region region) eq_refl). cbn [mbind option_bind].
    apply dns_label_spec in Hr as [Hr _]. unfold non_empty_text. rewrite Hr. by rewrite Hbn.
  - destruct (labels_of_prefix (bucket ++ ["s3"%string])) as (He & Hsplit & Hex).
    { by destruct bucket. }
    { apply Forall_app. split; [done|]. by repeat constructor. }
    unfold parse_aws_prefix. rewrite He, Hsplit, Hex, last_snoc.
    change (strip_prefix "s3-website-" "s3") with (@None string). change (strip_prefix "s3-" "s3") with (@None string).
    cbn [mbind option_bind]. rewrite String.eqb_refl. rewrite <- (Hbn "s3"%string).
    rewrite length_app. cbn [length]. destruct bucket; [done|]. cbn [length].
    rewrite bool_decide_true by lia. by rewrite (proj2 (Nat.eqb_neq _ 1)) by lia.
Qed.

(** Theorem (roundtrip): S3 host names are read back.  For every bucket name,
    dotted ones included, every region and every endpoint form S3 has
    published (virtual-hosted and path style, regional, dashed, global,
    dualstack, FIPS, website), under the DNS suffix of every partition, with
    any port and in any letter case, the host is recognized as S3 with that
    region and bucket. *)
Theorem s3_hosts_recognized (bucket endpoint : list string) (region denoted suffix host : string) :
  Forall (fun l => dns_label l = true) bucket -> region_label region = true ->
  (endpoint, denoted) ∈ s3_endpoints region -> suffix ∈ DNS_SUFFIXES ->
  to_ascii_lowercase (first_segment ":" host) = String.concat "." (bucket ++ endpoint) +:+ "." +:+ suffix ->
  parse_routing_host host = Some (mkHost "s3" denoted (bucket_name bucket)).
Proof.
  intros Hb Hr Hin Hsuf Hhost.
  assert (Hp : parse_aws_prefix (String.concat "." (bucket ++ endpoint))
               = Some (mkHost "s3" denoted (bucket_name bucket))).
  { destruct (parse_aws_prefix_dash bucket region Hb Hr) as [Hd1 Hd2].
    unfold region_label in Hr. rewrite !andb_true_iff, !negb_true_iff in Hr. destruct Hr as [[Hr Hs3] _].
    assert (Hreg : Forall (fun e => parse_aws_prefix (String.concat "." (bucket ++ e ++ [region]))
                                    = Some (mkHost "s3" region (bucket_name bucket)))
              [["s3"]; ["s3-fips"]; ["s3-website"]; ["s3"; "dualstack"]; ["s3-fips"; "dualstack"]]%string).
    { apply Forall_forall. intros e He.
      rewrite app_assoc, parse_aws_prefix_labels; [by rewrite s3_endpoint_bucket_app|..|done|].
      - rewrite !Forall_app. split_and!; [done| |by repeat constructor].
        set_unfold in He. destruct_or! He; subst e; by repeat constructor.
      - set_unfold in He. destruct_or! He; subst e; rewrite last_app; done. }
    decompose_Forall_hyps. unfold s3_endpoints in Hin. set_unfold in Hin. destruct_or! Hin; simplify_eq; assumption. }
  destruct (find_dns_suffix (String.concat "." (bucket ++ endpoint)) suffix Hsuf) as [Hls Hfind].
  unfold parse_routing_host. rewrite Hhost, Hls, Hfind. cbn [mbind option_bind]. rewrite Hp.
  destruct (first_segment ":" host) as [|c h]; [|done]. cbn in Hhost.
  by destruct (String.concat "." (bucket ++ endpoint)).
Qed.

(** Theorem (error): access points have no virtual hosts on AWS names.  The
    host of an access point, under which the LocalStack form is S3 with the
    access point as its bucket, is not recognized under any partition's DNS
    suffix: the branch written for it looks at the wrong label. *)
Theorem access_point_hosts_unrecognized (access_point : list string) (region suffix host : string) :
  Forall (fun l => dns_label l = true) access_point -> access_point <> [] -> region_label region = true ->
  suffix ∈ DNS_SUFFIXES ->
  to_ascii_lowercase (first_segment ":" host)
  = String.concat "." (access_point ++ ["s3-accesspoint"; region]%string) +:+ "." +:+ suffix ->
  parse_routing_host host = None.
Proof.
  intros Ha Hne Hr Hsuf Hhost. unfold region_label in Hr. rewrite !andb_true_iff, !negb_true_iff in Hr.
  destruct Hr as [[Hr Hs3] _].
  destruct (find_dns_suffix (String.concat "." (access_point ++ ["s3-accesspoint"; region]%string)) suffix Hsuf)
    as [Hls Hfind].
  assert (Hp : parse_aws_prefix (String.concat "." ((access_point ++ ["s3-accesspoint"%string]) ++ [region])) = None).
  { rewrite parse_aws_prefix_labels; [..|done|by rewrite last_snoc].
    - unfold s3_endpoint_bucket. rewrite rev_app_distr. cbn [rev app].
      replace (match rev access_point with [] => _ | _ :: _ => _ end) with (@None (list string))
        by (by destruct (rev access_point)).
      by destruct access_point as [|a [|a' [|a'' [|b access_point]]]].
    - rewrite !Forall_app. split_and!; by repeat constructor. }
  rewrite <- app_assoc in Hp. cbn [app] in Hp.
  unfold parse_routing_host. rewrite Hhost, Hls, Hfind. cbn [mbind option_bind]. rewrite Hp.
  by destruct (is_empty_str (first_segment ":" host)).
Qed.

(** ** Detection *)

(** Theorem (safety): the scope a request is signed for decides where it goes.
    Without a target header, a request signed in its header for a REST
    service, or one that carries an [Action], is detected as that service,
    whatever its query string, host and body say. *)
Theorem signed_scope_decides `{Form.LossyText} (headers : Headers) (query_params : gmap string string)
  (body : list Z) (service : string) :
  header_str headers "x-amz-target" = None -> extract_service_from_auth headers = Some service ->
  is_Some (rest_protocol_for service) \/ is_Some (query_params !! "Action"%string) \/
    is_Some (Form.decode_form_urlencoded body !! "Action"%string) ->
  exists action protocol, detect_service headers query_params body = Some (mkDetected service action protocol).
Proof.
  intros Ht Ha Hcase. unfold detect_service, detect_by_action, detect_rest. rewrite Ht, Ha. cbn [or_else].
  destruct (query_params !! "Action"%string) as [action|] eqn:Hq; cbn [mbind option_bind or_else]; [by eauto|].
  destruct (Form.decode_form_urlencoded body !! "Action"%string) as [action|] eqn:Hf;
    cbn [mbind option_bind or_else]; [by eauto|].
  destruct Hcase as [[p Hp]|[[? ?]|[? ?]]]; [|done..].
  unfold rest_request. rewrite Hp. cbn. eauto.
Qed.

(** A body that is no form with an [Action] plays no part. *)
Lemma detect_service_plain `{Form.LossyText} headers query_params body :
  Form.decode_form_urlencoded body !! "Action"%string = None ->
  detect_service headers query_params body = detect_service_headers_only headers query_params.
Proof.
  intros Hf. unfold detect_service, detect_service_headers_only. destruct (header_str _ _); [done|].
  unfold detect_by_action at 2. by rewrite Hf.
Qed.

(** Theorem (safety): the body of a presigned request steers it.  A request
    signed only in its query string, for whatever service, is detected by the
    [Action] of its form-encoded body. *)
Theorem body_steers_presigned `{Form.LossyText} (headers : Headers) (query_params : gmap string string)
  (body : list Z) (action service : string) :
  header_str headers "x-amz-target" = None -> extract_service_from_auth headers = None ->
  query_params !! "Action"%string = None -> Form.decode_form_urlencoded body !! "Action"%string = Some action ->
  infer_service_from_action action = Some service ->
  detect_service headers query_params body = Some (mkDetected service action (query_protocol_for service)).
Proof.
  intros Ht Ha Hq Hf Hi. unfold detect_service, detect_by_action. rewrite Ht, Ha, Hq, Hf. cbn. by rewrite Hi.
Qed.

(** ** Streaming *)

Lemma routing_host_bucket_s3 host h b :
  parse_routing_host host = Some h -> rh_bucket h = Some b -> rh_service h = "s3"%string.
Proof.
  unfold parse_routing_host, parse_localstack_prefix, parse_aws_prefix, parse_execute_api_labels. intros Hh Hb.
  destruct (is_empty_str _); [done|]. destruct (strip_suffix LOCALSTACK_SUFFIX _) as [p|].
  - by repeat case_match; simplify_eq.
  - apply bind_Some in Hh as (p & _ & Hh). by repeat case_match; simplify_eq.
Qed.

(** The services that may be corrected, and what they are corrected to. *)
Definition ambiguous_services : list string :=
  ["bedrock"; "bedrock-agent"; "bedrock-agent-runtime"; "rds"; "docdb"; "neptune"]%string.

Lemma redirect_service (d : DetectedRequest) (b : bool) (from to s : string) :
  s <> from -> s <> to ->
  d_service (if String.eqb (d_service d) from && b then with_service to d else d) = s <-> d_service d = s.
Proof.
  intros Hf Ht. destruct (String.eqb_spec (d_service d) from), b; cbn; naive_solver.
Qed.

Lemma bedrock_agent_cases method path service : bedrock_agent_service_for method path = Some service ->
  service = "bedrock-agent"%string \/ service = "bedrock-agent-runtime"%string.
Proof. unfold bedrock_agent_service_for. intros. repeat case_match; simplify_eq; auto. Qed.

Lemma disambiguate_service method path headers d s :
  s ∉ ambiguous_services -> d_service (disambiguate method path headers d) = s <-> d_service d = s.
Proof.
  unfold ambiguous_services. rewrite !not_elem_of_cons. intros (H1 & H2 & H3 & H4 & H5 & H6 & _).
  unfold disambiguate. rewrite !redirect_service by done.
  destruct (String.eqb_spec (d_service d) "bedrock") as [Hd|Hd]; [|done].
  destruct (bedrock_agent_service_for method path) as [service|] eqn:Hb; [|done].
  apply bedrock_agent_cases in Hb. cbn. naive_solver.
Qed.

Section Route.
Context {S : Type} `{Form.LossyText} `{Gunzip} `{Sigv4.PercentCodec} `{HeaderSyntax} `{Cbor.Base64}.
Variable config : DispatchConfig S.
Variable limit : Z.

(** What a routed request is made of. *)
Lemma route_Ok r h rt : route config limit r = Ok (h, rt) ->
  let rpc := match r_pinned r with None => detect_rpc_v2_cbor (r_headers r) (r_path r) | Some _ => None end in
  exists d, rt = routed_of r d /\ detect config r rpc (stream_dispatch r rpc) (h_body h) = Ok d /\
    h_path h = r_path r /\
    match stream_dispatch r rpc with
    | Some _ => h_body h = [] /\ h_wire_body h = [] /\ h_body_stream h = Some (r_body r)
    | None => read_body limit r rpc = Ok (h_body h) /\ h_wire_body h = r_body r /\ h_body_stream h = None
    end.
Proof.
  intros Hr rpc. unfold route in Hr. fold rpc in Hr. cbv zeta in Hr.
  apply bind_Ok in Hr as ([[body wire] stream] & Hb & Hr). apply bind_Ok in Hr as (d & Hd & [= <- <-]).
  exists d. cbn [h_body h_path h_wire_body h_body_stream]. destruct (stream_dispatch r rpc) as [d'|].
  - injection Hb as <- <- <-. done.
  - apply bind_Ok in Hb as (b & Hb & [= <- <- <-]). done.
Qed.

(** The body a buffered request is served with: the bytes of the wire, or,
    for a compressed body of a service that takes such bodies, what the
    decoder makes of them when it is asked for at most one byte over the
    limit. *)
Definition buffered_as (r : WireRequest) (body : list Z) : Prop :=
  body = r_body r \/
  is_gzipped (r_headers r) = true /\ r_pinned r = None /\
  gunzip_take ((limit + 1) mod 2 ^ 64)%Z (r_body r) = Ok body.

Lemma read_body_Ok r rpc body : read_body limit r rpc = Ok body ->
  (Z.of_nat (length (r_body r)) <= limit)%Z /\ (Z.of_nat (length body) <= limit)%Z /\ buffered_as r body.
Proof.
  unfold read_body, buffered_as, decode_request_compression. intros Hb.
  destruct (Z.ltb_spec limit (Z.of_nat (length (r_body r)))) as [|Hw]; [done|].
  destruct (r_pinned r); [injection Hb as <-; auto|].
  destruct (is_gzipped (r_headers r)); cbn [negb orb] in Hb; [|injection Hb as <-; auto].
  destruct (bool_decide _); [injection Hb as <-; auto|].
  destruct (negb _); [injection Hb as <-; auto|].
  destruct (gunzip_take _ _) as [out|e] eqn:Hg; [|done].
  destruct (Z.ltb_spec limit (Z.of_nat (length out))); [done|]. injection Hb as <-. auto 6.
Qed.

(** C34 (bounds): what routing buffers of a request stays within the limit.
    A request that routing hands to the dispatcher was either left unread
    (its stream is the whole wire body, and both buffers are empty) or read:
    then the wire body has at most [limit] bytes, and so has the body the
    request is served with, which is the wire body itself or, for a gzip
    body, its decompression; it is measured after the decompression,
    whatever the decoder would produce.  The bound is on the two buffers
    routing fills.  A handler that later drains an unread stream, and the
    JSON text that takes the place of a CBOR body, are outside it. *)
Theorem buffered_body_bounded (r : WireRequest) (h : HttpRequest) (rt : Routed) :
  route config limit r = Ok (h, rt) ->
  h_body_stream h = Some (r_body r) /\ h_body h = [] /\ h_wire_body h = [] \/
  h_body_stream h = None /\ h_wire_body h = r_body r /\ buffered_as r (h_body h) /\
  (Z.of_nat (length (h_wire_body h)) <= limit)%Z /\ (Z.of_nat (length (h_body h)) <= limit)%Z.
Proof.
  intros (d & _ & _ & _ & Hb)%route_Ok.
  destruct (stream_dispatch r _); [left; tauto|right].
  destruct Hb as ((Hw & Hl & Has)%read_body_Ok & -> & ->). done.
Qed.

(** A path with a key has two segments in the request the handler gets. *)
Lemma has_key_segments r d payload h :
  h_path h = r_path r -> d_service (disambiguate (r_method r) (r_path r) (r_headers r) d) = "s3"%string ->
  has_key (r_headers r) (r_path r) = true <->
  2 <= length (rq_path_segments (build_request config h (routed_of r d) payload)).
Proof.
  intros Hp Hs. unfold has_key, build_request, routed_of, split_path_segments. cbn [rt_detected rt_host_bucket].
  rewrite Hs, Hp, bool_decide_eq_true. cbn [rq_path_segments]. rewrite length_fmap.
  change (String.eqb "s3" "s3") with true. cbn iota.
  assert (Hbucket : (h ← parse_routing_host_from_headers (r_headers r);
                     if String.eqb (rh_service h) "s3" then rh_bucket h else None)
                    = parse_routing_host_from_headers (r_headers r) ≫= rh_bucket).
  { unfold parse_routing_host_from_headers. destruct (header_str _ _) as [host|]; [|done]. cbn.
    destruct (parse_routing_host host) as [rh|] eqn:Hrh; [|done]. cbn.
    destruct (rh_bucket rh) as [b|] eqn:Hb; [|by destruct (String.eqb _ _)].
    by rewrite (routing_host_bucket_s3 _ _ _ Hrh Hb). }
  by rewrite Hbucket.
Qed.

(** Theorem (safety): only object uploads are streamed.  When S3 gets a request
    whose body was not read, its path names a bucket and a key, as the
    handler itself splits it; every bucket-level operation has its body read
    before authorization and the handler look at it. *)
Theorem streaming_names_a_key (r : WireRequest) (h : HttpRequest) (rt : Routed) payload :
  route config limit r = Ok (h, rt) -> d_service (rt_detected rt) = "s3"%string ->
  h_body_stream h <> None ->
  2 <= length (rq_path_segments (build_request config h rt payload)) /\
  h_body_stream h = Some (r_body r) /\ r_method r = "PUT"%string.
Proof.
  intros (d & -> & Hd & Hp & Hb)%route_Ok Hs Hne. cbn [routed_of rt_detected] in Hs.
  destruct (stream_dispatch r _) as [d'|] eqn:Hsd; [|by destruct Hb as (_ & _ & ?)].
  destruct Hb as (_ & _ & Hstream). rewrite <- (has_key_segments r d payload h) by done.
  cut (has_key (r_headers r) (r_path r) = true /\ r_method r = "PUT"%string); [tauto|].
  unfold stream_dispatch in Hsd. unfold detect in Hd.
  destruct (r_pinned r); [done|]. destruct (detect_rpc_v2_cbor _ _); [done|].
  injection Hd as ->. apply disambiguate_service in Hs; [|by vm_compute; set_solver].
  destruct (streaming_route _ _ _ _) as [service|] eqn:Hr; [|done].
  assert (service = "s3"%string) as ->.
  { destruct (detect_service_headers_only _ _) as [d'|].
    - destruct (String.eqb_spec service (d_service d')); [|done]. by simplify_eq.
    - destruct (String.eqb service "ecr"); [|done]. by simplify_eq. }
  unfold streaming_route in Hr. destruct (_ && _ && _); [done|].
  destruct (String.eqb_spec (r_method r) "PUT"); [|done]. split; [|done].
  by destruct (has_key _ _).
Qed.

End Route.

(** ** Pinned requests *)

Section Serve.
Context {S St Resp : Type} `{IamPolicyEvaluator S} `{DenyCodec}.
Context `{Sigv4.PercentCodec} `{Sigv4.SigCrypto} `{Sigv4.AmzDate} `{WireFormats} `{HeaderSyntax}.
Context `{Cbor.CborReader} `{Cbor.Base64} `{Form.LossyText} `{SerdeJson} `{Gunzip}.
Variable registry : gmap string (AwsService St Resp).
Variable config : DispatchConfig S.
Variable limit : Z.

(** Theorem (safety): nothing in a pinned request steers it elsewhere.  Whatever
    target header, credential scope, [Action], host or body an in-process
    request to one service carries, it changes state only through that
    service's handler, on a REST request without an action. *)
Theorem pinned_request_stays (clock : Clock) (st st' : St) (r : WireRequest) (out : Outcome) (name : string) :
  r_pinned r = Some name -> name ∉ ambiguous_services ->
  serve registry config limit clock st r = (st', out) -> st' <> st ->
  exists service rq answer, registry !! name = Some service /\
    rq_service rq = name /\ rq_action rq = EmptyString /\ rq_is_query_protocol rq = false /\
    handle service st rq = (st', answer) /\ out = Answered answer.
Proof.
  intros Hpin Hname Hserve Hne. unfold serve in Hserve.
  destruct (route config limit r) as [[h rt]|e] eqn:Hroute; [|by injection Hserve as <-].
  apply route_Ok in Hroute as (d & -> & Hd & _). unfold detect in Hd. rewrite Hpin in Hd. injection Hd as <-.
  assert (Hs : disambiguate (r_method r) (r_path r) (r_headers r) (mkDetected name EmptyString PRest)
               = mkDetected name EmptyString PRest).
  { unfold ambiguous_services in Hname. rewrite !not_elem_of_cons in Hname.
    unfold disambiguate. cbn [d_service]. rewrite (proj2 (String.eqb_neq name "bedrock")) by tauto. cbn [d_service].
    assert (Hrds : String.eqb name "rds" = false) by (apply String.eqb_neq; tauto).
    rewrite Hrds. cbn [andb d_service]. by rewrite Hrds. }
  unfold dispatch in Hserve.
  destruct (admission _ _ _ _ _ _) as [[service rq]|e] eqn:Ha; [|by injection Hserve as <-].
  apply admit_Ok in Ha as (Hsvc & _ & (payload & _ & Hrq) & _). cbn [routed_of rt_detected] in Hsvc.
  rewrite Hs in Hsvc. destruct (handle service st rq) as [st1 answer] eqn:Hh. injection Hserve as <- <-.
  exists service, rq, answer. subst rq.
  split_and!; [done|..|done|done]; unfold build_request, routed_of; cbn; by rewrite Hs.
Qed.

End Serve.

(** ** Witnesses *)

Lemma s3_hosts_recognized_witness :
  parse_routing_host "My.Bucket.s3.dualstack.eu-west-1.AMAZONAWS.com:4566"
  = Some (mkHost "s3" "eu-west-1" (Some "my.bucket"%string)).
Proof.
  apply (s3_hosts_recognized ["my"; "bucket"]%string ["s3"; "dualstack"; "eu-west-1"]%string "eu-west-1" "eu-west-1"
    "amazonaws.com").
  - repeat constructor.
  - reflexivity.
  - unfold s3_endpoints. set_solver.
  - unfold DNS_SUFFIXES. set_solver.
  - reflexivity.
Defined.

Lemma access_point_hosts_unrecognized_witness :
  parse_routing_host "ap-111111111111.s3-accesspoint.us-east-1.amazonaws.com" = None /\
  parse_routing_host "ap-111111111111.s3-accesspoint.us-east-1.localhost.localstack.cloud"
  = Some (mkHost "s3" "us-east-1" (Some "ap-111111111111"%string)).
Proof.
  split; [|reflexivity].
  apply (access_point_hosts_unrecognized ["ap-111111111111"%string] "us-east-1" "amazonaws.com").
  - repeat constructor.
  - done.
  - reflexivity.
  - unfold DNS_SUFFIXES. set_solver.
  - reflexivity.
Defined.

Definition identity_gunzip : Gunzip := {| gunzip_take := fun _ b => Ok b |}.
#[local] Existing Instance identity_gunzip.
#[local] Existing Instance no_text.
#[local] Existing Instance no_base64.
#[local] Existing Instance byte_codec.
#[local] Existing Instance plain_headers.

Definition s3_authorization : string :=
  "AWS4-HMAC-SHA256 Credential=AKIA/19700101/us-east-1/s3/aws4_request, SignedHeaders=host, Signature=00".

#[local] Existing Instance yes_evaluator.
#[local] Existing Instance no_deny_codec.
#[local] Existing Instance length_crypto.
#[local] Existing Instance epoch_date.
#[local] Existing Instance plain_wire.
#[local] Existing Instance no_cbor.
#[local] Existing Instance null_serde.

Definition upload : WireRequest :=
  mkWire "PUT" "/key" EmptyString
    [("host", Some "photos.s3.us-east-1.amazonaws.com"); ("authorization", Some s3_authorization)]%string
    ∅ [1; 2; 3]%Z None None None.

Lemma signed_scope_decides_witness :
  exists action protocol,
    detect_service [("authorization", Some s3_authorization)]%string {[ "Action" := "CreateUser" ]}%string []
    = Some (mkDetected "s3" action protocol).
Proof. apply signed_scope_decides; [reflexivity|reflexivity|]. left. by eexists. Defined.

Lemma body_steers_presigned_witness :
  @detect_service FormTheory.utf8_text [] {[ "X-Amz-Credential" := "AKIA/19700101/us-east-1/s3/aws4_request" ]}%string
    (as_bytes "Action=CreateUser&UserName=eve")
  = Some (mkDetected "iam" "CreateUser" PQuery).
Proof. apply (@body_steers_presigned FormTheory.utf8_text); reflexivity. Defined.

(** A decoder for a toy compression: pairs of a count and a byte. *)
Fixpoint expand_runs (runs : list Z) : list Z :=
  match runs with
  | n :: byte :: rest => replicate (Z.to_nat n) byte ++ expand_runs rest
  | _ => []
  end.

Definition run_length_gunzip : Gunzip :=
  {| gunzip_take := fun n runs => Ok (take (Z.to_nat n) (expand_runs runs)) |}.

(** Metrics sent compressed: two bytes on the wire, eight to the handler. *)
Definition put_metrics (count : Z) : WireRequest :=
  mkWire "POST" "/" EmptyString
    [("x-amz-target", Some "GraniteServiceVersion20100801.PutMetricData"); ("content-encoding", Some "gzip")]%string
    ∅ [count; 65]%Z None None None.

Lemma buffered_body_bounded_witness :
  exists h rt, @route _ _ run_length_gunzip (sample_config unit tt) 10 (put_metrics 8) = Ok (h, rt) /\
    h_body h = replicate 8 65%Z /\
    (Z.of_nat (length (h_wire_body h)) <= 10)%Z /\ (Z.of_nat (length (h_body h)) <= 10)%Z.
Proof.
  destruct (@route _ _ run_length_gunzip (sample_config unit tt) 10 (put_metrics 8)) as [[h rt]|e] eqn:Hr;
    [|by vm_compute in Hr].
  exists h, rt. split; [done|].
  assert (Hh : h_body h = replicate 8 65%Z /\ h_body_stream h = None)
    by (vm_compute in Hr; injection Hr as <- <-; done).
  split; [apply Hh|].
  destruct (@buffered_body_bounded _ _ run_length_gunzip (sample_config unit tt) 10 (put_metrics 8) h rt Hr)
    as [(Hs & _)|(_ & _ & _ & Hb)]; [|exact Hb].
  rewrite (proj2 Hh) in Hs. discriminate.
Defined.

(** The same two bytes standing for too many are refused. *)
Example bomb_is_refused :
  @route _ _ run_length_gunzip (sample_config unit tt) 10 (put_metrics 1000)
  = Err (build_error_response BAD_REQUEST "SerializationException" "Decompressed request body too large").
Proof. vm_compute. reflexivity. Qed.

Lemma streaming_names_a_key_witness :
  exists h rt, route (sample_config unit tt) 10 upload = Ok (h, rt) /\
    2 <= length (rq_path_segments (build_request (sample_config unit tt) h rt ([], ∅))) /\
    h_body_stream h = Some [1; 2; 3]%Z.
Proof.
  destruct (route (sample_config unit tt) 10 upload) as [[h rt]|e] eqn:Hr; [|by vm_compute in Hr].
  exists h, rt. split; [done|].
  destruct (streaming_names_a_key (sample_config unit tt) 10 upload h rt ([], ∅)) as (Hk & Hs & _); [exact Hr|..].
  - vm_compute in Hr. by injection Hr as <- <-.
  - vm_compute in Hr. by injection Hr as <- <-.
  - split; [exact Hk|exact Hs].
Defined.

(** A pinned request with a misleading target header. *)
Definition pinned_request : WireRequest :=
  mkWire "GET" "/q" EmptyString [("x-amz-target", Some "TrentService.Decrypt")]%string ∅ [] (Some "sqs"%string) None None.

Definition open_config : DispatchConfig unit :=
  mkConfig unit "us-east-1" "111111111111" false IamOff None None None None.

Lemma pinned_request_stays_witness :
  exists service rq answer, sample_registry !! "sqs"%string = Some service /\
    rq_service rq = "sqs"%string /\ rq_action rq = EmptyString /\ rq_is_query_protocol rq = false /\
    handle service 0 rq = (1, answer) /\ Answered (Resp := nat) 0 = Answered answer.
Proof.
  apply (pinned_request_stays sample_registry open_config 10 sample_clock 0 1 pinned_request (Answered 0) "sqs").
  - reflexivity.
  - unfold ambiguous_services. set_solver.
  - vm_compute. reflexivity.
  - discriminate.
Defined.
