(* ===== verification/EventPattern.v ===== *)
(** * Event patterns

    [fakecloud-aws/src/event_pattern.rs]: the pattern language shared by
    EventBridge rules and archives, Pipes filters and Lambda event source
    mappings.  [match_object] recurses on the pattern; the descent into
    array-valued nodes is the separate recursion [crush], and the lemma
    [match_object_eq] is the recurrence of the source. *)

From Stdlib Require Import ZArith Lia Bool String Ascii.
From stdpp Require Import base option list strings gmap.
From S2P Require Import Prelude Json Net.

(** ** Scalars *)

Definition scalars_equal (a b : Value) : bool :=
  match a, b with
  | VNumber x, VNumber y => f64_eqb (number_as_f64 x) (number_as_f64 y)
  | _, _ => value_eqb a b
  end.

(** ** The wildcard matcher *)

(** The scan of [wildcard_matches]: segments of literal text between
    unescaped asterisks; [current] is the segment under construction. *)
Fixpoint wildcard_segments (pattern current : string) : list string :=
  match pattern with
  | EmptyString => [current]
  | String c rest =>
      if Ascii.eqb c "\" then
        match rest with
        | String next rest' => wildcard_segments rest' (current +:+ String next EmptyString)
        | EmptyString => [current]
        end
      else if Ascii.eqb c "*" then current :: wildcard_segments rest EmptyString
      else wildcard_segments rest (current +:+ String c EmptyString)
  end.

(** The loop over the segments after the first; [rest] is [actual[pos..]]. *)
Fixpoint wildcard_rest (actual rest : string) (segments : list string) : bool :=
  match segments with
  | [] => true
  | [seg] => (byte_len seg <=? byte_len rest) && ends_with seg actual
  | seg :: segments' =>
      match split_at_needle seg rest with
      | Some (_, rest') => wildcard_rest actual rest' segments'
      | None => false
      end
  end.

Definition wildcard_matches (pattern actual : string) : bool :=
  match wildcard_segments pattern EmptyString with
  | [] => false
  | [only] => String.eqb only actual
  | first :: segments =>
      match strip_prefix first actual with
      | Some rest => wildcard_rest actual rest segments
      | None => false
      end
  end.

(** ** Operators *)

Definition equals_ic (a b : string) : bool := String.eqb (to_lowercase a) (to_lowercase b).
Definition starts_with_ic (value prefix : string) : bool :=
  starts_with (to_lowercase prefix) (to_lowercase value).
Definition ends_with_ic (value suffix : string) : bool :=
  ends_with (to_lowercase suffix) (to_lowercase value).

Definition string_op (arg : Value) (leaf : option string)
  (exact ignore_case : string -> string -> bool) : bool :=
  match leaf with
  | None => false
  | Some v =>
      match arg with
      | VString p => exact p v
      | VObject o =>
          match assoc "equals-ignore-case" o ≫= as_str with
          | Some p => ignore_case p v
          | None => false
          end
      | _ => false
      end
  end.

(** Both an argument and the leaf are strings. *)
Definition both_strings (arg : Value) (leaf : option string)
  (pred : string -> string -> bool) : bool :=
  match as_str arg, leaf with
  | Some p, Some v => pred p v
  | _, _ => false
  end.

(** One operator/threshold pair of [numeric_matches]. *)
Definition numeric_pair (actual : f64) (op threshold : Value) : bool :=
  match as_f64 threshold with
  | None => false
  | Some t =>
      match as_str op with
      | Some o =>
          if String.eqb o "=" then f64_eqb actual t
          else if String.eqb o "<" then f64_ltb actual t
          else if String.eqb o "<=" then f64_leb actual t
          else if String.eqb o ">" then f64_ltb t actual
          else if String.eqb o ">=" then f64_leb t actual
          else false
      | None => false
      end
  end.

(** [arr.chunks(2).all(...)] on a list of even length. *)
Fixpoint numeric_pairs (actual : f64) (arr : list Value) : bool :=
  match arr with
  | op :: threshold :: arr' => numeric_pair actual op threshold && numeric_pairs actual arr'
  | _ => true
  end.

Definition numeric_matches (arg leaf : Value) : bool :=
  match as_f64 leaf, as_array arg with
  | Some actual, Some arr =>
      if Nat.eqb (length arr) 0 || negb (Nat.eqb (length arr mod 2) 0) then false
      else numeric_pairs actual arr
  | _, _ => false
  end.

(** The closure [hit] of [anything_but_matches]. *)
Definition anything_but_hit (s : option string) (arg : Value)
  (pred : string -> string -> bool) : option bool :=
  v ← s;
  match arg with
  | VString p => Some (pred p v)
  | VArray a => Some (existsb (fun p => pred p v) (omap as_str a))
  | _ => None
  end.

Definition anything_but_matches (arg leaf : Value) : bool :=
  match arg with
  | VString _ | VNumber _ => negb (scalars_equal arg leaf)
  | VArray l => negb (existsb (fun v => scalars_equal v leaf) l)
  | VObject nested =>
      let s := as_str leaf in
      let excluded :=
        match assoc "prefix" nested with
        | Some p => Some (anything_but_hit s p (fun p v => starts_with p v))
        | None =>
        match assoc "suffix" nested with
        | Some p => Some (anything_but_hit s p (fun p v => ends_with p v))
        | None =>
        match assoc "equals-ignore-case" nested with
        | Some p => Some (anything_but_hit s p equals_ic)
        | None =>
        match assoc "wildcard" nested with
        | Some p => Some (anything_but_hit s p wildcard_matches)
        | None =>
        match assoc "cidr" nested with
        | Some p => Some (anything_but_hit s p cidr_matches)
        | None => None
        end end end end end in
      match excluded with
      | None => false
      | Some (Some hit) => negb hit
      | Some None => match s with None => true | Some _ => false end
      end
  | _ => false
  end.

Definition match_operator (op : list (string * Value)) (leaf : Value) : bool :=
  let s := as_str leaf in
  match assoc "prefix" op with
  | Some arg => string_op arg s (fun p v => starts_with p v) (fun p v => starts_with_ic v p)
  | None =>
  match assoc "suffix" op with
  | Some arg => string_op arg s (fun p v => ends_with p v) (fun p v => ends_with_ic v p)
  | None =>
  match assoc "equals-ignore-case" op with
  | Some arg => both_strings arg s equals_ic
  | None =>
  match assoc "wildcard" op with
  | Some arg => both_strings arg s wildcard_matches
  | None =>
  match assoc "cidr" op with
  | Some arg => both_strings arg s cidr_matches
  | None =>
  match assoc "numeric" op with
  | Some arg => numeric_matches arg leaf
  | None =>
  match assoc "anything-but" op with
  | Some arg => anything_but_matches arg leaf
  | None => false
  end end end end end end end.

Definition match_leaf (entry leaf : Value) : bool :=
  match entry with
  | VObject op => match_operator op leaf
  | literal => scalars_equal literal leaf
  end.

(** ** Fields and objects *)

Fixpoint collect_leaves (v : Value) : list Value :=
  match v with
  | VArray items => flat_map collect_leaves items
  | VObject _ => []
  | scalar => [scalar]
  end.

Definition field_leaves (field : option Value) : list Value :=
  match field with Some v => collect_leaves v | None => [] end.

(** One entry of a pattern list. *)
Definition match_entry (leaves : list Value) (entry : Value) : bool :=
  match get "exists" entry with
  | Some e =>
      match as_bool e with
      | Some true => negb (Nat.eqb (length leaves) 0)
      | Some false => Nat.eqb (length leaves) 0
      | None => false
      end
  | None => existsb (match_leaf entry) leaves
  end.

Definition match_list (l : list Value) (field : option Value) : bool :=
  existsb (match_entry (field_leaves field)) l.

(** An array-valued node: any element may satisfy [here]; an empty array is an
    absent node. *)
Fixpoint crush (here : option Value -> bool) (v : Value) : bool :=
  match v with
  | VArray [] => here None
  | VArray items => existsb (crush here) items
  | _ => here (Some v)
  end.

Definition at_node (here : option Value -> bool) (node : option Value) : bool :=
  match node with Some v => crush here v | None => here None end.

(** The fields of an object node. *)
Definition node_field (node : option Value) (key : string) : option Value :=
  node ≫= get key.

(** [match_object] on the pattern [VObject m]; [false] on other patterns. *)
Fixpoint match_pattern (p : Value) (node : option Value) {struct p} : bool :=
  match p with
  | VObject m =>
      at_node (fun node =>
        (fix fields (m : list (string * Value)) : bool :=
           match m with
           | [] => true
           | (key, sub) :: m' =>
               (if String.eqb key "$or" then true
                else match sub with
                     | VObject _ => match_pattern sub (node_field node key)
                     | VArray l => match_list l (node_field node key)
                     | _ => false
                     end)
               && fields m'
           end) m
        && (fix alternatives (m : list (string * Value)) : bool :=
              match m with
              | [] => true
              | (key, sub) :: m' =>
                  if String.eqb key "$or" then
                    match sub with
                    | VArray alts =>
                        (fix any (alts : list Value) : bool :=
                           match alts with
                           | [] => false
                           | alt :: alts' =>
                               match_pattern alt node || any alts'
                           end) alts
                    | _ => true
                    end
                  else alternatives m'
              end) m) node
  | _ => false
  end.

Definition match_object (pattern : list (string * Value)) (node : option Value) : bool :=
  match_pattern (VObject pattern) node.

Definition matches (pattern event : Value) : bool :=
  match pattern with
  | VObject obj => match_object obj (Some event)
  | _ => false
  end.

(** ** Structure checks *)

Fixpoint is_valid_structure (p : Value) : bool :=
  match p with
  | VObject m =>
      forallb (fun kv : string * Value =>
        match kv.2 with
        | VObject _ => is_valid_structure kv.2
        | VArray alts =>
            if String.eqb kv.1 "$or"
            then forallb (fun a => match a with VObject _ => is_valid_structure a | _ => false end)
                   alts
            else true
        | _ => false
        end) m
  | _ => false
  end.

Definition OPERATOR_KEYS : list string :=
  ["exists"; "prefix"; "suffix"; "equals-ignore-case"; "anything-but"; "numeric"; "cidr";
   "wildcard"]%string.

Definition is_operator_object (o : list (string * Value)) : bool :=
  existsb (fun kv => existsb (String.eqb kv.1) OPERATOR_KEYS) o.

Fixpoint normalize_scalar_leaves (p : Value) : Value :=
  if is_valid_structure p then p
  else
    match p with
    | VObject m =>
        VObject (map (fun kv : string * Value =>
          let v := kv.2 in
          (kv.1,
           match v with
           | VObject o =>
               if is_operator_object o && negb (is_valid_structure v) then VArray [v]
               else normalize_scalar_leaves v
           | VArray alts =>
               if String.eqb kv.1 "$or" then VArray (map normalize_scalar_leaves alts) else v
           | scalar => VArray [scalar]
           end)) m)
    | other => other
    end.

(** ** The recurrence of [match_object] *)

(** One field of the pattern. *)
Definition match_field (node : option Value) (key : string) (sub : Value) : bool :=
  if String.eqb key "$or" then true
  else match sub with
       | VObject sub_obj => match_object sub_obj (node_field node key)
       | VArray l => match_list l (node_field node key)
       | _ => false
       end.

Definition match_alternative (node : option Value) (alt : Value) : bool :=
  match alt with VObject alt_obj => match_object alt_obj node | _ => false end.

(** The body after the array branch. *)
Definition match_here (pattern : list (string * Value)) (node : option Value) : bool :=
  forallb (fun kv => match_field node kv.1 kv.2) pattern
  && match assoc "$or" pattern with
     | Some (VArray alternatives) => existsb (match_alternative node) alternatives
     | _ => true
     end.

Lemma match_alternative_eq node alt : match_alternative node alt = match_pattern alt node.
Proof. by destruct alt. Qed.

Lemma crush_ext f g v : (forall n, f n = g n) -> crush f v = crush g v.
Proof.
  intros Hfg. induction v as [| | | |l IH|] using Value_ind; cbn [crush]; try apply Hfg.
  destruct l as [|x l]; [apply Hfg|].
  revert IH. generalize (x :: l). induction l0 as [|y l' IHl]; [done|].
  intros [Hy Hl]%Forall_cons. cbn [existsb]. by rewrite Hy, IHl.
Qed.

Lemma at_node_ext f g node : (forall n, f n = g n) -> at_node f node = at_node g node.
Proof. intros Hfg. destruct node; [by apply crush_ext|apply Hfg]. Qed.

Lemma match_object_here pattern node :
  match_object pattern node = at_node (match_here pattern) node.
Proof.
  unfold match_object. cbn [match_pattern]. apply at_node_ext. clear node. intros node.
  unfold match_here. f_equal.
  - induction pattern as [|[key sub] m IH]; [done|]. cbn [forallb fst snd]. rewrite IH.
    f_equal. unfold match_field. by destruct (String.eqb key _), sub.
  - induction pattern as [|[key sub] m IH]; [done|]. cbn [assoc].
    destruct (String.eqb key "$or"); [|done]. destruct sub as [| | | |alts|]; try done.
    induction alts as [|alt alts IHa]; [done|]. cbn [existsb]. by rewrite match_alternative_eq, IHa.
Qed.

(** The recursion of the source, branch by branch. *)
Lemma match_object_eq pattern node :
  match_object pattern node =
  match node with
  | Some (VArray []) => match_object pattern None
  | Some (VArray items) => existsb (fun item => match_object pattern (Some item)) items
  | _ => match_here pattern node
  end.
Proof.
  rewrite match_object_here. destruct node as [v|]; [|done]. cbn [at_node].
  destruct v as [| | | |items|]; try done.
  destruct items as [|x items]; [by rewrite match_object_here|].
  change (crush (match_here pattern) (VArray (x :: items)))
    with (existsb (crush (match_here pattern)) (x :: items)).
  induction (x :: items) as [|y l IH]; [done|]. cbn [existsb].
  by rewrite match_object_here, IH.
Qed.

(** ** The wildcard matcher is correct *)

Inductive WTok : Type := WLit (c : ascii) | WStar.

(** What a pattern means: escapes resolved, unescaped asterisks as stars. *)
Fixpoint wtokens (pattern : string) : list WTok :=
  match pattern with
  | EmptyString => []
  | String c rest =>
      if Ascii.eqb c "\" then
        match rest with
        | String next rest' => WLit next :: wtokens rest'
        | EmptyString => []
        end
      else if Ascii.eqb c "*" then WStar :: wtokens rest
      else WLit c :: wtokens rest
  end.

(** The strings a pattern denotes. *)
Inductive denotes : list WTok -> string -> Prop :=
| denotes_nil : denotes [] EmptyString
| denotes_lit c p v : denotes p v -> denotes (WLit c :: p) (String c v)
| denotes_skip p v : denotes p v -> denotes (WStar :: p) v
| denotes_take p c v : denotes (WStar :: p) v -> denotes (WStar :: p) (String c v).

Definition lits (s : string) : list WTok := WLit <$> list_ascii_of_string s.

Lemma lits_app a b : lits (a +:+ b) = lits a ++ lits b.
Proof. induction a as [|c a IH]; cbn; [done|]. unfold lits in IH. by rewrite IH. Qed.

Definition starred (segs : list string) : list WTok := segs ≫= fun s => WStar :: lits s.

Lemma wildcard_segments_tokens p cur :
  exists first segs, wildcard_segments p cur = first :: segs
  /\ lits cur ++ wtokens p = lits first ++ starred segs.
Proof.
  remember (String.length p) as n eqn:Hn. revert p cur Hn.
  induction n as [n IH] using lt_wf_ind. intros p cur ->.
  destruct p as [|c p]; cbn [wildcard_segments wtokens].
  { exists cur, []. by rewrite !app_nil_r. }
  destruct (Ascii.eqb c "\").
  - destruct p as [|c' p].
    + exists cur, []. by rewrite !app_nil_r.
    + destruct (IH (String.length p)) with (p := p) (cur := cur +:+ String c' EmptyString)
        as (f & segs & -> & E); [cbn; lia|done|].
      exists f, segs. split; [done|]. rewrite lits_app in E. by rewrite <- E, <- app_assoc.
  - destruct (Ascii.eqb c "*").
    + destruct (IH (String.length p)) with (p := p) (cur := EmptyString)
        as (f & segs & -> & E); [cbn; lia|done|].
      exists cur, (f :: segs). split; [done|]. cbn in E. by rewrite E.
    + destruct (IH (String.length p)) with (p := p) (cur := cur +:+ String c EmptyString)
        as (f & segs & -> & E); [cbn; lia|done|].
      exists f, segs. split; [done|]. rewrite lits_app in E. by rewrite <- E, <- app_assoc.
Qed.

Lemma denotes_lits s p v :
  denotes (lits s ++ p) v <-> exists r, v = s +:+ r /\ denotes p r.
Proof.
  revert v. induction s as [|c s IH]; intros v; cbn.
  - split; [by eauto|]. by intros (r & -> & ?).
  - split.
    + inversion 1 as [|? ? v' Hv| |]; subst. apply IH in Hv as (r & -> & ?). by exists r.
    + intros (r & -> & ?). constructor. apply IH. by exists r.
Qed.

Lemma denotes_star p v :
  denotes (WStar :: p) v <-> exists g r, v = g +:+ r /\ denotes p r.
Proof.
  split.
  - remember (WStar :: p) as q eqn:Hq. induction 1 as [|? ? ? _ IH|? v ? _|? c v _ IH];
      simplify_eq.
    + by exists EmptyString, v.
    + destruct IH as (g & r & -> & ?); [done|]. by exists (String c g), r.
  - intros (g & r & -> & ?). induction g as [|c g IH]; cbn; [by constructor|by constructor].
Qed.

Lemma denotes_starred_cons seg segs v :
  denotes (starred (seg :: segs)) v <-> exists g r, v = g +:+ (seg +:+ r) /\ denotes (starred segs) r.
Proof.
  change (starred (seg :: segs)) with (WStar :: (lits seg ++ starred segs)).
  rewrite denotes_star. setoid_rewrite denotes_lits. split.
  - intros (g & ? & -> & r & -> & ?). by exists g, r.
  - intros (g & r & -> & ?). exists g, (seg +:+ r). eauto.
Qed.

(** A leading star absorbs more text. *)
Lemma denotes_starred_grow segs x v :
  segs <> [] -> denotes (starred segs) v -> denotes (starred segs) (x +:+ v).
Proof.
  destruct segs as [|s segs]; [done|]. intros _. rewrite !denotes_starred_cons.
  intros (g & r & -> & ?). exists (x +:+ g), r. by rewrite string_app_assoc.
Qed.

(** The leftmost occurrence: every occurrence ends in its remainder. *)
Lemma split_at_needle_leftmost x s g r :
  s = g +:+ (x +:+ r) ->
  exists a b y, split_at_needle x s = Some (a, b) /\ b = y +:+ r.
Proof.
  revert s. induction g as [|c g IH]; intros s Hs.
  - cbn in Hs. exists EmptyString, r, EmptyString.
    assert (Hp : strip_prefix x s = Some r) by (by apply strip_prefix_Some).
    split; [|done]. destruct s; cbn [split_at_needle]; by rewrite Hp.
  - subst s. cbn [String.append split_at_needle].
    destruct (strip_prefix x (String c (g +:+ (x +:+ r)))) as [b|] eqn:E.
    + exists EmptyString, b. apply strip_prefix_Some in E.
      assert (Hl : String.length r <= String.length b).
      { apply (f_equal String.length) in E. cbn in E. rewrite !string_length_app in E. lia. }
      assert (E' : (String c g +:+ x) +:+ r = x +:+ b) by (rewrite <- E, string_app_assoc; done).
      destruct (app_suffix _ _ _ _ E' Hl) as [y ->]. by exists y.
    + destruct (IH _ eq_refl) as (a & b & y & -> & ->). by exists (String c a), (y +:+ r), y.
Qed.

(** The last segment is anchored at the end of what is left. *)
Lemma last_segment_anchored consumed rest seg :
  (byte_len seg <=? byte_len rest) && ends_with seg (consumed +:+ rest) = true
  <-> exists g, rest = g +:+ seg.
Proof.
  rewrite andb_true_iff, Nat.leb_le, ends_with_spec. split.
  - intros [Hlen [r Hr]].
    destruct (Nat.le_gt_cases (String.length seg) (String.length rest)) as [Hl|Hl].
    + destruct (app_suffix r seg consumed rest) as [y ->]; [done|lia|by exists y].
    + destruct (app_suffix consumed rest r seg) as [y ->]; [done|lia|].
      destruct y as [|c y]; [by exists EmptyString|].
      rewrite byte_len_app in Hlen. pose proof (byte_len_pos c y). lia.
  - intros [g ->]. split; [rewrite byte_len_app; lia|].
    exists (consumed +:+ g). by rewrite string_app_assoc.
Qed.

Lemma wildcard_rest_cons actual rest seg seg' segs :
  wildcard_rest actual rest (seg :: seg' :: segs) =
  match split_at_needle seg rest with
  | Some (_, rest') => wildcard_rest actual rest' (seg' :: segs)
  | None => false
  end.
Proof. done. Qed.

Lemma wildcard_rest_denotes consumed rest segs :
  segs <> [] ->
  wildcard_rest (consumed +:+ rest) rest segs = true <-> denotes (starred segs) rest.
Proof.
  revert consumed rest. induction segs as [|seg segs IH]; intros consumed rest Hne; [done|].
  rewrite denotes_starred_cons. destruct segs as [|seg' segs].
  - cbn [wildcard_rest]. rewrite last_segment_anchored. split.
    + intros [g ->]. exists g, EmptyString. rewrite string_app_nil_r. split; [done|constructor].
    + intros (g & r & -> & Hr). inversion Hr; subst. exists g. by rewrite string_app_nil_r.
  - rewrite wildcard_rest_cons. destruct (split_at_needle seg rest) as [[a b]|] eqn:E.
    + pose proof (split_at_needle_Some _ _ _ _ E) as Hrest.
      assert (Hc : consumed +:+ rest = (consumed +:+ (a +:+ seg)) +:+ b)
        by (rewrite Hrest; by rewrite !string_app_assoc).
      rewrite Hc, IH by done. split.
      * intros Hb. by exists a, b.
      * intros (g & r & Hr & Hd).
        destruct (split_at_needle_leftmost seg rest g r Hr) as (a' & b' & y & E' & ->).
        rewrite E in E'. injection E' as -> ->. by apply denotes_starred_grow.
    + split; [done|]. intros (g & r & Hr & _).
      destruct (split_at_needle_leftmost seg rest g r Hr) as (? & ? & ? & ? & _). congruence.
Qed.

(** Theorem (equivalence) The wildcard matcher is exact: the greedy search for
    the leftmost occurrence of each segment accepts precisely the strings the
    pattern denotes, where an unescaped asterisk stands for any run of
    characters, a backslash makes the next character literal, and everything
    else stands for itself. *)
Theorem wildcard_matches_exact (pattern actual : string) :
  wildcard_matches pattern actual = true <-> denotes (wtokens pattern) actual.
Proof.
  unfold wildcard_matches.
  destruct (wildcard_segments_tokens pattern EmptyString) as (first & segs & -> & E).
  cbn in E. rewrite E, denotes_lits. destruct segs as [|s segs].
  - rewrite String.eqb_eq. split.
    + intros <-. exists EmptyString. rewrite string_app_nil_r. split; [done|constructor].
    + intros (r & -> & Hr). inversion Hr; subst. by rewrite string_app_nil_r.
  - destruct (strip_prefix first actual) as [rest|] eqn:Ep.
    + apply strip_prefix_Some in Ep as ->. rewrite wildcard_rest_denotes by done. split.
      * intros Hr. by exists rest.
      * intros (r & Hr & Hd). apply strip_prefix_Some in Hr.
        rewrite (proj2 (strip_prefix_Some first _ rest) eq_refl) in Hr. by injection Hr as <-.
    + split; [done|]. intros (r & -> & _).
      rewrite (proj2 (strip_prefix_Some first _ r) eq_refl) in Ep. done.
Qed.

(** ** Presence *)

(** Theorem (safety) Absent fields: a pattern list accepts a field without
    leaves (absent, an object, or an empty array) exactly when one of its
    entries is an [exists] matcher set to false; no literal, not even [null],
    and no other operator does. A field with leaves is accepted exactly when
    an entry is [exists] set to true, or a matcher without [exists] accepts
    one of the leaves. *)
Theorem match_list_presence (l : list Value) (field : option Value) :
  match_list l field = true <->
  if decide (field_leaves field = [])
  then exists entry, entry ∈ l /\ get "exists" entry = Some (VBool false)
  else exists entry, entry ∈ l
       /\ (get "exists" entry = Some (VBool true)
           \/ get "exists" entry = None
              /\ exists leaf, leaf ∈ field_leaves field /\ match_leaf entry leaf = true).
Proof.
  unfold match_list. rewrite existsb_exists. setoid_rewrite <- list_elem_of_In.
  case_decide as Hd.
  - rewrite Hd. split; intros (e & He & Hm); exists e; (split; [done|]).
    + unfold match_entry in Hm. destruct (get "exists" e) as [v|]; [|done].
      destruct v as [|[]| | | |]; done.
    + unfold match_entry. by rewrite Hm.
  - destruct (field_leaves field) as [|x leaves] eqn:El; [done|]. rewrite <- El in *.
    split; intros (e & He & Hm); exists e; (split; [done|]); unfold match_entry in *.
    + destruct (get "exists" e) as [v|].
      * left. destruct v as [|[]| | | |]; try done. by rewrite El in Hm.
      * right. split; [done|]. apply existsb_exists in Hm as (leaf & Hl & Hm).
        exists leaf. by rewrite list_elem_of_In.
    + destruct Hm as [-> | [-> (leaf & Hl & Hm)]]; [by rewrite El|].
      apply existsb_exists. exists leaf. by rewrite <- list_elem_of_In.
Qed.

(** ** Complementary operators *)

(** Theorem (equivalence) [anything-but] is a complement: around a prefix,
    suffix, equals-ignore-case, wildcard or cidr matcher with a string
    argument it accepts exactly the leaves the inner matcher rejects,
    non-string leaves included; around a list of literals exactly the leaves
    equal to none of them. *)
Theorem anything_but_complement (op arg : string) (literals : list Value) (leaf : Value)
  (Hop : op ∈ ["prefix"; "suffix"; "equals-ignore-case"; "wildcard"; "cidr"]%string) :
  match_operator [("anything-but"%string, VObject [(op, VString arg)])] leaf
  = negb (match_operator [(op, VString arg)] leaf)
  /\ match_operator [("anything-but"%string, VArray literals)] leaf
     = negb (existsb (fun l => scalars_equal l leaf) literals).
Proof.
  split; [|done].
  repeat (apply elem_of_cons in Hop as [->|Hop];
    [unfold match_operator, anything_but_matches, string_op, both_strings, anything_but_hit;
     cbn -[starts_with ends_with equals_ic wildcard_matches cidr_matches];
     by destruct (as_str leaf)|]).
  by apply elem_of_nil in Hop.
Qed.

Lemma anything_but_complement_witness :
  match_operator [("anything-but", VObject [("wildcard", VString "prod-*")])]%string
    (VString "test-1")
  = negb (match_operator [("wildcard", VString "prod-*")]%string (VString "test-1")).
Proof.
  apply (anything_but_complement "wildcard" "prod-*" [] (VString "test-1")).
  repeat first [left|right].
Defined.

(** ** Alternation *)

Definition is_array (n : option Value) : bool :=
  match n with Some (VArray _) => true | _ => false end.

Lemma crush_ext_leaf f g v :
  (forall n, is_array n = false -> f n = g n) -> crush f v = crush g v.
Proof.
  intros Hfg. induction v as [| | | |l IH|] using Value_ind; cbn [crush]; try (by apply Hfg).
  destruct l as [|x l]; [by apply Hfg|].
  revert IH. generalize (x :: l). induction l0 as [|y l' IHl]; [done|].
  intros [Hy Hl]%Forall_cons. cbn [existsb]. by rewrite Hy, IHl.
Qed.

Lemma existsb_orb {A} (f g : A -> bool) l :
  existsb (fun x => f x || g x) l = existsb f l || existsb g l.
Proof.
  induction l as [|x l IH]; [done|]. cbn [existsb]. rewrite IH.
  by destruct (f x), (g x), (existsb f l).
Qed.

Lemma crush_orb f g v : crush (fun n => f n || g n) v = crush f v || crush g v.
Proof.
  induction v as [| | | |l IH|] using Value_ind; cbn [crush]; try done.
  destruct l as [|x l]; [done|]. rewrite <- existsb_orb.
  revert IH. generalize (x :: l). induction l0 as [|y l' IHl]; [done|].
  intros [Hy Hl]%Forall_cons. cbn [existsb]. by rewrite Hy, IHl.
Qed.

Lemma crush_false v : crush (fun _ => false) v = false.
Proof.
  induction v as [| | | |l IH|] using Value_ind; cbn [crush]; try done.
  destruct l as [|x l]; [done|].
  revert IH. generalize (x :: l). induction l0 as [|y l' IHl]; [done|].
  intros [Hy Hl]%Forall_cons. cbn [existsb]. by rewrite Hy, IHl.
Qed.

Lemma crush_existsb {A} (f : A -> option Value -> bool) l v :
  crush (fun n => existsb (fun a => f a n) l) v = existsb (fun a => crush (f a) v) l.
Proof.
  induction l as [|a l IH]; cbn [existsb]; [apply crush_false|]. by rewrite crush_orb, IH.
Qed.

(** A pattern without an alternation group at its top level. *)
Definition plain (m : list (string * Value)) : Prop := assoc "$or" m = None.

Lemma assoc_app {A} k (a b : list (string * A)) :
  assoc k (a ++ b) = match assoc k a with Some x => Some x | None => assoc k b end.
Proof. induction a as [|[k' x] a IH]; cbn; [done|]. by destruct (String.eqb k' k). Qed.

Lemma match_here_plain m n :
  plain m -> match_here m n = forallb (fun kv => match_field n kv.1 kv.2) m.
Proof. unfold match_here. intros ->. by rewrite andb_true_r. Qed.

Lemma match_object_leaf m n : is_array n = false -> match_object m n = match_here m n.
Proof. rewrite match_object_eq. by destruct n as [[]|]. Qed.

(** Theorem (equivalence) [$or] distributes: a pattern with an alternation group
    matches an event exactly when, for one of the alternatives, the pattern
    with the group replaced by that alternative's fields does. This holds
    through array-valued events too, where the siblings and the chosen
    alternative must be satisfied by the same element. *)
Theorem or_distributes (siblings : list (string * Value))
  (alternatives : list (list (string * Value))) (event : Value)
  (Hs : plain siblings) (Ha : Forall plain alternatives) :
  matches (VObject (("$or"%string, VArray (VObject <$> alternatives)) :: siblings)) event
  = existsb (fun a => matches (VObject (siblings ++ a)) event) alternatives.
Proof.
  unfold matches. rewrite match_object_here. cbn [at_node].
  transitivity (crush (fun n => existsb (fun a => match_here (siblings ++ a) n) alternatives) event).
  - apply crush_ext_leaf. intros n Hn. unfold match_here at 1.
    cbn [forallb fst snd assoc]. change (String.eqb "$or" "$or") with true.
    change (match_field n "$or" _) with true. cbn [andb].
    induction Ha as [|a l Hp _ IH]; cbn [fmap list_fmap existsb]; [apply andb_false_r|].
    rewrite <- IH, andb_orb_distrib_r. f_equal.
    rewrite match_here_plain by (unfold plain in *; rewrite assoc_app, Hs; done).
    rewrite forallb_app. f_equal. cbn [match_alternative].
    by rewrite match_object_leaf, match_here_plain.
  - rewrite crush_existsb. clear Ha. induction alternatives as [|a l IH]; [done|].
    cbn [existsb]. by rewrite IH, match_object_here.
Qed.

Lemma or_distributes_witness :
  matches (VObject [("$or", VArray [VObject [("a", VArray [VString "x"])];
                                    VObject [("b", VArray [VString "y"])]]);
                    ("c", VArray [VString "z"])])%string
    (VArray [VObject [("a", VString "x")]; VObject [("b", VString "y"); ("c", VString "z")]])%string
  = true.
Proof.
  etransitivity;
    [apply (or_distributes [("c", VArray [VString "z"])]%string
              [[("a", VArray [VString "x"])]; [("b", VArray [VString "y"])]]%string)|reflexivity].
  - reflexivity.
  - repeat constructor.
Defined.

(** ** Normalization *)

(** Every alternation group is a list of objects. *)
Fixpoint or_ok (p : Value) : bool :=
  match p with
  | VObject m =>
      forallb (fun kv : string * Value =>
        match kv.2 with
        | VObject _ => negb (String.eqb kv.1 "$or") && or_ok kv.2
        | VArray alts =>
            if String.eqb kv.1 "$or"
            then forallb (fun a => match a with VObject _ => or_ok a | _ => false end) alts
            else true
        | _ => negb (String.eqb kv.1 "$or")
        end) m
  | _ => false
  end.

Lemma normalize_valid_id p : is_valid_structure p = true -> normalize_scalar_leaves p = p.
Proof. intros Hv. destruct p; try done. cbn [normalize_scalar_leaves]. by rewrite Hv. Qed.

Lemma normalize_object m : exists m', normalize_scalar_leaves (VObject m) = VObject m'.
Proof. cbn [normalize_scalar_leaves]. destruct (is_valid_structure _); eauto. Qed.

Lemma forallb_Forall {A} (f : A -> bool) l : forallb f l = true <-> Forall (fun x => f x = true) l.
Proof. rewrite forallb_forall, List.Forall_forall. done. Qed.

(** The induction hypothesis also speaks of the elements of an array. *)
Lemma normalize_or_ok_strong p :
  (or_ok p = true -> is_valid_structure (normalize_scalar_leaves p) = true)
  /\ match p with
     | VArray l =>
         Forall (fun a => or_ok a = true -> is_valid_structure (normalize_scalar_leaves a) = true) l
     | _ => True
     end.
Proof.
  induction p as [| | | |l IH|m IH] using Value_ind; try done.
  { split; [done|]. eapply Forall_impl; [exact IH|]. by intros a [Ha _]. }
  split; [|done]. intros Hok.
  cbn [normalize_scalar_leaves]. destruct (is_valid_structure (VObject m)) eqn:Ev; [done|].
  clear Ev. cbn [is_valid_structure or_ok] in *.
  rewrite forallb_Forall in *. apply Forall_map.
  eapply Forall_impl; [apply Forall_and; split; [exact IH|exact Hok]|]. clear IH Hok m.
  intros [k v] [[IHv IHl] Hv]. cbn [fst snd compose] in *.
  destruct v as [|b|n|s|alts|o]; try (by apply negb_true_iff in Hv as ->).
  - destruct (String.eqb k "$or"); [|done]. rewrite forallb_Forall in *. apply Forall_map.
    eapply Forall_impl; [apply Forall_and; split; [exact IHl|exact Hv]|].
    intros a [Ha Hoa]. cbn [compose] in *. destruct a as [| | | | |o]; try done.
    destruct (normalize_object o) as [m' Hm']. rewrite Hm' in *. by apply Ha.
  - apply andb_true_iff in Hv as [Hk Hv]. apply negb_true_iff in Hk.
    destruct (is_operator_object o && negb (is_valid_structure (VObject o))); [by rewrite Hk|].
    destruct (normalize_object o) as [m' Hm']. rewrite Hm' in *. by apply IHv.
Qed.

(** Theorem (type) Normalization repairs legacy patterns: a pattern whose
    alternation groups are lists of objects becomes structurally valid, and a
    valid pattern is returned unchanged, so normalizing twice is normalizing
    once. *)
Theorem normalize_repairs (p : Value) (Hor : or_ok p = true) :
  is_valid_structure (normalize_scalar_leaves p) = true
  /\ normalize_scalar_leaves (normalize_scalar_leaves p) = normalize_scalar_leaves p
  /\ (is_valid_structure p = true -> normalize_scalar_leaves p = p).
Proof.
  pose proof (proj1 (normalize_or_ok_strong p) Hor) as Hv.
  split_and!; [done|by apply normalize_valid_id|apply normalize_valid_id].
Qed.

Lemma normalize_repairs_witness :
  let p := VObject [("source", VString "aws.s3");
                    ("detail", VObject [("size", VObject [("prefix", VString "1")])])]%string in
  is_valid_structure p = false /\ is_valid_structure (normalize_scalar_leaves p) = true.
Proof. intros p. split; [reflexivity|]. apply (normalize_repairs p). reflexivity. Defined.
