(* ===== verification/BodyCache.v ===== *)
(** * The object-body cache

    [fakecloud-persistence/src/cache.rs]: a byte-bounded LRU cache of S3
    object bodies.  The entries are nodes of a doubly linked list whose links
    are indices into an arena ([Vec<Option<Node>>]), with a free list and a
    hash index.  Every index operation and [unwrap] that could panic returns
    [None]; sizes are [u64], added with wrap-around where the source uses [+]
    and saturating where it says so.  The mutex makes every call atomic, so a
    client sees a sequence of calls. *)

From Stdlib Require Import ZArith Lia Bool String Init.Byte.
From stdpp Require Import base option list strings gmap countable.
From S2P Require Import Prelude.

Module BodyCache.

Definition Bytes : Type := list Byte.byte.

Record BodyKey := mkKey { bucket : string; key : string; version : option string }.

#[global] Instance BodyKey_eq_dec : EqDecision BodyKey.
Proof. solve_decision. Defined.

#[global] Instance BodyKey_countable : Countable BodyKey.
Proof.
  apply (inj_countable' (fun k => (bucket k, key k, version k))
    (fun '(b, k, v) => mkKey b k v)). by intros [].
Defined.

(** ** u64 arithmetic *)

Definition u64_add (a b : Z) : Z := (a + b) mod 2 ^ 64.
Definition saturating_add (a b : Z) : Z := Z.min (a + b) u64_max.
Definition saturating_sub (a b : Z) : Z := Z.max (a - b) 0.

Definition PER_ENTRY_OVERHEAD : Z := 128.

(** ** State *)

Record Node := mkNode {
  n_key : BodyKey;
  n_bytes : Bytes;
  charged : Z;
  prev : option nat;
  next : option nat
}.

Record Inner := mkInner {
  capacity_bytes : Z;
  single_object_cap : Z;
  used_bytes : Z;
  nodes : list (option Node);
  free : list nat;                 (* the top of the stack first *)
  index : gmap BodyKey nat;
  head : option nat;               (* MRU *)
  tail : option nat                (* LRU *)
}.

Definition with_nodes (c : Inner) (ns : list (option Node)) : Inner :=
  mkInner (capacity_bytes c) (single_object_cap c) (used_bytes c) ns (free c) (index c)
    (head c) (tail c).
Definition with_head (c : Inner) (h : option nat) : Inner :=
  mkInner (capacity_bytes c) (single_object_cap c) (used_bytes c) (nodes c) (free c) (index c)
    h (tail c).
Definition with_tail (c : Inner) (t : option nat) : Inner :=
  mkInner (capacity_bytes c) (single_object_cap c) (used_bytes c) (nodes c) (free c) (index c)
    (head c) t.

Definition set_prev (p : option nat) (n : Node) : Node :=
  mkNode (n_key n) (n_bytes n) (charged n) p (next n).
Definition set_next (x : option nat) (n : Node) : Node :=
  mkNode (n_key n) (n_bytes n) (charged n) (prev n) x.

(** [nodes[i].as_ref().unwrap()]. *)
Definition node_at (c : Inner) (i : nat) : option Node := mjoin (nodes c !! i).

(** Mutation through [nodes[i].as_mut().unwrap()]. *)
Definition upd_node (c : Inner) (i : nat) (f : Node -> Node) : option Inner :=
  n ← node_at c i;
  Some (with_nodes c (<[i := Some (f n)]> (nodes c))).

(** ** Operations *)

Definition new (capacity : Z) : Inner :=
  mkInner capacity (capacity / 2) 0 [] [] ∅ None None.

Definition alloc_node (c : Inner) (n : Node) : option (Inner * nat) :=
  match free c with
  | idx :: free' =>
      if decide (idx < length (nodes c)) then
        Some (mkInner (capacity_bytes c) (single_object_cap c) (used_bytes c)
                (<[idx := Some n]> (nodes c)) free' (index c) (head c) (tail c), idx)
      else None
  | [] => Some (with_nodes c (nodes c ++ [Some n]), length (nodes c))
  end.

Definition detach (c : Inner) (idx : nat) : option Inner :=
  n ← node_at c idx;
  c ← match prev n with
      | Some p => upd_node c p (set_next (next n))
      | None => Some (with_head c (next n))
      end;
  c ← match next n with
      | Some x => upd_node c x (set_prev (prev n))
      | None => Some (with_tail c (prev n))
      end;
  upd_node c idx (fun n => set_prev None (set_next None n)).

Definition push_front (c : Inner) (idx : nat) : option Inner :=
  let old_head := head c in
  c ← upd_node c idx (fun n => set_prev None (set_next old_head n));
  c ← match old_head with
      | Some h => upd_node c h (set_prev (Some idx))
      | None => Some c
      end;
  let c := with_head c (Some idx) in
  Some (match tail c with None => with_tail c (Some idx) | Some _ => c end).

Definition remove (c : Inner) (idx : nat) : option (Inner * Node) :=
  c ← detach c idx;
  n ← node_at c idx;
  Some (mkInner (capacity_bytes c) (single_object_cap c)
          (saturating_sub (used_bytes c) (charged n))
          (<[idx := None]> (nodes c)) (idx :: free c) (delete (n_key n) (index c))
          (head c) (tail c), n).

(** The eviction loop; every turn removes a node, so one more turn than there
    are arena slots is enough. *)
Fixpoint evict_loop (fuel : nat) (c : Inner) (incoming : Z) : option Inner :=
  match fuel with
  | 0 => None
  | S fuel' =>
      if (u64_add (used_bytes c) incoming <=? capacity_bytes c)%Z then Some c
      else match tail c with
           | None => Some c
           | Some t => '(c', _) ← remove c t; evict_loop fuel' c' incoming
           end
  end.

Definition evict_until_fits (c : Inner) (incoming : Z) : option Inner :=
  evict_loop (S (length (nodes c))) c incoming.

(** [get]: the outer option is the panic, the inner one a miss. *)
Definition get (c : Inner) (k : BodyKey) : option (Inner * option Bytes) :=
  match index c !! k with
  | None => Some (c, None)
  | Some idx =>
      c ← detach c idx;
      c ← push_front c idx;
      n ← node_at c idx;
      Some (c, Some (n_bytes n))
  end.

Definition invalidate (c : Inner) (k : BodyKey) : option Inner :=
  match index c !! k with
  | Some idx => '(c, _) ← remove c idx; Some c
  | None => Some c
  end.

Definition insert (c : Inner) (k : BodyKey) (b : Bytes) : option Inner :=
  c ← invalidate c k;
  let size := Z.of_nat (length b) in
  let charge := saturating_add size PER_ENTRY_OVERHEAD in
  if (single_object_cap c <? size)%Z || (capacity_bytes c <? charge)%Z then Some c
  else
    c ← evict_until_fits c charge;
    let c := mkInner (capacity_bytes c) (single_object_cap c) (u64_add (used_bytes c) charge)
               (nodes c) (free c) (index c) (head c) (tail c) in
    '(c, idx) ← alloc_node c (mkNode k b charge None None);
    let c := mkInner (capacity_bytes c) (single_object_cap c) (used_bytes c)
               (nodes c) (free c) (<[k := idx]> (index c)) (head c) (tail c) in
    push_front c idx.

(** ** The abstract cache: a list of entries, most recently used first *)

Definition Entry : Type := BodyKey * Bytes.

Definition charge_of (b : Bytes) : Z := Z.of_nat (length b) + PER_ENTRY_OVERHEAD.

Definition total (l : list Entry) : Z := foldr (fun e acc => charge_of e.2 + acc)%Z 0%Z l.

Definition spec_remove (k : BodyKey) (l : list Entry) : list Entry :=
  filter (fun e => e.1 <> k) l.

Fixpoint spec_find (k : BodyKey) (l : list Entry) : option Bytes :=
  match l with
  | [] => None
  | (k', b) :: l' => if decide (k' = k) then Some b else spec_find k l'
  end.

(** Keep the longest prefix (the most recently used entries) of total size at
    most [room]. *)
Fixpoint spec_keep (room : Z) (l : list Entry) : list Entry :=
  match l with
  | [] => []
  | e :: l' =>
      if (charge_of e.2 <=? room)%Z then e :: spec_keep (room - charge_of e.2) l' else []
  end.

Definition spec_get (k : BodyKey) (l : list Entry) : list Entry * option Bytes :=
  match spec_find k l with
  | Some b => ((k, b) :: spec_remove k l, Some b)
  | None => (l, None)
  end.

Definition spec_insert (capacity : Z) (k : BodyKey) (b : Bytes) (l : list Entry) : list Entry :=
  let l := spec_remove k l in
  if (capacity / 2 <? Z.of_nat (length b))%Z || (capacity <? charge_of b)%Z then l
  else (k, b) :: spec_keep (capacity - charge_of b) l.

End BodyCache.
