(* ===== verification/BodyCacheTheory.v ===== *)
(** * The body cache refines an LRU list

    The representation invariant ties the arena, its links, the free list and
    the hash index to a list of entries, most recently used first; every
    operation preserves it, never panics, and acts on the list as the
    abstract cache of [BodyCache] does. *)

From Stdlib Require Import ZArith Lia Bool String Init.Byte.
From stdpp Require Import base option list strings gmap.
From S2P Require Import Prelude BodyCache.

Module BodyCacheTheory.
Import BodyCache.

(** ** Linked segments of the arena *)

(** An entry with the arena slot that holds it. *)
Definition Slot : Type := nat * Entry.

Definition first_of (l : list Slot) (x : option nat) : option nat :=
  match l with [] => x | s :: _ => Some s.1 end.

Fixpoint last_of (p : option nat) (l : list Slot) : option nat :=
  match l with [] => p | s :: l' => last_of (Some s.1) l' end.

(** The slots of [l] hold its entries and are linked to each other, the first
    one back to [p] and the last one forward to [x]. *)
Fixpoint seg (ns : list (option Node)) (p : option nat) (l : list Slot) (x : option nat)
  : Prop :=
  match l with
  | [] => True
  | (i, (k, b)) :: l' =>
      ns !! i = Some (Some (mkNode k b (charge_of b) p (first_of l' x)))
      /\ seg ns (Some i) l' x
  end.

Lemma first_of_app l1 l2 x : first_of (l1 ++ l2) x = first_of l1 (first_of l2 x).
Proof. by destruct l1. Qed.

Lemma last_of_app p l1 l2 : last_of p (l1 ++ l2) = last_of (last_of p l1) l2.
Proof. revert p. induction l1 as [|s l1 IH]; intros p; simpl; [done|]. apply IH. Qed.

Lemma seg_app ns p l1 l2 x :
  seg ns p (l1 ++ l2) x <-> seg ns p l1 (first_of l2 x) /\ seg ns (last_of p l1) l2 x.
Proof.
  revert p. induction l1 as [|[i [k b]] l1 IH]; intros p; simpl; [tauto|].
  rewrite first_of_app, IH. tauto.
Qed.

Lemma seg_frame ns ns' p l x :
  (forall j, j ∈ l.*1 -> ns' !! j = ns !! j) -> seg ns p l x -> seg ns' p l x.
Proof.
  revert p. induction l as [|[i [k b]] l IH]; intros p Hfr; simpl; [done|].
  intros [Hi Hl]. split; [rewrite Hfr; [done|left]|].
  apply IH; [|done]. intros j Hj. apply Hfr. by right.
Qed.

(** Fields other than the links, and which slots are vacant, are kept. *)
Record same (c c' : Inner) : Prop := {
  same_cap : capacity_bytes c' = capacity_bytes c;
  same_single : single_object_cap c' = single_object_cap c;
  same_used : used_bytes c' = used_bytes c;
  same_free : free c' = free c;
  same_index : index c' = index c;
  same_length : length (nodes c') = length (nodes c);
  same_vacant : forall j, nodes c' !! j = Some None <-> nodes c !! j = Some None
}.

#[global] Instance same_refl : Reflexive same.
Proof. intros c. by split. Qed.

#[global] Instance same_trans : Transitive same.
Proof.
  intros a b c [] []. split; try congruence. intros j. etransitivity; eauto.
Qed.

Lemma upd_node_spec c i f n :
  nodes c !! i = Some (Some n) ->
  upd_node c i f = Some (with_nodes c (<[i := Some (f n)]> (nodes c)))
  /\ same c (with_nodes c (<[i := Some (f n)]> (nodes c))).
Proof.
  intros Hi. unfold upd_node, node_at. rewrite Hi. split; [done|]. split; try done; simpl.
  - apply length_insert.
  - intros j. destruct (decide (i = j)) as [<-|Hne].
    + rewrite list_lookup_insert_eq by (by eapply lookup_lt_Some). rewrite Hi. done.
    + by rewrite list_lookup_insert_ne.
Qed.

Lemma insert_frame (ns : list (option Node)) i v (l : list nat) :
  i ∉ l -> forall j, j ∈ l -> <[i := v]> ns !! j = ns !! j.
Proof. intros Hi j Hj. apply list_lookup_insert_ne. by intros ->. Qed.

(** Redirecting the forward link of the last slot (or the head pointer). *)
Lemma relink_next c l x y :
  seg (nodes c) None l x -> NoDup l.*1 -> head c = first_of l x ->
  exists c', match last_of None l with
             | Some p => upd_node c p (set_next y)
             | None => Some (with_head c y)
             end = Some c'
  /\ seg (nodes c') None l y /\ head c' = first_of l y /\ tail c' = tail c /\ same c c'
  /\ forall j, j ∉ l.*1 -> nodes c' !! j = nodes c !! j.
Proof.
  destruct l as [|[i [k b]] l _] using rev_ind.
  { intros _ _ Hh. simpl. eexists. split; [done|]. split_and!; try done. }
  rewrite last_of_app, fmap_app, NoDup_app. cbn [last_of fst].
  intros Hs (Hnd & Hni & _) Hh. apply seg_app in Hs as [Hs1 [Hi _]]. cbn [first_of] in *.
  destruct (upd_node_spec c i (set_next y) _ Hi) as [-> Hsame].
  eexists. split; [done|]. cbn [with_nodes nodes head tail].
  split_and!; [| |done|done|].
  - apply seg_app. cbn [first_of fst]. split.
    + eapply seg_frame; [|done]. apply insert_frame. intros Hin. apply (Hni i Hin). left.
    + split; [|done]. by rewrite list_lookup_insert_eq by (by eapply lookup_lt_Some).
  - rewrite Hh, !first_of_app. by destruct l.
  - intros j Hj. apply list_lookup_insert_ne. intros ->. apply Hj.
    apply elem_of_app. right. left.
Qed.

(** Redirecting the backward link of the first slot (or the tail pointer). *)
Lemma relink_prev c l p q :
  seg (nodes c) p l None -> NoDup l.*1 -> tail c = last_of p l ->
  exists c', match first_of l None with
             | Some x => upd_node c x (set_prev q)
             | None => Some (with_tail c q)
             end = Some c'
  /\ seg (nodes c') q l None /\ tail c' = last_of q l /\ head c' = head c /\ same c c'
  /\ forall j, j ∉ l.*1 -> nodes c' !! j = nodes c !! j.
Proof.
  destruct l as [|[i [k b]] l].
  { intros _ _ Hh. simpl. eexists. split; [done|]. split_and!; try done. }
  intros [Hi Hs] [Hni Hnd]%NoDup_cons Ht. cbn [first_of fst].
  destruct (upd_node_spec c i (set_prev q) _ Hi) as [-> Hsame].
  eexists. split; [done|]. cbn [with_nodes nodes head tail].
  split_and!; [|done|done|done|].
  - split; [by rewrite list_lookup_insert_eq by (by eapply lookup_lt_Some)|].
    eapply seg_frame; [|done]. by apply insert_frame.
  - intros j Hj. apply list_lookup_insert_ne. intros ->. apply Hj. left.
Qed.

(** The list of slots threaded through the arena from [head] to [tail]. *)
Record linked (c : Inner) (l : list Slot) : Prop := {
  linked_seg : seg (nodes c) None l None;
  linked_head : head c = first_of l None;
  linked_tail : tail c = last_of None l;
  linked_nodup : NoDup l.*1
}.

Lemma detach_spec c l1 i k b l2 :
  linked c (l1 ++ (i, (k, b)) :: l2) ->
  exists c', detach c i = Some c' /\ linked c' (l1 ++ l2) /\ same c c'
  /\ nodes c' !! i = Some (Some (mkNode k b (charge_of b) None None)).
Proof.
  intros [Hs Hh Ht Hnd].
  rewrite fmap_app, fmap_cons in Hnd. cbn [fst] in Hnd.
  apply NoDup_app in Hnd as (Hnd1 & Hdis & [Hi2 Hnd2]%NoDup_cons).
  assert (Hi1 : i ∉ l1.*1) by (intros Hin; apply (Hdis i Hin); left).
  apply seg_app in Hs as [Hs1 [Hi Hs2]]. cbn [first_of fst] in Hs1.
  rewrite first_of_app in Hh. rewrite last_of_app in Ht. cbn [first_of last_of fst] in Hh, Ht.
  unfold detach, node_at. rewrite Hi. cbn [mjoin option_join mbind option_bind prev next].
  destruct (relink_next c l1 (Some i) (first_of l2 None)) as
    (c1 & -> & Hs1' & Hh1 & Ht1 & Hsame1 & Hfr1); [done..|]. cbn [mbind option_bind].
  assert (Hs2' : seg (nodes c1) (Some i) l2 None).
  { eapply seg_frame; [|done]. intros j Hj. apply Hfr1. intros Hj1. apply (Hdis j Hj1). by right. }
  destruct (relink_prev c1 l2 (Some i) (last_of None l1)) as
    (c2 & -> & Hs2'' & Ht2 & Hh2 & Hsame2 & Hfr2); [done|done|by rewrite Ht1|].
  cbn [mbind option_bind].
  assert (Hi' : nodes c2 !! i = Some (Some (mkNode k b (charge_of b) (last_of None l1)
    (first_of l2 None)))) by (by rewrite Hfr2, Hfr1).
  destruct (upd_node_spec c2 i (fun n => set_prev None (set_next None n)) _ Hi') as [-> Hsame3].
  eexists. split; [done|]. split_and!.
  - split; cbn [with_nodes nodes head tail].
    + apply seg_app. split; (eapply seg_frame; [by apply insert_frame|]); [|done].
      eapply seg_frame; [|exact Hs1']. intros j Hj. apply Hfr2. intros Hj2.
      apply (Hdis j Hj). by right.
    + by rewrite Hh2, Hh1, first_of_app.
    + by rewrite Ht2, last_of_app.
    + rewrite fmap_app. apply NoDup_app. split_and!; [done| |done].
      intros j Hj Hj2. apply (Hdis j Hj). by right.
  - by do 2 (etransitivity; [eassumption|]).
  - cbn [with_nodes nodes]. by rewrite list_lookup_insert_eq by (by eapply lookup_lt_Some).
Qed.

Lemma push_front_spec c l i k b p x :
  linked c l -> i ∉ l.*1 -> nodes c !! i = Some (Some (mkNode k b (charge_of b) p x)) ->
  exists c', push_front c i = Some c' /\ linked c' ((i, (k, b)) :: l) /\ same c c'
  /\ exists p' x', nodes c' !! i = Some (Some (mkNode k b (charge_of b) p' x')).
Proof.
  intros [Hs Hh Ht Hnd] Hni Hi. unfold push_front.
  destruct (upd_node_spec c i (fun n => set_prev None (set_next (head c) n)) _ Hi) as [-> Hsame1].
  cbn [mbind option_bind]. set (c1 := with_nodes c _) in *.
  assert (Hs1 : seg (nodes c1) None l None)
    by (eapply seg_frame; [by apply insert_frame|done]).
  assert (Hi1 : nodes c1 !! i = Some (Some (mkNode k b (charge_of b) None (head c)))).
  { unfold c1. cbn [with_nodes nodes]. by rewrite list_lookup_insert_eq by (by eapply lookup_lt_Some). }
  assert (Hh1 : head c1 = head c) by done. assert (Ht1 : tail c1 = tail c) by done.
  clearbody c1. rewrite Hh. destruct l as [|[j [k' b']] l].
  - cbn [first_of mbind option_bind]. eexists. split; [done|].
    cbn [with_head tail]. rewrite Ht1, Ht. cbn [last_of]. split_and!.
    + split; cbn [with_tail with_head nodes head tail].
      * split; [by rewrite Hi1, Hh|done].
      * done.
      * done.
      * by apply NoDup_singleton.
    + etransitivity; [done|]. by split.
    + eauto.
  - cbn [first_of fst]. destruct Hs1 as [Hj Hs1].
    destruct (upd_node_spec c1 j (set_prev (Some i)) _ Hj) as [-> Hsame2].
    cbn [mbind option_bind]. set (c2 := with_nodes c1 _) in *.
    assert (Hne : j <> i) by (intros ->; apply Hni; left).
    assert (Hi2 : nodes c2 !! i = Some (Some (mkNode k b (charge_of b) None (head c))))
      by (unfold c2; cbn [with_nodes nodes]; by rewrite list_lookup_insert_ne).
    assert (Htl : tail (with_head c2 (Some i)) = last_of (Some j) l)
      by (cbn; by rewrite Ht1, Ht).
    assert (Hsome : exists t, last_of (Some j) l = Some t).
    { clear. revert j. induction l as [|s l IH]; intros j; [by exists j|]. apply IH. }
    destruct Hsome as [t Hsome]. rewrite Htl, Hsome. eexists. split; [done|]. split_and!.
    + split; cbn [with_head nodes head tail].
      * split; [by rewrite Hi2, Hh|]. split.
        -- unfold c2. cbn [with_nodes nodes].
           by rewrite list_lookup_insert_eq by (by eapply lookup_lt_Some).
        -- apply NoDup_cons in Hnd as [Hnj _]. eapply seg_frame; [by apply insert_frame|done].
      * done.
      * cbn [last_of fst]. by rewrite <- Htl.
      * by apply NoDup_cons.
    + etransitivity; [done|]. etransitivity; [done|]. by split.
    + eauto.
Qed.

(** ** The representation invariant *)

Definition entries (l : list Slot) : list Entry := snd <$> l.
Definition keys (l : list Slot) : list BodyKey := (fun s => s.2.1) <$> l.

Record rep (c : Inner) (l : list Slot) : Prop := {
  rep_linked : linked c l;
  rep_keys : NoDup (keys l);
  rep_index : forall k i, index c !! k = Some i <-> exists b, (i, (k, b)) ∈ l;
  rep_free : NoDup (free c);
  rep_vacant : forall i, i ∈ free c <-> nodes c !! i = Some None;
  rep_live : forall i, i < length (nodes c) -> nodes c !! i <> Some None -> i ∈ l.*1;
  rep_used : used_bytes c = total (entries l);
  rep_single : single_object_cap c = (capacity_bytes c / 2)%Z;
  rep_bound : (total (entries l) <= capacity_bytes c < 2 ^ 63)%Z
}.

Lemma charge_pos b : (0 < charge_of b)%Z.
Proof. unfold charge_of, PER_ENTRY_OVERHEAD. lia. Qed.

Lemma total_nonneg l : (0 <= total l)%Z.
Proof. induction l as [|[k b] l IH]; simpl; [done|]. pose proof (charge_pos b). lia. Qed.

Lemma total_app l1 l2 : total (l1 ++ l2) = (total l1 + total l2)%Z.
Proof. induction l1 as [|[k b] l1 IH]; simpl; [done|]. rewrite IH. lia. Qed.

Lemma saturating_sub_mid a b ch :
  (0 <= a)%Z -> (0 <= b)%Z -> saturating_sub (a + (ch + b)) ch = (a + b)%Z.
Proof. unfold saturating_sub. lia. Qed.

Lemma rep_new capacity : (0 <= capacity < 2 ^ 63)%Z -> rep (new capacity) [].
Proof.
  intros Hc. split; simpl; try done.
  - split; try done. constructor.
  - constructor.
  - intros k i. rewrite lookup_empty. split; [done|]. by intros (b & ?%elem_of_nil).
  - constructor.
  - intros i. rewrite elem_of_nil, lookup_nil. done.
  - intros i Hi. simpl in Hi. lia.
Qed.

Lemma keys_app l1 l2 : keys (l1 ++ l2) = keys l1 ++ keys l2.
Proof. apply fmap_app. Qed.

Lemma elem_of_keys l i k b : (i, (k, b)) ∈ l -> k ∈ keys l.
Proof. intros Hin. apply list_elem_of_fmap. by exists (i, (k, b)). Qed.

Lemma remove_spec c l1 i k b l2 :
  rep c (l1 ++ (i, (k, b)) :: l2) ->
  exists c' n, remove c i = Some (c', n) /\ rep c' (l1 ++ l2)
  /\ capacity_bytes c' = capacity_bytes c /\ length (nodes c') = length (nodes c).
Proof.
  intros [Hl Hk Hidx Hf Hv Hlive Hu Hs Hb]. unfold remove.
  destruct (detach_spec c l1 i k b l2 Hl) as (c1 & -> & Hl1 & [] & Hi).
  cbn [mbind option_bind]. unfold node_at. rewrite Hi. cbn [mjoin option_join mbind option_bind].
  eexists _, _. split; [done|]. cbn [n_key charged].
  unfold entries in Hu. rewrite fmap_app, fmap_cons, total_app in Hu. simpl in Hu.
  rewrite keys_app in Hk. apply NoDup_app in Hk as (Hk1 & Hkd & [Hk2 Hk3]%NoDup_cons).
  pose proof (linked_nodup _ _ Hl) as Hnd. rewrite fmap_app, fmap_cons in Hnd.
  apply NoDup_app in Hnd as (_ & Hd & [Hi2 _]%NoDup_cons). simpl in Hd, Hi2.
  assert (Hi1 : i ∉ l1.*1) by (intros Hin; apply (Hd i Hin); left).
  assert (Hi12 : i ∉ (l1 ++ l2).*1) by (rewrite fmap_app, elem_of_app; tauto).
  split; [|by cbn; rewrite length_insert]. split; cbn.
  - destruct Hl1 as [Hs1 Hh1 Ht1 Hn1]. split; try done.
    eapply seg_frame; [by apply insert_frame|done].
  - rewrite keys_app. apply NoDup_app. split_and!; [done| |done].
    intros k' Hk' Hk2'. apply (Hkd k' Hk'). by right.
  - intros k' i'. rewrite lookup_delete_Some, same_index0, Hidx. split.
    + intros (Hne & b' & Hin). exists b'. rewrite elem_of_app, elem_of_cons in *.
      destruct Hin as [?|[?|?]]; [tauto|congruence|tauto].
    + intros (b' & Hin). split.
      * intros <-. apply elem_of_app in Hin as [Hin|Hin].
        -- apply (Hkd k); [by eapply elem_of_keys|left].
        -- apply Hk2. by eapply elem_of_keys.
      * exists b'. rewrite elem_of_app, elem_of_cons in *. tauto.
  - rewrite same_free0. apply NoDup_cons. split; [|done]. rewrite Hv.
    rewrite <- same_vacant0, Hi. done.
  - intros j. rewrite elem_of_cons, same_free0, Hv, <- same_vacant0.
    destruct (decide (i = j)) as [<-|Hne].
    + rewrite list_lookup_insert_eq by (by eapply lookup_lt_Some). tauto.
    + rewrite list_lookup_insert_ne by done. split; [intros [?|?]; congruence|tauto].
  - intros j. rewrite length_insert. intros Hj Hvac. destruct (decide (i = j)) as [<-|Hne].
    + rewrite list_lookup_insert_eq in Hvac by (by eapply lookup_lt_Some). done.
    + rewrite list_lookup_insert_ne in Hvac by done.
      specialize (Hlive j). rewrite fmap_app, fmap_cons, elem_of_app, elem_of_cons in Hlive.
      rewrite fmap_app, elem_of_app. rewrite same_vacant0 in Hvac.
      rewrite same_length0 in Hj. specialize (Hlive Hj Hvac). simpl in Hlive.
      destruct Hlive as [?|[?|?]]; [by left|congruence|by right].
  - rewrite same_used0, Hu. unfold entries. rewrite fmap_app, total_app.
    apply saturating_sub_mid; apply total_nonneg.
  - by rewrite same_single0, same_cap0.
  - unfold entries in *. rewrite fmap_app, fmap_cons, total_app in Hb. simpl in Hb.
    rewrite fmap_app, total_app, same_cap0. pose proof (charge_pos b). lia.
Qed.

(** Relinking the same entries in another order. *)
Lemma rep_relink c c' l l' :
  rep c l -> same c c' -> linked c' l' -> l' ≡ₚ l -> rep c' l'.
Proof.
  intros [Hl Hk Hidx Hf Hv Hlive Hu Hs Hb] [] Hl' Hp.
  assert (Htot : total (entries l') = total (entries l)).
  { clear -Hp. induction Hp; simpl in *; try lia; congruence. }
  split; try done.
  - unfold keys. by rewrite Hp.
  - intros k i. rewrite same_index0, Hidx. by setoid_rewrite Hp.
  - by rewrite same_free0.
  - intros i. by rewrite same_free0, Hv, same_vacant0.
  - intros i. rewrite same_length0, same_vacant0, Hp. apply Hlive.
  - by rewrite same_used0, Hu, Htot.
  - by rewrite same_single0, same_cap0.
  - by rewrite Htot, same_cap0.
Qed.

(** ** The abstract operations on the represented list *)

Lemma spec_remove_notin k l : k ∉ keys l -> spec_remove k (entries l) = entries l.
Proof.
  induction l as [|[i [k' b]] l IH]; [done|]. intros [Hne Hl]%not_elem_of_cons. cbn in Hne.
  change (entries ((i, (k', b)) :: l)) with ((k', b) :: entries l).
  unfold spec_remove in *. rewrite filter_cons_True by (cbn; congruence). f_equal. by apply IH.
Qed.

Lemma spec_remove_mid k i b l1 l2 :
  NoDup (keys (l1 ++ (i, (k, b)) :: l2)) ->
  spec_remove k (entries (l1 ++ (i, (k, b)) :: l2)) = entries (l1 ++ l2).
Proof.
  rewrite keys_app. intros (Hn1 & Hd & [Hk2 _]%NoDup_cons)%NoDup_app.
  assert (Hk1 : k ∉ keys l1) by (intros Hin; apply (Hd k Hin); left).
  unfold entries. rewrite !fmap_app. unfold spec_remove. rewrite filter_app. f_equal.
  - by apply spec_remove_notin.
  - rewrite fmap_cons, filter_cons_False by (cbn; tauto). by apply spec_remove_notin.
Qed.

Lemma spec_find_notin k l : k ∉ keys l -> spec_find k (entries l) = None.
Proof.
  induction l as [|[i [k' b]] l IH]; [done|]. cbn. rewrite not_elem_of_cons. intros [Hne Hl].
  case_decide; [congruence|]. by apply IH.
Qed.

Lemma spec_find_mid k i b l1 l2 :
  NoDup (keys (l1 ++ (i, (k, b)) :: l2)) ->
  spec_find k (entries (l1 ++ (i, (k, b)) :: l2)) = Some b.
Proof.
  induction l1 as [|[j [k' b']] l1 IH]; cbn; [by case_decide|].
  intros [Hni Hnd]%NoDup_cons. case_decide as Hk; [|by apply IH].
  subst k'. exfalso. apply Hni. apply (elem_of_keys _ i k b), elem_of_app. right. left.
Qed.

Lemma spec_keep_all room l : (total l <= room)%Z -> spec_keep room l = l.
Proof.
  revert room. induction l as [|[k b] l IH]; intros room Hr; simpl in *; [done|].
  pose proof (total_nonneg l). rewrite (proj2 (Z.leb_le _ _)) by lia. f_equal. apply IH. lia.
Qed.

Lemma spec_keep_drop room l e :
  (room < total (l ++ [e]))%Z -> spec_keep room (l ++ [e]) = spec_keep room l.
Proof.
  revert room. induction l as [|[k b] l IH]; intros room Hr; simpl in *.
  - rewrite (proj2 (Z.leb_gt _ _)); [done|lia].
  - destruct (Z.leb_spec (charge_of b) room); [|done]. f_equal. apply IH. lia.
Qed.

Lemma spec_keep_total room l : (0 <= room)%Z -> (total (spec_keep room l) <= room)%Z.
Proof.
  revert room. induction l as [|[k b] l IH]; intros room Hr; simpl; [done|].
  destruct (Z.leb_spec (charge_of b) room); simpl; [|done].
  specialize (IH (room - charge_of b)%Z). lia.
Qed.

Lemma spec_keep_keys room l k :
  k ∉ (fst <$> l) -> k ∉ (fst <$> spec_keep room l).
Proof.
  revert room. induction l as [|[k' b] l IH]; intros room; simpl; [done|].
  rewrite not_elem_of_cons. intros [Hne Hl]. destruct (Z.leb _ _); simpl; [|apply not_elem_of_nil].
  apply not_elem_of_cons. split; [done|by apply IH].
Qed.

(** ** Evictions *)

Lemma seg_lt ns p l x i : seg ns p l x -> i ∈ l.*1 -> i < length ns.
Proof.
  revert p. induction l as [|[j [k b]] l IH]; intros p; [by intros _ ?%elem_of_nil|].
  intros [Hj Hs]. rewrite fmap_cons, elem_of_cons. intros [->|Hi]; [by eapply lookup_lt_Some|].
  by eapply IH.
Qed.

Lemma linked_length c l : linked c l -> length l <= length (nodes c).
Proof.
  intros [Hs _ _ Hnd].
  assert (Hsub : l.*1 ⊆+ seq 0 (length (nodes c))).
  { apply NoDup_submseteq; [done|]. intros i Hi. apply elem_of_seq.
    split; [lia|]. by eapply seg_lt. }
  apply submseteq_length in Hsub. by rewrite length_fmap, length_seq in Hsub.
Qed.

Lemma fits_no_overflow u ch cap :
  (0 <= u <= cap)%Z -> (0 <= ch <= cap)%Z -> (cap < 2 ^ 63)%Z -> u64_add u ch = (u + ch)%Z.
Proof. intros. unfold u64_add. apply Z.mod_small. lia. Qed.

Lemma evict_spec fuel c l ch :
  rep c l -> (0 <= ch <= capacity_bytes c)%Z -> length l < fuel ->
  exists c' l', evict_loop fuel c ch = Some c' /\ rep c' l'
  /\ entries l' = spec_keep (capacity_bytes c - ch) (entries l)
  /\ capacity_bytes c' = capacity_bytes c.
Proof.
  revert c l. induction fuel as [|fuel IH]; intros c l Hr Hch Hf; [lia|]. cbn [evict_loop].
  pose proof (rep_bound _ _ Hr) as Hb. pose proof (total_nonneg (entries l)) as Hnn.
  rewrite (rep_used _ _ Hr), (fits_no_overflow _ _ (capacity_bytes c)) by lia.
  destruct (Z.leb_spec (total (entries l) + ch) (capacity_bytes c)).
  { exists c, l. split_and!; try done. symmetry. apply spec_keep_all. lia. }
  destruct l as [|[i [k b]] l _] using rev_ind; [simpl in *; lia|].
  rewrite (linked_tail _ _ (rep_linked _ _ Hr)), last_of_app. cbn [last_of fst].
  destruct (remove_spec c l i k b [] Hr) as (c1 & n & -> & Hr1 & Hcap & _).
  rewrite app_nil_r in Hr1. cbn [mbind option_bind].
  rewrite length_app in Hf. cbn in Hf.
  destruct (IH c1 l Hr1) as (c2 & l' & -> & Hr2 & He & Hcap2); [by rewrite Hcap|lia|].
  exists c2, l'. split_and!; [done|done| |congruence].
  rewrite He, Hcap. unfold entries. rewrite fmap_app. symmetry. apply spec_keep_drop.
  unfold entries in *. rewrite fmap_app in *. cbn in *. lia.
Qed.

(** ** The operations *)

Lemma rep_split c l k i :
  rep c l -> index c !! k = Some i -> exists l1 b l2, l = l1 ++ (i, (k, b)) :: l2.
Proof.
  intros Hr Hi. apply (rep_index _ _ Hr) in Hi as [b Hin].
  apply list_elem_of_split in Hin as (l1 & l2 & ->). by exists l1, b, l2.
Qed.

Lemma rep_missing c l k : rep c l -> index c !! k = None -> k ∉ keys l.
Proof.
  intros Hr Hi Hin. apply list_elem_of_fmap in Hin as ([i [k' b]] & -> & Hin). cbn in Hi.
  assert (index c !! k' = Some i) by (apply (rep_index _ _ Hr); eauto). congruence.
Qed.

Lemma get_spec c l k :
  rep c l ->
  exists c' l', get c k = Some (c', (spec_get k (entries l)).2) /\ rep c' l'
  /\ entries l' = (spec_get k (entries l)).1 /\ capacity_bytes c' = capacity_bytes c.
Proof.
  intros Hr. unfold get, spec_get. destruct (index c !! k) as [i|] eqn:Ei.
  - destruct (rep_split _ _ _ _ Hr Ei) as (l1 & b & l2 & ->).
    destruct (detach_spec _ _ _ _ _ _ (rep_linked _ _ Hr)) as (c1 & -> & Hl1 & Hs1 & Hi1).
    pose proof (linked_nodup _ _ (rep_linked _ _ Hr)) as Hnd.
    rewrite fmap_app, fmap_cons in Hnd. apply NoDup_app in Hnd as (_ & Hd & [Hi2 _]%NoDup_cons).
    assert (Hni : i ∉ (l1 ++ l2).*1).
    { rewrite fmap_app, elem_of_app. intros [Hin|?]; [|done]. apply (Hd i Hin). left. }
    cbn [mbind option_bind].
    destruct (push_front_spec _ _ _ _ _ _ _ Hl1 Hni Hi1) as (c2 & -> & Hl2 & Hs2 & p & x & Hi').
    cbn [mbind option_bind]. unfold node_at. rewrite Hi'. cbn [mjoin option_join mbind option_bind].
    rewrite spec_find_mid, spec_remove_mid by apply (rep_keys _ _ Hr).
    exists c2, ((i, (k, b)) :: l1 ++ l2). split_and!; [done| |done|].
    + eapply rep_relink; [done| |done|].
      * by etransitivity.
      * apply Permutation_middle.
    + rewrite (same_cap _ _ Hs2), (same_cap _ _ Hs1). done.
  - rewrite spec_find_notin by (by eapply rep_missing). by exists c, l.
Qed.

Lemma invalidate_spec c l k :
  rep c l ->
  exists c' l', invalidate c k = Some c' /\ rep c' l'
  /\ entries l' = spec_remove k (entries l) /\ k ∉ keys l'
  /\ capacity_bytes c' = capacity_bytes c.
Proof.
  intros Hr. unfold invalidate. destruct (index c !! k) as [i|] eqn:Ei.
  - destruct (rep_split _ _ _ _ Hr Ei) as (l1 & b & l2 & ->).
    destruct (remove_spec _ _ _ _ _ _ Hr) as (c1 & n & -> & Hr1 & Hcap & _).
    cbn [mbind option_bind]. exists c1, (l1 ++ l2).
    pose proof (rep_keys _ _ Hr) as Hk. split_and!; try done.
    + by rewrite spec_remove_mid.
    + rewrite keys_app in Hk |- *. apply NoDup_app in Hk as (_ & Hd & [Hk2 _]%NoDup_cons).
      rewrite elem_of_app. intros [Hin|?]; [|done]. apply (Hd k Hin). left.
  - exists c, l. pose proof (rep_missing _ _ _ Hr Ei). split_and!; try done.
    by rewrite spec_remove_notin.
Qed.

(** Placing a node in a vacant or new slot. *)
Lemma alloc_spec c l n :
  rep c l ->
  exists c' i, alloc_node c n = Some (c', i) /\ linked c' l /\ i ∉ l.*1
  /\ nodes c' !! i = Some (Some n) /\ length (nodes c) <= length (nodes c')
  /\ (forall j, j <> i -> j < length (nodes c') -> nodes c' !! j = nodes c !! j
        /\ j < length (nodes c))
  /\ NoDup (free c') /\ (forall j, j ∈ free c' <-> nodes c' !! j = Some None)
  /\ capacity_bytes c' = capacity_bytes c /\ single_object_cap c' = single_object_cap c
  /\ used_bytes c' = used_bytes c /\ index c' = index c.
Proof.
  intros [[Hs Hh Ht Hnd] Hk Hidx Hf Hv Hlive Hu Hsg Hb]. unfold alloc_node.
  destruct (free c) as [|i fr] eqn:Ef.
  - exists (with_nodes c (nodes c ++ [Some n])), (length (nodes c)).
    assert (Hni : length (nodes c) ∉ l.*1).
    { intros Hin. apply (seg_lt _ _ _ _ _ Hs) in Hin. lia. }
    split; [done|]. cbn. split_and!; try done.
    + split; try done. eapply seg_frame; [|done]. intros j Hj. apply lookup_app_l.
      by eapply seg_lt.
    + by rewrite lookup_app_r, Nat.sub_diag by lia.
    + rewrite length_app. lia.
    + intros j Hne. rewrite length_app. cbn. intros Hj. split; [|lia]. apply lookup_app_l. lia.
    + by rewrite Ef.
    + intros j. rewrite Ef. split; [by intros ?%elem_of_nil|]. intros Hj.
      apply lookup_app_Some in Hj as [Hj|[_ Hj]]; [by apply Hv|].
      by destruct (j - length (nodes c)) as [|[]].
  - assert (Hvi : nodes c !! i = Some None) by (apply Hv; left).
    assert (Hlt : i < length (nodes c)) by (by eapply lookup_lt_Some).
    rewrite decide_True by done. apply NoDup_cons in Hf as [Hif Hf].
    assert (Hni : i ∉ l.*1).
    { intros Hin. clear - Hs Hin Hvi. revert Hs. generalize (@None nat) at 1 as p.
      induction l as [|[j [k b]] l IH]; intros p; [by apply elem_of_nil in Hin|].
      intros [Hj Hs]. rewrite fmap_cons, elem_of_cons in Hin.
      destruct Hin as [->|Hin]; [cbn in Hvi; congruence|by eapply IH]. }
    eexists _, i. split; [done|]. cbn. split_and!; try done.
    + split; try done. eapply seg_frame; [by apply insert_frame|done].
    + by rewrite list_lookup_insert_eq.
    + by rewrite length_insert.
    + intros j Hne. rewrite length_insert. intros Hj. split; [|done].
      by apply list_lookup_insert_ne.
    + intros j. destruct (decide (i = j)) as [<-|Hne].
      * rewrite list_lookup_insert_eq by done. done.
      * rewrite list_lookup_insert_ne by done. rewrite <- Hv, elem_of_cons. naive_solver.
Qed.

Lemma charge_saturates b cap :
  (cap < 2 ^ 63)%Z ->
  (cap <? saturating_add (Z.of_nat (length b)) PER_ENTRY_OVERHEAD)%Z = (cap <? charge_of b)%Z
  /\ ((charge_of b <= cap)%Z ->
      saturating_add (Z.of_nat (length b)) PER_ENTRY_OVERHEAD = charge_of b).
Proof.
  intros Hc. unfold saturating_add, charge_of, PER_ENTRY_OVERHEAD, u64_max. split; [|lia].
  destruct (Z.ltb_spec cap (Z.of_nat (length b) + 128));
    [apply Z.ltb_lt; lia|apply Z.ltb_ge; lia].
Qed.

(** The end of [insert]: a new entry at the front. *)
Lemma place_spec c l k b :
  rep c l -> k ∉ keys l -> (total (entries l) + charge_of b <= capacity_bytes c)%Z ->
  exists c',
    (let c := mkInner (capacity_bytes c) (single_object_cap c)
                (u64_add (used_bytes c) (charge_of b)) (nodes c) (free c) (index c)
                (head c) (tail c) in
     '(c, idx) ← alloc_node c (mkNode k b (charge_of b) None None);
     let c := mkInner (capacity_bytes c) (single_object_cap c) (used_bytes c)
                (nodes c) (free c) (<[k := idx]> (index c)) (head c) (tail c) in
     push_front c idx) = Some c'
  /\ exists i, rep c' ((i, (k, b)) :: l) /\ capacity_bytes c' = capacity_bytes c.
Proof.
  intros Hr Hk Hfit. pose proof (total_nonneg (entries l)) as Hnn.
  pose proof (charge_pos b) as Hpos. pose proof (rep_bound _ _ Hr) as Hbd.
  destruct (alloc_spec c l (mkNode k b (charge_of b) None None) Hr) as
    (c1 & i & Ha & [Hs Hh Ht Hnd] & Hni & Hi & Hlen & Hother & Hf & Hv & E1 & E2 & E3 & E4).
  assert (Ha' : forall u, alloc_node (mkInner (capacity_bytes c) (single_object_cap c) u
      (nodes c) (free c) (index c) (head c) (tail c)) (mkNode k b (charge_of b) None None)
    = Some (mkInner (capacity_bytes c1) (single_object_cap c1) u (nodes c1) (free c1)
        (index c1) (head c1) (tail c1), i)).
  { intros u. revert Ha. unfold alloc_node. cbn. destruct (free c) eqn:Ef;
      [|case_decide; [|done]]; intros [= <- <-]; cbn; by rewrite ?Ef. }
  cbn zeta. rewrite Ha'. cbn [mbind option_bind capacity_bytes single_object_cap used_bytes nodes
    free index head tail].
  match goal with |- context [push_front ?c0 i] => set (c2 := c0) end.
  assert (Hl2 : linked c2 l) by (by split).
  destruct (push_front_spec c2 l i k b None None Hl2 Hni Hi) as (c3 & -> & Hl3 & [] & _).
  exists c3. split; [done|]. exists i. cbn in *. split; [|congruence]. split; try done.
  - apply NoDup_cons. split; [done|apply (rep_keys _ _ Hr)].
  - intros k' i'. rewrite same_index0, E4, lookup_insert_Some, (rep_index _ _ Hr). split.
    + intros [[<- <-]|[Hne (b' & Hin)]]; [exists b; left|exists b'; by right].
    + intros (b' & [[= -> -> ->]|Hin]%elem_of_cons); [by left|]. right.
      split; [|eauto]. intros <-. apply Hk. by eapply elem_of_keys.
  - by rewrite same_free0.
  - intros j. by rewrite same_free0, Hv, same_vacant0.
  - intros j. rewrite same_length0, same_vacant0. intros Hj Hvac.
    rewrite fmap_cons, elem_of_cons. destruct (decide (j = i)) as [->|Hne]; [by left|right].
    destruct (Hother j Hne Hj) as [Heq Hlt]. rewrite Heq in Hvac.
    by apply (rep_live _ _ Hr).
  - rewrite same_used0. rewrite (rep_used _ _ Hr), (fits_no_overflow _ _ (capacity_bytes c)) by lia.
    rewrite Z.add_comm. done.
  - by rewrite same_single0, same_cap0, E1, E2, (rep_single _ _ Hr).
  - rewrite same_cap0, E1. change ((charge_of b + total (entries l) <= capacity_bytes c < 2 ^ 63)%Z).
    lia.
Qed.

Lemma insert_spec c l k b :
  rep c l ->
  exists c' l', insert c k b = Some c' /\ rep c' l'
  /\ entries l' = spec_insert (capacity_bytes c) k b (entries l)
  /\ capacity_bytes c' = capacity_bytes c.
Proof.
  intros Hr. unfold insert, spec_insert.
  destruct (invalidate_spec c l k Hr) as (c1 & l1 & -> & Hr1 & He1 & Hk1 & Hcap1).
  cbn [mbind option_bind]. rewrite <- He1.
  pose proof (rep_bound _ _ Hr1) as Hb1. pose proof (charge_pos b) as Hpos.
  destruct (charge_saturates b (capacity_bytes c1)) as [Hlt Hsat]; [lia|].
  rewrite Hlt, (rep_single _ _ Hr1), Hcap1.
  destruct ((capacity_bytes c / 2 <? Z.of_nat (length b))%Z) eqn:Es; cbn [orb];
    [by exists c1, l1|].
  destruct (Z.ltb_spec (capacity_bytes c) (charge_of b)); [by exists c1, l1|].
  rewrite Hsat by lia. unfold evict_until_fits.
  destruct (evict_spec (S (length (nodes c1))) c1 l1 (charge_of b) Hr1) as
    (c2 & l2 & -> & Hr2 & He2 & Hcap2); [lia| |].
  { pose proof (linked_length _ _ (rep_linked _ _ Hr1)). lia. }
  cbn [mbind option_bind].
  destruct (place_spec c2 l2 k b Hr2) as (c3 & Hplace & i & Hr3 & Hcap3).
  - assert (Hk2 : k ∉ (fst <$> entries l2)).
    { rewrite He2. apply spec_keep_keys. unfold entries. by rewrite <- list_fmap_compose. }
    unfold entries in Hk2. by rewrite <- list_fmap_compose in Hk2.
  - rewrite He2, Hcap2. pose proof (spec_keep_total (capacity_bytes c1 - charge_of b) (entries l1)).
    lia.
  - cbn zeta in Hplace |- *. rewrite Hplace.
    exists c3, ((i, (k, b)) :: l2). split_and!; [done|done| |congruence].
    change (entries ((i, (k, b)) :: l2)) with ((k, b) :: entries l2). by rewrite He2, Hcap1.
Qed.

(** ** Refinement *)

Inductive Call : Type :=
| CGet (k : BodyKey)
| CInsert (k : BodyKey) (b : Bytes)
| CInvalidate (k : BodyKey).

(** What a client sees of a call. *)
Definition run_call (c : Inner) (q : Call) : option (Inner * option Bytes) :=
  match q with
  | CGet k => get c k
  | CInsert k b => (fun c' => (c', None)) <$> insert c k b
  | CInvalidate k => (fun c' => (c', None)) <$> invalidate c k
  end.

Fixpoint run_calls (c : Inner) (qs : list Call) : option (Inner * list (option Bytes)) :=
  match qs with
  | [] => Some (c, [])
  | q :: qs' =>
      '(c', r) ← run_call c q;
      '(c'', rs) ← run_calls c' qs';
      Some (c'', r :: rs)
  end.

Definition spec_call (capacity : Z) (l : list Entry) (q : Call) : list Entry * option Bytes :=
  match q with
  | CGet k => spec_get k l
  | CInsert k b => (spec_insert capacity k b l, None)
  | CInvalidate k => (spec_remove k l, None)
  end.

Fixpoint spec_calls (capacity : Z) (l : list Entry) (qs : list Call)
  : list Entry * list (option Bytes) :=
  match qs with
  | [] => (l, [])
  | q :: qs' =>
      let '(l', r) := spec_call capacity l q in
      let '(l'', rs) := spec_calls capacity l' qs' in
      (l'', r :: rs)
  end.

Lemma run_call_spec c l q :
  rep c l ->
  exists c' l', run_call c q = Some (c', (spec_call (capacity_bytes c) (entries l) q).2)
  /\ rep c' l' /\ entries l' = (spec_call (capacity_bytes c) (entries l) q).1
  /\ capacity_bytes c' = capacity_bytes c.
Proof.
  intros Hr. destruct q as [k|k b|k]; cbn [run_call spec_call].
  - apply (get_spec c l k Hr).
  - destruct (insert_spec c l k b Hr) as (c' & l' & -> & ?). by exists c', l'.
  - destruct (invalidate_spec c l k Hr) as (c' & l' & -> & ? & ? & _ & ?). by exists c', l'.
Qed.

Lemma run_calls_spec c l qs :
  rep c l ->
  exists c' l', run_calls c qs = Some (c', (spec_calls (capacity_bytes c) (entries l) qs).2)
  /\ rep c' l' /\ entries l' = (spec_calls (capacity_bytes c) (entries l) qs).1
  /\ capacity_bytes c' = capacity_bytes c.
Proof.
  revert c l. induction qs as [|q qs IH]; intros c l Hr; [by exists c, l|]. cbn.
  destruct (run_call_spec c l q Hr) as (c1 & l1 & -> & Hr1 & He1 & Hc1).
  cbn [mbind option_bind].
  destruct (spec_call (capacity_bytes c) (entries l) q) as [sl r]. cbn in *. subst sl.
  destruct (IH c1 l1 Hr1) as (c2 & l2 & -> & Hr2 & He2 & Hc2). cbn [mbind option_bind].
  rewrite Hc1 in *.
  destruct (spec_calls (capacity_bytes c) (entries l1) qs) as [sl rs]. cbn in *.
  exists c2, l2. by split_and!.
Qed.

(** C20 (refinement) The cache is an LRU list: any sequence of calls on a
    fresh cache runs without panicking (no dangling index, no vacant slot
    dereferenced, no eviction loop that fails to finish) and answers exactly
    as the abstract least-recently-used list does, for every capacity below
    2^63 bytes. *)
Theorem body_cache_refines_lru (capacity : Z) (qs : list Call)
  (Hcap : (0 <= capacity < 2 ^ 63)%Z) :
  exists c' l', run_calls (new capacity) qs = Some (c', (spec_calls capacity [] qs).2)
  /\ rep c' l' /\ entries l' = (spec_calls capacity [] qs).1.
Proof.
  destruct (run_calls_spec (new capacity) [] qs (rep_new capacity Hcap))
    as (c' & l' & Hrun & Hr & He & _). by exists c', l'.
Qed.

Lemma total_overhead l : (PER_ENTRY_OVERHEAD * Z.of_nat (length l) <= total l)%Z.
Proof.
  induction l as [|[k b] l IH]; [done|]. cbn [length total foldr snd]. fold (total l).
  assert (PER_ENTRY_OVERHEAD <= charge_of b)%Z by (unfold charge_of; lia).
  unfold PER_ENTRY_OVERHEAD in *. lia.
Qed.

(** Theorem (bounds) The cache stays within its budget: after any sequence of
    calls the accounted bytes are the sum over the entries of body size plus
    overhead and at most the capacity, so it holds at most capacity / 128
    entries, empty bodies included. *)
Theorem body_cache_bounded (capacity : Z) (qs : list Call)
  (Hcap : (0 <= capacity < 2 ^ 63)%Z) :
  exists c' rs l', run_calls (new capacity) qs = Some (c', rs) /\ rep c' l'
  /\ used_bytes c' = total (entries l') /\ (used_bytes c' <= capacity)%Z
  /\ (Z.of_nat (size (index c')) <= capacity / PER_ENTRY_OVERHEAD)%Z.
Proof.
  destruct (run_calls_spec (new capacity) [] qs (rep_new capacity Hcap))
    as (c' & l' & Hrun & Hr & _ & Hc). cbn in Hc.
  pose proof (rep_used _ _ Hr) as Hu. pose proof (rep_bound _ _ Hr) as Hb.
  eexists c', _, l'. split_and!; [done|done|done|lia|].
  assert (Hsize : size (index c') = length (entries l')).
  { transitivity (length (keys l')); [|unfold keys, entries; by rewrite !length_fmap].
    rewrite <- size_dom.
    rewrite <- (size_list_to_set (C := gset BodyKey) _ (rep_keys _ _ Hr)). f_equal.
    apply set_eq. intros k. rewrite elem_of_dom, elem_of_list_to_set. split.
    - intros [i Hi]. apply (rep_index _ _ Hr) in Hi as [b Hin]. by eapply elem_of_keys.
    - intros Hk. apply list_elem_of_fmap in Hk as ([i [k' b]] & -> & Hin). exists i.
      apply (rep_index _ _ Hr). eauto. }
  rewrite Hsize. apply Z.div_le_lower_bound; [done|].
  pose proof (total_overhead (entries l')). lia.
Qed.

(** ** Freshness *)

Definition inserts (k : BodyKey) (q : Call) : Prop :=
  match q with CInsert k' _ => k' = k | _ => False end.

(** A lookup of [k] misses or finds [b]. *)
Definition fresh (k : BodyKey) (b : Bytes) (l : list Entry) : Prop :=
  forall e, e ∈ l -> e.1 = k -> e.2 = b.

Lemma fresh_find k b l : fresh k b l -> spec_find k l = None \/ spec_find k l = Some b.
Proof.
  induction l as [|[k' b'] l IH]; intros Hf; cbn; [by left|]. case_decide as Hk.
  - right. f_equal. apply (Hf (k', b')); [left|done].
  - apply IH. intros e He. apply Hf. by right.
Qed.

Lemma spec_find_elem k b l : spec_find k l = Some b -> (k, b) ∈ l.
Proof.
  induction l as [|[k' b'] l IH]; cbn; [done|]. case_decide as Hk.
  - intros [= <-]. subst. left.
  - intros ?. right. by apply IH.
Qed.

Lemma spec_keep_subset room l e : e ∈ spec_keep room l -> e ∈ l.
Proof.
  revert room. induction l as [|e' l IH]; intros room; cbn; [done|].
  destruct (Z.leb _ _); [|by intros ?%elem_of_nil].
  intros [->|Hin]%elem_of_cons; [left|right; by eapply IH].
Qed.

Lemma spec_call_fresh capacity k b l q :
  ~ inserts k q -> fresh k b l -> fresh k b (spec_call capacity l q).1.
Proof.
  intros Hq Hf. destruct q as [k'|k' b'|k']; cbn [spec_call fst].
  - unfold spec_get. destruct (spec_find k' l) as [x|] eqn:E; [|done]. cbn.
    intros e [->|He]%elem_of_cons.
    + apply Hf. by apply spec_find_elem.
    + apply Hf. by apply list_elem_of_filter in He as [_ ?].
  - unfold spec_insert. destruct (_ || _).
    + intros e He. apply Hf. by apply list_elem_of_filter in He as [_ ?].
    + intros e [->|He]%elem_of_cons; [by intros <-; destruct Hq|].
      apply Hf. apply spec_keep_subset in He. by apply list_elem_of_filter in He as [_ ?].
  - intros e He. apply Hf. by apply list_elem_of_filter in He as [_ ?].
Qed.

Lemma spec_insert_fresh capacity k b l : fresh k b (spec_insert capacity k b l).
Proof.
  assert (Hr : fresh k b (spec_remove k l)).
  { intros e [Hne _]%list_elem_of_filter. done. }
  unfold spec_insert. destruct (_ || _); [done|].
  intros e [->|He]%elem_of_cons; [done|]. apply Hr. by eapply spec_keep_subset.
Qed.

Lemma spec_calls_app capacity l qs1 qs2 :
  spec_calls capacity l (qs1 ++ qs2) =
  let '(l1, rs1) := spec_calls capacity l qs1 in
  let '(l2, rs2) := spec_calls capacity l1 qs2 in (l2, rs1 ++ rs2).
Proof.
  revert l. induction qs1 as [|q qs1 IH]; intros l; cbn [app spec_calls].
  - by destruct (spec_calls capacity l qs2).
  - destruct (spec_call capacity l q) as [l1 r]. rewrite IH.
    destruct (spec_calls capacity l1 qs1) as [l2 rs]. by destruct (spec_calls capacity l2 qs2).
Qed.

Lemma spec_calls_fresh capacity k b l qs :
  Forall (fun q => ~ inserts k q) qs -> fresh k b l -> fresh k b (spec_calls capacity l qs).1.
Proof.
  intros Hqs. revert l. induction Hqs as [|q qs Hq _ IH]; intros l Hf; [done|]. cbn [spec_calls].
  pose proof (spec_call_fresh capacity k b l q Hq Hf) as Hf1.
  destruct (spec_call capacity l q) as [l1 r]. specialize (IH l1 Hf1).
  by destruct (spec_calls capacity l1 qs).
Qed.

(** Theorem (safety) No stale bodies: once a body has been inserted for a key, a
    later lookup of the key misses or returns that very body, whatever calls
    happened before and whatever other calls (of any kind, other than an
    insertion for that key) happened in between, even when the body was too
    large to be cached. *)
Theorem body_cache_never_stale (capacity : Z) (before between : list Call) (k : BodyKey) (b : Bytes)
  (Hcap : (0 <= capacity < 2 ^ 63)%Z)
  (Hbetween : Forall (fun q => ~ inserts k q) between) :
  exists c' rs r, run_calls (new capacity) (before ++ CInsert k b :: between ++ [CGet k])
                  = Some (c', rs ++ [r])
  /\ (r = None \/ r = Some b).
Proof.
  destruct (run_calls_spec (new capacity) [] (before ++ CInsert k b :: between ++ [CGet k])
    (rep_new capacity Hcap)) as (c' & l' & -> & _). cbn [new capacity_bytes].
  rewrite spec_calls_app. destruct (spec_calls capacity (entries []) before) as [l1 rs1].
  cbn [spec_calls spec_call]. rewrite spec_calls_app.
  pose proof (spec_calls_fresh capacity k b _ between Hbetween
    (spec_insert_fresh capacity k b l1)) as Hf.
  destruct (spec_calls capacity (spec_insert capacity k b l1) between) as [l2 rs2]. cbn in Hf.
  apply fresh_find in Hf. cbn. unfold spec_get.
  exists c', (rs1 ++ None :: rs2), (spec_find k l2). split; [|done].
  do 2 f_equal. destruct (spec_find k l2); cbn; by rewrite <- app_assoc.
Qed.

(** ** Witnesses *)

Definition key_of (k : string) : BodyKey := mkKey "bucket" k None.

Definition body (n : nat) : Bytes := replicate n x61.

Lemma body_cache_refines_lru_witness :
  exists c' l', run_calls (new 512)
      [CInsert (key_of "a") (body 100); CInsert (key_of "b") (body 100); CGet (key_of "a");
       CInsert (key_of "c") (body 100); CGet (key_of "b"); CGet (key_of "a")]
    = Some (c', [None; None; Some (body 100); None; None; Some (body 100)])
  /\ rep c' l'.
Proof.
  destruct (body_cache_refines_lru 512
    [CInsert (key_of "a") (body 100); CInsert (key_of "b") (body 100); CGet (key_of "a");
     CInsert (key_of "c") (body 100); CGet (key_of "b"); CGet (key_of "a")])
    as (c' & l' & Hrun & Hr & _); [lia|].
  exists c', l'. split; [|exact Hr]. rewrite Hrun. vm_compute. reflexivity.
Defined.

Lemma body_cache_bounded_witness :
  exists c' rs, run_calls (new 300) [CInsert (key_of "a") (body 0); CInsert (key_of "b") (body 0);
                                     CInsert (key_of "c") (body 0)] = Some (c', rs)
  /\ (used_bytes c' <= 300)%Z.
Proof.
  destruct (body_cache_bounded 300 [CInsert (key_of "a") (body 0); CInsert (key_of "b") (body 0);
    CInsert (key_of "c") (body 0)]) as (c' & rs & l' & Hrun & _ & _ & Hb & _); [lia|].
  exists c', rs. split; [exact Hrun|exact Hb].
Defined.

Lemma body_cache_never_stale_witness :
  exists c' rs r, run_calls (new 512)
    ([CInsert (key_of "a") (body 1)] ++ CInsert (key_of "a") (body 300) :: [] ++ [CGet (key_of "a")])
    = Some (c', rs ++ [r])
  /\ (r = None \/ r = Some (body 300)).
Proof. apply (body_cache_never_stale 512); [lia|constructor]. Defined.

End BodyCacheTheory.
