(* ===== verification/Sqs.v ===== *)
(** * SQS queues

    [fakecloud-sqs]: the queue state of one (account, region) and its
    migration ([state.rs]), the errors and the request helpers of
    [helpers.rs].  [SqsSend] has the sending handlers, [SqsReceive] the
    receiving ones and the background operations.

    A handler takes the regional state and returns the state after the call
    with its result; a state change made before an error survives it, as it
    does in the source.  The handlers start from the parsed request body
    ([parse_body]) and return the JSON body handed to [sqs_response].

    Instants are nanoseconds since the epoch.  Clock readings, random ids and
    calls of the KMS hook are numbered: [World] counts how many have been made
    and the class [Host] says what each yields, so one handler may see the
    clock move between two readings.  [base64], [md5] and [sha2] are
    third-party packages, the other fields of [Host]. *)

From Stdlib Require Import ZArith Lia Bool String Ascii.
From stdpp Require Import base option list strings gmap.
From S2P Require Import Prelude Json Arn BTree MultiAccount.

Module Sqs.

(** ** State ([state.rs]) *)

Record MessageAttribute := mkAttr {
  data_type : string;
  string_value : option string;
  binary_value : option (list Z)
}.

Record DedupEntry := mkDedup {
  de_message_id : string;
  de_sequence_number : option string;
  de_expiry : Z
}.

Record SqsMessage := mkMessage {
  message_id : string;
  receipt_handle : option string;
  body : string;
  md5_of_body : string;
  sent_timestamp : Z;
  m_attributes : gmap string string;
  message_attributes : gmap string MessageAttribute;
  visible_at : option Z;
  receive_count : Z;                       (* u32 *)
  first_received_at : option Z;
  message_group_id : option string;
  message_dedup_id : option string;
  m_created_at : Z;
  sequence_number : option string
}.

Record RedrivePolicy := mkRedrive {
  dead_letter_target_arn : string;
  max_receive_count : Z                    (* u32 *)
}.

Record ReceiveAttemptEntry := mkAttempt {
  ra_message_ids : list string;
  ra_expiry : Z
}.

Record SqsQueue := mkQueue {
  queue_name : string;
  queue_url : string;
  arn : string;
  created_at : Z;
  messages : list SqsMessage;
  inflight : list SqsMessage;
  attributes : gmap string string;
  is_fifo : bool;
  dedup_cache : gmap string DedupEntry;
  redrive_policy : option RedrivePolicy;
  tags : gmap string string;
  next_sequence_number : Z;                (* u64 *)
  permission_labels : list string;
  receipt_handle_map : gmap string (list string);
  receive_attempt_cache : gmap string ReceiveAttemptEntry
}.

Inductive MessageMoveTaskStatus : Type :=
| Running | Completed | Cancelling | Cancelled | Failed.

Definition status_as_str (s : MessageMoveTaskStatus) : string :=
  match s with
  | Running => "RUNNING"
  | Completed => "COMPLETED"
  | Cancelling => "CANCELLING"
  | Cancelled => "CANCELLED"
  | Failed => "FAILED"
  end.

Record MessageMoveTask := mkTask {
  task_handle : string;
  source_arn : string;
  destination_arn : option string;
  max_messages_per_second : option Z;
  task_status : MessageMoveTaskStatus;
  messages_moved : Z;
  messages_to_move : Z;
  started_timestamp : Z;
  failure_reason : option string;
  driver_pid : Z;
  cancel_flag : bool
}.

Record SqsState := mkState {
  account_id : string;
  region : string;
  endpoint : string;
  queues : gmap string SqsQueue;           (* BTreeMap, by URL *)
  name_to_url : gmap string string;
  message_move_tasks : list MessageMoveTask
}.

(** [SqsState::new]. *)
Definition new_state (account region endpoint : string) : SqsState :=
  mkState account region endpoint ∅ ∅ [].

(** [SqsState::reset]. *)
Definition reset_state (st : SqsState) : SqsState :=
  mkState (account_id st) (region st) (endpoint st) ∅ ∅ [].

(** [impl AccountState for SqsState]: nothing is inherited. *)
#[global] Instance sqs_account_state : AccountState SqsState := {|
  new_for_account := new_state;
  inherit_from := fun self _ => self
|}.

(** Field assignments. *)
Definition with_visibility (m : SqsMessage) (handle : option string) (visible : option Z)
  : SqsMessage :=
  mkMessage (message_id m) handle (body m) (md5_of_body m) (sent_timestamp m)
    (m_attributes m) (message_attributes m) visible (receive_count m)
    (first_received_at m) (message_group_id m) (message_dedup_id m) (m_created_at m)
    (sequence_number m).

Definition with_counts (m : SqsMessage) (count : Z) (first : option Z) : SqsMessage :=
  mkMessage (message_id m) (receipt_handle m) (body m) (md5_of_body m) (sent_timestamp m)
    (m_attributes m) (message_attributes m) (visible_at m) count first
    (message_group_id m) (message_dedup_id m) (m_created_at m) (sequence_number m).

Definition with_body (m : SqsMessage) (b : string) : SqsMessage :=
  mkMessage (message_id m) (receipt_handle m) b (md5_of_body m) (sent_timestamp m)
    (m_attributes m) (message_attributes m) (visible_at m) (receive_count m)
    (first_received_at m) (message_group_id m) (message_dedup_id m) (m_created_at m)
    (sequence_number m).

Definition with_lists (q : SqsQueue) (msgs infl : list SqsMessage) : SqsQueue :=
  mkQueue (queue_name q) (queue_url q) (arn q) (created_at q) msgs infl (attributes q)
    (is_fifo q) (dedup_cache q) (redrive_policy q) (tags q) (next_sequence_number q)
    (permission_labels q) (receipt_handle_map q) (receive_attempt_cache q).

Definition with_dedup (q : SqsQueue) (cache : gmap string DedupEntry) (next : Z) : SqsQueue :=
  mkQueue (queue_name q) (queue_url q) (arn q) (created_at q) (messages q) (inflight q)
    (attributes q) (is_fifo q) cache (redrive_policy q) (tags q) next
    (permission_labels q) (receipt_handle_map q) (receive_attempt_cache q).

Definition with_handles (q : SqsQueue) (handles : gmap string (list string)) : SqsQueue :=
  mkQueue (queue_name q) (queue_url q) (arn q) (created_at q) (messages q) (inflight q)
    (attributes q) (is_fifo q) (dedup_cache q) (redrive_policy q) (tags q)
    (next_sequence_number q) (permission_labels q) handles (receive_attempt_cache q).

Definition with_attempts (q : SqsQueue) (attempts : gmap string ReceiveAttemptEntry) : SqsQueue :=
  mkQueue (queue_name q) (queue_url q) (arn q) (created_at q) (messages q) (inflight q)
    (attributes q) (is_fifo q) (dedup_cache q) (redrive_policy q) (tags q)
    (next_sequence_number q) (permission_labels q) (receipt_handle_map q) attempts.

Definition push_back (q : SqsQueue) (m : SqsMessage) : SqsQueue :=
  with_lists q (messages q ++ [m]) (inflight q).

Definition push_front (q : SqsQueue) (m : SqsMessage) : SqsQueue :=
  with_lists q (m :: messages q) (inflight q).

(** Writing through a reference to the queue stored under [url]. *)
Definition put_queue (st : SqsState) (url : string) (q : SqsQueue) : SqsState :=
  mkState (account_id st) (region st) (endpoint st) (<[url := q]> (queues st)) (name_to_url st)
    (message_move_tasks st).

Definition attr (q : SqsQueue) (name : string) : option string := attributes q !! name.

Definition clamp (z lo hi : Z) : Z := Z.max lo (Z.min z hi).

Definition visibility_timeout_secs (q : SqsQueue) : Z :=
  clamp (default 30%Z (attr q "VisibilityTimeout" ≫= parse_i64)) 0 43200.

Definition delay_secs (q : SqsQueue) : option Z :=
  (fun d => clamp d 0 900) <$> (attr q "DelaySeconds" ≫= parse_i64).

(** ** Errors *)

Inductive AwsServiceError : Type :=
| ServiceNotFound (service : string)
| ActionNotImplemented (service action : string)
| AwsError (status : Z) (code message : string)
    (extra_fields headers : list (string * string)).

Definition aws_error (status : Z) (code message : string) : AwsServiceError :=
  AwsError status code message [] [].

Definition aws_error_with_headers (status : Z) (code message : string)
  (headers : list (string * string)) : AwsServiceError :=
  AwsError status code message [] headers.

Definition missing_param (name : string) : AwsServiceError :=
  aws_error 400 "MissingParameter" ("The request must contain the parameter " +:+ name).

Definition queue_not_found : AwsServiceError :=
  aws_error_with_headers 400 "AWS.SimpleQueueService.NonExistentQueue" "The specified queue does not exist."
    [("x-amzn-query-error", "AWS.SimpleQueueService.NonExistentQueue;Sender")].

Definition invalid_receipt_message : string := "The input receipt handle is invalid.".

Definition invalid_receipt : AwsServiceError :=
  aws_error 400 "ReceiptHandleIsInvalid" invalid_receipt_message.

(** ** The world outside *)

(** [KmsHook]: [n] numbers the call.  [hook_decrypt] is the hook's call
    followed by [String::from_utf8_lossy]. *)
Record KmsHook := {
  hook_encrypt : nat -> string -> string -> string -> list Z -> string ->
                 gmap string string -> Result string string;
  hook_decrypt : nat -> string -> string -> string -> gmap string string ->
                 Result string string
}.

Class Host := {
  clock : nat -> Z;                           (* the n-th Utc::now() *)
  new_v4 : nat -> string;                     (* the n-th Uuid::new_v4() *)
  base64_decode : string -> option (list Z);  (* base64 STANDARD.decode *)
  md5_digest : list Z -> string;              (* Md5, as 32 hex digits *)
  sha256_digest : list Z -> string            (* Sha256, as 64 hex digits *)
}.

Record World := mkWorld { ticks : nat; uuids : nat; kms_calls : nat }.

Definition ticked (w : World) : World := mkWorld (S (ticks w)) (uuids w) (kms_calls w).
Definition minted (w : World) : World := mkWorld (ticks w) (S (uuids w)) (kms_calls w).
Definition called (w : World) : World := mkWorld (ticks w) (uuids w) (S (kms_calls w)).

(** The parts of [SqsService] the handlers read. *)
Record SqsService := mkService {
  kms_hook : option KmsHook;
  svc_region : string
}.

(** The parts of [AwsRequest] the handlers read, with its parsed body. *)
Record Request := mkRequest {
  req_account_id : string;
  req_region : string;
  req_body : Value
}.

Definition nanos_per_sec : Z := 1000000000.

(** [chrono::Duration::seconds], [DateTime::timestamp_millis] and the
    truncating [Duration::num_seconds]. *)
Definition seconds (s : Z) : Z := s * nanos_per_sec.
Definition timestamp_millis (t : Z) : Z := t / 1000000.
Definition num_seconds (d : Z) : Z := Z.quot d nanos_per_sec.

(** Machine additions of the release build. *)
Definition u32_add (a b : Z) : Z := (a + b) mod 2 ^ 32.
Definition u64_add (a b : Z) : Z := (a + b) mod 2 ^ 64.

(** ** Migration of account-wide snapshots *)

(** Applying [f] through [region_or_default_mut]. *)
Definition update_region (into : RegionalState SqsState) (rg : option string)
  (f : SqsState -> SqsState) : RegionalState SqsState :=
  let '(into, target) := region_or_default_mut into rg in
  let key := match rg with
             | Some r => if is_empty_str r then rs_default_region into else r
             | None => rs_default_region into
             end in
  with_regions into (<[key := f target]> (regions into)).

Definition split_queue (acc : RegionalState SqsState * gmap string string)
  (uq : string * SqsQueue) : RegionalState SqsState * gmap string string :=
  let '(into, queue_regions) := acc in
  let '(url, queue) := uq in
  let rg := Arn.region_of (arn queue) in
  let target := (region_or_default_mut into rg).2 in
  (update_region into rg (fun t =>
     mkState (account_id t) (region t) (endpoint t) (<[url := queue]> (queues t))
       (<[queue_name queue := url]> (name_to_url t)) (message_move_tasks t)),
   <[arn queue := region target]> queue_regions).

Definition split_task (queue_regions : gmap string string) (into : RegionalState SqsState)
  (task : MessageMoveTask) : RegionalState SqsState :=
  let rg := match queue_regions !! source_arn task with
            | Some r => Some r
            | None => Arn.region_of (source_arn task)
            end in
  update_region into rg (fun t =>
    mkState (account_id t) (region t) (endpoint t) (queues t) (name_to_url t)
      (message_move_tasks t ++ [task])).

#[global] Instance sqs_split_by_region : SplitByRegion SqsState := {|
  split_by_region := fun self into =>
    let '(into, queue_regions) := foldl split_queue (into, ∅) (BTree.iter (queues self)) in
    foldl (split_task queue_regions) into (message_move_tasks self)
|}.

(** ** Request helpers ([helpers.rs]) *)

Definition val_as_i64 (v : Value) : option Z :=
  match as_i64 v with
  | Some z => Some z
  | None => as_str v ≫= parse_i64
  end.

(** [char::is_alphanumeric] on U+0000 to U+00FF. *)
Definition is_alphanumeric (c : ascii) : bool :=
  let n := char_code c in
  is_ascii_alphanumeric c
  || existsb (N.eqb n) [0xAA; 0xB2; 0xB3; 0xB5; 0xB9; 0xBA; 0xBC; 0xBD; 0xBE]%N
  || ((0xC0 <=? n)%N && negb (N.eqb n 0xD7) && negb (N.eqb n 0xF7)).

Definition is_valid_batch_id (id : string) : bool :=
  if is_empty_str id || (80 <? byte_len id) then false
  else string_forallb (fun c => is_alphanumeric c || Ascii.eqb c "-" || Ascii.eqb c "_") id.

(** Four big-endian bytes of a [u32] ([to_be_bytes]; [as u32] wraps). *)
Definition be32 (n : nat) : list Z :=
  let z := (Z.of_nat n mod 2 ^ 32)%Z in
  [z / 2 ^ 24; z / 2 ^ 16 mod 256; z / 2 ^ 8 mod 256; z mod 256]%Z.

Definition be32_str (s : string) : list Z := be32 (byte_len s) ++ as_bytes s.

Section Handlers.
Context `{Host}.

Definition md5_hex (input : string) : string := md5_digest (as_bytes input).
Definition sha256_hex (input : string) : string := sha256_digest (as_bytes input).

Definition looks_like_fakecloud_envelope (b : string) : bool :=
  if starts_with "fakecloud-kms:" b then true
  else match base64_decode b with
       | Some bytes => bool_decide (take 4 bytes = [1; 2; 2; 0]%Z)
       | None => false
       end.

(** One attribute from the object that carries its type and value. *)
Definition attribute_from (dt sv bv : option Value) : MessageAttribute :=
  mkAttr (default "String"%string (dt ≫= as_str)) (sv ≫= as_str) ((bv ≫= as_str) ≫= base64_decode).

Definition numbered (prefix : string) (i : nat) (suffix : string) : string :=
  prefix +:+ "." +:+ print_Z (Z.of_nat i) +:+ "." +:+ suffix.

Definition parse_message_attributes (b : Value) : gmap string MessageAttribute :=
  let result :=
    foldl (fun acc (nv : string * Value) =>
             let '(name, val) := nv in
             <[name := attribute_from (get "DataType" val) (get "StringValue" val)
                         (get "BinaryValue" val)]> acc)
      ∅ (default [] (as_object (index b "MessageAttributes"))) in
  match as_object b with
  | None => result
  | Some obj =>
      foldl (fun acc i =>
               match assoc (numbered "MessageAttribute" i "Name") obj ≫= as_str with
               | Some name =>
                   <[name := attribute_from
                               (assoc (numbered "MessageAttribute" i "Value.DataType") obj)
                               (assoc (numbered "MessageAttribute" i "Value.StringValue") obj)
                               (assoc (numbered "MessageAttribute" i "Value.BinaryValue") obj)]> acc
               | None => acc
               end)
        result (seq 1 20)
  end.

Definition parse_message_system_attributes (b : Value) : gmap string string :=
  let result :=
    foldl (fun acc (nv : string * Value) =>
             match as_str (index nv.2 "StringValue") with
             | Some sv => <[nv.1 := sv]> acc
             | None => acc
             end)
      ∅ (default [] (as_object (index b "MessageSystemAttributes"))) in
  match as_object b with
  | None => result
  | Some obj =>
      foldl (fun acc i =>
               match assoc (numbered "MessageSystemAttribute" i "Name") obj ≫= as_str,
                     assoc (numbered "MessageSystemAttribute" i "Value.StringValue") obj ≫= as_str
               with
               | Some name, Some value => <[name := value]> acc
               | _, _ => acc
               end)
        result (seq 1 20)
  end.

Definition validate_attribute (na : string * MessageAttribute) : Result AwsServiceError unit :=
  let '(name, a) := na in
  if negb (string_forallb (fun c => is_ascii_alphanumeric c || Ascii.eqb c "_"
                                    || Ascii.eqb c "-" || Ascii.eqb c ".") name)
  then Err (aws_error 400 "InvalidParameterValue"
              ("The message attribute name '" +:+ name +:+ "' is invalid. Attribute name can contain A-Z, a-z, 0-9, underscore (_), hyphen (-), and period (.) characters."))
  else if negb (bool_decide (first_segment "." (data_type a) ∈ ["String"; "Number"; "Binary"]%string))
  then Err (aws_error 400 "InvalidParameterValue"
              ("The message attribute '" +:+ name +:+ "' has an invalid message attribute type, the set of supported type prefixes is Binary, Number, and String."))
  else Ok tt.

Definition validate_message_attributes (attrs : gmap string MessageAttribute)
  : Result AwsServiceError unit :=
  foldl (fun acc na => _ ← acc; validate_attribute na) (Ok tt) (BTree.iter attrs).

(** The byte stream hashed for one attribute. *)
Definition attribute_bytes (na : string * MessageAttribute) : list Z :=
  let '(name, a) := na in
  be32_str name ++ be32_str (data_type a) ++
  if starts_with "String" (data_type a) || starts_with "Number" (data_type a) then
    1%Z :: match string_value a with Some sv => be32_str sv | None => be32 0 end
  else if starts_with "Binary" (data_type a) then
    2%Z :: match binary_value a with Some bv => be32 (length bv) ++ bv | None => be32 0 end
  else [].

Definition md5_of_message_attributes (attrs : gmap string MessageAttribute) : string :=
  md5_digest (BTree.iter attrs ≫= attribute_bytes).

Definition md5_of_message_system_attributes (attrs : gmap string string) : string :=
  md5_digest (BTree.iter attrs ≫= fun nv : string * string =>
    be32_str nv.1 ++ be32_str "String" ++ 1%Z :: be32_str nv.2).

Definition message_attributes_size (attrs : gmap string MessageAttribute) : nat :=
  sum_list ((fun na : string * MessageAttribute =>
    let '(name, a) := na in
    let value_len := match string_value a, binary_value a with
                     | Some sv, _ => byte_len sv
                     | None, Some bv => length bv
                     | None, None => 0
                     end in
    byte_len name + byte_len (data_type a) + value_len) <$> BTree.iter attrs).

Definition resolve_queue_url (input : string) (st : SqsState) : option string :=
  if bool_decide (is_Some (queues st !! input)) then Some input
  else
    let by_name :=
      match name_to_url st !! input with
      | Some url => Some url
      | None => name_to_url st !! last_segment "/" input
      end in
    match split_char ":" input with
    | [p0; p1; p2; p3; p4; p5] =>
        if String.eqb p0 "arn" && String.eqb p2 "sqs" then
          if negb (String.eqb p3 (region st)) || negb (String.eqb p4 (account_id st)) then None
          else if is_empty_str p5 then by_name
          else match name_to_url st !! p5 with
               | Some url => Some url
               | None => by_name
               end
        else by_name
    | _ => by_name
    end.

(** [resolve_queue_url] followed by [queues.get_mut], as every handler does. *)
Definition find_queue (input : string) (st : SqsState)
  : Result AwsServiceError (string * SqsQueue) :=
  url ← ok_or queue_not_found (resolve_queue_url input st);
  q ← ok_or queue_not_found (queues st !! url);
  Ok (url, q).

End Handlers.

End Sqs.
