(* ===== verification/SqsSend.v ===== *)
(** * SQS: sending messages

    [SendMessage] and [SendMessageBatch] of [service/messages.rs] with the
    helpers of [helpers.rs] they call: encryption at rest, FIFO constraints,
    deduplication, sequence numbers, enqueueing. *)

From Stdlib Require Import ZArith Lia Bool String Ascii.
From stdpp Require Import base option list strings gmap.
From S2P Require Import Prelude Json Arn BTree MultiAccount Sqs.

Module SqsSend.
Import Sqs.

Section Handlers.
Context `{Host}.

(** ** Encryption at rest ([auth.rs], [messages.rs]) *)

Definition effective_kms_key_id (attrs : gmap string string) : option string :=
  let managed :=
    if bool_decide (attrs !! "SqsManagedSseEnabled" = Some "true")
    then Some "alias/aws/sqs" else None in
  match attrs !! "KmsMasterKeyId" with
  | Some k => if is_empty_str k then managed else Some k
  | None => managed
  end%string.

Definition kms_failure (what err : string) : AwsServiceError :=
  aws_error 500 "KMS.InternalFailureException"
    ("Failed to " +:+ what +:+ " SQS message via KMS: " +:+ err).

Definition encrypt_message_body (svc : SqsService) (w : World) (account queue_arn : string)
  (kms_key_id : option string) (plaintext : string) : World * Result AwsServiceError string :=
  match kms_hook svc, kms_key_id with
  | Some hook, Some key =>
      if is_empty_str key then (w, Ok plaintext)
      else
        let rg := default (svc_region svc) (Arn.region_of queue_arn) in
        (called w,
         match hook_encrypt hook (kms_calls w) account rg key (as_bytes plaintext)
                 "sqs.amazonaws.com" {["aws:sqs:arn" := queue_arn]} with
         | Ok envelope => Ok envelope
         | Err err => Err (kms_failure "encrypt" err)
         end)
  | _, _ => (w, Ok plaintext)
  end%string.

Definition decrypt_message_body (svc : SqsService) (w : World) (account queue_arn : string)
  (ciphertext : string) : World * Result AwsServiceError string :=
  match kms_hook svc with
  | None => (w, Ok ciphertext)
  | Some hook =>
      if negb (looks_like_fakecloud_envelope ciphertext) then (w, Ok ciphertext)
      else
        (called w,
         match hook_decrypt hook (kms_calls w) account ciphertext "sqs.amazonaws.com"
                 {["aws:sqs:arn" := queue_arn]} with
         | Ok text => Ok text
         | Err err => Err (kms_failure "decrypt" err)
         end)
  end%string.

(** ** Sending *)

Definition content_based_dedup (q : SqsQueue) : bool :=
  bool_decide (attr q "ContentBasedDeduplication" = Some "true"%string).

Definition max_message_size_of (q : SqsQueue) : Z :=
  default 262144%Z (attr q "MaximumMessageSize" ≫= parse_u64).

Definition check_fifo_send_constraints (q : SqsQueue) (raw_delay : option Z)
  (group dedup : option string) : Result AwsServiceError unit :=
  if negb (is_fifo q) then Ok tt
  else
    let delay := default 0%Z raw_delay in
    if negb (delay =? 0)%Z then
      Err (aws_error 400 "InvalidParameterValue"
             ("Value " +:+ print_Z delay +:+ " for parameter DelaySeconds is invalid. Reason: The request include parameter that is not valid for this queue type."))
    else if bool_decide (group = None) then
      Err (aws_error 400 "MissingParameter" "The request must contain the parameter MessageGroupId.")
    else if bool_decide (dedup = None) && negb (content_based_dedup q) then
      Err (aws_error 400 "InvalidParameterValue"
             "The queue should either have ContentBasedDeduplication enabled or MessageDeduplicationId provided explicitly")
    else Ok tt.

Definition dedup_cache_key (q : SqsQueue) (dedup_id : string) (group : option string) : string :=
  if bool_decide (attr q "DeduplicationScope" = Some "messageGroup"%string) then
    let g := default EmptyString group in
    print_Z (Z.of_nat (byte_len g)) +:+ ":" +:+ g +:+ ":" +:+ dedup_id
  else dedup_id.

Definition SEQUENCE_NUMBER_BASE : Z := 10000000000000000000.

Definition format_sequence_number (counter : Z) : string :=
  print_Z (u64_add SEQUENCE_NUMBER_BASE counter).

(** [dedup_cache.retain(|_, e| e.expiry > now)]. *)
Definition live_dedup (now : Z) (cache : gmap string DedupEntry) : gmap string DedupEntry :=
  filter (fun kv => (now < de_expiry kv.2)%Z) cache.

Definition effective_dedup (fifo content_based : bool) (dedup : option string) (text : string)
  : option string :=
  if fifo then
    match dedup with
    | Some d => Some d
    | None => if content_based then Some (sha256_hex text) else None
    end
  else None.

(** The response object of a send; [resp["X"] = ...] appends a member. *)
Definition opt_member (name : string) (o : option string) : list (string * Value) :=
  match o with Some s => [(name, VString s)] | None => [] end.

Definition send_response (first : list (string * Value)) (mid md5 : string)
  (seq md5_attrs md5_sys : option string) : Value :=
  VObject (first ++ [("MessageId"%string, VString mid); ("MD5OfMessageBody"%string, VString md5)]
           ++ opt_member "SequenceNumber" seq
           ++ opt_member "MD5OfMessageAttributes" md5_attrs
           ++ opt_member "MD5OfMessageSystemAttributes" md5_sys).

Definition nonempty_md5 {A} (f : gmap string A -> string) (m : gmap string A) : option string :=
  if bool_decide (m = ∅) then None else Some (f m).

(** The validated parts of a [SendMessage] request. *)
Record SendParams := mkSend {
  s_queue_url : string;
  s_body : string;
  s_group : option string;
  s_dedup : option string;
  s_attributes : gmap string MessageAttribute;
  s_system : gmap string string;
  s_delay : option Z
}.

Definition invalid_delay_message (d : Z) : string :=
  "Value " +:+ print_Z d +:+ " for parameter DelaySeconds is invalid. Reason: Must be between 0 and 900, if provided.".

Definition invalid_delay (d : Z) : AwsServiceError :=
  aws_error 400 "InvalidParameterValue" (invalid_delay_message d).

Definition in_delay_range (d : Z) : bool := (0 <=? d)%Z && (d <=? 900)%Z.

(** [send_message] up to its second lock: parsing and validation, with the
    queue looked up in the state of the first. *)
Definition send_message_validate (b : Value) (st : SqsState) : Result AwsServiceError SendParams :=
  url ← ok_or (missing_param "QueueUrl") (as_str (index b "QueueUrl"));
  text ← ok_or (missing_param "MessageBody") (as_str (index b "MessageBody"));
  _ ← ok_or queue_not_found (resolve_queue_url url st);
  let attrs := parse_message_attributes b in
  _ ← validate_message_attributes attrs;
  let raw_delay := val_as_i64 (index b "DelaySeconds") in
  _ ← match raw_delay with
      | Some d => if in_delay_range d then Ok tt else Err (invalid_delay d)
      | None => Ok tt
      end;
  Ok (mkSend url text (as_str (index b "MessageGroupId"))
        (as_str (index b "MessageDeduplicationId")) attrs
        (parse_message_system_attributes b) raw_delay).

(** The block under the second lock once the queue is found and no duplicate
    is cached: size limit, sequence number, encryption, enqueue, cache entry.
    The queue is returned also on error. *)
Definition send_enqueue (svc : SqsService) (account : string) (p : SendParams)
  (effective : option string) (dedup_key : option string) (q : SqsQueue) (w : World)
  : SqsQueue * World * Result AwsServiceError (string * option string) :=
  let max := max_message_size_of q in
  let total := Z.of_nat (byte_len (s_body p) + message_attributes_size (s_attributes p)) in
  if (max <? total)%Z then
    (q, w, Err (aws_error 400 "InvalidParameterValue"
                  ("One or more parameters are invalid. Reason: Message must be shorter than "
                     +:+ print_Z max +:+ " bytes.")))
  else
    let delay := default 0%Z (match s_delay p with Some d => Some d | None => delay_secs q end) in
    let now := clock (ticks w) in
    let w := ticked w in
    let visible := if (0 <? delay)%Z then Some (now + seconds delay)%Z else None in
    let n := next_sequence_number q in
    let seq := if is_fifo q then Some (format_sequence_number n) else None in
    let q := if is_fifo q then with_dedup q (dedup_cache q) (u64_add n 1) else q in
    let '(w, stored) :=
      encrypt_message_body svc w account (arn q) (effective_kms_key_id (attributes q)) (s_body p) in
    match stored with
    | Err e => (q, w, Err e)
    | Ok stored =>
        let mid := new_v4 (uuids w) in
        let w := minted w in
        let msg := mkMessage mid None stored (md5_hex (s_body p)) (timestamp_millis now)
                     (s_system p) (s_attributes p) visible 0 None (s_group p) effective now seq in
        let q := push_back q msg in
        match is_fifo q, dedup_key with
        | true, Some key =>
            let expiry := (clock (ticks w) + seconds 300)%Z in
            (with_dedup q (<[key := mkDedup mid seq expiry]> (dedup_cache q))
               (next_sequence_number q), ticked w, Ok (mid, seq))
        | _, _ => (q, w, Ok (mid, seq))
        end
    end.

(** The dedup lookup: prunes expired entries, then looks the key up. *)
Definition dedup_lookup (q : SqsQueue) (dedup_key : option string) (w : World)
  : SqsQueue * World * option DedupEntry :=
  match is_fifo q, dedup_key with
  | true, Some key =>
      let q := with_dedup q (live_dedup (clock (ticks w)) (dedup_cache q)) (next_sequence_number q) in
      (q, ticked w, dedup_cache q !! key)
  | _, _ => (q, w, None)
  end.

(** The body of a successful response. *)
Definition send_reply (p : SendParams) (mid : string) (seq : option string) : Value :=
  send_response [] mid (md5_hex (s_body p)) seq
    (nonempty_md5 md5_of_message_attributes (s_attributes p))
    (nonempty_md5 md5_of_message_system_attributes (s_system p)).

(** The dedup id of the message and the key it is cached under. *)
Definition effective_of (q : SqsQueue) (p : SendParams) : option string :=
  effective_dedup (is_fifo q) (content_based_dedup q) (s_dedup p) (s_body p).

Definition dedup_key_of (q : SqsQueue) (p : SendParams) : option string :=
  (fun d => dedup_cache_key q d (s_group p)) <$> effective_of q p.

Definition send_message_commit (svc : SqsService) (account : string) (p : SendParams)
  (st : SqsState) (w : World) : SqsState * World * Result AwsServiceError Value :=
  match find_queue (s_queue_url p) st with
  | Err e => (st, w, Err e)
  | Ok (url, q) =>
      match check_fifo_send_constraints q (s_delay p) (s_group p) (s_dedup p) with
      | Err e => (st, w, Err e)
      | Ok _ =>
          let effective := effective_of q p in
          let key := dedup_key_of q p in
          let '(q, w, hit) := dedup_lookup q key w in
          match hit with
          | Some entry =>
              (put_queue st url q, w,
               Ok (send_reply p (de_message_id entry) (de_sequence_number entry)))
          | None =>
              let '(q, w, r) := send_enqueue svc account p effective key q w in
              (put_queue st url q, w, '(mid, seq) ← r; Ok (send_reply p mid seq))
          end
      end
  end.

Definition send_message (svc : SqsService) (req : Request) (st : SqsState) (w : World)
  : SqsState * World * Result AwsServiceError Value :=
  match send_message_validate (req_body req) st with
  | Err e => (st, w, Err e)
  | Ok p => send_message_commit svc (req_account_id req) p st w
  end.

(** ** Batch sends *)

Record BatchSendConfig := mkCfg {
  cfg_is_fifo : bool;
  cfg_content_based_dedup : bool;
  cfg_max_message_size : Z;
  cfg_queue_delay : option Z;
  cfg_now : Z
}.

Definition from_queue (q : SqsQueue) (now : Z) : BatchSendConfig :=
  mkCfg (is_fifo q) (content_based_dedup q) (max_message_size_of q) (delay_secs q) now.

Inductive BatchEntryOutcome : Type :=
| Success (v : Value)
| Failure (v : Value).

Definition batch_failure (id c msg : string) : Value :=
  VObject [("Id", VString id); ("SenderFault", VBool true); ("Code", VString c);
           ("Message", VString msg)]%string.

Definition entry_size (entry : Value) (text : string) : Z :=
  Z.of_nat (byte_len text + message_attributes_size (parse_message_attributes entry)).

(** [process_batch_send_entry] up to the FIFO checks: the entry's id and body,
    or the failure to report. *)
Definition batch_entry_validate (entry : Value) (cfg : BatchSendConfig)
  : Result Value (string * string) :=
  id ← ok_or (batch_failure "" "MissingParameter" "Id is required") (as_str (index entry "Id"));
  text ← ok_or (batch_failure id "MissingParameter" "MessageBody is required")
           (as_str (index entry "MessageBody"));
  _ ← (if (cfg_max_message_size cfg <? entry_size entry text)%Z
       then Err (batch_failure id "InvalidParameterValue"
                   ("One or more parameters are invalid. Reason: Message must be shorter than "
                      +:+ print_Z (cfg_max_message_size cfg) +:+ " bytes."))
       else Ok tt);
  _ ← match val_as_i64 (index entry "DelaySeconds") with
      | Some d =>
          if in_delay_range d then Ok tt
          else Err (batch_failure id "InvalidParameterValue" (invalid_delay_message d))
      | None => Ok tt
      end;
  _ ← (if cfg_is_fifo cfg then
         if bool_decide (as_str (index entry "MessageGroupId") = None)
         then Err (batch_failure id "MissingParameter"
                     "The request must contain the parameter MessageGroupId.")
         else if bool_decide (as_str (index entry "MessageDeduplicationId") = None)
                 && negb (cfg_content_based_dedup cfg)
         then Err (batch_failure id "InvalidParameterValue"
                     "The queue should either have ContentBasedDeduplication enabled or MessageDeduplicationId provided explicitly")
         else Ok tt
       else Ok tt);
  Ok (id, text).

(** The rest of [process_batch_send_entry]: dedup replay or enqueue. *)
Definition batch_entry_commit (q : SqsQueue) (entry : Value) (cfg : BatchSendConfig)
  (stored_override : option string) (id text : string) (w : World) : SqsQueue * World * Value :=
  let group := as_str (index entry "MessageGroupId") in
  let delay := default 0%Z (match val_as_i64 (index entry "DelaySeconds") with
                            | Some d => Some d
                            | None => cfg_queue_delay cfg
                            end) in
  let visible := if (0 <? delay)%Z then Some (cfg_now cfg + seconds delay)%Z else None in
  let attrs := parse_message_attributes entry in
  let system := parse_message_system_attributes entry in
  let respond mid seq :=
    send_response [("Id"%string, VString id)] mid (md5_hex text) seq
      (nonempty_md5 md5_of_message_attributes attrs)
      (nonempty_md5 md5_of_message_system_attributes system) in
  let effective :=
    effective_dedup (cfg_is_fifo cfg) (cfg_content_based_dedup cfg)
      (as_str (index entry "MessageDeduplicationId")) text in
  let key := (fun d => dedup_cache_key q d group) <$> effective in
  let '(q, hit) :=
    match cfg_is_fifo cfg, key with
    | true, Some k =>
        let q := with_dedup q (live_dedup (cfg_now cfg) (dedup_cache q)) (next_sequence_number q) in
        (q, dedup_cache q !! k)
    | _, _ => (q, None)
    end in
  match hit with
  | Some e => (q, w, respond (de_message_id e) (de_sequence_number e))
  | None =>
      let n := next_sequence_number q in
      let seq := if cfg_is_fifo cfg then Some (format_sequence_number n) else None in
      let q := if cfg_is_fifo cfg then with_dedup q (dedup_cache q) (u64_add n 1) else q in
      let mid := new_v4 (uuids w) in
      let msg := mkMessage mid None (default text stored_override) (md5_hex text)
                   (timestamp_millis (cfg_now cfg)) system attrs visible 0 None group effective
                   (cfg_now cfg) seq in
      let q := push_back q msg in
      let q := match cfg_is_fifo cfg, key with
               | true, Some k =>
                   with_dedup q
                     (<[k := mkDedup mid seq (cfg_now cfg + seconds 300)%Z]> (dedup_cache q))
                     (next_sequence_number q)
               | _, _ => q
               end in
      (q, minted w, respond mid seq)
  end.

Definition process_batch_send_entry (q : SqsQueue) (entry : Value) (cfg : BatchSendConfig)
  (stored_override : option string) (w : World) : SqsQueue * World * BatchEntryOutcome :=
  match batch_entry_validate entry cfg with
  | Err v => (q, w, Failure v)
  | Ok (id, text) =>
      let '(q, w, v) := batch_entry_commit q entry cfg stored_override id text w in
      (q, w, Success v)
  end.

Definition empty_batch (what : string) : AwsServiceError :=
  aws_error 400 "AWS.SimpleQueueService.EmptyBatchRequest"
    ("There should be at least one " +:+ what +:+ " in the request.").

Definition too_many_entries (n : nat) : AwsServiceError :=
  aws_error 400 "AWS.SimpleQueueService.TooManyEntriesInBatchRequest"
    ("Maximum number of entries per request are 10. You have sent "
       +:+ print_Z (Z.of_nat n) +:+ ".").

(** [body["Entries"]], non-empty and of at most ten entries. *)
Definition batch_entries (b : Value) (what : string) : Result AwsServiceError (list Value) :=
  let entries := default [] (as_array (index b "Entries")) in
  if bool_decide (entries = []) then Err (empty_batch what)
  else if 10 <? length entries then Err (too_many_entries (length entries))
  else Ok entries.

(** The loop over entry ids of [send_message_batch]. *)
Fixpoint check_send_ids (entries : list Value) (seen : list string) : Result AwsServiceError unit :=
  match entries with
  | [] => Ok tt
  | entry :: rest =>
      match as_str (index entry "Id") with
      | None => check_send_ids rest seen
      | Some id =>
          if negb (is_valid_batch_id id) then
            Err (aws_error 400 "AWS.SimpleQueueService.InvalidBatchEntryId"
                   "A batch entry id can only contain alphanumeric characters, hyphens and underscores. It can be at most 80 letters long.")
          else if bool_decide (id ∈ seen) then
            Err (aws_error 400 "AWS.SimpleQueueService.BatchEntryIdsNotDistinct"
                   ("Id " +:+ id +:+ " repeated."))
          else check_send_ids rest (seen ++ [id])
      end
  end.

Definition batch_total_size (entries : list Value) : Z :=
  foldr (fun e acc => (entry_size e (default EmptyString (as_str (index e "MessageBody"))) + acc)%Z)
    0%Z entries.

(** Whether an entry is worth encrypting. *)
Definition entry_encryptable (cfg : BatchSendConfig) (entry : Value) : option string :=
  match as_str (index entry "MessageBody"), as_str (index entry "Id") with
  | Some text, Some id =>
      if (entry_size entry text <=? cfg_max_message_size cfg)%Z
         && is_valid_batch_id id
         && match val_as_i64 (index entry "DelaySeconds") with
            | Some d => in_delay_range d
            | None => true
            end
      then Some text else None
  | _, _ => None
  end.

(** The pre-encryption loop; the first failure aborts it. *)
Fixpoint encrypt_entries (svc : SqsService) (account : string) (q : SqsQueue)
  (cfg : BatchSendConfig) (entries : list Value) (w : World)
  : World * Result AwsServiceError (list (option string)) :=
  match entries with
  | [] => (w, Ok [])
  | entry :: rest =>
      match entry_encryptable cfg entry with
      | None =>
          let '(w, r) := encrypt_entries svc account q cfg rest w in
          (w, os ← r; Ok (None :: os))
      | Some text =>
          let '(w, r) :=
            encrypt_message_body svc w account (arn q) (effective_kms_key_id (attributes q)) text in
          match r with
          | Err e => (w, Err e)
          | Ok stored =>
              let '(w, r) := encrypt_entries svc account q cfg rest w in
              (w, os ← r; Ok (Some stored :: os))
          end
      end
  end.

Definition stored_overrides (svc : SqsService) (account : string) (q : SqsQueue)
  (cfg : BatchSendConfig) (entries : list Value) (w : World)
  : World * Result AwsServiceError (list (option string)) :=
  match effective_kms_key_id (attributes q), kms_hook svc with
  | Some _, Some _ => encrypt_entries svc account q cfg entries w
  | _, _ => (w, Ok (replicate (length entries) None))
  end.

Fixpoint send_entries (q : SqsQueue) (cfg : BatchSendConfig)
  (work : list (Value * option string)) (w : World)
  : SqsQueue * World * (list Value * list Value) :=
  match work with
  | [] => (q, w, ([], []))
  | (entry, stored) :: rest =>
      let '(q, w, outcome) := process_batch_send_entry q entry cfg stored w in
      let '(q, w, (ok, bad)) := send_entries q cfg rest w in
      (q, w, match outcome with Success v => (v :: ok, bad) | Failure v => (ok, v :: bad) end)
  end.

Definition batch_response (ok bad : list Value) : Value :=
  VObject [("Successful", VArray ok); ("Failed", VArray bad)]%string.

Definition send_message_batch (svc : SqsService) (req : Request) (st : SqsState) (w : World)
  : SqsState * World * Result AwsServiceError Value :=
  let b := req_body req in
  let checked :=
    url ← ok_or (missing_param "QueueUrl") (as_str (index b "QueueUrl"));
    entries ← batch_entries b "SendMessageBatchRequestEntry";
    _ ← check_send_ids entries [];
    _ ← (if (262144 <? batch_total_size entries)%Z
         then Err (aws_error 400 "AWS.SimpleQueueService.BatchRequestTooLong"
                     ("Batch requests cannot be longer than 262144 bytes. You have sent "
                        +:+ print_Z (batch_total_size entries) +:+ " bytes."))
         else Ok tt);
    uq ← find_queue url st;
    Ok (entries, uq) in
  match checked with
  | Err e => (st, w, Err e)
  | Ok (entries, (url, q)) =>
      let cfg := from_queue q (clock (ticks w)) in
      let '(w, overrides) := stored_overrides svc (req_account_id req) q cfg entries (ticked w) in
      match overrides with
      | Err e => (st, w, Err e)
      | Ok os =>
          let '(q, w, (ok, bad)) := send_entries q cfg (zip entries os) w in
          (put_queue st url q, w, Ok (batch_response ok bad))
      end
  end.

End Handlers.

End SqsSend.
