(* ===== verification/SqsReceive.v ===== *)
(** * SQS: receiving, deleting, visibility

    [ReceiveMessage] (one poll), [DeleteMessage], [ChangeMessageVisibility]
    and their batch forms of [service/messages.rs], and the background
    operations of [simulation.rs]. *)

From Stdlib Require Import ZArith Lia Bool String Ascii.
From stdpp Require Import base option list strings gmap.
From S2P Require Import Prelude Json Arn BTree MultiAccount Sqs SqsSend.

Module SqsReceive.
Import Sqs SqsSend.

Section Handlers.
Context `{Host}.

(** ** Receiving ([try_receive_messages]) *)

Definition retention_seconds (q : SqsQueue) : Z :=
  default 345600%Z (attr q "MessageRetentionPeriod" ≫= parse_i64).

Definition within_retention (now retention : Z) (m : SqsMessage) : bool :=
  (num_seconds (now - m_created_at m) <? retention)%Z.

(** Retention expiry of both collections. *)
Definition expire_old (now : Z) (q : SqsQueue) : SqsQueue :=
  let keep := within_retention now (retention_seconds q) in
  with_lists q (filter (fun m => keep m = true) (messages q))
    (filter (fun m => keep m = true) (inflight q)).

(** An in-flight message whose visibility window has lapsed. *)
Definition lapsed (now : Z) (m : SqsMessage) : bool :=
  match visible_at m with Some v => (v <=? now)%Z | None => false end.

(** A message that may not be delivered yet. *)
Definition hidden (now : Z) (m : SqsMessage) : bool :=
  match visible_at m with Some v => (now <? v)%Z | None => false end.

(** A lapsed message goes back to the queue without its handles. *)
Definition give_back (front : bool) (q : SqsQueue) (m : SqsMessage) : SqsQueue :=
  let q := with_handles q (delete (message_id m) (receipt_handle_map q)) in
  let m := with_visibility m None None in
  if front then push_front q m else push_back q m.

Definition return_lapsed (now : Z) (q : SqsQueue) : SqsQueue :=
  let returned := filter (fun m => lapsed now m = true) (inflight q) in
  let q := with_lists q (messages q) (filter (fun m => lapsed now m = false) (inflight q)) in
  if is_fifo q then foldl (give_back true) q (rev returned)
  else foldl (give_back false) q returned.

(** The lookup of a known receive attempt: the batch it returned, re-read from
    the in-flight messages. *)
Definition replay_batch (q : SqsQueue) (attempt : option string) : list SqsMessage :=
  match attempt ≫= fun a => receive_attempt_cache q !! a with
  | None => []
  | Some e => omap (fun mid => find (fun m => String.eqb (message_id m) mid) (inflight q))
                (ra_message_ids e)
  end.

Definition encrypts (svc : SqsService) (q : SqsQueue) : bool :=
  bool_decide (is_Some (effective_kms_key_id (attributes q))) && bool_decide (is_Some (kms_hook svc)).

(** Decrypts bodies in order, stopping at the first failure. *)
Fixpoint decrypt_bodies (svc : SqsService) (account queue_arn : string)
  (batch : list SqsMessage) (w : World) : World * Result AwsServiceError (list string) :=
  match batch with
  | [] => (w, Ok [])
  | m :: rest =>
      let '(w, r) := decrypt_message_body svc w account queue_arn (body m) in
      match r with
      | Err e => (w, Err e)
      | Ok text =>
          let '(w, r) := decrypt_bodies svc account queue_arn rest w in
          (w, texts ← r; Ok (text :: texts))
      end
  end.

Definition with_bodies (batch : list SqsMessage) (texts : list string) : list SqsMessage :=
  zip_with with_body batch texts.

(** What the selection loops build up. *)
Record Picked := mkPicked {
  received : list SqsMessage;
  dlq_messages : list (string * SqsMessage);
  remaining : list SqsMessage;
  handles : gmap string (list string);
  p_world : World
}.

(** One more receipt of [msg]: counted, then dead-lettered or handed out
    with a new handle until [now] plus the visibility timeout. *)
Definition pick (rp : option RedrivePolicy) (now timeout : Z) (p : Picked) (msg : SqsMessage)
  : Picked :=
  let count := u32_add (receive_count msg) 1 in
  let '(first, w) :=
    match first_received_at msg with
    | Some t => (Some t, p_world p)
    | None => (Some (timestamp_millis (clock (ticks (p_world p)))), ticked (p_world p))
    end in
  let msg := with_counts msg count first in
  match (rp ≫= fun r => if (max_receive_count r <? count)%Z then Some r else None) with
  | Some r =>
      mkPicked (received p) (dlq_messages p ++ [(dead_letter_target_arn r, msg)])
        (remaining p) (handles p) w
  | None =>
      let handle := new_v4 (uuids w) in
      let old := default [] (handles p !! message_id msg) in
      mkPicked (received p ++ [with_visibility msg (Some handle) (Some (now + seconds timeout)%Z)])
        (dlq_messages p) (remaining p) (<[message_id msg := old ++ [handle]]> (handles p))
        (minted w)
  end.

Definition keep_back (p : Picked) (msgs : list SqsMessage) : Picked :=
  mkPicked (received p) (dlq_messages p) (remaining p ++ msgs) (handles p) (p_world p).

Definition inflight_groups (q : SqsQueue) : list string := omap message_group_id (inflight q).

Definition group_or_empty (m : SqsMessage) : string := default EmptyString (message_group_id m).

(** The FIFO loop; at its [break] the second loop keeps the rest. *)
Fixpoint fifo_loop (rp : option RedrivePolicy) (now timeout : Z) (max : nat)
  (groups : list string) (msgs : list SqsMessage) (p : Picked) : Picked :=
  match msgs with
  | [] => p
  | msg :: rest =>
      if hidden now msg then fifo_loop rp now timeout max groups rest (keep_back p [msg])
      else if bool_decide (group_or_empty msg ∈ groups)
      then fifo_loop rp now timeout max groups rest (keep_back p [msg])
      else if length (received p) <? max
      then fifo_loop rp now timeout max groups rest (pick rp now timeout p msg)
      else keep_back p (msg :: rest)
  end.

(** [slice::sort_by_key], which is stable: insertion sort from the right. *)
Fixpoint insert_by_key {A} (key : A -> nat) (x : A) (l : list A) : list A :=
  match l with
  | [] => [x]
  | y :: l' => if key x <=? key y then x :: l else y :: insert_by_key key x l'
  end.

Definition sort_by_key {A} (key : A -> nat) (l : list A) : list A :=
  foldr (insert_by_key key) [] l.

(** In-flight messages of the message's group; 0 without a group. *)
Definition group_load (q : SqsQueue) (m : SqsMessage) : nat :=
  match message_group_id m with
  | None => 0
  | Some g => length (filter (fun x => x = g) (inflight_groups q))
  end.

Fixpoint standard_loop (rp : option RedrivePolicy) (now timeout : Z) (max : nat)
  (visible : list SqsMessage) (p : Picked) : Picked :=
  match visible with
  | [] => p
  | msg :: rest =>
      standard_loop rp now timeout max rest
        (if length (received p) <? max then pick rp now timeout p msg else keep_back p [msg])
  end.

Definition select_messages (q : SqsQueue) (now timeout : Z) (max : nat) (w : World) : Picked :=
  let start rem := mkPicked [] [] rem (receipt_handle_map q) w in
  if is_fifo q then
    fifo_loop (redrive_policy q) now timeout max (inflight_groups q) (messages q) (start [])
  else
    standard_loop (redrive_policy q) now timeout max
      (sort_by_key (group_load q) (filter (fun m => hidden now m = false) (messages q)))
      (start (filter (fun m => hidden now m = true) (messages q))).

(** Undoing the selection of [received] after a decrypt failure. *)
Definition unpick (hs : gmap string (list string)) (m : SqsMessage)
  : gmap string (list string) * SqsMessage :=
  (match receipt_handle m, hs !! message_id m with
   | Some handle, Some l => <[message_id m := filter (fun h => h <> handle) l]> hs
   | _, _ => hs
   end,
   with_counts (with_visibility m None None) (Z.max 0 (receive_count m - 1)) (first_received_at m)).

Fixpoint restore (hs : gmap string (list string)) (batch : list SqsMessage)
  : gmap string (list string) * list SqsMessage :=
  match batch with
  | [] => (hs, [])
  | m :: rest =>
      let '(hs, m) := unpick hs m in
      let '(hs, ms) := restore hs rest in
      (hs, m :: ms)
  end.

(** [queues.values_mut().find(|q| q.arn == arn)]: its URL. *)
Definition url_of_arn (st : SqsState) (a : string) : option (string * SqsQueue) :=
  find (fun uq : string * SqsQueue => String.eqb (arn uq.2) a) (BTree.iter (queues st)).

(** One dead-lettered message: to its target queue, or back to its source
    when the target does not exist; in both with a fresh receive history. *)
Definition move_to_dlq (queue_arn : string) (st : SqsState) (dm : string * SqsMessage) : SqsState :=
  let '(dlq_arn, m) := dm in
  let m := with_counts (with_visibility m None None) 0 None in
  match url_of_arn st dlq_arn with
  | Some (url, dlq) => put_queue st url (push_back dlq m)
  | None =>
      match url_of_arn st queue_arn with
      | Some (url, source) => put_queue st url (push_back source m)
      | None => st
      end
  end.

(** Remembers the attempt for a retry. *)
Definition record_attempt (st : SqsState) (url : string) (attempt : option string)
  (batch : list SqsMessage) (expiry : Z) : SqsState :=
  match attempt, queues st !! url with
  | Some a, Some q =>
      put_queue st url
        (with_attempts q (<[a := mkAttempt (message_id <$> batch) expiry]> (receive_attempt_cache q)))
  | _, _ => st
  end.

(** From the selected messages to the response: decryption, in-flight
    bookkeeping, dead letters, the attempt cache. *)
Definition deliver (svc : SqsService) (account : string) (st : SqsState) (url : string)
  (q : SqsQueue) (now timeout : Z) (attempt : option string) (p : Picked)
  : SqsState * World * Result AwsServiceError (list SqsMessage) :=
  let q := with_handles (with_lists q (remaining p) (inflight q)) (handles p) in
  let '(w, texts) :=
    if encrypts svc q then
      let '(w, r) := decrypt_bodies svc account (arn q) (received p) (p_world p) in
      (w, ts ← r; Ok (Some ts))
    else (p_world p, Ok None) in
  match texts with
  | Err e =>
      let '(hs, restored) := restore (handles p) (received p) in
      (put_queue st url (with_handles (with_lists q (restored ++ messages q) (inflight q)) hs),
       w, Err e)
  | Ok texts =>
      let q := with_lists q (messages q) (inflight q ++ received p) in
      let st := foldl (move_to_dlq (arn q)) (put_queue st url q) (dlq_messages p) in
      let batch := match texts with
                   | Some ts => with_bodies (received p) ts
                   | None => received p
                   end in
      let st := if is_fifo q && negb (bool_decide (batch = []))
                then record_attempt st url attempt batch (now + seconds timeout)%Z else st in
      (st, w, Ok batch)
  end.

Definition try_receive_messages (svc : SqsService) (account : string) (url_input : string)
  (max : nat) (req_timeout : option Z) (attempt : option string) (st : SqsState) (w : World)
  : SqsState * World * Result AwsServiceError (list SqsMessage) :=
  match find_queue url_input st with
  | Err e => (st, w, Err e)
  | Ok (url, q) =>
      let timeout := default (visibility_timeout_secs q) req_timeout in
      let now := clock (ticks w) in
      let w := ticked w in
      let q := if is_fifo q
               then with_attempts q
                      (filter (fun kv => (now < ra_expiry kv.2)%Z) (receive_attempt_cache q))
               else q in
      let replayed := if is_fifo q then replay_batch q attempt else [] in
      if negb (bool_decide (replayed = [])) then
        if encrypts svc q then
          let '(w, r) := decrypt_bodies svc account (arn q) replayed w in
          (put_queue st url q, w, ts ← r; Ok (with_bodies replayed ts))
        else (put_queue st url q, w, Ok replayed)
      else
        let q := return_lapsed now (expire_old now q) in
        deliver svc account st url q now timeout attempt
          (select_messages q now timeout max w)
  end.

(** ** Receipt handles *)

Definition find_message_id_for_receipt (q : SqsQueue) (handle : string) : option string :=
  match find (fun kv : string * list string => existsb (String.eqb handle) kv.2)
          (BTree.iter (receipt_handle_map q)) with
  | Some (mid, _) => Some mid
  | None =>
      message_id <$> find (fun m => bool_decide (receipt_handle m = Some handle))
                       (inflight q ++ messages q)
  end.

(** Removing a message by id from both collections. *)
Definition drop_message (q : SqsQueue) (mid : string) : SqsQueue :=
  with_lists q (filter (fun m => message_id m <> mid) (messages q))
    (filter (fun m => message_id m <> mid) (inflight q)).

Definition delete_message (req : Request) (st : SqsState) : SqsState * Result AwsServiceError Value :=
  let b := req_body req in
  let checked :=
    url ← ok_or (missing_param "QueueUrl") (as_str (index b "QueueUrl"));
    handle ← ok_or (missing_param "ReceiptHandle") (as_str (index b "ReceiptHandle"));
    '(url, q) ← find_queue url st;
    mid ← ok_or invalid_receipt (find_message_id_for_receipt q handle);
    Ok (url, q, mid) in
  match checked with
  | Err e => (st, Err e)
  | Ok (url, q, mid) => (put_queue st url (drop_message q mid), Ok (VObject []))
  end.

(** The first message with the id gets a new visibility deadline. *)
Fixpoint set_visible_at (mid : string) (deadline : Z) (l : list SqsMessage)
  : option (list SqsMessage) :=
  match l with
  | [] => None
  | m :: rest =>
      if String.eqb (message_id m) mid
      then Some (with_visibility m (receipt_handle m) (Some deadline) :: rest)
      else cons m <$> set_visible_at mid deadline rest
  end.

(** In-flight messages first, then the queue; [None] when neither has it. *)
Definition change_visibility (q : SqsQueue) (mid : string) (deadline : Z) : option SqsQueue :=
  match set_visible_at mid deadline (inflight q) with
  | Some infl => Some (with_lists q (messages q) infl)
  | None => (fun msgs => with_lists q msgs (inflight q)) <$> set_visible_at mid deadline (messages q)
  end.

Definition in_visibility_range (v : Z) : bool := (0 <=? v)%Z && (v <=? 43200)%Z.

Definition visibility_message (v : Z) : string :=
  "VisibilityTimeout " +:+ print_Z v +:+ " is invalid. Reason: Must be between 0 and 43200 seconds.".

Definition change_message_visibility (req : Request) (st : SqsState) (w : World)
  : SqsState * World * Result AwsServiceError Value :=
  let b := req_body req in
  let checked :=
    url ← ok_or (missing_param "QueueUrl") (as_str (index b "QueueUrl"));
    handle ← ok_or (missing_param "ReceiptHandle") (as_str (index b "ReceiptHandle"));
    timeout ← ok_or (missing_param "VisibilityTimeout") (val_as_i64 (index b "VisibilityTimeout"));
    _ ← (if in_visibility_range timeout then Ok tt
         else Err (aws_error 400 "InvalidParameterValue" (visibility_message timeout)));
    uq ← find_queue url st;
    Ok (handle, timeout, uq) in
  match checked with
  | Err e => (st, w, Err e)
  | Ok (handle, timeout, (url, q)) =>
      let now := clock (ticks w) in
      match find_message_id_for_receipt q handle ≫= fun mid =>
              change_visibility q mid (now + seconds timeout) with
      | Some q => (put_queue st url q, ticked w, Ok (VObject []))
      | None => (st, ticked w, Err invalid_receipt)
      end
  end.

(** ** Batch deletes and visibility changes *)

(** The duplicate-id check shared by both batch operations. *)
Fixpoint check_distinct_ids (entries : list Value) (seen : list string)
  : Result AwsServiceError unit :=
  match entries with
  | [] => Ok tt
  | entry :: rest =>
      match as_str (index entry "Id") with
      | None => check_distinct_ids rest seen
      | Some id =>
          if bool_decide (id ∈ seen)
          then Err (aws_error 400 "AWS.SimpleQueueService.BatchEntryIdsNotDistinct"
                      "Two or more batch entries in the operation have the same Id.")
          else check_distinct_ids rest (id :: seen)
      end
  end.

(** The checks before the lock and the queue lookup under it. *)
Definition batch_target (b : Value) (what : string) (st : SqsState)
  : Result AwsServiceError (list Value * (string * SqsQueue)) :=
  url ← ok_or (missing_param "QueueUrl") (as_str (index b "QueueUrl"));
  entries ← batch_entries b what;
  _ ← check_distinct_ids entries [];
  uq ← find_queue url st;
  Ok (entries, uq).

(** One entry of a batch; entries without an id are skipped. *)
Definition run_entries (step : SqsQueue -> string -> Value -> SqsQueue * Result Value unit)
  : SqsQueue -> list Value -> SqsQueue * (list Value * list Value) :=
  fix go q entries :=
    match entries with
    | [] => (q, ([], []))
    | entry :: rest =>
        match as_str (index entry "Id") with
        | None => go q rest
        | Some id =>
            let '(q, outcome) := step q id entry in
            let '(q, (ok, bad)) := go q rest in
            (q, match outcome with
                | Ok _ => (VObject [("Id"%string, VString id)] :: ok, bad)
                | Err v => (ok, v :: bad)
                end)
        end
    end.

Definition visibility_entry (now : Z) (q : SqsQueue) (id : string) (entry : Value)
  : SqsQueue * Result Value unit :=
  let checked :=
    handle ← ok_or (batch_failure id "MissingParameter" "ReceiptHandle is required")
               (as_str (index entry "ReceiptHandle"));
    timeout ← ok_or (batch_failure id "MissingParameter" "VisibilityTimeout is required")
                (val_as_i64 (index entry "VisibilityTimeout"));
    _ ← (if in_visibility_range timeout then Ok tt
         else Err (batch_failure id "InvalidParameterValue" (visibility_message timeout)));
    ok_or (batch_failure id "ReceiptHandleIsInvalid" invalid_receipt_message)
      (find_message_id_for_receipt q handle ≫= fun mid =>
         change_visibility q mid (now + seconds timeout)) in
  match checked with Err v => (q, Err v) | Ok q => (q, Ok tt) end.

Definition change_message_visibility_batch (req : Request) (st : SqsState) (w : World)
  : SqsState * World * Result AwsServiceError Value :=
  match batch_target (req_body req) "entry" st with
  | Err e => (st, w, Err e)
  | Ok (entries, (url, q)) =>
      let '(q, (ok, bad)) := run_entries (visibility_entry (clock (ticks w))) q entries in
      (put_queue st url q, ticked w, Ok (batch_response ok bad))
  end.

Definition delete_entry (q : SqsQueue) (id : string) (entry : Value)
  : SqsQueue * Result Value unit :=
  let checked :=
    handle ← ok_or (batch_failure id "MissingParameter" "ReceiptHandle is required")
               (as_str (index entry "ReceiptHandle"));
    ok_or (batch_failure id "ReceiptHandleIsInvalid"
             ("The input receipt handle " +:+ String "034" (handle +:+ String "034"
                " is not a valid receipt handle.")))
      (find_message_id_for_receipt q handle) in
  match checked with Err v => (q, Err v) | Ok mid => (drop_message q mid, Ok tt) end.

Definition delete_message_batch (req : Request) (st : SqsState)
  : SqsState * Result AwsServiceError Value :=
  match batch_target (req_body req) "DeleteMessageBatchRequestEntry" st with
  | Err e => (st, Err e)
  | Ok (entries, (url, q)) =>
      let '(q, (ok, bad)) := run_entries delete_entry q entries in
      (put_queue st url q, Ok (batch_response ok bad))
  end.

(** ** The ReceiveMessage handler *)

Definition receive_range_error (v : Z) (name range : string) : AwsServiceError :=
  aws_error 400 "InvalidParameterValue"
    ("Value " +:+ print_Z v +:+ " for parameter " +:+ name +:+ " is invalid. Reason: Must be between "
       +:+ range).

Definition check_range (v : option Z) (lo hi : Z) (name range : string)
  : Result AwsServiceError unit :=
  match v with
  | Some z => if (lo <=? z)%Z && (z <=? hi)%Z then Ok tt else Err (receive_range_error z name range)
  | None => Ok tt
  end.

Record ReceiveParams := mkReceive {
  r_url : string;
  r_max : nat;
  r_timeout : option Z;
  r_attempt : option string;
  r_wait : Z
}.

(** [receive_message] before its polling loop. *)
Definition receive_validate (b : Value) (st : SqsState) : Result AwsServiceError ReceiveParams :=
  input ← ok_or (missing_param "QueueUrl") (as_str (index b "QueueUrl"));
  url ← ok_or queue_not_found (resolve_queue_url input st);
  let wait_default := (queues st !! url ≫= fun q => attr q "ReceiveMessageWaitTimeSeconds")
                        ≫= parse_i64 in
  let max := val_as_i64 (index b "MaxNumberOfMessages") in
  _ ← check_range max 1 10 "MaxNumberOfMessages" "1 and 10, if provided.";
  let timeout := val_as_i64 (index b "VisibilityTimeout") in
  _ ← check_range timeout 0 43200 "VisibilityTimeout" "0 and 43200 seconds.";
  let attempt := s ← as_str (index b "ReceiveRequestAttemptId");
                 if is_empty_str s then None else Some s in
  let wait := val_as_i64 (index b "WaitTimeSeconds") in
  _ ← check_range wait 0 20 "WaitTimeSeconds" "0 and 20, if provided.";
  let wait := default 0%Z (match wait with Some v => Some v | None => wait_default end) in
  Ok (mkReceive url (Z.to_nat (Z.min (default 1%Z max) 10)) timeout attempt (clamp wait 0 20)).

(** One poll; the loop repeats it every 100 ms until a message arrives or
    [r_wait] seconds have passed. *)
Definition receive_poll (svc : SqsService) (req : Request) (p : ReceiveParams)
  (st : SqsState) (w : World) : SqsState * World * Result AwsServiceError (list SqsMessage) :=
  try_receive_messages svc (req_account_id req) (r_url p) (r_max p) (r_timeout p) (r_attempt p) st w.

(** ** Background operations ([simulation.rs]) *)

Definition expired_count (now : Z) (q : SqsQueue) : nat :=
  length (messages q) + length (inflight q)
  - (length (messages (expire_old now q)) + length (inflight (expire_old now q))).

(** [tick_expiration] on the state of one (account, region). *)
Definition tick_state (now : Z) (st : SqsState) : SqsState * nat :=
  (mkState (account_id st) (region st) (endpoint st) (expire_old now <$> queues st)
     (name_to_url st) (message_move_tasks st),
   sum_list (expired_count now <$> BTree.values (queues st))).

Definition force_dlq_in (st : SqsState) (name : string) : option (SqsState * nat) :=
  match name_to_url st !! name ≫= fun url =>
        pair url <$> (queues st !! url ≫= redrive_policy) with
  | None => Some (st, 0)
  | Some (url, rp) =>
      match url_of_arn st (dead_letter_target_arn rp) with
      | None => Some (st, 0)
      | Some (_, target) =>
          let dlq_url := queue_url target in
          q ← queues st !! url;
          let over m := (max_receive_count rp <=? receive_count m)%Z in
          let to_move := filter (fun m => over m = true) (messages q)
                         ++ filter (fun m => over m = true) (inflight q) in
          let q := with_lists q (filter (fun m => over m = false) (messages q))
                     (filter (fun m => over m = false) (inflight q)) in
          let st := put_queue st url q in
          dlq ← queues st !! dlq_url;
          Some (put_queue st dlq_url
                  (foldl (fun d m => push_back d (with_visibility m None None)) dlq to_move),
                length to_move)
      end
  end.

End Handlers.

(** ** Requests on the shared state *)

(** A handler under the write lock: it runs on the state of the request's
    account and region.  [None] is a panic. *)
Definition on_region {A} (m : MultiRegionState SqsState) (account rg : string)
  (f : SqsState -> SqsState * A) : option (MultiRegionState SqsState * A) :=
  '(m, st) ← regional_mut m account rg;
  let '(st, a) := f st in
  Some (put_regional m account rg st, a).

(** [tick_expiration] over every account and region. *)
Definition tick_expiration (now : Z) (m : MultiRegionState SqsState)
  : MultiRegionState SqsState * nat :=
  (map_accounts (map_regions (fun st => (tick_state now st).1)) m,
   sum_list ((fun st => (tick_state now st).2) <$>
     (map_to_list (accounts m) ≫= fun ars : string * RegionalState SqsState =>
        BTree.values (regions ars.2)))).

(** [force_dlq]: [None] is a panic of one of its [unwrap]s. *)
Definition force_dlq (m : MultiRegionState SqsState) (account rg name : string)
  : option (MultiRegionState SqsState * nat) :=
  match regional m account rg with
  | None => Some (m, 0)
  | Some st => '(st, n) ← force_dlq_in st name; Some (put_regional m account rg st, n)
  end.

End SqsReceive.
