(* ===== verification/SqsTheory.v ===== *)
(** * SQS never loses or duplicates a message

    A message is followed through the handlers by its [erase]d form, the
    fields no handler changes.  [contents] is the multiset of messages a
    regional state holds, queued or in flight; the theorems say what a
    receive, an expiry tick and a forced dead-letter move do to it, and what a
    consumer can rely on while a message is in flight. *)

From Stdlib Require Import ZArith Lia Bool String Ascii.
From stdpp Require Import base option list strings gmap sorting.
From S2P Require Import Prelude Json Arn BTree MultiAccount Sqs SqsSend SqsReceive.

Module SqsTheory.
Import Sqs SqsSend SqsReceive.

(** ** Messages and their multiset *)

Definition erase (m : SqsMessage) : SqsMessage := with_counts (with_visibility m None None) 0 None.

Definition queue_contents (q : SqsQueue) : list SqsMessage := erase <$> (messages q ++ inflight q).

Definition contents (st : SqsState) : list SqsMessage :=
  BTree.values (queues st) ≫= queue_contents.

Lemma erase_id m : message_id (erase m) = message_id m.
Proof. done. Qed.

Lemma queue_contents_lists q msgs infl :
  queue_contents (with_lists q msgs infl) = (erase <$> msgs) ++ (erase <$> infl).
Proof. apply fmap_app. Qed.

Lemma values_split {V} (m : gmap string V) k v :
  m !! k = Some v -> BTree.values m ≡ₚ v :: (snd <$> map_to_list (delete k m)).
Proof.
  intros Hk. unfold BTree.values. rewrite BTree.iter_Permutation.
  by rewrite <- (map_to_list_delete m k v Hk).
Qed.

(** Replacing one queue replaces its share of the contents. *)
Lemma contents_split st url q :
  queues st !! url = Some q ->
  exists rest, contents st ≡ₚ queue_contents q ++ rest
  /\ forall q', contents (put_queue st url q') ≡ₚ queue_contents q' ++ rest.
Proof.
  intros Hq. exists ((snd <$> map_to_list (delete url (queues st))) ≫= queue_contents). split.
  - unfold contents. by rewrite (values_split _ _ _ Hq).
  - intros q'. unfold contents. cbn [queues put_queue].
    rewrite (values_split _ url q') by apply lookup_insert_eq. by rewrite delete_insert_eq.
Qed.

Lemma contents_put st url q q' :
  queues st !! url = Some q -> queue_contents q ≡ₚ queue_contents q' ->
  contents (put_queue st url q') ≡ₚ contents st.
Proof.
  intros Hq Hp. destruct (contents_split _ _ _ Hq) as (rest & -> & Hput).
  by rewrite Hput, Hp.
Qed.

Lemma contents_push st url q m :
  queues st !! url = Some q -> contents (put_queue st url (push_back q m)) ≡ₚ erase m :: contents st.
Proof.
  intros Hq. destruct (contents_split _ _ _ Hq) as (rest & -> & Hput).
  rewrite Hput. unfold push_back. rewrite queue_contents_lists, fmap_app.
  unfold queue_contents. rewrite fmap_app. simpl. solve_Permutation.
Qed.

Lemma find_queue_Ok input st url q :
  find_queue input st = Ok (url, q) ->
  resolve_queue_url input st = Some url /\ queues st !! url = Some q.
Proof.
  unfold find_queue. intros Hf. destruct (resolve_queue_url input st) as [u|]; [|done].
  simpl in Hf. destruct (queues st !! u) eqn:E; [|done]. by injection Hf as <- <-.
Qed.

(** ** Lapsed messages *)

(** What the two give-back loops do to the queue. *)
Lemma give_back_all front l q :
  foldl (give_back front) q l =
  with_handles
    (with_lists q
       (let back := (fun m => with_visibility m None None) <$> l in
        if front then reverse back ++ messages q else messages q ++ back) (inflight q))
    (foldl (fun hs m => delete (message_id m) hs) (receipt_handle_map q) l).
Proof.
  revert q. induction l as [|m l IH]; intros q; [destruct q, front; simpl; by rewrite ?app_nil_r|].
  cbn [foldl]. rewrite IH. destruct front; cbn [fmap list_fmap]; simpl.
  - unfold with_handles, with_lists, push_front; simpl. f_equal.
    by rewrite reverse_cons, <- app_assoc.
  - unfold with_handles, with_lists, push_back; simpl. f_equal. by rewrite <- app_assoc.
Qed.

Lemma erase_visibility m a b : erase (with_visibility m a b) = erase m.
Proof. done. Qed.

Lemma filter_split {A} (f : A -> bool) (l : list A) :
  filter (fun x => f x = true) l ++ filter (fun x => f x = false) l ≡ₚ l.
Proof.
  induction l as [|x l IH]; [done|]. rewrite !filter_cons.
  destruct (f x) eqn:E; case_decide; try congruence; case_decide; try congruence; simpl.
  - by rewrite IH.
  - by rewrite <- Permutation_middle, IH.
Qed.

(** The queue after its lapsed messages came back: those, cleared, in front
    (FIFO) or behind. *)
Definition returned (now : Z) (q : SqsQueue) : list SqsMessage :=
  (fun m => with_visibility m None None) <$> filter (fun m => lapsed now m = true) (inflight q).

Lemma return_lapsed_eq now q :
  return_lapsed now q =
  with_handles
    (with_lists q
       (if is_fifo q then returned now q ++ messages q else messages q ++ returned now q)
       (filter (fun m => lapsed now m = false) (inflight q)))
    (receipt_handle_map (return_lapsed now q)).
Proof.
  unfold return_lapsed, returned. cbn [is_fifo with_lists].
  destruct (is_fifo q); rewrite give_back_all; unfold with_handles, with_lists; simpl; [|done].
  f_equal. rewrite rev_alt. fold (reverse (filter (fun m => lapsed now m = true) (inflight q))).
  by rewrite fmap_reverse, reverse_involutive.
Qed.

Lemma return_lapsed_contents now q : queue_contents (return_lapsed now q) ≡ₚ queue_contents q.
Proof.
  rewrite return_lapsed_eq. change (queue_contents (with_handles ?a ?b)) with (queue_contents a).
  rewrite queue_contents_lists. unfold queue_contents. rewrite fmap_app.
  assert (Hr : (erase <$> returned now q) ++ (erase <$> filter (fun m => lapsed now m = false) (inflight q))
               ≡ₚ erase <$> inflight q).
  { unfold returned. rewrite <- list_fmap_compose, <- fmap_app.
    rewrite <- (filter_split (lapsed now) (inflight q)) at 3. by rewrite fmap_app. }
  rewrite <- Hr. destruct (is_fifo q); rewrite fmap_app; solve_Permutation.
Qed.

(** Retention drops exactly the messages that are too old. *)
Definition too_old (now : Z) (q : SqsQueue) (m : SqsMessage) : Prop :=
  within_retention now (retention_seconds q) m = false.

Lemma expire_old_contents now q :
  exists lost, queue_contents q ≡ₚ queue_contents (expire_old now q) ++ (erase <$> lost)
  /\ Forall (too_old now q) lost.
Proof.
  set (keep := within_retention now (retention_seconds q)).
  exists (filter (fun m => keep m = false) (messages q ++ inflight q)). split.
  - unfold expire_old. rewrite queue_contents_lists. unfold queue_contents.
    rewrite <- !fmap_app, <- filter_app. fold keep.
    by rewrite (filter_split keep (messages q ++ inflight q)).
  - apply Forall_forall. intros m Hm. by apply list_elem_of_filter in Hm as [? _].
Qed.

(** ** Selection *)

Section Selection.
Context `{Host}.

Definition picked_all (p : Picked) : list SqsMessage :=
  received p ++ (dlq_messages p).*2 ++ remaining p.

Lemma pick_all rp now timeout p m :
  erase <$> picked_all (pick rp now timeout p m) ≡ₚ erase m :: (erase <$> picked_all p).
Proof.
  unfold pick, picked_all. destruct (first_received_at m);
    (destruct (rp ≫= _) as [r|]; simpl; rewrite !fmap_app; simpl; solve_Permutation).
Qed.

Lemma keep_back_all p ms : picked_all (keep_back p ms) = picked_all p ++ ms.
Proof. unfold picked_all, keep_back. simpl. by rewrite !app_assoc. Qed.

Lemma fifo_loop_all rp now timeout max groups msgs p :
  erase <$> picked_all (fifo_loop rp now timeout max groups msgs p)
  ≡ₚ (erase <$> picked_all p) ++ (erase <$> msgs).
Proof.
  revert p. induction msgs as [|m msgs IH]; intros p; [by rewrite app_nil_r|].
  cbn [fifo_loop]. destruct (hidden now m); [|case_bool_decide; [|case_match]];
    rewrite ?IH, ?pick_all, ?keep_back_all, ?fmap_app; simpl; solve_Permutation.
Qed.

Lemma standard_loop_all rp now timeout max msgs p :
  erase <$> picked_all (standard_loop rp now timeout max msgs p)
  ≡ₚ (erase <$> picked_all p) ++ (erase <$> msgs).
Proof.
  revert p. induction msgs as [|m msgs IH]; intros p; [by rewrite app_nil_r|].
  cbn [standard_loop]. rewrite IH.
  case_match; rewrite ?pick_all, ?keep_back_all, ?fmap_app; simpl; solve_Permutation.
Qed.

Lemma insert_by_key_Permutation {A} (key : A -> nat) x l : insert_by_key key x l ≡ₚ x :: l.
Proof.
  induction l as [|y l IH]; [done|]. simpl. case_match; [done|].
  rewrite IH. solve_Permutation.
Qed.

Lemma sort_by_key_Permutation {A} (key : A -> nat) l : sort_by_key key l ≡ₚ l.
Proof.
  induction l as [|x l IH]; [done|]. simpl. by rewrite insert_by_key_Permutation, IH.
Qed.

Lemma select_messages_all q now timeout max w :
  erase <$> picked_all (select_messages q now timeout max w) ≡ₚ erase <$> messages q.
Proof.
  unfold select_messages. destruct (is_fifo q).
  - rewrite fifo_loop_all. done.
  - rewrite standard_loop_all, sort_by_key_Permutation.
    unfold picked_all; simpl. rewrite <- fmap_app. by rewrite filter_split.
Qed.

(** What a selection loop guarantees of everything it picked. *)
Record pick_inv (rp : option RedrivePolicy) (now timeout : Z) (max : nat) (p : Picked) : Prop := {
  pi_max : length (received p) <= max;
  pi_received : Forall (fun m =>
      visible_at m = Some (now + seconds timeout)%Z
      /\ (exists n, receipt_handle m = Some (new_v4 n))
      /\ is_Some (first_received_at m)
      /\ (forall r, rp = Some r -> (receive_count m <= max_receive_count r)%Z)) (received p);
  pi_dlq : Forall (fun dm => exists r, rp = Some r /\ dm.1 = dead_letter_target_arn r
      /\ (max_receive_count r < receive_count dm.2)%Z) (dlq_messages p)
}.

Lemma pick_keeps_inv rp now timeout max p m :
  length (received p) < max -> pick_inv rp now timeout max p ->
  pick_inv rp now timeout max (pick rp now timeout p m).
Proof.
  intros Hlt [H1 H2 H3]. unfold pick.
  destruct (first_received_at m) as [t|];
    (destruct rp as [r|]; simpl; [destruct (Z.ltb_spec (max_receive_count r) (u32_add (receive_count m) 1)); simpl|]);
    constructor; simpl; rewrite ?length_app, ?Forall_app; simpl; try lia; try done;
    repeat split; try done; repeat constructor; simpl; try done; eauto.
  all: intros r' [= <-]; lia.
Qed.

Lemma keep_back_keeps_inv rp now timeout max p ms :
  pick_inv rp now timeout max p -> pick_inv rp now timeout max (keep_back p ms).
Proof. intros [H1 H2 H3]. by constructor. Qed.

Lemma select_messages_inv q now timeout max w :
  pick_inv (redrive_policy q) now timeout max (select_messages q now timeout max w).
Proof.
  unfold select_messages. destruct (is_fifo q).
  - generalize (inflight_groups q); intros groups.
    assert (Hinit : pick_inv (redrive_policy q) now timeout max
                      (mkPicked [] [] [] (receipt_handle_map q) w)) by (constructor; simpl; auto with lia).
    revert Hinit. generalize (mkPicked [] [] [] (receipt_handle_map q) w).
    induction (messages q) as [|m l IH]; intros p Hp; [done|]. cbn [fifo_loop].
    destruct (hidden now m); [by apply IH, keep_back_keeps_inv|].
    case_bool_decide; [by apply IH, keep_back_keeps_inv|].
    case_match eqn:E; [|by apply keep_back_keeps_inv].
    apply IH, pick_keeps_inv; [|done]. by apply Nat.ltb_lt in E.
  - generalize (sort_by_key (group_load q) (filter (fun m => hidden now m = false) (messages q))).
    generalize (filter (fun m => hidden now m = true) (messages q)). intros rem l.
    assert (Hinit : pick_inv (redrive_policy q) now timeout max
                      (mkPicked [] [] rem (receipt_handle_map q) w)) by (constructor; simpl; auto with lia).
    revert Hinit. generalize (mkPicked [] [] rem (receipt_handle_map q) w).
    induction l as [|m l IH]; intros p Hp; [done|]. cbn [standard_loop]. apply IH.
    case_match eqn:E; [|by apply keep_back_keeps_inv].
    apply pick_keeps_inv; [|done]. by apply Nat.ltb_lt in E.
Qed.

(** The handles a selection hands out are the identifiers it draws, one after
    another, each for a message of [src] that is not hidden, counted once more. *)
Definition receipt_of (m0 m : SqsMessage) : Prop :=
  erase m = erase m0 /\ receive_count m = u32_add (receive_count m0) 1
  /\ (is_Some (first_received_at m0) -> first_received_at m = first_received_at m0).

Record hand_inv (now : Z) (src : list SqsMessage) (u : nat) (p : Picked) : Prop := {
  hi_handles : receipt_handle <$> received p = (fun n => Some (new_v4 n)) <$> seq u (length (received p));
  hi_uuids : uuids (p_world p) = u + length (received p);
  hi_from : Forall (fun m => exists m0, m0 ∈ src /\ hidden now m0 = false /\ receipt_of m0 m) (received p)
}.

Lemma pick_keeps_hand rp now timeout src u p m : m ∈ src -> hidden now m = false ->
  hand_inv now src u p -> hand_inv now src u (pick rp now timeout p m).
Proof.
  intros Hm Hh [H1 H2 H3]. unfold pick.
  set (first := match first_received_at m with Some t => (Some t, p_world p) | None => _ end).
  assert (Hf : uuids first.2 = uuids (p_world p) /\ (is_Some (first_received_at m) -> first.1 = first_received_at m)).
  { unfold first. destruct (first_received_at m) as [t|]; [done|]. split; [done|]. by intros [? ?]. }
  destruct first as [f w]. cbn [fst snd] in Hf. destruct Hf as [Hu Hf]. destruct (rp ≫= _) as [r|]; constructor; simpl; try done.
  - by rewrite Hu.
  - rewrite length_app, fmap_app, seq_app, fmap_app, H1. simpl. by rewrite Hu, H2.
  - rewrite length_app. simpl. lia.
  - apply Forall_app. split; [done|]. constructor; [|constructor]. by exists m.
Qed.

Lemma keep_back_keeps_hand now src u p ms : hand_inv now src u p -> hand_inv now src u (keep_back p ms).
Proof. intros [H1 H2 H3]. by constructor. Qed.

Lemma select_messages_hand q now timeout max w : hand_inv now (messages q) (uuids w) (select_messages q now timeout max w).
Proof.
  assert (Hinit : forall rem, hand_inv now (messages q) (uuids w) (mkPicked [] [] rem (receipt_handle_map q) w))
    by (intros rem; constructor; simpl; [done|lia|constructor]).
  unfold select_messages. destruct (is_fifo q).
  - assert (Hloop : forall l p, (forall m, m ∈ l -> m ∈ messages q) -> hand_inv now (messages q) (uuids w) p ->
      hand_inv now (messages q) (uuids w) (fifo_loop (redrive_policy q) now timeout max (inflight_groups q) l p)).
    { induction l as [|m l IH]; intros p Hsub Hp; [done|]. cbn [fifo_loop].
      assert (Hsub' : forall x, x ∈ l -> x ∈ messages q) by (intros x Hx; apply Hsub; by right).
      destruct (hidden now m) eqn:Eh; [by apply IH, keep_back_keeps_hand|].
      case_bool_decide; [by apply IH, keep_back_keeps_hand|]. case_match; [|by apply keep_back_keeps_hand].
      apply IH; [done|]. apply pick_keeps_hand; [apply Hsub; by left|done|done]. }
    by apply Hloop.
  - specialize (Hinit (filter (fun m => hidden now m = true) (messages q))). revert Hinit.
    generalize (mkPicked [] [] (filter (fun m => hidden now m = true) (messages q)) (receipt_handle_map q) w).
    assert (Hsub : forall m, m ∈ sort_by_key (group_load q) (filter (fun m => hidden now m = false) (messages q)) ->
      hidden now m = false /\ m ∈ messages q).
    { intros m. rewrite sort_by_key_Permutation. by intros ?%list_elem_of_filter. }
    revert Hsub. generalize (sort_by_key (group_load q) (filter (fun m => hidden now m = false) (messages q))).
    intros l. induction l as [|m l IH]; intros Hsub p Hp; [done|]. cbn [standard_loop].
    apply IH; [intros x Hx; apply Hsub; by right|]. case_match; [|by apply keep_back_keeps_hand].
    destruct (Hsub m ltac:(by left)). by apply pick_keeps_hand.
Qed.

End Selection.

(** ** Dead letters *)

Definition has_arn (st : SqsState) (a : string) : Prop :=
  exists url q, queues st !! url = Some q /\ arn q = a.

Lemma url_of_arn_Some st a url q :
  url_of_arn st a = Some (url, q) -> queues st !! url = Some q /\ arn q = a.
Proof.
  unfold url_of_arn. intros Hf. apply find_some in Hf as [Hin Heq]. simpl in Heq.
  split; [|by apply String.eqb_eq]. apply BTree.elem_of_iter. by apply list_elem_of_In.
Qed.

Lemma url_of_arn_None st a : url_of_arn st a = None -> ~ has_arn st a.
Proof.
  unfold url_of_arn. intros Hf (url & q & Hq & <-).
  eapply find_none in Hf; [|apply list_elem_of_In, BTree.elem_of_iter; exact Hq].
  simpl in Hf. by rewrite String.eqb_refl in Hf.
Qed.

Lemma has_arn_put st url q q' a :
  queues st !! url = Some q -> arn q' = arn q -> has_arn st a -> has_arn (put_queue st url q') a.
Proof.
  intros Hq Harn (u & q0 & Hu & Ha). destruct (decide (u = url)) as [->|Hne].
  - exists url, q'. simpl. rewrite lookup_insert_eq. split; [done|congruence].
  - exists u, q0. simpl. by rewrite lookup_insert_ne.
Qed.

Lemma move_to_dlq_spec queue_arn st dm :
  has_arn st queue_arn ->
  has_arn (move_to_dlq queue_arn st dm) queue_arn
  /\ contents (move_to_dlq queue_arn st dm) ≡ₚ erase dm.2 :: contents st.
Proof.
  intros Ha. destruct dm as [a m]. unfold move_to_dlq.
  destruct (url_of_arn st a) as [[url dlq]|] eqn:E.
  { apply url_of_arn_Some in E as [Hq _]. split; [by eapply has_arn_put|].
    rewrite (contents_push _ _ _ _ Hq). done. }
  destruct (url_of_arn st queue_arn) as [[url src]|] eqn:E2.
  { apply url_of_arn_Some in E2 as [Hq _]. split; [by eapply has_arn_put|].
    rewrite (contents_push _ _ _ _ Hq). done. }
  by apply url_of_arn_None in E2.
Qed.

Lemma move_all_to_dlq queue_arn dms st :
  has_arn st queue_arn ->
  contents (foldl (move_to_dlq queue_arn) st dms) ≡ₚ contents st ++ (erase <$> dms.*2).
Proof.
  revert st. induction dms as [|dm dms IH]; intros st Ha; [by rewrite app_nil_r|].
  destruct (move_to_dlq_spec _ _ dm Ha) as [Ha' Hc]. cbn [foldl]. rewrite IH by done.
  rewrite Hc. simpl. solve_Permutation.
Qed.

(** Moving dead letters leaves in-flight messages alone. *)
Lemma move_all_inflight queue_arn dms st url q :
  queues st !! url = Some q ->
  exists q', queues (foldl (move_to_dlq queue_arn) st dms) !! url = Some q'
  /\ inflight q' = inflight q /\ receipt_handle_map q' = receipt_handle_map q
  /\ receive_attempt_cache q' = receive_attempt_cache q
  /\ exists added, messages q' = messages q ++ added.
Proof.
  revert st q. induction dms as [|[a m] dms IH]; intros st q Hq.
  { exists q. split_and!; try done. exists []. by rewrite app_nil_r. }
  assert (Hstep : exists q1, queues (move_to_dlq queue_arn st (a, m)) !! url = Some q1
            /\ inflight q1 = inflight q /\ receipt_handle_map q1 = receipt_handle_map q
            /\ receive_attempt_cache q1 = receive_attempt_cache q
            /\ exists added, messages q1 = messages q ++ added).
  { assert (Hput : forall u q0 x, queues st !! u = Some q0 ->
              exists q1, queues (put_queue st u (push_back q0 x)) !! url = Some q1
                /\ inflight q1 = inflight q /\ receipt_handle_map q1 = receipt_handle_map q
                /\ receive_attempt_cache q1 = receive_attempt_cache q
                /\ exists added, messages q1 = messages q ++ added).
    { intros u q0 x Hu. simpl. destruct (decide (u = url)) as [->|Hne].
      - rewrite lookup_insert_eq. assert (q0 = q) as -> by congruence. simpl. eauto 10.
      - rewrite lookup_insert_ne by done. exists q. split_and!; try done.
        exists []. by rewrite app_nil_r. }
    unfold move_to_dlq. destruct (url_of_arn st a) as [[u q0]|] eqn:E.
    { apply url_of_arn_Some in E as [? _]. eauto. }
    destruct (url_of_arn st queue_arn) as [[u q0]|] eqn:E2.
    { apply url_of_arn_Some in E2 as [? _]. eauto. }
    exists q. split_and!; try done. exists []. by rewrite app_nil_r. }
  destruct Hstep as (q1 & H1 & H2 & H3 & H4 & add1 & H5). cbn [foldl].
  destruct (IH _ _ H1) as (q2 & ? & ? & ? & ? & add2 & ?). exists q2. split_and!; try congruence.
  exists (add1 ++ add2). rewrite app_assoc. congruence.
Qed.

(** ** Conservation *)

Section Conservation.
Context `{Host}.

Lemma restore_contents hs batch : erase <$> (restore hs batch).2 = erase <$> batch.
Proof.
  revert hs. induction batch as [|m l IH]; intros hs; [done|]. cbn [restore].
  destruct (unpick hs m) as [hs' m'] eqn:E.
  specialize (IH hs'). destruct (restore hs' l) as [hs'' ms]. unfold unpick in E. injection E as _ <-.
  cbn [snd]. rewrite !fmap_cons. f_equal. exact IH.
Qed.

Lemma contents_record_attempt st url attempt batch expiry :
  contents (record_attempt st url attempt batch expiry) ≡ₚ contents st.
Proof.
  unfold record_attempt. destruct attempt; [|done]. destruct (queues st !! url) eqn:E; [|done].
  by apply (contents_put _ _ _ _ E).
Qed.

(** A delivery keeps everything, except that a failed decryption drops the
    dead letters it had selected. *)
Lemma deliver_contents svc account st url q0 q now timeout attempt p st' w' r :
  queues st !! url = Some q0 -> arn q = arn q0 ->
  deliver svc account st url q now timeout attempt p = (st', w', r) ->
  exists rest, contents st ≡ₚ queue_contents q0 ++ rest
  /\ contents st' ++ (if is_ok r then [] else erase <$> (dlq_messages p).*2)
     ≡ₚ (erase <$> picked_all p) ++ (erase <$> inflight q) ++ rest.
Proof.
  intros Hq Harn Hd. destruct (contents_split _ _ _ Hq) as (rest & Hst & Hput).
  exists rest. split; [done|]. unfold deliver in Hd. cbn zeta in Hd.
  destruct (if encrypts svc _ then _ else _) as [w1 texts]. destruct texts as [ts|e].
  - injection Hd as <- <- <-. simpl is_ok. rewrite app_nil_r.
    match goal with |- contents (if ?c then _ else _) ≡ₚ _ =>
      destruct c; rewrite ?contents_record_attempt end;
    (rewrite move_all_to_dlq;
      [|exists url; eexists; simpl; rewrite lookup_insert_eq; split; reflexivity];
      rewrite Hput, queue_contents_lists; unfold picked_all; rewrite !fmap_app; simpl;
      solve_Permutation).
  - pose proof (restore_contents (handles p) (received p)) as Hres.
    destruct (restore (handles p) (received p)) as [hs restored]. simpl in Hres.
    injection Hd as <- <- <-. simpl is_ok. rewrite Hput.
    change (queue_contents (with_handles ?a ?b)) with (queue_contents a).
    rewrite queue_contents_lists, fmap_app, Hres. simpl.
    unfold picked_all. rewrite !fmap_app. solve_Permutation.
Qed.

(** The outcome of a receive that is not a replay. *)
Definition receivable (now : Z) (q : SqsQueue) : SqsQueue := return_lapsed now (expire_old now q).

Lemma receivable_contents now q :
  exists lost, queue_contents q ≡ₚ queue_contents (receivable now q) ++ (erase <$> lost)
  /\ Forall (too_old now q) lost.
Proof.
  destruct (expire_old_contents now q) as (lost & Hp & Hl). exists lost.
  split; [|done]. unfold receivable. by rewrite return_lapsed_contents.
Qed.

Lemma receivable_conf now q :
  arn (receivable now q) = arn q /\ redrive_policy (receivable now q) = redrive_policy q
  /\ is_fifo (receivable now q) = is_fifo q /\ attributes (receivable now q) = attributes q
  /\ queue_url (receivable now q) = queue_url q.
Proof. unfold receivable. rewrite return_lapsed_eq. by split_and!. Qed.

(** Two ways a message may leave the service in a receive. *)
Definition may_vanish (now : Z) (q : SqsQueue) (failed : bool) (m : SqsMessage) : Prop :=
  too_old now q m
  \/ failed = true /\ exists rp, redrive_policy q = Some rp /\ (max_receive_count rp < receive_count m)%Z.

Lemma receive_conserves_aux svc account input max timeout attempt st w st' w' r :
  try_receive_messages svc account input max timeout attempt st w = (st', w', r) ->
  exists lost, contents st ≡ₚ contents st' ++ (erase <$> lost)
  /\ forall m, m ∈ lost -> exists url q, find_queue input st = Ok (url, q)
       /\ may_vanish (clock (ticks w)) q (negb (is_ok r)) m.
Proof.
  unfold try_receive_messages. destruct (find_queue input st) as [[url q]|e] eqn:Ef.
  2: { intros [= <- <- <-]. exists []. split; [by rewrite app_nil_r|]. intros m Hm. by apply elem_of_nil in Hm. }
  pose proof (find_queue_Ok _ _ _ _ Ef) as [_ Hq]. cbn zeta.
  set (now := clock (ticks w)). set (q1 := if is_fifo q then _ else q).
  assert (H1 : queue_contents q1 = queue_contents q /\ arn q1 = arn q
               /\ redrive_policy q1 = redrive_policy q /\ attributes q1 = attributes q)
    by (unfold q1; by destruct (is_fifo q)).
  destruct H1 as (Hc1 & Ha1 & Hr1 & Hat1).
  assert (Hsame : contents (put_queue st url q1) ≡ₚ contents st)
    by (apply (contents_put _ _ _ _ Hq); by rewrite Hc1).
  destruct (negb _).
  { assert (Hkeep : exists lost, contents st ≡ₚ contents (put_queue st url q1) ++ (erase <$> lost)
       /\ forall m, m ∈ lost -> exists url' q', Ok (E := AwsServiceError) (url, q) = Ok (url', q')
            /\ may_vanish now q' (negb (is_ok r)) m).
    { exists []. rewrite app_nil_r. split; [by symmetry|]. intros m Hm. by apply elem_of_nil in Hm. }
    destruct (encrypts svc q1); [destruct (decrypt_bodies _ _ _ _ _) as [w1 r1]|];
      by intros [= <- _ _]. }
  fold (receivable now q1). intros Hd. destruct (receivable_conf now q1) as (Harn & Hrp & _).
  destruct (deliver_contents _ _ _ _ _ _ _ _ _ _ _ _ _ Hq (eq_trans Harn Ha1) Hd)
    as (rest & Hst & Hst').
  destruct (receivable_contents now q1) as (old & Hold & Hlost).
  rewrite select_messages_all in Hst'. rewrite app_assoc, <- fmap_app in Hst'.
  change (erase <$> messages ?a ++ inflight ?a) with (queue_contents a) in Hst'.
  set (dead := (dlq_messages (select_messages (receivable now q1) now _ max _)).*2) in Hst'.
  exists (old ++ if is_ok r then [] else dead). split.
  - rewrite Hst, <- Hc1, Hold. destruct (is_ok r).
    + rewrite !app_nil_r in *. rewrite Hst'. solve_Permutation.
    + rewrite fmap_app. transitivity ((contents st' ++ (erase <$> dead)) ++ (erase <$> old)).
      * rewrite Hst'. solve_Permutation.
      * solve_Permutation.
  - intros m Hm. exists url, q. split; [done|]. apply elem_of_app in Hm as [Hm|Hm].
    + left. rewrite Forall_forall in Hlost. specialize (Hlost _ Hm).
      unfold too_old, retention_seconds, attr in *. by rewrite Hat1 in Hlost.
    + destruct (is_ok r); [by apply elem_of_nil in Hm|]. right. split; [done|].
      apply list_elem_of_fmap in Hm as (dm & -> & Hdm).
      destruct (select_messages_inv (receivable now q1) now (default (visibility_timeout_secs q) timeout)
                  max (ticked w)) as [_ _ Hdl].
      rewrite Forall_forall in Hdl. destruct (Hdl _ Hdm) as (rp & Hrp' & _ & Hgt).
      exists rp. split; [congruence|done].
Qed.

End Conservation.

(** ** What a consumer gets *)

Section Delivery.
Context `{Host}.

Lemma decrypt_bodies_length svc account a batch w w' ts :
  decrypt_bodies svc account a batch w = (w', Ok ts) -> length ts = length batch.
Proof.
  revert w w' ts. induction batch as [|m l IH]; intros w w' ts; simpl; [by intros [= <- <-]|].
  destruct (decrypt_message_body _ _ _ _ _) as [w1 [t|e]]; [|done].
  destruct (decrypt_bodies svc account a l w1) as [w2 [ts'|e]] eqn:E; [|done].
  simpl. intros [= <- <-]. simpl. by rewrite (IH _ _ _ E).
Qed.

(** Decryption replaces bodies and nothing else. *)
Definition same_but_body (m b : SqsMessage) : Prop := b = with_body m (body b).

Lemma with_bodies_same batch ts :
  length ts = length batch -> Forall2 same_but_body batch (with_bodies batch ts).
Proof.
  unfold with_bodies. revert ts. induction batch as [|m l IH]; intros [|t ts] Hl; [done..|].
  constructor; [done|]. apply IH. by injection Hl.
Qed.

Lemma same_but_body_refl batch : Forall2 same_but_body batch batch.
Proof. apply Forall_Forall2_diag, Forall_true. by intros []. Qed.

Lemma deliver_ok svc account st url q now timeout attempt p st' w' batch :
  deliver svc account st url q now timeout attempt p = (st', w', Ok batch) ->
  Forall2 same_but_body (received p) batch
  /\ exists q', queues st' !! url = Some q' /\ inflight q' = inflight q ++ received p
     /\ receipt_handle_map q' = handles p
     /\ exists added, messages q' = remaining p ++ added.
Proof.
  intros Hd. unfold deliver in Hd. cbn zeta in Hd.
  destruct (if encrypts svc _ then _ else _) as [w1 texts] eqn:Et. destruct texts as [ts|e].
  2: { by destruct (restore (handles p) (received p)). }
  injection Hd as <- _ <-. split.
  - destruct ts as [ts|]; [|apply same_but_body_refl]. apply with_bodies_same.
    destruct (encrypts svc _); [|done].
    destruct (decrypt_bodies _ _ _ _ _) as [w2 [ts'|]] eqn:E; [|done].
    simpl in Et. injection Et as _ ->. by eapply decrypt_bodies_length.
  - set (q1 := with_lists _ _ _). set (st1 := put_queue st url q1).
    assert (Hq1 : queues st1 !! url = Some q1) by apply lookup_insert_eq.
    destruct (move_all_inflight (arn q) (dlq_messages p) _ _ _ Hq1) as (q2 & Hq2 & Hi & Hh & _ & Hm).
    match goal with |- context [if ?c then record_attempt _ _ _ _ _ else _] => destruct c end;
      [|exists q2; by split_and!].
    unfold record_attempt. destruct attempt as [a|]; [|exists q2; by split_and!].
    rewrite Hq2. eexists. split; [apply lookup_insert_eq|]. by split_and!.
Qed.

(** A receive replays the batch of a known attempt, or picks messages. *)
Lemma receive_cases svc account input max timeout attempt st w st' w' batch :
  try_receive_messages svc account input max timeout attempt st w = (st', w', Ok batch) ->
  exists url q q1, find_queue input st = Ok (url, q)
  /\ messages q1 = messages q /\ inflight q1 = inflight q /\ redrive_policy q1 = redrive_policy q
  /\ attributes q1 = attributes q
  /\ (deliver svc account st url (receivable (clock (ticks w)) q1) (clock (ticks w))
         (default (visibility_timeout_secs q) timeout) attempt
         (select_messages (receivable (clock (ticks w)) q1) (clock (ticks w))
            (default (visibility_timeout_secs q) timeout) max (ticked w)) = (st', w', Ok batch)
      \/ is_fifo q = true /\ Forall2 same_but_body (replay_batch q1 attempt) batch
         /\ receive_attempt_cache q1 = filter (fun kv => (clock (ticks w) < ra_expiry kv.2)%Z) (receive_attempt_cache q)
         /\ attempt <> None).
Proof.
  unfold try_receive_messages. destruct (find_queue input st) as [[url q]|e]; [|done].
  cbn zeta. set (q1 := if is_fifo q then _ else q). intros Hd. exists url, q, q1.
  split; [done|]. do 4 (split; [unfold q1; by destruct (is_fifo q)|]).
  case_bool_decide as Hr; [left; exact Hd|]. right. cbn [negb] in Hd.
  assert (Hq1 : is_fifo q1 = is_fifo q) by (unfold q1; destruct (is_fifo q) eqn:E0; exact E0). rewrite Hq1 in *.
  destruct (is_fifo q) eqn:Ef; [|done]. split; [done|]. split; [|split; [unfold q1; reflexivity|intros ->; by apply Hr]].
  destruct (encrypts svc q1); [|injection Hd as _ _ <-; apply same_but_body_refl].
  destruct (decrypt_bodies _ _ _ _ _) as [w1 [ts|e]] eqn:E; [|done]. cbn [mbind result_bind] in Hd. injection Hd as _ _ <-.
  apply with_bodies_same. by eapply decrypt_bodies_length.
Qed.

(** A receive without an attempt id is never a replay. *)
Lemma receive_fresh svc account input max timeout st w st' w' batch :
  try_receive_messages svc account input max timeout None st w = (st', w', Ok batch) ->
  exists url q q1, find_queue input st = Ok (url, q)
  /\ deliver svc account st url (receivable (clock (ticks w)) q1) (clock (ticks w))
       (default (visibility_timeout_secs q) timeout) None
       (select_messages (receivable (clock (ticks w)) q1) (clock (ticks w))
          (default (visibility_timeout_secs q) timeout) max (ticked w)) = (st', w', Ok batch)
  /\ messages q1 = messages q /\ inflight q1 = inflight q /\ redrive_policy q1 = redrive_policy q
  /\ attributes q1 = attributes q.
Proof.
  intros Hr. destruct (receive_cases _ _ _ _ _ _ _ _ _ _ _ Hr) as (url & q & q1 & Hf & ? & ? & ? & ? & [Hd|(_ & _ & _ & Hn)]); [|done].
  by exists url, q, q1.
Qed.

(** A message a receive may hand out: within retention, and either queued and
    not hidden or in flight with a lapsed window. *)
Definition available (now : Z) (q : SqsQueue) (m : SqsMessage) : Prop :=
  within_retention now (retention_seconds q) m = true
  /\ ((m ∈ messages q /\ hidden now m = false) \/ (m ∈ inflight q /\ lapsed now m = true)).

(** Claims of a handed-out message. *)
Definition handed_out (now : Z) (q : SqsQueue) (deadline : Z) (m : SqsMessage) : Prop :=
  visible_at m = Some deadline
  /\ is_Some (first_received_at m)
  /\ (forall rp, redrive_policy q = Some rp -> (receive_count m <= max_receive_count rp)%Z)
  /\ exists m0, available now q m0 /\ receipt_of m0 m.

(** The in-flight messages a receive leaves in flight. *)
Definition still_in_flight (now : Z) (q : SqsQueue) : list SqsMessage :=
  filter (fun m => lapsed now m = false)
    (filter (fun m => within_retention now (retention_seconds q) m = true) (inflight q)).

Lemma receivable_available now q m : m ∈ messages (receivable now q) -> hidden now m = false ->
  exists m0, available now q m0 /\ erase m = erase m0 /\ receive_count m = receive_count m0
    /\ first_received_at m = first_received_at m0.
Proof.
  intros Hm Hh. unfold receivable in Hm. rewrite return_lapsed_eq in Hm. cbn [messages with_handles with_lists] in Hm.
  assert (Hm' : m ∈ messages (expire_old now q) \/ m ∈ returned now (expire_old now q))
    by (destruct (is_fifo (expire_old now q)); set_solver).
  destruct Hm' as [Hm'|Hm'].
  - apply list_elem_of_filter in Hm' as [Hw Hm']. exists m. split; [|done]. split; [exact Hw|]. by left.
  - apply list_elem_of_fmap in Hm' as (y & -> & Hy). apply list_elem_of_filter in Hy as [Hl Hy].
    apply list_elem_of_filter in Hy as [Hw Hy]. exists y. split; [|done]. split; [exact Hw|]. by right.
Qed.

Lemma decrypted_uuids svc account a batch w w' r :
  decrypt_bodies svc account a batch w = (w', r) -> uuids w' = uuids w.
Proof.
  revert w w' r. induction batch as [|m l IH]; intros w w' r; simpl; [by intros [= <- _]|].
  assert (Hd : forall w1 r1, decrypt_message_body svc w account a (body m) = (w1, r1) -> uuids w1 = uuids w).
  { intros w1 r1. unfold decrypt_message_body. repeat case_match; by intros [= <- _]. }
  destruct (decrypt_message_body _ _ _ _ _) as [w1 [t|e]]; [|intros [= <- _]; by eapply Hd].
  destruct (decrypt_bodies svc account a l w1) as [w2 r2] eqn:E. intros [= <- _]. rewrite (IH _ _ _ E). by eapply Hd.
Qed.

Lemma deliver_uuids svc account st url q now timeout attempt p st' w' r :
  deliver svc account st url q now timeout attempt p = (st', w', r) -> uuids w' = uuids (p_world p).
Proof.
  unfold deliver. cbn zeta. destruct (encrypts svc _).
  - destruct (decrypt_bodies _ _ _ _ _) as [w1 r1] eqn:E. apply decrypted_uuids in E. destruct r1; cbn [mbind result_bind].
    + by intros [= _ <- _].
    + destruct (restore _ _). by intros [= _ <- _].
  - by intros [= _ <- _].
Qed.

Lemma receive_batch_aux svc account input max timeout st w st' w' batch :
  try_receive_messages svc account input max timeout None st w = (st', w', Ok batch) ->
  exists url q q' picked,
    find_queue input st = Ok (url, q) /\ queues st' !! url = Some q'
    /\ inflight q' = still_in_flight (clock (ticks w)) q ++ picked
    /\ Forall2 same_but_body picked batch
    /\ length batch <= max
    /\ receipt_handle <$> picked = (fun n => Some (new_v4 n)) <$> seq (uuids w) (length picked)
    /\ uuids w' = uuids w + length picked
    /\ Forall (handed_out (clock (ticks w)) q (clock (ticks w)
                 + seconds (default (visibility_timeout_secs q) timeout))) picked.
Proof.
  intros Hr. destruct (receive_fresh _ _ _ _ _ _ _ _ _ _ Hr)
    as (url & q & q1 & Hf & Hd & Hm1 & Hi1 & Hrp1 & Hat1).
  set (now := clock (ticks w)) in *. destruct (receivable_conf now q1) as (_ & Hrp & _).
  pose proof (select_messages_inv (receivable now q1) now (default (visibility_timeout_secs q) timeout) max (ticked w)) as [Hmax Hrec _].
  pose proof (select_messages_hand (receivable now q1) now (default (visibility_timeout_secs q) timeout) max (ticked w)) as [Hh Hu Hfrom].
  rewrite Hrp, Hrp1 in Hrec. change (uuids (ticked w)) with (uuids w) in Hh, Hu.
  destruct (deliver_ok _ _ _ _ _ _ _ _ _ _ _ _ Hd) as (Hb & q' & Hq' & Hi' & _).
  assert (Hret : retention_seconds q1 = retention_seconds q) by (unfold retention_seconds, attr; by rewrite Hat1).
  exists url, q, q', (received (select_messages (receivable now q1) now (default (visibility_timeout_secs q) timeout) max (ticked w))).
  split_and!; try done.
  - rewrite Hi'. f_equal. unfold receivable, still_in_flight. rewrite return_lapsed_eq. cbn [inflight with_handles with_lists].
    unfold expire_old. cbn [inflight with_lists]. by rewrite Hi1, Hret.
  - by rewrite <- (Forall2_length _ _ _ Hb).
  - by rewrite (deliver_uuids _ _ _ _ _ _ _ _ _ _ _ _ Hd).
  - apply Forall_forall. intros m Hm. rewrite Forall_forall in Hrec, Hfrom. destruct (Hrec m Hm) as (V & _ & F & R).
    split; [exact V|]. split; [exact F|]. split; [exact R|]. destruct (Hfrom m Hm) as (m1 & Hm1' & Hhid & Hre & Hrc & Hrf).
    destruct (receivable_available now q1 m1 Hm1' Hhid) as (m0 & [Hw Ha] & E1 & E2 & E3). exists m0. split.
    + split; [by rewrite <- Hret|]. by rewrite <- Hm1, <- Hi1.
    + split; [congruence|]. split; [congruence|]. rewrite <- E3. exact Hrf.
Qed.

(** Only queued messages are picked. *)
Lemma received_from_queue q now timeout max w x :
  x ∈ received (select_messages q now timeout max w) -> message_id x ∈ message_id <$> messages q.
Proof.
  intros Hx.
  assert (Hin : erase x ∈ erase <$> picked_all (select_messages q now timeout max w)).
  { apply list_elem_of_fmap. exists x. split; [done|]. unfold picked_all. set_solver. }
  rewrite select_messages_all in Hin. apply list_elem_of_fmap in Hin as (m & He & Hm).
  apply list_elem_of_fmap. exists m. split; [|done].
  by rewrite <- (erase_id x), He.
Qed.

Definition ids (l : list SqsMessage) : list string := message_id <$> l.

Lemma same_but_body_ids l l' : Forall2 same_but_body l l' -> ids l' = ids l.
Proof. induction 1 as [|m b l l' Hb _ IH]; [done|]. unfold ids in *. cbn. by rewrite IH, Hb. Qed.

Lemma NoDup_ids_eq l x y : NoDup (ids l) -> x ∈ l -> y ∈ l -> message_id x = message_id y -> x = y.
Proof.
  unfold ids. induction l as [|z l IH]; intros Hnd Hx Hy Hid; [by apply elem_of_nil in Hx|].
  rewrite fmap_cons in Hnd. apply NoDup_cons in Hnd as [Hz Hnd].
  apply elem_of_cons in Hx as [->|Hx], Hy as [->|Hy]; auto; exfalso; apply Hz.
  - apply list_elem_of_fmap. eauto.
  - apply list_elem_of_fmap. eauto.
Qed.

(** While a message is in flight and its window is open, it is not among the
    messages the next receive may pick. *)
Lemma in_flight_not_queued now q m :
  NoDup (ids (messages q ++ inflight q)) -> m ∈ inflight q -> lapsed now m = false ->
  message_id m ∉ ids (messages (receivable now q)).
Proof.
  intros Hnd Hm Hl Hin. unfold ids in Hin. apply list_elem_of_fmap in Hin as (x & Hid & Hx).
  assert (Hcase : x ∈ messages q \/ exists y, y ∈ inflight q /\ lapsed now y = true
                                              /\ message_id y = message_id x).
  { unfold receivable in Hx. rewrite return_lapsed_eq in Hx. cbn [messages with_handles with_lists] in Hx.
    assert (Hx' : x ∈ messages (expire_old now q) \/ x ∈ returned now (expire_old now q))
      by (destruct (is_fifo (expire_old now q)); set_solver).
    destruct Hx' as [Hx'|Hx'].
    - left. by apply list_elem_of_filter in Hx' as [_ ?].
    - right. apply list_elem_of_fmap in Hx' as (y & -> & Hy).
      apply list_elem_of_filter in Hy as [? Hy]. apply list_elem_of_filter in Hy as [_ ?].
      exists y. by split_and!. }
  destruct Hcase as [Hq|(y & Hy & Hly & Hyid)].
  - assert (x = m).
    { eapply (NoDup_ids_eq _ x m Hnd); [set_solver|set_solver|done]. }
    subst x. unfold ids in Hnd. rewrite fmap_app in Hnd. apply NoDup_app in Hnd as (_ & Hd & _).
    apply (Hd (message_id m)); apply list_elem_of_fmap; eauto.
  - assert (y = m) by (eapply (NoDup_ids_eq _ y m Hnd); [set_solver|set_solver|congruence]).
    congruence.
Qed.

(** The attempt replays the message: the cached batch of its id lists it. *)
Definition replayed_by (now : Z) (q : SqsQueue) (attempt : option string) (m : SqsMessage) : Prop :=
  is_fifo q = true /\ exists a entry, attempt = Some a /\ receive_attempt_cache q !! a = Some entry
    /\ (now < ra_expiry entry)%Z /\ message_id m ∈ ra_message_ids entry.

Lemma not_redelivered_aux svc account input max timeout attempt st w st' w' batch url q m :
  try_receive_messages svc account input max timeout attempt st w = (st', w', Ok batch) ->
  find_queue input st = Ok (url, q) ->
  NoDup (ids (messages q ++ inflight q)) ->
  m ∈ inflight q -> lapsed (clock (ticks w)) m = false ->
  message_id m ∈ ids batch -> replayed_by (clock (ticks w)) q attempt m.
Proof.
  intros Hr Hf Hnd Hm Hl Hin.
  destruct (receive_cases _ _ _ _ _ _ _ _ _ _ _ Hr) as (url' & q0 & q1 & Hf' & Hm1 & Hi1 & _ & _ & Hcase).
  assert (q0 = q) as -> by congruence. destruct Hcase as [Hd|(Hfifo & Hb & Hcache & _)].
  - exfalso. destruct (deliver_ok _ _ _ _ _ _ _ _ _ _ _ _ Hd) as (Hb & _).
    rewrite (same_but_body_ids _ _ Hb) in Hin. apply list_elem_of_fmap in Hin as (x & Hid & Hx).
    apply received_from_queue in Hx.
    assert (Hq1 : NoDup (ids (messages q1 ++ inflight q1))) by (by rewrite Hm1, Hi1).
    rewrite <- Hi1 in Hm. apply (in_flight_not_queued _ _ _ Hq1 Hm Hl).
    by rewrite Hid.
  - split; [done|]. rewrite (same_but_body_ids _ _ Hb) in Hin. apply list_elem_of_fmap in Hin as (x & Hid & Hx).
    unfold replay_batch in Hx. destruct attempt as [a|]; [|by apply elem_of_nil in Hx]. cbn [mbind option_bind] in Hx.
    destruct (receive_attempt_cache q1 !! a) as [entry|] eqn:Ee; [|by apply elem_of_nil in Hx].
    rewrite Hcache in Ee. apply map_lookup_filter_Some in Ee as [Ee Hexp]. exists a, entry. split; [done|]. split; [done|]. split; [done|].
    apply list_elem_of_omap in Hx as (mid & Hmid & Hfind). apply find_some in Hfind as [_ Hfind]. apply String.eqb_eq in Hfind.
    by rewrite Hid, Hfind.
Qed.

End Delivery.

(** ** Background operations *)

Lemma tick_queue_count now q :
  length (queue_contents q) = length (queue_contents (expire_old now q)) + expired_count now q.
Proof.
  destruct (expire_old_contents now q) as (lost & Hp & _).
  apply Permutation_length in Hp. unfold expired_count, queue_contents in *.
  rewrite !length_app, !length_fmap, ?length_app in *. lia.
Qed.

Lemma tick_contents_aux now (m : gmap string SqsQueue) :
  length (BTree.values m ≫= queue_contents)
  = length (BTree.values (expire_old now <$> m) ≫= queue_contents)
    + sum_list (expired_count now <$> BTree.values m).
Proof.
  induction m as [|url q m Hm IH] using map_ind; [by rewrite fmap_empty|].
  rewrite fmap_insert.
  assert (Hv : forall V (m : gmap string V) k v, m !! k = None ->
             BTree.values (<[k := v]> m) ≡ₚ v :: BTree.values m).
  { intros V m0 k v Hk. unfold BTree.values. rewrite !BTree.iter_Permutation.
    by rewrite map_to_list_insert. }
  rewrite (Hv _ m url q Hm), (Hv _ (expire_old now <$> m)) by (by rewrite lookup_fmap, Hm).
  csimpl. rewrite !length_app, IH, (tick_queue_count now q). lia.
Qed.

Lemma tick_queue_young now url (st : SqsState) q' :
  queues (tick_state now st).1 !! url = Some q' ->
  Forall (fun m => within_retention now (retention_seconds q') m = true) (messages q' ++ inflight q').
Proof.
  simpl. rewrite lookup_fmap. destruct (queues st !! url) as [q|]; [|done].
  intros [= <-]. apply Forall_app. split; apply Forall_forall; intros m Hm;
    by apply list_elem_of_filter in Hm as [? _].
Qed.

(** Queues are stored under their own URL. *)
Definition keyed (st : SqsState) : Prop := map_Forall (fun url q => queue_url q = url) (queues st).

#[global] Instance keyed_dec st : base.Decision (keyed st).
Proof. unfold keyed. apply _. Defined.

Lemma push_all_contents to_move dlq :
  queue_contents (foldl (fun d m => push_back d (with_visibility m None None)) dlq to_move)
  ≡ₚ queue_contents dlq ++ (erase <$> to_move).
Proof.
  revert dlq. induction to_move as [|m l IH]; intros dlq; [by rewrite app_nil_r|].
  simpl. rewrite IH. unfold push_back. rewrite queue_contents_lists, fmap_app.
  unfold queue_contents. rewrite fmap_app. simpl. solve_Permutation.
Qed.

Lemma push_all_url to_move dlq :
  queue_url (foldl (fun d m => push_back d (with_visibility m None None)) dlq to_move) = queue_url dlq.
Proof. revert dlq. induction to_move as [|m l IH]; intros dlq; [done|]. simpl. by rewrite IH. Qed.

Lemma force_dlq_conserves_aux st name :
  keyed st ->
  exists st' n, force_dlq_in st name = Some (st', n) /\ contents st' ≡ₚ contents st /\ keyed st'.
Proof.
  intros Hk. unfold force_dlq_in.
  destruct (name_to_url st !! name) as [url|] eqn:En; [|by exists st, 0]. simpl.
  destruct (queues st !! url) as [q|] eqn:Eq; [|by exists st, 0]. simpl.
  destruct (redrive_policy q) as [rp|] eqn:Er; [|by exists st, 0]. simpl.
  destruct (url_of_arn st (dead_letter_target_arn rp)) as [[u target]|] eqn:Et; [|by exists st, 0].
  apply url_of_arn_Some in Et as [Htgt _]. simpl. rewrite Eq. simpl.
  rewrite (Hk _ _ Htgt).
  set (over := fun m => (max_receive_count rp <=? receive_count m)%Z).
  set (to_move := filter _ (messages q) ++ filter _ (inflight q)).
  set (q1 := with_lists q _ _).
  assert (Hq1 : queue_contents q ≡ₚ queue_contents q1 ++ (erase <$> to_move)).
  { unfold q1, to_move. rewrite queue_contents_lists. unfold queue_contents. rewrite !fmap_app.
    rewrite <- (filter_split over (messages q)) at 1.
    rewrite <- (filter_split over (inflight q)) at 1. rewrite !fmap_app.
    change (fun m : SqsMessage => (max_receive_count rp <=? receive_count m)%Z) with over.
    solve_Permutation. }
  set (st1 := put_queue st url q1).
  assert (Hdlq : exists dlq, queues st1 !! u = Some dlq /\ queue_url dlq = u).
  { unfold st1. simpl. destruct (decide (url = u)) as [->|Hne].
    - rewrite lookup_insert_eq. exists q1. split; [done|]. apply (Hk _ _ Eq).
    - rewrite lookup_insert_ne by done. exists target. split; [done|]. apply (Hk _ _ Htgt). }
  destruct Hdlq as (dlq & Hdlq & Hdu).
  change (<[url:=q1]> (queues st)) with (queues st1). rewrite Hdlq. simpl.
  eexists _, _. split; [reflexivity|]. split.
  - destruct (contents_split _ _ _ Hdlq) as (rest1 & Hst1 & Hput). rewrite Hput, push_all_contents.
    destruct (contents_split _ _ _ Eq) as (rest & -> & Hput1). fold st1 in Hput1.
    specialize (Hput1 q1). fold st1 in Hput1. rewrite Hst1 in Hput1. rewrite Hq1.
    transitivity ((queue_contents dlq ++ rest1) ++ (erase <$> to_move)); [solve_Permutation|].
    rewrite Hput1. solve_Permutation.
  - apply map_Forall_insert_2; [by rewrite push_all_url|].
    apply map_Forall_insert_2; [apply (Hk _ _ Eq)|done].
Qed.

(** ** The claims *)

(** C26 (invariant) A receive neither loses nor duplicates a message: the
    messages held by the region before the call (queued or in flight, in any
    queue) are those held after it and some lost ones, and every lost one was
    past its queue's retention period; when the call fails, dead letters it
    had counted past the redrive limit may be lost as well. *)
Theorem receive_conserves `{Host} svc account input max timeout attempt st w st' w' r
  (Hcall : try_receive_messages svc account input max timeout attempt st w = (st', w', r)) :
  exists lost, contents st ≡ₚ contents st' ++ (erase <$> lost)
  /\ forall m, m ∈ lost -> exists url q, find_queue input st = Ok (url, q)
       /\ may_vanish (clock (ticks w)) q (negb (is_ok r)) m.
Proof. by eapply receive_conserves_aux. Qed.

(** C27 (functional) A successful receive without an attempt id returns at most
    the requested number of messages.  Their receipt handles are the next
    identifiers drawn, one each, so no handle is given twice, here or by a later
    call.  Each is a message that was available: within retention and either queued
    and not hidden or in flight with a lapsed window; its receive count is one
    higher, within [maxReceiveCount], and it is hidden until now plus the
    visibility timeout.  Afterwards the in-flight messages are exactly those
    before that are within retention with an open window, and then the ones
    handed out, with their stored bodies. *)
Theorem receive_batch_spec `{Host} svc account input max timeout st w st' w' batch
  (Hcall : try_receive_messages svc account input max timeout None st w = (st', w', Ok batch)) :
  exists url q q' picked,
    find_queue input st = Ok (url, q) /\ queues st' !! url = Some q'
    /\ inflight q' = still_in_flight (clock (ticks w)) q ++ picked
    /\ Forall2 same_but_body picked batch
    /\ length batch <= max
    /\ receipt_handle <$> picked = (fun n => Some (new_v4 n)) <$> seq (uuids w) (length picked)
    /\ uuids w' = uuids w + length picked
    /\ Forall (handed_out (clock (ticks w)) q (clock (ticks w)
                 + seconds (default (visibility_timeout_secs q) timeout))) picked.
Proof. by eapply receive_batch_aux. Qed.

(** C37 (safety) A message in flight whose visibility window is still open is
    not delivered again, whatever the queue's type, with one exception: a receive
    on a FIFO queue with an attempt id whose cached batch, not yet expired, lists
    the message.  Message ids are distinct, as in every reachable state. *)
Theorem in_flight_not_redelivered `{Host} svc account input max timeout attempt st w st' w' batch url q m
  (Hcall : try_receive_messages svc account input max timeout attempt st w = (st', w', Ok batch))
  (Hqueue : find_queue input st = Ok (url, q))
  (Hids : NoDup (ids (messages q ++ inflight q)))
  (Hm : m ∈ inflight q) (Hopen : lapsed (clock (ticks w)) m = false)
  (Hagain : message_id m ∈ ids batch) :
  replayed_by (clock (ticks w)) q attempt m.
Proof. by eapply not_redelivered_aux. Qed.

(** Theorem (functional) The expiration tick reports exactly the number of messages
    it removed, and leaves no message past its queue's retention period. *)
Theorem tick_state_spec (now : Z) (st : SqsState) :
  let '(st', n) := tick_state now st in
  length (contents st) = length (contents st') + n
  /\ forall url q, queues st' !! url = Some q ->
       Forall (fun m => within_retention now (retention_seconds q) m = true)
         (messages q ++ inflight q).
Proof.
  split; [apply tick_contents_aux|]. intros url q Hq. by apply (tick_queue_young now url st).
Qed.

(** Theorem (invariant) Forcing a queue's messages to its dead-letter queue never
    panics and loses no message, when queues are stored under their own URLs,
    which it preserves. *)
Theorem force_dlq_conserves (st : SqsState) (name : string) (Hkeyed : keyed st) :
  exists st' n, force_dlq_in st name = Some (st', n) /\ contents st' ≡ₚ contents st /\ keyed st'.
Proof. by apply force_dlq_conserves_aux. Qed.

(** ** Concrete queues *)

(** A clock that reads the n-th second at the n-th call. *)
Definition demo_host : Host := {|
  clock := fun n => seconds (Z.of_nat n);
  new_v4 := fun n => "id-" +:+ print_Z (Z.of_nat n);
  base64_decode := fun _ => None;
  md5_digest := fun _ => "md5"%string;
  sha256_digest := fun _ => "sha"%string
|}.

Definition demo_message (id : string) (group : option string) (count : Z) : SqsMessage :=
  mkMessage id None "text" "md5" 0 ∅ ∅ None count None group None 0 None.

Definition demo_queue (name : string) (fifo : bool) (attrs : gmap string string)
  (rp : option RedrivePolicy) (msgs infl : list SqsMessage) : SqsQueue :=
  mkQueue name ("u/" +:+ name) ("arn:aws:sqs:r:a:" +:+ name) 0 msgs infl attrs fifo ∅ rp ∅ 0 [] ∅ ∅.

Definition demo_state (qs : list SqsQueue) : SqsState :=
  mkState "a" "r" "u" (list_to_map ((fun q => (queue_url q, q)) <$> qs))
    (list_to_map ((fun q => (queue_name q, queue_url q)) <$> qs)) [].

Definition demo_world (n : nat) : World := mkWorld n 0 0.

Definition plain_service : SqsService := mkService None "r".

Definition demo_redrive : option RedrivePolicy := Some (mkRedrive "arn:aws:sqs:r:a:dead" 2).

(** One message over the redrive limit, one deliverable, one in flight until
    second 20. *)
Definition demo_inflight : SqsMessage :=
  with_visibility (demo_message "m3" None 1) (Some "old") (Some (seconds 20)).

Definition demo_source : SqsQueue :=
  demo_queue "q" false ∅ demo_redrive [demo_message "m1" None 2; demo_message "m2" None 0]
    [demo_inflight].

Definition demo_dead : SqsQueue := demo_queue "dead" false ∅ None [] [].

Definition demo : SqsState := demo_state [demo_source; demo_dead].

#[local] Existing Instance demo_host.

Definition demo_receive := try_receive_messages plain_service "a" "q" 10 None None demo (demo_world 10).

Lemma receive_conserves_witness :
  is_ok demo_receive.2 = true
  /\ exists lost, contents demo ≡ₚ contents demo_receive.1.1 ++ (erase <$> lost)
     /\ forall m, m ∈ lost -> exists url q, find_queue "q" demo = Ok (url, q)
          /\ may_vanish (clock (ticks (demo_world 10))) q (negb (is_ok demo_receive.2)) m.
Proof.
  split; [vm_compute; reflexivity|].
  apply (receive_conserves plain_service "a" "q" 10 None None demo (demo_world 10)
           demo_receive.1.1 demo_receive.1.2 demo_receive.2).
  vm_compute. reflexivity.
Defined.

Definition demo_batch : list SqsMessage :=
  [with_visibility (with_counts (demo_message "m2" None 0) 1 (Some 12000%Z)) (Some "id-0")
     (Some (seconds 40))].

Lemma receive_batch_spec_witness :
  exists url q q' picked,
    find_queue "q" demo = Ok (url, q) /\ queues demo_receive.1.1 !! url = Some q'
    /\ inflight q' = still_in_flight (clock (ticks (demo_world 10))) q ++ picked
    /\ Forall2 same_but_body picked demo_batch
    /\ length demo_batch <= 10
    /\ receipt_handle <$> picked = (fun n => Some (new_v4 n)) <$> seq (uuids (demo_world 10)) (length picked)
    /\ uuids demo_receive.1.2 = uuids (demo_world 10) + length picked
    /\ Forall (handed_out (clock (ticks (demo_world 10))) q (clock (ticks (demo_world 10))
                 + seconds (default (visibility_timeout_secs q) None))) picked.
Proof.
  apply (receive_batch_spec plain_service "a" "q" 10 None demo (demo_world 10)
           demo_receive.1.1 demo_receive.1.2 demo_batch).
  vm_compute. reflexivity.
Defined.

(** A FIFO queue whose attempt "a1" had received the message in flight. *)
Definition demo_fifo : SqsQueue :=
  with_attempts (demo_queue "f" true ∅ None [demo_message "m4" (Some "g") 0] [demo_inflight])
    {[ "a1" := mkAttempt ["m3"] (seconds 20) ]}.

Definition demo_replay :=
  try_receive_messages plain_service "a" "f" 10 None (Some "a1") (demo_state [demo_fifo]) (demo_world 10).

Lemma in_flight_not_redelivered_witness : replayed_by (clock (ticks (demo_world 10))) demo_fifo (Some "a1") demo_inflight.
Proof.
  apply (in_flight_not_redelivered plain_service "a" "f" 10 None (Some "a1") (demo_state [demo_fifo]) (demo_world 10)
           demo_replay.1.1 demo_replay.1.2 [demo_inflight] "u/f" demo_fifo demo_inflight).
  - vm_compute. reflexivity.
  - vm_compute. reflexivity.
  - apply (bool_decide_unpack _). vm_compute. exact I.
  - left.
  - vm_compute. reflexivity.
  - left.
Defined.

Lemma force_dlq_conserves_witness :
  exists st' n, force_dlq_in demo "q" = Some (st', n) /\ contents st' ≡ₚ contents demo /\ keyed st'.
Proof.
  apply (force_dlq_conserves demo "q"). apply (bool_decide_unpack _). vm_compute. exact I.
Defined.

End SqsTheory.
