(* ===== verification/SqsOrder.v ===== *)
(** * SQS ordering, deduplication and receipt handles

    In which order a receive hands messages out (FIFO groups, fair standard
    queues), when a send is a duplicate, what a receipt handle can still do,
    and that requests of one region leave the others alone. *)

From Stdlib Require Import ZArith Lia Bool String Ascii.
From stdpp Require Import base option list strings gmap sorting.
From S2P Require Import Prelude Json Arn BTree MultiAccount Sqs SqsSend SqsReceive SqsTheory.

Module SqsOrder.
Import Sqs SqsSend SqsReceive SqsTheory.

(** ** FIFO groups *)

Definition in_group (g : string) (l : list SqsMessage) : list SqsMessage :=
  filter (fun m => group_or_empty m = g) l.

Lemma in_group_app g a b : in_group g (a ++ b) = in_group g a ++ in_group g b.
Proof. apply filter_app. Qed.

Lemma in_group_cons g m l :
  in_group g (m :: l) = if decide (group_or_empty m = g) then m :: in_group g l else in_group g l.
Proof. unfold in_group. by rewrite filter_cons. Qed.

Section Order.
Context `{Host}.

(** Picking [m] appends it, erased, to the received or the dead letters. *)
Lemma pick_received rp now timeout p m g :
  remaining (pick rp now timeout p m) = remaining p
  /\ exists got, in_group g (received (pick rp now timeout p m)) = in_group g (received p) ++ got
     /\ (erase <$> got) `sublist_of` (erase <$> in_group g [m]).
Proof.
  assert (Hone : forall x, erase x = erase m -> group_or_empty x = group_or_empty m ->
            (erase <$> in_group g [x]) `sublist_of` (erase <$> in_group g [m])).
  { intros x Hx Hg. rewrite !in_group_cons, Hg. case_decide; [|done]. simpl. by rewrite Hx. }
  unfold pick. destruct (first_received_at m);
    (destruct (rp ≫= _); simpl; (split; [done|]);
     [exists []; split; [by rewrite app_nil_r|apply sublist_nil_l]
     |eexists; split; [apply in_group_app|by apply Hone]]).
Qed.

(** What the FIFO loop does to one group none of whose messages is delayed:
    it works through a prefix and leaves the rest. *)
Lemma fifo_loop_order rp now timeout max groups g msgs p :
  Forall (fun m => group_or_empty m = g -> hidden now m = false) msgs ->
  exists pre rest got,
    in_group g msgs = pre ++ rest
    /\ in_group g (remaining (fifo_loop rp now timeout max groups msgs p))
       = in_group g (remaining p) ++ rest
    /\ in_group g (received (fifo_loop rp now timeout max groups msgs p))
       = in_group g (received p) ++ got
    /\ (erase <$> got) `sublist_of` (erase <$> pre)
    /\ (g ∈ groups -> pre = []).
Proof.
  intros Hvis. revert p. induction Hvis as [|m l Hm Hl IH]; intros p.
  { exists [], [], []. rewrite !app_nil_r. split_and!; done. }
  cbn [fifo_loop].
  assert (Hskip : group_or_empty m <> g \/ g ∈ groups ->
    exists pre rest got,
      in_group g (m :: l) = pre ++ rest
      /\ in_group g (remaining (fifo_loop rp now timeout max groups l (keep_back p [m])))
         = in_group g (remaining p) ++ rest
      /\ in_group g (received (fifo_loop rp now timeout max groups l (keep_back p [m])))
         = in_group g (received p) ++ got
      /\ (erase <$> got) `sublist_of` (erase <$> pre)
      /\ (g ∈ groups -> pre = [])).
  { intros Hcase. destruct (IH (keep_back p [m])) as (pre & rest & got & H1 & H2 & H3 & H4 & H5).
    cbn [remaining received keep_back] in H2, H3. rewrite in_group_app, in_group_cons in H2.
    rewrite in_group_cons. case_decide as Hg.
    - destruct Hcase as [?|Hin]; [done|]. rewrite (H5 Hin) in *.
      exists [], (m :: rest), got. rewrite H2, <- app_assoc. split_and!; try done. simpl. by rewrite H1.
    - exists pre, rest, got. rewrite H2. cbn. rewrite app_nil_r. by split_and!. }
  destruct (hidden now m) eqn:Eh.
  { apply Hskip. left. intros Hg. specialize (Hm Hg). congruence. }
  case_bool_decide as Hin.
  { apply Hskip. destruct (decide (group_or_empty m = g)) as [<-|]; auto. }
  case_match.
  - destruct (pick_received rp now timeout p m g) as (Hrem & got0 & Hg0 & Hs0).
    destruct (IH (pick rp now timeout p m)) as (pre & rest & got & H1 & H2 & H3 & H4 & H5).
    exists (in_group g [m] ++ pre), rest, (got0 ++ got).
    rewrite H2, H3, Hrem, Hg0, !fmap_app, <- !app_assoc, <- H1.
    split_and!; try done.
    + by rewrite <- in_group_app.
    + by apply sublist_app.
    + intros Hgin. rewrite (H5 Hgin), app_nil_r, in_group_cons.
      case_decide as Hg; [by rewrite Hg in Hin|done].
  - exists [], (in_group g (m :: l)), []. cbn [remaining received keep_back].
    rewrite in_group_app, app_nil_r. split_and!; done.
Qed.

Lemma fifo_group_order_aux q now timeout max w g :
  is_fifo q = true ->
  Forall (fun m => group_or_empty m = g -> hidden now m = false) (messages q) ->
  let p := select_messages q now timeout max w in
  exists pre rest,
    in_group g (messages q) = pre ++ rest
    /\ in_group g (remaining p) = rest
    /\ (erase <$> in_group g (received p)) `sublist_of` (erase <$> pre)
    /\ (g ∈ inflight_groups q -> pre = []).
Proof.
  intros Hf Hv p. unfold p, select_messages. rewrite Hf.
  destruct (fifo_loop_order (redrive_policy q) now timeout max (inflight_groups q) g (messages q)
              (mkPicked [] [] [] (receipt_handle_map q) w) Hv)
    as (pre & rest & got & H1 & H2 & H3 & H4 & H5).
  exists pre, rest. rewrite H2, H3. by split_and!.
Qed.

(** ** Fair standard queues *)

Lemma insert_by_key_sorted {A} (key : A -> nat) x l :
  StronglySorted (fun a b => key a <= key b) l ->
  StronglySorted (fun a b => key a <= key b) (insert_by_key key x l).
Proof.
  induction 1 as [|y l Hs IH Hall]; simpl; [by repeat constructor|].
  destruct (Nat.leb_spec (key x) (key y)).
  - constructor; [by constructor|]. constructor; [done|].
    eapply Forall_impl; [exact Hall|]. simpl. lia.
  - constructor; [done|]. rewrite insert_by_key_Permutation. constructor; [lia|done].
Qed.

Lemma sort_by_key_sorted {A} (key : A -> nat) l :
  StronglySorted (fun a b => key a <= key b) (sort_by_key key l).
Proof. induction l; simpl; [constructor|by apply insert_by_key_sorted]. Qed.

(** Stability: messages of one key keep their order. *)
Lemma insert_by_key_filter {A} (key : A -> nat) k x l :
  filter (fun a => key a = k) (insert_by_key key x l) = filter (fun a => key a = k) (x :: l).
Proof.
  induction l as [|y l IH]; simpl; [done|].
  destruct (Nat.leb_spec (key x) (key y)); [done|].
  rewrite !filter_cons in *. rewrite IH. repeat case_decide; try done; lia.
Qed.

Lemma sort_by_key_stable {A} (key : A -> nat) k l :
  filter (fun a => key a = k) (sort_by_key key l) = filter (fun a => key a = k) l.
Proof.
  induction l as [|x l IH]; [done|]. simpl. rewrite insert_by_key_filter, !filter_cons, IH. done.
Qed.

(** The standard loop also splits its list: a prefix is worked through. *)
Lemma standard_loop_split rp now timeout max l p :
  exists pre rest, l = pre ++ rest
  /\ remaining (standard_loop rp now timeout max l p) = remaining p ++ rest
  /\ (erase <$> received (standard_loop rp now timeout max l p))
     `sublist_of` (erase <$> received p) ++ (erase <$> pre)
  /\ (max <= length (received p) -> pre = []).
Proof.
  revert p. induction l as [|m l IH]; intros p.
  { exists [], []. simpl. rewrite !app_nil_r. by split_and!. }
  cbn [standard_loop]. destruct (Nat.ltb_spec (length (received p)) max).
  - destruct (IH (pick rp now timeout p m)) as (pre & rest & -> & H2 & H3 & H4).
    exists (m :: pre), rest. rewrite H2. split_and!; [done| | |lia].
    { f_equal. unfold pick. destruct (first_received_at m), (rp ≫= _); done. }
    etransitivity; [exact H3|]. rewrite fmap_cons.
    unfold pick. destruct (first_received_at m), (rp ≫= _); simpl; rewrite ?fmap_app; simpl;
      rewrite <- ?app_assoc; try done; apply sublist_app; try done; by apply sublist_cons.
  - destruct (IH (keep_back p [m])) as (pre & rest & -> & H2 & H3 & H4).
    cbn [remaining received keep_back] in *. rewrite H4 in * by done.
    exists [], (m :: rest). rewrite H2, <- app_assoc. by split_and!.
Qed.

Lemma group_load_erase q m : group_load q (erase m) = group_load q m.
Proof. done. Qed.

Lemma StronglySorted_app_le {A} (R : A -> A -> Prop) a b x y :
  StronglySorted R (a ++ b) -> x ∈ a -> y ∈ b -> R x y.
Proof.
  induction a as [|z a IH]; simpl; intros Hs Hx Hy; [by apply elem_of_nil in Hx|].
  apply StronglySorted_inv in Hs as [Hs Hall]. apply elem_of_cons in Hx as [->|Hx]; [|by apply IH].
  rewrite Forall_forall in Hall. apply Hall. set_solver.
Qed.

Lemma fair_queue_aux q now timeout max w x y :
  is_fifo q = false ->
  let p := select_messages q now timeout max w in
  x ∈ received p -> y ∈ remaining p -> hidden now y = false -> group_load q x <= group_load q y.
Proof.
  intros Hf p. unfold p, select_messages. rewrite Hf. clear p.
  set (vis := filter (fun m => hidden now m = false) (messages q)).
  set (p0 := mkPicked [] [] _ _ w).
  destruct (standard_loop_split (redrive_policy q) now timeout max (sort_by_key (group_load q) vis) p0)
    as (pre & rest & Hl & H2 & H3 & _).
  intros Hx Hy Hvis. rewrite H2 in Hy. apply elem_of_app in Hy as [Hy|Hy].
  { simpl in Hy. apply list_elem_of_filter in Hy as [Hh _]. congruence. }
  pose proof (sort_by_key_sorted (group_load q) vis) as Hs. rewrite Hl in Hs.
  assert (Hex : erase x ∈ erase <$> pre).
  { eapply elem_of_sublist; [|exact H3]. apply list_elem_of_fmap. eauto. }
  apply list_elem_of_fmap in Hex as (x' & Hxx & Hx').
  rewrite <- (group_load_erase q x), Hxx, group_load_erase.
  exact (StronglySorted_app_le _ _ _ _ _ Hs Hx' Hy).
Qed.

End Order.

(** ** Deduplication *)

Lemma dedup_cache_key_inj q d g d' g' :
  attr q "DeduplicationScope" = Some "messageGroup"%string ->
  dedup_cache_key q d g = dedup_cache_key q d' g' ->
  default EmptyString g = default EmptyString g' /\ d = d'.
Proof.
  intros Hs. unfold dedup_cache_key. rewrite bool_decide_eq_true_2 by done.
  set (a := default EmptyString g). set (b := default EmptyString g'). cbn zeta. intros Heq.
  assert (Hn : forall s : string, no_char ":" (print_Z (Z.of_nat (byte_len s))) = true)
    by (intros s; apply digits_no_char; [done|apply print_Z_digits; lia]).
  pose proof (split_sep_app ":" _ (a +:+ ":" +:+ d) (Hn a)) as Ha.
  pose proof (split_sep_app ":" _ (b +:+ ":" +:+ d') (Hn b)) as Hb.
  change (String ":" (?x +:+ ?y)) with (":" +:+ x +:+ y)%string in Ha, Hb.
  rewrite Heq, Hb in Ha. injection Ha as Hlen Hrest.
  apply print_Z_inj in Hlen; [|lia..].
  apply byte_len_prefix in Hrest as [-> Hd]; [|lia]. split; [done|].
  cbn in Hd. by injection Hd.
Qed.

(** Sequence numbers are read back as the base plus the counter. *)
Lemma format_sequence_number_parse c :
  (0 <= c < 2 ^ 64 - SEQUENCE_NUMBER_BASE)%Z ->
  parse_u64 (format_sequence_number c) = Some (SEQUENCE_NUMBER_BASE + c)%Z.
Proof.
  intros Hc. unfold format_sequence_number, u64_add.
  rewrite Z.mod_small by (unfold SEQUENCE_NUMBER_BASE in *; lia).
  assert (Hz : (0 <= SEQUENCE_NUMBER_BASE + c <= u64_max)%Z)
    by (unfold SEQUENCE_NUMBER_BASE, u64_max in *; lia).
  generalize dependent (SEQUENCE_NUMBER_BASE + c)%Z. intros z Hz. unfold parse_u64, parse_unsigned.
  pose proof (print_Z_parse z ltac:(lia)) as Hp. pose proof (print_Z_digits z ltac:(lia)) as Hd.
  assert (Hr : parse_digits (print_Z z) ≫= in_range 0 u64_max = Some z).
  { rewrite Hp. simpl. unfold in_range. by rewrite !(proj2 (Z.leb_le _ _)) by lia. }
  destruct (print_Z z) as [|ch s]; [done|].
  cbn in Hd. apply andb_true_iff in Hd as [Hd _].
  destruct ch as [[] [] [] [] [] [] [] []]; done.
Qed.

Section Dedup.
Context `{Host}.

Lemma resolve_put st url q q' input :
  queues st !! url = Some q ->
  resolve_queue_url input (put_queue st url q') = resolve_queue_url input st.
Proof.
  intros Hq. unfold resolve_queue_url. simpl.
  replace (bool_decide (is_Some (<[url:=q']> (queues st) !! input)))
    with (bool_decide (is_Some (queues st !! input))); [done|].
  apply bool_decide_ext. destruct (decide (url = input)) as [<-|Hne].
  - rewrite lookup_insert_eq, Hq. split; eauto.
  - by rewrite lookup_insert_ne.
Qed.

Lemma find_queue_put input st url q q' :
  find_queue input st = Ok (url, q) -> find_queue input (put_queue st url q') = Ok (url, q').
Proof.
  intros Hf. destruct (find_queue_Ok _ _ _ _ Hf) as [Hr Hq]. unfold find_queue.
  rewrite (resolve_put st url q q' input Hq), Hr. simpl. by rewrite lookup_insert_eq.
Qed.

(** The configuration a send reads. *)
Definition same_config (q q' : SqsQueue) : Prop :=
  attributes q' = attributes q /\ is_fifo q' = is_fifo q /\ arn q' = arn q.

Lemma dedup_key_config q q' p : same_config q q' -> dedup_key_of q' p = dedup_key_of q p.
Proof.
  intros (Ha & Hf & _). unfold dedup_key_of, effective_of, content_based_dedup, dedup_cache_key, attr.
  by rewrite Ha, Hf.
Qed.

(** A successful enqueue on a FIFO queue appends one message, numbered with
    the queue's counter, and caches its result for five minutes. *)
Lemma send_enqueue_fifo svc account p effective key q w q' w' mid seq :
  is_fifo q = true ->
  send_enqueue svc account p effective (Some key) q w = (q', w', Ok (mid, seq)) ->
  same_config q q'
  /\ next_sequence_number q' = u64_add (next_sequence_number q) 1
  /\ seq = Some (format_sequence_number (next_sequence_number q))
  /\ (exists expiry, dedup_cache q' = <[key := mkDedup mid seq expiry]> (dedup_cache q)
        /\ exists n, expiry = (clock n + seconds 300)%Z)
  /\ exists m, messages q' = messages q ++ [m] /\ message_id m = mid /\ sequence_number m = seq
       /\ message_group_id m = s_group p /\ message_dedup_id m = effective.
Proof.
  intros Hf. unfold send_enqueue. rewrite Hf. case_match; [done|]. cbn zeta.
  destruct (encrypt_message_body _ _ _ _ _ _) as [w1 [stored|e]]; [|done].
  cbn [is_fifo push_back with_lists with_dedup]. rewrite Hf. intros [= <- <- <- <-].
  split_and!; try done.
  - eexists. split; [reflexivity|]. eauto.
  - eexists. split; [reflexivity|]. done.
Qed.

(** After a successful FIFO send with a dedup key, the cache holds the result. *)
Lemma commit_caches svc account p st w st1 w1 v url q key :
  find_queue (s_queue_url p) st = Ok (url, q) -> is_fifo q = true ->
  dedup_key_of q p = Some key ->
  send_message_commit svc account p st w = (st1, w1, Ok v) ->
  exists q1 e, st1 = put_queue st url q1 /\ same_config q q1
  /\ dedup_cache q1 !! key = Some e
  /\ v = send_reply p (de_message_id e) (de_sequence_number e).
Proof.
  intros Hf Hfifo Hkey. unfold send_message_commit. rewrite Hf.
  destruct (check_fifo_send_constraints _ _ _ _); [|done]. cbn zeta. rewrite Hkey.
  unfold dedup_lookup. rewrite Hfifo. cbn zeta. set (q0 := with_dedup q _ _).
  destruct (dedup_cache q0 !! key) as [e|] eqn:E.
  { intros [= <- <- <-]. exists q0, e. split_and!; try done. }
  destruct (send_enqueue _ _ _ _ _ q0 _) as [[q' w'] [[mid seq]|er]] eqn:Es; [|done].
  intros [= <- <- <-]. apply send_enqueue_fifo in Es as (Hc & _ & -> & (ex & Hd & _) & _); [|done].
  exists q'. eexists. split; [reflexivity|]. split; [exact Hc|].
  split; [by rewrite Hd, lookup_insert_eq|done].
Qed.

(** A send whose key is cached and unexpired only replays. *)
Lemma commit_replays svc account p st w st1 w1 v url q key e :
  find_queue (s_queue_url p) st = Ok (url, q) -> is_fifo q = true ->
  dedup_key_of q p = Some key -> dedup_cache q !! key = Some e ->
  (clock (ticks w) < de_expiry e)%Z ->
  send_message_commit svc account p st w = (st1, w1, Ok v) ->
  v = send_reply p (de_message_id e) (de_sequence_number e)
  /\ exists q1, st1 = put_queue st url q1 /\ messages q1 = messages q /\ inflight q1 = inflight q
     /\ next_sequence_number q1 = next_sequence_number q.
Proof.
  intros Hf Hfifo Hkey He Hlive. unfold send_message_commit. rewrite Hf.
  destruct (check_fifo_send_constraints _ _ _ _); [|done]. cbn zeta. rewrite Hkey.
  unfold dedup_lookup. rewrite Hfifo. cbn zeta. set (q0 := with_dedup q _ _).
  assert (Hhit : dedup_cache q0 !! key = Some e)
    by (apply map_lookup_filter_Some; by split).
  rewrite Hhit. intros [= <- <- <-]. split; [done|]. by exists q0.
Qed.

Lemma duplicate_send_aux svc account p p2 st w st1 w1 v1 w2 st2 w3 v2 url q key :
  find_queue (s_queue_url p) st = Ok (url, q) -> is_fifo q = true ->
  s_queue_url p2 = s_queue_url p ->
  dedup_key_of q p = Some key -> dedup_key_of q p2 = Some key ->
  send_message_commit svc account p st w = (st1, w1, Ok v1) ->
  (forall q1 e, queues st1 !! url = Some q1 -> dedup_cache q1 !! key = Some e ->
     (clock (ticks w2) < de_expiry e)%Z) ->
  send_message_commit svc account p2 st1 w2 = (st2, w3, Ok v2) ->
  exists mid seq q1 q2,
    v1 = send_reply p mid seq /\ v2 = send_reply p2 mid seq
    /\ queues st1 !! url = Some q1 /\ queues st2 !! url = Some q2
    /\ messages q2 = messages q1 /\ inflight q2 = inflight q1
    /\ next_sequence_number q2 = next_sequence_number q1.
Proof.
  intros Hf Hfifo Hurl Hk Hk2 H1 Hlive H2.
  destruct (commit_caches _ _ _ _ _ _ _ _ _ _ _ Hf Hfifo Hk H1) as (q1 & e & -> & Hc & He & ->).
  assert (Hq1 : queues (put_queue st url q1) !! url = Some q1) by apply lookup_insert_eq.
  assert (Hf2 : find_queue (s_queue_url p2) (put_queue st url q1) = Ok (url, q1))
    by (rewrite Hurl; by eapply find_queue_put).
  assert (Hfifo1 : is_fifo q1 = true) by (by destruct Hc as (_ & -> & _)).
  assert (Hk1 : dedup_key_of q1 p2 = Some key) by (by rewrite (dedup_key_config _ _ _ Hc)).
  destruct (commit_replays _ _ _ _ _ _ _ _ _ _ key e Hf2 Hfifo1 Hk1 He (Hlive _ _ Hq1 He) H2)
    as (-> & q2 & -> & ? & ? & ?).
  do 4 eexists. split_and!; try done. apply lookup_insert_eq.
Qed.

End Dedup.

(** ** Receipt handles *)

Lemma find_receipt_map q mid l h :
  receipt_handle_map q !! mid = Some l -> h ∈ l -> exists mid', find_message_id_for_receipt q h = Some mid'.
Proof.
  intros Hm Hh. unfold find_message_id_for_receipt.
  destruct (find _ (BTree.iter (receipt_handle_map q))) as [[mid' l']|] eqn:E; [eauto|].
  eapply find_none in E; [|apply list_elem_of_In, BTree.elem_of_iter; exact Hm].
  simpl in E. apply not_true_iff_false in E. destruct E. apply existsb_exists.
  exists h. split; [by apply list_elem_of_In|apply String.eqb_refl].
Qed.

(** Dropping a message leaves the handle map, so a mapped handle still
    resolves to the same id. *)
Lemma find_receipt_drop q mid l h mid0 :
  receipt_handle_map q !! mid = Some l -> h ∈ l ->
  find_message_id_for_receipt (drop_message q mid0) h = find_message_id_for_receipt q h.
Proof.
  intros Hm Hh. unfold find_message_id_for_receipt. cbn [receipt_handle_map drop_message with_lists].
  destruct (find _ (BTree.iter (receipt_handle_map q))) as [[mid' l']|] eqn:E; [done|].
  eapply find_none in E; [|apply list_elem_of_In, BTree.elem_of_iter; exact Hm].
  simpl in E. apply not_true_iff_false in E. destruct E. apply existsb_exists.
  exists h. split; [by apply list_elem_of_In|apply String.eqb_refl].
Qed.

Lemma filter_idemp {A} (P : A -> Prop) `{forall x, base.Decision (P x)} (l : list A) :
  filter P (filter P l) = filter P l.
Proof.
  induction l as [|x l IH]; [done|]. rewrite filter_cons. case_decide as Hx; [|done].
  rewrite filter_cons, decide_True by done. by rewrite IH.
Qed.

Lemma drop_message_idemp q mid : drop_message (drop_message q mid) mid = drop_message q mid.
Proof. unfold drop_message, with_lists. simpl. by rewrite !filter_idemp. Qed.

Lemma put_queue_twice st url q q' : put_queue (put_queue st url q) url q' = put_queue st url q'.
Proof. unfold put_queue. simpl. by rewrite insert_insert_eq. Qed.

(** What a successful delete is. *)
Lemma delete_message_Ok req st st' v :
  delete_message req st = (st', Ok v) ->
  exists input h url q mid,
    as_str (index (req_body req) "QueueUrl") = Some input
    /\ as_str (index (req_body req) "ReceiptHandle") = Some h
    /\ find_queue input st = Ok (url, q) /\ find_message_id_for_receipt q h = Some mid
    /\ st' = put_queue st url (drop_message q mid) /\ v = VObject [].
Proof.
  unfold delete_message. destruct (as_str (index (req_body req) "QueueUrl")) as [input|]; [|done].
  destruct (as_str (index (req_body req) "ReceiptHandle")) as [h|]; [|done]. simpl.
  destruct (find_queue input st) as [[url q]|] eqn:Ef; [|done]. simpl.
  destruct (find_message_id_for_receipt q h) as [mid|] eqn:Em; [|done]. simpl.
  intros [= <- <-]. exists input, h, url, q, mid. by split_and!.
Qed.

(** A delete of a mapped handle, repeated, succeeds and changes nothing. *)
Lemma delete_again req st st' v input h url q mid0 l :
  delete_message req st = (st', Ok v) ->
  as_str (index (req_body req) "QueueUrl") = Some input ->
  as_str (index (req_body req) "ReceiptHandle") = Some h ->
  find_queue input st = Ok (url, q) ->
  receipt_handle_map q !! mid0 = Some l -> h ∈ l ->
  delete_message req st' = (st', Ok v).
Proof.
  intros Hd Hi Hh Hf Hm Hl. destruct (delete_message_Ok _ _ _ _ Hd)
    as (input' & h' & url' & q' & mid & Hi' & Hh' & Hf' & Hr & -> & ->).
  assert (input' = input) as -> by congruence. assert (h' = h) as -> by congruence.
  assert (url' = url /\ q' = q) as [-> ->] by (rewrite Hf in Hf'; by injection Hf').
  unfold delete_message. rewrite Hi, Hh. simpl. rewrite (find_queue_put _ _ _ _ _ Hf). simpl.
  rewrite (find_receipt_drop _ _ _ _ mid Hm Hl), Hr. simpl.
  by rewrite drop_message_idemp, put_queue_twice.
Qed.

Lemma foldl_delete_lookup (l : list SqsMessage) (hs : gmap string (list string)) k x :
  foldl (fun hs m => delete (message_id m) hs) hs l !! k = Some x ->
  hs !! k = Some x /\ k ∉ ids l.
Proof.
  revert hs. induction l as [|m l IH]; intros hs; cbn [foldl].
  { intros Hx. split; [done|]. apply not_elem_of_nil. }
  intros Hx. apply IH in Hx as [Hx Hn]. apply lookup_delete_Some in Hx as [Hne Hx].
  split; [done|]. unfold ids in *. rewrite fmap_cons, not_elem_of_cons. auto.
Qed.

(** Handles of lapsed messages leave the map. *)
Lemma return_lapsed_handles now q k x :
  receipt_handle_map (return_lapsed now q) !! k = Some x ->
  receipt_handle_map q !! k = Some x
  /\ forall m, m ∈ inflight q -> lapsed now m = true -> message_id m <> k.
Proof.
  unfold return_lapsed. cbn [is_fifo with_lists].
  destruct (is_fifo q); rewrite give_back_all; cbn [receipt_handle_map with_handles];
    intros Hx; apply foldl_delete_lookup in Hx as [Hx Hn]; (split; [done|]);
    intros m Hm Hl <-; apply Hn; unfold ids; apply list_elem_of_fmap; exists m; (split; [done|]).
  - apply list_elem_of_In, in_rev. rewrite rev_involutive. apply list_elem_of_In.
    by apply list_elem_of_filter.
  - by apply list_elem_of_filter.
Qed.

Lemma stale_handle_aux now q m h :
  m ∈ inflight q -> lapsed now m = true ->
  (forall mid l, receipt_handle_map q !! mid = Some l -> h ∈ l -> mid = message_id m) ->
  (forall x, x ∈ messages q -> receipt_handle x <> Some h) ->
  (forall x, x ∈ inflight q -> receipt_handle x = Some h -> lapsed now x = true) ->
  find_message_id_for_receipt (return_lapsed now q) h = None.
Proof.
  intros Hm Hl Hown Hmsg Hinf. unfold find_message_id_for_receipt.
  destruct (find _ (BTree.iter _)) as [[mid l]|] eqn:E.
  { apply find_some in E as [Hin Hex]. apply list_elem_of_In, BTree.elem_of_iter in Hin.
    apply return_lapsed_handles in Hin as [Hin Hne]. simpl in Hex.
    apply existsb_exists in Hex as (h' & Hh' & Heq). apply String.eqb_eq in Heq as <-.
    apply list_elem_of_In in Hh'. destruct (Hne m Hm Hl). symmetry. by eapply Hown. }
  apply fmap_None. match goal with |- ?f = None => destruct f as [x|] eqn:Ex; [|reflexivity] end.
  exfalso.
  apply find_some in Ex as [Hin Hdec]. apply bool_decide_eq_true in Hdec.
  apply list_elem_of_In in Hin. rewrite return_lapsed_eq in Hin.
  cbn [inflight messages with_handles with_lists] in Hin.
  assert (Hcase : (x ∈ inflight q /\ lapsed now x = false) \/ x ∈ messages q \/ x ∈ returned now q).
  { apply elem_of_app in Hin as [Hin|Hin].
    - left. apply list_elem_of_filter in Hin. tauto.
    - right. destruct (is_fifo q); set_solver. }
  destruct Hcase as [[Hi Hn]|[Hq|Hq]].
  - specialize (Hinf x Hi Hdec). congruence.
  - by apply (Hmsg x).
  - by apply list_elem_of_fmap in Hq as (y & -> & _).
Qed.

(** ** The claims *)

(** C38 (safety) FIFO delivery respects each message group: if none of a
    group's queued messages is delayed, a receive works through a prefix of
    them, in order, and leaves the rest in order; no message is taken past an
    earlier one of its group that stays, and nothing is taken from a group
    that has messages in flight. *)
Theorem fifo_group_order `{Host} q now timeout max w g
  (Hfifo : is_fifo q = true)
  (Hnodelay : Forall (fun m => group_or_empty m = g -> hidden now m = false) (messages q)) :
  let p := select_messages q now timeout max w in
  exists pre rest,
    in_group g (messages q) = pre ++ rest
    /\ in_group g (remaining p) = rest
    /\ (erase <$> in_group g (received p)) `sublist_of` (erase <$> pre)
    /\ (g ∈ inflight_groups q -> pre = []).
Proof. by apply fifo_group_order_aux. Qed.

(** Theorem (functional) A standard queue is fair: no message is received while a
    visible one, of a group with fewer messages in flight, is left behind. *)
Theorem fair_queue_priority `{Host} q now timeout max w x y
  (Hstd : is_fifo q = false)
  (Hx : x ∈ received (select_messages q now timeout max w))
  (Hy : y ∈ remaining (select_messages q now timeout max w))
  (Hvisible : hidden now y = false) :
  group_load q x <= group_load q y.
Proof. by eapply fair_queue_aux. Qed.

(** Theorem (functional) A send repeated with the same deduplication key before the
    cached entry expires is answered with the original MessageId and
    SequenceNumber; it enqueues nothing and does not advance the counter. *)
Theorem duplicate_send_replays `{Host} svc account p p2 st w st1 w1 v1 w2 st2 w3 v2 url q key
  (Hqueue : find_queue (s_queue_url p) st = Ok (url, q))
  (Hfifo : is_fifo q = true)
  (Hurl : s_queue_url p2 = s_queue_url p)
  (Hkey : dedup_key_of q p = Some key) (Hkey2 : dedup_key_of q p2 = Some key)
  (Hfirst : send_message_commit svc account p st w = (st1, w1, Ok v1))
  (Hlive : forall q1 e, queues st1 !! url = Some q1 -> dedup_cache q1 !! key = Some e ->
             (clock (ticks w2) < de_expiry e)%Z)
  (Hsecond : send_message_commit svc account p2 st1 w2 = (st2, w3, Ok v2)) :
  exists mid seq q1 q2,
    v1 = send_reply p mid seq /\ v2 = send_reply p2 mid seq
    /\ queues st1 !! url = Some q1 /\ queues st2 !! url = Some q2
    /\ messages q2 = messages q1 /\ inflight q2 = inflight q1
    /\ next_sequence_number q2 = next_sequence_number q1.
Proof. by eapply duplicate_send_aux. Qed.

(** Theorem (functional) With [DeduplicationScope = messageGroup] the cache key
    determines both the group and the deduplication id: messages of different
    groups are never taken for duplicates of each other. *)
Theorem dedup_scope_separates_groups q d g d' g'
  (Hscope : attr q "DeduplicationScope" = Some "messageGroup"%string)
  (Hsame : dedup_cache_key q d g = dedup_cache_key q d' g') :
  default EmptyString g = default EmptyString g' /\ d = d'.
Proof. by eapply dedup_cache_key_inj. Qed.

(** Theorem (bounds) Sequence numbers grow with the counter, read as the 64-bit
    integers they print, for every counter below 2^64 - 10^19. *)
Theorem sequence_numbers_increase (c c' : Z)
  (Hc : (0 <= c < c')%Z) (Hmax : (c' < 2 ^ 64 - SEQUENCE_NUMBER_BASE)%Z) :
  exists n n', parse_u64 (format_sequence_number c) = Some n
  /\ parse_u64 (format_sequence_number c') = Some n' /\ (n < n')%Z.
Proof.
  exists (SEQUENCE_NUMBER_BASE + c)%Z, (SEQUENCE_NUMBER_BASE + c')%Z.
  rewrite !format_sequence_number_parse by lia. split_and!; [done|done|lia].
Qed.

(** Theorem (functional) A successful delete removes the handle's message from the
    queue and nothing else, and repeating the request succeeds without
    changing the state. *)
Theorem delete_message_idempotent req st st' v input h url q mid0 l
  (Hdelete : delete_message req st = (st', Ok v))
  (Hinput : as_str (index (req_body req) "QueueUrl") = Some input)
  (Hhandle : as_str (index (req_body req) "ReceiptHandle") = Some h)
  (Hqueue : find_queue input st = Ok (url, q))
  (Hmapped : receipt_handle_map q !! mid0 = Some l) (Hin : h ∈ l) :
  (exists mid q', find_message_id_for_receipt q h = Some mid
     /\ st' = put_queue st url q'
     /\ messages q' = filter (fun m => message_id m <> mid) (messages q)
     /\ inflight q' = filter (fun m => message_id m <> mid) (inflight q))
  /\ delete_message req st' = (st', Ok v).
Proof.
  split; [|by eapply delete_again].
  destruct (delete_message_Ok _ _ _ _ Hdelete) as (i' & h' & url' & q' & mid & Hi & Hh & Hf & Hr & -> & _).
  rewrite Hinput in Hi. injection Hi as <-. rewrite Hhandle in Hh. injection Hh as <-.
  rewrite Hqueue in Hf. injection Hf as <- <-. by exists mid, (drop_message q mid).
Qed.

(** Theorem (safety) Once a message's visibility window has lapsed, the receive
    that returns it to the queue invalidates its old receipt handle. *)
Theorem stale_handle_invalid now q m h
  (Hm : m ∈ inflight q) (Hlapsed : lapsed now m = true)
  (Howner : forall mid l, receipt_handle_map q !! mid = Some l -> h ∈ l -> mid = message_id m)
  (Hqueued : forall x, x ∈ messages q -> receipt_handle x <> Some h)
  (Hinflight : forall x, x ∈ inflight q -> receipt_handle x = Some h -> lapsed now x = true) :
  find_message_id_for_receipt (return_lapsed now q) h = None.
Proof. by eapply stale_handle_aux. Qed.

(** ** Concrete runs *)

#[local] Existing Instance demo_host.

Definition ga : option string := Some "A"%string.
Definition gb : option string := Some "B"%string.

Definition demo_fifo (msgs infl : list SqsMessage) : SqsQueue :=
  demo_queue "q.fifo" true ∅ None msgs infl.

Lemma fifo_group_order_witness :
  let q := demo_fifo [demo_message "m1" ga 0; demo_message "m2" gb 0; demo_message "m3" ga 0]
             [with_visibility (demo_message "m0" gb 1) (Some "h") (Some (seconds 9))] in
  let p := select_messages q 0 30 10 (demo_world 0) in
  exists pre rest,
    in_group "A" (messages q) = pre ++ rest
    /\ in_group "A" (remaining p) = rest
    /\ (erase <$> in_group "A" (received p)) `sublist_of` (erase <$> pre)
    /\ ("A" ∈ inflight_groups q -> pre = []).
Proof.
  intros q p. apply (fifo_group_order q 0 30 10 (demo_world 0) "A"); [reflexivity|].
  repeat constructor.
Defined.

Definition fair_demo : SqsQueue :=
  demo_queue "q" false ∅ None [demo_message "m1" ga 0; demo_message "m2" gb 0]
    [demo_message "m0" ga 1].

Definition fair_taken : SqsMessage :=
  with_visibility (with_counts (demo_message "m2" gb 0) 1 (Some 0%Z)) (Some "id-0"%string)
    (Some (seconds 30)).

Lemma fair_queue_priority_witness :
  group_load fair_demo fair_taken <= group_load fair_demo (demo_message "m1" ga 0).
Proof.
  apply (fair_queue_priority fair_demo 0 30 1 (demo_world 0)).
  - reflexivity.
  - replace (received _) with [fair_taken] by (vm_compute; reflexivity). left.
  - replace (remaining _) with [demo_message "m1" ga 0] by (vm_compute; reflexivity). left.
  - reflexivity.
Defined.

Definition dedup_demo : SqsState :=
  demo_state [demo_queue "q.fifo" true {["DeduplicationScope" := "messageGroup"]}%string None [] []].

Definition demo_send (text : string) : SendParams :=
  mkSend "q.fifo" text ga (Some "d1"%string) ∅ ∅ None.

Definition first_send :=
  send_message_commit plain_service "a" (demo_send "one") dedup_demo (demo_world 0).
Definition second_send :=
  send_message_commit plain_service "a" (demo_send "two") first_send.1.1 (mkWorld 100 1 0).

Definition demo_mid : string := "id-0".
Definition demo_seq : option string := Some (format_sequence_number 0).

Lemma duplicate_send_replays_witness :
  exists mid seq q1 q2,
    send_reply (demo_send "one") demo_mid demo_seq = send_reply (demo_send "one") mid seq
    /\ send_reply (demo_send "two") demo_mid demo_seq = send_reply (demo_send "two") mid seq
    /\ queues first_send.1.1 !! "u/q.fifo"%string = Some q1
    /\ queues second_send.1.1 !! "u/q.fifo"%string = Some q2
    /\ messages q2 = messages q1 /\ inflight q2 = inflight q1
    /\ next_sequence_number q2 = next_sequence_number q1.
Proof.
  apply (duplicate_send_replays plain_service "a" (demo_send "one") (demo_send "two")
           dedup_demo (demo_world 0) first_send.1.1 first_send.1.2 _ (mkWorld 100 1 0)
           second_send.1.1 second_send.1.2 _ "u/q.fifo"
           (demo_queue "q.fifo" true {["DeduplicationScope" := "messageGroup"]}%string None [] [])
           "1:A:d1").
  - vm_compute. reflexivity.
  - reflexivity.
  - reflexivity.
  - vm_compute. reflexivity.
  - vm_compute. reflexivity.
  - vm_compute. reflexivity.
  - intros q1 e Hq He. vm_compute in Hq. injection Hq as <-. vm_compute in He.
    injection He as <-. reflexivity.
  - vm_compute. reflexivity.
Defined.

Lemma dedup_scope_separates_groups_witness :
  default EmptyString ga = default EmptyString ga /\ "d1"%string = "d1"%string.
Proof.
  apply (dedup_scope_separates_groups
           (demo_queue "q.fifo" true {["DeduplicationScope" := "messageGroup"]}%string None [] [])
           "d1" ga "d1" ga); vm_compute; reflexivity.
Defined.

Lemma sequence_numbers_increase_witness :
  exists n n', parse_u64 (format_sequence_number 8) = Some n
  /\ parse_u64 (format_sequence_number 1000) = Some n' /\ (n < n')%Z.
Proof. apply (sequence_numbers_increase 8 1000); unfold SEQUENCE_NUMBER_BASE; lia. Defined.

Definition handle_request (h : string) (timeout : list (string * Value)) : Request :=
  mkRequest "a" "r" (VObject ([("QueueUrl"%string, VString "q.fifo");
                                ("ReceiptHandle"%string, VString h)] ++ timeout)).

(** A message received once, in flight until second 9. *)
Definition handled_queue : SqsQueue :=
  with_handles (demo_fifo [demo_message "m2" ga 0]
                  [with_visibility (demo_message "m1" ga 1) (Some "h") (Some (seconds 9))])
    {["m1" := ["h"]]}%string.

Lemma delete_message_idempotent_witness :
  let st := demo_state [handled_queue] in
  let st' := (delete_message (handle_request "h" []) st).1 in
  (exists mid q', find_message_id_for_receipt handled_queue "h" = Some mid
     /\ st' = put_queue st "u/q.fifo" q'
     /\ messages q' = filter (fun m => message_id m <> mid) (messages handled_queue)
     /\ inflight q' = filter (fun m => message_id m <> mid) (inflight handled_queue))
  /\ delete_message (handle_request "h" []) st' = (st', Ok (VObject [])).
Proof.
  intros st st'.
  apply (delete_message_idempotent (handle_request "h" []) st st' (VObject []) "q.fifo" "h"
           "u/q.fifo" handled_queue "m1" ["h"%string]).
  - vm_compute. reflexivity.
  - reflexivity.
  - reflexivity.
  - vm_compute. reflexivity.
  - vm_compute. reflexivity.
  - left.
Defined.

Lemma stale_handle_invalid_witness :
  find_message_id_for_receipt (return_lapsed (seconds 9) handled_queue) "h" = None.
Proof.
  apply (stale_handle_invalid (seconds 9) handled_queue
           (with_visibility (demo_message "m1" ga 1) (Some "h"%string) (Some (seconds 9))) "h").
  - left.
  - reflexivity.
  - intros mid l Hm _. change (({["m1" := ["h"]]}%string : gmap string (list string)) !! mid = Some l) in Hm. apply lookup_singleton_Some in Hm as [<- _]. reflexivity.
  - intros x Hx. apply list_elem_of_singleton in Hx as ->. discriminate.
  - intros x Hx _. apply list_elem_of_singleton in Hx as ->. reflexivity.
Defined.

(** ** Runs that depart from the intended behaviour *)

(** A hook whose key has been disabled. *)
Definition disabled_key : SqsService :=
  mkService (Some {| hook_encrypt := fun _ _ _ _ _ _ _ => Ok "fakecloud-kms:x"%string;
                     hook_decrypt := fun _ _ _ _ _ => Err "disabled"%string |}) "r".

Definition encrypted_demo : SqsState :=
  demo_state
    [demo_queue "q" false {["SqsManagedSseEnabled" := "true"]}%string demo_redrive
       [demo_message "m1" None 2; with_body (demo_message "m2" None 0) "fakecloud-kms:x"] [];
     demo_dead].

(** Theorem (error) A receive that fails to decrypt puts the batch back but drops
    the dead letters selected in the same call: [m1], due for the dead-letter
    queue, is in no queue afterwards. *)
Theorem decrypt_failure_drops_dead_letters :
  exists st' w' e,
    try_receive_messages disabled_key "a" "q" 10 None None encrypted_demo (demo_world 10)
    = (st', w', Err e)
    /\ ids (contents encrypted_demo) = ["m1"; "m2"]%string
    /\ ids (contents st') = ["m2"%string].
Proof. vm_compute. do 3 eexists. split_and!; reflexivity. Qed.

(** Two messages of one group, received together; the first is released by
    its consumer, then a poll runs while the second is still in flight, then
    the second lapses. *)
Definition run0 : SqsState :=
  demo_state [demo_fifo [demo_message "m1" ga 0; demo_message "m2" ga 0] []].
Definition run1 := try_receive_messages plain_service "a" "q.fifo" 10 None None run0 (mkWorld 0 0 0).
Definition run2 :=
  change_message_visibility
    (handle_request "id-0" [("VisibilityTimeout"%string, VNumber (PosInt 0))])
    run1.1.1 (mkWorld 5 2 0).
Definition run3 :=
  try_receive_messages plain_service "a" "q.fifo" 10 None None run2.1.1 (mkWorld 6 2 0).
Definition run4 :=
  try_receive_messages plain_service "a" "q.fifo" 10 None None run3.1.1 (mkWorld 60 2 0).

Definition batch_ids (r : Result AwsServiceError (list SqsMessage)) : list string :=
  match r with Ok batch => ids batch | Err _ => [] end.

(** Theorem (safety) Returning lapsed messages to the front does not keep a FIFO
    group in order when its messages lapse in different polls: [m1] and [m2]
    are redelivered as [m2], [m1]. *)
Theorem fifo_redelivery_out_of_order :
  batch_ids run1.2 = ["m1"; "m2"]%string /\ batch_ids run3.2 = []
  /\ batch_ids run4.2 = ["m2"; "m1"]%string.
Proof. split_and!; vm_compute; reflexivity. Qed.

Definition fifo_entry (id text : string) (delay : list (string * Value)) : Value :=
  VObject ([("Id", VString id); ("MessageBody", VString text); ("MessageGroupId", VString "A");
            ("MessageDeduplicationId", VString id)]%string ++ delay).

Definition delay_member : list (string * Value) := [("DelaySeconds"%string, VNumber (PosInt 10))].

Definition delayed_batch : Request :=
  mkRequest "a" "r"
    (VObject [("QueueUrl"%string, VString "q.fifo");
              ("Entries"%string, VArray [fifo_entry "e1" "first" delay_member;
                                         fifo_entry "e2" "second" []])]).

Definition delayed_single : Request :=
  mkRequest "a" "r" (VObject (("QueueUrl"%string, VString "q.fifo") ::
                              default [] (as_object (fifo_entry "e1" "first" delay_member)))).

Definition empty_fifo : SqsState := demo_state [demo_fifo [] []].

Definition after_batch := send_message_batch plain_service delayed_batch empty_fifo (demo_world 0).

Definition batch_bodies (r : Result AwsServiceError (list SqsMessage)) : list string :=
  match r with Ok batch => body <$> batch | Err _ => [] end.

(** Theorem (safety) A batch entry may carry a per-message delay on a FIFO queue,
    which a single send rejects, and the receive loop then delivers a later
    message of the group before it. *)
Theorem fifo_batch_delay_overtakes :
  (send_message plain_service delayed_single empty_fifo (demo_world 0)).2
  = Err (aws_error 400 "InvalidParameterValue"
           "Value 10 for parameter DelaySeconds is invalid. Reason: The request include parameter that is not valid for this queue type.")
  /\ is_ok after_batch.2 = true
  /\ batch_bodies (try_receive_messages plain_service "a" "q.fifo" 10 None None after_batch.1.1
                     (mkWorld 2 2 0)).2 = ["second"%string].
Proof. split_and!; vm_compute; reflexivity. Qed.

End SqsOrder.
