(* ===== verification/SqsQueues.v ===== *)
(** * SQS: queue management

    [service/queues.rs], [service/tags.rs], [service/dlq.rs] and their helpers
    in [helpers.rs]: creating and deleting queues, their attributes and tags,
    listing, and the URLs clients see.  JSON text is parsed and printed by
    [serde_json], a parameter ([Json.SerdeJson], [SerdePrint]); the opaque
    pagination token is base64, the class [TokenCodec]. *)

From Stdlib Require Import ZArith Lia Bool String Ascii.
From stdpp Require Import base option list strings gmap sorting.
From S2P Require Import Prelude Json Arn BTree MultiAccount Sqs SqsSend SqsReceive.

Module SqsQueues.
Import Sqs SqsSend SqsReceive.

(** [serde_json::to_string] on a [Value]; [None] is its error. *)
Class SerdePrint := { json_to_string : Value -> option string }.

(** URL-safe base64 of a UTF-8 text, and its decoding when both succeed. *)
Class TokenCodec := {
  token_encode : string -> string;
  token_decode : string -> option string
}.

(** ** JSON helpers *)

(** Rebuilding objects with their keys in order. *)
Fixpoint sort_json_keys (v : Value) : Value :=
  match v with
  | VObject m =>
      VObject (merge_sort BTree.entry_le
                 ((fix go (m : list (string * Value)) : list (string * Value) :=
                     match m with
                     | [] => []
                     | (k, x) :: m => (k, sort_json_keys x) :: go m
                     end) m))
  | VArray l =>
      VArray ((fix go (l : list Value) : list Value :=
                 match l with [] => [] | x :: l => sort_json_keys x :: go l end) l)
  | other => other
  end.

Definition JSON_VALUED_ATTRS : list string := ["Policy"; "RedrivePolicy"; "RedriveAllowPolicy"]%string.

Definition as_u64 (v : Value) : option Z :=
  match v with VNumber (PosInt z) => Some z | _ => None end.

Section Queues.
Context `{Host} `{SerdeJson} `{SerdePrint} `{TokenCodec}.

Definition canonicalize_json_attr (name value : string) : string :=
  if bool_decide (name ∈ JSON_VALUED_ATTRS) then
    match json_from_str value with
    | Some parsed => default value (json_to_string (sort_json_keys parsed))
    | None => value
    end
  else value.

(** [as u32] keeps the low 32 bits. *)
Definition parse_redrive_policy (s : string) : option RedrivePolicy :=
  rp ← json_from_str s;
  target ← as_str (index rp "deadLetterTargetArn");
  count ← match as_u64 (index rp "maxReceiveCount") with
          | Some n => Some n
          | None => as_str (index rp "maxReceiveCount") ≫= parse_u64
          end;
  Some (mkRedrive target (count mod 2 ^ 32)).

(** ** Validation *)

Definition invalid_attribute (name : string) : AwsServiceError :=
  aws_error 400 "InvalidAttributeValue" ("Invalid value for the parameter " +:+ name +:+ ".").

Definition validate_visibility_timeout_attr (value : option string) : Result AwsServiceError unit :=
  match value with
  | None => Ok tt
  | Some vt =>
      match parse_i64 vt with
      | Some v => if in_visibility_range v then Ok tt else Err (invalid_attribute "VisibilityTimeout")
      | None => Err (invalid_attribute "VisibilityTimeout")
      end
  end.

Definition validate_create_queue_attributes (attrs : gmap string string)
  : Result AwsServiceError unit :=
  _ ← match attrs !! "DelaySeconds"%string with
      | None => Ok tt
      | Some ds =>
          match parse_i64 ds with
          | Some d => if in_delay_range d then Ok tt else Err (invalid_attribute "DelaySeconds")
          | None => Err (invalid_attribute "DelaySeconds")
          end
      end;
  _ ← validate_visibility_timeout_attr (attrs !! "VisibilityTimeout"%string);
  match attrs !! "MaximumMessageSize"%string ≫= parse_u64 with
  | Some size =>
      if (1024 <=? size)%Z && (size <=? 1048576)%Z then Ok tt
      else Err (invalid_attribute "MaximumMessageSize")
  | None => Ok tt
  end.

Definition is_valid_queue_name (name : string) : bool :=
  if is_empty_str name || (80 <? byte_len name) then false
  else string_forallb (fun c => is_alphanumeric c || Ascii.eqb c "-" || Ascii.eqb c "_") name.

Definition validate_redrive_policy_target (st : SqsState) (rp : RedrivePolicy) (fifo : bool)
  : Result AwsServiceError unit :=
  match url_of_arn st (dead_letter_target_arn rp) with
  | None =>
      Err (aws_error_with_headers 400 "AWS.SimpleQueueService.NonExistentQueue"
             ("Dead letter target does not exist: " +:+ dead_letter_target_arn rp)
             [("x-amzn-query-error", "AWS.SimpleQueueService.NonExistentQueue;Sender")]%string)
  | Some (_, dlq) =>
      if fifo && negb (is_fifo dlq)
      then Err (aws_error 400 "InvalidParameterValue"
                  "Dead-letter queue must be the same type of queue as the source.")
      else Ok tt
  end.

(** ** URLs *)

(** [str::trim_end_matches] with a non-empty pattern. *)
Fixpoint trim_end_matches (fuel : nat) (x s : string) : string :=
  match fuel with
  | 0 => s
  | S f => match strip_suffix x s with Some r => trim_end_matches f x r | None => s end
  end.

Definition trim_slashes (s : string) : string := trim_end_matches (String.length s) "/" s.

(** [headers.get(name)], as text. *)
Definition resolve_endpoint_base_with (header : string -> option string) (fallback : string)
  (external : option string) : string :=
  let non_empty o := o ≫= fun s : string => if is_empty_str s then None else Some s in
  match non_empty ((fun e => trim_slashes (trim e)) <$> external) with
  | Some ext => ext
  | None =>
      match non_empty (trim <$> header "host"%string) with
      | Some host =>
          default "http"%string (non_empty (trim <$> header "x-forwarded-proto"%string))
          +:+ "://" +:+ host
      | None => fallback
      end
  end.

Definition render_authority (rest base : string) : string :=
  match split_at_needle "/" rest with
  | Some (_, path) => base +:+ "/" +:+ path
  | None => base
  end.

Definition render_queue_url (stored base : string) : string :=
  let base := trim_slashes base in
  match strip_prefix "http://" stored with
  | Some rest => render_authority rest base
  | None =>
      match strip_prefix "https://" stored with
      | Some rest => render_authority rest base
      | None => stored
      end
  end.

(** ** Creating a queue *)

Definition with_attributes (q : SqsQueue) (attrs : gmap string string)
  (rp : option RedrivePolicy) : SqsQueue :=
  mkQueue (queue_name q) (queue_url q) (arn q) (created_at q) (messages q) (inflight q) attrs
    (is_fifo q) (dedup_cache q) rp (tags q) (next_sequence_number q) (permission_labels q)
    (receipt_handle_map q) (receive_attempt_cache q).

Definition with_tags (q : SqsQueue) (t : gmap string string) : SqsQueue :=
  mkQueue (queue_name q) (queue_url q) (arn q) (created_at q) (messages q) (inflight q)
    (attributes q) (is_fifo q) (dedup_cache q) (redrive_policy q) t (next_sequence_number q)
    (permission_labels q) (receipt_handle_map q) (receive_attempt_cache q).

(** The string members of an object, inserted in order. *)
Definition collect_strings (key : string -> string) (members : list (string * Value))
  (acc : gmap string string) : gmap string string :=
  foldl (fun acc (kv : string * Value) =>
           match as_str kv.2 with Some s => <[key kv.1 := s]> acc | None => acc end) acc members.

Definition object_members (v : Value) : list (string * Value) := default [] (as_object v).

Definition attributes_match (existing_val v : string) : bool :=
  match json_from_str existing_val, json_from_str v with
  | Some a, Some b => value_eqb a b
  | _, _ => String.eqb existing_val v
  end.

Definition create_conflicts (existing : SqsQueue) (new_attributes : gmap string string) : bool :=
  existsb (fun kv : string * string =>
             match attributes existing !! trim kv.1 with
             | Some existing_val => negb (attributes_match existing_val kv.2)
             | None => false
             end) (BTree.iter new_attributes).

Definition default_attributes (fifo : bool) : gmap string string :=
  let common :=
    list_to_map [("VisibilityTimeout", "30"); ("DelaySeconds", "0");
                 ("MaximumMessageSize", "262144"); ("MessageRetentionPeriod", "345600");
                 ("ReceiveMessageWaitTimeSeconds", "0"); ("KmsDataKeyReusePeriodSeconds", "300");
                 ("SqsManagedSseEnabled", "true")]%string in
  if fifo then
    <["FifoQueue" := "true"]> (<["ContentBasedDeduplication" := "false"]>
      (<["DeduplicationScope" := "queue"]> (<["FifoThroughputLimit" := "perQueue"]> common)))
  else common%string.

(** The caller's attributes over the defaults, then the exclusion of the two
    encryption modes. *)
Definition created_attributes (fifo : bool) (new_attributes : gmap string string)
  : gmap string string :=
  let attrs :=
    foldl (fun acc (kv : string * string) =>
             <[trim kv.1 := canonicalize_json_attr (trim kv.1) kv.2]> acc)
      (default_attributes fifo) (BTree.iter new_attributes) in
  let attrs :=
    match attrs !! "KmsMasterKeyId" with
    | Some k => if is_empty_str k then attrs else <["SqsManagedSseEnabled" := "false"]> attrs
    | None => attrs
    end in
  if bool_decide (attrs !! "SqsManagedSseEnabled" = Some "true")
  then delete "KmsMasterKeyId" attrs else attrs%string.

(** [timestamp()]: whole seconds. *)
Definition timestamp (t : Z) : Z := t / nanos_per_sec.

Definition queue_arn_for (rg account name : string) : string :=
  "arn:" +:+ Arn.partition_for rg +:+ ":sqs:" +:+ rg +:+ ":" +:+ account +:+ ":" +:+ name.

Definition queue_url_for (st : SqsState) (name : string) : string :=
  endpoint st +:+ "/" +:+ account_id st +:+ "/" +:+ name.

Definition insert_queue (st : SqsState) (name : string) (q : SqsQueue) : SqsState :=
  mkState (account_id st) (region st) (endpoint st) (<[queue_url q := q]> (queues st))
    (<[name := queue_url q]> (name_to_url st)) (message_move_tasks st).

(** The name checks before the lock. *)
Definition create_queue_name (b : Value) : Result AwsServiceError (string * bool) :=
  name ← ok_or (missing_param "QueueName") (as_str (index b "QueueName"));
  let fifo := ends_with ".fifo" name in
  _ ← (if bool_decide ((as_object (index b "Attributes") ≫= assoc "FifoQueue") ≫= as_str
                       = Some "true"%string) && negb fifo
       then Err (aws_error 400 "InvalidParameterValue"
                   "The queue name must end with the .fifo suffix for a FIFO queue.")
       else Ok tt);
  let base_name := if fifo then trim_end_matches (String.length name) ".fifo" name else name in
  if is_valid_queue_name base_name then Ok (name, fifo)
  else Err (aws_error 400 "InvalidParameterValue"
              "Can only include alphanumeric characters, hyphens, or underscores. 1 to 80 in length").

Definition queue_url_response (url : string) : Value := VObject [("QueueUrl"%string, VString url)].

(** The new queue of a name that is not taken. *)
Definition new_queue (st : SqsState) (rg name : string) (fifo : bool) (b : Value)
  (new_attributes : gmap string string) (now : Z) : Result AwsServiceError SqsQueue :=
  _ ← validate_create_queue_attributes new_attributes;
  let attrs := created_attributes fifo new_attributes in
  let rp := attrs !! "RedrivePolicy"%string ≫= parse_redrive_policy in
  _ ← match rp with
      | Some rp => validate_redrive_policy_target st rp fifo
      | None => Ok tt
      end;
  let tags := collect_strings id (object_members (index b "Tags"))
                (collect_strings id (object_members (index b "tags")) ∅) in
  let ts := print_Z (timestamp now) in
  let attrs := <["LastModifiedTimestamp"%string := ts]> (<["CreatedTimestamp"%string := ts]> attrs) in
  Ok (mkQueue name (queue_url_for st name) (queue_arn_for rg (account_id st) name) now [] [] attrs
        fifo ∅ rp tags 0 [] ∅ ∅).

(** [base_of] is [resolve_endpoint_base] with the request's headers. *)
Definition create_queue (base_of : string -> string) (req : Request) (st : SqsState) (w : World)
  : SqsState * World * Result AwsServiceError Value :=
  let b := req_body req in
  match create_queue_name b with
  | Err e => (st, w, Err e)
  | Ok (name, fifo) =>
      let new_attributes := collect_strings trim (object_members (index b "Attributes")) ∅ in
      let respond url := Ok (queue_url_response (render_queue_url url (base_of (endpoint st)))) in
      match name_to_url st !! name with
      | Some url =>
          let conflict := match queues st !! url with
                          | Some existing => create_conflicts existing new_attributes
                          | None => false
                          end in
          (st, w,
           if conflict
           then Err (aws_error 400 "QueueAlreadyExists"
                       "A queue already exists with the same name and a different value for attribute VisibilityTimeout.")
           else respond url)
      | None =>
          match new_queue st (req_region req) name fifo b new_attributes (clock (ticks w)) with
          | Err e => (st, w, Err e)
          | Ok q => (insert_queue st name q, ticked w, respond (queue_url q))
          end
      end
  end.

(** ** Deleting, purging, tagging *)

Definition queue_param (b : Value) (st : SqsState) : Result AwsServiceError (string * SqsQueue) :=
  url ← ok_or (missing_param "QueueUrl") (as_str (index b "QueueUrl"));
  find_queue url st.

Definition delete_queue (req : Request) (st : SqsState) : SqsState * Result AwsServiceError Value :=
  match queue_param (req_body req) st with
  | Err e => (st, Err e)
  | Ok (url, q) =>
      (mkState (account_id st) (region st) (endpoint st) (delete url (queues st))
         (delete (queue_name q) (name_to_url st)) (message_move_tasks st), Ok (VObject []))
  end.

Definition purge_queue (req : Request) (st : SqsState) : SqsState * Result AwsServiceError Value :=
  match queue_param (req_body req) st with
  | Err e => (st, Err e)
  | Ok (url, q) => (put_queue st url (with_lists q [] []), Ok (VObject []))
  end.

Definition tag_queue (req : Request) (st : SqsState) : SqsState * Result AwsServiceError Value :=
  match queue_param (req_body req) st with
  | Err e => (st, Err e)
  | Ok (url, q) =>
      match as_object (index (req_body req) "Tags") with
      | None => (st, Ok (VObject []))
      | Some members =>
          let merged := collect_strings id members (tags q) in
          if 50 <? size merged
          then (st, Err (aws_error 400 "InvalidParameterValue"
                           ("Too many tags added for queue " +:+ queue_name q +:+ ".")))
          else (put_queue st url (with_tags q merged), Ok (VObject []))
      end
  end.

Definition untag_queue (req : Request) (st : SqsState) : SqsState * Result AwsServiceError Value :=
  match queue_param (req_body req) st with
  | Err e => (st, Err e)
  | Ok (url, q) =>
      let keys := default [] (as_array (index (req_body req) "TagKeys")) in
      (put_queue st url (with_tags q (foldl (fun t k => match as_str k with
                                                        | Some s => delete s t
                                                        | None => t
                                                        end) (tags q) keys)),
       Ok (VObject []))
  end.

(** ** Attributes *)

Definition is_clearable (k : string) : bool :=
  bool_decide (k ∈ ["Policy"; "RedrivePolicy"; "RedriveAllowPolicy"; "KmsMasterKeyId"]%string).

(** One member of the request's [Attributes]. *)
Definition set_attribute (acc : gmap string string * option RedrivePolicy) (kv : string * Value)
  : gmap string string * option RedrivePolicy :=
  let '(attrs, rp) := acc in
  let '(k, v) := kv in
  match as_str v with
  | None => acc
  | Some s =>
      if is_empty_str s && is_clearable k
      then (delete k attrs, if String.eqb k "RedrivePolicy" then None else rp)
      else (<[k := canonicalize_json_attr k s]> attrs, rp)
  end.

Definition apply_attributes (members : list (string * Value)) (now : Z) (q : SqsQueue) : SqsQueue :=
  let member k := assoc k members ≫= as_str in
  let '(attrs, rp) := foldl set_attribute (attributes q, redrive_policy q) members in
  let attrs :=
    if bool_decide (member "SqsManagedSseEnabled"%string = Some "true"%string) then
      let attrs := delete "KmsMasterKeyId"%string attrs in
      if bool_decide (is_Some (assoc "KmsDataKeyReusePeriodSeconds" members)) then attrs
      else <["KmsDataKeyReusePeriodSeconds"%string := "300"%string]> attrs
    else attrs in
  let attrs :=
    match member "KmsMasterKeyId"%string with
    | Some k => if is_empty_str k then attrs
                else <["SqsManagedSseEnabled"%string := "false"%string]> attrs
    | None => attrs
    end in
  let rp :=
    match member "RedrivePolicy"%string with
    | Some s => if is_empty_str s then rp
                else match parse_redrive_policy s with Some p => Some p | None => rp end
    | None => rp
    end in
  let attrs := if bool_decide (members = []) then attrs
               else <["LastModifiedTimestamp"%string := print_Z (timestamp now)]> attrs in
  with_attributes q attrs rp.

Definition set_queue_attributes (req : Request) (st : SqsState) (w : World)
  : SqsState * World * Result AwsServiceError Value :=
  let b := req_body req in
  let members := as_object (index b "Attributes") in
  let member k := (members ≫= assoc k) ≫= as_str in
  let checked :=
    input ← ok_or (missing_param "QueueUrl") (as_str (index b "QueueUrl"));
    url ← ok_or queue_not_found (resolve_queue_url input st);
    _ ← match member "RedrivePolicy"%string with
        | Some s =>
            if is_empty_str s then Ok tt
            else match parse_redrive_policy s with
                 | Some rp =>
                     validate_redrive_policy_target st rp
                       (match queues st !! url with Some q => is_fifo q | None => false end)
                 | None => Ok tt
                 end
        | None => Ok tt
        end;
    q ← ok_or queue_not_found (queues st !! url);
    _ ← match member "DelaySeconds"%string ≫= parse_i64 with
        | Some d => if in_delay_range d then Ok tt else Err (invalid_attribute "DelaySeconds")
        | None => Ok tt
        end;
    _ ← validate_visibility_timeout_attr (member "VisibilityTimeout"%string);
    Ok (url, q) in
  match checked with
  | Err e => (st, w, Err e)
  | Ok (url, q) =>
      match members with
      | None => (st, w, Ok (VObject []))
      | Some [] => (put_queue st url (apply_attributes [] 0 q), w, Ok (VObject []))
      | Some ms =>
          (put_queue st url (apply_attributes ms (clock (ticks w)) q), ticked w, Ok (VObject []))
      end
  end.

(** The attributes every queue has besides its stored ones. *)
Definition valid_attrs : list string :=
  ["All"; "Policy"; "VisibilityTimeout"; "MaximumMessageSize"; "MessageRetentionPeriod";
   "ApproximateNumberOfMessages"; "ApproximateNumberOfMessagesNotVisible"; "CreatedTimestamp";
   "LastModifiedTimestamp"; "QueueArn"; "ApproximateNumberOfMessagesDelayed"; "DelaySeconds";
   "ReceiveMessageWaitTimeSeconds"; "RedrivePolicy"; "FifoQueue"; "ContentBasedDeduplication";
   "KmsMasterKeyId"; "KmsDataKeyReusePeriodSeconds"; "DeduplicationScope"; "FifoThroughputLimit";
   "RedriveAllowPolicy"; "SqsManagedSseEnabled"]%string.

(** Visible, in-flight and delayed messages at [now]. *)
Definition approximate_counts (now : Z) (q : SqsQueue) : nat * nat * nat :=
  let visible := length (filter (fun m => hidden now m = false) (messages q)) in
  let expired := length (filter (fun m => lapsed now m = true) (inflight q)) in
  let delayed := length (filter (fun m => hidden now m = true) (messages q)) in
  (visible + expired, length (inflight q) - expired, delayed).

Definition queue_attributes (now : Z) (q : SqsQueue) : gmap string string :=
  let '(visible, not_visible, delayed) := approximate_counts now q in
  let num (n : nat) := print_Z (Z.of_nat n) in
  <["ApproximateNumberOfMessagesDelayed"%string := num delayed]>
    (<["ApproximateNumberOfMessagesNotVisible"%string := num not_visible]>
      (<["ApproximateNumberOfMessages"%string := num visible]>
        (<["QueueArn"%string := arn q]> (attributes q)))).

Definition string_members (m : gmap string string) : list (string * Value) :=
  (fun kv : string * string => (kv.1, VString kv.2)) <$> BTree.iter m.

Definition get_queue_attributes (req : Request) (st : SqsState) (w : World)
  : World * Result AwsServiceError Value :=
  match queue_param (req_body req) st with
  | Err e => (w, Err e)
  | Ok (_, q) =>
      let names := omap as_str (default [] (as_array (index (req_body req) "AttributeNames"))) in
      if bool_decide (names = []) then (w, Ok (VObject []))
      else
        match find (fun n => negb (bool_decide (n ∈ valid_attrs))) names with
        | Some n => (w, Err (aws_error 400 "InvalidAttributeName" ("Unknown Attribute " +:+ n +:+ ".")))
        | None =>
            let attrs := queue_attributes (clock (ticks w)) q in
            let attrs := if bool_decide ("All"%string ∈ names) then attrs
                         else filter (fun kv => kv.1 ∈ names) attrs in
            (ticked w,
             Ok (VObject (if bool_decide (attrs = ∅) then []
                          else [("Attributes"%string, VObject (string_members attrs))])))
        end
  end.

(** ** Listing *)

(** [slice::sort] on strings and [partition_point] for a sorted list. *)
Definition sort_strings (l : list string) : list string := merge_sort BTree.str_le l.

Fixpoint partition_point (p : string -> bool) (l : list string) : nat :=
  match l with
  | [] => 0
  | x :: l => if p x then S (partition_point p l) else 0
  end.

Definition encode_list_queues_token (marker : string) : string := token_encode marker.

Definition decode_list_queues_token (token : string) : string := default token (token_decode token).

(** One page: the URLs emitted and the marker of the next page. *)
Definition list_page (st : SqsState) (prefix : option string) (max_results : nat)
  (marker : option string) : list string * option string :=
  let all_urls :=
    sort_strings (queue_url <$>
      filter (fun q => match prefix with
                       | Some p => starts_with p (queue_name q)
                       | None => true
                       end = true) (BTree.values (queues st))) in
  let start := match marker with
               | Some m => partition_point (fun u => BTree.str_leb u m) all_urls
               | None => 0
               end in
  let page := take max_results (drop start all_urls) in
  (page, if start + length page <? length all_urls then last page else None).

Definition list_max_results (v : Value) : nat :=
  match (match as_u64 v with Some n => Some n | None => as_str v ≫= parse_u64 end) with
  | Some n => Z.to_nat (clamp n 1 1000)
  | None => 1000
  end.

Definition list_queues (base_of : string -> string) (req : Request) (st : SqsState)
  : Result AwsServiceError Value :=
  let b := req_body req in
  let '(page, next) :=
    list_page st (as_str (index b "QueueNamePrefix")) (list_max_results (index b "MaxResults"))
      (decode_list_queues_token <$> as_str (index b "NextToken")) in
  let rendered := (fun u => VString (render_queue_url u (base_of (endpoint st)))) <$> page in
  Ok (VObject (("QueueUrls"%string, VArray rendered) ::
               match next with
               | Some last => [("NextToken"%string, VString (encode_list_queues_token last))]
               | None => []
               end)).

Definition get_queue_url (base_of : string -> string) (req : Request) (st : SqsState)
  : Result AwsServiceError Value :=
  name ← ok_or (missing_param "QueueName") (as_str (index (req_body req) "QueueName"));
  url ← ok_or queue_not_found (name_to_url st !! name);
  Ok (queue_url_response (render_queue_url url (base_of (endpoint st)))).

Definition list_queue_tags (req : Request) (st : SqsState) : Result AwsServiceError Value :=
  '(_, q) ← queue_param (req_body req) st;
  Ok (VObject [("Tags"%string, VObject (string_members (tags q)))]).

(** The queues whose redrive policy names [a]. *)
Definition dlq_source_queues (st : SqsState) (a : string) : list SqsQueue :=
  filter (fun q => match redrive_policy q with
                   | Some rp => String.eqb (dead_letter_target_arn rp) a
                   | None => false
                   end = true) (BTree.values (queues st)).

Definition list_dead_letter_source_queues (base_of : string -> string) (req : Request)
  (st : SqsState) : Result AwsServiceError Value :=
  '(_, q) ← queue_param (req_body req) st;
  Ok (VObject [("queueUrls"%string,
                VArray ((fun s => VString (render_queue_url (queue_url s) (base_of (endpoint st))))
                          <$> dlq_source_queues st (arn q)))]).

(** ** Permissions *)

(** [Prefix.1] to [Prefix.20] of the query protocol. *)
Definition parse_numbered_params (b : Value) (prefix : string) : list string :=
  match as_object b with
  | None => []
  | Some obj => omap (fun i => assoc (prefix +:+ "." +:+ print_Z (Z.of_nat i)) obj ≫= as_str) (seq 1 20)
  end.

Definition list_param (b : Value) (name prefix : string) : list string :=
  match as_array (index b name) with
  | Some l => omap as_str l
  | None => parse_numbered_params b prefix
  end.

Definition owner_only : list string :=
  ["AddPermission"; "RemovePermission"; "CreateQueue"; "DeleteQueue"; "SetQueueAttributes";
   "TagQueue"; "UntagQueue"]%string.

Definition check_permission (actions accounts : list string) : Result AwsServiceError unit :=
  if bool_decide (actions = []) then
    Err (aws_error 400 "MissingParameter" "The request must contain the parameter Actions.")
  else if bool_decide (accounts = []) then
    Err (aws_error 400 "InvalidParameterValue"
           "Value [] for parameter PrincipalId is invalid. Reason: Unable to verify.")
  else if 7 <? length actions then
    Err (aws_error 403 "OverLimit"
           (print_Z (Z.of_nat (length actions)) +:+ " Actions were found, maximum allowed is 7."))
  else match find (fun a => bool_decide (a ∈ owner_only)) actions with
       | Some a =>
           Err (aws_error 400 "InvalidParameterValue"
                  ("Value SQS:" +:+ a +:+ " for parameter ActionName is invalid. Reason: Only the queue owner is allowed to invoke this action."))
       | None => Ok tt
       end.

Definition policy_statements (q : SqsQueue) : list Value :=
  default [] ((attributes q !! "Policy"%string ≫= json_from_str) ≫= fun p =>
              as_array (index p "Statement")).

Definition permission_statement (q : SqsQueue) (label : string) (actions : list string)
  (account : string) : Value :=
  let partition := match Arn.from_str (arn q) with
                   | Ok a => Arn.partition a
                   | Err _ => "aws"%string
                   end in
  let values := (fun a => VString ("SQS:" +:+ a)) <$> actions in
  let action := match values with [v] => v | _ => VArray values end in
  let root := Arn.to_string (Arn.with_partition (Arn.global "iam" account "root") partition) in
  VObject [("Sid", VString label); ("Effect", VString "Allow");
           ("Principal", VObject [("AWS", VString root)]); ("Action", action);
           ("Resource", VString (arn q))]%string.

Definition with_permissions (q : SqsQueue) (labels : list string) (attrs : gmap string string)
  : SqsQueue :=
  mkQueue (queue_name q) (queue_url q) (arn q) (created_at q) (messages q) (inflight q) attrs
    (is_fifo q) (dedup_cache q) (redrive_policy q) (tags q) (next_sequence_number q) labels
    (receipt_handle_map q) (receive_attempt_cache q).

(** [serde_json::to_string(&policy).unwrap()]: [None] is the panic. *)
Definition add_permission (req : Request) (st : SqsState)
  : option (SqsState * Result AwsServiceError Value) :=
  let b := req_body req in
  let actions := list_param b "Actions" "ActionName" in
  let accounts := list_param b "AWSAccountIds" "AWSAccountId" in
  let checked :=
    input ← ok_or (missing_param "QueueUrl") (as_str (index b "QueueUrl"));
    label ← ok_or (missing_param "Label") (as_str (index b "Label"));
    _ ← ok_or queue_not_found (resolve_queue_url input st);
    _ ← check_permission actions accounts;
    '(url, q) ← find_queue input st;
    if bool_decide (label ∈ permission_labels q)
    then Err (aws_error 400 "InvalidParameterValue"
                ("Value " +:+ label +:+ " for parameter Label is invalid. Reason: Already exists."))
    else Ok (label, url, q) in
  match checked with
  | Err e => Some (st, Err e)
  | Ok (label, url, q) =>
      let statements :=
        policy_statements q ++ (permission_statement q label actions <$> accounts) in
      policy ← json_to_string
                 (VObject [("Version", VString "2012-10-17");
                           ("Id", VString (arn q +:+ "/SQSDefaultPolicy"));
                           ("Statement", VArray statements)]%string);
      Some (put_queue st url (with_permissions q (permission_labels q ++ [label])
                                (<["Policy"%string := policy]> (attributes q))),
            Ok (VObject []))
  end.

(** [policy["Statement"] = v] on an object that has the member. *)
Fixpoint replace_member (k : string) (v : Value) (m : list (string * Value))
  : list (string * Value) :=
  match m with
  | [] => []
  | (k', x) :: m => if String.eqb k' k then (k', v) :: m else (k', x) :: replace_member k v m
  end.

Definition remove_permission (req : Request) (st : SqsState)
  : option (SqsState * Result AwsServiceError Value) :=
  let b := req_body req in
  let checked :=
    input ← ok_or (missing_param "QueueUrl") (as_str (index b "QueueUrl"));
    label ← ok_or (missing_param "Label") (as_str (index b "Label"));
    '(url, q) ← find_queue input st;
    if bool_decide (label ∈ permission_labels q) then Ok (label, url, q)
    else Err (aws_error 400 "InvalidParameterValue"
                ("Value " +:+ label +:+ " for parameter Label is invalid. Reason: can't find label on existing policy.")) in
  match checked with
  | Err e => Some (st, Err e)
  | Ok (label, url, q) =>
      let labels := filter (fun l => l <> label) (permission_labels q) in
      let kept stmts := filter (fun s => as_str (index s "Sid") <> Some label) stmts in
      attrs ← match attributes q !! "Policy"%string ≫= json_from_str with
              | Some (VObject m) =>
                  match assoc "Statement" m ≫= as_array with
                  | Some stmts =>
                      policy ← json_to_string
                                 (VObject (replace_member "Statement" (VArray (kept stmts)) m));
                      Some (<["Policy"%string := policy]> (attributes q))
                  | None => Some (attributes q)
                  end
              | _ => Some (attributes q)
              end;
      Some (put_queue st url (with_permissions q labels attrs), Ok (VObject []))
  end.

End Queues.

End SqsQueues.
