(* ===== verification/SqsMoves.v ===== *)
(** * SQS: message move tasks

    [service/moves.rs] and the background mover of [service/mod.rs]: starting
    a task (drained at once without a rate, by a spawned mover with one),
    cancelling, listing, and resuming the tasks a previous process left.  The
    mover's loop is the iteration [mover_iteration]; each runs under the write
    lock, and requests may come between two of them.  Its cancel flag, an
    atomic shared with the task, is read at the start of an iteration and is
    an argument here.  Snapshots and sleeping are left out. *)

From Stdlib Require Import ZArith Lia Bool String Ascii.
From stdpp Require Import base option list strings gmap.
From S2P Require Import Prelude Json Arn BTree MultiAccount Sqs SqsSend SqsReceive SqsQueues.

Module SqsMoves.
Import Sqs SqsSend SqsReceive SqsQueues.

(** ** Tasks *)

Definition with_tasks (st : SqsState) (ts : list MessageMoveTask) : SqsState :=
  mkState (account_id st) (region st) (endpoint st) (queues st) (name_to_url st) ts.

Definition set_task (t : MessageMoveTask) (s : MessageMoveTaskStatus) (moved : Z)
  (reason : option string) (pid : Z) (flag : bool) : MessageMoveTask :=
  mkTask (task_handle t) (source_arn t) (destination_arn t) (max_messages_per_second t) s moved
    (messages_to_move t) (started_timestamp t) reason pid flag.

(** [iter_mut().find(|t| t.task_handle == handle)], then an assignment. *)
Fixpoint update_task (handle : string) (f : MessageMoveTask -> MessageMoveTask)
  (ts : list MessageMoveTask) : list MessageMoveTask :=
  match ts with
  | [] => []
  | t :: ts => if String.eqb (task_handle t) handle then f t :: ts else t :: update_task handle f ts
  end.

Definition finalize_move_task (st : SqsState) (handle : string) (s : MessageMoveTaskStatus)
  : SqsState :=
  with_tasks st (update_task handle
    (fun t => set_task t s (messages_moved t) (failure_reason t) (driver_pid t) (cancel_flag t))
    (message_move_tasks st)).

Definition is_active (s : MessageMoveTaskStatus) : bool :=
  match s with Running | Cancelling => true | _ => false end.

Definition task_blocks_new_move (t : MessageMoveTask) (source : string) (pid : Z) : bool :=
  String.eqb (source_arn t) source && is_active (task_status t) && (driver_pid t =? pid)%Z.

(** ** The mover *)

Record Mover := mkMover {
  mv_handle : string;
  mv_source : string;                (* source_url *)
  mv_dest : option string;           (* destination_arn *)
  mv_targets : list string;          (* dlq_targets *)
  mv_idx : nat
}.

Inductive Step : Type := Moved | SourceDrained | StepFailed.

(** A moved message is visible at once and starts a fresh count. *)
Definition moved_message (m : SqsMessage) : SqsMessage :=
  with_counts (with_visibility m (receipt_handle m) None) 0 (first_received_at m).

Definition mover_target (mv : Mover) (st : SqsState) : option string :=
  let candidate :=
    match mv_dest mv with
    | Some dest => (fun uq : string * SqsQueue => queue_url uq.2) <$> url_of_arn st dest
    | None =>
        match mv_targets mv with
        | [] => None
        | ts => ts !! (mv_idx mv mod length ts)
        end
    end in
  candidate ≫= fun u => if bool_decide (is_Some (queues st !! u)) then Some u else None.

(** One move under the lock; the source is known to exist. *)
Definition move_one (mv : Mover) (st : SqsState) (src : SqsQueue) : SqsState * Mover * Step :=
  match mover_target mv st with
  | None => (st, mv, StepFailed)
  | Some target_url =>
      match messages src with
      | [] => (st, mv, SourceDrained)
      | msg :: rest =>
          let st := put_queue st (mv_source mv) (with_lists src rest (inflight src)) in
          let msg := moved_message msg in
          match queues st !! target_url with
          | Some target =>
              let st := put_queue st target_url (push_back target msg) in
              let st := with_tasks st (update_task (mv_handle mv)
                          (fun t => set_task t (task_status t) (u64_add (messages_moved t) 1)
                                      (failure_reason t) (driver_pid t) (cancel_flag t))
                          (message_move_tasks st)) in
              (st,
               mkMover (mv_handle mv) (mv_source mv) (mv_dest mv) (mv_targets mv)
                 (match mv_dest mv with None => S (mv_idx mv) | Some _ => mv_idx mv end),
               Moved)
          | None =>
              (match queues st !! mv_source mv with
               | Some q => put_queue st (mv_source mv) (push_front q msg)
               | None => st
               end, mv, StepFailed)
          end
      end
  end.

(** One turn of the loop: [None] when the mover has returned. *)
Definition mover_iteration (cancelled : bool) (mv : Mover) (st : SqsState)
  : SqsState * option Mover :=
  if cancelled then (finalize_move_task st (mv_handle mv) Cancelled, None)
  else
    match queues st !! mv_source mv with
    | None => (finalize_move_task st (mv_handle mv) Failed, None)
    | Some src =>
        let '(st, mv, step) := move_one mv st src in
        match step with
        | Moved => (st, Some mv)
        | SourceDrained => (finalize_move_task st (mv_handle mv) Completed, None)
        | StepFailed => (finalize_move_task st (mv_handle mv) Failed, None)
        end
    end.

Section Moves.
Context `{Host}.

(** ** Starting *)

Definition unsupported (msg : string) : AwsServiceError :=
  aws_error 400 "AWS.SimpleQueueService.UnsupportedOperation" msg.

Definition no_such_resource (param : string) : AwsServiceError :=
  aws_error 400 "ResourceNotFoundException"
    ("The resource that you specified for the " +:+ param +:+ " parameter doesn't exist.").

(** [Uuid::simple]: without hyphens. *)
Fixpoint simple (s : string) : string :=
  match s with
  | EmptyString => EmptyString
  | String c s => if Ascii.eqb c "-" then simple s else String c (simple s)
  end.

Record MoveRequest := mkMove {
  mr_source : string;
  mr_dest : option string;
  mr_rate : option Z;                (* i32 *)
  mr_source_url : string;
  mr_dlq_sources : list string
}.

(** The checks up to the search for an active task. *)
Definition move_validate (b : Value) (pid : Z) (st : SqsState) : Result AwsServiceError MoveRequest :=
  source ← ok_or (missing_param "SourceArn") (as_str (index b "SourceArn"));
  let dest := as_str (index b "DestinationArn") in
  let rate := val_as_i64 (index b "MaxNumberOfMessagesPerSecond") in
  _ ← match rate with
      | Some r => if (- 2 ^ 31 <=? r)%Z && (r <=? 2 ^ 31 - 1)%Z then Ok tt
                  else Err (unsupported "MaxNumberOfMessagesPerSecond is out of range.")
      | None => Ok tt
      end;
  '(_, src) ← ok_or (no_such_resource "SourceArn") (url_of_arn st source);
  let dlq_sources := queue_url <$> dlq_source_queues st source in
  _ ← (if bool_decide (dlq_sources = [])
       then Err (unsupported "Source queue must be configured as a dead-letter queue.") else Ok tt);
  _ ← match dest with
      | Some d => match url_of_arn st d with
                  | Some _ => Ok tt
                  | None => Err (no_such_resource "DestinationArn")
                  end
      | None => Ok tt
      end;
  _ ← (if existsb (fun t => task_blocks_new_move t source pid) (message_move_tasks st)
       then Err (unsupported "There is already an active message movement task for the specified source queue.")
       else Ok tt);
  Ok (mkMove source dest ((fun r => clamp r 1 500) <$> rate) (queue_url src) dlq_sources).

(** The loop over drained messages: to [targets] in turn; a message whose
    target is not found is dropped. *)
Fixpoint drain_to (targets : list string) (idx : nat) (msgs : list SqsMessage) (st : SqsState)
  (moved : Z) : SqsState * Z :=
  match msgs with
  | [] => (st, moved)
  | m :: rest =>
      match targets !! (idx mod length targets) ≫= fun u => pair u <$> queues st !! u with
      | Some (u, tq) =>
          drain_to targets (S idx) rest (put_queue st u (push_back tq (moved_message m))) (moved + 1)
      | None => drain_to targets (S idx) rest st moved
      end
  end.

Definition start_message_move_task (pid : Z) (req : Request) (st : SqsState) (w : World)
  : SqsState * World * Result AwsServiceError Value * option Mover :=
  match move_validate (req_body req) pid st with
  | Err e => (st, w, Err e, None)
  | Ok r =>
      let src := queues st !! mr_source_url r in
      let total := match src with Some q => Z.of_nat (length (messages q)) | None => 0%Z end in
      let handle := "FakeCloudMessageMoveTask-" +:+ simple (new_v4 (uuids w)) in
      let started := timestamp_millis (clock (ticks w)) in
      let w := ticked (minted w) in
      let task s moved :=
        mkTask handle (mr_source r) (mr_dest r) (mr_rate r) s moved total started None pid false in
      let reply := Ok (VObject [("TaskHandle"%string, VString handle)]) in
      match mr_rate r with
      | None =>
          let '(st, drained) :=
            match src with
            | Some q => (put_queue st (mr_source_url r) (with_lists q [] (inflight q)), messages q)
            | None => (st, [])
            end in
          let targets := match mr_dest r with
                         | Some d =>
                             match url_of_arn st d with Some (_, q) => [queue_url q] | None => [] end
                         | None => mr_dlq_sources r
                         end in
          let '(st, moved) := drain_to targets 0 drained st 0 in
          (with_tasks st (message_move_tasks st ++ [task Completed moved]), w, reply, None)
      | Some _ =>
          (with_tasks st (message_move_tasks st ++ [task Running 0%Z]), w, reply,
           Some (mkMover handle (mr_source_url r) (mr_dest r) (mr_dlq_sources r) 0))
      end
  end.

(** ** Cancelling and listing *)

Definition cancel_message_move_task (req : Request) (st : SqsState)
  : SqsState * Result AwsServiceError Value :=
  let checked :=
    handle ← ok_or (missing_param "TaskHandle") (as_str (index (req_body req) "TaskHandle"));
    t ← ok_or (aws_error 400 "ResourceNotFoundException" "The specified task handle doesn't exist.")
          (find (fun t => String.eqb (task_handle t) handle) (message_move_tasks st));
    match task_status t with
    | Running => Ok (handle, t)
    | _ => Err (unsupported "The message movement task isn't in RUNNING status.")
    end in
  match checked with
  | Err e => (st, Err e)
  | Ok (handle, t) =>
      (with_tasks st (update_task handle
         (fun t => set_task t Cancelling (messages_moved t) (failure_reason t) (driver_pid t) true)
         (message_move_tasks st)),
       Ok (VObject [("ApproximateNumberOfMessagesMoved"%string, VNumber (PosInt (messages_moved t)))]))
  end.

(** [json!] of an integer. *)
Definition json_int (z : Z) : Value := VNumber (if (z <? 0)%Z then NegInt z else PosInt z).

Definition task_entry (t : MessageMoveTask) : Value :=
  VObject ((match task_status t with Running => [("TaskHandle"%string, VString (task_handle t))] | _ => [] end)
    ++ [("Status"%string, VString (status_as_str (task_status t))); ("SourceArn"%string, VString (source_arn t))]
    ++ opt_member "DestinationArn" (destination_arn t)
    ++ (match max_messages_per_second t with
        | Some m => [("MaxNumberOfMessagesPerSecond"%string, json_int m)] | None => [] end)
    ++ [("ApproximateNumberOfMessagesMoved"%string, json_int (messages_moved t));
        ("ApproximateNumberOfMessagesToMove"%string, json_int (messages_to_move t))]
    ++ opt_member "FailureReason" (failure_reason t)
    ++ [("StartedTimestamp"%string, json_int (started_timestamp t))]).

(** Newest first; the sort is stable. *)
Fixpoint insert_newest (t : MessageMoveTask) (l : list MessageMoveTask) : list MessageMoveTask :=
  match l with
  | [] => [t]
  | x :: l' => if (started_timestamp x <=? started_timestamp t)%Z then t :: l else x :: insert_newest t l'
  end.

Definition list_message_move_tasks (req : Request) (st : SqsState) : Result AwsServiceError Value :=
  source ← ok_or (missing_param "SourceArn") (as_str (index (req_body req) "SourceArn"));
  let max := match val_as_i64 (index (req_body req) "MaxResults") with
             | Some n => Z.to_nat (clamp n 1 10)
             | None => 1
             end in
  _ ← ok_or (no_such_resource "SourceArn") (url_of_arn st source);
  let tasks := filter (fun t => source_arn t = source) (message_move_tasks st) in
  Ok (VObject [("Results"%string,
                VArray (task_entry <$> take max (foldr insert_newest [] tasks)))]).

(** ** Resuming after a restart *)

(** One orphaned task: reclaimed with a mover, or failed. *)
Definition resume_task (pid : Z) (acc : SqsState * list Mover) (t : MessageMoveTask)
  : SqsState * list Mover :=
  let '(st, movers) := acc in
  let assign f := with_tasks st (update_task (task_handle t) f (message_move_tasks st)) in
  match url_of_arn st (source_arn t) with
  | None =>
      (assign (fun x => set_task x Failed (messages_moved x)
                          (Some "Source queue no longer exists after restart."%string) pid
                          (cancel_flag x)), movers)
  | Some (_, src) =>
      let cancelling := match task_status t with Cancelling => true | _ => false end in
      (assign (fun x => set_task x (task_status x) (messages_moved x) (failure_reason x) pid cancelling),
       movers ++ [mkMover (task_handle t) (queue_url src) (destination_arn t)
                    (queue_url <$> dlq_source_queues st (source_arn t)) 0])
  end.

Definition resume_message_move_tasks (pid : Z) (st : SqsState) : SqsState * list Mover :=
  foldl (resume_task pid) (st, [])
    (filter (fun t => is_active (task_status t) && negb (driver_pid t =? pid)%Z = true)
       (message_move_tasks st)).

End Moves.

End SqsMoves.
