(* ===== verification/SqsDeliver.v ===== *)
(** * SQS: cross-service delivery

    [delivery.rs]: how SNS, EventBridge, S3 and Scheduler put messages into a
    queue ([SqsDeliveryImpl]), and the ARN of a queue URL. *)

From Stdlib Require Import ZArith Lia Bool String Ascii.
From stdpp Require Import base option list strings gmap.
From S2P Require Import Prelude Json Arn BTree MultiAccount Sqs SqsSend SqsReceive SqsQueues.

Module SqsDeliver.
Import Sqs SqsSend SqsReceive SqsQueues.

Record SqsMessageAttribute := mkDeliveryAttr {
  da_data_type : string;
  da_string_value : option string;
  da_binary_value : option string          (* base64 *)
}.

Inductive SqsDeliveryError : Type :=
| QueueNotFound (a : string)
| InvalidArn (a : string)
| InvalidParameter (msg : string)
| AccessDenied (msg : string)
| TargetUnavailable (msg : string).

Section Delivery.
Context `{Host}.

Definition delivery_attribute (a : SqsMessageAttribute) : MessageAttribute :=
  mkAttr (da_data_type a) (da_string_value a) (da_binary_value a ≫= base64_decode).

(** The body as stored: encrypted only under a non-empty [KmsMasterKeyId]. *)
Definition delivery_body (hook : option KmsHook) (w : World) (account rg queue_arn : string)
  (key : option string) (text : string) : World * Result SqsDeliveryError string :=
  match key, hook with
  | Some key, Some hook =>
      if is_empty_str key then (w, Ok text)
      else
        (called w,
         match hook_encrypt hook (kms_calls w) account rg key (as_bytes text) "sqs.amazonaws.com"
                 {["aws:sqs:arn"%string := queue_arn]} with
         | Ok envelope => Ok envelope
         | Err e => Err (InvalidParameter
                           ("SQS SSE-KMS encrypt failed for " +:+ queue_arn +:+ ": " +:+ e))
         end)
  | _, _ => (w, Ok text)
  end.

Definition saturating_succ (z : Z) : Z := Z.min (z + 1) u64_max.

(** [try_deliver_to_queue_with_attrs] on the state its ARN names. *)
Definition deliver_in (hook : option KmsHook) (account rg queue_arn text : string)
  (attrs : gmap string SqsMessageAttribute) (group dedup : option string)
  (st : SqsState) (w : World) : SqsState * World * Result SqsDeliveryError unit :=
  match url_of_arn st queue_arn with
  | None => (st, w, Err (QueueNotFound queue_arn))
  | Some (url, q) =>
      if is_fifo q && bool_decide (dedup = None) && negb (content_based_dedup q) then
        (st, w, Err (InvalidParameter
                       ("FIFO queue " +:+ queue_arn +:+ " requires MessageDeduplicationId or ContentBasedDeduplication=true")))
      else
        let now := clock (ticks w) in
        let w := ticked w in
        let effective := match dedup with
                         | Some d => Some d
                         | None => if is_fifo q then Some (sha256_hex text) else None
                         end in
        let seq := if is_fifo q then Some (format_sequence_number (next_sequence_number q)) else None in
        let q := if is_fifo q
                 then with_dedup q (dedup_cache q) (saturating_succ (next_sequence_number q)) else q in
        let st := put_queue st url q in
        let '(w, stored) :=
          delivery_body hook w account rg (arn q) (attr q "KmsMasterKeyId") text in
        match stored with
        | Err e => (st, w, Err e)
        | Ok stored =>
            match url_of_arn st (arn q) with
            | None => (st, w, Err (QueueNotFound (arn q)))
            | Some (url, q) =>
                let msg := mkMessage (new_v4 (uuids w)) None stored (md5_hex text)
                             (timestamp_millis now) ∅ (delivery_attribute <$> attrs) None 0 None
                             group effective now seq in
                (put_queue st url (push_back q msg), minted w, Ok tt)
            end
        end
  end.

Definition try_deliver_to_queue_with_attrs (hook : option KmsHook) (queue_arn text : string)
  (attrs : gmap string SqsMessageAttribute) (group dedup : option string)
  (m : MultiRegionState SqsState) (w : World)
  : MultiRegionState SqsState * World * Result SqsDeliveryError unit :=
  match Arn.account_of queue_arn, Arn.region_of queue_arn with
  | Some account, Some rg =>
      match regional m account rg with
      | None => (m, w, Err (QueueNotFound queue_arn))
      | Some st =>
          let '(st, w, r) := deliver_in hook account rg queue_arn text attrs group dedup st w in
          (put_regional m account rg st, w, r)
      end
  | _, _ => (m, w, Err (InvalidArn queue_arn))
  end.

(** [rsplit('/')] of the URL without trailing slashes: name, then account. *)
Definition queue_arn_for_url (m : MultiRegionState SqsState) (rg queue_url : string)
  : option string :=
  let non_empty (s : string) := if is_empty_str s then None else Some s in
  match reverse (split_char "/" (trim_slashes queue_url)) with
  | name :: rest =>
      name ← non_empty name;
      account ← head rest ≫= non_empty;
      let arn_in (st : SqsState) := name_to_url st !! name ≫= fun url => arn <$> queues st !! url in
      match regional m account rg ≫= arn_in with
      | Some a => Some a
      | None =>
          acct ← get_account m account;
          match omap arn_in (BTree.values (regions acct)) with
          | [only] => Some only
          | _ => None
          end
      end
  | [] => None
  end.

End Delivery.

End SqsDeliver.
