(* ===== verification/SqsSystem.v ===== *)
(** * The SQS service as a state machine

    [AwsService::handle] of [service/mod.rs] over the handlers of the other
    files, and the step relation of one region's queues: requests, background
    operations, cross-service deliveries and mover iterations, in any order.
    A mover step may be of any mover, with its cancel flag set or not, which
    covers the movers that requests spawned and those of tasks that are gone. *)

From Stdlib Require Import ZArith Lia Bool String Ascii.
From stdpp Require Import base option list strings gmap.
From S2P Require Import Prelude Json Arn BTree MultiAccount Sqs SqsSend SqsReceive SqsQueues SqsMoves.
From S2P Require Import SqsDeliver SqsTheory SqsOrder.

Module SqsSystem.
Import Sqs SqsSend SqsReceive SqsQueues SqsMoves SqsDeliver SqsTheory SqsOrder.

(** ** Dispatch *)

(** What a handler hands to the response renderer. *)
Inductive Reply : Type :=
| Body (v : Value)
| Batch (msgs : list SqsMessage).

Section Service.
Context `{Host} `{SerdeJson} `{SerdePrint} `{TokenCodec}.

(** The outcome of a request: [None] is a panic; a started move task may spawn
    a mover. *)
Definition Outcome : Type := option (SqsState * World * Result AwsServiceError Reply * option Mover).

Definition reply (r : Result AwsServiceError Value) : Result AwsServiceError Reply := v ← r; Ok (Body v).

Definition done (x : SqsState * World * Result AwsServiceError Value) : Outcome :=
  let '(st, w, r) := x in Some (st, w, reply r, None).

Definition done_same (w : World) (x : SqsState * Result AwsServiceError Value) : Outcome :=
  let '(st, r) := x in Some (st, w, reply r, None).

Definition done_read (st : SqsState) (w : World) (r : Result AwsServiceError Value) : Outcome :=
  Some (st, w, reply r, None).

(** One poll of [ReceiveMessage] with its validation. *)
Definition receive_message (svc : SqsService) (req : Request) (st : SqsState) (w : World)
  : SqsState * World * Result AwsServiceError (list SqsMessage) :=
  match receive_validate (req_body req) st with
  | Err e => (st, w, Err e)
  | Ok p => receive_poll svc req p st w
  end.

Definition handle (svc : SqsService) (base_of : string -> string) (pid : Z) (action : string)
  (req : Request) (st : SqsState) (w : World) : Outcome :=
  if String.eqb action "CreateQueue" then done (create_queue base_of req st w)
  else if String.eqb action "DeleteQueue" then done_same w (delete_queue req st)
  else if String.eqb action "ListQueues" then done_read st w (list_queues base_of req st)
  else if String.eqb action "GetQueueUrl" then done_read st w (get_queue_url base_of req st)
  else if String.eqb action "GetQueueAttributes" then
    let '(w, r) := get_queue_attributes req st w in done_read st w r
  else if String.eqb action "SetQueueAttributes" then done (set_queue_attributes req st w)
  else if String.eqb action "SendMessage" then done (send_message svc req st w)
  else if String.eqb action "SendMessageBatch" then done (send_message_batch svc req st w)
  else if String.eqb action "ReceiveMessage" then
    let '(st, w, r) := receive_message svc req st w in
    Some (st, w, (msgs ← r; Ok (Batch msgs)), None)
  else if String.eqb action "DeleteMessage" then done_same w (delete_message req st)
  else if String.eqb action "DeleteMessageBatch" then done_same w (delete_message_batch req st)
  else if String.eqb action "PurgeQueue" then done_same w (purge_queue req st)
  else if String.eqb action "ChangeMessageVisibility" then done (change_message_visibility req st w)
  else if String.eqb action "ChangeMessageVisibilityBatch" then
    done (change_message_visibility_batch req st w)
  else if String.eqb action "ListQueueTags" then done_read st w (list_queue_tags req st)
  else if String.eqb action "TagQueue" then done_same w (tag_queue req st)
  else if String.eqb action "UntagQueue" then done_same w (untag_queue req st)
  else if String.eqb action "AddPermission" then add_permission req st ≫= done_same w
  else if String.eqb action "RemovePermission" then remove_permission req st ≫= done_same w
  else if String.eqb action "ListDeadLetterSourceQueues" then
    done_read st w (list_dead_letter_source_queues base_of req st)
  else if String.eqb action "StartMessageMoveTask" then
    let '(st, w, r, mv) := start_message_move_task pid req st w in Some (st, w, reply r, mv)
  else if String.eqb action "CancelMessageMoveTask" then
    done_same w (cancel_message_move_task req st)
  else if String.eqb action "ListMessageMoveTasks" then
    done_read st w (list_message_move_tasks req st)
  else Some (st, w, Err (ActionNotImplemented "sqs" action), None).

(** ** Steps of one region *)

Inductive step (svc : SqsService) (pid : Z) : SqsState * World -> SqsState * World -> Prop :=
| step_request base_of action req st w st' w' r mv :
    req_region req = region st ->
    handle svc base_of pid action req st w = Some (st', w', r, mv) ->
    step svc pid (st, w) (st', w')
| step_delivery hook account queue_arn text attrs group dedup st w st' w' r :
    deliver_in hook account (region st) queue_arn text attrs group dedup st w = (st', w', r) ->
    step svc pid (st, w) (st', w')
| step_mover cancelled mv st w :
    step svc pid (st, w) ((mover_iteration cancelled mv st).1, w)
| step_tick now st w : step svc pid (st, w) ((tick_state now st).1, w)
| step_force name st st' n w :
    force_dlq_in st name = Some (st', n) -> step svc pid (st, w) (st', w)
| step_reset st w : step svc pid (st, w) (reset_state st, w)
| step_elsewhere st w w' :                      (* another region's request *)
    uuids w <= uuids w' -> step svc pid (st, w) (st, w').

Definition reachable (svc : SqsService) (pid : Z) (account rg ep : string)
  : SqsState * World -> Prop :=
  rtc (step svc pid) (new_state account rg ep, mkWorld 0 0 0).

End Service.
End SqsSystem.
