(* ===== verification/SqsSystemTheory.v ===== *)
(** * The SQS service keeps its state well-formed

    Every step of [SqsSystem] preserves [wf]; what follows for the resolution
    of queue URLs, names and ARNs and for the earlier theorems' hypotheses. *)

From Stdlib Require Import ZArith Lia Bool String Ascii.
From stdpp Require Import base option list strings gmap.
From S2P Require Import Prelude Json Arn BTree MultiAccount Sqs SqsSend SqsReceive SqsQueues SqsMoves.
From S2P Require Import SqsDeliver SqsTheory SqsOrder SqsSystem.

Module SqsSystemTheory.
Import Sqs SqsSend SqsReceive SqsQueues SqsMoves SqsDeliver SqsTheory SqsOrder SqsSystem.

(** ** Frames

    What every message operation leaves alone: which queues there are and how
    they are named.  It may drop messages and add ones with new ids. *)

Definition ident (q : SqsQueue) : string * string * string * bool :=
  (queue_name q, queue_url q, arn q, is_fifo q).

Definition qids (q : SqsQueue) : list string := ids (messages q ++ inflight q).
Definition sids (st : SqsState) : list string := message_id <$> contents st.

(** The sources of the move tasks that are running or being cancelled, with
    the process that drives them. *)
Definition active (ts : list MessageMoveTask) : list (string * Z) :=
  (fun t => (source_arn t, driver_pid t)) <$> filter (fun t => is_active (task_status t) = true) ts.

Definition env (st : SqsState) : string * string * string * gmap string string :=
  (account_id st, region st, endpoint st, name_to_url st).

Lemma qids_contents q : message_id <$> queue_contents q = qids q.
Proof.
  unfold queue_contents, qids, ids. rewrite <- list_fmap_compose. by apply list_fmap_ext.
Qed.

Section Frames.
Context `{Host}.

Record frame (st : SqsState) (w : World) (st' : SqsState) (w' : World) : Prop := {
  fr_env : env st' = env st;
  fr_queues : forall url, ident <$> queues st' !! url = ident <$> queues st !! url;
  fr_uuids : uuids w <= uuids w' /\ active (message_move_tasks st') ⊆+ active (message_move_tasks st);
  fr_ids : exists ns, NoDup ns /\ Forall (fun n => uuids w <= n < uuids w') ns
             /\ sids st' ⊆+ sids st ++ (new_v4 <$> ns)
}.

Lemma frame_world st w w' : uuids w <= uuids w' -> frame st w st w'.
Proof.
  intros Hw. constructor; try done. exists []. rewrite app_nil_r. by split_and!; [constructor|..].
Qed.

Lemma frame_refl st w : frame st w st w.
Proof. by apply frame_world. Qed.

Lemma frame_trans st w st1 w1 st2 w2 :
  frame st w st1 w1 -> frame st1 w1 st2 w2 -> frame st w st2 w2.
Proof.
  intros [He Hq [Hu Ha] (ns & Hnd & Hr & Hs)] [He' Hq' [Hu' Ha'] (ns' & Hnd' & Hr' & Hs')].
  constructor; [congruence| |split; [lia|by etransitivity]|].
  - intros url. by rewrite Hq'.
  - exists (ns ++ ns'). split_and!.
    + apply NoDup_app. split_and!; try done. intros n Hn Hn'.
      rewrite Forall_forall in Hr, Hr'. specialize (Hr _ Hn). specialize (Hr' _ Hn'). simpl in *. lia.
    + apply Forall_app. split; (eapply Forall_impl; [eassumption|]); simpl; intros; lia.
    + rewrite fmap_app, app_assoc. etransitivity; [exact Hs'|]. by apply submseteq_skips_r.
Qed.

(** Replacing a queue by one of the same identity. *)
Lemma frame_put st w w' url q q' ns :
  queues st !! url = Some q -> ident q' = ident q -> uuids w <= uuids w' ->
  NoDup ns -> Forall (fun n => uuids w <= n < uuids w') ns ->
  qids q' ⊆+ qids q ++ (new_v4 <$> ns) ->
  frame st w (put_queue st url q') w'.
Proof.
  intros Hq Hid Hu Hnd Hr Hs. constructor; [done| |done|].
  - intros u. simpl. destruct (decide (url = u)) as [<-|Hne].
    + rewrite lookup_insert_eq, Hq. simpl. by rewrite Hid.
    + by rewrite lookup_insert_ne.
  - exists ns. split_and!; [done|done|].
    destruct (contents_split _ _ _ Hq) as (rest & Hst & Hput). unfold sids.
    rewrite Hst, (Hput q'), !fmap_app, !qids_contents.
    transitivity ((qids q ++ (new_v4 <$> ns)) ++ (message_id <$> rest));
      [by apply submseteq_skips_r|]. apply Permutation_submseteq. solve_Permutation.
Qed.

Lemma frame_put_sub st w w' url q q' :
  queues st !! url = Some q -> ident q' = ident q -> uuids w <= uuids w' ->
  qids q' ⊆+ qids q -> frame st w (put_queue st url q') w'.
Proof.
  intros Hq Hid Hu Hs. apply (frame_put _ _ _ _ q _ []); try done.
  - constructor.
  - cbn. by rewrite app_nil_r.
Qed.

(** A message with the next id. *)
Lemma frame_put_new st w w' url q q' m :
  queues st !! url = Some q -> ident q' = ident q -> uuids w < uuids w' ->
  qids q' ⊆+ qids q ++ [message_id m] -> message_id m = new_v4 (uuids w) ->
  frame st w (put_queue st url q') w'.
Proof.
  intros Hq Hid Hu Hs Hm. apply (frame_put _ _ _ _ q _ [uuids w]); try done; [lia| | |].
  - apply NoDup_singleton.
  - constructor; [lia|constructor].
  - simpl. by rewrite <- Hm.
Qed.

Lemma qids_push q m : qids (push_back q m) ⊆+ qids q ++ [message_id m].
Proof.
  unfold qids, ids, push_back. simpl. rewrite !fmap_app. apply Permutation_submseteq. simpl.
  solve_Permutation.
Qed.

Lemma qids_lists q msgs infl :
  msgs ⊆+ messages q -> infl ⊆+ inflight q -> qids (with_lists q msgs infl) ⊆+ qids q.
Proof. intros H1 H2. unfold qids, ids. simpl. by apply fmap_submseteq, submseteq_app. Qed.

Lemma filter_submseteq {A} (P : A -> Prop) `{forall x, base.Decision (P x)} (l : list A) :
  filter P l ⊆+ l.
Proof. apply sublist_submseteq, sublist_filter. Qed.

(** ** Worlds *)

Lemma encrypt_uuids svc w account a key text :
  uuids (encrypt_message_body svc w account a key text).1 = uuids w.
Proof.
  unfold encrypt_message_body. destruct (kms_hook svc); [|done]. destruct key as [ky|]; [|done].
  by destruct (is_empty_str ky).
Qed.

Lemma decrypt_bodies_uuids svc account a batch w :
  uuids (decrypt_bodies svc account a batch w).1 = uuids w.
Proof. destruct (decrypt_bodies svc account a batch w) as [w' r] eqn:E. by eapply decrypted_uuids. Qed.

Lemma pick_uuids rp now timeout p m : uuids (p_world p) <= uuids (p_world (pick rp now timeout p m)).
Proof.
  unfold pick. destruct (first_received_at m), (rp ≫= _); simpl; lia.
Qed.

Lemma select_uuids q now timeout max w : uuids w <= uuids (p_world (select_messages q now timeout max w)).
Proof.
  unfold select_messages. destruct (is_fifo q).
  - generalize (inflight_groups q); intros groups.
    change w with (p_world (mkPicked [] [] [] (receipt_handle_map q) w)) at 1.
    generalize (mkPicked [] [] [] (receipt_handle_map q) w).
    induction (messages q) as [|m l IH]; intros p; [done|]. cbn [fifo_loop].
    destruct (hidden now m); [apply (IH (keep_back p [m]))|].
    case_bool_decide; [apply (IH (keep_back p [m]))|].
    case_match; [|done]. etransitivity; [apply pick_uuids|apply IH].
  - generalize (sort_by_key (group_load q) (filter (fun m => hidden now m = false) (messages q))).
    generalize (filter (fun m => hidden now m = true) (messages q)). intros rem l.
    change w with (p_world (mkPicked [] [] rem (receipt_handle_map q) w)) at 1.
    generalize (mkPicked [] [] rem (receipt_handle_map q) w).
    induction l as [|m l IH]; intros p; [done|]. cbn [standard_loop].
    case_match; [etransitivity; [apply pick_uuids|apply IH]|apply (IH (keep_back p [m]))].
Qed.

(** ** Sending *)

Lemma send_enqueue_frame svc account p effective key st url q0 q w :
  queues st !! url = Some q0 -> ident q = ident q0 -> qids q = qids q0 ->
  let '(q', w', _) := send_enqueue svc account p effective key q w in
  frame st w (put_queue st url q') w'.
Proof.
  intros Hq Hid Hids. unfold send_enqueue. cbn zeta.
  destruct (_ <? _)%Z; [by apply (frame_put_sub _ _ _ _ q0); rewrite ?Hids|]. match goal with |- context [if is_fifo q then with_dedup ?a ?b ?c else q] =>
    set (q1 := if is_fifo q then with_dedup a b c else q) end.
  assert (H1 : ident q1 = ident q0 /\ qids q1 = qids q0)
    by (unfold q1; destruct (is_fifo q); by rewrite <- ?Hid, <- ?Hids).
  destruct H1 as [Hid1 Hids1].
  match goal with |- context [encrypt_message_body ?a ?b ?c ?d ?e ?f] =>
    pose proof (encrypt_uuids a b c d e f) as Hw; destruct (encrypt_message_body a b c d e f) as [w1 [stored|er]] end;
    simpl in Hw.
  2: { apply (frame_put_sub _ _ _ _ q0); rewrite ?Hids1; [done|done|simpl; lia|done]. }
  match goal with |- context [push_back q1 ?m] => set (msg := m) end.
  assert (Hm : message_id msg = new_v4 (uuids w)) by (unfold msg; simpl; by rewrite Hw).
  assert (Hp : qids (push_back q1 msg) ⊆+ qids q0 ++ [message_id msg])
    by (rewrite <- Hids1; apply qids_push).
  destruct (is_fifo (push_back q1 msg)); [destruct key|];
    (apply (frame_put_new _ _ _ _ q0 _ msg); [done|done|simpl; lia|done|done]).
Qed.

Lemma frame_commit svc account p st w :
  let '(st', w', _) := send_message_commit svc account p st w in frame st w st' w'.
Proof.
  unfold send_message_commit. destruct (find_queue (s_queue_url p) st) as [[url q]|] eqn:Ef;
    [|apply frame_refl].
  destruct (find_queue_Ok _ _ _ _ Ef) as [_ Hq].
  destruct (check_fifo_send_constraints _ _ _ _); [|apply frame_refl]. cbn zeta.
  destruct (dedup_lookup q (dedup_key_of q p) w) as [[q1 w1] hit] eqn:Ed.
  assert (H1 : ident q1 = ident q /\ qids q1 = qids q /\ uuids w1 = uuids w).
  { unfold dedup_lookup in Ed. destruct (is_fifo q) eqn:Efi; [destruct (dedup_key_of q p)|];
      injection Ed as <- <- _; done. }
  destruct H1 as (Hid & Hids & Hw). destruct hit as [e|].
  { apply (frame_put_sub _ _ _ _ q); [done|done|lia|by rewrite Hids]. }
  pose proof (send_enqueue_frame svc account p (effective_of q p) (dedup_key_of q p) st url q q1 w1
                Hq Hid Hids) as He.
  destruct (send_enqueue svc account p (effective_of q p) (dedup_key_of q p) q1 w1) as [[q2 w2] r].
  eapply frame_trans; [apply (frame_world st w w1); lia|exact He].
Qed.

Lemma frame_send svc req st w :
  let '(st', w', _) := send_message svc req st w in frame st w st' w'.
Proof.
  unfold send_message. destruct (send_message_validate (req_body req) st) as [p|];
    [apply frame_commit|apply frame_refl].
Qed.

Lemma encrypt_entries_uuids svc account q cfg entries w :
  uuids (encrypt_entries svc account q cfg entries w).1 = uuids w.
Proof.
  revert w. induction entries as [|e l IH]; intros w; [done|]. cbn [encrypt_entries].
  destruct (entry_encryptable cfg e) as [text|].
  - pose proof (encrypt_uuids svc w account (arn q) (effective_kms_key_id (attributes q)) text) as Hw.
    destruct (encrypt_message_body _ _ _ _ _ _) as [w1 [stored|er]]; simpl in Hw; [|done].
    specialize (IH w1). destruct (encrypt_entries svc account q cfg l w1). simpl in *. congruence.
  - specialize (IH w). by destruct (encrypt_entries svc account q cfg l w).
Qed.

(** One batch entry: nothing, a replay, or one new message. *)
Lemma entry_commit_frame st url q entry cfg stored id text w :
  queues st !! url = Some q ->
  let '(q', w', _) := batch_entry_commit q entry cfg stored id text w in
  frame st w (put_queue st url q') w'.
Proof.
  intros Hq. destruct (batch_entry_commit q entry cfg stored id text w) as [[q' w'] v] eqn:E.
  unfold batch_entry_commit in E. cbn zeta in E.
  match type of E with (let '(_, _) := ?x in _) = _ => destruct x as [q1 hit] eqn:E1 end.
  assert (H1 : ident q1 = ident q /\ qids q1 = qids q).
  { destruct (cfg_is_fifo cfg); [destruct (_ <$> _)|]; injection E1 as <- _; done. }
  destruct H1 as [Hid1 Hids1]. destruct hit as [e|].
  { injection E as <- <- _. apply (frame_put_sub _ _ _ _ q); [done..|]. by rewrite Hids1. }
  match type of E with context [push_back ?a ?m] => set (msg := m) in E; set (q2 := a) in E end.
  assert (H2 : ident q2 = ident q /\ qids q2 = qids q)
    by (unfold q2; destruct (cfg_is_fifo cfg); by rewrite <- ?Hid1, <- ?Hids1).
  destruct H2 as [Hid2 Hids2].
  assert (Hp : qids (push_back q2 msg) ⊆+ qids q ++ [message_id msg])
    by (rewrite <- Hids2; apply qids_push).
  assert (H3 : ident q' = ident q /\ qids q' = qids (push_back q2 msg) /\ w' = minted w).
  { destruct (cfg_is_fifo cfg); [destruct (_ <$> _)|]; injection E as <- <- _; done. }
  destruct H3 as (Hid3 & Hids3 & ->).
  apply (frame_put_new _ _ _ _ q _ msg); [done|done|simpl; lia|by rewrite Hids3|done].
Qed.

Lemma process_entry_frame st url q entry cfg stored w :
  queues st !! url = Some q ->
  let '(q', w', _) := process_batch_send_entry q entry cfg stored w in
  frame st w (put_queue st url q') w'.
Proof.
  intros Hq. unfold process_batch_send_entry.
  destruct (batch_entry_validate entry cfg) as [[id text]|v].
  - pose proof (entry_commit_frame st url q entry cfg stored id text w Hq) as Hc.
    by destruct (batch_entry_commit q entry cfg stored id text w) as [[q' w'] v].
  - by apply (frame_put_sub _ _ _ _ q).
Qed.

Lemma put_queue_same st url q : queues st !! url = Some q -> put_queue st url q = st.
Proof. intros Hq. destruct st. unfold put_queue. simpl in *. by rewrite insert_id. Qed.

Lemma send_entries_frame cfg work st url q w :
  queues st !! url = Some q ->
  let '(q', w', _) := send_entries q cfg work w in frame st w (put_queue st url q') w'.
Proof.
  revert st q w. induction work as [|[entry stored] work IH]; intros st q w Hq; cbn [send_entries].
  { rewrite put_queue_same by done. apply frame_refl. }
  pose proof (process_entry_frame st url q entry cfg stored w Hq) as Hp.
  destruct (process_batch_send_entry q entry cfg stored w) as [[q1 w1] outcome].
  assert (Hq1 : queues (put_queue st url q1) !! url = Some q1) by apply lookup_insert_eq.
  specialize (IH (put_queue st url q1) q1 w1 Hq1).
  destruct (send_entries q1 cfg work w1) as [[q2 w2] [ok bad]].
  rewrite put_queue_twice in IH. by eapply frame_trans.
Qed.

Lemma frame_send_batch svc req st w :
  let '(st', w', _) := send_message_batch svc req st w in frame st w st' w'.
Proof.
  unfold send_message_batch. cbn zeta.
  match goal with |- context [match ?c with Ok _ => _ | Err _ => _ end] =>
    destruct c as [[entries [url q]]|e] eqn:E end; [|apply frame_refl].
  assert (Hq : queues st !! url = Some q).
  { destruct (as_str _); [|done]. simpl in E. destruct (batch_entries _ _); [|done]. simpl in E.
    destruct (check_send_ids _ _); [|done]. simpl in E. destruct (_ <? _)%Z; [done|]. simpl in E.
    destruct (find_queue _ st) as [[u q']|] eqn:Ef; [|done]. simpl in E. injection E as _ -> ->.
    by apply find_queue_Ok in Ef as [_ ?]. }
  assert (Hw : forall cfg w, uuids (stored_overrides svc (req_account_id req) q cfg entries w).1 = uuids w).
  { intros cfg w0. unfold stored_overrides. destruct (effective_kms_key_id _), (kms_hook svc); try done.
    apply encrypt_entries_uuids. }
  specialize (Hw (from_queue q (clock (ticks w))) (ticked w)).
  destruct (stored_overrides _ _ _ _ _ _) as [w1 [os|e]]; simpl in Hw.
  2: { apply frame_world. lia. }
  pose proof (send_entries_frame (from_queue q (clock (ticks w))) (zip entries os) st url q w1 Hq) as Hs.
  destruct (send_entries _ _ _ w1) as [[q2 w2] [ok bad]].
  eapply frame_trans; [apply (frame_world st w w1); lia|exact Hs].
Qed.

(** ** Receiving *)

Lemma ident_return_lapsed now q : ident (return_lapsed now q) = ident q.
Proof. by rewrite return_lapsed_eq. Qed.

(** The state a receive leaves has the same queues. *)
Definition similar (st st' : SqsState) : Prop :=
  env st' = env st /\ message_move_tasks st' = message_move_tasks st
  /\ forall url, ident <$> queues st' !! url = ident <$> queues st !! url.

Lemma similar_refl st : similar st st.
Proof. done. Qed.

Lemma similar_trans st st1 st2 : similar st st1 -> similar st1 st2 -> similar st st2.
Proof. intros (? & ? & Hi1) (? & ? & Hi2). split; [congruence|]. split; [congruence|].
  intros u. by rewrite Hi2. Qed.

Lemma similar_put st url q q' :
  queues st !! url = Some q -> ident q' = ident q -> similar st (put_queue st url q').
Proof.
  intros Hq Hid. split_and!; try done. intros u. simpl. destruct (decide (url = u)) as [<-|Hne].
  - rewrite lookup_insert_eq, Hq. simpl. by rewrite Hid.
  - by rewrite lookup_insert_ne.
Qed.

Lemma similar_move_to_dlq a st dm : similar st (move_to_dlq a st dm).
Proof.
  destruct dm as [d m]. unfold move_to_dlq.
  destruct (url_of_arn st d) as [[u q]|] eqn:E; [|destruct (url_of_arn st a) as [[u q]|] eqn:E2];
    try apply similar_refl.
  - apply url_of_arn_Some in E as [E _]. by eapply similar_put.
  - apply url_of_arn_Some in E2 as [E2 _]. by eapply similar_put.
Qed.

Lemma similar_move_all a dms st : similar st (foldl (move_to_dlq a) st dms).
Proof.
  revert st. induction dms as [|dm dms IH]; intros st; [apply similar_refl|].
  eapply similar_trans; [apply similar_move_to_dlq|apply IH].
Qed.

Lemma similar_record_attempt st url attempt batch expiry :
  similar st (record_attempt st url attempt batch expiry).
Proof.
  unfold record_attempt. destruct attempt; [|apply similar_refl].
  destruct (queues st !! url) eqn:E; [|apply similar_refl]. by eapply similar_put.
Qed.

Lemma similar_deliver svc account st url q0 q now timeout attempt p :
  queues st !! url = Some q0 -> ident q = ident q0 ->
  let '(st', w', _) := deliver svc account st url q now timeout attempt p in
  similar st st' /\ uuids w' = uuids (p_world p).
Proof.
  intros Hq Hid. unfold deliver. cbn zeta.
  match goal with |- context [if encrypts svc ?a then _ else _] =>
    assert (Hw : uuids (if encrypts svc a
                        then let '(w, r) := decrypt_bodies svc account (arn a) (received p) (p_world p) in
                             (w, ts ← r; Ok (Some ts))
                        else (p_world p, Ok None)).1 = uuids (p_world p)) end.
  { destruct (encrypts svc _); [|done].
    match goal with |- context [decrypt_bodies ?a ?b ?c ?d ?e] =>
      pose proof (decrypt_bodies_uuids a b c d e); by destruct (decrypt_bodies a b c d e) end. }
  destruct (if encrypts svc _ then _ else _) as [w1 [texts|e]]; simpl in Hw.
  - split; [|done].
    match goal with |- similar st (if ?c then record_attempt ?s _ _ _ _ else _) =>
      assert (Hs : similar st s) end.
    { eapply similar_trans; [|apply similar_move_all]. by eapply similar_put. }
    match goal with |- similar st (if ?c then _ else _) => destruct c end; [|done].
    eapply similar_trans; [exact Hs|apply similar_record_attempt].
  - destruct (restore (handles p) (received p)) as [hs restored]. split; [|done].
    by eapply similar_put.
Qed.

Lemma similar_receive svc account input max timeout attempt st w :
  let '(st', w', _) := try_receive_messages svc account input max timeout attempt st w in
  similar st st' /\ uuids w <= uuids w'.
Proof.
  unfold try_receive_messages. destruct (find_queue input st) as [[url q]|] eqn:Ef;
    [|split; [apply similar_refl|done]].
  destruct (find_queue_Ok _ _ _ _ Ef) as [_ Hq]. cbn zeta.
  set (q1 := if is_fifo q then _ else q).
  assert (Hid : ident q1 = ident q) by (unfold q1; by destruct (is_fifo q) eqn:?).
  destruct (negb _).
  { destruct (encrypts svc q1).
    - match goal with |- context [decrypt_bodies ?a ?b ?c ?d ?e] =>
        pose proof (decrypt_bodies_uuids a b c d e) as Hw; destruct (decrypt_bodies a b c d e) end.
      simpl in Hw. split; [by eapply similar_put|simpl; lia].
    - split; [by eapply similar_put|done]. }
  match goal with |- context [deliver ?a ?b ?c ?d ?e ?f ?g ?h ?i] =>
    pose proof (similar_deliver a b c d q e f g h i Hq) as Hd;
    destruct (deliver a b c d e f g h i) as [[st' w'] r] end.
  destruct Hd as [Hs Hw]; [by rewrite ident_return_lapsed|]. split; [done|]. rewrite Hw.
  change (uuids w) with (uuids (ticked w)). apply select_uuids.
Qed.

Lemma frame_receive svc account input max timeout attempt st w :
  let '(st', w', _) := try_receive_messages svc account input max timeout attempt st w in
  frame st w st' w'.
Proof.
  pose proof (similar_receive svc account input max timeout attempt st w) as Hs.
  destruct (try_receive_messages svc account input max timeout attempt st w) as [[st' w'] r] eqn:E.
  destruct Hs as [(He & Ht & Hq) Hw]. constructor; [done|done|by rewrite Ht|].
  destruct (receive_conserves_aux _ _ _ _ _ _ _ _ _ _ _ E) as (lost & Hp & _).
  exists []. split_and!; [constructor|done|]. cbn. rewrite app_nil_r. unfold sids.
  rewrite Hp, fmap_app. by apply submseteq_inserts_r.
Qed.

(** ** Deletes and visibility *)

Lemma drop_message_sub q mid : ident (drop_message q mid) = ident q /\ qids (drop_message q mid) ⊆+ qids q.
Proof. split; [done|]. apply qids_lists; apply filter_submseteq. Qed.

Lemma set_visible_at_ids mid deadline l l' : set_visible_at mid deadline l = Some l' -> ids l' = ids l.
Proof.
  revert l'. induction l as [|m l IH]; intros l'; [done|]. cbn [set_visible_at].
  destruct (String.eqb _ _); [by intros [= <-]|].
  destruct (set_visible_at mid deadline l) as [k|]; [|done]. intros [= <-].
  unfold ids in *. cbn. by rewrite (IH k).
Qed.

Lemma change_visibility_sub q mid deadline q' :
  change_visibility q mid deadline = Some q' -> ident q' = ident q /\ qids q' = qids q.
Proof.
  unfold change_visibility. destruct (set_visible_at mid deadline (inflight q)) as [l|] eqn:E.
  - intros [= <-]. split; [done|]. unfold qids, ids in *. cbn. rewrite !fmap_app. f_equal.
    by apply set_visible_at_ids in E.
  - destruct (set_visible_at mid deadline (messages q)) as [l|] eqn:E2; [|done]. intros [= <-].
    split; [done|]. unfold qids, ids in *. cbn. rewrite !fmap_app. f_equal.
    by apply set_visible_at_ids in E2.
Qed.

(** Operations that replace one queue, keeping its identity and no more than
    its messages. *)
Definition shrinks (q q' : SqsQueue) : Prop := ident q' = ident q /\ qids q' ⊆+ qids q.

Lemma shrinks_refl q : shrinks q q.
Proof. done. Qed.

Lemma shrinks_trans q q1 q2 : shrinks q q1 -> shrinks q1 q2 -> shrinks q q2.
Proof. intros [? ?] [? ?]. split; [congruence|by etransitivity]. Qed.

Lemma frame_shrink st w w' url q q' :
  queues st !! url = Some q -> shrinks q q' -> uuids w <= uuids w' -> frame st w (put_queue st url q') w'.
Proof. intros Hq [Hid Hs] Hw. by apply (frame_put_sub _ _ _ _ q). Qed.

Lemma run_entries_cons step q e l :
  run_entries step q (e :: l) =
  match as_str (index e "Id") with
  | None => run_entries step q l
  | Some id =>
      let '(q, outcome) := step q id e in
      let '(q, (ok, bad)) := run_entries step q l in
      (q, match outcome with
          | Ok _ => (VObject [("Id"%string, VString id)] :: ok, bad)
          | Err v => (ok, v :: bad)
          end)
  end.
Proof. done. Qed.

Lemma run_entries_shrinks step q entries :
  (forall q id e, shrinks q (step q id e).1) -> shrinks q (run_entries step q entries).1.
Proof.
  intros Hstep. revert q. induction entries as [|e l IH]; intros q; [apply shrinks_refl|].
  rewrite run_entries_cons. destruct (as_str (index e "Id")) as [id|]; [|apply IH].
  specialize (Hstep q id e). destruct (step q id e) as [q1 o]. specialize (IH q1).
  destruct (run_entries step q1 l) as [q2 [ok bad]]. by eapply shrinks_trans.
Qed.

Lemma delete_entry_shrinks q id e : shrinks q (delete_entry q id e).1.
Proof.
  unfold delete_entry. destruct (as_str _) as [h|]; [|apply shrinks_refl]. simpl.
  destruct (find_message_id_for_receipt q h) as [mid|]; [apply drop_message_sub|apply shrinks_refl].
Qed.

Lemma visibility_entry_shrinks now q id e : shrinks q (visibility_entry now q id e).1.
Proof.
  unfold visibility_entry. destruct (as_str _) as [h|]; [|apply shrinks_refl]. simpl.
  destruct (val_as_i64 _) as [t|]; [|apply shrinks_refl]. simpl.
  destruct (in_visibility_range t); [|apply shrinks_refl]. simpl.
  destruct (find_message_id_for_receipt q h) as [mid|]; [|apply shrinks_refl]. simpl.
  destruct (change_visibility q mid _) as [q'|] eqn:E; [|apply shrinks_refl].
  apply change_visibility_sub in E as [? Heq]. split; [done|]. simpl. by rewrite Heq.
Qed.

Lemma batch_target_queue b what st entries url q :
  batch_target b what st = Ok (entries, (url, q)) -> queues st !! url = Some q.
Proof.
  unfold batch_target. destruct (as_str _) as [input|]; [|done]. simpl.
  destruct (batch_entries b what); [|done]. simpl. destruct (check_distinct_ids _ _); [|done]. simpl.
  destruct (find_queue input st) as [[u q']|] eqn:Ef; [|done]. simpl. intros [= _ <- <-].
  by apply find_queue_Ok in Ef as [_ ?].
Qed.

Lemma frame_delete req st w : frame st w (delete_message req st).1 w.
Proof.
  destruct (delete_message req st) as [st' [v|e]] eqn:E.
  - apply delete_message_Ok in E as (i & h & url & q & mid & _ & _ & Hf & _ & -> & _).
    apply find_queue_Ok in Hf as [_ Hq]. eapply frame_shrink; [done|apply drop_message_sub|done].
  - unfold delete_message in E. cbn zeta in E.
    match type of E with context [match ?c with Ok _ => _ | Err _ => _ end] =>
      destruct c as [[[? ?] ?]|] end; [discriminate|]. injection E as <- _. apply frame_refl.
Qed.

Lemma frame_delete_batch req st w : frame st w (delete_message_batch req st).1 w.
Proof.
  unfold delete_message_batch. destruct (batch_target _ _ st) as [[entries [url q]]|] eqn:E;
    [|apply frame_refl].
  pose proof (run_entries_shrinks delete_entry q entries delete_entry_shrinks) as Hs.
  destruct (run_entries delete_entry q entries) as [q' [ok bad]].
  eapply frame_shrink; [by eapply batch_target_queue|done|done].
Qed.

Lemma frame_visibility req st w :
  let '(st', w', _) := change_message_visibility req st w in frame st w st' w'.
Proof.
  unfold change_message_visibility. cbn zeta.
  match goal with |- context [match ?c with Ok _ => _ | Err _ => _ end] =>
    destruct c as [[[h t] [url q]]|e] eqn:E end; [|apply frame_refl].
  assert (Hq : queues st !! url = Some q).
  { destruct (as_str (index (req_body req) "QueueUrl")); [|done]. simpl in E.
    destruct (as_str (index (req_body req) "ReceiptHandle")); [|done]. simpl in E.
    destruct (val_as_i64 _); [|done]. simpl in E. destruct (in_visibility_range _); [|done]. simpl in E.
    destruct (find_queue _ st) as [[u q']|] eqn:Ef; [|done]. simpl in E. injection E as _ _ -> ->.
    by apply find_queue_Ok in Ef as [_ ?]. }
  destruct (find_message_id_for_receipt q h) as [mid|]; [|by apply frame_world]. simpl.
  destruct (change_visibility q mid _) as [q'|] eqn:Ec; [|by apply frame_world].
  apply change_visibility_sub in Ec as [Hid Hids].
  eapply frame_shrink; [done|split; [done|by rewrite Hids]|done].
Qed.

Lemma frame_visibility_batch req st w :
  let '(st', w', _) := change_message_visibility_batch req st w in frame st w st' w'.
Proof.
  unfold change_message_visibility_batch.
  destruct (batch_target _ _ st) as [[entries [url q]]|] eqn:E; [|apply frame_refl].
  pose proof (run_entries_shrinks (visibility_entry (clock (ticks w))) q entries
                (visibility_entry_shrinks _)) as Hs.
  destruct (run_entries _ q entries) as [q' [ok bad]].
  eapply frame_shrink; [by eapply batch_target_queue|done|done].
Qed.

(** ** Background operations and delivery *)

Lemma ident_push_all l dlq :
  ident (foldl (fun d m => push_back d (with_visibility m None None)) dlq l) = ident dlq.
Proof. revert dlq. induction l as [|m l IH]; intros dlq; [done|]. simpl. by rewrite IH. Qed.

Lemma frame_force_dlq st name st' n w :
  keyed st -> force_dlq_in st name = Some (st', n) -> frame st w st' w.
Proof.
  intros Hk Hf. destruct (force_dlq_conserves_aux st name Hk) as (st1 & n1 & Hf1 & Hc & _).
  rewrite Hf in Hf1. injection Hf1 as <- <-.
  assert (Hs : similar st st').
  { unfold force_dlq_in in Hf. destruct (name_to_url st !! name) as [url|]; [|by injection Hf as <- _].
    simpl in Hf. destruct (queues st !! url) as [q|] eqn:Eq; [|by injection Hf as <- _]. simpl in Hf.
    destruct (redrive_policy q) as [rp|]; [|by injection Hf as <- _]. simpl in Hf.
    destruct (url_of_arn st _) as [[u target]|]; [|by injection Hf as <- _]. simpl in Hf.
    rewrite Eq in Hf. simpl in Hf.
    match type of Hf with context [<[url := ?q1]> (queues st)] => set (q1' := q1) in Hf end.
    destruct (<[url := q1']> (queues st) !! queue_url target) as [dlq|] eqn:Ed; [|done].
    simpl in Hf. injection Hf as <- _.
    apply (similar_trans st (put_queue st url q1')); [by eapply similar_put|].
    eapply (similar_put (put_queue st url q1')); [exact Ed|].
    apply ident_push_all. }
  destruct Hs as (He & Ht & Hq). constructor; [done|done|by rewrite Ht|].
  exists []. split_and!; [constructor|done|]. cbn. rewrite app_nil_r. unfold sids.
  by rewrite Hc.
Qed.

Lemma values_insert {V} (m : gmap string V) k v :
  m !! k = None -> BTree.values (<[k := v]> m) ≡ₚ v :: BTree.values m.
Proof. intros Hk. unfold BTree.values. rewrite !BTree.iter_Permutation. by rewrite map_to_list_insert. Qed.

Lemma sids_values st : sids st ≡ₚ BTree.values (queues st) ≫= qids.
Proof.
  unfold sids, contents. induction (BTree.values (queues st)) as [|q l IH]; [done|].
  csimpl. by rewrite fmap_app, IH, qids_contents.
Qed.

Lemma values_fmap_sub (f : SqsQueue -> SqsQueue) (m : gmap string SqsQueue) :
  (forall q, qids (f q) ⊆+ qids q) ->
  (BTree.values (f <$> m) ≫= qids) ⊆+ (BTree.values m ≫= qids).
Proof.
  intros Hf. induction m as [|url q m Hm IH] using map_ind; [by rewrite fmap_empty|].
  rewrite fmap_insert, (values_insert m url q Hm), (values_insert (f <$> m))
    by (by rewrite lookup_fmap, Hm).
  csimpl. by apply submseteq_app.
Qed.

Lemma frame_tick now st w : frame st w (tick_state now st).1 w.
Proof.
  constructor; [done| |done|].
  - intros url. simpl. rewrite lookup_fmap. by destruct (queues st !! url).
  - exists []. split_and!; [constructor|done|]. cbn [fmap list_fmap]. rewrite app_nil_r, !sids_values.
    apply values_fmap_sub. intros q. apply qids_lists; apply filter_submseteq.
Qed.

Lemma delivery_uuids hook w account rg a key text :
  uuids (delivery_body hook w account rg a key text).1 = uuids w.
Proof.
  unfold delivery_body. destruct key as [ky|], hook; try done. by destruct (is_empty_str ky).
Qed.

Lemma frame_deliver_in hook account rg a text attrs group dedup st w :
  let '(st', w', _) := deliver_in hook account rg a text attrs group dedup st w in
  frame st w st' w'.
Proof.
  unfold deliver_in. destruct (url_of_arn st a) as [[url q]|] eqn:Eu; [|apply frame_refl].
  apply url_of_arn_Some in Eu as [Hq _].
  destruct (_ && _ && _); [apply frame_refl|]. cbn zeta.
  match goal with |- context [put_queue st url ?x] => set (q1 := x) end.
  assert (H1 : ident q1 = ident q /\ qids q1 = qids q)
    by (unfold q1; destruct (is_fifo q) eqn:?; done).
  destruct H1 as [Hid Hids].
  assert (Hf1 : forall w', uuids w <= uuids w' -> frame st w (put_queue st url q1) w').
  { intros w' Hw. apply (frame_put_sub _ _ _ _ q); try done. by rewrite Hids. }
  match goal with |- context [delivery_body ?x1 ?x2 ?x3 ?x4 ?x5 ?x6 ?x7] =>
    pose proof (delivery_uuids x1 x2 x3 x4 x5 x6 x7) as Hw;
    destruct (delivery_body x1 x2 x3 x4 x5 x6 x7) as [w1 [stored|e]] end; simpl in Hw.
  2: { apply Hf1; lia. }
  destruct (url_of_arn (put_queue st url q1) (arn q1)) as [[u q2]|] eqn:E2.
  2: { apply Hf1; lia. }
  apply url_of_arn_Some in E2 as [Hq2 _].
  eapply frame_trans; [apply (Hf1 w1); lia|].
  eapply frame_put_new; [exact Hq2|done|simpl; lia|apply qids_push|done].
Qed.

(** ** Movers *)

Lemma frame_tasks st w ts : active ts ⊆+ active (message_move_tasks st) -> frame st w (with_tasks st ts) w.
Proof.
  intros Ha. constructor; try done. exists []. split_and!; [constructor|done|]. cbn [fmap list_fmap].
  by rewrite app_nil_r.
Qed.

Lemma update_task_active handle f ts :
  (forall t, source_arn (f t) = source_arn t /\ driver_pid (f t) = driver_pid t) ->
  (forall t, is_active (task_status (f t)) = true -> is_active (task_status t) = true) ->
  active (update_task handle f ts) ⊆+ active ts.
Proof.
  intros Hs Ha. unfold active. induction ts as [|t ts IH]; [done|]. cbn [update_task].
  destruct (String.eqb _ _).
  - rewrite !filter_cons. specialize (Ha t). destruct (decide (is_active (task_status (f t)) = true)) as [E|].
    + rewrite decide_True by auto. simpl. by destruct (Hs t) as [-> ->].
    + case_decide; simpl; [|done]. by apply submseteq_cons.
  - rewrite !filter_cons. case_decide; simpl; [by apply submseteq_skip|done].
Qed.

Lemma frame_finalize st w handle s :
  is_active s = false -> frame st w (finalize_move_task st handle s) w.
Proof.
  intros Hs. apply frame_tasks, update_task_active; [done|]. simpl. congruence.
Qed.

Lemma frame_move_one mv st src w :
  queues st !! mv_source mv = Some src -> frame st w (move_one mv st src).1.1 w.
Proof.
  intros Hs. unfold move_one. destruct (mover_target mv st) as [tu|]; [|apply frame_refl].
  destruct (messages src) as [|m rest] eqn:Em; [apply frame_refl|]. cbn zeta.
  set (src1 := with_lists src rest (inflight src)). set (st1 := put_queue st (mv_source mv) src1).
  assert (Hq1 : queues st1 !! mv_source mv = Some src1) by apply lookup_insert_eq.
  assert (Hpop : qids src ≡ₚ message_id m :: qids src1)
    by (unfold qids, ids, src1; simpl; by rewrite Em).
  assert (Hpush : forall u tq, queues st1 !! u = Some tq ->
     forall tq', ident tq' = ident tq -> qids tq' ≡ₚ message_id m :: qids tq ->
     frame st w (put_queue st1 u tq') w).
  { intros u tq Hu tq' Hid Hids. constructor; [done| |done|].
    - intros x. destruct (similar_put st (mv_source mv) src src1 Hs eq_refl) as (_ & _ & H1).
      destruct (similar_put st1 u tq tq' Hu Hid) as (_ & _ & H2). by rewrite H2, H1.
    - exists []. split_and!; [constructor|done|]. cbn [fmap list_fmap]. rewrite app_nil_r.
      destruct (contents_split st _ _ Hs) as (rest0 & Hst & Hput). fold st1 in Hput.
      specialize (Hput src1). fold st1 in Hput.
      destruct (contents_split st1 _ _ Hu) as (rest1 & Hst1 & Hput1).
      unfold sids. rewrite (Hput1 tq'), Hst. rewrite !fmap_app, !qids_contents, Hids, Hpop.
      rewrite Hst1 in Hput. apply (fmap_Permutation message_id) in Hput.
      rewrite !fmap_app, !qids_contents in Hput. simpl. apply submseteq_skip.
      by apply Permutation_submseteq. }
  assert (Hfront : forall x, qids (push_front x (moved_message m)) ≡ₚ message_id m :: qids x) by done.
  assert (Hback : forall x, qids (push_back x (moved_message m)) ≡ₚ message_id m :: qids x).
  { intros x. unfold qids, ids, push_back. simpl. rewrite !fmap_app. simpl. solve_Permutation. }
  destruct (queues st1 !! tu) as [tq|] eqn:Etu.
  - eapply frame_trans; [by eapply (Hpush tu tq Etu (push_back tq (moved_message m)))|].
    by apply frame_tasks, update_task_active.
  - rewrite Hq1. by eapply (Hpush _ _ Hq1).
Qed.

Lemma frame_mover cancelled mv st w : frame st w (mover_iteration cancelled mv st).1 w.
Proof.
  unfold mover_iteration. destruct cancelled; [by apply frame_finalize|].
  destruct (queues st !! mv_source mv) as [src|] eqn:E; [|by apply frame_finalize].
  pose proof (frame_move_one mv st src w E) as Hf.
  destruct (move_one mv st src) as [[st1 mv1] []]; simpl in *; [done|..];
    (eapply frame_trans; [exact Hf|by apply frame_finalize]).
Qed.

Lemma similar_drain targets idx msgs st moved :
  similar st (drain_to targets idx msgs st moved).1
  /\ sids (drain_to targets idx msgs st moved).1 ⊆+ sids st ++ ids msgs.
Proof.
  revert idx st moved. induction msgs as [|m l IH]; intros idx st moved.
  { split; [apply similar_refl|]. unfold ids. cbn. by rewrite app_nil_r. }
  cbn [drain_to]. destruct (targets !! _ ≫= _) as [[u tq]|] eqn:E.
  - apply bind_Some in E as (u' & _ & E). apply fmap_Some in E as (q & Hq & [= -> ->]).
    destruct (IH (S idx) (put_queue st u' (push_back q (moved_message m))) (moved + 1)%Z) as [Hs Hi].
    split; [eapply similar_trans; [apply (similar_put st u' q (push_back q (moved_message m))); done|exact Hs]|].
    etransitivity; [exact Hi|].
    destruct (contents_split _ _ _ Hq) as (rest & Hst & Hput). unfold sids.
    rewrite (Hput (push_back q (moved_message m))), Hst, !fmap_app, !qids_contents.
    unfold qids, push_back, ids. simpl. rewrite !fmap_app. simpl.
    apply Permutation_submseteq. solve_Permutation.
  - destruct (IH (S idx) st moved) as [Hs Hi]. split; [done|]. etransitivity; [exact Hi|].
    apply submseteq_skips_l. unfold ids. simpl. by apply submseteq_cons.
Qed.

Lemma active_app ts t :
  active (ts ++ [t]) = active ts ++ (if is_active (task_status t) then [(source_arn t, driver_pid t)] else []).
Proof.
  unfold active. rewrite filter_app, fmap_app. f_equal. rewrite filter_cons.
  destruct (is_active (task_status t)); by rewrite ?decide_True by done.
Qed.

Lemma no_blocking ts source pid :
  existsb (fun t => task_blocks_new_move t source pid) ts = false -> (source, pid) ∉ active ts.
Proof.
  intros He Hin. unfold active in Hin. apply list_elem_of_fmap in Hin as (t & Heq & Ht).
  apply list_elem_of_filter in Ht as [Ha Ht]. injection Heq as -> ->.
  apply Bool.not_true_iff_false in He. apply He, existsb_exists. exists t.
  split; [by apply list_elem_of_In|]. unfold task_blocks_new_move.
  by rewrite Ha, String.eqb_refl, Z.eqb_refl.
Qed.

Lemma frame_similar st w st' : similar st st' -> sids st' ⊆+ sids st -> frame st w st' w.
Proof.
  intros (He & Ht & Hq) Hs. constructor; [done|done|by rewrite Ht|].
  exists []. split_and!; [constructor|done|]. cbn. by rewrite app_nil_r.
Qed.

(** A started task: a frame, then at most one task added, for a source that
    had none of this process. *)
Lemma frame_start pid req st w :
  let '(st', w', _, _) := start_message_move_task pid req st w in
  exists st1 ts, frame st w st1 w' /\ st' = with_tasks st1 ts
    /\ (active ts = active (message_move_tasks st1)
        \/ exists source, ~ (source, pid) ∈ active (message_move_tasks st)
             /\ active ts = active (message_move_tasks st1) ++ [(source, pid)]).
Proof.
  unfold start_message_move_task. destruct (move_validate (req_body req) pid st) as [r|e] eqn:Ev.
  2: { exists st, (message_move_tasks st). split_and!; [apply frame_refl|by destruct st|by left]. }
  assert (Hfree : (mr_source r, pid) ∉ active (message_move_tasks st)).
  { unfold move_validate in Ev. destruct (as_str (index (req_body req) "SourceArn")) as [source|]; [|done].
    simpl in Ev. destruct (match val_as_i64 _ with Some _ => _ | None => _ end); [|done]. simpl in Ev.
    destruct (url_of_arn st source) as [[u src]|]; [|done]. simpl in Ev.
    case_bool_decide; [done|]. simpl in Ev.
    destruct (match as_str _ with Some _ => _ | None => _ end); [|done]. simpl in Ev.
    destruct (existsb _ _) eqn:Eb; [done|]. simpl in Ev. injection Ev as <-. by apply no_blocking. }
  cbn zeta. destruct (mr_rate r) as [rate|].
  { eexists st, _. split_and!; [apply frame_world; simpl; lia|done|]. right.
    exists (mr_source r). split; [done|]. by rewrite active_app. }
  destruct (queues st !! mr_source_url r) as [q|] eqn:Eq.
  - match goal with |- context [drain_to ?ts ?i ?ms ?s ?n] =>
      pose proof (similar_drain ts i ms s n) as [Hs Hi]; destruct (drain_to ts i ms s n) as [st1 moved] end.
    eexists st1, _. split_and!; [|done|left; by rewrite active_app, app_nil_r].
    apply (frame_trans _ _ st w); [apply frame_refl|].
    apply (frame_trans _ _ st1 w); [|apply frame_world; simpl; lia]. apply frame_similar.
    + eapply similar_trans; [|exact Hs]. by apply (similar_put _ _ q).
    + simpl in Hi. etransitivity; [exact Hi|].
      destruct (contents_split _ _ _ Eq) as (rest & Hst & Hput). unfold sids.
      rewrite (Hput (with_lists q [] (inflight q))), Hst, !fmap_app, !qids_contents.
      unfold qids, ids. simpl. rewrite !fmap_app. apply Permutation_submseteq. solve_Permutation.
  - destruct (drain_to _ _ _ _ _) as [st1 moved] eqn:Ed. simpl in Ed. injection Ed as <- <-.
    eexists st, _. split_and!; [apply frame_world; simpl; lia|done|].
    left. by rewrite active_app, app_nil_r.
Qed.

Lemma frame_cancel req st w : frame st w (cancel_message_move_task req st).1 w.
Proof.
  unfold cancel_message_move_task.
  destruct (as_str _) as [handle|]; [|apply frame_refl]. simpl.
  destruct (find _ _) as [t|] eqn:Ef; [|apply frame_refl]. simpl.
  destruct (task_status t) eqn:Es; try apply frame_refl. simpl. apply frame_tasks.
  clear - Ef Es. unfold active. induction (message_move_tasks st) as [|x ts IH]; [done|].
  cbn [update_task find] in *. destruct (String.eqb _ _).
  - injection Ef as ->. rewrite !filter_cons. simpl. by rewrite Es.
  - rewrite !filter_cons. case_decide; simpl; [apply submseteq_skip|]; auto.
Qed.

End Frames.

(** ** Queue management *)

Section Service.
Context `{Host} `{SerdeJson} `{SerdePrint} `{TokenCodec}.

(** A handler that resolves its queue and replaces it by one with the same
    identity and messages. *)
Lemma queue_param_queue b st url q : queue_param b st = Ok (url, q) -> queues st !! url = Some q.
Proof.
  unfold queue_param. destruct (as_str _) as [input|]; [|done]. simpl. intros Hf.
  by apply find_queue_Ok in Hf as [_ ?].
Qed.

Lemma frame_meta st w w' url q q' :
  queues st !! url = Some q -> uuids w <= uuids w' -> ident q' = ident q -> qids q' = qids q ->
  frame st w (put_queue st url q') w'.
Proof. intros Hq Hw Hid Hids. eapply frame_shrink; [done| |done]. split; [done|by rewrite Hids]. Qed.

Lemma frame_purge req st w : frame st w (purge_queue req st).1 w.
Proof.
  unfold purge_queue. destruct (queue_param _ st) as [[url q]|] eqn:E; [|apply frame_refl].
  eapply frame_shrink; [by eapply queue_param_queue| |done]. split; [done|]. apply submseteq_nil_l.
Qed.

Lemma frame_tag req st w : frame st w (tag_queue req st).1 w.
Proof.
  unfold tag_queue. destruct (queue_param _ st) as [[url q]|] eqn:E; [|apply frame_refl].
  destruct (as_object _); [|apply frame_refl]. cbn zeta. destruct (_ <? _); [apply frame_refl|].
  eapply frame_meta; [by eapply queue_param_queue|done..].
Qed.

Lemma frame_untag req st w : frame st w (untag_queue req st).1 w.
Proof.
  unfold untag_queue. destruct (queue_param _ st) as [[url q]|] eqn:E; [|apply frame_refl].
  eapply frame_meta; [by eapply queue_param_queue|done..].
Qed.

Lemma apply_attributes_same members now q :
  ident (apply_attributes members now q) = ident q /\ qids (apply_attributes members now q) = qids q.
Proof. unfold apply_attributes. cbn zeta. by destruct (foldl _ _ members). Qed.

Lemma frame_set_attributes req st w :
  let '(st', w', _) := set_queue_attributes req st w in frame st w st' w'.
Proof.
  unfold set_queue_attributes. cbn zeta.
  match goal with |- context [match ?c with Ok _ => _ | Err _ => _ end] =>
    destruct c as [[url q]|e] eqn:E end; [|apply frame_refl].
  assert (Hq : queues st !! url = Some q).
  { apply bind_Ok in E as (input & _ & E). apply bind_Ok in E as (u & _ & E).
    apply bind_Ok in E as ([] & _ & E). apply bind_Ok in E as (q' & Eq & E).
    apply bind_Ok in E as ([] & _ & E). apply bind_Ok in E as ([] & _ & [= <- <-]).
    by apply ok_or_Ok in Eq. }
  destruct (as_object _) as [[|kv ms]|]; [..|apply frame_refl];
    (eapply frame_meta; [done|done|apply apply_attributes_same..]).
Qed.

Lemma frame_add_permission req st st' r w :
  add_permission req st = Some (st', r) -> frame st w st' w.
Proof.
  unfold add_permission. cbn zeta.
  match goal with |- context [match ?c with Ok _ => _ | Err _ => _ end] =>
    destruct c as [[[label url] q]|e] eqn:E end; [|intros [= <- _]; apply frame_refl].
  destruct (json_to_string _); [|done]. simpl. intros [= <- _].
  destruct (as_str (index (req_body req) "QueueUrl")) as [input|]; [|done]. simpl in E.
  destruct (as_str (index (req_body req) "Label")) as [lb|]; [|done]. simpl in E.
  destruct (resolve_queue_url input st); [|done]. simpl in E.
  destruct (check_permission _ _); [|done]. simpl in E.
  destruct (find_queue input st) as [[u q']|] eqn:Ef; [|done]. simpl in E.
  case_bool_decide; [done|]. injection E as <- <- <-. apply find_queue_Ok in Ef as [_ ?].
  by eapply frame_meta.
Qed.

Lemma frame_remove_permission req st st' r w :
  remove_permission req st = Some (st', r) -> frame st w st' w.
Proof.
  unfold remove_permission. cbn zeta.
  match goal with |- context [match ?c with Ok _ => _ | Err _ => _ end] =>
    destruct c as [[[label url] q]|e] eqn:E end; [|intros [= <- _]; apply frame_refl].
  intros Hr. apply bind_Some in Hr as (attrs & _ & [= <- _]).
  destruct (as_str (index (req_body req) "QueueUrl")) as [input|]; [|done]. simpl in E.
  destruct (as_str (index (req_body req) "Label")) as [lb|]; [|done]. simpl in E.
  destruct (find_queue input st) as [[u q']|] eqn:Ef; [|done]. simpl in E.
  case_bool_decide; [|done]. injection E as <- <- <-. apply find_queue_Ok in Ef as [_ ?].
  by eapply frame_meta.
Qed.

(** ** The invariant *)

(** Names are not empty and have no ['/'] and no [':']. *)
Definition plain_name (name : string) : Prop :=
  no_char "/" name = true /\ no_char ":" name = true /\ is_empty_str name = false.

(** A queue's URL, ARN and kind are those of its name. *)
Definition well_named (st : SqsState) (q : SqsQueue) : Prop :=
  plain_name (queue_name q)
  /\ queue_url q = queue_url_for st (queue_name q)
  /\ arn q = queue_arn_for (region st) (account_id st) (queue_name q)
  /\ is_fifo q = ends_with ".fifo" (queue_name q).

Record wf (pid : Z) (st : SqsState) (w : World) : Prop := {
  wf_queue : forall url q, queues st !! url = Some q ->
    url = queue_url q /\ well_named st q /\ name_to_url st !! queue_name q = Some url;
  wf_name : forall name url, name_to_url st !! name = Some url ->
    exists q, queues st !! url = Some q /\ queue_name q = name;
  wf_ids : exists ns, NoDup ns /\ Forall (fun n => n < uuids w) ns /\ sids st ⊆+ new_v4 <$> ns;
  wf_tasks : NoDup (active (message_move_tasks st))
             /\ Forall (fun sp => sp.2 = pid) (active (message_move_tasks st))
}.

Lemma wf_keyed pid st w : wf pid st w -> keyed st.
Proof. intros Hwf url q Hq. by destruct (wf_queue _ _ _ Hwf _ _ Hq) as [-> _]. Qed.

Lemma wf_empty pid account rg ep w : wf pid (mkState account rg ep ∅ ∅ []) w.
Proof.
  constructor.
  - intros url q. simpl. by rewrite lookup_empty.
  - intros name url. simpl. by rewrite lookup_empty.
  - exists []. split_and!; [constructor..|done].
  - split; constructor.
Qed.

Lemma frame_queue st w st' w' url q' :
  frame st w st' w' -> queues st' !! url = Some q' ->
  exists q, queues st !! url = Some q /\ ident q' = ident q.
Proof.
  intros Hf Hq. pose proof (fr_queues _ _ _ _ Hf url) as Hi. rewrite Hq in Hi. simpl in Hi.
  destruct (queues st !! url) as [q|]; [|done]. exists q. split; [done|]. by apply (inj Some).
Qed.

Lemma frame_queue_back st w st' w' url q :
  frame st w st' w' -> queues st !! url = Some q ->
  exists q', queues st' !! url = Some q' /\ ident q' = ident q.
Proof.
  intros Hf Hq. pose proof (fr_queues _ _ _ _ Hf url) as Hi. rewrite Hq in Hi. simpl in Hi.
  destruct (queues st' !! url) as [q'|]; [|done]. exists q'. split; [done|]. by apply (inj Some).
Qed.

Lemma well_named_ident st st' q q' :
  env st' = env st -> ident q' = ident q -> well_named st q -> well_named st' q'.
Proof.
  intros He Hi. unfold well_named, queue_url_for. unfold env in He. unfold ident in Hi.
  injection He as -> -> -> _. injection Hi as -> -> -> ->. done.
Qed.

Lemma wf_ids_frame pid st w st' w' :
  wf pid st w -> frame st w st' w' ->
  exists ns, NoDup ns /\ Forall (fun n => n < uuids w') ns /\ sids st' ⊆+ new_v4 <$> ns.
Proof.
  intros [_ _ (ns & Hnd & Hr & Hs) _] [_ _ [Hu _] (ns' & Hnd' & Hr' & Hs')].
  exists (ns ++ ns'). split_and!.
  - apply NoDup_app. split_and!; try done. intros n Hn Hn'.
    rewrite Forall_forall in Hr, Hr'. specialize (Hr _ Hn). specialize (Hr' _ Hn'). simpl in *. lia.
  - apply Forall_app. split; (eapply Forall_impl; [eassumption|]); simpl; intros; lia.
  - rewrite fmap_app. etransitivity; [exact Hs'|]. by apply submseteq_skips_r.
Qed.

Lemma submseteq_NoDup {A} (l k : list A) : l ⊆+ k -> NoDup k -> NoDup l.
Proof.
  intros Hs Hk. apply submseteq_Permutation in Hs as (r & Hp). rewrite Hp in Hk.
  by apply NoDup_app in Hk as [? _].
Qed.

Lemma submseteq_Forall {A} (P : A -> Prop) (l k : list A) : l ⊆+ k -> Forall P k -> Forall P l.
Proof.
  intros Hs. rewrite !Forall_forall. intros Hk x Hx. apply Hk.
  by apply (elem_of_submseteq l).
Qed.

Lemma wf_frame pid st w st' w' : wf pid st w -> frame st w st' w' -> wf pid st' w'.
Proof.
  intros Hwf Hf. constructor; [..|by eapply wf_ids_frame|].
  - intros url q' Hq. destruct (frame_queue _ _ _ _ _ _ Hf Hq) as (q & Hq0 & Hid).
    destruct (wf_queue _ _ _ Hwf _ _ Hq0) as (Hu & Hn & Hname). pose proof (fr_env _ _ _ _ Hf) as He.
    split; [|split; [by eapply well_named_ident|]].
    + unfold ident in Hid. injection Hid as _ -> _ _. done.
    + unfold env in He. injection He as _ _ _ ->. unfold ident in Hid. by injection Hid as -> _ _ _.
  - intros name url Hn. pose proof (fr_env _ _ _ _ Hf) as He. unfold env in He.
    injection He as _ _ _ He. rewrite He in Hn.
    destruct (wf_name _ _ _ Hwf _ _ Hn) as (q & Hq & Hqn).
    destruct (frame_queue_back _ _ _ _ _ _ Hf Hq) as (q' & Hq' & Hid). exists q'. split; [done|].
    unfold ident in Hid. by injection Hid as -> _ _ _.
  - destruct (wf_tasks _ _ _ Hwf) as [Hnd Hp]. destruct (fr_uuids _ _ _ _ Hf) as [_ Ha].
    split; [by eapply submseteq_NoDup|by eapply submseteq_Forall].
Qed.

(** *** Names of new queues *)

Lemma append_inj_l a b c : a +:+ b = a +:+ c -> b = c.
Proof. induction a as [|x a IH]; [done|]. intros [= Heq]. auto. Qed.

Lemma queue_url_for_inj st a b : queue_url_for st a = queue_url_for st b -> a = b.
Proof. unfold queue_url_for. intros Heq. by repeat apply append_inj_l in Heq. Qed.

Lemma no_char_trim d x fuel s :
  no_char d x = true -> no_char d (trim_end_matches fuel x s) = true -> no_char d s = true.
Proof.
  intros Hx. revert s. induction fuel as [|fuel IH]; intros s; [done|]. cbn [trim_end_matches].
  destruct (strip_suffix x s) as [r|] eqn:E; [|done]. intros Hr. apply strip_suffix_Some in E as ->.
  unfold no_char in *. rewrite string_forallb_app, (IH r Hr). done.
Qed.

Lemma valid_name_no_char d name :
  is_alphanumeric d = false -> Ascii.eqb d "-" = false -> Ascii.eqb d "_" = false ->
  is_valid_queue_name name = true -> no_char d name = true.
Proof.
  intros Ha Hb Hc. unfold is_valid_queue_name. destruct (_ || _); [done|].
  apply string_forallb_impl. intros c Hok. rewrite negb_true_iff.
  destruct (Ascii.eqb_spec c d) as [->|]; [|done]. by rewrite Ha, Hb, Hc in Hok.
Qed.

Lemma create_queue_name_plain b name fifo :
  create_queue_name b = Ok (name, fifo) -> plain_name name /\ fifo = ends_with ".fifo" name.
Proof.
  unfold create_queue_name. intros Hc. apply bind_Ok in Hc as (n & _ & Hc).
  apply bind_Ok in Hc as ([] & _ & Hc). cbn zeta in Hc.
  destruct (is_valid_queue_name _) eqn:Ev; [|done]. injection Hc as <- <-. split; [|done].
  assert (Hne : is_empty_str n = false) by (by destruct n).
  destruct (ends_with ".fifo" n).
  - split_and!; [..|done]; (eapply no_char_trim; [|eapply valid_name_no_char; [..|exact Ev]]; done).
  - split_and!; [..|done]; (eapply valid_name_no_char; [..|exact Ev]; done).
Qed.

Lemma new_queue_named st name fifo b attrs now q :
  new_queue st (region st) name fifo b attrs now = Ok q -> plain_name name ->
  fifo = ends_with ".fifo" name -> well_named st q /\ queue_name q = name /\ qids q = [].
Proof.
  intros Hn Hp Hf. unfold new_queue in Hn. apply bind_Ok in Hn as ([] & _ & Hn). cbn zeta in Hn.
  apply bind_Ok in Hn as ([] & _ & [= <-]). done.
Qed.

Lemma wf_insert_queue pid st w w' name q :
  wf pid st w -> uuids w <= uuids w' -> name_to_url st !! name = None ->
  well_named st q -> queue_name q = name -> qids q = [] -> wf pid (insert_queue st name q) w'.
Proof.
  intros Hwf Hw Hfree Hn <- Hids.
  assert (Hnew : queues st !! queue_url q = None).
  { destruct (queues st !! queue_url q) as [q0|] eqn:E; [|done]. exfalso.
    destruct (wf_queue _ _ _ Hwf _ _ E) as (Hu & (_ & Hu0 & _) & Hname).
    destruct Hn as (_ & Hu1 & _). rewrite Hu1, Hu0 in Hu. apply queue_url_for_inj in Hu. congruence. }
  constructor; simpl.
  - intros url q0 Hq. apply lookup_insert_Some in Hq as [[<- <-]|[Hne Hq]].
    + split; [done|]. split; [done|]. apply lookup_insert_eq.
    + destruct (wf_queue _ _ _ Hwf _ _ Hq) as (Hu & Hn0 & Hname). split; [done|]. split; [done|].
      rewrite lookup_insert_ne; [done|]. intros Heq. congruence.
  - intros name url Hname. apply lookup_insert_Some in Hname as [[<- <-]|[Hne Hname]].
    + exists q. split; [apply lookup_insert_eq|done].
    + destruct (wf_name _ _ _ Hwf _ _ Hname) as (q0 & Hq & Hqn). exists q0. split; [|done].
      rewrite lookup_insert_ne; [done|]. intros Heq. congruence.
  - destruct (wf_ids _ _ _ Hwf) as (ns & Hnd & Hr & Hs). exists ns. split_and!; [done|..].
    + eapply Forall_impl; [exact Hr|]. simpl. intros; lia.
    + rewrite sids_values in Hs |- *. simpl. by rewrite (values_insert _ _ _ Hnew), bind_cons, Hids.
  - apply (wf_tasks _ _ _ Hwf).
Qed.

Lemma wf_create_queue pid base_of req st w :
  req_region req = region st -> wf pid st w ->
  let '(st', w', _) := create_queue base_of req st w in wf pid st' w'.
Proof.
  intros Hr Hwf. unfold create_queue. rewrite Hr.
  destruct (create_queue_name (req_body req)) as [[name fifo]|] eqn:En; [|done].
  apply create_queue_name_plain in En as [Hp Hf]. cbn zeta.
  destruct (name_to_url st !! name) as [url|] eqn:Eu; [done|].
  destruct (new_queue _ _ _ _ _ _ _) as [q|] eqn:Eq; [|done].
  destruct (new_queue_named _ _ _ _ _ _ _ Eq Hp Hf) as (Hn & Hqn & Hids).
  by eapply wf_insert_queue.
Qed.

Lemma wf_delete_queue pid req st w : wf pid st w -> wf pid (delete_queue req st).1 w.
Proof.
  intros Hwf. unfold delete_queue. destruct (queue_param _ st) as [[url q]|] eqn:E; [|done].
  apply queue_param_queue in E. destruct (wf_queue _ _ _ Hwf _ _ E) as (Hu & Hnm & Hname).
  constructor; simpl.
  - intros u q0 Hq. apply lookup_delete_Some in Hq as [Hne Hq].
    destruct (wf_queue _ _ _ Hwf _ _ Hq) as (Hu0 & Hn0 & Hname0). split; [done|]. split; [done|].
    apply lookup_delete_Some. split; [|done]. intros Heq. congruence.
  - intros n u Hn. apply lookup_delete_Some in Hn as [Hne Hn].
    destruct (wf_name _ _ _ Hwf _ _ Hn) as (q0 & Hq & Hqn). exists q0. split; [|done].
    apply lookup_delete_Some. split; [|done]. intros Heq. congruence.
  - destruct (wf_ids _ _ _ Hwf) as (ns & Hnd & Hr & Hs). exists ns. split_and!; [done..|].
    rewrite sids_values in Hs |- *. simpl. etransitivity; [|exact Hs].
    rewrite <- (insert_delete_id (queues st) url q E) at 2.
    rewrite values_insert by apply lookup_delete_eq. rewrite bind_cons. by apply submseteq_inserts_l.
  - apply (wf_tasks _ _ _ Hwf).
Qed.

Lemma wf_start pid req st w :
  wf pid st w -> let '(st', w', _, _) := start_message_move_task pid req st w in wf pid st' w'.
Proof.
  intros Hwf. pose proof (frame_start pid req st w) as Hf.
  destruct (start_message_move_task pid req st w) as [[[st' w'] r] mv].
  destruct Hf as (st1 & ts & Hf & -> & Hts). pose proof (wf_frame _ _ _ _ _ Hwf Hf) as [Hq Hn Hi [Hnd Hp]].
  constructor; [done..|]. simpl. destruct Hts as [->|(source & Hfree & ->)]; [done|]. split.
  - apply NoDup_app. split_and!; [done| |apply NoDup_singleton].
    intros sp Hin Hsp. apply list_elem_of_singleton in Hsp as ->. apply Hfree.
    destruct (fr_uuids _ _ _ _ Hf) as [_ Ha]. by eapply elem_of_submseteq.
  - apply Forall_app. split; [done|]. by repeat constructor.
Qed.

Lemma frame_receive_message svc req st w :
  let '(st', w', _) := receive_message svc req st w in frame st w st' w'.
Proof.
  unfold receive_message. destruct (receive_validate _ st) as [p|]; [|apply frame_refl].
  apply frame_receive.
Qed.

Lemma wf_done pid (x : SqsState * World * Result AwsServiceError Value) st' w' r mv :
  (let '(st1, w1, _) := x in wf pid st1 w1) -> done x = Some (st', w', r, mv) -> wf pid st' w'.
Proof. destruct x as [[st1 w1] r1]. by intros ? [= <- <- _ _]. Qed.

Lemma wf_done_same pid w (x : SqsState * Result AwsServiceError Value) st' w' r mv :
  wf pid x.1 w -> done_same w x = Some (st', w', r, mv) -> wf pid st' w'.
Proof. destruct x as [st1 r1]. by intros ? [= <- <- _ _]. Qed.

Lemma wf_done_read pid st w v st' w' r mv :
  wf pid st w -> done_read st w v = Some (st', w', r, mv) -> wf pid st' w'.
Proof. by intros ? [= <- <- _ _]. Qed.

Lemma wf_framed pid st w (x : SqsState * World * Result AwsServiceError Value) :
  wf pid st w -> (let '(st1, w1, _) := x in frame st w st1 w1) ->
  let '(st1, w1, _) := x in wf pid st1 w1.
Proof. destruct x as [[st1 w1] r1]. apply wf_frame. Qed.

Ltac framed :=
  first [ apply frame_send | apply frame_send_batch | apply frame_set_attributes
        | apply frame_visibility | apply frame_visibility_batch | apply frame_delete
        | apply frame_delete_batch | apply frame_purge | apply frame_tag | apply frame_untag
        | apply frame_cancel ].

Lemma wf_handle svc base_of pid action req st w st' w' r mv :
  req_region req = region st -> wf pid st w ->
  handle svc base_of pid action req st w = Some (st', w', r, mv) -> wf pid st' w'.
Proof.
  intros Hr Hwf. unfold handle.
  repeat match goal with
  | |- context [if String.eqb action ?s then _ else _] => destruct (String.eqb action s)
  end;
  try (apply wf_done; eapply wf_framed; [exact Hwf|]; framed);
  try (apply wf_done_same; eapply wf_frame; [exact Hwf|]; framed);
  try (by apply wf_done_read).
  - apply wf_done. by apply wf_create_queue.
  - apply wf_done_same. by apply wf_delete_queue.
  - unfold get_queue_attributes. destruct (queue_param _ st) as [[url q]|]; [|by apply wf_done_read].
    cbn zeta. case_bool_decide; [by apply wf_done_read|].
    destruct (find _ _); [by apply wf_done_read|]. apply wf_done_read.
    eapply wf_frame; [exact Hwf|by apply frame_world].
  - pose proof (frame_receive_message svc req st w) as Hf.
    destruct (receive_message svc req st w) as [[st1 w1] r1]. intros [= <- <- _ _]. by eapply wf_frame.
  - intros Hh. apply bind_Some in Hh as ([st1 r1] & Ha & Hh). eapply wf_done_same; [|exact Hh].
    eapply wf_frame; [exact Hwf|]. by eapply frame_add_permission.
  - intros Hh. apply bind_Some in Hh as ([st1 r1] & Ha & Hh). eapply wf_done_same; [|exact Hh].
    eapply wf_frame; [exact Hwf|]. by eapply frame_remove_permission.
  - pose proof (wf_start pid req st w Hwf) as Hs.
    destruct (start_message_move_task pid req st w) as [[[st1 w1] r1] mv1]. by intros [= <- <- _ _].
  - by intros [= <- <- _ _].
Qed.

Lemma wf_step svc pid x y :
  step svc pid x y -> wf pid x.1 x.2 -> wf pid y.1 y.2.
Proof.
  intros Hstep Hwf. destruct Hstep as [base_of action req st w st' w' r mv Hr Hh
    |hook account a text attrs group dedup st w st' w' r Hd|cancelled mv st w|now st w
    |name st st' n w Hf|st w|st w w' Hu]; simpl in *.
  - by eapply wf_handle.
  - pose proof (frame_deliver_in hook account (region st) a text attrs group dedup st w) as Hf.
    rewrite Hd in Hf. by eapply wf_frame.
  - eapply wf_frame; [exact Hwf|apply frame_mover].
  - eapply wf_frame; [exact Hwf|apply frame_tick].
  - eapply wf_frame; [exact Hwf|]. eapply frame_force_dlq; [by eapply wf_keyed|exact Hf].
  - apply wf_empty.
  - eapply wf_frame; [exact Hwf|by apply frame_world].
Qed.

Lemma reachable_wf_aux svc pid account rg ep x :
  reachable svc pid account rg ep x -> wf pid x.1 x.2.
Proof.
  unfold reachable. revert x. apply (rtc_ind_r (fun x => wf pid x.1 x.2)); [apply wf_empty|]. intros y z _ Hstep Hwf. by eapply wf_step.
Qed.

End Service.

(** ** Resolution *)

(** A rendered URL starts with its scheme. *)
Definition is_http (s : string) : Prop := starts_with "http://" s = true \/ starts_with "https://" s = true.

Lemma last_segment_sep d a b : last_segment d (a +:+ String d b) = last_segment d b.
Proof.
  unfold last_segment. rewrite split_char_sep. rewrite last_app.
  pose proof (split_char_not_nil d b) as Hne. destruct (last (split_char d b)) eqn:E; [done|].
  by apply last_None in E.
Qed.

Lemma last_segment_suffix a b c : last_segment "/" (a +:+ ("/" +:+ b)) = c -> last_segment "/" b = c.
Proof. intros <-. symmetry. apply (last_segment_sep "/" a b). Qed.

Lemma http_not_arn s p0 l :
  starts_with "http" s = true -> split_char ":" s = p0 :: l -> String.eqb p0 "arn" = false.
Proof.
  intros Hs Hp. apply starts_with_spec in Hs as [r ->]. cbn in Hp.
  destruct (split_char ":" r); injection Hp as <- _; by apply String.eqb_neq.
Qed.

(** Trailing slashes do not reach the scheme. *)
Lemma trim_keeps_prefix fuel a c b :
  Ascii.eqb c "/" = false -> exists b', trim_end_matches fuel "/" (a +:+ String c b) = a +:+ String c b'.
Proof.
  intros Hc. revert b. induction fuel as [|fuel IH]; intros b; cbn [trim_end_matches]; [by exists b|].
  destruct (strip_suffix "/" (a +:+ String c b)) as [r|] eqn:E; [|by exists b].
  assert (exists b0, r = a +:+ String c b0) as [b0 ->]; [|apply IH].
  apply strip_suffix_Some in E. revert r E. clear IH. induction a as [|x a IHa]; intros r E.
  - destruct r as [|y r]; simpl in E; injection E as -> E; [done|]. by exists r.
  - destruct r as [|y r]; simpl in E; injection E as -> E; [by destruct a|].
    destruct (IHa r E) as [b0 ->]. by exists b0.
Qed.

Lemma trim_slashes_http base : starts_with "http" base = true -> starts_with "http" (trim_slashes base) = true.
Proof.
  intros Hb. apply starts_with_spec in Hb as [r ->]. unfold trim_slashes.
  destruct (trim_keeps_prefix (String.length ("http" +:+ r)) "htt" "p" r eq_refl) as [b Hb].
  apply starts_with_spec. exists b. exact Hb.
Qed.

(** Rendering replaces what precedes the first slash after the scheme. *)
Lemma render_authority_path rest base x y :
  rest = x +:+ String "/" y ->
  exists a path, rest = a +:+ String "/" path /\ render_authority rest base = base +:+ String "/" path.
Proof.
  intros ->. unfold render_authority. destruct (split_at_needle "/" _) as [[a path]|] eqn:E.
  - exists a, path. by apply split_at_needle_Some in E.
  - apply (split_sep_None "/") in E. unfold no_char in E. rewrite string_forallb_app in E.
    by rewrite andb_comm in E.
Qed.

Lemma render_http ep x base :
  is_http ep ->
  exists a path, ep +:+ String "/" x = a +:+ String "/" path
    /\ render_queue_url (ep +:+ String "/" x) base = trim_slashes base +:+ String "/" path.
Proof.
  intros [He|He]; apply starts_with_spec in He as [r ->]; rewrite string_app_assoc;
    destruct (render_authority_path _ (trim_slashes base) r x eq_refl) as (a & path & Hx & Hy).
  - exists ("http://" +:+ a), path. by rewrite string_app_assoc, <- Hx.
  - exists ("https://" +:+ a), path. by rewrite string_app_assoc, <- Hx.
Qed.

Section Resolution.
Context `{Host}.
Context (pid : Z) (st : SqsState) (w : World) (Hwf : wf pid st w).

Lemma url_last url q : queues st !! url = Some q -> last_segment "/" url = queue_name q.
Proof.
  intros Hq. destruct (wf_queue _ _ _ Hwf _ _ Hq) as (Hu & ((Hp & _) & Hf & _) & _).
  rewrite Hu, Hf. unfold queue_url_for.
  rewrite <- (last_segment_app "/" (endpoint st +:+ "/" +:+ account_id st) (queue_name q) Hp) at 2.
  by rewrite !string_app_assoc.
Qed.

Lemma same_name url url' q q' :
  queues st !! url = Some q -> queues st !! url' = Some q' -> queue_name q = queue_name q' -> url = url'.
Proof.
  intros Hq Hq' Hn. destruct (wf_queue _ _ _ Hwf _ _ Hq) as (_ & _ & Hu).
  destruct (wf_queue _ _ _ Hwf _ _ Hq') as (_ & _ & Hu'). congruence.
Qed.

Lemma name_has_no_slash name url : name_to_url st !! name = Some url -> no_char "/" name = true.
Proof.
  intros Hn. destruct (wf_name _ _ _ Hwf _ _ Hn) as (q & Hq & <-).
  by destruct (wf_queue _ _ _ Hwf _ _ Hq) as (_ & ((? & _) & _) & _).
Qed.

Lemma url_has_slash url q : queues st !! url = Some q -> no_char "/" url = false.
Proof.
  intros Hq. destruct (wf_queue _ _ _ Hwf _ _ Hq) as (Hu & (_ & Hf & _) & _). rewrite Hu, Hf.
  unfold queue_url_for, no_char. rewrite string_forallb_app. simpl. apply andb_false_r.
Qed.

(** Any text whose last segment is the queue's name, unless it reads as an ARN. *)
Lemma resolve_by_last_segment input url q :
  queues st !! url = Some q -> no_char "/" input = false -> last_segment "/" input = queue_name q ->
  (forall p0 l, split_char ":" input = p0 :: l -> String.eqb p0 "arn" = false) ->
  resolve_queue_url input st = Some url.
Proof.
  intros Hq Hs Hl Harn. unfold resolve_queue_url. case_bool_decide as Hin.
  { destruct Hin as [q' Hq']. f_equal. eapply same_name; [done|done|].
    by rewrite <- (url_last _ _ Hq'), Hl. }
  assert (Hn : name_to_url st !! input = None).
  { destruct (name_to_url st !! input) eqn:E; [|done]. apply name_has_no_slash in E. congruence. }
  destruct (wf_queue _ _ _ Hwf _ _ Hq) as (_ & _ & Hname).
  rewrite Hn, Hl, Hname. destruct (split_char ":" input) as [|p0 l] eqn:E; [done|].
  rewrite (Harn p0 l eq_refl). by do 6 (destruct l as [|? l]; [done|]).
Qed.

Lemma resolve_by_name url q : queues st !! url = Some q -> resolve_queue_url (queue_name q) st = Some url.
Proof.
  intros Hq. destruct (wf_queue _ _ _ Hwf _ _ Hq) as (_ & ((Hs & Hc & _) & _) & Hname).
  unfold resolve_queue_url. rewrite bool_decide_false.
  - by rewrite Hname, split_char_no.
  - intros [q' Hq']. apply url_has_slash in Hq'. congruence.
Qed.

Lemma resolve_by_arn url q :
  plain_name (region st) -> plain_name (account_id st) -> queues st !! url = Some q ->
  resolve_queue_url (arn q) st = Some url.
Proof.
  intros (Hr1 & Hr2 & _) (Ha1 & Ha2 & _) Hq.
  destruct (wf_queue _ _ _ Hwf _ _ Hq) as (_ & ((Hs & Hc & Hne) & _ & Harn & _) & Hname).
  assert (Hp : no_char "/" (Arn.partition_for (region st)) = true
               /\ no_char ":" (Arn.partition_for (region st)) = true)
    by (unfold Arn.partition_for; by repeat case_match).
  destruct Hp as [Hp1 Hp2]. unfold resolve_queue_url. rewrite bool_decide_false.
  - rewrite Harn. unfold queue_arn_for.
    change (split_char ":" _) with
      (split_char ":" ("arn" +:+ String ":" (Arn.partition_for (region st) +:+ String ":"
         ("sqs" +:+ String ":" (region st +:+ String ":" (account_id st +:+ String ":" (queue_name q))))))).
    rewrite !split_char_sep, !split_char_no by done. simpl. rewrite !String.eqb_refl. simpl.
    destruct (queue_name q); [done|]. simpl. by rewrite Hname.
  - intros [q' Hq']. apply url_has_slash in Hq'. rewrite Harn in Hq'. unfold queue_arn_for, no_char in *.
    rewrite !string_forallb_app, Hr1, Ha1, Hs, Hp1 in Hq'. done.
Qed.

(** The URL a client sees, rendered for the host it called. *)
Lemma resolve_rendered base url q :
  is_http (endpoint st) -> starts_with "http" base = true -> queues st !! url = Some q ->
  resolve_queue_url (render_queue_url url base) st = Some url.
Proof.
  intros He Hb Hq. pose proof (url_last _ _ Hq) as Hlast.
  destruct (wf_queue _ _ _ Hwf _ _ Hq) as (Hu & (_ & Hf & _) & _).
  destruct (render_http _ (account_id st +:+ "/" +:+ queue_name q) base He) as (a & path & Hx & Hy).
  assert (Hurl : url = a +:+ String "/" path) by (rewrite Hu, Hf; exact Hx).
  apply (resolve_by_last_segment _ _ q); [done|..];
    (replace (render_queue_url url base) with (trim_slashes base +:+ String "/" path)
       by (rewrite Hu, Hf; symmetry; exact Hy)).
  - unfold no_char. rewrite string_forallb_app. simpl. apply andb_false_r.
  - rewrite <- Hlast, Hurl. by rewrite !last_segment_sep.
  - intros p0 l. apply http_not_arn. apply trim_slashes_http, starts_with_spec in Hb as [r ->].
    apply starts_with_spec. eexists. apply string_app_assoc.
Qed.

Lemma find_by_resolve input url q :
  resolve_queue_url input st = Some url -> queues st !! url = Some q -> find_queue input st = Ok (url, q).
Proof. intros Hr Hq. unfold find_queue. rewrite Hr. simpl. by rewrite Hq. Qed.

End Resolution.

Lemma wf_NoDup `{Host} pid st w :
  (forall i j, new_v4 i = new_v4 j -> i = j) -> wf pid st w -> NoDup (sids st).
Proof.
  intros Hinj Hwf. destruct (wf_ids _ _ _ Hwf) as (ns & Hnd & _ & Hs).
  eapply submseteq_NoDup; [exact Hs|]. apply (NoDup_fmap_2_strong new_v4); [|done].
  intros i j _ _. apply Hinj.
Qed.

(** The queue of a name that [create_queue] accepted. *)
Lemma created_by_name `{Host} `{SerdeJson} `{SerdePrint} pid base_of req st w st' w' v :
  wf pid st w -> create_queue base_of req st w = (st', w', Ok v) ->
  exists url q, queues st' !! url = Some q
    /\ as_str (index (req_body req) "QueueName") = Some (queue_name q)
    /\ v = queue_url_response (render_queue_url url (base_of (endpoint st))).
Proof.
  intros Hwf Hc. unfold create_queue in Hc.
  destruct (create_queue_name (req_body req)) as [[name fifo]|] eqn:En; [|done].
  assert (Hname : as_str (index (req_body req) "QueueName") = Some name).
  { unfold create_queue_name in En. apply bind_Ok in En as (n & Hn & En).
    apply ok_or_Ok in Hn. apply bind_Ok in En as ([] & _ & En). cbn zeta in En.
    destruct (is_valid_queue_name _); [|done]. by injection En as <- _. }
  cbn zeta in Hc. destruct (name_to_url st !! name) as [url|] eqn:Eu.
  - destruct (wf_name _ _ _ Hwf _ _ Eu) as (q & Hq & <-). rewrite Hq in Hc.
    destruct (create_conflicts _ _); [done|]. injection Hc as <- _ <-. by exists url, q.
  - destruct (new_queue _ _ _ _ _ _ _) as [q|] eqn:Eq; [|done]. injection Hc as <- _ <-.
    exists (queue_url q), q. split; [apply lookup_insert_eq|]. split; [|done].
    unfold new_queue in Eq. apply bind_Ok in Eq as ([] & _ & Eq). cbn zeta in Eq.
    by apply bind_Ok in Eq as ([] & _ & [= <-]).
Qed.

(** ** Properties *)

(** C25 (invariant) In every state one region's queues can reach by requests,
    background operations, deliveries, mover iterations and resets, in any
    order: each queue is stored under the URL of its name and has the ARN and
    kind of its name; names and URLs correspond; the active move tasks belong
    to this process and no two have the same source; and no two messages,
    queued or in flight in any queue, have the same id. *)
Theorem reachable_invariant `{Host} `{SerdeJson} `{SerdePrint} `{TokenCodec} svc pid account rg ep st w
  (Huuid : forall i j, new_v4 i = new_v4 j -> i = j)
  (Hreach : reachable svc pid account rg ep (st, w)) :
  wf pid st w /\ NoDup (message_id <$> contents st).
Proof.
  pose proof (reachable_wf_aux _ _ _ _ _ _ Hreach) as Hwf. split; [done|].
  exact (wf_NoDup pid st w Huuid Hwf).
Qed.

(** Theorem (functional) In every reachable state a queue is found by its URL, its
    name, its ARN, and its URL as rendered for any [http] or [https] base. *)
Theorem queue_resolves `{Host} `{SerdeJson} `{SerdePrint} `{TokenCodec} svc pid account rg ep st w url q base
  (Hreach : reachable svc pid account rg ep (st, w))
  (Hregion : plain_name (region st)) (Haccount : plain_name (account_id st))
  (Hendpoint : is_http (endpoint st)) (Hbase : starts_with "http" base = true)
  (Hq : queues st !! url = Some q) :
  Forall (fun input => find_queue input st = Ok (url, q))
    [url; queue_name q; arn q; render_queue_url url base].
Proof.
  pose proof (reachable_wf_aux _ _ _ _ _ _ Hreach) as Hwf. simpl in Hwf.
  repeat constructor; (apply find_by_resolve; [|done]).
  - unfold resolve_queue_url. by rewrite bool_decide_true by (by exists q).
  - by eapply resolve_by_name.
  - by eapply resolve_by_arn.
  - by eapply resolve_rendered.
Qed.

(** Theorem (functional) The URL that [CreateQueue] answers, and the one that
    [GetQueueUrl] answers, resolves to the queue with the requested name, for
    whichever host the client called. *)
Theorem answered_url_resolves `{Host} `{SerdeJson} `{SerdePrint} `{TokenCodec}
  svc pid account rg ep st w base_of req
  (Hreach : reachable svc pid account rg ep (st, w)) (Hregion : req_region req = region st)
  (Hendpoint : is_http (endpoint st)) (Hbase : forall e, starts_with "http" (base_of e) = true) :
  let names input st' := exists url q, find_queue input st' = Ok (url, q)
    /\ as_str (index (req_body req) "QueueName") = Some (queue_name q) in
  (forall st' w' v, create_queue base_of req st w = (st', w', Ok v) ->
     exists input, v = queue_url_response input /\ names input st')
  /\ (forall v, get_queue_url base_of req st = Ok v ->
        exists input, v = queue_url_response input /\ names input st).
Proof.
  intros names. pose proof (reachable_wf_aux _ _ _ _ _ _ Hreach) as Hwf. simpl in Hwf.
  split.
  - intros st' w' v Hc. pose proof (wf_create_queue pid base_of req st w Hregion Hwf) as Hwf'.
    destruct (created_by_name pid base_of req st w st' w' v Hwf Hc) as (url & q & Hq & Hn & ->).
    assert (He : endpoint st' = endpoint st).
    { clear - Hc. unfold create_queue in Hc. cbn zeta in Hc.
      by repeat case_match; simplify_eq. }
    rewrite Hc in Hwf'. eexists. split; [done|]. exists url, q. split; [|done].
    apply find_by_resolve; [|done]. eapply resolve_rendered; [done|by rewrite He|done|done].
  - intros v Hg. unfold get_queue_url in Hg. apply bind_Ok in Hg as (name & Hn & Hg).
    apply ok_or_Ok in Hn. apply bind_Ok in Hg as (url & Hu & [= <-]). apply ok_or_Ok in Hu.
    destruct (wf_name _ _ _ Hwf _ _ Hu) as (q & Hq & <-). eexists. split; [done|].
    exists url, q. split; [|done]. apply find_by_resolve; [|done]. by eapply resolve_rendered.
Qed.

(** ** A reachable state: one queue with one message *)

#[local] Existing Instance demo_host.

Definition demo_json : SerdeJson := {| json_from_str := fun _ => None; json_float_to_string := fun _ => "" |}%string.
Definition demo_print : SerdePrint := {| json_to_string := fun _ => None |}.
Definition demo_codec : TokenCodec := {| token_encode := fun s => "t" +:+ s; token_decode := strip_prefix "t" |}.

#[local] Existing Instances demo_json demo_print demo_codec.

Definition demo_request (members : list (string * Value)) : Request := mkRequest "a" "r" (VObject members).

Definition create_request : Request := demo_request [("QueueName"%string, VString "q")].
Definition send_request : Request :=
  demo_request [("QueueUrl"%string, VString "q"); ("MessageBody"%string, VString "text")].

Definition local_base (_ : string) : string := "http://localhost:4566".

Definition demo_start : SqsState * World := (new_state "a" "r" "http://h:1", mkWorld 0 0 0).

(** The state after an action. *)
Definition after (action : string) (req : Request) (x : SqsState * World) : SqsState * World :=
  match handle plain_service local_base 7 action req x.1 x.2 with
  | Some (st, w, _, _) => (st, w)
  | None => x
  end.

Definition demo_sent : SqsState * World :=
  after "SendMessage" send_request (after "CreateQueue" create_request demo_start).

Lemma after_reachable action req x :
  req_region req = region x.1 ->
  reachable plain_service 7 "a" "r" "http://h:1" x ->
  reachable plain_service 7 "a" "r" "http://h:1" (after action req x).
Proof.
  intros Hr Hx. unfold reachable in *. etransitivity; [exact Hx|]. destruct x as [st w]. unfold after. simpl in *.
  destruct (handle plain_service local_base 7 action req st w) as [[[[st' w'] r] mv]|] eqn:E;
    [|apply rtc_refl].
  apply rtc_once. by eapply step_request.
Qed.

Lemma demo_reachable : reachable plain_service 7 "a" "r" "http://h:1" (demo_sent.1, demo_sent.2).
Proof.
  rewrite <- surjective_pairing. apply after_reachable; [by vm_compute|].
  apply after_reachable; [by vm_compute|]. apply rtc_refl.
Qed.

Lemma demo_uuid i j : new_v4 i = new_v4 j -> i = j.
Proof.
  simpl. intros [= Heq]. apply print_Z_inj in Heq; lia.
Qed.

Lemma reachable_invariant_witness :
  (wf 7 demo_sent.1 demo_sent.2 /\ NoDup (message_id <$> contents demo_sent.1))
  /\ (message_id <$> contents demo_sent.1) = ["id-0"%string].
Proof.
  split; [|vm_compute; reflexivity].
  apply (reachable_invariant plain_service 7 "a" "r" "http://h:1" demo_sent.1 demo_sent.2).
  - exact demo_uuid.
  - exact demo_reachable.
Defined.

Definition demo_url : string := "http://h:1/a/q".

Lemma queue_resolves_witness :
  exists q, queues demo_sent.1 !! demo_url = Some q
  /\ Forall (fun input => find_queue input demo_sent.1 = Ok (demo_url, q))
       [demo_url; queue_name q; arn q; render_queue_url demo_url "https://x:2/"].
Proof.
  destruct (queues demo_sent.1 !! demo_url) as [q|] eqn:E; [|vm_compute in E; discriminate].
  exists q. split; [done|].
  apply (queue_resolves plain_service 7 "a" "r" "http://h:1" demo_sent.1 demo_sent.2 demo_url q "https://x:2/").
  - exact demo_reachable.
  - vm_compute. done.
  - vm_compute. done.
  - left. vm_compute. done.
  - vm_compute. done.
  - exact E.
Defined.

Lemma answered_url_resolves_witness :
  exists input, get_queue_url local_base create_request demo_sent.1 = Ok (queue_url_response input)
  /\ exists url q, find_queue input demo_sent.1 = Ok (url, q) /\ queue_name q = "q"%string.
Proof.
  exists "http://localhost:4566/a/q"%string. split; [vm_compute; reflexivity|].
  destruct (answered_url_resolves plain_service 7 "a" "r" "http://h:1" demo_sent.1 demo_sent.2
              local_base create_request) as [_ Hget].
  - exact demo_reachable.
  - vm_compute. reflexivity.
  - left. vm_compute. reflexivity.
  - intros e. vm_compute. reflexivity.
  - destruct (Hget (queue_url_response "http://localhost:4566/a/q")) as (input & Heq & url & q & Hf & Hn).
    + vm_compute. reflexivity.
    + injection Heq as <-. exists url, q. split; [exact Hf|]. by injection Hn.
Defined.

End SqsSystemTheory.
