(* ===== verification/SqsMoveTheory.v ===== *)
(** * SQS message moves conserve messages and finish

    What [StartMessageMoveTask] and the background mover do to the messages:
    none is lost or duplicated, a mover whose targets exist and are not its
    source drains it in one iteration per message and one more, and one whose
    destination is its source never finishes. *)

From Stdlib Require Import ZArith Lia Bool String Ascii.
From stdpp Require Import base option list strings gmap.
From S2P Require Import Prelude Json Arn BTree MultiAccount Sqs SqsSend SqsReceive SqsQueues SqsMoves.
From S2P Require Import SqsDeliver SqsTheory SqsOrder SqsSystem SqsSystemTheory.

Module SqsMoveTheory.
Import Sqs SqsSend SqsReceive SqsQueues SqsMoves SqsDeliver SqsTheory SqsOrder SqsSystem SqsSystemTheory.

(** ** Running a mover *)

(** Iterations with no cancellation and no request in between. *)
Fixpoint run_mover (fuel : nat) (mv : Mover) (st : SqsState) : SqsState * option Mover :=
  match fuel with
  | 0 => (st, Some mv)
  | S fuel =>
      match mover_iteration false mv st with
      | (st, Some mv) => run_mover fuel mv st
      | (st, None) => (st, None)
      end
  end.

(** The queues the mover may move to exist, and [P] holds of their URLs. *)
Definition targets_in (P : string -> Prop) (mv : Mover) (st : SqsState) : Prop :=
  match mv_dest mv with
  | Some d => has_arn st d /\ forall url q, queues st !! url = Some q -> arn q = d -> P url
  | None => mv_targets mv <> [] /\ Forall (fun u => is_Some (queues st !! u) /\ P u) (mv_targets mv)
  end.

Lemma similar_keyed st st' : similar st st' -> keyed st -> keyed st'.
Proof.
  intros (_ & _ & Hq) Hk url q' Hq'. specialize (Hq url). rewrite Hq' in Hq. simpl in Hq.
  destruct (queues st !! url) as [q|] eqn:E; [|done]. simpl in Hq. apply (inj Some) in Hq.
  unfold ident in Hq. injection Hq as _ Hu _ _. rewrite Hu. by apply Hk.
Qed.

Lemma similar_lookup st st' url q' :
  similar st st' -> queues st' !! url = Some q' -> exists q, queues st !! url = Some q /\ arn q' = arn q.
Proof.
  intros (_ & _ & Hq) Hq'. specialize (Hq url). rewrite Hq' in Hq. simpl in Hq.
  destruct (queues st !! url) as [q|]; [|done]. exists q. split; [done|]. apply (inj Some) in Hq.
  unfold ident in Hq. by injection Hq as _ _ -> _.
Qed.

Lemma similar_sym st st' : similar st st' -> similar st' st.
Proof. intros (He & Ht & Hq). split_and!; [done|done|]. intros url. by rewrite Hq. Qed.

Lemma similar_has_arn st st' a : similar st st' -> has_arn st a -> has_arn st' a.
Proof.
  intros Hs (url & q & Hq & <-). destruct (similar_lookup _ _ _ _ (similar_sym _ _ Hs) Hq) as (q' & Hq' & Ha).
  exists url, q'. split; [done|congruence].
Qed.

Lemma similar_is_Some st st' url : similar st st' -> is_Some (queues st !! url) -> is_Some (queues st' !! url).
Proof.
  intros (_ & _ & Hq) [q Hs]. specialize (Hq url). rewrite Hs in Hq.
  destruct (queues st' !! url); [by eexists|done].
Qed.

Lemma targets_in_similar P mv st st' : similar st st' -> targets_in P mv st -> targets_in P mv st'.
Proof.
  intros Hs. unfold targets_in. destruct (mv_dest mv) as [d|].
  - intros [Ha Hp]. split; [by eapply similar_has_arn|]. intros url q' Hq' <-.
    destruct (similar_lookup _ _ _ _ Hs Hq') as (q & Hq & Harn). by eapply Hp.
  - intros [Hne Hf]. split; [done|]. eapply Forall_impl; [exact Hf|]. intros u [Hu Hp].
    split; [by eapply similar_is_Some|done].
Qed.

Lemma mover_target_in P mv st :
  keyed st -> targets_in P mv st ->
  exists u tq, mover_target mv st = Some u /\ queues st !! u = Some tq /\ P u.
Proof.
  intros Hk. unfold targets_in, mover_target. destruct (mv_dest mv) as [d|].
  - intros [Ha Hp]. destruct (url_of_arn st d) as [[url q]|] eqn:E; [|by apply url_of_arn_None in E].
    apply url_of_arn_Some in E as [Hq Harn]. exists url, q. simpl. rewrite (Hk _ _ Hq).
    rewrite bool_decide_true by (by exists q). split; [done|]. split; [done|]. by eapply Hp.
  - intros [Hne Hf]. destruct (mv_targets mv) as [|t ts]; [done|].
    assert (Hlt : mv_idx mv mod length (t :: ts) < length (t :: ts)) by (apply Nat.mod_upper_bound; done).
    apply lookup_lt_is_Some in Hlt as [u Hu]. rewrite Forall_forall in Hf.
    destruct (Hf u) as [[tq Htq] Hp]; [by eapply list_elem_of_lookup_2|].
    exists u, tq. change ((t :: ts) !! (mv_idx mv mod length (t :: ts)) ≫= (fun v => if bool_decide (is_Some (queues st !! v)) then Some v else None) = Some u /\ queues st !! u = Some tq /\ P u).
    rewrite Hu. simpl. by rewrite bool_decide_true by (by exists tq).
Qed.

(** Popping the head of one queue and pushing it, with a fresh count, on
    another (or the same). *)
Lemma pop_push_contents st url q m rest u tq :
  queues st !! url = Some q -> messages q = m :: rest ->
  let st1 := put_queue st url (with_lists q rest (inflight q)) in
  queues st1 !! u = Some tq ->
  contents (put_queue st1 u (push_back tq (moved_message m))) ≡ₚ contents st.
Proof.
  intros Hq Hm st1 Hu. rewrite (contents_push _ _ _ _ Hu).
  destruct (contents_split _ _ _ Hq) as (r & -> & Hput). unfold st1. rewrite Hput.
  rewrite queue_contents_lists. unfold queue_contents. rewrite Hm, fmap_app. done.
Qed.

(** One more message on the task's count. *)
Definition count_move (t : MessageMoveTask) : MessageMoveTask :=
  set_task t (task_status t) (u64_add (messages_moved t) 1) (failure_reason t) (driver_pid t)
    (cancel_flag t).

Definition next_mover (mv : Mover) : Mover :=
  mkMover (mv_handle mv) (mv_source mv) (mv_dest mv) (mv_targets mv)
    (match mv_dest mv with None => S (mv_idx mv) | Some _ => mv_idx mv end).

Lemma mover_iteration_moves P mv st src m rest :
  keyed st -> targets_in P mv st -> queues st !! mv_source mv = Some src -> messages src = m :: rest ->
  exists st' u tq, P u
    /\ mover_iteration false mv st = (st', Some (next_mover mv))
    /\ (let st1 := put_queue st (mv_source mv) (with_lists src rest (inflight src)) in
        queues st1 !! u = Some tq
        /\ st' = with_tasks (put_queue st1 u (push_back tq (moved_message m)))
                   (update_task (mv_handle mv) count_move (message_move_tasks st)))
    /\ keyed st' /\ targets_in P (next_mover mv) st' /\ contents st' ≡ₚ contents st.
Proof.
  intros Hk Ht Hs Hm. destruct (mover_target_in P mv st Hk Ht) as (u & tq0 & Hu & Hq0 & Hp).
  set (st1 := put_queue st (mv_source mv) (with_lists src rest (inflight src))).
  assert (Hs1 : similar st st1) by (by eapply similar_put).
  destruct (similar_is_Some _ _ u Hs1) as [tq Htq]; [by exists tq0|].
  assert (Hs2 : similar st1 (put_queue st1 u (push_back tq (moved_message m)))) by (by eapply similar_put).
  pose proof (similar_trans _ _ _ Hs1 Hs2) as Hs3.
  eexists _, u, tq. split; [done|]. split.
  { unfold mover_iteration. rewrite Hs. unfold move_one. rewrite Hu, Hm.
    fold st1. cbn zeta. rewrite Htq. reflexivity. }
  split; [done|]. split; [exact (similar_keyed _ _ Hs3 Hk)|].
  split; [exact (targets_in_similar P mv _ _ Hs3 Ht)|]. by apply (pop_push_contents st _ src m rest).
Qed.

Lemma mover_iteration_drained P mv st src :
  keyed st -> targets_in P mv st -> queues st !! mv_source mv = Some src -> messages src = [] ->
  mover_iteration false mv st = (finalize_move_task st (mv_handle mv) Completed, None).
Proof.
  intros Hk Ht Hs Hm. destruct (mover_target_in P mv st Hk Ht) as (u & tq0 & Hu & _).
  unfold mover_iteration. by rewrite Hs; unfold move_one; rewrite Hu, Hm.
Qed.

Lemma update_task_compose handle f g ts :
  (forall t, task_handle (g t) = task_handle t) ->
  update_task handle f (update_task handle g ts) = update_task handle (fun t => f (g t)) ts.
Proof.
  intros Hg. induction ts as [|t ts IH]; [done|]. cbn [update_task].
  destruct (String.eqb (task_handle t) handle) eqn:E; cbn [update_task]; rewrite ?Hg, E; congruence.
Qed.

Lemma update_task_ext handle f g ts :
  (forall t, f t = g t) -> update_task handle f ts = update_task handle g ts.
Proof.
  intros Hfg. induction ts as [|t ts IH]; [done|]. cbn [update_task]. by rewrite Hfg, IH.
Qed.

(** The task once [n] messages are moved and the source is drained. *)
Definition completed (n : nat) (t : MessageMoveTask) : MessageMoveTask :=
  set_task t Completed (Nat.iter n (fun z => u64_add z 1) (messages_moved t)) (failure_reason t)
    (driver_pid t) (cancel_flag t).

Lemma completed_succ n t : completed n (count_move t) = completed (S n) t.
Proof.
  unfold completed, count_move, set_task. simpl. f_equal.
  induction n as [|n IH]; [done|]. simpl. by rewrite IH.
Qed.

Lemma mover_drains_aux n mv st src :
  keyed st -> targets_in (fun u => u <> mv_source mv) mv st ->
  queues st !! mv_source mv = Some src -> length (messages src) = n ->
  exists st', run_mover (S n) mv st = (st', None)
    /\ contents st' ≡ₚ contents st
    /\ queues st' !! mv_source mv = Some (with_lists src [] (inflight src))
    /\ message_move_tasks st' = update_task (mv_handle mv) (completed n) (message_move_tasks st).
Proof.
  revert mv st src. induction n as [|n IH]; intros mv st src Hk Ht Hs Hl.
  - apply nil_length_inv in Hl. eexists. cbn [run_mover].
    rewrite (mover_iteration_drained _ _ _ _ Hk Ht Hs Hl). split; [done|]. split; [done|].
    split; [|done]. simpl. rewrite Hs. f_equal. destruct src. simpl in *. by subst.
  - destruct (messages src) as [|m rest] eqn:Hm; [done|].
    destruct (mover_iteration_moves _ _ _ _ _ _ Hk Ht Hs Hm)
      as (st1 & u & tq & Hne & Hit & [Htq Heq] & Hk1 & Ht1 & Hc).
    destruct (IH (next_mover mv) st1 (with_lists src rest (inflight src))) as (st' & Hrun & Hc' & Hq' & Hts).
    + done.
    + exact Ht1.
    + rewrite Heq. simpl. rewrite lookup_insert_ne by done. apply lookup_insert_eq.
    + simpl in *. lia.
    + exists st'. split; [|split; [by rewrite Hc', Hc|split; [exact Hq'|]]].
      * change (run_mover (S (S n)) mv st) with
          (match mover_iteration false mv st with
           | (st, Some mv) => run_mover (S n) mv st | (st, None) => (st, None) end).
        by rewrite Hit.
      * rewrite Hts, Heq. cbn [message_move_tasks with_tasks mv_handle next_mover].
        rewrite update_task_compose by done. apply update_task_ext. intros t. apply completed_succ.
Qed.

Lemma self_move_aux n mv st src :
  keyed st -> targets_in (fun u => u = mv_source mv) mv st ->
  queues st !! mv_source mv = Some src -> messages src <> [] ->
  exists st' mv' src', run_mover n mv st = (st', Some mv')
    /\ queues st' !! mv_source mv = Some src' /\ length (messages src') = length (messages src).
Proof.
  revert mv st src. induction n as [|n IH]; intros mv st src Hk Ht Hs Hne; [by exists st, mv, src|].
  destruct (messages src) as [|m rest] eqn:Hm; [done|].
  destruct (mover_iteration_moves _ _ _ _ _ _ Hk Ht Hs Hm)
    as (st1 & u & tq & -> & Hit & [Htq Heq] & Hk1 & Ht1 & _).
  cbn [run_mover]. rewrite Hit. simpl in Htq. rewrite lookup_insert_eq in Htq. injection Htq as <-.
  assert (Hs1 : exists src1, queues st1 !! mv_source mv = Some src1
            /\ messages src1 = rest ++ [moved_message m]).
  { rewrite Heq. simpl. rewrite lookup_insert_eq. by eexists. }
  destruct Hs1 as (src1 & Hs1 & Hm1).
  destruct (IH (next_mover mv) st1 src1) as (st' & mv' & src' & Hrun & Hq' & Hl); [done..| |].
  { rewrite Hm1. by destruct rest. }
  exists st', mv', src'. split; [done|]. split; [done|]. rewrite Hl, Hm1, length_app. simpl. lia.
Qed.

(** ** Moves without a rate *)

Lemma drain_contents targets idx msgs st moved :
  targets <> [] -> Forall (fun u => is_Some (queues st !! u)) targets ->
  let '(st', n) := drain_to targets idx msgs st moved in
  contents st' ≡ₚ contents st ++ (erase <$> msgs) /\ similar st st' /\ (n = moved + Z.of_nat (length msgs))%Z.
Proof.
  intros Hne. revert idx st moved. induction msgs as [|m l IH]; intros idx st moved Hf.
  { simpl. split; [by rewrite app_nil_r|]. split; [apply similar_refl|lia]. }
  cbn [drain_to].
  assert (Hlt : idx mod length targets < length targets)
    by (apply Nat.mod_upper_bound; by destruct targets).
  apply lookup_lt_is_Some in Hlt as [u Hu]. rewrite Hu. simpl. pose proof Hf as Hf0.
  rewrite Forall_forall in Hf0. destruct (Hf0 u) as [tq Htq]; [by eapply list_elem_of_lookup_2|].
  rewrite Htq. simpl. set (st1 := put_queue st u (push_back tq (moved_message m))).
  assert (Hs : similar st st1) by (by eapply similar_put).
  specialize (IH (S idx) st1 (moved + 1)%Z).
  destruct (drain_to targets (S idx) l st1 (moved + 1)) as [st' n].
  destruct IH as (Hc & Hs' & Hn).
  { eapply Forall_impl; [exact Hf|]. intros v. by apply similar_is_Some. }
  split; [|split; [by eapply similar_trans|simpl in *; lia]].
  rewrite Hc. unfold st1. rewrite (contents_push _ _ _ _ Htq). simpl. by rewrite <- Permutation_middle.
Qed.

Section Start.
Context `{Host}.

(** What the checks establish about the queues of a move. *)
Lemma move_validate_Ok b pid st r :
  keyed st -> move_validate b pid st = Ok r ->
  is_Some (queues st !! mr_source_url r)
  /\ (forall d, mr_dest r = Some d -> has_arn st d)
  /\ mr_dlq_sources r <> []
  /\ Forall (fun u => is_Some (queues st !! u)) (mr_dlq_sources r).
Proof.
  intros Hk Hv. unfold move_validate in Hv. apply bind_Ok in Hv as (source & _ & Hv). cbn zeta in Hv.
  apply bind_Ok in Hv as ([] & _ & Hv). apply bind_Ok in Hv as ([u src] & Hsrc & Hv).
  apply ok_or_Ok, url_of_arn_Some in Hsrc as [Hsrc _].
  apply bind_Ok in Hv as ([] & Hne & Hv). apply bind_Ok in Hv as ([] & Hdest & Hv).
  apply bind_Ok in Hv as ([] & _ & [= <-]). simpl. split_and!.
  - rewrite (Hk _ _ Hsrc). by exists src.
  - intros d Hd. rewrite Hd in Hdest. destruct (url_of_arn st d) as [[v q]|] eqn:E; [|done].
    apply url_of_arn_Some in E as [Hq Ha]. by exists v, q.
  - by case_bool_decide.
  - apply Forall_forall. intros v Hv. apply list_elem_of_fmap in Hv as (q & -> & Hq).
    unfold dlq_source_queues in Hq. apply list_elem_of_filter in Hq as [_ Hq].
    unfold BTree.values in Hq. apply list_elem_of_fmap in Hq as ([k q'] & -> & Hq).
    apply BTree.elem_of_iter in Hq. simpl. rewrite (Hk _ _ Hq). by exists q'.
Qed.

(** Emptying the source and draining it to the targets. *)
Lemma drain_source st url q targets :
  queues st !! url = Some q -> targets <> [] -> Forall (fun u => is_Some (queues st !! u)) targets ->
  let '(st', n) := drain_to targets 0 (messages q) (put_queue st url (with_lists q [] (inflight q))) 0 in
  contents st' ≡ₚ contents st /\ similar st st' /\ n = Z.of_nat (length (messages q)).
Proof.
  intros Hq Hne Hf. set (st1 := put_queue st url (with_lists q [] (inflight q))).
  assert (Hs1 : similar st st1) by (by eapply similar_put).
  pose proof (drain_contents targets 0 (messages q) st1 0 Hne) as Hd.
  destruct (drain_to targets 0 (messages q) st1 0) as [st' n].
  destruct Hd as (Hc & Hs & Hn).
  { eapply Forall_impl; [exact Hf|]. intros v. by apply similar_is_Some. }
  split; [|split; [by eapply similar_trans|lia]]. rewrite Hc.
  destruct (contents_split _ _ _ Hq) as (rest & -> & Hput). unfold st1. rewrite Hput.
  rewrite queue_contents_lists. unfold queue_contents. rewrite fmap_app. simpl. solve_Permutation.
Qed.

Lemma start_move_aux pid req st w :
  keyed st -> let '(st', _, _, _) := start_message_move_task pid req st w in
  contents st' ≡ₚ contents st /\ keyed st'.
Proof.
  intros Hk. unfold start_message_move_task.
  destruct (move_validate (req_body req) pid st) as [r|] eqn:Ev; [|done].
  destruct (move_validate_Ok _ _ _ _ Hk Ev) as ([src Hsrc] & Hdest & Hne & Hf).
  rewrite Hsrc. cbn zeta. destruct (mr_rate r); [done|].
  set (targets := match mr_dest r with Some _ => _ | None => _ end).
  assert (Ht : targets <> [] /\ Forall (fun u => is_Some (queues st !! u)) targets).
  { unfold targets. destruct (mr_dest r) as [d|]; [|done].
    set (st1 := put_queue st (mr_source_url r) (with_lists src [] (inflight src))).
    assert (Hs1 : similar st st1) by (by eapply similar_put).
    destruct (url_of_arn st1 d) as [[u q]|] eqn:Eu.
    - split; [done|]. repeat constructor. apply url_of_arn_Some in Eu as [Hq _].
      rewrite (similar_keyed _ _ Hs1 Hk _ _ Hq).
      eapply (similar_is_Some st1); [by apply similar_sym|]. by exists q.
    - apply url_of_arn_None in Eu. exfalso. apply Eu. eapply similar_has_arn; [exact Hs1|]. by apply Hdest. }
  destruct Ht as [Htne Htf]. pose proof (drain_source _ _ _ targets Hsrc Htne Htf) as Hd.
  destruct (drain_to _ _ _ _ _) as [st' n]. destruct Hd as (Hc & Hs & _).
  split; [exact Hc|exact (similar_keyed _ _ Hs Hk)].
Qed.

End Start.

(** ** One iteration, whatever the mover *)

Lemma move_one_contents mv st src :
  queues st !! mv_source mv = Some src -> contents (move_one mv st src).1.1 ≡ₚ contents st.
Proof.
  intros Hs. unfold move_one. destruct (mover_target mv st) as [u|]; [|done].
  destruct (messages src) as [|m rest] eqn:Hm; [done|]. cbn zeta.
  destruct (queues (put_queue st (mv_source mv) (with_lists src rest (inflight src))) !! u) as [tq|] eqn:Hu.
  { by apply (pop_push_contents st _ src m rest). }
  replace (queues (put_queue st (mv_source mv) (with_lists src rest (inflight src))) !! mv_source mv)
    with (Some (with_lists src rest (inflight src))) by (symmetry; apply lookup_insert_eq).
  simpl. rewrite put_queue_twice. apply (contents_put _ _ src); [done|].
  unfold queue_contents. simpl. rewrite Hm. done.
Qed.

Lemma mover_contents cancelled mv st : contents (mover_iteration cancelled mv st).1 ≡ₚ contents st.
Proof.
  unfold mover_iteration. destruct cancelled; [done|].
  destruct (queues st !! mv_source mv) as [src|] eqn:E; [|done].
  pose proof (move_one_contents mv st src E) as Hc.
  destruct (move_one mv st src) as [[st1 mv1] []]; exact Hc.
Qed.

(** ** Properties *)

(** Theorem (invariant) Moving messages loses and duplicates none: neither
    [StartMessageMoveTask], which drains the source at once when no rate is
    given, nor any iteration of a background mover, cancelled, failing or
    not, changes the messages the region holds. *)
Theorem moves_conserve `{Host} pid req st w st' w' r mv
  (Hkeyed : keyed st)
  (Hstart : start_message_move_task pid req st w = (st', w', r, mv)) :
  (contents st' ≡ₚ contents st /\ keyed st')
  /\ forall cancelled mover, contents (mover_iteration cancelled mover st').1 ≡ₚ contents st.
Proof.
  pose proof (start_move_aux pid req st w Hkeyed) as Hs. rewrite Hstart in Hs. split; [exact Hs|].
  intros cancelled mover. rewrite (mover_contents cancelled mover st'). apply Hs.
Qed.

(** C39 (termination) A mover whose targets exist and are not its source
    returns after one iteration per waiting message and one more: its source
    has no waiting message left and keeps those in flight, no message is lost,
    and its task is [Completed] with as many more moved messages. *)
Theorem mover_drains mv st src
  (Hkeyed : keyed st)
  (Htargets : targets_in (fun u => u <> mv_source mv) mv st)
  (Hsource : queues st !! mv_source mv = Some src) :
  exists st', run_mover (S (length (messages src))) mv st = (st', None)
    /\ contents st' ≡ₚ contents st
    /\ queues st' !! mv_source mv = Some (with_lists src [] (inflight src))
    /\ message_move_tasks st' =
       update_task (mv_handle mv) (completed (length (messages src))) (message_move_tasks st).
Proof. by apply mover_drains_aux. Qed.

(** Theorem (liveness) A mover whose targets are its source never finishes: after
    any number of iterations it still runs and the source has as many waiting
    messages as at first. *)
Theorem self_move_never_finishes mv st src
  (Hkeyed : keyed st)
  (Htargets : targets_in (fun u => u = mv_source mv) mv st)
  (Hsource : queues st !! mv_source mv = Some src)
  (Hwaiting : messages src <> []) :
  forall n, exists st' mv' src', run_mover n mv st = (st', Some mv')
    /\ queues st' !! mv_source mv = Some src' /\ length (messages src') = length (messages src).
Proof. intros n. by apply self_move_aux. Qed.

(** ** Concrete moves *)

#[local] Existing Instance demo_host.

(** [q]'s dead letters wait in [dead]. *)
Definition dead_demo : SqsState :=
  demo_state
    [demo_queue "q" false ∅ demo_redrive [] [];
     demo_queue "dead" false ∅ None [demo_message "m1" None 2; demo_message "m2" None 0] []].

Definition move_request (members : list (string * Value)) : Request :=
  mkRequest "a" "r" (VObject (("SourceArn"%string, VString "arn:aws:sqs:r:a:dead") :: members)).

Definition redrive_call := start_message_move_task 7 (move_request []) dead_demo (demo_world 0).

Lemma moves_conserve_witness :
  is_ok redrive_call.1.2 = true
  /\ ids <$> (messages <$> queues redrive_call.1.1.1 !! "u/q"%string) = Some ["m1"; "m2"]%string
  /\ (contents redrive_call.1.1.1 ≡ₚ contents dead_demo /\ keyed redrive_call.1.1.1)
  /\ forall cancelled mover,
       contents (mover_iteration cancelled mover redrive_call.1.1.1).1 ≡ₚ contents dead_demo.
Proof.
  split; [vm_compute; reflexivity|]. split; [vm_compute; reflexivity|].
  apply (moves_conserve 7 (move_request []) dead_demo (demo_world 0) redrive_call.1.1.1
           redrive_call.1.1.2 redrive_call.1.2 redrive_call.2).
  - apply (bool_decide_unpack _). vm_compute. exact I.
  - vm_compute. reflexivity.
Defined.

(** The mover that a request with a rate spawns. *)
Definition rate : string * Value := ("MaxNumberOfMessagesPerSecond"%string, VNumber (PosInt 5)).

Definition rated_call := start_message_move_task 7 (move_request [rate]) dead_demo (demo_world 0).

Definition rated_mover : Mover := mkMover "FakeCloudMessageMoveTask-id0" "u/dead" None ["u/q"%string] 0.

Lemma rated_spawned : rated_call.2 = Some rated_mover.
Proof. vm_compute. reflexivity. Qed.

Lemma mover_drains_witness :
  exists st', run_mover 3 rated_mover rated_call.1.1.1 = (st', None)
    /\ contents st' ≡ₚ contents rated_call.1.1.1
    /\ queues st' !! "u/dead"%string = Some (demo_queue "dead" false ∅ None [] [])
    /\ message_move_tasks st' =
       update_task (mv_handle rated_mover) (completed 2) (message_move_tasks rated_call.1.1.1).
Proof.
  apply (mover_drains rated_mover rated_call.1.1.1
           (demo_queue "dead" false ∅ None [demo_message "m1" None 2; demo_message "m2" None 0] [])).
  - apply (bool_decide_unpack _). vm_compute. exact I.
  - split; [done|]. repeat constructor; [|done]. apply (bool_decide_unpack _). vm_compute. exact I.
  - vm_compute. reflexivity.
Defined.

(** A move back to the source itself is accepted. *)
Definition self_call :=
  start_message_move_task 7
    (move_request [("DestinationArn"%string, VString "arn:aws:sqs:r:a:dead"); rate]) dead_demo (demo_world 0).

Definition self_mover : Mover :=
  mkMover "FakeCloudMessageMoveTask-id0" "u/dead" (Some "arn:aws:sqs:r:a:dead"%string) ["u/q"%string] 0.

Lemma self_move_never_finishes_witness :
  self_call.2 = Some self_mover
  /\ forall n, exists st' mv' src', run_mover n self_mover self_call.1.1.1 = (st', Some mv')
     /\ queues st' !! "u/dead"%string = Some src' /\ length (messages src') = 2.
Proof.
  split; [vm_compute; reflexivity|].
  apply (self_move_never_finishes self_mover self_call.1.1.1
           (demo_queue "dead" false ∅ None [demo_message "m1" None 2; demo_message "m2" None 0] [])).
  - apply (bool_decide_unpack _). vm_compute. exact I.
  - split.
    + exists "u/dead"%string, (demo_queue "dead" false ∅ None [demo_message "m1" None 2; demo_message "m2" None 0] []).
      split; vm_compute; reflexivity.
    + assert (Hall : map_Forall (fun url q => arn q = "arn:aws:sqs:r:a:dead"%string -> url = "u/dead"%string)
                       (queues self_call.1.1.1)) by (apply (bool_decide_unpack _); vm_compute; exact I).
      intros url q Hq Ha. exact (Hall url q Hq Ha).
  - vm_compute. reflexivity.
  - done.
Defined.

End SqsMoveTheory.
