(* ===== verification/SqsListTheory.v ===== *)
(** * SQS: listing queues page by page

    [ListQueues] resumes after the last URL it emitted.  Following its tokens
    lists every queue once, also when queues come and go between two pages. *)

From Stdlib Require Import ZArith Lia Bool String Ascii Sorted.
From stdpp Require Import base option list strings gmap sorting.
From S2P Require Import Prelude Json Arn BTree MultiAccount Sqs SqsSend SqsReceive SqsQueues SqsTheory.

Module SqsListTheory.
Import Sqs SqsSend SqsReceive SqsQueues SqsTheory.

(** ** Listings *)

Definition matches_prefix (prefix : option string) (q : SqsQueue) : bool :=
  match prefix with Some p => starts_with p (queue_name q) | None => true end.

(** The URLs a listing shows, in order. *)
Definition listing (st : SqsState) (prefix : option string) : list string :=
  sort_strings (queue_url <$>
    filter (fun q => matches_prefix prefix q = true) (BTree.values (queues st))).

Lemma elem_of_listing st prefix u :
  keyed st -> u ∈ listing st prefix <->
  exists q, queues st !! u = Some q /\ matches_prefix prefix q = true.
Proof.
  intros Hk. unfold listing, sort_strings. rewrite merge_sort_Permutation, list_elem_of_fmap.
  setoid_rewrite list_elem_of_filter. setoid_rewrite BTree.elem_of_values. split.
  - intros (q & -> & Hm & url & Hq). exists q. by rewrite (Hk _ _ Hq).
  - intros (q & Hq & Hm). exists q. split; [symmetry; by apply Hk|]. split; [done|]. by exists u.
Qed.

(** [a] comes before [b]. *)
Definition before (a b : string) : Prop := BTree.str_leb b a = false.

Definition ascending (l : list string) : Prop := StronglySorted before l.

Lemma before_spec a b : before a b <-> BTree.str_le a b /\ a <> b.
Proof.
  unfold before. split.
  - intros Hb. destruct (BTree.str_le_total a b) as [Hab|Hba].
    + split; [done|]. intros ->. unfold BTree.str_le in Hab. congruence.
    + unfold BTree.str_le in Hba. congruence.
  - intros [Hle Hne]. destruct (BTree.str_leb b a) eqn:E; [|done]. exfalso. apply Hne.
    by apply BTree.str_le_antisymm.
Qed.

Lemma before_trans a b c : before a b -> before b c -> before a c.
Proof.
  rewrite !before_spec. intros [H1 Hn1] [H2 Hn2]. split; [by eapply BTree.str_le_trans|].
  intros ->. apply Hn1. by apply BTree.str_le_antisymm.
Qed.

Lemma listing_NoDup st prefix : keyed st -> NoDup (listing st prefix).
Proof.
  intros Hk. unfold listing, sort_strings. rewrite merge_sort_Permutation.
  unfold BTree.values. rewrite BTree.iter_Permutation.
  assert (Hkeys : NoDup (queue_url <$> (snd <$> map_to_list (queues st)))).
  { replace (queue_url <$> (snd <$> map_to_list (queues st))) with (fst <$> map_to_list (queues st));
      [apply NoDup_fst_map_to_list|].
    rewrite <- list_fmap_compose. apply list_fmap_ext. intros i [k q] Hi. simpl. symmetry. apply Hk.
    apply elem_of_map_to_list. by eapply list_elem_of_lookup_2. }
  eapply sublist_NoDup; [exact Hkeys|]. apply fmap_sublist, sublist_filter.
Qed.

Lemma listing_ascending st prefix : keyed st -> ascending (listing st prefix).
Proof.
  intros Hk. pose proof (listing_NoDup st prefix Hk) as Hnd.
  assert (Hs : StronglySorted BTree.str_le (listing st prefix))
    by (apply StronglySorted_merge_sort; apply _).
  unfold ascending. induction Hs as [|x l Hs IH Hx]; constructor; apply NoDup_cons in Hnd as [Hni Hnd]; auto.
  rewrite Forall_forall in Hx |- *. intros y Hy. apply before_spec. split; [auto|]. by intros ->.
Qed.

(** ** One page *)

Definition past (marker : option string) (u : string) : Prop :=
  match marker with Some m => before m u | None => True end.

(** What is left to show after the marker. *)
Definition rest_after (l : list string) (marker : option string) : list string :=
  drop (match marker with Some m => partition_point (fun u => BTree.str_leb u m) l | None => 0 end) l.

Lemma rest_after_ascending l marker : ascending l -> ascending (rest_after l marker).
Proof. intros Hl. unfold ascending, rest_after. rewrite <- (take_drop (match marker with
  Some m => partition_point (fun u => BTree.str_leb u m) l | None => 0 end) l) in Hl.
  by apply StronglySorted_app_1_r in Hl. Qed.

Lemma rest_after_spec l marker u : ascending l -> u ∈ rest_after l marker <-> u ∈ l /\ past marker u.
Proof.
  destruct marker as [m|]; [|unfold rest_after; simpl; rewrite drop_0; tauto].
  intros Hl. unfold rest_after. induction Hl as [|x l Hl IH Hx]; cbn [partition_point].
  { simpl. rewrite elem_of_nil. tauto. }
  destruct (BTree.str_leb x m) eqn:E; cbn [drop].
  - rewrite IH, elem_of_cons. split; [tauto|]. intros [[->|Hu] Hp]; [|done].
    unfold past, before in Hp. congruence.
  - rewrite elem_of_cons. split; [|tauto]. intros [->|Hu]; [tauto|]. split; [tauto|].
    rewrite Forall_forall in Hx. apply (before_trans m x u); [done|by apply Hx].
Qed.

Lemma partition_point_le f l : partition_point f l <= length l.
Proof. induction l as [|x l IH]; simpl; [lia|]. destruct (f x); lia. Qed.

Lemma list_page_spec st prefix max marker :
  list_page st prefix max marker =
  (take max (rest_after (listing st prefix) marker),
   if length (take max (rest_after (listing st prefix) marker))
      <? length (rest_after (listing st prefix) marker)
   then last (take max (rest_after (listing st prefix) marker)) else None).
Proof.
  unfold list_page. cbn zeta. change (sort_strings _) with (listing st prefix).
  unfold rest_after. set (start := match marker with Some m => _ | None => 0 end).
  f_equal. assert (Hle : start <= length (listing st prefix)).
  { unfold start. destruct marker as [m|]; [apply partition_point_le|lia]. }
  rewrite (length_drop _ start). set (k := length (take _ _)).
  destruct (Nat.ltb_spec (start + k) (length (listing st prefix))),
    (Nat.ltb_spec k (length (listing st prefix) - start)); try done; lia.
Qed.

(** ** Following the markers *)

(** One fetch per state, until no marker comes back. *)
Fixpoint fetch (prefix : option string) (max : nat) (marker : option string) (states : list SqsState)
  : list string * bool :=
  match states with
  | [] => ([], false)
  | st :: states =>
      let '(page, next) := list_page st prefix max marker in
      match next with
      | None => (page, true)
      | Some m => let '(more, finished) := fetch prefix max (Some m) states in (page ++ more, finished)
      end
  end.

Lemma ascending_last l k m u :
  ascending l -> last (take k l) = Some m -> u ∈ drop k l -> before m u.
Proof.
  intros Hl Hm Hu. unfold ascending in Hl. rewrite <- (take_drop k l) in Hl.
  apply last_Some in Hm as [l' Hl']. rewrite Hl' in Hl.
  eapply (StronglySorted_app_1_elem_of before (l' ++ [m])); [exact Hl| |exact Hu].
  apply elem_of_app. right. by apply list_elem_of_singleton.
Qed.

Lemma fetch_spec prefix max marker states :
  1 <= max -> Forall keyed states ->
  let '(raw, finished) := fetch prefix max marker states in
  ascending raw /\ Forall (past marker) raw
  /\ (forall u, u ∈ raw -> exists st, st ∈ states /\ u ∈ listing st prefix)
  /\ (finished = true -> forall u, Forall (fun st => u ∈ listing st prefix) states -> past marker u -> u ∈ raw).
Proof.
  intros Hmax. revert marker. induction states as [|st states IH]; intros marker Hk.
  { simpl. split; [constructor|]. split; [constructor|]. split; [|done]. intros u Hu. by apply elem_of_nil in Hu. }
  apply Forall_cons in Hk as [Hk Hks]. cbn [fetch]. rewrite list_page_spec.
  pose proof (listing_ascending st prefix Hk) as Hl. set (l := listing st prefix) in *.
  pose proof (rest_after_ascending l marker Hl) as Hr.
  pose proof (fun u => rest_after_spec l marker u Hl) as Hin. set (r := rest_after l marker) in *.
  assert (Hpage : forall u, u ∈ take max r -> u ∈ l /\ past marker u).
  { intros u Hu. apply Hin. rewrite <- (take_drop max r). apply elem_of_app. by left. }
  assert (Hpa : ascending (take max r)).
  { unfold ascending in *. rewrite <- (take_drop max r) in Hr. by apply StronglySorted_app_1_l in Hr. }
  assert (Hpp : Forall (past marker) (take max r)) by (apply Forall_forall; intros u Hu; by apply Hpage).
  assert (Hpl : forall u, u ∈ take max r -> exists st', st' ∈ st :: states /\ u ∈ listing st' prefix).
  { intros u Hu. exists st. split; [left|]. by apply Hpage. }
  destruct (Nat.ltb_spec (length (take max r)) (length r)) as [Hlt|Hge].
  - destruct (last (take max r)) as [m|] eqn:Em.
    2: { apply last_None in Em. rewrite Em in Hlt. destruct r; [simpl in Hlt; lia|].
         destruct max; [lia|done]. }
    specialize (IH (Some m) Hks). destruct (fetch prefix max (Some m) states) as [more fin].
    destruct IH as (Ha & Hp & Hsrc & Hall).
    assert (Hm : m ∈ take max r).
    { apply last_Some in Em as [l' ->]. apply elem_of_app. right. by apply list_elem_of_singleton. }
    assert (Hlast : forall a b, a ∈ take max r -> b ∈ more -> before a b).
    { intros a b Haa Hb. rewrite Forall_forall in Hp. specialize (Hp b Hb). simpl in Hp.
      destruct (decide (a = m)) as [->|Hne]; [done|]. apply (before_trans a m b); [|done].
      apply last_Some in Em as [l' Hl']. rewrite Hl' in Haa, Hpa.
      apply elem_of_app in Haa as [Haa|Haa]; [|by apply list_elem_of_singleton in Haa].
      eapply StronglySorted_app_1_elem_of; [exact Hpa|done|]. by apply list_elem_of_singleton. }
    split_and!.
    + apply StronglySorted_app_2; done.
    + apply Forall_app. split; [done|]. rewrite Forall_forall in Hp |- *. intros u Hu.
      destruct marker as [m0|]; [|done]. destruct (Hpage m Hm) as [_ Hm0].
      apply (before_trans m0 m u); [exact Hm0|]. by apply Hp.
    + intros u Hu. apply elem_of_app in Hu as [Hu|Hu]; [by apply Hpl|].
      destruct (Hsrc u Hu) as (st' & Hst & Hul). exists st'. split; [by right|done].
    + intros Hfin u Hu Hpast. apply Forall_cons in Hu as [Hu Hus]. apply elem_of_app.
      assert (Hur : u ∈ r) by (by apply Hin). rewrite <- (take_drop max r) in Hur.
      apply elem_of_app in Hur as [Hur|Hur]; [by left|]. right. apply Hall; [done|done|].
      simpl. exact (ascending_last r max m u Hr Em Hur).
  - split_and!; [done..|]. intros _ u Hu Hpast. apply Forall_cons in Hu as [Hu _].
    assert (Hur : u ∈ r) by (by apply Hin). rewrite <- (take_drop max r) in Hur.
    apply elem_of_app in Hur as [Hur|Hur]; [done|]. exfalso.
    rewrite length_take in Hge. rewrite drop_ge in Hur by lia. by apply elem_of_nil in Hur.
Qed.

Lemma before_irrefl a : ~ before a a.
Proof. rewrite before_spec. tauto. Qed.

Lemma before_asym a b : before a b -> ~ before b a.
Proof. intros Hab Hba. apply (before_irrefl a). by eapply before_trans. Qed.

Lemma ascending_eq l k : ascending l -> ascending k -> (forall u, u ∈ l <-> u ∈ k) -> l = k.
Proof.
  intros Hl. revert k. induction Hl as [|x l Hl IH Hx]; intros k Hk Heq.
  { destruct k as [|y k]; [done|]. destruct (Heq y) as [_ Hy]. exfalso.
    eapply not_elem_of_nil, Hy. left. }
  destruct Hk as [|y k Hk Hy].
  { destruct (Heq x) as [Hxx _]. exfalso. eapply not_elem_of_nil, Hxx. left. }
  rewrite Forall_forall in Hx, Hy. assert (x = y) as ->.
  { destruct (Heq x) as [H1 _], (Heq y) as [_ H2].
    destruct (proj1 (elem_of_cons k x y) (H1 ltac:(left))) as [|Hin1]; [done|].
    destruct (proj1 (elem_of_cons l y x) (H2 ltac:(left))) as [|Hin2]; [done|].
    exfalso. eapply before_asym; [by apply Hx|by apply Hy]. }
  f_equal. apply IH; [done|]. intros u. specialize (Heq u). rewrite !elem_of_cons in Heq. split; intros Hu.
  - destruct (proj1 Heq) as [->|]; [by right| |done]. exfalso. eapply before_irrefl, Hx, Hu.
  - destruct (proj2 Heq) as [->|]; [by right| |done]. exfalso. eapply before_irrefl, Hy, Hu.
Qed.

(** The next page starts where this one ended. *)
Lemma rest_after_last l marker max m :
  ascending l -> last (take max (rest_after l marker)) = Some m ->
  rest_after l (Some m) = drop max (rest_after l marker).
Proof.
  intros Hl Hm. pose proof (rest_after_ascending l marker Hl) as Hr.
  apply ascending_eq; [by apply rest_after_ascending| |].
  { unfold ascending in *. rewrite <- (take_drop max (rest_after l marker)) in Hr.
    by apply StronglySorted_app_1_r in Hr. }
  intros u. rewrite (rest_after_spec l (Some m) u Hl). split.
  - intros [Hu Hmu]. simpl in Hmu. assert (Hur : u ∈ rest_after l marker).
    { apply rest_after_spec; [done|]. split; [done|]. destruct marker as [m0|]; [|done].
      apply (before_trans m0 m u); [|done]. apply last_Some in Hm as [l' Hl'].
      assert (Hin : m ∈ rest_after l (Some m0)).
      { rewrite <- (take_drop max (rest_after l (Some m0))), Hl'. set_solver. }
      by apply rest_after_spec in Hin as [_ ?]. }
    rewrite <- (take_drop max (rest_after l marker)) in Hur. apply elem_of_app in Hur as [Hur|]; [|done].
    exfalso. pose proof (last_Some (take max (rest_after l marker)) m) as [Hls _].
    destruct (Hls Hm) as [l' Hl']. rewrite Hl' in Hur. apply elem_of_app in Hur as [Hur|Hur].
    + unfold ascending in Hr. rewrite <- (take_drop max (rest_after l marker)), Hl' in Hr.
      apply StronglySorted_app_1_l in Hr. eapply before_asym; [exact Hmu|].
      eapply StronglySorted_app_1_elem_of; [exact Hr|done|]. by apply list_elem_of_singleton.
    + apply list_elem_of_singleton in Hur as ->. by eapply before_irrefl.
  - intros Hu. split; [|by eapply ascending_last].
    assert (Hin : u ∈ rest_after l marker)
      by (rewrite <- (take_drop max (rest_after l marker)); set_solver).
    by apply rest_after_spec in Hin as [? _].
Qed.

Lemma fetch_same prefix max marker st n :
  1 <= max -> keyed st -> length (rest_after (listing st prefix) marker) <= n ->
  fetch prefix max marker (replicate (S n) st) = (rest_after (listing st prefix) marker, true).
Proof.
  intros Hmax Hk. pose proof (listing_ascending st prefix Hk) as Hl. set (l := listing st prefix) in *.
  revert marker. induction n as [|n IH]; intros marker Hn.
  - apply Nat.le_0_r, nil_length_inv in Hn. cbn [replicate fetch]. rewrite list_page_spec. fold l.
    by rewrite Hn, take_nil.
  - change (replicate (S (S n)) st) with (st :: replicate (S n) st). cbn [fetch].
    rewrite list_page_spec. fold l. set (r := rest_after l marker) in *.
    destruct (Nat.ltb_spec (length (take max r)) (length r)) as [Hlt|Hge].
    + destruct (last (take max r)) as [m|] eqn:Em.
      * pose proof (rest_after_last l marker max m Hl Em) as Hrest. fold r in Hrest.
        rewrite IH, Hrest; [by rewrite take_drop|]. rewrite Hrest, length_drop. lia.
      * apply last_None in Em. rewrite Em in Hlt. destruct r; [simpl in Hlt; lia|]. destruct max; [lia|done].
    + rewrite length_take in Hge. by rewrite take_ge by lia.
Qed.

(** ** The requests of a client *)

Section Client.
Context `{TokenCodec}.

Definition page_body (members : list (string * Value)) (token : option string) : Value :=
  VObject (match token with Some t => [("NextToken"%string, VString t)] | None => [] end ++ members).

(** [ListQueues] with the token of the previous answer, one request per state
    the service is in, until an answer has no token. *)
Fixpoint list_all (account rg base : string) (members : list (string * Value)) (token : option string)
  (states : list SqsState) : list Value * bool :=
  match states with
  | [] => ([], false)
  | st :: states =>
      match list_queues (fun _ => base) (mkRequest account rg (page_body members token)) st with
      | Err _ => ([], false)
      | Ok answer =>
          let urls := default [] (as_array (index answer "QueueUrls")) in
          match as_str (index answer "NextToken") with
          | None => (urls, true)
          | Some t =>
              let '(more, finished) := list_all account rg base members (Some t) states in
              (urls ++ more, finished)
          end
      end
  end.

Lemma index_page_body members token k :
  String.eqb "NextToken" k = false -> index (page_body members token) k = index (VObject members) k.
Proof. intros Hk. destruct token as [t|]; [|done]. cbn. by rewrite Hk. Qed.

Lemma token_page_body members token :
  assoc "NextToken" members = None -> as_str (index (page_body members token) "NextToken") = token.
Proof. intros Hn. destruct token as [t|]; [done|]. cbn. by rewrite Hn. Qed.

Definition requested_prefix (members : list (string * Value)) : option string :=
  as_str (index (VObject members) "QueueNamePrefix").

Definition requested_max (members : list (string * Value)) : nat :=
  list_max_results (index (VObject members) "MaxResults").

Lemma requested_max_pos members : 1 <= requested_max members.
Proof.
  unfold requested_max, list_max_results.
  destruct (match as_u64 _ with Some _ => _ | None => _ end); [|lia]. unfold clamp. lia.
Qed.

Lemma list_all_fetch account rg base members marker states :
  (forall s, token_decode (token_encode s) = Some s) -> assoc "NextToken" members = None ->
  list_all account rg base members (token_encode <$> marker) states =
  prod_map (fmap (fun u => VString (render_queue_url u base))) id
    (fetch (requested_prefix members) (requested_max members) marker states).
Proof.
  intros Hcodec Hn. revert marker. induction states as [|st states IH]; intros marker; [done|].
  cbn [list_all fetch]. unfold list_queues. cbn [req_body].
  rewrite !index_page_body by done. rewrite (token_page_body members _ Hn).
  assert (Hm : decode_list_queues_token <$> (token_encode <$> marker) = marker).
  { destruct marker as [m|]; [|done]. simpl. unfold decode_list_queues_token. by rewrite Hcodec. }
  rewrite Hm. fold (requested_prefix members) (requested_max members).
  destruct (list_page st (requested_prefix members) (requested_max members) marker) as [page next].
  destruct next as [m|]; cbn; rewrite ?String.eqb_refl;
    change (String.eqb "QueueUrls" "NextToken") with false; cbn; [|done].
  specialize (IH (Some m)). unfold encode_list_queues_token. simpl in IH. rewrite IH.
  destruct (fetch _ _ (Some m) states) as [more fin]. simpl. by rewrite fmap_app.
Qed.

End Client.

(** ** Properties *)

(** Theorem (functional) A client that follows [NextToken] from page to page, while
    queues are created and deleted between its requests, is shown URLs in
    ascending order, so none twice, each of a queue that was there at one of
    the requests; and once it has the last page, every queue with the prefix
    that was there at all of them. *)
Theorem pagination_is_stable `{TokenCodec} account rg base members states
  (Hcodec : forall s, token_decode (token_encode s) = Some s)
  (Hfirst : assoc "NextToken" members = None)
  (Hkeyed : Forall keyed states) :
  exists shown finished,
    list_all account rg base members None states =
      ((fun u => VString (render_queue_url u base)) <$> shown, finished)
    /\ ascending shown
    /\ (forall u, u ∈ shown -> exists st, st ∈ states /\ is_Some (queues st !! u))
    /\ (finished = true -> forall u,
          Forall (fun st => exists q, queues st !! u = Some q
                            /\ matches_prefix (requested_prefix members) q = true) states -> u ∈ shown).
Proof.
  pose proof (list_all_fetch account rg base members None states Hcodec Hfirst) as Hlist. simpl in Hlist.
  rewrite Hlist.
  pose proof (fetch_spec (requested_prefix members) (requested_max members) None states
                (requested_max_pos members) Hkeyed) as Hf.
  destruct (fetch _ _ None states) as [shown fin]. destruct Hf as (Ha & _ & Hsrc & Hall).
  exists shown, fin. split; [done|]. split; [done|]. rewrite Forall_forall in Hkeyed. split.
  - intros u Hu. destruct (Hsrc u Hu) as (st & Hst & Hul). exists st. split; [done|].
    apply elem_of_listing in Hul as (q & Hq & _); [by exists q|by apply Hkeyed].
  - intros Hfin u Hu. apply Hall; [done| |done]. rewrite Forall_forall in Hu |- *.
    intros st Hst. apply elem_of_listing; [by apply Hkeyed|]. by apply Hu.
Qed.

(** Theorem (termination) On a service that does not change, following [NextToken]
    ends after at most one request per queue and one more, and shows exactly
    the queues with the prefix, in order, whatever [MaxResults] is. *)
Theorem pagination_is_complete `{TokenCodec} account rg base members st
  (Hcodec : forall s, token_decode (token_encode s) = Some s)
  (Hfirst : assoc "NextToken" members = None)
  (Hkeyed : keyed st) :
  list_all account rg base members None (replicate (S (size (queues st))) st) =
    ((fun u => VString (render_queue_url u base)) <$> listing st (requested_prefix members), true).
Proof.
  etransitivity; [exact (list_all_fetch account rg base members None _ Hcodec Hfirst)|].
  rewrite fetch_same; [unfold rest_after; by rewrite drop_0|apply requested_max_pos|done|].
  unfold rest_after. rewrite drop_0. unfold listing, sort_strings.
  rewrite merge_sort_Permutation, length_fmap. etransitivity; [apply length_filter|].
  unfold BTree.values. by rewrite length_fmap, BTree.iter_Permutation, length_map_to_list.
Qed.

(** ** Concrete pages *)

Definition demo_codec : TokenCodec :=
  {| token_encode := fun s => "t" +:+ s; token_decode := strip_prefix "t" |}.

#[local] Existing Instance demo_codec.

Definition named (name : string) : SqsQueue := demo_queue name false ∅ None [] [].

(** Two requests of one queue each; [a] is deleted and [b] created between them. *)
Definition page_members : list (string * Value) := [("MaxResults"%string, VNumber (PosInt 1))].
Definition page_states : list SqsState :=
  [demo_state [named "a"; named "c"]; demo_state [named "b"; named "c"]; demo_state [named "b"; named "c"]].

Lemma pagination_is_stable_witness :
  list_all "a" "r" "http://h" page_members None page_states =
    (VString <$> ["u/a"; "u/b"; "u/c"]%string, true)
  /\ exists shown finished,
    list_all "a" "r" "http://h" page_members None page_states =
      ((fun u => VString (render_queue_url u "http://h")) <$> shown, finished)
    /\ ascending shown
    /\ (forall u, u ∈ shown -> exists st, st ∈ page_states /\ is_Some (queues st !! u))
    /\ (finished = true -> forall u,
          Forall (fun st => exists q, queues st !! u = Some q
                            /\ matches_prefix (requested_prefix page_members) q = true) page_states -> u ∈ shown).
Proof.
  split; [vm_compute; reflexivity|].
  apply (pagination_is_stable "a" "r" "http://h" page_members page_states).
  - intros s. reflexivity.
  - reflexivity.
  - repeat constructor; apply (bool_decide_unpack _); vm_compute; exact I.
Defined.

Lemma pagination_is_complete_witness :
  list_all "a" "r" "http://h" page_members None (replicate 3 (demo_state [named "c"; named "a"])) =
    (VString <$> ["u/a"; "u/c"]%string, true).
Proof.
  etransitivity.
  - apply (pagination_is_complete "a" "r" "http://h" page_members (demo_state [named "c"; named "a"])).
    + intros s. reflexivity.
    + reflexivity.
    + apply (bool_decide_unpack _). vm_compute. exact I.
  - vm_compute. reflexivity.
Defined.

End SqsListTheory.
