(* ===== verification/SqsDeliverTheory.v ===== *)
(** * SQS: what a cross-service delivery does

    A delivery that succeeds appends one message to the queue its ARN names
    and changes nothing else; deduplication is not among the things it does. *)

From Stdlib Require Import ZArith Lia Bool String Ascii.
From stdpp Require Import base option list strings gmap.
From S2P Require Import Prelude Json Arn BTree MultiAccount Sqs SqsSend SqsReceive SqsQueues SqsMoves.
From S2P Require Import SqsDeliver SqsTheory SqsOrder SqsSystem SqsSystemTheory.

Module SqsDeliverTheory.
Import Sqs SqsSend SqsReceive SqsQueues SqsMoves SqsDeliver SqsTheory SqsOrder SqsSystem SqsSystemTheory.

Section Delivery.
Context `{Host}.

(** ARNs identify queues. *)
Lemma wf_arn_unique pid st w url url' q q' :
  wf pid st w -> queues st !! url = Some q -> queues st !! url' = Some q' -> arn q = arn q' -> url = url'.
Proof.
  intros Hwf Hq Hq' Ha. eapply same_name; [done..|].
  destruct (wf_queue _ _ _ Hwf _ _ Hq) as (_ & (_ & _ & Harn & _) & _).
  destruct (wf_queue _ _ _ Hwf _ _ Hq') as (_ & (_ & _ & Harn' & _) & _).
  rewrite Harn, Harn' in Ha. unfold queue_arn_for in Ha. by repeat apply append_inj_l in Ha.
Qed.

(** The ARN still names the queue after the queue changed. *)
Lemma url_of_arn_put pid st w url q q' :
  wf pid st w -> queues st !! url = Some q -> arn q' = arn q ->
  url_of_arn (put_queue st url q') (arn q') = Some (url, q').
Proof.
  intros Hwf Hq Ha. destruct (url_of_arn (put_queue st url q') (arn q')) as [[u p]|] eqn:E.
  - apply url_of_arn_Some in E as [Hp Hpa]. simpl in Hp.
    apply lookup_insert_Some in Hp as [[<- <-]|[Hne Hp]]; [done|].
    exfalso. apply Hne. eapply wf_arn_unique; [done|done|done|congruence].
  - apply url_of_arn_None in E. exfalso. apply E. exists url, q'. split; [apply lookup_insert_eq|done].
Qed.

(** The body a delivery stores. *)
Definition stored_as (hook : option KmsHook) (account rg : string) (q : SqsQueue) (w : World)
  (text stored : string) : Prop :=
  (delivery_body hook (ticked w) account rg (arn q) (attr q "KmsMasterKeyId") text).2 = Ok stored.

Lemma deliver_in_Ok pid hook account rg a text attrs group dedup st w st' w' :
  wf pid st w ->
  deliver_in hook account rg a text attrs group dedup st w = (st', w', Ok tt) ->
  exists url q stored, queues st !! url = Some q /\ arn q = a
    /\ stored_as hook account rg q w text stored
    /\ st' = put_queue st url
         (with_dedup
            (push_back q
               (mkMessage (new_v4 (uuids w)) None stored (md5_hex text)
                  (timestamp_millis (clock (ticks w))) ∅ (delivery_attribute <$> attrs) None 0 None group
                  (match dedup with
                   | Some d => Some d
                   | None => if is_fifo q then Some (sha256_hex text) else None
                   end)
                  (clock (ticks w))
                  (if is_fifo q then Some (format_sequence_number (next_sequence_number q)) else None)))
            (dedup_cache q)
            (if is_fifo q then saturating_succ (next_sequence_number q) else next_sequence_number q)).
Proof.
  intros Hwf Hd. unfold deliver_in in Hd. destruct (url_of_arn st a) as [[url q]|] eqn:Eu; [|done].
  apply url_of_arn_Some in Eu as [Hq Ha]. destruct (_ && _ && _); [done|]. cbn zeta in Hd.
  match type of Hd with context [put_queue st url ?x] => set (q1 := x) in Hd end.
  assert (H1 : q1 = with_dedup q (dedup_cache q)
                (if is_fifo q then saturating_succ (next_sequence_number q) else next_sequence_number q))
    by (unfold q1; destruct q as [? ? ? ? ? ? ? [] ? ? ? ? ? ? ?]; reflexivity).
  assert (Ha1 : arn q1 = arn q /\ attr q1 "KmsMasterKeyId" = attr q "KmsMasterKeyId") by (by rewrite H1).
  destruct Ha1 as [Ha1 Hk1]. rewrite Ha1, Hk1 in Hd.
  pose proof (delivery_uuids hook (ticked w) account rg (arn q) (attr q "KmsMasterKeyId") text) as Hw.
  destruct (delivery_body hook (ticked w) account rg (arn q) (attr q "KmsMasterKeyId") text)
    as [w1 [stored|e]] eqn:Eb; [|done]. simpl in Hw.
  rewrite <- Ha1, (url_of_arn_put pid st w url q q1 Hwf Hq Ha1) in Hd. injection Hd as <- _.
  exists url, q, stored. split; [done|]. split; [done|]. split; [unfold stored_as; by rewrite Eb|].
  rewrite put_queue_twice, Hw. f_equal. rewrite H1. reflexivity.
Qed.

End Delivery.

(** ** Properties *)

(** Theorem (functional) In a reachable state a delivery that succeeds appends one
    message with a new id to the queue of its ARN: the stored body, the MD5 of
    the text, the given group, the given deduplication id or on a FIFO queue
    the hash of the text, visible at once, numbered on a FIFO queue by its
    counter, which goes up by one.  All other queues, and the deduplication
    cache, are as before, so a repeated id is enqueued again. *)
Theorem delivery_appends `{Host} `{SerdeJson} `{SerdePrint} `{TokenCodec}
  svc pid account0 rg0 ep hook account rg a text attrs group dedup st w st' w'
  (Hreach : reachable svc pid account0 rg0 ep (st, w))
  (Hcall : deliver_in hook account rg a text attrs group dedup st w = (st', w', Ok tt)) :
  exists url q q' m, queues st !! url = Some q /\ arn q = a
    /\ queues st' = <[url := q']> (queues st) /\ dedup_cache q' = dedup_cache q
    /\ messages q' = messages q ++ [m] /\ inflight q' = inflight q
    /\ next_sequence_number q' =
       (if is_fifo q then saturating_succ (next_sequence_number q) else next_sequence_number q)
    /\ message_id m = new_v4 (uuids w) /\ stored_as hook account rg q w text (body m)
    /\ md5_of_body m = md5_hex text /\ message_group_id m = group /\ visible_at m = None
    /\ message_dedup_id m =
       (match dedup with
        | Some d => Some d
        | None => if is_fifo q then Some (sha256_hex text) else None
        end)
    /\ sequence_number m =
       (if is_fifo q then Some (format_sequence_number (next_sequence_number q)) else None).
Proof.
  pose proof (reachable_wf_aux _ _ _ _ _ _ Hreach) as Hwf. simpl in Hwf.
  destruct (deliver_in_Ok pid hook account rg a text attrs group dedup st w st' w' Hwf Hcall)
    as (url & q & stored & Hq & Ha & Hs & ->).
  exists url, q. eexists _, _. split_and!; try done.
Qed.

(** ** A delivery *)

#[local] Existing Instances demo_host demo_json demo_print demo_codec.

Definition delivered :=
  deliver_in None "a" "r" "arn:aws:sqs:r:a:q" "hello" ∅ None (Some "d"%string) demo_sent.1 demo_sent.2.

Lemma delivery_appends_witness :
  exists url q q' m, queues demo_sent.1 !! url = Some q /\ arn q = "arn:aws:sqs:r:a:q"%string
    /\ queues delivered.1.1 = <[url := q']> (queues demo_sent.1) /\ dedup_cache q' = dedup_cache q
    /\ messages q' = messages q ++ [m] /\ inflight q' = inflight q
    /\ next_sequence_number q' =
       (if is_fifo q then saturating_succ (next_sequence_number q) else next_sequence_number q)
    /\ message_id m = new_v4 (uuids demo_sent.2)
    /\ stored_as None "a" "r" q demo_sent.2 "hello" (body m)
    /\ md5_of_body m = md5_hex "hello" /\ message_group_id m = None /\ visible_at m = None
    /\ message_dedup_id m = Some "d"%string
    /\ sequence_number m =
       (if is_fifo q then Some (format_sequence_number (next_sequence_number q)) else None).
Proof.
  apply (delivery_appends plain_service 7 "a" "r" "http://h:1" None "a" "r" "arn:aws:sqs:r:a:q" "hello" ∅
           None (Some "d"%string) demo_sent.1 demo_sent.2 delivered.1.1 delivered.1.2).
  - exact demo_reachable.
  - vm_compute. reflexivity.
Defined.

End SqsDeliverTheory.
