(* ===== verification/SqsIam.v ===== *)
(** * The actions SQS authorizes

    [fakecloud-sqs/src/helpers.rs] ([sqs_resource_for]) and the IAM methods of
    the service in [service/mod.rs]: the action and resource a request is
    authorized for, its condition keys and tags, and how that resource relates
    to the queue the handler serves. *)

From Stdlib Require Import ZArith Lia Bool String Ascii.
From stdpp Require Import base option list strings gmap relations.
From S2P Require Import Prelude Json Auth BTree Arn MultiAccount Sqs SqsSend SqsReceive SqsTheory SqsOrder.
From S2P Require Import SqsQueues SqsMoves SqsSystem SqsSystemTheory.
Import Sqs SqsSend SqsReceive SqsTheory SqsOrder SqsQueues SqsMoves SqsSystem SqsSystemTheory.

Module SqsIam.

(** ** The resource of an action *)

Definition str_field (b : Value) (key : string) : option string := get key b ≫= as_str.

Definition sqs_resource_for (action account rg : string) (b : Value) : string :=
  let queue_arn name := "arn:" +:+ Arn.partition_for rg +:+ ":sqs:" +:+ rg +:+ ":" +:+ account +:+ ":" +:+ name in
  let or_star (o : option string) := default "*"%string o in
  if String.eqb action "ListQueues" then "*"
  else if String.eqb action "CreateQueue" || String.eqb action "GetQueueUrl"
  then or_star (queue_arn <$> str_field b "QueueName")
  else if String.eqb action "StartMessageMoveTask" || String.eqb action "ListMessageMoveTasks"
  then or_star (str_field b "SourceArn")
  else if String.eqb action "CancelMessageMoveTask" then "*"
  else or_star (queue_arn <$> (last_segment "/" <$> str_field b "QueueUrl")).

Definition IAM_ACTIONS : list string :=
  ["CreateQueue"; "DeleteQueue"; "ListQueues"; "GetQueueUrl"; "GetQueueAttributes"; "SetQueueAttributes";
   "SendMessage"; "SendMessageBatch"; "ReceiveMessage"; "DeleteMessage"; "DeleteMessageBatch"; "PurgeQueue";
   "ChangeMessageVisibility"; "ChangeMessageVisibilityBatch"; "ListQueueTags"; "TagQueue"; "UntagQueue";
   "AddPermission"; "RemovePermission"; "ListDeadLetterSourceQueues"; "StartMessageMoveTask";
   "CancelMessageMoveTask"; "ListMessageMoveTasks"].

(** [principal_account] is the account of the caller's principal, if any. *)
Definition iam_action_for (action : string) (principal_account : option string) (req : Request)
  : option IamAction :=
  if bool_decide (action ∈ IAM_ACTIONS) then
    Some {| ia_service := "sqs"; ia_action := action;
            ia_resource := sqs_resource_for action (default (req_account_id req) principal_account)
                             (req_region req) (req_body req) |}
  else None.

(** ** Condition keys and tags *)

Section Keys.
Context `{Host}.

Definition iam_condition_keys_for (action : string) (req : Request) : list (string * list string) :=
  if String.eqb action "SendMessage" then
    (fun na : string * MessageAttribute =>
       ("sqs:messageattribute." +:+ na.1, [default (data_type na.2) (string_value na.2)]))
      <$> BTree.iter (parse_message_attributes (req_body req))
  else [].

End Keys.

Definition resource_tags_for (m : MultiRegionState SqsState) (resource_arn : string)
  : option (gmap string string) :=
  if String.eqb resource_arn "*" then Some ∅
  else
    queue_name ← split_char ":" resource_arn !! 5;
    st ← by_arn m resource_arn;
    url ← name_to_url st !! queue_name;
    q ← queues st !! url;
    Some (tags q).

(** The string members of a JSON object. *)
Definition add_object_tags (acc : gmap string string) (v : option Value) : gmap string string :=
  match v with
  | Some (VObject members) =>
      foldl (fun acc (kv : string * Value) =>
               match as_str kv.2 with Some s => <[kv.1 := s]> acc | None => acc end) acc members
  | _ => acc
  end.

(** [<prefix>N.Key] / [<prefix>N.Value] from 1 to the first gap. *)
Fixpoint add_flat_tags (fuel : nat) (idx : Z) (prefix : string) (params acc : gmap string string)
  : gmap string string :=
  match fuel with
  | 0 => acc
  | S fuel =>
      match params !! (prefix +:+ print_Z idx +:+ ".Key")%string,
            params !! (prefix +:+ print_Z idx +:+ ".Value")%string with
      | Some k, Some v => add_flat_tags fuel (idx + 1) prefix params (<[k := v]> acc)
      | _, _ => acc
      end
  end.

(** Every index the loop accepts is a parameter of its own, so the number of
    parameters bounds it. *)
Definition request_tags_from (action : string) (query_params : gmap string string) (b : Value)
  : gmap string string :=
  if String.eqb action "CreateQueue" || String.eqb action "TagQueue" then
    let acc := foldl (fun acc f => add_object_tags acc (get f b)) ∅ ["tags"; "Tags"]%string in
    foldl (fun acc prefix => add_flat_tags (S (size query_params)) 1 prefix query_params acc) acc
      ["Tag."; "Tags.member."; "tags.member."; "tag."]%string
  else ∅.

(** ** The authorized resource and the served queue *)

(** The actions whose target is the [QueueUrl] of the request. *)
Definition targets_queue_url (action : string) : Prop :=
  action ∉ ["ListQueues"; "CreateQueue"; "GetQueueUrl"; "StartMessageMoveTask"; "ListMessageMoveTasks";
            "CancelMessageMoveTask"]%string.

Lemma sqs_resource_for_url action account rg b input :
  targets_queue_url action -> str_field b "QueueUrl" = Some input ->
  sqs_resource_for action account rg b = queue_arn_for rg account (last_segment "/" input).
Proof.
  intros Ha Hu. unfold sqs_resource_for, targets_queue_url in *. rewrite !not_elem_of_cons in Ha.
  destruct Ha as (H1 & H2 & H3 & H4 & H5 & H6 & _).
  rewrite !(proj2 (String.eqb_neq _ _)) by done. cbn [orb]. by rewrite Hu.
Qed.

(** An input that is not an ARN resolves through its last segment. *)
Lemma resolved_last_segment `{Host} pid st w input url q :
  wf pid st w -> (forall p0 p1 p2 p3 p4 p5, split_char ":" input = [p0; p1; p2; p3; p4; p5] ->
                    p0 <> "arn"%string \/ p2 <> "sqs"%string) ->
  find_queue input st = Ok (url, q) -> last_segment "/" input = queue_name q.
Proof.
  intros Hwf Hshape Hf. apply find_queue_Ok in Hf as [Hr Hq]. unfold resolve_queue_url in Hr.
  assert (Hname : forall name, name_to_url st !! name = Some url ->
    queue_name q = name /\ no_char "/" name = true).
  { intros name Hn. split; [|by eapply name_has_no_slash].
    destruct (wf_name _ _ _ Hwf _ _ Hn) as (q' & Hq' & <-). congruence. }
  assert (Hby : match name_to_url st !! input with
                | Some url => Some url
                | None => name_to_url st !! last_segment "/" input
                end = Some url -> last_segment "/" input = queue_name q).
  { destruct (name_to_url st !! input) as [u|] eqn:E.
    - intros [= ->]. destruct (Hname _ E) as [-> Hs]. by apply last_segment_no.
    - intros Hl. by destruct (Hname _ Hl) as [-> _]. }
  case_bool_decide as Hd.
  - injection Hr as <-. by eapply url_last.
  - destruct (split_char ":" input) as [|p0 [|p1 [|p2 [|p3 [|p4 [|p5 [|p6 l]]]]]]] eqn:Es; try by apply Hby.
    destruct (Hshape _ _ _ _ _ _ eq_refl) as [Hp|Hp]; apply String.eqb_neq in Hp; rewrite Hp in Hr;
      rewrite ?andb_false_r in Hr; by apply Hby.
Qed.

(** Theorem (safety): authorization and service agree on the queue.  In every
    reachable state, when a request names its queue by URL or by name, the
    resource it is authorized for is the ARN of the very queue its handler
    works on. *)
Theorem authorized_queue_is_served `{Host} `{SerdeJson} `{SerdePrint} `{TokenCodec}
  svc pid account rg ep st w action b input url q
  (Hreach : reachable svc pid account rg ep (st, w))
  (Haction : targets_queue_url action) (Hinput : str_field b "QueueUrl" = Some input)
  (Hshape : starts_with "arn:" input = false)
  (Hserved : find_queue input st = Ok (url, q)) :
  sqs_resource_for action (account_id st) (region st) b = arn q.
Proof.
  pose proof (reachable_wf_aux _ _ _ _ _ _ Hreach) as Hwf. simpl in Hwf.
  rewrite (sqs_resource_for_url _ _ _ _ input) by done.
  rewrite (resolved_last_segment pid st w input url q Hwf); [|clear -Hshape|done].
  - apply find_queue_Ok in Hserved as [_ Hq].
    by destruct (wf_queue _ _ _ Hwf _ _ Hq) as (_ & (_ & _ & -> & _) & _).
  - intros p0 p1 p2 p3 p4 p5 Hs. left. intros ->. rewrite split_char_unfold in Hs.
    destruct (split_at_needle ":" input) as [[a r]|] eqn:E; [|done].
    injection Hs as -> _. apply split_sep_Some in E as [-> _]. done.
Qed.

(** Theorem (safety): naming a queue by its ARN evades its policies.  In every
    reachable state the ARN of a queue is accepted as its [QueueUrl], but the
    request is authorized for another resource, whose last component is the
    whole ARN: a statement about the queue's own ARN does not apply to it. *)
Theorem arn_as_url_evades_policy `{Host} `{SerdeJson} `{SerdePrint} `{TokenCodec}
  svc pid account rg ep st w action b url q
  (Hreach : reachable svc pid account rg ep (st, w))
  (Hregion : plain_name (region st)) (Haccount : plain_name (account_id st))
  (Haction : targets_queue_url action) (Hq : queues st !! url = Some q)
  (Hinput : str_field b "QueueUrl" = Some (arn q)) :
  find_queue (arn q) st = Ok (url, q) /\
  sqs_resource_for action (account_id st) (region st) b
    = queue_arn_for (region st) (account_id st) (arn q) /\
  sqs_resource_for action (account_id st) (region st) b <> arn q.
Proof.
  pose proof (reachable_wf_aux _ _ _ _ _ _ Hreach) as Hwf. simpl in Hwf.
  destruct (wf_queue _ _ _ Hwf _ _ Hq) as (_ & ((Hs & Hc & _) & _ & Harn & _) & _).
  assert (Hres : sqs_resource_for action (account_id st) (region st) b
                 = queue_arn_for (region st) (account_id st) (arn q)).
  { rewrite (sqs_resource_for_url _ _ _ _ (arn q)) by done. f_equal. apply last_segment_no.
    destruct Hregion as (Hr & _), Haccount as (Ha & _).
    assert (Hp : no_char "/" (Arn.partition_for (region st)) = true)
      by (unfold Arn.partition_for; by repeat case_match).
    rewrite Harn. unfold queue_arn_for. rewrite !no_char_app, Hp, Hr, Ha, Hs. done. }
  split_and!; [|done|].
  - apply find_by_resolve; [|done]. by eapply resolve_by_arn.
  - rewrite Hres. intros Heq. apply (f_equal String.length) in Heq. unfold queue_arn_for in Heq.
    rewrite !string_length_app in Heq. simpl in Heq. lia.
Qed.

(** ** Witnesses *)

#[local] Existing Instances demo_host demo_json demo_print demo_codec.

Lemma authorized_queue_is_served_witness :
  sqs_resource_for "SendMessage" "a" "r"
    (VObject [("QueueUrl"%string, VString "http://localhost:4566/a/q")]) = "arn:aws:sqs:r:a:q"%string.
Proof.
  destruct (queues demo_sent.1 !! demo_url) as [q|] eqn:E; [|vm_compute in E; discriminate].
  assert (Harn : arn q = "arn:aws:sqs:r:a:q"%string).
  { vm_compute in E. injection E as <-. reflexivity. }
  rewrite <- Harn.
  apply (authorized_queue_is_served plain_service 7 "a" "r" "http://h:1" demo_sent.1 demo_sent.2
           "SendMessage" (VObject [("QueueUrl"%string, VString "http://localhost:4566/a/q")])
           "http://localhost:4566/a/q" demo_url q).
  - exact demo_reachable.
  - apply (bool_decide_unpack _). vm_compute. exact I.
  - vm_compute. reflexivity.
  - vm_compute. reflexivity.
  - vm_compute in E. injection E as <-. vm_compute. reflexivity.
Defined.

Lemma arn_as_url_evades_policy_witness :
  exists q, find_queue "arn:aws:sqs:r:a:q" demo_sent.1 = Ok (demo_url, q) /\
    sqs_resource_for "SendMessage" "a" "r" (VObject [("QueueUrl"%string, VString "arn:aws:sqs:r:a:q")])
    <> arn q.
Proof.
  destruct (queues demo_sent.1 !! demo_url) as [q|] eqn:E; [|vm_compute in E; discriminate].
  exists q. assert (Harn : arn q = "arn:aws:sqs:r:a:q"%string).
  { vm_compute in E. injection E as <-. reflexivity. }
  destruct (arn_as_url_evades_policy plain_service 7 "a" "r" "http://h:1" demo_sent.1 demo_sent.2
           "SendMessage" (VObject [("QueueUrl"%string, VString "arn:aws:sqs:r:a:q")]) demo_url q)
    as (Hf & _ & Hne).
  - exact demo_reachable.
  - vm_compute. done.
  - vm_compute. done.
  - apply (bool_decide_unpack _). vm_compute. exact I.
  - exact E.
  - rewrite Harn. vm_compute. reflexivity.
  - rewrite Harn in Hf. split; [exact Hf|]. exact Hne.
Defined.

End SqsIam.
