(* ===== verification/Kinesis.v ===== *)
(** * Kinesis streams

    [fakecloud-kinesis/src/state.rs] and the helpers of
    [service_helpers.rs]: streams as lists of shards over the 128-bit hash
    space, records and sequence numbers, shard iterators, Lambda checkpoints
    and trimming.  MD5, base64 and the range check of [chrono] are the class
    [KinesisHost].  Instants are nanoseconds; a function that reads the clock
    takes the readings.  Counters of allocated objects ([next_shard_index],
    sequence numbers) are not bounded by their width.  A channel is its name,
    id, ARN, source streams and tags. *)

From Stdlib Require Import ZArith Lia Bool String Ascii SpecFloat.
From stdpp Require Import base option list strings gmap sorting.
From S2P Require Import Prelude Json Arn BTree Sqs.

Module Kinesis.

Definition AwsServiceError : Type := Sqs.AwsServiceError.

Class KinesisHost := {
  md5_u128 : string -> Z;                       (* u128::from_be_bytes(MD5(bytes)) *)
  base64_decode : string -> option (list Z);
  from_timestamp : Z -> Z -> option Z           (* seconds, nanoseconds *)
}.

(** ** State *)

Record KinesisRecord := mkRecord {
  sequence_number : string;
  partition_key : string;
  data : list Z;
  approximate_arrival_timestamp : Z
}.

Record KinesisShard := mkShard {
  shard_id : string;
  starting_hash_key : string;
  ending_hash_key : string;
  parent_shard_id : option string;
  adjacent_parent_shard_id : option string;
  is_open : bool;
  next_sequence_number : Z;             (* u128 *)
  records : list KinesisRecord
}.

Record KinesisStream := mkStream {
  stream_name : string;
  stream_arn_of : string;
  stream_status : string;
  stream_creation_timestamp : Z;
  retention_period_hours : Z;           (* i32 *)
  stream_mode : string;
  encryption_type : string;
  key_id : option string;
  shard_count : Z;                      (* i32 *)
  open_shard_count : Z;                 (* i32 *)
  stream_tags : gmap string string;
  shards : list KinesisShard;
  next_shard_index : Z;                 (* i32 *)
  enhanced_metrics : list string;
  warm_throughput_mibps : option Z;
  max_record_size_kib : option Z;
  record_distribution_strategy : string;
  auto_distribution_cursor : Z          (* u64 *)
}.

Record ShardIteratorLease := mkLease {
  iterator_token : string;
  lease_stream_name : string;
  lease_shard_id : string;
  next_record_index : nat;
  expires_at : Z
}.

Record KinesisConsumer := mkConsumer {
  consumer_name : string;
  consumer_arn : string;
  consumer_stream_arn : string;
  consumer_tags : gmap string string
}.

Record KinesisChannel := mkChannel {
  channel_name : string;
  channel_arn_of : string;
  channel_id : string;
  channel_streams : list string;
  channel_tags : gmap string string
}.

Record KinesisState := mkState {
  account_id : string;
  region : string;
  streams : gmap string KinesisStream;
  iterators : gmap string ShardIteratorLease;
  iterator_counter : Z;                 (* u64 *)
  lambda_checkpoints : gmap string nat;
  consumers : gmap string KinesisConsumer;
  channels : gmap string KinesisChannel;
  resource_policies : gmap string string;
  billing_commitment_status : string
}.

Definition RECORD_DISTRIBUTION_USER_PARTITION_KEY : string := "USER_PARTITION_KEY".
Definition RECORD_DISTRIBUTION_AUTO : string := "AUTO".

Definition new_state (account rg : string) : KinesisState :=
  mkState account rg ∅ ∅ 0 ∅ ∅ ∅ ∅ "DISABLED".

(** [reset] clears everything but the iterator counter. *)
Definition reset (s : KinesisState) : KinesisState :=
  mkState (account_id s) (region s) ∅ ∅ (iterator_counter s) ∅ ∅ ∅ ∅ "DISABLED".

(** *** Field updates *)

Definition with_streams (f : gmap string KinesisStream -> gmap string KinesisStream) (s : KinesisState) : KinesisState :=
  mkState (account_id s) (region s) (f (streams s)) (iterators s) (iterator_counter s)
    (lambda_checkpoints s) (consumers s) (channels s) (resource_policies s) (billing_commitment_status s).

Definition put_stream (s : KinesisState) (name : string) (st : KinesisStream) : KinesisState :=
  with_streams <[name := st]> s.

Definition with_shards (st : KinesisStream) (l : list KinesisShard) : KinesisStream :=
  mkStream (stream_name st) (stream_arn_of st) (stream_status st) (stream_creation_timestamp st)
    (retention_period_hours st) (stream_mode st) (encryption_type st) (key_id st) (shard_count st)
    (open_shard_count st) (stream_tags st) l (next_shard_index st) (enhanced_metrics st)
    (warm_throughput_mibps st) (max_record_size_kib st) (record_distribution_strategy st)
    (auto_distribution_cursor st).

(** The shards together with the counters that describe them. *)
Definition with_layout (st : KinesisStream) (l : list KinesisShard) (next count open : Z) : KinesisStream :=
  mkStream (stream_name st) (stream_arn_of st) (stream_status st) (stream_creation_timestamp st)
    (retention_period_hours st) (stream_mode st) (encryption_type st) (key_id st) count open
    (stream_tags st) l next (enhanced_metrics st) (warm_throughput_mibps st) (max_record_size_kib st)
    (record_distribution_strategy st) (auto_distribution_cursor st).

Definition with_cursor (st : KinesisStream) (cursor : Z) : KinesisStream :=
  mkStream (stream_name st) (stream_arn_of st) (stream_status st) (stream_creation_timestamp st)
    (retention_period_hours st) (stream_mode st) (encryption_type st) (key_id st) (shard_count st)
    (open_shard_count st) (stream_tags st) (shards st) (next_shard_index st) (enhanced_metrics st)
    (warm_throughput_mibps st) (max_record_size_kib st) (record_distribution_strategy st) cursor.

Definition with_records (sh : KinesisShard) (l : list KinesisRecord) : KinesisShard :=
  mkShard (shard_id sh) (starting_hash_key sh) (ending_hash_key sh) (parent_shard_id sh)
    (adjacent_parent_shard_id sh) (is_open sh) (next_sequence_number sh) l.

Definition closed (sh : KinesisShard) : KinesisShard :=
  mkShard (shard_id sh) (starting_hash_key sh) (ending_hash_key sh) (parent_shard_id sh)
    (adjacent_parent_shard_id sh) false (next_sequence_number sh) (records sh).

(** ** ARNs *)

Definition arn_in_region (s : KinesisState) (arn : string) : bool :=
  match Arn.region_of arn with Some r => String.eqb r (region s) | None => true end.

Definition stream_name_from_arn (s : KinesisState) (arn : string) : option string :=
  if negb (arn_in_region s arn) then None
  else
    let name := last_segment "/" arn in
    if bool_decide (is_Some (streams s !! name)) then Some name else None.

Definition stream_arn (s : KinesisState) (rg name : string) : string :=
  Arn.to_string (Arn.regional "kinesis" rg (account_id s) ("stream/" +:+ name)).

Definition channel_arn (s : KinesisState) (rg id : string) : string :=
  Arn.to_string (Arn.regional "kinesis" rg (account_id s) ("channel/" +:+ id)).

Definition channel_name_from_arn (s : KinesisState) (arn : string) : option string :=
  if negb (arn_in_region s arn) then None
  else
    '(_, id) ← rsplit_once ":channel/" arn;
    channel_name <$> head (filter (fun c => channel_id c = id) (BTree.values (channels s))).

Definition channels_for_stream (s : KinesisState) (name : string) : list string :=
  channel_name <$>
    filter (fun c => existsb (fun source => bool_decide (stream_name_from_arn s source = Some name))
                       (channel_streams c) = true)
      (BTree.values (channels s)).

(** ** Shard iterators *)

(** The readings of one [insert_iterator]: one per lease it examines, the
    token's and the expiry's. *)
Record IteratorClock := { at_retain : string -> Z; at_token : Z; at_expiry : Z }.

Definition millis (t : Z) : Z := (t / 1000000)%Z.
Definition minutes (n : Z) : Z := (n * 60 * 1000000000)%Z.
Definition hours (n : Z) : Z := (n * 3600 * 1000000000)%Z.

Definition insert_iterator (t : IteratorClock) (s : KinesisState) (name sid : string) (idx : nat)
  : KinesisState * string :=
  let kept := filter (fun kv : string * ShardIteratorLease => (at_retain t kv.1 <= expires_at kv.2)%Z)
                (iterators s) in
  let counter := ((iterator_counter s + 1) mod 2 ^ 64)%Z in
  let token := name +:+ ":" +:+ sid +:+ ":" +:+ print_Z (Z.of_nat idx) +:+ ":"
               +:+ print_Z (millis (at_token t)) +:+ ":" +:+ print_Z counter in
  (mkState (account_id s) (region s) (streams s)
     (<[token := mkLease token name sid idx (at_expiry t + minutes 5)]> kept) counter
     (lambda_checkpoints s) (consumers s) (channels s) (resource_policies s) (billing_commitment_status s),
   token).

(** ** Lambda checkpoints *)

Definition checkpoint_key (mapping_uuid sid : string) : string := mapping_uuid +:+ ":" +:+ sid.

Definition lambda_checkpoint (s : KinesisState) (mapping_uuid sid : string) : nat :=
  default 0 (lambda_checkpoints s !! checkpoint_key mapping_uuid sid).

Definition set_lambda_checkpoint (s : KinesisState) (mapping_uuid sid : string) (offset : nat) : KinesisState :=
  mkState (account_id s) (region s) (streams s) (iterators s) (iterator_counter s)
    (<[checkpoint_key mapping_uuid sid := offset]> (lambda_checkpoints s)) (consumers s) (channels s)
    (resource_policies s) (billing_commitment_status s).

(** ** Trimming *)

Fixpoint expired_prefix (cutoff : Z) (l : list KinesisRecord) : nat :=
  match l with
  | [] => 0
  | r :: l => if (approximate_arrival_timestamp r <? cutoff)%Z then S (expired_prefix cutoff l) else 0
  end.

(** [key.rsplit_once(':')] ends in the shard's id. *)
Definition key_names_shard (sid key : string) : bool :=
  match rsplit_once ":" key with Some (_, s) => String.eqb s sid | None => false end.

Definition shift_checkpoints (sid : string) (trim : nat) (m : gmap string nat) : gmap string nat :=
  map_imap (fun key offset => Some (if key_names_shard sid key then offset - trim else offset)) m.

Definition shift_lease (name sid : string) (trim : nat) (l : ShardIteratorLease) : ShardIteratorLease :=
  if String.eqb (lease_stream_name l) name && String.eqb (lease_shard_id l) sid
  then mkLease (iterator_token l) (lease_stream_name l) (lease_shard_id l) (next_record_index l - trim)
         (expires_at l)
  else l.

Definition Offsets : Type := gmap string nat * gmap string ShardIteratorLease.

(** One shard: its expired prefix is dropped and the offsets follow. *)
Definition trim_shard (name : string) (cutoff : Z) (sh : KinesisShard) (o : Offsets) : KinesisShard * Offsets :=
  let trim := expired_prefix cutoff (records sh) in
  if (trim =? 0)%nat then (sh, o)
  else (with_records sh (skipn trim (records sh)),
        (shift_checkpoints (shard_id sh) trim o.1, shift_lease name (shard_id sh) trim <$> o.2)).

Fixpoint trim_shards (name : string) (cutoff : Z) (l : list KinesisShard) (o : Offsets)
  : list KinesisShard * Offsets :=
  match l with
  | [] => ([], o)
  | sh :: l =>
      let '(sh, o) := trim_shard name cutoff sh o in
      let '(l, o) := trim_shards name cutoff l o in
      (sh :: l, o)
  end.

(** The streams in name order. *)
Fixpoint trim_streams (now : Z) (l : list (string * KinesisStream)) (o : Offsets)
  : list (string * KinesisStream) * Offsets :=
  match l with
  | [] => ([], o)
  | (name, st) :: l =>
      let '(shs, o) := trim_shards name (now - hours (retention_period_hours st)) (shards st) o in
      let '(l, o) := trim_streams now l o in
      ((name, with_shards st shs) :: l, o)
  end.

Definition trim_expired_records_at (now : Z) (s : KinesisState) : KinesisState :=
  let '(l, o) := trim_streams now (BTree.iter (streams s)) (lambda_checkpoints s, iterators s) in
  mkState (account_id s) (region s) (list_to_map l) o.2 (iterator_counter s) o.1 (consumers s) (channels s)
    (resource_policies s) (billing_commitment_status s).

(** ** Errors *)

Definition invalid_argument (msg : string) : AwsServiceError := Sqs.aws_error 400 "InvalidArgumentException" msg.
Definition validation_exception (msg : string) : AwsServiceError := Sqs.aws_error 400 "ValidationException" msg.
Definition resource_not_found_arn (arn : string) : AwsServiceError :=
  Sqs.aws_error 400 "ResourceNotFoundException" ("Resource " +:+ arn +:+ " not found.").
Definition stream_not_found (account name : string) : AwsServiceError :=
  Sqs.aws_error 400 "ResourceNotFoundException"
    ("Stream " +:+ name +:+ " under account " +:+ account +:+ " not found.").
Definition expired_iterator : AwsServiceError :=
  Sqs.aws_error 400 "ExpiredIteratorException" "Shard iterator is expired or invalid.".
Definition auto_requires_on_demand : AwsServiceError :=
  invalid_argument "The AUTO record distribution strategy is only supported for streams in ON_DEMAND capacity mode".

(** [fakecloud-core/src/validation.rs]. *)
Definition validate_string_length (field value : string) (min max : nat) : Result AwsServiceError unit :=
  if (byte_len value <? min)%nat || (max <? byte_len value)%nat
  then Err (validation_exception ("Value at '" +:+ field +:+ "' failed to satisfy constraint: Member must have length between "
              +:+ print_Z (Z.of_nat min) +:+ " and " +:+ print_Z (Z.of_nat max)))
  else Ok tt.

Definition validate_optional_string_length (field : string) (value : option string) (min max : nat)
  : Result AwsServiceError unit :=
  match value with Some v => validate_string_length field v min max | None => Ok tt end.

Definition validate_optional_json_range (field : string) (value : Value) (min max : Z)
  : Result AwsServiceError unit :=
  match value with
  | Null => Ok tt
  | _ =>
      let e := validation_exception ("Value at '" +:+ field +:+ "' failed to satisfy constraint: Member must have value between "
                 +:+ print_Z min +:+ " and " +:+ print_Z max) in
      n ← ok_or e (as_i64 value);
      if (n <? min)%Z || (max <? n)%Z then Err e else Ok tt
  end.

(** ** Request members *)

(** [body[key].as_str().filter(|v| !v.is_empty())]. *)
Definition non_empty_str (b : Value) (key : string) : option string :=
  s ← as_str (index b key); if is_empty_str s then None else Some s.

Definition require_stream_name (b : Value) : Result AwsServiceError string :=
  name ← ok_or (invalid_argument "StreamName is required") (non_empty_str b "StreamName");
  _ ← validate_string_length "StreamName" name 1 128;
  Ok name.

Definition resolve_stream_name (s : KinesisState) (b : Value) : Result AwsServiceError string :=
  match non_empty_str b "StreamName" with
  | Some name => _ ← validate_string_length "StreamName" name 1 128; Ok name
  | None =>
      match non_empty_str b "StreamARN" with
      | Some arn =>
          let name := last_segment "/" arn in
          if arn_in_region s arn && bool_decide (is_Some (streams s !! name)) then Ok name
          else Err (stream_not_found (account_id s) name)
      | None => Err (invalid_argument "StreamName or StreamARN is required")
      end
  end.

Definition lookup_stream (s : KinesisState) (b : Value) : Result AwsServiceError KinesisStream :=
  name ← resolve_stream_name s b;
  ok_or (stream_not_found (account_id s) name) (streams s !! name).

Definition require_shard_id (b : Value) : Result AwsServiceError string :=
  ok_or (invalid_argument "ShardId is required") (non_empty_str b "ShardId").

Definition require_resource_arn (b : Value) : Result AwsServiceError string :=
  arn ← ok_or (invalid_argument "ResourceARN is required") (non_empty_str b "ResourceARN");
  _ ← validate_string_length "ResourceARN" arn 1 2048;
  Ok arn.

Definition validate_stream_id (b : Value) : Result AwsServiceError unit :=
  validate_optional_string_length "StreamId" (as_str (index b "StreamId")) 1 24.

Definition parse_record_distribution_strategy (v : Value) : Result AwsServiceError (option string) :=
  match as_str v with
  | None => Ok None
  | Some raw =>
      if negb (String.eqb raw RECORD_DISTRIBUTION_AUTO)
         && negb (String.eqb raw RECORD_DISTRIBUTION_USER_PARTITION_KEY)
      then Err (validation_exception ("1 validation error detected: Value '" +:+ raw +:+
                  "' at 'recordDistributionStrategy' failed to satisfy constraint: Member must satisfy enum value set: [AUTO, USER_PARTITION_KEY]"))
      else Ok (Some raw)
  end.

(** ** Shards and the hash space *)

(** [u128::MAX]. *)
Definition MAX_HASH_KEY : Z := (2 ^ 128 - 1)%Z.

Definition parse_u128 (s : string) : option Z := parse_unsigned MAX_HASH_KEY s.

Fixpoint zeros (n : nat) : string := match n with 0 => EmptyString | S n => String "0" (zeros n) end.

(** [{:0w}] on an unsigned number. *)
Definition pad0 (w : nat) (z : Z) : string :=
  let s := print_Z z in zeros (w - String.length s) +:+ s.

Definition shard_id_of (i : Z) : string := "shardId-" +:+ pad0 12 i.

Definition shard_hash_range (sh : KinesisShard) : Z * Z :=
  (default 0%Z (parse_u128 (starting_hash_key sh)), default 0%Z (parse_u128 (ending_hash_key sh))).

Definition new_shard (id : string) (start end_ : Z) (parent adjacent : option string) : KinesisShard :=
  mkShard id (print_Z start) (print_Z end_) parent adjacent true 1 [].

(** The [i]-th of [count] equal ranges. *)
Definition uniform_range (count i : Z) : Z * Z :=
  (if (i =? 0)%Z then 0%Z else (MAX_HASH_KEY / count * i + 1)%Z,
   if (i =? count - 1)%Z then MAX_HASH_KEY else (MAX_HASH_KEY / count * (i + 1))%Z).

Definition build_stream_shards (count : Z) : list KinesisShard :=
  (fun i => let '(start, end_) := uniform_range count i in
            new_shard (shard_id_of i) start end_ None None) <$> seqZ 0 count.

Definition find_open_shard_idx (l : list KinesisShard) (id : string) : Result AwsServiceError nat :=
  match list_find (fun sh => shard_id sh = id /\ is_open sh = true) l with
  | Some (n, _) => Ok n
  | None => Err (invalid_argument ("Shard " +:+ id +:+ " not found or not open"))
  end.

(** [next_shard_id]: the id and the advanced counter. *)
Definition next_shard_id (next : Z) : string * Z := (shard_id_of next, next + 1)%Z.

(** [close_shard]: the first shard with the id. *)
Fixpoint close_shard (l : list KinesisShard) (id : string) : list KinesisShard :=
  match l with
  | [] => []
  | sh :: l => if String.eqb (shard_id sh) id then closed sh :: l else sh :: close_shard l id
  end.

Definition open_count (l : list KinesisShard) : Z := Z.of_nat (length (filter (fun sh => is_open sh = true) l)).

(** The body of [MergeShards] after the request's members. *)
Definition merge_stream (st : KinesisStream) (shard_to_merge adjacent_shard : string)
  : Result AwsServiceError KinesisStream :=
  if String.eqb shard_to_merge adjacent_shard
  then Err (invalid_argument "ShardToMerge and AdjacentShardToMerge must be different shards")
  else
    i1 ← find_open_shard_idx (shards st) shard_to_merge;
    i2 ← find_open_shard_idx (shards st) adjacent_shard;
    sh1 ← ok_or (invalid_argument EmptyString) (shards st !! i1);
    sh2 ← ok_or (invalid_argument EmptyString) (shards st !! i2);
    let '(start1, end1) := shard_hash_range sh1 in
    let '(start2, end2) := shard_hash_range sh2 in
    let adjacent e s := (e <? MAX_HASH_KEY)%Z && (e + 1 =? s)%Z in
    if negb (adjacent end1 start2) && negb (adjacent end2 start1)
    then Err (invalid_argument "ShardToMerge and AdjacentShardToMerge must be adjacent shards")
    else
      let l := alter closed i2 (alter closed i1 (shards st)) in
      let '(id, next) := next_shard_id (next_shard_index st) in
      let l := l ++ [new_shard id (Z.min start1 start2) (Z.max end1 end2) (Some shard_to_merge)
                       (Some adjacent_shard)] in
      Ok (with_layout st l next (Z.of_nat (length l)) (open_count l)).

(** The body of [SplitShard]. *)
Definition split_stream (st : KinesisStream) (shard_to_split new_starting_hash_key : string)
  : Result AwsServiceError KinesisStream :=
  i ← find_open_shard_idx (shards st) shard_to_split;
  sh ← ok_or (invalid_argument EmptyString) (shards st !! i);
  let '(old_start, old_end) := shard_hash_range sh in
  split_point ← ok_or (invalid_argument "NewStartingHashKey must be a valid number")
                  (parse_u128 new_starting_hash_key);
  if (split_point <=? old_start)%Z || (old_end <? split_point)%Z
  then Err (invalid_argument "NewStartingHashKey must be within the shard's hash key range")
  else
    let l := alter closed i (shards st) in
    let '(id1, next) := next_shard_id (next_shard_index st) in
    let '(id2, next) := next_shard_id next in
    let l := l ++ [new_shard id1 old_start (split_point - 1) (Some shard_to_split) None;
                   new_shard id2 split_point old_end (Some shard_to_split) None] in
    Ok (with_layout st l next (Z.of_nat (length l)) (open_count l)).

(** ** Resharding *)

(** [sort_unstable] and [dedup] of cut points. *)
Definition sorted_cuts (l : list Z) : list Z := remove_dups (merge_sort Z.le l).

(** Consecutive cuts as inclusive ranges, the last one up to the maximum. *)
Fixpoint refinement_of (cuts : list Z) : list (Z * Z) :=
  match cuts with
  | [] => []
  | [start] => [(start, MAX_HASH_KEY)]
  | start :: (next :: _) as rest => (start, next - 1)%Z :: refinement_of rest
  end.

(** A shard's range, with the defaults [reshard_uniform] uses. *)
Definition reshard_range (sh : KinesisShard) : Z * Z :=
  (default 0%Z (parse_u128 (starting_hash_key sh)), default MAX_HASH_KEY (parse_u128 (ending_hash_key sh))).

Definition parent_for (original : list (string * (Z * Z))) (start end_ : Z) : option string :=
  fst <$> head (filter (fun o : string * (Z * Z) => (o.2.1 <= start /\ end_ <= o.2.2)%Z) original).

(** The refinement as open shards, with the pieces' ids. *)
Fixpoint push_pieces (original : list (string * (Z * Z))) (pieces : list (Z * Z))
  (l : list KinesisShard) (next : Z) : list KinesisShard * Z * list (Z * Z * string) :=
  match pieces with
  | [] => (l, next, [])
  | (start, end_) :: pieces =>
      let '(id, next) := next_shard_id next in
      let l := l ++ [new_shard id start end_ (parent_for original start end_) None] in
      let '(l, next, ids) := push_pieces original pieces l next in
      (l, next, (start, end_, id) :: ids)
  end.

(** The merge chain of one target range. *)
Fixpoint fold_pieces (tstart : Z) (acc : string) (rest : list (Z * string)) (l : list KinesisShard) (next : Z)
  : list KinesisShard * Z :=
  match rest with
  | [] => (l, next)
  | (next_end, next_id) :: rest =>
      let l := close_shard l next_id in
      let '(merged_id, next) := next_shard_id next in
      let l := l ++ [new_shard merged_id tstart next_end (Some acc) (Some next_id)] in
      fold_pieces tstart merged_id rest (close_shard l acc) next
  end.

Definition merge_target (ids : list (Z * Z * string)) (ln : list KinesisShard * Z) (target : Z * Z)
  : list KinesisShard * Z :=
  let '(l, next) := ln in
  let '(tstart, tend) := target in
  let pieces := (fun p : Z * Z * string => (p.1.2, p.2)) <$>
    filter (fun p : Z * Z * string => (tstart <= p.1.1 /\ p.1.2 <= tend)%Z) ids in
  match pieces with
  | (_, first) :: (_ :: _) as rest => fold_pieces tstart first rest (close_shard l first) next
  | _ => (l, next)
  end.

Definition reshard_uniform (st : KinesisStream) (target : Z) : KinesisStream :=
  let opened := filter (fun sh => is_open sh = true) (shards st) in
  let target_ranges := uniform_range target <$> seqZ 0 target in
  let cuts := sorted_cuts (0%Z :: (fst <$> (reshard_range <$> opened)) ++ (fst <$> target_ranges)) in
  let original := (fun sh => (shard_id sh, reshard_range sh)) <$> opened in
  let '(l, next, ids) :=
    push_pieces original (refinement_of cuts) (closed <$> shards st) (next_shard_index st) in
  let '(l, next) := foldl (merge_target ids) (l, next) target_ranges in
  with_layout st l next (Z.of_nat (length l)) target.

(** ** Routing *)

Section Routing.
Context `{KinesisHost}.

Definition partition_key_hash (key : string) : Z := md5_u128 key.

Definition routing_hash (key : string) (explicit : option string) : Result AwsServiceError Z :=
  match explicit with
  | Some raw =>
      if is_empty_str raw then Ok (partition_key_hash key)
      else ok_or (invalid_argument "ExplicitHashKey must be a valid 128-bit integer") (parse_u128 raw)
  | None => Ok (partition_key_hash key)
  end.

(** The open shard that contains the hash, else the last open one, else the
    last. *)
Fixpoint select_from (l : list KinesisShard) (idx : nat) (hash : Z) (fallback : option nat) : option nat :=
  match l with
  | [] => fallback
  | sh :: l =>
      if negb (is_open sh) then select_from l (S idx) hash fallback
      else
        let '(start, end_) := shard_hash_range sh in
        if (start <=? hash)%Z && (hash <=? end_)%Z then Some idx
        else select_from l (S idx) hash (Some idx)
  end.

Definition select_shard_index_for_hash (st : KinesisStream) (hash : Z) : nat :=
  default (length (shards st) - 1) (select_from (shards st) 0 hash None).

Definition open_indexes (l : list KinesisShard) : list nat :=
  fst <$> filter (fun ns : nat * KinesisShard => is_open ns.2 = true) (imap pair l).

(** The index a record goes to, and the stream with its cursor advanced. *)
Definition select_shard (st : KinesisStream) (key : string) (explicit : option string)
  : Result AwsServiceError (nat * KinesisStream) :=
  if bool_decide (shards st = []) then Err (invalid_argument "Stream has no shards to route to")
  else if String.eqb (record_distribution_strategy st) RECORD_DISTRIBUTION_AUTO then
    _ ← routing_hash key explicit;
    let opened := open_indexes (shards st) in
    let idx :=
      match opened with
      | [] => length (shards st) - 1
      | _ => default 0 (opened !! Z.to_nat (auto_distribution_cursor st mod Z.of_nat (length opened)))
      end in
    Ok (idx, with_cursor st ((auto_distribution_cursor st + 1) mod 2 ^ 64))
  else
    hash ← routing_hash key explicit;
    Ok (select_shard_index_for_hash st hash, st).

End Routing.

(** ** Records *)

Fixpoint keep_digits (s : string) : string :=
  match s with
  | EmptyString => EmptyString
  | String c s => if is_ascii_digit c then String c (keep_digits s) else keep_digits s
  end.

Definition shard_discriminator (id : string) : Z :=
  Z.min (default 0%Z (parse_u64 (keep_digits (last_segment "-" id)))) 99999.

Definition sequence_number_for (id : string) (n : Z) : string :=
  pad0 5 (shard_discriminator id) +:+ pad0 51 n.

Definition append_record (now : Z) (sh : KinesisShard) (key : string) (bytes : list Z)
  : KinesisShard * string :=
  let seq := sequence_number_for (shard_id sh) (next_sequence_number sh) in
  (mkShard (shard_id sh) (starting_hash_key sh) (ending_hash_key sh) (parent_shard_id sh)
     (adjacent_parent_shard_id sh) (is_open sh) (next_sequence_number sh + 1)
     (records sh ++ [mkRecord seq key bytes now]), seq).

(** The record placed on the shard at an index. *)
Definition append_at (now : Z) (st : KinesisStream) (idx : nat) (key : string) (bytes : list Z)
  : option (KinesisStream * (string * string)) :=
  sh ← shards st !! idx;
  let '(sh', seq) := append_record now sh key bytes in
  Some (with_shards st (<[idx := sh']> (shards st)), (shard_id sh, seq)).

Definition DEFAULT_MAX_RECORD_BYTES : Z := 1024 * 1024.
Definition MAX_PUT_RECORDS_COUNT : nat := 500.
Definition DEFAULT_MAX_PUT_RECORDS_BYTES : Z := 5 * 1024 * 1024.
Definition MAX_PARTITION_KEY_CHARS : nat := 256.

Definition effective_max_record_bytes (st : KinesisStream) : Z :=
  match max_record_size_kib st with
  | Some kib => if (0 <? kib)%Z then (kib * 1024)%Z else DEFAULT_MAX_RECORD_BYTES
  | None => DEFAULT_MAX_RECORD_BYTES
  end.

Definition effective_max_batch_bytes (st : KinesisStream) : Z :=
  Z.max (effective_max_record_bytes st) DEFAULT_MAX_PUT_RECORDS_BYTES.

Definition record_size (bytes : list Z) (key : string) : Z := Z.of_nat (length bytes + byte_len key).

Definition empty_partition_key : AwsServiceError :=
  validation_exception "1 validation error detected: Value at 'partitionKey' failed to satisfy constraint: Member must have length greater than or equal to 1".

Definition require_partition_key (b : Value) (st : KinesisStream) : Result AwsServiceError string :=
  let auto := String.eqb (record_distribution_strategy st) RECORD_DISTRIBUTION_AUTO in
  let key :=
    match as_str (index b "PartitionKey") with
    | None => if auto then Ok None else Err (invalid_argument "PartitionKey is required")
    | Some key =>
        if is_empty_str key
        then Err (if auto then empty_partition_key else invalid_argument "PartitionKey is required")
        else Ok (Some key)
    end in
  key ← key;
  match key with
  | None => Ok EmptyString
  | Some key =>
      if (MAX_PARTITION_KEY_CHARS <? String.length key)%nat
      then Err (validation_exception "1 validation error detected: Value at 'partitionKey' failed to satisfy constraint: Member must have length less than or equal to 256")
      else Ok key
  end.

(** [AwsServiceError::message]. *)
Definition message (e : AwsServiceError) : string :=
  match e with
  | Sqs.ServiceNotFound service => "service not found: " +:+ service
  | Sqs.ActionNotImplemented service action =>
      "action " +:+ action +:+ " not implemented for service " +:+ service
  | Sqs.AwsError _ _ message _ _ => message
  end.

Section Put.
Context `{KinesisHost}.

Definition decode_record_data (v : Value) : Result AwsServiceError (list Z) :=
  encoded ← ok_or (invalid_argument "Data must be a base64 string") (as_str v);
  ok_or (invalid_argument "Data must be valid base64") (base64_decode encoded).

(** [PutRecords] counts a stream whose selected shard is missing as a failed
    entry; [append_at] never fails on the index [select_shard] returns. *)
Definition put_records_entry (now : Z) (st : KinesisStream) (entry : Value)
  : KinesisStream * Result string (string * string) :=
  let auto := String.eqb (record_distribution_strategy st) RECORD_DISTRIBUTION_AUTO in
  let key :=
    match as_str (index entry "PartitionKey") with
    | None => if auto then Ok EmptyString else Err "PartitionKey is required"%string
    | Some key =>
        if is_empty_str key
        then Err (if auto then message empty_partition_key else "PartitionKey is required"%string)
        else Ok key
    end in
  match key with
  | Err e => (st, Err e)
  | Ok key =>
      if (MAX_PARTITION_KEY_CHARS <? String.length key)%nat
      then (st, Err "PartitionKey must have length less than or equal to 256"%string)
      else
        match decode_record_data (index entry "Data") with
        | Err e => (st, Err (message e))
        | Ok bytes =>
            if (effective_max_record_bytes st <? record_size bytes key)%Z
            then (st, Err ("Record size (Data + PartitionKey) exceeds the "
                           +:+ print_Z (effective_max_record_bytes st) +:+ "-byte per-record limit"))
            else
              match select_shard st key (as_str (index entry "ExplicitHashKey")) with
              | Err e => (st, Err (message e))
              | Ok (idx, st) =>
                  match append_at now st idx key bytes with
                  | Some (st, ids) => (st, Ok ids)
                  | None => (st, Err EmptyString)
                  end
              end
        end
  end.

Definition put_records_entry_size (entry : Value) : Z :=
  let data_len := match decode_record_data (index entry "Data") with Ok b => length b | Err _ => 0 end in
  let key_len := match as_str (index entry "PartitionKey") with Some k => byte_len k | None => 0 end in
  Z.of_nat (data_len + key_len).

End Put.

(** ** Iterator positions *)

(** [&s[..5]]. *)
Definition string_take5 (s : string) : option string :=
  match s with
  | String a (String b (String c (String d (String e _)))) =>
      Some (String a (String b (String c (String d (String e EmptyString)))))
  | _ => None
  end.

Definition require_starting_sequence_number (b : Value) : Result AwsServiceError string :=
  ok_or (invalid_argument "StartingSequenceNumber is required") (non_empty_str b "StartingSequenceNumber").

Definition sequence_shard_discriminator (seq : string) : option Z :=
  if negb (byte_len seq =? 56)%nat || negb (string_forallb is_ascii_digit seq) then None
  else string_take5 seq ≫= parse_u32.

Definition resolve_sequence_number_index (sh : KinesisShard) (seq : string) (after : bool)
  : Result AwsServiceError nat :=
  match list_find (fun r => sequence_number r = seq) (records sh) with
  | Some (pos, _) => Ok (if after then S pos else pos)
  | None =>
      match records sh with
      | first :: _ =>
          if BTree.str_leb seq (sequence_number first) && negb (String.eqb seq (sequence_number first))
             && bool_decide (sequence_shard_discriminator seq = Some (shard_discriminator (shard_id sh)))
          then Ok 0 else Err (invalid_argument "StartingSequenceNumber is invalid")
      | [] => Err (invalid_argument "StartingSequenceNumber is invalid")
      end
  end.

End Kinesis.
