(* ===== verification/KinesisService.v ===== *)
(** * The Kinesis handlers

    The operations of [fakecloud-kinesis/src/service.rs] on one region's state
    and the delivery entry point of [delivery.rs].  A handler takes the parsed
    body and the clock readings it makes and returns the state with the members
    of its response; rendering to JSON is left out.  Creating and changing
    delivery channels, and the read-only descriptions, are not modelled. *)

From Stdlib Require Import ZArith Lia Bool String Ascii SpecFloat.
From stdpp Require Import base option list strings gmap sorting.
From S2P Require Import Prelude Json Arn BTree Sqs MultiAccount Kinesis.
Import Kinesis.

Module KinesisService.

Definition Handler (A : Type) : Type := KinesisState -> KinesisState * Result AwsServiceError A.

(** A handler that computes its answer and the new state before changing
    anything. *)
Definition commit {A} (s : KinesisState) (r : Result AwsServiceError (KinesisState * A))
  : KinesisState * Result AwsServiceError A :=
  match r with
  | Ok (s', a) => (s', Ok a)
  | Err e => (s, Err e)
  end.

(** [state.streams.get_mut(&name).ok_or_else(..)] under the resolved name. *)
Definition named_stream (s : KinesisState) (b : Value) : Result AwsServiceError (string * KinesisStream) :=
  name ← resolve_stream_name s b;
  st ← ok_or (stream_not_found (account_id s) name) (streams s !! name);
  Ok (name, st).

(** The string members of a JSON object, into a tag map. *)
Definition extend_tags (m : gmap string string) (members : list (string * Value)) : gmap string string :=
  foldl (fun m (kv : string * Value) => match as_str kv.2 with Some v => <[kv.1 := v]> m | None => m end) m members.

Definition remove_tags (m : gmap string string) (keys : list Value) : gmap string string :=
  foldl (fun m k => match as_str k with Some k => delete k m | None => m end) m keys.

Definition with_tags (st : KinesisStream) (m : gmap string string) : KinesisStream :=
  mkStream (stream_name st) (stream_arn_of st) (stream_status st) (stream_creation_timestamp st)
    (retention_period_hours st) (stream_mode st) (encryption_type st) (key_id st) (shard_count st)
    (open_shard_count st) m (shards st) (next_shard_index st) (enhanced_metrics st)
    (warm_throughput_mibps st) (max_record_size_kib st) (record_distribution_strategy st)
    (auto_distribution_cursor st).

(** The settings of a stream: retention, mode, encryption and key, metrics,
    throughput, record size and distribution. *)
Definition with_settings (st : KinesisStream) (retention : Z) (mode encryption : string) (key : option string)
  (metrics : list string) (warm size : option Z) (distribution : string) : KinesisStream :=
  mkStream (stream_name st) (stream_arn_of st) (stream_status st) (stream_creation_timestamp st)
    retention mode encryption key (shard_count st) (open_shard_count st) (stream_tags st) (shards st)
    (next_shard_index st) metrics warm size distribution (auto_distribution_cursor st).

(** ** Streams *)

Definition create_stream (now : Z) (rg : string) (b : Value) : Handler unit := fun s => commit s (
  name ← require_stream_name b;
  let count := default 1%Z (as_i64 (index b "ShardCount")) in
  if (count <=? 0)%Z then Err (invalid_argument "ShardCount must be greater than zero")
  else if (2 ^ 31 - 1 <? count)%Z
  then Err (invalid_argument "ShardCount must be less than or equal to 2147483647")
  else
    let mode := default "PROVISIONED"%string (as_str (index (index b "StreamModeDetails") "StreamMode")) in
    if negb (String.eqb mode "PROVISIONED") && negb (String.eqb mode "ON_DEMAND")
    then Err (invalid_argument "StreamMode must be PROVISIONED or ON_DEMAND")
    else
      strategy ← parse_record_distribution_strategy (index b "RecordDistributionStrategy");
      let strategy := default RECORD_DISTRIBUTION_USER_PARTITION_KEY strategy in
      if String.eqb strategy RECORD_DISTRIBUTION_AUTO && negb (String.eqb mode "ON_DEMAND")
      then Err auto_requires_on_demand
      else
        let warm := as_i64 (index b "WarmThroughputMiBps") in
        if match warm with Some w => (w <? 0)%Z | None => false end
        then Err (invalid_argument "WarmThroughputMiBps must be >= 0")
        else
          _ ← validate_optional_json_range "MaxRecordSizeInKiB" (index b "MaxRecordSizeInKiB") 1024 10240;
          let size := as_i64 (index b "MaxRecordSizeInKiB") in
          let effective := if String.eqb mode "ON_DEMAND" then 4%Z else count in
          if bool_decide (is_Some (streams s !! name))
          then Err (Sqs.aws_error 400 "ResourceInUseException"
                      ("Stream " +:+ name +:+ " under account " +:+ account_id s +:+ " already exists."))
          else
            let tags := match as_object (index b "Tags") with Some m => extend_tags ∅ m | None => ∅ end in
            Ok (put_stream s name
                  (mkStream name (stream_arn s rg name) "ACTIVE" now 24 mode "NONE" None effective effective
                     tags (build_stream_shards effective) effective [] warm size strategy 0), tt)).

(** Leases and checkpoints of the stream stay. *)
Definition delete_stream (rg : string) (b : Value) : Handler unit := fun s => commit s (
  name ← resolve_stream_name s b;
  match channels_for_stream s name with
  | _ :: _ as attached =>
      Err (Sqs.aws_error 400 "ResourceInUseException"
             ("Stream " +:+ name +:+ " has channels attached to it: " +:+ String.concat ", " attached
              +:+ ". Delete them before deleting the stream."))
  | [] =>
      _ ← ok_or (stream_not_found (account_id s) name) (streams s !! name);
      let arn := stream_arn s rg name in
      Ok (mkState (account_id s) (region s) (delete name (streams s)) (iterators s) (iterator_counter s)
            (lambda_checkpoints s)
            (filter (fun kc : string * KinesisConsumer => consumer_stream_arn kc.2 <> arn) (consumers s))
            (channels s) (resource_policies s) (billing_commitment_status s), tt)
  end).

Definition add_tags_to_stream (b : Value) : Handler unit := fun s => commit s (
  '(name, st) ← named_stream s b;
  members ← ok_or (invalid_argument "Tags must be an object") (as_object (index b "Tags"));
  Ok (put_stream s name (with_tags st (extend_tags (stream_tags st) members)), tt)).

Definition remove_tags_from_stream (b : Value) : Handler unit := fun s => commit s (
  '(name, st) ← named_stream s b;
  keys ← ok_or (invalid_argument "TagKeys must be an array") (as_array (index b "TagKeys"));
  Ok (put_stream s name (with_tags st (remove_tags (stream_tags st) keys)), tt)).

Definition update_retention_period (increasing : bool) (b : Value) : Handler unit := fun s => commit s (
  hours ← ok_or (invalid_argument "RetentionPeriodHours is required") (as_i64 (index b "RetentionPeriodHours"));
  if negb ((24 <=? hours)%Z && (hours <=? 8760)%Z)
  then Err (invalid_argument "RetentionPeriodHours must be between 24 and 8760")
  else
    '(name, st) ← named_stream s b;
    if increasing && (hours <? retention_period_hours st)%Z
    then Err (invalid_argument "RetentionPeriodHours must be greater than the current retention period")
    else if negb increasing && (retention_period_hours st <? hours)%Z
    then Err (invalid_argument "RetentionPeriodHours must be less than the current retention period")
    else Ok (put_stream s name
               (with_settings st hours (stream_mode st) (encryption_type st) (key_id st) (enhanced_metrics st)
                  (warm_throughput_mibps st) (max_record_size_kib st) (record_distribution_strategy st)), tt)).

(** ** Writing *)

Section Write.
Context `{KinesisHost}.

Record PutRecordOutput := mkPut { pr_encryption : string; pr_sequence : string; pr_shard : string }.

(** The trimming at the start is kept even when the request then fails. *)
Definition put_record (trim_at append_time : Z) (b : Value) : Handler PutRecordOutput := fun s =>
  let s := trim_expired_records_at trim_at s in
  commit s (
    '(name, st) ← named_stream s b;
    key ← require_partition_key b st;
    bytes ← decode_record_data (index b "Data");
    if (effective_max_record_bytes st <? record_size bytes key)%Z
    then Err (validation_exception ("Record size (Data + PartitionKey) exceeds the "
                +:+ print_Z (effective_max_record_bytes st) +:+ "-byte per-record limit"))
    else
      '(idx, st) ← select_shard st key (as_str (index b "ExplicitHashKey"));
      '(st', (sid, seq)) ← ok_or (invalid_argument EmptyString) (append_at append_time st idx key bytes);
      Ok (put_stream s name st', mkPut (encryption_type st) seq sid)).

(** Entries one by one; [append_time n] is the clock at the [n]-th. *)
Fixpoint put_entries (n : nat) (append_time : nat -> Z) (st : KinesisStream) (entries : list Value)
  : KinesisStream * list (Result string (string * string)) :=
  match entries with
  | [] => (st, [])
  | entry :: entries =>
      let '(st, r) := put_records_entry (append_time n) st entry in
      let '(st, rs) := put_entries (S n) append_time st entries in
      (st, r :: rs)
  end.

Record PutRecordsOutput := mkPuts {
  prs_encryption : string; prs_failed : nat; prs_results : list (Result string (string * string)) }.

Definition put_records (trim_at : Z) (append_time : nat -> Z) (b : Value) : Handler PutRecordsOutput := fun s =>
  let s := trim_expired_records_at trim_at s in
  commit s (
    '(name, st) ← named_stream s b;
    entries ← ok_or (invalid_argument "Records must be an array") (as_array (index b "Records"));
    if bool_decide (entries = []) then Err (invalid_argument "Records must not be empty")
    else if (MAX_PUT_RECORDS_COUNT <? length entries)%nat
    then Err (validation_exception "1 validation error detected: Value at 'records' failed to satisfy constraint: Member must have length less than or equal to 500")
    else
      let aggregate := foldr Z.add 0%Z (put_records_entry_size <$> entries) in
      if (effective_max_batch_bytes st <? aggregate)%Z
      then Err (validation_exception ("PutRecords aggregate payload (" +:+ print_Z aggregate
                  +:+ " bytes) exceeds the " +:+ print_Z (effective_max_batch_bytes st) +:+ "-byte per-request limit"))
      else
        let '(st', results) := put_entries 0 append_time st entries in
        Ok (put_stream s name st',
            mkPuts (encryption_type st') (length (filter (fun r => is_ok r = false) results)) results)).

(** [KinesisDeliveryImpl::put_record], once the region's state is found: the
    state with the record, or nothing when the stream is missing or takes none. *)
Definition deliver_to (now : Z) (s : KinesisState) (name text key : string) : option KinesisState :=
  st ← streams s !! name;
  if bool_decide (shards st = []) then None
  else
    match select_shard st key None with
    | Ok (idx, st) =>
        let bytes := default (as_bytes text) (base64_decode text) in
        '(st, _) ← append_at now st idx key bytes;
        Some (put_stream s name st)
    | Err _ => None
    end.

(** ... on the container of all regions. *)
Definition deliver_record (now : Z) (m : MultiRegionState KinesisState) (stream_ref text key : string)
  : MultiRegionState KinesisState * bool :=
  let name := last_segment "/" stream_ref in
  let account := default (default_account_id m) (Arn.account_of stream_ref) in
  let rg := default (mas_region m) (Arn.region_of stream_ref) in
  match (s ← regional m account rg; deliver_to now s name text key) with
  | Some s => (put_regional m account rg s, true)
  | None => (m, false)
  end.

End Write.

(** ** Reading *)

(** [x.trunc() as i64], for a finite non-negative [x]. *)
Definition whole_seconds (x : f64) : Z :=
  match x with
  | S754_finite _ m e => if (0 <=? e)%Z then (Z.pos m * 2 ^ e)%Z else Z.shiftr (Z.pos m) (- e)
  | _ => 0%Z
  end.

(** [x.trunc()]. *)
Definition f64_trunc (x : f64) : f64 :=
  match x with
  | S754_finite _ _ e => if (0 <=? e)%Z then x else f64_of_Z (whole_seconds x)
  | _ => x
  end.

Definition is_finite (x : f64) : bool :=
  match x with S754_finite _ _ _ | S754_zero _ => true | _ => false end.

(** [((x - x.trunc()) * 1_000_000_000.0) as u32]. *)
Definition fraction_nanos (x : f64) : Z :=
  whole_seconds (SFmul f64_prec f64_emax (SFsub f64_prec f64_emax x (f64_trunc x)) (f64_of_Z 1000000000)).

(** What a request comes to: an answer, an error, or a panic. *)
Inductive Reply (A : Type) :=
| Answered (a : A)
| Refused (e : AwsServiceError)
| Panicked.
Arguments Answered {A} a.
Arguments Refused {A} e.
Arguments Panicked {A}.

Section Read.
Context `{KinesisHost}.

(** An epoch in seconds as an instant. *)
Definition epoch_target (x : f64) : option Z :=
  from_timestamp (Z.min (whole_seconds x) i64_max) (Z.min (fraction_nanos x) (2 ^ 32 - 1)).

Definition shard_iterator_start_index (sh : KinesisShard) (iterator_type : string) (b : Value)
  : Result AwsServiceError nat :=
  if String.eqb iterator_type "TRIM_HORIZON" then Ok 0
  else if String.eqb iterator_type "LATEST" then Ok (length (records sh))
  else if String.eqb iterator_type "AT_SEQUENCE_NUMBER" then
    seq ← require_starting_sequence_number b;
    resolve_sequence_number_index sh seq false
  else if String.eqb iterator_type "AFTER_SEQUENCE_NUMBER" then
    seq ← require_starting_sequence_number b;
    resolve_sequence_number_index sh seq true
  else if String.eqb iterator_type "AT_TIMESTAMP" then
    ts ← ok_or (invalid_argument "Timestamp is required") (as_f64 (index b "Timestamp"));
    if negb (is_finite ts) || f64_ltb ts (f64_of_Z 0)
    then Err (invalid_argument "Timestamp must be a non-negative epoch")
    else
      target ← ok_or (invalid_argument "Timestamp is invalid") (epoch_target ts);
      Ok (default (length (records sh))
            (fst <$> list_find (fun r => (target <= approximate_arrival_timestamp r)%Z) (records sh)))
  else Err (invalid_argument "Unsupported ShardIteratorType").

Definition find_shard (st : KinesisStream) (id : string) : option KinesisShard :=
  snd <$> list_find (fun sh => shard_id sh = id) (shards st).

Definition get_shard_iterator (t : IteratorClock) (b : Value) : Handler string := fun s => commit s (
  name ← resolve_stream_name s b;
  sid ← require_shard_id b;
  iterator_type ← ok_or (invalid_argument "ShardIteratorType is required") (as_str (index b "ShardIteratorType"));
  st ← ok_or (stream_not_found (account_id s) name) (streams s !! name);
  sh ← ok_or (invalid_argument "ShardId is invalid") (find_shard st sid);
  idx ← shard_iterator_start_index sh iterator_type b;
  Ok (insert_iterator t s name sid idx)).

(** The first position from [start] whose record is inside the window. *)
Definition skip_expired (cutoff : Z) (l : list KinesisRecord) (start : nat) : nat :=
  start + expired_prefix cutoff (skipn start l).

Definition MAX_GET_RECORDS_BYTES : Z := 10 * 1024 * 1024.

Definition bytes_of (r : KinesisRecord) : Z := record_size (data r) (partition_key r).

(** How many of the records at [start_index] the batch takes: at most [limit],
    and after the first only while the sizes fit. *)
Fixpoint batch_size (limit : nat) (first : bool) (accumulated : Z) (l : list KinesisRecord) : nat :=
  match limit, l with
  | S limit, r :: l =>
      if negb first && (MAX_GET_RECORDS_BYTES <? accumulated + bytes_of r)%Z then 0
      else S (batch_size limit false (accumulated + bytes_of r) l)
  | _, _ => 0
  end.

(** [shard.records[start..end]], which panics when [end] is past the records. *)
Definition slice {A} (l : list A) (start end_ : nat) : option (list A) :=
  if (start <=? end_)%nat && (end_ <=? length l)%nat then Some (take (end_ - start) (drop start l)) else None.

Definition children_of (st : KinesisStream) (id : string) : list KinesisShard :=
  filter (fun c => parent_shard_id c = Some id \/ adjacent_parent_shard_id c = Some id) (shards st).

Record GetRecordsOutput := mkGet {
  gr_records : list KinesisRecord;
  gr_next : option string;
  gr_millis_behind : Z;
  gr_children : list KinesisShard
}.

(** [(tip - last).num_milliseconds().max(0)], in nanoseconds truncated. *)
Definition millis_between (tip last : Z) : Z := Z.max (Z.quot (tip - last) 1000000) 0.

Definition millis_behind (l : list KinesisRecord) (end_ : nat) : Z :=
  if (length l <=? end_)%nat || (end_ =? 0)%nat then 0%Z
  else
    match l !! (end_ - 1), l !! (length l - 1) with
    | Some last, Some tip =>
        millis_between (approximate_arrival_timestamp tip) (approximate_arrival_timestamp last)
    | _, _ => 0%Z
    end.

Definition requested_limit (b : Value) : Result AwsServiceError nat :=
  match index b "Limit" with
  | Null => Ok (Z.to_nat 10000)
  | v =>
      n ← ok_or (invalid_argument "Limit must be an integer between 1 and 10000") (as_i64 v);
      if (n <? 1)%Z || (10000 <? n)%Z
      then Err (invalid_argument ("1 validation error detected: Value '" +:+ print_Z n +:+
                  "' at 'limit' failed to satisfy constraint: Member must have value less than or equal to 10000 and greater than or equal to 1"))
      else Ok (Z.to_nat n)
  end.

Definition without_iterator (s : KinesisState) (token : string) : KinesisState :=
  mkState (account_id s) (region s) (streams s) (delete token (iterators s)) (iterator_counter s)
    (lambda_checkpoints s) (consumers s) (channels s) (resource_policies s) (billing_commitment_status s).

(** The part of [GetRecords] after the lease is found valid. *)
Definition read_lease (t : IteratorClock) (cutoff_now : Z) (limit : nat) (lease : ShardIteratorLease)
  (s : KinesisState) : KinesisState * Reply GetRecordsOutput :=
  match streams s !! lease_stream_name lease with
  | None => (s, Refused (stream_not_found (account_id s) (lease_stream_name lease)))
  | Some st =>
      match find_shard st (lease_shard_id lease) with
      | None => (s, Refused (invalid_argument "ShardId is invalid"))
      | Some sh =>
          let start := skip_expired (cutoff_now - hours (retention_period_hours st)) (records sh)
                         (next_record_index lease) in
          let end_ := start + batch_size limit true 0 (drop start (records sh)) in
          match slice (records sh) start end_ with
          | None => (s, Panicked)
          | Some batch =>
              let drained := negb (is_open sh) && (length (records sh) <=? end_)%nat in
              let children := if drained then children_of st (lease_shard_id lease) else [] in
              let behind := millis_behind (records sh) end_ in
              if drained then (s, Answered (mkGet batch None behind children))
              else
                let '(s, token) := insert_iterator t s (lease_stream_name lease) (lease_shard_id lease) end_ in
                (s, Answered (mkGet batch (Some token) behind children))
          end
      end
  end.

(** [now] is the reading for the lease's expiry, [cutoff_now] for retention. *)
Definition get_records (t : IteratorClock) (now cutoff_now : Z) (b : Value) (s : KinesisState)
  : KinesisState * Reply GetRecordsOutput :=
  match non_empty_str b "ShardIterator", requested_limit b with
  | None, _ => (s, Refused (invalid_argument "ShardIterator is required"))
  | _, Err e => (s, Refused e)
  | Some token, Ok limit =>
      match iterators s !! token with
      | None => (s, Refused expired_iterator)
      | Some lease =>
          if (expires_at lease <? now)%Z then (without_iterator s token, Refused expired_iterator)
          else read_lease t cutoff_now limit lease s
      end
  end.

End Read.

(** ** Resharding *)

Definition merge_shards (b : Value) : Handler unit := fun s => commit s (
  _ ← validate_stream_id b;
  shard_to_merge ← ok_or (invalid_argument "ShardToMerge is required") (non_empty_str b "ShardToMerge");
  adjacent_shard ← ok_or (invalid_argument "AdjacentShardToMerge is required")
                     (non_empty_str b "AdjacentShardToMerge");
  '(name, st) ← named_stream s b;
  st ← merge_stream st shard_to_merge adjacent_shard;
  Ok (put_stream s name st, tt)).

Definition split_shard (b : Value) : Handler unit := fun s => commit s (
  _ ← validate_stream_id b;
  shard_to_split ← ok_or (invalid_argument "ShardToSplit is required") (non_empty_str b "ShardToSplit");
  key ← ok_or (invalid_argument "NewStartingHashKey is required") (non_empty_str b "NewStartingHashKey");
  '(name, st) ← named_stream s b;
  st ← split_stream st shard_to_split key;
  Ok (put_stream s name st, tt)).

Record UpdateShardCountOutput := mkUpdateShardCount {
  us_stream : string; us_arn : string; us_current : Z; us_target : Z }.

Definition update_shard_count (rg : string) (b : Value) : Handler UpdateShardCountOutput := fun s => commit s (
  _ ← validate_stream_id b;
  target ← ok_or (invalid_argument "TargetShardCount is required") (as_i64 (index b "TargetShardCount"));
  if (target <=? 0)%Z || (10000 <? target)%Z
  then Err (invalid_argument "TargetShardCount must be between 1 and 10000")
  else
    _ ← ok_or (invalid_argument "ScalingType is required") (as_str (index b "ScalingType"));
    '(name, st) ← named_stream s b;
    Ok (put_stream s name (reshard_uniform st target),
        mkUpdateShardCount name (stream_arn s rg name) (open_shard_count st) target)).

(** ** Listing shards *)

(** A JSON document as base64 text, and back when both decode. *)
Class ListShardsToken := {
  seal_token : Value -> string;
  open_token : string -> option Value
}.

Section ListShards.
Context `{KinesisHost} `{ListShardsToken}.

Definition encode_list_shards_token (last_shard_id : string) : string :=
  seal_token (VObject [("ExclusiveStartShardId"%string, VString last_shard_id)]).

Definition decode_list_shards_token (token : string) : Result AwsServiceError string :=
  parsed ← ok_or (invalid_argument "Invalid NextToken") (open_token token);
  ok_or (invalid_argument "Invalid NextToken") (non_empty_str parsed "ExclusiveStartShardId").

Definition str_gt (a b : string) : bool := negb (BTree.str_leb a b).

Definition shard_matches_filter (sh : KinesisShard) (filter_ : Value) : Result AwsServiceError bool :=
  filter_type ← ok_or (invalid_argument "ShardFilter.Type is required") (non_empty_str filter_ "Type");
  if String.eqb filter_type "AT_LATEST" then Ok (is_open sh)
  else if String.eqb filter_type "AT_TRIM_HORIZON" || String.eqb filter_type "FROM_TRIM_HORIZON" then Ok true
  else if String.eqb filter_type "AFTER_SHARD_ID" then
    after ← ok_or (invalid_argument "ShardFilter.ShardId is required for AFTER_SHARD_ID")
              (non_empty_str filter_ "ShardId");
    Ok (str_gt (shard_id sh) after)
  else if String.eqb filter_type "AT_TIMESTAMP" || String.eqb filter_type "FROM_TIMESTAMP" then
    ts ← ok_or (invalid_argument "ShardFilter.Timestamp is required for AT_TIMESTAMP/FROM_TIMESTAMP")
           (as_f64 (index filter_ "Timestamp"));
    if negb (is_finite ts) || f64_ltb ts (f64_of_Z 0)
    then Err (invalid_argument "ShardFilter.Timestamp must be a non-negative epoch")
    else
      target ← ok_or (invalid_argument "ShardFilter.Timestamp is invalid") (epoch_target ts);
      Ok (is_open sh || existsb (fun r => (target <=? approximate_arrival_timestamp r)%Z) (records sh))
  else Err (invalid_argument ("Unsupported ShardFilter.Type: " +:+ filter_type)).

Fixpoint filtered_shards (filter_ : option Value) (l : list KinesisShard)
  : Result AwsServiceError (list KinesisShard) :=
  match l with
  | [] => Ok []
  | sh :: l =>
      keep ← (match filter_ with Some f => shard_matches_filter sh f | None => Ok true end : Result AwsServiceError bool);
      l ← filtered_shards filter_ l;
      Ok (if (keep : bool) then sh :: l else l)
  end.

Definition past (exclusive_start : option string) (sh : KinesisShard) : bool :=
  match exclusive_start with Some id => str_gt (shard_id sh) id | None => true end.

Definition list_shards (b : Value) (s : KinesisState)
  : Result AwsServiceError (list KinesisShard * option string) :=
  _ ← validate_stream_id b;
  _ ← validate_optional_string_length "NextToken" (as_str (index b "NextToken")) 1 (Z.to_nat 1048576);
  _ ← validate_optional_json_range "MaxResults" (index b "MaxResults") 1 10000;
  let max_results := Z.to_nat (default 1000%Z (as_i64 (index b "MaxResults"))) in
  st ← lookup_stream s b;
  exclusive_start ←
    match as_str (index b "NextToken") with
    | Some token => id ← decode_list_shards_token token; Ok (Some id)
    | None => Ok (as_str (index b "ExclusiveStartShardId"))
    end;
  let shard_filter :=
    match get "ShardFilter" b with Some f => const f <$> as_object f | None => None end in
  kept ← filtered_shards shard_filter (shards st);
  let after := filter (fun sh => past exclusive_start sh = true) kept in
  let page := take max_results after in
  Ok (page,
      if (max_results <? length after)%nat
      then (fun sh => encode_list_shards_token (shard_id sh)) <$> last page
      else None).

End ListShards.

(** ** Settings *)

Definition with_policies (f : gmap string string -> gmap string string) (s : KinesisState) : KinesisState :=
  mkState (account_id s) (region s) (streams s) (iterators s) (iterator_counter s) (lambda_checkpoints s)
    (consumers s) (channels s) (f (resource_policies s)) (billing_commitment_status s).

Definition get_resource_policy (b : Value) (s : KinesisState) : Result AwsServiceError string :=
  _ ← validate_stream_id b;
  arn ← require_resource_arn b;
  _ ← ok_or (resource_not_found_arn arn) (stream_name_from_arn s arn);
  Ok (default EmptyString (resource_policies s !! arn)).

Definition put_resource_policy (b : Value) : Handler unit := fun s => commit s (
  _ ← validate_stream_id b;
  arn ← require_resource_arn b;
  policy ← ok_or (invalid_argument "Policy is required") (as_str (index b "Policy"));
  _ ← ok_or (resource_not_found_arn arn) (stream_name_from_arn s arn);
  Ok (with_policies <[arn := policy]> s, tt)).

Definition delete_resource_policy (b : Value) : Handler unit := fun s => commit s (
  _ ← validate_stream_id b;
  arn ← require_resource_arn b;
  _ ← ok_or (resource_not_found_arn arn) (stream_name_from_arn s arn);
  Ok (with_policies (delete arn) s, tt)).

Definition with_encryption (st : KinesisStream) (encryption : string) (key : option string) : KinesisStream :=
  with_settings st (retention_period_hours st) (stream_mode st) encryption key (enhanced_metrics st)
    (warm_throughput_mibps st) (max_record_size_kib st) (record_distribution_strategy st).

Definition start_stream_encryption (b : Value) : Handler unit := fun s => commit s (
  _ ← validate_stream_id b;
  encryption ← ok_or (invalid_argument "EncryptionType is required") (as_str (index b "EncryptionType"));
  if negb (String.eqb encryption "KMS")
  then Err (invalid_argument ("EncryptionType must be KMS for StartStreamEncryption, got " +:+ encryption))
  else
    key ← ok_or (invalid_argument "KeyId is required") (non_empty_str b "KeyId");
    _ ← validate_optional_string_length "KeyId" (Some key) 1 2048;
    '(name, st) ← named_stream s b;
    Ok (put_stream s name (with_encryption st encryption (Some key)), tt)).

Definition stop_stream_encryption (b : Value) : Handler unit := fun s => commit s (
  _ ← validate_stream_id b;
  _ ← ok_or (invalid_argument "EncryptionType is required") (as_str (index b "EncryptionType"));
  _ ← ok_or (invalid_argument "KeyId is required") (non_empty_str b "KeyId");
  _ ← validate_optional_string_length "KeyId" (as_str (index b "KeyId")) 1 2048;
  '(name, st) ← named_stream s b;
  Ok (put_stream s name (with_encryption st "NONE" None), tt)).

Definition SHARD_LEVEL_METRICS : list string :=
  ["IncomingBytes"; "IncomingRecords"; "OutgoingBytes"; "OutgoingRecords"; "WriteProvisionedThroughputExceeded";
   "ReadProvisionedThroughputExceeded"; "IteratorAgeMilliseconds"; "ALL"]%string.

(** [if !contains { push }] for each metric. *)
Definition push_missing (current desired : list string) : list string :=
  foldl (fun l m => if bool_decide (m ∈ l) then l else l ++ [m]) current desired.

Definition enabled_metrics (current desired : list string) : list string :=
  if bool_decide ("ALL"%string ∈ desired) then filter (fun m => m <> "ALL"%string) SHARD_LEVEL_METRICS
  else push_missing current desired.

Definition disabled_metrics (current desired : list string) : list string :=
  if bool_decide ("ALL"%string ∈ desired) then [] else filter (fun m => m ∉ desired) current.

Record MonitoringOutput := mkMonitoring {
  mo_stream : string; mo_arn : string; mo_current : list string; mo_desired : list string }.

Definition with_metrics (st : KinesisStream) (l : list string) : KinesisStream :=
  with_settings st (retention_period_hours st) (stream_mode st) (encryption_type st) (key_id st) l
    (warm_throughput_mibps st) (max_record_size_kib st) (record_distribution_strategy st).

(** [EnableEnhancedMonitoring] and [DisableEnhancedMonitoring], which differ in
    how the stream's metrics change. *)
Definition change_monitoring (change : list string -> list string -> list string) (rg : string) (b : Value)
  : Handler MonitoringOutput := fun s => commit s (
  _ ← validate_stream_id b;
  metrics ← ok_or (invalid_argument "ShardLevelMetrics is required") (as_array (index b "ShardLevelMetrics"));
  '(name, st) ← named_stream s b;
  let desired := omap as_str metrics in
  match list_find (fun m => m ∉ SHARD_LEVEL_METRICS) desired with
  | Some (_, m) => Err (invalid_argument ("Invalid ShardLevelMetrics value: " +:+ m))
  | None =>
      Ok (put_stream s name (with_metrics st (change (enhanced_metrics st) desired)),
          mkMonitoring name (stream_arn s rg name) (enhanced_metrics st) desired)
  end).

Definition enable_enhanced_monitoring (rg : string) (b : Value) : Handler MonitoringOutput :=
  change_monitoring enabled_metrics rg b.
Definition disable_enhanced_monitoring (rg : string) (b : Value) : Handler MonitoringOutput :=
  change_monitoring disabled_metrics rg b.

Definition update_account_settings (b : Value) : Handler string := fun s => commit s (
  status ← ok_or (invalid_argument "MinimumThroughputBillingCommitment.Status is required")
             (as_str (index (index b "MinimumThroughputBillingCommitment") "Status"));
  if negb (String.eqb status "ENABLED") && negb (String.eqb status "DISABLED")
  then Err (invalid_argument ("Invalid MinimumThroughputBillingCommitment status: " +:+ status))
  else
    Ok (mkState (account_id s) (region s) (streams s) (iterators s) (iterator_counter s) (lambda_checkpoints s)
          (consumers s) (channels s) (resource_policies s) status, status)).

(** [body["StreamARN"]], present and not empty. *)
Definition require_stream_arn (b : Value) : Result AwsServiceError string :=
  ok_or (invalid_argument "StreamARN is required") (non_empty_str b "StreamARN").

(** The stream an ARN names, for the operations that take only an ARN. *)
Definition stream_by_arn (s : KinesisState) (arn : string) : Result AwsServiceError (string * KinesisStream) :=
  name ← ok_or (resource_not_found_arn arn) (stream_name_from_arn s arn);
  st ← ok_or (resource_not_found_arn arn) (streams s !! name);
  Ok (name, st).

Definition update_stream_mode (b : Value) : Handler unit := fun s => commit s (
  _ ← validate_stream_id b;
  arn ← require_stream_arn b;
  _ ← validate_string_length "StreamARN" arn 1 2048;
  mode ← ok_or (invalid_argument "StreamModeDetails.StreamMode is required")
           (as_str (index (index b "StreamModeDetails") "StreamMode"));
  if negb (String.eqb mode "PROVISIONED") && negb (String.eqb mode "ON_DEMAND")
  then Err (invalid_argument ("Invalid StreamMode: " +:+ mode))
  else
    '(name, st) ← stream_by_arn s arn;
    if String.eqb mode "PROVISIONED" && String.eqb (record_distribution_strategy st) RECORD_DISTRIBUTION_AUTO
    then Err auto_requires_on_demand
    else Ok (put_stream s name
               (with_settings st (retention_period_hours st) mode (encryption_type st) (key_id st)
                  (enhanced_metrics st) (warm_throughput_mibps st) (max_record_size_kib st)
                  (record_distribution_strategy st)), tt)).

Definition update_stream_record_distribution_strategy (b : Value) : Handler unit := fun s => commit s (
  _ ← validate_stream_id b;
  arn ← require_stream_arn b;
  _ ← validate_string_length "StreamARN" arn 1 2048;
  strategy ← parse_record_distribution_strategy (index b "RecordDistributionStrategy");
  strategy ← ok_or (invalid_argument "RecordDistributionStrategy is required") strategy;
  '(name, st) ← stream_by_arn s arn;
  if negb (String.eqb (stream_status st) "ACTIVE")
  then Err (Sqs.aws_error 400 "ResourceInUseException"
              ("Stream " +:+ name +:+ " is not ACTIVE (current status: " +:+ stream_status st +:+ ")"))
  else if String.eqb strategy RECORD_DISTRIBUTION_AUTO && negb (String.eqb (stream_mode st) "ON_DEMAND")
  then Err auto_requires_on_demand
  else Ok (put_stream s name
             (with_settings st (retention_period_hours st) (stream_mode st) (encryption_type st) (key_id st)
                (enhanced_metrics st) (warm_throughput_mibps st) (max_record_size_kib st) strategy), tt)).

Definition update_stream_warm_throughput (b : Value) : Handler Z := fun s => commit s (
  _ ← validate_stream_id b;
  warm ← ok_or (invalid_argument "WarmThroughputMiBps is required") (as_i64 (index b "WarmThroughputMiBps"));
  if (warm <? 0)%Z then Err (invalid_argument "WarmThroughputMiBps must be >= 0")
  else
    '(name, st) ← named_stream s b;
    Ok (put_stream s name
          (with_settings st (retention_period_hours st) (stream_mode st) (encryption_type st) (key_id st)
             (enhanced_metrics st) (Some warm) (max_record_size_kib st) (record_distribution_strategy st)), warm)).

Definition update_max_record_size (b : Value) : Handler unit := fun s => commit s (
  _ ← validate_stream_id b;
  _ ← validate_optional_json_range "MaxRecordSizeInKiB" (index b "MaxRecordSizeInKiB") 1024 10240;
  size ← ok_or (invalid_argument "MaxRecordSizeInKiB is required") (as_i64 (index b "MaxRecordSizeInKiB"));
  arn ← require_stream_arn b;
  '(name, st) ← stream_by_arn s arn;
  Ok (put_stream s name
        (with_settings st (retention_period_hours st) (stream_mode st) (encryption_type st) (key_id st)
           (enhanced_metrics st) (warm_throughput_mibps st) (Some size) (record_distribution_strategy st)), tt)).

(** ** Consumers *)

Definition with_consumers (f : gmap string KinesisConsumer -> gmap string KinesisConsumer) (s : KinesisState)
  : KinesisState :=
  mkState (account_id s) (region s) (streams s) (iterators s) (iterator_counter s) (lambda_checkpoints s)
    (f (consumers s)) (channels s) (resource_policies s) (billing_commitment_status s).

Definition find_consumer (s : KinesisState) (arn name : string) : option KinesisConsumer :=
  head (filter (fun c => consumer_stream_arn c = arn /\ consumer_name c = name) (BTree.values (consumers s))).

Definition seconds (t : Z) : Z := (t / 1000000000)%Z.

Definition register_stream_consumer (now : Z) (b : Value) : Handler KinesisConsumer := fun s => commit s (
  _ ← validate_stream_id b;
  arn ← require_stream_arn b;
  _ ← validate_string_length "StreamARN" arn 1 2048;
  name ← ok_or (invalid_argument "ConsumerName is required") (non_empty_str b "ConsumerName");
  _ ← validate_string_length "ConsumerName" name 1 128;
  _ ← ok_or (resource_not_found_arn arn) (stream_name_from_arn s arn);
  let carn := arn +:+ "/consumer/" +:+ name +:+ ":" +:+ print_Z (seconds now) in
  match find_consumer s arn name with
  | Some _ => Err (Sqs.aws_error 400 "ResourceInUseException"
                     ("Consumer " +:+ name +:+ " already exists on stream."))
  | None =>
      let tags := match as_object (index b "Tags") with Some m => extend_tags ∅ m | None => ∅ end in
      let c := mkConsumer name carn arn tags in
      Ok (with_consumers <[carn := c]> s, c)
  end).

(** The consumer of a stream ARN and a name, as the two readers look it up. *)
Definition named_consumer (s : KinesisState) (b : Value) : Result AwsServiceError KinesisConsumer :=
  arn ← ok_or (invalid_argument "Either ConsumerARN or StreamARN+ConsumerName is required")
          (non_empty_str b "StreamARN");
  name ← ok_or (invalid_argument "ConsumerName is required with StreamARN") (non_empty_str b "ConsumerName");
  ok_or (Sqs.aws_error 400 "ResourceNotFoundException" ("Consumer " +:+ name +:+ " not found."))
    (find_consumer s arn name).

Definition deregister_stream_consumer (b : Value) : Handler unit := fun s => commit s (
  _ ← validate_stream_id b;
  carn ← (match non_empty_str b "ConsumerARN" with
          | Some arn => _ ← validate_string_length "ConsumerARN" arn 1 2048; Ok arn
          | None => c ← named_consumer s b; Ok (consumer_arn c)
          end : Result AwsServiceError string);
  _ ← ok_or (resource_not_found_arn carn) (consumers s !! carn);
  Ok (with_consumers (delete carn) s, tt)).

Definition describe_stream_consumer (b : Value) (s : KinesisState) : Result AwsServiceError KinesisConsumer :=
  _ ← validate_stream_id b;
  match non_empty_str b "ConsumerARN" with
  | Some arn =>
      _ ← validate_string_length "ConsumerARN" arn 1 2048;
      ok_or (resource_not_found_arn arn) (consumers s !! arn)
  | None => named_consumer s b
  end.

(** ** Tags of any resource *)

Inductive TaggedResource := TStream (name : string) | TChannel (name : string) | TConsumer (arn : string).

Definition resource_segment (arn : string) : option string := splitn 6 ":" arn !! 5.

Definition resolve_tagged_resource (s : KinesisState) (arn : string) : Result AwsServiceError TaggedResource :=
  let missing := resource_not_found_arn arn in
  if contains_str "/consumer/" arn then
    if bool_decide (is_Some (consumers s !! arn)) then Ok (TConsumer arn)
    else
      let wanted := resource_segment arn in
      k ← ok_or missing (head (filter (fun k => is_Some wanted /\ resource_segment k = wanted)
                                 (fst <$> BTree.iter (consumers s))));
      Ok (TConsumer k)
  else if contains_str ":channel/" arn then
    name ← ok_or missing (channel_name_from_arn s arn); Ok (TChannel name)
  else name ← ok_or missing (stream_name_from_arn s arn); Ok (TStream name).

Definition tags_of (s : KinesisState) (r : TaggedResource) : gmap string string :=
  match r with
  | TStream name => match streams s !! name with Some st => stream_tags st | None => ∅ end
  | TChannel name => match channels s !! name with Some c => channel_tags c | None => ∅ end
  | TConsumer arn => match consumers s !! arn with Some c => consumer_tags c | None => ∅ end
  end.

Definition change_consumer_tags (f : gmap string string -> gmap string string) (c : KinesisConsumer)
  : KinesisConsumer :=
  mkConsumer (consumer_name c) (consumer_arn c) (consumer_stream_arn c) (f (consumer_tags c)).

Definition change_channel_tags (f : gmap string string -> gmap string string) (c : KinesisChannel)
  : KinesisChannel :=
  mkChannel (channel_name c) (channel_arn_of c) (channel_id c) (channel_streams c) (f (channel_tags c)).

(** A change through the reference [resource_tags_mut] returns. *)
Definition change_tags (f : gmap string string -> gmap string string) (s : KinesisState) (r : TaggedResource)
  : KinesisState :=
  match r with
  | TStream name => with_streams (alter (fun st => with_tags st (f (stream_tags st))) name) s
  | TChannel name =>
      mkState (account_id s) (region s) (streams s) (iterators s) (iterator_counter s) (lambda_checkpoints s)
        (consumers s) (alter (change_channel_tags f) name (channels s)) (resource_policies s)
        (billing_commitment_status s)
  | TConsumer arn => with_consumers (alter (change_consumer_tags f) arn) s
  end.

Definition tag_resource (b : Value) : Handler unit := fun s => commit s (
  _ ← validate_stream_id b;
  arn ← require_resource_arn b;
  members ← ok_or (invalid_argument "Tags must be a map") (as_object (index b "Tags"));
  r ← resolve_tagged_resource s arn;
  Ok (change_tags (fun m => extend_tags m members) s r, tt)).

Definition untag_resource (b : Value) : Handler unit := fun s => commit s (
  _ ← validate_stream_id b;
  arn ← require_resource_arn b;
  keys ← ok_or (invalid_argument "TagKeys must be a list") (as_array (index b "TagKeys"));
  r ← resolve_tagged_resource s arn;
  Ok (change_tags (fun m => remove_tags m keys) s r, tt)).

Definition list_tags_for_resource (b : Value) (s : KinesisState) : Result AwsServiceError (gmap string string) :=
  _ ← validate_stream_id b;
  arn ← require_resource_arn b;
  r ← resolve_tagged_resource s arn;
  Ok (tags_of s r).

Definition list_tags_for_stream (b : Value) (s : KinesisState) : Result AwsServiceError (gmap string string) :=
  st ← lookup_stream s b;
  Ok (stream_tags st).

(** ** SubscribeToShard *)

Definition VALID_TYPES : list string :=
  ["AT_SEQUENCE_NUMBER"; "AFTER_SEQUENCE_NUMBER"; "TRIM_HORIZON"; "LATEST"; "AT_TIMESTAMP"]%string.

Record SubscribeEvent := mkEvent {
  se_records : list KinesisRecord;
  se_millis_behind : Z;
  se_continuation : option string
}.

Section Subscribe.
Context `{KinesisHost}.

Definition not_found (msg : string) : AwsServiceError := Sqs.aws_error 400 "ResourceNotFoundException" msg.

(** The members [shard_iterator_start_index] reads, from the names of
    [StartingPosition]. *)
Definition position_members (position : Value) : Value :=
  VObject [("StartingSequenceNumber"%string, default Null (get "SequenceNumber" position));
           ("Timestamp"%string, default Null (get "Timestamp" position))].

Definition is_null (v : Value) : bool := match v with Null => true | _ => false end.

(** Position and batch of one event; [None] is the slice's panic. *)
Definition subscribe_batch (sh : KinesisShard) (start : nat) : option SubscribeEvent :=
  let end_ := Nat.min (length (records sh)) (start + 1000) in
  batch ← slice (records sh) start end_;
  Some (mkEvent batch (millis_behind (records sh) end_)
          (sequence_number <$> records sh !! (end_ - 1))).

Definition subscribe_to_shard (b : Value) (s : KinesisState) : Reply SubscribeEvent :=
  let r : Result AwsServiceError (option SubscribeEvent) :=
    _ ← validate_stream_id b;
    carn ← ok_or (invalid_argument "ConsumerARN is required") (non_empty_str b "ConsumerARN");
    _ ← validate_string_length "ConsumerARN" carn 1 2048;
    sid ← ok_or (invalid_argument "ShardId is required") (non_empty_str b "ShardId");
    let position := index b "StartingPosition" in
    if is_null position then Err (invalid_argument "StartingPosition is required")
    else
      type ← ok_or (invalid_argument "StartingPosition.Type is required") (non_empty_str position "Type");
      if bool_decide (type ∉ VALID_TYPES)
      then Err (invalid_argument ("Invalid StartingPosition.Type: " +:+ type))
      else
        c ← ok_or (not_found ("Consumer " +:+ carn +:+ " not found.")) (consumers s !! carn);
        let name := last_segment "/" (consumer_stream_arn c) in
        st ← ok_or (stream_not_found (account_id s) name) (streams s !! name);
        sh ← ok_or (not_found ("Shard " +:+ sid +:+ " not found in stream " +:+ name +:+ ".")) (find_shard st sid);
        start ← shard_iterator_start_index sh type (position_members position);
        Ok (subscribe_batch sh start) in
  match r with
  | Ok (Some e) => Answered e
  | Ok None => Panicked
  | Err e => Refused e
  end.

End Subscribe.

End KinesisService.
