(* ===== verification/KinesisLayout.v ===== *)
(** * Shards tile the hash space

    The well-formedness of a stream's shards and its preservation by the
    operations that create, split, merge, reshard and fill them.  Ranges are
    reasoned about as chains: lists of non-empty intervals each of which starts
    where the previous one ended. *)

From Stdlib Require Import ZArith Lia Bool String Ascii.
From stdpp Require Import base option list strings gmap sorting.
From S2P Require Import Prelude Json Arn BTree Sqs Kinesis.
Import Kinesis.

Module KinesisLayout.

(** ** Numbers as text *)

Lemma digits_val_zeros k acc s : (0 <= acc)%Z ->
  digits_val acc (zeros k +:+ s) = digits_val (acc * 10 ^ Z.of_nat k) s.
Proof.
  revert acc. induction k as [|k IH]; intros acc Hacc; [by rewrite Z.mul_1_r|].
  cbn [zeros]. change (String "0" (zeros k) +:+ s) with (String "0" (zeros k +:+ s)).
  cbn [digits_val]. change (is_ascii_digit "0") with true. cbv iota.
  replace (acc * 10 + (Z.of_N (char_code "0") - 48))%Z with (acc * 10)%Z by (cbn; lia).
  rewrite IH by lia. f_equal. rewrite Nat2Z.inj_succ, Z.pow_succ_r by lia. lia.
Qed.

Lemma print_Z_nonempty z : (0 <= z)%Z -> print_Z z <> EmptyString.
Proof. intros Hz Heq. pose proof (print_Z_parse z Hz) as Hp. by rewrite Heq in Hp. Qed.

Lemma digits_val_pad0 w z : (0 <= z)%Z -> digits_val 0 (pad0 w z) = Some z.
Proof.
  intros Hz. unfold pad0. rewrite digits_val_zeros, Z.mul_0_l by done.
  pose proof (print_Z_parse z Hz) as Hp. unfold parse_digits in Hp.
  by destruct (print_Z z).
Qed.

Lemma pad0_inj w a b : (0 <= a)%Z -> (0 <= b)%Z -> pad0 w a = pad0 w b -> a = b.
Proof.
  intros Ha Hb Heq. pose proof (digits_val_pad0 w a Ha) as E. rewrite Heq, digits_val_pad0 in E by done.
  by injection E.
Qed.

Lemma shard_id_of_inj a b : (0 <= a)%Z -> (0 <= b)%Z -> shard_id_of a = shard_id_of b -> a = b.
Proof. intros Ha Hb Heq. unfold shard_id_of in Heq. simplify_eq. by eapply pad0_inj. Qed.

Lemma parse_unsigned_digits hi s z : s <> EmptyString -> string_forallb is_ascii_digit s = true ->
  digits_val 0 s = Some z -> (0 <= z <= hi)%Z -> parse_unsigned hi s = Some z.
Proof.
  intros Hne Hd Hv [Hz Hhi]. unfold parse_unsigned.
  assert (Hr : parse_digits s ≫= in_range 0 hi = Some z).
  { unfold parse_digits. destruct s as [|c s]; [done|]. rewrite Hv. cbn. unfold in_range.
    by rewrite (proj2 (Z.leb_le 0 z)), (proj2 (Z.leb_le z hi)) by lia. }
  destruct s as [|ch s]; [done|]. cbn in Hd. apply andb_prop in Hd as [Hd _].
  destruct (decide (ch = "+"%char)) as [->|]; [done|].
  by destruct ch as [[] [] [] [] [] [] [] []].
Qed.

Lemma parse_unsigned_print hi z : (0 <= z <= hi)%Z -> parse_unsigned hi (print_Z z) = Some z.
Proof.
  intros Hz. apply parse_unsigned_digits; [apply print_Z_nonempty|apply print_Z_digits| |]; try lia.
  pose proof (print_Z_parse z ltac:(lia)) as Hp. unfold parse_digits in Hp. by destruct (print_Z z).
Qed.

Lemma parse_unsigned_range hi s z : parse_unsigned hi s = Some z -> (0 <= z <= hi)%Z.
Proof.
  assert (Hr : forall o : option Z, o ≫= in_range 0 hi = Some z -> (0 <= z <= hi)%Z).
  { intros o (x & _ & Hx)%bind_Some. unfold in_range in Hx.
    destruct (Z.leb_spec 0 x), (Z.leb_spec x hi); cbn in Hx; simplify_eq; lia. }
  unfold parse_unsigned. destruct s as [|[[] [] [] [] [] [] [] []] s]; apply Hr.
Qed.

(** ** Chains of ranges *)

Fixpoint chain (a : Z) (l : list (Z * Z)) (b : Z) : Prop :=
  match l with
  | [] => a = (b + 1)%Z
  | (s, e) :: l => s = a /\ (a <= e)%Z /\ chain (e + 1) l b
  end.

Lemma chain_le a l b : chain a l b -> (a <= b + 1)%Z.
Proof.
  revert a. induction l as [|[s e] l IH]; intros a; cbn; [lia|].
  intros (-> & Hle & Hch). apply IH in Hch. lia.
Qed.

Lemma chain_bounds a l b s e : chain a l b -> (s, e) ∈ l -> (a <= s <= e)%Z /\ (e <= b)%Z.
Proof.
  revert a. induction l as [|[s' e'] l IH]; intros a Hch Hin; [by apply not_elem_of_nil in Hin|].
  cbn in Hch. destruct Hch as (-> & Hle & Hch). pose proof (chain_le _ _ _ Hch).
  apply elem_of_cons in Hin as [[= -> ->]|Hin]; [lia|]. specialize (IH _ Hch Hin). lia.
Qed.

Lemma chain_app a l1 m l2 b : chain a l1 m -> chain (m + 1) l2 b -> chain a (l1 ++ l2) b.
Proof.
  revert a. induction l1 as [|[s e] l1 IH]; intros a; cbn.
  - by intros ->.
  - intros (-> & Hle & H1) H2. eauto.
Qed.

(** A chain splits where one of its ranges starts. *)
Lemma chain_split a l b c :
  chain a l b -> c ∈ l.*1 \/ c = (b + 1)%Z ->
  exists l1 l2, l = l1 ++ l2 /\ chain a l1 (c - 1) /\ chain c l2 b.
Proof.
  revert a. induction l as [|[s e] l IH]; intros a Hch Hc.
  - cbn in Hch. destruct Hc as [Hc| ->]; [by apply not_elem_of_nil in Hc|].
    exists [], []. cbn. split_and!; [done|lia..].
  - cbn in Hch. destruct Hch as (-> & Hle & Hch).
    destruct (decide (c = a)) as [->|Hne].
    { exists [], ((a, e) :: l). cbn. split_and!; [done|lia|done..]. }
    destruct (IH _ Hch) as (l1 & l2 & -> & H1 & H2).
    { rewrite fmap_cons, elem_of_cons in Hc. cbn in Hc. destruct Hc as [[?|?]|?]; [done|by left|by right]. }
    exists ((a, e) :: l1), l2. cbn. done.
Qed.

Definition inside (t p : Z * Z) : Prop := (t.1 <= p.1 /\ p.2 <= t.2)%Z.

#[global] Instance inside_dec t p : Decision (inside t p).
Proof. unfold inside. apply _. Defined.

Definition within (h : Z) (r : Z * Z) : bool := (r.1 <=? h)%Z && (h <=? r.2)%Z.

Definition covering (h : Z) (l : list (Z * Z)) : nat := length (filter (fun r => within h r = true) l).

Lemma covering_app h l1 l2 : covering h (l1 ++ l2) = covering h l1 + covering h l2.
Proof. unfold covering. by rewrite filter_app, length_app. Qed.

Lemma covering_cons h r l : covering h (r :: l) = (if within h r then 1 else 0) + covering h l.
Proof. unfold covering. rewrite filter_cons. by destruct (within h r). Qed.

Lemma covering_perm h l l' : l ≡ₚ l' -> covering h l = covering h l'.
Proof. intros Hp. unfold covering. by rewrite Hp. Qed.

(** A point of the hash space lies in exactly one range of a chain. *)
Lemma chain_covering a l b h :
  chain a l b -> covering h l = if within h (a, b) then 1 else 0.
Proof.
  revert a. induction l as [|[s e] l IH]; intros a Hch; cbn in Hch.
  - subst a. unfold within, covering. cbn. destruct (Z.leb_spec (b + 1) h), (Z.leb_spec h b); cbn; lia.
  - destruct Hch as (-> & Hle & Hch). pose proof (chain_le _ _ _ Hch).
    rewrite covering_cons, (IH _ Hch). unfold within. cbn.
    destruct (Z.leb_spec a h), (Z.leb_spec h e), (Z.leb_spec (e + 1) h), (Z.leb_spec h b); cbn; lia.
Qed.

(** [count] equal ranges are a chain over the whole space. *)
Lemma uniform_chain_from count n : (0 < count <= MAX_HASH_KEY)%Z -> forall i, (0 <= i)%Z ->
  (i + Z.of_nat (S n) = count)%Z ->
  chain (uniform_range count i).1 (uniform_range count <$> seqZ i (Z.of_nat (S n))) MAX_HASH_KEY.
Proof.
  intros Hc. assert (Hq : (1 <= MAX_HASH_KEY / count)%Z) by (apply Z.div_le_lower_bound; lia).
  assert (Hm : (MAX_HASH_KEY / count * count <= MAX_HASH_KEY)%Z) by (rewrite Z.mul_comm; apply Z.mul_div_le; lia).
  induction n as [|n IH]; intros i Hi Hn.
  - replace i with (count - 1)%Z by lia. rewrite seqZ_cons by lia. change (Z.of_nat 1) with 1%Z.
    rewrite seqZ_nil by lia. cbn [fmap list_fmap]. unfold uniform_range. cbn. rewrite Z.eqb_refl.
    split_and!; [done| |lia]. destruct (Z.eqb_spec (count - 1) 0); [lia|nia].
  - rewrite seqZ_cons by lia. rewrite fmap_cons.
    replace (Z.pred (Z.of_nat (S (S n)))) with (Z.of_nat (S n)) by lia.
    specialize (IH (Z.succ i) ltac:(lia) ltac:(lia)).
    unfold uniform_range at 1 2. cbn [chain fst]. destruct (Z.eqb_spec i (count - 1)); [lia|].
    split_and!; [done|destruct (Z.eqb_spec i 0); nia|].
    replace (MAX_HASH_KEY / count * (i + 1) + 1)%Z with (uniform_range count (Z.succ i)).1; [done|].
    unfold uniform_range. cbn [fst]. destruct (Z.eqb_spec (Z.succ i) 0); [lia|].
    by rewrite <- Z.add_1_r.
Qed.

Lemma uniform_chain count : (0 < count <= MAX_HASH_KEY)%Z ->
  chain 0 (uniform_range count <$> seqZ 0 count) MAX_HASH_KEY.
Proof.
  intros Hc. pose proof (uniform_chain_from count (Z.to_nat (count - 1)) Hc 0) as Hch.
  replace (Z.of_nat (S (Z.to_nat (count - 1)))) with count in Hch by lia. apply Hch; lia.
Qed.

(** ** Cut points *)

Lemma remove_dups_sorted l : StronglySorted Z.le l -> StronglySorted Z.lt (remove_dups l).
Proof.
  induction 1 as [|x l Hs IH Hall]; [constructor|].
  cbn [remove_dups]. case_decide as Hin; [done|].
  constructor; [done|]. rewrite Forall_forall in Hall |- *. intros y Hy.
  rewrite elem_of_remove_dups in Hy. specialize (Hall y Hy). enough (x <> y) by lia. by intros ->.
Qed.

Lemma sorted_cuts_sorted l : StronglySorted Z.lt (sorted_cuts l).
Proof. apply remove_dups_sorted, (StronglySorted_merge_sort _). Qed.

Lemma elem_of_sorted_cuts l x : x ∈ sorted_cuts l <-> x ∈ l.
Proof. unfold sorted_cuts. by rewrite elem_of_remove_dups, merge_sort_Permutation. Qed.

Lemma refinement_starts cuts : (refinement_of cuts).*1 = cuts.
Proof.
  induction cuts as [|c cuts IH]; [done|]. destruct cuts as [|c' cuts]; [done|].
  change (refinement_of (c :: c' :: cuts)) with ((c, (c' - 1)%Z) :: refinement_of (c' :: cuts)).
  by rewrite fmap_cons, IH.
Qed.

Lemma refinement_chain c cuts :
  StronglySorted Z.lt (c :: cuts) -> Forall (fun x => (x <= MAX_HASH_KEY)%Z) (c :: cuts) ->
  chain c (refinement_of (c :: cuts)) MAX_HASH_KEY.
Proof.
  revert c. induction cuts as [|c' cuts IH]; intros c Hs Hf.
  - rewrite Forall_singleton in Hf. cbn [refinement_of chain]. by split_and!.
  - change (refinement_of (c :: c' :: cuts)) with ((c, (c' - 1)%Z) :: refinement_of (c' :: cuts)).
    apply StronglySorted_inv in Hs as [Hs Hlt]. apply Forall_cons in Hf as [_ Hf].
    apply Forall_cons in Hlt as [Hlt _]. cbn [chain].
    split_and!; [done|lia|]. replace (c' - 1 + 1)%Z with c' by lia. by apply IH.
Qed.

Lemma cuts_chain l :
  Forall (fun x => (0 <= x <= MAX_HASH_KEY)%Z) l ->
  chain 0 (refinement_of (sorted_cuts (0%Z :: l))) MAX_HASH_KEY.
Proof.
  intros Hf. pose proof (sorted_cuts_sorted (0%Z :: l)) as Hs.
  assert (Hb : forall x, x ∈ sorted_cuts (0%Z :: l) -> (0 <= x <= MAX_HASH_KEY)%Z).
  { intros x Hx. rewrite elem_of_sorted_cuts in Hx. apply elem_of_cons in Hx as [->|Hx]; [done|].
    rewrite Forall_forall in Hf. auto. }
  assert (H0 : 0%Z ∈ sorted_cuts (0%Z :: l)) by (apply elem_of_sorted_cuts; left).
  destruct (sorted_cuts (0%Z :: l)) as [|c cuts]; [by apply not_elem_of_nil in H0|].
  assert (c = 0%Z) as ->.
  { apply elem_of_cons in H0 as [H0|H0]; [done|].
    apply StronglySorted_inv in Hs as [_ Hall]. rewrite Forall_forall in Hall.
    specialize (Hall _ H0). pose proof (Hb c ltac:(left)). lia. }
  apply refinement_chain; [done|]. apply Forall_forall. intros x Hx. by apply Hb.
Qed.

Section Filter.
Context {A : Type} (P : A -> Prop) `{!forall x, Decision (P x)}.

Lemma filter_all (l : list A) : (forall x, x ∈ l -> P x) -> filter P l = l.
Proof.
  induction l as [|x l IH]; intros Hall; [done|].
  rewrite filter_cons_True by (apply Hall; left). f_equal. apply IH. intros y Hy. apply Hall. by right.
Qed.

Lemma filter_none (l : list A) : (forall x, x ∈ l -> ~ P x) -> filter P l = [].
Proof.
  induction l as [|x l IH]; intros Hall; [done|].
  rewrite filter_cons_False by (apply Hall; left). apply IH. intros y Hy. apply Hall. by right.
Qed.

Lemma filter_comm (Q : A -> Prop) `{!forall x, Decision (Q x)} (l : list A) :
  filter P (filter Q l) = filter Q (filter P l).
Proof. rewrite !list_filter_filter. apply list_filter_iff. tauto. Qed.

Lemma NoDup_fmap_filter {B} (f : A -> B) (l : list A) : NoDup (f <$> l) -> NoDup (f <$> filter P l).
Proof.
  induction l as [|x l IH]; intros Hnd; [done|]. rewrite fmap_cons in Hnd. apply NoDup_cons in Hnd as [Hni Hnd].
  rewrite filter_cons. destruct (decide (P x)); [|by apply IH]. rewrite fmap_cons. constructor; [|by apply IH].
  intros (y & Hy & [_ Hin]%list_elem_of_filter)%list_elem_of_fmap. apply Hni, list_elem_of_fmap. eauto.
Qed.
End Filter.

(** ** The open shards of a list *)

Definition entry (sh : KinesisShard) : string * (Z * Z) := (shard_id sh, shard_hash_range sh).

Definition open_entries (l : list KinesisShard) : list (string * (Z * Z)) :=
  entry <$> filter (fun sh => is_open sh = true) l.

(** Shards are numbered by their position. *)
Definition numbered (l : list KinesisShard) (next : Z) : Prop :=
  shard_id <$> l = shard_id_of <$> seqZ 0 (Z.of_nat (length l)) /\ next = Z.of_nat (length l).

Lemma numbered_NoDup l next : numbered l next -> NoDup (shard_id <$> l).
Proof.
  intros [-> _]. rewrite NoDup_alt. intros i j x Hi Hj.
  rewrite !list_lookup_fmap_Some in Hi, Hj.
  destruct Hi as (zi & -> & Hi), Hj as (zj & Heq & Hj).
  apply lookup_seqZ in Hi as [-> Hi], Hj as [-> Hj].
  apply shard_id_of_inj in Heq; lia.
Qed.

Lemma numbered_snoc l next sh : numbered l next -> shard_id sh = shard_id_of next ->
  numbered (l ++ [sh]) (next + 1).
Proof.
  intros [Hids ->] Hid. split; [|rewrite length_app; cbn; lia].
  rewrite fmap_app, length_app, Hids, Nat2Z.inj_add, seqZ_app by lia. rewrite fmap_app. f_equal.
  cbn. by rewrite Hid.
Qed.

Lemma numbered_fresh l next sh : numbered l next -> sh ∈ l -> shard_id sh <> shard_id_of next.
Proof.
  intros [Hids ->] Hin Heq.
  assert (Hin' : shard_id sh ∈ shard_id <$> l) by (apply list_elem_of_fmap; eauto).
  rewrite Hids in Hin'. apply list_elem_of_fmap in Hin' as (z & Hz & Hin').
  apply elem_of_seqZ in Hin'. rewrite Heq in Hz. apply shard_id_of_inj in Hz; lia.
Qed.

Lemma close_shard_ids l id : shard_id <$> close_shard l id = shard_id <$> l.
Proof.
  induction l as [|sh l IH]; [done|]. cbn [close_shard].
  destruct (String.eqb _ _); cbn; by rewrite ?IH.
Qed.

Lemma numbered_close l next id : numbered l next -> numbered (close_shard l id) next.
Proof.
  intros [Hids ->]. unfold numbered. rewrite close_shard_ids.
  replace (length (close_shard l id)) with (length l); [done|].
  pose proof (f_equal length (close_shard_ids l id)) as Hl. by rewrite !length_fmap in Hl.
Qed.

Lemma open_entries_app l1 l2 : open_entries (l1 ++ l2) = open_entries l1 ++ open_entries l2.
Proof. unfold open_entries. by rewrite filter_app, fmap_app. Qed.

Lemma open_entries_cons sh l :
  open_entries (sh :: l) = if is_open sh then entry sh :: open_entries l else open_entries l.
Proof. unfold open_entries. rewrite filter_cons. by destruct (is_open sh). Qed.

Lemma elem_of_open_entries x l :
  x ∈ open_entries l <-> exists sh, x = entry sh /\ is_open sh = true /\ sh ∈ l.
Proof.
  unfold open_entries. rewrite list_elem_of_fmap. setoid_rewrite list_elem_of_filter. naive_solver.
Qed.

Lemma open_entries_ids l x : x ∈ open_entries l -> x.1 ∈ shard_id <$> l.
Proof. intros (sh & -> & _ & Hin)%elem_of_open_entries. apply list_elem_of_fmap. eauto. Qed.

Lemma open_entries_close l id : NoDup (shard_id <$> l) ->
  open_entries (close_shard l id) = filter (fun x => x.1 <> id) (open_entries l).
Proof.
  induction l as [|sh l IH]; intros Hnd; [done|].
  rewrite fmap_cons in Hnd. apply NoDup_cons in Hnd as [Hni Hnd].
  cbn [close_shard]. destruct (String.eqb_spec (shard_id sh) id) as [<-|Hne].
  - rewrite !open_entries_cons. cbn [closed is_open].
    assert (Hall : filter (fun x => x.1 <> shard_id sh) (open_entries l) = open_entries l).
    { apply filter_all. intros x Hx Heq. apply open_entries_ids in Hx. by rewrite Heq in Hx. }
    destruct (is_open sh); [rewrite filter_cons_False by (cbn; auto)|]; by rewrite Hall.
  - rewrite !open_entries_cons, IH by done.
    destruct (is_open sh); [|done]. by rewrite filter_cons_True by done.
Qed.

Lemma open_entries_NoDup l : NoDup (shard_id <$> l) -> NoDup (open_entries l).*1.
Proof.
  induction l as [|sh l IH]; intros Hnd; [constructor|].
  rewrite fmap_cons in Hnd. apply NoDup_cons in Hnd as [Hni Hnd]. rewrite open_entries_cons.
  destruct (is_open sh); [|by apply IH]. rewrite fmap_cons. constructor; [|by apply IH].
  intros (x & Hx & Hin)%list_elem_of_fmap. apply open_entries_ids in Hin. by rewrite <- Hx in Hin.
Qed.

(** ** Closing and adding shards *)

(** The range of a shard is written as numbers of the hash space. *)
Definition ranged (sh : KinesisShard) : Prop :=
  exists s e, starting_hash_key sh = print_Z s /\ ending_hash_key sh = print_Z e
              /\ (0 <= s <= e)%Z /\ (e <= MAX_HASH_KEY)%Z.

Definition fresh (sh : KinesisShard) : Prop :=
  ranged sh /\ records sh = [] /\ next_sequence_number sh = 1%Z.

Definition same_or_closed (sh sh' : KinesisShard) : Prop := sh' = sh \/ sh' = closed sh.

(** Shards are only closed, and fresh ones added at the end. *)
Definition evolves (l l' : list KinesisShard) : Prop :=
  exists l1 l2, l' = l1 ++ l2 /\ Forall2 same_or_closed l l1 /\ Forall fresh l2.

Lemma shard_hash_range_new id s e p a : (0 <= s <= e)%Z -> (e <= MAX_HASH_KEY)%Z ->
  shard_hash_range (new_shard id s e p a) = (s, e).
Proof.
  intros Hs He. unfold shard_hash_range, parse_u128. cbn [new_shard starting_hash_key ending_hash_key].
  by rewrite !parse_unsigned_print by lia.
Qed.

Lemma fresh_new id s e p a : (0 <= s <= e)%Z -> (e <= MAX_HASH_KEY)%Z -> fresh (new_shard id s e p a).
Proof. intros Hs He. split; [by exists s, e|done]. Qed.

Lemma same_or_closed_refl l : Forall2 same_or_closed l l.
Proof. induction l; constructor; [by left|done]. Qed.

#[global] Instance same_or_closed_trans : Transitive same_or_closed.
Proof. intros x y z [->| ->] [->| ->]; [by left|by right..]. Qed.

Lemma fresh_evolved l l' : Forall2 same_or_closed l l' -> Forall fresh l -> Forall fresh l'.
Proof.
  induction 1 as [|x y l l' [->| ->] H IH]; intros Hf; inversion_clear Hf; constructor; auto.
Qed.

#[global] Instance evolves_trans : Transitive evolves.
Proof.
  intros l l' l'' (l1 & l2 & -> & H1 & Hf) (l3 & l4 & -> & H3 & Hf').
  apply Forall2_app_inv_l in H3 as (l31 & l32 & H31 & H32 & ->).
  exists l31, (l32 ++ l4). split_and!.
  - by rewrite app_assoc.
  - by etransitivity.
  - apply Forall_app. split; [by eapply fresh_evolved|done].
Qed.

Lemma evolves_refl l : evolves l l.
Proof. exists l, []. split_and!; [by rewrite app_nil_r|apply same_or_closed_refl|done]. Qed.

Lemma evolves_close l id : evolves l (close_shard l id).
Proof.
  exists (close_shard l id), []. split_and!; [by rewrite app_nil_r| |done].
  induction l as [|sh l IH]; [constructor|]. cbn [close_shard]. destruct (String.eqb _ _).
  - constructor; [by right|apply same_or_closed_refl].
  - constructor; [by left|done].
Qed.

Lemma evolves_close_all l : evolves l (closed <$> l).
Proof.
  exists (closed <$> l), []. split_and!; [by rewrite app_nil_r| |done].
  induction l; constructor; [by right|done].
Qed.

Lemma evolves_alter l i : evolves l (alter closed i l).
Proof.
  exists (alter closed i l), []. split_and!; [by rewrite app_nil_r| |done].
  revert i. induction l as [|sh l IH]; intros i; [constructor|].
  destruct i as [|i]; cbn; constructor; [by right|apply same_or_closed_refl|by left|apply IH].
Qed.

Lemma evolves_push l sh : fresh sh -> evolves l (l ++ [sh]).
Proof. intros Hf. exists l, [sh]. split_and!; [done|apply same_or_closed_refl|by constructor]. Qed.

Lemma open_entries_push l id s e p a : (0 <= s <= e)%Z -> (e <= MAX_HASH_KEY)%Z ->
  open_entries (l ++ [new_shard id s e p a]) = open_entries l ++ [(id, (s, e))].
Proof.
  intros Hs He. rewrite open_entries_app. f_equal.
  rewrite open_entries_cons. cbn [is_open new_shard]. unfold entry. by rewrite shard_hash_range_new.
Qed.

(** ** Merging the pieces of one target *)

Lemma filter_ne_perm (id : string) (r : Z * Z) (l R : list (string * (Z * Z))) :
  NoDup l.*1 -> l ≡ₚ (id, r) :: R -> filter (fun x => x.1 <> id) l ≡ₚ R.
Proof.
  intros Hnd Hp. transitivity (filter (fun x => x.1 <> id) ((id, r) :: R)); [by rewrite Hp|].
  rewrite Hp, fmap_cons in Hnd. apply NoDup_cons in Hnd as [Hni _].
  rewrite filter_cons_False by (cbn; auto). rewrite filter_all; [reflexivity|].
  intros x Hx Heq. apply Hni. rewrite <- Heq. apply list_elem_of_fmap. by exists x.
Qed.

(** One turn of the merge chain. *)
Lemma fold_turn l next acc id s e tstart R :
  numbered l next -> acc ∈ shard_id <$> l -> (0 <= tstart <= e)%Z -> (e <= MAX_HASH_KEY)%Z ->
  filter (fun x => x.1 <> acc) (open_entries l) ≡ₚ (id, (s, e)) :: R ->
  let l' := close_shard (close_shard l id ++ [new_shard (shard_id_of next) tstart e (Some acc) (Some id)]) acc in
  evolves l l' /\ numbered l' (next + 1) /\ open_entries l' ≡ₚ (shard_id_of next, (tstart, e)) :: R.
Proof.
  intros Hn Hacc Hs He Hp l'. assert (Hn1 : numbered (close_shard l id) next) by by apply numbered_close.
  assert (Hn2 : numbered (close_shard l id ++ [new_shard (shard_id_of next) tstart e (Some acc) (Some id)]) (next + 1))
    by by apply numbered_snoc.
  split_and!.
  - etransitivity; [apply (evolves_close l id)|]. etransitivity; [|apply evolves_close].
    by apply evolves_push, fresh_new.
  - by apply numbered_close.
  - unfold l'. rewrite open_entries_close by (by eapply numbered_NoDup).
    rewrite open_entries_push, open_entries_close by (done || by eapply numbered_NoDup).
    rewrite filter_app, filter_comm, filter_cons_True.
    2: { cbn. intros Heq. apply list_elem_of_fmap in Hacc as (sh & -> & Hin).
         by apply (numbered_fresh l next sh). }
    rewrite filter_nil, Permutation_app_comm. cbn [app]. f_equiv.
    apply filter_ne_perm with (s, e); [|done].
    eapply NoDup_fmap_filter, open_entries_NoDup, numbered_NoDup; done.
Qed.

(** The chain of merges leaves one open shard over the target. *)
Lemma fold_pieces_open tstart tend R rest : forall acc l next a,
  numbered l next -> acc ∈ shard_id <$> l -> (0 <= tstart < a)%Z -> (tend <= MAX_HASH_KEY)%Z ->
  rest <> [] -> chain a (snd <$> rest) tend ->
  filter (fun x => x.1 <> acc) (open_entries l) ≡ₚ rest ++ R ->
  let '(l', next') := fold_pieces tstart acc ((fun x => (x.2.2, x.1)) <$> rest) l next in
  evolves l l' /\ numbered l' next' /\ exists id, open_entries l' ≡ₚ (id, (tstart, tend)) :: R.
Proof.
  induction rest as [|[id [s e]] rest IH]; intros acc l next a Hn Hacc Hts Htend Hne Hch Hp; [done|].
  rewrite fmap_cons in Hch. cbn in Hch. destruct Hch as (-> & Hae & Hch).
  pose proof (chain_le _ _ _ Hch) as Hle.
  rewrite fmap_cons. cbn [fold_pieces next_shard_id fst snd].
  destruct (fold_turn l next acc id a e tstart (rest ++ R)) as (He' & Hn' & Hp'); [done..|lia|lia|done|].
  set (l' := close_shard _ _) in *.
  destruct (decide (rest = [])) as [->|Hrest].
  - cbn in Hch. cbn. replace tend with e by lia. split_and!; [done..|]. by exists (shard_id_of next).
  - specialize (IH (shard_id_of next) l' (next + 1)%Z (e + 1)%Z Hn').
    destruct (fold_pieces _ _ _ _ _) as [l'' next''].
    destruct IH as (He'' & Hn'' & Hid); [|lia|done|done|done| |].
    + assert (Hin : (shard_id_of next, (tstart, e)) ∈ open_entries l') by (rewrite Hp'; left).
      by apply open_entries_ids in Hin.
    + by apply filter_ne_perm with (tstart, e); [by eapply open_entries_NoDup, numbered_NoDup|].
    + split_and!; [by etransitivity|done|done].
Qed.

Lemma merge_target_open ids pieces tstart tend R l next :
  numbered l next -> (0 <= tstart <= tend)%Z -> (tend <= MAX_HASH_KEY)%Z ->
  filter (fun p : Z * Z * string => (tstart <= p.1.1 /\ p.1.2 <= tend)%Z) ids = (fun x => (x.2, x.1)) <$> pieces ->
  chain tstart (snd <$> pieces) tend -> open_entries l ≡ₚ pieces ++ R ->
  let '(l', next') := merge_target ids (l, next) (tstart, tend) in
  evolves l l' /\ numbered l' next' /\ exists id, open_entries l' ≡ₚ (id, (tstart, tend)) :: R.
Proof.
  intros Hn Hts Htend Hf Hch Hp. unfold merge_target. rewrite Hf, <- list_fmap_compose.
  destruct pieces as [|[first [s e]] rest]; [cbn in Hch; lia|].
  rewrite fmap_cons in Hch. cbn in Hch. destruct Hch as (-> & Hae & Hch).
  rewrite fmap_cons. cbn [compose fst snd].
  destruct rest as [|piece rest].
  { cbn in Hch |- *. replace tend with e by lia. split_and!; [apply evolves_refl|done|by exists first]. }
  remember (piece :: rest) as rest' eqn:Hrest.
  assert (Hne : rest' <> []) by by subst.
  pose proof (fold_pieces_open tstart tend R rest' first (close_shard l first) next (e + 1)%Z) as Hfold.
  change (fun x : string * (Z * Z) => (x.2.2, x.1))
    with ((λ p : Z * Z * string, (p.1.2, p.2)) ∘ (λ x : string * (Z * Z), (x.2, x.1))) in Hfold.
  replace (match (_ <$> rest') with [] => _ | _ => _ end)
    with (fold_pieces tstart first (((λ p : Z * Z * string, (p.1.2, p.2)) ∘ (λ x : string * (Z * Z), (x.2, x.1))) <$> rest')
            (close_shard l first) next) by by subst.
  destruct (fold_pieces _ _ _ _ _) as [l' next'].
  assert (Hin : first ∈ shard_id <$> l).
  { apply (open_entries_ids l (first, (tstart, e))). rewrite Hp. left. }
  destruct Hfold as (He & Hn' & Hid); [by apply numbered_close|by rewrite close_shard_ids|lia|done|done|done| |].
  - rewrite open_entries_close by (by eapply numbered_NoDup).
    rewrite list_filter_filter_l by done.
    apply filter_ne_perm with (tstart, e); [by eapply open_entries_NoDup, numbered_NoDup|done].
  - split_and!; [|done|done]. etransitivity; [apply evolves_close|done].
Qed.

(** ** Resharding *)

Definition swap (p : Z * Z * string) : string * (Z * Z) := (p.2, p.1).

Lemma push_pieces_open original pieces : forall l next a,
  numbered l next -> (0 <= a)%Z -> chain a pieces MAX_HASH_KEY ->
  let '(l', next', ids) := push_pieces original pieces l next in
  evolves l l' /\ numbered l' next' /\ open_entries l' = open_entries l ++ (swap <$> ids) /\ ids.*1 = pieces.
Proof.
  induction pieces as [|[s e] pieces IH]; intros l next a Hn Ha Hch.
  { cbn. split_and!; [apply evolves_refl|done|by rewrite app_nil_r|done]. }
  cbn in Hch. destruct Hch as (-> & Hae & Hch). pose proof (chain_le _ _ _ Hch) as Hle.
  cbn [push_pieces next_shard_id].
  set (sh := new_shard _ _ _ _ _).
  specialize (IH (l ++ [sh]) (next + 1)%Z (e + 1)%Z).
  destruct (push_pieces _ _ _ _) as [[l' next'] ids].
  destruct IH as (He & Hn' & Ho & Hids); [by apply numbered_snoc|lia|done|].
  split_and!; [|done| |cbn; by f_equal].
  - etransitivity; [apply evolves_push|done]. apply fresh_new; lia.
  - rewrite Ho. unfold sh. rewrite open_entries_push by lia. by rewrite <- app_assoc.
Qed.

(** The pieces inside one target, in a list that is a chain around them. *)
Lemma pieces_inside (pre mid post : list (string * (Z * Z))) a s e b :
  chain a (snd <$> pre) (s - 1) -> chain s (snd <$> mid) e -> chain (e + 1) (snd <$> post) b ->
  filter (fun x => inside (s, e) x.2) (pre ++ mid ++ post) = mid.
Proof.
  intros H1 H2 H3. rewrite !filter_app.
  assert (Hin : forall (l : list (string * (Z * Z))) x, x ∈ l -> (x.2.1, x.2.2) ∈ l.*2).
  { intros l [i [xs xe]] Hx. apply list_elem_of_fmap. by exists (i, (xs, xe)). }
  rewrite filter_none, filter_all, filter_none, app_nil_r; [done| | |].
  - intros x Hx%Hin. eapply chain_bounds in Hx; [|done]. unfold inside. cbn. lia.
  - intros x Hx%Hin. eapply chain_bounds in Hx; [|done]. unfold inside. cbn. lia.
  - intros x Hx%Hin. eapply chain_bounds in Hx; [|done]. unfold inside. cbn. lia.
Qed.

Lemma filter_swap s e (ids : list (Z * Z * string)) (ents : list (string * (Z * Z))) :
  swap <$> ids = ents ->
  filter (fun p : Z * Z * string => (s <= p.1.1 /\ p.1.2 <= e)%Z) ids
  = (fun x => (x.2, x.1)) <$> filter (fun x => inside (s, e) x.2) ents.
Proof.
  intros <-. induction ids as [|[[ps pe] id] ids IH]; [done|].
  rewrite fmap_cons, !filter_cons. change ((swap (ps, pe, id)).2) with (ps, pe).
  unfold inside at 1. cbn [fst snd].
  destruct (decide (s ≤ ps ∧ pe ≤ e)%Z); [rewrite fmap_cons; f_equal|]; done.
Qed.

Lemma merge_targets_open (ids : list (Z * Z * string)) (R : list (string * (Z * Z))) : forall targets (pre post : list (string * (Z * Z))) l next a,
  numbered l next -> swap <$> ids = pre ++ post -> (0 <= a)%Z ->
  chain 0 (snd <$> pre) (a - 1) -> chain a (snd <$> post) MAX_HASH_KEY -> chain a targets MAX_HASH_KEY ->
  (forall s, s ∈ targets.*1 -> s ∈ (snd <$> post).*1) ->
  open_entries l ≡ₚ post ++ R ->
  let '(l', next') := foldl (merge_target ids) (l, next) targets in
  evolves l l' /\ numbered l' next' /\ exists final, snd <$> final = targets /\ open_entries l' ≡ₚ final ++ R.
Proof.
  intros targets. revert R. induction targets as [|[s e] targets IH]; intros R pre post l next a Hn Hids Ha Hpre Hpost Hch Hst Hp.
  { cbn in Hch. cbn [foldl]. split_and!; [apply evolves_refl|done|]. exists []. split; [done|].
    destruct post as [|[i [s e]] post]; [done|]. cbn in Hpost.
    destruct Hpost as (_ & ? & Hle%chain_le). lia. }
  cbn in Hch. destruct Hch as (-> & Hae & Hch). pose proof (chain_le _ _ _ Hch) as Hle.
  destruct (chain_split a (snd <$> post) MAX_HASH_KEY (e + 1)) as (p1 & p2 & Hpp & Hp1 & Hp2); [done| |].
  { destruct targets as [|[s' e'] targets]; [cbn in Hch; by right|]. cbn in Hch. destruct Hch as [-> _].
    left. apply Hst. right; left. }
  apply fmap_app_inv in Hpp as (mid & rest & -> & -> & ->).
  replace (e + 1 - 1)%Z with e in Hp1 by lia.
  cbn [foldl]. pose proof (merge_target_open ids mid a e (rest ++ R) l next) as Hm.
  destruct (merge_target ids (l, next) (a, e)) as [l1 next1].
  destruct Hm as (He1 & Hn1 & id & Ho1); [done|lia|lia| |done|by rewrite Hp, app_assoc|].
  { rewrite (filter_swap a e ids _ Hids). by erewrite pieces_inside. }
  specialize (IH ((id, (a, e)) :: R) (pre ++ mid) rest l1 next1 (e + 1)%Z Hn1).
  destruct (foldl (merge_target ids) (l1, next1) targets) as [l2 next2].
  destruct IH as (He2 & Hn2 & final & Hf & Ho2).
  - by rewrite <- app_assoc.
  - lia.
  - rewrite fmap_app. eapply chain_app; [done|]. replace (a - 1 + 1)%Z with a by lia.
    by replace (e + 1 - 1)%Z with e by lia.
  - done.
  - done.
  - intros s Hs. specialize (Hst s ltac:(by right)). rewrite !fmap_app, elem_of_app in Hst.
    destruct Hst as [Hin|Hin]; [|done]. exfalso.
    apply list_elem_of_fmap in Hs as ([s1 e1] & -> & Hs), Hin as ([s2 e2] & Heq & Hin). cbn in Heq. subst s2.
    eapply chain_bounds in Hs; [|done]. eapply chain_bounds in Hin; [|done]. cbn in *. lia.
  - rewrite Ho1. by rewrite Permutation_middle.
  - split_and!; [by etransitivity|done|]. exists ((id, (a, e)) :: final). split; [by rewrite fmap_cons, Hf|].
    rewrite Ho2. cbn. by rewrite Permutation_middle.
Qed.

(** ** The layout of a stream *)

(** A shard has a range, and its records carry the last of its sequence
    numbers, in order and without a gap. *)
Definition shard_ok (sh : KinesisShard) : Prop :=
  ranged sh /\ (Z.of_nat (length (records sh)) < next_sequence_number sh)%Z
  /\ forall i r, records sh !! i = Some r ->
       sequence_number r
       = sequence_number_for (shard_id sh)
           (next_sequence_number sh - Z.of_nat (length (records sh)) + Z.of_nat i).

(** Shards are numbered by position, the counters count them, and every point
    of the hash space belongs to exactly one open shard. *)
Record Layout (st : KinesisStream) : Prop := mkLayout {
  lay_ids : numbered (shards st) (next_shard_index st);
  lay_ok : Forall shard_ok (shards st);
  lay_tile : forall h, (0 <= h <= MAX_HASH_KEY)%Z -> covering h (open_entries (shards st)).*2 = 1;
  lay_count : shard_count st = Z.of_nat (length (shards st));
  lay_open : open_shard_count st = open_count (shards st)
}.

Lemma open_count_entries l : open_count l = Z.of_nat (length (open_entries l)).
Proof. unfold open_count, open_entries. by rewrite length_fmap. Qed.

Lemma shard_ok_closed sh : shard_ok sh -> shard_ok (closed sh).
Proof. done. Qed.

Lemma shard_ok_fresh sh : fresh sh -> shard_ok sh.
Proof. intros (Hr & Hrec & Hn). unfold shard_ok. rewrite Hrec, Hn. split_and!; [done|cbn; lia|done]. Qed.

Lemma shard_ok_evolves l l' : evolves l l' -> Forall shard_ok l -> Forall shard_ok l'.
Proof.
  intros (l1 & l2 & -> & H2 & Hf) Hok. apply Forall_app. split.
  - revert Hok. clear Hf. induction H2 as [|x y l l' [->| ->] H IH]; intros Hok; inversion_clear Hok;
      constructor; auto.
  - eapply Forall_impl; [done|]. apply shard_ok_fresh.
Qed.

Lemma covering_chain l h : chain 0 l MAX_HASH_KEY -> (0 <= h <= MAX_HASH_KEY)%Z -> covering h l = 1.
Proof.
  intros Hch [H0 Hh]. rewrite (chain_covering _ _ _ h Hch). unfold within. cbn [fst snd].
  by rewrite (proj2 (Z.leb_le _ _) H0), (proj2 (Z.leb_le _ _) Hh).
Qed.

(** Layouts from a chain of open ranges. *)
Lemma layout_of_chain st (ranges : list (Z * Z)) :
  numbered (shards st) (next_shard_index st) -> Forall shard_ok (shards st) ->
  chain 0 ranges MAX_HASH_KEY -> (open_entries (shards st)).*2 ≡ₚ ranges ->
  shard_count st = Z.of_nat (length (shards st)) -> open_shard_count st = Z.of_nat (length ranges) ->
  Layout st.
Proof.
  intros Hn Hok Hch Hp Hc Ho. split; [done|done| |done|].
  - intros h Hh. rewrite (covering_perm h _ _ Hp). by apply covering_chain.
  - rewrite Ho, open_count_entries. apply Permutation_length in Hp. rewrite length_fmap in Hp. by rewrite Hp.
Qed.

Lemma uniform_bounds count i : (0 < count <= MAX_HASH_KEY)%Z -> (0 <= i < count)%Z ->
  (0 <= (uniform_range count i).1 <= (uniform_range count i).2)%Z /\ ((uniform_range count i).2 <= MAX_HASH_KEY)%Z.
Proof.
  intros Hc Hi. apply (chain_bounds _ _ _ _ _ (uniform_chain count Hc)).
  apply list_elem_of_fmap. exists i. split; [by destruct (uniform_range count i)|]. apply elem_of_seqZ. lia.
Qed.

Lemma build_open_entries count : (0 < count <= MAX_HASH_KEY)%Z -> forall l,
  (forall i, i ∈ l -> (0 <= i < count)%Z) ->
  open_entries ((fun i => let '(start, end_) := uniform_range count i in
                          new_shard (shard_id_of i) start end_ None None) <$> l)
  = (fun i => (shard_id_of i, uniform_range count i)) <$> l.
Proof.
  intros Hc l. induction l as [|i l IH]; intros Hl; [done|].
  rewrite !fmap_cons, open_entries_cons, IH by (intros; apply Hl; by right).
  pose proof (uniform_bounds count i Hc (Hl i ltac:(left))) as [H1 H2].
  destruct (uniform_range count i) as [s e]. cbn [fst snd is_open new_shard] in *. f_equal.
  unfold entry. by rewrite shard_hash_range_new.
Qed.

Lemma build_stream_shards_ok count : (0 < count <= MAX_HASH_KEY)%Z ->
  numbered (build_stream_shards count) count /\ Forall shard_ok (build_stream_shards count)
  /\ (open_entries (build_stream_shards count)).*2 = uniform_range count <$> seqZ 0 count.
Proof.
  intros Hc. unfold build_stream_shards. split_and!.
  - assert (Hl : length (seqZ 0 count) = Z.to_nat count) by apply length_seqZ.
    split; rewrite length_fmap, Hl; [|lia]. rewrite <- list_fmap_compose, Z2Nat.id by lia.
    apply list_fmap_ext. intros i x _. cbn. by destruct (uniform_range count x).
  - apply Forall_fmap, Forall_forall. intros i Hi%elem_of_seqZ. unfold compose.
    pose proof (uniform_bounds count i Hc ltac:(lia)) as [H1 H2]. destruct (uniform_range count i) as [s e].
    apply shard_ok_fresh, fresh_new; cbn [fst snd] in *; lia.
  - rewrite build_open_entries; [|done|intros i Hi%elem_of_seqZ; lia].
    by rewrite <- list_fmap_compose.
Qed.

(** The stream [CreateStream] stores. *)
Lemma layout_build st count : (0 < count <= MAX_HASH_KEY)%Z ->
  shards st = build_stream_shards count -> next_shard_index st = count ->
  shard_count st = count -> open_shard_count st = count -> Layout st.
Proof.
  intros Hc Hs Hn Hsc Ho. destruct (build_stream_shards_ok count Hc) as (Hnum & Hok & Hr).
  assert (Hlen : Z.of_nat (length (build_stream_shards count)) = count).
  { unfold build_stream_shards. rewrite length_fmap, length_seqZ. lia. }
  apply (layout_of_chain st (uniform_range count <$> seqZ 0 count)); rewrite ?Hs, ?Hn, ?Hsc, ?Ho; try done.
  - by apply uniform_chain.
  - by rewrite Hr.
  - by rewrite length_fmap, length_seqZ, Z2Nat.id by lia.
Qed.

(** ** Preservation *)

Lemma numbered_evolved_ids l : numbered (closed <$> l) (Z.of_nat (length l)) <-> numbered l (Z.of_nat (length l)).
Proof. unfold numbered. by rewrite length_fmap, <- list_fmap_compose. Qed.

Lemma open_entries_closed_all l : open_entries (closed <$> l) = [].
Proof. induction l as [|sh l IH]; [done|]. by rewrite fmap_cons, open_entries_cons. Qed.

Lemma reshard_range_bounds sh : (0 <= (reshard_range sh).1 <= MAX_HASH_KEY)%Z.
Proof.
  unfold reshard_range, parse_u128. cbn [fst].
  destruct (parse_unsigned _ _) as [z|] eqn:Hz; cbn [default]; [by eapply parse_unsigned_range|done].
Qed.

(** After a reshard the open shards are the equal ranges of the target. *)
Lemma reshard_uniform_shards st target : (0 < target <= MAX_HASH_KEY)%Z ->
  numbered (shards st) (next_shard_index st) ->
  let st' := reshard_uniform st target in
  evolves (closed <$> shards st) (shards st') /\ numbered (shards st') (next_shard_index st')
  /\ (open_entries (shards st')).*2 ≡ₚ uniform_range target <$> seqZ 0 target
  /\ shard_count st' = Z.of_nat (length (shards st')) /\ open_shard_count st' = target.
Proof.
  intros Ht Hn. unfold reshard_uniform.
  set (opened := filter _ _). set (targets := _ <$> seqZ 0 target). set (cuts := _ ++ targets.*1).
  set (original := _ <$> opened).
  assert (Hcuts : Forall (fun x => (0 <= x <= MAX_HASH_KEY)%Z) cuts).
  { apply Forall_app. split; apply Forall_fmap, Forall_forall.
    - intros r (sh & -> & _)%list_elem_of_fmap. apply reshard_range_bounds.
    - intros r (i & -> & Hi%elem_of_seqZ)%list_elem_of_fmap. unfold compose.
      pose proof (uniform_bounds target i Ht ltac:(lia)). lia. }
  pose proof (cuts_chain cuts Hcuts) as Hch.
  assert (Hn0 : numbered (closed <$> shards st) (next_shard_index st)).
  { destruct Hn as [Hids ->]. by apply numbered_evolved_ids. }
  pose proof (push_pieces_open original _ _ _ 0%Z Hn0 ltac:(lia) Hch) as Hpush.
  destruct (push_pieces _ _ _ _) as [[l next] ids]. destruct Hpush as (He & Hn1 & Ho & Hids).
  rewrite open_entries_closed_all in Ho. cbn [app] in Ho.
  assert (Hsw : snd <$> (swap <$> ids) = ids.*1) by (by rewrite <- list_fmap_compose).
  pose proof (merge_targets_open ids [] targets [] (swap <$> ids) l next 0%Z) as Hm.
  destruct (foldl (merge_target ids) (l, next) targets) as [l' next'].
  destruct Hm as (He' & Hn' & final & Hf & Ho'); [done|done|lia|done|by rewrite Hsw, Hids|by apply uniform_chain| |
    by rewrite Ho, app_nil_r|].
  { intros s Hs. rewrite Hsw, Hids, refinement_starts. apply elem_of_sorted_cuts. right. apply elem_of_app. by right. }
  cbn [with_layout shards next_shard_index shard_count open_shard_count].
  split_and!; [|done| |done|done].
  - by etransitivity.
  - rewrite Ho', app_nil_r. by rewrite Hf.
Qed.

Lemma layout_reshard st target : (0 < target <= MAX_HASH_KEY)%Z -> Layout st ->
  Layout (reshard_uniform st target) /\ evolves (shards st) (shards (reshard_uniform st target)).
Proof.
  intros Ht [Hn Hok _ _ _]. destruct (reshard_uniform_shards st target Ht Hn) as (He & Hn' & Hr & Hc & Ho).
  assert (He' : evolves (shards st) (shards (reshard_uniform st target)))
    by (etransitivity; [apply evolves_close_all|done]).
  split; [|done]. apply (layout_of_chain _ (uniform_range target <$> seqZ 0 target)); [done| |by apply uniform_chain|done..|].
  - by eapply shard_ok_evolves.
  - rewrite Ho, length_fmap, length_seqZ. lia.
Qed.

Lemma evolves_closed l l' : evolves (closed <$> l) l' ->
  exists old new, l' = old ++ new /\ old = closed <$> l /\ Forall (fun sh => records sh = []) new.
Proof.
  intros (l1 & l2 & -> & H2 & Hf). exists l1, l2. split_and!; [done| |].
  - clear Hf. revert l1 H2. induction l as [|sh l IH]; intros l1 H2; inversion H2 as [|? y ? ? Hy Hl]; [done|].
    rewrite fmap_cons. f_equal; [|by apply IH]. by destruct Hy as [->| ->].
  - eapply Forall_impl; [done|]. by intros sh (_ & Hr & _).
Qed.

(** An open shard found by its id. *)
Lemma find_open_shard_Ok l id i : find_open_shard_idx l id = Ok i ->
  exists sh, l !! i = Some sh /\ shard_id sh = id /\ is_open sh = true.
Proof.
  unfold find_open_shard_idx. destruct (list_find _ l) as [[n sh]|] eqn:Hf; [|done]. intros [= <-].
  apply list_find_Some in Hf as (Hl & [Hid Ho] & _). eauto.
Qed.

Lemma open_entries_alter l i sh : l !! i = Some sh -> is_open sh = true ->
  open_entries l ≡ₚ entry sh :: open_entries (alter closed i l).
Proof.
  revert i. induction l as [|x l IH]; intros [|i] Hl Ho; try done.
  - cbn in Hl. injection Hl as ->. rewrite open_entries_cons, Ho. done.
  - cbn in Hl. change (alter closed (S i) (x :: l)) with (x :: alter closed i l).
    rewrite !open_entries_cons. specialize (IH i Hl Ho). destruct (is_open x); [|done].
    rewrite IH. constructor.
Qed.

Lemma numbered_alter l next i : numbered l next -> numbered (alter closed i l) next.
Proof.
  intros [Hids ->]. unfold numbered. rewrite length_alter. split; [|done]. rewrite <- Hids.
  clear Hids. revert i. induction l as [|x l IH]; intros [|i]; try done. cbn. f_equal. apply IH.
Qed.

Lemma ranged_bounds sh : ranged sh ->
  (0 <= (shard_hash_range sh).1 <= (shard_hash_range sh).2)%Z /\ ((shard_hash_range sh).2 <= MAX_HASH_KEY)%Z.
Proof.
  intros (s & e & Hs & He & Hse & Hm). unfold shard_hash_range, parse_u128. rewrite Hs, He.
  rewrite !parse_unsigned_print by lia. done.
Qed.

(** The counters after new shards were pushed. *)
Lemma layout_push st l next : numbered l next -> Forall shard_ok l ->
  (forall h, (0 <= h <= MAX_HASH_KEY)%Z -> covering h (open_entries l).*2 = 1) ->
  Layout (with_layout st l next (Z.of_nat (length l)) (open_count l)).
Proof. intros Hn Hok Ht. by split. Qed.

Lemma layout_split st id key st' : Layout st -> split_stream st id key = Ok st' ->
  Layout st' /\ evolves (shards st) (shards st').
Proof.
  intros HL Hs. unfold split_stream in Hs.
  apply bind_Ok in Hs as (i & (sh & Hl & Hid & Ho)%find_open_shard_Ok & Hs).
  rewrite Hl in Hs. cbn [ok_or mbind result_bind] in Hs.
  assert (Hok : shard_ok sh) by (eapply Forall_lookup_1; [apply HL|done]).
  pose proof (ranged_bounds sh (proj1 Hok)) as [Hb1 Hb2].
  pose proof (open_entries_alter _ _ _ Hl Ho) as Hperm. unfold entry in Hperm.
  destruct (shard_hash_range sh) as [s e]. cbn [fst snd] in *.
  apply bind_Ok in Hs as (p & _ & Hs).
  destruct (Z.leb_spec p s), (Z.ltb_spec e p); try done. cbn in Hs. injection Hs as <-.
  set (n1 := new_shard _ s _ _ _). set (n2 := new_shard _ p e _ _).
  assert (Happ : forall l : list KinesisShard, l ++ [n1; n2] = (l ++ [n1]) ++ [n2]) by (intros; by rewrite <- app_assoc).
  assert (Hf1 : fresh n1) by (apply fresh_new; lia). assert (Hf2 : fresh n2) by (apply fresh_new; lia).
  split.
  2: { cbn [with_layout shards]. rewrite Happ. etransitivity; [apply (evolves_alter _ i)|].
       etransitivity; by apply evolves_push. }
  rewrite Happ. apply layout_push.
  - apply numbered_snoc; [|done]. apply numbered_snoc; [|done]. apply numbered_alter, HL.
  - rewrite <- Happ. apply Forall_app. split; [eapply shard_ok_evolves; [apply evolves_alter|apply HL]|].
    repeat constructor; by apply shard_ok_fresh.
  - intros h Hh. unfold n1, n2. rewrite !open_entries_push, <- app_assoc by lia.
    pose proof (lay_tile st HL h Hh) as Ht. rewrite (covering_perm h _ _ (fmap_Permutation snd _ _ Hperm)) in Ht.
    rewrite fmap_app, covering_app. rewrite fmap_cons, covering_cons in Ht.
    cbn [fmap list_fmap app snd] in Ht |- *. rewrite !covering_cons. unfold within in *. cbn [fst snd] in *.
    change (covering h []) with 0.
    destruct (Z.leb_spec s h), (Z.leb_spec h e), (Z.leb_spec h (p - 1)), (Z.leb_spec p h); cbn in *; lia.
Qed.

Lemma layout_merge st id1 id2 st' : Layout st -> merge_stream st id1 id2 = Ok st' ->
  Layout st' /\ evolves (shards st) (shards st').
Proof.
  intros HL Hm. unfold merge_stream in Hm. destruct (String.eqb_spec id1 id2) as [|Hne]; [done|].
  apply bind_Ok in Hm as (i1 & (sh1 & Hl1 & Hid1 & Ho1)%find_open_shard_Ok & Hm).
  apply bind_Ok in Hm as (i2 & (sh2 & Hl2 & Hid2 & Ho2)%find_open_shard_Ok & Hm).
  rewrite Hl1, Hl2 in Hm. cbn [ok_or mbind result_bind] in Hm.
  assert (Hi : i1 <> i2) by (intros ->; rewrite Hl1 in Hl2; injection Hl2 as ->; congruence).
  pose proof (ranged_bounds sh1 (proj1 (Forall_lookup_1 _ _ _ _ (lay_ok st HL) Hl1))) as [Hb1 Hb1'].
  pose proof (ranged_bounds sh2 (proj1 (Forall_lookup_1 _ _ _ _ (lay_ok st HL) Hl2))) as [Hb2 Hb2'].
  pose proof (open_entries_alter _ _ _ Hl1 Ho1) as Hp1.
  assert (Hl2' : alter closed i1 (shards st) !! i2 = Some sh2) by (by rewrite list_lookup_alter_ne).
  pose proof (open_entries_alter _ _ _ Hl2' Ho2) as Hp2. rewrite Hp2 in Hp1. unfold entry in Hp1.
  destruct (shard_hash_range sh1) as [s1 e1], (shard_hash_range sh2) as [s2 e2]. cbn [fst snd] in *.
  cbv zeta in Hm. destruct (negb _ && negb _) eqn:Hadj in Hm; [done|]. injection Hm as <-.
  assert (Hcase : (e1 + 1 = s2 \/ e2 + 1 = s1)%Z).
  { rewrite <- negb_orb in Hadj. apply negb_false_iff, orb_prop in Hadj as [Ha|Ha];
      apply andb_prop in Ha as [_ Ha%Z.eqb_eq]; auto. }
  clear Hadj. split.
  2: { cbn [with_layout shards]. etransitivity; [apply (evolves_alter _ i1)|].
       etransitivity; [apply (evolves_alter _ i2)|]. apply evolves_push, fresh_new; lia. }
  apply layout_push.
  - apply numbered_snoc; [|done]. apply numbered_alter, numbered_alter, HL.
  - apply Forall_app. split.
    + eapply shard_ok_evolves; [|apply HL]. etransitivity; apply evolves_alter.
    + apply Forall_singleton, shard_ok_fresh, fresh_new; lia.
  - intros h Hh. rewrite open_entries_push by lia.
    pose proof (lay_tile st HL h Hh) as Ht. rewrite (covering_perm h _ _ (fmap_Permutation snd _ _ Hp1)) in Ht.
    rewrite fmap_app, covering_app. rewrite !fmap_cons, !covering_cons in Ht.
    cbn [fmap list_fmap app snd] in Ht |- *. rewrite !covering_cons. unfold within in *. cbn [fst snd] in *.
    change (covering h []) with 0.
    destruct (Z.leb_spec s1 h), (Z.leb_spec h e1), (Z.leb_spec s2 h), (Z.leb_spec h e2),
      (Z.leb_spec (Z.min s1 s2) h), (Z.leb_spec h (Z.max e1 e2)); cbn in *; lia.
Qed.

(** Changes that keep every shard's identity, range and openness. *)
Definition same_frame (sh sh' : KinesisShard) : Prop :=
  shard_id sh' = shard_id sh /\ starting_hash_key sh' = starting_hash_key sh
  /\ ending_hash_key sh' = ending_hash_key sh /\ is_open sh' = is_open sh.

Lemma same_frame_refl l : Forall2 same_frame l l.
Proof. induction l; by constructor. Qed.

Lemma same_frame_entries l l' : Forall2 same_frame l l' ->
  shard_id <$> l' = shard_id <$> l /\ length l' = length l /\ open_entries l' = open_entries l.
Proof.
  induction 1 as [|x y l l' (Hid & Hs & He & Ho) H (IH1 & IH2 & IH3)]; [done|].
  rewrite !fmap_cons, Hid, IH1. split_and!; [done|cbn; by rewrite IH2|].
  rewrite !open_entries_cons, Ho, IH3. unfold entry, shard_hash_range. by rewrite Hid, Hs, He.
Qed.

Lemma layout_frame st l : Layout st -> Forall2 same_frame (shards st) l -> Forall shard_ok l ->
  Layout (with_shards st l).
Proof.
  intros [[Hids Hn] Hok Ht Hc Ho] Hf Hok'. apply same_frame_entries in Hf as (Hi & Hlen & Hoe).
  split; cbn [with_shards shards next_shard_index shard_count open_shard_count]; unfold numbered;
    rewrite ?Hi, ?Hlen, ?Hoe; try done.
  by rewrite Ho, !open_count_entries, Hoe.
Qed.

Lemma layout_cursor st c : Layout st -> Layout (with_cursor st c).
Proof. intros [? ? ? ? ?]. by split. Qed.

Lemma shard_ok_append now sh key bytes : shard_ok sh -> shard_ok (append_record now sh key bytes).1.
Proof.
  intros (Hr & Hlen & Hseq). unfold append_record. cbn [fst]. split_and!; [done| |].
  - cbn [records next_sequence_number]. rewrite length_app. cbn. lia.
  - cbn [records next_sequence_number shard_id]. intros i r Hi. rewrite length_app. cbn [length].
    apply lookup_app_Some in Hi as [Hi|[Hge Hi]].
    + rewrite (Hseq i r Hi). f_equal. lia.
    + apply list_lookup_singleton_Some in Hi as [Hi <-]. cbn. f_equal. lia.
Qed.

Lemma append_frame now sh key bytes : same_frame sh (append_record now sh key bytes).1.
Proof. done. Qed.

Lemma layout_append now st idx key bytes st' ids :
  Layout st -> append_at now st idx key bytes = Some (st', ids) -> Layout st'.
Proof.
  intros HL Ha. unfold append_at in Ha. apply bind_Some in Ha as (sh & Hl & Ha).
  pose proof (shard_ok_append now sh key bytes (Forall_lookup_1 _ _ _ _ (lay_ok st HL) Hl)) as Hok.
  pose proof (append_frame now sh key bytes) as Hfr.
  destruct (append_record _ _ _ _) as [sh' seq]. injection Ha as <- <-. cbn [fst] in *.
  apply layout_frame; [done| |].
  - rewrite <- (list_insert_id (shards st) idx sh Hl) at 1. apply Forall2_insert; [apply same_frame_refl|done].
  - apply Forall_insert; [apply HL|done].
Qed.

Lemma shard_ok_trim sh n : shard_ok sh -> shard_ok (with_records sh (drop n (records sh))).
Proof.
  intros (Hr & Hlen & Hseq). split_and!; [done| |]; cbn [with_records records next_sequence_number shard_id].
  - rewrite length_drop. lia.
  - intros i r Hi. rewrite lookup_drop in Hi. pose proof (lookup_lt_Some _ _ _ Hi) as Hlt.
    rewrite (Hseq _ r Hi), length_drop. f_equal. lia.
Qed.

Lemma trim_shards_frame name cutoff l : forall o,
  Forall2 same_frame l (trim_shards name cutoff l o).1
  /\ (Forall shard_ok l -> Forall shard_ok (trim_shards name cutoff l o).1).
Proof.
  induction l as [|sh l IH]; intros o; [by split|]. cbn [trim_shards].
  assert (Hsh : same_frame sh (trim_shard name cutoff sh o).1
                /\ (shard_ok sh -> shard_ok (trim_shard name cutoff sh o).1)).
  { unfold trim_shard. destruct (_ =? 0)%nat; [done|]. split; [done|apply shard_ok_trim]. }
  destruct (trim_shard name cutoff sh o) as [sh' o']. specialize (IH o').
  destruct (trim_shards name cutoff l o') as [l' o'']. cbn [fst] in *.
  destruct Hsh as [Hf Hs], IH as [Hfl Hl].
  split; [by constructor|]. intros Hok. apply Forall_cons in Hok as [? ?]. constructor; auto.
Qed.

Lemma layout_trim name now st o : Layout st ->
  Layout (with_shards st (trim_shards name now (shards st) o).1).
Proof.
  intros HL. pose proof (trim_shards_frame name now (shards st) o) as [Hf Hok].
  apply layout_frame; [exact HL|exact Hf|apply Hok, HL].
Qed.

End KinesisLayout.
