(* ===== verification/KinesisTheory.v ===== *)
(** * What Kinesis promises to producers and consumers

    Sequence numbers, routing, iterators and reading, over the well-formed
    states of [KinesisLayout]; reachability of such states under every
    operation; and the two places where positions go wrong. *)

From Stdlib Require Import ZArith Lia Bool String Ascii SpecFloat.
From stdpp Require Import base option list strings gmap sorting.
From S2P Require Import Prelude Json Arn BTree Sqs Kinesis KinesisService KinesisLayout.
Import Kinesis KinesisService KinesisLayout.

Module KinesisTheory.

(** ** Sequence numbers as text *)

Lemma digits_val_bounds s : forall acc v, (0 <= acc)%Z -> digits_val acc s = Some v ->
  (acc * 10 ^ Z.of_nat (String.length s) <= v < (acc + 1) * 10 ^ Z.of_nat (String.length s))%Z.
Proof.
  induction s as [|c s IH]; intros acc v Hacc Hv; cbn [digits_val] in Hv.
  { injection Hv as <-. cbn. lia. }
  destruct (is_ascii_digit c) eqn:Hc; [|done].
  assert (Hr : (0 <= Z.of_N (char_code c) - 48 <= 9)%Z).
  { revert Hc. unfold is_ascii_digit. rewrite andb_true_iff, !N.leb_le. lia. }
  apply IH in Hv; [|lia]. cbn [String.length]. rewrite Nat2Z.inj_succ, Z.pow_succ_r by lia.
  set (p := (10 ^ Z.of_nat (String.length s))%Z) in *. assert (0 < p)%Z by (unfold p; lia). nia.
Qed.

(** Digit strings of one length are ordered as their numbers. *)
Lemma digits_val_order a : forall b acc va vb, (0 <= acc)%Z -> String.length a = String.length b ->
  digits_val acc a = Some va -> digits_val acc b = Some vb -> BTree.str_leb a b = (va <=? vb)%Z.
Proof.
  induction a as [|x a IH]; intros [|y b] acc va vb Hacc Hlen Ha Hb; try done.
  { cbn in Ha, Hb. simplify_eq. cbn. by rewrite Z.leb_refl. }
  cbn [digits_val] in Ha, Hb. destruct (is_ascii_digit x) eqn:Hx, (is_ascii_digit y) eqn:Hy; try done.
  assert (Hrx : (0 <= Z.of_N (char_code x) - 48)%Z) by (revert Hx; unfold is_ascii_digit; rewrite andb_true_iff, !N.leb_le; lia).
  assert (Hry : (0 <= Z.of_N (char_code y) - 48)%Z) by (revert Hy; unfold is_ascii_digit; rewrite andb_true_iff, !N.leb_le; lia).
  cbn in Hlen. injection Hlen as Hlen. cbn [BTree.str_leb].
  pose proof Ha as Hba. apply digits_val_bounds in Hba; [|lia].
  pose proof Hb as Hbb. apply digits_val_bounds in Hbb; [|lia]. rewrite <- Hlen in Hbb.
  set (p := (10 ^ Z.of_nat (String.length a))%Z) in *. assert (0 < p)%Z by (unfold p; lia).
  destruct (N.ltb_spec (char_code x) (char_code y)); [|destruct (N.ltb_spec (char_code y) (char_code x))].
  - symmetry. apply Z.leb_le. nia.
  - symmetry. apply Z.leb_gt. nia.
  - assert (Hxy : char_code x = char_code y) by lia. rewrite Hxy in Ha. eapply IH; [|done..]. lia.
Qed.

Lemma print_digits_length fuel : forall z acc k, (0 <= z < 10 ^ Z.of_nat (S k))%Z ->
  String.length (print_digits fuel z acc) <= S k + String.length acc.
Proof.
  induction fuel as [|f IH]; intros z acc k Hz; cbn [print_digits]; [lia|].
  destruct (Z.ltb_spec z 10); [cbn; lia|]. destruct k as [|k]; [cbn in Hz; lia|].
  rewrite Nat2Z.inj_succ, Z.pow_succ_r in Hz by lia.
  etransitivity; [apply (IH _ _ k)|cbn; lia].
  split; [apply Z.div_pos; lia|]. apply Z.div_lt_upper_bound; lia.
Qed.

Lemma print_Z_length z k : (0 <= z < 10 ^ Z.of_nat (S k))%Z -> String.length (print_Z z) <= S k.
Proof.
  intros Hz. unfold print_Z. destruct (Z.ltb_spec z 0); [lia|].
  pose proof (print_digits_length (S (Z.to_nat (Z.log2 z))) z EmptyString k Hz) as Hl. cbn [String.length] in Hl.
  unfold print_nonneg. lia.
Qed.

Lemma zeros_length k : String.length (zeros k) = k.
Proof. induction k; cbn; lia. Qed.

Lemma zeros_digits k : string_forallb is_ascii_digit (zeros k) = true.
Proof. by induction k. Qed.

Lemma pad0_length w z : (0 <= z < 10 ^ Z.of_nat (S w))%Z -> String.length (pad0 (S w) z) = S w.
Proof.
  intros Hz. unfold pad0. rewrite string_length_app, zeros_length.
  pose proof (print_Z_length z w Hz). lia.
Qed.

Lemma pad0_digits w z : (0 <= z)%Z -> string_forallb is_ascii_digit (pad0 w z) = true.
Proof. intros Hz. unfold pad0. by rewrite string_forallb_app, zeros_digits, print_Z_digits. Qed.

Lemma pad0_order w a b : (0 <= a < 10 ^ Z.of_nat (S w))%Z -> (0 <= b < 10 ^ Z.of_nat (S w))%Z ->
  BTree.str_leb (pad0 (S w) a) (pad0 (S w) b) = (a <=? b)%Z.
Proof.
  intros Ha Hb. apply (digits_val_order _ _ 0%Z); [done| | |].
  - by rewrite !pad0_length.
  - apply digits_val_pad0; lia.
  - apply digits_val_pad0; lia.
Qed.

Lemma str_leb_app p a b : BTree.str_leb (p +:+ a) (p +:+ b) = BTree.str_leb a b.
Proof. induction p as [|c p IH]; [done|]. cbn in *. by rewrite N.ltb_irrefl. Qed.

Lemma digits_byte_len s : string_forallb is_ascii_digit s = true -> byte_len s = String.length s.
Proof.
  induction s as [|c s IH]; [done|]. cbn. rewrite andb_true_iff. intros [Hc Hs].
  rewrite IH by done. unfold is_ascii_digit in Hc. rewrite andb_true_iff, !N.leb_le in Hc.
  destruct (N.ltb_spec (char_code c) 128); lia.
Qed.

Lemma shard_discriminator_bounds id : (0 <= shard_discriminator id <= 99999)%Z.
Proof.
  unfold shard_discriminator, parse_u64. destruct (parse_unsigned _ _) as [z|] eqn:Hz; cbn; [|lia].
  apply parse_unsigned_range in Hz. lia.
Qed.

Lemma sequence_number_order id a b : (0 <= a < 10 ^ 51)%Z -> (0 <= b < 10 ^ 51)%Z ->
  BTree.str_leb (sequence_number_for id a) (sequence_number_for id b) = (a <=? b)%Z.
Proof. intros Ha Hb. unfold sequence_number_for. rewrite str_leb_app. by apply pad0_order. Qed.

Lemma sequence_number_inj id a b : (0 <= a)%Z -> (0 <= b)%Z ->
  sequence_number_for id a = sequence_number_for id b -> a = b.
Proof. intros Ha Hb Heq. unfold sequence_number_for in Heq. simplify_eq. by eapply pad0_inj. Qed.

Lemma string_take5_app p q : String.length p = 5 -> string_take5 (p +:+ q) = Some p.
Proof.
  intros Hp. do 5 (destruct p as [|? p]; [done|]). by destruct p.
Qed.

(** The discriminator can be read back from a number the shard minted. *)
Lemma sequence_discriminator id n : (0 <= n < 10 ^ 51)%Z ->
  sequence_shard_discriminator (sequence_number_for id n) = Some (shard_discriminator id).
Proof.
  intros Hn. pose proof (shard_discriminator_bounds id) as Hd. unfold sequence_shard_discriminator, sequence_number_for.
  assert (H5 : String.length (pad0 5 (shard_discriminator id)) = 5) by (apply (pad0_length 4); cbn; lia).
  assert (H51 : String.length (pad0 51 n) = 51) by (by apply (pad0_length 50)).
  assert (Hdig : string_forallb is_ascii_digit (pad0 5 (shard_discriminator id) +:+ pad0 51 n) = true).
  { rewrite string_forallb_app, !pad0_digits by lia. done. }
  rewrite digits_byte_len, string_length_app, H5, H51, Hdig by done. cbn [Nat.add Nat.eqb negb orb].
  rewrite string_take5_app by done. cbn [mbind option_bind]. unfold parse_u32.
  apply parse_unsigned_digits; [|apply pad0_digits; lia|apply digits_val_pad0; lia|unfold u32_max; lia].
  by destruct (pad0 5 _).
Qed.

Lemma list_find_unique {A} (P : A -> Prop) `{!forall x, Decision (P x)} (l : list A) k x :
  l !! k = Some x -> P x -> (forall j y, l !! j = Some y -> P y -> j = k) -> list_find P l = Some (k, x).
Proof.
  intros Hl HP Hu. apply list_find_Some. split_and!; [done..|]. intros j y Hj Hlt HPy.
  specialize (Hu j y Hj HPy). lia.
Qed.

(** Theorem (functional): while a shard holds records, every sequence number it ever
    handed out is a valid position.  The number of a record that is still there
    gives that record's index (or the next one for AFTER_SEQUENCE_NUMBER); the
    number of a record trimmed away gives the trim horizon. *)
Theorem sequence_number_resolves (st : KinesisStream) (i : nat) (sh : KinesisShard) (n : Z) (after : bool)
  (HL : Layout st) (Hsh : shards st !! i = Some sh) (Hne : records sh <> [])
  (Hmax : (next_sequence_number sh <= 10 ^ 51)%Z) (Hn : (1 <= n < next_sequence_number sh)%Z) :
  resolve_sequence_number_index sh (sequence_number_for (shard_id sh) n) after
  = let first := (next_sequence_number sh - Z.of_nat (length (records sh)))%Z in
    Ok (if (n <? first)%Z then 0 else Z.to_nat (n - first) + if after then 1 else 0).
Proof.
  destruct (Forall_lookup_1 _ _ _ _ (lay_ok st HL) Hsh) as (_ & Hlen & Hseq).
  set (first := (_ - _)%Z) in *. unfold resolve_sequence_number_index.
  assert (Huniq : forall j y, records sh !! j = Some y ->
            sequence_number y = sequence_number_for (shard_id sh) n -> Z.of_nat j = (n - first)%Z).
  { intros j y Hj Hy. rewrite (Hseq j y Hj) in Hy. apply sequence_number_inj in Hy; lia. }
  destruct (Z.ltb_spec n first) as [Hlt|Hge].
  - destruct (list_find _ (records sh)) as [[k r]|] eqn:Hf.
    { apply list_find_Some in Hf as (Hk & HP & _). specialize (Huniq k r Hk HP). lia. }
    destruct (records sh) as [|r l] eqn:Hr; [done|].
    assert (Hr0 := Hseq 0 r eq_refl). cbn [length] in *. rewrite Z.add_0_r in Hr0. fold first in Hr0.
    rewrite Hr0, sequence_number_order, sequence_discriminator by lia.
    rewrite (proj2 (Z.leb_le n first)) by lia. rewrite bool_decide_true by done.
    destruct (String.eqb_spec (sequence_number_for (shard_id sh) n) (sequence_number_for (shard_id sh) first))
      as [Heq|_]; [|done]. apply sequence_number_inj in Heq; lia.
  - destruct (lookup_lt_is_Some_2 (records sh) (Z.to_nat (n - first))) as [r Hk]; [lia|].
    rewrite (list_find_unique _ _ _ r Hk).
    + f_equal. destruct after; lia.
    + rewrite (Hseq _ r Hk). f_equal. fold first. lia.
    + intros j y Hj Hy. specialize (Huniq j y Hj Hy). lia.
Qed.

(** ** Trimming *)

Definition trimmed (cutoff : Z) (sh : KinesisShard) : KinesisShard :=
  with_records sh (drop (expired_prefix cutoff (records sh)) (records sh)).

(** A lease of a stream follows the records its shard loses. *)
Definition follow (name : string) (cutoff : Z) (l : list KinesisShard) (lease : ShardIteratorLease)
  : ShardIteratorLease :=
  match snd <$> list_find (fun sh => shard_id sh = lease_shard_id lease) l with
  | Some sh => shift_lease name (shard_id sh) (expired_prefix cutoff (records sh)) lease
  | None => lease
  end.

Lemma shift_lease_0 name sid lease : shift_lease name sid 0 lease = lease.
Proof.
  unfold shift_lease. destruct lease as [t n i k e]. cbn. rewrite Nat.sub_0_r. by destruct (_ && _).
Qed.

Lemma trim_shard_spec name cutoff sh o :
  (trim_shard name cutoff sh o).1 = trimmed cutoff sh
  /\ (trim_shard name cutoff sh o).2.2
     = shift_lease name (shard_id sh) (expired_prefix cutoff (records sh)) <$> o.2.
Proof.
  unfold trim_shard, trimmed. destruct (Nat.eqb_spec (expired_prefix cutoff (records sh)) 0) as [->|Hne]; [|done].
  split; [by destruct sh|]. cbn. rewrite <- (map_fmap_id o.2) at 1. apply map_fmap_ext.
  intros k x _. by rewrite shift_lease_0.
Qed.

Lemma shift_lease_shard name sid k lease : lease_shard_id (shift_lease name sid k lease) = lease_shard_id lease.
Proof. unfold shift_lease. by destruct (_ && _). Qed.

Lemma shift_lease_stream name sid k lease : lease_stream_name (shift_lease name sid k lease) = lease_stream_name lease.
Proof. unfold shift_lease. by destruct (_ && _). Qed.

Lemma shift_lease_other name sid k lease : lease_shard_id lease <> sid -> shift_lease name sid k lease = lease.
Proof.
  intros Hne. unfold shift_lease. destruct (String.eqb_spec (lease_shard_id lease) sid); [done|].
  by rewrite andb_false_r.
Qed.

Lemma trim_shards_spec name cutoff l : forall o, NoDup (shard_id <$> l) ->
  (trim_shards name cutoff l o).1 = trimmed cutoff <$> l
  /\ (trim_shards name cutoff l o).2.2 = follow name cutoff l <$> o.2.
Proof.
  induction l as [|sh l IH]; intros o Hnd.
  { cbn. split; [done|]. rewrite <- (map_fmap_id o.2) at 1. by apply map_fmap_ext. }
  rewrite fmap_cons in Hnd. apply NoDup_cons in Hnd as [Hni Hnd]. cbn [trim_shards].
  pose proof (trim_shard_spec name cutoff sh o) as [H1 H2].
  destruct (trim_shard name cutoff sh o) as [sh' o']. cbn [fst snd] in *.
  specialize (IH o' Hnd) as [I1 I2]. destruct (trim_shards name cutoff l o') as [l' o'']. cbn [fst snd] in *.
  split; [by rewrite fmap_cons, H1, I1|]. rewrite I2, H2, <- map_fmap_compose. apply map_fmap_ext.
  intros k lease _. unfold compose, follow. rewrite shift_lease_shard. cbn [list_find].
  destruct (decide (shard_id sh = lease_shard_id lease)) as [Heq|Hne].
  - cbn. destruct (list_find _ l) as [[j sh2]|] eqn:Hf; [|done]. exfalso.
    apply list_find_Some in Hf as (Hj & Hid & _). apply Hni. rewrite Heq, <- Hid. apply list_elem_of_fmap.
    exists sh2. split; [done|]. by eapply list_elem_of_lookup_2.
  - rewrite shift_lease_other by done. destruct (list_find _ l) as [[j sh2]|]; [|done]. done.
Qed.

Definition trimmed_stream (now : Z) (st : KinesisStream) : KinesisStream :=
  with_shards st (trimmed (now - hours (retention_period_hours st)) <$> shards st).

Definition cutoff_of (now : Z) (st : KinesisStream) : Z := (now - hours (retention_period_hours st))%Z.

Definition follow_streams (now : Z) (m : gmap string KinesisStream) (lease : ShardIteratorLease)
  : ShardIteratorLease :=
  match m !! lease_stream_name lease with
  | Some st => follow (lease_stream_name lease) (cutoff_of now st) (shards st) lease
  | None => lease
  end.

Lemma follow_stream name cutoff l lease : lease_stream_name (follow name cutoff l lease) = lease_stream_name lease.
Proof. unfold follow. destruct (list_find _ l) as [[? ?]|]; [apply shift_lease_stream|done]. Qed.

Lemma follow_other name cutoff l lease : lease_stream_name lease <> name -> follow name cutoff l lease = lease.
Proof.
  intros Hne. unfold follow. destruct (list_find _ l) as [[? ?]|]; [|done]. cbn.
  unfold shift_lease. by destruct (String.eqb_spec (lease_stream_name lease) name).
Qed.

Lemma trim_streams_spec now (l : list (string * KinesisStream)) : forall o, NoDup l.*1 ->
  (forall name st, (name, st) ∈ l -> NoDup (shard_id <$> shards st)) ->
  (trim_streams now l o).1 = prod_map id (trimmed_stream now) <$> l
  /\ (trim_streams now l o).2.2 = follow_streams now (list_to_map l) <$> o.2.
Proof.
  induction l as [|[name st] l IH]; intros o Hnd Hids.
  { cbn. split; [done|]. rewrite <- (map_fmap_id o.2) at 1. apply map_fmap_ext.
    intros k x _. unfold follow_streams. by rewrite lookup_empty. }
  rewrite fmap_cons in Hnd. apply NoDup_cons in Hnd as [Hni Hnd]. cbn [trim_streams].
  pose proof (trim_shards_spec name (cutoff_of now st) (shards st) o (Hids name st ltac:(left))) as [H1 H2].
  unfold cutoff_of in H1, H2. destruct (trim_shards _ _ _ o) as [shs o']. cbn [fst snd] in *.
  destruct (IH o' Hnd) as [I1 I2]; [intros n s Hin; eapply Hids; right; exact Hin|].
  destruct (trim_streams now l o') as [l' o'']. cbn [fst snd] in *.
  split; [by rewrite fmap_cons, H1, I1|]. rewrite I2, H2, <- map_fmap_compose. apply map_fmap_ext.
  intros k lease _. unfold compose, follow_streams. rewrite follow_stream. cbn [list_to_map foldr].
  destruct (decide (lease_stream_name lease = name)) as [->|Hne].
  - cbn. rewrite lookup_insert_eq. rewrite not_elem_of_list_to_map_1 by done. done.
  - cbn. rewrite lookup_insert_ne by done. rewrite follow_other by done. done.
Qed.

Definition ids_distinct (s : KinesisState) : Prop :=
  forall name st, streams s !! name = Some st -> NoDup (shard_id <$> shards st).

(** What a trim does to the streams and to the iterators. *)
Lemma trim_state_spec now s : ids_distinct s ->
  streams (trim_expired_records_at now s) = trimmed_stream now <$> streams s
  /\ iterators (trim_expired_records_at now s) = follow_streams now (streams s) <$> iterators s.
Proof.
  intros Hids. unfold trim_expired_records_at.
  assert (Hnd : NoDup (BTree.iter (streams s)).*1).
  { rewrite BTree.iter_Permutation. apply NoDup_fst_map_to_list. }
  assert (Hmap : list_to_map (BTree.iter (streams s)) = streams s).
  { rewrite <- (list_to_map_to_list (streams s)) at 2. apply list_to_map_proper; [done|apply BTree.iter_Permutation]. }
  pose proof (trim_streams_spec now (BTree.iter (streams s)) (lambda_checkpoints s, iterators s) Hnd) as Hspec.
  destruct (trim_streams _ _ _) as [l o]. destruct Hspec as [H1 H2].
  { intros name st Hin%BTree.elem_of_iter. by eapply Hids. }
  cbn [fst snd streams iterators] in *. rewrite H1, H2, Hmap. split; [|done].
  rewrite list_to_map_fmap, Hmap. done.
Qed.

(** ** Reachable states *)

Section Reachable.
Context `{KinesisHost}.

(** The requests, background steps and deliveries of other services that
    change one region's state, with the clock readings each makes.  Restoring a
    snapshot and the provisioning of CloudFormation are not among them. *)
Inductive Op :=
| OCreateStream (now : Z) (rg : string) (b : Value)
| ODeleteStream (rg : string) (b : Value)
| OAddTags (b : Value) | ORemoveTags (b : Value)
| OTagResource (b : Value) | OUntagResource (b : Value)
| ORetention (increasing : bool) (b : Value)
| OPutRecord (trim_at append_time : Z) (b : Value)
| OPutRecords (trim_at : Z) (append_time : nat -> Z) (b : Value)
| OGetShardIterator (t : IteratorClock) (b : Value)
| OGetRecords (t : IteratorClock) (now cutoff_now : Z) (b : Value)
| OMergeShards (b : Value) | OSplitShard (b : Value)
| OUpdateShardCount (rg : string) (b : Value)
| OPutPolicy (b : Value) | ODeletePolicy (b : Value)
| OStartEncryption (b : Value) | OStopEncryption (b : Value)
| OMonitoring (enable : bool) (rg : string) (b : Value)
| OAccountSettings (b : Value) | OStreamMode (b : Value) | ODistribution (b : Value)
| OWarmThroughput (b : Value) | OMaxRecordSize (b : Value)
| ORegisterConsumer (now : Z) (b : Value) | ODeregisterConsumer (b : Value)
| OCheckpoint (mapping_uuid sid : string) (offset : nat)
| OTrim (now : Z)
| ODeliver (now : Z) (name text key : string)
| OReset.

Definition run_op (op : Op) (s : KinesisState) : KinesisState :=
  match op with
  | OCreateStream now rg b => (create_stream now rg b s).1
  | ODeleteStream rg b => (delete_stream rg b s).1
  | OAddTags b => (add_tags_to_stream b s).1
  | ORemoveTags b => (remove_tags_from_stream b s).1
  | OTagResource b => (tag_resource b s).1
  | OUntagResource b => (untag_resource b s).1
  | ORetention inc b => (update_retention_period inc b s).1
  | OPutRecord t1 t2 b => (put_record t1 t2 b s).1
  | OPutRecords t1 t2 b => (put_records t1 t2 b s).1
  | OGetShardIterator t b => (get_shard_iterator t b s).1
  | OGetRecords t now cut b => (get_records t now cut b s).1
  | OMergeShards b => (merge_shards b s).1
  | OSplitShard b => (split_shard b s).1
  | OUpdateShardCount rg b => (update_shard_count rg b s).1
  | OPutPolicy b => (put_resource_policy b s).1
  | ODeletePolicy b => (delete_resource_policy b s).1
  | OStartEncryption b => (start_stream_encryption b s).1
  | OStopEncryption b => (stop_stream_encryption b s).1
  | OMonitoring enable rg b =>
      (if enable then enable_enhanced_monitoring rg b s else disable_enhanced_monitoring rg b s).1
  | OAccountSettings b => (update_account_settings b s).1
  | OStreamMode b => (update_stream_mode b s).1
  | ODistribution b => (update_stream_record_distribution_strategy b s).1
  | OWarmThroughput b => (update_stream_warm_throughput b s).1
  | OMaxRecordSize b => (update_max_record_size b s).1
  | ORegisterConsumer now b => (register_stream_consumer now b s).1
  | ODeregisterConsumer b => (deregister_stream_consumer b s).1
  | OCheckpoint u sid n => set_lambda_checkpoint s u sid n
  | OTrim now => trim_expired_records_at now s
  | ODeliver now name text key => default s (deliver_to now s name text key)
  | OReset => reset s
  end.

Definition run (ops : list Op) (s : KinesisState) : KinesisState := foldl (fun s op => run_op op s) s ops.

(** What a change to one stream keeps for its readers: every shard is still
    there, with at least as many records. *)
Definition grows (st st' : KinesisStream) : Prop :=
  forall id sh, find_shard st id = Some sh ->
    exists sh', find_shard st' id = Some sh' /\ length (records sh) <= length (records sh').

(** A handler's effect: nothing, one stream replaced by a well-formed one that
    keeps its readers' positions, a stream added, or a change that leaves the
    streams and iterators alone. *)
Inductive effect (s : KinesisState) : KinesisState -> Prop :=
| effect_none : effect s s
| effect_stream name st st' :
    streams s !! name = Some st -> (Layout st -> Layout st' /\ grows st st') ->
    effect s (put_stream s name st')
| effect_new name st : streams s !! name = None -> Layout st -> effect s (put_stream s name st)
| effect_other s' : streams s' = streams s -> iterators s' = iterators s -> effect s s'.

Lemma effect_commit {A} s (r : Result AwsServiceError (KinesisState * A)) :
  (forall s' a, r = Ok (s', a) -> effect s s') -> effect s (commit s r).1.
Proof. intros Hr. destruct r as [[s' a]|e]; [by eapply Hr|apply effect_none]. Qed.

Lemma named_stream_Ok s b name st : named_stream s b = Ok (name, st) -> streams s !! name = Some st.
Proof.
  unfold named_stream. intros (n & _ & H1)%bind_Ok. apply bind_Ok in H1 as (st' & Hs%ok_or_Ok & H1).
  by simplify_eq.
Qed.

Lemma stream_by_arn_Ok s arn name st : stream_by_arn s arn = Ok (name, st) -> streams s !! name = Some st.
Proof.
  unfold stream_by_arn. intros (n & _ & H1)%bind_Ok. apply bind_Ok in H1 as (st' & Hs%ok_or_Ok & H1).
  by simplify_eq.
Qed.

Lemma grows_refl st st' : shards st' = shards st -> grows st st'.
Proof. intros Hs id sh Hf. exists sh. split; [|done]. unfold find_shard in *. by rewrite Hs. Qed.

Lemma layout_settings st r m e k ms w sz d : Layout st -> Layout (with_settings st r m e k ms w sz d).
Proof. intros [? ? ? ? ?]. by split. Qed.

Lemma layout_tags st m : Layout st -> Layout (with_tags st m).
Proof. intros [? ? ? ? ?]. by split. Qed.

(** Each shard keeps its id and loses no record. *)
Definition keeps (sh sh' : KinesisShard) : Prop :=
  shard_id sh' = shard_id sh /\ length (records sh) <= length (records sh').

Lemma keeps_refl l : Forall2 keeps l l.
Proof. induction l; by constructor. Qed.

Lemma grows_prefix st st' l1 l2 : shards st' = l1 ++ l2 -> Forall2 keeps (shards st) l1 -> grows st st'.
Proof.
  intros Hs Hk id sh Hf. unfold find_shard in *. rewrite Hs. clear Hs. revert sh Hf.
  induction Hk as [|x y l l1 [Hid Hlen] Hk IH]; intros sh Hf; [done|]. cbn [list_find app] in *.
  rewrite Hid. destruct (decide (shard_id x = id)); [cbn in *; simplify_eq; eauto|].
  destruct (list_find _ l) as [[j z]|] eqn:Hj; [|done]. cbn in Hf. injection Hf as ->.
  destruct (IH sh eq_refl) as (sh' & Hf' & Hle). exists sh'. split; [|done].
  destruct (list_find _ (l1 ++ l2)) as [[j' z']|]; [|done]. done.
Qed.

Lemma grows_evolves st st' : evolves (shards st) (shards st') -> grows st st'.
Proof.
  intros (l1 & l2 & Hs & H2 & _). apply (grows_prefix st st' l1 l2 Hs).
  eapply Forall2_impl; [exact H2|]. by intros x y [->| ->].
Qed.

Lemma grows_trans st1 st2 st3 : grows st1 st2 -> grows st2 st3 -> grows st1 st3.
Proof.
  intros H1 H2 id sh Hf. destruct (H1 id sh Hf) as (sh' & Hf' & Hle).
  destruct (H2 id sh' Hf') as (sh'' & Hf'' & Hle'). exists sh''. split; [done|lia].
Qed.

Lemma grows_append now st idx key bytes st' ids : append_at now st idx key bytes = Some (st', ids) -> grows st st'.
Proof.
  unfold append_at. intros (sh & Hl & Ha)%bind_Some. cbn in Ha. injection Ha as <- _.
  eapply (grows_prefix _ _ _ []); [by rewrite app_nil_r|].
  rewrite <- (list_insert_id (shards st) idx sh Hl) at 1. apply Forall2_insert; [apply keeps_refl|].
  split; [done|]. cbn. rewrite length_app. lia.
Qed.

(** The streams a put goes through: the cursor may move, a record may land. *)
Definition improves (st st' : KinesisStream) : Prop := Layout st -> Layout st' /\ grows st st'.

Lemma improves_refl st : improves st st.
Proof. intros HL. split; [done|by apply grows_refl]. Qed.

Lemma improves_trans st1 st2 st3 : improves st1 st2 -> improves st2 st3 -> improves st1 st3.
Proof.
  intros H1 H2 HL. destruct (H1 HL) as [HL2 G1]. destruct (H2 HL2) as [HL3 G2].
  split; [done|by eapply grows_trans].
Qed.

Lemma improves_settings st r m e k ms w sz d : improves st (with_settings st r m e k ms w sz d).
Proof. intros HL. split; [by apply layout_settings|by apply grows_refl]. Qed.

Lemma improves_tags st m : improves st (with_tags st m).
Proof. intros HL. split; [by apply layout_tags|by apply grows_refl]. Qed.

Lemma improves_select st key explicit idx st' : select_shard st key explicit = Ok (idx, st') -> improves st st'.
Proof.
  unfold select_shard. case_bool_decide; [done|]. destruct (String.eqb _ _).
  - intros (h & _ & Hs)%bind_Ok. injection Hs as _ <-. intros HL. split; [by apply layout_cursor|by apply grows_refl].
  - intros (h & _ & Hs)%bind_Ok. injection Hs as _ <-. apply improves_refl.
Qed.

Lemma improves_append now st idx key bytes st' ids :
  append_at now st idx key bytes = Some (st', ids) -> improves st st'.
Proof. intros Ha HL. split; [by eapply layout_append|by eapply grows_append]. Qed.

Lemma improves_entry now st entry : improves st (put_records_entry now st entry).1.
Proof.
  unfold put_records_entry. cbv zeta.
  match goal with |- context [match ?k with Ok _ => _ | Err e => (st, Err e) end] => destruct k as [key|e] end;
    [|apply improves_refl].
  destruct (_ <? _)%nat; [apply improves_refl|].
  destruct (decode_record_data _) as [bytes|e]; [|apply improves_refl].
  destruct (_ <? _)%Z; [apply improves_refl|].
  destruct (select_shard st key _) as [[idx st']|e] eqn:Hs; [|apply improves_refl].
  apply improves_select in Hs. destruct (append_at now st' idx key bytes) as [[st'' ids]|] eqn:Ha; [|done].
  eapply improves_trans; [done|by eapply improves_append].
Qed.

Lemma improves_entries append_time entries : forall n st, improves st (put_entries n append_time st entries).1.
Proof.
  induction entries as [|e entries IH]; intros n st; [apply improves_refl|]. cbn [put_entries].
  pose proof (improves_entry (append_time n) st e) as H1.
  destruct (put_records_entry _ st e) as [st1 r]. specialize (IH (S n) st1).
  destruct (put_entries _ _ st1 entries) as [st2 rs]. by eapply improves_trans.
Qed.

Lemma effect_improves s name st st' :
  streams s !! name = Some st -> improves st st' -> effect s (put_stream s name st').
Proof. intros. by eapply effect_stream. Qed.

End Reachable.

(** Peels the binds and guards of a successful handler. *)
Ltac peel Hr :=
  lazymatch type of Hr with
  | mbind _ _ = Ok _ =>
      let x := fresh "x" in let Hx := fresh "Hx" in
      apply bind_Ok in Hr as (x & Hx & Hr); cbv beta zeta in Hr; peel Hr
  | (let '(_, _) := ?p in _) = Ok _ => first [is_var p; destruct p | destruct p eqn:?]; peel Hr
  | (if ?c then Err _ else _) = Ok _ => destruct c eqn:?; [discriminate Hr|]; peel Hr
  | (match ?c with Some _ => Err _ | None => _ end) = Ok _ => destruct c; [discriminate Hr|]; peel Hr
  | (match ?c with Some _ => _ | None => _ end) = Ok _ => destruct c eqn:?; peel Hr
  | Err _ = Ok _ => discriminate Hr
  | Ok _ = Ok _ => injection Hr as; subst
  | _ => idtac
  end.

Section Effects.
Context `{KinesisHost}.

(** Trimming before the effect, for the operations that write. *)
Definition start_of (op : Op) (s : KinesisState) : KinesisState :=
  match op with
  | OPutRecord t _ _ | OPutRecords t _ _ => trim_expired_records_at t s
  | OTrim t => trim_expired_records_at t s
  | _ => s
  end.

Ltac by_stream := eapply effect_improves; [first [eapply named_stream_Ok; eassumption | eapply stream_by_arn_Ok; eassumption]|].

Lemma effect_create now rg b s : effect s (create_stream now rg b s).1.
Proof.
  apply effect_commit. intros s' a Hr. peel Hr. subst.
  apply effect_new; [apply eq_None_not_Some; by eapply bool_decide_eq_false|].
  set (count := default 1%Z _) in *.
  apply (layout_build _ (if (default "PROVISIONED"%string (as_str (index (index b "StreamModeDetails") "StreamMode"))
                             =? "ON_DEMAND")%string then 4%Z else count)); try done.
  destruct (_ =? "ON_DEMAND")%string; [done|].
  apply Z.leb_gt in Heqb0. apply Z.ltb_ge in Heqb1. unfold MAX_HASH_KEY. lia.
Qed.

Lemma effect_retention inc b s : effect s (update_retention_period inc b s).1.
Proof. apply effect_commit. intros s' a Hr. peel Hr. by_stream. apply improves_settings. Qed.

Lemma effect_put_record t1 t2 b s :
  effect (trim_expired_records_at t1 s) (put_record t1 t2 b s).1.
Proof.
  unfold put_record. apply effect_commit. intros s' a Hr. peel Hr.
  by_stream. eapply improves_trans; [by eapply improves_select|]. by eapply improves_append, ok_or_Ok.
Qed.

Lemma effect_put_records t1 t2 b s :
  effect (trim_expired_records_at t1 s) (put_records t1 t2 b s).1.
Proof.
  unfold put_records. apply effect_commit. intros s' a Hr. peel Hr. by_stream.
  match goal with Hp : put_entries ?n ?f ?st ?l = (?st', _) |- improves _ _ =>
    pose proof (improves_entries f l n st) as Hi; by rewrite Hp in Hi end.
Qed.

Lemma effect_deliver now name text key s : effect s (default s (deliver_to now s name text key)).
Proof.
  unfold deliver_to. destruct (streams s !! name) as [st|] eqn:Hst; [|apply effect_none]. cbn [mbind option_bind].
  case_bool_decide; [apply effect_none|].
  destruct (select_shard st key None) as [[idx st']|e] eqn:Hsel; [|apply effect_none].
  destruct (append_at now st' idx key _) as [[st'' ids]|] eqn:Ha; [|apply effect_none].
  eapply effect_improves; [exact Hst|]. eapply improves_trans; [by eapply improves_select|by eapply improves_append].
Qed.

Lemma effect_merge b s : effect s (merge_shards b s).1.
Proof.
  apply effect_commit. intros s' a Hr. peel Hr. by_stream. intros HL.
  match goal with Hm : merge_stream _ _ _ = Ok _ |- _ => apply layout_merge in Hm as [? ?]; [|done] end.
  split; [done|by apply grows_evolves].
Qed.

Lemma effect_split b s : effect s (split_shard b s).1.
Proof.
  apply effect_commit. intros s' a Hr. peel Hr. by_stream. intros HL.
  match goal with Hm : split_stream _ _ _ = Ok _ |- _ => apply layout_split in Hm as [? ?]; [|done] end.
  split; [done|by apply grows_evolves].
Qed.

Lemma effect_reshard rg b s : effect s (update_shard_count rg b s).1.
Proof.
  apply effect_commit. intros s' a Hr. peel Hr. by_stream. intros HL.
  match goal with Hg : (_ <=? 0)%Z || _ = false |- _ => apply orb_false_iff in Hg as [Hg1 Hg2] end.
  apply Z.leb_gt in Hg1. apply Z.ltb_ge in Hg2.
  match goal with |- context [reshard_uniform ?st ?n] =>
    destruct (layout_reshard st n) as [? ?]; [|exact HL|] end; [unfold MAX_HASH_KEY; lia|].
  split; [done|by apply grows_evolves].
Qed.

Lemma effect_monitoring change rg b s : effect s (change_monitoring change rg b s).1.
Proof.
  apply effect_commit. intros s' a Hr. peel Hr. by_stream. apply improves_settings.
Qed.

(** Tags of whatever resource. *)
Lemma effect_change_tags f s r : effect s (change_tags f s r).
Proof.
  destruct r as [name|name|arn]; [|by apply effect_other..]. cbn [change_tags].
  destruct (streams s !! name) as [st|] eqn:Hs.
  - replace (with_streams _ s) with (put_stream s name (with_tags st (f (stream_tags st)))).
    { by eapply effect_improves; [|apply improves_tags]. }
    unfold put_stream, with_streams. f_equal. apply map_eq. intros k. destruct (decide (k = name)) as [->|Hne].
    + by rewrite lookup_insert_eq, lookup_alter_eq, Hs.
    + by rewrite lookup_insert_ne, lookup_alter_ne.
  - apply effect_other; [|done]. cbn. apply map_eq. intros k. destruct (decide (k = name)) as [->|Hne].
    + by rewrite lookup_alter_eq, Hs.
    + by rewrite lookup_alter_ne.
Qed.

(** The operations other than deletion, reset and reading. *)
Definition writes (op : Op) : bool :=
  match op with
  | ODeleteStream _ _ | OReset | OGetShardIterator _ _ | OGetRecords _ _ _ _ => false
  | _ => true
  end.

Lemma op_effect op s : writes op = true -> effect (start_of op s) (run_op op s).
Proof.
  intros Hw. destruct op; try done; cbn [run_op start_of].
  - apply effect_create.
  - apply effect_commit. intros s' a Hr. peel Hr. by_stream. apply improves_tags.
  - apply effect_commit. intros s' a Hr. peel Hr. by_stream. apply improves_tags.
  - apply effect_commit. intros s' a Hr. peel Hr. apply effect_change_tags.
  - apply effect_commit. intros s' a Hr. peel Hr. apply effect_change_tags.
  - apply effect_retention.
  - apply effect_put_record.
  - apply effect_put_records.
  - apply effect_merge.
  - apply effect_split.
  - apply effect_reshard.
  - apply effect_commit. intros s' a Hr. peel Hr. by apply effect_other.
  - apply effect_commit. intros s' a Hr. peel Hr. by apply effect_other.
  - apply effect_commit. intros s' a Hr. peel Hr. by_stream. apply improves_settings.
  - apply effect_commit. intros s' a Hr. peel Hr. by_stream. apply improves_settings.
  - destruct enable; apply effect_monitoring.
  - apply effect_commit. intros s' a Hr. peel Hr. by apply effect_other.
  - apply effect_commit. intros s' a Hr. peel Hr. by_stream. apply improves_settings.
  - apply effect_commit. intros s' a Hr. peel Hr. by_stream. apply improves_settings.
  - apply effect_commit. intros s' a Hr. peel Hr. by_stream. apply improves_settings.
  - apply effect_commit. intros s' a Hr. peel Hr. by_stream. apply improves_settings.
  - apply effect_commit. intros s' a Hr. peel Hr. by apply effect_other.
  - apply effect_commit. intros s' a Hr. peel Hr. by apply effect_other.
  - by apply effect_other.
  - apply effect_none.
  - apply effect_deliver.
Qed.

End Effects.

(** ** Invariants of reachable states *)

Definition well_formed (s : KinesisState) : Prop := forall name st, streams s !! name = Some st -> Layout st.

(** Every iterator is at a position of an existing shard, or at its end. *)
Definition leases_ok (s : KinesisState) : Prop :=
  forall token lease, iterators s !! token = Some lease ->
    exists st sh, streams s !! lease_stream_name lease = Some st
                  /\ find_shard st (lease_shard_id lease) = Some sh
                  /\ next_record_index lease <= length (records sh).

Section Invariants.
Context `{KinesisHost}.

Lemma well_formed_ids s : well_formed s -> ids_distinct s.
Proof. intros Hwf name st Hs. eapply numbered_NoDup, (lay_ids st), Hwf; done. Qed.

Lemma layout_trimmed now st : Layout st -> Layout (trimmed_stream now st).
Proof.
  intros HL. pose proof (layout_trim EmptyString (cutoff_of now st) st (∅, ∅) HL) as Ht.
  destruct (trim_shards_spec EmptyString (cutoff_of now st) (shards st) (∅, ∅)) as [Heq _].
  { eapply numbered_NoDup, (lay_ids st), HL. }
  by rewrite Heq in Ht.
Qed.

Lemma well_formed_trim now s : well_formed s -> well_formed (trim_expired_records_at now s).
Proof.
  intros Hwf name st Hs. destruct (trim_state_spec now s (well_formed_ids s Hwf)) as [Hst _].
  rewrite Hst, lookup_fmap in Hs. apply fmap_Some in Hs as (st0 & Hs & ->). by eapply layout_trimmed, Hwf.
Qed.

Lemma well_formed_put s name st : well_formed s -> Layout st -> well_formed (put_stream s name st).
Proof.
  intros Hwf HL n st' Hs. cbn in Hs. apply lookup_insert_Some in Hs as [[<- <-]|[_ Hs]]; [done|by eapply Hwf].
Qed.

Lemma well_formed_effect s s' : effect s s' -> well_formed s -> well_formed s'.
Proof.
  intros [|name st st' Hs Himp|name st Hs HL|s'' Hst Hit] Hwf; [done| | |].
  - apply well_formed_put; [done|]. by eapply Himp, Hwf.
  - by apply well_formed_put.
  - intros n st Hn. rewrite Hst in Hn. by eapply Hwf.
Qed.

Lemma insert_iterator_streams t s name sid idx : streams (insert_iterator t s name sid idx).1 = streams s.
Proof. done. Qed.

Lemma commit_streams {A} s (r : Result AwsServiceError (KinesisState * A)) :
  (forall s' a, r = Ok (s', a) -> streams s' = streams s) -> streams (commit s r).1 = streams s.
Proof. intros Hr. destruct r as [[s' a]|e]; [by eapply Hr|done]. Qed.

(** A request for an iterator reaches [insert_iterator] with a position of the
    shard. *)
Lemma start_index_bound sh type b n : shard_iterator_start_index sh type b = Ok n -> n <= length (records sh).
Proof.
  assert (Hseq : forall seq after, resolve_sequence_number_index sh seq after = Ok n -> n <= length (records sh)).
  { intros seq after. unfold resolve_sequence_number_index.
    destruct (list_find _ (records sh)) as [[k r]|] eqn:Hf.
    - intros [= <-]. apply list_find_Some in Hf as (Hk%lookup_lt_Some & _). destruct after; lia.
    - destruct (records sh) as [|r l]; [done|]. destruct (_ && _); [|done]. intros [= <-]. cbn. lia. }
  unfold shard_iterator_start_index.
  destruct (String.eqb type "TRIM_HORIZON"); [intros [= <-]; lia|].
  destruct (String.eqb type "LATEST"); [intros [= <-]; lia|].
  destruct (String.eqb type "AT_SEQUENCE_NUMBER"); [intros (seq & _ & Hr)%bind_Ok; by eapply Hseq|].
  destruct (String.eqb type "AFTER_SEQUENCE_NUMBER"); [intros (seq & _ & Hr)%bind_Ok; by eapply Hseq|].
  destruct (String.eqb type "AT_TIMESTAMP"); [|done]. intros (ts & _ & Hr)%bind_Ok.
  destruct (_ || _); [done|]. apply bind_Ok in Hr as (target & _ & Hr). injection Hr as <-.
  destruct (list_find _ (records sh)) as [[k r]|] eqn:Hf; [|done]. cbn.
  apply list_find_Some in Hf as (Hk%lookup_lt_Some & _). lia.
Qed.

Lemma get_iterator_shape t b s :
  (get_shard_iterator t b s).1 = s
  \/ exists name sid idx st sh, (get_shard_iterator t b s).1 = (insert_iterator t s name sid idx).1
       /\ streams s !! name = Some st /\ find_shard st sid = Some sh /\ idx <= length (records sh).
Proof.
  unfold get_shard_iterator. destruct (mbind _ _) as [[s' token]|e] eqn:Hr; [right|by left].
  peel Hr. match goal with Hi : shard_iterator_start_index ?sh _ _ = Ok ?n |- _ => apply start_index_bound in Hi end.
  cbn [commit fst]. repeat match goal with Hk : ok_or _ _ = Ok _ |- _ => apply ok_or_Ok in Hk end.
  eexists _, _, _, _, _. split_and!; [|done..]. by f_equal.
Qed.

Lemma slice_Some {A} (l : list A) start end_ batch : slice l start end_ = Some batch ->
  start <= end_ <= length l /\ batch = take (end_ - start) (drop start l).
Proof.
  unfold slice. destruct (Nat.leb_spec start end_), (Nat.leb_spec end_ (length l)); try done.
  intros [= <-]. split; [lia|done].
Qed.

Lemma get_records_shape t now cut b s :
  (get_records t now cut b s).1 = s
  \/ (exists token, (get_records t now cut b s).1 = without_iterator s token)
  \/ exists name sid idx st sh, (get_records t now cut b s).1 = (insert_iterator t s name sid idx).1
       /\ streams s !! name = Some st /\ find_shard st sid = Some sh /\ idx <= length (records sh).
Proof.
  unfold get_records. destruct (non_empty_str b "ShardIterator") as [token|]; [|by left].
  destruct (requested_limit b) as [limit|e]; [|by left].
  destruct (iterators s !! token) as [lease|]; [|by left].
  destruct (_ <? _)%Z; [right; left; by eexists|]. unfold read_lease.
  destruct (streams s !! lease_stream_name lease) as [st|] eqn:Hst; [|by left].
  destruct (find_shard st (lease_shard_id lease)) as [sh|] eqn:Hsh; [|by left].
  destruct (slice _ _ _) as [batch|] eqn:Hsl; [|by left]. apply slice_Some in Hsl as [Hle _].
  destruct (negb (is_open sh) && _); [by left|]. right; right.
  cbn [insert_iterator]. eexists _, _, _, st, sh. split_and!; [done..|lia].
Qed.

Lemma delete_streams rg b s name st : streams (delete_stream rg b s).1 !! name = Some st -> streams s !! name = Some st.
Proof.
  unfold delete_stream. destruct (mbind _ _) as [[s' a]|e] eqn:Hr; [|done].
  apply bind_Ok in Hr as (n & _ & Hr). destruct (channels_for_stream s n); [|done].
  apply bind_Ok in Hr as (st0 & _ & Hr). injection Hr as <- <-. cbn.
  intros Hs. by apply lookup_delete_Some in Hs as [_ Hs].
Qed.

Lemma well_formed_op op s : well_formed s -> well_formed (run_op op s).
Proof.
  intros Hwf. destruct (writes op) eqn:Hw.
  - apply (well_formed_effect (start_of op s)); [by apply op_effect|].
    destruct op; try done; by apply well_formed_trim.
  - destruct op; try done; cbn [run_op].
    + intros name st Hs%delete_streams. by eapply Hwf.
    + intros name st Hs. eapply Hwf.
      destruct (get_iterator_shape t b s) as [Heq|(n & sid & idx & st0 & sh & Heq & _)]; by rewrite Heq in Hs.
    + intros name st Hs. eapply Hwf.
      destruct (get_records_shape t now cutoff_now b s) as [Heq|[[tk Heq]|(n & sid & idx & st0 & sh & Heq & _)]];
        by rewrite Heq in Hs.
Qed.

Lemma well_formed_run ops s : well_formed s -> well_formed (run ops s).
Proof.
  revert s. induction ops as [|op ops IH]; intros s Hwf; [done|]. apply IH. by apply well_formed_op.
Qed.

Lemma well_formed_new account rg : well_formed (new_state account rg).
Proof. intros name st Hs. cbn [streams new_state] in Hs. by rewrite lookup_empty in Hs. Qed.

(** C13 (type): whatever operations a region has served, deliveries from other
    services included, each of its streams is well formed: shards are numbered by their position and the counters agree
    with them; every shard has a range of the hash space; every 128-bit hash
    key belongs to the range of exactly one open shard; and the records of a
    shard carry the last sequence numbers it handed out, in order, without a
    gap. *)
Theorem reachable_layout (account rg : string) (ops : list Op) (name : string) (st : KinesisStream)
  (Hst : streams (run ops (new_state account rg)) !! name = Some st) : Layout st.
Proof. eapply well_formed_run; [apply well_formed_new|done]. Qed.

End Invariants.

(** ** Routing *)

Definition holds_hash (hash : Z) (sh : KinesisShard) : bool := is_open sh && within hash (shard_hash_range sh).

Lemma open_holder_exists h l : covering h (open_entries l).*2 = 1 ->
  exists i sh, l !! i = Some sh /\ holds_hash h sh = true.
Proof.
  unfold covering. intros Hc. destruct (filter _ _) as [|r rs] eqn:Hf; [done|].
  assert (Hin : r ∈ filter (fun r => within h r = true) (open_entries l).*2) by (rewrite Hf; left).
  apply list_elem_of_filter in Hin as [Hw Hin]. apply list_elem_of_fmap in Hin as (x & -> & Hx).
  apply elem_of_open_entries in Hx as (sh & -> & Ho & Hin). apply list_elem_of_lookup in Hin as [i Hi].
  exists i, sh. split; [done|]. unfold holds_hash. by rewrite Ho.
Qed.

Lemma open_holder_unique h l i j shi shj : covering h (open_entries l).*2 = 1 ->
  l !! i = Some shi -> holds_hash h shi = true -> l !! j = Some shj -> holds_hash h shj = true -> i = j.
Proof.
  unfold holds_hash. rewrite !andb_true_iff. intros Hc Hi [Hoi Hwi] Hj [Hoj Hwj].
  destruct (decide (i = j)) as [|Hne]; [done|]. exfalso.
  pose proof (open_entries_alter l i shi Hi Hoi) as Hp.
  assert (Hj' : alter closed i l !! j = Some shj) by (by rewrite list_lookup_alter_ne).
  rewrite (open_entries_alter _ j shj Hj' Hoj) in Hp.
  rewrite (covering_perm h _ _ (fmap_Permutation snd _ _ Hp)) in Hc.
  rewrite !fmap_cons, !covering_cons in Hc. cbn [entry snd] in Hc. rewrite Hwi, Hwj in Hc. lia.
Qed.

Lemma select_from_spec h l : forall n fb i sh, l !! i = Some sh -> holds_hash h sh = true ->
  exists k sh', select_from l n h fb = Some (n + k) /\ l !! k = Some sh' /\ holds_hash h sh' = true.
Proof.
  induction l as [|x l IH]; intros n fb i sh Hi Hh; [done|]. cbn [select_from].
  assert (Htail : forall fb, holds_hash h x = false ->
            exists k sh', select_from l (S n) h fb = Some (n + k) /\ (x :: l) !! k = Some sh' /\ holds_hash h sh' = true).
  { intros fb' Hx. destruct i as [|i]; [cbn in Hi; simplify_eq; congruence|]. cbn in Hi.
    destruct (IH (S n) fb' i sh Hi Hh) as (k & sh' & Hk & Hl & Hh'). exists (S k), sh'.
    split_and!; [rewrite Hk; f_equal; lia|done|done]. }
  unfold holds_hash in Htail at 1. destruct (is_open x) eqn:Ho; cbn [negb andb] in *; [|by apply Htail].
  destruct (shard_hash_range x) as [a b] eqn:Hr. unfold within in Htail at 1. cbn [fst snd] in Htail.
  destruct ((a <=? h)%Z && (h <=? b)%Z) eqn:Hw; [|by apply Htail].
  exists 0, x. split_and!; [f_equal; lia|done|]. unfold holds_hash, within. by rewrite Ho, Hr.
Qed.

Lemma select_index_spec st h : Layout st -> (0 <= h <= MAX_HASH_KEY)%Z ->
  exists sh, shards st !! select_shard_index_for_hash st h = Some sh /\ holds_hash h sh = true.
Proof.
  intros HL Hh. destruct (open_holder_exists h (shards st) (lay_tile st HL h Hh)) as (i & sh & Hi & Hw).
  destruct (select_from_spec h (shards st) 0 None i sh Hi Hw) as (k & sh' & Hk & Hl & Hw').
  unfold select_shard_index_for_hash. rewrite Hk. cbn. eauto.
Qed.

Lemma elem_of_open_indexes l i : i ∈ open_indexes l -> exists sh, l !! i = Some sh /\ is_open sh = true.
Proof.
  unfold open_indexes. intros (ns & -> & [Ho Hin]%list_elem_of_filter)%list_elem_of_fmap.
  apply elem_of_lookup_imap in Hin as (j & sh & -> & Hj). cbn in *. eauto.
Qed.

Lemma open_indexes_nonempty st : Layout st -> open_indexes (shards st) <> [].
Proof.
  intros HL Hnil. destruct (open_holder_exists 0 (shards st) (lay_tile st HL 0 ltac:(done))) as (i & sh & Hi & Hw).
  apply andb_prop in Hw as [Ho _].
  assert (Hin : i ∈ open_indexes (shards st)).
  { unfold open_indexes. apply list_elem_of_fmap. exists (i, sh). split; [done|]. apply list_elem_of_filter.
    split; [done|]. apply elem_of_lookup_imap. eauto. }
  rewrite Hnil in Hin. by apply not_elem_of_nil in Hin.
Qed.

Section Routes.
Context `{KinesisHost} (md5_range : forall key, (0 <= md5_u128 key <= MAX_HASH_KEY)%Z).

Lemma routing_hash_range key explicit h : routing_hash key explicit = Ok h -> (0 <= h <= MAX_HASH_KEY)%Z.
Proof using md5_range.
  unfold routing_hash. destruct explicit as [raw|]; [|intros [= <-]; apply md5_range].
  destruct (is_empty_str raw); [intros [= <-]; apply md5_range|].
  intros Hp%ok_or_Ok. by eapply parse_unsigned_range.
Qed.

(** What the selected shard is. *)
Lemma select_shard_spec st key explicit idx st' : Layout st -> select_shard st key explicit = Ok (idx, st') ->
  exists sh h cursor, routing_hash key explicit = Ok h /\ shards st !! idx = Some sh /\ is_open sh = true
    /\ st' = with_cursor st cursor
    /\ (record_distribution_strategy st <> RECORD_DISTRIBUTION_AUTO -> holds_hash h sh = true).
Proof using md5_range.
  intros HL. unfold select_shard. case_bool_decide; [done|].
  destruct (String.eqb_spec (record_distribution_strategy st) RECORD_DISTRIBUTION_AUTO) as [Ha|Hna].
  - intros (h & Hh & Hs)%bind_Ok. injection Hs as Hidx <-.
    pose proof (open_indexes_nonempty st HL) as Hne.
    destruct (open_indexes (shards st)) as [|i0 is_] eqn:Ho; [done|].
    destruct (lookup_lt_is_Some_2 (i0 :: is_) (Z.to_nat (auto_distribution_cursor st mod Z.of_nat (length (i0 :: is_)))))
      as [k Hk].
    { pose proof (Z.mod_pos_bound (auto_distribution_cursor st) (Z.of_nat (length (i0 :: is_))) ltac:(cbn; lia)). lia. }
    rewrite Hk in Hidx. cbn in Hidx. subst k.
    destruct (elem_of_open_indexes (shards st) idx) as (sh & Hl & Hop).
    { rewrite Ho. by eapply list_elem_of_lookup_2. }
    eexists sh, h, _. by split_and!.
  - intros (h & Hh & Hs)%bind_Ok. injection Hs as <- <-.
    destruct (select_index_spec st h HL (routing_hash_range _ _ _ Hh)) as (sh & Hl & Hw).
    pose proof Hw as Hw'. apply andb_prop in Hw' as [Hop _].
    exists sh, h, (auto_distribution_cursor st). split_and!; try done. by destruct st.
Qed.

(** Theorem (functional): a successful PutRecord appends one record, with the given
    key and data and the next sequence number of its shard, to one open shard,
    and changes nothing else of the (trimmed) state but the stream's
    distribution cursor.  Unless the stream distributes records itself, that
    shard is the only open one whose range holds the record's hash key: the
    explicit one, or the MD5 of the partition key. *)
Theorem put_record_routes (t1 t2 : Z) (b : Value) (s s' : KinesisState) (out : PutRecordOutput)
  (Hwf : well_formed s) (Hput : put_record t1 t2 b s = (s', Ok out)) :
  let s0 := trim_expired_records_at t1 s in
  exists name st key bytes h i sh cursor,
    resolve_stream_name s0 b = Ok name /\ streams s0 !! name = Some st
    /\ require_partition_key b st = Ok key /\ decode_record_data (index b "Data") = Ok bytes
    /\ routing_hash key (as_str (index b "ExplicitHashKey")) = Ok h
    /\ shards st !! i = Some sh /\ is_open sh = true
    /\ pr_shard out = shard_id sh /\ pr_sequence out = sequence_number_for (shard_id sh) (next_sequence_number sh)
    /\ (record_distribution_strategy st <> RECORD_DISTRIBUTION_AUTO ->
        forall j shj, shards st !! j = Some shj -> (holds_hash h shj = true <-> j = i))
    /\ s' = put_stream s0 name
              (with_shards (with_cursor st cursor)
                 (<[i := (append_record t2 sh key bytes).1]> (shards st))).
Proof using md5_range.
  intros s0. pose proof (well_formed_trim t1 s Hwf) as Hwf0. fold s0 in Hwf0.
  unfold put_record in Hput. fold s0 in Hput. unfold commit in Hput.
  destruct (mbind _ _) as [[s1 a]|e] eqn:Hr; [|done]. injection Hput as <- <-. unfold named_stream in Hr.
  apply bind_Ok in Hr as ([name st] & Hn & Hr).
  apply bind_Ok in Hn as (name' & Hname & Hn). apply bind_Ok in Hn as (st' & Hst & Hn).
  injection Hn as -> ->. apply ok_or_Ok in Hst. peel Hr.
  match goal with Hsel : select_shard _ _ _ = _ |- _ =>
    destruct (select_shard_spec _ _ _ _ _ (Hwf0 _ _ Hst) Hsel) as (sh & h & cursor & Hh & Hl & Ho & -> & Hna) end.
  match goal with Ha : ok_or _ (append_at _ _ ?i0 ?k0 ?d0) = Ok _ |- _ => apply ok_or_Ok in Ha; rename Ha into Happ;
    rename i0 into i, k0 into key, d0 into bytes end.
  unfold append_at in Happ. cbn [with_cursor shards] in Happ. rewrite Hl in Happ.
  cbn [mbind option_bind append_record] in Happ. injection Happ as <- <- <-.
  exists name, st, key, bytes, h, i, sh, cursor. split_and!; try done.
  intros Hstrat j shj Hj. split; [|intros ->; rewrite Hl in Hj; simplify_eq; auto].
  intros Hhj. eapply open_holder_unique; [|done..|by apply Hna].
  apply (lay_tile st (Hwf0 _ _ Hst)). by eapply routing_hash_range.
Qed.

End Routes.

(** C35 (functional): UpdateShardCount leaves exactly the target's equal ranges
    open.  Every shard that was there is still there with its records, now
    closed; the shards the operation added hold no records; and the stream
    stays well formed. *)
Theorem resharding_exact (st : KinesisStream) (target : Z) (HL : Layout st) (Htarget : (1 <= target <= 10000)%Z) :
  let st' := reshard_uniform st target in
  (open_entries (shards st')).*2 ≡ₚ uniform_range target <$> seqZ 0 target
  /\ open_shard_count st' = target /\ Layout st'
  /\ exists old new, shards st' = old ++ new /\ old = closed <$> shards st /\ Forall (fun sh => records sh = []) new.
Proof.
  assert (Ht : (0 < target <= MAX_HASH_KEY)%Z) by (unfold MAX_HASH_KEY; lia).
  intros st'. destruct (reshard_uniform_shards st target Ht (lay_ids st HL)) as (He & _ & Hr & _ & Ho).
  destruct (layout_reshard st target Ht HL) as [HL' _].
  split_and!; [done..|]. by apply evolves_closed.
Qed.

(** ** Witnesses *)

(** A host whose hash is constant and whose base64 is the bytes themselves. *)
Definition sample_host : KinesisHost := {|
  md5_u128 := fun _ => 5%Z;
  base64_decode := fun s => Some (as_bytes s);
  from_timestamp := fun sec nanos => Some (sec * 1000000000 + nanos)%Z
|}.

Definition sample_clock : IteratorClock := {| at_retain := fun _ => 0%Z; at_token := 0; at_expiry := 0 |}.

Definition named (name : string) (rest : list (string * Value)) : Value :=
  VObject (("StreamName"%string, VString name) :: rest).

Definition create_request (name : string) : Value := named name [("ShardCount"%string, VNumber (PosInt 1))].

Definition put_request (name : string) : Value :=
  named name [("PartitionKey"%string, VString "k"); ("Data"%string, VString "d")].

Definition first_shard : string := "shardId-000000000000".

Definition iterator_request (name type : string) : Value :=
  named name [("ShardId"%string, VString first_shard); ("ShardIteratorType"%string, VString type)].

Definition sample_ops : list Op :=
  [OCreateStream 0 "us-east-1" (create_request "orders"); OPutRecord 0 0 (put_request "orders")].

Definition sample_state : KinesisState := @run sample_host sample_ops (new_state "123456789012" "us-east-1").

Definition empty_shard : KinesisShard := mkShard "" "" "" None None false 0 [].
Definition empty_stream : KinesisStream := mkStream "" "" "" 0 0 "" "" None 0 0 ∅ [] 0 [] None None "" 0.

Definition sample_stream : KinesisStream := default empty_stream (streams sample_state !! "orders"%string).
Definition sample_shard : KinesisShard := default empty_shard (shards sample_stream !! 0).

Lemma sample_layout : Layout sample_stream.
Proof.
  apply (@well_formed_run sample_host sample_ops (new_state "123456789012" "us-east-1")
           (well_formed_new _ _) "orders"%string).
  by vm_compute.
Qed.

Lemma sequence_number_resolves_witness :
  resolve_sequence_number_index sample_shard (sequence_number_for first_shard 1) true = Ok 1.
Proof.
  apply (sequence_number_resolves sample_stream 0 sample_shard 1 true);
    [apply sample_layout|by vm_compute|by vm_compute|by vm_compute|by vm_compute].
Defined.

Lemma reachable_layout_witness : Layout sample_stream.
Proof. apply (@reachable_layout sample_host "123456789012" "us-east-1" sample_ops "orders"). by vm_compute. Defined.

Lemma resharding_exact_witness :
  open_shard_count (reshard_uniform sample_stream 3) = 3%Z /\ Layout (reshard_uniform sample_stream 3).
Proof.
  destruct (resharding_exact sample_stream 3 sample_layout) as (_ & Ho & HL & _); [lia|]. by split.
Defined.

Lemma put_record_routes_witness :
  exists out h, (@put_record sample_host 0 0 (put_request "orders") sample_state).2 = Ok out
    /\ pr_shard out = first_shard /\ @routing_hash sample_host "k" None = Ok h.
Proof.
  destruct (@put_record_routes sample_host ltac:(by intros; vm_compute) 0 0 (put_request "orders") sample_state
              (@put_record sample_host 0 0 (put_request "orders") sample_state).1
              (mkPut "NONE" (sequence_number_for first_shard 2) first_shard))
    as (name & st & key & bytes & h & i & sh & cursor & _ & _ & Hk & _ & Hh & _).
  - apply well_formed_run, well_formed_new.
  - by vm_compute.
  - exists (mkPut "NONE" (sequence_number_for first_shard 2) first_shard), 5%Z.
    split_and!; by vm_compute.
Defined.

End KinesisTheory.
