(* ===== verification/KinesisReads.v ===== *)
(** * Reading a stream

    Shard iterators over reachable states: they stay within their shards, they
    follow the records when old ones are trimmed, and a consumer that follows
    them reads every record once.  Deleting and re-creating a stream, and
    trimming another stream, are the two places where positions go wrong. *)

From Stdlib Require Import ZArith Lia Bool String Ascii SpecFloat.
From stdpp Require Import base option list strings gmap sorting.
From S2P Require Import Prelude Json Arn BTree Sqs Kinesis KinesisService KinesisLayout KinesisTheory.
Import Kinesis KinesisService KinesisLayout KinesisTheory.

Module KinesisReads.

Section Leases.
Context `{KinesisHost}.

(** ** Iterators stay within their shards *)

Lemma leases_effect s s' : effect s s' -> well_formed s -> leases_ok s -> leases_ok s'.
Proof.
  intros [|name st st' Hs Himp|name st Hs HL|s'' Hst Hit] Hwf Hok; [done| | |]; intros token lease Hl.
  - destruct (Hok token lease Hl) as (st0 & sh & Hs0 & Hf & Hle).
    destruct (decide (lease_stream_name lease = name)) as [<-|Hne].
    + rewrite Hs in Hs0. injection Hs0 as <-.
      destruct (Himp (Hwf _ _ Hs)) as [_ Hg]. destruct (Hg _ _ Hf) as (sh' & Hf' & Hle').
      exists st', sh'. cbn. rewrite lookup_insert_eq. split_and!; [done..|lia].
    + exists st0, sh. cbn. by rewrite lookup_insert_ne.
  - destruct (Hok token lease Hl) as (st0 & sh & Hs0 & Hf & Hle). exists st0, sh. cbn.
    rewrite lookup_insert_ne; [done|]. intros Heq. rewrite Heq in Hs. congruence.
  - rewrite Hit in Hl. rewrite Hst. exact (Hok token lease Hl).
Qed.

Lemma find_shard_trimmed now st id :
  find_shard (trimmed_stream now st) id = trimmed (cutoff_of now st) <$> find_shard st id.
Proof.
  unfold find_shard, trimmed_stream, cutoff_of. cbn [with_shards shards].
  induction (shards st) as [|sh l IH]; [done|]. rewrite fmap_cons. cbn [list_find].
  change (shard_id (trimmed ?c sh)) with (shard_id sh).
  destruct (decide (shard_id sh = id)); [done|].
  destruct (list_find _ l) as [[? ?]|], (list_find _ (_ <$> l)) as [[? ?]|]; done.
Qed.

(** Where the lease of a token is after a trim. *)
Lemma trimmed_lease now s token lease st sh :
  well_formed s -> iterators s !! token = Some lease ->
  streams s !! lease_stream_name lease = Some st -> find_shard st (lease_shard_id lease) = Some sh ->
  iterators (trim_expired_records_at now s) !! token
  = Some (mkLease (iterator_token lease) (lease_stream_name lease) (lease_shard_id lease)
            (next_record_index lease - expired_prefix (cutoff_of now st) (records sh)) (expires_at lease)).
Proof.
  intros Hwf Hl Hs Hf. destruct (trim_state_spec now s (well_formed_ids s Hwf)) as [_ Hit].
  rewrite Hit, lookup_fmap, Hl. cbn [fmap option_fmap option_map]. f_equal.
  unfold follow_streams. rewrite Hs. unfold follow. unfold find_shard in Hf. rewrite Hf.
  unfold shift_lease. rewrite String.eqb_refl.
  destruct (list_find _ (shards st)) as [[k x]|] eqn:Hk; [|done]. cbn in Hf. injection Hf as ->.
  apply list_find_Some in Hk as (_ & Hid & _). by rewrite <- Hid, String.eqb_refl.
Qed.

Lemma leases_trim now s : well_formed s -> leases_ok s -> leases_ok (trim_expired_records_at now s).
Proof.
  intros Hwf Hok token lease' Hl'.
  destruct (trim_state_spec now s (well_formed_ids s Hwf)) as [Hst Hit].
  assert (Hl : exists lease, iterators s !! token = Some lease).
  { rewrite Hit, lookup_fmap in Hl'. apply fmap_Some in Hl' as (l & Hl & _). eauto. }
  destruct Hl as [lease Hl]. destruct (Hok token lease Hl) as (st & sh & Hs & Hf & Hle).
  rewrite (trimmed_lease now s token lease st sh Hwf Hl Hs Hf) in Hl'. injection Hl' as <-.
  exists (trimmed_stream now st), (trimmed (cutoff_of now st) sh). cbn [lease_stream_name lease_shard_id next_record_index].
  rewrite Hst, lookup_fmap, Hs, find_shard_trimmed, Hf. split_and!; [done..|].
  cbn [trimmed with_records records]. rewrite length_drop. lia.
Qed.

Lemma leases_insert t s name sid idx st sh : leases_ok s ->
  streams s !! name = Some st -> find_shard st sid = Some sh -> idx <= length (records sh) ->
  leases_ok (insert_iterator t s name sid idx).1.
Proof.
  intros Hok Hs Hf Hle token lease Hl. cbn [insert_iterator fst iterators streams] in *.
  apply lookup_insert_Some in Hl as [[_ <-]|[_ Hl]]; [by exists st, sh|].
  apply map_lookup_filter_Some in Hl as [Hl _]. exact (Hok _ _ Hl).
Qed.

Lemma leases_without s token : leases_ok s -> leases_ok (without_iterator s token).
Proof.
  intros Hok tk lease Hl. cbn in Hl. apply lookup_delete_Some in Hl as [_ Hl]. exact (Hok _ _ Hl).
Qed.

Definition deletes (op : Op) : bool := match op with ODeleteStream _ _ => true | _ => false end.

Lemma leases_op op s : deletes op = false -> well_formed s -> leases_ok s -> leases_ok (run_op op s).
Proof.
  intros Hd Hwf Hok. destruct (writes op) eqn:Hw.
  - apply (leases_effect (start_of op s)); [by apply op_effect| |].
    + destruct op; try done; by apply well_formed_trim.
    + destruct op; try done; by apply leases_trim.
  - destruct op; try done; cbn [run_op].
    + destruct (get_iterator_shape t b s) as [->|(n & sid & idx & st & sh & -> & Hs & Hf & Hle)]; [done|].
      by eapply leases_insert.
    + destruct (get_records_shape t now cutoff_now b s) as [->|[[tk ->]|(n & sid & idx & st & sh & -> & Hs & Hf & Hle)]];
        [done|by apply leases_without|by eapply leases_insert].
Qed.

Lemma leases_run ops : forall s, Forall (fun op => deletes op = false) ops -> well_formed s -> leases_ok s ->
  leases_ok (run ops s).
Proof.
  induction ops as [|op ops IH]; intros s Hd Hwf Hok; [done|]. apply Forall_cons in Hd as [Hd Hds].
  apply IH; [done|by apply well_formed_op|by apply leases_op].
Qed.

Lemma expired_prefix_length cutoff l : expired_prefix cutoff l <= length l.
Proof. induction l as [|r l IH]; [done|]. cbn. destruct (_ <? _)%Z; lia. Qed.

Lemma batch_size_length limit first acc l : batch_size limit first acc l <= length l.
Proof.
  revert limit first acc. induction l as [|r l IH]; intros [|limit] first acc; cbn; try lia.
  destruct (_ && _); [lia|]. specialize (IH limit false (acc + bytes_of r)%Z). lia.
Qed.

(** A lease within its shard is read without leaving the records. *)
Lemma read_lease_in_range t cut limit lease s st sh :
  streams s !! lease_stream_name lease = Some st -> find_shard st (lease_shard_id lease) = Some sh ->
  next_record_index lease <= length (records sh) -> (read_lease t cut limit lease s).2 <> Panicked.
Proof.
  intros Hs Hf Hle. unfold read_lease. rewrite Hs, Hf. set (start := skip_expired _ _ _).
  assert (Hstart : start <= length (records sh)).
  { unfold start, skip_expired. pose proof (expired_prefix_length (cut - hours (retention_period_hours st))
      (drop (next_record_index lease) (records sh))) as He. rewrite length_drop in He. lia. }
  pose proof (batch_size_length limit true 0 (drop start (records sh))) as Hb. rewrite length_drop in Hb.
  unfold slice. rewrite (proj2 (Nat.leb_le _ _)), (proj2 (Nat.leb_le _ _)) by lia. cbn [andb].
  destruct (negb _ && _); done.
Qed.

(** SubscribeToShard starts within the shard it just looked up. *)
Lemma subscribe_in_range b s : subscribe_to_shard b s <> Panicked.
Proof.
  unfold subscribe_to_shard. cbv zeta. destruct (mbind _ _) as [[e|]|e] eqn:Hr; try done. exfalso.
  peel Hr. match goal with Hi : shard_iterator_start_index ?sh _ _ = Ok ?n, Hb : subscribe_batch _ _ = None |- _ =>
    apply start_index_bound in Hi as Hle; unfold subscribe_batch, slice in Hb; rename Hb into Hnone end.
  rewrite (proj2 (Nat.leb_le _ _)), (proj2 (Nat.leb_le _ _)) in Hnone by lia. done.
Qed.

(** C36 (safety): after any history without DeleteStream, reading never leaves
    the records of a shard: GetRecords with any token, limit and clock, and
    SubscribeToShard at any position, answer or refuse, and do not panic on
    the slice they return. *)
Theorem reads_never_panic (account rg : string) (ops : list Op) (t : IteratorClock) (now cutoff_now : Z) (b : Value)
  (Hops : Forall (fun op => deletes op = false) ops) :
  let s := run ops (new_state account rg) in
  (get_records t now cutoff_now b s).2 <> Panicked /\ subscribe_to_shard b s <> Panicked.
Proof.
  intros s. split; [|apply subscribe_in_range].
  assert (Hok : leases_ok s).
  { apply leases_run; [done|apply well_formed_new|]. intros token lease Hl. cbn [iterators new_state] in Hl.
    by rewrite lookup_empty in Hl. }
  unfold get_records. destruct (non_empty_str b "ShardIterator") as [token|]; [|done].
  destruct (requested_limit b) as [limit|e]; [|done].
  destruct (iterators s !! token) as [lease|] eqn:Hl; [|done].
  destruct (_ <? _)%Z; [done|]. destruct (Hok token lease Hl) as (st & sh & Hs & Hf & Hle).
  by eapply read_lease_in_range.
Qed.

(** ** Trimming and iterators *)

Lemma expired_prefix_expired cutoff l i r : l !! i = Some r -> (cutoff <= approximate_arrival_timestamp r)%Z ->
  expired_prefix cutoff l <= i.
Proof.
  revert i. induction l as [|x l IH]; intros [|i] Hi Hr; try done; cbn in *.
  - simplify_eq. by rewrite (proj2 (Z.ltb_ge _ _) Hr).
  - destruct (_ <? _)%Z; [|lia]. specialize (IH i Hi Hr). lia.
Qed.

(** Theorem (invariant): trimming expired records moves no reader.  When the record
    an iterator points at is still within retention, after the trim the same
    token points at the same record. *)
Theorem trim_keeps_positions (now : Z) (s : KinesisState) (token : string) (lease : ShardIteratorLease)
  (st : KinesisStream) (sh : KinesisShard) (r : KinesisRecord)
  (Hwf : well_formed s) (Hlease : iterators s !! token = Some lease)
  (Hst : streams s !! lease_stream_name lease = Some st) (Hsh : find_shard st (lease_shard_id lease) = Some sh)
  (Hr : records sh !! next_record_index lease = Some r)
  (Hlive : (now - hours (retention_period_hours st) <= approximate_arrival_timestamp r)%Z) :
  let s' := trim_expired_records_at now s in
  exists lease' st' sh', iterators s' !! token = Some lease'
    /\ streams s' !! lease_stream_name lease' = Some st' /\ find_shard st' (lease_shard_id lease') = Some sh'
    /\ records sh' !! next_record_index lease' = Some r.
Proof.
  intros s'. destruct (trim_state_spec now s (well_formed_ids s Hwf)) as [Hstreams _].
  eexists _, (trimmed_stream now st), (trimmed (cutoff_of now st) sh).
  split; [by eapply trimmed_lease|]. cbn [lease_stream_name lease_shard_id next_record_index].
  unfold s'. rewrite Hstreams, lookup_fmap, Hst, find_shard_trimmed, Hsh. split_and!; [done..|].
  cbn [trimmed with_records records]. rewrite lookup_drop, <- Hr. f_equal.
  pose proof (expired_prefix_expired _ _ _ _ Hr Hlive). unfold cutoff_of. lia.
Qed.

End Leases.

(** ** A consumer *)

(** The request of a consumer that follows its iterator. *)
Definition read_request (token : string) (limit : Z) : Value :=
  VObject [("ShardIterator"%string, VString token); ("Limit"%string, VNumber (PosInt limit))].

(** The clock readings of one read. *)
Record ReadClock := mkReadClock { rc_iterator : IteratorClock; rc_now : Z; rc_cutoff : Z }.

Section Consumer.
Context `{KinesisHost}.

(** At most [fuel] reads, each from the iterator the previous one returned;
    the flag says whether the last one returned none. *)
Fixpoint consume (fuel n : nat) (clock : nat -> ReadClock) (limit : Z) (token : string) (s : KinesisState)
  : list KinesisRecord * bool * KinesisState :=
  match fuel with
  | 0 => ([], false, s)
  | S fuel =>
      match get_records (rc_iterator (clock n)) (rc_now (clock n)) (rc_cutoff (clock n))
              (read_request token limit) s with
      | (s, Answered out) =>
          match gr_next out with
          | None => (gr_records out, true, s)
          | Some token =>
              let '(l, finished, s) := consume fuel (S n) clock limit token s in
              (gr_records out ++ l, finished, s)
          end
      | (s, _) => ([], false, s)
      end
  end.

Lemma read_request_members token limit : token <> EmptyString -> (1 <= limit <= 10000)%Z ->
  non_empty_str (read_request token limit) "ShardIterator" = Some token
  /\ requested_limit (read_request token limit) = Ok (Z.to_nat limit).
Proof.
  intros Ht Hl. split.
  - unfold non_empty_str. cbn. by destruct token.
  - unfold requested_limit. change (index (read_request token limit) "Limit") with (VNumber (PosInt limit)).
    cbn [as_i64]. rewrite (proj2 (Z.leb_le limit i64_max)) by (unfold i64_max; lia). cbn [ok_or mbind result_bind].
    by rewrite (proj2 (Z.ltb_ge limit 1)), (proj2 (Z.ltb_ge 10000 limit)) by lia.
Qed.

Lemma expired_prefix_none cutoff l :
  (forall r, r ∈ l -> (cutoff <= approximate_arrival_timestamp r)%Z) -> expired_prefix cutoff l = 0.
Proof. destruct l as [|r l]; intros Hl; [done|]. cbn. by rewrite (proj2 (Z.ltb_ge _ _)) by (apply Hl; left). Qed.

Lemma batch_size_progress limit l : 0 < limit -> 0 < length l -> 0 < batch_size limit true 0 l.
Proof. intros Hl Hn. destruct limit as [|limit], l as [|r l]; cbn in *; lia. Qed.

(** One read of a live lease. *)
Lemma get_records_live t now cut limit token s lease st sh :
  token <> EmptyString -> (1 <= limit <= 10000)%Z -> iterators s !! token = Some lease ->
  streams s !! lease_stream_name lease = Some st -> find_shard st (lease_shard_id lease) = Some sh ->
  next_record_index lease <= length (records sh) -> (now <= expires_at lease)%Z ->
  (forall r, r ∈ records sh -> (cut - hours (retention_period_hours st) <= approximate_arrival_timestamp r)%Z) ->
  exists n behind children,
    next_record_index lease + n <= length (records sh)
    /\ (next_record_index lease < length (records sh) -> 0 < n)
    /\ get_records t now cut (read_request token limit) s
       = let end_ := next_record_index lease + n in
         let out next := Answered (mkGet (take n (drop (next_record_index lease) (records sh))) next behind children) in
         if negb (is_open sh) && (length (records sh) <=? end_)%nat then (s, out None)
         else let '(s', token') := insert_iterator t s (lease_stream_name lease) (lease_shard_id lease) end_ in
              (s', out (Some token')).
Proof.
  intros Ht Hl Hlease Hst Hsh Hle Hnow Hlive. destruct (read_request_members token limit Ht Hl) as [H1 H2].
  unfold get_records. rewrite H1, H2, Hlease, (proj2 (Z.ltb_ge _ _)) by lia. unfold read_lease. rewrite Hst, Hsh.
  assert (Hskip : skip_expired (cut - hours (retention_period_hours st)) (records sh) (next_record_index lease)
                  = next_record_index lease).
  { unfold skip_expired. rewrite expired_prefix_none; [lia|]. intros r Hr. apply Hlive.
    apply list_elem_of_lookup in Hr as [j Hj]. rewrite lookup_drop in Hj. by eapply list_elem_of_lookup_2. }
  rewrite Hskip. set (i := next_record_index lease) in *. set (n := batch_size _ _ _ _).
  pose proof (batch_size_length (Z.to_nat limit) true 0 (drop i (records sh))) as Hb. fold n in Hb.
  rewrite length_drop in Hb.
  exists n, (millis_behind (records sh) (i + n)),
    (if negb (is_open sh) && (length (records sh) <=? i + n)%nat then children_of st (lease_shard_id lease) else []).
  split; [lia|]. split.
  - intros Hlt. apply batch_size_progress; [lia|]. rewrite length_drop. lia.
  - unfold slice. rewrite (proj2 (Nat.leb_le i (i + n))), (proj2 (Nat.leb_le (i + n) (length (records sh)))) by lia.
    cbn [andb]. replace (i + n - i) with n by lia. destruct (negb (is_open sh) && _); done.
Qed.

Lemma insert_iterator_lookup t s name sid idx : name <> EmptyString ->
  let '(s', token) := insert_iterator t s name sid idx in
  token <> EmptyString /\ streams s' = streams s
  /\ iterators s' !! token = Some (mkLease token name sid idx (at_expiry t + minutes 5)).
Proof.
  intros Hn. cbn [insert_iterator]. split_and!; [by destruct name|done|]. cbn [iterators]. by rewrite lookup_insert_eq.
Qed.

(** Reading on from a position of the shard, with reads enough. *)
Lemma consume_all clock limit st sh : (1 <= limit <= 10000)%Z ->
  (forall k, (rc_now (clock (S k)) <= at_expiry (rc_iterator (clock k)) + minutes 5)%Z) ->
  (forall k r, r ∈ records sh ->
     (rc_cutoff (clock k) - hours (retention_period_hours st) <= approximate_arrival_timestamp r)%Z) ->
  forall fuel n token s lease,
  token <> EmptyString -> lease_stream_name lease <> EmptyString -> iterators s !! token = Some lease ->
  streams s !! lease_stream_name lease = Some st -> find_shard st (lease_shard_id lease) = Some sh ->
  next_record_index lease <= length (records sh) -> (rc_now (clock n) <= expires_at lease)%Z ->
  length (records sh) - next_record_index lease < fuel
  \/ (length (records sh) - next_record_index lease <= fuel /\ is_open sh = true) ->
  let '(l, finished, s') := consume fuel n clock limit token s in
  l = drop (next_record_index lease) (records sh) /\ finished = negb (is_open sh) /\ streams s' = streams s.
Proof.
  intros Hlim Hclock Hlive. induction fuel as [|fuel IH];
    intros n token s lease Ht Hname Hlease Hst Hsh Hle Hnow Hfuel; cbn [consume].
  { destruct Hfuel as [Hf|[Hf Ho]]; [lia|]. rewrite drop_ge by lia. by rewrite Ho. }
  destruct (get_records_live (rc_iterator (clock n)) (rc_now (clock n)) (rc_cutoff (clock n)) limit token s lease st sh)
    as (k & behind & children & Hk & Hprog & ->); [done..|by apply Hlive|]. cbv zeta.
  destruct (negb (is_open sh) && _) eqn:Hdr; cbn [gr_next gr_records].
  { apply andb_prop in Hdr as [Ho Hend%Nat.leb_le]. rewrite Ho. split_and!; [|done..].
    rewrite take_ge; [done|]. rewrite length_drop. lia. }
  pose proof (insert_iterator_lookup (rc_iterator (clock n)) s (lease_stream_name lease) (lease_shard_id lease)
    (next_record_index lease + k) Hname) as Hins.
  destruct (insert_iterator _ _ _ _ _) as [s' token']. destruct Hins as (Ht' & Hs' & Hl').
  cbn [gr_next gr_records].
  specialize (IH (S n) token' s'
    (mkLease token' (lease_stream_name lease) (lease_shard_id lease) (next_record_index lease + k)
       (at_expiry (rc_iterator (clock n)) + minutes 5)) Ht' Hname Hl'). cbn [lease_stream_name lease_shard_id next_record_index expires_at] in IH.
  rewrite Hs' in IH. specialize (IH Hst Hsh Hk (Hclock n)).
  destruct (consume fuel (S n) clock limit token' s') as [[l finished] s''].
  destruct IH as (-> & -> & Hs'').
  - destruct (is_open sh) eqn:Ho; [|cbn in Hdr; apply Nat.leb_gt in Hdr; left; lia].
    right. split; [|done]. destruct (decide (next_record_index lease < length (records sh))) as [Hlt|Hge]; [|lia].
    specialize (Hprog Hlt). lia.
  - split_and!; [|done|done]. rewrite <- drop_drop. apply take_drop.
Qed.

(** C19 (liveness): a consumer that follows its iterators reads everything.
    From a live iterator of a shard that nobody writes to meanwhile, with each
    read made before the previous iterator expires and all records within
    retention, one read more than the remaining records is enough: the
    consumer has then received every record from its position on, each once
    and in order, whatever the limit; and it has been told to stop exactly when
    the shard is closed. *)
Theorem consumer_reads_everything (clock : nat -> ReadClock) (limit : Z) (token : string) (s : KinesisState)
  (lease : ShardIteratorLease) (st : KinesisStream) (sh : KinesisShard)
  (Hlimit : (1 <= limit <= 10000)%Z) (Htoken : token <> EmptyString) (Hname : lease_stream_name lease <> EmptyString)
  (Hlease : iterators s !! token = Some lease)
  (Hst : streams s !! lease_stream_name lease = Some st) (Hsh : find_shard st (lease_shard_id lease) = Some sh)
  (Hpos : next_record_index lease <= length (records sh))
  (Hnow : (rc_now (clock 0%nat) <= expires_at lease)%Z)
  (Hclock : forall k, (rc_now (clock (S k)) <= at_expiry (rc_iterator (clock k)) + minutes 5)%Z)
  (Hlive : forall k r, r ∈ records sh ->
     (rc_cutoff (clock k) - hours (retention_period_hours st) <= approximate_arrival_timestamp r)%Z) :
  let reads := S (length (records sh) - next_record_index lease) in
  exists s', consume reads 0 clock limit token s
             = (drop (next_record_index lease) (records sh), negb (is_open sh), s')
             /\ streams s' = streams s.
Proof.
  intros reads.
  pose proof (consume_all clock limit st sh Hlimit Hclock Hlive reads 0 token s lease) as Hc.
  destruct (consume _ _ _ _ _ _) as [[l finished] s']. exists s'.
  destruct Hc as (-> & -> & Hs); [done..|left; unfold reads; lia|done].
Qed.

End Consumer.

(** ** Positions that survive their records *)

Lemma stale_lease_panics t cut limit lease s st sh :
  streams s !! lease_stream_name lease = Some st -> find_shard st (lease_shard_id lease) = Some sh ->
  length (records sh) < next_record_index lease -> (read_lease t cut limit lease s).2 = Panicked.
Proof.
  intros Hs Hf Hlt. unfold read_lease. rewrite Hs, Hf. unfold skip_expired.
  rewrite drop_ge by lia. cbn [expired_prefix]. rewrite Nat.add_0_r, drop_ge by lia.
  replace (batch_size limit true 0 []) with 0 by (by destruct limit). rewrite Nat.add_0_r.
  unfold slice. rewrite (proj2 (Nat.leb_gt (next_record_index lease) (length (records sh)))) by lia.
  by rewrite andb_false_r.
Qed.

(** Two records, an iterator after them, and the stream deleted and created
    again under its name. *)
Definition recreate_ops : list Op :=
  [OCreateStream 0 "us-east-1" (create_request "orders"); OPutRecord 0 0 (put_request "orders");
   OPutRecord 0 0 (put_request "orders"); OGetShardIterator sample_clock (iterator_request "orders" "LATEST");
   ODeleteStream "us-east-1" (create_request "orders"); OCreateStream 0 "us-east-1" (create_request "orders")].

Definition stale_token : string := "orders:shardId-000000000000:2:0:1".

(** Theorem (error): DeleteStream leaves the stream's iterators behind.  After a
    stream is deleted and created again under its name, GetRecords with an
    iterator of the old stream, still within its five minutes, panics: it
    slices the new, shorter record list at the old position. *)
Theorem recreated_stream_panics (t : IteratorClock) (now cutoff_now limit : Z)
  (Hlimit : (1 <= limit <= 10000)%Z) (Hnow : (now <= minutes 5)%Z) :
  let s := @run sample_host recreate_ops (new_state "123456789012" "us-east-1") in
  (get_records t now cutoff_now (read_request stale_token limit) s).2 = Panicked.
Proof.
  intros s. destruct (read_request_members stale_token limit ltac:(done) Hlimit) as [H1 H2].
  assert (Hl : iterators s !! stale_token = Some (mkLease stale_token "orders" first_shard 2 (minutes 5)))
    by (by vm_compute).
  unfold get_records. rewrite H1, H2, Hl. cbn [expires_at]. rewrite (proj2 (Z.ltb_ge (minutes 5) now) Hnow).
  assert (Hst : (st ← streams s !! "orders"%string; sh ← find_shard st first_shard; Some (records sh)) = Some [])
    by (by vm_compute).
  apply bind_Some in Hst as (st & Hst & Hr). apply bind_Some in Hr as (sh & Hsh & Hr). injection Hr as Hr.
  apply (stale_lease_panics t cutoff_now _ (mkLease stale_token "orders" first_shard 2 (minutes 5)) s st sh); [done..|]. rewrite Hr. cbn. lia.
Qed.

(** Two streams of one shard; the first has two records past retention, the
    second three fresh ones that a mapping has processed. *)
Definition trim_ops : list Op :=
  [OCreateStream 0 "us-east-1" (create_request "audit"); OCreateStream 0 "us-east-1" (create_request "orders");
   OPutRecord 0 0 (put_request "audit"); OPutRecord 0 0 (put_request "audit");
   OPutRecord 0 (hours 30) (put_request "orders"); OPutRecord 0 (hours 30) (put_request "orders");
   OPutRecord 0 (hours 30) (put_request "orders"); OCheckpoint "mapping-of-orders" first_shard 3].

Lemma recreated_stream_panics_witness :
  (get_records sample_clock 0 0 (read_request stale_token 10)
     (@run sample_host recreate_ops (new_state "123456789012" "us-east-1"))).2 = Panicked.
Proof. apply (recreated_stream_panics sample_clock 0 0 10); [lia|by vm_compute]. Defined.

(** Theorem (error): trimming one stream moves the Lambda checkpoints of another.
    A checkpoint is keyed by the mapping and the shard's id, and shard ids
    repeat in every stream, so dropping two expired records of one stream sets
    the position of a mapping on a different stream back by two, although
    nothing was removed from that stream: its last two records are delivered
    again. *)
Theorem trim_moves_foreign_checkpoint :
  let s := @run sample_host trim_ops (new_state "123456789012" "us-east-1") in
  let s' := trim_expired_records_at (hours 30) s in
  streams s' !! "orders"%string = streams s !! "orders"%string
  /\ lambda_checkpoint s "mapping-of-orders" first_shard = 3
  /\ lambda_checkpoint s' "mapping-of-orders" first_shard = 1.
Proof. vm_compute. done. Qed.

(** ** Witnesses *)

Lemma reads_never_panic_witness :
  (get_records sample_clock 0 0 (read_request "nonsense" 10)
     (@run sample_host trim_ops (new_state "123456789012" "us-east-1"))).2 <> Panicked.
Proof.
  apply (@reads_never_panic sample_host "123456789012" "us-east-1" trim_ops sample_clock 0 0
           (read_request "nonsense" 10)).
  repeat constructor.
Defined.

(** Two old records and a fresh one, and an iterator at the fresh one. *)
Definition trim_sample_ops : list Op :=
    [OCreateStream 0 "us-east-1" (create_request "orders"); OPutRecord 0 0 (put_request "orders");
     OPutRecord 0 0 (put_request "orders"); OGetShardIterator sample_clock (iterator_request "orders" "LATEST");
     OPutRecord 0 (hours 30) (put_request "orders")].

Definition trim_sample : KinesisState := @run sample_host trim_sample_ops (new_state "123456789012" "us-east-1").

Lemma trim_sample_well_formed : well_formed trim_sample.
Proof. exact (@well_formed_run sample_host trim_sample_ops _ (well_formed_new _ _)). Qed.

Definition trim_stream : KinesisStream := default empty_stream (streams trim_sample !! "orders"%string).
Definition trim_shard_sample : KinesisShard := default empty_shard (find_shard trim_stream first_shard).
Definition trim_record : KinesisRecord := default (mkRecord "" "" [] 0) (records trim_shard_sample !! 2).
Definition sample_lease : ShardIteratorLease := mkLease stale_token "orders" first_shard 2 (minutes 5).

Lemma trim_keeps_positions_witness :
  exists lease, iterators (trim_expired_records_at (hours 30) trim_sample) !! stale_token = Some lease
                /\ next_record_index lease = 0.
Proof.
  assert (H1 : iterators trim_sample !! stale_token = Some sample_lease) by (by vm_compute).
  assert (H2 : streams trim_sample !! lease_stream_name sample_lease = Some trim_stream) by (by vm_compute).
  assert (H3 : find_shard trim_stream (lease_shard_id sample_lease) = Some trim_shard_sample) by (by vm_compute).
  assert (H4 : records trim_shard_sample !! next_record_index sample_lease = Some trim_record) by (by vm_compute).
  assert (H5 : (hours 30 - hours (retention_period_hours trim_stream)
                <= approximate_arrival_timestamp trim_record)%Z) by (by vm_compute).
  destruct (trim_keeps_positions (hours 30) trim_sample stale_token sample_lease trim_stream trim_shard_sample
              trim_record trim_sample_well_formed H1 H2 H3 H4 H5) as (lease & st & sh & Hl & _).
  exists lease. split; [exact Hl|]. vm_compute in Hl. by injection Hl as <-.
Defined.

Lemma consumer_reads_everything_witness :
  exists s', consume 2 0 (fun _ => mkReadClock sample_clock 0 0) 1 stale_token trim_sample
             = ([trim_record], false, s') /\ streams s' = streams trim_sample.
Proof.
  assert (Hlive : forallb (fun r => (0 - hours (retention_period_hours trim_stream)
                                     <=? approximate_arrival_timestamp r)%Z) (records trim_shard_sample) = true)
    by (by vm_compute).
  rewrite forallb_forall in Hlive.
  apply (consumer_reads_everything (fun _ => mkReadClock sample_clock 0 0) 1 stale_token trim_sample sample_lease
           trim_stream trim_shard_sample).
  - lia.
  - done.
  - done.
  - by vm_compute.
  - by vm_compute.
  - by vm_compute.
  - apply Nat.leb_le. by vm_compute.
  - by vm_compute.
  - intros k. by vm_compute.
  - intros k r Hr. apply Z.leb_le, Hlive. exact (proj1 (list_elem_of_In _ _) Hr).
Defined.

End KinesisReads.
