(* ===== verification/OrdMap.v ===== *)
(** * Ordered maps

    A [std::collections::BTreeMap] whose keys are compared by an [Ord]
    implementation of the source: the entries in ascending order, looked up,
    inserted and removed by comparison only, as the tree does.  The class
    [OrdLaws] states what such an implementation owes the map; keys outside
    [ok] (on which a comparison may not be an order) are excluded by the
    invariant [om_ok]. *)

From Stdlib Require Import ZArith Lia.
From stdpp Require Import base option list sorting.
From S2P Require Import Prelude.

Notation OMap K V := (list (K * V)).

Section Operations.
Context {K : Type} (cmp : K -> K -> comparison) {V : Type}.

Fixpoint om_get (k : K) (m : OMap K V) : option V :=
  match m with
  | [] => None
  | (k', v) :: m' =>
      match cmp k k' with Lt => None | Eq => Some v | Gt => om_get k m' end
  end.

(** An existing entry keeps its key and takes the new value. *)
Fixpoint om_insert (k : K) (v : V) (m : OMap K V) : OMap K V :=
  match m with
  | [] => [(k, v)]
  | (k', v') :: m' =>
      match cmp k k' with
      | Lt => (k, v) :: m
      | Eq => (k', v) :: m'
      | Gt => (k', v') :: om_insert k v m'
      end
  end.

Fixpoint om_remove (k : K) (m : OMap K V) : OMap K V :=
  match m with
  | [] => []
  | (k', v') :: m' =>
      match cmp k k' with Lt => m | Eq => m' | Gt => (k', v') :: om_remove k m' end
  end.

(** [range((Excluded(k), Unbounded))]. *)
Fixpoint om_after (k : K) (m : OMap K V) : OMap K V :=
  match m with
  | [] => []
  | (k', v') :: m' => match cmp k k' with Lt => m | _ => om_after k m' end
  end.

End Operations.

(** ** Laws *)

Class OrdLaws {K} (ok : K -> Prop) (cmp : K -> K -> comparison) : Prop := {
  cmp_eq a b : ok a -> ok b -> cmp a b = Eq <-> a = b;
  cmp_anti a b : ok a -> ok b -> cmp b a = CompOpp (cmp a b);
  cmp_lt_trans a b c : ok a -> ok b -> ok c -> cmp a b = Lt -> cmp b c = Lt -> cmp a c = Lt
}.

#[global] Instance Z_ord : OrdLaws (fun _ => True) Z.compare.
Proof.
  split; intros.
  - apply Z.compare_eq_iff.
  - apply Z.compare_antisym.
  - rewrite Z.compare_lt_iff in *. lia.
Qed.

Section Theory.
Context {K} (ok : K -> Prop) (cmp : K -> K -> comparison) `{!OrdLaws ok cmp} {V : Type}.

Definition key_lt (a b : K * V) : Prop := cmp a.1 b.1 = Lt.

(** Well-formed: ascending, over well-behaved keys. *)
Definition om_ok (m : OMap K V) : Prop := Forall (fun e => ok e.1) m /\ StronglySorted key_lt m.

Lemma cmp_refl k : ok k -> cmp k k = Eq.
Proof. intros H. by apply (cmp_eq (ok := ok) (cmp := cmp)). Qed.

Lemma cmp_gt_lt a b : ok a -> ok b -> cmp a b = Gt <-> cmp b a = Lt.
Proof. intros Ha Hb. rewrite (cmp_anti (ok := ok) (cmp := cmp) a b) by done. destruct (cmp a b); naive_solver. Qed.

(** At most: a total preorder. *)
Lemma cmp_le_trans a b c : ok a -> ok b -> ok c -> cmp a b <> Gt -> cmp b c <> Gt -> cmp a c <> Gt.
Proof.
  intros Ha Hb Hc H1 H2. destruct (cmp a b) eqn:E1; [|clear H1|done].
  - apply (cmp_eq (ok := ok) (cmp := cmp)) in E1 as ->; done.
  - destruct (cmp b c) eqn:E2; [|clear H2|done].
    + apply (cmp_eq (ok := ok) (cmp := cmp)) in E2 as <-; [congruence|done..].
    + by rewrite (cmp_lt_trans (ok := ok) (cmp := cmp) a b c).
Qed.

Lemma cmp_le_total a b : ok a -> ok b -> ~ cmp a b <> Gt -> cmp b a <> Gt.
Proof.
  intros Ha Hb Hn. rewrite (cmp_anti (ok := ok) (cmp := cmp) a b) by done. destruct (cmp a b); simpl; [done| |done].
  by destruct Hn.
Qed.

Lemma om_ok_nil : om_ok [].
Proof. split; constructor. Qed.

Lemma om_ok_cons e m : om_ok (e :: m) <-> ok e.1 /\ Forall (key_lt e) m /\ om_ok m.
Proof.
  unfold om_ok. rewrite Forall_cons. split.
  - intros [[H1 H2] S]. inversion S; subst. done.
  - intros (H1 & H2 & H3 & H4). split; [done|]. by constructor.
Qed.

(** Keys are distinct. *)
Lemma om_ok_fun m k v v' : om_ok m -> (k, v) ∈ m -> (k, v') ∈ m -> v = v'.
Proof.
  induction m as [|[k0 v0] m IH]; [intros _ H; by apply not_elem_of_nil in H|].
  intros (Hk & F & Hm)%om_ok_cons H1 H2. rewrite elem_of_cons in H1, H2.
  rewrite Forall_forall in F. simpl in Hk.
  assert (Hno : forall w, (k0, w) ∈ m -> False).
  { intros w Hw. specialize (F _ Hw). unfold key_lt in F. simpl in F. by rewrite (cmp_refl k0 Hk) in F. }
  destruct H1 as [E1|H1], H2 as [E2|H2]; simplify_eq; [done|by destruct (Hno v')|by destruct (Hno v)|].
  by apply IH.
Qed.

Lemma om_get_elem m k v : om_ok m -> ok k -> om_get cmp k m = Some v <-> (k, v) ∈ m.
Proof.
  intros Hm Hk. induction m as [|[k0 v0] m IH]; simpl.
  - split; [done|]. intros H. by apply not_elem_of_nil in H.
  - apply om_ok_cons in Hm as (Hk0 & F & Hm). specialize (IH Hm). simpl in Hk0. rewrite elem_of_cons.
    rewrite Forall_forall in F.
    destruct (cmp k k0) eqn:E.
    + apply (cmp_eq (ok := ok) (cmp := cmp)) in E; [subst|done|done]. split; [intros [= ->]; by left|].
      intros [[= ->]|Hin]; [done|]. specialize (F _ Hin). unfold key_lt in F. simpl in F.
      by rewrite (cmp_refl k0 Hk0) in F.
    + split; [done|]. intros [[= -> ->]|Hin]; [by rewrite (cmp_refl k0 Hk0) in E|].
      specialize (F _ Hin). unfold key_lt in F. simpl in F.
      assert (X : cmp k k = Lt) by (eapply (cmp_lt_trans (ok := ok) (cmp := cmp)); [done|exact Hk0|done|done|done]).
      by rewrite (cmp_refl k Hk) in X.
    + rewrite IH. split; [by right|]. intros [[= -> ->]|Hin]; [by rewrite (cmp_refl k0 Hk0) in E|done].
Qed.

Lemma om_get_None m k : om_ok m -> ok k -> om_get cmp k m = None <-> forall v, (k, v) ∉ m.
Proof.
  intros Hm Hk. split.
  - intros E v Hin. apply om_get_elem in Hin; [congruence|done|done].
  - intros H. destruct (om_get cmp k m) as [v|] eqn:E; [|done]. apply om_get_elem in E; [|done|done].
    by destruct (H v).
Qed.

Lemma om_insert_elem m k v k' v' : om_ok m -> ok k ->
  (k', v') ∈ om_insert cmp k v m <-> (k' = k /\ v' = v) \/ (k' <> k /\ (k', v') ∈ m).
Proof.
  intros Hm Hk. induction m as [|[k0 v0] m IH]; cbn [om_insert].
  - rewrite list_elem_of_singleton. split; [intros [= -> ->]; by left|].
    intros [[-> ->]|[_ H]]; [done|by apply not_elem_of_nil in H].
  - pose proof Hm as (Hk0 & F & Hm0)%om_ok_cons. specialize (IH Hm0). simpl in Hk0. rewrite Forall_forall in F.
    assert (Hlt : forall w, cmp k k0 <> Gt -> (k, w) ∈ m -> False).
    { intros w Hc Hin. specialize (F _ Hin). unfold key_lt in F. simpl in F.
      apply cmp_gt_lt in F; done. }
    destruct (cmp k k0) eqn:E; rewrite !elem_of_cons.
    + apply (cmp_eq (ok := ok) (cmp := cmp)) in E; [subst|done|done]. split.
      * intros [[= -> ->]|Hin]; [by left|]. right. split; [|by right]. intros ->. by eapply Hlt.
      * intros [[-> ->]|[Hne [[= -> ->]|Hin]]]; [by left|done|by right].
    + split.
      * intros [[= -> ->]|[[= -> ->]|Hin]]; [by left|right|right].
        -- split; [|by left]. intros ->. by rewrite (cmp_refl k Hk) in E.
        -- split; [|by right]. intros ->. by eapply Hlt.
      * intros [[-> ->]|[_ H]]; [by left|by right].
    + rewrite IH. split.
      * intros [[= -> ->]|[[-> ->]|[Hne Hin]]]; [|by left|by right; split; [|right]].
        right. split; [|by left]. intros ->. by rewrite (cmp_refl k Hk) in E.
      * intros [[-> ->]|[Hne [[= -> ->]|Hin]]]; [by right; left|by left|by right; right].
Qed.

Lemma om_insert_ok m k v : om_ok m -> ok k -> om_ok (om_insert cmp k v m).
Proof.
  intros Hm Hk. induction m as [|[k0 v0] m IH]; cbn [om_insert].
  - apply om_ok_cons. split; [done|]. split; [constructor|apply om_ok_nil].
  - pose proof Hm as (Hk0 & F & Hm0)%om_ok_cons. specialize (IH Hm0). simpl in Hk0.
    destruct (cmp k k0) eqn:E; apply om_ok_cons; cbn [fst].
    + split; [done|]. split; [exact F|done].
    + split; [done|]. split; [|done]. constructor; [done|].
      destruct Hm0 as [Fo _]. rewrite Forall_forall in *. intros [k1 v1] Hin.
      specialize (F _ Hin). specialize (Fo _ Hin). unfold key_lt in *. simpl in *.
      by eapply (cmp_lt_trans (ok := ok) (cmp := cmp) k k0 k1).
    + split; [done|]. split; [|done]. apply Forall_forall. intros [k1 v1] Hin.
      apply om_insert_elem in Hin as [[-> ->]|[_ Hin]]; [|by rewrite Forall_forall in F; apply F|done|done].
      unfold key_lt. simpl. by apply cmp_gt_lt.
Qed.

Lemma om_remove_elem m k k' v' : om_ok m -> ok k ->
  (k', v') ∈ om_remove cmp k m <-> k' <> k /\ (k', v') ∈ m.
Proof.
  intros Hm Hk. induction m as [|[k0 v0] m IH]; cbn [om_remove].
  - split; [intros H; by apply not_elem_of_nil in H|by intros [_ H]].
  - pose proof Hm as (Hk0 & F & Hm0)%om_ok_cons. specialize (IH Hm0). simpl in Hk0. rewrite Forall_forall in F.
    assert (Hlt : forall w, cmp k k0 <> Gt -> (k, w) ∈ m -> False).
    { intros w Hc Hin. specialize (F _ Hin). unfold key_lt in F. simpl in F. apply cmp_gt_lt in F; done. }
    destruct (cmp k k0) eqn:E; rewrite !elem_of_cons.
    + apply (cmp_eq (ok := ok) (cmp := cmp)) in E; [subst|done|done]. split.
      * intros Hin. split; [|by right]. intros ->. by eapply Hlt.
      * intros [Hne [[= -> ->]|Hin]]; done.
    + split; [|by intros [_ H]]. intros H. split; [|done]. intros ->.
      destruct H as [[= -> ->]|Hin]; [by rewrite (cmp_refl k0 Hk0) in E|by eapply Hlt].
    + rewrite IH. split.
      * intros [[= -> ->]|[Hne Hin]]; [|by split; [|right]]. split; [|by left].
        intros ->. by rewrite (cmp_refl k Hk) in E.
      * intros [Hne [[= -> ->]|Hin]]; [by left|by right].
Qed.

Lemma om_remove_sublist (m : OMap K V) k : om_remove cmp k m `sublist_of` m.
Proof.
  induction m as [|[k0 v0] m IH]; cbn [om_remove]; [done|].
  destruct (cmp k k0); [by constructor|done|by constructor].
Qed.

Lemma om_ok_sublist m m' : m' `sublist_of` m -> om_ok m -> om_ok m'.
Proof.
  induction 1 as [|e m1 m2 Hs IH|e m1 m2 Hs IH]; [done|..]; intros (Hk & F & Hm)%om_ok_cons.
  - apply om_ok_cons. split; [done|]. split; [|by apply IH].
    rewrite Forall_forall in *. intros x Hx. apply F. by eapply elem_of_submseteq; [|apply sublist_submseteq].
  - by apply IH.
Qed.

Lemma om_remove_ok m k : om_ok m -> om_ok (om_remove cmp k m).
Proof. apply om_ok_sublist, om_remove_sublist. Qed.

(** [range] from a key is the entries above it. *)
Lemma om_after_filter m k : om_ok m -> ok k ->
  om_after cmp k m = List.filter (fun e => match cmp k e.1 with Lt => true | _ => false end) m.
Proof.
  intros Hm Hk. induction m as [|[k0 v0] m IH]; cbn [om_after List.filter]; [done|].
  pose proof Hm as (Hk0 & F & Hm0)%om_ok_cons. cbn [fst] in *. specialize (IH Hm0).
  destruct (cmp k k0) eqn:E; [done| |done]. f_equal.
  assert (Hall : Forall (fun e => cmp k e.1 = Lt) m).
  { destruct Hm0 as [Fo _]. rewrite Forall_forall in *. intros [k1 v1] Hin.
    specialize (F _ Hin). specialize (Fo _ Hin). unfold key_lt in F. simpl in *.
    by eapply (cmp_lt_trans (ok := ok) (cmp := cmp) k k0 k1). }
  clear -Hall. induction Hall as [|e m He _ IH]; simpl; [done|]. by rewrite He, <- IH.
Qed.

(** Two ascending lists with the same entries are the same list. *)
Lemma om_ok_perm m m' : om_ok m -> om_ok m' -> m ≡ₚ m' -> m = m'.
Proof.
  intros Hm Hm' P. revert m' Hm' P. induction m as [|e m IH]; intros [|e' m'] Hm' P.
  - done.
  - by apply Permutation_nil_cons in P.
  - symmetry in P. by apply Permutation_nil_cons in P.
  - pose proof Hm as (Hk & F & Hm0)%om_ok_cons. pose proof Hm' as (Hk' & F' & Hm0')%om_ok_cons.
    assert (e = e') as ->.
    { assert (H1 : e ∈ e' :: m') by (rewrite <- P; left). assert (H2 : e' ∈ e :: m) by (rewrite P; left).
      apply elem_of_cons in H1 as [->|H1]; [done|]. apply elem_of_cons in H2 as [->|H2]; [done|].
      rewrite Forall_forall in F, F'. specialize (F _ H2). specialize (F' _ H1). unfold key_lt in *.
      rewrite (cmp_anti (ok := ok) (cmp := cmp) e.1 e'.1), F in F' by done. done. }
    f_equal. apply IH; [done|done|]. by apply Permutation_cons_inv in P.
Qed.

(** Where an entry is: inserting replaces it there, removing takes it out. *)
Lemma om_get_split m k v : om_ok m -> ok k -> om_get cmp k m = Some v ->
  exists l1 l2, m = l1 ++ (k, v) :: l2 /\ (forall w, om_insert cmp k w m = l1 ++ (k, w) :: l2)
                /\ om_remove cmp k m = l1 ++ l2.
Proof.
  intros Hm Hk. induction m as [|[k0 v0] m IH]; cbn [om_get om_insert om_remove]; [done|].
  apply om_ok_cons in Hm as (Hk0 & _ & Hm). cbn [fst] in Hk0. destruct (cmp k k0) eqn:E; [|done|].
  - apply (cmp_eq (ok := ok) (cmp := cmp)) in E; [subst|done|done]. intros [= ->]. by exists [], m.
  - intros Hv. destruct (IH Hm Hv) as (l1 & l2 & -> & Hi & Hr). exists ((k0, v0) :: l1), l2.
    split; [done|]. split; [intros w; by rewrite Hi|by rewrite Hr].
Qed.

Lemma om_insert_last (m : OMap K V) k v : Forall (fun e => cmp k e.1 = Gt) m -> om_insert cmp k v m = m ++ [(k, v)].
Proof. induction 1 as [|[k0 v0] m E _ IH]; simpl in *; [done|]. by rewrite E, IH. Qed.

Lemma om_insert_insert (m : OMap K V) k v w : ok k ->
  om_insert cmp k w (om_insert cmp k v m) = om_insert cmp k w m.
Proof.
  intros Hk. induction m as [|[k0 v0] m IH]; simpl; [by rewrite (cmp_refl k Hk)|].
  destruct (cmp k k0) eqn:E; simpl; rewrite ?E, ?(cmp_refl k Hk); [done|done|by rewrite IH].
Qed.

(** The same at a given place. *)
Lemma om_mid l1 k v l2 : om_ok (l1 ++ (k, v) :: l2) ->
  (forall w, om_insert cmp k w (l1 ++ (k, v) :: l2) = l1 ++ (k, w) :: l2)
  /\ om_remove cmp k (l1 ++ (k, v) :: l2) = l1 ++ l2.
Proof.
  induction l1 as [|[k0 v0] l1 IH]; cbn [app om_insert om_remove]; intros (Hk & F & Hm)%om_ok_cons; cbn [fst] in Hk.
  - by rewrite (cmp_refl k Hk).
  - destruct (IH Hm) as [IHi IHr].
    assert (cmp k k0 = Gt) as ->.
    { destruct Hm as [Fo _]. rewrite Forall_forall in F, Fo.
      assert (Hin : (k, v) ∈ l1 ++ (k, v) :: l2) by (apply elem_of_app; right; left).
      specialize (F _ Hin). specialize (Fo _ Hin). unfold key_lt in F. simpl in *.
      apply cmp_gt_lt; done. }
    split; [intros w; by rewrite IHi|by rewrite IHr].
Qed.

End Theory.
