(* ===== verification/DdbNumber.v ===== *)
(** * DynamoDB numbers

    The arbitrary-precision decimals of DynamoDB: reading a literal without
    expanding its exponent, ordering, the canonical form under which numbers
    are stored and compared, exact addition and subtraction on digit strings,
    and the number's stored size
    ([fakecloud-dynamodb/src/service/helpers/partiql.rs], [sizing.rs]).

    [i128] and [usize] are [Z] and [nat]: exponents are clamped to [i64] when
    read and lengths are bounded by the request, so no sum here wraps. *)

From Stdlib Require Import ZArith Lia Bool String Ascii.
From stdpp Require Import base option list strings.
From S2P Require Import Prelude Text.

Local Open Scope string_scope.
Local Open Scope Z_scope.

(** Length of a digit string as a [Z]. *)
Definition zlen (s : string) : Z := Z.of_nat (String.length s).

(** ** Reading a literal *)

(** value = [(-1)^neg * 0.<digits> * 10^point]. *)
Record ParsedNumber := {
  neg : bool;
  digits : string;
  point : Z
}.

Definition MAX_EXPANDED_POINT : Z := 1024.
Definition MAX_SCIENTIFIC_EXPONENT : Z := 125.
Definition MIN_SCIENTIFIC_EXPONENT : Z := -130.

Definition is_zero (n : ParsedNumber) : bool := is_empty_str n.(digits).

Definition scientific_exponent (n : ParsedNumber) : option Z :=
  if is_zero n then None else Some (n.(point) - 1).

Definition expandable (n : ParsedNumber) : bool :=
  is_zero n || (Z.abs n.(point) <=? MAX_EXPANDED_POINT).

(** Plain-decimal integer and fraction digits. *)
Definition expand (n : ParsedNumber) : string * string :=
  let len := zlen n.(digits) in
  if is_zero n then (EmptyString, EmptyString)
  else if n.(point) <=? 0 then
    (EmptyString, repeat_char "0" (Z.to_nat (- n.(point))) +:+ n.(digits))
  else if len <=? n.(point) then
    (n.(digits) +:+ repeat_char "0" (Z.to_nat (n.(point) - len)), EmptyString)
  else
    (string_take (Z.to_nat n.(point)) n.(digits), string_drop (Z.to_nat n.(point)) n.(digits)).

Definition cmp_magnitude (a b : ParsedNumber) : comparison :=
  match is_zero a, is_zero b with
  | true, true => Eq
  | true, false => Lt
  | false, true => Gt
  | false, false => then_cmp (a.(point) ?= b.(point)) (str_cmp a.(digits) b.(digits))
  end.

(** [s.strip_prefix('-')], then an optional [+]. *)
Definition take_sign (s : string) : bool * string :=
  match strip_prefix "-" s with
  | Some r => (true, r)
  | None => (false, default s (strip_prefix "+" s))
  end.

(** An exponent's digits, saturating past [i64]. *)
Definition parse_exponent (e : string) : option Z :=
  let '(eneg, ds) := take_sign e in
  if is_empty_str ds || negb (string_forallb is_ascii_digit ds) then None
  else
    let magnitude := default i64_max (parse_i64 ds) in
    Some (if eneg then - magnitude else magnitude).

Definition is_e (c : ascii) : bool := Ascii.eqb c "e" || Ascii.eqb c "E".

Definition parse_number (s : string) : option ParsedNumber :=
  let s := trim s in
  if is_empty_str s then None
  else
    let '(n, rest) := take_sign s in
    '(mantissa, exp) ←
      match split_once_at is_e rest with
      | Some (m, e) => (fun x => (m, x)) <$> parse_exponent e
      | None => Some (rest, 0)
      end;
    let '(int_part, frac_part) :=
      default (mantissa, EmptyString) (split_once_at (Ascii.eqb ".") mantissa) in
    if is_empty_str int_part && is_empty_str frac_part then None
    else if negb (string_forallb is_ascii_digit int_part)
            || negb (string_forallb is_ascii_digit frac_part) then None
    else
      let all := int_part +:+ frac_part in
      let stripped := trim_start_matches "0" all in
      let leading := zlen all - zlen stripped in
      let ds := trim_end_matches "0" stripped in
      if is_empty_str ds then Some {| neg := false; digits := ds; point := 0 |}
      else Some {| neg := n; digits := ds; point := zlen int_part - leading + exp |}.

(** ** Order, validity, canonical form *)

Definition compare_number_strings (x y : string) : comparison :=
  match parse_number x, parse_number y with
  | Some xp, Some yp =>
      match xp.(neg), yp.(neg) with
      | true, false => Lt
      | false, true => Gt
      | _, _ =>
          let mag := cmp_magnitude xp yp in
          if xp.(neg) then CompOpp mag else mag
      end
  | _, _ => Eq
  end.

Definition is_valid_number (s : string) : bool :=
  match parse_number s with Some _ => true | None => false end.

Definition significant_digit_count (s : string) : option nat :=
  (fun p => String.length p.(digits)) <$> parse_number s.

Definition sign_str (n : bool) : string := if n then "-" else "".

(** An integer part is displayed as [0] when empty. *)
Definition int_display (i : string) : string := if is_empty_str i then "0" else i.

(** The canonical text of a parsed number. *)
Definition canonical_text (parsed : ParsedNumber) : string :=
  let sign := sign_str parsed.(neg) in
  if negb (expandable parsed) then
    let lead := string_take 1 parsed.(digits) in
    let rest := string_drop 1 parsed.(digits) in
    let exp := print_Z (parsed.(point) - 1) in
    if is_empty_str rest then sign +:+ lead +:+ "E" +:+ exp
    else sign +:+ lead +:+ "." +:+ rest +:+ "E" +:+ exp
  else
    let '(int_part, frac_part) := expand parsed in
    if is_empty_str frac_part then sign +:+ int_display int_part
    else sign +:+ int_display int_part +:+ "." +:+ frac_part.

Definition canonical_number (s : string) : option string :=
  canonical_text <$> parse_number s.

(** ** Exact addition and subtraction *)

Definition normalize_decimal (s : string) : option (bool * (string * string)) :=
  parsed ← parse_number s;
  if expandable parsed then Some (parsed.(neg), expand parsed) else None.

Definition compare_magnitude (a b : string * string) : comparison :=
  then_cmp (Nat.compare (String.length a.1) (String.length b.1))
    (then_cmp (str_cmp a.1 b.1) (str_cmp a.2 b.2)).

(** Right-pad a fraction with zeros to [len]. *)
Definition pad_frac (frac : string) (len : nat) : string :=
  frac +:+ repeat_char "0" (len - String.length frac).

(** The last [frac_len] digits are the fraction. *)
Definition split_at_frac (ds : string) (frac_len : nat) : string * string :=
  if Nat.leb (String.length ds) frac_len then
    (EmptyString, repeat_char "0" (frac_len - String.length ds) +:+ ds)
  else
    let k := (String.length ds - frac_len)%nat in
    (string_take k ds, string_drop k ds).

(** The digits of a string, least significant first ([bytes().rev()]). *)
Definition rev_digits (s : string) : list Z :=
  reverse ((fun c => Z.of_N (char_code c) - 48) <$> String.list_ascii_of_string s).

(** [out.reverse()] and back to text. *)
Definition text_of_rev (l : list Z) : string :=
  String.string_of_list_ascii (digit_char <$> reverse l).

(** One turn per position, [n] of them; a missing digit counts as zero. *)
Fixpoint add_loop (n : nat) (a b : list Z) (carry : Z) : list Z :=
  match n with
  | O => if 0 <? carry then [carry] else []
  | S n' =>
      let x := default 0 (head a) + default 0 (head b) + carry in
      x mod 10 :: add_loop n' (tail a) (tail b) (x / 10)
  end.

Definition add_digit_strings (a b : string) : string :=
  let a := rev_digits a in
  let b := rev_digits b in
  text_of_rev (add_loop (Nat.max (length a) (length b)) a b 0).

Fixpoint sub_loop (a b : list Z) (borrow : Z) : list Z :=
  match a with
  | [] => []
  | ad :: a' =>
      let x := ad - borrow - default 0 (head b) in
      if x <? 0 then x + 10 :: sub_loop a' (tail b) 1
      else x :: sub_loop a' (tail b) 0
  end.

(** [while out.len() > 1 && last == '0' { out.pop() }], on the reversed list. *)
Fixpoint drop_leading_zeros (l : list Z) : list Z :=
  match l with
  | x :: l' =>
      match l' with
      | [] => l
      | _ => if x =? 0 then drop_leading_zeros l' else l
      end
  | [] => l
  end.

Definition sub_digit_strings (a b : string) : string :=
  text_of_rev (reverse (drop_leading_zeros (reverse (sub_loop (rev_digits a) (rev_digits b) 0)))).

Definition add_magnitude (ai af bi bf : string) : string * string :=
  let flen := Nat.max (String.length af) (String.length bf) in
  split_at_frac (add_digit_strings (ai +:+ pad_frac af flen) (bi +:+ pad_frac bf flen)) flen.

Definition sub_magnitude (ai af bi bf : string) : string * string :=
  let flen := Nat.max (String.length af) (String.length bf) in
  split_at_frac (sub_digit_strings (ai +:+ pad_frac af flen) (bi +:+ pad_frac bf flen)) flen.

Definition format_decimal (n : bool) (int frac : string) : string :=
  let int_t := trim_start_matches "0" int in
  let frac_t := trim_end_matches "0" frac in
  let zero := is_empty_str int_t && is_empty_str frac_t in
  let sign := if n && negb zero then "-" else "" in
  if is_empty_str frac_t then sign +:+ int_display int_t
  else sign +:+ int_display int_t +:+ "." +:+ frac_t.

Definition decimal_add_sub (a b : string) (is_add : bool) : option string :=
  '(a_neg, (a_int, a_frac)) ← normalize_decimal a;
  '(b_neg0, (b_int, b_frac)) ← normalize_decimal b;
  let b_neg := if is_add then b_neg0 else negb b_neg0 in
  let '(res_neg, (res_int, res_frac)) :=
    if Bool.eqb a_neg b_neg then (a_neg, add_magnitude a_int a_frac b_int b_frac)
    else match compare_magnitude (a_int, a_frac) (b_int, b_frac) with
         | Eq => (false, (EmptyString, EmptyString))
         | Gt => (a_neg, sub_magnitude a_int a_frac b_int b_frac)
         | Lt => (b_neg, sub_magnitude b_int b_frac a_int a_frac)
         end in
  Some (format_decimal res_neg res_int res_frac).

(** ** Size and range *)

(** Base-100 digit pairs aligned on the decimal point, plus exponent and
    sign bytes.  [usize::try_from] cannot fail on the pair count. *)
Definition number_size (literal : string) : Z :=
  match parse_number literal with
  | None => Z.of_nat (byte_len literal)
  | Some parsed =>
      if is_zero parsed then 1
      else
        let first_power := parsed.(point) - 1 in
        let last_power := parsed.(point) - zlen parsed.(digits) in
        let pairs := first_power / 2 - last_power / 2 + 1 in
        1 + pairs + (if parsed.(neg) then 1 else 0)
  end.

Inductive RangeError := number_overflow | number_underflow.

Definition check_number_range (literal : string) : Result RangeError unit :=
  match parse_number literal ≫= scientific_exponent with
  | None => Ok tt
  | Some exponent =>
      if MAX_SCIENTIFIC_EXPONENT <? exponent then Err number_overflow
      else if exponent <? MIN_SCIENTIFIC_EXPONENT then Err number_underflow
      else Ok tt
  end.

(** ** Worked inputs (from the unit tests) *)

Example compare_examples :
  (compare_number_strings "9007199254740993" "9007199254740992",
   compare_number_strings "3.10" "3.1", compare_number_strings "0" "-0",
   compare_number_strings "1e-2" "0.01", compare_number_strings "-100" "-1",
   compare_number_strings "10e9223372036854775806" "1e9223372036854775807")
  = (Gt, Eq, Eq, Eq, Lt, Eq).
Proof. vm_compute. reflexivity. Qed.

Example add_sub_examples :
  (decimal_add_sub "99999999999999999999999999999999999999" "1" true,
   decimal_add_sub "3" "5" false, decimal_add_sub "0.1" "0.2" true,
   decimal_add_sub "100.25" "0.75" true, decimal_add_sub "1" "0.001" false,
   decimal_add_sub "abc" "1" true)
  = (Some "100000000000000000000000000000000000000", Some "-2", Some "0.3",
     Some "101", Some "0.999", None).
Proof. vm_compute. reflexivity. Qed.

Example size_examples :
  (number_size "3.14159", number_size "123456", number_size "-42", number_size "1E125",
   canonical_number "-12.5e-100000000000000", canonical_number "0042.1200")
  = (5, 4, 3, 2, Some "-1.25E-99999999999999", Some "42.12").
Proof. vm_compute. reflexivity. Qed.
