(* ===== verification/DdbNumberTheory.v ===== *)
(** * Properties of DynamoDB numbers

    A literal denotes a rational.  Parsing reads that rational off, and the
    form it produces is unique, so comparison is the order of rationals,
    canonical texts are equal exactly for equal numbers, and addition and
    subtraction on digit strings are exact. *)

From Stdlib Require Import ZArith QArith Qpower Lia Lqa Bool String Ascii.
From stdpp Require Import base option list strings.
From S2P Require Import Prelude Text DdbNumber.

Local Open Scope string_scope.
Local Open Scope Z_scope.

(** ** Digit strings and their values *)

Definition digit_of (c : ascii) : Z := Z.of_N (char_code c) - 48.

Fixpoint dec (s : string) : Z :=
  match s with
  | EmptyString => 0
  | String c s' => digit_of c * 10 ^ zlen s' + dec s'
  end.

Definition all_digits (s : string) : Prop := string_forallb is_ascii_digit s = true.

Lemma zlen_nil : zlen EmptyString = 0.
Proof. reflexivity. Qed.

Lemma zlen_cons c s : zlen (String c s) = 1 + zlen s.
Proof. unfold zlen. simpl String.length. lia. Qed.

Lemma zlen_app a b : zlen (a +:+ b) = zlen a + zlen b.
Proof. unfold zlen. rewrite string_length_app. lia. Qed.

Lemma zlen_nonneg s : 0 <= zlen s.
Proof. unfold zlen. lia. Qed.

Lemma zlen_repeat c n : zlen (repeat_char c n) = Z.of_nat n.
Proof. unfold zlen. by rewrite repeat_char_length. Qed.

Create Rewrite HintDb zlen.
#[local] Hint Rewrite zlen_nil zlen_cons zlen_app zlen_repeat : zlen.
#[local] Hint Resolve zlen_nonneg : core.

Lemma all_digits_cons c s : all_digits (String c s) <-> is_ascii_digit c = true /\ all_digits s.
Proof. unfold all_digits. simpl. by rewrite andb_true_iff. Qed.

Lemma all_digits_app a b : all_digits (a +:+ b) <-> all_digits a /\ all_digits b.
Proof. unfold all_digits. by rewrite string_forallb_app, andb_true_iff. Qed.

Lemma all_digits_zeros n : all_digits (repeat_char "0" n).
Proof. by induction n. Qed.

Lemma digit_of_bounds c : is_ascii_digit c = true -> 0 <= digit_of c <= 9.
Proof. unfold is_ascii_digit, digit_of. rewrite andb_true_iff, !N.leb_le. lia. Qed.

Lemma digit_of_zero c : digit_of c = 0 -> c = "0"%char.
Proof.
  unfold digit_of. intros H. apply BTree.BTree.char_code_inj.
  change (char_code "0") with 48%N. lia.
Qed.

Lemma pow10_pos n : 0 <= n -> 0 < 10 ^ n.
Proof. intros. apply Z.pow_pos_nonneg; lia. Qed.

Lemma pow10_split a b : 0 <= a -> 0 <= b -> 10 ^ (a + b) = 10 ^ a * 10 ^ b.
Proof. intros. by apply Z.pow_add_r. Qed.

Lemma dec_app a b : dec (a +:+ b) = dec a * 10 ^ zlen b + dec b.
Proof.
  induction a as [|c a IH]; [done|]. cbn [dec String.append].
  change (String c a +:+ b) with (String c (a +:+ b)). cbn [dec].
  rewrite IH, zlen_app, pow10_split by auto. ring.
Qed.

Lemma dec_zeros n : dec (repeat_char "0" n) = 0.
Proof. induction n as [|n IH]; [done|]. cbn [repeat_char dec]. by rewrite IH. Qed.

Lemma dec_bounds s : all_digits s -> 0 <= dec s < 10 ^ zlen s.
Proof.
  induction s as [|c s IH]; [done|]. rewrite all_digits_cons. intros [Hc Hs].
  cbn [dec]. rewrite zlen_cons, pow10_split by (auto; lia).
  pose proof (digit_of_bounds c Hc). specialize (IH Hs).
  pose proof (pow10_pos (zlen s) (zlen_nonneg s)). nia.
Qed.

(** A nonempty number without leading zeros fills its width. *)
Lemma dec_lead c s :
  all_digits (String c s) -> c <> "0"%char -> 10 ^ zlen s <= dec (String c s).
Proof.
  rewrite all_digits_cons. intros [Hc Hs] Hz. cbn [dec].
  pose proof (digit_of_bounds c Hc). pose proof (dec_bounds s Hs).
  assert (digit_of c <> 0) by (intros ?; by apply Hz, digit_of_zero).
  pose proof (pow10_pos (zlen s) (zlen_nonneg s)). nia.
Qed.

(** ** Trimmed digit strings *)

Definition no_lead (s : string) : Prop := trim_start_matches "0" s = s.
Definition no_trail (s : string) : Prop := trim_end_matches "0" s = s.

Lemma trim_start_no_lead s : no_lead (trim_start_matches "0" s).
Proof.
  unfold no_lead. induction s as [|c s IH]; [done|]. simpl.
  destruct (Ascii.eqb_spec c "0") as [->|Hc]; [done|]. simpl.
  by destruct (Ascii.eqb_spec c "0").
Qed.

Lemma trim_end_no_trail s : no_trail (trim_end_matches "0" s).
Proof.
  unfold no_trail. induction s as [|c s IH]; [done|]. simpl.
  destruct (trim_end_matches "0" s) as [|d t] eqn:E; simpl in *.
  - destruct (Ascii.eqb_spec c "0") as [->|Hc]; simpl; [done|]. by destruct (Ascii.eqb_spec c "0").
  - by rewrite IH.
Qed.

Lemma no_lead_cons c s : no_lead (String c s) <-> c <> "0"%char.
Proof.
  unfold no_lead. simpl. destruct (Ascii.eqb_spec c "0") as [->|Hc]; [|done].
  split; [|done]. intros H. exfalso.
  destruct (trim_start_matches_app "0" s) as [n E]. rewrite H in E.
  apply (f_equal String.length) in E. rewrite string_length_app in E. simpl in E. lia.
Qed.

Lemma no_trail_tail c s : no_trail (String c s) -> s <> EmptyString -> no_trail s.
Proof.
  unfold no_trail. simpl. destruct (trim_end_matches "0" s) as [|d t] eqn:E.
  - destruct (Ascii.eqb c "0"); [done|]. intros [= <-]. done.
  - by intros [= ->].
Qed.

Lemma no_trail_tl c s : no_trail (String c s) -> no_trail s.
Proof. destruct s; [done|]. intros H. by eapply no_trail_tail. Qed.

Lemma no_trail_snoc s c : no_trail (s +:+ String c EmptyString) <-> c <> "0"%char.
Proof.
  induction s as [|d s IH].
  - unfold no_trail. simpl. destruct (Ascii.eqb_spec c "0"); split; congruence.
  - change (String d s +:+ String c EmptyString) with (String d (s +:+ String c EmptyString)).
    split.
    + intros H. apply IH. by eapply no_trail_tl.
    + intros H. apply IH in H. unfold no_trail in *. simpl. rewrite H. by destruct s.
Qed.

(** A nonempty digit string without trailing zeros is positive. *)
Lemma dec_pos_trail s : all_digits s -> no_trail s -> s <> EmptyString -> 0 < dec s.
Proof.
  induction s as [|c s IH]; [done|]. rewrite all_digits_cons. intros [Hc Hs] Ht _.
  cbn [dec]. pose proof (digit_of_bounds c Hc). pose proof (pow10_pos (zlen s) (zlen_nonneg s)).
  destruct s as [|d s].
  - simpl in *. unfold no_trail in Ht. simpl in Ht.
    destruct (Ascii.eqb_spec c "0") as [->|Hz]; [done|].
    assert (digit_of c <> 0) by (intros ?; by apply Hz, digit_of_zero).
    simpl dec. nia.
  - pose proof (IH Hs (no_trail_tl _ _ Ht) ltac:(done)). nia.
Qed.

(** ** Lexical order is numeric order *)

Lemma char_cmp_digit x y : (char_code x ?= char_code y)%N = (digit_of x ?= digit_of y).
Proof.
  unfold digit_of. destruct (N.compare_spec (char_code x) (char_code y)) as [->|H|H];
    symmetry; [apply Z.compare_refl|apply Z.compare_lt_iff|apply Z.compare_gt_iff]; lia.
Qed.

(** As fractions [0.a] and [0.b]. *)
Lemma str_cmp_frac a b :
  all_digits a -> all_digits b -> no_trail a -> no_trail b ->
  str_cmp a b = (dec a * 10 ^ zlen b ?= dec b * 10 ^ zlen a).
Proof.
  revert b. induction a as [|x a IH]; intros [|y b] Ha Hb Ta Tb.
  - done.
  - pose proof (dec_pos_trail _ Hb Tb ltac:(done)). cbn [str_cmp]. symmetry.
    rewrite zlen_nil. change (dec EmptyString) with 0. change (10 ^ 0) with 1.
    apply Z.compare_lt_iff. lia.
  - pose proof (dec_pos_trail _ Ha Ta ltac:(done)). cbn [str_cmp]. symmetry.
    rewrite zlen_nil. change (dec EmptyString) with 0. change (10 ^ 0) with 1.
    apply Z.compare_gt_iff. lia.
  - apply all_digits_cons in Ha as [Hx Ha], Hb as [Hy Hb].
    specialize (IH b Ha Hb (no_trail_tl _ _ Ta) (no_trail_tl _ _ Tb)).
    cbn [str_cmp dec]. rewrite char_cmp_digit, !zlen_cons, !pow10_split by (auto; lia).
    pose proof (pow10_pos (zlen a) (zlen_nonneg a)) as Pa.
    pose proof (pow10_pos (zlen b) (zlen_nonneg b)) as Pb.
    pose proof (dec_bounds a Ha) as Ba. pose proof (dec_bounds b Hb) as Bb.
    change (10 ^ 1) with 10.
    set (A := 10 ^ zlen a) in *. set (B := 10 ^ zlen b) in *.
    set (u := digit_of x) in *. set (v := digit_of y) in *.
    set (m := dec a) in *. set (n := dec b) in *.
    assert (Hmn : 0 <= m * B < A * B) by nia.
    assert (Hnm : 0 <= n * A < A * B) by nia.
    replace ((u * A + m) * (10 * B)) with (10 * (u * (A * B) + m * B)) by ring.
    replace ((v * B + n) * (10 * A)) with (10 * (v * (A * B) + n * A)) by ring.
    rewrite Z.mul_comm, (Z.mul_comm 10 (v * _ + _)), <- Zmult_compare_compat_r by lia.
    destruct (Z.compare_spec u v) as [->|Huv|Huv].
    + rewrite IH. by rewrite Zcompare_plus_compat.
    + symmetry. apply Z.compare_lt_iff. assert (u + 1 <= v) by lia. nia.
    + symmetry. apply Z.compare_gt_iff. assert (v + 1 <= u) by lia. nia.
Qed.

(** At equal length. *)
Lemma str_cmp_int a b :
  all_digits a -> all_digits b -> String.length a = String.length b ->
  str_cmp a b = (dec a ?= dec b).
Proof.
  revert b. induction a as [|x a IH]; intros [|y b] Ha Hb Hl; try done.
  apply all_digits_cons in Ha as [Hx Ha], Hb as [Hy Hb]. injection Hl as Hl.
  cbn [str_cmp dec]. rewrite char_cmp_digit, (IH b Ha Hb Hl).
  replace (zlen b) with (zlen a) by (unfold zlen; lia).
  pose proof (dec_bounds a Ha) as Ba. pose proof (dec_bounds b Hb) as Bb.
  replace (zlen b) with (zlen a) in Bb by (unfold zlen; lia).
  destruct (Z.compare_spec (digit_of x) (digit_of y)) as [->|H|H].
  - by rewrite Zcompare_plus_compat.
  - symmetry. apply Z.compare_lt_iff. nia.
  - symmetry. apply Z.compare_gt_iff. nia.
Qed.

(** ** The rational a parsed number denotes *)

Definition p10 (e : Z) : Q := Qpower (10 # 1) e.
Definition sgn (n : bool) : Z := if n then -1 else 1.

Definition qval (p : ParsedNumber) : Q :=
  (inject_Z (sgn p.(neg) * dec p.(digits)) * p10 (p.(point) - zlen p.(digits)))%Q.

Lemma p10_plus a b : (p10 (a + b) == p10 a * p10 b)%Q.
Proof. unfold p10. apply Qpower_plus. discriminate. Qed.

Lemma p10_Z n : 0 <= n -> (p10 n == inject_Z (10 ^ n))%Q.
Proof. intros Hn. unfold p10. change (10 # 1)%Q with (inject_Z 10). by rewrite Zpower_Qpower. Qed.

Lemma p10_pos e : (0 < p10 e)%Q.
Proof. unfold p10. apply Qpower_0_lt. reflexivity. Qed.

(** The same number at a smaller exponent. *)
Lemma rescale m e k : k <= e -> (inject_Z m * p10 e == inject_Z (m * 10 ^ (e - k)) * p10 k)%Q.
Proof.
  intros H. replace e with ((e - k) + k) at 1 by lia.
  rewrite p10_plus, p10_Z, inject_Z_mult by lia. ring.
Qed.

Lemma Qcompare_scale a b e :
  ((inject_Z a * p10 e) ?= (inject_Z b * p10 e))%Q = (a ?= b).
Proof.
  pose proof (p10_pos e) as H.
  destruct (Z.compare_spec a b) as [->|L|L].
  - by apply Qeq_alt.
  - apply Qlt_alt. apply Qmult_lt_compat_r; [done|]. by rewrite <- Zlt_Qlt.
  - apply Qgt_alt. apply Qmult_lt_compat_r; [done|]. by rewrite <- Zlt_Qlt.
Qed.

(** Decimals of different exponents, compared at their common exponent. *)
Lemma compare_decimals m e m' e' k : k <= e -> k <= e' ->
  ((inject_Z m * p10 e) ?= (inject_Z m' * p10 e'))%Q
  = (m * 10 ^ (e - k) ?= m' * 10 ^ (e' - k)).
Proof.
  intros H H'. rewrite <- (Qcompare_scale _ _ k).
  by rewrite (Qcompare_comp _ _ (rescale m e k H) _ _ (rescale m' e' k H')).
Qed.

(** ** The shape parsing produces *)

Definition wf_parsed (p : ParsedNumber) : Prop :=
  all_digits p.(digits) /\ no_lead p.(digits) /\ no_trail p.(digits)
  /\ (p.(digits) = EmptyString -> p.(neg) = false /\ p.(point) = 0).

(** The last step of [parse_number], on digits. *)
Definition norm (n : bool) (i f : string) (e : Z) : ParsedNumber :=
  let all := i +:+ f in
  let stripped := trim_start_matches "0" all in
  let ds := trim_end_matches "0" stripped in
  if is_empty_str ds then {| neg := false; digits := ds; point := 0 |}
  else {| neg := n; digits := ds; point := zlen i - (zlen all - zlen stripped) + e |}.

Lemma is_empty_str_spec s : is_empty_str s = true <-> s = EmptyString.
Proof. by destruct s. Qed.

Lemma trim_start_split s :
  exists k, s = repeat_char "0" k +:+ trim_start_matches "0" s
    /\ zlen s - zlen (trim_start_matches "0" s) = Z.of_nat k.
Proof.
  destruct (trim_start_matches_app "0" s) as [k E]. exists k. split; [done|].
  rewrite E at 1. rewrite zlen_app, zlen_repeat. lia.
Qed.

Lemma trim_start_digits s : all_digits s -> all_digits (trim_start_matches "0" s).
Proof.
  intros H. destruct (trim_start_matches_app "0" s) as [k E]. rewrite E in H.
  by apply all_digits_app in H as [_ ?].
Qed.

Lemma trim_end_digits s : all_digits s -> all_digits (trim_end_matches "0" s).
Proof.
  intros H. destruct (trim_end_matches_app "0" s) as [k E]. rewrite E in H.
  by apply all_digits_app in H as [? _].
Qed.

Lemma trim_end_no_lead s : no_lead s -> no_lead (trim_end_matches "0" s).
Proof.
  destruct s as [|c s]; [done|]. rewrite no_lead_cons. intros Hc. simpl.
  destruct (trim_end_matches "0" s) as [|d t]; [|by apply no_lead_cons].
  destruct (Ascii.eqb_spec c "0"); [done|]. by apply no_lead_cons.
Qed.

Lemma norm_wf n i f e : all_digits i -> all_digits f -> wf_parsed (norm n i f e).
Proof.
  intros Hi Hf. unfold norm, wf_parsed.
  assert (Hall : all_digits (i +:+ f)) by by apply all_digits_app.
  set (st := trim_start_matches "0" (i +:+ f)).
  assert (all_digits (trim_end_matches "0" st)) by by apply trim_end_digits, trim_start_digits.
  assert (no_lead (trim_end_matches "0" st)) by apply trim_end_no_lead, trim_start_no_lead.
  destruct (is_empty_str (trim_end_matches "0" st)) eqn:E; simpl; split_and!; auto using trim_end_no_trail.
  intros H'. by rewrite H' in E.
Qed.

(** Removing zeros does not change the value. *)
Lemma norm_value n i f e : all_digits i -> all_digits f ->
  (qval (norm n i f e) == inject_Z (sgn n * dec (i +:+ f)) * p10 (e - zlen f))%Q.
Proof.
  intros Hi Hf. unfold norm, qval.
  destruct (trim_start_split (i +:+ f)) as (k & Ek & Hk).
  set (st := trim_start_matches "0" (i +:+ f)) in *.
  destruct (trim_end_matches_app "0" st) as [j Ej].
  set (ds := trim_end_matches "0" st) in *.
  assert (Hdec : dec (i +:+ f) = dec ds * 10 ^ Z.of_nat j).
  { rewrite Ek, dec_app, dec_zeros, Z.mul_0_l, Z.add_0_l, Ej, dec_app, dec_zeros, zlen_repeat. lia. }
  destruct (is_empty_str ds) eqn:E; simpl.
  - apply is_empty_str_spec in E. rewrite Hdec, E. simpl.
    unfold Qeq. simpl. lia.
  - rewrite Hk, Hdec. rewrite zlen_app in Hk. rewrite Ej, zlen_app, zlen_repeat in Hk.
    replace (zlen i - Z.of_nat k + e - zlen ds) with (Z.of_nat j + (e - zlen f)) by lia.
    rewrite p10_plus, p10_Z by lia. rewrite !inject_Z_mult. ring.
Qed.

(** Digit strings that are already trimmed come back unchanged. *)
Lemma trim_start_zeros k s : trim_start_matches "0" (repeat_char "0" k +:+ s) = trim_start_matches "0" s.
Proof. induction k as [|k IH]; [done|]. simpl. by rewrite IH. Qed.

Lemma trim_end_zeros_all k : trim_end_matches "0" (repeat_char "0" k) = EmptyString.
Proof. induction k as [|k IH]; [done|]. simpl. by rewrite IH. Qed.

Lemma trim_end_zeros k s : trim_end_matches "0" (s +:+ repeat_char "0" k) = trim_end_matches "0" s.
Proof. induction s as [|c s IH]; [apply trim_end_zeros_all|]. simpl. by rewrite IH. Qed.

Lemma norm_trimmed n i f e k ds j :
  i +:+ f = repeat_char "0" k +:+ ds +:+ repeat_char "0" j ->
  no_lead ds -> no_trail ds -> ds <> EmptyString ->
  norm n i f e = {| neg := n; digits := ds; point := zlen i - Z.of_nat k + e |}.
Proof.
  intros Hif Hl Ht Hne. unfold norm. rewrite Hif, trim_start_zeros.
  assert (Hs : trim_start_matches "0" (ds +:+ repeat_char "0" j) = ds +:+ repeat_char "0" j).
  { destruct ds as [|c ds]; [done|]. apply no_lead_cons in Hl. by apply no_lead_cons. }
  rewrite Hs, trim_end_zeros, Ht.
  destruct (is_empty_str ds) eqn:E; [by apply is_empty_str_spec in E|].
  f_equal. autorewrite with zlen. lia.
Qed.

(** ** Literals

    The grammar of number literals, with the rational each one denotes; an
    exponent past [i64] is read as the largest [i64]. *)

Inductive Sign := NoSign | Plus | Minus.

Definition sign_text (s : Sign) : string :=
  match s with NoSign => "" | Plus => "+" | Minus => "-" end.

Definition is_minus (s : Sign) : bool := match s with Minus => true | _ => false end.

Record Literal := {
  l_sign : Sign;
  l_int : string;
  l_frac : option string;                 (* after a dot *)
  l_exp : option (ascii * Sign * string)  (* e or E, sign, digits *)
}.

Definition frac_text (l : Literal) : string :=
  match l.(l_frac) with Some f => "." +:+ f | None => "" end.

Definition exp_text (l : Literal) : string :=
  match l.(l_exp) with
  | Some (e, s, ds) => String e (sign_text s +:+ ds)
  | None => ""
  end.

Definition literal_text (l : Literal) : string :=
  sign_text l.(l_sign) +:+ l.(l_int) +:+ frac_text l +:+ exp_text l.

Definition frac_digits (l : Literal) : string := default EmptyString l.(l_frac).

Definition exp_value (l : Literal) : Z :=
  match l.(l_exp) with
  | Some (_, s, ds) =>
      let m := Z.min i64_max (dec ds) in if is_minus s then - m else m
  | None => 0
  end.

Definition wf_literal (l : Literal) : Prop :=
  all_digits l.(l_int) /\ all_digits (frac_digits l)
  /\ (l.(l_int) +:+ frac_digits l) <> EmptyString
  /\ match l.(l_exp) with
     | Some (e, _, ds) => is_e e = true /\ all_digits ds /\ ds <> EmptyString
     | None => True
     end.

Definition literal_value (l : Literal) : Q :=
  (inject_Z (sgn (is_minus l.(l_sign)) * dec (l.(l_int) +:+ frac_digits l))
   * p10 (exp_value l - zlen (frac_digits l)))%Q.

Lemma digits_val_dec acc s : all_digits s -> digits_val acc s = Some (acc * 10 ^ zlen s + dec s).
Proof.
  revert acc. induction s as [|c s IH]; intros acc.
  - intros _. cbn [digits_val dec]. rewrite zlen_nil. f_equal. lia.
  - rewrite all_digits_cons. intros [Hc Hs]. cbn [digits_val dec]. rewrite Hc, (IH _ Hs).
    rewrite zlen_cons, pow10_split by (auto; lia). unfold digit_of. f_equal.
    change (10 ^ 1) with 10. ring.
Qed.

Lemma all_digits_no_sign s c : all_digits s -> is_ascii_digit c = false ->
  s <> EmptyString -> strip_prefix (String c EmptyString) s = None.
Proof.
  destruct s as [|d s]; [done|]. rewrite all_digits_cons. intros [Hd _] Hc _. simpl.
  destruct (Ascii.eqb_spec c d) as [->|]; [congruence|done].
Qed.

Lemma strip_one c s : strip_prefix (String c EmptyString) (String c s) = Some s.
Proof. simpl. by rewrite Ascii.eqb_refl. Qed.

(** Signs are read off in front of a text that starts with neither. *)
Lemma take_sign_text s t :
  strip_prefix "-" t = None -> strip_prefix "+" t = None ->
  take_sign (sign_text s +:+ t) = (is_minus s, t).
Proof.
  intros H H'. destruct s; [|reflexivity..]. change (sign_text NoSign +:+ t) with t.
  unfold take_sign. by rewrite H, H'.
Qed.

Lemma parse_i64_digits ds : all_digits ds -> ds <> EmptyString ->
  default i64_max (parse_i64 ds) = Z.min i64_max (dec ds).
Proof.
  intros Hd Hne. unfold parse_i64, parse_signed.
  pose proof (all_digits_no_sign ds "-" Hd eq_refl Hne) as H1.
  pose proof (all_digits_no_sign ds "+" Hd eq_refl Hne) as H2.
  assert (E : parse_signed i64_min i64_max ds = parse_digits ds ≫= in_range i64_min i64_max).
  { unfold parse_signed. destruct ds as [|c ds]; [done|].
    destruct c as [[] [] [] [] [] [] [] []]; try done. }
  unfold parse_signed in E. rewrite E. unfold parse_digits.
  destruct ds as [|c ds]; [done|]. set (s := String c ds) in *.
  rewrite (digits_val_dec 0 s Hd), Z.mul_0_l, Z.add_0_l. cbn [mbind option_bind]. unfold in_range.
  pose proof (dec_bounds s Hd) as [Hlo _]. assert (i64_min <= 0) by (vm_compute; discriminate).
  destruct (Z.leb_spec i64_min (dec s)); [|lia].
  destruct (Z.leb_spec (dec s) i64_max); cbn [andb]; unfold from_option, id.
  all: lia.
Qed.

Lemma parse_exponent_text s ds : all_digits ds -> ds <> EmptyString ->
  parse_exponent (sign_text s +:+ ds)
  = Some (let m := Z.min i64_max (dec ds) in if is_minus s then - m else m).
Proof.
  intros Hd Hne. unfold parse_exponent.
  rewrite take_sign_text by by apply all_digits_no_sign.
  rewrite Hd. destruct (is_empty_str ds) eqn:E; [by apply is_empty_str_spec in E|].
  simpl orb. by rewrite parse_i64_digits.
Qed.

(** What a digit is not. *)
Lemma digit_not c : is_ascii_digit c = true ->
  is_whitespace c = false /\ is_e c = false /\ Ascii.eqb "." c = false.
Proof. destruct c as [[] [] [] [] [] [] [] []]; done. Qed.

Lemma trim_no_ws s : string_forallb (fun c => negb (is_whitespace c)) s = true -> trim s = s.
Proof.
  unfold trim. destruct s as [|c s]; [done|]. simpl. rewrite andb_true_iff, negb_true_iff.
  intros [Hc Hs]. rewrite Hc. revert c Hc. induction s as [|d s IH]; intros c Hc; simpl in *.
  - by rewrite Hc.
  - apply andb_true_iff in Hs as [Hd Hs]. apply negb_true_iff in Hd.
    specialize (IH Hs d Hd). simpl in IH. by rewrite IH.
Qed.

Lemma digits_forall (p : ascii -> bool) s :
  (forall c, is_ascii_digit c = true -> p c = true) -> all_digits s -> string_forallb p s = true.
Proof. intros H Hs. by eapply string_forallb_impl. Qed.

Lemma literal_no_ws l : wf_literal l ->
  string_forallb (fun c => negb (is_whitespace c)) (literal_text l) = true.
Proof.
  destruct l as [s i f e]. intros (Hi & Hf & _ & He). unfold literal_text, frac_text, exp_text. simpl in *.
  assert (D : forall t, all_digits t -> string_forallb (fun c => negb (is_whitespace c)) t = true).
  { intros t. apply digits_forall. intros c Hc. by destruct (digit_not c Hc) as [-> _]. }
  rewrite !string_forallb_app, (D i Hi).
  assert (string_forallb (fun c => negb (is_whitespace c)) (sign_text s) = true) as -> by by destruct s.
  destruct f as [f|]; simpl in *; rewrite ?(D f Hf); destruct e as [[[c es] ds]|]; simpl; try done.
  all: destruct He as (Hc & Hd & _).
  all: assert (negb (is_whitespace c) = true) as ->
         by (unfold is_e in Hc; destruct c as [[] [] [] [] [] [] [] []]; done).
  all: rewrite string_forallb_app, (D ds Hd); by destruct es.
Qed.

Lemma mantissa_split l : wf_literal l ->
  default (l.(l_int) +:+ frac_text l, EmptyString)
    (split_once_at (Ascii.eqb ".") (l.(l_int) +:+ frac_text l))
  = (l.(l_int), frac_digits l).
Proof.
  destruct l as [s i f e]. intros (Hi & Hf & _ & _). unfold frac_text, frac_digits. simpl in *.
  assert (D : string_forallb (fun x => negb (Ascii.eqb "." x)) i = true).
  { eapply digits_forall; [|done]. intros c Hc. by destruct (digit_not c Hc) as (_ & _ & ->). }
  destruct f as [f|]; simpl.
  - by rewrite (split_once_at_app (Ascii.eqb ".") i "." f D eq_refl).
  - rewrite string_app_nil_r. by rewrite (proj2 (split_once_at_None _ i) D).
Qed.

Lemma exponent_split l : wf_literal l ->
  match split_once_at is_e (l.(l_int) +:+ frac_text l +:+ exp_text l) with
  | Some (m, e) => (fun x => (m, x)) <$> parse_exponent e
  | None => Some (l.(l_int) +:+ frac_text l +:+ exp_text l, 0)
  end = Some (l.(l_int) +:+ frac_text l, exp_value l).
Proof.
  destruct l as [s i f e]. intros (Hi & Hf & _ & He). unfold frac_text, exp_text, exp_value, frac_digits in *. simpl in *.
  assert (D : forall t, all_digits t -> string_forallb (fun x => negb (is_e x)) t = true).
  { intros t. apply digits_forall. intros c Hc. by destruct (digit_not c Hc) as (_ & -> & _). }
  set (m := i +:+ match f with Some f => String "." f | None => "" end).
  assert (Hm : string_forallb (fun x => negb (is_e x)) m = true).
  { unfold m. rewrite string_forallb_app, (D i Hi). destruct f; simpl in *; [|done]. by rewrite (D _ Hf). }
  rewrite <- (string_app_assoc i). fold m. clearbody m. destruct e as [[[c es] ds]|].
  - destruct He as (Hc & Hd & Hne).
    rewrite (split_once_at_app is_e m c _ Hm Hc). by rewrite parse_exponent_text.
  - rewrite string_app_nil_r. by rewrite (proj2 (split_once_at_None _ m) Hm).
Qed.

Lemma literal_body_unsigned l c : wf_literal l -> c = "-"%char \/ c = "+"%char ->
  strip_prefix (String c EmptyString) (l.(l_int) +:+ frac_text l +:+ exp_text l) = None.
Proof.
  destruct l as [s i f e]. intros (Hi & Hf & Hne & _) Hc. unfold frac_text. simpl in *.
  destruct i as [|d i].
  - destruct f as [f|]; [|done]. simpl. by destruct Hc as [-> | ->].
  - apply all_digits_cons in Hi as [Hd _]. simpl.
    destruct (Ascii.eqb_spec c d) as [<-|]; [|done]. by destruct Hc as [-> | ->].
Qed.

(** A literal parses to its digits in normal form. *)
Lemma parse_literal l : wf_literal l ->
  parse_number (literal_text l)
  = Some (norm (is_minus l.(l_sign)) l.(l_int) (frac_digits l) (exp_value l)).
Proof.
  intros Hwf. unfold parse_number. rewrite (trim_no_ws _ (literal_no_ws l Hwf)).
  pose proof Hwf as (Hi & Hf & Hne & _).
  destruct (is_empty_str (literal_text l)) eqn:E.
  { apply is_empty_str_spec in E. unfold literal_text, frac_text in E.
    apply (f_equal String.length) in E. rewrite !string_length_app in E. simpl in E.
    assert (String.length (l_int l) = 0%nat) as H0 by lia.
    destruct (l_int l) eqn:Ei; [|done]. unfold frac_digits in Hne.
    destruct (l_frac l) as [f|]; simpl in *; [lia|done]. }
  unfold literal_text. rewrite take_sign_text by auto using literal_body_unsigned.
  rewrite (exponent_split l Hwf). cbn [mbind option_bind].
  rewrite (mantissa_split l Hwf). rewrite Hi, Hf. cbn [negb orb].
  destruct (is_empty_str (l_int l) && is_empty_str (frac_digits l)) eqn:E2.
  { apply andb_true_iff in E2 as [E1 E2]. apply is_empty_str_spec in E1, E2.
    by rewrite E1, E2 in Hne. }
  unfold norm. cbv zeta.
  by destruct (is_empty_str (trim_end_matches "0" (trim_start_matches "0" (l_int l +:+ frac_digits l)))).
Qed.

Lemma take_sign_inv s n t : take_sign s = (n, t) ->
  exists g, s = sign_text g +:+ t /\ n = is_minus g.
Proof.
  unfold take_sign. destruct (strip_prefix "-" s) as [r|] eqn:E.
  - intros [= <- <-]. exists Minus. split; [|done]. by apply strip_prefix_Some in E.
  - destruct (strip_prefix "+" s) as [r|] eqn:E'; intros [= <- <-].
    + exists Plus. split; [|done]. by apply strip_prefix_Some in E'.
    + by exists NoSign.
Qed.

Lemma parse_exponent_inv e x : parse_exponent e = Some x ->
  exists g ds, e = sign_text g +:+ ds /\ all_digits ds /\ ds <> EmptyString.
Proof.
  unfold parse_exponent. destruct (take_sign e) as [n ds] eqn:E.
  apply take_sign_inv in E as (g & -> & ->).
  destruct (is_empty_str ds) eqn:E1, (string_forallb is_ascii_digit ds) eqn:E2; try done.
  intros _. exists g, ds. split_and!; [done..|]. intros ->. done.
Qed.

(** Only literals parse, and they parse to their own digits. *)
Lemma parse_number_inv s p : parse_number s = Some p ->
  exists l, wf_literal l /\ trim s = literal_text l
    /\ p = norm (is_minus l.(l_sign)) l.(l_int) (frac_digits l) (exp_value l).
Proof.
  intros H. cut (exists l, wf_literal l /\ trim s = literal_text l).
  { intros (l & Hwf & E). exists l. split_and!; [done..|].
    pose proof (parse_literal l Hwf) as Hl.
    assert (Ht : parse_number (literal_text l) = parse_number s).
    { unfold parse_number. rewrite (trim_no_ws _ (literal_no_ws l Hwf)). by rewrite E. }
    congruence. }
  unfold parse_number in H. set (t := trim s) in *. clearbody t.
  destruct (is_empty_str t); [done|].
  destruct (take_sign t) as [n rest] eqn:E. apply take_sign_inv in E as (g & -> & ->).
  destruct (match split_once_at is_e rest with
            | Some (m, e) => (fun x => (m, x)) <$> parse_exponent e
            | None => Some (rest, 0) end) as [[m x]|] eqn:Ee; [|done].
  cbn [mbind option_bind] in H.
  destruct (default (m, EmptyString) (split_once_at (Ascii.eqb ".") m)) as [i f] eqn:Ed.
  destruct (is_empty_str i && is_empty_str f) eqn:Hne; [done|].
  destruct (string_forallb is_ascii_digit i) eqn:Hi, (string_forallb is_ascii_digit f) eqn:Hf; try done.
  assert (Hm : exists fo, m = i +:+ match fo with Some f => "." +:+ f | None => "" end
               /\ default EmptyString fo = f).
  { destruct (split_once_at (Ascii.eqb ".") m) as [[a b]|] eqn:Es; simpl in Ed; injection Ed as <- <-.
    - apply split_once_at_Some in Es as (c & -> & Hc & _). apply Ascii.eqb_eq in Hc as <-.
      by exists (Some b).
    - exists None. by rewrite string_app_nil_r. }
  destruct Hm as (fo & -> & Hfo).
  assert (He : exists eo, rest = (i +:+ match fo with Some f => "." +:+ f | None => "" end) +:+
                 match eo with Some (c, g, ds) => String c (sign_text g +:+ ds) | None => "" end
               /\ match eo with Some (c, _, ds) => is_e c = true /\ all_digits ds /\ ds <> EmptyString
                  | None => True end).
  { destruct (split_once_at is_e rest) as [[a b]|] eqn:Es.
    - destruct (parse_exponent b) as [y|] eqn:Ep; [|done]. injection Ee as -> _.
      apply split_once_at_Some in Es as (c & -> & Hc & _).
      apply parse_exponent_inv in Ep as (g' & ds & -> & Hd & Hn).
      by exists (Some (c, g', ds)).
    - injection Ee as -> _. exists None. by rewrite string_app_nil_r. }
  destruct He as (eo & -> & Heo).
  exists {| l_sign := g; l_int := i; l_frac := fo; l_exp := eo |}.
  unfold wf_literal, literal_text, frac_text, exp_text, frac_digits. simpl. rewrite Hfo.
  split_and!; try done; [|by rewrite string_app_assoc].
  intros E. apply (f_equal String.length) in E. rewrite string_length_app in E.
  destruct i, f; simpl in *; done || lia.
Qed.

Lemma parse_number_wf s p : parse_number s = Some p -> wf_parsed p.
Proof.
  intros H. apply parse_number_inv in H as (l & (Hi & Hf & _) & _ & ->). by apply norm_wf.
Qed.

(** ** The order *)

(** Bounds of a nonzero number: [10^(point-1) <= |value| < 10^point], taken
    at an exponent [k] below its last digit. *)
Lemma magnitude_bounds p k : wf_parsed p -> p.(digits) <> EmptyString ->
  k <= p.(point) - zlen p.(digits) ->
  10 ^ (p.(point) - 1 - k) <= dec p.(digits) * 10 ^ (p.(point) - zlen p.(digits) - k)
    < 10 ^ (p.(point) - k).
Proof.
  intros (Hd & Hl & _ & _) Hne Hk. destruct (digits p) as [|c ds] eqn:E; [done|].
  apply no_lead_cons in Hl. pose proof (dec_lead c ds Hd Hl) as Hlo.
  pose proof (dec_bounds _ Hd) as [_ Hhi]. rewrite zlen_cons in *. pose proof (zlen_nonneg ds).
  set (e := point p - (1 + zlen ds) - k) in *.
  replace (point p - 1 - k) with (zlen ds + e) by lia.
  replace (point p - k) with (1 + zlen ds + e) by lia.
  rewrite !pow10_split in * by lia. pose proof (pow10_pos e ltac:(lia)). nia.
Qed.

Definition mag (p : ParsedNumber) : Q :=
  (inject_Z (dec p.(digits)) * p10 (p.(point) - zlen p.(digits)))%Q.

Lemma mag_lt p q : wf_parsed p -> wf_parsed q -> q.(digits) <> EmptyString ->
  p.(digits) = EmptyString \/ p.(point) < q.(point) -> (mag p ?= mag q)%Q = Lt.
Proof.
  intros Hp Hq Nq H. unfold mag.
  set (k := Z.min (point p - zlen (digits p)) (point q - zlen (digits q))).
  rewrite (compare_decimals _ _ _ _ k) by lia. apply Z.compare_lt_iff.
  pose proof (magnitude_bounds q k Hq Nq ltac:(lia)) as [Hlo _].
  pose proof (zlen_nonneg (digits q)).
  assert (Np : digits q <> EmptyString -> 1 <= zlen (digits q)).
  { destruct (digits q); [done|]. rewrite zlen_cons. pose proof (zlen_nonneg s). lia. }
  destruct (decide (digits p = EmptyString)) as [Ep|Np'].
  - rewrite Ep, Z.mul_0_l. specialize (Np Nq). pose proof (pow10_pos (point q - 1 - k) ltac:(lia)). lia.
  - destruct H as [H|H]; [done|].
    pose proof (magnitude_bounds p k Hp Np' ltac:(lia)) as [_ Hhi].
    eapply Z.lt_le_trans; [exact Hhi|]. etransitivity; [|exact Hlo].
    apply Z.pow_le_mono_r; lia.
Qed.

Lemma cmp_magnitude_spec p q : wf_parsed p -> wf_parsed q ->
  cmp_magnitude p q = (mag p ?= mag q)%Q.
Proof.
  intros Hp Hq. unfold cmp_magnitude, is_zero.
  pose proof Hp as (Dp & _ & Tp & _). pose proof Hq as (Dq & _ & Tq & _).
  destruct (is_empty_str (digits p)) eqn:Ep, (is_empty_str (digits q)) eqn:Eq.
  all: rewrite ?is_empty_str_spec in *; symmetry.
  - unfold mag. rewrite Ep, Eq. apply Qeq_alt. change (inject_Z (dec "")) with 0%Q. ring.
  - apply mag_lt; [done..|by intros H; rewrite H in Eq|by left].
  - rewrite <- Qcompare_antisym. rewrite mag_lt; [done..|by intros H; rewrite H in Ep|by left].
  - assert (Np : digits p <> EmptyString) by by intros H; rewrite H in Ep.
    assert (Nq : digits q <> EmptyString) by by intros H; rewrite H in Eq.
    destruct (Z.compare_spec (point p) (point q)) as [E|L|L]; cbn [then_cmp].
    + unfold mag. pose proof (zlen_nonneg (digits p)). pose proof (zlen_nonneg (digits q)).
      rewrite (compare_decimals _ _ _ _ (point p - zlen (digits p) - zlen (digits q))) by lia.
      rewrite (str_cmp_frac _ _ Dp Dq Tp Tq). do 3 f_equal; lia.
    + apply mag_lt; auto.
    + rewrite <- Qcompare_antisym. rewrite mag_lt; auto.
Qed.

Lemma qval_mag p : (qval p == inject_Z (sgn p.(neg)) * mag p)%Q.
Proof. unfold qval, mag. rewrite inject_Z_mult. ring. Qed.

Lemma mag_nonneg p : wf_parsed p -> (0 <= mag p)%Q.
Proof.
  intros (Hd & _). unfold mag. apply Qmult_le_0_compat.
  - change 0%Q with (inject_Z 0). rewrite <- Zle_Qle. by apply dec_bounds.
  - apply Qlt_le_weak, p10_pos.
Qed.

(** A negative number is below zero: zero is never negative. *)
Lemma neg_mag_pos p : wf_parsed p -> p.(neg) = true -> (0 < mag p)%Q.
Proof.
  intros Hp Hn. pose proof Hp as (Hd & _ & Ht & Hz).
  assert (digits p <> EmptyString) by (intros E; destruct (Hz E); congruence).
  unfold mag. apply Qmult_lt_0_compat; [|apply p10_pos].
  change 0%Q with (inject_Z 0). rewrite <- Zlt_Qlt. by apply dec_pos_trail.
Qed.

Definition cmp_parsed (xp yp : ParsedNumber) : comparison :=
  match xp.(neg), yp.(neg) with
  | true, false => Lt
  | false, true => Gt
  | _, _ => let mag := cmp_magnitude xp yp in if xp.(neg) then CompOpp mag else mag
  end.

Lemma cmp_parsed_spec p q : wf_parsed p -> wf_parsed q ->
  cmp_parsed p q = (qval p ?= qval q)%Q.
Proof.
  intros Hp Hq. unfold cmp_parsed. rewrite (cmp_magnitude_spec p q Hp Hq).
  rewrite (Qcompare_comp _ _ (qval_mag p) _ _ (qval_mag q)).
  pose proof (mag_nonneg p Hp). pose proof (mag_nonneg q Hq).
  pose proof (neg_mag_pos p Hp) as Pp. pose proof (neg_mag_pos q Hq) as Pq.
  generalize dependent (mag q). generalize dependent (mag p). intros.
  destruct (neg p) eqn:Np, (neg q) eqn:Nq; cbn [sgn]; symmetry.
  - change (inject_Z (-1)) with (- (1))%Q.
    destruct (Qcompare_spec q0 q1) as [E|L|L]; cbn [CompOpp].
    + apply Qeq_alt. by rewrite E.
    + rewrite <- Qgt_alt. lra.
    + rewrite <- Qlt_alt. lra.
  - specialize (Pp eq_refl). change (inject_Z (-1)) with (- (1))%Q.
    change (inject_Z 1) with 1%Q. rewrite <- Qlt_alt. lra.
  - specialize (Pq eq_refl). change (inject_Z (-1)) with (- (1))%Q.
    change (inject_Z 1) with 1%Q. rewrite <- Qgt_alt. lra.
  - apply Qcompare_comp; change (inject_Z 1) with 1%Q; ring.
Qed.

Lemma compare_number_strings_parsed x y p q :
  parse_number x = Some p -> parse_number y = Some q ->
  compare_number_strings x y = cmp_parsed p q.
Proof. intros Hx Hy. unfold compare_number_strings. by rewrite Hx, Hy. Qed.

(** Each value has one normal form. *)
Lemma cmp_parsed_eq p q : wf_parsed p -> wf_parsed q -> cmp_parsed p q = Eq <-> p = q.
Proof.
  intros Hp Hq. split; [|intros ->; rewrite (cmp_parsed_spec q q Hq Hq); by apply Qeq_alt].
  destruct p as [n d e], q as [n' d' e'].
  pose proof Hp as (_ & _ & _ & Zp). pose proof Hq as (_ & _ & _ & Zq). simpl in *.
  unfold cmp_parsed, cmp_magnitude, is_zero. simpl.
  assert (Hmag : match is_empty_str d, is_empty_str d' with
                 | true, true => Eq | true, false => Lt | false, true => Gt
                 | false, false => then_cmp (e ?= e') (str_cmp d d') end = Eq ->
                 n = n' -> Build_ParsedNumber n d e = Build_ParsedNumber n' d' e').
  { destruct (is_empty_str d) eqn:E1, (is_empty_str d') eqn:E2; try done.
    - apply is_empty_str_spec in E1, E2. subst. destruct (Zp eq_refl), (Zq eq_refl). congruence.
    - destruct (Z.compare_spec e e') as [->|?|?]; simpl; try done.
      rewrite str_cmp_eq. congruence. }
  destruct n, n'; try done.
  - intros H. apply Hmag; [|done]. by destruct (match is_empty_str d with true => _ | false => _ end).
  - intros H. by apply Hmag.
Qed.

(** ** Expansion and the canonical text *)

Lemma split_digits (P : string -> Prop) n s :
  (forall a b, P (a +:+ b) <-> P a /\ P b) -> P s -> P (string_take n s) /\ P (string_drop n s).
Proof. intros H Hs. rewrite <- (string_take_drop n s) in Hs. by apply H. Qed.

Lemma no_trail_app_r a b : b <> EmptyString -> no_trail (a +:+ b) <-> no_trail b.
Proof.
  intros Hb. induction a as [|c a IH]; [done|].
  change (String c a +:+ b) with (String c (a +:+ b)). rewrite <- IH.
  split; [apply no_trail_tl|]. unfold no_trail. intros H. simpl. rewrite H.
  destruct (a +:+ b) eqn:E; [|done]. by destruct a, b.
Qed.

Lemma no_lead_take n s : no_lead s -> no_lead (string_take n s).
Proof. destruct n, s; try done. cbn [string_take]. by rewrite !no_lead_cons. Qed.

(** The expansion of a number: its digits around the decimal point, padded
    with zeros on one side at most. *)
Lemma expand_spec p i f : wf_parsed p -> expand p = (i, f) ->
  all_digits i /\ all_digits f /\ no_lead i /\ no_trail f
  /\ exists k j, i +:+ f = repeat_char "0" k +:+ p.(digits) +:+ repeat_char "0" j
     /\ (p.(digits) <> EmptyString -> zlen i - Z.of_nat k = p.(point))
     /\ (i = EmptyString \/ k = 0%nat) /\ (f = EmptyString \/ j = 0%nat)
     /\ (p.(digits) = EmptyString -> i = EmptyString /\ f = EmptyString).
Proof.
  intros (Hd & Hl & Ht & Hz). unfold expand, is_zero.
  destruct (is_empty_str (digits p)) eqn:E.
  { apply is_empty_str_spec in E. intros [= <- <-]. rewrite E. split_and!; try done.
    exists 0%nat, 0%nat. split_and!; try done; auto. }
  assert (Hne : digits p <> EmptyString) by by intros H; rewrite H in E.
  destruct (Z.leb_spec (point p) 0).
  { intros [= <- <-]. split_and!; try done.
    - apply all_digits_app. split; [apply all_digits_zeros|done].
    - by apply no_trail_app_r.
    - exists (Z.to_nat (- point p)), 0%nat. rewrite string_app_nil_r. split_and!; try done; auto.
      intros _. rewrite zlen_nil. lia. }
  destruct (Z.leb_spec (zlen (digits p)) (point p)).
  { intros [= <- <-]. split_and!; try done.
    - apply all_digits_app. split; [done|apply all_digits_zeros].
    - destruct (digits p) as [|c d]; [done|]. apply no_lead_cons in Hl. by apply no_lead_cons.
    - exists 0%nat, (Z.to_nat (point p - zlen (digits p))). rewrite string_app_nil_r.
      split_and!; try done; auto. intros _. rewrite zlen_app, zlen_repeat. lia. }
  intros [= <- <-].
  destruct (split_digits all_digits (Z.to_nat (point p)) (digits p) all_digits_app Hd).
  assert (Hlen : String.length (string_take (Z.to_nat (point p)) (digits p)) = Z.to_nat (point p)).
  { apply string_take_length. unfold zlen in *. lia. }
  split_and!; auto using no_lead_take.
  - assert (Hnd : string_drop (Z.to_nat (point p)) (digits p) <> EmptyString).
    { intros H'. apply (f_equal String.length) in H'. rewrite string_drop_length in H'.
      simpl in H'. unfold zlen in *. lia. }
    rewrite <- (string_take_drop (Z.to_nat (point p)) (digits p)) in Ht.
    by apply no_trail_app_r in Ht.
  - exists 0%nat, 0%nat. rewrite string_take_drop, string_app_nil_r. split_and!; try done; auto.
    intros _. unfold zlen. rewrite Hlen. lia.
Qed.

(** The literal a plain expansion is printed as. *)
Definition plain (n : bool) (i f : string) : Literal :=
  {| l_sign := if n then Minus else NoSign; l_int := int_display i;
     l_frac := if is_empty_str f then None else Some f; l_exp := None |}.

Lemma plain_text n i f :
  literal_text (plain n i f)
  = (if is_empty_str f then sign_str n +:+ int_display i
     else sign_str n +:+ int_display i +:+ "." +:+ f).
Proof.
  unfold literal_text, plain, frac_text, exp_text. simpl.
  destruct n, (is_empty_str f); simpl; by rewrite ?string_app_nil_r.
Qed.

Lemma plain_frac n i f : frac_digits (plain n i f) = f.
Proof. unfold frac_digits. by destruct f. Qed.

Lemma int_display_digits i : all_digits i -> all_digits (int_display i).
Proof. by destruct i. Qed.

Lemma plain_wf n i f : all_digits i -> all_digits f -> wf_literal (plain n i f).
Proof.
  intros Hi Hf. unfold wf_literal. rewrite plain_frac. split_and!; [by apply int_display_digits|done|by destruct i|done].
Qed.

Lemma plain_sign n i f : is_minus (plain n i f).(l_sign) = n.
Proof. by destruct n. Qed.

(** A zero in front of an empty integer part changes nothing. *)
Lemma norm_display n i f e : norm n (int_display i) f e = norm n i f e.
Proof.
  destruct i as [|c i]; [|done]. unfold norm, int_display. simpl. destruct (is_empty_str _); [done|].
  f_equal. autorewrite with zlen. lia.
Qed.

Lemma parse_plain n i f : all_digits i -> all_digits f ->
  parse_number (literal_text (plain n i f)) = Some (norm n i f 0).
Proof.
  intros Hi Hf. rewrite (parse_literal _ (plain_wf n i f Hi Hf)), plain_sign, plain_frac.
  change (exp_value (plain n i f)) with 0. f_equal. apply norm_display.
Qed.

Lemma norm_expand p i f : wf_parsed p -> expand p = (i, f) -> norm p.(neg) i f 0 = p.
Proof.
  intros Hp He. pose proof (expand_spec p i f Hp He) as (_ & _ & _ & _ & k & j & Hif & Hpt & _ & _ & Hz0).
  destruct Hp as (Hd & Hl & Ht & Hz). destruct p as [n d e]. simpl in *.
  destruct (decide (d = EmptyString)) as [->|Hne].
  - destruct (Hz eq_refl) as [-> ->]. destruct (Hz0 eq_refl) as [-> ->]. done.
  - rewrite (norm_trimmed n i f 0 k d j Hif Hl Ht Hne). f_equal. rewrite Z.add_0_r. auto.
Qed.

Lemma print_nonneg_dec z : 0 <= z ->
  all_digits (print_nonneg z) /\ print_nonneg z <> EmptyString /\ dec (print_nonneg z) = z.
Proof.
  intros Hz. assert (E : print_Z z = print_nonneg z).
  { unfold print_Z. by destruct (Z.ltb_spec z 0); [lia|]. }
  pose proof (print_Z_parse z Hz) as Hp. pose proof (print_Z_digits z Hz) as Hd. rewrite E in *.
  assert (Hne : print_nonneg z <> EmptyString) by by intros H; rewrite H in Hp.
  split_and!; [done..|]. unfold parse_digits in Hp. destruct (print_nonneg z) eqn:En; [done|].
  rewrite (digits_val_dec 0 _ Hd), Z.mul_0_l, Z.add_0_l in Hp. congruence.
Qed.

Lemma print_Z_text z :
  print_Z z = sign_text (if z <? 0 then Minus else NoSign) +:+ print_nonneg (Z.abs z).
Proof.
  unfold print_Z. destruct (Z.ltb_spec z 0).
  - simpl. by rewrite Z.abs_neq by lia.
  - simpl. by rewrite Z.abs_eq by lia.
Qed.

Lemma print_Z_inj_all a b : print_Z a = print_Z b -> a = b.
Proof.
  rewrite !print_Z_text. intros H.
  destruct (print_nonneg_dec (Z.abs a) ltac:(lia)) as (Da & Na & Va).
  destruct (print_nonneg_dec (Z.abs b) ltac:(lia)) as (Db & Nb & Vb).
  assert (T : forall s ds, all_digits ds -> ds <> EmptyString -> take_sign (sign_text s +:+ ds) = (is_minus s, ds)).
  { intros. by apply take_sign_text; apply all_digits_no_sign. }
  apply (f_equal take_sign) in H. rewrite !T in H by done. injection H as Hs Hd. rewrite Hd in Va.
  destruct (Z.ltb_spec a 0), (Z.ltb_spec b 0); try done; lia.
Qed.

(** Scientific notation: one digit, the others as a fraction, the exponent. *)
Definition lead (p : ParsedNumber) : string := string_take 1 p.(digits).
Definition rest (p : ParsedNumber) : string := string_drop 1 p.(digits).

Lemma canonical_text_plain p i f : expandable p = true -> expand p = (i, f) ->
  canonical_text p = literal_text (plain p.(neg) i f).
Proof. intros Hx He. unfold canonical_text. rewrite Hx, He. simpl. by rewrite plain_text. Qed.

Lemma canonical_text_sci p : expandable p = false ->
  canonical_text p = literal_text (plain p.(neg) (lead p) (rest p)) +:+ "E" +:+ print_Z (p.(point) - 1).
Proof.
  intros Hx. unfold canonical_text. rewrite Hx. simpl negb. cbv iota zeta.
  rewrite plain_text. unfold lead, rest.
  assert (int_display (string_take 1 (digits p)) = string_take 1 (digits p)) as ->.
  { unfold expandable, is_zero in Hx. destruct (digits p); [done|]. by destruct s. }
  destruct (is_empty_str (string_drop 1 (digits p))); by rewrite ?string_app_assoc.
Qed.

Lemma sci_digits p : wf_parsed p -> all_digits (lead p) /\ all_digits (rest p).
Proof. intros (Hd & _). by apply split_digits; [apply all_digits_app|]. Qed.

Lemma not_expandable_ne p : expandable p = false -> p.(digits) <> EmptyString.
Proof. unfold expandable, is_zero. intros H E. by rewrite E in H. Qed.

Lemma norm_sci p e : wf_parsed p -> p.(digits) <> EmptyString ->
  norm p.(neg) (lead p) (rest p) e = {| neg := p.(neg); digits := p.(digits); point := 1 + e |}.
Proof.
  intros (Hd & Hl & Ht & _) Hne.
  rewrite (norm_trimmed _ _ _ _ 0 p.(digits) 0); try done.
  - f_equal. unfold lead. destruct (digits p) as [|c d]; [done|]. by destruct d.
  - unfold lead, rest. by rewrite string_take_drop, string_app_nil_r.
Qed.

Lemma plain_no_e n i f : all_digits i -> all_digits f ->
  string_forallb (fun x => negb (is_e x)) (literal_text (plain n i f)) = true.
Proof.
  intros Hi Hf. assert (D : forall t, all_digits t -> string_forallb (fun x => negb (is_e x)) t = true).
  { intros t. apply digits_forall. intros c Hc. by destruct (digit_not c Hc) as (_ & -> & _). }
  rewrite plain_text. destruct (is_empty_str f);
    rewrite !string_forallb_app, (D _ (int_display_digits i Hi)), ?(D f Hf); by destruct n.
Qed.

(** Two numbers with the same canonical text are the same. *)
Lemma canonical_text_inj p q : wf_parsed p -> wf_parsed q ->
  canonical_text p = canonical_text q -> p = q.
Proof.
  intros Hp Hq H.
  assert (X : forall r, wf_parsed r -> expandable r = true ->
    split_once_at is_e (canonical_text r) = None /\ parse_number (canonical_text r) = Some r).
  { intros r Hr Hx. destruct (expand r) as [i f] eqn:E.
    destruct (expand_spec r i f Hr E) as (Di & Df & _). rewrite (canonical_text_plain r i f Hx E). split.
    - apply split_once_at_None. by apply plain_no_e.
    - rewrite parse_plain by done. f_equal. by apply norm_expand. }
  assert (Y : forall r, wf_parsed r -> expandable r = false ->
    split_once_at is_e (canonical_text r)
    = Some (literal_text (plain r.(neg) (lead r) (rest r)), print_Z (r.(point) - 1))).
  { intros r Hr Hx. rewrite (canonical_text_sci r Hx). apply split_once_at_app; [|done].
    destruct (sci_digits r Hr). by apply plain_no_e. }
  destruct (expandable p) eqn:Ep, (expandable q) eqn:Eq.
  - destruct (X p Hp Ep) as [_ Pp], (X q Hq Eq) as [_ Pq]. rewrite H in Pp. congruence.
  - destruct (X p Hp Ep) as [Pp _]. pose proof (Y q Hq Eq). congruence.
  - destruct (X q Hq Eq) as [Pq _]. pose proof (Y p Hp Ep). congruence.
  - pose proof (Y p Hp Ep) as P1. pose proof (Y q Hq Eq) as P2. rewrite H in P1. rewrite P1 in P2.
    injection P2 as Pm Pe. apply print_Z_inj_all in Pe. apply (f_equal parse_number) in Pm.
    destruct (sci_digits p Hp), (sci_digits q Hq). rewrite !parse_plain in Pm by done.
    rewrite !norm_sci in Pm by auto using not_expandable_ne.
    destruct p as [n d e], q as [n' d' e']. simpl in *. injection Pm as -> ->. f_equal. lia.
Qed.

(** Canonical texts are read back, unless the exponent itself leaves [i64]. *)
Lemma canonical_text_parse p : wf_parsed p -> Z.abs (p.(point) - 1) <= i64_max ->
  parse_number (canonical_text p) = Some p.
Proof.
  intros Hp Hb. destruct (expandable p) eqn:Hx.
  - destruct (expand p) as [i f] eqn:E. destruct (expand_spec p i f Hp E) as (Di & Df & _).
    rewrite (canonical_text_plain p i f Hx E), parse_plain by done. f_equal. by apply norm_expand.
  - pose proof (not_expandable_ne p Hx) as Hne. destruct (sci_digits p Hp) as [Dl Dr].
    set (z := point p - 1) in *.
    destruct (print_nonneg_dec (Z.abs z) ltac:(lia)) as (Dz & Nz & Vz).
    set (g := if z <? 0 then Minus else NoSign).
    pose (l := {| l_sign := l_sign (plain p.(neg) (lead p) (rest p)); l_int := int_display (lead p);
                  l_frac := if is_empty_str (rest p) then None else Some (rest p);
                  l_exp := Some ("E"%char, g, print_nonneg (Z.abs z)) |}).
    assert (Hf : frac_digits l = rest p) by (unfold l, frac_digits; simpl; by destruct (rest p)).
    assert (Hwf : wf_literal l).
    { unfold wf_literal. rewrite Hf. split_and!; [by apply int_display_digits|done|by destruct (lead p)|done]. }
    assert (Ht : canonical_text p = literal_text l).
    { rewrite (canonical_text_sci p Hx), print_Z_text. unfold literal_text, frac_text, exp_text, plain, l.
      simpl. fold z. rewrite string_app_nil_r. by rewrite !string_app_assoc. }
    rewrite Ht, (parse_literal l Hwf), Hf. f_equal.
    assert (exp_value l = z) as ->.
    { unfold exp_value, l. simpl. rewrite Vz. unfold g. destruct (Z.ltb_spec z 0); simpl; lia. }
    change (l_int l) with (int_display (lead p)). change (l_sign l) with (l_sign (plain (neg p) (lead p) (rest p))).
    rewrite plain_sign, norm_display, norm_sci by done. destruct p as [n d e]. simpl in *. f_equal. lia.
Qed.

(** ** Schoolbook arithmetic *)

(** The value of digits listed from the least significant. *)
Fixpoint lev (l : list Z) : Z :=
  match l with [] => 0 | x :: l' => x + 10 * lev l' end.

Definition digit_list (l : list Z) : Prop := Forall (fun x => 0 <= x <= 9) l.

Lemma lev_unfold l : lev l = default 0 (head l) + 10 * lev (tail l).
Proof. by destruct l. Qed.

Lemma lev_app a b : lev (a ++ b) = lev a + 10 ^ Z.of_nat (length a) * lev b.
Proof.
  induction a as [|x a IH]; [simpl; lia|]. simpl lev. rewrite IH.
  change (length (x :: a)) with (S (length a)). rewrite Nat2Z.inj_succ, Z.pow_succ_r by lia. ring.
Qed.

Lemma lev_bounds l : digit_list l -> 0 <= lev l < 10 ^ Z.of_nat (length l).
Proof.
  induction 1 as [|x l Hx Hl IH]; [done|]. simpl lev.
  change (length (x :: l)) with (S (length l)). rewrite Nat2Z.inj_succ, Z.pow_succ_r by lia. lia.
Qed.

Lemma digit_list_tail l : digit_list l -> digit_list (tail l).
Proof. destruct 1; [apply Forall_nil_2|done]. Qed.

Lemma digit_list_head l : digit_list l -> 0 <= default 0 (head l) <= 9.
Proof. destruct 1; simpl; lia. Qed.

Lemma rev_digits_cons c s : rev_digits (String c s) = (rev_digits s ++ [digit_of c])%list.
Proof. unfold rev_digits. simpl. by rewrite reverse_cons. Qed.

Lemma rev_digits_spec s : all_digits s ->
  digit_list (rev_digits s) /\ lev (rev_digits s) = dec s /\ Z.of_nat (length (rev_digits s)) = zlen s.
Proof.
  induction s as [|c s IH]; [intros _; split_and!; [apply Forall_nil_2|done..]|].
  rewrite all_digits_cons. intros [Hc Hs]. destruct (IH Hs) as (Hd & Hv & Hl).
  rewrite rev_digits_cons. split_and!.
  - apply Forall_app_2; [done|]. apply Forall_singleton. by apply digit_of_bounds.
  - rewrite lev_app, Hv, Hl. simpl. ring.
  - rewrite length_app, zlen_cons. simpl. lia.
Qed.

Lemma digit_char_digit x : 0 <= x <= 9 ->
  is_ascii_digit (digit_char x) = true /\ digit_of (digit_char x) = x.
Proof.
  intros Hx. assert (x = 0 \/ x = 1 \/ x = 2 \/ x = 3 \/ x = 4 \/ x = 5 \/ x = 6 \/ x = 7
    \/ x = 8 \/ x = 9) as H by lia. by repeat destruct H as [->|H]; subst.
Qed.

Lemma string_of_list_app a b :
  String.string_of_list_ascii (a ++ b)
  = String.string_of_list_ascii a +:+ String.string_of_list_ascii b.
Proof. induction a as [|c a IH]; simpl; [done|by rewrite IH]. Qed.

Lemma text_of_rev_cons x l : text_of_rev (x :: l) = text_of_rev l +:+ String (digit_char x) EmptyString.
Proof. unfold text_of_rev. by rewrite reverse_cons, fmap_app, string_of_list_app. Qed.

Lemma text_of_rev_spec l : digit_list l ->
  all_digits (text_of_rev l) /\ dec (text_of_rev l) = lev l.
Proof.
  induction 1 as [|x l Hx Hl [IHd IHv]]; [done|]. rewrite text_of_rev_cons.
  destruct (digit_char_digit x Hx) as [Hd Hv]. split.
  - apply all_digits_app. split; [done|]. by apply all_digits_cons.
  - rewrite dec_app, IHv. cbn [dec lev]. rewrite Hv. autorewrite with zlen. change (10 ^ 0) with 1. lia.
Qed.

Lemma add_loop_spec n a b c :
  digit_list a -> digit_list b -> 0 <= c <= 1 -> (length a <= n)%nat -> (length b <= n)%nat ->
  digit_list (add_loop n a b c) /\ lev (add_loop n a b c) = lev a + lev b + c.
Proof.
  revert a b c. induction n as [|n IH]; intros a b c Ha Hb Hc La Lb.
  - destruct a, b; simpl in *; try lia. destruct (Z.ltb_spec 0 c); simpl; (split; [|lia]).
    + apply Forall_singleton. lia.
    + apply Forall_nil_2.
  - cbn [add_loop]. pose proof (digit_list_head a Ha). pose proof (digit_list_head b Hb).
    set (x := default 0 (head a) + default 0 (head b) + c) in *.
    assert (Hx : 0 <= x / 10 <= 1) by (split; [apply Z.div_pos; lia|]; apply Z.lt_succ_r, Z.div_lt_upper_bound; lia).
    destruct (IH (tail a) (tail b) (x / 10)) as [Hd Hv]; auto using digit_list_tail.
    { destruct a; simpl in *; lia. }
    { destruct b; simpl in *; lia. }
    split.
    + apply Forall_cons. split; [|done]. pose proof (Z.mod_pos_bound x 10). lia.
    + cbn [lev]. rewrite Hv, (lev_unfold a), (lev_unfold b). pose proof (Z.div_mod x 10). lia.
Qed.

Lemma add_digit_strings_spec a b : all_digits a -> all_digits b ->
  all_digits (add_digit_strings a b) /\ dec (add_digit_strings a b) = dec a + dec b.
Proof.
  intros Ha Hb. destruct (rev_digits_spec a Ha) as (Da & Va & _).
  destruct (rev_digits_spec b Hb) as (Db & Vb & _).
  destruct (add_loop_spec (Nat.max (length (rev_digits a)) (length (rev_digits b)))
    (rev_digits a) (rev_digits b) 0) as [Hd Hv]; [done|done|lia..|].
  unfold add_digit_strings. destruct (text_of_rev_spec _ Hd) as [Hd' Hv']. rewrite Hv'. split; [done|lia].
Qed.

Lemma sub_loop_spec a b w :
  digit_list a -> digit_list b -> 0 <= w <= 1 -> (length b <= length a)%nat ->
  digit_list (sub_loop a b w) /\ length (sub_loop a b w) = length a
  /\ exists k, 0 <= k <= 1
     /\ lev (sub_loop a b w) = lev a - lev b - w + k * 10 ^ Z.of_nat (length a).
Proof.
  revert b w. induction a as [|x a IH]; intros b w Ha Hb Hw Hl.
  - destruct b; simpl in *; [|lia]. split_and!; [apply Forall_nil_2|done|]. exists w. lia.
  - apply Forall_cons in Ha as [Hx Ha]. pose proof (digit_list_head b Hb).
    assert (Hlt : (length (tail b) <= length a)%nat) by (destruct b; simpl in *; lia).
    cbn [sub_loop]. set (y := x - w - default 0 (head b)) in *.
    change (length (x :: a)) with (S (length a)). rewrite Nat2Z.inj_succ, Z.pow_succ_r by lia.
    destruct (Z.ltb_spec y 0).
    + destruct (IH (tail b) 1 Ha (digit_list_tail _ Hb) ltac:(lia) Hlt) as (Hd & HL & k & Hk & Hv).
      split_and!; [apply Forall_cons; split; [lia|done]|simpl; congruence|].
      exists k. split; [done|]. cbn [lev]. rewrite Hv, (lev_unfold b). lia.
    + destruct (IH (tail b) 0 Ha (digit_list_tail _ Hb) ltac:(lia) Hlt) as (Hd & HL & k & Hk & Hv).
      split_and!; [apply Forall_cons; split; [lia|done]|simpl; congruence|].
      exists k. split; [done|]. cbn [lev]. rewrite Hv, (lev_unfold b). lia.
Qed.

Lemma drop_leading_zeros_spec l : digit_list l ->
  digit_list (drop_leading_zeros l) /\ lev (reverse (drop_leading_zeros l)) = lev (reverse l).
Proof.
  induction 1 as [|x l Hx Hl [IHd IHv]]; [split; [apply Forall_nil_2|done]|].
  simpl. destruct l as [|y l']; [split; [by apply Forall_singleton|done]|].
  destruct (Z.eqb_spec x 0) as [->|Hne]; [|split; [by apply Forall_cons|done]].
  split; [done|]. rewrite IHv, (reverse_cons (y :: l')), lev_app. simpl. lia.
Qed.

Lemma sub_digit_strings_spec a b : all_digits a -> all_digits b ->
  dec b <= dec a -> zlen b <= zlen a ->
  all_digits (sub_digit_strings a b) /\ dec (sub_digit_strings a b) = dec a - dec b.
Proof.
  intros Ha Hb Hle Hlen. destruct (rev_digits_spec a Ha) as (Da & Va & La).
  destruct (rev_digits_spec b Hb) as (Db & Vb & Lb).
  destruct (sub_loop_spec (rev_digits a) (rev_digits b) 0) as (Hd & HL & k & Hk & Hv); [done|done|lia..|].
  set (r := sub_loop (rev_digits a) (rev_digits b) 0) in *.
  pose proof (lev_bounds r Hd) as Hr. rewrite HL in Hr.
  assert (k = 0) as -> by (pose proof (pow10_pos (Z.of_nat (length (rev_digits a))) ltac:(lia)); nia).
  assert (Hrev : digit_list (reverse r)) by by apply Forall_reverse.
  destruct (drop_leading_zeros_spec (reverse r) Hrev) as [Hd2 Hv2].
  unfold sub_digit_strings. fold r.
  destruct (text_of_rev_spec (reverse (drop_leading_zeros (reverse r)))) as [Hd3 Hv3];
    [by apply Forall_reverse|].
  split; [done|]. rewrite Hv3, Hv2, reverse_involutive, Hv. lia.
Qed.

(** ** Magnitudes with a decimal point *)

(** [i.f] scaled to an integer with [L] fraction digits. *)
Definition scaled (L : nat) (i f : string) : Z := dec (i +:+ pad_frac f L).

Lemma pad_frac_digits f L : all_digits f -> all_digits (pad_frac f L).
Proof. intros. unfold pad_frac. apply all_digits_app. split; [done|apply all_digits_zeros]. Qed.

Lemma zlen_pad f L : (String.length f <= L)%nat -> zlen (pad_frac f L) = Z.of_nat L.
Proof. intros. unfold pad_frac. autorewrite with zlen. unfold zlen. lia. Qed.

Lemma scaled_spec L i f : (String.length f <= L)%nat ->
  scaled L i f = dec i * 10 ^ Z.of_nat L + dec f * 10 ^ (Z.of_nat L - zlen f).
Proof.
  intros H. unfold scaled. rewrite dec_app, zlen_pad by done. unfold pad_frac.
  rewrite dec_app, dec_zeros, zlen_repeat, Z.add_0_r. do 3 f_equal. unfold zlen. lia.
Qed.

(** The rational of a scaled magnitude. *)
Lemma scaled_value L i f : (String.length f <= L)%nat ->
  (inject_Z (dec (i +:+ f)) * p10 (- zlen f) == inject_Z (scaled L i f) * p10 (- Z.of_nat L))%Q.
Proof.
  intros H. rewrite (rescale _ (- zlen f) (- Z.of_nat L)) by (unfold zlen; lia).
  rewrite scaled_spec, dec_app by done.
  replace ((dec i * 10 ^ zlen f + dec f) * 10 ^ (- zlen f - - Z.of_nat L))
    with (dec i * 10 ^ Z.of_nat L + dec f * 10 ^ (Z.of_nat L - zlen f)); [reflexivity|].
  replace (- zlen f - - Z.of_nat L) with (Z.of_nat L - zlen f) by lia.
  replace (Z.of_nat L) with (zlen f + (Z.of_nat L - zlen f)) at 1 by lia.
  rewrite pow10_split by (unfold zlen; lia). ring.
Qed.

Lemma frac_scaled_bounds L f : all_digits f -> (String.length f <= L)%nat ->
  0 <= dec f * 10 ^ (Z.of_nat L - zlen f) < 10 ^ Z.of_nat L.
Proof.
  intros Hf HL. pose proof (dec_bounds f Hf) as [H0 H1].
  assert (10 ^ Z.of_nat L = 10 ^ zlen f * 10 ^ (Z.of_nat L - zlen f)) as ->.
  { rewrite <- pow10_split by (unfold zlen; lia). f_equal. lia. }
  pose proof (pow10_pos (Z.of_nat L - zlen f) ltac:(unfold zlen; lia)). nia.
Qed.

(** Wider integer parts without leading zeros are larger. *)
Lemma int_width_lt i i' : all_digits i -> all_digits i' -> no_lead i' ->
  (String.length i < String.length i')%nat -> dec i + 1 <= dec i'.
Proof.
  intros Hi Hi' Hl' Hlt. destruct i' as [|c d]; [simpl in *; lia|].
  apply no_lead_cons in Hl'. pose proof (dec_lead c d Hi' Hl').
  pose proof (dec_bounds i Hi). assert (10 ^ zlen i <= 10 ^ zlen d); [|lia].
  apply Z.pow_le_mono_r; [lia|]. simpl in Hlt. unfold zlen. lia.
Qed.

Definition wf_mag (m : string * string) : Prop :=
  all_digits m.1 /\ all_digits m.2 /\ no_lead m.1 /\ no_trail m.2.

Lemma frac_cmp f f' : all_digits f -> all_digits f' -> no_trail f -> no_trail f' ->
  forall L, (String.length f <= L)%nat -> (String.length f' <= L)%nat ->
  str_cmp f f' = (dec f * 10 ^ (Z.of_nat L - zlen f) ?= dec f' * 10 ^ (Z.of_nat L - zlen f')).
Proof.
  intros Hf Hf' Ht Ht' L HL HL'. rewrite (str_cmp_frac f f' Hf Hf' Ht Ht').
  assert (C : forall a b c : Z, 0 < c -> (a ?= b) = (a * c ?= b * c)).
  { intros. by rewrite <- Zmult_compare_compat_r by lia. }
  pose proof (pow10_pos (Z.of_nat L) ltac:(lia)) as PL.
  pose proof (pow10_pos (zlen f + zlen f') ltac:(unfold zlen; lia)) as Pf.
  rewrite (C _ _ _ PL), (C (dec f * 10 ^ (_ - _)) _ _ Pf).
  assert (E : forall x y : string, (String.length x <= L)%nat ->
    10 ^ zlen y * 10 ^ Z.of_nat L = 10 ^ (Z.of_nat L - zlen x) * 10 ^ (zlen x + zlen y)).
  { intros x y Hx. rewrite <- !pow10_split by (unfold zlen; lia). f_equal. lia. }
  rewrite <- !Z.mul_assoc, (E f f' HL), (E f' f HL'), (Z.add_comm (zlen f') (zlen f)). done.
Qed.

Lemma compare_magnitude_spec m m' L : wf_mag m -> wf_mag m' ->
  (String.length m.2 <= L)%nat -> (String.length m'.2 <= L)%nat ->
  compare_magnitude m m' = (scaled L m.1 m.2 ?= scaled L m'.1 m'.2).
Proof.
  destruct m as [i f], m' as [i' f']. intros (Hi & Hf & Hl & Ht) (Hi' & Hf' & Hl' & Ht') HL HL'.
  simpl in *. unfold compare_magnitude. simpl. rewrite !scaled_spec by done.
  pose proof (frac_scaled_bounds L f Hf HL) as Bf. pose proof (frac_scaled_bounds L f' Hf' HL') as Bf'.
  pose proof (pow10_pos (Z.of_nat L) ltac:(lia)) as PL.
  set (P := 10 ^ Z.of_nat L) in *.
  destruct (Nat.compare_spec (String.length i) (String.length i')) as [E|Hlt|Hlt]; cbn [then_cmp].
  - rewrite (str_cmp_int i i' Hi Hi' E), (frac_cmp f f' Hf Hf' Ht Ht' L HL HL').
    destruct (Z.compare_spec (dec i) (dec i')) as [->|H|H]; cbn [then_cmp]; symmetry.
    + by rewrite Zcompare_plus_compat.
    + apply Z.compare_lt_iff. assert (dec i + 1 <= dec i') by lia. nia.
    + apply Z.compare_gt_iff. assert (dec i' + 1 <= dec i) by lia. nia.
  - symmetry. apply Z.compare_lt_iff. pose proof (int_width_lt i i' Hi Hi' Hl' Hlt). nia.
  - symmetry. apply Z.compare_gt_iff. pose proof (int_width_lt i' i Hi' Hi Hl Hlt). nia.
Qed.

Lemma split_at_frac_spec ds L i f : split_at_frac ds L = (i, f) -> all_digits ds ->
  all_digits i /\ all_digits f /\ String.length f = L /\ dec (i +:+ f) = dec ds.
Proof.
  unfold split_at_frac. destruct (Nat.leb_spec (String.length ds) L); intros [= <- <-] Hd.
  - split_and!.
    + done.
    + apply all_digits_app. split; [apply all_digits_zeros|done].
    + rewrite string_length_app, repeat_char_length. lia.
    + simpl. by rewrite dec_app, dec_zeros.
  - destruct (split_digits all_digits (String.length ds - L) ds all_digits_app Hd).
    split_and!; [done..| |by rewrite string_take_drop]. rewrite string_drop_length. lia.
Qed.

Lemma trimmed_pos i f : wf_mag (i, f) -> is_empty_str i && is_empty_str f = false -> 0 < dec (i +:+ f).
Proof.
  intros (Hi & Hf & Hl & Ht) H. simpl in *. rewrite dec_app. pose proof (dec_bounds f Hf).
  destruct i as [|c i].
  - destruct f; [done|]. simpl dec at 1. pose proof (dec_pos_trail _ Hf Ht ltac:(done)). lia.
  - apply no_lead_cons in Hl. pose proof (dec_lead c i Hi Hl).
    pose proof (pow10_pos (zlen i) (zlen_nonneg i)). pose proof (pow10_pos (zlen f) (zlen_nonneg f)). nia.
Qed.

(** The sign of a trimmed magnitude survives, except on zero. *)
Lemma norm_neg n i f e : wf_mag (i, f) ->
  (norm n i f e).(neg) = n && negb (is_empty_str i && is_empty_str f).
Proof.
  intros Hm. destruct (is_empty_str i && is_empty_str f) eqn:E.
  - apply andb_true_iff in E as [E1 E2]. apply is_empty_str_spec in E1, E2. subst. by rewrite andb_false_r.
  - pose proof (trimmed_pos i f Hm E) as Hpos. rewrite andb_true_r. unfold norm. cbv zeta.
    destruct (is_empty_str (trim_end_matches "0" (trim_start_matches "0" (i +:+ f)))) eqn:E'; [|done].
    apply is_empty_str_spec in E'. exfalso.
    destruct (trim_end_matches_app "0" (trim_start_matches "0" (i +:+ f))) as [j Ej].
    destruct (trim_start_matches_app "0" (i +:+ f)) as [k Ek].
    rewrite E' in Ej. rewrite Ek, Ej, dec_app in Hpos. simpl in Hpos. rewrite !dec_zeros in Hpos. lia.
Qed.

(** A formatted result parses to the value it was formatted from. *)
Lemma format_decimal_spec n i f : all_digits i -> all_digits f ->
  exists t, parse_number (format_decimal n i f) = Some t
    /\ (qval t == inject_Z (sgn n * dec (i +:+ f)) * p10 (- zlen f))%Q
    /\ format_decimal n i f
       = literal_text (plain t.(neg) (trim_start_matches "0" i) (trim_end_matches "0" f)).
Proof.
  intros Hi Hf. set (i' := trim_start_matches "0" i). set (f' := trim_end_matches "0" f).
  set (z := is_empty_str i' && is_empty_str f').
  assert (E : format_decimal n i f = literal_text (plain (n && negb z) i' f')).
  { rewrite plain_text. unfold format_decimal. fold i' f' z. done. }
  assert (Di : all_digits i') by by apply trim_start_digits.
  assert (Df : all_digits f') by by apply trim_end_digits.
  exists (norm (n && negb z) i' f' 0). rewrite E. split_and!; [by apply parse_plain| |].
  2:{ assert (Hm : wf_mag (i', f')).
      { split_and!; simpl; auto; [apply trim_start_no_lead|apply trim_end_no_trail]. }
      rewrite (norm_neg _ _ _ _ Hm). fold z. by destruct n, z. }
  rewrite norm_value by done.
  destruct (trim_start_matches_app "0" i) as [k Ek]. destruct (trim_end_matches_app "0" f) as [j Ej].
  fold i' in Ek. fold f' in Ej.
  assert (V : dec (i +:+ f) = dec (i' +:+ f') * 10 ^ Z.of_nat j).
  { rewrite Ek, Ej, !dec_app, !dec_zeros, zlen_app, zlen_repeat, pow10_split by (unfold zlen; lia). ring. }
  assert (Z0 : z = true -> dec (i' +:+ f') = 0).
  { unfold z. rewrite andb_true_iff, !is_empty_str_spec. by intros [-> ->]. }
  assert (S0 : sgn (n && negb z) * dec (i' +:+ f') = sgn n * dec (i' +:+ f')).
  { destruct z; [by rewrite Z0, !Z.mul_0_r|by rewrite andb_true_r]. }
  rewrite S0, V. replace (0 - zlen f') with (Z.of_nat j + - zlen f) by (rewrite Ej; autorewrite with zlen; lia).
  rewrite p10_plus, p10_Z by lia. rewrite !inject_Z_mult. ring.
Qed.

(** ** Addition on normalized decimals *)

Lemma mag_scaled p i f L : wf_parsed p -> expand p = (i, f) -> (String.length f <= L)%nat ->
  (mag p == inject_Z (scaled L i f) * p10 (- Z.of_nat L))%Q.
Proof.
  intros Hp He HL. destruct (expand_spec p i f Hp He) as (Hi & Hf & _).
  rewrite <- scaled_value by done.
  pose proof (norm_value false i f 0 Hi Hf) as V.
  assert (M : norm false i f 0 = {| neg := false; digits := p.(digits); point := p.(point) |}).
  { pose proof (norm_expand p i f Hp He) as N. revert N. unfold norm.
    destruct (is_empty_str _); intros <-; simpl; done. }
  rewrite M in V. unfold qval in V. simpl in V. rewrite !Z.mul_1_l in V.
  unfold mag. destruct (dec (digits p)) eqn:E; exact V.
Qed.

Lemma expand_wf_mag p i f : wf_parsed p -> expand p = (i, f) -> wf_mag (i, f).
Proof. intros Hp He. by destruct (expand_spec p i f Hp He) as (? & ? & ? & ? & _). Qed.

Lemma signed_add p q i f i' f' L : wf_parsed p -> wf_parsed q ->
  expand p = (i, f) -> expand q = (i', f') ->
  (String.length f <= L)%nat -> (String.length f' <= L)%nat -> forall s s' : Z,
  (inject_Z s * mag p + inject_Z s' * mag q
   == inject_Z (s * scaled L i f + s' * scaled L i' f') * p10 (- Z.of_nat L))%Q.
Proof.
  intros Hp Hq He He' HL HL' s s'.
  rewrite (mag_scaled p i f L), (mag_scaled q i' f' L), inject_Z_plus, !inject_Z_mult by done. ring.
Qed.

Lemma add_magnitude_spec i f i' f' ri rf : wf_mag (i, f) -> wf_mag (i', f') ->
  add_magnitude i f i' f' = (ri, rf) ->
  let L := Nat.max (String.length f) (String.length f') in
  all_digits ri /\ all_digits rf /\ String.length rf = L
  /\ dec (ri +:+ rf) = scaled L i f + scaled L i' f'.
Proof.
  intros (Hi & Hf & _) (Hi' & Hf' & _) H L. simpl in *. unfold add_magnitude in H. fold L in H.
  destruct (add_digit_strings_spec (i +:+ pad_frac f L) (i' +:+ pad_frac f' L)) as [D V];
    [by apply all_digits_app; split; [|apply pad_frac_digits]..|].
  destruct (split_at_frac_spec _ _ _ _ H D) as (? & ? & ? & E). split_and!; [done..|].
  by rewrite E, V.
Qed.

Lemma sub_magnitude_spec i f i' f' ri rf : wf_mag (i, f) -> wf_mag (i', f') ->
  compare_magnitude (i, f) (i', f') = Gt ->
  sub_magnitude i f i' f' = (ri, rf) ->
  let L := Nat.max (String.length f) (String.length f') in
  all_digits ri /\ all_digits rf /\ String.length rf = L
  /\ dec (ri +:+ rf) = scaled L i f - scaled L i' f'.
Proof.
  intros Hm Hm' Hc H L. pose proof Hm as (Hi & Hf & _). pose proof Hm' as (Hi' & Hf' & _).
  simpl in *. unfold sub_magnitude in H. fold L in H.
  assert (Hgt : scaled L i' f' < scaled L i f).
  { rewrite (compare_magnitude_spec _ _ L) in Hc by (simpl; done || lia).
    by apply Z.compare_gt_iff in Hc. }
  assert (Hlen : (String.length i' <= String.length i)%nat).
  { unfold compare_magnitude in Hc. simpl in Hc.
    destruct (Nat.compare_spec (String.length i) (String.length i')); simpl in Hc; done || lia. }
  destruct (sub_digit_strings_spec (i +:+ pad_frac f L) (i' +:+ pad_frac f' L)) as [D V].
  - apply all_digits_app. split; [done|by apply pad_frac_digits].
  - apply all_digits_app. split; [done|by apply pad_frac_digits].
  - unfold scaled in Hgt. lia.
  - rewrite !zlen_app, !zlen_pad by lia. unfold zlen. lia.
  - destruct (split_at_frac_spec _ _ _ _ H D) as (? & ? & ? & E). split_and!; [done..|].
    by rewrite E, V.
Qed.

Lemma compare_magnitude_swap a b : compare_magnitude b a = CompOpp (compare_magnitude a b).
Proof.
  unfold compare_magnitude. rewrite Nat.compare_antisym, (str_cmp_antisym a.1), (str_cmp_antisym a.2).
  by destruct (Nat.compare _ _), (str_cmp a.1 b.1), (str_cmp a.2 b.2).
Qed.

(** The sign and magnitude computed for [p + (-1)^flip q]. *)
Lemma add_sub_value p q (is_add : bool) i f i' f' n ri rf : wf_parsed p -> wf_parsed q ->
  expand p = (i, f) -> expand q = (i', f') ->
  (let b_neg := if is_add then q.(neg) else negb q.(neg) in
   if Bool.eqb p.(neg) b_neg then (p.(neg), add_magnitude i f i' f')
   else match compare_magnitude (i, f) (i', f') with
        | Eq => (false, (EmptyString, EmptyString))
        | Gt => (p.(neg), sub_magnitude i f i' f')
        | Lt => (b_neg, sub_magnitude i' f' i f)
        end) = (n, (ri, rf)) ->
  all_digits ri /\ all_digits rf
  /\ (inject_Z (sgn n * dec (ri +:+ rf)) * p10 (- zlen rf)
      == if is_add then qval p + qval q else qval p - qval q)%Q.
Proof.
  intros Hp Hq He He' H. cbv zeta in H.
  pose proof (expand_wf_mag p i f Hp He) as Hm. pose proof (expand_wf_mag q i' f' Hq He') as Hm'.
  set (L := Nat.max (String.length f) (String.length f')).
  set (b := if is_add then neg q else negb (neg q)) in *.
  assert (R : ((if is_add then qval p + qval q else qval p - qval q)
    == inject_Z (sgn (neg p) * scaled L i f + sgn b * scaled L i' f') * p10 (- Z.of_nat L))%Q).
  { rewrite <- (signed_add p q i f i' f' L) by (done || lia).
    assert (B : (inject_Z (sgn b) * mag q == if is_add then qval q else - qval q)%Q).
    { unfold b. destruct is_add; rewrite qval_mag; [done|]. destruct (neg q); cbn [negb sgn].
      - change (inject_Z 1) with 1%Q. change (inject_Z (-1)) with (- (1))%Q. ring.
      - change (inject_Z 1) with 1%Q. change (inject_Z (-1)) with (- (1))%Q. ring. }
    rewrite B, <- qval_mag. destruct is_add; [done|]. ring. }
  destruct (Bool.eqb (neg p) b) eqn:Eb.
  - injection H as <- H. destruct (add_magnitude_spec i f i' f' ri rf Hm Hm' H) as (Di & Df & Lf & V).
    apply eqb_prop in Eb. split_and!; [done..|]. rewrite R, V. unfold zlen. rewrite Lf, Eb.
    fold L. by rewrite Z.mul_add_distr_l.
  - assert (Hsb : sgn b = - sgn (neg p)) by (destruct (neg p), b; done).
    destruct (compare_magnitude (i, f) (i', f')) eqn:Ec; injection H as <- H.
    + subst ri rf. split_and!; [done..|]. rewrite R.
      rewrite (compare_magnitude_spec _ _ L) in Ec by (simpl; done || lia).
      apply Z.compare_eq_iff in Ec. simpl in Ec. rewrite Ec, Hsb.
      replace (sgn (neg p) * scaled L i' f' + - sgn (neg p) * scaled L i' f') with 0 by lia. unfold Qeq. simpl. lia.
    + assert (Ec' : compare_magnitude (i', f') (i, f) = Gt) by by rewrite compare_magnitude_swap, Ec.
      destruct (sub_magnitude_spec i' f' i f ri rf Hm' Hm Ec' H) as (Di & Df & Lf & V).
      rewrite Nat.max_comm in Lf, V. fold L in Lf, V.
      split_and!; [done..|]. rewrite R, V. unfold zlen. rewrite Lf.
      replace (sgn (neg p) * scaled L i f + sgn b * scaled L i' f')
        with (sgn b * (scaled L i' f' - scaled L i f)) by lia. done.
    + destruct (sub_magnitude_spec i f i' f' ri rf Hm Hm' Ec H) as (Di & Df & Lf & V). fold L in Lf, V.
      split_and!; [done..|]. rewrite R, V. unfold zlen. rewrite Lf.
      replace (sgn (neg p) * scaled L i f + sgn b * scaled L i' f')
        with (sgn (neg p) * (scaled L i f - scaled L i' f')) by lia. done.
Qed.

(** ** The theorems *)

Lemma literal_norm_value l : wf_literal l ->
  (qval (norm (is_minus l.(l_sign)) l.(l_int) (frac_digits l) (exp_value l)) == literal_value l)%Q.
Proof. intros (Hi & Hf & _). by rewrite norm_value. Qed.

(** Theorem (functional): exactly the literals of the grammar are numbers, and each is read as the
    rational it denotes. *)
Theorem numbers_are_literals s p :
  parse_number s = Some p <->
  exists l, wf_literal l /\ trim s = literal_text l /\ wf_parsed p /\ (qval p == literal_value l)%Q.
Proof.
  split.
  - intros H. pose proof (parse_number_wf s p H) as Hp.
    apply parse_number_inv in H as (l & Hwf & Ht & ->). exists l. eauto using literal_norm_value.
  - intros (l & Hwf & Ht & Hp & Hv).
    assert (E : parse_number s = parse_number (literal_text l)).
    { unfold parse_number. by rewrite Ht, (trim_no_ws _ (literal_no_ws l Hwf)). }
    rewrite E, (parse_literal l Hwf). f_equal. pose proof Hwf as (Hi & Hf & _).
    apply cmp_parsed_eq; [by apply norm_wf|done|].
    rewrite cmp_parsed_spec by (done || by apply norm_wf). apply Qeq_alt. by rewrite Hv, literal_norm_value.
Qed.

(** C21 (functional): numbers are ordered by the rationals they denote, at any precision and
    exponent, although only digit strings are ever compared. *)
Theorem compare_by_value l l' : wf_literal l -> wf_literal l' ->
  compare_number_strings (literal_text l) (literal_text l')
  = (literal_value l ?= literal_value l')%Q.
Proof.
  intros Hl Hl'. pose proof Hl as (Hi & Hf & _). pose proof Hl' as (Hi' & Hf' & _).
  rewrite (compare_number_strings_parsed _ _ _ _ (parse_literal l Hl) (parse_literal l' Hl')).
  rewrite cmp_parsed_spec by by apply norm_wf. apply Qcompare_comp; by apply literal_norm_value.
Qed.

Lemma valid_parsed s : is_valid_number s = true <-> exists p, parse_number s = Some p.
Proof. unfold is_valid_number. destruct (parse_number s); split; naive_solver. Qed.

(** Theorem (equivalence): canonical texts are equal exactly for numerically equal literals. *)
Theorem canonical_iff_equal x y : is_valid_number x = true -> is_valid_number y = true ->
  canonical_number x = canonical_number y <-> compare_number_strings x y = Eq.
Proof.
  rewrite !valid_parsed. intros [p Hx] [q Hy].
  pose proof (parse_number_wf x p Hx) as Wp. pose proof (parse_number_wf y q Hy) as Wq.
  unfold canonical_number. rewrite Hx, Hy. simpl.
  rewrite (compare_number_strings_parsed x y p q Hx Hy), (cmp_parsed_eq p q Wp Wq).
  split; [|by intros ->]. intros [= E]. by apply canonical_text_inj.
Qed.

Lemma in_range_expandable s p : parse_number s = Some p -> check_number_range s = Ok tt ->
  expandable p = true.
Proof.
  intros Hs H. unfold check_number_range in H. rewrite Hs in H. cbn [mbind option_bind] in H.
  unfold scientific_exponent, expandable in *. destruct (is_zero p); [done|]. simpl.
  destruct (Z.ltb_spec MAX_SCIENTIFIC_EXPONENT (point p - 1)); [done|].
  destruct (Z.ltb_spec (point p - 1) MIN_SCIENTIFIC_EXPONENT); [done|].
  apply Z.leb_le. unfold MAX_SCIENTIFIC_EXPONENT, MIN_SCIENTIFIC_EXPONENT, MAX_EXPANDED_POINT in *. lia.
Qed.

(** Texts in plain form without superfluous zeros are their own canonical
    form. *)
Lemma plain_canonical n i f t : wf_mag (i, f) ->
  parse_number (literal_text (plain n i f)) = Some t -> expandable t = true -> t.(neg) = n ->
  canonical_text t = literal_text (plain n i f).
Proof.
  intros Hm Hp Hx Hn. pose proof (parse_number_wf _ _ Hp) as Wt.
  destruct (expand t) as [i' f'] eqn:E. rewrite (canonical_text_plain t i' f' Hx E), Hn.
  assert (C : compare_magnitude (i, f) (i', f') = Eq).
  { pose proof (expand_wf_mag t i' f' Wt E) as Hm'.
    set (L := Nat.max (String.length f) (String.length f')).
    rewrite (compare_magnitude_spec _ _ L) by (simpl; done || lia). simpl.
   
    pose proof Hm as (Hi & Hf & _). simpl in Hi, Hf.
    rewrite parse_plain in Hp by done. injection Hp as Hp.
    assert (Q1 : (mag t == inject_Z (scaled L i f) * p10 (- Z.of_nat L))%Q).
    { rewrite <- scaled_value by lia. pose proof (norm_value n i f 0 Hi Hf) as V.
      rewrite Hp, qval_mag, Hn in V. rewrite inject_Z_mult, <- Qmult_assoc in V.
      apply Qmult_inj_l in V; [|destruct n; discriminate]. by rewrite V. }
    pose proof (mag_scaled t i' f' L Wt E ltac:(lia)) as Q2. rewrite Q1 in Q2.
    rewrite <- (Qcompare_scale _ _ (- Z.of_nat L)). by apply Qeq_alt. }
  unfold compare_magnitude in C. simpl in C.
  destruct (Nat.compare _ _); try done. simpl in C.
  destruct (str_cmp i i') eqn:Ei; try done. apply str_cmp_eq in Ei, C. by subst.
Qed.

(** C22 (functional): addition and subtraction of storable numbers are exact, and a result in
    the storable range is printed in canonical form. *)
Theorem add_sub_exact x y p q is_add :
  parse_number x = Some p -> parse_number y = Some q ->
  check_number_range x = Ok tt -> check_number_range y = Ok tt ->
  exists r t, decimal_add_sub x y is_add = Some r /\ parse_number r = Some t
    /\ (qval t == if is_add then qval p + qval q else qval p - qval q)%Q
    /\ (check_number_range r = Ok tt -> canonical_number r = Some r).
Proof.
  intros Hx Hy Rx Ry. pose proof (in_range_expandable x p Hx Rx) as Xp.
  pose proof (in_range_expandable y q Hy Ry) as Xq.
  pose proof (parse_number_wf x p Hx) as Wp. pose proof (parse_number_wf y q Hy) as Wq.
  unfold decimal_add_sub, normalize_decimal. rewrite Hx, Hy. cbn [mbind option_bind].
  rewrite Xp, Xq. cbn [mbind option_bind].
  destruct (expand p) as [i f] eqn:Ep, (expand q) as [i' f'] eqn:Eq.
  destruct (if Bool.eqb (neg p) (if is_add then neg q else negb (neg q)) then _ else _)
    as [n [ri rf]] eqn:E.
  destruct (add_sub_value p q is_add i f i' f' n ri rf Wp Wq Ep Eq E) as (Di & Df & V).
  destruct (format_decimal_spec n ri rf Di Df) as (t & Ht & Vt & Htext).
  exists (format_decimal n ri rf), t. split_and!; [done..|by rewrite Vt|].
  intros Rr. unfold canonical_number. rewrite Ht. simpl. f_equal.
  pose proof (in_range_expandable _ t Ht Rr) as Xt. rewrite Htext in Ht |- *.
  apply plain_canonical; try done.
  split_and!; simpl; auto using trim_start_digits, trim_end_digits, trim_start_no_lead, trim_end_no_trail.
Qed.

(** ** Concrete instances *)

Definition lit_sample : Literal :=
  {| l_sign := Minus; l_int := "12"; l_frac := Some "50"; l_exp := Some ("e"%char, Minus, "3") |}.
Definition lit_other : Literal :=
  {| l_sign := Minus; l_int := ""; l_frac := Some "0125"; l_exp := None |}.

Lemma compare_by_value_witness :
  literal_text lit_sample = "-12.50e-3" /\ literal_text lit_other = "-.0125"
  /\ compare_number_strings "-12.50e-3" "-.0125" = Eq.
Proof.
  split_and!; [reflexivity..|]. change "-12.50e-3" with (literal_text lit_sample).
  change "-.0125" with (literal_text lit_other).
  rewrite (compare_by_value lit_sample lit_other); [reflexivity|..];
    (split_and!; [reflexivity..|discriminate|vm_compute; auto]).
  split_and!; [done..|discriminate].
Defined.

Lemma canonical_iff_equal_witness : canonical_number "1e2" = canonical_number "100.0".
Proof. apply (canonical_iff_equal "1e2" "100.0"); reflexivity. Defined.

Lemma add_sub_exact_witness :
  exists r t, decimal_add_sub "0.1" "-2e-1" true = Some r /\ parse_number r = Some t /\ (qval t == -1 # 10)%Q.
Proof.
  destruct (add_sub_exact "0.1" "-2e-1" {| neg := false; digits := "1"; point := 0 |}
    {| neg := true; digits := "2"; point := 0 |} true) as (r & t & Hr & Ht & Hv & _);
    [reflexivity..|].
  exists r, t. split_and!; [done..|]. rewrite Hv. reflexivity.
Defined.
