(* ===== verification/DdbValue.v ===== *)
(** * DynamoDB attribute values

    An attribute value is the JSON of the wire format, [{"S": "x"}], kept as
    it came ([type AttributeValue = Value]); an item is a map from attribute
    names to values.  Here: type tags, order and equality, size, nesting
    depth, containment, validation and number normalization
    ([fakecloud-dynamodb/src/state.rs], and [partiql.rs], [conditions.rs],
    [expr.rs], [keys.rs], [sizing.rs] of [service/helpers]).

    Where the source walks the members of a [HashMap] and stops at the first
    error, the walk follows the order of [map_to_list]; which of several
    errors is reported depends on it, whether there is one does not. *)

From Stdlib Require Import ZArith Lia Bool String Ascii.
From stdpp Require Import base option list strings gmap.
From S2P Require Import Prelude Json BTree Text Cbor Sqs DdbNumber.
Import Sqs(AwsServiceError, AwsError, aws_error).

Local Open Scope string_scope.

(** [base64::engine::general_purpose::STANDARD.decode]. *)
Class Base64Decode := { base64_decode : string -> option (list Z) }.

Notation Item := (gmap string Value).

Definition quote_char : string := String "034" EmptyString.
Definition quoted (s : string) : string := quote_char +:+ s +:+ quote_char.

Definition validation_error (message : string) : AwsServiceError :=
  aws_error 400 "ValidationException" message.

(** ** Tags *)

(** The tag and payload of a value with exactly one member. *)
Definition attribute_type_and_value (v : Value) : option (string * Value) :=
  match v with VObject [(k, x)] => Some (k, x) | _ => None end.

(** The first member's name, whatever else the object has. *)
Definition value_type (v : Value) : option string :=
  match v with VObject ((k, _) :: _) => Some k | _ => None end.

Definition attribute_type_tag (v : Value) : string := default "NULL" (value_type v).

(** [v.get(k).and_then(as_str)] and its array and object forms. *)
Definition get_str (k : string) (v : Value) : option string := get k v ≫= as_str.
Definition get_array (k : string) (v : Value) : option (list Value) := get k v ≫= as_array.
Definition get_object (k : string) (v : Value) : option (list (string * Value)) := get k v ≫= as_object.

Definition str_in (x : string) (l : list string) : bool := existsb (String.eqb x) l.

(** ** Equality and order *)

Definition comparable_types (a b : option Value) : bool :=
  match a ≫= attribute_type_and_value, b ≫= attribute_type_and_value with
  | Some (ta, _), Some (tb, _) => String.eqb ta tb && str_in ta ["S"; "N"; "B"]
  | _, _ => false
  end.

(** [Vec<u8>::cmp]. *)
Fixpoint bytes_cmp (a b : list Z) : comparison :=
  match a, b with
  | [], [] => Eq
  | [], _ :: _ => Lt
  | _ :: _, [] => Gt
  | x :: a', y :: b' => then_cmp (x ?= y)%Z (bytes_cmp a' b')
  end.

Section Values.
Context `{Base64Decode}.

Definition compare_attribute_values (a b : option Value) : comparison :=
  match a, b with
  | None, None => Eq
  | None, Some _ => Lt
  | Some _, None => Gt
  | Some a, Some b =>
      match attribute_type_and_value a, attribute_type_and_value b with
      | Some (ta, a_val), Some (tb, b_val) =>
          if negb (String.eqb ta tb) then Eq
          else if String.eqb ta "S" then
            str_cmp (default "" (as_str a_val)) (default "" (as_str b_val))
          else if String.eqb ta "N" then
            compare_number_strings (default "0" (as_str a_val)) (default "0" (as_str b_val))
          else if String.eqb ta "B" then
            let a_str := default "" (as_str a_val) in
            let b_str := default "" (as_str b_val) in
            match base64_decode a_str, base64_decode b_str with
            | Some a_bytes, Some b_bytes => bytes_cmp a_bytes b_bytes
            | _, _ => str_cmp a_str b_str
            end
          else Eq
      | _, _ => Eq
      end
  end.

Definition is_eq (c : comparison) : bool := match c with Eq => true | _ => false end.

Definition values_equal (a b : option Value) : bool :=
  match a, b with
  | Some av, Some bv =>
      match attribute_type_and_value av, attribute_type_and_value bv with
      | Some (ta, an), Some (tb, bn) =>
          if String.eqb ta "N" && String.eqb tb "N" then
            let an := default "" (as_str an) in
            let bn := default "" (as_str bn) in
            if is_valid_number an && is_valid_number bn
            then is_eq (compare_number_strings an bn)
            else value_eqb av bv
          else value_eqb av bv
      | _, _ => value_eqb av bv
      end
  | None, None => true
  | _, _ => false
  end.

Definition ns_members_equal (a b : Value) : bool :=
  match as_str a, as_str b with
  | Some x, Some y =>
      if is_valid_number x && is_valid_number y
      then is_eq (compare_number_strings x y) else value_eqb a b
  | _, _ => value_eqb a b
  end.

(** Members of a set under the tag [ta]. *)
Definition same_member (ta : string) (x y : Value) : bool :=
  if String.eqb ta "NS" then ns_members_equal x y else value_eqb x y.

Fixpoint attribute_values_equal (a b : Value) {struct a} : bool :=
  match a, b with
  | VObject ((ta, va) :: _), VObject ((tb, vb) :: _) =>
      if negb (String.eqb ta tb) then false
      else if String.eqb ta "N" then values_equal (Some a) (Some b)
      else if str_in ta ["SS"; "BS"; "NS"] then
        match va, vb with
        | VArray xa, VArray xb =>
            (length xa =? length xb)%nat
            && forallb (fun x => existsb (fun y => same_member ta x y) xb) xa
        | _, _ => false
        end
      else if String.eqb ta "L" then
        match va, vb with
        | VArray xa, VArray xb =>
            (length xa =? length xb)%nat
            && (fix go (xa xb : list Value) : bool :=
                  match xa, xb with
                  | x :: xa', y :: xb' => attribute_values_equal x y && go xa' xb'
                  | _, _ => true
                  end) xa xb
        | _, _ => false
        end
      else if String.eqb ta "M" then
        match va, vb with
        | VObject xa, VObject xb =>
            (length xa =? length xb)%nat
            && (fix go (xa : list (string * Value)) : bool :=
                  match xa with
                  | [] => true
                  | (k, x) :: xa' =>
                      match assoc k xb with
                      | Some y => attribute_values_equal x y
                      | None => false
                      end && go xa'
                  end) xa
        | _, _ => false
        end
      else value_eqb a b
  | _, _ => value_eqb a b
  end.

(** ** Prefixes and containment *)

(** [slice::starts_with] and the window search. *)
Fixpoint bytes_prefix (p l : list Z) : bool :=
  match p, l with
  | [], _ => true
  | x :: p', y :: l' => Z.eqb x y && bytes_prefix p' l'
  | _, [] => false
  end.

Fixpoint bytes_contain (p l : list Z) : bool :=
  bytes_prefix p l || match l with [] => false | _ :: l' => bytes_contain p l' end.

Definition attribute_begins_with (actual expected : Value) : bool :=
  match get_str "S" actual, get_str "S" expected with
  | Some a, Some e => starts_with e a
  | _, _ =>
      match get_str "B" actual, get_str "B" expected with
      | Some a, Some e =>
          match base64_decode a, base64_decode e with
          | Some a, Some e => bytes_prefix e a
          | _, _ => false
          end
      | _, _ => false
      end
  end.

(** The loop over the three set tags; [None] when no tag is an array. *)
Fixpoint contains_in_set (tags : list (string * string)) (container needle : Value) : option bool :=
  match tags with
  | [] => None
  | (set, scalar) :: tags' =>
      match get_array set container with
      | Some members =>
          match get scalar needle with
          | None => Some false
          | Some val =>
              Some (existsb (fun m => if String.eqb set "NS" then ns_members_equal m val
                                      else value_eqb m val) members)
          end
      | None => contains_in_set tags' container needle
      end
  end.

Definition contains_value (container needle : Value) : bool :=
  match get_str "S" container, get_str "S" needle with
  | Some a, Some e => contains_str e a
  | _, _ =>
      match get_str "B" container, get_str "B" needle with
      | Some a, Some e =>
          match base64_decode a, base64_decode e with
          | Some a, Some e => match e with [] => true | _ => bytes_contain e a end
          | _, _ => false
          end
      | _, _ =>
          match contains_in_set [("SS", "S"); ("NS", "N"); ("BS", "B")] container needle with
          | Some b => b
          | None =>
              match get_array "L" container with
              | Some l => existsb (fun el => attribute_values_equal el needle) l
              | None => false
              end
          end
      end
  end.

(** ** Sizes *)

(** [size()]: UTF-16 units of a string (one per modelled character), decoded
    bytes, elements. *)
Definition attribute_size (v : Value) : option nat :=
  match get_str "S" v with
  | Some s => Some (String.length s)
  | None =>
  match get_str "B" v with
  | Some b => Some (match base64_decode b with Some l => length l | None => byte_len b end)
  | None =>
  match get_array "SS" v with Some a => Some (length a) | None =>
  match get_array "NS" v with Some a => Some (length a) | None =>
  match get_array "BS" v with Some a => Some (length a) | None =>
  match get_array "L" v with Some a => Some (length a) | None =>
  match get_object "M" v with Some m => Some (length m) | None => None
  end end end end end end end.

Definition is_base64_byte (c : ascii) : bool :=
  is_ascii_alphanumeric c || Ascii.eqb c "+" || Ascii.eqb c "/" || Ascii.eqb c "=".

(** The decoded length of a base64 text. *)
Definition binary_size (encoded : string) : Z :=
  let len := Z.of_nat (byte_len encoded) in
  if (len mod 4 =? 0)%Z && string_forallb is_base64_byte encoded then
    let padding := (len - Z.of_nat (byte_len (trim_end_matches "=" encoded)))%Z in
    Z.max 0 (len / 4 * 3 - padding)
  else match base64_decode encoded with
       | Some bytes => Z.of_nat (length bytes)
       | None => len
       end.

Definition sum_Z (l : list Z) : Z := foldr Z.add 0%Z l.

(** The string members of an array payload. *)
Definition strings_of (inner : Value) : list string :=
  omap as_str (default [] (as_array inner)).

Fixpoint attribute_value_size (v : Value) : Z :=
  match v with
  | VObject ((tag, inner) :: _) =>
      if String.eqb tag "S" then from_option (fun s => Z.of_nat (byte_len s)) 0%Z (as_str inner)
      else if String.eqb tag "N" then from_option number_size 0%Z (as_str inner)
      else if String.eqb tag "B" then from_option binary_size 0%Z (as_str inner)
      else if str_in tag ["BOOL"; "NULL"] then 1%Z
      else if String.eqb tag "SS" then sum_Z ((fun s => Z.of_nat (byte_len s)) <$> strings_of inner)
      else if String.eqb tag "NS" then sum_Z (number_size <$> strings_of inner)
      else if String.eqb tag "BS" then sum_Z (binary_size <$> strings_of inner)
      else if String.eqb tag "L" then
        (3 + match inner with
             | VArray l => (fix go (l : list Value) : Z :=
                 match l with [] => 0 | x :: l' => 1 + attribute_value_size x + go l' end)%Z l
             | _ => 0
             end)%Z
      else if String.eqb tag "M" then
        (3 + match inner with
             | VObject m => (fix go (m : list (string * Value)) : Z :=
                 match m with
                 | [] => 0
                 | (k, x) :: m' => Z.of_nat (byte_len k) + 1 + attribute_value_size x + go m'
                 end)%Z m
             | _ => 0
             end)%Z
      else 0%Z
  | _ => 0%Z
  end.

Definition item_size (item : Item) : Z :=
  map_fold (fun k v acc => Z.of_nat (byte_len k) + attribute_value_size v + acc)%Z 0%Z item.

Definition MAX_ITEM_SIZE : Z := 409600.

Definition check_put_item_size (item : Item) : Result AwsServiceError unit :=
  if (MAX_ITEM_SIZE <? item_size item)%Z
  then Err (validation_error "Item size has exceeded the maximum allowed size") else Ok tt.

End Values.

(** ** Depth *)

Definition max_list (l : list nat) : nat := foldr Nat.max 0 l.

(** One more than the deepest child of an [L], else of an [M]. *)
Fixpoint attribute_depth (v : Value) : nat :=
  match v with
  | VObject m =>
      let info :=
        (fix go (m : list (string * Value)) : list (string * (option (list nat) * option (list nat))) :=
           match m with
           | [] => []
           | (k, x) :: m' =>
               (k, (match x with
                    | VArray l => Some ((fix each (l : list Value) : list nat :=
                        match l with [] => [] | y :: l' => attribute_depth y :: each l' end) l)
                    | _ => None
                    end,
                    match x with
                    | VObject o => Some ((fix each (o : list (string * Value)) : list nat :=
                        match o with [] => [] | (_, y) :: o' => attribute_depth y :: each o' end) o)
                    | _ => None
                    end)) :: go m'
           end) m in
      match assoc "L" info ≫= fst with
      | Some ds => 1 + max_list ds
      | None => match assoc "M" info ≫= snd with
                | Some ds => 1 + max_list ds
                | None => 1
                end
      end
  | _ => 1
  end.

Definition MAX_NESTING_DEPTH : nat := 32.

(** ** Number normalization *)

Definition canonical_or_same (v : Value) : Value :=
  match as_str v ≫= canonical_number with Some c => VString c | None => v end.

Fixpoint normalize_value_numbers (v : Value) : Value :=
  match v with
  | VObject m =>
      VObject ((fix go (m : list (string * Value)) : list (string * Value) :=
        match m with
        | [] => []
        | (tag, inner) :: m' =>
            (tag,
             if String.eqb tag "N" then canonical_or_same inner
             else if String.eqb tag "NS" then
               match inner with VArray l => VArray (canonical_or_same <$> l) | _ => inner end
             else if String.eqb tag "L" then
               match inner with
               | VArray l => VArray ((fix each (l : list Value) : list Value :=
                   match l with [] => [] | x :: l' => normalize_value_numbers x :: each l' end) l)
               | _ => inner
               end
             else if String.eqb tag "M" then
               match inner with
               | VObject o => VObject ((fix each (o : list (string * Value)) : list (string * Value) :=
                   match o with [] => [] | (k, x) :: o' => (k, normalize_value_numbers x) :: each o' end) o)
               | _ => inner
               end
             else inner) :: go m'
        end) m)
  | _ => v
  end.

Definition normalize_item_numbers (item : Item) : Item := normalize_value_numbers <$> item.

(** ** Validation of written values *)

Definition range_error (e : RangeError) : AwsServiceError :=
  match e with
  | number_overflow => validation_error
      "Number overflow. Attempting to store a number with magnitude larger than supported range"
  | number_underflow => validation_error
      "Number underflow. Attempting to store a number with magnitude smaller than supported range"
  end.

Definition range_checked (s : string) : Result AwsServiceError unit :=
  match check_number_range s with Ok _ => Ok tt | Err e => Err (range_error e) end.

Definition MAX_SIGNIFICANT_DIGITS : nat := 38.

Definition bad_number (n : string) : AwsServiceError :=
  validation_error ("The parameter cannot be converted to a numeric value: " +:+ n).

Definition check_number (s : string) : Result AwsServiceError unit :=
  if negb (string_forallb (fun c => negb (is_whitespace c)) s) then Err (bad_number s)
  else match significant_digit_count s with
       | None => Err (bad_number s)
       | Some ds =>
           if (MAX_SIGNIFICANT_DIGITS <? ds)%nat
           then Err (validation_error "Attempting to store more than 38 significant digits in a Number")
           else range_checked s
       end.

Definition validate_set_not_empty (kind : string) (empty : bool) : Result AwsServiceError unit :=
  if empty then
    Err (validation_error ("One or more parameter values were invalid: "
      +:+ (if String.eqb kind "binary" then "Binary sets should not be empty"
           else "An " +:+ kind +:+ " set  may not be empty")))
  else Ok tt.

Definition duplicate_set (members : list string) : AwsServiceError :=
  validation_error ("One or more parameter values were invalid: Input collection ["
    +:+ join ", " members +:+ "] contains duplicates").

Definition duplicate_binary_set (members : list string) : AwsServiceError :=
  validation_error ("One or more parameter values were invalid: Input collection ["
    +:+ join ", " members +:+ "]of type BS contains duplicates").

(** The members of a set payload, a non-string read as the empty string. *)
Definition set_members (v : Value) : list string :=
  (fun el => default "" (as_str el)) <$> default [] (as_array v).

Fixpoint check_ss (all seen ms : list string) : Result AwsServiceError unit :=
  match ms with
  | [] => Ok tt
  | m :: ms' => if str_in m seen then Err (duplicate_set all) else check_ss all (m :: seen) ms'
  end.

Fixpoint check_ns (all seen ms : list string) : Result AwsServiceError unit :=
  match ms with
  | [] => Ok tt
  | m :: ms' =>
      _ ← check_number m;
      let canon := default m (canonical_number m) in
      if str_in canon seen then Err (duplicate_set all) else check_ns all (canon :: seen) ms'
  end.

Section Validation.
Context `{Base64Decode}.

Fixpoint check_bs (all : list string) (seen : list (list Z)) (ms : list string)
  : Result AwsServiceError unit :=
  match ms with
  | [] => Ok tt
  | m :: ms' =>
      let key := default (as_bytes m) (base64_decode m) in
      if bool_decide (key ∈ seen) then Err (duplicate_binary_set all) else check_bs all (key :: seen) ms'
  end.

Fixpoint validate_attribute_value (v : Value) : Result AwsServiceError unit :=
  match v with
  | VObject ((tag, val) :: _) =>
      if String.eqb tag "N" then check_number (default "" (as_str val))
      else if String.eqb tag "SS" then
        let ms := set_members val in
        _ ← validate_set_not_empty "string" (match ms with [] => true | _ => false end);
        check_ss ms [] ms
      else if String.eqb tag "NS" then
        let ms := set_members val in
        _ ← validate_set_not_empty "number" (match ms with [] => true | _ => false end);
        check_ns ms [] ms
      else if String.eqb tag "BS" then
        let ms := set_members val in
        _ ← validate_set_not_empty "binary" (match ms with [] => true | _ => false end);
        check_bs ms [] ms
      else if String.eqb tag "NULL" then
        if match as_bool val with Some true => true | _ => false end then Ok tt
        else Err (validation_error ("One or more parameter values were invalid: "
                    +:+ "Null attribute value types must have the value of true"))
      else if String.eqb tag "L" then
        match val with
        | VArray l => (fix go (l : list Value) : Result AwsServiceError unit :=
            match l with [] => Ok tt | x :: l' => _ ← validate_attribute_value x; go l' end) l
        | _ => Ok tt
        end
      else if String.eqb tag "M" then
        match val with
        | VObject m => (fix go (m : list (string * Value)) : Result AwsServiceError unit :=
            match m with [] => Ok tt | (_, x) :: m' => _ ← validate_attribute_value x; go m' end) m
        | _ => Ok tt
        end
      else Ok tt
  | _ => Ok tt
  end.

Definition validate_written_value (v : Value) : Result AwsServiceError unit :=
  _ ← validate_attribute_value v;
  if (MAX_NESTING_DEPTH <? attribute_depth v)%nat
  then Err (validation_error ("Nesting Levels have exceeded supported limits: "
              +:+ "Attributes in the item have nested levels beyond supported limit"))
  else Ok tt.

(** [for v in item.values() { .. ? }] over any list. *)
Fixpoint each_ok {A} (f : A -> Result AwsServiceError unit) (l : list A) : Result AwsServiceError unit :=
  match l with [] => Ok tt | x :: l' => _ ← f x; each_ok f l' end.

Definition item_values (item : Item) : list Value := (map_to_list item).*2.

Definition validate_item_attribute_values (item : Item) : Result AwsServiceError unit :=
  each_ok validate_written_value (item_values item).

End Validation.
