(* ===== verification/DdbReserved.v ===== *)
(** * Reserved words

    The words that may not appear bare in an expression
    ([fakecloud-dynamodb/src/service/helpers/reserved_words.rs]) and the
    binary search that looks one up. *)

From Stdlib Require Import ZArith Lia Bool String Ascii.
From stdpp Require Import base option list strings sorting.
From S2P Require Import Prelude BTree Text.

Local Open Scope string_scope.

Definition RESERVED_WORDS : list string :=
  ["ABORT"; "ABSOLUTE"; "ACTION"; "ADD"; "AFTER"; "AGENT"; "AGGREGATE"; "ALL"; "ALLOCATE";
   "ALTER"; "ANALYZE"; "AND"; "ANY"; "ARCHIVE"; "ARE"; "ARRAY"; "AS"; "ASC"; "ASCII";
   "ASENSITIVE"; "ASSERTION"; "ASYMMETRIC"; "AT"; "ATOMIC"; "ATTACH"; "ATTRIBUTE"; "AUTH";
   "AUTHORIZATION"; "AUTHORIZE"; "AUTO"; "AVG"; "BACK"; "BACKUP"; "BASE"; "BATCH"; "BEFORE";
   "BEGIN"; "BETWEEN"; "BIGINT"; "BINARY"; "BIT"; "BLOB"; "BLOCK"; "BOOLEAN"; "BOTH"; "BREADTH";
   "BUCKET"; "BULK"; "BY"; "BYTE"; "CALL"; "CALLED"; "CALLING"; "CAPACITY"; "CASCADE"; "CASCADED";
   "CASE"; "CAST"; "CATALOG"; "CHAR"; "CHARACTER"; "CHECK"; "CLASS"; "CLOB"; "CLOSE"; "CLUSTER";
   "CLUSTERED"; "CLUSTERING"; "CLUSTERS"; "COALESCE"; "COLLATE"; "COLLATION"; "COLLECTION";
   "COLUMN"; "COLUMNS"; "COMBINE"; "COMMENT"; "COMMIT"; "COMPACT"; "COMPILE"; "COMPRESS";
   "CONDITION"; "CONFLICT"; "CONNECT"; "CONNECTION"; "CONSISTENCY"; "CONSISTENT"; "CONSTRAINT";
   "CONSTRAINTS"; "CONSTRUCTOR"; "CONSUMED"; "CONTINUE"; "CONVERT"; "COPY"; "CORRESPONDING";
   "COUNT"; "COUNTER"; "CREATE"; "CROSS"; "CUBE"; "CURRENT"; "CURSOR"; "CYCLE"; "DATA";
   "DATABASE"; "DATE"; "DATETIME"; "DAY"; "DEALLOCATE"; "DEC"; "DECIMAL"; "DECLARE"; "DEFAULT";
   "DEFERRABLE"; "DEFERRED"; "DEFINE"; "DEFINED"; "DEFINITION"; "DELETE"; "DELIMITED"; "DEPTH";
   "DEREF"; "DESC"; "DESCRIBE"; "DESCRIPTOR"; "DETACH"; "DETERMINISTIC"; "DIAGNOSTICS";
   "DIRECTORIES"; "DISABLE"; "DISCONNECT"; "DISTINCT"; "DISTRIBUTE"; "DO"; "DOMAIN"; "DOUBLE";
   "DROP"; "DUMP"; "DURATION"; "DYNAMIC"; "EACH"; "ELEMENT"; "ELSE"; "ELSEIF"; "EMPTY"; "ENABLE";
   "END"; "EQUAL"; "EQUALS"; "ERROR"; "ESCAPE"; "ESCAPED"; "EVAL"; "EVALUATE"; "EXCEEDED";
   "EXCEPT"; "EXCEPTION"; "EXCEPTIONS"; "EXCLUSIVE"; "EXEC"; "EXECUTE"; "EXISTS"; "EXIT";
   "EXPLAIN"; "EXPLODE"; "EXPORT"; "EXPRESSION"; "EXTENDED"; "EXTERNAL"; "EXTRACT"; "FAIL";
   "FALSE"; "FAMILY"; "FETCH"; "FIELDS"; "FILE"; "FILTER"; "FILTERING"; "FINAL"; "FINISH";
   "FIRST"; "FIXED"; "FLATTERN"; "FLOAT"; "FOR"; "FORCE"; "FOREIGN"; "FORMAT"; "FORWARD"; "FOUND";
   "FREE"; "FROM"; "FULL"; "FUNCTION"; "FUNCTIONS"; "GENERAL"; "GENERATE"; "GET"; "GLOB";
   "GLOBAL"; "GO"; "GOTO"; "GRANT"; "GREATER"; "GROUP"; "GROUPING"; "HANDLER"; "HASH"; "HAVE";
   "HAVING"; "HEAP"; "HIDDEN"; "HOLD"; "HOUR"; "IDENTIFIED"; "IDENTITY"; "IF"; "IGNORE";
   "IMMEDIATE"; "IMPORT"; "IN"; "INCLUDING"; "INCLUSIVE"; "INCREMENT"; "INCREMENTAL"; "INDEX";
   "INDEXED"; "INDEXES"; "INDICATOR"; "INFINITE"; "INITIALLY"; "INLINE"; "INNER"; "INNTER";
   "INOUT"; "INPUT"; "INSENSITIVE"; "INSERT"; "INSTEAD"; "INT"; "INTEGER"; "INTERSECT";
   "INTERVAL"; "INTO"; "INVALIDATE"; "IS"; "ISOLATION"; "ITEM"; "ITEMS"; "ITERATE"; "JOIN"; "KEY";
   "KEYS"; "LAG"; "LANGUAGE"; "LARGE"; "LAST"; "LATERAL"; "LEAD"; "LEADING"; "LEAVE"; "LEFT";
   "LENGTH"; "LESS"; "LEVEL"; "LIKE"; "LIMIT"; "LIMITED"; "LINES"; "LIST"; "LOAD"; "LOCAL";
   "LOCALTIME"; "LOCALTIMESTAMP"; "LOCATION"; "LOCATOR"; "LOCK"; "LOCKS"; "LOG"; "LOGED"; "LONG";
   "LOOP"; "LOWER"; "MAP"; "MATCH"; "MATERIALIZED"; "MAX"; "MAXLEN"; "MEMBER"; "MERGE"; "METHOD";
   "METRICS"; "MIN"; "MINUS"; "MINUTE"; "MISSING"; "MOD"; "MODE"; "MODIFIES"; "MODIFY"; "MODULE";
   "MONTH"; "MULTI"; "MULTISET"; "NAME"; "NAMES"; "NATIONAL"; "NATURAL"; "NCHAR"; "NCLOB"; "NEW";
   "NEXT"; "NO"; "NONE"; "NOT"; "NULL"; "NULLIF"; "NUMBER"; "NUMERIC"; "OBJECT"; "OF"; "OFFLINE";
   "OFFSET"; "OLD"; "ON"; "ONLINE"; "ONLY"; "OPAQUE"; "OPEN"; "OPERATOR"; "OPTION"; "OR"; "ORDER";
   "ORDINALITY"; "OTHER"; "OTHERS"; "OUT"; "OUTER"; "OUTPUT"; "OVER"; "OVERLAPS"; "OVERRIDE";
   "OWNER"; "PAD"; "PARALLEL"; "PARAMETER"; "PARAMETERS"; "PARTIAL"; "PARTITION"; "PARTITIONED";
   "PARTITIONS"; "PATH"; "PERCENT"; "PERCENTILE"; "PERMISSION"; "PERMISSIONS"; "PIPE";
   "PIPELINED"; "PLAN"; "POOL"; "POSITION"; "PRECISION"; "PREPARE"; "PRESERVE"; "PRIMARY";
   "PRIOR"; "PRIVATE"; "PRIVILEGES"; "PROCEDURE"; "PROCESSED"; "PROJECT"; "PROJECTION";
   "PROPERTY"; "PROVISIONING"; "PUBLIC"; "PUT"; "QUERY"; "QUIT"; "QUORUM"; "RAISE"; "RANDOM";
   "RANGE"; "RANK"; "RAW"; "READ"; "READS"; "REAL"; "REBUILD"; "RECORD"; "RECURSIVE"; "REDUCE";
   "REF"; "REFERENCE"; "REFERENCES"; "REFERENCING"; "REGEXP"; "REGION"; "REINDEX"; "RELATIVE";
   "RELEASE"; "REMAINDER"; "RENAME"; "REPEAT"; "REPLACE"; "REQUEST"; "RESET"; "RESIGNAL";
   "RESOURCE"; "RESPONSE"; "RESTORE"; "RESTRICT"; "RESULT"; "RETURN"; "RETURNING"; "RETURNS";
   "REVERSE"; "REVOKE"; "RIGHT"; "ROLE"; "ROLES"; "ROLLBACK"; "ROLLUP"; "ROUTINE"; "ROW"; "ROWS";
   "RULE"; "RULES"; "SAMPLE"; "SATISFIES"; "SAVE"; "SAVEPOINT"; "SCAN"; "SCHEMA"; "SCOPE";
   "SCROLL"; "SEARCH"; "SECOND"; "SECTION"; "SEGMENT"; "SEGMENTS"; "SELECT"; "SELF"; "SEMI";
   "SENSITIVE"; "SEPARATE"; "SEQUENCE"; "SERIALIZABLE"; "SESSION"; "SET"; "SETS"; "SHARD";
   "SHARE"; "SHARED"; "SHORT"; "SHOW"; "SIGNAL"; "SIMILAR"; "SIZE"; "SKEWED"; "SMALLINT";
   "SNAPSHOT"; "SOME"; "SOURCE"; "SPACE"; "SPACES"; "SPARSE"; "SPECIFIC"; "SPECIFICTYPE"; "SPLIT";
   "SQL"; "SQLCODE"; "SQLERROR"; "SQLEXCEPTION"; "SQLSTATE"; "SQLWARNING"; "START"; "STATE";
   "STATIC"; "STATUS"; "STORAGE"; "STORE"; "STORED"; "STREAM"; "STRING"; "STRUCT"; "STYLE"; "SUB";
   "SUBMULTISET"; "SUBPARTITION"; "SUBSTRING"; "SUBTYPE"; "SUM"; "SUPER"; "SYMMETRIC"; "SYNONYM";
   "SYSTEM"; "TABLE"; "TABLESAMPLE"; "TEMP"; "TEMPORARY"; "TERMINATED"; "TEXT"; "THAN"; "THEN";
   "THROUGHPUT"; "TIME"; "TIMESTAMP"; "TIMEZONE"; "TINYINT"; "TO"; "TOKEN"; "TOTAL"; "TOUCH";
   "TRAILING"; "TRANSACTION"; "TRANSFORM"; "TRANSLATE"; "TRANSLATION"; "TREAT"; "TRIGGER"; "TRIM";
   "TRUE"; "TRUNCATE"; "TTL"; "TUPLE"; "TYPE"; "UNDER"; "UNDO"; "UNION"; "UNIQUE"; "UNIT";
   "UNKNOWN"; "UNLOGGED"; "UNNEST"; "UNPROCESSED"; "UNSIGNED"; "UNTIL"; "UPDATE"; "UPPER"; "URL";
   "USAGE"; "USE"; "USER"; "USERS"; "USING"; "UUID"; "VACUUM"; "VALUE"; "VALUED"; "VALUES";
   "VARCHAR"; "VARIABLE"; "VARIANCE"; "VARINT"; "VARYING"; "VIEW"; "VIEWS"; "VIRTUAL"; "VOID";
   "WAIT"; "WHEN"; "WHENEVER"; "WHERE"; "WHILE"; "WINDOW"; "WITH"; "WITHIN"; "WITHOUT"; "WORK";
   "WRAPPED"; "WRITE"; "YEAR"; "ZONE"].

(** The halving loop of [slice::binary_search]: the answer is in
    [base .. base+size]. *)
Fixpoint search_loop (fuel : nat) (l : list string) (x : string) (base size : nat) : nat :=
  match fuel with
  | 0 => base
  | S fuel' =>
      if (1 <? size)%nat then
        let half := size / 2 in
        let mid := base + half in
        let base' := match str_cmp (default "" (l !! mid)) x with Gt => base | _ => mid end in
        search_loop fuel' l x base' (size - half)
      else base
  end.

Definition binary_search (l : list string) (x : string) : bool :=
  match l with
  | [] => false
  | _ =>
      let i := search_loop (length l) l x 0 (length l) in
      match str_cmp (default "" (l !! i)) x with Eq => true | _ => false end
  end.

Definition is_reserved_word (word : string) : bool :=
  binary_search RESERVED_WORDS (to_ascii_uppercase word).

(** ** The search is membership *)

Lemma str_le_cmp a b : BTree.str_le a b <-> str_cmp a b <> Gt.
Proof. unfold BTree.str_le. rewrite str_cmp_leb. by destruct (str_cmp a b). Qed.

Lemma StronglySorted_lookup_lt {A} (R : relation A) l i j a b :
  StronglySorted R l -> l !! i = Some a -> l !! j = Some b -> i < j -> R a b.
Proof.
  intros Hs. revert i j. induction Hs as [|x l Hs IH Hx]; intros [|i] [|j] Ha Hb Hlt; simpl in *;
    try done; try lia.
  - injection Ha as ->. by eapply (Forall_lookup_1 _ _ _ _ Hx).
  - apply (IH i j); [done|done|lia].
Qed.

(** Positions at or below one whose word is not greater than [x], and above
    one whose word is greater. *)
Lemma search_loop_spec fuel l x base size i :
  Sorted BTree.str_le l -> size <= fuel -> 0 < size -> base + size <= length l ->
  l !! i = Some x -> base <= i < base + size ->
  l !! search_loop fuel l x base size = Some x.
Proof.
  intros Hs. apply Sorted_StronglySorted in Hs; [|apply _].
  revert base size i. induction fuel as [|fuel IH]; intros base size i Hf Hz Hb Hi Hr; [lia|].
  cbn [search_loop]. destruct (Nat.ltb_spec 1 size) as [H1|H1].
  2:{ replace base with i by lia. done. }
  assert (Hh : 1 <= size / 2 < size /\ 2 * (size / 2) <= size).
  { split_and!; [apply Nat.div_le_lower_bound; lia|apply Nat.div_lt; lia|apply Nat.Div0.mul_div_le]. }
  set (h := size / 2) in *. clearbody h.
  destruct (lookup_lt_is_Some_2 l (base + h)) as [w Hw]; [lia|]. rewrite Hw. cbn [default from_option id].
  assert (Hord : forall j k a b, l !! j = Some a -> l !! k = Some b -> j < k -> str_cmp a b <> Gt).
  { intros j k a b Ha Hb' Hlt. apply str_le_cmp. by eapply StronglySorted_lookup_lt. }
  destruct (str_cmp w x) eqn:E.
  - apply str_cmp_eq in E as ->. apply (IH _ _ (base + h)); done || lia.
  - apply (IH _ _ i); [lia|lia|lia|done|]. split; [|lia].
    destruct (decide (base + h <= i)) as [|Hn]; [done|exfalso].
    apply (Hord i (base + h) x w); [done|done|lia|]. by rewrite str_cmp_antisym, E.
  - apply (IH _ _ i); [lia|lia|lia|done|]. split; [lia|].
    destruct (decide (i < base + h)) as [|Hn]; [lia|exfalso].
    destruct (decide (i = base + h)) as [->|Hne].
    + rewrite Hi in Hw. injection Hw as ->. by rewrite str_cmp_refl in E.
    + apply (Hord (base + h) i w x); [done|done|lia|done].
Qed.

Lemma search_loop_bound f l x b s :
  b + s <= length l -> 0 < s -> search_loop f l x b s < length l.
Proof.
  revert b s. induction f as [|f IH]; intros b s Hb Hz; cbn [search_loop]; [lia|].
  destruct (Nat.ltb_spec 1 s); [|lia].
  assert (1 <= s / 2 < s) by (split; [apply Nat.div_le_lower_bound; lia|apply Nat.div_lt; lia]).
  set (h := s / 2) in *. clearbody h. destruct (str_cmp _ _); apply IH; lia.
Qed.

Lemma binary_search_spec l x : Sorted BTree.str_le l -> binary_search l x = true <-> x ∈ l.
Proof.
  intros Hs. unfold binary_search. destruct l as [|a l']; [by rewrite elem_of_nil|].
  set (l := a :: l') in *. split.
  - destruct (l !! search_loop (length l) l x 0 (length l)) as [w|] eqn:E.
    + simpl. destruct (str_cmp w x) eqn:Ec; try done. apply str_cmp_eq in Ec as ->.
      intros _. by eapply list_elem_of_lookup_2.
    + apply lookup_ge_None in E. exfalso.
      pose proof (search_loop_bound (length l) l x 0 (length l)). unfold l in *. simpl in *. lia.
  - intros Hin. apply list_elem_of_lookup_1 in Hin as [i Hi]. pose proof (lookup_lt_Some _ _ _ Hi).
    rewrite (search_loop_spec (length l) l x 0 (length l) i); try done; try (simpl in *; lia).
    simpl. by rewrite str_cmp_refl.
Qed.

(** The table is sorted, so a word is reserved exactly when its upper-case
    form is listed. *)
Lemma is_reserved_word_spec w : is_reserved_word w = true <-> to_ascii_uppercase w ∈ RESERVED_WORDS.
Proof.
  apply binary_search_spec.
  assert (forall l : list string, (fix go l := match l with
    | a :: (b :: _) as t => BTree.str_leb a b && go t | _ => true end) l = true -> Sorted BTree.str_le l) as Hgo.
  { induction l as [|a [|b l] IH]; [done|by repeat constructor|].
    rewrite andb_true_iff. intros [Hab Ht]. constructor; [by apply IH|by constructor]. }
  apply Hgo. vm_compute. reflexivity.
Qed.
