(* ===== verification/DdbExpr.v ===== *)
(** * DynamoDB expressions

    The lexer, the recursive-descent parser, the request-time checks and the
    evaluator of the expression language
    ([fakecloud-dynamodb/src/service/helpers/expr.rs]).

    The parser is a function on a [PState]: the token before the current one,
    the tokens from the current one on (the source's index [pos] into the
    token vector splits it there), and the placeholders used so far.  Its
    recursion is bounded by the number of tokens left; [DdbExprTheory] shows
    that the bound is never reached. *)

From Stdlib Require Import ZArith Lia Bool String Ascii.
From stdpp Require Import base option list strings gmap sorting.
From S2P Require Import Prelude Json BTree Text Sqs DdbNumber DdbValue DdbReserved.
Import Sqs(AwsServiceError, AwsError, aws_error).

Local Open Scope string_scope.

Definition MAX_EXPRESSION_BYTES : nat := 4096.

Inductive ExprKind := Condition | Filter | KeyCondition | Projection | Update.

Definition param (k : ExprKind) : string :=
  match k with
  | Condition => "ConditionExpression"
  | Filter => "FilterExpression"
  | KeyCondition => "KeyConditionExpression"
  | Projection => "ProjectionExpression"
  | Update => "UpdateExpression"
  end.

Definition invalid (k : ExprKind) (message : string) : AwsServiceError :=
  validation_error ("Invalid " +:+ param k +:+ ": " +:+ message).

(** ** Lexer *)

Inductive Tok :=
| TIdent | TName | TValue | TQuoted | TNum
| LParen | RParen | LBracket | RBracket | Comma | Dot
| TEq | TNe | TLt | TLe | TGt | TGe | Plus | Minus | Unknown | Eof.

#[global] Instance Tok_eq_dec : EqDecision Tok.
Proof. solve_decision. Defined.

Record Token := mkToken { tok : Tok; start : nat; tend : nat }.

Definition is_word_byte (c : ascii) : bool := is_ascii_alphanumeric c || Ascii.eqb c "_".

(** The number of word bytes at the front. *)
Fixpoint word_len (s : string) : nat :=
  match s with
  | String c s' => if is_word_byte c then S (word_len s') else 0
  | EmptyString => 0
  end.

Definition quote : ascii := "034"%char.

(** The token at a non-blank character and the number of characters it takes. *)
Definition lex_token (allow_quoted : bool) (c : ascii) (s : string) : Tok * nat :=
  if Ascii.eqb c "#" || Ascii.eqb c ":" then
    match word_len s with
    | 0 => (Unknown, 1)
    | n => (if Ascii.eqb c "#" then TName else TValue, S n)
    end
  else if is_word_byte c then
    let n := S (word_len s) in
    (if string_forallb is_ascii_digit (string_take n (String c s)) then TNum else TIdent, n)
  else if Ascii.eqb c quote && allow_quoted then
    match find_str (String quote EmptyString) s with
    | Some close => (TQuoted, close + 2)
    | None => (Unknown, 1)
    end
  else if Ascii.eqb c "(" then (LParen, 1)
  else if Ascii.eqb c ")" then (RParen, 1)
  else if Ascii.eqb c "[" then (LBracket, 1)
  else if Ascii.eqb c "]" then (RBracket, 1)
  else if Ascii.eqb c "," then (Comma, 1)
  else if Ascii.eqb c "." then (Dot, 1)
  else if Ascii.eqb c "=" then (TEq, 1)
  else if Ascii.eqb c "+" then (Plus, 1)
  else if Ascii.eqb c "-" then (Minus, 1)
  else if Ascii.eqb c "<" then
    match s with
    | String "=" _ => (TLe, 2)
    | String ">" _ => (TNe, 2)
    | _ => (TLt, 1)
    end
  else if Ascii.eqb c ">" then
    match s with
    | String "=" _ => (TGe, 2)
    | _ => (TGt, 1)
    end
  else (Unknown, 1).

(** One turn per token or blank; [s] is the source from position [i]. *)
Fixpoint lex_loop (fuel : nat) (allow_quoted : bool) (i : nat) (s : string) : list Token :=
  match fuel, s with
  | S fuel', String c s' =>
      if is_ascii_whitespace c then lex_loop fuel' allow_quoted (i + 1) s'
      else
        let '(t, n) := lex_token allow_quoted c s' in
        mkToken t i (i + n) :: lex_loop fuel' allow_quoted (i + n) (string_drop n s)
  | _, _ => []
  end.

Definition lex (src : string) (allow_quoted : bool) : list Token :=
  lex_loop (String.length src) allow_quoted 0 src
  ++ [mkToken Eof (String.length src) (String.length src)].

(** ** Syntax trees *)

Inductive PathElem :=
| Attr (name : string)
| Index (i : Z).

#[global] Instance PathElem_eq_dec : EqDecision PathElem.
Proof. solve_decision. Defined.

Notation DocPath := (list PathElem).

Definition render_elem (e : PathElem) : string :=
  match e with
  | Attr a => a
  | Index i => "[" +:+ print_Z i +:+ "]"
  end.

Definition render_path (path : DocPath) : string :=
  "[" +:+ join ", " (render_elem <$> path) +:+ "]".

Fixpoint is_prefix (a b : DocPath) : bool :=
  match a, b with
  | [], _ => true
  | x :: a', y :: b' => bool_decide (x = y) && is_prefix a' b'
  | _ :: _, [] => false
  end.

Inductive Operand :=
| OPath (p : DocPath)
| OValue (placeholder : string)
| OSize (p : DocPath).

Inductive CmpOp := CEq | CNe | CLt | CLe | CGt | CGe.

Definition symbol (op : CmpOp) : string :=
  match op with
  | CEq => "=" | CNe => "<>" | CLt => "<" | CLe => "<=" | CGt => ">" | CGe => ">="
  end.

Inductive Cond :=
| Compare (l : Operand) (op : CmpOp) (r : Operand)
| Between (x lo hi : Operand)
| In (x : Operand) (l : list Operand)
| Exists (p : DocPath)
| NotExists (p : DocPath)
| AttrType (p : DocPath) (t : Operand)
| BeginsWith (a b : Operand)
| Contains (a b : Operand)
| And (a b : Cond)
| Or (a b : Cond)
| Not (a : Cond)
| Paren (a : Cond).

Inductive SetValue :=
| SOperand (o : Operand)
| IfNotExists (b : SetValue)
| ListAppend (a b : SetValue)
| Arith (a b : SetValue)
| SParen (a : SetValue).

Record UpdateAst := mkUpdateAst {
  sets : list (DocPath * SetValue);
  removes : list DocPath;
  adds : list (DocPath * string);
  deletes : list (DocPath * string)
}.

Definition empty_ast : UpdateAst := mkUpdateAst [] [] [] [].

Definition target_paths (a : UpdateAst) : list DocPath :=
  (sets a).*1 ++ removes a ++ (adds a).*1 ++ (deletes a).*1.

(** ** The parser's state *)

Record PState := mkPState {
  prev : option Token;
  rest : list Token;
  used_names : gset string;
  used_values : gset string
}.

Definition PResult (A : Type) : Type := Result AwsServiceError (A * PState).
Definition P (A : Type) : Type := PState -> PResult A.

Definition pret {A} (a : A) : P A := fun s => Ok (a, s).
Definition pbind {A B} (p : P A) (f : A -> P B) : P B := fun s =>
  match p s with
  | Ok (a, s') => f a s'
  | Err e => Err e
  end.
Definition pfail {A} (e : AwsServiceError) : P A := fun _ => Err e.

Declare Scope parser_scope.
Delimit Scope parser_scope with parser.
Notation "x <- p ;; q" := (pbind p (fun x => q))
  (at level 100, p at next level, right associativity, only parsing) : parser_scope.
Local Open Scope parser_scope.

(** Reached by no call of the entry points ([DdbExprTheory]). *)
Definition out_of_fuel : AwsServiceError := aws_error 500 "InternalFailure" "expression nesting".

Definition GRAMMAR_KEYWORDS : list string :=
  ["AND"; "OR"; "NOT"; "BETWEEN"; "IN"; "SET"; "REMOVE"; "ADD"; "DELETE"].

Section Parser.
Context (src : string) (kind : ExprKind) (names : gmap string string) (values : gmap string Value)
  (strict : bool).

Definition eof_token : Token := mkToken Eof (String.length src) (String.length src).
Definition current (s : PState) : Token := default eof_token (head (rest s)).
Definition peek (s : PState) : Tok := tok (current s).
Definition peek_at (off : nat) (s : PState) : Tok :=
  tok (default eof_token (rest s !! Nat.min off (length (rest s) - 1))).
Definition text (t : Token) : string := slice src (start t) (tend t).
Definition cur_text (s : PState) : string := text (current s).

(** The last token is never passed. *)
Definition advance : P unit := fun s =>
  Ok (tt, match rest s with
          | t :: (_ :: _) as l => mkPState (Some t) (tail (rest s)) (used_names s) (used_values s)
          | _ => s
          end).

Definition is_keyword (kw : string) (s : PState) : bool :=
  bool_decide (peek s = TIdent) && eq_ignore_ascii_case (cur_text s) kw.

Definition syntax_error (s : PState) : AwsServiceError :=
  let t := current s in
  let token := if bool_decide (tok t = Eof) then "<EOF>" else text t in
  let near_start := match prev s with Some p => start p | None => start t end in
  let near_end := match rest s with
                  | _ :: next :: _ => if bool_decide (tok next = Eof) then tend t else tend next
                  | _ => tend t
                  end in
  let near := slice src near_start (Nat.max near_end near_start) in
  invalid kind ("Syntax error; token: " +:+ quoted token +:+ ", near: " +:+ quoted near).

Definition psyntax {A} : P A := fun s => Err (syntax_error s).

(** [let x = f(&self)] and a branch on the current token. *)
Definition pget {A} (f : PState -> A) : P A := fun s => Ok (f s, s).

Definition expect (t : Tok) : P unit := fun s =>
  if bool_decide (peek s = t) then advance s else Err (syntax_error s).

Definition at_function (s : PState) : bool :=
  bool_decide (peek s = TIdent) && bool_decide (peek_at 1 s = LParen).

Definition use_name (ph : string) : P unit := fun s =>
  Ok (tt, mkPState (prev s) (rest s) ({[ph]} ∪ used_names s) (used_values s)).
Definition use_value (ph : string) : P unit := fun s =>
  Ok (tt, mkPState (prev s) (rest s) (used_names s) ({[ph]} ∪ used_values s)).

(** *** Paths *)

Definition path_name : P string := fun s =>
  match peek s with
  | TIdent =>
      let word := cur_text s in
      if existsb (fun k => eq_ignore_ascii_case k word) GRAMMAR_KEYWORDS then Err (syntax_error s)
      else if strict && is_reserved_word word then
        Err (invalid kind ("Attribute name is a reserved keyword; reserved keyword: " +:+ word))
      else (_ <- advance ;; pret word) s
  | TQuoted =>
      if strict then Err (syntax_error s)
      else
        let t := cur_text s in
        (_ <- advance ;; pret (slice t 1 (String.length t - 1))) s
  | TName =>
      let ph := cur_text s in
      match names !! ph with
      | Some n => (_ <- use_name ph ;; _ <- advance ;; pret n) s
      | None =>
          if strict then
            Err (invalid kind ("An expression attribute name used in the document path is "
                   +:+ "not defined; attribute name: " +:+ ph))
          else (_ <- use_name ph ;; _ <- advance ;; pret ph) s
      end
  | _ => Err (syntax_error s)
  end.

(** One more step of a path, [None] at its end. *)
Definition path_step : P (option PathElem) := fun s =>
  match peek s with
  | Dot => (_ <- advance ;; n <- path_name ;; pret (Some (Attr n))) s
  | LBracket =>
      (_ <- advance ;;
       fun s =>
         if negb (bool_decide (peek s = TNum)) then Err (syntax_error s)
         else match parse_u64 (cur_text s) with
              | None => Err (syntax_error s)
              | Some idx =>
                  (_ <- advance ;; _ <- expect RBracket ;; pret (Some (Index idx))) s
              end) s
  | _ => Ok (None, s)
  end.

Fixpoint path_loop (fuel : nat) : P DocPath :=
  match fuel with
  | 0 => pfail out_of_fuel
  | S fuel' =>
      e <- path_step ;;
      match e with
      | Some e => l <- path_loop fuel' ;; pret (e :: l)
      | None => pret []
      end
  end.

Definition path : P DocPath :=
  n <- path_name ;; l <- (fun s => path_loop (length (rest s)) s) ;; pret (Attr n :: l).

Definition value_ref : P string := fun s =>
  let ph := cur_text s in
  if strict && negb (bool_decide (is_Some (values !! ph))) then
    Err (invalid kind ("An expression attribute value used in expression is not defined; "
           +:+ "attribute value: " +:+ ph))
  else (_ <- use_value ph ;; _ <- advance ;; pret ph) s.

(** *** Operands *)

(** [while peek == Comma { advance; push(item) }]. *)
Fixpoint comma_loop {A} (fuel : nat) (item : P A) : P (list A) := fun s =>
  match fuel with
  | 0 => Err out_of_fuel
  | S fuel' =>
      if bool_decide (peek s = Comma)
      then (_ <- advance ;; x <- item ;; l <- comma_loop fuel' item ;; pret (x :: l)) s
      else Ok ([], s)
  end.

(** One item, then more after commas. *)
Definition comma_list {A} (item : P A) : P (list A) :=
  x <- item ;; l <- (fun s => comma_loop (length (rest s)) item s) ;; pret (x :: l).

Definition unknown_function (name : string) : AwsServiceError :=
  invalid kind ("Invalid function name; function: " +:+ name).

Definition operand_count (name : string) (n : nat) : AwsServiceError :=
  invalid kind ("Incorrect number of operands for operator or function; operator or function: "
    +:+ name +:+ ", number of operands: " +:+ print_Z (Z.of_nat n)).

Definition requires_document_path (name : string) : AwsServiceError :=
  invalid kind ("Operator or function requires a document path; operator or function: " +:+ name).

Definition call_args (operand : P Operand) : P (string * list Operand) :=
  name <- pget cur_text ;;
  _ <- advance ;;
  _ <- expect LParen ;;
  args <- comma_list operand ;;
  _ <- expect RParen ;;
  pret (name, args).

Definition CONDITION_FUNCTIONS : list string :=
  ["attribute_exists"; "attribute_not_exists"; "attribute_type"; "begins_with"; "contains"].

Fixpoint operand_n (fuel : nat) : P Operand := fun s =>
  match fuel with
  | 0 => Err out_of_fuel
  | S fuel' =>
      match peek s with
      | TValue => (v <- value_ref ;; pret (OValue v)) s
      | TIdent =>
          if at_function s then
            let name := cur_text s in
            if String.eqb name "size" then
              (call <- call_args (operand_n fuel') ;;
               let '(_, args) := call in
               match args with
               | [OPath p] => pret (OSize p)
               | [_] => pfail (requires_document_path "size")
               | _ => pfail (operand_count "size" (length args))
               end) s
            else if str_in name (CONDITION_FUNCTIONS ++ ["if_not_exists"; "list_append"]) then
              Err (invalid kind ("The function is not allowed to be used this way in an "
                     +:+ "expression; function: " +:+ name))
            else Err (unknown_function name)
          else (p <- path ;; pret (OPath p)) s
      | TName => (p <- path ;; pret (OPath p)) s
      | _ => Err (syntax_error s)
      end
  end.

Definition operand : P Operand := fun s => operand_n (length (rest s)) s.

(** *** Conditions *)

Definition requires_path (name : string) (op : Operand) : P DocPath :=
  match op with
  | OPath p => pret p
  | _ => pfail (requires_document_path name)
  end.

(** [args] has the expected length when the function is built. *)
Definition condition_function : P Cond :=
  call <- call_args operand ;;
  let '(name, args) := call in
  let expected := if str_in name ["attribute_exists"; "attribute_not_exists"] then 1 else 2 in
  if negb (length args =? expected)%nat then pfail (operand_count name (length args))
  else match args with
       | [a] =>
           if String.eqb name "attribute_exists" then p <- requires_path name a ;; pret (Exists p)
           else p <- requires_path name a ;; pret (NotExists p)
       | [a; b] =>
           if String.eqb name "attribute_type" then p <- requires_path name a ;; pret (AttrType p b)
           else if String.eqb name "begins_with" then pret (BeginsWith a b)
           else pret (Contains a b)
       | _ => pfail (operand_count name (length args))
       end.

Definition cmp_op (t : Tok) : option CmpOp :=
  match t with
  | TEq => Some CEq | TNe => Some CNe | TLt => Some CLt
  | TLe => Some CLe | TGt => Some CGt | TGe => Some CGe
  | _ => None
  end.

(** What follows the left operand of a condition. *)
Definition comparison_rest (left : Operand) : P Cond := fun s =>
  match cmp_op (peek s) with
  | Some op => (_ <- advance ;; right <- operand ;; pret (Compare left op right)) s
  | None =>
      if is_keyword "BETWEEN" s then
        (_ <- advance ;; lo <- operand ;;
         fun s =>
           if negb (is_keyword "AND" s) then Err (syntax_error s)
           else (_ <- advance ;; hi <- operand ;; pret (Between left lo hi)) s) s
      else if is_keyword "IN" s then
        (_ <- advance ;; _ <- expect LParen ;; l <- comma_list operand ;;
         _ <- expect RParen ;; pret (In left l)) s
      else Err (syntax_error s)
  end.

Definition primary (or_expr : P Cond) : P Cond := fun s =>
  if bool_decide (peek s = LParen) then
    (_ <- advance ;; inner <- or_expr ;; _ <- expect RParen ;; pret (Paren inner)) s
  else
    let name := cur_text s in
    if at_function s && str_in name CONDITION_FUNCTIONS then condition_function s
    else if at_function s && negb (String.eqb name "size") then Err (unknown_function name)
    else (left <- operand ;; comparison_rest left) s.

Fixpoint not_loop (fuel : nat) (primary : P Cond) : P Cond := fun s =>
  match fuel with
  | 0 => Err out_of_fuel
  | S fuel' =>
      if is_keyword "NOT" s then (_ <- advance ;; c <- not_loop fuel' primary ;; pret (Not c)) s
      else primary s
  end.

(** [while is_keyword(kw) { advance; right = item; left = mk(left, right) }]. *)
Fixpoint chain_loop (fuel : nat) (kw : string) (mk : Cond -> Cond -> Cond) (item : P Cond)
  (left : Cond) : P Cond := fun s =>
  match fuel with
  | 0 => Err out_of_fuel
  | S fuel' =>
      if is_keyword kw s
      then (_ <- advance ;; right <- item ;; chain_loop fuel' kw mk item (mk left right)) s
      else Ok (left, s)
  end.

Definition chain (kw : string) (mk : Cond -> Cond -> Cond) (item : P Cond) : P Cond :=
  left <- item ;; fun s => chain_loop (length (rest s)) kw mk item left s.

Fixpoint or_expr_n (fuel : nat) : P Cond :=
  match fuel with
  | 0 => pfail out_of_fuel
  | S fuel' =>
      let not_expr : P Cond := fun s => not_loop (length (rest s)) (primary (or_expr_n fuel')) s in
      let and_expr := chain "AND" And not_expr in
      chain "OR" Or and_expr
  end.

Definition or_expr : P Cond := fun s => or_expr_n (length (rest s)) s.

(** The expression must end where the text does. *)
Definition at_end {A} (a : A) : P A := fun s =>
  if bool_decide (peek s = Eof) then Ok (a, s) else Err (syntax_error s).

Definition condition : P Cond := c <- or_expr ;; at_end c.

Definition projection : P (list DocPath) := l <- comma_list path ;; at_end l.

(** *** Updates *)

Definition UPDATE_FORBIDDEN : list string := CONDITION_FUNCTIONS ++ ["size"].

Definition set_operand (set_value : P SetValue) : P SetValue := fun s =>
  match peek s with
  | LParen => (_ <- advance ;; inner <- set_value ;; _ <- expect RParen ;; pret (SParen inner)) s
  | TValue => (v <- value_ref ;; pret (SOperand (OValue v))) s
  | TIdent =>
      if at_function s then
        let name := cur_text s in
        if str_in name ["if_not_exists"; "list_append"] then
          (_ <- advance ;; _ <- expect LParen ;; args <- comma_list set_value ;; _ <- expect RParen ;;
           match args with
           | [a; b] =>
               if String.eqb name "if_not_exists" then
                 match a with
                 | SOperand (OPath _) => pret (IfNotExists b)
                 | _ => pfail (requires_document_path "if_not_exists")
                 end
               else pret (ListAppend a b)
           | _ => pfail (operand_count name (length args))
           end) s
        else if str_in name UPDATE_FORBIDDEN then
          Err (invalid kind ("The function is not allowed in an update expression; function: " +:+ name))
        else Err (unknown_function name)
      else (p <- path ;; pret (SOperand (OPath p))) s
  | TName => (p <- path ;; pret (SOperand (OPath p))) s
  | _ => Err (syntax_error s)
  end.

Fixpoint set_value_n (fuel : nat) : P SetValue :=
  match fuel with
  | 0 => pfail out_of_fuel
  | S fuel' =>
      left <- set_operand (set_value_n fuel') ;;
      t <- pget peek ;;
      if bool_decide (t = Plus) || bool_decide (t = Minus)
      then _ <- advance ;; right <- set_operand (set_value_n fuel') ;; pret (Arith left right)
      else pret left
  end.

Definition set_value : P SetValue := fun s => set_value_n (length (rest s)) s.

Inductive Section_ := SET | REMOVE | ADD | DELETE.

#[local] Instance Section_eq_dec : EqDecision Section_.
Proof. solve_decision. Defined.

Definition section_text (x : Section_) : string :=
  match x with SET => "SET" | REMOVE => "REMOVE" | ADD => "ADD" | DELETE => "DELETE" end.

Definition section_at (s : PState) : option Section_ :=
  if is_keyword "SET" s then Some SET
  else if is_keyword "REMOVE" s then Some REMOVE
  else if is_keyword "ADD" s then Some ADD
  else if is_keyword "DELETE" s then Some DELETE
  else None.

(** One action of a section. *)
Definition update_action (x : Section_) (ast : UpdateAst) : P UpdateAst :=
  p <- path ;;
  match x with
  | SET => _ <- expect TEq ;; v <- set_value ;;
           pret (mkUpdateAst (sets ast ++ [(p, v)]) (removes ast) (adds ast) (deletes ast))
  | REMOVE => pret (mkUpdateAst (sets ast) (removes ast ++ [p]) (adds ast) (deletes ast))
  | ADD | DELETE => fun s =>
      if negb (bool_decide (peek s = TValue)) then Err (syntax_error s)
      else (v <- value_ref ;;
            pret (if bool_decide (x = ADD)
                  then mkUpdateAst (sets ast) (removes ast) (adds ast ++ [(p, v)]) (deletes ast)
                  else mkUpdateAst (sets ast) (removes ast) (adds ast) (deletes ast ++ [(p, v)]))) s
  end.

Fixpoint actions_loop (fuel : nat) (x : Section_) (ast : UpdateAst) : P UpdateAst :=
  match fuel with
  | 0 => pfail out_of_fuel
  | S fuel' =>
      ast' <- update_action x ast ;;
      t <- pget peek ;;
      if bool_decide (t = Comma) then _ <- advance ;; actions_loop fuel' x ast' else pret ast'
  end.

Fixpoint update_loop (fuel : nat) (seen : list Section_) (ast : UpdateAst) : P UpdateAst := fun s =>
  match fuel with
  | 0 => Err out_of_fuel
  | S fuel' =>
      match section_at s with
      | None => Err (syntax_error s)
      | Some x =>
          if bool_decide (x ∈ seen) then
            Err (invalid kind ("The " +:+ quoted (section_text x)
                   +:+ " section can only be used once in an update expression;"))
          else
            (_ <- advance ;;
             ast' <- (fun s => actions_loop (length (rest s)) x ast s) ;;
             t <- pget peek ;;
             if bool_decide (t = Eof) then pret ast' else update_loop fuel' (seen ++ [x]) ast') s
      end
  end.

Definition update : P UpdateAst := fun s => update_loop (length (rest s)) [] empty_ast s.

End Parser.

(** ** Request-time checks *)

Definition literal_type (op : Operand) (values : gmap string Value) : option string :=
  match op with
  | OValue ph => values !! ph ≫= value_type
  | _ => None
  end.

Definition incorrect_operand_type (kind : ExprKind) (op ty : string) : AwsServiceError :=
  invalid kind ("Incorrect operand type for operator or function; operator or function: "
    +:+ op +:+ ", operand type: " +:+ ty).

Definition check_size_and_empty (kind : ExprKind) (src : string) : Result AwsServiceError unit :=
  if is_empty_str (trim src) then Err (invalid kind "The expression can not be empty;")
  else if (MAX_EXPRESSION_BYTES <? byte_len src)%nat then
    Err (invalid kind ("Expression size has exceeded the maximum allowed size; expression size: "
           +:+ print_Z (Z.of_nat (byte_len src))))
  else Ok tt.

Definition overlap_error (kind : ExprKind) (a b : DocPath) : AwsServiceError :=
  invalid kind ("Two document paths overlap with each other; must remove or rewrite one of these "
    +:+ "paths; path one: " +:+ render_path a +:+ ", path two: " +:+ render_path b).

Fixpoint check_overlap (paths : list DocPath) (kind : ExprKind) : Result AwsServiceError unit :=
  match paths with
  | [] => Ok tt
  | a :: more =>
      _ ← each_ok (fun b => if is_prefix a b || is_prefix b a
                            then Err (overlap_error kind a b) else Ok tt) more;
      check_overlap more kind
  end.

Definition redundant (kind : ExprKind) : AwsServiceError :=
  invalid kind "The expression has redundant parentheses;".

Fixpoint check_redundant_parens (c : Cond) (kind : ExprKind) : Result AwsServiceError unit :=
  match c with
  | Paren inner =>
      match inner with
      | Paren _ => Err (redundant kind)
      | _ => check_redundant_parens inner kind
      end
  | And a b | Or a b => _ ← check_redundant_parens a kind; check_redundant_parens b kind
  | Not a => check_redundant_parens a kind
  | _ => Ok tt
  end.

Fixpoint check_set_value_parens (v : SetValue) (parent_paren : bool) : Result AwsServiceError unit :=
  match v with
  | SParen inner => if parent_paren then Err (redundant Update) else check_set_value_parens inner true
  | Arith a b | ListAppend a b => _ ← check_set_value_parens a false; check_set_value_parens b false
  | IfNotExists b => check_set_value_parens b false
  | SOperand _ => Ok tt
  end.

Definition orderable (t : string) : bool := str_in t ["S"; "N"; "B"].

Definition ATTRIBUTE_TYPES : list string :=
  ["B"; "BOOL"; "BS"; "L"; "M"; "N"; "NS"; "NULL"; "S"; "SS"].

Section Semantics.
Context `{Base64Decode} (json_text : Value -> string).

(** [AttributeValue: {N:10}]; [json_text] is [Value::to_string]. *)
Definition render_literal (v : Value) : string :=
  let ty := default "" (value_type v) in
  let inner := match get ty v with
               | Some (VString s) => s
               | Some other => json_text other
               | None => ""
               end in
  "AttributeValue: {" +:+ ty +:+ ":" +:+ inner +:+ "}".

(** Each side that is a literal must have one of the [ok] types. *)
Definition literal_sides (kind : ExprKind) (op : string) (ok : string -> bool)
  (values : gmap string Value) (sides : list Operand) : Result AwsServiceError unit :=
  each_ok (fun side => match literal_type side values with
                       | Some t => if ok t then Ok tt else Err (incorrect_operand_type kind op t)
                       | None => Ok tt
                       end) sides.

Definition check_between_bounds (kind : ExprKind) (values : gmap string Value) (lo hi : Operand)
  : Result AwsServiceError unit :=
  match lo, hi with
  | OValue lp, OValue hp =>
      match values !! lp, values !! hp with
      | Some lv, Some hv =>
          if negb (bool_decide (value_type lv = value_type hv)) then
            Err (invalid kind ("The BETWEEN operator requires same data type for lower and "
                   +:+ "upper bounds; lower bound operand: " +:+ render_literal lv
                   +:+ ", upper bound operand: " +:+ render_literal hv))
          else match compare_attribute_values (Some lv) (Some hv) with
               | Gt => Err (invalid kind
                   ("The BETWEEN operator requires upper bound to be greater than or "
                    +:+ "equal to lower bound; lower bound operand: " +:+ render_literal lv
                    +:+ ", upper bound operand: " +:+ render_literal hv))
               | _ => Ok tt
               end
      | _, _ => Ok tt
      end
  | _, _ => Ok tt
  end.

Fixpoint check_condition_semantics (c : Cond) (kind : ExprKind) (values : gmap string Value)
  : Result AwsServiceError unit :=
  match c with
  | And a b | Or a b =>
      _ ← check_condition_semantics a kind values; check_condition_semantics b kind values
  | Not a | Paren a => check_condition_semantics a kind values
  | Compare l op r =>
      match op with
      | CEq | CNe => Ok tt
      | _ => literal_sides kind (symbol op) orderable values [l; r]
      end
  | Between x lo hi =>
      _ ← literal_sides kind "BETWEEN" orderable values [x; lo; hi];
      check_between_bounds kind values lo hi
  | BeginsWith a b => literal_sides kind "begins_with" (fun t => str_in t ["S"; "B"]) values [a; b]
  | Contains a b =>
      match a, b with
      | OPath pa, OPath pb =>
          if bool_decide (pa = pb) then
            Err (invalid kind ("The first operand must be distinct from the remaining operands for "
                   +:+ "this operator or function; operator: contains, first operand: " +:+ render_path pa))
          else Ok tt
      | _, _ => Ok tt
      end
  | AttrType _ t =>
      _ ← literal_sides kind "attribute_type" (String.eqb "S") values [t];
      match t with
      | OValue ph =>
          match values !! ph ≫= get_str "S" with
          | Some name =>
              if str_in name ATTRIBUTE_TYPES then Ok tt
              else Err (invalid kind ("Invalid attribute type name found; type: " +:+ name
                     +:+ ", valid types: { B; BOOL; BS; L; M; N; NS; NULL; S; SS }"))
          | None => Ok tt
          end
      | _ => Ok tt
      end
  | In _ _ | Exists _ | NotExists _ => Ok tt
  end.

(** *** Key conditions *)

Definition bad_op (op : string) : AwsServiceError :=
  validation_error ("Invalid operator used in KeyConditionExpression: " +:+ op).

Definition check_key_operand (o : Operand) : Result AwsServiceError unit :=
  match o with
  | OPath (_ :: _ :: _) =>
      Err (validation_error "KeyConditionExpressions cannot have conditions on nested attributes")
  | OSize _ => Err (bad_op "size")
  | _ => Ok tt
  end.

Fixpoint check_key_condition_shape (c : Cond) : Result AwsServiceError unit :=
  match c with
  | And a b => _ ← check_key_condition_shape a; check_key_condition_shape b
  | Paren a => check_key_condition_shape a
  | Or _ _ => Err (bad_op "OR")
  | Not _ => Err (bad_op "NOT")
  | In _ _ => Err (bad_op "IN")
  | Exists _ => Err (bad_op "attribute_exists")
  | NotExists _ => Err (bad_op "attribute_not_exists")
  | AttrType _ _ => Err (bad_op "attribute_type")
  | Contains _ _ => Err (bad_op "contains")
  | Compare l op r =>
      match op with
      | CNe => Err (bad_op "<>")
      | _ => _ ← check_key_operand l; check_key_operand r
      end
  | Between x lo hi => _ ← check_key_operand x; _ ← check_key_operand lo; check_key_operand hi
  | BeginsWith a b => _ ← check_key_operand a; check_key_operand b
  end.

(** ** Entry points

    A context carries the placeholders used so far from one expression of a
    request to the next. *)

Record ExprContext := mkCtx {
  ctx_names : gmap string string;
  ctx_values : gmap string Value;
  ctx_used_names : gset string;
  ctx_used_values : gset string;
  ctx_strict : bool
}.

Definition new_context (names : gmap string string) (values : gmap string Value) (strict : bool)
  : ExprContext := mkCtx names values ∅ ∅ strict.

(** [Parser::new(src, kind, ctx).p()]. *)
Definition run {A} (p : string -> ExprKind -> gmap string string -> gmap string Value -> bool -> P A)
  (src : string) (kind : ExprKind) (ctx : ExprContext) : Result AwsServiceError (A * PState) :=
  p src kind (ctx_names ctx) (ctx_values ctx) (ctx_strict ctx)
    (mkPState None (lex src (negb (ctx_strict ctx))) (ctx_used_names ctx) (ctx_used_values ctx)).

Definition with_used (ctx : ExprContext) (s : PState) : ExprContext :=
  mkCtx (ctx_names ctx) (ctx_values ctx) (used_names s) (used_values s) (ctx_strict ctx).

Definition check_text (ctx : ExprContext) (kind : ExprKind) (src : string) : Result AwsServiceError unit :=
  if ctx_strict ctx then check_size_and_empty kind src else Ok tt.

Definition parse_condition_expression (src : string) (kind : ExprKind) (ctx : ExprContext)
  : Result AwsServiceError (Cond * ExprContext) :=
  _ ← check_text ctx kind src;
  '(cond, s) ← run condition src kind ctx;
  _ ← (if ctx_strict ctx then
         _ ← check_redundant_parens cond kind;
         _ ← check_condition_semantics cond kind (ctx_values ctx);
         match kind with KeyCondition => check_key_condition_shape cond | _ => Ok tt end
       else Ok tt);
  Ok (cond, with_used ctx s).

Definition parse_projection_expression (src : string) (ctx : ExprContext)
  : Result AwsServiceError (list DocPath * ExprContext) :=
  _ ← check_text ctx Projection src;
  '(paths, s) ← run (fun src kind names _ strict => projection src kind names strict) src Projection ctx;
  _ ← (if ctx_strict ctx then check_overlap paths Projection else Ok tt);
  Ok (paths, with_used ctx s).

Definition parse_update_expression (src : string) (ctx : ExprContext)
  : Result AwsServiceError (UpdateAst * ExprContext) :=
  _ ← check_text ctx Update src;
  '(ast, s) ← run update src Update ctx;
  _ ← each_ok (fun pv => check_set_value_parens pv.2 false) (sets ast);
  _ ← check_overlap (target_paths ast) Update;
  Ok (ast, with_used ctx s).

(** A document path alone, leniently. *)
Definition parse_document_path (src : string) (names : gmap string string) : option DocPath :=
  match path src Update names false (mkPState None (lex src true) ∅ ∅) with
  | Ok (p, s) => if bool_decide (peek src s = Eof) then Some p else None
  | Err _ => None
  end.

Definition parse_condition_lenient (expr : string) (names : gmap string string)
  (values : gmap string Value) : option Cond :=
  match parse_condition_expression expr Filter (new_context names values false) with
  | Ok (c, _) => Some c
  | Err _ => None
  end.

(** ** Evaluation *)

(** [l.get(i)] of a JSON array. *)
Definition nth_value (l : list Value) (i : Z) : option Value :=
  if (i <? Z.of_nat (length l))%Z then l !! Z.to_nat i else None.

Definition step_into (cur : Value) (e : PathElem) : option Value :=
  match e with
  | Attr k => get "M" cur ≫= get k
  | Index i => get_array "L" cur ≫= fun l => nth_value l i
  end.

Definition resolve_doc_path (item : Item) (path : DocPath) : option Value :=
  match path with
  | Attr name :: more => item !! name ≫= fun v => foldl (fun cur e => cur ≫= fun v => step_into v e) (Some v) more
  | _ => None
  end.

Definition resolve_operand (op : Operand) (item : Item) (values : gmap string Value) : option Value :=
  match op with
  | OPath p => resolve_doc_path item p
  | OValue ph => values !! ph
  | OSize p => (resolve_doc_path item p ≫= attribute_size) ≫= fun n =>
      Some (VObject [("N", VString (print_Z (Z.of_nat n)))])
  end.

Definition is_lt (c : comparison) : bool := match c with Lt => true | _ => false end.
Definition is_gt (c : comparison) : bool := match c with Gt => true | _ => false end.

Definition eval_compare (op : CmpOp) (a b : option Value) : bool :=
  match op with
  | CEq => match a, b with Some a, Some b => attribute_values_equal a b | _, _ => false end
  | CNe => match a, b with
           | Some a, Some b => negb (attribute_values_equal a b)
           | None, None => false
           | _, _ => true
           end
  | _ =>
      if negb (comparable_types a b) then false
      else let ord := compare_attribute_values a b in
           match op with
           | CLt => is_lt ord
           | CLe => negb (is_gt ord)
           | CGt => is_gt ord
           | _ => negb (is_lt ord)
           end
  end.

Fixpoint eval_cond (c : Cond) (item : Item) (values : gmap string Value) : bool :=
  match c with
  | And a b => eval_cond a item values && eval_cond b item values
  | Or a b => eval_cond a item values || eval_cond b item values
  | Not a => negb (eval_cond a item values)
  | Paren a => eval_cond a item values
  | Exists p => bool_decide (is_Some (resolve_doc_path item p))
  | NotExists p => negb (bool_decide (is_Some (resolve_doc_path item p)))
  | AttrType p t =>
      match resolve_doc_path item p ≫= value_type, resolve_operand t item values ≫= get_str "S" with
      | Some a, Some w => String.eqb a w
      | _, _ => false
      end
  | BeginsWith a b =>
      match resolve_operand a item values, resolve_operand b item values with
      | Some a, Some b => attribute_begins_with a b
      | _, _ => false
      end
  | Contains a b =>
      match resolve_operand a item values, resolve_operand b item values with
      | Some a, Some b => contains_value a b
      | _, _ => false
      end
  | In x l =>
      match resolve_operand x item values with
      | None => false
      | Some x => existsb (fun o => match resolve_operand o item values with
                                    | Some v => attribute_values_equal x v
                                    | None => false
                                    end) l
      end
  | Between x lo hi =>
      match resolve_operand x item values, resolve_operand lo item values, resolve_operand hi item values with
      | Some x, Some lo, Some hi =>
          comparable_types (Some x) (Some lo) && comparable_types (Some x) (Some hi)
          && negb (is_lt (compare_attribute_values (Some x) (Some lo)))
          && negb (is_gt (compare_attribute_values (Some x) (Some hi)))
      | _, _, _ => false
      end
  | Compare l op r => eval_compare op (resolve_operand l item values) (resolve_operand r item values)
  end.

(** ** Request-level validation *)

Inductive ExprOp := OpGetItem | OpPutItem | OpDeleteItem | OpUpdateItem | OpQuery | OpScan.

Definition legacy_params (op : ExprOp) : list string :=
  match op with
  | OpGetItem => ["AttributesToGet"]
  | OpPutItem | OpDeleteItem => ["Expected"; "ConditionalOperator"]
  | OpUpdateItem => ["AttributeUpdates"; "Expected"; "ConditionalOperator"]
  | OpQuery => ["AttributesToGet"; "KeyConditions"; "QueryFilter"; "ConditionalOperator"]
  | OpScan => ["AttributesToGet"; "ScanFilter"; "ConditionalOperator"]
  end.

(** In the order they are parsed. *)
Definition expression_params (op : ExprOp) : list ExprKind :=
  match op with
  | OpGetItem => [Projection]
  | OpPutItem | OpDeleteItem => [Condition]
  | OpUpdateItem => [Update; Condition]
  | OpQuery => [KeyCondition; Filter; Projection]
  | OpScan => [Filter; Projection]
  end.

Record ParsedExpressions := mkParsed {
  p_condition : option Cond;
  p_filter : option Cond;
  p_key_condition : option Cond;
  p_projection : option (list DocPath);
  p_update : option UpdateAst
}.

Definition nothing_parsed : ParsedExpressions := mkParsed None None None None None.

Definition present (body : Value) (field : string) : bool :=
  match index body field with Null => false | _ => true end.

Definition placeholder_key_ok (key : string) (prefix : ascii) : bool :=
  match key with
  | String c more => Ascii.eqb c prefix && negb (is_empty_str more) && string_forallb is_word_byte more
  | EmptyString => false
  end.

Definition parse_expression_attribute_names (body : Value) : gmap string string :=
  foldl (fun m kv => match as_str kv.2 with Some v => <[kv.1 := v]> m | None => m end) ∅
    (default [] (as_object (index body "ExpressionAttributeNames"))).

Definition parse_expression_attribute_values (body : Value) : gmap string Value :=
  foldl (fun m kv => <[kv.1 := kv.2]> m) ∅
    (default [] (as_object (index body "ExpressionAttributeValues"))).

(** Both placeholder maps: present only with an expression, then not empty and
    well-formed. *)
Definition PLACEHOLDER_FIELDS : list (string * ascii) :=
  [("ExpressionAttributeNames", "#"%char); ("ExpressionAttributeValues", ":"%char)].

Definition check_placeholder_map (body : Value) (fp : string * ascii) : Result AwsServiceError unit :=
  match as_object (index body fp.1) with
  | None => Ok tt
  | Some [] => Err (validation_error (fp.1 +:+ " must not be empty"))
  | Some m =>
      each_ok (fun key => if placeholder_key_ok key fp.2 then Ok tt
                          else Err (validation_error (fp.1 +:+ " contains invalid key: Syntax error; key: "
                                      +:+ quoted key))) m.*1
  end.

Definition check_value_depths (body : Value) : Result AwsServiceError unit :=
  each_ok (fun kv : string * Value =>
    if (MAX_NESTING_DEPTH <? attribute_depth kv.2)%nat then
      Err (validation_error ("ExpressionAttributeValues contains invalid value: Nesting Levels have "
             +:+ "exceeded supported limits for key " +:+ kv.1))
    else Ok tt) (default [] (as_object (index body "ExpressionAttributeValues"))).

(** One expression parameter, parsed into its field. *)
Definition parse_param (body : Value) (kind : ExprKind) (st : ParsedExpressions * ExprContext)
  : Result AwsServiceError (ParsedExpressions * ExprContext) :=
  let '(parsed, ctx) := st in
  match as_str (index body (param kind)) with
  | None => Ok st
  | Some src =>
      match kind with
      | Projection =>
          '(l, ctx') ← parse_projection_expression src ctx;
          Ok (mkParsed (p_condition parsed) (p_filter parsed) (p_key_condition parsed) (Some l)
                (p_update parsed), ctx')
      | Update =>
          '(a, ctx') ← parse_update_expression src ctx;
          Ok (mkParsed (p_condition parsed) (p_filter parsed) (p_key_condition parsed)
                (p_projection parsed) (Some a), ctx')
      | Condition =>
          '(c, ctx') ← parse_condition_expression src kind ctx;
          Ok (mkParsed (Some c) (p_filter parsed) (p_key_condition parsed) (p_projection parsed)
                (p_update parsed), ctx')
      | Filter =>
          '(c, ctx') ← parse_condition_expression src kind ctx;
          Ok (mkParsed (p_condition parsed) (Some c) (p_key_condition parsed) (p_projection parsed)
                (p_update parsed), ctx')
      | KeyCondition =>
          '(c, ctx') ← parse_condition_expression src kind ctx;
          Ok (mkParsed (p_condition parsed) (p_filter parsed) (Some c) (p_projection parsed)
                (p_update parsed), ctx')
      end
  end.

Fixpoint parse_params (body : Value) (kinds : list ExprKind) (st : ParsedExpressions * ExprContext)
  : Result AwsServiceError (ParsedExpressions * ExprContext) :=
  match kinds with
  | [] => Ok st
  | k :: ks => st' ← parse_param body k st; parse_params body ks st'
  end.

(** Declared but unused placeholders, sorted. *)
Definition unused {A} (declared : gmap string A) (used : gset string) : list string :=
  merge_sort BTree.str_le (elements (dom declared ∖ used)).

Definition check_unused {A} (field : string) (declared : gmap string A) (used : gset string)
  : Result AwsServiceError unit :=
  match unused declared used with
  | [] => Ok tt
  | l => Err (validation_error ("Value provided in " +:+ field +:+ " unused in expressions: keys: {"
                +:+ join ", " l +:+ "}"))
  end.

Definition validate_request_expressions (body : Value) (op : ExprOp)
  : Result AwsServiceError ParsedExpressions :=
  let legacy := List.filter (present body) (legacy_params op) in
  let exprs := List.filter (present body) (param <$> expression_params op) in
  match legacy, exprs with
  | _ :: _, _ :: _ =>
      Err (validation_error ("Can not use both expression and non-expression parameters in the same "
        +:+ "request: Non-expression parameters: {" +:+ join ", " legacy
        +:+ "} Expression parameters: {" +:+ join ", " exprs +:+ "}"))
  | _, _ =>
      _ ← each_ok (fun fp : string * ascii =>
             if present body fp.1 && match exprs with [] => true | _ => false end
             then Err (validation_error (fp.1 +:+ " can only be specified when using expressions"))
             else Ok tt) PLACEHOLDER_FIELDS;
      _ ← each_ok (check_placeholder_map body) PLACEHOLDER_FIELDS;
      let names := parse_expression_attribute_names body in
      let values := parse_expression_attribute_values body in
      _ ← check_value_depths body;
      '(parsed, ctx) ← parse_params body (expression_params op) (nothing_parsed, new_context names values true);
      _ ← check_unused "ExpressionAttributeNames" names (ctx_used_names ctx);
      _ ← check_unused "ExpressionAttributeValues" values (ctx_used_values ctx);
      Ok parsed
  end.

End Semantics.

(** ** Worked inputs (from the unit tests) *)

Module Examples.

#[local] Instance no_base64 : Base64Decode := {| base64_decode := fun _ => None |}.

Definition str (s : string) : Value := VObject [("S", VString s)].
Definition num (s : string) : Value := VObject [("N", VString s)].
Definition message (r : Result AwsServiceError ParsedExpressions) : string :=
  match r with Err (AwsError _ _ m _ _) => m | _ => "" end.

Definition validate (body : list (string * Value)) (op : ExprOp) : string :=
  message (validate_request_expressions (fun _ => "") (VObject body) op).

Example syntax_errors :
  (validate [("ProjectionExpression", VString "!!! INVALID !!!")] OpGetItem,
   validate [("UpdateExpression", VString "INVALID SYNTAX HERE")] OpUpdateItem,
   validate [("ConditionExpression", VString "((attribute_not_exists(pk)))")] OpPutItem,
   validate [("UpdateExpression", VString "SET status = :v");
             ("ExpressionAttributeValues", VObject [(":v", str "x")])] OpUpdateItem,
   validate [("ProjectionExpression", VString "l, l[0]")] OpGetItem)
  = ("Invalid ProjectionExpression: Syntax error; token: " +:+ quoted "!" +:+ ", near: " +:+ quoted "!!",
     "Invalid UpdateExpression: Syntax error; token: " +:+ quoted "INVALID" +:+ ", near: "
       +:+ quoted "INVALID SYNTAX",
     "Invalid ConditionExpression: The expression has redundant parentheses;",
     "Invalid UpdateExpression: Attribute name is a reserved keyword; reserved keyword: status",
     "Invalid ProjectionExpression: Two document paths overlap with each other; must remove or rewrite one of these paths; path one: [l], path two: [l, [0]]").
Proof. vm_compute. reflexivity. Qed.

Definition eval (expr : string) (item values : list (string * Value)) : option bool :=
  let values := list_to_map values in
  (fun c => eval_cond c (list_to_map item) values)
    <$> parse_condition_lenient (fun _ => "") expr ∅ values.

Example evaluation_semantics :
  (eval "s <> :v" [] [(":v", str "x")], eval "s < :v" [] [(":v", str "x")],
   eval ":lo <= sk" [("sk", str "m")] [(":lo", str "a")],
   eval "size(s) = :three AND NOT (n > :three OR n IN (:three, s))"
     [("s", str "abc"); ("n", num "2.5")] [(":three", num "3.0")])
  = (Some true, Some false, Some true, Some true).
Proof. vm_compute. reflexivity. Qed.

End Examples.
