(* ===== verification/DdbExprTheory.v ===== *)
(** * DynamoDB expressions: the grammar and the parser

    The grammar of condition expressions as an inductive relation between
    lexemes (a token's class and its text) and syntax trees, and the theorem
    that the recursive-descent parser of [DdbExpr] recognises it: what it
    accepts is derived by the grammar ([sound]), what the grammar derives is
    accepted ([complete]), and no bound on the recursion is reached on the way
    ([sound] excludes [out_of_fuel]). *)

From Stdlib Require Import ZArith Lia Bool String Ascii.
From stdpp Require Import base option list strings gmap sets sorting.
From S2P Require Import Prelude Json BTree Text Sqs DdbNumber DdbValue DdbReserved DdbExpr.
Import Sqs(AwsServiceError, AwsError, aws_error).

Local Open Scope string_scope.
Local Open Scope list_scope.

(** ** Lexemes *)

Notation Lexeme := (Tok * string)%type.

(** The texts of the lexemes of one class: the placeholders of a text. *)
Definition texts_of (t : Tok) (l : list Lexeme) : gset string :=
  list_to_set (snd <$> filter (fun w => w.1 = t) l).

Lemma texts_of_app t l1 l2 : texts_of t (l1 ++ l2) = texts_of t l1 ∪ texts_of t l2.
Proof. unfold texts_of. rewrite filter_app, fmap_app, list_to_set_app_L. done. Qed.

Lemma texts_of_nil t : texts_of t [] = ∅.
Proof. done. Qed.

Lemma texts_of_one t w : texts_of t [w] = if decide (w.1 = t) then {[w.2]} else ∅.
Proof.
  unfold texts_of. rewrite filter_cons, filter_nil. destruct decide; simpl; [apply union_empty_r_L|done].
Qed.

Definition keyword (kw : string) (w : Lexeme) : Prop :=
  w.1 = TIdent /\ eq_ignore_ascii_case w.2 kw = true.

(** ** The grammar *)

Section Grammar.
Context (names : gmap string string) (values : gmap string Value) (strict : bool).

(** An attribute name: a word that is no keyword (and not reserved, when
    strict), a defined [#placeholder] (an undefined one stands for itself when
    lenient) or, when lenient, a quoted name. *)
Definition GName (w : Lexeme) (n : string) : Prop :=
  match w.1 with
  | TIdent => existsb (fun k => eq_ignore_ascii_case k w.2) GRAMMAR_KEYWORDS = false
              /\ strict && is_reserved_word w.2 = false /\ n = w.2
  | TQuoted => strict = false /\ n = slice w.2 1 (String.length w.2 - 1)
  | TName => names !! w.2 = Some n \/ (strict = false /\ names !! w.2 = None /\ n = w.2)
  | _ => False
  end.

(** [.name] or [\[index\]]. *)
Inductive GStep : list Lexeme -> PathElem -> Prop :=
| GStep_attr d w n : GName w n -> GStep [(Dot, d); w] (Attr n)
| GStep_index a d i b : parse_u64 d = Some i -> GStep [(LBracket, a); (TNum, d); (RBracket, b)] (Index i).

Inductive GSteps : list Lexeme -> DocPath -> Prop :=
| GSteps_nil : GSteps [] []
| GSteps_cons l1 l2 e p : GStep l1 e -> GSteps l2 p -> GSteps (l1 ++ l2) (e :: p).

Inductive GPath : list Lexeme -> DocPath -> Prop :=
| GPath_intro w n l p : GName w n -> GSteps l p -> GPath (w :: l) (Attr n :: p).

(** [, item , item ...] *)
Inductive GCommas {A} (item : list Lexeme -> A -> Prop) : list Lexeme -> list A -> Prop :=
| GCommas_nil : GCommas item [] []
| GCommas_cons c l1 l2 x xs :
    item l1 x -> GCommas item l2 xs -> GCommas item ((Comma, c) :: l1 ++ l2) (x :: xs).

Inductive GList {A} (item : list Lexeme -> A -> Prop) : list Lexeme -> list A -> Prop :=
| GList_intro l1 l2 x xs : item l1 x -> GCommas item l2 xs -> GList item (l1 ++ l2) (x :: xs).

Definition bare (l : list Lexeme) : Prop :=
  match l with w :: _ => w.1 = TIdent \/ w.1 = TName | [] => False end.

Inductive GOperand : list Lexeme -> Operand -> Prop :=
| GO_value ph : strict && negb (bool_decide (is_Some (values !! ph))) = false ->
    GOperand [(TValue, ph)] (OValue ph)
| GO_path l p : GPath l p -> bare l -> GOperand l (OPath p)
| GO_size a l b p : GPath l p -> bare l ->
    GOperand ((TIdent, "size") :: (LParen, a) :: l ++ [(RParen, b)]) (OSize p).

(** [name ( operand, ... )] and the condition it stands for. *)
Inductive GFunction : string -> list Operand -> Cond -> Prop :=
| GF_exists p : GFunction "attribute_exists" [OPath p] (Exists p)
| GF_not_exists p : GFunction "attribute_not_exists" [OPath p] (NotExists p)
| GF_type p t : GFunction "attribute_type" [OPath p; t] (AttrType p t)
| GF_begins a b : GFunction "begins_with" [a; b] (BeginsWith a b)
| GF_contains a b : GFunction "contains" [a; b] (Contains a b).

(** The levels of precedence, loosest first. *)
Inductive Level := LOr | LAnd | LNot | LPrimary.

Inductive G : Level -> list Lexeme -> Cond -> Prop :=
| G_or_one l c : G LAnd l c -> G LOr l c
| G_or l1 k l2 a b : G LOr l1 a -> keyword "OR" k -> G LAnd l2 b -> G LOr (l1 ++ k :: l2) (Or a b)
| G_and_one l c : G LNot l c -> G LAnd l c
| G_and l1 k l2 a b : G LAnd l1 a -> keyword "AND" k -> G LNot l2 b -> G LAnd (l1 ++ k :: l2) (And a b)
| G_not_one l c : G LPrimary l c -> G LNot l c
| G_not k l a : keyword "NOT" k -> G LNot l a -> G LNot (k :: l) (Not a)
| G_paren a l b c : G LOr l c -> G LPrimary ((LParen, a) :: l ++ [(RParen, b)]) (Paren c)
| G_function name a l b args c : GList GOperand l args -> GFunction name args c ->
    G LPrimary ((TIdent, name) :: (LParen, a) :: l ++ [(RParen, b)]) c
| G_compare l1 t o l2 op a b : GOperand l1 a -> cmp_op t = Some op -> GOperand l2 b ->
    G LPrimary (l1 ++ (t, o) :: l2) (Compare a op b)
| G_between l1 k l2 k' l3 a b c : GOperand l1 a -> keyword "BETWEEN" k -> GOperand l2 b ->
    keyword "AND" k' -> GOperand l3 c -> G LPrimary (l1 ++ k :: l2 ++ k' :: l3) (Between a b c)
| G_in l1 k p l q a args : GOperand l1 a -> keyword "IN" k -> GList GOperand l args ->
    G LPrimary (l1 ++ k :: (LParen, p) :: l ++ [(RParen, q)]) (In a args).

End Grammar.

(** ** Parser states as lexemes *)

Section Theory.
Context (src : string) (kind : ExprKind) (names : gmap string string) (values : gmap string Value)
  (strict : bool).

Definition lexeme (t : Token) : Lexeme := (tok t, text src t).
Definition lexemes (s : PState) : list Lexeme := lexeme <$> rest s.

(** The token vector ends in [Eof]. *)
Definition wf (s : PState) : Prop := last (tok <$> rest s) = Some Eof.

(** [s'] is [s] after the lexemes [l], whose placeholders are recorded. *)
Record consumes (s : PState) (l : list Lexeme) (s' : PState) : Prop := {
  c_lexemes : lexemes s = l ++ lexemes s';
  c_wf : wf s';
  c_names : used_names s' = used_names s ∪ texts_of TName l;
  c_values : used_values s' = used_values s ∪ texts_of TValue l
}.

Lemma consumes_nil s : wf s -> consumes s [] s.
Proof. intros W. split; rewrite ?texts_of_nil; try set_solver; done. Qed.

Lemma consumes_trans s1 l1 s2 l2 s3 :
  consumes s1 l1 s2 -> consumes s2 l2 s3 -> consumes s1 (l1 ++ l2) s3.
Proof.
  intros [E1 W1 N1 V1] [E2 W2 N2 V2]. split.
  - rewrite E1, E2, app_assoc. done.
  - done.
  - rewrite N2, N1, texts_of_app. set_solver.
  - rewrite V2, V1, texts_of_app. set_solver.
Qed.

Lemma consumes_len s l s' : consumes s l s' -> length (rest s) = length l + length (rest s').
Proof.
  intros C. apply c_lexemes in C. apply (f_equal length) in C.
  unfold lexemes in C. rewrite length_app, !length_fmap in C. done.
Qed.

Lemma wf_pos s : wf s -> 0 < length (rest s).
Proof. unfold wf. destruct (rest s); simpl; [done|lia]. Qed.

Lemma lexemes_head s : wf s -> exists l, lexemes s = (peek src s, cur_text src s) :: l.
Proof.
  unfold wf, lexemes, peek, cur_text, current. destruct (rest s) as [|t r]; [done|]. simpl. eauto.
Qed.

Lemma advance_step s : wf s -> peek src s <> Eof ->
  exists s1, advance s = Ok (tt, s1) /\ lexemes s = (peek src s, cur_text src s) :: lexemes s1 /\ wf s1
             /\ used_names s1 = used_names s /\ used_values s1 = used_values s.
Proof.
  intros W E. unfold advance, wf, lexemes, peek, cur_text, current in *.
  destruct (rest s) as [|t [|t' r]]; simpl in *; [done|congruence|].
  eexists. split; [done|]. simpl. done.
Qed.

(** Not a placeholder: the used sets do not change. *)
Lemma advance_plain s t : wf s -> peek src s = t -> t <> Eof -> t <> TName -> t <> TValue ->
  exists s1, advance s = Ok (tt, s1) /\ consumes s [(t, cur_text src s)] s1.
Proof.
  intros W E N1 N2 N3. destruct (advance_step s W) as (s1 & A & L & W1 & U & V); [congruence|].
  exists s1. split; [done|]. rewrite E in L. split; [done|done|..].
  - rewrite U, texts_of_one. simpl. rewrite decide_False by done. set_solver.
  - rewrite V, texts_of_one. simpl. rewrite decide_False by done. set_solver.
Qed.

Lemma advance_name s : wf s -> peek src s = TName ->
  exists s1, pbind (use_name (cur_text src s)) (fun _ => advance) s = Ok (tt, s1)
             /\ consumes s [(TName, cur_text src s)] s1.
Proof.
  intros W E. set (s0 := mkPState (prev s) (rest s) ({[cur_text src s]} ∪ used_names s) (used_values s)).
  assert (P0 : peek src s0 = TName) by exact E.
  destruct (advance_step s0) as (s1 & A & L & W1 & U & V); [exact W|congruence|].
  exists s1. split; [exact A|]. rewrite P0 in L. split; [exact L|done|..].
  - rewrite U, texts_of_one. simpl. set_solver.
  - rewrite V, texts_of_one. simpl. set_solver.
Qed.

Lemma advance_value s : wf s -> peek src s = TValue ->
  exists s1, pbind (use_value (cur_text src s)) (fun _ => advance) s = Ok (tt, s1)
             /\ consumes s [(TValue, cur_text src s)] s1.
Proof.
  intros W E. set (s0 := mkPState (prev s) (rest s) (used_names s) ({[cur_text src s]} ∪ used_values s)).
  assert (P0 : peek src s0 = TValue) by exact E.
  destruct (advance_step s0) as (s1 & A & L & W1 & U & V); [exact W|congruence|].
  exists s1. split; [exact A|]. rewrite P0 in L. split; [exact L|done|..].
  - rewrite U, texts_of_one. simpl. set_solver.
  - rewrite V, texts_of_one. simpl. set_solver.
Qed.

(** ** Soundness *)

(** From [s], the result [r] consumed lexemes related to its value by [Q], or is
    an error of the source. *)
Definition outcome {A} (s : PState) (Q : list Lexeme -> A -> Prop) (r : PResult A) : Prop :=
  match r with
  | Ok (a, s') => exists l, consumes s l s' /\ Q l a
  | Err e => e <> out_of_fuel
  end.

Lemma outcome_ret {A} s Q (a : A) : wf s -> Q [] a -> outcome s Q (Ok (a, s)).
Proof. intros W H. exists []. split; [by apply consumes_nil|done]. Qed.

Lemma outcome_pret {A} s Q (a : A) : wf s -> Q [] a -> outcome s Q (pret a s).
Proof. apply outcome_ret. Qed.

Lemma outcome_bind {A B} s (Q1 : list Lexeme -> A -> Prop) (Q : list Lexeme -> B -> Prop) p f :
  outcome s Q1 (p s) ->
  (forall l1 a s1, consumes s l1 s1 -> Q1 l1 a -> outcome s1 (fun l2 b => Q (l1 ++ l2) b) (f a s1)) ->
  outcome s Q (pbind p f s).
Proof.
  unfold pbind. intros Hp Hf. destruct (p s) as [[a s1]|e]; [|exact Hp].
  destruct Hp as (l1 & C1 & Q1a). specialize (Hf l1 a s1 C1 Q1a).
  destruct (f a s1) as [[b s2]|e]; [|exact Hf]. destruct Hf as (l2 & C2 & HQ).
  exists (l1 ++ l2). split; [by eapply consumes_trans|done].
Qed.

Lemma outcome_step {A} s s1 l (Q : list Lexeme -> A -> Prop) (p : P unit) f :
  p s = Ok (tt, s1) -> consumes s l s1 ->
  outcome s1 (fun l' a => Q (l ++ l') a) (f s1) -> outcome s Q (pbind p (fun _ => f) s).
Proof.
  unfold pbind. intros -> C H. destruct (f s1) as [[b s2]|e]; [|exact H]. destruct H as (l2 & C2 & HQ).
  exists (l ++ l2). split; [by eapply consumes_trans|done].
Qed.

Lemma outcome_advance {A} s t (Q : list Lexeme -> A -> Prop) p :
  wf s -> peek src s = t -> t <> Eof -> t <> TName -> t <> TValue ->
  (forall s1, consumes s [(t, cur_text src s)] s1 -> wf s1 ->
     outcome s1 (fun l a => Q ((t, cur_text src s) :: l) a) (p s1)) ->
  outcome s Q (pbind advance (fun _ => p) s).
Proof.
  intros W E N1 N2 N3 H. destruct (advance_plain s t W E N1 N2 N3) as (s1 & A1 & C).
  eapply outcome_step; [done|done|]. apply H; [done|exact (c_wf _ _ _ C)].
Qed.

Lemma pbind_assoc {A B C} (p : P A) (q : A -> P B) (r : B -> P C) s :
  pbind p (fun a => pbind (q a) r) s = pbind (pbind p q) r s.
Proof. unfold pbind. destruct (p s) as [[a s1]|e]; done. Qed.

Lemma outcome_impl {A} s (Q Q' : list Lexeme -> A -> Prop) r :
  outcome s Q r -> (forall l a, Q l a -> Q' l a) -> outcome s Q' r.
Proof. unfold outcome. destruct r as [[a s1]|e]; [|done]. intros (l & C & H) I. eauto. Qed.

Lemma invalid_ne k m : invalid k m <> out_of_fuel.
Proof. discriminate. Qed.

Lemma syntax_error_ne s : syntax_error src kind s <> out_of_fuel.
Proof. apply invalid_ne. Qed.

Lemma outcome_invalid {A} s (Q : list Lexeme -> A -> Prop) k m : outcome s Q (pfail (invalid k m) s).
Proof. apply invalid_ne. Qed.

Lemma expect_outcome s t : wf s -> t <> Eof -> t <> TName -> t <> TValue ->
  outcome s (fun l _ => exists x, l = [(t, x)]) (expect src kind t s).
Proof.
  intros W N1 N2 N3. unfold expect. case_bool_decide as E; [|apply syntax_error_ne].
  destruct (advance_plain s t W E N1 N2 N3) as (s1 & -> & C). exists [(t, cur_text src s)]. eauto.
Qed.

(** *** Paths *)

Lemma path_name_outcome s : wf s ->
  outcome s (fun l n => exists w, l = [w] /\ GName names strict w n) (path_name src kind names strict s).
Proof.
  intros W. unfold path_name. destruct (peek src s) eqn:E; try apply syntax_error_ne.
  - destruct existsb eqn:K; [apply syntax_error_ne|].
    destruct (strict && is_reserved_word (cur_text src s)) eqn:R; [apply invalid_ne|].
    eapply outcome_advance; [done|done|done..|]. intros s1 C W1.
    apply outcome_pret; [done|]. eexists. split; [done|]. done.
  - destruct (advance_name s W E) as (s1 & A1 & C). pose proof (c_wf _ _ _ C) as W1.
    destruct (names !! cur_text src s) as [n|] eqn:L; [|destruct strict eqn:St; [apply invalid_ne|]];
      rewrite pbind_assoc; (eapply outcome_step; [done|done|]); apply outcome_pret; try done;
      (eexists; split; [done|]); [left|right]; done.
  - destruct strict eqn:St; [apply syntax_error_ne|].
    eapply outcome_advance; [done|done|done..|]. intros s1 C W1.
    apply outcome_pret; [done|]. eexists. split; [done|]. done.
Qed.

Lemma path_step_outcome s : wf s ->
  outcome s (fun l o => match o with Some e => GStep names strict l e | None => l = [] end)
    (path_step src kind names strict s).
Proof.
  intros W. unfold path_step. destruct (peek src s) eqn:E; try (by apply outcome_ret).
  - eapply outcome_advance; [done|done|done..|]. intros s1 C1 W1.
    case_bool_decide as E1; [|apply syntax_error_ne]. simpl.
    destruct parse_u64 as [idx|] eqn:Ep; [|apply syntax_error_ne].
    eapply outcome_advance; [done|done|done..|]. intros s2 C2 W2.
    eapply outcome_bind; [by apply expect_outcome|]. intros l3 [] s3 C3 [x ->].
    apply outcome_pret; [exact (c_wf _ _ _ C3)|]. simpl. by constructor.
  - eapply outcome_advance; [done|done|done..|]. intros s1 C1 W1.
    eapply outcome_bind; [by apply path_name_outcome|]. intros l2 n s2 C2 (w & -> & Hn).
    apply outcome_pret; [exact (c_wf _ _ _ C2)|]. simpl. by constructor.
Qed.

Lemma GStep_nonempty l e : GStep names strict l e -> 0 < length l.
Proof. destruct 1; simpl; lia. Qed.

Lemma path_loop_outcome n s : wf s -> length (rest s) <= n ->
  outcome s (GSteps names strict) (path_loop src kind names strict n s).
Proof.
  revert s. induction n as [|n IH]; intros s W N; [pose proof (wf_pos s W); lia|]. simpl.
  eapply outcome_bind; [by apply path_step_outcome|]. intros l1 o s1 C1 Ho.
  pose proof (c_wf _ _ _ C1) as W1. destruct o as [e|]; [|subst l1; apply outcome_pret; [done|constructor]].
  pose proof (GStep_nonempty _ _ Ho). pose proof (consumes_len _ _ _ C1).
  eapply outcome_bind; [apply IH; [done|lia]|]. intros l2 p s2 C2 Hp.
  apply outcome_pret; [exact (c_wf _ _ _ C2)|]. rewrite app_nil_r. by constructor.
Qed.

Lemma path_outcome s : wf s -> outcome s (GPath names strict) (path src kind names strict s).
Proof.
  intros W. unfold path. eapply outcome_bind; [by apply path_name_outcome|]. intros l1 n s1 C1 (w & -> & Hn).
  eapply outcome_bind; [apply path_loop_outcome; [exact (c_wf _ _ _ C1)|done]|].
  intros l2 p s2 C2 Hp. apply outcome_pret; [exact (c_wf _ _ _ C2)|]. simpl. rewrite app_nil_r. by constructor.
Qed.

Lemma value_ref_outcome s : wf s -> peek src s = TValue ->
  outcome s (fun l ph => l = [(TValue, ph)] /\ strict && negb (bool_decide (is_Some (values !! ph))) = false)
    (value_ref src kind values strict s).
Proof.
  intros W E. unfold value_ref. destruct (strict && _) eqn:St; [apply invalid_ne|].
  destruct (advance_value s W E) as (s1 & A1 & C). rewrite pbind_assoc.
  eapply outcome_step; [done|done|]. apply outcome_pret; [exact (c_wf _ _ _ C)|]. done.
Qed.

(** *** Operands *)

(** A sound outcome on every state with at most [n] tokens. *)
Definition sound {A} (n : nat) (Q : list Lexeme -> A -> Prop) (p : P A) : Prop :=
  forall s, wf s -> length (rest s) <= n -> outcome s Q (p s).

Lemma comma_loop_outcome {A} n (Q : list Lexeme -> A -> Prop) item s :
  sound n Q item -> wf s -> length (rest s) <= n ->
  outcome s (GCommas Q) (comma_loop src n item s).
Proof.
  intros Hi. assert (Hk : forall k s, wf s -> length (rest s) <= k -> k <= n ->
    outcome s (GCommas Q) (comma_loop src k item s)); [|intros W N; by apply Hk].
  clear s. intros k. induction k as [|k IH]; intros s W N L; [pose proof (wf_pos s W); lia|]. simpl.
  case_bool_decide as E; [|apply outcome_ret; [done|constructor]].
  eapply outcome_advance; [done|done|done..|]. intros s1 C1 W1.
  pose proof (consumes_len _ _ _ C1) as L1. simpl in L1.
  eapply outcome_bind; [apply Hi; [done|lia]|]. intros l2 x s2 C2 Hx.
  pose proof (consumes_len _ _ _ C2) as L2. pose proof (c_wf _ _ _ C2) as W2.
  eapply outcome_bind; [apply IH; [done|lia..]|]. intros l3 xs s3 C3 Hxs.
  apply outcome_pret; [exact (c_wf _ _ _ C3)|]. simpl. rewrite app_nil_r. by constructor.
Qed.

Lemma comma_list_outcome {A} n (Q : list Lexeme -> A -> Prop) item s :
  sound n Q item -> wf s -> length (rest s) <= n -> outcome s (GList Q) (comma_list src item s).
Proof.
  intros Hi W N. unfold comma_list. eapply outcome_bind; [by apply Hi|]. intros l1 x s1 C1 Hx.
  pose proof (c_wf _ _ _ C1) as W1. pose proof (consumes_len _ _ _ C1).
  eapply outcome_bind.
  - apply comma_loop_outcome; [|done|done]. intros s' W' N'. apply Hi; [done|lia].
  - intros l2 xs s2 C2 Hxs. apply outcome_pret; [exact (c_wf _ _ _ C2)|]. rewrite app_nil_r. by constructor.
Qed.

(** [name ( item, ... )], after which the result depends on the items. *)
Lemma call_args_outcome n s (Q : list Lexeme -> Operand -> Prop) item :
  sound n Q item -> wf s -> length (rest s) <= S n -> peek src s = TIdent ->
  outcome s (fun l call => exists a la b, l = (TIdent, cur_text src s) :: (LParen, a) :: la ++ [(RParen, b)]
               /\ call.1 = cur_text src s /\ GList Q la call.2)
    (call_args src kind item s).
Proof.
  intros Hi W N E. unfold call_args, pget. unfold pbind at 1.
  eapply outcome_advance; [done|done|done..|]. intros s1 C1 W1.
  pose proof (consumes_len _ _ _ C1) as L1. simpl in L1.
  eapply outcome_bind; [by apply expect_outcome|]. intros l2 [] s2 C2 [a ->].
  pose proof (consumes_len _ _ _ C2) as L2. simpl in L2.
  eapply outcome_bind; [apply (comma_list_outcome n); [done|exact (c_wf _ _ _ C2)|lia]|].
  intros l3 args s3 C3 Hargs.
  eapply outcome_bind; [apply expect_outcome; [exact (c_wf _ _ _ C3)|done..]|]. intros l4 [] s4 C4 [b ->].
  apply outcome_pret; [exact (c_wf _ _ _ C4)|]. simpl. eauto 10.
Qed.

Lemma at_function_ident s : at_function src s = true -> peek src s = TIdent.
Proof. unfold at_function. intros H. apply andb_true_iff in H as [H _]. by apply bool_decide_eq_true in H. Qed.

Lemma path_operand_outcome s t : wf s -> peek src s = t -> t = TIdent \/ t = TName ->
  outcome s (GOperand names values strict) (pbind (path src kind names strict) (fun p => pret (OPath p)) s).
Proof.
  intros W E T. eapply outcome_bind.
  - instantiate (1 := fun l p => GPath names strict l p /\ bare l).
    pose proof (path_outcome s W) as H. destruct path as [[p s1]|e]; [|exact H].
    destruct H as (l & C & Hp). exists l. split; [done|]. split; [done|].
    destruct (lexemes_head s W) as [r Hr]. pose proof (c_lexemes _ _ _ C) as HL. rewrite Hr in HL.
    destruct Hp as [w n l' p' Hn Hs]. simpl in HL. injection HL as <- _. simpl. by rewrite E.
  - intros l p s1 C [Hp B]. apply outcome_pret; [exact (c_wf _ _ _ C)|]. rewrite app_nil_r. by constructor.
Qed.

Lemma GList_one {A} (Q : list Lexeme -> A -> Prop) l x : GList Q l [x] -> Q l x.
Proof. inversion 1 as [l1 l2 ? ? Hx Hc]; subst. inversion Hc; subst. by rewrite app_nil_r. Qed.

Lemma operand_n_sound n : sound n (GOperand names values strict) (operand_n src kind names values strict n).
Proof.
  induction n as [|n IH]; intros s W N; [pose proof (wf_pos s W); lia|]. simpl.
  destruct (peek src s) eqn:E; try apply syntax_error_ne; [|by eapply path_operand_outcome; eauto|].
  - destruct (at_function src s); [|by eapply path_operand_outcome; eauto].
    destruct (String.eqb_spec (cur_text src s) "size") as [Es|];
      [|match goal with |- context [if ?b then Err _ else Err _] => destruct b end; apply invalid_ne].
    eapply outcome_bind; [by eapply call_args_outcome|].
    intros l1 [nm args] s1 C1 (a & la & b & -> & Hn & Hl). simpl in Hn, Hl. subst nm.
    destruct args as [|[p|v|p] [|y args]]; try apply outcome_invalid.
    apply outcome_pret; [exact (c_wf _ _ _ C1)|]. rewrite app_nil_r, Es.
    apply GList_one in Hl. inversion Hl; subst. by constructor.
  - eapply outcome_bind; [by apply value_ref_outcome|]. intros l ph s1 C [-> Hv].
    apply outcome_pret; [exact (c_wf _ _ _ C)|]. by constructor.
Qed.

Lemma operand_sound n : sound n (GOperand names values strict) (operand src kind names values strict).
Proof. intros s W N. by apply operand_n_sound. Qed.

Lemma operand_outcome s : wf s ->
  outcome s (GOperand names values strict) (operand src kind names values strict s).
Proof. intros W. by eapply operand_sound. Qed.

(** *** Conditions *)

Lemma is_keyword_peek kw s : is_keyword src kw s = true ->
  peek src s = TIdent /\ keyword kw (TIdent, cur_text src s).
Proof.
  unfold is_keyword. intros H. apply andb_true_iff in H as [H1 H2]. by apply bool_decide_eq_true in H1.
Qed.

Lemma condition_function_outcome s : wf s -> peek src s = TIdent ->
  str_in (cur_text src s) CONDITION_FUNCTIONS = true ->
  outcome s (G names values strict LPrimary) (condition_function src kind names values strict s).
Proof.
  intros W E K. unfold condition_function.
  eapply outcome_bind; [eapply (call_args_outcome (length (rest s))); [apply operand_sound|done|lia|done]|].
  intros l1 [nm args] s1 C1 (a & la & b & -> & Hn & Hl). simpl in Hn, Hl. subst nm. pose proof (c_wf _ _ _ C1) as W1.
  assert (R : forall c, GFunction (cur_text src s) args c ->
    outcome s1 (fun l2 c => G names values strict LPrimary
        (((TIdent, cur_text src s) :: (LParen, a) :: la ++ [(RParen, b)]) ++ l2) c) (pret c s1)).
  { intros c Hc. apply outcome_pret; [done|]. rewrite app_nil_r. by eapply G_function. }
  clear C1 Hl. revert K R. generalize (cur_text src s). intros nm K R.
  destruct (negb _) eqn:Len; [apply outcome_invalid|]. apply negb_false_iff, Nat.eqb_eq in Len.
  assert (Hnm : nm ∈ CONDITION_FUNCTIONS).
  { apply existsb_exists in K as (x & Hx & ->%String.eqb_eq). by apply list_elem_of_In. }
  repeat (apply elem_of_cons in Hnm as [->|Hnm]); [..|by apply not_elem_of_nil in Hnm];
  destruct args as [|x [|y [|z args]]]; simpl in Len; try lia; simpl;
  destruct x; first [apply R; constructor | apply invalid_ne].
Qed.

Lemma comparison_rest_outcome s left l1 : wf s -> GOperand names values strict l1 left ->
  outcome s (fun l c => G names values strict LPrimary (l1 ++ l) c)
    (comparison_rest src kind names values strict left s).
Proof.
  intros W Hleft. unfold comparison_rest. destruct (cmp_op (peek src s)) as [op|] eqn:Eop.
  - eapply outcome_advance; [done|done|by intros H; rewrite H in Eop..|]. intros s1 C1 W1.
    eapply outcome_bind; [by apply operand_outcome|]. intros l2 right s2 C2 Hr.
    apply outcome_pret; [exact (c_wf _ _ _ C2)|]. rewrite app_nil_r. by constructor.
  - destruct (is_keyword src "BETWEEN" s) eqn:Kb; [|destruct (is_keyword src "IN" s) eqn:Ki;
      [|apply syntax_error_ne]].
    + apply is_keyword_peek in Kb as [E K]. eapply outcome_advance; [done|done|done..|]. intros s1 C1 W1.
      eapply outcome_bind; [by apply operand_outcome|]. intros l2 lo s2 C2 Hlo.
      pose proof (c_wf _ _ _ C2) as W2.
      destruct (is_keyword src "AND" s2) eqn:Ka; [|apply syntax_error_ne]. simpl.
      apply is_keyword_peek in Ka as [E2 K2].
      eapply outcome_advance; [done|done|done..|]. intros s3 C3 W3.
      eapply outcome_bind; [by apply operand_outcome|]. intros l4 hi s4 C4 Hhi.
      apply outcome_pret; [exact (c_wf _ _ _ C4)|]. rewrite app_nil_r. by constructor.
    + apply is_keyword_peek in Ki as [E K]. eapply outcome_advance; [done|done|done..|]. intros s1 C1 W1.
      eapply outcome_bind; [by apply expect_outcome|]. intros l2 [] s2 C2 [p ->].
      pose proof (c_wf _ _ _ C2) as W2.
      eapply outcome_bind; [apply (comma_list_outcome (length (rest s2))); [apply operand_sound|done|done]|].
      intros l3 args s3 C3 Hargs.
      eapply outcome_bind; [apply expect_outcome; [exact (c_wf _ _ _ C3)|done..]|]. intros l4 [] s4 C4 [q ->].
      apply outcome_pret; [exact (c_wf _ _ _ C4)|]. simpl. by constructor.
Qed.

Lemma primary_sound n or_expr : sound n (G names values strict LOr) or_expr ->
  sound (S n) (G names values strict LPrimary) (primary src kind names values strict or_expr).
Proof.
  intros Ho s W N. unfold primary. case_bool_decide as E.
  - eapply outcome_advance; [done|done|done..|]. intros s1 C1 W1.
    pose proof (consumes_len _ _ _ C1) as L. simpl in L.
    eapply outcome_bind; [apply Ho; [done|lia]|]. intros l2 c s2 C2 Hc.
    eapply outcome_bind; [apply expect_outcome; [exact (c_wf _ _ _ C2)|done..]|]. intros l3 [] s3 C3 [b ->].
    apply outcome_pret; [exact (c_wf _ _ _ C3)|]. simpl. by constructor.
  - destruct (at_function src s && str_in _ _) eqn:F.
    { apply andb_true_iff in F as [F K]. apply condition_function_outcome; [done|by apply at_function_ident|done]. }
    destruct (_ && negb _); [apply invalid_ne|].
    eapply outcome_bind; [by apply operand_outcome|]. intros l1 left s1 C1 Hl.
    apply comparison_rest_outcome; [exact (c_wf _ _ _ C1)|done].
Qed.

Lemma not_loop_outcome n k prim s : sound n (G names values strict LPrimary) prim ->
  wf s -> length (rest s) <= n -> length (rest s) <= k ->
  outcome s (G names values strict LNot) (not_loop src k prim s).
Proof.
  intros Hp. revert s. induction k as [|k IH]; intros s W N K; [pose proof (wf_pos s W); lia|]. simpl.
  destruct (is_keyword src "NOT" s) eqn:Kn.
  - apply is_keyword_peek in Kn as [E Kw]. eapply outcome_advance; [done|done|done..|]. intros s1 C1 W1.
    pose proof (consumes_len _ _ _ C1) as L. simpl in L.
    eapply outcome_bind; [apply IH; [done|lia..]|]. intros l2 c s2 C2 Hc.
    apply outcome_pret; [exact (c_wf _ _ _ C2)|]. rewrite app_nil_r. by constructor.
  - eapply outcome_impl; [by apply Hp|]. intros l c. by constructor.
Qed.

Lemma chain_outcome n kw mk item Q Qi s :
  (forall l c, Qi l c -> Q l c) ->
  (forall l1 k l2 a b, Q l1 a -> keyword kw k -> Qi l2 b -> Q (l1 ++ k :: l2) (mk a b)) ->
  sound n Qi item -> wf s -> length (rest s) <= n ->
  outcome s Q (chain src kw mk item s).
Proof.
  intros H1 H2 Hi W N. unfold chain. eapply outcome_bind; [by apply Hi|].
  intros l1 left s1 C1 Hl. pose proof (c_wf _ _ _ C1) as W1. pose proof (consumes_len _ _ _ C1) as L1.
  apply H1 in Hl. assert (N1 : length (rest s1) <= n) by lia. clear C1 L1.
  assert (Hk : forall k l1 left s1, Q l1 left -> wf s1 -> length (rest s1) <= n -> length (rest s1) <= k ->
    outcome s1 (fun l c => Q (l1 ++ l) c) (chain_loop src k kw mk item left s1)); [|by apply Hk].
  clear l1 left s1 Hl W1 N1. intros k.
  induction k as [|k IH]; intros l1 left s1 Hl W1 N1 K1; [pose proof (wf_pos s1 W1); lia|]. simpl.
  destruct (is_keyword src kw s1) eqn:Kw; [|apply outcome_ret; [done|by rewrite app_nil_r]].
  apply is_keyword_peek in Kw as [E Kw]. eapply outcome_advance; [done|done|done..|]. intros s2 C2 W2.
  pose proof (consumes_len _ _ _ C2) as L2. simpl in L2.
  eapply outcome_bind; [apply Hi; [done|lia]|]. intros l3 right s3 C3 Hr.
  pose proof (c_wf _ _ _ C3) as W3. pose proof (consumes_len _ _ _ C3) as L3.
  specialize (H2 _ _ _ _ _ Hl Kw Hr).
  eapply outcome_impl; [apply (IH _ _ s3 H2); [done|lia..]|].
  cbv beta. intros l c Hq. rewrite <- app_assoc in Hq. exact Hq.
Qed.

Lemma or_expr_sound n : sound n (G names values strict LOr) (or_expr_n src kind names values strict n).
Proof.
  induction n as [|n IH]; intros s W N; [pose proof (wf_pos s W); lia|].
  apply primary_sound in IH. cbn [or_expr_n].
  eapply chain_outcome; [apply G_or_one|intros; by apply G_or| |done|done].
  intros s1 W1 N1.
  eapply chain_outcome; [apply G_and_one|intros; by apply G_and| |done|done].
  intros s2 W2 N2. by eapply not_loop_outcome.
Qed.

Lemma condition_outcome s : wf s ->
  outcome s (G names values strict LOr) (condition src kind names values strict s)
  /\ forall c s', condition src kind names values strict s = Ok (c, s') -> peek src s' = Eof.
Proof.
  intros W. unfold condition, pbind, or_expr.
  pose proof (or_expr_sound (length (rest s)) s W (le_n _)) as H.
  destruct or_expr_n as [[c s1]|e]; [|by split]. unfold at_end. case_bool_decide as E.
  - split; [exact H|]. intros c' s' [= <- <-]. done.
  - split; [apply syntax_error_ne|done].
Qed.

(** ** Completeness *)

(** From a state before [l ++ r], [p] returns [a] before [r]. *)
Definition yields {A} (s : PState) (p : P A) (a : A) (r : list Lexeme) : Prop :=
  exists s', p s = Ok (a, s') /\ lexemes s' = r.

Lemma yields_bind {A B} s (p : P A) (f : A -> P B) a b r1 r2 :
  yields s p a r1 -> (forall s1, lexemes s1 = r1 -> yields s1 (f a) b r2) -> yields s (pbind p f) b r2.
Proof. intros (s1 & E & L) H. destruct (H s1 L) as (s2 & E2 & L2). exists s2. unfold pbind. by rewrite E. Qed.

Lemma yields_ret {A} s (a : A) r : lexemes s = r -> yields s (pret a) a r.
Proof. intros H. by exists s. Qed.

Lemma lexemes_peek s w r : lexemes s = w :: r -> peek src s = w.1 /\ cur_text src s = w.2.
Proof.
  unfold lexemes, peek, cur_text, current. destruct (rest s); simpl; [done|]. by intros [= <- _].
Qed.

Lemma lexemes_length s : length (lexemes s) = length (rest s).
Proof. apply length_fmap. Qed.

Lemma yields_advance s w v r : lexemes s = w :: v :: r -> yields s advance tt (v :: r).
Proof.
  unfold yields, lexemes, advance. destruct (rest s) as [|t [|t' q]]; simpl; [done|done|].
  intros [= <- <- <-]. eexists. split; [done|]. done.
Qed.

Lemma yields_expect s t x v r : lexemes s = (t, x) :: v :: r -> yields s (expect src kind t) tt (v :: r).
Proof.
  intros H. unfold expect, yields. destruct (lexemes_peek _ _ _ H) as [-> _].
  rewrite bool_decide_true by done. by eapply yields_advance.
Qed.

(** What may follow a path: no lexeme that would extend it. *)
Definition stops (r : list Lexeme) : Prop :=
  match r with
  | [] => False
  | w :: _ => w.1 <> Dot /\ w.1 <> LBracket /\ w.1 <> LParen
  end.

Lemma stops_cons r : stops r -> exists w r', r = w :: r'.
Proof. destruct r; [done|eauto]. Qed.

Lemma yields_path_name s w n v r : GName names strict w n -> lexemes s = w :: v :: r ->
  yields s (path_name src kind names strict) n (v :: r).
Proof.
  intros Hn L. unfold yields, path_name. destruct (lexemes_peek _ _ _ L) as [-> ->].
  destruct w as [t x]. unfold GName in Hn. simpl in *. destruct t; try done.
  - destruct Hn as (-> & -> & ->). eapply yields_bind; [by eapply yields_advance|]. intros s1 L1. by apply yields_ret.
  - assert (Hu : yields s (use_name x) tt ((TName, x) :: v :: r)) by (eexists; split; [done|exact L]).
    destruct Hn as [->|(-> & -> & ->)]; (eapply yields_bind; [exact Hu|]); intros s1 L1;
      (eapply yields_bind; [by eapply yields_advance|]); intros s2 L2; by apply yields_ret.
  - destruct Hn as (-> & ->). eapply yields_bind; [by eapply yields_advance|]. intros s1 L1. by apply yields_ret.
Qed.

Lemma yields_path_loop n l p : GSteps names strict l p -> forall s r, lexemes s = l ++ r -> stops r ->
  length (rest s) <= n -> yields s (path_loop src kind names strict n) p r.
Proof.
  intros H. revert n. induction H as [|l1 l2 e p H1 H2 IH]; intros n s r L St N.
  - destruct (stops_cons r St) as (w & r' & ->). simpl in St.
    destruct n as [|n]; [rewrite <- lexemes_length, L in N; simpl in N; lia|]. simpl.
    eapply (yields_bind _ _ _ None).
    + unfold yields, path_step. destruct (lexemes_peek _ _ _ L) as [-> _].
      destruct (w.1) eqn:E; try (by exists s); destruct St as (? & ? & ?); done.
    + intros s1 L1. by apply yields_ret.
  - assert (L' : exists v q, l2 ++ r = v :: q).
    { destruct (stops_cons r St) as (w & r' & ->). destruct l2; simpl; eauto. }
    destruct L' as (v & q & Eq).
    destruct n as [|n]; [rewrite <- lexemes_length, L in N; destruct H1; simpl in N; lia|]. simpl.
    eapply (yields_bind _ _ _ (Some e) _ (l2 ++ r)).
    + rewrite <- app_assoc, Eq in L. rewrite Eq. unfold yields, path_step.
      destruct H1 as [d w nm Hn|a d i b Hd]; simpl in L; destruct (lexemes_peek _ _ _ L) as [-> _]; simpl.
      * eapply yields_bind; [by eapply yields_advance|]. intros s1 L1.
        eapply yields_bind; [by eapply yields_path_name|]. intros s2 L2. by apply yields_ret.
      * eapply yields_bind; [by eapply yields_advance|]. intros s1 L1. unfold yields.
        destruct (lexemes_peek _ _ _ L1) as [-> ->]. simpl. rewrite Hd.
        eapply yields_bind; [by eapply yields_advance|]. intros s2 L2.
        eapply yields_bind; [by eapply yields_expect|]. intros s3 L3. by apply yields_ret.
    + intros s1 L1. eapply yields_bind; [|intros s2 L2; by apply yields_ret].
      apply IH; [done|done|]. rewrite <- lexemes_length in *. rewrite L in N. rewrite L1.
      rewrite !length_app in *. destruct H1; simpl in N; lia.
Qed.

Lemma yields_path l p s r : GPath names strict l p -> lexemes s = l ++ r -> stops r ->
  yields s (path src kind names strict) p r.
Proof.
  intros H L St. destruct H as [w n l p Hn Hs]. destruct (stops_cons r St) as (v & r' & ->).
  assert (Eq : exists x q, l ++ v :: r' = x :: q) by (destruct l; simpl; eauto). destruct Eq as (x & q & Eq).
  simpl in L. unfold path. eapply yields_bind; [eapply yields_path_name; [done|]; rewrite L, Eq; done|].
  intros s1 L1. rewrite <- Eq in L1.
  eapply yields_bind; [|intros s2 L2; by apply yields_ret].
  by eapply yields_path_loop.
Qed.

(** An item parser accepts what [Q] derives, on states with at most [n] tokens. *)
Definition complete {A} (n : nat) (Q : list Lexeme -> A -> Prop) (p : P A) : Prop :=
  forall l a s r, Q l a -> lexemes s = l ++ r -> stops r -> length (rest s) <= n -> yields s p a r.

Definition not_comma (r : list Lexeme) : Prop := match r with w :: _ => w.1 <> Comma | [] => False end.

Lemma yields_commas {A} n (Q : list Lexeme -> A -> Prop) item l xs : complete n Q item ->
  GCommas Q l xs -> forall k s r, lexemes s = l ++ r -> stops r -> not_comma r ->
  length (rest s) <= n -> length (rest s) <= k -> yields s (comma_loop src k item) xs r.
Proof.
  intros Hi H. induction H as [|c l1 l2 x xs Hx Hxs IH]; intros k s r L St Nc N K.
  - destruct r as [|w r]; [done|]. destruct k as [|k]; [rewrite <- lexemes_length, L in K; simpl in K; lia|].
    unfold yields. simpl. destruct (lexemes_peek _ _ _ L) as [-> _].
    rewrite bool_decide_false by done. by exists s.
  - assert (Hst : stops (l2 ++ r)) by (destruct Hxs; [done|simpl; done]).
    assert (Hne : exists v q, l1 ++ l2 ++ r = v :: q).
    { destruct (stops_cons _ Hst) as (v & q & ->). destruct l1; simpl; eauto. }
    destruct Hne as (v & q & Eq). rewrite <- app_comm_cons, <- app_assoc, Eq in L.
    assert (length (rest s) = S (length l1 + length (l2 ++ r))) as Ls.
    { rewrite <- lexemes_length, L, <- Eq. simpl. by rewrite length_app. }
    destruct k as [|k]; [lia|].
    unfold yields. simpl. destruct (lexemes_peek _ _ _ L) as [-> _].
    eapply yields_bind; [by eapply yields_advance|]. intros s1 L1.
    rewrite <- Eq in L1. assert (length (rest s1) = length l1 + length (l2 ++ r)) as Ls1.
    { by rewrite <- lexemes_length, L1, length_app. }
    eapply yields_bind; [eapply Hi; [done|done|done|lia]|]. intros s2 L2.
    assert (length (rest s2) = length (l2 ++ r)) as Ls2 by (by rewrite <- lexemes_length, L2).
    eapply yields_bind; [apply IH; [done|done|done|lia|lia]|]. intros s3 L3. by apply yields_ret.
Qed.

Lemma yields_comma_list {A} n (Q : list Lexeme -> A -> Prop) item l xs s r : complete n Q item ->
  GList Q l xs -> lexemes s = l ++ r -> stops r -> not_comma r -> length (rest s) <= n ->
  yields s (comma_list src item) xs r.
Proof.
  intros Hi H L St Nc N. destruct H as [l1 l2 x xs Hx Hxs]. rewrite <- app_assoc in L.
  assert (Hst : stops (l2 ++ r)) by (destruct Hxs; [done|simpl; done]).
  unfold comma_list. eapply yields_bind; [by eapply Hi|]. intros s1 L1.
  assert (length (rest s1) <= length (rest s)). 
  { rewrite <- !lexemes_length, L, L1, !length_app. lia. }
  eapply yields_bind; [|intros s2 L2; by apply yields_ret].
  eapply yields_commas; [done|done|done|done|done|lia|done].
Qed.

Lemma yields_call_args n (Q : list Lexeme -> Operand -> Prop) item name a l b args s v r :
  complete n Q item -> GList Q l args ->
  lexemes s = ((TIdent, name) :: (LParen, a) :: l ++ [(RParen, b)]) ++ v :: r ->
  length (rest s) <= S n -> yields s (call_args src kind item) (name, args) (v :: r).
Proof.
  intros Hi Hl L N. simpl in L. rewrite <- app_assoc in L. simpl in L.
  unfold call_args. eapply (yields_bind _ _ _ name _ _); [exists s; split; [|done]|].
  { unfold pget. by destruct (lexemes_peek _ _ _ L) as [_ ->]. }
  intros s0 L0.
  assert (Ls : length (rest s) = 2 + length (l ++ (RParen, b) :: v :: r)) by (by rewrite <- lexemes_length, L).
  eapply yields_bind; [by eapply yields_advance|]. intros s1 L1.
  eapply (yields_bind _ _ _ tt _ (l ++ (RParen, b) :: v :: r)).
  { destruct l; simpl in *; by eapply yields_expect. }
  intros s2 L2. eapply yields_bind.
  { eapply yields_comma_list; [done|done|done|done|done|]. rewrite <- lexemes_length, L2. lia. }
  intros s3 L3. eapply yields_bind; [by eapply yields_expect|]. intros s4 L4. by apply yields_ret.
Qed.

Lemma at_function_peek2 s w v r : lexemes s = w :: v :: r ->
  at_function src s = bool_decide (w.1 = TIdent) && bool_decide (v.1 = LParen).
Proof.
  unfold at_function, peek_at, peek, current, lexemes. destruct (rest s) as [|t [|t' q]]; simpl; try done.
  by intros [= <- <- _].
Qed.

Lemma path_not_function l p s r : GPath names strict l p -> lexemes s = l ++ r -> stops r ->
  at_function src s = false.
Proof.
  intros H L St. destruct H as [w n l p Hn Hs].
  assert (exists v q, l ++ r = v :: q /\ v.1 <> LParen) as (v & q & E & Hv).
  { destruct Hs as [|? ? ? ? H1]; [|destruct H1; simpl; eauto].
    destruct (stops_cons r St) as (v & q & ->). simpl in *. naive_solver. }
  simpl in L. rewrite E in L. rewrite (at_function_peek2 _ _ _ _ L).
  rewrite (bool_decide_false (v.1 = LParen)) by done. apply andb_false_r.
Qed.

Lemma yields_path_operand l p s r : GPath names strict l p -> lexemes s = l ++ r -> stops r ->
  yields s (pbind (path src kind names strict) (fun p => pret (OPath p))) (OPath p) r.
Proof.
  intros H L St. eapply yields_bind; [by eapply yields_path|]. intros s1 L1. by apply yields_ret.
Qed.

Lemma operand_n_complete n : complete n (GOperand names values strict) (operand_n src kind names values strict n).
Proof.
  induction n as [|n IH]; intros l o s r H L St N; destruct (stops_cons r St) as (v & r' & Er).
  { rewrite <- lexemes_length, L, length_app, Er in N. simpl in N. lia. }
  unfold yields. cbn [operand_n]. destruct H as [ph Hv|l p Hp Hb|a l b p Hp Hb].
  - subst r. simpl in L. destruct (lexemes_peek _ _ _ L) as [-> Ht].
    eapply (yields_bind _ _ _ ph); [|intros s1 L1; by apply yields_ret].
    unfold yields, value_ref. rewrite Ht. simpl. rewrite Hv.
    eapply (yields_bind _ _ _ tt _ (lexemes s)); [by eexists|]. intros s0 L0. rewrite L in L0.
    eapply yields_bind; [by eapply yields_advance|]. intros s1 L1. by apply yields_ret.
  - pose proof (path_not_function _ _ _ _ Hp L St) as F. pose proof (yields_path_operand _ _ _ _ Hp L St) as Y.
    destruct Hp as [w nm l p Hn Hs]. simpl in L. destruct (lexemes_peek _ _ _ L) as [E _].
    rewrite E, F. destruct Hb as [-> | ->]; exact Y.
  - subst r. pose proof L as L'. simpl in L'. rewrite <- app_assoc in L'. simpl in L'.
    rewrite (at_function_peek2 _ _ _ _ L'). destruct (lexemes_peek _ _ _ L') as [-> ->]. simpl.
    eapply yields_bind.
    { eapply yields_call_args; [exact IH| |exact L|lia].
      rewrite <- (app_nil_r l). constructor; [by apply GO_path|constructor]. }
    intros s1 L1. simpl. by apply yields_ret.
Qed.

Lemma operand_complete n : complete n (GOperand names values strict) (operand src kind names values strict).
Proof. intros l o s r H L St N. unfold yields, operand. by eapply operand_n_complete. Qed.

Lemma keyword_peek kw s w r : lexemes s = w :: r -> keyword kw w -> is_keyword src kw s = true.
Proof.
  intros L [E K]. unfold is_keyword. destruct (lexemes_peek _ _ _ L) as [-> ->]. by rewrite E, K.
Qed.

Lemma not_keyword_peek kw s w r : lexemes s = w :: r -> ~ keyword kw w -> is_keyword src kw s = false.
Proof.
  intros L K. destruct is_keyword eqn:E; [|done]. apply is_keyword_peek in E as [E1 E2].
  destruct (lexemes_peek _ _ _ L) as [P1 P2]. destruct K. destruct w as [t x]. simpl in *.
  rewrite E1 in P1. rewrite P2 in E2. by rewrite <- P1.
Qed.

Lemma eq_ignore_case_refl_l a b c : eq_ignore_ascii_case a b = true -> eq_ignore_ascii_case a c = true ->
  eq_ignore_ascii_case b c = true.
Proof.
  unfold eq_ignore_ascii_case. intros H1%String.eqb_eq H2%String.eqb_eq. apply String.eqb_eq. congruence.
Qed.

(** A keyword is one keyword only. *)
Lemma keyword_disjoint kw kw' w : eq_ignore_ascii_case kw kw' = false -> keyword kw w -> ~ keyword kw' w.
Proof.
  intros D [_ K] [_ K']. rewrite (eq_ignore_case_refl_l _ _ _ K K') in D. done.
Qed.

(** No operand, function or parenthesis starts with [NOT], [AND] or [OR]. *)
Lemma GName_not_keyword kw w n : kw ∈ GRAMMAR_KEYWORDS -> GName names strict w n -> ~ keyword kw w.
Proof.
  intros Hk Hn [E K]. unfold GName in Hn. rewrite E in Hn. destruct Hn as (H & _ & _).
  assert (existsb (fun k => eq_ignore_ascii_case k w.2) GRAMMAR_KEYWORDS = true); [|congruence].
  apply existsb_exists. exists kw. split; [by apply list_elem_of_In|].
  unfold eq_ignore_ascii_case in *. apply String.eqb_eq in K. apply String.eqb_eq. done.
Qed.

Lemma GOperand_head kw l o : kw ∈ GRAMMAR_KEYWORDS -> GOperand names values strict l o ->
  exists w l', l = w :: l' /\ ~ keyword kw w /\ w.1 <> LParen.
Proof.
  intros Hk H. destruct H as [ph Hv|l p Hp Hb|a l b p Hp Hb].
  - exists (TValue, ph), []. split; [done|]. split; [by intros []|done].
  - destruct Hp as [w n l p Hn Hs]. exists w, l. split; [done|]. split; [by eapply GName_not_keyword|].
    destruct Hb as [-> | ->]; done.
  - eexists _, _. split; [done|]. split; [|done]. intros [_ K]. simpl in K.
    repeat (apply elem_of_cons in Hk as [->|Hk]; [done|]). by apply not_elem_of_nil in Hk.
Qed.

Lemma GOperand_not_function s l o v r : GOperand names values strict l o ->
  lexemes s = l ++ v :: r -> stops (v :: r) ->
  at_function src s = true -> cur_text src s = "size".
Proof.
  intros H L St F. destruct H as [ph Hv|l p Hp Hb|a l b p Hp Hb].
  - apply at_function_ident in F. simpl in L. destruct (lexemes_peek _ _ _ L) as [E _]. by rewrite F in E.
  - rewrite (path_not_function _ _ _ _ Hp L St) in F. done.
  - simpl in L. by destruct (lexemes_peek _ _ _ L) as [_ ->].
Qed.

Lemma keyword_stops kw w r : keyword kw w -> stops (w :: r).
Proof. intros [E _]. simpl. rewrite E. done. Qed.

Lemma cmp_op_stops t o op r : cmp_op t = Some op -> stops ((t, o) :: r).
Proof. simpl. destruct t; done. Qed.

(** A comparison, once its left operand and what follows it are derived. *)
Lemma yields_comparison n or_expr l1 a v q c s r :
  GOperand names values strict l1 a -> stops (v :: q) -> lexemes s = l1 ++ v :: q ->
  (forall s1, lexemes s1 = v :: q -> yields s1 (comparison_rest src kind names values strict a) c r) ->
  length (rest s) <= n -> yields s (primary src kind names values strict or_expr) c r.
Proof.
  intros H St L K N. unfold yields, primary.
  destruct (GOperand_head "NOT" _ _ ltac:(set_solver) H) as (w & l' & El & _ & Hp).
  pose proof L as L'. rewrite El in L'. simpl in L'. destruct (lexemes_peek _ _ _ L') as [E _].
  rewrite E, bool_decide_false by done.
  pose proof (GOperand_not_function _ _ _ _ _ H L St) as F.
  destruct (at_function src s) eqn:Fs; simpl.
  - rewrite (F eq_refl). simpl. eapply yields_bind; [by eapply operand_complete|exact K].
  - eapply yields_bind; [by eapply operand_complete|exact K].
Qed.

Lemma GFunction_name name args c : GFunction name args c -> str_in name CONDITION_FUNCTIONS = true.
Proof. by destruct 1. Qed.

Lemma yields_function name a l b args c s v r :
  GList (GOperand names values strict) l args -> GFunction name args c ->
  lexemes s = ((TIdent, name) :: (LParen, a) :: l ++ [(RParen, b)]) ++ v :: r ->
  yields s (condition_function src kind names values strict) c (v :: r).
Proof.
  intros Hl Hf L. unfold condition_function. eapply yields_bind.
  { eapply (yields_call_args (length (rest s))); [apply operand_complete|done|done|lia]. }
  intros s1 L1. destruct Hf; simpl; by apply yields_ret.
Qed.

Lemma G_primary_head l c : G names values strict LPrimary l c ->
  exists w l', l = w :: l' /\ ~ keyword "NOT" w.
Proof.
  assert (Ho : forall l1 a q, GOperand names values strict l1 a ->
    exists w l', l1 ++ q = w :: l' /\ ~ keyword "NOT" w).
  { intros l1 a q H. destruct (GOperand_head "NOT" _ _ ltac:(set_solver) H) as (w & l' & -> & K & _).
    eexists _, _. split; [done|done]. }
  intros H. inversion H; subst; try (by eapply Ho); (eexists _, _; split; [done|]); intros [E K]; simpl in *.
  - done.
  - match goal with F : GFunction _ _ _ |- _ => by destruct F end.
Qed.

Let not_e (f : nat) : P Cond := fun s =>
  not_loop src (length (rest s)) (primary src kind names values strict (or_expr_n src kind names values strict f)) s.
Let and_e (f : nat) : P Cond := chain src "AND" And (not_e f).

(** [chain] on [s] has come to the loop with [c] before [r]. *)
Definition chained (kw : string) (mk : Cond -> Cond -> Cond) (item : P Cond) (s : PState) (c : Cond)
  (r : list Lexeme) : Prop :=
  exists k s', chain src kw mk item s = chain_loop src k kw mk item c s' /\ lexemes s' = r
               /\ length (rest s') <= k.

Lemma chained_end kw mk item s c w r : chained kw mk item s c (w :: r) -> ~ keyword kw w ->
  yields s (chain src kw mk item) c (w :: r).
Proof.
  intros (k & s' & E & L & K) N. unfold yields. rewrite E.
  destruct k as [|k]; [rewrite <- lexemes_length, L in K; simpl in K; lia|].
  simpl. rewrite (not_keyword_peek _ _ _ _ L N). by exists s'.
Qed.

Lemma chained_one kw mk item s c r : yields s item c r -> chained kw mk item s c r.
Proof.
  intros (s' & E & L). exists (length (rest s')), s'. split; [|done]. unfold chain, pbind. by rewrite E.
Qed.

Lemma chained_more kw mk item s a b w v q r : chained kw mk item s a (w :: v :: q) -> keyword kw w ->
  (forall s1, lexemes s1 = v :: q -> length (rest s1) < length (rest s) -> yields s1 item b r) ->
  length (v :: q) < length (rest s) -> length r < length (v :: q) ->
  chained kw mk item s (mk a b) r.
Proof.
  intros (k & s' & E & L & K) Hw Hi Ls Lr. unfold chained. rewrite E.
  destruct k as [|k]; [rewrite <- lexemes_length, L in K; simpl in K; lia|]. simpl.
  rewrite (keyword_peek _ _ _ _ L Hw). destruct (yields_advance _ _ _ _ L) as (s1 & E1 & L1).
  unfold pbind. rewrite E1. rewrite <- lexemes_length, L in K. simpl in K.
  destruct (Hi s1 L1) as (s2 & E2 & L2); [by rewrite <- (lexemes_length s1), L1|].
  rewrite E2. exists k, s2. split; [done|]. split; [done|].
  rewrite <- lexemes_length, L2. simpl in Lr. lia.
Qed.

(** What each level's parser does on a derivation of that level. *)
Definition parses (lev : Level) (l : list Lexeme) (c : Cond) : Prop :=
  forall f s r, lexemes s = l ++ r -> stops r -> length (rest s) <= S f ->
  match lev with
  | LPrimary => yields s (primary src kind names values strict (or_expr_n src kind names values strict f)) c r
  | LNot => forall k, length (rest s) <= k ->
      yields s (not_loop src k (primary src kind names values strict (or_expr_n src kind names values strict f))) c r
  | LAnd => chained "AND" And (not_e f) s c r
  | LOr => (match r with w :: _ => ~ keyword "AND" w | [] => False end) -> chained "OR" Or (and_e f) s c r
  end.

Lemma parses_paren l c a b : parses LOr l c -> parses LPrimary ((LParen, a) :: l ++ [(RParen, b)]) (Paren c).
Proof.
  intros H f s r L St N. destruct (stops_cons r St) as (v & r' & ->).
  simpl in L. rewrite <- app_assoc in L. simpl in L.
  assert (Ls : length (rest s) = S (length (l ++ (RParen, b) :: v :: r'))) by (by rewrite <- lexemes_length, L).
  destruct f as [|f]; [rewrite length_app in Ls; simpl in Ls; lia|].
  unfold yields, primary. destruct (lexemes_peek _ _ _ L) as [-> _]. simpl.
  eapply (yields_bind _ _ _ tt _ (l ++ (RParen, b) :: v :: r')).
  { destruct l; simpl in *; by eapply yields_advance. }
  intros s1 L1. eapply (yields_bind _ _ _ c _ ((RParen, b) :: v :: r')).
  { cbn [or_expr_n]. apply chained_end; [|by intros []].
    apply (H f s1); [done|done| |by intros []]. rewrite <- lexemes_length, L1. lia. }
  intros s2 L2. eapply yields_bind; [by eapply yields_expect|]. intros s3 L3. by apply yields_ret.
Qed.

Lemma parses_compare l1 t o l2 op a b : GOperand names values strict l1 a -> cmp_op t = Some op ->
  GOperand names values strict l2 b -> parses LPrimary (l1 ++ (t, o) :: l2) (Compare a op b).
Proof.
  intros H1 Ht H2 f s r L St N. rewrite <- app_assoc in L. simpl in L.
  eapply yields_comparison; [exact H1| |exact L| |exact N]; [by eapply cmp_op_stops|].
  intros s1 L1. unfold yields, comparison_rest. destruct (lexemes_peek _ _ _ L1) as [-> _]. simpl. rewrite Ht.
  destruct (GOperand_head "NOT" _ _ ltac:(set_solver) H2) as (w & l' & El & _ & _).
  eapply (yields_bind _ _ _ tt _ (l2 ++ r)); [subst l2; by eapply yields_advance|].
  intros s2 L2. eapply yields_bind; [eapply operand_complete; [exact H2|exact L2|done|done]|]. intros s3 L3. by apply yields_ret.
Qed.

Lemma keyword_cmp kw w : keyword kw w -> cmp_op w.1 = None.
Proof. by intros [-> _]. Qed.

Lemma parses_between l1 k l2 k' l3 a b c : GOperand names values strict l1 a -> keyword "BETWEEN" k ->
  GOperand names values strict l2 b -> keyword "AND" k' -> GOperand names values strict l3 c ->
  parses LPrimary (l1 ++ k :: l2 ++ k' :: l3) (Between a b c).
Proof.
  intros H1 Hk H2 Hk' H3 f s r L St N. rewrite <- app_assoc in L. simpl in L. rewrite <- app_assoc in L.
  simpl in L. eapply yields_comparison; [exact H1| |exact L| |exact N]; [by eapply keyword_stops|].
  intros s1 L1. unfold yields, comparison_rest. destruct (lexemes_peek _ _ _ L1) as [-> _].
  rewrite (keyword_cmp _ _ Hk), (keyword_peek _ _ _ _ L1 Hk).
  destruct (GOperand_head "NOT" _ _ ltac:(set_solver) H2) as (w & l' & El & _ & _).
  eapply (yields_bind _ _ _ tt _ (l2 ++ k' :: l3 ++ r)); [subst l2; by eapply yields_advance|].
  intros s2 L2. eapply yields_bind; [eapply operand_complete; [exact H2|exact L2|by eapply keyword_stops|done]|].
  intros s3 L3. unfold yields. rewrite (keyword_peek _ _ _ _ L3 Hk'). simpl.
  destruct (GOperand_head "NOT" _ _ ltac:(set_solver) H3) as (w3 & l3' & El3 & _ & _).
  eapply (yields_bind _ _ _ tt _ (l3 ++ r)); [subst l3; by eapply yields_advance|].
  intros s4 L4. eapply yields_bind; [eapply operand_complete; [exact H3|exact L4|done|done]|]. intros s5 L5. by apply yields_ret.
Qed.

Lemma parses_in l1 k p l q a args : GOperand names values strict l1 a -> keyword "IN" k ->
  GList (GOperand names values strict) l args ->
  parses LPrimary (l1 ++ k :: (LParen, p) :: l ++ [(RParen, q)]) (In a args).
Proof.
  intros H1 Hk H2 f s r L St N. destruct (stops_cons r St) as (v & r' & ->).
  rewrite <- app_assoc in L. simpl in L. rewrite <- app_assoc in L. simpl in L.
  eapply yields_comparison; [exact H1| |exact L| |exact N]; [by eapply keyword_stops|].
  intros s1 L1. unfold yields, comparison_rest. destruct (lexemes_peek _ _ _ L1) as [-> _].
  rewrite (keyword_cmp _ _ Hk), (keyword_peek _ _ _ _ L1 Hk).
  rewrite (not_keyword_peek "BETWEEN" _ _ _ L1) by (eapply keyword_disjoint; [|done]; done).
  eapply yields_bind; [by eapply yields_advance|]. intros s2 L2.
  eapply (yields_bind _ _ _ tt _ (l ++ (RParen, q) :: v :: r')).
  { destruct l; simpl in *; by eapply yields_expect. }
  intros s3 L3. eapply yields_bind; [eapply yields_comma_list; [apply operand_complete|done|done|done|done|done]|].
  intros s4 L4. eapply yields_bind; [by eapply yields_expect|]. intros s5 L5. by apply yields_ret.
Qed.

Lemma parses_function name a l b args c : GList (GOperand names values strict) l args ->
  GFunction name args c -> parses LPrimary ((TIdent, name) :: (LParen, a) :: l ++ [(RParen, b)]) c.
Proof.
  intros Hl Hf f s r L St N. destruct (stops_cons r St) as (v & r' & ->).
  pose proof L as L'. simpl in L'. unfold yields, primary.
  rewrite (at_function_peek2 _ _ _ _ L'). destruct (lexemes_peek _ _ _ L') as [-> ->]. cbn [fst snd].
  rewrite (bool_decide_false (TIdent = LParen)), !bool_decide_true by done. cbn [andb].
  rewrite (GFunction_name _ _ _ Hf). by eapply yields_function.
Qed.

Lemma G_nonempty lev l c : G names values strict lev l c -> exists w l', l = w :: l'.
Proof.
  induction 1; eauto; repeat match goal with H : exists _ _, _ |- _ => destruct H as (? & ? & ->) end;
    simpl; eauto;
    match goal with H : GOperand _ _ _ ?l1 _ |- exists _ _, ?l1 ++ _ = _ =>
      destruct (GOperand_head "NOT" _ _ ltac:(set_solver) H) as (? & ? & -> & _); simpl; eauto end.
Qed.

(** The loop of a left-associative operator takes one more operand. *)
Lemma chained_next kw mk item s l1 a w l2 b lev r : 
  chained kw mk item s a (w :: l2 ++ r) -> keyword kw w -> G names values strict lev l2 b ->
  lexemes s = (l1 ++ w :: l2) ++ r ->
  (forall s1, lexemes s1 = l2 ++ r -> length (rest s1) < length (rest s) -> yields s1 item b r) ->
  chained kw mk item s (mk a b) r.
Proof.
  intros Hc Hk H2 L Hi. destruct (G_nonempty _ _ _ H2) as (v & q & ->).
  assert (length (rest s) = length l1 + S (length ((v :: q) ++ r))) as Ls.
  { rewrite <- lexemes_length, L. rewrite <- app_assoc, length_app. done. }
  eapply chained_more; [exact Hc|exact Hk|exact Hi|..]; simpl in *; rewrite ?length_app in *; lia.
Qed.

Theorem G_parses lev l c : G names values strict lev l c -> parses lev l c.
Proof.
  induction 1 as [l c H IH|l1 k l2 a b H1 IH1 Hk H2 IH2|l c H IH|l1 k l2 a b H1 IH1 Hk H2 IH2|l c H IH
    |k l a Hk H IH|a l b c H IH|name a l b args c Hl Hf|l1 t o l2 op a b H1 Ht H2
    |l1 k l2 k' l3 a b c H1 Hk H2 Hk' H3|l1 k p l q a args H1 Hk H2].
  - intros f s r L St N Ha. apply chained_one. destruct r as [|w r]; [done|].
    apply chained_end; [|done]. by apply IH.
  - intros f s r L St N Ha. eapply chained_next; [|exact Hk|exact H2|exact L|].
    + rewrite <- app_assoc in L. apply IH1; [done|by eapply keyword_stops|done|].
      by eapply keyword_disjoint; [|exact Hk].
    + intros s1 L1 N1. destruct r as [|w r]; [done|]. apply chained_end; [|done]. apply IH2; [done|done|lia].
  - intros f s r L St N. apply chained_one. apply IH; done.
  - intros f s r L St N. eapply chained_next; [|exact Hk|exact H2|exact L|].
    + rewrite <- app_assoc in L. apply IH1; [done|by eapply keyword_stops|done].
    + intros s1 L1 N1. apply IH2; [done|done|lia|done].
  - intros f s r L St N k K. destruct (G_primary_head _ _ H) as (w & l' & -> & Hw).
    destruct k as [|k]; [rewrite <- lexemes_length, L in K; simpl in K; lia|].
    unfold yields. simpl. simpl in L. rewrite (not_keyword_peek _ _ _ _ L Hw). by apply IH.
  - intros f s r L St N k' K. destruct (G_nonempty _ _ _ H) as (v & q & El). simpl in L.
    assert (Ls : length (rest s) = S (length (l ++ r))) by (by rewrite <- lexemes_length, L).
    destruct k' as [|k']; [lia|]. unfold yields. simpl. rewrite (keyword_peek _ _ _ _ L Hk).
    eapply (yields_bind _ _ _ tt _ (l ++ r)); [subst l; by eapply yields_advance|]. intros s1 L1.
    assert (length (rest s1) = length (l ++ r)) by (by rewrite <- lexemes_length, L1).
    eapply yields_bind; [apply IH; [done|done|lia|lia]|]. intros s2 L2. by apply yields_ret.
  - by apply parses_paren.
  - by eapply parses_function.
  - by apply parses_compare.
  - by apply parses_between.
  - by apply parses_in.
Qed.

Lemma yields_condition l c s x : G names values strict LOr l c -> lexemes s = l ++ [(Eof, x)] ->
  yields s (condition src kind names values strict) c [(Eof, x)].
Proof.
  intros H L. unfold condition. eapply (yields_bind _ _ _ c _ [(Eof, x)]).
  - unfold yields, or_expr.
    assert (exists n, length (rest s) = S n) as [n En].
    { rewrite <- lexemes_length, L, length_app. simpl. exists (length l). lia. }
    rewrite En. cbn [or_expr_n]. apply chained_end; [|by intros []].
    apply (G_parses _ _ _ H); [done|done|lia|by intros []].
  - intros s1 L1. unfold yields, at_end. destruct (lexemes_peek _ _ _ L1) as [-> _]. by exists s1.
Qed.

(** ** Updates and projections: placeholders and bounds *)

(** In strict mode every placeholder is defined. *)
Definition defined (l : list Lexeme) : Prop :=
  strict = true -> texts_of TName l ⊆ dom names /\ texts_of TValue l ⊆ dom values.

Lemma defined_nil : defined [].
Proof. intros _. rewrite !texts_of_nil. set_solver. Qed.

Lemma defined_app l1 l2 : defined l1 -> defined l2 -> defined (l1 ++ l2).
Proof. intros H1 H2 S. specialize (H1 S). specialize (H2 S). rewrite !texts_of_app. set_solver. Qed.

Lemma defined_one t x : t <> TName -> t <> TValue -> defined [(t, x)].
Proof. intros H1 H2 _. rewrite !texts_of_one. simpl. rewrite !decide_False by done. set_solver. Qed.

Lemma defined_cons t x l : t <> TName -> t <> TValue -> defined l -> defined ((t, x) :: l).
Proof. intros H1 H2 H3. apply (defined_app [_]); [by apply defined_one|done]. Qed.

Lemma GName_defined w n : GName names strict w n -> defined [w].
Proof.
  intros H S. rewrite !texts_of_one. unfold GName in H. destruct w as [t x]. simpl in *.
  destruct t; try done; rewrite ?decide_False by done; try set_solver.
  rewrite decide_True by done. destruct H as [H|[H _]]; [|congruence].
  apply elem_of_dom_2 in H. set_solver.
Qed.

Lemma GPath_defined l p : GPath names strict l p -> defined l.
Proof.
  assert (Hs : forall l p, GSteps names strict l p -> defined l).
  { induction 1 as [|l1 l2 e p' H1 H2 IH]; [apply defined_nil|]. apply defined_app; [|done].
    destruct H1 as [d w n Hn|]; [|by repeat apply defined_cons; try apply defined_nil].
    apply defined_cons; [done|done|]. by eapply GName_defined. }
  intros [w n l' p' Hn H]. apply (defined_app [_]); [by eapply GName_defined|by eapply Hs].
Qed.

Lemma value_defined ph : strict && negb (bool_decide (is_Some (values !! ph))) = false -> defined [(TValue, ph)].
Proof.
  intros H S. rewrite S in H. simpl in H. apply negb_false_iff, bool_decide_eq_true in H.
  rewrite !texts_of_one. simpl. apply elem_of_dom in H. set_solver.
Qed.

Definition D {A} (l : list Lexeme) (_ : A) : Prop := defined l.

Lemma GCommas_defined {A} (Q : list Lexeme -> A -> Prop) l xs : (forall l x, Q l x -> defined l) ->
  GCommas Q l xs -> defined l.
Proof.
  intros HQ. induction 1; [apply defined_nil|]. apply defined_cons; [done|done|].
  apply defined_app; [by eapply HQ|done].
Qed.

Lemma GList_defined {A} (Q : list Lexeme -> A -> Prop) l xs : (forall l x, Q l x -> defined l) ->
  GList Q l xs -> defined l.
Proof.
  intros HQ [l1 l2 x xs' H1 H2]. apply defined_app; [by eapply HQ|by eapply GCommas_defined].
Qed.

Lemma GOperand_defined l o : GOperand names values strict l o -> defined l.
Proof.
  intros [ph H|l' p H _|a l' b p H _]; [by apply value_defined|by eapply GPath_defined|].
  apply defined_cons; [done|done|]. apply defined_cons; [done|done|].
  apply defined_app; [by eapply GPath_defined|by apply defined_one].
Qed.

Lemma keyword_defined kw w : keyword kw w -> defined [w].
Proof. intros [E _]. destruct w as [t x]. simpl in E. subst. by apply defined_one. Qed.

Lemma G_defined lev l c : G names values strict lev l c -> defined l.
Proof.
  assert (Hk : forall kw w l, keyword kw w -> defined l -> defined (w :: l)).
  { intros kw w l0 K H. apply (defined_app [_]); [by eapply keyword_defined|done]. }
  induction 1; try done;
    repeat first [apply defined_app | eapply Hk; [eassumption|] | apply defined_cons; [done|done|]];
    try apply defined_nil; try done; try (by eapply GOperand_defined);
    try (eapply GList_defined; [|eassumption]; apply GOperand_defined).
  apply (defined_app [_]); [|by eapply GOperand_defined].
  destruct t; try done; by apply defined_one.
Qed.

Lemma path_defined s : wf s -> outcome s D (path src kind names strict s).
Proof. intros W. eapply outcome_impl; [by apply path_outcome|]. intros l p. apply GPath_defined. Qed.

Lemma value_ref_defined s : wf s -> peek src s = TValue -> outcome s D (value_ref src kind values strict s).
Proof.
  intros W E. eapply outcome_impl; [by apply value_ref_outcome|]. intros l p [-> H]. by apply value_defined.
Qed.

Lemma outcome_D_bind {A B} s (p : P A) (f : A -> P B) : outcome s D (p s) ->
  (forall l1 a s1, consumes s l1 s1 -> wf s1 -> outcome s1 D (f a s1)) -> outcome s D (pbind p f s).
Proof.
  intros Hp Hf. eapply outcome_bind; [exact Hp|]. intros l1 a s1 C1 H1.
  eapply outcome_impl; [apply (Hf _ _ _ C1 (c_wf _ _ _ C1))|]. intros l2 b H2. by apply defined_app.
Qed.

Lemma outcome_D_advance {A} s t (p : P A) :
  wf s -> peek src s = t -> t <> Eof -> t <> TName -> t <> TValue ->
  (forall s1, length (rest s1) < length (rest s) -> wf s1 -> outcome s1 D (p s1)) ->
  outcome s D (pbind advance (fun _ => p) s).
Proof.
  intros W E N1 N2 N3 H. eapply outcome_advance; [done|done|done..|]. intros s1 C W1.
  pose proof (consumes_len _ _ _ C) as L. simpl in L.
  eapply outcome_impl; [apply H; [lia|done]|]. intros l a. by apply defined_cons.
Qed.

Lemma outcome_D_expect s t : wf s -> t <> Eof -> t <> TName -> t <> TValue -> outcome s D (expect src kind t s).
Proof.
  intros W N1 N2 N3. eapply outcome_impl; [by apply expect_outcome|]. intros l a [x ->]. by apply defined_one.
Qed.

Lemma outcome_D_ret {A} s (a : A) : wf s -> outcome s D (pret a s).
Proof. intros W. apply outcome_pret; [done|apply defined_nil]. Qed.

Lemma outcome_D_list {A} n (item : P A) s : sound n D item -> wf s -> length (rest s) <= n ->
  outcome s D (comma_list src item s).
Proof.
  intros Hi W N. eapply outcome_impl; [by eapply comma_list_outcome|]. intros l xs H.
  eapply GList_defined; [|exact H]. done.
Qed.

Lemma set_path_defined s : wf s ->
  outcome s D (pbind (path src kind names strict) (fun p => pret (SOperand (OPath p))) s).
Proof.
  intros W. apply outcome_D_bind; [by apply path_defined|]. intros. by apply outcome_D_ret.
Qed.

Lemma set_operand_defined n set_value : sound n D set_value ->
  sound (S n) D (set_operand src kind names values strict set_value).
Proof.
  intros Hv s W N. unfold set_operand.
  destruct (peek src s) eqn:E; try apply syntax_error_ne; try by apply set_path_defined.
  - destruct (at_function src s); [|by apply set_path_defined].
    match goal with |- context [if ?b then _ else if ?c then Err _ else Err _] =>
      destruct b; [|destruct c; apply invalid_ne] end.
    eapply outcome_D_advance; [done|done|done..|]. intros s1 L1 W1.
    apply outcome_D_bind; [by apply outcome_D_expect|]. intros l2 [] s2 C2 W2.
    pose proof (consumes_len _ _ _ C2) as L2.
    apply outcome_D_bind; [apply (outcome_D_list n); [done|done|lia]|]. intros l3 args s3 C3 W3.
    apply outcome_D_bind; [by apply outcome_D_expect|]. intros l4 [] s4 C4 W4.
    destruct args as [|a [|b [|c args]]]; try apply outcome_invalid.
    destruct (String.eqb _ _); [|by apply outcome_D_ret].
    destruct a as [[]| | | |]; first [by apply outcome_D_ret | apply outcome_invalid].
  - apply outcome_D_bind; [by apply value_ref_defined|]. intros. by apply outcome_D_ret.
  - eapply outcome_D_advance; [done|done|done..|]. intros s1 L1 W1.
    apply outcome_D_bind; [apply Hv; [done|lia]|]. intros l2 v s2 C2 W2.
    apply outcome_D_bind; [by apply outcome_D_expect|]. intros. by apply outcome_D_ret.
Qed.

Lemma set_value_n_defined n : sound n D (set_value_n src kind names values strict n).
Proof.
  induction n as [|n IH]; intros s W N; [pose proof (wf_pos s W); lia|]. cbn [set_value_n].
  apply set_operand_defined in IH.
  apply outcome_D_bind; [by apply IH|]. intros l1 left s1 C1 W1. pose proof (consumes_len _ _ _ C1) as L1.
  unfold pget. unfold pbind at 1.
  destruct (bool_decide (peek src s1 = Plus) || bool_decide (peek src s1 = Minus)) eqn:E;
    [|by apply outcome_D_ret].
  assert (exists t, peek src s1 = t /\ t <> Eof /\ t <> TName /\ t <> TValue) as (t & Et & ? & ? & ?).
  { apply orb_true_iff in E as [E|E]; apply bool_decide_eq_true in E; rewrite E; eauto. }
  eapply outcome_D_advance; [done|done|done..|]. intros s2 L2 W2.
  apply outcome_D_bind; [apply IH; [done|lia]|]. intros. by apply outcome_D_ret.
Qed.

Lemma update_action_defined x ast s : wf s ->
  outcome s D (update_action src kind names values strict x ast s).
Proof.
  intros W. unfold update_action. apply outcome_D_bind; [by apply path_defined|]. intros l1 p s1 C1 W1.
  assert (Hv : forall f : string -> UpdateAst, outcome s1 D
    (if negb (bool_decide (peek src s1 = TValue)) then Err (syntax_error src kind s1)
     else pbind (value_ref src kind values strict) (fun v => pret (f v)) s1)).
  { intros f. case_bool_decide as E; [|apply syntax_error_ne]. simpl.
    apply outcome_D_bind; [by apply value_ref_defined|]. intros. by apply outcome_D_ret. }
  destruct x; [|by apply outcome_D_ret|apply Hv|apply Hv].
  apply outcome_D_bind; [by apply outcome_D_expect|]. intros l2 [] s2 C2 W2.
  apply outcome_D_bind; [by apply set_value_n_defined|]. intros. by apply outcome_D_ret.
Qed.

Lemma actions_loop_defined n x ast s : wf s -> length (rest s) <= n ->
  outcome s D (actions_loop src kind names values strict n x ast s).
Proof.
  revert ast s. induction n as [|n IH]; intros ast s W N; [pose proof (wf_pos s W); lia|]. cbn [actions_loop].
  apply outcome_D_bind; [by apply update_action_defined|]. intros l1 ast1 s1 C1 W1.
  pose proof (consumes_len _ _ _ C1) as L1. unfold pget. unfold pbind at 1.
  case_bool_decide as E; [|by apply outcome_D_ret].
  eapply outcome_D_advance; [done|done|done..|]. intros s2 L2 W2. apply IH; [done|lia].
Qed.

Lemma section_at_ident s x : section_at src s = Some x -> peek src s = TIdent.
Proof.
  unfold section_at. intros H.
  assert (exists kw, is_keyword src kw s = true) as (kw & K);
    [repeat (destruct is_keyword eqn:? in H; [eauto|]); done|].
  by apply is_keyword_peek in K as [K _].
Qed.

Lemma update_loop_defined n seen ast s : wf s -> length (rest s) <= n ->
  outcome s D (update_loop src kind names values strict n seen ast s).
Proof.
  revert seen ast s. induction n as [|n IH]; intros seen ast s W N; [pose proof (wf_pos s W); lia|].
  cbn [update_loop]. destruct (section_at src s) as [x|] eqn:E; [|apply syntax_error_ne].
  case_bool_decide; [apply invalid_ne|]. apply section_at_ident in E.
  eapply outcome_D_advance; [done|done|done..|]. intros s1 L1 W1.
  apply outcome_D_bind; [by apply actions_loop_defined|]. intros l2 ast2 s2 C2 W2.
  pose proof (consumes_len _ _ _ C2) as L2. unfold pget. unfold pbind at 1.
  case_bool_decide as Ee; [by apply outcome_D_ret|]. apply IH; [done|lia].
Qed.

Lemma update_defined s : wf s -> outcome s D (update src kind names values strict s).
Proof. intros W. by apply update_loop_defined. Qed.

Lemma projection_defined s : wf s -> outcome s D (projection src kind names strict s).
Proof.
  intros W. unfold projection. apply outcome_D_bind.
  - apply (outcome_D_list (length (rest s))); [|done|done]. intros s1 W1 _. by apply path_defined.
  - intros l1 ps s1 C1 W1. unfold at_end. case_bool_decide; [by apply outcome_D_ret|apply syntax_error_ne].
Qed.

End Theory.

(** ** From text to lexemes *)

Definition words (src : string) (allow_quoted : bool) : list Lexeme :=
  lexeme src <$> lex_loop (String.length src) allow_quoted 0 src.

Definition last_word (src : string) : Lexeme :=
  lexeme src (mkToken Eof (String.length src) (String.length src)).

Lemma lex_token_class q c s : (lex_token q c s).1 <> Eof.
Proof. unfold lex_token. repeat case_match; done. Qed.

Lemma lex_loop_class fuel q i s : Forall (fun t => tok t <> Eof) (lex_loop fuel q i s).
Proof.
  revert i s. induction fuel as [|fuel IH]; intros i [|c s]; simpl; try constructor.
  destruct is_ascii_whitespace; [apply IH|]. pose proof (lex_token_class q c s) as H.
  destruct lex_token as [t n]. by constructor.
Qed.

(** With and without quoted names a text has the same tokens, unless a quote
    makes one of them unknown. *)
Lemma lex_token_quoted c s : (lex_token false c s).1 <> Unknown -> lex_token true c s = lex_token false c s.
Proof.
  unfold lex_token. rewrite andb_false_r, andb_true_r. intros H.
  destruct (_ || _); [done|]. destruct (is_word_byte c); [done|].
  destruct (Ascii.eqb_spec c quote) as [->|]; [|done]. done.
Qed.

Lemma lex_loop_quoted fuel i s : Forall (fun t => tok t <> Unknown) (lex_loop fuel false i s) ->
  lex_loop fuel true i s = lex_loop fuel false i s.
Proof.
  revert i s. induction fuel as [|fuel IH]; intros i [|c s]; simpl; try done.
  destruct is_ascii_whitespace; [apply IH|]. pose proof (lex_token_quoted c s) as H.
  destruct (lex_token false c s) as [t n]. simpl in H. intros [Ht F]%Forall_cons. simpl in Ht.
  rewrite (H Ht). f_equal. apply IH, F.
Qed.

Definition initial (src : string) (ctx : ExprContext) : PState :=
  mkPState None (lex src (negb (ctx_strict ctx))) (ctx_used_names ctx) (ctx_used_values ctx).

Lemma initial_lexemes src ctx :
  lexemes src (initial src ctx) = words src (negb (ctx_strict ctx)) ++ [last_word src].
Proof. unfold lexemes, initial, lex, words. simpl. by rewrite fmap_app. Qed.

Lemma initial_wf src ctx : wf (initial src ctx).
Proof. unfold wf, initial, lex. simpl. rewrite fmap_app. apply last_snoc. Qed.

Lemma words_class src q : Forall (fun w => w.1 <> Eof) (words src q).
Proof. apply Forall_fmap. apply lex_loop_class. Qed.

(** The lexemes before the end are all the words. *)
Lemma words_before_end (ws l q : list Lexeme) e w : Forall (fun w => w.1 <> Eof) ws ->
  ws ++ [e] = l ++ w :: q -> w.1 = Eof -> l = ws.
Proof.
  revert l. induction ws as [|x ws IH]; intros l F E W; simpl in E.
  - destruct l as [|y [|z l]]; [done|discriminate|discriminate].
  - apply Forall_cons in F as [Fx F]. destruct l as [|y l]; simpl in E; injection E as -> E; [done|].
    f_equal. by eapply IH.
Qed.

Lemma consumed_all src ctx l s' : consumes src (initial src ctx) l s' -> peek src s' = Eof ->
  l = words src (negb (ctx_strict ctx)).
Proof.
  intros C E. destruct (lexemes_head src s' (c_wf _ _ _ _ C)) as [q Hq].
  pose proof (c_lexemes _ _ _ _ C) as L. rewrite initial_lexemes, Hq in L.
  eapply words_before_end; [apply words_class|exact L|exact E].
Qed.

(** ** Conditions *)

Lemma run_condition_iff src kind ctx c :
  (exists s', run condition src kind ctx = Ok (c, s'))
  <-> G (ctx_names ctx) (ctx_values ctx) (ctx_strict ctx) LOr (words src (negb (ctx_strict ctx))) c.
Proof.
  unfold run. fold (initial src ctx).
  split.
  - intros [s' E]. destruct (condition_outcome src kind (ctx_names ctx) (ctx_values ctx) (ctx_strict ctx)
      (initial src ctx) (initial_wf src ctx)) as [O Hend]. rewrite E in O.
    destruct O as (l & C & H). rewrite <- (consumed_all _ _ _ _ C (Hend _ _ E)). exact H.
  - intros H. edestruct (yields_condition src kind) as (s' & E & _); [exact H| |by exists s'].
    by rewrite initial_lexemes.
Qed.

Section Lenient.
Context (names : gmap string string) (values : gmap string Value) (strict : bool).

Lemma GName_lenient w n : GName names strict w n -> GName names false w n.
Proof.
  unfold GName. destruct (w.1); try done.
  - intros (H1 & H2 & H3). done.
  - intros [H|(_ & H)]; [by left|by right].
  - intros (_ & H). done.
Qed.

Lemma GPath_lenient l p : GPath names strict l p -> GPath names false l p.
Proof.
  intros [w n l' p' Hn Hs]. constructor; [by apply GName_lenient|].
  induction Hs as [|l1 l2 e p0 H1 H2 IH]; constructor; [|done].
  destruct H1; constructor; [by apply GName_lenient|done].
Qed.

Lemma GOperand_lenient l o : GOperand names values strict l o -> GOperand names values false l o.
Proof. intros []; constructor; try done; by apply GPath_lenient. Qed.

Lemma GList_lenient l args : GList (GOperand names values strict) l args ->
  GList (GOperand names values false) l args.
Proof.
  intros [l1 l2 x xs Hx Hxs]. constructor; [by apply GOperand_lenient|].
  induction Hxs; constructor; [by apply GOperand_lenient|done].
Qed.

Lemma G_lenient lev l c : G names values strict lev l c -> G names values false lev l c.
Proof.
  induction 1; eauto using G_or_one, G_or, G_and_one, G_and, G_not_one, G_not, G_paren, G_function,
    G_compare, G_between, G_in, GOperand_lenient, GList_lenient.
Qed.

(** *** No derivation contains an unknown token *)

Notation known := (Forall (fun w : Lexeme => w.1 <> Unknown)).

Lemma GName_known w n : GName names strict w n -> w.1 <> Unknown.
Proof. unfold GName. by destruct (w.1). Qed.

Lemma GPath_known l p : GPath names strict l p -> known l.
Proof.
  intros [w n l' p' Hn Hs]. constructor; [by eapply GName_known|].
  induction Hs as [|l1 l2 e p0 H1 H2 IH]; [constructor|]. apply Forall_app. split; [|done].
  destruct H1; repeat constructor; try done. by eapply GName_known.
Qed.

Lemma GOperand_known l o : GOperand names values strict l o -> known l.
Proof.
  intros []; [by repeat constructor|by eapply GPath_known|].
  do 2 (constructor; [done|]). apply Forall_app. split; [by eapply GPath_known|by repeat constructor].
Qed.

Lemma GList_known l args : GList (GOperand names values strict) l args -> known l.
Proof.
  intros [l1 l2 x xs Hx Hxs]. apply Forall_app. split; [by eapply GOperand_known|].
  induction Hxs; [constructor|]. constructor; [done|]. apply Forall_app. split; [by eapply GOperand_known|done].
Qed.

Lemma keyword_known kw w : keyword kw w -> w.1 <> Unknown.
Proof. by intros [-> _]. Qed.

Lemma G_known lev l c : G names values strict lev l c -> known l.
Proof.
  induction 1; try done; rewrite ?Forall_app, ?Forall_cons, ?Forall_app, ?Forall_cons, ?Forall_nil;
    repeat split; eauto using GOperand_known, GList_known, keyword_known; try done.
  simpl. by destruct t.
Qed.

End Lenient.

(** ** Entry points *)

(** A check's error is one of the source's. *)
Definition reports {A} (r : Result AwsServiceError A) : Prop :=
  match r with Ok _ => True | Err e => e <> out_of_fuel end.

Lemma reports_bind {A B} (r : Result AwsServiceError A) (f : A -> Result AwsServiceError B) :
  reports r -> (forall a, reports (f a)) -> reports (r ≫= f).
Proof. intros H1 H2. destruct r; [apply H2|exact H1]. Qed.

Lemma reports_each {A} (f : A -> Result AwsServiceError unit) l :
  (forall a, reports (f a)) -> reports (each_ok f l).
Proof. intros H. induction l; simpl; [done|]. apply reports_bind; [apply H|done]. Qed.

Lemma reports_validation {A} m : reports (Err (A := A) (validation_error m)).
Proof. discriminate. Qed.

Ltac reports :=
  repeat first [progress intros | apply reports_bind | apply reports_each | apply reports_validation
    | exact I | case_match].

Lemma overlap_reports paths kind : reports (check_overlap paths kind).
Proof. induction paths as [|a more IH]; simpl; [done|]. apply reports_bind; [reports|done]. Qed.

Lemma parens_reports c kind : reports (check_redundant_parens c kind).
Proof.
  induction c; cbn [check_redundant_parens]; try done; try (by apply reports_bind).
  destruct c; try done; apply reports_validation.
Qed.

Lemma set_parens_reports v b : reports (check_set_value_parens v b).
Proof.
  revert b. induction v; intros b; cbn [check_set_value_parens]; try done; try (by apply reports_bind); eauto.
  destruct b; [apply reports_validation|done].
Qed.

Lemma key_shape_reports c : reports (check_key_condition_shape c).
Proof.
  assert (Ho : forall o, reports (check_key_operand o)).
  { intros [[|? [|]]| |]; simpl; try done; apply reports_validation. }
  induction c; cbn [check_key_condition_shape]; try apply reports_validation; try done;
    try (by apply reports_bind); try (case_match; reports; done).
  apply reports_bind; [done|]. intros _. by apply reports_bind.
Qed.

Section EntryPoints.
Context `{Base64Decode} (json_text : Value -> string).

Lemma literal_sides_reports kind op ok values sides : reports (literal_sides kind op ok values sides).
Proof. unfold literal_sides. reports. Qed.

Lemma between_reports kind values lo hi : reports (check_between_bounds json_text kind values lo hi).
Proof. unfold check_between_bounds. reports. Qed.

Lemma semantics_reports c kind values : reports (check_condition_semantics json_text c kind values).
Proof.
  induction c; cbn [check_condition_semantics]; try done; try apply literal_sides_reports.
  - case_match; try done; apply literal_sides_reports.
  - apply reports_bind; [apply literal_sides_reports|]. intros _. apply between_reports.
  - apply reports_bind; [apply literal_sides_reports|]. reports.
  - reports.
  - by apply reports_bind.
  - by apply reports_bind.
Qed.

(** What an expression's parser leaves in the context: its placeholders are
    recorded, and when strict they are all defined. *)
Definition recorded (ctx ctx' : ExprContext) (src : string) : Prop :=
  ctx_names ctx' = ctx_names ctx /\ ctx_values ctx' = ctx_values ctx /\ ctx_strict ctx' = ctx_strict ctx
  /\ ctx_used_names ctx' = ctx_used_names ctx ∪ texts_of TName (words src (negb (ctx_strict ctx)))
  /\ ctx_used_values ctx' = ctx_used_values ctx ∪ texts_of TValue (words src (negb (ctx_strict ctx)))
  /\ defined (ctx_names ctx) (ctx_values ctx) (ctx_strict ctx) (words src (negb (ctx_strict ctx))).

Lemma recorded_intro src ctx l s' : consumes src (initial src ctx) l s' -> peek src s' = Eof ->
  defined (ctx_names ctx) (ctx_values ctx) (ctx_strict ctx) l -> recorded ctx (with_used ctx s') src.
Proof.
  intros C E Hd. pose proof (consumed_all _ _ _ _ C E) as El. subst l. unfold recorded. simpl.
  rewrite (c_names _ _ _ _ C), (c_values _ _ _ _ C). done.
Qed.

Lemma check_text_reports ctx kind src : reports (check_text ctx kind src).
Proof. unfold check_text, check_size_and_empty. reports. Qed.

Definition condition_checks (ctx : ExprContext) (kind : ExprKind) (c : Cond) : Prop :=
  ctx_strict ctx = true ->
  check_redundant_parens c kind = Ok tt
  /\ check_condition_semantics json_text c kind (ctx_values ctx) = Ok tt
  /\ (kind = KeyCondition -> check_key_condition_shape c = Ok tt).

Lemma parse_condition_inv src kind ctx c ctx' :
  parse_condition_expression json_text src kind ctx = Ok (c, ctx') <->
  check_text ctx kind src = Ok tt /\ condition_checks ctx kind c
  /\ exists s', run condition src kind ctx = Ok (c, s') /\ ctx' = with_used ctx s'.
Proof.
  unfold parse_condition_expression, condition_checks. split.
  - intros E. apply bind_Ok in E as ([] & Et & E). apply bind_Ok in E as ([c0 s'] & Er & E).
    apply bind_Ok in E as ([] & Ec & E). injection E as <- <-. split; [done|]. split; [|eauto].
    intros St. rewrite St in Ec. apply bind_Ok in Ec as ([] & E1 & Ec). apply bind_Ok in Ec as ([] & E2 & Ec).
    split; [done|]. split; [done|]. intros ->. done.
  - intros (Et & Hc & s' & Er & ->). rewrite Et. simpl. rewrite Er. simpl.
    destruct (ctx_strict ctx); [|done]. destruct (Hc eq_refl) as (E1 & E2 & E3). rewrite E1. simpl. rewrite E2.
    simpl. destruct kind; try done. rewrite E3; done.
Qed.

Lemma condition_recorded src kind ctx c ctx' :
  parse_condition_expression json_text src kind ctx = Ok (c, ctx') -> recorded ctx ctx' src.
Proof.
  intros (_ & _ & s' & E & ->)%parse_condition_inv. unfold run in E. fold (initial src ctx) in E.
  destruct (condition_outcome src kind (ctx_names ctx) (ctx_values ctx) (ctx_strict ctx)
    (initial src ctx) (initial_wf src ctx)) as [O Hend]. rewrite E in O. destruct O as (l & C & Hg).
  eapply recorded_intro; [exact C|by eapply Hend|by eapply G_defined].
Qed.

Lemma condition_reports src kind ctx : reports (parse_condition_expression json_text src kind ctx).
Proof.
  unfold parse_condition_expression. apply reports_bind; [apply check_text_reports|]. intros _.
  apply reports_bind.
  - destruct (condition_outcome src kind (ctx_names ctx) (ctx_values ctx) (ctx_strict ctx)
      (initial src ctx) (initial_wf src ctx)) as [O _]. unfold run. fold (initial src ctx).
    destruct condition as [[c s']|e]; [done|exact O].
  - intros [c s']. apply reports_bind; [|done]. destruct ctx_strict; [|done].
    apply reports_bind; [apply parens_reports|]. intros _. apply reports_bind; [apply semantics_reports|].
    intros _. destruct kind; try done. apply key_shape_reports.
Qed.

(** The context with the placeholders of an expression recorded. *)
Definition recording (ctx : ExprContext) (src : string) : ExprContext :=
  mkCtx (ctx_names ctx) (ctx_values ctx)
    (ctx_used_names ctx ∪ texts_of TName (words src (negb (ctx_strict ctx))))
    (ctx_used_values ctx ∪ texts_of TValue (words src (negb (ctx_strict ctx)))) (ctx_strict ctx).

Lemma recorded_is ctx ctx' src : recorded ctx ctx' src -> ctx' = recording ctx src.
Proof. destruct ctx, ctx'. intros (E1 & E2 & E3 & E4 & E5 & _). simpl in *. by subst. Qed.

(** C12 (refinement): a condition, filter or key condition is accepted exactly when the grammar
    derives its tokens and the request-time checks pass; the syntax tree is the
    one derived (precedence [NOT], [AND], [OR], both binary operators to the
    left), and the context afterwards is the one before it with exactly the name
    and value placeholders of the expression's tokens recorded as used. *)
Theorem condition_parser_grammar src kind ctx c ctx' :
  parse_condition_expression json_text src kind ctx = Ok (c, ctx')
  <-> check_text ctx kind src = Ok tt
      /\ G (ctx_names ctx) (ctx_values ctx) (ctx_strict ctx) LOr (words src (negb (ctx_strict ctx))) c
      /\ condition_checks ctx kind c
      /\ ctx' = recording ctx src.
Proof.
  rewrite <- (run_condition_iff src kind). split.
  - intros E. pose proof (recorded_is _ _ _ (condition_recorded _ _ _ _ _ E)) as Hr.
    apply parse_condition_inv in E as (Et & Hc & s' & Er & _). eauto 6.
  - intros (Et & [s' Er] & Hc & ->). assert (E : parse_condition_expression json_text src kind ctx = Ok (c, with_used ctx s')).
    { apply parse_condition_inv. eauto 10. }
    by rewrite <- (recorded_is _ _ _ (condition_recorded _ _ _ _ _ E)).
Qed.

(** At evaluation time the grammar alone decides. *)
Lemma lenient_parse src names values c : G names values false LOr (words src true) c ->
  parse_condition_lenient json_text src names values = Some c.
Proof.
  intros Hg. apply (proj2 (run_condition_iff src Filter (new_context names values false) c)) in Hg as [s' Er].
  unfold parse_condition_lenient.
  rewrite (proj2 (parse_condition_inv src Filter (new_context names values false) c (with_used (new_context names values false) s'))); [done|].
  split; [done|]. split; [by intros|]. eauto.
Qed.

(** C24 (safety): what validation accepts is what is evaluated: the lenient parse at
    evaluation time gives the tree that was checked. *)
Theorem validated_condition_is_evaluated src kind names values used_n used_v c ctx' :
  parse_condition_expression json_text src kind (mkCtx names values used_n used_v true) = Ok (c, ctx') ->
  parse_condition_lenient json_text src names values = Some c.
Proof.
  intros E. assert (Hg : G names values true LOr (words src false) c).
  { apply parse_condition_inv in E as (_ & _ & s' & Er & _).
    change (words src false) with (words src (negb (ctx_strict (mkCtx names values used_n used_v true)))).
    by eapply (run_condition_iff src kind (mkCtx names values used_n used_v true)); eexists. }
  assert (Hw : words src true = words src false).
  { unfold words. f_equal. apply lex_loop_quoted. apply G_known in Hg. exact (proj1 (Forall_fmap _ _ _) Hg). }
  apply G_lenient in Hg. rewrite <- Hw in Hg. by apply lenient_parse.
Qed.

(** *** Projections and updates *)

Lemma projection_end src kind names strict s ps s' :
  projection src kind names strict s = Ok (ps, s') -> peek src s' = Eof.
Proof.
  unfold projection, pbind. destruct comma_list as [[l s1]|]; [|done]. unfold at_end.
  case_bool_decide; [|done]. by intros [= <- <-].
Qed.

Lemma update_loop_end src kind names values strict n seen ast s a s' :
  update_loop src kind names values strict n seen ast s = Ok (a, s') -> peek src s' = Eof.
Proof.
  revert seen ast s. induction n as [|n IH]; intros seen ast s; [done|]. cbn [update_loop].
  destruct section_at; [|done]. case_bool_decide; [done|]. unfold pbind, pget.
  destruct advance as [[[] s1]|]; [|done]. destruct actions_loop as [[a2 s2]|]; [|done].
  case_bool_decide; [by intros [= <- <-]|]. apply IH.
Qed.

Lemma projection_outcome_run src ctx :
  match run (fun src kind names _ strict => projection src kind names strict) src Projection ctx with
  | Ok (_, s') => recorded ctx (with_used ctx s') src
  | Err e => e <> out_of_fuel
  end.
Proof.
  unfold run. fold (initial src ctx).
  pose proof (projection_defined src Projection (ctx_names ctx) (ctx_values ctx) (ctx_strict ctx)
    (initial src ctx) (initial_wf src ctx)) as O.
  destruct projection as [[ps s']|e] eqn:E; [|exact O]. destruct O as (l & C & Hd).
  eapply recorded_intro; [exact C|by eapply projection_end|exact Hd].
Qed.

Lemma update_outcome_run src ctx :
  match run update src Update ctx with
  | Ok (_, s') => recorded ctx (with_used ctx s') src
  | Err e => e <> out_of_fuel
  end.
Proof.
  unfold run. fold (initial src ctx).
  pose proof (update_defined src Update (ctx_names ctx) (ctx_values ctx) (ctx_strict ctx)
    (initial src ctx) (initial_wf src ctx)) as O.
  destruct update as [[ast s']|e] eqn:E; [|exact O]. destruct O as (l & C & Hd).
  eapply recorded_intro; [exact C|by eapply update_loop_end|exact Hd].
Qed.

Lemma projection_entry src ctx :
  reports (parse_projection_expression src ctx)
  /\ forall ps ctx', parse_projection_expression src ctx = Ok (ps, ctx') -> recorded ctx ctx' src.
Proof.
  unfold parse_projection_expression. pose proof (projection_outcome_run src ctx) as O. split.
  - apply reports_bind; [apply check_text_reports|]. intros _.
    apply reports_bind; [destruct run as [[]|]; done|]. intros [ps s'].
    apply reports_bind; [destruct ctx_strict; [apply overlap_reports|done]|]. done.
  - intros ps ctx' E. apply bind_Ok in E as ([] & _ & E). apply bind_Ok in E as ([ps0 s'] & Er & E).
    rewrite Er in O. apply bind_Ok in E as ([] & _ & E). by injection E as <- <-.
Qed.

Lemma update_entry src ctx :
  reports (parse_update_expression src ctx)
  /\ forall a ctx', parse_update_expression src ctx = Ok (a, ctx') -> recorded ctx ctx' src.
Proof.
  unfold parse_update_expression. pose proof (update_outcome_run src ctx) as O. split.
  - apply reports_bind; [apply check_text_reports|]. intros _.
    apply reports_bind; [destruct run as [[]|]; done|]. intros [ps s'].
    apply reports_bind; [apply reports_each; intros; apply set_parens_reports|]. intros _.
    apply reports_bind; [apply overlap_reports|]. done.
  - intros ps ctx' E. apply bind_Ok in E as ([] & _ & E). apply bind_Ok in E as ([ps0 s'] & Er & E).
    rewrite Er in O. apply bind_Ok in E as ([] & _ & E). apply bind_Ok in E as ([] & _ & E).
    by injection E as <- <-.
Qed.

(** *** A request's expressions *)

(** The texts of a request's expressions, in order. *)
Definition sources (body : Value) (kinds : list ExprKind) : list string :=
  omap (fun k => as_str (index body (param k))) kinds.

Definition placeholders (t : Tok) (srcs : list string) : gset string :=
  ⋃ ((fun src => texts_of t (words src false)) <$> srcs).

Lemma parse_param_recorded body kind parsed ctx st' : parse_param json_text body kind (parsed, ctx) = Ok st' ->
  match as_str (index body (param kind)) with
  | Some src => recorded ctx st'.2 src
  | None => st' = (parsed, ctx)
  end.
Proof.
  unfold parse_param. destruct as_str as [src|]; [|by intros [= <-]].
  destruct kind; intros E; apply bind_Ok in E as ([x ctx'] & Ep & [= <-]);
    first [by eapply condition_recorded | by eapply projection_entry | by eapply update_entry].
Qed.

Lemma parse_params_recorded body kinds parsed ctx st' : ctx_strict ctx = true ->
  parse_params json_text body kinds (parsed, ctx) = Ok st' ->
  ctx_used_names st'.2 = ctx_used_names ctx ∪ placeholders TName (sources body kinds)
  /\ ctx_used_values st'.2 = ctx_used_values ctx ∪ placeholders TValue (sources body kinds)
  /\ placeholders TName (sources body kinds) ⊆ dom (ctx_names ctx)
  /\ placeholders TValue (sources body kinds) ⊆ dom (ctx_values ctx).
Proof.
  revert parsed ctx. induction kinds as [|k ks IH]; intros parsed ctx St E.
  - injection E as <-. unfold placeholders, sources. simpl. set_solver.
  - cbn [parse_params] in E. apply bind_Ok in E as ([parsed1 ctx1] & E1 & E).
    apply parse_param_recorded in E1. unfold placeholders, sources in *. cbn [omap list_omap].
    destruct (as_str (index body (param k))) as [src|].
    + destruct E1 as (Hn & Hv & Hs & Un & Uv & Hd). rewrite St in *. cbn [negb] in *. simpl in Hn, Hv, Hs, Un, Uv.
      destruct (IH _ _ Hs E) as (-> & -> & Dn & Dv). rewrite Un, Uv. rewrite Hn in Dn. rewrite Hv in Dv.
      destruct (Hd eq_refl) as [D1 D2]. cbn [fmap list_fmap union_list foldr]. set_solver.
    + injection E1 as -> ->. by apply (IH parsed).
Qed.

Lemma check_unused_Ok {A} field (declared : gmap string A) used :
  check_unused field declared used = Ok tt -> dom declared ⊆ used.
Proof.
  unfold check_unused, unused. destruct merge_sort eqn:E; [|done]. intros _.
  assert (elements (dom declared ∖ used) = []) as H1%elements_empty_inv; [|set_solver].
  apply Permutation_nil. rewrite <- E. apply merge_sort_Permutation.
Qed.

(** Theorem (functional): a request accepted with its expressions declares exactly the placeholders
    its expressions use: none is undefined and none is unused. *)
Theorem placeholders_exact body op parsed :
  validate_request_expressions json_text body op = Ok parsed ->
  dom (parse_expression_attribute_names body) = placeholders TName (sources body (expression_params op))
  /\ dom (parse_expression_attribute_values body) = placeholders TValue (sources body (expression_params op)).
Proof.
  unfold validate_request_expressions. intros E.
  assert (E' : exists st, parse_params json_text body (expression_params op) (nothing_parsed,
      new_context (parse_expression_attribute_names body) (parse_expression_attribute_values body) true) = Ok st
    /\ check_unused "ExpressionAttributeNames" (parse_expression_attribute_names body) (ctx_used_names st.2) = Ok tt
    /\ check_unused "ExpressionAttributeValues" (parse_expression_attribute_values body) (ctx_used_values st.2) = Ok tt).
  { destruct (List.filter _ (legacy_params op)) as [|? ?];
      [|destruct (List.filter _ (param <$> expression_params op)) as [|? ?]; [|done]];
      do 3 (apply bind_Ok in E as ([] & _ & E));
      apply bind_Ok in E as ([p ctx] & Ep & E); apply bind_Ok in E as ([] & E1 & E);
      apply bind_Ok in E as ([] & E2 & E); eauto. }
  destruct E' as ([p ctx] & Ep & E1 & E2).
  apply parse_params_recorded in Ep as (Un & Uv & Dn & Dv); [|done].
  apply check_unused_Ok in E1, E2. simpl in *. set_solver.
Qed.

(** C31 (termination): no expression of any request exhausts the parser's recursion bound. *)
Theorem expressions_within_bounds body op :
  validate_request_expressions json_text body op <> Err out_of_fuel.
Proof.
  assert (Hp : forall kinds st, reports (parse_params json_text body kinds st)).
  { induction kinds as [|k ks IH]; intros [p ctx]; [done|]. cbn [parse_params].
    apply reports_bind; [|apply IH]. unfold parse_param. destruct as_str; [|done].
    destruct k; (apply reports_bind; [|by intros []]);
      first [apply condition_reports | apply projection_entry | apply update_entry]. }
  assert (Hu : forall A field (m : gmap string A) used, reports (check_unused field m used)).
  { intros. unfold check_unused. case_match; [done|apply reports_validation]. }
  assert (Hr : reports (validate_request_expressions json_text body op)); [|by intros E; rewrite E in Hr].
  unfold validate_request_expressions.
  assert (Hb : forall b m, reports (if b : bool then Err (validation_error m) else Ok tt)).
  { intros [] m; [apply reports_validation|done]. }
  assert (Hm : forall fp, reports (check_placeholder_map body fp)) by (intros; unfold check_placeholder_map; reports).
  assert (Hd : reports (check_value_depths body)) by (unfold check_value_depths; reports).
  repeat case_match; first [apply reports_validation |
    repeat first [apply Hp | apply Hu | apply Hm | apply Hd | apply Hb
      | apply reports_each; intros | apply reports_bind; [|intros] | case_match | done]].
Qed.

End EntryPoints.

(** *** Overlapping paths *)

Lemma each_ok_Forall {A} (f : A -> Result AwsServiceError unit) l :
  each_ok f l = Ok tt <-> Forall (fun a => f a = Ok tt) l.
Proof.
  induction l as [|a l IH]; simpl; [done|]. rewrite Forall_cons, <- IH.
  destruct (f a) as [[]|e]; simpl; [naive_solver|]. split; [done|by intros []].
Qed.

Lemma is_prefix_spec a b : is_prefix a b = true <-> exists k, b = a ++ k.
Proof.
  revert b. induction a as [|x a IH]; intros [|y b]; simpl.
  - split; [by exists []|done].
  - split; [by eexists|done].
  - split; [done|by intros []].
  - rewrite andb_true_iff, bool_decide_eq_true, IH. naive_solver.
Qed.

(** Neither path is an extension of the other. *)
Definition independent (a b : DocPath) : Prop := ~ (a `prefix_of` b) /\ ~ (b `prefix_of` a).

(** The overlap check accepts exactly the lists of pairwise independent paths. *)
Theorem check_overlap_spec paths kind :
  check_overlap paths kind = Ok tt <-> ForallOrdPairs independent paths.
Proof.
  induction paths as [|a more IH]; simpl; [split; [constructor|done]|].
  assert (Ha : each_ok (fun b => if is_prefix a b || is_prefix b a then Err (overlap_error kind a b) else Ok tt) more = Ok tt
    <-> Forall (independent a) more).
  { rewrite each_ok_Forall. apply Forall_iff. intros b. unfold independent, prefix.
    rewrite <- !is_prefix_spec. destruct (is_prefix a b), (is_prefix b a); simpl; naive_solver. }
  destruct each_ok as [[]|e] eqn:E.
  - simpl. rewrite IH. split; [intros H; constructor; [by apply Ha|done]|by inversion 1].
  - split; [done|]. inversion 1; subst. apply Ha in H2. congruence.
Qed.

(** ** Witnesses *)

Module ExprWitness.
Import Examples.

#[local] Existing Instance no_base64.
Definition jt : Value -> string := fun _ => "".
Definition vals : gmap string Value := {[ ":n" := num "3" ]}.
Definition nms : gmap string string := {[ "#s" := "status" ]}.
Definition src : string := "NOT size(#s) > :n AND a.b[2] = c OR #s IN (:n, d)".

Definition tree : Cond :=
  Or (And (Not (Compare (OSize [Attr "status"]) CGt (OValue ":n")))
          (Compare (OPath [Attr "a"; Attr "b"; Index 2]) CEq (OPath [Attr "c"])))
     (In (OPath [Attr "status"]) [OValue ":n"; OPath [Attr "d"]]).

Lemma validated_condition_is_evaluated_witness :
  parse_condition_lenient jt src nms vals = Some tree.
Proof.
  eapply (validated_condition_is_evaluated jt src Condition nms vals ∅ ∅). vm_compute. reflexivity.
Defined.

Definition body : Value :=
  VObject [("UpdateExpression", VString "SET #s = :v REMOVE b[0], c");
           ("ConditionExpression", VString "#s < :n");
           ("ExpressionAttributeNames", VObject [("#s", VString "status")]);
           ("ExpressionAttributeValues", VObject [(":v", str "x"); (":n", num "1")])].

Lemma placeholders_exact_witness :
  dom (parse_expression_attribute_values body) = placeholders TValue (sources body (expression_params OpUpdateItem)).
Proof.
  eapply (placeholders_exact jt body OpUpdateItem). vm_compute. reflexivity.
Defined.

End ExprWitness.
