(* ===== verification/DdbTable.v ===== *)
(** * DynamoDB tables

    A table's rows, its primary-key index and its cached statistics
    ([DynamoTable], [TableItems], [KeyIndex] and [RowKey] of
    [fakecloud-dynamodb/src/state.rs]).

    The record has the fields the operations below read or write; a table's
    descriptive fields (ARN, throughput, encryption and the like) are carried
    by the handlers and touched by none of them.  Times are nanoseconds, and
    an operation that reads the clock takes the time as an argument.  A Rust
    panic (a row id that does not exist) is [None]. *)

From Stdlib Require Import ZArith Lia Bool String Ascii.
From stdpp Require Import base option list strings gmap sorting.
From S2P Require Import Prelude Json BTree Text OrdMap DdbNumber DdbValue.

Local Open Scope string_scope.
Local Open Scope list_scope.

(** The text [serde_json] prints for a scalar, and for a whole value. *)
Class JsonText := {
  scalar_text : Value -> string;
  value_text : Value -> string
}.

(** ** Canonical encodings *)

Section Encoding.
Context `{Base64Decode} `{JsonText}.

(** Members in key order; [map.get(k)] of a key of the map is its entry. *)
Definition member_le (a b : string * string) : Prop := BTree.str_le a.1 b.1.

#[local] Instance member_le_dec : RelDecision member_le.
Proof. intros a b. unfold member_le. apply _. Defined.

Fixpoint write_canonical_json (v : Value) : string :=
  match v with
  | VObject m =>
      let members := (fix go (m : list (string * Value)) : list (string * string) :=
        match m with [] => [] | (k, x) :: m' => (k, write_canonical_json x) :: go m' end) m in
      "{" +:+ join "," ((fun kv => scalar_text (VString kv.1) +:+ ":" +:+ kv.2)
                          <$> merge_sort member_le members) +:+ "}"
  | VArray l =>
      "[" +:+ join "," ((fix go (l : list Value) : list string :=
        match l with [] => [] | x :: l' => write_canonical_json x :: go l' end) l) +:+ "]"
  | scalar => scalar_text scalar
  end.

Definition encode_key_value (v : Value) : string :=
  match (match attribute_type_and_value v with
         | Some (t, n) => if String.eqb t "N" then as_str n ≫= canonical_number else None
         | None => None
         end) with
  | Some canon => "N:" +:+ canon
  | None => "X:" +:+ write_canonical_json v
  end.

Inductive SortKeyPart :=
| Missing
| Number (canon : string)
| Str (s : string)
| Binary (bytes : list Z) (text : string)
| Other (encoded : string).

#[global] Instance SortKeyPart_eq_dec : EqDecision SortKeyPart.
Proof. solve_decision. Defined.

Definition sort_part (v : option Value) : SortKeyPart :=
  match v with
  | None => Missing
  | Some v =>
      let other := Other (encode_key_value v) in
      match attribute_type_and_value v with
      | Some (t, n) =>
          if String.eqb t "N" then
            match as_str n ≫= canonical_number with Some canon => Number canon | None => other end
          else if String.eqb t "S" then
            match n with VString s => Str s | _ => other end
          else if String.eqb t "B" then
            match n with
            | VString b => match base64_decode b with Some bytes => Binary bytes b | None => other end
            | _ => other
            end
          else other
      | None => other
      end
  end.

Definition rank (p : SortKeyPart) : Z :=
  match p with
  | Missing => 0 | Number _ => 1 | Str _ => 2 | Binary _ _ => 3 | Other _ => 4
  end.

Definition sort_cmp (a b : SortKeyPart) : comparison :=
  match a, b with
  | Number a, Number b => compare_number_strings a b
  | Str a, Str b | Other a, Other b => str_cmp a b
  | Binary a at_, Binary b bt => then_cmp (bytes_cmp a b) (str_cmp at_ bt)
  | _, _ => (rank a ?= rank b)%Z
  end.

Record RowKey := mkRowKey {
  partition_hash : Z;
  partition : string;
  sort : option SortKeyPart
}.

#[global] Instance RowKey_eq_dec : EqDecision RowKey.
Proof. solve_decision. Defined.

(** [derive(Ord)] on an [Option]: [None] first. *)
Definition option_cmp {A} (cmp : A -> A -> comparison) (a b : option A) : comparison :=
  match a, b with
  | None, None => Eq
  | None, Some _ => Lt
  | Some _, None => Gt
  | Some a, Some b => cmp a b
  end.

(** The derived lexicographic order. *)
Definition row_cmp (a b : RowKey) : comparison :=
  then_cmp (partition_hash a ?= partition_hash b)%Z
    (then_cmp (str_cmp (partition a) (partition b)) (option_cmp sort_cmp (sort a) (sort b))).

Definition two64 : Z := 2 ^ 64.

Definition fnv1a_64 (bytes : list Z) : Z :=
  foldl (fun hash b => (Z.lxor hash b * 0x100000001b3) mod two64)%Z 0xcbf29ce484222325%Z bytes.

Definition cmp_scan_order (a b : option RowKey) : comparison :=
  match a, b with
  | Some a, Some b => row_cmp a b
  | Some _, None => Lt
  | None, Some _ => Gt
  | None, None => Eq
  end.

(** ** Rows *)

Record TableItems := mkTableItems { rows : OMap Z Item; next_id : Z }.

Definition no_items : TableItems := mkTableItems [] 0.
Definition items_len (t : TableItems) : nat := length (rows t).
Definition items_iter (t : TableItems) : list Item := (rows t).*2.
Definition items_get (t : TableItems) (id : Z) : option Item := om_get Z.compare id (rows t).

Definition items_push (t : TableItems) (item : Item) : Z * TableItems :=
  (next_id t, mkTableItems (om_insert Z.compare (next_id t) item (rows t)) (next_id t + 1)).

Definition items_remove (t : TableItems) (id : Z) : option (Item * TableItems) :=
  item ← items_get t id;
  Some (item, mkTableItems (om_remove Z.compare id (rows t)) (next_id t)).

(** A write through [get_mut]. *)
Definition items_set (t : TableItems) (id : Z) (item : Item) : TableItems :=
  mkTableItems (om_insert Z.compare id item (rows t)) (next_id t).

Definition items_new (items : list Item) : TableItems :=
  foldl (fun t item => (items_push t item).2) no_items items.

(** ** Index *)

Inductive KeyIndex :=
| Unbuilt
| Built (ids : OMap RowKey Z) (nrows : nat)
| Ambiguous (nrows : nat).

Definition index_rows (i : KeyIndex) : option nat :=
  match i with
  | Unbuilt => None
  | Built _ n | Ambiguous n => Some n
  end.

(** [*rows += 1] and [*rows -= 1] on a built or ambiguous index. *)
Definition index_count (f : nat -> nat) (i : KeyIndex) : KeyIndex :=
  match i with
  | Unbuilt => Unbuilt
  | Built ids n => Built ids (f n)
  | Ambiguous n => Ambiguous (f n)
  end.

(** ** Tables *)

Record KeySchemaElement := mkKeySchemaElement { attribute_name : string; key_type : string }.

Record ItemChange := mkItemChange {
  seq : Z;
  at_time : Z;
  change_keys : Item;
  old_image : option Item;
  new_image : option Item
}.

Record PitrHistory := mkPitrHistory {
  enabled_at : option Z;
  changes : list ItemChange;
  next_seq : Z
}.

Definition no_history : PitrHistory := mkPitrHistory None [] 0.

Record ChangeLog := mkChangeLog { trackers : Z; logged_keys : list Item }.

Record DynamoTable := mkDynamoTable {
  key_schema : list KeySchemaElement;
  items : TableItems;
  key_index : KeyIndex;
  item_count : Z;
  size_bytes : Z;
  pitr_enabled : bool;
  contributor_insights_status : string;
  contributor_insights_counters : gmap string Z;
  pitr_history : PitrHistory;
  change_log : ChangeLog
}.

Definition new_table (schema : list KeySchemaElement) : DynamoTable :=
  mkDynamoTable schema no_items Unbuilt 0 0 false "DISABLED" ∅ no_history (mkChangeLog 0 []).

Definition with_items (t : DynamoTable) (x : TableItems) : DynamoTable :=
  mkDynamoTable (key_schema t) x (key_index t) (item_count t) (size_bytes t) (pitr_enabled t)
    (contributor_insights_status t) (contributor_insights_counters t) (pitr_history t) (change_log t).
Definition with_index (t : DynamoTable) (x : KeyIndex) : DynamoTable :=
  mkDynamoTable (key_schema t) (items t) x (item_count t) (size_bytes t) (pitr_enabled t)
    (contributor_insights_status t) (contributor_insights_counters t) (pitr_history t) (change_log t).
Definition with_stats (t : DynamoTable) (count bytes : Z) : DynamoTable :=
  mkDynamoTable (key_schema t) (items t) (key_index t) count bytes (pitr_enabled t)
    (contributor_insights_status t) (contributor_insights_counters t) (pitr_history t) (change_log t).
Definition with_pitr (t : DynamoTable) (enabled : bool) (x : PitrHistory) : DynamoTable :=
  mkDynamoTable (key_schema t) (items t) (key_index t) (item_count t) (size_bytes t) enabled
    (contributor_insights_status t) (contributor_insights_counters t) x (change_log t).
Definition with_counters (t : DynamoTable) (x : gmap string Z) : DynamoTable :=
  mkDynamoTable (key_schema t) (items t) (key_index t) (item_count t) (size_bytes t) (pitr_enabled t)
    (contributor_insights_status t) x (pitr_history t) (change_log t).
Definition with_log (t : DynamoTable) (x : ChangeLog) : DynamoTable :=
  mkDynamoTable (key_schema t) (items t) (key_index t) (item_count t) (size_bytes t) (pitr_enabled t)
    (contributor_insights_status t) (contributor_insights_counters t) (pitr_history t) x.

Definition schema_name (t : DynamoTable) (ty : string) : option string :=
  attribute_name <$> List.find (fun k => String.eqb (key_type k) ty) (key_schema t).

Definition hash_key_name (t : DynamoTable) : string := default "" (schema_name t "HASH").
Definition range_key_name (t : DynamoTable) : option string := schema_name t "RANGE".

(** The primary-key attributes of an item. *)
Definition primary_key_of (t : DynamoTable) (item : Item) : Item :=
  foldl (fun m k => match item !! attribute_name k with
                    | Some v => <[attribute_name k := v]> m
                    | None => m
                    end) ∅ (key_schema t).

(** *** Change log *)

Definition track_changes (t : DynamoTable) : DynamoTable :=
  with_log t (mkChangeLog (trackers (change_log t) + 1) (logged_keys (change_log t))).

Definition finish_tracking (t : DynamoTable) : list Item * DynamoTable :=
  (logged_keys (change_log t), with_log t (mkChangeLog (Z.max 0 (trackers (change_log t) - 1)) [])).

Definition log_change (t : DynamoTable) (item : Item) : DynamoTable :=
  if (0 <? trackers (change_log t))%Z
  then with_log t (mkChangeLog (trackers (change_log t)) (logged_keys (change_log t) ++ [primary_key_of t item]))
  else t.

(** *** Point-in-time recovery *)

Definition nanos : Z := 1000000000.
Definition PITR_RETENTION_DAYS : Z := 35.
Definition whole_seconds (t : Z) : Z := (t / nanos * nanos)%Z.

Definition earliest_restorable (t : DynamoTable) (now : Z) : option Z :=
  if negb (pitr_enabled t) then None
  else
    let window_start := (now - PITR_RETENTION_DAYS * 86400 * nanos)%Z in
    Some (whole_seconds (Z.max (default now (enabled_at (pitr_history t))) window_start)).

Fixpoint drop_while {A} (f : A -> bool) (l : list A) : list A :=
  match l with x :: l' => if f x then drop_while f l' else l | [] => [] end.

Definition record_change (t : DynamoTable) (now : Z) (old new : option Item) : DynamoTable :=
  if negb (pitr_enabled t) then t
  else match (match old with Some _ => old | None => new end) with
       | None => t
       | Some source =>
           let cutoff := default now (earliest_restorable t now) in
           let h := pitr_history t in
           let kept := drop_while (fun c => (at_time c <? cutoff)%Z) (changes h) in
           with_pitr t (pitr_enabled t)
             (mkPitrHistory (enabled_at h)
                (kept ++ [mkItemChange (next_seq h) now (primary_key_of t source) old new])
                (next_seq h + 1))
       end.

Definition change_marker (t : DynamoTable) : Z := next_seq (pitr_history t).

Definition discard_changes_since (t : DynamoTable) (marker : Z) : DynamoTable :=
  let h := pitr_history t in
  with_pitr t (pitr_enabled t)
    (mkPitrHistory (enabled_at h) (List.filter (fun c => (seq c <? marker)%Z) (changes h)) (next_seq h)).

Definition set_pitr (t : DynamoTable) (now : Z) (enabled : bool) : DynamoTable :=
  let h := pitr_history t in
  let h' :=
    if enabled && negb (pitr_enabled t) then mkPitrHistory (Some (whole_seconds now)) [] 0
    else if enabled && negb (bool_decide (is_Some (enabled_at h)))
    then mkPitrHistory (Some (whole_seconds now)) (changes h) (next_seq h)
    else if negb enabled then no_history
    else h in
  with_pitr t enabled h'.

(** *** Keys *)

Definition encode_key_with (t : DynamoTable) (get : string -> option Value) : option RowKey :=
  hash ← get (hash_key_name t);
  let p := encode_key_value hash in
  Some (mkRowKey (fnv1a_64 (as_bytes p)) p ((fun rk => sort_part (get rk)) <$> range_key_name t)).

Definition encode_key (t : DynamoTable) (item : Item) : option RowKey :=
  encode_key_with t (fun name => item !! name).

(** Keyed rows into a fresh index; [None] when two share a key. *)
Fixpoint build_ids (t : DynamoTable) (l : list (Z * Item)) (ids : OMap RowKey Z) : option (OMap RowKey Z) :=
  match l with
  | [] => Some ids
  | (id, item) :: l' =>
      match encode_key t item with
      | None => build_ids t l' ids
      | Some k =>
          match om_get row_cmp k ids with
          | None => build_ids t l' (om_insert row_cmp k id ids)
          | Some _ => None
          end
      end
  end.

Definition rebuild_key_index (t : DynamoTable) : DynamoTable :=
  with_index t
    (match build_ids t (rows (items t)) [] with
     | Some ids => Built ids (items_len (items t))
     | None => Ambiguous (items_len (items t))
     end).

Definition ensure_key_index (t : DynamoTable) : DynamoTable :=
  if bool_decide (index_rows (key_index t) = Some (items_len (items t))) then t else rebuild_key_index t.

Definition index_remove (t : DynamoTable) (item : Item) (id : Z) : DynamoTable :=
  match encode_key t item, key_index t with
  | Some k, Built ids n =>
      if bool_decide (om_get row_cmp k ids = Some id)
      then with_index t (Built (om_remove row_cmp k ids) n) else t
  | _, _ => t
  end.

(** The linear scan. *)
Definition key_matches (t : DynamoTable) (key item : Item) : bool :=
  let hash := hash_key_name t in
  values_equal (item !! hash) (key !! hash) && bool_decide (is_Some (item !! hash))
  && match range_key_name t with
     | Some rk => values_equal (item !! rk) (key !! rk)
     | None => true
     end.

Definition find_item_index_scan (t : DynamoTable) (key : Item) : option Z :=
  fst <$> List.find (fun e => key_matches t key e.2) (rows (items t)).

Definition find_item_index (t : DynamoTable) (key : Item) : option Z :=
  match key_index t with
  | Built ids n =>
      if negb (bool_decide (n = items_len (items t))) then find_item_index_scan t key
      else
        encoded ← encode_key t key;
        id ← om_get row_cmp encoded ids;
        match items_get (items t) id with
        | Some item => if bool_decide (encode_key t item = Some encoded) then Some id
                       else find_item_index_scan t key
        | None => find_item_index_scan t key
        end
  | _ => find_item_index_scan t key
  end.

(** The rows in Scan order after [start]. *)
Definition scan_le (a b : option RowKey * Item) : Prop := cmp_scan_order a.1 b.1 <> Gt.

#[local] Instance scan_le_dec : RelDecision scan_le.
Proof. intros a b. unfold scan_le. destruct (cmp_scan_order a.1 b.1); [left|left|right]; congruence. Defined.

(** A stable insertion: [slice::sort_by]. *)
Fixpoint insert_stable (x : option RowKey * Item) (l : list (option RowKey * Item)) :=
  match l with
  | [] => [x]
  | y :: l' => if bool_decide (scan_le x y) then x :: l else y :: insert_stable x l'
  end.

Definition sort_rows (l : list (option RowKey * Item)) : list (option RowKey * Item) :=
  foldr insert_stable [] l.

Definition row_after (start : option RowKey) (key : option RowKey) : bool :=
  match start, key with
  | Some start, Some key => match row_cmp key start with Gt => true | _ => false end
  | _, _ => true
  end.

Definition scan_sorted (t : DynamoTable) (start : option RowKey) : list Item :=
  snd <$> List.filter (fun r => row_after start r.1)
            (sort_rows ((fun item => (encode_key t item, item)) <$> items_iter (items t))).

Definition scan_rows_after (t : DynamoTable) (start : option Item) : list Item :=
  let go (start : option RowKey) : list Item :=
    match key_index t with
    | Built ids n =>
        if bool_decide (n = items_len (items t)) && bool_decide (length ids = items_len (items t))
        then omap (fun e => items_get (items t) e.2)
               (match start with Some k => om_after row_cmp k ids | None => ids end)
        else scan_sorted t start
    | _ => scan_sorted t start
    end in
  match start with
  | Some key => match encode_key t key with Some k => go (Some k) | None => [] end
  | None => go None
  end.

(** *** Writes *)

Definition estimate_item_size (item : Item) : Z := item_size item.

Definition put_item_at_key (t : DynamoTable) (now : Z) (item : Item) : option ((Z * bool) * DynamoTable) :=
  let t := ensure_key_index (log_change t item) in
  match find_item_index t item with
  | Some id =>
      old ← items_get (items t) id;
      let t := if pitr_enabled t then record_change t now (Some old) (Some item) else t in
      let t := with_stats t (item_count t) (size_bytes t - estimate_item_size old + estimate_item_size item) in
      Some ((id, true), with_items t (items_set (items t) id item))
  | None =>
      let t := record_change t now None (Some item) in
      let t := with_stats t (item_count t + 1) (size_bytes t + estimate_item_size item) in
      let key := encode_key t item in
      let '(id, its) := items_push (items t) item in
      let t := with_items t its in
      let idx := match key, key_index t with
                 | Some k, Built ids n => Built (om_insert row_cmp k id ids) n
                 | _, i => i
                 end in
      Some ((id, false), with_index t (index_count S idx))
  end.

Definition remove_item_at (t : DynamoTable) (now : Z) (id : Z) : option (Item * DynamoTable) :=
  '(removed, its) ← items_remove (items t) id;
  let t := record_change (with_items t its) now (Some removed) None in
  let t := index_remove t removed id in
  let t := with_index t (index_count Nat.pred (key_index t)) in
  let t := with_stats t (item_count t - 1) (size_bytes t - estimate_item_size removed) in
  Some (removed, log_change t removed).

(** The removed item, if there was one. *)
Definition remove_item_by_key (t : DynamoTable) (now : Z) (key : Item) : option (option Item * DynamoTable) :=
  let t := ensure_key_index t in
  match find_item_index t key with
  | None => Some (None, t)
  | Some id => '(removed, t') ← remove_item_at t now id; Some (Some removed, t')
  end.

Record ItemSlot := mkItemSlot { slot_size : Z; slot_key : option RowKey }.

Definition snapshot_item_at (t : DynamoTable) (id : Z) : ItemSlot :=
  match items_get (items t) id with
  | Some item => mkItemSlot (estimate_item_size item) (encode_key t item)
  | None => mkItemSlot 0 None
  end.

Definition sync_item_at (t : DynamoTable) (id : Z) (before : ItemSlot) : DynamoTable :=
  match items_get (items t) id with
  | None => t
  | Some item =>
      let key_after := encode_key t item in
      let t := with_stats t (item_count t) (size_bytes t + (estimate_item_size item - slot_size before)) in
      if bool_decide (key_after = slot_key before) then t
      else match key_index t with
           | Built ids n =>
               let ids := match slot_key before with Some old => om_remove row_cmp old ids | None => ids end in
               match key_after with
               | None => with_index t (Built ids n)
               | Some k =>
                   match om_get row_cmp k ids with
                   | Some _ => with_index t (Ambiguous n)
                   | None => with_index t (Built (om_insert row_cmp k id ids) n)
                   end
               end
           | _ => t
           end
  end.

(** The mutation's effect on the row and its result; a failed one is undone. *)
Definition update_item_at {E} (t : DynamoTable) (now : Z) (id : Z) (f : Item -> Item * Result E unit)
  : option (Result E unit * DynamoTable) :=
  let before := snapshot_item_at t id in
  original ← items_get (items t) id;
  let '(row, r) := f original in
  match r with
  | Ok _ =>
      let t := with_items t (items_set (items t) id row) in
      let t := if pitr_enabled t then record_change t now (Some original) (Some row) else t in
      let t := sync_item_at t id before in
      Some (Ok tt, if (0 <? trackers (change_log t))%Z then log_change t row else t)
  | Err e =>
      let t := with_items t (items_set (items t) id row) in
      Some (Err e, with_items t (items_set (items t) id original))
  end.

Definition mutate_item_at (t : DynamoTable) (now : Z) (id : Z) (f : Item -> Item) : option DynamoTable :=
  let before := snapshot_item_at t id in
  original ← items_get (items t) id;
  let row := f original in
  let t := with_items t (items_set (items t) id row) in
  let t := if pitr_enabled t then record_change t now (Some original) (Some row) else t in
  let t := sync_item_at t id before in
  Some (if (0 <? trackers (change_log t))%Z then log_change t row else t).

Definition recalculate_stats (t : DynamoTable) : DynamoTable :=
  rebuild_key_index
    (with_stats t (Z.of_nat (items_len (items t))) (sum_Z (estimate_item_size <$> items_iter (items t)))).

Definition replace_items (t : DynamoTable) (new : list Item) : DynamoTable :=
  let t := if (0 <? trackers (change_log t))%Z
           then foldl log_change t (items_iter (items t) ++ new) else t in
  recalculate_stats (with_items t (items_new new)).

Fixpoint remove_all (t : DynamoTable) (now : Z) (ids : list Z) : option (list Item * DynamoTable) :=
  match ids with
  | [] => Some ([], t)
  | id :: ids' =>
      '(removed, t') ← remove_item_at t now id;
      '(l, t'') ← remove_all t' now ids';
      Some (removed :: l, t'')
  end.

Definition remove_items_where (t : DynamoTable) (now : Z) (remove : Item -> bool)
  : option (list Item * DynamoTable) :=
  let doomed := fst <$> List.filter (fun e => remove e.2) (rows (items t)) in
  '(removed, t') ← remove_all t now doomed;
  Some (removed, match removed, key_index t' with
                 | _ :: _, Ambiguous _ => rebuild_key_index t'
                 | _, _ => t'
                 end).

(** *** Contributor insights *)

(** [record_key_access] and [record_item_access]: the same count, of the hash
    key's text. *)
Definition record_key_access (t : DynamoTable) (key : Item) : DynamoTable :=
  if negb (String.eqb (contributor_insights_status t) "ENABLED") then t
  else match key !! hash_key_name t with
       | None => t
       | Some v =>
           let k := value_text v in
           with_counters t (<[k := default 0%Z (contributor_insights_counters t !! k) + 1]>
                              (contributor_insights_counters t))%Z
       end.

Definition record_item_access (t : DynamoTable) (item : Item) : DynamoTable := record_key_access t item.

(** By count, descending; equal counts in key order. *)
Fixpoint insert_count (x : string * Z) (l : list (string * Z)) : list (string * Z) :=
  match l with
  | [] => [x]
  | y :: l' => if (y.2 <=? x.2)%Z then x :: l else y :: insert_count x l'
  end.

Definition top_contributors (t : DynamoTable) (n : nat) : list (string * Z) :=
  take n (foldr insert_count [] (BTree.iter (contributor_insights_counters t))).

End Encoding.
