(* ===== verification/DdbTableTheory.v ===== *)
(** * DynamoDB tables: the key index refines the linear scan

    The encodings of primary keys are faithful to key equality, row keys are
    totally ordered, and the index, the statistics and the rows of a table
    stay in step under every operation of [DdbTable]. *)

From Stdlib Require Import ZArith QArith Qcanon Lia Bool String Ascii.
From stdpp Require Import base option list strings gmap sorting.
From S2P Require Import Prelude Json BTree Text OrdMap DdbNumber DdbNumberTheory DdbValue DdbTable.

Local Open Scope string_scope.
Local Open Scope list_scope.
Local Open Scope Z_scope.

(** ** Orders *)

Lemma str_cmp_lt_trans a b c : str_cmp a b = Lt -> str_cmp b c = Lt -> str_cmp a c = Lt.
Proof.
  revert b c. induction a as [|x a IH]; intros [|y b] [|z c]; simpl; try done.
  destruct (N.compare_spec (char_code x) (char_code y)) as [E1|E1|E1]; try done;
    destruct (N.compare_spec (char_code y) (char_code z)) as [E2|E2|E2]; try done; intros H1 H2;
    destruct (N.compare_spec (char_code x) (char_code z)) as [E3|E3|E3]; try lia; try done.
  by eapply IH.
Qed.

#[global] Instance str_ord : OrdLaws (fun _ => True) str_cmp.
Proof.
  split; intros.
  - apply str_cmp_eq.
  - apply str_cmp_antisym.
  - by eapply str_cmp_lt_trans.
Qed.

(** A lexicographic comparison of two components. *)
Lemma lex_ord {K A B} (f : K -> A) (g : K -> B) okA okB cmpA cmpB
  `{!OrdLaws okA cmpA, !OrdLaws okB cmpB} :
  (forall a b, f a = f b -> g a = g b -> a = b) ->
  OrdLaws (fun k => okA (f k) /\ okB (g k))
    (fun a b => then_cmp (cmpA (f a) (f b)) (cmpB (g a) (g b))).
Proof.
  intros Hinj. split.
  - intros a b [Ha Ga] [Hb Gb]. unfold then_cmp. split.
    + destruct (cmpA (f a) (f b)) eqn:E; try done. intros E2.
      apply (cmp_eq (ok := okA) (cmp := cmpA)) in E; [|done|done].
      apply (cmp_eq (ok := okB) (cmp := cmpB)) in E2; [|done|done]. by apply Hinj.
    + intros ->. rewrite (cmp_refl okA cmpA) by done. by apply (cmp_refl okB cmpB).
  - intros a b [Ha Ga] [Hb Gb]. unfold then_cmp.
    rewrite (cmp_anti (ok := okA) (cmp := cmpA) (f a) (f b)), (cmp_anti (ok := okB) (cmp := cmpB) (g a) (g b)) by done.
    by destruct (cmpA (f a) (f b)).
  - intros a b c [Ha Ga] [Hb Gb] [Hc Gc]. unfold then_cmp.
    destruct (cmpA (f a) (f b)) eqn:E1; [|intros _|done].
    + apply (cmp_eq (ok := okA) (cmp := cmpA)) in E1; [|done|done]. rewrite <- E1.
      destruct (cmpA (f a) (f c)); try done. by apply (cmp_lt_trans (ok := okB) (cmp := cmpB)).
    + destruct (cmpA (f b) (f c)) eqn:E2; [intros _|intros _|done].
      * apply (cmp_eq (ok := okA) (cmp := cmpA)) in E2; [|done|done]. by rewrite <- E2, E1.
      * by rewrite (cmp_lt_trans (ok := okA) (cmp := cmpA) (f a) (f b) (f c)).
Qed.

#[global] Instance bytes_ord : OrdLaws (fun _ => True) bytes_cmp.
Proof.
  split.
  - intros a b _ _. split.
    + revert b. induction a as [|x a IH]; intros [|y b]; simpl; try done. unfold then_cmp.
      destruct (Z.compare_spec x y); try done. subst. intros ->%IH. done.
    + intros ->. induction b as [|x b IH]; simpl; [done|]. unfold then_cmp. by rewrite Z.compare_refl.
  - intros a b _ _. revert b. induction a as [|x a IH]; intros [|y b]; simpl; try done. unfold then_cmp.
    rewrite (Z.compare_antisym x y), IH. by destruct (x ?= y).
  - intros a b c _ _ _. revert b c. induction a as [|x a IH]; intros [|y b] [|z c]; simpl; try done. unfold then_cmp.
    destruct (Z.compare_spec x y), (Z.compare_spec y z); try done; intros H1 H2;
      destruct (Z.compare_spec x z); try lia; try done. by eapply IH.
Qed.

Lemma option_ord {A} ok (cmp : A -> A -> comparison) `{!OrdLaws ok cmp} :
  OrdLaws (fun o => match o with Some a => ok a | None => True end) (option_cmp cmp).
Proof.
  split.
  - intros [a|] [b|] Ha Hb; simpl; try done. rewrite (cmp_eq (ok := ok) (cmp := cmp)) by done. naive_solver.
  - intros [a|] [b|] Ha Hb; simpl; try done. by apply (cmp_anti (ok := ok)).
  - intros [a|] [b|] [c|] Ha Hb Hc; simpl; try done. by apply (cmp_lt_trans (ok := ok)).
Qed.

(** *** Sort keys *)

(** A canonical number that reads back as itself: any but those within a few
    digits of the exponent range of an [i64]. *)
Definition canonical (s : string) : Prop := exists p, parse_number s = Some p /\ canonical_text p = s.

Definition sort_ok (p : SortKeyPart) : Prop := match p with Number s => canonical s | _ => True end.

#[global] Instance number_ord : OrdLaws canonical compare_number_strings.
Proof.
  assert (Hc : forall a b p q, parse_number a = Some p -> parse_number b = Some q ->
    compare_number_strings a b = (qval p ?= qval q)%Q).
  { intros a b p q Ha Hb. rewrite (compare_number_strings_parsed _ _ _ _ Ha Hb).
    apply cmp_parsed_spec; by eapply parse_number_wf. }
  split.
  - intros a b (p & Ha & <-) (q & Hb & <-). rewrite (compare_number_strings_parsed _ _ _ _ Ha Hb).
    rewrite cmp_parsed_eq by (by eapply parse_number_wf). split; [by intros ->|].
    intros E. rewrite E in Ha. congruence.
  - intros a b (p & Ha & _) (q & Hb & _). rewrite (Hc _ _ _ _ Ha Hb), (Hc _ _ _ _ Hb Ha).
    symmetry. apply Qcompare_antisym.
  - intros a b c (p & Ha & _) (q & Hb & _) (r & Hr & _).
    rewrite (Hc _ _ _ _ Ha Hb), (Hc _ _ _ _ Hb Hr), (Hc _ _ _ _ Ha Hr). rewrite <- !Qlt_alt. apply Qlt_trans.
Qed.

#[global] Instance sort_ord : OrdLaws sort_ok sort_cmp.
Proof.
  pose proof (lex_ord (fst : list Z * string -> list Z) snd (fun _ => True) (fun _ => True) bytes_cmp str_cmp
    ltac:(intros [] []; simpl; congruence)) as HB.
  split.
  - intros [|a|a|a x|a] [|b|b|b y|b] Ha Hb; simpl in *; try done.
    + rewrite (cmp_eq (ok := canonical)) by done. naive_solver.
    + rewrite str_cmp_eq. naive_solver.
    + rewrite (cmp_eq (OrdLaws := HB) (a, x) (b, y)) by done. naive_solver.
    + rewrite str_cmp_eq. naive_solver.
  - intros [|a|a|a x|a] [|b|b|b y|b] Ha Hb; simpl in *; try done.
    + by apply (cmp_anti (ok := canonical)).
    + apply str_cmp_antisym.
    + by apply (cmp_anti (OrdLaws := HB) (a, x) (b, y)).
    + apply str_cmp_antisym.
  - intros [|a|a|a x|a] [|b|b|b y|b] [|c|c|c z|c] Ha Hb Hc; simpl in *; try done.
    + by apply (cmp_lt_trans (ok := canonical)).
    + apply str_cmp_lt_trans.
    + by apply (cmp_lt_trans (OrdLaws := HB) (a, x) (b, y) (c, z)).
    + apply str_cmp_lt_trans.
Qed.

Definition row_ok (k : RowKey) : Prop :=
  True /\ True /\ match sort k with Some p => sort_ok p | None => True end.

#[global] Instance row_ord : OrdLaws row_ok row_cmp.
Proof.
  pose proof (option_ord sort_ok sort_cmp) as HO.
  pose proof (lex_ord (fst : string * option SortKeyPart -> string) snd _ _ str_cmp (option_cmp sort_cmp)
    ltac:(intros [] []; simpl; congruence)) as HP.
  pose proof (lex_ord partition_hash (fun k => (partition k, sort k)) _ _ Z.compare _
    ltac:(intros [] []; simpl; congruence)) as HR.
  exact HR.
Qed.

(** ** Key encodings *)

(** JSON string literals delimit themselves. *)
Class JsonTextLaws `{JsonText} : Prop := {
  string_text_delimited s s' r r' :
    scalar_text (VString s) +:+ r = scalar_text (VString s') +:+ r' -> s = s' /\ r = r'
}.

(** A scalar attribute value: one tag, a string payload. *)
Definition key_value (v : Value) : Prop := exists tag s, v = VObject [(tag, VString s)].

Section Keys.
Context `{Base64Decode} `{JsonText} `{!JsonTextLaws}.

(** The canonical decimal of a valid number. *)
Definition number_of (tag s : string) : option ParsedNumber :=
  if String.eqb tag "N" then parse_number s else None.

Lemma encode_scalar tag s : encode_key_value (VObject [(tag, VString s)])
  = match number_of tag s with
    | Some p => "N:" +:+ canonical_text p
    | None => "X:{" +:+ scalar_text (VString tag) +:+ ":" +:+ scalar_text (VString s) +:+ "}"
    end.
Proof.
  unfold encode_key_value, number_of, canonical_number. simpl.
  assert (Hj : write_canonical_json (VObject [(tag, VString s)])
    = "{" +:+ (scalar_text (VString tag) +:+ ":" +:+ scalar_text (VString s)) +:+ "}") by reflexivity.
  destruct (String.eqb tag "N"); simpl; [destruct (parse_number s); simpl; [done|]|];
    by rewrite ?string_app_assoc.
Qed.

Lemma scalar_json_inj tag s tag' s' :
  "X:{" +:+ scalar_text (VString tag) +:+ ":" +:+ scalar_text (VString s) +:+ "}"
  = "X:{" +:+ scalar_text (VString tag') +:+ ":" +:+ scalar_text (VString s') +:+ "}"
  <-> tag = tag' /\ s = s'.
Proof.
  split; [|by intros [-> ->]]. intros [= E]. apply string_text_delimited in E as [Ht E1].
  injection E1 as E1. apply string_text_delimited in E1 as [Hs _]. done.
Qed.

Lemma scalar_eqb tag s tag' s' :
  value_eqb (VObject [(tag, VString s)]) (VObject [(tag', VString s')]) = true <-> tag = tag' /\ s = s'.
Proof.
  simpl. unfold assoc. simpl. destruct (String.eqb_spec tag tag') as [->|Hne].
  - rewrite String.eqb_refl. simpl. rewrite andb_true_r, String.eqb_eq. naive_solver.
  - split; [|naive_solver]. destruct (String.eqb_spec tag' tag); [congruence|done].
Qed.

Lemma values_equal_scalar tag s tag' s' :
  values_equal (Some (VObject [(tag, VString s)])) (Some (VObject [(tag', VString s')])) = true
  <-> match number_of tag s, number_of tag' s' with
      | Some p, Some q => p = q
      | None, None => tag = tag' /\ s = s'
      | _, _ => False
      end.
Proof.
  unfold values_equal, number_of, attribute_type_and_value, as_str, default, from_option, id.
  destruct (String.eqb_spec tag "N") as [->|N1], (String.eqb_spec tag' "N") as [->|N2]; cbn [andb].
  - unfold is_valid_number. destruct (parse_number s) as [p|] eqn:E1, (parse_number s') as [q|] eqn:E2; cbn [andb];
      rewrite ?scalar_eqb; try done; [|split; [|done]; intros [_ ->]; congruence..].
    rewrite (compare_number_strings_parsed _ _ _ _ E1 E2).
    rewrite <- (cmp_parsed_eq p q) by (by eapply parse_number_wf). by destruct cmp_parsed.
  - rewrite scalar_eqb. destruct (parse_number s); naive_solver.
  - rewrite scalar_eqb. destruct (parse_number s'); naive_solver.
  - apply scalar_eqb.
Qed.

Lemma canonical_text_eq p q : wf_parsed p -> wf_parsed q -> canonical_text p = canonical_text q <-> p = q.
Proof. intros Hp Hq. split; [by apply canonical_text_inj|by intros ->]. Qed.

Lemma number_of_wf tag s p : number_of tag s = Some p -> wf_parsed p.
Proof. unfold number_of. destruct String.eqb; [|done]. apply parse_number_wf. Qed.

(** Two key attributes have the same encoding exactly when they are equal. *)
Lemma encode_key_value_equal a b : key_value a -> key_value b ->
  encode_key_value a = encode_key_value b <-> values_equal (Some a) (Some b) = true.
Proof.
  intros (tag & s & ->) (tag' & s' & ->). rewrite values_equal_scalar, !encode_scalar.
  destruct (number_of tag s) as [p|] eqn:E1, (number_of tag' s') as [q|] eqn:E2; [|done..|apply scalar_json_inj].
  rewrite <- (canonical_text_eq p q) by (by eapply number_of_wf). split; [by intros [= ->]|by intros ->].
Qed.

(** The sort part of a scalar. *)
Lemma sort_part_scalar tag s : sort_part (Some (VObject [(tag, VString s)]))
  = match number_of tag s with
    | Some p => Number (canonical_text p)
    | None =>
        if String.eqb tag "S" then Str s
        else match (if String.eqb tag "B" then base64_decode s else None) with
             | Some bytes => Binary bytes s
             | None => Other (encode_key_value (VObject [(tag, VString s)]))
             end
    end.
Proof.
  unfold sort_part, number_of, canonical_number. simpl.
  destruct (String.eqb_spec tag "N") as [->|]; [by destruct (parse_number s)|].
  destruct (String.eqb_spec tag "S"); [done|]. destruct (String.eqb_spec tag "B"); [|done].
  by destruct base64_decode.
Qed.

Lemma sort_part_equal a b : key_value a -> key_value b ->
  sort_part (Some a) = sort_part (Some b) <-> values_equal (Some a) (Some b) = true.
Proof.
  intros Ka Kb. pose proof (encode_key_value_equal a b Ka Kb) as He.
  destruct Ka as (tag & s & ->), Kb as (tag' & s' & ->). rewrite !sort_part_scalar.
  pose proof (values_equal_scalar tag s tag' s') as Hv.
  destruct (number_of tag s) as [p|] eqn:E1, (number_of tag' s') as [q|] eqn:E2.
  - rewrite Hv, <- (canonical_text_eq p q) by (by eapply number_of_wf). split; [by intros [= ->]|by intros ->].
  - rewrite Hv. split; [by repeat case_match|done].
  - rewrite Hv. split; [by repeat case_match|done].
  - set (dec t x := if String.eqb t "B" then base64_decode x else None).
    change (if String.eqb tag "B" then base64_decode s else None) with (dec tag s).
    change (if String.eqb tag' "B" then base64_decode s' else None) with (dec tag' s').
    assert (Hb : forall t x l, dec t x = Some l -> t = "B").
    { intros t x l. unfold dec. by destruct (String.eqb_spec t "B"). }
    destruct (String.eqb_spec tag "S") as [->|N1], (String.eqb_spec tag' "S") as [->|N2].
    + rewrite Hv. split; [by intros [= ->]|by intros [_ ->]].
    + rewrite Hv. split; [by destruct (dec tag' s')|by intros [<- _]].
    + rewrite Hv. split; [by destruct (dec tag s)|by intros [-> _]].
    + destruct (dec tag s) as [l|] eqn:D1, (dec tag' s') as [l'|] eqn:D2.
      * rewrite Hv. apply Hb in D1 as D3, D2 as D4. subst tag tag'. split; [by intros [= _ ->]|].
        intros [_ <-]. congruence.
      * rewrite Hv. split; [done|]. intros [<- <-]. congruence.
      * rewrite Hv. split; [done|]. intros [<- <-]. congruence.
      * rewrite <- He. split; [by intros [= ->]|by intros ->].
Qed.

(** ** Items with usable keys *)

(** A key attribute's value: a scalar, and a number whose canonical form reads
    back. *)
Definition key_ok (v : Value) : Prop :=
  exists tag s, v = VObject [(tag, VString s)]
    /\ forall p, number_of tag s = Some p -> Z.abs (point p - 1) <= i64_max.

Lemma key_ok_value v : key_ok v -> key_value v.
Proof. intros (tag & s & -> & _). by exists tag, s. Qed.

Definition key_attribute (t : DynamoTable) (a : string) : Prop :=
  a = hash_key_name t \/ range_key_name t = Some a.

Definition item_ok (t : DynamoTable) (item : Item) : Prop :=
  forall a v, key_attribute t a -> item !! a = Some v -> key_ok v.

Lemma sort_part_ok v : (forall x, v = Some x -> key_ok x) -> sort_ok (sort_part v).
Proof.
  destruct v as [x|]; [|done]. intros Hx. destruct (Hx x eq_refl) as (tag & s & -> & Hb).
  rewrite sort_part_scalar. destruct (number_of tag s) as [p|] eqn:E.
  - simpl. exists p. split; [|done]. apply canonical_text_parse; [by eapply number_of_wf|by apply Hb].
  - repeat case_match; done.
Qed.

Lemma encode_key_ok t item k : item_ok t item -> encode_key t item = Some k -> row_ok k.
Proof.
  intros Hi. unfold encode_key, encode_key_with. destruct (item !! hash_key_name t); [|done].
  intros [= <-]. split; [done|]. split; [done|]. simpl.
  destruct (range_key_name t) as [rk|] eqn:R; simpl; [|done].
  apply sort_part_ok. intros x Hx. eapply Hi; [by right|exact Hx].
Qed.

Lemma sort_part_Missing x : key_value x -> sort_part (Some x) <> Missing.
Proof. intros (tag & s & ->). rewrite sort_part_scalar. by repeat case_match. Qed.

Lemma sort_values_equal a b : (forall x, a = Some x -> key_ok x) -> (forall x, b = Some x -> key_ok x) ->
  values_equal a b = true <-> sort_part a = sort_part b.
Proof.
  intros Ha Hb. destruct a as [x|], b as [y|].
  - symmetry. apply sort_part_equal; apply key_ok_value; auto.
  - split; [done|]. intros E. by apply sort_part_Missing in E; [|apply key_ok_value; auto].
  - split; [done|]. intros E. symmetry in E. by apply sort_part_Missing in E; [|apply key_ok_value; auto].
  - done.
Qed.

(** The scan's test is equality of encoded keys. *)
Lemma key_matches_encode t key item : item_ok t key -> item_ok t item ->
  key_matches t key item = true <-> exists k, encode_key t item = Some k /\ encode_key t key = Some k.
Proof.
  intros Hk Hi. unfold key_matches, encode_key, encode_key_with.
  assert (Hh : key_attribute t (hash_key_name t)) by (by left).
  destruct (item !! hash_key_name t) as [a|] eqn:Ea; cbn [mbind option_bind].
  2: { rewrite (bool_decide_false (is_Some None)) by (by intros []). rewrite andb_false_r. simpl. naive_solver. }
  destruct (key !! hash_key_name t) as [b|] eqn:Eb; cbn [mbind option_bind].
  2: { simpl. naive_solver. }
  rewrite bool_decide_true by done. rewrite andb_true_r, andb_true_iff.
  rewrite <- encode_key_value_equal by (apply key_ok_value; eauto).
  assert (Hr : (match range_key_name t with Some rk => values_equal (item !! rk) (key !! rk) | None => true end) = true
    <-> (fun rk => sort_part (item !! rk)) <$> range_key_name t = (fun rk => sort_part (key !! rk)) <$> range_key_name t).
  { destruct (range_key_name t) as [rk|] eqn:R; [|done].
    rewrite sort_values_equal; [simpl; split; congruence|..]; intros x Hx;
      [eapply Hi|eapply Hk]; try exact Hx; by right. }
  rewrite Hr. split.
  - intros [-> ->]. eauto.
  - intros (k & [= <-] & [= E1 E2 E3]). by rewrite E2, E3.
Qed.

(** ** The index *)

Section Index.
Context (enc : Item -> option RowKey).

(** The index of some rows: their keys, each with its row. *)
Definition indexes (l : list (Z * Item)) (ids : OMap RowKey Z) : Prop :=
  om_ok row_ok row_cmp ids
  /\ forall k id, (k, id) ∈ ids <-> exists item, (id, item) ∈ l /\ enc item = Some k.

Lemma indexes_nil : indexes [] [].
Proof.
  split; [apply om_ok_nil|]. intros k id. split; [intros H'; by apply not_elem_of_nil in H'|].
  intros (item & H' & _). by apply not_elem_of_nil in H'.
Qed.

Lemma indexes_add l l' ids id item k : indexes l ids -> row_ok k -> enc item = Some k ->
  om_get row_cmp k ids = None ->
  (forall i x, (i, x) ∈ l' <-> (i = id /\ x = item) \/ (i, x) ∈ l) -> indexes l' (om_insert row_cmp k id ids).
Proof.
  intros [Ho Hi] Hk He Hn Hl. split; [by apply (om_insert_ok row_ok row_cmp)|]. intros k' id'.
  rewrite (om_insert_elem row_ok row_cmp) by done. setoid_rewrite Hl. rewrite Hi. split.
  - intros [[-> ->]|[_ (x & Hx & Ex)]]; [exists item; auto|exists x; auto].
  - intros (x & [[-> ->]|Hx] & Ex); [left; split; [congruence|done]|].
    right. split; [|eauto]. intros ->. rewrite (om_get_None row_ok row_cmp) in Hn by done.
    apply (Hn id'). apply Hi. eauto.
Qed.

Lemma indexes_skip l l' ids id item : indexes l ids -> enc item = None ->
  (forall i x, (i, x) ∈ l' <-> (i = id /\ x = item) \/ (i, x) ∈ l) -> indexes l' ids.
Proof.
  intros [Ho Hi] He Hl. split; [done|]. intros k' id'. rewrite Hi. setoid_rewrite Hl. split.
  - intros (x & Hx & Ex). eauto.
  - intros (x & [[-> ->]|Hx] & Ex); [congruence|eauto].
Qed.

(** Without the row [id], whose key is [ok]. *)
Lemma indexes_drop l l' ids id item : indexes l ids -> (id, item) ∈ l ->
  (forall i x y, (i, x) ∈ l -> (i, y) ∈ l -> x = y) ->
  (forall i x, (i, x) ∈ l' <-> i <> id /\ (i, x) ∈ l) ->
  (forall k, enc item = Some k -> row_ok k) ->
  indexes l' (match enc item with Some k => om_remove row_cmp k ids | None => ids end).
Proof.
  intros [Ho Hi] Hin Hf Hl Hk. split; [destruct (enc item); [by apply (om_remove_ok row_ok row_cmp)|done]|].
  intros k' id'. setoid_rewrite Hl. destruct (enc item) as [k|] eqn:Ek.
  - rewrite (om_remove_elem row_ok row_cmp) by auto. rewrite Hi. split.
    + intros [Hne (x & Hx & Ex)]. exists x. split; [|done]. split; [|done]. intros ->.
      rewrite (Hf _ _ _ Hx Hin) in Ex. congruence.
    + intros (x & [Hne Hx] & Ex). split; [|eauto]. intros ->. apply Hne.
      assert (K1 : (k, id') ∈ ids) by (apply Hi; eauto). assert (K2 : (k, id) ∈ ids) by (apply Hi; eauto).
      by eapply (om_ok_fun row_ok row_cmp).
  - rewrite Hi. split.
    + intros (x & Hx & Ex). exists x. split; [|done]. split; [|done]. intros ->.
      rewrite (Hf _ _ _ Hx Hin) in Ex. congruence.
    + intros (x & [_ Hx] & Ex). eauto.
Qed.

End Index.

(** ** The table invariant *)

Notation rows_sorted := (om_ok (fun _ => True) Z.compare).

Definition index_ok (enc : Item -> option RowKey) (l : list (Z * Item)) (i : KeyIndex) : Prop :=
  match i with
  | Unbuilt => True
  | Built ids n => n = length l /\ indexes enc l ids
  | Ambiguous n => n = length l
  end.

Record table_ok (t : DynamoTable) : Prop := {
  ok_sorted : rows_sorted (rows (items t));
  ok_next : Forall (fun e => e.1 < next_id (items t)) (rows (items t));
  ok_items : Forall (fun e => item_ok t e.2) (rows (items t));
  ok_index : index_ok (encode_key t) (rows (items t)) (key_index t);
  ok_count : item_count t = Z.of_nat (length (rows (items t)));
  ok_size : size_bytes t = sum_Z (estimate_item_size <$> (rows (items t)).*2)
}.

Lemma items_get_elem t id item : rows_sorted (rows t) -> items_get t id = Some item <-> (id, item) ∈ rows t.
Proof. intros Hs. by apply (om_get_elem (fun _ => True) Z.compare). Qed.

Lemma rows_fun t i x y : rows_sorted (rows t) -> (i, x) ∈ rows t -> (i, y) ∈ rows t -> x = y.
Proof. intros Hs. by apply (om_ok_fun (fun _ => True) Z.compare). Qed.

(** *** Lookup *)

Lemma find_scan_key t key k : Forall (fun e => item_ok t e.2) (rows (items t)) -> item_ok t key ->
  encode_key t key = Some k ->
  List.find (fun e => key_matches t key e.2) (rows (items t))
  = List.find (fun e => bool_decide (encode_key t e.2 = Some k)) (rows (items t)).
Proof.
  intros Hi Hk Ek. induction Hi as [|[id item] l Hit _ IH]; simpl; [done|]. simpl in Hit.
  assert (key_matches t key item = bool_decide (encode_key t item = Some k)) as ->.
  { apply eq_true_iff_eq. rewrite key_matches_encode, bool_decide_eq_true by done. naive_solver. }
  by rewrite IH.
Qed.

Lemma find_scan_unkeyed t key : encode_key t key = None -> find_item_index_scan t key = None.
Proof.
  intros Ek. unfold find_item_index_scan. apply fmap_None.
  assert (Hn : key !! hash_key_name t = None).
  { unfold encode_key, encode_key_with in Ek. by destruct (key !! hash_key_name t). }
  induction (rows (items t)) as [|[id item] l IH]; simpl; [done|].
  assert (key_matches t key item = false) as ->; [|done].
  unfold key_matches. rewrite Hn. by destruct (item !! hash_key_name t).
Qed.

Lemma find_Some {A} (f : A -> bool) l x : List.find f l = Some x -> x ∈ l /\ f x = true.
Proof. intros [Hi Hf]%List.find_some. split; [by apply list_elem_of_In|done]. Qed.

Lemma find_None {A} (f : A -> bool) l x : List.find f l = None -> x ∈ l -> f x = false.
Proof. intros Hf Hx. eapply List.find_none; [exact Hf|by apply list_elem_of_In]. Qed.

Lemma index_find enc l ids k : indexes enc l ids -> row_ok k -> rows_sorted l ->
  om_get row_cmp k ids = fst <$> List.find (fun e => bool_decide (enc e.2 = Some k)) l.
Proof.
  intros [Ho Hi] Hk Hs. destruct (List.find _ l) as [[id item]|] eqn:E; cbn [fmap option_fmap option_map fst].
  - apply find_Some in E as [Hin Eb%bool_decide_eq_true]. apply (om_get_elem row_ok row_cmp); [done|done|].
    apply Hi. eauto.
  - apply (om_get_None row_ok row_cmp); [done|done|]. intros id Hin. apply Hi in Hin as (item & Hin & Ek).
    eapply find_None in E; [|exact Hin]. by apply bool_decide_eq_false in E.
Qed.

Lemma find_index_scan t key : table_ok t -> item_ok t key ->
  find_item_index t key = find_item_index_scan t key.
Proof.
  intros Ht Hk. unfold find_item_index. pose proof (ok_index _ Ht) as Hx.
  destruct (key_index t) as [|ids n|n]; [done| |done]. destruct Hx as [En Hx]. rewrite bool_decide_true by exact En. simpl.
  destruct (encode_key t key) as [k|] eqn:Ek; cbn [mbind option_bind];
    [|by rewrite find_scan_unkeyed].
  pose proof (encode_key_ok _ _ _ Hk Ek) as Rk.
  unfold find_item_index_scan. rewrite (find_scan_key t key k) by (done || apply (ok_items _ Ht)).
  rewrite (index_find _ _ _ _ Hx Rk (ok_sorted _ Ht)).
  destruct (List.find _ (rows (items t))) as [[id item]|] eqn:E; cbn [mbind option_bind fmap option_fmap option_map fst]; [|done].
  apply find_Some in E as [Hin Eb%bool_decide_eq_true]. simpl in Eb.
  apply items_get_elem in Hin; [|apply (ok_sorted _ Ht)]. rewrite Hin, bool_decide_true by done. done.
Qed.

(** What a lookup finds: the first row under the key. *)
Definition row_of (t : DynamoTable) (k : RowKey) : option Item :=
  snd <$> List.find (fun e => bool_decide (encode_key t e.2 = Some k)) (rows (items t)).

Lemma find_index_row t key k : table_ok t -> item_ok t key -> encode_key t key = Some k ->
  match find_item_index t key with
  | Some id => exists item, items_get (items t) id = Some item /\ row_of t k = Some item /\ encode_key t item = Some k
  | None => row_of t k = None
  end.
Proof.
  intros Ht Hk Ek. rewrite find_index_scan by done. unfold find_item_index_scan, row_of.
  rewrite (find_scan_key t key k) by (done || apply (ok_items _ Ht)).
  destruct (List.find _ (rows (items t))) as [[id item]|] eqn:E; [|done]. simpl.
  apply find_Some in E as [Hin Eb%bool_decide_eq_true]. exists item.
  split; [|done]. apply items_get_elem; [apply (ok_sorted _ Ht)|done].
Qed.

(** *** Fields the invariant depends on *)

Definition core (t : DynamoTable) := (key_schema t, items t, key_index t, item_count t, size_bytes t).

Lemma encode_key_schema t t' item : key_schema t = key_schema t' -> encode_key t item = encode_key t' item.
Proof. intros E. unfold encode_key, encode_key_with, hash_key_name, range_key_name, schema_name. by rewrite E. Qed.

Lemma item_ok_schema t t' item : key_schema t = key_schema t' -> item_ok t item -> item_ok t' item.
Proof. unfold item_ok, key_attribute, hash_key_name, range_key_name, schema_name. by intros <-. Qed.

Lemma index_ok_enc enc enc' l i : (forall x, enc x = enc' x) -> index_ok enc l i -> index_ok enc' l i.
Proof.
  intros He. destruct i as [|ids n|n]; [done| |done]. intros [En [Ho Hx]]. split; [done|]. split; [done|].
  intros k id. rewrite Hx. split; intros (x & Hin & Ek); exists x; [rewrite <- He|rewrite He]; done.
Qed.

Lemma table_ok_core t t' : core t = core t' -> table_ok t -> table_ok t'.
Proof.
  intros [= Es Ei Ex Ec Eb] [S N I X C B]. split; rewrite <- ?Ei, <- ?Ex, <- ?Ec, <- ?Eb; try done.
  - eapply Forall_impl; [exact I|]. intros e. by apply item_ok_schema.
  - eapply index_ok_enc; [|exact X]. intros x. by apply encode_key_schema.
Qed.

Lemma core_log t item : core (log_change t item) = core t.
Proof. unfold log_change. by case_match. Qed.

Lemma core_record t now old new : core (record_change t now old new) = core t.
Proof. unfold record_change. destruct negb; [done|]. by repeat case_match. Qed.

Lemma core_access t key : core (record_key_access t key) = core t.
Proof. unfold record_key_access. by repeat case_match. Qed.

Lemma core_schema t t' : core t = core t' -> key_schema t = key_schema t'.
Proof. by intros [= -> _ _ _ _]. Qed.

(** *** Building the index *)

Lemma build_ids_indexes t l l0 ids : Forall (fun e => item_ok t e.2) l -> indexes (encode_key t) l0 ids ->
  match build_ids t l ids with Some ids' => indexes (encode_key t) (l0 ++ l) ids' | None => True end.
Proof.
  intros Hl. revert l0 ids. induction Hl as [|[id item] l Hi _ IH]; intros l0 ids Hx; cbn [build_ids].
  { by rewrite app_nil_r. }
  assert (Hel : forall i x, (i, x) ∈ l0 ++ [(id, item)] <-> (i = id /\ x = item) \/ (i, x) ∈ l0).
  { intros i x. rewrite elem_of_app, list_elem_of_singleton. naive_solver. }
  rewrite cons_middle, app_assoc. simpl in Hi.
  destruct (encode_key t item) as [k|] eqn:Ek.
  - destruct (om_get row_cmp k ids) eqn:Eg; [done|]. apply IH.
    eapply indexes_add; [done|by eapply encode_key_ok|done|done|exact Hel].
  - apply IH. eapply indexes_skip; [done|done|exact Hel].
Qed.

Lemma rebuild_index_ok t : Forall (fun e => item_ok t e.2) (rows (items t)) ->
  index_ok (encode_key t) (rows (items t)) (key_index (rebuild_key_index t)).
Proof.
  intros Hi. unfold rebuild_key_index. cbn [key_index with_index].
  pose proof (build_ids_indexes t (rows (items t)) [] [] Hi (indexes_nil _)) as Hb.
  destruct build_ids; [split; [done|exact Hb]|done].
Qed.

Lemma rebuild_ok t : table_ok t -> table_ok (rebuild_key_index t).
Proof.
  intros [S N I X C B]. split; try done. by apply (rebuild_index_ok t).
Qed.

Lemma ensure_ok t : table_ok t -> table_ok (ensure_key_index t).
Proof. intros Ht. unfold ensure_key_index. case_bool_decide; [done|by apply rebuild_ok]. Qed.

Lemma ensure_items t : items (ensure_key_index t) = items t.
Proof. unfold ensure_key_index. by case_bool_decide. Qed.

Lemma ensure_schema t : key_schema (ensure_key_index t) = key_schema t.
Proof. unfold ensure_key_index. by case_bool_decide. Qed.

Lemma ensure_rows t : index_rows (key_index (ensure_key_index t)) = Some (items_len (items t)).
Proof.
  unfold ensure_key_index. case_bool_decide; [done|]. unfold rebuild_key_index. simpl. by case_match.
Qed.

(** *** Rows *)

Lemma sum_Z_app l l' : sum_Z (l ++ l') = sum_Z l + sum_Z l'.
Proof. unfold sum_Z. induction l as [|x l IH]; simpl; [done|]. rewrite IH. lia. Qed.

Definition rows_size (l : list (Z * Item)) : Z := sum_Z (estimate_item_size <$> l.*2).

Lemma rows_size_app l l' : rows_size (l ++ l') = rows_size l + rows_size l'.
Proof. unfold rows_size. by rewrite !fmap_app, sum_Z_app. Qed.

Lemma rows_size_cons e l : rows_size (e :: l) = estimate_item_size e.2 + rows_size l.
Proof. done. Qed.

Lemma items_push_rows t item : Forall (fun e => e.1 < next_id t) (rows t) ->
  items_push t item = (next_id t, mkTableItems (rows t ++ [(next_id t, item)]) (next_id t + 1)).
Proof.
  intros N. unfold items_push. rewrite om_insert_last; [done|]. eapply Forall_impl; [exact N|].
  intros e He. by apply Z.compare_gt_iff.
Qed.

(** A row and the rows around it. *)
Lemma row_split t id item : rows_sorted (rows t) -> items_get t id = Some item ->
  exists l1 l2, rows t = l1 ++ (id, item) :: l2
    /\ (forall x, rows (items_set t id x) = l1 ++ (id, x) :: l2)
    /\ om_remove Z.compare id (rows t) = l1 ++ l2.
Proof. intros S E. exact (om_get_split (fun _ => True) Z.compare (rows t) id item S I E). Qed.

Lemma rows_set_elem t id item x : rows_sorted (rows t) -> items_get t id = Some item ->
  forall i y, (i, y) ∈ rows (items_set t id x) <-> (i = id /\ y = x) \/ (i <> id /\ (i, y) ∈ rows t).
Proof. intros S _ i y. by apply (om_insert_elem (fun _ => True) Z.compare). Qed.

(** *** Removing a row *)

Lemma index_remove_core t item id : items (index_remove t item id) = items t
  /\ key_schema (index_remove t item id) = key_schema t
  /\ item_count (index_remove t item id) = item_count t /\ size_bytes (index_remove t item id) = size_bytes t.
Proof. unfold index_remove. by repeat case_match. Qed.

Lemma index_remove_ok t l id item : indexes (encode_key t) (rows (items t)) l -> rows_sorted (rows (items t)) ->
  (id, item) ∈ rows (items t) -> item_ok t item ->
  indexes (encode_key t) (om_remove Z.compare id (rows (items t)))
    (match encode_key t item with Some k => om_remove row_cmp k l | None => l end).
Proof.
  intros Hx Hs Hin Hi. eapply indexes_drop; [exact Hx|exact Hin|..].
  - intros i x y. by apply rows_fun.
  - intros i x. by apply (om_remove_elem (fun _ => True) Z.compare).
  - intros k. by apply encode_key_ok.
Qed.

Lemma remove_at_index t id item : table_ok t -> items_get (items t) id = Some item ->
  index_ok (encode_key t) (om_remove Z.compare id (rows (items t)))
    (index_count Nat.pred (key_index (index_remove t item id))).
Proof.
  intros Ht Eg. pose proof (ok_sorted _ Ht) as Hs. pose proof Eg as Hin. apply items_get_elem in Hin; [|done].
  assert (Hi : item_ok t item).
  { pose proof (ok_items _ Ht) as F. rewrite Forall_forall in F. exact (F _ Hin). }
  destruct (row_split _ _ _ Hs Eg) as (l1 & l2 & El & _ & Er).
  assert (Len : length (om_remove Z.compare id (rows (items t))) = Nat.pred (length (rows (items t)))).
  { rewrite Er, El, !length_app. simpl. lia. }
  pose proof (ok_index _ Ht) as Hx. unfold index_remove. destruct (key_index t) as [|ids n|n] eqn:Ek.
  - destruct (encode_key t item); rewrite Ek; exact I.
  - destruct Hx as [En Hx]. pose proof (index_remove_ok t ids id item Hx Hs Hin Hi) as Hd.
    destruct (encode_key t item) as [k|] eqn:Ei; [|rewrite Ek; split; [simpl; lia|exact Hd]].
    assert (om_get row_cmp k ids = Some id) as Hg.
    { apply (om_get_elem row_ok row_cmp); [apply Hx|by eapply encode_key_ok|]. apply Hx. eauto. }
    rewrite bool_decide_true by exact Hg. simpl. split; [lia|exact Hd].
  - simpl in Hx. destruct (encode_key t item); rewrite Ek; simpl; lia.
Qed.

Lemma index_remove_key t t' item id : key_schema t = key_schema t' -> key_index t = key_index t' ->
  key_index (index_remove t item id) = key_index (index_remove t' item id).
Proof.
  intros Es Ex. unfold index_remove. rewrite (encode_key_schema t t' item Es), Ex.
  destruct (encode_key t' item), (key_index t') eqn:?; try congruence. case_bool_decide; simpl; congruence.
Qed.

(** The invariant from its parts, against another table of the same schema. *)
Lemma table_ok_parts t t' : key_schema t' = key_schema t ->
  rows_sorted (rows (items t')) -> Forall (fun e => e.1 < next_id (items t')) (rows (items t')) ->
  Forall (fun e => item_ok t e.2) (rows (items t')) ->
  index_ok (encode_key t) (rows (items t')) (key_index t') ->
  item_count t' = Z.of_nat (length (rows (items t'))) -> size_bytes t' = rows_size (rows (items t')) ->
  table_ok t'.
Proof.
  intros Es S N I X C B. split; try done.
  - eapply Forall_impl; [exact I|]. intros e. by apply item_ok_schema.
  - eapply index_ok_enc; [|exact X]. intros x. by apply encode_key_schema.
Qed.

Lemma remove_at_ok t now id item : table_ok t -> items_get (items t) id = Some item ->
  exists t', remove_item_at t now id = Some (item, t') /\ table_ok t'
    /\ key_schema t' = key_schema t /\ rows (items t') = om_remove Z.compare id (rows (items t)).
Proof.
  intros Ht Eg. unfold remove_item_at, items_remove. rewrite Eg. cbn [mbind option_bind].
  set (t1 := with_items t (mkTableItems (om_remove Z.compare id (rows (items t))) (next_id (items t)))).
  set (t2 := record_change t1 now (Some item) None).
  assert (C2 : core t2 = core t1) by apply core_record. injection C2 as S2 I2 X2 N2 B2.
  destruct (index_remove_core t2 item id) as (I3 & S3 & N3 & B3).
  pose proof (index_remove_key t2 t item id S2 X2) as X3.
  set (t3 := index_remove t2 item id) in *.
  set (t5 := with_stats (with_index t3 (index_count Nat.pred (key_index t3))) (item_count t3 - 1)
    (size_bytes t3 - estimate_item_size item)).
  exists (log_change t5 item). split; [done|]. pose proof (core_log t5 item) as C5. injection C5 as S5 I5 X5 N5 B5.
  assert (Rs : rows (items (log_change t5 item)) = om_remove Z.compare id (rows (items t))).
  { rewrite I5. unfold t5. simpl. by rewrite I3, I2. }
  assert (Ns : next_id (items (log_change t5 item)) = next_id (items t)).
  { rewrite I5. unfold t5. simpl. by rewrite I3, I2. }
  assert (Ss : key_schema (log_change t5 item) = key_schema t).
  { rewrite S5. unfold t5. simpl. by rewrite S3, S2. }
  assert (Hsub : om_remove Z.compare id (rows (items t)) `sublist_of` rows (items t)) by apply om_remove_sublist.
  destruct (row_split _ _ _ (ok_sorted _ Ht) Eg) as (l1 & l2 & El & _ & Er).
  split; [|done]. apply (table_ok_parts t); rewrite ?Rs, ?Ns; try done.
  - eapply om_ok_sublist; [exact Hsub|apply (ok_sorted _ Ht)].
  - pose proof (ok_next _ Ht) as F. rewrite Forall_forall in *. intros e He. apply F. by eapply elem_of_sublist.
  - pose proof (ok_items _ Ht) as F. rewrite Forall_forall in *. intros e He. apply F. by eapply elem_of_sublist.
  - rewrite X5. unfold t5. simpl. rewrite X3. by apply remove_at_index.
  - rewrite N5. unfold t5. simpl. rewrite N3, N2. unfold t1. simpl. rewrite (ok_count _ Ht), Er, El, !length_app.
    simpl. lia.
  - rewrite B5. unfold t5. simpl. rewrite B3, B2. unfold t1. simpl. rewrite (ok_size _ Ht).
    fold (rows_size (rows (items t))). rewrite Er, El, !rows_size_app, rows_size_cons. simpl. lia.
Qed.

(** *** Putting an item *)

Lemma log_ok t item : table_ok t -> table_ok (log_change t item).
Proof. apply table_ok_core. symmetry. apply core_log. Qed.

Lemma put_new_index t item : table_ok t -> index_rows (key_index t) = Some (items_len (items t)) ->
  item_ok t item -> find_item_index t item = None ->
  index_ok (encode_key t) (rows (items t) ++ [(next_id (items t), item)])
    (index_count S (match encode_key t item, key_index t with
                    | Some k, Built ids n => Built (om_insert row_cmp k (next_id (items t)) ids) n
                    | _, i => i
                    end)).
Proof.
  intros Ht Er Hi Ef. pose proof (ok_index _ Ht) as Hx.
  assert (Hel : forall i x, (i, x) ∈ rows (items t) ++ [(next_id (items t), item)]
    <-> (i = next_id (items t) /\ x = item) \/ (i, x) ∈ rows (items t)).
  { intros i x. rewrite elem_of_app, list_elem_of_singleton. naive_solver. }
  destruct (key_index t) as [|ids n|n] eqn:Ek.
  - done.
  - destruct Hx as [En Hx]. destruct (encode_key t item) as [k|] eqn:Ei; simpl; rewrite length_app, En; simpl;
      (split; [lia|]).
    + eapply indexes_add; [exact Hx|by eapply encode_key_ok|exact Ei| |exact Hel].
      pose proof (find_index_row t item k Ht Hi Ei) as Hr. rewrite Ef in Hr. unfold row_of in Hr.
      apply fmap_None in Hr. rewrite (index_find _ _ _ _ Hx); [by rewrite Hr|by eapply encode_key_ok|apply (ok_sorted _ Ht)].
    + eapply indexes_skip; [exact Hx|exact Ei|exact Hel].
  - simpl in *. destruct (encode_key t item); simpl; rewrite length_app; simpl; lia.
Qed.

(** A row replaced by one with the same key. *)
Lemma indexes_same enc t ids id item x : indexes enc (rows t) ids -> rows_sorted (rows t) ->
  items_get t id = Some item -> enc x = enc item -> indexes enc (rows (items_set t id x)) ids.
Proof.
  intros [Ho Hi] Hs Eg Ex. split; [done|]. intros k i. rewrite Hi. setoid_rewrite (rows_set_elem t id item x Hs Eg).
  pose proof Eg as Hin. apply items_get_elem in Hin; [|done]. split.
  - intros (y & Hy & Ek). destruct (decide (i = id)) as [->|Hne].
    + exists x. rewrite (rows_fun _ _ _ _ Hs Hy Hin) in Ek. split; [by left|congruence].
    + exists y. split; [by right|done].
  - intros (y & [[-> ->]|[_ Hy]] & Ek); [exists item|exists y]; split; try done. congruence.
Qed.

Lemma rows_set_facts t id item x : rows_sorted (rows t) -> items_get t id = Some item ->
  rows_sorted (rows (items_set t id x)) /\ length (rows (items_set t id x)) = length (rows t)
  /\ rows_size (rows (items_set t id x)) = rows_size (rows t) - estimate_item_size item + estimate_item_size x.
Proof.
  intros Hs Eg. split; [by apply (om_insert_ok (fun _ => True) Z.compare)|].
  destruct (row_split _ _ _ Hs Eg) as (l1 & l2 & El & Ei & _). rewrite (Ei x), El.
  rewrite !length_app, !rows_size_app, !rows_size_cons. simpl. split; [done|lia].
Qed.

Lemma rows_set_Forall t id item x (Q : Z * Item -> Prop) : rows_sorted (rows t) -> items_get t id = Some item ->
  Forall Q (rows t) -> Q (id, x) -> Forall Q (rows (items_set t id x)).
Proof.
  intros Hs Eg F Hq. rewrite Forall_forall in *. intros [i y] Hin.
  apply (rows_set_elem t id item x Hs Eg) in Hin as [[-> ->]|[_ Hin]]; [done|by apply F].
Qed.

Lemma put_ok t now item : table_ok t -> item_ok t item ->
  exists id b t', put_item_at_key t now item = Some ((id, b), t') /\ table_ok t' /\ key_schema t' = key_schema t
    /\ find_item_index (ensure_key_index (log_change t item)) item = (if b then Some id else None)
    /\ rows (items t') = (if b then rows (items_set (items t) id item) else rows (items t) ++ [(next_id (items t), item)])
    /\ (b = false -> id = next_id (items t)).
Proof.
  intros Ht Hi. unfold put_item_at_key. set (t0 := ensure_key_index (log_change t item)).
  assert (T0 : table_ok t0) by (by apply ensure_ok, log_ok).
  assert (I0 : items t0 = items t).
  { unfold t0. rewrite ensure_items. by injection (core_log t item) as _ -> _ _ _. }
  assert (S0 : key_schema t0 = key_schema t).
  { unfold t0. rewrite ensure_schema. apply core_schema, core_log. }
  assert (Hi0 : item_ok t0 item) by (by eapply item_ok_schema).
  assert (R0 : index_rows (key_index t0) = Some (items_len (items t0))).
  { rewrite I0. unfold t0. rewrite ensure_rows. by injection (core_log t item) as _ -> _ _ _. }
  pose proof (ok_sorted _ T0) as Hs. pose proof (ok_next _ T0) as Hn.
  rewrite <- I0, <- S0. clearbody t0.
  destruct (find_item_index t0 item) as [id|] eqn:Ef.
  - destruct (encode_key t0 item) as [k|] eqn:Ek.
    2: { rewrite find_index_scan, find_scan_unkeyed in Ef by done. done. }
    pose proof (find_index_row t0 item k T0 Hi0 Ek) as Hr. rewrite Ef in Hr. destruct Hr as (old & Eg & _ & Eo).
    rewrite Eg. cbn [mbind option_bind]. exists id, true. eexists. split; [done|].
    set (t1 := if pitr_enabled t0 then record_change t0 now (Some old) (Some item) else t0).
    assert (C1 : core t1 = core t0) by (unfold t1; destruct (pitr_enabled t0); [apply core_record|done]).
    injection C1 as S1 I1 X1 N1 B1. simpl. rewrite S1, I1.
    destruct (rows_set_facts (items t0) id old item Hs Eg) as (Fs & Fl & Fz).
    split; [|done]. apply (table_ok_parts t0); simpl; rewrite ?S1, ?I1, ?X1, ?N1, ?B1;
      try change (om_insert Z.compare id item (rows (items t0))) with (rows (items_set (items t0) id item)); try done.
    + eapply (rows_set_Forall _ _ _ _ _ Hs Eg); [exact Hn|]. apply items_get_elem in Eg; [|done].
      rewrite Forall_forall in Hn. exact (Hn _ Eg).
    + eapply (rows_set_Forall _ _ _ _ _ Hs Eg); [apply (ok_items _ T0)|exact Hi0].
    + pose proof (ok_index _ T0) as Hx. unfold index_ok in *. rewrite Fl. destruct (key_index t0); [done| |done].
      destruct Hx as [En Hx]. split; [done|]. eapply indexes_same; [exact Hx|done|exact Eg|congruence].
    + rewrite Fl. apply (ok_count _ T0).
    + rewrite Fz, (ok_size _ T0). done.
  - set (t1 := record_change t0 now None (Some item)).
    assert (C1 : core t1 = core t0) by apply core_record. injection C1 as S1 I1 X1 N1 B1.
    set (t2 := with_stats t1 (item_count t1 + 1) (size_bytes t1 + estimate_item_size item)).
    assert (E2 : encode_key t2 item = encode_key t0 item) by (by apply encode_key_schema).
    change (items t2) with (items t1). rewrite I1, items_push_rows by done. cbv iota beta.
    eexists _, false, _. split; [done|]. split; [|done].
    apply (table_ok_parts t0); simpl; rewrite ?S1, ?N1, ?B1, ?E2, ?X1; try done.
    + pose proof (om_insert_ok (fun _ => True) Z.compare (rows (items t0)) (next_id (items t0)) item Hs I) as Ho.
      rewrite om_insert_last in Ho; [done|]. eapply Forall_impl; [exact Hn|]. intros e He. by apply Z.compare_gt_iff.
    + apply Forall_app. split; [eapply Forall_impl; [exact Hn|]; simpl; intros; lia|]. constructor; [simpl; lia|constructor].
    + apply Forall_app. split; [apply (ok_items _ T0)|]. by constructor.
    + by apply put_new_index.
    + rewrite (ok_count _ T0), length_app. simpl. lia.
    + rewrite (ok_size _ T0). fold (rows_size (rows (items t0))). rewrite rows_size_app, rows_size_cons. simpl.
      unfold rows_size at 3. simpl. lia.
Qed.

(** *** Mutating a row in place *)

(** The index after the row [id] became [x]. *)
Lemma sync_index t t1 id old x : table_ok t -> items_get (items t) id = Some old -> item_ok t x ->
  key_schema t1 = key_schema t -> key_index t1 = key_index t -> items t1 = items_set (items t) id x ->
  index_ok (encode_key t) (rows (items t1)) (key_index (sync_item_at t1 id (snapshot_item_at t id))).
Proof.
  intros Ht Eg Hx Es Ex Ei. pose proof (ok_sorted _ Ht) as Hs. pose proof (ok_index _ Ht) as Hidx.
  destruct (rows_set_facts (items t) id old x Hs Eg) as (Fs & Fl & _).
  assert (Eg1 : items_get (items t1) id = Some x).
  { rewrite Ei. apply items_get_elem; [done|]. apply (rows_set_elem _ _ _ _ Hs Eg). by left. }
  assert (Hold : item_ok t old).
  { pose proof (ok_items _ Ht) as F. rewrite Forall_forall in F. apply (F (id, old)). by apply items_get_elem. }
  unfold sync_item_at, snapshot_item_at. rewrite Eg1, Eg. cbn [slot_key slot_size].
  rewrite (encode_key_schema t1 t x Es).
  case_bool_decide as Ek.
  - cbn [key_index with_stats]. rewrite Ex, Ei. destruct (key_index t); simpl in *; rewrite ?Fl; [done| |done].
    destruct Hidx as [En Hidx]. split; [done|]. by eapply indexes_same.
  - cbn [key_index with_stats]. rewrite Ex. destruct (key_index t) as [|ids n|n]; simpl in Hidx.
    + cbn [key_index with_stats]. rewrite Ex. done || exact I.
    + destruct Hidx as [En Hidx].
      assert (Hin : (id, old) ∈ rows (items t)) by (by apply items_get_elem).
      pose proof (index_remove_ok t ids id old Hidx Hs Hin Hold) as Hd.
      set (ids' := match encode_key t old with Some k => om_remove row_cmp k ids | None => ids end) in *.
      assert (Hel : forall i y, (i, y) ∈ rows (items t1) <-> (i = id /\ y = x) \/ (i, y) ∈ om_remove Z.compare id (rows (items t))).
      { intros i y. rewrite Ei, (rows_set_elem _ _ _ _ Hs Eg).
        rewrite (om_remove_elem (fun _ => True) Z.compare) by done. done. }
      destruct (encode_key t x) as [k|] eqn:Exk.
      * destruct (om_get row_cmp k ids') eqn:Egk; cbn [key_index with_index index_ok]; rewrite Ei, Fl; [done|].
        split; [done|]. rewrite <- Ei. eapply indexes_add; [exact Hd|eapply encode_key_ok; [exact Hx|exact Exk]|exact Exk|exact Egk|exact Hel].
      * cbn [key_index with_index index_ok]. rewrite Ei, Fl. split; [done|]. rewrite <- Ei.
        eapply indexes_skip; [exact Hd|exact Exk|exact Hel].
    + cbn [key_index with_stats]. rewrite Ex. simpl. by rewrite Ei, Fl.
Qed.

Lemma sync_core t1 id x before : items_get (items t1) id = Some x ->
  let t2 := sync_item_at t1 id before in
  key_schema t2 = key_schema t1 /\ items t2 = items t1 /\ item_count t2 = item_count t1
  /\ size_bytes t2 = size_bytes t1 + (estimate_item_size x - slot_size before).
Proof.
  intros Eg. unfold sync_item_at. rewrite Eg. cbv zeta.
  repeat case_match; done.
Qed.

(** What [update_item_at] and [mutate_item_at] do once the row is written. *)
Lemma mutated_ok t t1 id old x now : table_ok t -> items_get (items t) id = Some old -> item_ok t x ->
  t1 = (let t0 := with_items t (items_set (items t) id x) in
        if pitr_enabled t0 then record_change t0 now (Some old) (Some x) else t0) ->
  let t2 := sync_item_at t1 id (snapshot_item_at t id) in
  let t3 := if (0 <? trackers (change_log t2)) then log_change t2 x else t2 in
  table_ok t3 /\ key_schema t3 = key_schema t /\ items t3 = items_set (items t) id x.
Proof.
  intros Ht Eg Hx E1 t2 t3. pose proof (ok_sorted _ Ht) as Hs.
  assert (C1 : core t1 = core (with_items t (items_set (items t) id x))).
  { subst t1. cbv zeta. destruct pitr_enabled; [apply core_record|done]. }
  injection C1 as S1 I1 X1 N1 B1. simpl in *.
  destruct (rows_set_facts (items t) id old x Hs Eg) as (Fs & Fl & Fz).
  assert (Eg1 : items_get (items t1) id = Some x).
  { rewrite I1. apply items_get_elem; [done|]. apply (rows_set_elem _ _ _ _ Hs Eg). by left. }
  pose proof (sync_index t t1 id old x Ht Eg Hx S1 X1 I1) as Hidx.
  destruct (sync_core t1 id x (snapshot_item_at t id) Eg1) as (S2 & I2 & N2 & B2). fold t2 in Hidx, S2, I2, N2, B2.
  assert (C3 : core t3 = core t2) by (unfold t3; destruct (0 <? trackers (change_log t2)); [apply core_log|done]).
  injection C3 as S3 I3 X3 N3 B3.
  split; [|split; congruence].
  apply (table_ok_parts t); rewrite ?X3, ?S3, ?I3, ?N3, ?B3, ?I2, ?N2, ?B2; try congruence; rewrite ?I1; try done.
  - eapply (rows_set_Forall _ _ _ _ _ Hs Eg); [apply (ok_next _ Ht)|]. apply items_get_elem in Eg; [|done].
    pose proof (ok_next _ Ht) as F. rewrite Forall_forall in F. exact (F _ Eg).
  - eapply (rows_set_Forall _ _ _ _ _ Hs Eg); [apply (ok_items _ Ht)|exact Hx].
  - rewrite N1, Fl. apply (ok_count _ Ht).
  - rewrite B1, Fz, (ok_size _ Ht). unfold snapshot_item_at. rewrite Eg. simpl. unfold rows_size. lia.
Qed.

Lemma items_set_same t id item : rows_sorted (rows t) -> items_get t id = Some item -> items_set t id item = t.
Proof.
  intros Hs Eg. destruct (row_split _ _ _ Hs Eg) as (l1 & l2 & El & Ei & _).
  destruct t as [l n]. unfold items_set. simpl in *. f_equal. rewrite <- (Ei item) in El. done.
Qed.

Lemma items_set_set t id x y : items_set (items_set t id x) id y = items_set t id y.
Proof. unfold items_set. simpl. f_equal. by apply (om_insert_insert (fun _ => True) Z.compare). Qed.

(** *** Bulk operations *)

Lemma items_new_rows l : rows_sorted (rows (items_new l)) /\ Forall (fun e => e.1 < next_id (items_new l)) (rows (items_new l))
  /\ (rows (items_new l)).*2 = l.
Proof.
  unfold items_new. induction l as [|x l IH] using rev_ind; [split; [apply om_ok_nil|done]|].
  rewrite foldl_app. cbn [foldl]. set (t := foldl _ no_items l) in *. destruct IH as (Hs & Hn & He).
  rewrite items_push_rows by done. cbn [snd rows next_id]. split; [|split].
  - pose proof (om_insert_ok (fun _ => True) Z.compare (rows t) (next_id t) x Hs I) as Ho.
    rewrite om_insert_last in Ho; [done|]. eapply Forall_impl; [exact Hn|]. intros e Hlt. by apply Z.compare_gt_iff.
  - apply Forall_app. split; [eapply Forall_impl; [exact Hn|]; simpl; intros; lia|]. constructor; [simpl; lia|constructor].
  - rewrite fmap_app, He. done.
Qed.

Lemma core_log_all l t : core (foldl log_change t l) = core t.
Proof. revert t. induction l as [|x l IH]; intros t; simpl; [done|]. by rewrite IH, core_log. Qed.

Lemma replace_ok t new : Forall (item_ok t) new ->
  table_ok (replace_items t new) /\ key_schema (replace_items t new) = key_schema t
  /\ items_iter (items (replace_items t new)) = new.
Proof.
  intros Hn. unfold replace_items.
  set (t0 := if (0 <? trackers (change_log t)) then _ else t).
  assert (C0 : core t0 = core t) by (unfold t0; destruct (0 <? trackers (change_log t)); [apply core_log_all|done]).
  apply core_schema in C0. destruct (items_new_rows new) as (Hs & Hx & He).
  set (t1 := with_stats (with_items t0 (items_new new))
    (Z.of_nat (items_len (items_new new))) (sum_Z (estimate_item_size <$> items_iter (items_new new)))).
  assert (Hi : Forall (fun e => item_ok t1 e.2) (rows (items_new new))).
  { apply (proj1 (Forall_fmap snd (item_ok t1) (rows (items_new new)))). rewrite He.
    eapply Forall_impl; [exact Hn|]. intros x. by apply item_ok_schema. }
  assert (T1 : table_ok (rebuild_key_index t1)).
  { split; try done. exact (rebuild_index_ok t1 Hi). }
  split; [exact T1|]. done.
Qed.

Lemma remove_all_ok now ids t : table_ok t -> NoDup ids -> (forall id, id ∈ ids -> is_Some (items_get (items t) id)) ->
  exists l t', remove_all t now ids = Some (l, t') /\ table_ok t' /\ key_schema t' = key_schema t
    /\ forall i x, (i, x) ∈ rows (items t') <-> i ∉ ids /\ (i, x) ∈ rows (items t).
Proof.
  revert t. induction ids as [|id ids IH]; intros t Ht Nd Hex; cbn [remove_all].
  { exists [], t. split; [done|]. split; [done|]. split; [done|]. intros i x. set_solver. }
  apply NoDup_cons in Nd as [Hni Nd]. destruct (Hex id ltac:(set_solver)) as [item Eg].
  destruct (remove_at_ok t now id item Ht Eg) as (t1 & -> & T1 & S1 & R1). cbn [mbind option_bind].
  assert (Hel : forall i x, (i, x) ∈ rows (items t1) <-> i <> id /\ (i, x) ∈ rows (items t)).
  { intros i x. rewrite R1. apply (om_remove_elem (fun _ => True) Z.compare); [apply (ok_sorted _ Ht)|done]. }
  destruct (IH t1 T1 Nd) as (l & t2 & -> & T2 & S2 & R2).
  { intros i Hi. destruct (Hex i ltac:(set_solver)) as [y Ey]. exists y.
    apply items_get_elem; [apply (ok_sorted _ T1)|]. apply Hel.
    split; [set_solver|]. by apply items_get_elem; [apply (ok_sorted _ Ht)|]. }
  cbn [mbind option_bind]. exists (item :: l), t2. split; [done|]. split; [done|]. split; [congruence|].
  intros i x. rewrite R2, Hel, not_elem_of_cons. naive_solver.
Qed.

(** ** The table as a map from keys to items *)

Lemma find_split {A} (f : A -> bool) l x : List.find f l = Some x ->
  exists l1 l2, l = l1 ++ x :: l2 /\ f x = true /\ List.find f l1 = None.
Proof.
  induction l as [|y l IH]; simpl; [done|]. destruct (f y) eqn:E.
  - intros [= ->]. exists [], l. done.
  - intros Hf. destruct (IH Hf) as (l1 & l2 & -> & Hx & Hn). exists (y :: l1), l2. simpl. by rewrite E.
Qed.

Lemma find_app {A} (f : A -> bool) l l' :
  List.find f (l ++ l') = match List.find f l with Some x => Some x | None => List.find f l' end.
Proof. induction l as [|y l IH]; simpl; [done|]. by destruct (f y). Qed.

Lemma row_of_schema t t' k : key_schema t = key_schema t' ->
  row_of t' k = snd <$> List.find (fun e => bool_decide (encode_key t e.2 = Some k)) (rows (items t')).
Proof.
  intros Es. unfold row_of. f_equal. induction (rows (items t')) as [|e l IH]; simpl; [done|].
  by rewrite (encode_key_schema t' t e.2), IH.
Qed.

Notation under t k := (fun e : Z * Item => bool_decide (encode_key t e.2 = Some k)).

Lemma put_row_of t now item k id b t' : table_ok t -> item_ok t item -> encode_key t item = Some k ->
  put_item_at_key t now item = Some ((id, b), t') ->
  b = bool_decide (is_Some (row_of t k))
  /\ forall k', row_of t' k' = if decide (k' = k) then Some item else row_of t k'.
Proof.
  intros Ht Hi Ek Ep. destruct (put_ok t now item Ht Hi) as (id' & b' & t1 & Ep' & T1 & S1 & Ef & Er & _).
  rewrite Ep in Ep'. injection Ep' as <- <- <-. clear Ep.
  set (t0 := ensure_key_index (log_change t item)) in *.
  assert (T0 : table_ok t0) by (by apply ensure_ok, log_ok).
  assert (I0 : items t0 = items t).
  { unfold t0. rewrite ensure_items. by injection (core_log t item) as _ -> _ _ _. }
  assert (S0 : key_schema t0 = key_schema t) by (unfold t0; rewrite ensure_schema; apply core_schema, core_log).
  assert (Hr0 : forall k', row_of t0 k' = row_of t k') by (intros k'; rewrite (row_of_schema t), I0; done).
  rewrite find_index_scan in Ef by (done || by eapply item_ok_schema).
  unfold find_item_index_scan in Ef.
  rewrite (find_scan_key t0 item k) in Ef; [|apply (ok_items _ T0)|by eapply item_ok_schema|by rewrite (encode_key_schema t0 t)].
  assert (Hkey : forall k', bool_decide (encode_key t item = Some k') = bool_decide (k' = k)).
  { intros k'. apply bool_decide_ext. naive_solver. }
  destruct b.
  - destruct (List.find _ (rows (items t0))) as [[i old]|] eqn:E; [|done]. injection Ef as ->.
    split.
    { rewrite <- Hr0. unfold row_of. rewrite E. by rewrite bool_decide_true. }
    apply find_split in E as (l1 & l2 & El & Eo%bool_decide_eq_true & Hn). cbn [snd] in Eo.
    rewrite (encode_key_schema t0 t old S0) in Eo. rewrite I0 in El.
    pose proof (ok_sorted _ Ht) as Hs. rewrite El in Hs.
    destruct (om_mid (fun _ => True) Z.compare l1 id old l2 Hs) as [Hm _].
    intros k'. rewrite (row_of_schema t t') by done. rewrite Er. unfold items_set. cbn [rows]. rewrite El, Hm.
    unfold row_of. rewrite El, !find_app. simpl. rewrite Eo, Hkey.
    assert (bool_decide (Some k = Some k') = bool_decide (k' = k)) as -> by (apply bool_decide_ext; naive_solver).
    assert (Hl1 : List.find (under t k) l1 = None).
    { rewrite <- Hn. clear -S0. induction l1 as [|e l1 IH]; simpl; [done|]. by rewrite (encode_key_schema t0 t e.2 S0), IH. }
    destruct (decide (k' = k)) as [->|Hne].
    + rewrite Hl1, bool_decide_true by done. done.
    + rewrite (bool_decide_false (k' = k)) by done. done.
  - destruct (List.find _ (rows (items t0))) as [[i old]|] eqn:E; [done|].
    assert (Hnone : row_of t k = None) by (rewrite <- Hr0; unfold row_of; by rewrite E).
    split; [rewrite Hnone; by rewrite bool_decide_false by (by intros [])|].
    intros k'. rewrite (row_of_schema t t') by done. rewrite Er, find_app. simpl. rewrite Hkey.
    change (List.find _ (rows (items t))) with (List.find (under t k') (rows (items t))).
    destruct (decide (k' = k)) as [->|Hne].
    + unfold row_of in Hnone. apply fmap_None in Hnone. rewrite Hnone, bool_decide_true by done. done.
    + rewrite (bool_decide_false (k' = k)) by done. unfold row_of. by destruct (List.find (under t k') (rows (items t))).
Qed.

(** No two rows under one key: a table whose index is not ambiguous. *)
Definition unique_keys (t : DynamoTable) : Prop :=
  forall i j x y k, (i, x) ∈ rows (items t) -> (j, y) ∈ rows (items t) ->
  encode_key t x = Some k -> encode_key t y = Some k -> i = j.

Lemma remove_row_of t now key k r t' : table_ok t -> unique_keys t -> item_ok t key -> encode_key t key = Some k ->
  remove_item_by_key t now key = Some (r, t') ->
  r = row_of t k /\ forall k', row_of t' k' = if decide (k' = k) then None else row_of t k'.
Proof.
  intros Ht Hu Hi Ek Er. unfold remove_item_by_key in Er. set (t0 := ensure_key_index t) in *.
  assert (T0 : table_ok t0) by (by apply ensure_ok).
  assert (I0 : items t0 = items t) by apply ensure_items.
  assert (S0 : key_schema t0 = key_schema t) by apply ensure_schema.
  assert (Hr0 : forall k', row_of t0 k' = row_of t k') by (intros k'; rewrite (row_of_schema t), I0; done).
  pose proof (find_index_row t0 key k T0 ltac:(by eapply item_ok_schema)
    ltac:(by rewrite (encode_key_schema t0 t))) as Hf.
  destruct (find_item_index t0 key) as [id|].
  - destruct Hf as (item & Eg & Hrow & Ei). destruct (remove_at_ok t0 now id item T0 Eg) as (t1 & E1 & _ & S1 & R1).
    rewrite E1 in Er. cbn [mbind option_bind] in Er. injection Er as <- <-. rewrite <- Hr0, Hrow. split; [done|].
    intros k'. rewrite (row_of_schema t t1) by congruence. rewrite R1, I0.
    pose proof (ok_sorted _ Ht) as Hs. rewrite I0 in Eg. rewrite (encode_key_schema t0 t item S0) in Ei.
    destruct (row_split _ _ _ Hs Eg) as (l1 & l2 & El & _ & Em). rewrite Em.
    assert (Hrest : forall e, e ∈ l1 ++ l2 -> encode_key t e.2 <> Some k).
    { intros [j y] Hin Ey. rewrite <- Em in Hin.
      apply (om_remove_elem (fun _ => True) Z.compare) in Hin as [Hne Hy]; [|done|done].
      apply Hne. eapply Hu; [exact Hy|by apply items_get_elem|exact Ey|exact Ei]. }
    unfold row_of. rewrite El.
    destruct (decide (k' = k)) as [->|Hne].
    + destruct (List.find _ (l1 ++ l2)) as [e|] eqn:E; [|done]. apply find_Some in E as [Hin Eb%bool_decide_eq_true].
      by destruct (Hrest e Hin).
    + rewrite !find_app. simpl. rewrite Ei.
      rewrite (bool_decide_false (Some k = Some k')) by congruence. done.
  - injection Er as <- <-. rewrite <- Hr0, Hf. split; [done|]. intros k'. rewrite Hr0.
    destruct (decide (k' = k)) as [->|]; [|done]. by rewrite <- Hr0.
Qed.

(** ** Reachable tables *)

(** What a mutation may write: keys stay usable. *)
Definition writes_ok {E} (t : DynamoTable) (id : Z) (f : Item -> Item * Result E unit) : Prop :=
  forall x row, items_get (items t) id = Some x -> f x = (row, Ok tt) -> item_ok t row.

(** The operations on a table. *)
Inductive table_step : DynamoTable -> DynamoTable -> Prop :=
| step_put t now item r t' :
    item_ok t item -> put_item_at_key t now item = Some (r, t') -> table_step t t'
| step_remove_at t now id r t' : remove_item_at t now id = Some (r, t') -> table_step t t'
| step_remove_key t now key r t' :
    item_ok t key -> remove_item_by_key t now key = Some (r, t') -> table_step t t'
| step_update E t now id (f : Item -> Item * Result E unit) r t' :
    writes_ok t id f -> update_item_at t now id f = Some (r, t') -> table_step t t'
| step_mutate t now id f t' :
    (forall x, items_get (items t) id = Some x -> item_ok t (f x)) ->
    mutate_item_at t now id f = Some t' -> table_step t t'
| step_replace t new : Forall (item_ok t) new -> table_step t (replace_items t new)
| step_remove_where t now p r t' : remove_items_where t now p = Some (r, t') -> table_step t t'
| step_ensure t : table_step t (ensure_key_index t)
| step_rebuild t : table_step t (rebuild_key_index t)
| step_recalculate t : table_step t (recalculate_stats t)
| step_access t key : table_step t (record_key_access t key)
| step_pitr t now enabled : table_step t (set_pitr t now enabled)
| step_discard t marker : table_step t (discard_changes_since t marker)
| step_track t : table_step t (track_changes t)
| step_finish t : table_step t (finish_tracking t).2.

Lemma new_table_ok schema : table_ok (new_table schema).
Proof. split; try done. apply om_ok_nil. Qed.

Lemma update_ok {E} t now id (f : Item -> Item * Result E unit) r t' : table_ok t -> writes_ok t id f ->
  update_item_at t now id f = Some (r, t') -> table_ok t'.
Proof.
  intros Ht Hw. unfold update_item_at. destruct (items_get (items t) id) as [old|] eqn:Eg; [|done].
  cbn [mbind option_bind]. destruct (f old) as [row [[]|e]] eqn:Ef.
  - intros [= <- <-]. refine (proj1 (mutated_ok t _ id old row now Ht Eg (Hw _ _ Eg Ef) eq_refl)).
  - intros [= <- <-]. eapply table_ok_core; [|exact Ht]. unfold core. simpl. rewrite items_set_set.
    by rewrite (items_set_same _ _ _ (ok_sorted _ Ht) Eg).
Qed.

Lemma remove_where_ok t now p : table_ok t ->
  exists r t', remove_items_where t now p = Some (r, t') /\ table_ok t'.
Proof.
  intros Ht. unfold remove_items_where. pose proof (ok_sorted _ Ht) as Hs.
  set (doomed := fst <$> List.filter _ (rows (items t))).
  assert (Hsub : List.filter (fun e => p e.2) (rows (items t)) `sublist_of` rows (items t)).
  { clear. induction (rows (items t)) as [|e l IH]; simpl; [done|]. destruct (p e.2); by constructor. }
  destruct (remove_all_ok now doomed t Ht) as (l & t1 & E1 & T1 & _).
  - unfold doomed. apply (om_ok_sublist (fun _ => True) Z.compare) in Hsub; [|done].
    clear -Hsub. induction (List.filter _ (rows (items t))) as [|e l IH]; [constructor|].
    apply (om_ok_cons (fun _ => True) Z.compare) in Hsub as (_ & F & Hm). simpl. constructor; [|by apply IH].
    rewrite Forall_forall in F. intros (e' & Ee & Hin)%list_elem_of_fmap. specialize (F _ Hin).
    unfold key_lt in F. rewrite Ee, Z.compare_refl in F. done.
  - intros id Hin. apply list_elem_of_fmap in Hin as ([i x] & -> & Hin). exists x.
    apply items_get_elem; [done|]. by eapply elem_of_sublist.
  - rewrite E1. cbn [mbind option_bind]. eexists _, _. split; [done|].
    destruct l, (key_index t1); try done; by apply rebuild_ok.
Qed.

Lemma table_step_ok t t' : table_step t t' -> table_ok t -> table_ok t'.
Proof.
  intros Hst Ht. destruct Hst as [t now item r t' Hi E|t now id r t' E|t now key r t' Hi E
    |X t now id f r t' Hw E|t now id f t' Hw E|t new Hn|t now p r t' E|t|t|t|t key|t now en|t m|t|t].
  - destruct (put_ok t now item Ht Hi) as (id & b & t1 & E1 & T1 & _). congruence.
  - unfold remove_item_at, items_remove in E. destruct (items_get (items t) id) as [x|] eqn:Eg; [|done].
    destruct (remove_at_ok t now id x Ht Eg) as (t1 & E1 & T1 & _).
    unfold remove_item_at, items_remove in E1. rewrite Eg in E1. congruence.
  - unfold remove_item_by_key in E. apply ensure_ok in Ht. destruct (find_item_index _ key) as [id|]; [|by injection E as <- <-].
    apply bind_Some in E as ([x t1] & E & [= <- <-]).
    destruct (items_get (items (ensure_key_index t)) id) as [y|] eqn:Eg.
    + destruct (remove_at_ok _ now id y Ht Eg) as (t2 & E2 & T2 & _). congruence.
    + unfold remove_item_at, items_remove in E. by rewrite Eg in E.
  - by eapply update_ok.
  - unfold mutate_item_at in E. destruct (items_get (items t) id) as [old|] eqn:Eg; [|done].
    cbn [mbind option_bind] in E. injection E as <-.
    refine (proj1 (mutated_ok t _ id old (f old) now Ht Eg (Hw _ eq_refl) eq_refl)).
  - by apply replace_ok.
  - destruct (remove_where_ok t now p Ht) as (l & t1 & E1 & T1). congruence.
  - by apply ensure_ok.
  - by apply rebuild_ok.
  - unfold recalculate_stats. apply rebuild_ok. destruct Ht. by split.
  - eapply table_ok_core; [|exact Ht]. symmetry. apply core_access.
  - by eapply table_ok_core; [|exact Ht].
  - by eapply table_ok_core; [|exact Ht].
  - by eapply table_ok_core; [|exact Ht].
  - by eapply table_ok_core; [|exact Ht].
Qed.

Definition reachable (t : DynamoTable) : Prop := exists schema, rtc table_step (new_table schema) t.

Lemma reachable_ok t : reachable t -> table_ok t.
Proof.
  intros [schema Hr]. remember (new_table schema) as t0 eqn:E0. assert (T0 : table_ok t0) by (subst; apply new_table_ok).
  clear E0. induction Hr as [|x y z Hs Hr IH]; [done|]. apply IH. by eapply table_step_ok.
Qed.

(** ** Results *)

(** C11 (equivalence): in every table the operations can produce, the key index answers every
    lookup as the linear scan does, and the cached item count and size are
    those of the rows. *)
Theorem index_refines_scan t : reachable t ->
  (forall key, item_ok t key -> find_item_index t key = find_item_index_scan t key)
  /\ item_count t = Z.of_nat (items_len (items t))
  /\ size_bytes t = sum_Z (estimate_item_size <$> items_iter (items t)).
Proof.
  intros Ht%reachable_ok. split; [intros key Hk; by apply find_index_scan|].
  split; [apply (ok_count _ Ht)|apply (ok_size _ Ht)].
Qed.

(** Theorem (refinement): writing an item sets the value under its key and no other, reports
    whether it replaced one, and never fails; with one row per key, removing a
    key returns its value and clears it alone. *)
Theorem table_refines_map t now item k : reachable t -> item_ok t item -> encode_key t item = Some k ->
  (exists id t', put_item_at_key t now item = Some ((id, bool_decide (is_Some (row_of t k))), t')
     /\ forall k', row_of t' k' = if decide (k' = k) then Some item else row_of t k')
  /\ (unique_keys t -> exists t', remove_item_by_key t now item = Some (row_of t k, t')
        /\ forall k', row_of t' k' = if decide (k' = k) then None else row_of t k').
Proof.
  intros Ht%reachable_ok Hi Ek. split.
  - destruct (put_ok t now item Ht Hi) as (id & b & t' & E & _).
    destruct (put_row_of t now item k id b t' Ht Hi Ek E) as [-> Hr]. eauto.
  - intros Hu. assert (exists r t', remove_item_by_key t now item = Some (r, t')) as (r & t' & E).
    { unfold remove_item_by_key. pose proof (ensure_ok t Ht) as T0.
      pose proof (find_index_row (ensure_key_index t) item k T0
        ltac:(eapply item_ok_schema; [symmetry; apply ensure_schema|exact Hi])
        ltac:(rewrite (encode_key_schema _ t); [exact Ek|apply ensure_schema])) as Hf.
      destruct (find_item_index _ item) as [id|]; [|eauto]. destruct Hf as (x & Eg & _).
      destruct (remove_at_ok _ now id x T0 Eg) as (t1 & -> & _). simpl. eauto. }
    destruct (remove_row_of t now item k r t' Ht Hu Hi Ek E) as [-> Hr]. eauto.
Qed.

(** Theorem (error): a rejected update leaves no trace: the table is exactly what it was,
    whatever the mutation had already written. *)
Theorem rejected_update_no_trace {E} t now id (f : Item -> Item * Result E unit) e t' : reachable t ->
  update_item_at t now id f = Some (Err e, t') -> t' = t.
Proof.
  intros Ht%reachable_ok. unfold update_item_at. destruct (items_get (items t) id) as [old|] eqn:Eg; [|done].
  cbn [mbind option_bind]. destruct (f old) as [row [[]|e']] eqn:Ef; [done|]. intros [= _ <-].
  unfold with_items at 1. simpl. rewrite items_set_set, (items_set_same _ _ _ (ok_sorted _ Ht) Eg). by destruct t.
Qed.

End Keys.

(** ** Witnesses *)

Module TableWitness.

(** A printer of JSON string literals: quotes and backslashes escaped. *)
Definition backslash : ascii := "092"%char.
Definition dquote : ascii := "034"%char.

Fixpoint escape (s : string) : string :=
  match s with
  | EmptyString => String dquote EmptyString
  | String c s' =>
      if Ascii.eqb c dquote || Ascii.eqb c backslash then String backslash (String c (escape s'))
      else String c (escape s')
  end.

#[local] Instance json_printer : JsonText := {|
  scalar_text v := match v with VString s => String dquote (escape s) | _ => "null" end;
  value_text _ := ""
|}.

#[local] Instance base64_none : Base64Decode := {| base64_decode _ := None |}.

Lemma escape_delimited s s' r r' : escape s +:+ r = escape s' +:+ r' -> s = s' /\ r = r'.
Proof.
  revert s'. induction s as [|c s IH]; intros [|c' s']; simpl.
  - by intros [= ->].
  - destruct (Ascii.eqb_spec c' dquote), (Ascii.eqb_spec c' backslash); subst; simpl; try done.
    intros [= E _]. congruence.
  - destruct (Ascii.eqb_spec c dquote), (Ascii.eqb_spec c backslash); subst; simpl; try done.
    intros [= E _]. congruence.
  - destruct (Ascii.eqb_spec c dquote), (Ascii.eqb_spec c backslash),
      (Ascii.eqb_spec c' dquote), (Ascii.eqb_spec c' backslash); subst; simpl; try done;
      try (intros [= E]; apply IH in E as [-> ->]; done);
      intros [= E1 E2]; try (by subst); subst; try (apply IH in E2 as [-> ->]; done).
Qed.

#[local] Instance json_printer_laws : JsonTextLaws.
Proof. split. intros s s' r r'. simpl. intros [= E]. by apply escape_delimited. Qed.

Definition schema : list KeySchemaElement :=
  [mkKeySchemaElement "pk" "HASH"; mkKeySchemaElement "sk" "RANGE"].
Definition row (pk sk : string) : Item :=
  <["pk" := VObject [("S", VString pk)]]> {[ "sk" := VObject [("N", VString sk)] ]}.

Definition t1 : DynamoTable := from_option snd (new_table schema) (put_item_at_key (new_table schema) 0 (row "a" "1.0")).

Lemma row_item_ok t pk sk : (forall p, parse_number sk = Some p -> Z.abs (point p - 1) <= i64_max) ->
  item_ok t (row pk sk).
Proof.
  intros Hp a v _ Hl. unfold row in Hl. apply lookup_insert_Some in Hl as [[_ <-]|[_ [_ <-]%lookup_singleton_Some]].
  - exists "S", pk. done.
  - exists "N", sk. done.
Qed.

Lemma row_ok_1 t : item_ok t (row "a" "1.0").
Proof. apply row_item_ok. intros p [= <-]. done. Qed.

Lemma t1_reachable : reachable t1.
Proof.
  exists schema. apply rtc_once. eapply (step_put _ 0 (row "a" "1.0")); [apply row_ok_1|]. vm_compute. reflexivity.
Qed.

Lemma index_refines_scan_witness :
  find_item_index t1 (row "a" "1e0") = Some 0 /\ find_item_index_scan t1 (row "a" "1e0") = Some 0.
Proof.
  split; [vm_compute; reflexivity|]. destruct (index_refines_scan t1 t1_reachable) as [H _]. rewrite <- H.
  - vm_compute. reflexivity.
  - apply row_item_ok. intros p [= <-]. done.
Defined.

Lemma table_refines_map_witness : exists k t', encode_key t1 (row "a" "1") = Some k
  /\ put_item_at_key t1 5 (row "a" "1") = Some ((0, true), t') /\ row_of t' k = Some (row "a" "1").
Proof.
  assert (Hi : item_ok t1 (row "a" "1")) by (apply row_item_ok; intros p [= <-]; done).
  destruct (encode_key t1 (row "a" "1")) as [k|] eqn:Ek; [|by vm_compute in Ek].
  destruct (table_refines_map t1 5 (row "a" "1") k t1_reachable Hi Ek) as [(id & t' & E & Hr) _].
  exists k, t'. split; [done|]. specialize (Hr k). rewrite decide_True in Hr by done. split; [|done].
  rewrite E. revert E. vm_compute in Ek. injection Ek as <-. vm_compute. by intros [= <- _].
Defined.

Lemma rejected_update_no_trace_witness :
  update_item_at t1 7 0 (fun x => (∅, Err tt)) = Some (Err tt, t1).
Proof.
  destruct (update_item_at t1 7 0 (fun x => (∅, Err tt))) as [[r t']|] eqn:E; [|by vm_compute in E].
  destruct r as [[]|[]]; [by vm_compute in E|].
  by rewrite (rejected_update_no_trace t1 7 0 (fun x => (∅, Err tt)) tt t' t1_reachable E).
Defined.

End TableWitness.
