(* ===== verification/DdbScan.v ===== *)
(** * DynamoDB tables: Scan order

    The rows a Scan visits come in the order of their keys, the key index and
    the sort of the rows give the same order, and a page resumes exactly after
    its start key, whether or not that row still exists. *)

From Stdlib Require Import ZArith Lia Bool String Ascii.
From stdpp Require Import base option list strings gmap sorting.
From S2P Require Import Prelude Json BTree Text OrdMap DdbNumber DdbValue DdbTable DdbTableTheory.

Local Open Scope string_scope.
Local Open Scope list_scope.
Local Open Scope Z_scope.

(** ** The order on rows *)

Definition scan_ok (o : option RowKey) : Prop := match o with Some k => row_ok k | None => True end.

#[global] Instance scan_ord : OrdLaws scan_ok cmp_scan_order.
Proof.
  split.
  - intros [a|] [b|] Ha Hb; simpl; try done. rewrite (cmp_eq (ok := row_ok) (cmp := row_cmp)) by done. naive_solver.
  - intros [a|] [b|] Ha Hb; simpl; try done. by apply (cmp_anti (ok := row_ok)).
  - intros [a|] [b|] [c|] Ha Hb Hc; simpl; try done. by apply (cmp_lt_trans (ok := row_ok)).
Qed.

Notation Row := (option RowKey * Item)%type.
Notation row_lt := (key_lt (V := Item) cmp_scan_order).
Notation rows_keyed := (Forall (fun e : Row => scan_ok e.1)).

Lemma scan_le_trans a b c : scan_ok a.1 -> scan_ok b.1 -> scan_ok c.1 -> scan_le a b -> scan_le b c -> scan_le a c.
Proof. apply (cmp_le_trans scan_ok cmp_scan_order). Qed.

Lemma scan_le_total a b : scan_ok a.1 -> scan_ok b.1 -> ~ scan_le a b -> scan_le b a.
Proof. apply (cmp_le_total scan_ok cmp_scan_order). Qed.

(** ** The sort *)

Lemma insert_stable_perm x l : insert_stable x l ≡ₚ x :: l.
Proof.
  induction l as [|y l IH]; simpl; [done|]. case_bool_decide; [done|]. rewrite IH. apply Permutation_swap.
Qed.

Lemma sort_rows_perm l : sort_rows l ≡ₚ l.
Proof. unfold sort_rows. induction l as [|x l IH]; simpl; [done|]. by rewrite insert_stable_perm, IH. Qed.

Lemma insert_stable_sorted x l : scan_ok x.1 -> rows_keyed l -> StronglySorted scan_le l ->
  StronglySorted scan_le (insert_stable x l).
Proof.
  intros Hx Hl. induction 1 as [|y l Hs IH F]; simpl; [by repeat constructor|].
  apply Forall_cons in Hl as [Hy Hl]. case_bool_decide as E.
  - constructor; [by constructor|]. constructor; [done|]. rewrite Forall_forall in *. intros z Hz.
    eapply scan_le_trans; [exact Hx|exact Hy|by apply Hl|exact E|by apply F].
  - constructor; [by apply IH|]. rewrite insert_stable_perm. constructor; [by apply scan_le_total|done].
Qed.

Lemma sort_rows_sorted l : rows_keyed l -> StronglySorted scan_le (sort_rows l).
Proof.
  induction 1 as [|x l Hx Hl IH]; simpl; [constructor|]. apply insert_stable_sorted; [done| |done].
  by rewrite sort_rows_perm.
Qed.

(** A strictly ascending list is the only ascending arrangement of its rows. *)
Lemma sorted_unique l l' : rows_keyed l -> StronglySorted row_lt l -> StronglySorted scan_le l' -> l ≡ₚ l' -> l = l'.
Proof.
  intros Hk Hs. revert l'. induction Hs as [|e l Hs IH F]; intros l' Hs' P.
  - symmetry. apply Permutation_nil. by symmetry.
  - apply Forall_cons in Hk as [He Hk]. destruct Hs' as [|e' l' Hs' F'].
    { symmetry in P. by apply Permutation_nil_cons in P. }
    assert (e = e') as ->.
    { assert (K1 : e ∈ e' :: l') by (rewrite <- P; left). assert (K2 : e' ∈ e :: l) by (rewrite P; left).
      apply elem_of_cons in K1 as [->|K1]; [done|]. apply elem_of_cons in K2 as [->|K2]; [done|].
      rewrite Forall_forall in F, F', Hk. specialize (F _ K2). specialize (F' _ K1). unfold key_lt in F. unfold scan_le in F'.
      rewrite (cmp_anti (ok := scan_ok) (cmp := cmp_scan_order) e.1 e'.1), F in F'; [done|done|by apply Hk]. }
    f_equal. apply IH; [done|done|]. by apply Permutation_cons_inv in P.
Qed.

Section Scan.
Context `{Base64Decode} `{JsonText} `{!JsonTextLaws}.

(** The index covers every row. *)
Definition covered (t : DynamoTable) (ids : OMap RowKey Z) : Prop :=
  key_index t = Built ids (items_len (items t)) /\ length ids = items_len (items t).

(** The rows in index order, each with its key. *)
Definition index_row (t : DynamoTable) (e : RowKey * Z) : option Row :=
  (fun x => (Some e.1, x)) <$> items_get (items t) e.2.
Definition index_rows_of (t : DynamoTable) (ids : OMap RowKey Z) : list Row := omap (index_row t) ids.

Lemma index_row_Some t ids k id : table_ok t -> indexes (encode_key t) (rows (items t)) ids -> (k, id) ∈ ids ->
  exists x, index_row t (k, id) = Some (Some k, x) /\ (id, x) ∈ rows (items t) /\ encode_key t x = Some k.
Proof.
  intros Ht [_ Hx] Hin. apply Hx in Hin as (x & Hin & Ek). exists x. split; [|done].
  unfold index_row. simpl. apply items_get_elem in Hin; [|apply (ok_sorted _ Ht)]. by rewrite Hin.
Qed.

Lemma index_rows_cons t ids k id x : index_row t (k, id) = Some (Some k, x) ->
  index_rows_of t ((k, id) :: ids) = (Some k, x) :: index_rows_of t ids.
Proof. intros E. unfold index_rows_of. cbn [omap list_omap]. by rewrite E. Qed.

(** Every entry of the index has a row under its key. *)
Definition resolves (t : DynamoTable) (ids : OMap RowKey Z) : Prop :=
  forall e, e ∈ ids -> exists x, index_row t e = Some (Some e.1, x)
    /\ (e.2, x) ∈ rows (items t) /\ encode_key t x = Some e.1.

Lemma index_resolves t ids : table_ok t -> indexes (encode_key t) (rows (items t)) ids -> resolves t ids.
Proof. intros Ht Hx [k id] Hin. by apply index_row_Some with ids. Qed.

Lemma resolves_cons t k id ids : resolves t ((k, id) :: ids) ->
  resolves t ids /\ exists x, encode_key t x = Some k /\ (id, x) ∈ rows (items t)
    /\ index_row t (k, id) = Some (Some k, x)
    /\ index_rows_of t ((k, id) :: ids) = (Some k, x) :: index_rows_of t ids.
Proof.
  intros Hr. split; [intros e He; apply Hr; by right|].
  destruct (Hr (k, id)) as (x & Ex & Hin & Ek); [left|]. eauto 6 using index_rows_cons.
Qed.

Lemma index_rows_elem t ids r : resolves t ids ->
  r ∈ index_rows_of t ids <-> exists e x, e ∈ ids /\ r = (Some e.1, x) /\ index_row t e = Some (Some e.1, x).
Proof.
  induction ids as [|[k id] ids IH]; intros Hr.
  - split; [intros Hn; by apply not_elem_of_nil in Hn|]. intros (e & x & He & _). by apply not_elem_of_nil in He.
  - apply resolves_cons in Hr as (Hr & x & _ & _ & Ex & ->). rewrite elem_of_cons, (IH Hr). split.
    + intros [->|(e & y & He & -> & Ey)]; [exists (k, id), x; split; [left|done]|exists e, y; split; [by right|done]].
    + intros (e & y & [->|He]%elem_of_cons & -> & Ey); [left; simpl in *; congruence|right; eauto].
Qed.

Lemma index_rows_length t ids : resolves t ids -> length (index_rows_of t ids) = length ids.
Proof.
  induction ids as [|[k id] ids IH]; intros Hr; [done|].
  apply resolves_cons in Hr as (Hr & x & _ & _ & _ & ->). simpl. by rewrite (IH Hr).
Qed.

Lemma index_rows_sorted t ids : resolves t ids -> StronglySorted (key_lt row_cmp) ids ->
  StronglySorted row_lt (index_rows_of t ids).
Proof.
  intros Hr Hs. induction Hs as [|[k id] ids Hs IH F]; [constructor|].
  apply resolves_cons in Hr as (Hr & x & _ & _ & _ & ->). constructor; [by apply IH|].
  rewrite Forall_forall in F. apply Forall_forall.
  intros r (e & y & He & -> & _)%index_rows_elem; [|done]. exact (F _ He).
Qed.

Lemma row_lt_NoDup l : rows_keyed l -> StronglySorted row_lt l -> NoDup l.
Proof.
  intros Hk Hs. induction Hs as [|r l Hs IH F]; [constructor|]. apply Forall_cons in Hk as [Hr Hk].
  constructor; [|by apply IH]. intros Hin. rewrite Forall_forall in F. specialize (F _ Hin). unfold key_lt in F.
  by rewrite (cmp_refl scan_ok cmp_scan_order) in F.
Qed.

Lemma covered_indexes t ids : table_ok t -> covered t ids -> indexes (encode_key t) (rows (items t)) ids.
Proof. intros Ht [Ei _]. pose proof (ok_index _ Ht) as Hx. rewrite Ei in Hx. apply Hx. Qed.

(** They are the table's rows, strictly ascending. *)
Lemma index_rows_facts t ids : table_ok t -> covered t ids ->
  rows_keyed (index_rows_of t ids) /\ StronglySorted row_lt (index_rows_of t ids)
  /\ index_rows_of t ids ≡ₚ ((fun item => (encode_key t item, item)) <$> items_iter (items t)).
Proof.
  intros Ht Hc. pose proof (covered_indexes t ids Ht Hc) as Hx. destruct Hc as [_ El].
  pose proof (index_resolves t ids Ht Hx) as Hr. pose proof Hx as [[Ho Hs] _].
  assert (Hk : rows_keyed (index_rows_of t ids)).
  { apply Forall_forall. intros r (e & x & He & -> & _)%index_rows_elem; [|done].
    rewrite Forall_forall in Ho. exact (Ho _ He). }
  pose proof (index_rows_sorted t ids Hr Hs) as Hstrict. split; [done|]. split; [done|].
  apply submseteq_length_Permutation.
  - apply NoDup_submseteq; [by apply row_lt_NoDup|].
    intros r (e & x & He & -> & Ex)%index_rows_elem; [|done]. destruct (Hr e He) as (y & Ey & Hin & Ek).
    rewrite Ex in Ey. injection Ey as <-. rewrite <- Ek. apply list_elem_of_fmap. exists x. split; [done|].
    unfold items_iter. apply list_elem_of_fmap. by exists (e.2, x).
  - rewrite length_fmap, index_rows_length, El by done. unfold items_iter, items_len. by rewrite length_fmap.
Qed.

(** The sort gives the index's order. *)
Lemma sort_is_index t ids : table_ok t -> covered t ids ->
  sort_rows ((fun item => (encode_key t item, item)) <$> items_iter (items t)) = index_rows_of t ids.
Proof.
  intros Ht Hc. destruct (index_rows_facts t ids Ht Hc) as (Hk & Hs & P). symmetry.
  apply sorted_unique; [done|done| |by rewrite P, sort_rows_perm].
  apply sort_rows_sorted. by rewrite <- P.
Qed.

(** The rows after a key, by the index. *)
Lemma index_after t ids k : om_ok row_ok row_cmp ids -> resolves t ids -> row_ok k ->
  omap (fun e => items_get (items t) e.2) (om_after row_cmp k ids)
  = snd <$> List.filter (fun r => row_after (Some k) r.1) (index_rows_of t ids).
Proof.
  intros Ho Hr Hk. rewrite (om_after_filter row_ok row_cmp) by done. destruct Ho as [Ho _].
  induction ids as [|[j id] ids IH]; [done|]. apply Forall_cons in Ho as [Hj Ho]. simpl in Hj.
  apply resolves_cons in Hr as (Hr & x & _ & _ & Ex & ->). simpl.
  rewrite (cmp_anti (ok := row_ok) (cmp := row_cmp) k j) by done.
  assert (Eg : items_get (items t) id = Some x).
  { unfold index_row in Ex. simpl in Ex. destruct (items_get (items t) id); [|done]. by injection Ex as ->. }
  specialize (IH Ho Hr). destruct (row_cmp k j); simpl; rewrite ?Eg; simpl; [exact IH|by f_equal|exact IH].
Qed.

Lemma index_all t ids : resolves t ids ->
  omap (fun e => items_get (items t) e.2) ids = snd <$> index_rows_of t ids.
Proof.
  induction ids as [|[j id] ids IH]; intros Hr; [done|]. apply resolves_cons in Hr as (Hr & x & _ & _ & Ex & ->).
  simpl. unfold index_row in Ex. simpl in Ex. destruct (items_get (items t) id); [|done]. injection Ex as ->.
  f_equal. by apply IH.
Qed.

Lemma filter_every {A} (f : A -> bool) l : Forall (fun x => f x = true) l -> List.filter f l = l.
Proof. induction 1 as [|x l E _ IH]; simpl; [done|]. by rewrite E, IH. Qed.

Lemma filter_keyed (f : option RowKey -> bool) (g : Item -> option RowKey) (l : list Row) :
  Forall (fun r => g r.2 = r.1) l ->
  snd <$> List.filter (fun r => f r.1) l = List.filter (fun x => f (g x)) (snd <$> l).
Proof.
  induction 1 as [|r l E _ IH]; simpl; [done|]. rewrite E. destruct (f r.1); simpl; [f_equal|]; exact IH.
Qed.

(** What a Scan of a covered table reads, from a start key or from the first. *)
Lemma scan_covered t ids key start : table_ok t -> covered t ids -> item_ok t key ->
  start = None \/ (start = Some key /\ is_Some (encode_key t key)) ->
  scan_rows_after t start
  = snd <$> List.filter (fun r => row_after (start ≫= encode_key t) r.1) (index_rows_of t ids).
Proof.
  intros Ht Hc Hi Hstart. pose proof (covered_indexes t ids Ht Hc) as Hx. pose proof Hc as [Ei El].
  pose proof (index_resolves t ids Ht Hx) as Hr. unfold scan_rows_after. rewrite Ei, El.
  rewrite !bool_decide_true by done. cbn [andb]. destruct Hstart as [->|[-> [k Ek]]].
  - cbn [mbind option_bind]. rewrite (index_all t ids Hr), filter_every; [done|]. by apply Forall_forall.
  - cbn [mbind option_bind]. rewrite Ek. apply index_after; [apply Hx|done|by eapply encode_key_ok].
Qed.

(** C23 (functional): scan order: when the index covers the rows, a Scan reads every row once,
    in strictly ascending key order, exactly as sorting the rows would; from a
    start key it reads the rows of the full Scan whose keys are above it,
    whether or not the start row still exists. *)
Theorem scan_order t ids : reachable t -> covered t ids ->
  scan_rows_after t None ≡ₚ items_iter (items t)
  /\ StronglySorted (fun a b => cmp_scan_order (encode_key t a) (encode_key t b) = Lt) (scan_rows_after t None)
  /\ scan_rows_after t None = scan_sorted t None
  /\ forall key k, item_ok t key -> encode_key t key = Some k ->
       scan_rows_after t (Some key) = scan_sorted t (Some k)
       /\ scan_rows_after t (Some key)
          = List.filter (fun x => row_after (Some k) (encode_key t x)) (scan_rows_after t None).
Proof.
  intros Ht%reachable_ok Hc. destruct (index_rows_facts t ids Ht Hc) as (Hk & Hs & P).
  pose proof (index_resolves t ids Ht (covered_indexes t ids Ht Hc)) as Hr.
  assert (Hall : scan_rows_after t None = snd <$> index_rows_of t ids).
  { rewrite (scan_covered t ids ∅ None Ht Hc); [|intros a v _; by rewrite lookup_empty|by left].
    rewrite filter_every; [done|]. by apply Forall_forall. }
  assert (Hkey : Forall (fun r => encode_key t r.2 = r.1) (index_rows_of t ids)).
  { apply Forall_forall. intros r (e & x & He & -> & Ex)%index_rows_elem; [|done].
    destruct (Hr e He) as (y & Ey & _ & Ek). simpl. congruence. }
  split; [|split; [|split]].
  - rewrite Hall, P. rewrite <- list_fmap_compose. simpl. by rewrite list_fmap_id.
  - rewrite Hall. clear -Hs Hkey. induction Hs as [|r l Hs IH F]; [constructor|].
    apply Forall_cons in Hkey as [Er Hkey]. simpl. constructor; [by apply IH|].
    apply Forall_forall. intros y (r' & -> & Hr')%list_elem_of_fmap. rewrite Forall_forall in F, Hkey.
    rewrite Er, (Hkey _ Hr'). exact (F _ Hr').
  - unfold scan_sorted. rewrite (sort_is_index t ids Ht Hc), Hall, filter_every; [done|]. by apply Forall_forall.
  - intros key k Hi Ek. assert (Hsc := scan_covered t ids key (Some key) Ht Hc Hi (or_intror (conj eq_refl (mk_is_Some _ _ Ek)))).
    cbn [mbind option_bind] in Hsc. rewrite Ek in Hsc. split.
    + unfold scan_sorted. by rewrite (sort_is_index t ids Ht Hc).
    + rewrite Hsc, Hall. by apply (filter_keyed (row_after (Some k)) (encode_key t)).
Qed.

End Scan.

(** ** Witness *)

Module ScanWitness.
Import TableWitness.
#[local] Existing Instance json_printer.
#[local] Existing Instance json_printer_laws.
#[local] Existing Instance base64_none.

Definition t2 : DynamoTable := from_option snd t1 (put_item_at_key t1 1 (row "a" "-7")).

Lemma t2_reachable : reachable t2.
Proof.
  destruct t1_reachable as [schema Hr]. exists schema. eapply rtc_r; [exact Hr|].
  eapply (step_put _ 1 (row "a" "-7")); [apply row_item_ok; intros p [= <-]; done|]. vm_compute. reflexivity.
Qed.

Lemma scan_order_witness :
  scan_rows_after t2 None = [row "a" "-7"; row "a" "1.0"] /\ scan_rows_after t2 (Some (row "a" "0")) = [row "a" "1.0"].
Proof.
  assert (Hc : exists ids, covered t2 ids).
  { destruct (key_index t2) as [|ids n|n] eqn:E; try (by vm_compute in E). exists ids.
    assert (n = 2%nat) as -> by (by vm_compute in E; injection E as _ <-).
    split; [exact E|]. vm_compute in E. by injection E as <-. }
  destruct Hc as [ids Hc]. destruct (scan_order t2 ids t2_reachable Hc) as (_ & _ & E & H).
  split; [rewrite E; vm_compute; reflexivity|].
  destruct (encode_key t2 (row "a" "0")) as [k|] eqn:Ek; [|by vm_compute in Ek].
  destruct (H (row "a" "0") k) as [_ ->]; [apply row_item_ok; intros p [= <-]; done|done|].
  vm_compute in Ek. injection Ek as <-. vm_compute. reflexivity.
Defined.

End ScanWitness.
