(* ===== verification/DdbUpdate.v ===== *)
(** * DynamoDB updates and projections

    The interpreter of update expressions and the document paths it writes
    ([fakecloud-dynamodb/src/service/helpers/updates.rs], the update half of
    [helpers/mod.rs] and [helpers/paths.rs], and the keyword splitter of
    [helpers/conditions.rs]).

    An update expression is validated by the parser of [DdbExpr] but applied
    by a second reader of its text, modelled here as written: clauses are
    found by keyword search and assignments by splitting at commas.  Applying
    one mutates the item step by step; the functions return the item as it
    stands together with the result, so that the caller decides whether a
    failed update is undone.  [serde_json]'s map keeps insertion order, and
    its [remove] moves the last entry into the gap. *)

From Stdlib Require Import ZArith Lia Bool String Ascii.
From stdpp Require Import base option list strings gmap sorting.
From S2P Require Import Prelude Json BTree Text Sqs DdbNumber DdbValue DdbReserved DdbExpr DdbTable.
Import Sqs(AwsServiceError, AwsError, aws_error).

Local Open Scope string_scope.

(** ** Objects *)

(** [Map::insert]. *)
Fixpoint obj_insert {A} (k : string) (v : A) (m : list (string * A)) : list (string * A) :=
  match m with
  | [] => [(k, v)]
  | (k', x) :: m' => if String.eqb k k' then (k', v) :: m' else (k', x) :: obj_insert k v m'
  end.

(** [Map::remove] under [preserve_order]: a [swap_remove]. *)
Definition swap_remove {A} (k : string) (m : list (string * A)) : list (string * A) :=
  let fix go (m : list (string * A)) : option (list (string * A) * list (string * A)) :=
    match m with
    | [] => None
    | (k', x) :: m' =>
        if String.eqb k k' then Some ([], m')
        else (fun '(a, b) => ((k', x) :: a, b)) <$> go m'
    end in
  match go m with
  | None => m
  | Some (a, b) =>
      match last b with
      | None => a
      | Some l => (a ++ [l] ++ take (length b - 1) b)%list
      end
  end.

(** [v.get_mut(tag)] written back. *)
Definition set_member (tag : string) (x v : Value) : Value :=
  match v with VObject m => VObject (obj_insert tag x m) | _ => v end.

(** ** Keyword splitting *)

Definition char_eq_ignore_case (a b : ascii) : bool := Ascii.eqb (ascii_lower a) (ascii_lower b).

(** The keyword at the front of [s]. *)
Fixpoint prefix_ignore_case (kw s : string) : bool :=
  match kw, s with
  | EmptyString, _ => true
  | String a kw', String b s' => char_eq_ignore_case b a && prefix_ignore_case kw' s'
  | _, EmptyString => false
  end.

Definition char_at (s : string) (i : nat) : option ascii := String.get i s.

Definition match_keyword (s : string) (i : nat) (keyword : string) : option nat :=
  let e := i + String.length keyword in
  if (String.length s <? e)%nat then None
  else if negb (prefix_ignore_case keyword (string_drop i s)) then None
  else if string_forallb is_ascii_alphanumeric keyword then
    let left_ok := (i =? 0)%nat || from_option is_ascii_whitespace false (char_at s (i - 1)) in
    let right_ok := (e =? String.length s)%nat || from_option is_ascii_whitespace false (char_at s e) in
    if left_ok && right_ok then Some e else None
  else Some e.

Definition squote : ascii := "039"%char.
Definition dquote : ascii := "034"%char.

Record SplitState := mkSplit {
  sp_start : nat;
  sp_depth : nat;
  sp_between : nat;
  sp_squote : bool;
  sp_dquote : bool
}.

(** The scan from position [i]; every turn advances it. *)
Fixpoint split_loop (fuel : nat) (expr keyword : string) (i : nat) (st : SplitState) : list string :=
  match fuel with
  | 0 => [string_drop (sp_start st) expr]
  | S fuel' =>
      match char_at expr i with
      | None => [string_drop (sp_start st) expr]
      | Some ch =>
          let is_and := eq_ignore_ascii_case keyword "AND" in
          let next := split_loop fuel' expr keyword in
          let step st := next (i + 1) st in
          let '(mkSplit start depth between sq dq) := st in
          if sq then step (mkSplit start depth between (negb (Ascii.eqb ch squote)) dq)
          else if dq then step (mkSplit start depth between sq (negb (Ascii.eqb ch dquote)))
          else if Ascii.eqb ch squote then step (mkSplit start depth between true dq)
          else if Ascii.eqb ch dquote then step (mkSplit start depth between sq true)
          else if Ascii.eqb ch "(" then step (mkSplit start (depth + 1) between sq dq)
          else if Ascii.eqb ch ")" then step (mkSplit start (depth - 1) between sq dq)
          else if (depth =? 0)%nat then
            match (if is_and then match_keyword expr i "BETWEEN" else None) with
            | Some e => next e (mkSplit start depth (between + 1) sq dq)
            | None =>
                match match_keyword expr i keyword with
                | Some e =>
                    if is_and && (0 <? between)%nat
                    then next e (mkSplit start depth (between - 1) sq dq)
                    else slice expr start i :: next e (mkSplit e depth between sq dq)
                | None => step st
                end
            end
          else step st
      end
  end.

Definition split_on_top_level_keyword (expr keyword : string) : list string :=
  split_loop (String.length expr) expr keyword 0 (mkSplit 0 0 0 false false).

Definition split_on_and (expr : string) : list string := split_on_top_level_keyword expr "AND".
Definition split_on_or (expr : string) : list string := split_on_top_level_keyword expr "OR".

(** ** References *)

Definition resolve_attr_name (name : string) (names : gmap string string) : string :=
  let name := trim_matches dquote name in
  if starts_with "#" name then default name (names !! name) else name.

Definition resolve_path (path : string) (item : Item) (names : gmap string string) : option Value :=
  match parse_document_path (trim path) names with
  | Some doc => resolve_doc_path item doc
  | None => item !! resolve_attr_name path names
  end.

Definition resolve_ref_or_path (reference : string) (item : Item) (names : gmap string string)
  (values : gmap string Value) : option Value :=
  let reference := trim_matches dquote (trim reference) in
  if starts_with ":" reference then values !! reference
  else match resolve_path reference item names with
       | Some v => Some v
       | None =>
           match strip_prefix "'" reference ≫= strip_suffix "'" with
           | Some x => Some (VObject [("S", VString x)])
           | None => (fun _ => VObject [("N", VString reference)]) <$> parse_f64 reference
           end
       end.

(** The parentheses of [inner] close within it. *)
Fixpoint balanced (depth : nat) (inner : string) : bool :=
  match inner with
  | EmptyString => (depth =? 0)%nat
  | String c s =>
      if Ascii.eqb c "(" then balanced (depth + 1) s
      else if Ascii.eqb c ")" then match depth with 0 => false | S d => balanced d s end
      else balanced depth s
  end.

Definition strip_outer_parens (expr : string) : string :=
  let trimmed := trim expr in
  if negb (starts_with "(" trimmed) || negb (ends_with ")" trimmed) then trimmed
  else
    let inner := slice trimmed 1 (String.length trimmed - 1) in
    if balanced 0 inner then inner else trimmed.

(** ** Writing at a document path *)

Definition invalid_document_path : AwsServiceError :=
  validation_error "The document path provided in the update expression is invalid for update".

(** [list[i] = x]. *)
Definition list_set (l : list Value) (i : Z) (x : Value) : list Value := <[Z.to_nat i := x]> l.

(** Rewrite the value at [p] below [cur] by [f]; [None] when a step is missing. *)
Fixpoint modify_at {A} (p : DocPath) (f : Value -> option (A * Value)) (cur : Value) : option (A * Value) :=
  match p with
  | [] => f cur
  | Attr k :: p' =>
      m ← get_object "M" cur; x ← assoc k m;
      '(a, x') ← modify_at p' f x;
      Some (a, set_member "M" (VObject (obj_insert k x' m)) cur)
  | Index i :: p' =>
      l ← get_array "L" cur; x ← nth_value l i;
      '(a, x') ← modify_at p' f x;
      Some (a, set_member "L" (VArray (list_set l i x')) cur)
  end.

(** The last step of a write: a map key, or a list index, past the end an append. *)
Definition assign_leaf (leaf : PathElem) (value cur : Value) : option (option Z * Value) :=
  match leaf with
  | Attr k =>
      m ← get_object "M" cur;
      Some (None, set_member "M" (VObject (obj_insert k value m)) cur)
  | Index i =>
      l ← get_array "L" cur;
      if (i <? Z.of_nat (length l))%Z
      then Some (Some i, set_member "L" (VArray (list_set l i value)) cur)
      else Some (Some (Z.of_nat (length l)), set_member "L" (VArray (l ++ [value])) cur)
  end.

(** [segments\[1..\].split_last()]. *)
Definition split_last {A} (l : list A) : option (A * list A) :=
  (fun x => (x, take (length l - 1) l)) <$> last l.

Definition assign_doc_path (item : Item) (segments : DocPath) (value : Value)
  : Result AwsServiceError (option Z * Item) :=
  match segments with
  | Attr top :: more =>
      match split_last more with
      | None => Ok (None, <[top := value]> item)
      | Some (leaf, middle) =>
          ok_or invalid_document_path
            (cur ← item !! top;
             '(i, cur') ← modify_at middle (assign_leaf leaf value) cur;
             Some (i, <[top := cur']> item))
      end
  | _ => Err invalid_document_path
  end.

Definition assign_nested_path (item : Item) (path : string) (names : gmap string string) (value : Value)
  : Result AwsServiceError (option Z * Item) :=
  segments ← ok_or invalid_document_path (parse_document_path path names);
  assign_doc_path item segments value.

(** The last step of a removal; nothing happens on a value of another kind. *)
Definition remove_leaf (leaf : PathElem) (cur : Value) : option (unit * Value) :=
  match leaf with
  | Attr k =>
      m ← get_object "M" cur;
      Some (tt, set_member "M" (VObject (swap_remove k m)) cur)
  | Index i =>
      l ← get_array "L" cur;
      if (i <? Z.of_nat (length l))%Z
      then Some (tt, set_member "L" (VArray (delete (Z.to_nat i) l)) cur)
      else None
  end.

Definition remove_doc_path (item : Item) (segs : DocPath) : Item :=
  match segs with
  | Attr top :: more =>
      match split_last more with
      | None => delete top item
      | Some (leaf, middle) =>
          default item (cur ← item !! top;
                        '(_, cur') ← modify_at middle (remove_leaf leaf) cur;
                        Some (<[top := cur']> item))
      end
  | _ => item
  end.

Definition remove_path (item : Item) (path : string) (names : gmap string string) : Item :=
  from_option (remove_doc_path item) item (parse_document_path path names).

(** ** Right-hand sides *)

(** The first top-level [+] or [-] after the first character. *)
Fixpoint arithmetic_from (depth : Z) (i : nat) (s : string) : option (nat * bool) :=
  match s with
  | EmptyString => None
  | String c s' =>
      if Ascii.eqb c "(" then arithmetic_from (depth + 1) (i + 1) s'
      else if Ascii.eqb c ")" then arithmetic_from (depth - 1) (i + 1) s'
      else if Ascii.eqb c "+" && (depth =? 0)%Z && (0 <? i)%nat then Some (i, true)
      else if Ascii.eqb c "-" && (depth =? 0)%Z && (0 <? i)%nat then Some (i, false)
      else arithmetic_from depth (i + 1) s'
  end.

Definition parse_arithmetic (expr : string) : option (string * string * bool) :=
  '(i, is_add) ← arithmetic_from 0 0 expr;
  Some (string_take i expr, string_drop (i + 1) expr, is_add).

Definition incorrect_data_type : AwsServiceError :=
  validation_error "An operand in the update expression has an incorrect data type".

(** [strip_prefix("name(").or_else(strip_prefix("name ("))]. *)
Definition strip_call (name s : string) : option string :=
  match strip_prefix (name +:+ "(") s with
  | Some rest => Some rest
  | None => strip_prefix (name +:+ " (") s
  end.

(** [inner.splitn(2, ',')] of [rest] without its [)]. *)
Definition two_args (rest : string) : option (string * string) :=
  inner ← strip_suffix ")" rest;
  match splitn 2 "," inner with
  | [check; dflt] => Some (check, dflt)
  | _ => None
  end.

Section Apply.
Context `{Base64Decode} (names : gmap string string) (values : gmap string Value).

Definition evaluate_arithmetic_operand (operand : string) (item : Item) : option Value :=
  let operand := strip_outer_parens (trim operand) in
  match strip_call "if_not_exists" operand with
  | Some rest =>
      '(check, dflt) ← two_args rest;
      match resolve_ref_or_path (trim check) item names values with
      | Some v => Some v
      | None => resolve_ref_or_path (trim dflt) item names values
      end
  | None => resolve_ref_or_path operand item names values
  end.

Definition evaluate_if_not_exists_rhs (rest : string) (item : Item) : option Value :=
  '(check, dflt) ← two_args rest;
  match resolve_ref_or_path (trim check) item names values with
  | Some _ => None
  | None => resolve_ref_or_path (trim dflt) item names values
  end.

Definition list_of (v : option Value) : list Value :=
  default [] (v ≫= get_array "L").

Definition evaluate_list_append_rhs (rest : string) (item : Item) : option Value :=
  inner ← strip_suffix ")" rest;
  match split_on_top_level_keyword inner "," with
  | [a_ref; b_ref] =>
      let a := evaluate_arithmetic_operand (trim a_ref) item in
      let b := evaluate_arithmetic_operand (trim b_ref) item in
      Some (VObject [("L", VArray (list_of a ++ list_of b))])
  | _ => None
  end.

Definition evaluate_arithmetic_rhs (left right : string) (is_add : bool) (item : Item)
  : Result AwsServiceError (option Value) :=
  let l := evaluate_arithmetic_operand left item in
  let r := evaluate_arithmetic_operand right item in
  x ← ok_or incorrect_data_type (l ≫= get_str "N");
  y ← ok_or incorrect_data_type (r ≫= get_str "N");
  num ← ok_or incorrect_data_type (decimal_add_sub x y is_add);
  _ ← range_checked num;
  Ok (Some (VObject [("N", VString num)])).

Definition evaluate_set_rhs (right : string) (item : Item) : Result AwsServiceError (option Value) :=
  let right := strip_outer_parens right in
  match parse_arithmetic right with
  | Some (l, r, is_add) => evaluate_arithmetic_rhs l r is_add item
  | None =>
      match strip_call "if_not_exists" right with
      | Some rest => Ok (evaluate_if_not_exists_rhs rest item)
      | None =>
          match strip_call "list_append" right with
          | Some rest => Ok (evaluate_list_append_rhs rest item)
          | None => Ok (resolve_ref_or_path right item names values)
          end
      end
  end.

(** The value is evaluated against [source], the item before the update. *)
Definition apply_set_assignment_from (item source : Item) (assignment : string)
  : Result AwsServiceError (option Z * Item) :=
  match split_once "=" assignment with
  | None => Ok (None, item)
  | Some (lhs, rhs) =>
      v ← evaluate_set_rhs (trim rhs) source;
      match v with
      | None => Ok (None, item)
      | Some v => assign_nested_path item (trim lhs) names v
      end
  end.

(** *** ADD and DELETE *)

Definition add_type_mismatch (attr : string) : AwsServiceError :=
  validation_error ("Type mismatch for attribute to update: " +:+ attr).

Definition is_wellformed_add_operand (v : Value) : bool :=
  let members (tag : string) (ok : Value -> bool) : option bool :=
    (fun x => match as_array x with
              | Some a => negb (length a =? 0)%nat && forallb ok a
              | None => false
              end) <$> get tag v in
  match get "N" v with
  | Some n => from_option is_valid_number false (as_str n)
  | None =>
  match members "SS" (fun e => bool_decide (is_Some (as_str e))) with Some b => b | None =>
  match members "NS" (fun e => from_option is_valid_number false (as_str e)) with Some b => b | None =>
  match members "BS" (fun e => from_option (fun s => bool_decide (is_Some (base64_decode s))) false (as_str e)) with
  | Some b => b
  | None => false
  end end end end.

(** [splitn(2, ' ')] of an assignment into its attribute and operand. *)
Definition split_assignment (assignment : string) : option (string * Value + unit) :=
  match splitn 2 " " assignment with
  | [a; v] => Some (match values !! trim v with
                    | Some x => inl (resolve_attr_name (trim a) names, x)
                    | None => inr tt
                    end)
  | _ => None
  end.

(** The members of [add] not yet in the set, appended. *)
Definition union_members (set_type : string) (existing add : list Value) : list Value :=
  foldl (fun merged v => if existsb (fun m => same_member set_type m v) merged then merged
                         else (merged ++ [v])%list) existing add.

Definition SET_TYPES : list string := ["SS"; "NS"; "BS"].

Definition apply_add_assignment (item : Item) (assignment : string) : Result AwsServiceError Item :=
  match split_assignment assignment with
  | Some (inl (attr, add_val)) =>
      match item !! attr with
      | None => if is_wellformed_add_operand add_val then Ok (<[attr := add_val]> item)
                else Err incorrect_data_type
      | Some existing =>
          match get_str "N" existing, get_str "N" add_val with
          | Some x, Some y =>
              match decimal_add_sub x y true with
              | None => Ok item
              | Some num =>
                  _ ← range_checked num;
                  Ok (<[attr := VObject [("N", VString num)]]> item)
              end
          | _, _ =>
              match List.find (fun t => bool_decide (is_Some (get_array t existing))) SET_TYPES with
              | None => Err (add_type_mismatch attr)
              | Some set_type =>
                  match get_array set_type add_val with
                  | None => Err (add_type_mismatch attr)
                  | Some add_set =>
                      Ok (<[attr := VObject [(set_type,
                             VArray (union_members set_type (default [] (get_array set_type existing)) add_set))]]> item)
                  end
              end
          end
      end
  | _ => Ok item
  end.

Definition apply_delete_assignment (item : Item) (assignment : string) : Result AwsServiceError Item :=
  match split_assignment assignment with
  | Some (inl (attr, del_val)) =>
      match item !! attr with
      | None => Ok item
      | Some existing =>
          let pair t := match get_array t existing, get_array t del_val with
                        | Some e, Some d => Some (t, e, d)
                        | _, _ => None
                        end in
          match omap pair SET_TYPES with
          | [] => Err (add_type_mismatch attr)
          | (t, e, d) :: _ =>
              let kept := List.filter (fun v => negb (existsb (fun x => same_member t x v) d)) e in
              Ok (match kept with
                  | [] => delete attr item
                  | _ => <[attr := VObject [(t, VArray kept)]]> item
                  end)
          end
      end
  | _ => Ok item
  end.

(** *** Clauses *)

Inductive UpdateAction := USet | URemove | UAdd | UDelete.

Definition KEYWORDS : list (string * UpdateAction) :=
  [("SET", USet); ("REMOVE", URemove); ("ADD", UAdd); ("DELETE", UDelete)].

Definition action_keyword (a : UpdateAction) : string :=
  match a with USet => "SET" | URemove => "REMOVE" | UAdd => "ADD" | UDelete => "DELETE" end.

Definition is_boundary (c : ascii) : bool :=
  let n := char_code c in ((n =? 32) || (n =? 9) || (n =? 10) || (n =? 13))%N.

(** Whether each position is inside a quoted span (its closing quote is not). *)
Fixpoint quote_marks (sq dq : bool) (s : string) : list bool :=
  match s with
  | EmptyString => []
  | String c s' =>
      let sq' := if Ascii.eqb c squote && negb dq then negb sq else sq in
      let dq' := if Ascii.eqb c dquote && negb sq then negb dq else dq in
      (sq' || dq') :: quote_marks sq' dq' s'
  end.

(** The occurrences of [kw] from [from], each search resuming after the last. *)
Fixpoint keyword_positions (fuel : nat) (expr upper kw : string) (in_quote : list bool) (from : nat) : list nat :=
  match fuel with
  | 0 => []
  | S fuel' =>
      match find_str kw (string_drop from upper) with
      | None => []
      | Some pos =>
          let abs := from + pos in
          let before_ok := (abs =? 0)%nat || from_option is_boundary false (char_at expr (abs - 1)) in
          let after := abs + String.length kw in
          let after_ok := (String.length expr <=? after)%nat || from_option is_boundary false (char_at expr after) in
          let more := keyword_positions fuel' expr upper kw in_quote after in
          if before_ok && after_ok && negb (default false (in_quote !! abs)) then abs :: more else more
      end
  end.

Definition position_le (a b : nat * UpdateAction) : Prop := a.1 <= b.1.
#[local] Instance position_le_dec : RelDecision position_le.
Proof. intros a b. unfold position_le. apply _. Defined.

(** Each keyword's text up to the next keyword. *)
Fixpoint clause_texts (expr : string) (positions : list (nat * UpdateAction)) : list (UpdateAction * string) :=
  match positions with
  | [] => []
  | (pos, action) :: more =>
      let e := match more with (next, _) :: _ => next | [] => String.length expr end in
      (action, trim (slice expr (pos + String.length (action_keyword action)) e)) :: clause_texts expr more
  end.

Definition parse_update_clauses (expr : string) : list (UpdateAction * list string) :=
  let upper := to_ascii_uppercase expr in
  let in_quote := quote_marks false false expr in
  let positions := KEYWORDS ≫= fun ka =>
    (fun p => (p, ka.2)) <$> keyword_positions (S (String.length expr)) expr upper ka.1 in_quote 0 in
  (fun c => (c.1, trim <$> split_on_top_level_keyword c.2 ",")) <$> clause_texts expr (merge_sort position_le positions).

(** *** Applying an update *)

Definition starts_with_path (parent path : DocPath) : bool := is_prefix parent path.

Definition shift_one (parent : DocPath) (j : Z) (path : DocPath) : DocPath :=
  if (length parent <? length path)%nat && starts_with_path parent path then
    match path !! length parent with
    | Some (Index k) => if (j <? k)%Z then <[length parent := Index (k - 1)]> path else path
    | _ => path
    end
  else path.

Definition shift_after_list_removal (written : list (nat * DocPath)) (removed : DocPath) : list (nat * DocPath) :=
  match split_last removed with
  | Some (Index j, parent) => (fun w => (w.1, shift_one parent j w.2)) <$> written
  | _ => written
  end.

(** The path a [SET] wrote, with the index an append chose. *)
Definition written_path (path : DocPath) (index : option Z) : DocPath :=
  match index, last path with
  | Some i, Some (Index _) => take (length path - 1) path ++ [Index i]
  | _, _ => path
  end.

(** An item and where its values were written, or the item as far as a failed
    update got. *)
Definition Progress : Type := Item * Result AwsServiceError (list (nat * DocPath)).

Fixpoint apply_sets (item source : Item) (ordinal : nat) (assignments : list string)
  (written : list (nat * DocPath)) : Progress :=
  match assignments with
  | [] => (item, Ok written)
  | a :: more =>
      match apply_set_assignment_from item source a with
      | Err e => (item, Err e)
      | Ok (index, item') =>
          let target := from_option (fun lr => trim lr.1) "" (split_once "=" a) in
          let written' := match parse_document_path target names with
                          | Some path => (written ++ [(ordinal, written_path path index)])%list
                          | None => written
                          end in
          apply_sets item' source (S ordinal) more written'
      end
  end.

Fixpoint apply_removes (item : Item) (refs : list string) (written : list (nat * DocPath)) : Progress :=
  match refs with
  | [] => (item, Ok written)
  | r :: more =>
      let removed := parse_document_path (trim r) names ≫= fun p =>
        match resolve_doc_path item p with Some _ => Some p | None => None end in
      apply_removes (remove_path item (trim r) names) more
        (from_option (shift_after_list_removal written) written removed)
  end.

Fixpoint apply_each (f : Item -> string -> Result AwsServiceError Item) (item : Item)
  (assignments : list string) (written : list (nat * DocPath)) : Progress :=
  match assignments with
  | [] => (item, Ok written)
  | a :: more =>
      match f item a with
      | Err e => (item, Err e)
      | Ok item' => apply_each f item' more written
      end
  end.

Definition apply_clause (item source : Item) (c : UpdateAction * list string) (written : list (nat * DocPath))
  : Progress :=
  match c.1 with
  | USet => apply_sets item source 0 c.2 written
  | URemove => apply_removes item c.2 written
  | UAdd => apply_each apply_add_assignment item c.2 written
  | UDelete => apply_each apply_delete_assignment item c.2 written
  end.

Fixpoint apply_clauses (item source : Item) (clauses : list (UpdateAction * list string))
  (written : list (nat * DocPath)) : Progress :=
  match clauses with
  | [] => (item, Ok written)
  | c :: more =>
      match apply_clause item source c written with
      | (item', Ok written') => apply_clauses item' source more written'
      | (item', Err e) => (item', Err e)
      end
  end.

Definition apply_update_expression_tracked (item : Item) (expr : string) : Progress :=
  let clauses := parse_update_clauses expr in
  match clauses with
  | [] => if is_empty_str (trim expr) then (item, Ok [])
          else (item, Err (validation_error
                 ("Invalid UpdateExpression: Syntax error; token: " +:+ quoted "<expression>")))
  | _ => apply_clauses item item clauses []
  end.

Definition apply_update_expression (item : Item) (expr : string) : Item * Result AwsServiceError unit :=
  let '(item', r) := apply_update_expression_tracked item expr in
  (item', match r with Ok _ => Ok tt | Err e => Err e end).

End Apply.

(** *** Key attributes are not written *)

(** Up to the first whitespace, after leading whitespace. *)
Fixpoint until_space (s : string) : string :=
  match s with
  | String c s' => if is_whitespace c then EmptyString else String c (until_space s')
  | EmptyString => EmptyString
  end.

Definition top_level_attribute (path : string) : string :=
  let path := trim path in
  match path with
  | String c more =>
      if Ascii.eqb c dquote then
        match find_str (String dquote EmptyString) more with
        | Some e => string_take (e + 2) path
        | None => path
        end
      else trim (from_option fst path (split_once_at (fun c => Ascii.eqb c "." || Ascii.eqb c "[") path))
  | EmptyString => EmptyString
  end.

Definition assignment_target (action : UpdateAction) (assignment : string) : option string :=
  match action with
  | USet => fst <$> split_once "=" assignment
  | URemove => Some assignment
  | UAdd | UDelete => Some (until_space (trim_start assignment))
  end.

Definition key_attribute_in_update_expression (t : DynamoTable) (expr : string) (names : gmap string string)
  : option string :=
  let key_attrs := hash_key_name t :: option_list (range_key_name t) in
  head (parse_update_clauses expr ≫= fun c =>
    omap (fun a =>
      target ← assignment_target c.1 a;
      let attr := resolve_attr_name (top_level_attribute target) names in
      if str_in attr key_attrs then Some attr else None) c.2).

(** ** Projections *)

Inductive PathSegment := Key (k : string) | SegIndex (i : Z).

Definition segment_of (e : PathElem) : PathSegment :=
  match e with Attr a => Key a | Index i => SegIndex i end.

Fixpoint wrap_value_in_path (segments : list PathSegment) (value : Value) : Value :=
  match segments with
  | [] => value
  | Key k :: more => VObject [("M", VObject [(k, wrap_value_in_path more value)])]
  | SegIndex i :: more =>
      VObject [("L", VArray (replicate (Z.to_nat i) Null ++ [wrap_value_in_path more value]))]
  end.

Definition is_null (v : Value) : bool := match v with Null => true | _ => false end.

(** Both lists padded with nulls to the longer one; a null gives way. *)
Fixpoint merge_lists (merge : Value -> Value -> Value) (a b : list Value) : list Value :=
  match a, b with
  | [], _ => b
  | _, [] => a
  | x :: a', y :: b' => (if is_null x then y else if is_null y then x else merge x y) :: merge_lists merge a' b'
  end.

(** Bounded by the depth of the first value: each level strips one object. *)
Fixpoint merge_values (fuel : nat) (a b : Value) : Value :=
  match fuel with
  | 0 => b
  | S fuel' =>
      match get_object "M" a, get_object "M" b with
      | Some am, Some bm =>
          VObject [("M", VObject (foldl (fun merged kv =>
            match assoc kv.1 merged with
            | Some e => obj_insert kv.1 (merge_values fuel' e kv.2) merged
            | None => obj_insert kv.1 kv.2 merged
            end) am bm))]
      | _, _ =>
          match get_array "L" a, get_array "L" b with
          | Some al, Some bl => VObject [("L", VArray (merge_lists (merge_values fuel') al bl))]
          | _, _ => b
          end
      end
  end.

(** The nesting of a JSON value. *)
Fixpoint value_height (v : Value) : nat :=
  match v with
  | VObject m => S ((fix go (m : list (string * Value)) : nat :=
      match m with [] => 0 | (_, x) :: m' => Nat.max (value_height x) (go m') end) m)
  | VArray l => S ((fix go (l : list Value) : nat :=
      match l with [] => 0 | x :: l' => Nat.max (value_height x) (go l') end) l)
  | _ => 0
  end.

Definition merge_attribute_values (a b : Value) : Value :=
  merge_values (S (Nat.max (value_height a) (value_height b))) a b.

Definition insert_nested_value_segments (result : Item) (segments : list PathSegment) (value : Value) : Item :=
  match segments with
  | [Key top] => <[top := value]> result
  | Key top :: more =>
      let wrapped := wrap_value_in_path more value in
      <[top := match result !! top with
               | Some existing => merge_attribute_values existing wrapped
               | None => wrapped
               end]> result
  | _ => result
  end.

Definition project_doc_path_into (result item : Item) (path : DocPath) : Item :=
  match resolve_doc_path item path with
  | None => result
  | Some v => insert_nested_value_segments result (segment_of <$> path) v
  end.

(** The null padding of projected lists is dropped; every level strips one
    object. *)
Fixpoint compact_lists (fuel : nat) (v : Value) : Value :=
  match fuel with
  | 0 => v
  | S fuel' =>
      match get_array "L" v with
      | Some l => set_member "L" (VArray (compact_lists fuel' <$> List.filter (fun e => negb (is_null e)) l)) v
      | None =>
          match get_object "M" v with
          | Some m => set_member "M" (VObject ((fun kv => (kv.1, compact_lists fuel' kv.2)) <$> m)) v
          | None => v
          end
      end
  end.

Definition compact_projected_lists (v : Value) : Value := compact_lists (S (value_height v)) v.

Definition project_with_expression (item : Item) (proj : string) (names : gmap string string) : Item :=
  let paths := match parse_projection_expression proj (new_context names ∅ false) with
               | Ok (l, _) => l
               | Err _ => []
               end in
  foldl (fun r p => project_doc_path_into r item p) ∅ paths.

(** The deprecated list of attribute names. *)
Definition project_attributes (item : Item) (attrs : list Value) : Item :=
  foldl (fun r raw => project_doc_path_into r item (default [Attr raw] (parse_document_path raw ∅))) ∅
    (omap as_str attrs).

Definition project_item (item : Item) (body : Value) : Item :=
  match (match as_str (index body "ProjectionExpression") with
         | Some proj => if is_empty_str proj then None else Some proj
         | None => None
         end) with
  | Some proj =>
      compact_projected_lists <$> project_with_expression item proj (parse_expression_attribute_names body)
  | None =>
      match as_array (index body "AttributesToGet") with
      | Some (a :: attrs) => compact_projected_lists <$> project_attributes item (a :: attrs)
      | _ => item
      end
  end.
