(* ===== verification/DdbUpdateTheory.v ===== *)
(** * DynamoDB updates: what a write does to a document

    Reading back after a write, the frame (paths that do not overlap the
    written one are unchanged), the simultaneous meaning of a [SET] clause and
    the set algebra of [ADD] and [DELETE]. *)

From Stdlib Require Import ZArith Lia Bool String Ascii.
From stdpp Require Import base option list strings gmap sets.
From S2P Require Import Prelude Json BTree Text Sqs DdbNumber DdbValue DdbReserved DdbExpr DdbExprTheory DdbTable DdbUpdate.
Import Sqs(AwsServiceError, AwsError, aws_error).

Local Open Scope string_scope.
Local Open Scope list_scope.

(** ** Objects *)

Lemma assoc_insert {A} k k' (v : A) m : assoc k (obj_insert k' v m) = if String.eqb k k' then Some v else assoc k m.
Proof.
  induction m as [|[j x] m IH]; simpl.
  - rewrite String.eqb_sym. by destruct (String.eqb k k').
  - destruct (String.eqb_spec k' j) as [->|Hne]; simpl.
    + destruct (String.eqb_spec k j) as [->|]; [by rewrite String.eqb_refl|].
      destruct (String.eqb_spec j k); [congruence|done].
    + destruct (String.eqb_spec j k) as [->|].
      * destruct (String.eqb_spec k k'); [congruence|done].
      * exact IH.
Qed.

Lemma get_set_member tag tag' x v m : v = VObject m ->
  get tag' (set_member tag x v) = if String.eqb tag' tag then Some x else get tag' v.
Proof. intros ->. apply assoc_insert. Qed.

Lemma get_object_inv tag v m : get_object tag v = Some m -> exists o, v = VObject o /\ get tag v = Some (VObject m).
Proof.
  unfold get_object. destruct v as [| | | | |o]; simpl; try done. intros H. exists o. split; [done|].
  apply bind_Some in H as (x & E & Hx). rewrite E. destruct x; try done. by injection Hx as ->.
Qed.

Lemma get_array_inv tag v l : get_array tag v = Some l -> exists o, v = VObject o /\ get tag v = Some (VArray l).
Proof.
  unfold get_array. destruct v as [| | | | |o]; simpl; try done. intros H. exists o. split; [done|].
  apply bind_Some in H as (x & E & Hx). rewrite E. destruct x; try done. by injection Hx as ->.
Qed.

(** ** Reading *)

Fixpoint read_at (p : DocPath) (v : Value) : option Value :=
  match p with
  | [] => Some v
  | e :: p' => step_into v e ≫= read_at p'
  end.

Lemma read_at_app p q v : read_at (p ++ q) v = read_at p v ≫= read_at q.
Proof.
  revert v. induction p as [|e p IH]; intros v; simpl; [done|].
  destruct (step_into v e); simpl; [apply IH|done].
Qed.

Lemma fold_read p o : foldl (fun cur e => cur ≫= fun v => step_into v e) o p = o ≫= read_at p.
Proof.
  revert o. induction p as [|e p IH]; intros [v|]; simpl; done.
Qed.

Lemma resolve_read item top p : resolve_doc_path item (Attr top :: p) = item !! top ≫= read_at p.
Proof. unfold resolve_doc_path. destruct (item !! top); simpl; [by rewrite fold_read|done]. Qed.

(** Indices are those of a [usize]. *)
Definition wf_elem (e : PathElem) : Prop := match e with Index i => (0 <= i)%Z | Attr _ => True end.
Notation wf_path := (Forall wf_elem).

(** A step through a map and one through a list never meet. *)
Lemma step_set_M k x m v o e : v = VObject o -> get_object "M" v = Some m ->
  step_into (set_member "M" (VObject (obj_insert k x m)) v) e
  = if decide (e = Attr k) then Some x else step_into v e.
Proof.
  intros Hv Hm. pose proof (get_object_inv _ _ _ Hm) as (o' & _ & Hg). destruct e as [a|i]; simpl.
  - rewrite (get_set_member _ _ _ _ _ Hv), String.eqb_refl, Hg. cbn [mbind option_bind]. unfold get, as_object. cbn [mbind option_bind]. rewrite assoc_insert.
    destruct (String.eqb_spec a k) as [->|Hne]; [by rewrite decide_True|].
    rewrite decide_False by congruence. done.
  - unfold get_array. rewrite (get_set_member _ _ _ _ _ Hv). done.
Qed.

Lemma nth_value_lookup l i : (0 <= i)%Z -> nth_value l i = l !! Z.to_nat i.
Proof.
  intros Hi. unfold nth_value. destruct (Z.ltb_spec i (Z.of_nat (length l))) as [|Hge]; [done|].
  symmetry. apply lookup_ge_None. lia.
Qed.

Lemma step_set_L l' l v o e : v = VObject o -> get_array "L" v = Some l ->
  step_into (set_member "L" (VArray l') v) e
  = match e with Index i => nth_value l' i | Attr _ => step_into v e end.
Proof.
  intros Hv Hl. destruct e as [a|i]; simpl.
  - by rewrite (get_set_member _ _ _ _ _ Hv).
  - unfold get_array. by rewrite (get_set_member _ _ _ _ _ Hv).
Qed.

Lemma nth_list_set l i j x : (0 <= i)%Z -> (0 <= j)%Z -> (i < Z.of_nat (length l))%Z ->
  nth_value (list_set l i x) j = if decide (j = i) then Some x else nth_value l j.
Proof.
  intros Hi Hj Hlen. rewrite !nth_value_lookup by done. unfold list_set. destruct (decide (j = i)) as [->|Hne].
  - apply list_lookup_insert_eq. lia.
  - apply list_lookup_insert_ne. intros E. apply Hne. lia.
Qed.

(** ** Rewriting below a path *)

(** What [modify_at] computes: the value at [p] goes through [f]; reads through
    [p] see the new value, reads off [p] the old ones. *)
Lemma modify_at_spec {A} p (f : Value -> option (A * Value)) cur a cur' : wf_path p ->
  modify_at p f cur = Some (a, cur') ->
  exists x x', read_at p cur = Some x /\ f x = Some (a, x') /\ (forall q, read_at (p ++ q) cur' = read_at q x')
    /\ forall q, wf_path q -> independent p q -> read_at q cur' = read_at q cur.
Proof.
  intros Hw. revert cur cur'. induction Hw as [|e p He Hp IH]; intros cur cur' Hm.
  - simpl in Hm. exists cur, cur'. split; [done|]. split; [done|]. split; [done|].
    intros q _ [Hn _]. destruct Hn. apply prefix_nil.
  - assert (Hstep : exists y y', step_into cur e = Some y /\ modify_at p f y = Some (a, y')
      /\ forall e', wf_elem e' -> step_into cur' e' = if decide (e' = e) then Some y' else step_into cur e').
    { destruct e as [k|i]; cbn [modify_at] in Hm.
      - apply bind_Some in Hm as (m & Hm & Hrest). apply bind_Some in Hrest as (y & Hy & Hrest).
        apply bind_Some in Hrest as ([a' y'] & Hy' & [= -> <-]).
        destruct (get_object_inv _ _ _ Hm) as (o & Ho & Hg).
        exists y, y'. split; [simpl; by rewrite Hg|]. split; [done|].
        intros e' _. by rewrite (step_set_M _ _ _ _ o).
      - apply bind_Some in Hm as (l & Hl & Hrest). apply bind_Some in Hrest as (y & Hy & Hrest).
        apply bind_Some in Hrest as ([a' y'] & Hy' & [= -> <-]).
        destruct (get_array_inv _ _ _ Hl) as (o & Ho & Hg).
        exists y, y'. split; [simpl; by rewrite Hl|]. split; [done|]. intros e' He'.
        rewrite (step_set_L _ l _ o) by done. destruct e' as [k|j]; [by rewrite decide_False by done|].
        simpl in *. rewrite nth_list_set; [|done|done|].
        + rewrite Hl. simpl. destruct (decide (j = i)) as [->|]; [by rewrite decide_True|by rewrite decide_False by congruence].
        + unfold nth_value in Hy. by destruct (Z.ltb_spec i (Z.of_nat (length l))). }
    destruct Hstep as (y & y' & Hy & Hmy & Hs). destruct (IH _ _ Hmy) as (x & x' & Hr & Hf & Hthrough & Hoff).
    exists x, x'. split; [simpl; by rewrite Hy|]. split; [done|]. split.
    + intros q. simpl. rewrite Hs, decide_True by done. simpl. apply Hthrough.
    + intros q Hq [Hn1 Hn2]. destruct q as [|e' q]; [destruct Hn2; apply prefix_nil|].
      apply Forall_cons in Hq as [He' Hq]. simpl. rewrite Hs by done.
      destruct (decide (e' = e)) as [->|]; [|done]. rewrite Hy. simpl. apply Hoff; [done|].
      split; intros Hpre; [apply Hn1|apply Hn2]; by apply prefix_cons.
Qed.


(** ** Assignments *)

Lemma split_last_snoc {A} (l : list A) : split_last l = match split_last l with None => None | x => x end
  /\ (split_last l = None -> l = []) /\ forall x m, split_last l = Some (x, m) -> l = m ++ [x].
Proof.
  unfold split_last. destruct l as [|y l _] using rev_ind; [done|].
  rewrite last_snoc. simpl. split; [done|]. split; [done|]. intros x m [= <- <-].
  rewrite length_app. simpl. replace (length l + 1 - 1) with (length l) by lia. by rewrite take_app_length.
Qed.

Lemma independent_app p q r : independent (p ++ q) (p ++ r) -> independent q r.
Proof. intros [H1 H2]. split; intros H; [apply H1|apply H2]; by apply prefix_app. Qed.

(** What writing the last step does to its container. *)
Lemma assign_leaf_spec leaf value cur i cur' : wf_elem leaf -> assign_leaf leaf value cur = Some (i, cur') ->
  let leaf' := match i, leaf with Some j, Index _ => Index j | _, _ => leaf end in
  forall e, wf_elem e -> step_into cur' e = if decide (e = leaf') then Some value else step_into cur e.
Proof.
  intros Hw Hl. destruct leaf as [k|n]; cbn [assign_leaf] in Hl.
  - apply bind_Some in Hl as (m & Hm & [= <- <-]). destruct (get_object_inv _ _ _ Hm) as (o & Ho & _).
    simpl. intros e _. by rewrite (step_set_M _ _ _ _ o).
  - apply bind_Some in Hl as (l & Hl & Hrest). destruct (get_array_inv _ _ _ Hl) as (o & Ho & _).
    destruct (Z.ltb_spec n (Z.of_nat (length l))) as [Hlt|Hge]; injection Hrest as <- <-; simpl; intros e He;
      rewrite (step_set_L _ l _ o) by done; (destruct e as [k|j]; [by rewrite decide_False by done|]); simpl in He |- *;
      rewrite Hl; simpl.
    + rewrite nth_list_set by done. destruct (decide (j = n)) as [->|]; [by rewrite decide_True|].
      by rewrite decide_False by congruence.
    + rewrite !nth_value_lookup by done. destruct (decide (Index j = _)) as [[= ->]|Hne].
      * rewrite Nat2Z.id, lookup_app_r by lia. by rewrite Nat.sub_diag.
      * destruct (decide (Z.to_nat j < length l)) as [Hlt|Hnlt]; [by rewrite lookup_app_l|].
        rewrite (lookup_ge_None_2 l) by lia. apply lookup_ge_None_2. rewrite length_app. simpl.
        assert (j <> Z.of_nat (length l)) by congruence. lia.
Qed.

Lemma written_path_app p leaf i :
  written_path (p ++ [leaf]) i = p ++ [match i, leaf with Some j, Index _ => Index j | _, _ => leaf end].
Proof.
  unfold written_path. rewrite last_snoc. destruct i as [j|]; [|done]. destruct leaf; [done|].
  rewrite length_app. simpl. replace (length p + 1 - 1) with (length p) by lia. by rewrite take_app_length.
Qed.

Lemma written_path_wf p i : wf_path p -> (forall j, i = Some j -> (0 <= j)%Z) -> wf_path (written_path p i).
Proof.
  intros Hp Hi. unfold written_path. destruct i as [j|]; [|done]. destruct (last p) as [[]|]; try done.
  apply Forall_app. split; [by apply Forall_take|]. constructor; [by apply Hi|constructor].
Qed.

Lemma assign_reads item path value i item' : wf_path path -> assign_doc_path item path value = Ok (i, item') ->
  resolve_doc_path item' (written_path path i) = Some value
  /\ forall q, wf_path q -> independent (written_path path i) q -> resolve_doc_path item' q = resolve_doc_path item q.
Proof.
  intros Hw Ha. destruct path as [|[top|n] more]; [done| |done]. cbn [assign_doc_path] in Ha.
  apply Forall_cons in Hw as [_ Hw]. destruct (split_last_snoc more) as (_ & Hnil & Hsnoc).
  assert (Hoff : forall x q, independent (Attr top :: x) q -> forall item1 item2 : Item,
    (forall a, a <> top -> item1 !! a = item2 !! a) ->
    (forall r, q = Attr top :: r -> independent x r -> resolve_doc_path item1 q = resolve_doc_path item2 q) ->
    resolve_doc_path item1 q = resolve_doc_path item2 q).
  { intros x q Hind item1 item2 Hother Hsame. destruct q as [|[a|n] q]; [done| |done].
    destruct (decide (a = top)) as [->|Hne].
    - apply (Hsame q); [done|]. apply (independent_app [Attr top]). exact Hind.
    - rewrite !resolve_read. by rewrite Hother. }
  destruct (split_last more) as [[leaf middle]|].
  - specialize (Hsnoc _ _ eq_refl). subst more. apply Forall_app in Hw as [Hm Hleaf]. apply Forall_cons in Hleaf as [Hleaf _].
    apply ok_or_Ok in Ha. apply bind_Some in Ha as (cur & Hcur & Ha).
    apply bind_Some in Ha as ([i' cur'] & Hmod & [= -> <-]).
    destruct (modify_at_spec _ _ _ _ _ Hm Hmod) as (x & x' & Hr & Hf & Hthrough & Hfr).
    pose proof (assign_leaf_spec _ _ _ _ _ Hleaf Hf) as Hstep. cbv zeta in Hstep.
    change (Attr top :: middle ++ [leaf]) with ((Attr top :: middle) ++ [leaf]). rewrite written_path_app.
    set (leaf' := match i, leaf with Some j, Index _ => Index j | _, _ => leaf end) in *.
    assert (Hwl : wf_elem leaf').
    { unfold leaf'. destruct i as [j|], leaf as [k|n]; try done. simpl in *.
      apply bind_Some in Hf as (l & _ & Hf). destruct (Z.ltb_spec n (Z.of_nat (length l))); injection Hf as <- _; lia. }
    split.
    + simpl. rewrite lookup_insert_eq. simpl. rewrite fold_read. simpl. rewrite Hthrough. simpl.
      rewrite Hstep, decide_True by done. done.
    + intros q Hq Hind. change ((Attr top :: middle) ++ [leaf']) with (Attr top :: (middle ++ [leaf'])) in Hind.
      eapply Hoff; [exact Hind|intros a Hne; by rewrite lookup_insert_ne by done|].
      intros r -> Hr'. apply Forall_cons in Hq as [_ Hq]. rewrite !resolve_read, lookup_insert_eq, Hcur. simpl.
      destruct (decide (middle `prefix_of` r)) as [[s ->]|Hnp].
      * apply independent_app in Hr'. rewrite Hthrough, read_at_app, Hr. simpl.
        apply Forall_app in Hq as [_ Hq]. destruct s as [|e s]; [destruct Hr' as [_ Hn]; destruct Hn; apply prefix_nil|].
        apply Forall_cons in Hq as [He Hq]. simpl. rewrite Hstep by done. destruct (decide (e = leaf')) as [->|]; [|done].
        destruct Hr' as [Hn _]. destruct Hn. apply prefix_cons, prefix_nil.
      * apply Hfr; [done|]. split; [done|]. intros Hpr. destruct Hr' as [_ Hn]. apply Hn. by apply prefix_app_r.
  - rewrite (Hnil eq_refl). injection Ha as <- <-. split.
    + simpl. by rewrite lookup_insert_eq.
    + intros q Hq Hind. eapply Hoff; [exact Hind|intros a Hne; by rewrite lookup_insert_ne by done|].
      intros r -> [Hn _]. destruct Hn. apply prefix_nil.
Qed.

(** ** Parsed paths *)

Lemma parse_u64_nonneg d i : parse_u64 d = Some i -> (0 <= i)%Z.
Proof.
  unfold parse_u64, parse_unsigned, in_range. intros H. repeat case_match; simplify_eq; try done;
    apply bind_Some in H as (z & _ & H); repeat case_match; simplify_eq; lia.
Qed.

Lemma GPath_wf names strict l p : GPath names strict l p -> wf_path p.
Proof.
  intros [w n l' p' Hn Hs]. constructor; [done|].
  induction Hs as [|l1 l2 e q H1 H2 IH]; constructor; [|done].
  destruct H1 as [|a d i b Hd]; [done|]. by eapply parse_u64_nonneg.
Qed.

Lemma parse_document_path_wf src names p : parse_document_path src names = Some p -> wf_path p.
Proof.
  unfold parse_document_path. set (s := mkPState None (lex src true) ∅ ∅).
  assert (W : wf s) by (apply (initial_wf src (new_context names ∅ false))).
  pose proof (path_outcome src Update names false s W) as O.
  destruct path as [[q s']|]; [|done]. case_bool_decide; [|done]. intros [= <-].
  destruct O as (l & _ & Hg). by eapply GPath_wf.
Qed.

(** ** SET clauses *)

Section Sets.
Context `{Base64Decode} (names : gmap string string) (values : gmap string Value).

(** The target and value of an assignment; the value is read from [source]. *)
Definition set_action (source : Item) (assignment : string) : Result AwsServiceError (option (string * Value)) :=
  match split_once "=" assignment with
  | None => Ok None
  | Some (lhs, rhs) =>
      v ← evaluate_set_rhs names values (trim rhs) source;
      Ok (match v with Some v => Some (trim lhs, v) | None => None end)
  end.

(** A run of assignments and what each wrote. *)
Inductive set_run (source : Item) : Item -> list string -> Item -> list (DocPath * Value) -> Prop :=
| run_nil item : set_run source item [] item []
| run_skip item a more item' ws :
    set_action source a = Ok None -> set_run source item more item' ws -> set_run source item (a :: more) item' ws
| run_write item a more target p v i item1 item' ws :
    set_action source a = Ok (Some (target, v)) -> parse_document_path target names = Some p ->
    assign_doc_path item p v = Ok (i, item1) -> set_run source item1 more item' ws ->
    set_run source item (a :: more) item' ((written_path p i, v) :: ws).

Lemma apply_sets_run source item n more w item' w' :
  apply_sets names values item source n more w = (item', Ok w') -> exists ws, set_run source item more item' ws.
Proof.
  revert item n w. induction more as [|a more IH]; intros item n w; cbn [apply_sets].
  { intros [= <- _]. exists []. constructor. }
  unfold apply_set_assignment_from. destruct (split_once "=" a) as [[lhs rhs]|] eqn:Es.
  2: { intros Hr. apply IH in Hr as [ws Hr]. exists ws. apply run_skip; [|done]. unfold set_action. by rewrite Es. }
  destruct (evaluate_set_rhs names values (trim rhs) source) as [[v|]|e] eqn:Ev; simpl; [| |done].
  - unfold assign_nested_path. destruct (parse_document_path (trim lhs) names) as [p|] eqn:Ep; simpl; [|done].
    destruct (assign_doc_path item p v) as [[i item1]|e] eqn:Ea; [|done]. intros Hr. apply IH in Hr as [ws Hr].
    exists ((written_path p i, v) :: ws). eapply run_write; [|exact Ep|exact Ea|exact Hr].
    unfold set_action. rewrite Es, Ev. done.
  - intros Hr. apply IH in Hr as [ws Hr]. exists ws. apply run_skip; [|done]. unfold set_action. by rewrite Es, Ev.
Qed.

Lemma assign_index_nonneg item p v i item' : wf_path p -> assign_doc_path item p v = Ok (i, item') ->
  forall j, i = Some j -> (0 <= j)%Z.
Proof.
  intros Hw Ha j ->. destruct p as [|[top|n] more]; [done| |done]. cbn [assign_doc_path] in Ha.
  apply Forall_cons in Hw as [_ Hw]. destruct (split_last_snoc more) as (_ & _ & Hsnoc).
  destruct (split_last more) as [[leaf middle]|]; [|done].
  rewrite (Hsnoc _ _ eq_refl) in Hw. apply Forall_app in Hw as [Hm Hleaf]. apply Forall_cons in Hleaf as [Hleaf _].
  apply ok_or_Ok, bind_Some in Ha as (cur & _ & Ha). apply bind_Some in Ha as ([i' cur'] & Hmod & [= -> _]).
  destruct (modify_at_spec _ _ _ _ _ Hm Hmod) as (x & x' & _ & Hf & _ & _).
  destruct leaf as [k|n]; cbn [assign_leaf] in Hf; apply bind_Some in Hf as (l & _ & Hf); [done|].
  simpl in Hleaf. destruct (n <? Z.of_nat (length l))%Z; injection Hf as <- _; lia.
Qed.

Lemma independent_sym p q : independent p q -> independent q p.
Proof. intros [H1 H2]. by split. Qed.

Lemma set_run_reads source item more item' ws : set_run source item more item' ws ->
  Forall (fun pv => wf_path pv.1) ws
  /\ (ForallOrdPairs independent ws.*1 -> forall p v, (p, v) ∈ ws -> resolve_doc_path item' p = Some v)
  /\ forall q, wf_path q -> Forall (fun p => independent p q) ws.*1 -> resolve_doc_path item' q = resolve_doc_path item q.
Proof.
  induction 1 as [item|item a more item' ws Hs Hr IH|item a more target p v i item1 item' ws Hs Hp Ha Hr IH].
  - split; [constructor|]. split; [intros _ p v Hin; by apply not_elem_of_nil in Hin|done].
  - exact IH.
  - destruct IH as (Hwf & Hread & Hframe). apply parse_document_path_wf in Hp.
    destruct (assign_reads _ _ _ _ _ Hp Ha) as [Hback Hfr].
    assert (Hw : wf_path (written_path p i)).
    { apply written_path_wf; [done|]. by eapply assign_index_nonneg. }
    split; [by constructor|]. split.
    + intros Hpairs q u Hin. cbn [fmap list_fmap] in Hpairs. inversion Hpairs as [|? ? Hfirst Hrest]; subst.
      apply elem_of_cons in Hin as [[= -> ->]|Hin]; [|by apply Hread].
      rewrite Hframe; [done|done|]. eapply Forall_impl; [exact Hfirst|]. intros r. apply independent_sym.
    + intros q Hq Hall. cbn [fmap list_fmap] in Hall. apply Forall_cons in Hall as [H1 H2].
      rewrite Hframe by done. by apply Hfr.
Qed.

(** C30 (functional): a [SET] clause is simultaneous: every right-hand side is read from the
    item before the update, and when the written paths do not overlap each
    target reads back its value and no other path changes. *)
Theorem set_clause_simultaneous source item more item' written :
  apply_sets names values item source 0 more [] = (item', Ok written) ->
  exists ws, set_run source item more item' ws
    /\ (ForallOrdPairs independent ws.*1 -> forall p v, (p, v) ∈ ws -> resolve_doc_path item' p = Some v)
    /\ forall q, wf_path q -> Forall (fun p => independent p q) ws.*1 ->
         resolve_doc_path item' q = resolve_doc_path item q.
Proof.
  intros Hs. destruct (apply_sets_run _ _ _ _ _ _ _ Hs) as [ws Hr]. exists ws. split; [done|].
  by destruct (set_run_reads _ _ _ _ _ Hr) as (_ & H1 & H2).
Qed.

(** ** Set attributes *)

Definition distinct (t : string) (l : list Value) : Prop :=
  ForallOrdPairs (fun x y => same_member t x y = false) l.

Lemma ordpairs_snoc {A} (R : A -> A -> Prop) l x : ForallOrdPairs R l -> Forall (fun y => R y x) l ->
  ForallOrdPairs R (l ++ [x]).
Proof.
  induction 1 as [|y l Hy Hl IH]; simpl; intros F; [by repeat constructor|].
  apply Forall_cons in F as [Fy F]. constructor; [|by apply IH]. apply Forall_app. split; [done|by constructor].
Qed.

(** The union keeps every member in place, holds every added one, adds nothing
    else and keeps members distinct. *)
Lemma union_members_spec t existing add : let u := union_members t existing add in
  existing `prefix_of` u
  /\ (forall v, v ∈ add -> exists m, m ∈ u /\ (m = v \/ same_member t m v = true))
  /\ (forall m, m ∈ u -> m ∈ existing \/ m ∈ add)
  /\ (distinct t existing -> distinct t u).
Proof.
  unfold union_members. revert existing. induction add as [|v add IH]; intros existing; cbn [foldl].
  { split; [done|]. split; [intros v Hv; by apply not_elem_of_nil in Hv|]. split; [by left|done]. }
  set (e' := if existsb (fun m => same_member t m v) existing then existing else existing ++ [v]).
  destruct (IH e') as (Hpre & Hin & Hfrom & Hd).
  assert (He : existing `prefix_of` e').
  { unfold e'. destruct existsb; [done|]. by exists [v]. }
  assert (Hu : forall m, m ∈ e' -> m ∈ foldl (fun merged v => if existsb (fun m => same_member t m v) merged then merged
                         else (merged ++ [v])%list) e' add).
  { intros m Hm. destruct Hpre as [k ->]. by apply elem_of_app; left. }
  split; [by etrans|]. split; [|split].
  - intros x [->|Hx]%elem_of_cons; [|by apply Hin].
    destruct (existsb (fun m => same_member t m v) existing) eqn:Ex.
    + assert (Ee : e' = existing) by (unfold e'; by rewrite ?Ex).
      apply existsb_exists in Ex as (m & Hm & Es). exists m. split; [|by right]. apply Hu. rewrite Ee.
      by apply list_elem_of_In.
    + assert (Ee : e' = existing ++ [v]) by (unfold e'; by rewrite ?Ex).
      exists v. split; [|by left]. apply Hu. rewrite Ee. apply elem_of_app. right. left.
  - intros m Hm. destruct (Hfrom m Hm) as [Hm'|Hm']; [|right; by right].
    unfold e' in Hm'. destruct existsb; [by left|]. apply elem_of_app in Hm' as [|Hm']; [by left|].
    apply list_elem_of_singleton in Hm' as ->. right. left.
  - intros Hde. apply Hd. unfold e'. destruct (existsb (fun m => same_member t m v) existing) eqn:Ex; [done|].
    apply ordpairs_snoc; [done|]. apply Forall_forall. intros m Hm. destruct (same_member t m v) eqn:Es; [|done].
    rewrite (proj2 (existsb_exists _ _)) in Ex; [done|]. exists m. split; [by apply list_elem_of_In|done].
Qed.

End Sets.

(** ** Worked inputs *)

Module UpdateExamples.
Import Examples.
#[local] Existing Instance no_base64.

Definition lst (l : list Value) : Value := VObject [("L", VArray l)].
Definition tab : string := String "009" EmptyString.

(** The item after an update, or [None] when it is rejected. *)
Definition updated (item : list (string * Value)) (expr : string) (names : list (string * string))
  (values : list (string * Value)) : option (list (string * Value)) :=
  match apply_update_expression (list_to_map names) (list_to_map values) (list_to_map item) expr with
  | (i, Ok _) => Some (BTree.iter i)
  | (_, Err _) => None
  end.

(** Whether the request passes the expression checks. *)
Definition accepted (expr : string) (names : list (string * Value)) (values : list (string * Value)) : bool :=
  is_ok (validate_request_expressions (fun _ => "")
    (VObject (("UpdateExpression", VString expr)
       :: (match names with [] => [] | _ => [("ExpressionAttributeNames", VObject names)] end)
       ++ (match values with [] => [] | _ => [("ExpressionAttributeValues", VObject values)] end))) OpUpdateItem).

Example set_and_counters :
  (updated [("c", num "5"); ("m", VObject [("M", VObject [("x", str "a")])])]
     "SET c = c + :i, m.x = :s, #n = if_not_exists(c0, :i) REMOVE gone ADD t :ss" [("#n", "new")]
     [(":i", num "1.50"); (":s", str "b"); (":ss", VObject [("SS", VArray [VString "k"])])])
  = Some [("c", num "6.5"); ("m", VObject [("M", VObject [("x", str "b")])]); ("new", num "1.50");
          ("t", VObject [("SS", VArray [VString "k"])])].
Proof. vm_compute. reflexivity. Qed.

(** Two [REMOVE] actions on one list are applied one after the other, so the
    second index refers to the list after the first removal. *)
Example removes_are_sequential :
  accepted "REMOVE l[1], l[2]" [] [] = true
  /\ updated [("l", lst [str "a"; str "b"; str "c"; str "d"])] "REMOVE l[1], l[2]" [] []
     = Some [("l", lst [str "a"; str "c"])].
Proof. split; vm_compute; reflexivity. Qed.

(** An index past the end appends at once, so a later index can overwrite it. *)
Example appends_are_sequential :
  accepted "SET l[5] = :a, l[1] = :b" [] [(":a", str "A"); (":b", str "B")] = true
  /\ updated [("l", lst [str "x"])] "SET l[5] = :a, l[1] = :b" [] [(":a", str "A"); (":b", str "B")]
     = Some [("l", lst [str "x"; str "B"])].
Proof. split; vm_compute; reflexivity. Qed.

(** A nested target of [ADD] is validated as a path and written as one
    top-level name. *)
Example add_nested_path :
  accepted "ADD m.n :i" [] [(":i", num "1")] = true
  /\ updated [("m", VObject [("M", VObject [("n", num "1")])])] "ADD m.n :i" [] [(":i", num "1")]
     = Some [("m", VObject [("M", VObject [("n", num "1")])]); ("m.n", num "1")].
Proof. split; vm_compute; reflexivity. Qed.

(** A tab between an [ADD] target and its operand makes the action do nothing. *)
Example add_after_tab :
  accepted ("ADD c" +:+ tab +:+ ":i") [] [(":i", num "1")] = true
  /\ updated [("c", num "5")] ("ADD c" +:+ tab +:+ ":i") [] [(":i", num "1")] = Some [("c", num "5")].
Proof. split; vm_compute; reflexivity. Qed.

(** A keyword not followed by a blank is valid for the parser only. *)
Example keyword_without_blank :
  accepted "SET#a = :v" [("#a", VString "a")] [(":v", num "1")] = true
  /\ updated [] "SET#a = :v" [("#a", "a")] [(":v", num "1")] = None.
Proof. split; vm_compute; reflexivity. Qed.

(** [if_not_exists] of another attribute is a no-op when that one exists. *)
Example if_not_exists_of_another :
  accepted "SET b = if_not_exists(a, :v)" [] [(":v", num "0")] = true
  /\ updated [("a", num "7")] "SET b = if_not_exists(a, :v)" [] [(":v", num "0")] = Some [("a", num "7")].
Proof. split; vm_compute; reflexivity. Qed.

(** Nested functions are accepted and lose their inner value. *)
Example nested_functions :
  (accepted "SET a = if_not_exists(b, if_not_exists(c, :v))" [] [(":v", num "0")],
   updated [] "SET a = if_not_exists(b, if_not_exists(c, :v))" [] [(":v", num "0")],
   accepted "SET l = list_append(list_append(l, :x), :y)" [] [(":x", lst [str "x"]); (":y", lst [str "y"])],
   updated [("l", lst [str "w"])] "SET l = list_append(list_append(l, :x), :y)" []
     [(":x", lst [str "x"]); (":y", lst [str "y"])])
  = (true, Some [], true, Some [("l", lst [str "y"])]).
Proof. vm_compute. reflexivity. Qed.

(** A parenthesised sum as an operand is accepted and then rejected. *)
Example nested_arithmetic :
  accepted "SET a = (b + :v) + :v" [] [(":v", num "1")] = true
  /\ updated [("b", num "1")] "SET a = (b + :v) + :v" [] [(":v", num "1")] = None.
Proof. split; vm_compute; reflexivity. Qed.

Lemma set_clause_simultaneous_witness :
  exists item', apply_sets ∅ {[ ":v" := num "9" ]} (list_to_map [("a", num "1"); ("b", num "2")])
      (list_to_map [("a", num "1"); ("b", num "2")]) 0 ["a = b"; "b = a"; "c = :v"] []
    = (item', Ok [(0, [Attr "a"]); (1, [Attr "b"]); (2, [Attr "c"])])
  /\ resolve_doc_path item' [Attr "a"] = Some (num "2").
Proof.
  destruct (apply_sets ∅ {[ ":v" := num "9" ]} (list_to_map [("a", num "1"); ("b", num "2")])
      (list_to_map [("a", num "1"); ("b", num "2")]) 0 ["a = b"; "b = a"; "c = :v"] []) as [item' r] eqn:E.
  exists item'. assert (r = Ok [(0, [Attr "a"]); (1, [Attr "b"]); (2, [Attr "c"])]) as ->.
  { vm_compute in E. by injection E as _ <-. }
  split; [done|]. pose proof (set_clause_simultaneous _ _ _ _ _ _ _ E) as (ws & _ & _ & Hf).
  vm_compute in E. injection E as <-. vm_compute. reflexivity.
Defined.

End UpdateExamples.
