(* ===== verification/DdbLex.v ===== *)
(** * The words of an expression

    The lexer of [DdbExpr] keeps positions, for its error messages.  Here its
    result is read as a list of lexemes that depends on the text alone and is
    built from left to right, which is what theorems about texts that are put
    together, and texts that are taken apart, need. *)

From Stdlib Require Import ZArith Lia Bool String Ascii.
From stdpp Require Import base option list strings gmap.
From S2P Require Import Prelude BTree Text DdbExpr DdbExprTheory.

Local Open Scope string_scope.
Local Open Scope list_scope.

Section Lex.
Context (q : bool).

Fixpoint cut (fuel : nat) (s : string) : list Lexeme :=
  match fuel, s with
  | S fuel', String c s' =>
      if is_ascii_whitespace c then cut fuel' s'
      else let '(t, n) := lex_token q c s' in (t, string_take n s) :: cut fuel' (string_drop n s)
  | _, _ => []
  end.

Lemma word_len_le s : word_len s <= String.length s.
Proof. induction s as [|c s IH]; simpl; [lia|]. destruct is_word_byte; lia. Qed.

Lemma find_str_le x s n : find_str x s = Some n -> n + String.length x <= String.length s.
Proof.
  unfold find_str. destruct (split_at_needle x s) as [[a b]|] eqn:E; [|done]. intros [= <-].
  apply split_at_needle_Some in E. subst s. rewrite !string_length_app. lia.
Qed.

Lemma lex_token_length c s : 1 <= (lex_token q c s).2 <= S (String.length s).
Proof.
  unfold lex_token. pose proof (word_len_le s) as W.
  destruct (_ || _); [destruct (word_len s); simpl; lia|].
  destruct (is_word_byte c); [simpl; lia|].
  destruct (_ && _).
  { destruct (find_str _ s) as [n|] eqn:E; simpl; [|lia]. apply find_str_le in E. simpl in E. lia. }
  repeat match goal with |- context [if Ascii.eqb c ?a then _ else _] => destruct (Ascii.eqb c a); [simpl; try lia|] end.
  - destruct s as [|d s]; simpl; [lia|]. repeat case_match; simpl; lia.
  - destruct s as [|d s]; simpl; [lia|]. repeat case_match; simpl; lia.
  - simpl. lia.
Qed.

Lemma string_drop_add i n s : string_drop (i + n) s = string_drop n (string_drop i s).
Proof. revert s. induction i as [|i IH]; intros [|c s]; simpl; [done|done|by destruct n|apply IH]. Qed.

Lemma lex_loop_cut src fuel i s : string_drop i src = s ->
  lexeme src <$> lex_loop fuel q i s = cut fuel s.
Proof.
  revert i s. induction fuel as [|fuel IH]; intros i [|c s] Hs; simpl; try done.
  assert (Hn : string_drop (i + 1) src = s) by (by rewrite string_drop_add, Hs).
  destruct (is_ascii_whitespace c); [by apply IH|].
  destruct (lex_token q c s) as [t n]. rewrite fmap_cons. f_equal.
  - unfold lexeme, text, slice. simpl. rewrite Hs. by replace (i + n - i) with n by lia.
  - apply IH. by rewrite string_drop_add, Hs.
Qed.

Lemma cut_fuel fuel s : String.length s <= fuel -> cut fuel s = cut (String.length s) s.
Proof.
  remember (String.length s) as m eqn:Em. revert fuel s Em.
  induction (lt_wf m) as [m _ IH]. intros fuel s -> Hf.
  destruct s as [|c s]; [by destruct fuel|]. simpl in Hf. destruct fuel as [|fuel]; [lia|]. simpl.
  destruct (is_ascii_whitespace c).
  { rewrite (IH (String.length s)) by (simpl; lia). done. }
  pose proof (lex_token_length c s) as H. destruct (lex_token q c s) as [t n]. simpl in H. f_equal.
  assert (L : String.length (string_drop n (String c s)) = S (String.length s) - n) by (by rewrite string_drop_length).
  rewrite (IH (S (String.length s) - n) ltac:(simpl; lia) fuel) by (simpl in *; lia).
  rewrite (IH (S (String.length s) - n) ltac:(simpl; lia) (String.length s)) by (simpl in *; lia). done.
Qed.

Lemma words_cut s : words s q = cut (String.length s) s.
Proof. unfold words. by apply lex_loop_cut. Qed.

Lemma words_nil : words "" q = [].
Proof. done. Qed.

Lemma words_blank c s : is_ascii_whitespace c = true -> words (String c s) q = words s q.
Proof. intros Hc. rewrite !words_cut. simpl. by rewrite Hc. Qed.

Lemma words_token c s t n : is_ascii_whitespace c = false -> lex_token q c s = (t, n) ->
  words (String c s) q = (t, string_take n (String c s)) :: words (string_drop n (String c s)) q.
Proof.
  intros Hc Ht. rewrite !words_cut. simpl. rewrite Hc, Ht. f_equal.
  pose proof (lex_token_length c s) as H. rewrite Ht in H. simpl in H.
  apply cut_fuel. rewrite string_drop_length. simpl. lia.
Qed.

(** ** Single words *)

Definition word (w : string) : Prop := string_forallb is_word_byte w = true.

(** No word byte follows. *)
Definition boundary (r : string) : Prop :=
  match r with String c _ => is_word_byte c = false | EmptyString => True end.

Lemma word_len_app w r : word w -> boundary r -> word_len (w +:+ r) = String.length w.
Proof.
  unfold word. intros Hw Hr. induction w as [|c w IH]; simpl in *.
  - destruct r as [|c r]; simpl in *; [done|by rewrite Hr].
  - apply andb_true_iff in Hw as [Hc Hw]. by rewrite Hc, IH.
Qed.

Lemma word_byte_not_blank c : is_word_byte c = true -> is_ascii_whitespace c = false.
Proof. destruct c as [[] [] [] [] [] [] [] []]; vm_compute; done. Qed.

Lemma word_byte_not_mark c : is_word_byte c = true -> Ascii.eqb c "#" || Ascii.eqb c ":" = false.
Proof. destruct c as [[] [] [] [] [] [] [] []]; vm_compute; done. Qed.

Lemma words_mark m w r : (m = "#" \/ m = ":")%char -> w <> "" -> word w -> boundary r ->
  words (String m w +:+ r) q = (if Ascii.eqb m "#" then TName else TValue, String m w) :: words r q.
Proof.
  intros Hm Hw Ww Hr. cbn [String.append].
  assert (Ht : lex_token q m (w +:+ r) = (if Ascii.eqb m "#" then TName else TValue, S (String.length w))).
  { unfold lex_token. rewrite (word_len_app w r Ww Hr).
    destruct Hm as [-> | ->]; simpl; (destruct w as [|c w]; [done|done]). }
  rewrite (words_token m (w +:+ r) _ _ ltac:(by destruct Hm as [-> | ->]) Ht).
  cbn [string_take string_drop]. by rewrite string_take_app, string_drop_prefix.
Qed.

Lemma words_ident w r : w <> "" -> word w -> boundary r -> string_forallb is_ascii_digit w = false ->
  words (w +:+ r) q = (TIdent, w) :: words r q.
Proof.
  intros Hw Ww Hr Hd. destruct w as [|c w]; [done|]. cbn [String.append].
  pose proof Ww as W2. unfold word in W2. simpl in W2. apply andb_true_iff in W2 as [Hc W2].
  assert (Ht : lex_token q c (w +:+ r) = (TIdent, S (String.length w))).
  { unfold lex_token. rewrite (word_byte_not_mark c Hc), Hc, (word_len_app w r W2 Hr).
    cbn [string_take]. rewrite string_take_app. by rewrite Hd. }
  rewrite (words_token c (w +:+ r) _ _ (word_byte_not_blank c Hc) Ht).
  cbn [string_take string_drop]. by rewrite string_take_app, string_drop_prefix.
Qed.

End Lex.
