(* ===== verification/DdbCondition.v ===== *)
(** * DynamoDB conditions on stored items

    How a condition, filter or key condition is applied to an item
    ([fakecloud-dynamodb/src/service/helpers/conditions.rs] and the predicate
    half of [helpers/mod.rs]): the parsed evaluator of [DdbExpr] where the
    text is in its grammar, a text-level evaluator otherwise, and the
    translation of the legacy condition parameters into expressions.

    The text-level evaluators call themselves on shorter texts; their fuel is
    the length of the text, which [DdbConditionTheory] shows is enough. *)

From Stdlib Require Import ZArith Lia Bool String Ascii SpecFloat.
From stdpp Require Import base option list strings gmap sorting.
From S2P Require Import Prelude Json BTree Text Sqs DdbNumber DdbValue DdbReserved DdbExpr DdbTable DdbUpdate.
Import Sqs(AwsServiceError, AwsError, aws_error).

Local Open Scope string_scope.

(** [extract_function_arg]: the argument of [name(..)] or [name (..)]. *)
Definition extract_function_arg (expr func_name : string) : option string :=
  rest ← strip_call func_name expr;
  inner ← strip_suffix ")" rest;
  Some (trim inner).

(** [updates.rs::extract_number]. *)
Definition extract_number (v : option Value) : option f64 :=
  (v ≫= get_str "N") ≫= parse_f64.

Definition EPSILON : f64 := f64_of_decimal false 2220446049250313 (-31).

Definition f64_abs_diff (x y : f64) : f64 := SFabs (SFsub f64_prec f64_emax x y).

(** ** Single predicates *)

Section Predicates.
Context `{Base64Decode} `{JsonText} (item : Item) (names : gmap string string) (values : gmap string Value).

Definition key_cond_begins_with (rest : string) : bool :=
  match two_args rest with
  | None => false
  | Some (attr_ref, val_ref) =>
      match item !! resolve_attr_name (trim attr_ref) names, values !! trim val_ref with
      | Some a, Some e => attribute_begins_with a e
      | _, _ => false
      end
  end.

(** Inclusive bounds over comparable values. *)
Definition within (a lo hi : Value) : bool :=
  comparable_types (Some a) (Some lo) && comparable_types (Some a) (Some hi)
  && negb (is_lt (compare_attribute_values (Some a) (Some lo)))
  && negb (is_gt (compare_attribute_values (Some a) (Some hi))).

Definition key_cond_between (part : string) (between_pos : nat) : bool :=
  let attr_name := resolve_attr_name (trim (string_take between_pos part)) names in
  let range_part := string_drop (between_pos + 7) part in
  match find_str " AND " (to_ascii_uppercase range_part) with
  | None => false
  | Some and_pos =>
      let lo := values !! trim (string_take and_pos range_part) in
      let hi := values !! trim (string_drop (and_pos + 5) range_part) in
      match item !! attr_name, lo, hi with
      | Some a, Some l, Some h => within a l h
      | _, _, _ => false
      end
  end.

Definition COMPARISONS : list string := ["<="; ">="; "<>"; "="; "<"; ">"].

Definition compare_with (op : string) (actual expected : option Value) : bool :=
  let ord := compare_attribute_values actual expected in
  if String.eqb op "=" then values_equal actual expected
  else if String.eqb op "<>" then negb (values_equal actual expected)
  else comparable_types actual expected
       && (if String.eqb op "<" then is_lt ord
           else if String.eqb op ">" then is_gt ord
           else if String.eqb op "<=" then is_lt ord || is_eq ord
           else is_gt ord || is_eq ord).

(** The first operator of the list that occurs in the text, wherever it does. *)
Fixpoint simple_comparison (ops : list string) (part : string) : bool :=
  match ops with
  | [] => false
  | op :: ops' =>
      match find_str op part with
      | None => simple_comparison ops' part
      | Some pos =>
          let actual := resolve_path (trim (string_take pos part)) item names in
          let expected := values !! trim (string_drop (pos + String.length op) part) in
          match actual with
          | None => false
          | Some _ => compare_with op actual expected
          end
      end
  end.

Definition key_cond_simple_comparison (part : string) : bool := simple_comparison COMPARISONS part.

(** The first [BETWEEN] with white space on both sides. *)
Definition between_at (upper : string) (i : nat) : bool :=
  starts_with "BETWEEN" (string_drop i upper) && (0 <? i)%nat
  && from_option is_ascii_whitespace false (char_at upper (i - 1))
  && from_option is_ascii_whitespace false (char_at upper (i + 7)).

Definition find_between (part : string) : option nat :=
  let upper := to_ascii_uppercase part in
  List.find (between_at upper) (List.seq 0 (String.length upper - 7)).

Definition evaluate_single_key_condition (part : string) : bool :=
  let part := trim part in
  match strip_call "begins_with" part with
  | Some rest => key_cond_begins_with rest
  | None =>
      match find_between part with
      | Some between_pos => key_cond_between part between_pos
      | None => key_cond_simple_comparison part
      end
  end.

Definition eval_begins_with (rest : string) : bool :=
  match two_args rest with
  | None => false
  | Some (attr_ref, val_ref) =>
      match resolve_path (trim attr_ref) item names, values !! trim val_ref with
      | Some a, Some e => attribute_begins_with a e
      | _, _ => false
      end
  end.

(** Membership of [e] in [a]: a substring, a set member, a list element. *)
Definition contains_text (a e : Value) : bool :=
  match get_str "S" a, get_str "S" e with
  | Some x, Some y => contains_str y x
  | _, _ =>
      match get_array "SS" a, get "S" e with
      | Some set, Some val => existsb (value_eqb val) set
      | _, _ =>
          match get_array "NS" a, get "N" e with
          | Some set, Some val =>
              existsb (fun s => values_equal (Some (VObject [("N", s)])) (Some (VObject [("N", val)]))) set
          | _, _ =>
              match get_array "BS" a, get "B" e with
              | Some set, Some val => existsb (value_eqb val) set
              | _, _ =>
                  match get_array "L" a with
                  | Some l => existsb (fun el => values_equal (Some el) (Some e)) l
                  | None => false
                  end
              end
          end
      end
  end.

Definition eval_contains (rest : string) : bool :=
  match two_args rest with
  | None => false
  | Some (attr_ref, val_ref) =>
      match resolve_path (trim attr_ref) item names, values !! trim val_ref with
      | Some a, Some e => contains_text a e
      | _, _ => false
      end
  end.

Definition eval_attribute_type (rest : string) : bool :=
  match two_args rest with
  | None => false
  | Some (attr_ref, val_ref) =>
      match resolve_path (trim attr_ref) item names, (values !! trim val_ref) ≫= get_str "S" with
      | Some val, Some t => str_in t ATTRIBUTE_TYPES && bool_decide (is_Some (get t val))
      | _, _ => false
      end
  end.

Definition size_operator (remainder : string) : option (string * string) :=
  let fix go (ops : list string) : option (string * string) :=
    match ops with
    | [] => None
    | op :: ops' => match strip_prefix op remainder with
                    | Some rest => Some (op, trim rest)
                    | None => go ops'
                    end
    end in
  go ["<="; ">="; "<>"; "<"; ">"; "="].

Definition compare_sizes (op : string) (size expected : f64) : bool :=
  if String.eqb op "=" then f64_ltb (f64_abs_diff size expected) EPSILON
  else if String.eqb op "<>" then f64_leb EPSILON (f64_abs_diff size expected)
  else if String.eqb op "<" then f64_ltb size expected
  else if String.eqb op ">" then f64_ltb expected size
  else if String.eqb op "<=" then f64_leb size expected
  else f64_leb expected size.

Definition evaluate_size_comparison (part : string) : option bool :=
  open ← find_str "(" part;
  close ← find_str ")" (string_drop open part);
  let close := close + open in
  '(op, val_ref) ← size_operator (trim (string_drop (close + 1) part));
  actual ← resolve_path (trim (slice part (open + 1) close)) item names;
  size ← attribute_size actual;
  expected ← extract_number (values !! val_ref);
  Some (compare_sizes op (f64_of_Z (Z.of_nat size)) expected).

Definition parse_in_expression (expr : string) : option (string * list string) :=
  in_pos ← find_str " IN " (to_ascii_uppercase expr);
  let attr_ref := trim (string_take in_pos expr) in
  if is_empty_str attr_ref then None
  else
    inner ← (strip_prefix "(" (trim_start (string_drop (in_pos + 4) expr)) ≫= strip_suffix ")");
    match List.filter (fun s => negb (is_empty_str s)) (trim <$> split_char "," inner) with
    | [] => None
    | refs => Some (attr_ref, refs)
    end.

Definition evaluate_in_match (actual : option Value) (value_refs : list string) : bool :=
  existsb (fun v_ref => match actual, values !! v_ref with
                        | Some a, Some e => values_equal (Some a) (Some e)
                        | _, _ => false
                        end) value_refs.

Definition evaluate_single_filter_condition (part : string) : bool :=
  match extract_function_arg part "attribute_exists" with
  | Some inner => bool_decide (is_Some (resolve_path inner item names))
  | None =>
  match extract_function_arg part "attribute_not_exists" with
  | Some inner => negb (bool_decide (is_Some (resolve_path inner item names)))
  | None =>
  match strip_call "begins_with" part with
  | Some rest => eval_begins_with rest
  | None =>
  match strip_call "contains" part with
  | Some rest => eval_contains rest
  | None =>
  match (if starts_with "size(" part || starts_with "size (" part
         then evaluate_size_comparison part else None) with
  | Some r => r
  | None =>
  match strip_call "attribute_type" part with
  | Some rest => eval_attribute_type rest
  | None =>
  match parse_in_expression part with
  | Some (attr_ref, refs) => evaluate_in_match (resolve_path attr_ref item names) refs
  | None => evaluate_single_key_condition part
  end end end end end end end.

(** ** Compound conditions *)

(** What is left after a leading [NOT]. *)
Definition strip_not (trimmed : string) : option string :=
  if eq_ignore_ascii_case (string_take 3 trimmed) "NOT" then
    match string_drop 3 trimmed with
    | String c s => if is_ascii_whitespace c || Ascii.eqb c "(" then Some (String c s) else None
    | EmptyString => None
    end
  else None.

(** [evaluate_filter_expression], with [evaluate_filter_expression_text]
    written in its place. *)
Fixpoint filter_expression (fuel : nat) (expr : string) : bool :=
  match parse_condition_lenient value_text expr names values with
  | Some cond => eval_cond cond item values
  | None =>
      match fuel with
      | 0 => false
      | S fuel' =>
          let trimmed := trim expr in
          match split_on_or trimmed with
          | _ :: _ :: _ => existsb (fun p => filter_expression fuel' (trim p)) (split_on_or trimmed)
          | _ =>
          match split_on_and trimmed with
          | _ :: _ :: _ => forallb (fun p => filter_expression fuel' (trim p)) (split_on_and trimmed)
          | _ =>
              let stripped := strip_outer_parens trimmed in
              if negb (String.eqb stripped trimmed) then filter_expression fuel' stripped
              else match strip_not trimmed with
                   | Some rest => negb (filter_expression fuel' rest)
                   | None => evaluate_single_filter_condition trimmed
                   end
          end end
      end
  end.

Definition evaluate_filter_expression (expr : string) : bool :=
  filter_expression (S (String.length expr)) expr.

Fixpoint key_condition (fuel : nat) (expr : string) : bool :=
  match parse_condition_lenient value_text expr names values with
  | Some cond => eval_cond cond item values
  | None =>
      match fuel with
      | 0 => false
      | S fuel' =>
          let trimmed := trim expr in
          match split_on_and trimmed with
          | _ :: _ :: _ => forallb (fun p => key_condition fuel' (trim p)) (split_on_and trimmed)
          | _ =>
              let stripped := strip_outer_parens trimmed in
              if negb (String.eqb stripped trimmed) then key_condition fuel' stripped
              else evaluate_single_key_condition trimmed
          end
      end
  end.

Definition evaluate_key_condition (expr : string) : bool :=
  key_condition (S (String.length expr)) expr.

End Predicates.

(** ** Conditional writes *)

(** The text of an item's JSON object, whose members come in the order of the
    hash map. *)
Class ItemText := item_text : Item -> string.

Section Conditional.
Context `{Base64Decode} `{JsonText} `{ItemText}.

Definition evaluate_condition_with_return (condition : string) (existing : option Item)
  (names : gmap string string) (values : gmap string Value) (return_values_on_failure : option string)
  : Result AwsServiceError unit :=
  if evaluate_filter_expression (default ∅ existing) names values condition then Ok tt
  else
    let fields := match return_values_on_failure, existing with
                  | Some r, Some item => if String.eqb r "ALL_OLD" then [("Item", item_text item)] else []
                  | _, _ => []
                  end in
    Err (AwsError 400 "ConditionalCheckFailedException" "The conditional request failed" fields []).

Definition evaluate_condition (condition : string) (existing : option Item)
  (names : gmap string string) (values : gmap string Value) : Result AwsServiceError unit :=
  evaluate_condition_with_return condition existing names values None.

End Conditional.

(** ** Legacy condition parameters *)

Inductive LegacyConditionRole := LegacyKey | LegacyFilter.

Definition KEY_OPERATORS : list string := ["EQ"; "LE"; "LT"; "GE"; "GT"; "BEGINS_WITH"; "BETWEEN"].

Definition want (operator : string) (values : list string) (n : nat) : Result AwsServiceError unit :=
  if (length values =? n)%nat then Ok tt
  else Err (validation_error ("ComparisonOperator " +:+ operator +:+ " requires " +:+ print_Z (Z.of_nat n)
              +:+ " value(s) in AttributeValueList, got " +:+ print_Z (Z.of_nat (length values)))).

(** The operators written infix with one operand. *)
Definition infix_symbol (operator : string) : option string :=
  if String.eqb operator "EQ" then Some "="
  else if String.eqb operator "NE" then Some "<>"
  else if String.eqb operator "LE" then Some "<="
  else if String.eqb operator "LT" then Some "<"
  else if String.eqb operator "GE" then Some ">="
  else if String.eqb operator "GT" then Some ">"
  else None.

Definition arg (values : list string) (i : nat) : string := default "" (values !! i).

Definition build_legacy_fragment (name_ph operator : string) (values : list string)
  (role : LegacyConditionRole) : Result AwsServiceError string :=
  let key_ok := str_in operator KEY_OPERATORS in
  if match role with LegacyKey => negb key_ok | LegacyFilter => false end then
    Err (validation_error ("Unsupported operator on KeyConditions: " +:+ operator))
  else
    let want := want operator values in
    match infix_symbol operator with
    | Some op => _ ← want 1; Ok (name_ph +:+ " " +:+ op +:+ " " +:+ arg values 0)
    | None =>
        if String.eqb operator "BEGINS_WITH" then
          _ ← want 1; Ok ("begins_with(" +:+ name_ph +:+ ", " +:+ arg values 0 +:+ ")")
        else if String.eqb operator "BETWEEN" then
          _ ← want 2; Ok (name_ph +:+ " BETWEEN " +:+ arg values 0 +:+ " AND " +:+ arg values 1)
        else if String.eqb operator "CONTAINS" then
          _ ← want 1; Ok ("contains(" +:+ name_ph +:+ ", " +:+ arg values 0 +:+ ")")
        else if String.eqb operator "NOT_CONTAINS" then
          _ ← want 1; Ok ("NOT contains(" +:+ name_ph +:+ ", " +:+ arg values 0 +:+ ")")
        else if String.eqb operator "NOT_NULL" then
          _ ← want 0; Ok ("attribute_exists(" +:+ name_ph +:+ ")")
        else if String.eqb operator "NULL" then
          _ ← want 0; Ok ("attribute_not_exists(" +:+ name_ph +:+ ")")
        else if String.eqb operator "IN" then
          match values with
          | [] => Err (validation_error
                    "ComparisonOperator IN requires at least one value in AttributeValueList")
          | _ => Ok (name_ph +:+ " IN (" +:+ join ", " values +:+ ")")
          end
        else Err (validation_error ("Unsupported ComparisonOperator: " +:+ operator))
    end.

(** The placeholder maps as the translation extends them. *)
Definition Placeholders : Type := gmap string string * gmap string Value.

(** Entries in attribute order. *)
Definition entry_le (a b : string * Value) : Prop := BTree.str_le a.1 b.1.

#[local] Instance entry_le_dec : RelDecision entry_le.
Proof. intros a b. unfold entry_le. apply _. Defined.

Definition sort_entries (m : list (string * Value)) : list (string * Value) := merge_sort entry_le m.

Definition nat_text (n : nat) : string := print_Z (Z.of_nat n).

(** One placeholder per operand, [prefix ++ vi]. *)
Fixpoint hoist_values (prefix : string) (vi : nat) (l : list Value) (values : gmap string Value)
  : list string * gmap string Value :=
  match l with
  | [] => ([], values)
  | v :: l' =>
      let ph := prefix +:+ nat_text vi in
      let '(phs, values') := hoist_values prefix (S vi) l' (<[ph := v]> values) in
      (ph :: phs, values')
  end.

Definition value_list (spec : Value) : list Value := default [] (get_array "AttributeValueList" spec).

(** One entry of a legacy map: the placeholder maps extended, and its fragment
    or the error. *)
Definition legacy_entry (role : LegacyConditionRole) (tag : string) (idx : nat) (entry : string * Value)
  (ph : Placeholders) : Placeholders * Result AwsServiceError string :=
  let '(attr, spec) := entry in
  match get_str "ComparisonOperator" spec with
  | None => (ph, Err (validation_error
              ("ComparisonOperator is required for the condition on attribute " +:+ attr)))
  | Some operator =>
      let name_ph := "#leg" +:+ tag +:+ nat_text idx in
      let '(phs, values) := hoist_values (":legv" +:+ tag +:+ nat_text idx +:+ "_") 0 (value_list spec) ph.2 in
      ((<[name_ph := attr]> ph.1, values), build_legacy_fragment name_ph operator phs role)
  end.

Definition expected_entry (idx : nat) (entry : string * Value) (ph : Placeholders)
  : Placeholders * Result AwsServiceError string :=
  let '(attr, spec) := entry in
  let name_ph := "#exp" +:+ nat_text idx in
  let names := <[name_ph := attr]> ph.1 in
  match get "ComparisonOperator" spec with
  | Some o =>
      let operator := default "" (as_str o) in
      let '(phs, values) := hoist_values (":expv" +:+ nat_text idx +:+ "_") 0 (value_list spec) ph.2 in
      ((names, values), build_legacy_fragment name_ph operator phs LegacyFilter)
  | None =>
      match get "Exists" spec ≫= as_bool, get "Value" spec with
      | Some false, _ => ((names, ph.2), Ok ("attribute_not_exists(" +:+ name_ph +:+ ")"))
      | _, Some v =>
          let vp := ":expv" +:+ nat_text idx in
          ((names, <[vp := v]> ph.2), Ok (name_ph +:+ " = " +:+ vp))
      | Some true, None => ((names, ph.2), Ok ("attribute_exists(" +:+ name_ph +:+ ")"))
      | None, None =>
          ((names, ph.2), Err (validation_error ("One of Value or Exists must be provided for the "
             +:+ "Expected condition on attribute " +:+ attr)))
      end
  end.

(** The fragments of the entries in turn, up to the first error. *)
Fixpoint fragments (f : nat -> string * Value -> Placeholders -> Placeholders * Result AwsServiceError string)
  (idx : nat) (entries : list (string * Value)) (ph : Placeholders)
  : Placeholders * Result AwsServiceError (list string) :=
  match entries with
  | [] => (ph, Ok [])
  | e :: more =>
      match f idx e ph with
      | (ph', Err err) => (ph', Err err)
      | (ph', Ok frag) =>
          let '(ph'', r) := fragments f (S idx) more ph' in
          (ph'', frags ← r; Ok (frag :: frags))
      end
  end.

Definition translate_legacy_conditions (conditions : list (string * Value)) (role : LegacyConditionRole)
  (conditional_operator : string) (ph : Placeholders) : Placeholders * Result AwsServiceError string :=
  let tag := match role with LegacyKey => "k" | LegacyFilter => "f" end in
  let '(ph', r) := fragments (legacy_entry role tag) 0 (sort_entries conditions) ph in
  let joiner := if match role with LegacyFilter => eq_ignore_ascii_case conditional_operator "OR" | LegacyKey => false end
                then " OR " else " AND " in
  (ph', frags ← r; Ok (join joiner frags)).

Definition translate_legacy_expected (expected : list (string * Value)) (conditional_operator : string)
  (ph : Placeholders) : Placeholders * Result AwsServiceError string :=
  let '(ph', r) := fragments expected_entry 0 (sort_entries expected) ph in
  let joiner := if eq_ignore_ascii_case conditional_operator "OR" then " OR " else " AND " in
  (ph', frags ← r; Ok (join joiner frags)).

(** The condition of a write and the placeholder maps it is read with. *)
Definition resolve_write_condition (body : Value) (ph : Placeholders)
  : Result AwsServiceError (option string * Placeholders) :=
  let expression := match trim <$> as_str (index body "ConditionExpression") with
                    | Some s => if is_empty_str s then None else Some s
                    | None => None
                    end in
  let expected := match as_object (index body "Expected") with
                  | Some [] | None => None
                  | Some m => Some m
                  end in
  match expression, expected with
  | Some _, Some _ =>
      Err (validation_error ("Can not use both expression and non-expression parameters in the same "
        +:+ "request: Non-expression parameters: {Expected} Expression parameters: {ConditionExpression}"))
  | Some expr, None => Ok (Some expr, ph)
  | None, Some m =>
      let op := default "AND" (as_str (index body "ConditionalOperator")) in
      let '(ph', r) := translate_legacy_expected m op ph in
      text ← r; Ok (Some text, ph')
  | None, None => Ok (None, ph)
  end.
