(* ===== verification/DdbConditionTheory.v ===== *)
(** * DynamoDB conditions: the legacy parameters and the text evaluators

    The translation of legacy condition maps into expressions is shown to be
    faithful: the text it builds is in the grammar of [DdbExprTheory], its
    placeholders stand for the attributes and operands of the map, and what it
    evaluates to is the conjunction or disjunction of what the entries mean by
    themselves.  The text-level evaluators are shown to satisfy the recursive
    equations of the source, so their fuel is never exhausted. *)

From Stdlib Require Import ZArith Lia Bool String Ascii SpecFloat.
From stdpp Require Import base option list strings gmap sorting.
From S2P Require Import Prelude Json BTree Text Sqs DdbNumber DdbValue DdbReserved DdbExpr DdbTable DdbUpdate DdbExprTheory DdbLex DdbCondition.
Import Sqs(AwsServiceError, AwsError, aws_error).

Local Open Scope string_scope.
Local Open Scope list_scope.

(** ** What a legacy entry means *)

Section Meaning.
Context `{Base64Decode}.

Definition infix_op (operator : string) : option CmpOp :=
  if String.eqb operator "EQ" then Some CEq
  else if String.eqb operator "NE" then Some CNe
  else if String.eqb operator "LE" then Some CLe
  else if String.eqb operator "LT" then Some CLt
  else if String.eqb operator "GE" then Some CGe
  else if String.eqb operator "GT" then Some CGt
  else None.

(** An operator on an attribute's value and its operands. *)
Definition operator_holds (operator : string) (a : option Value) (vs : list Value) : bool :=
  match infix_op operator, vs with
  | Some op, [v] => eval_compare op a (Some v)
  | Some _, _ => false
  | None, _ =>
      if String.eqb operator "NOT_NULL" then bool_decide (is_Some a)
      else if String.eqb operator "NULL" then negb (bool_decide (is_Some a))
      else if String.eqb operator "NOT_CONTAINS" then
        negb (match a, vs with Some a, [v] => contains_value a v | _, _ => false end)
      else match a with
           | None => false
           | Some a =>
               if String.eqb operator "BEGINS_WITH" then
                 match vs with [v] => attribute_begins_with a v | _ => false end
               else if String.eqb operator "BETWEEN" then
                 match vs with [lo; hi] => within a lo hi | _ => false end
               else if String.eqb operator "CONTAINS" then
                 match vs with [v] => contains_value a v | _ => false end
               else existsb (attribute_values_equal a) vs
           end
  end.

Definition legacy_holds (item : Item) (entry : string * Value) : bool :=
  operator_holds (default "" (get_str "ComparisonOperator" entry.2)) (item !! entry.1) (value_list entry.2).

(** An entry of [Expected]: an operator, or [Exists] and [Value]. *)
Definition expected_holds (item : Item) (entry : string * Value) : bool :=
  let '(attr, spec) := entry in
  match get "ComparisonOperator" spec with
  | Some o => operator_holds (default "" (as_str o)) (item !! attr) (value_list spec)
  | None =>
      match get "Exists" spec ≫= as_bool, get "Value" spec with
      | Some false, _ => negb (bool_decide (is_Some (item !! attr)))
      | _, Some v => eval_compare CEq (item !! attr) (Some v)
      | _, None => bool_decide (is_Some (item !! attr))
      end
  end.

End Meaning.

(** ** Texts that lex to given words *)

Definition lexes (q : bool) (s : string) (l : list Lexeme) : Prop :=
  forall r, boundary r -> words (s +:+ r) q = l ++ words r q.

Lemma string_app_cons c a b : String c a +:+ b = String c (a +:+ b).
Proof. done. Qed.

(** The word at a text whose first characters are known. *)
Ltac next_word :=
  first [ rewrite words_blank by reflexivity
        | erewrite words_token; [|reflexivity|reflexivity]; cbn [string_take string_drop] ].

(** The identifier at the front of the text. *)
Ltac ident w :=
  match goal with |- words ?s true = _ =>
    let r := constr:(string_drop (String.length w) s) in
    let r := eval cbn [string_drop String.length] in r in
    change s with (w +:+ r); rewrite (words_ident true w r) by (done || reflexivity)
  end.

Lemma lexes_app q a b la lb : lexes q a la -> lexes q b lb -> lexes q (a +:+ " " +:+ b) (la ++ lb).
Proof.
  intros Ha Hb r Hr. rewrite string_app_assoc, Ha, string_app_assoc by done.
  change (" " +:+ (b +:+ r)) with (String " " (b +:+ r)). rewrite words_blank by done.
  by rewrite Hb, app_assoc.
Qed.

(** A placeholder: a mark and a word. *)
Definition placeholder (m : ascii) (p : string) : Prop :=
  exists w, p = String m w /\ w <> "" /\ word w.

Lemma words_name q p r : placeholder "#" p -> boundary r -> words (p +:+ r) q = (TName, p) :: words r q.
Proof. intros (w & -> & Hw & Ww) Hr. by rewrite words_mark by auto. Qed.

Lemma words_value q p r : placeholder ":" p -> boundary r -> words (p +:+ r) q = (TValue, p) :: words r q.
Proof. intros (w & -> & Hw & Ww) Hr. by rewrite words_mark by auto. Qed.

Lemma lexes_name q p : placeholder "#" p -> lexes q p [(TName, p)].
Proof. intros Hp r Hr. by apply words_name. Qed.

Lemma lexes_value q p : placeholder ":" p -> lexes q p [(TValue, p)].
Proof. intros Hp r Hr. by apply words_value. Qed.

(** *** Generated placeholders *)

Lemma nat_text_digits n : string_forallb is_ascii_digit (nat_text n) = true.
Proof. apply print_Z_digits. lia. Qed.

Lemma nat_text_inj m n : nat_text m = nat_text n -> m = n.
Proof. intros E%print_Z_inj; lia. Qed.

Lemma digit_word c : is_ascii_digit c = true -> is_word_byte c = true.
Proof. unfold is_word_byte, is_ascii_alphanumeric. by intros ->. Qed.

Lemma nat_text_word n : word (nat_text n).
Proof. unfold word. eapply string_forallb_impl, nat_text_digits. apply digit_word. Qed.

Lemma word_app a b : word a -> word b -> word (a +:+ b).
Proof. unfold word. intros Ha Hb. by rewrite string_forallb_app, Ha, Hb. Qed.

Lemma placeholder_text m c w : word (String c w) -> placeholder m (String m (String c w)).
Proof. intros Hw. by exists (String c w). Qed.

Lemma hoist_values_placeholders m c w vi l values phs values' : word (String c w) ->
  hoist_values (String m (String c w)) vi l values = (phs, values') -> Forall (placeholder m) phs.
Proof.
  intros Hw. revert vi values phs values'.
  induction l as [|v l IH]; intros vi values phs values'; simpl; [by intros [= <- <-]|].
  destruct (hoist_values _ (S vi) l _) as [phs0 values0] eqn:E. intros [= <- <-].
  constructor; [|by eapply IH]. apply placeholder_text.
  change (word (String c w +:+ nat_text vi)). apply word_app; [done|apply nat_text_word].
Qed.

Lemma hoist_values_old prefix vi l values phs values' k :
  hoist_values prefix vi l values = (phs, values') ->
  (forall j, k <> prefix +:+ nat_text j) -> values' !! k = values !! k.
Proof.
  revert vi values phs. induction l as [|v l IH]; intros vi values phs; simpl; [by intros [= <- <-]|].
  destruct (hoist_values _ (S vi) l _) as [phs0 values0] eqn:E. intros [= <- <-] Hk.
  rewrite (IH _ _ _ E Hk), lookup_insert_ne; [done|]. intros <-. by eapply Hk.
Qed.

Lemma string_app_inj_l p a b : p +:+ a = p +:+ b -> a = b.
Proof. induction p as [|c p IH]; simpl; [done|]. intros [= E]. auto. Qed.

Lemma hoist_values_earlier prefix vi l values phs values' j :
  hoist_values prefix vi l values = (phs, values') -> j < vi ->
  values' !! (prefix +:+ nat_text j) = values !! (prefix +:+ nat_text j).
Proof.
  revert vi values phs. induction l as [|v l IH]; intros vi values phs; simpl; [by intros [= <- <-]|].
  destruct (hoist_values _ (S vi) l _) as [phs0 values0] eqn:E. intros [= <- <-] Hj.
  rewrite (IH _ _ _ E) by lia. rewrite lookup_insert_ne; [done|].
  intros Eq%string_app_inj_l%nat_text_inj. lia.
Qed.

Lemma hoist_values_shape prefix vi l values phs values' :
  hoist_values prefix vi l values = (phs, values') -> Forall (fun p => exists j, p = prefix +:+ nat_text j) phs.
Proof.
  revert vi values phs. induction l as [|v l IH]; intros vi values phs; simpl; [by intros [= <- <-]|].
  destruct (hoist_values _ (S vi) l _) as [phs0 values0] eqn:E. intros [= <- <-]. constructor; [eauto|by eapply IH].
Qed.

(** The placeholders stand for the operands. *)
Lemma hoist_values_lookup prefix vi l values phs values' :
  hoist_values prefix vi l values = (phs, values') -> Forall2 (fun ph v => values' !! ph = Some v) phs l.
Proof.
  revert vi values phs. induction l as [|v l IH]; intros vi values phs; simpl; [by intros [= <- <-]|].
  destruct (hoist_values _ (S vi) l _) as [phs0 values0] eqn:E. intros [= <- <-].
  constructor; [|by eapply IH]. rewrite (hoist_values_earlier _ _ _ _ _ _ _ E) by lia.
  by rewrite lookup_insert_eq.
Qed.

(** ** Fragments *)

Section Fragments.
Context `{Base64Decode} (names : gmap string string) (values : gmap string Value).

Definition fragment_cond (operator attr : string) (phs : list string) : Cond :=
  let p := OPath [Attr attr] in
  let v i := OValue (arg phs i) in
  match infix_op operator with
  | Some op => Compare p op (v 0)
  | None =>
      if String.eqb operator "BEGINS_WITH" then BeginsWith p (v 0)
      else if String.eqb operator "BETWEEN" then Between p (v 0) (v 1)
      else if String.eqb operator "CONTAINS" then Contains p (v 0)
      else if String.eqb operator "NOT_CONTAINS" then Not (Contains p (v 0))
      else if String.eqb operator "NOT_NULL" then Exists [Attr attr]
      else if String.eqb operator "NULL" then NotExists [Attr attr]
      else In p (OValue <$> phs)
  end.

(** A text and the condition it stands for. *)
Definition stands_for (text : string) (c : Cond) : Prop :=
  exists l, lexes true text l /\ G names values false LNot l c.

Lemma GPath_name n attr : names !! n = Some attr -> GPath names false [(TName, n)] [Attr attr].
Proof. intros Hn. constructor; [by left|constructor]. Qed.

Lemma GOperand_name n attr : names !! n = Some attr ->
  GOperand names values false [(TName, n)] (OPath [Attr attr]).
Proof. intros Hn. constructor; [by apply GPath_name|by right]. Qed.

Lemma GOperand_value p : GOperand names values false [(TValue, p)] (OValue p).
Proof. by constructor. Qed.

Lemma infix_lexes operator sym : infix_symbol operator = Some sym ->
  exists t op, infix_op operator = Some op /\ cmp_op t = Some op
    /\ forall r, words (sym +:+ " " +:+ r) true = (t, sym) :: words r true.
Proof.
  unfold infix_symbol, infix_op. intros E.
  repeat (destruct (String.eqb operator _); [injection E as <-; eexists _, _; split_and!;
    [reflexivity|..|intros r; cbn [String.append]; next_word; next_word; reflexivity]; reflexivity|]). done.
Qed.

Lemma infix_none operator : infix_symbol operator = None -> infix_op operator = None.
Proof. unfold infix_symbol, infix_op. repeat case_match; done. Qed.

Lemma values_list p phs : Forall (placeholder ":") (p :: phs) ->
  exists l, GList (GOperand names values false) l (OValue <$> p :: phs)
    /\ forall r, words (join ", " (p :: phs) +:+ (")" +:+ r)) true = l ++ (RParen, ")") :: words r true.
Proof.
  revert p. induction phs as [|p2 phs IH]; intros p [Hp Hps]%Forall_cons.
  - exists [(TValue, p)]. split; [apply (GList_intro _ [_] []); [apply GOperand_value|constructor]|].
    intros r. cbn [join String.concat String.append]. rewrite words_value by done. by next_word.
  - destruct (IH p2 Hps) as (l & Hl & Hw). exists ([(TValue, p)] ++ (Comma, ",") :: l). split.
    + apply GList_intro; [apply GOperand_value|]. rewrite fmap_cons in Hl. inversion Hl; subst.
      by constructor.
    + intros r. change (join ", " (p :: p2 :: phs)) with (p +:+ (", " +:+ join ", " (p2 :: phs))).
      rewrite !string_app_assoc. rewrite words_value by done. cbn [String.append].
      do 2 next_word. cbn [app]. do 2 f_equal. apply Hw.
Qed.

(** [name(path, value)] and [name(path)]. *)
Ltac call_words name :=
  intros r Hr; cbn [String.append]; ident name; next_word; rewrite ?string_app_assoc, words_name by done;
  cbn [String.append]; do 2 (try next_word); rewrite ?string_app_assoc; try (rewrite words_value by done);
  cbn [String.append]; try next_word; reflexivity.

Lemma two_operands n attr p : names !! n = Some attr ->
  GList (GOperand names values false) [(TName, n); (Comma, ","); (TValue, p)] [OPath [Attr attr]; OValue p].
Proof.
  intros Hn. apply (GList_intro _ [_] [_; _]); [by apply GOperand_name|].
  apply (GCommas_cons _ _ [_] []); [apply GOperand_value|constructor].
Qed.

Lemma one_operand n attr : names !! n = Some attr ->
  GList (GOperand names values false) [(TName, n)] [OPath [Attr attr]].
Proof. intros Hn. apply (GList_intro _ [_] []); [by apply GOperand_name|constructor]. Qed.

Context (n attr : string) (Pn : placeholder "#" n) (Hn : names !! n = Some attr).

Lemma begins_stands p : placeholder ":" p ->
  stands_for ("begins_with(" +:+ n +:+ ", " +:+ p +:+ ")") (BeginsWith (OPath [Attr attr]) (OValue p)).
Proof.
  intros Hp. exists ((TIdent, "begins_with") :: (LParen, "(") :: [(TName, n); (Comma, ","); (TValue, p)] ++ [(RParen, ")")]).
  split; [call_words "begins_with"|]. eapply G_not_one, G_function; [by apply two_operands|constructor].
Qed.

Lemma contains_stands p : placeholder ":" p ->
  stands_for ("contains(" +:+ n +:+ ", " +:+ p +:+ ")") (Contains (OPath [Attr attr]) (OValue p)).
Proof.
  intros Hp. exists ((TIdent, "contains") :: (LParen, "(") :: [(TName, n); (Comma, ","); (TValue, p)] ++ [(RParen, ")")]).
  split; [call_words "contains"|]. eapply G_not_one, G_function; [by apply two_operands|constructor].
Qed.

Lemma exists_stands : stands_for ("attribute_exists(" +:+ n +:+ ")") (Exists [Attr attr]).
Proof.
  exists ((TIdent, "attribute_exists") :: (LParen, "(") :: [(TName, n)] ++ [(RParen, ")")]).
  split; [call_words "attribute_exists"|]. eapply G_not_one, G_function; [by apply one_operand|constructor].
Qed.

Lemma not_exists_stands : stands_for ("attribute_not_exists(" +:+ n +:+ ")") (NotExists [Attr attr]).
Proof.
  exists ((TIdent, "attribute_not_exists") :: (LParen, "(") :: [(TName, n)] ++ [(RParen, ")")]).
  split; [call_words "attribute_not_exists"|]. eapply G_not_one, G_function; [by apply one_operand|constructor].
Qed.

Lemma infix_stands operator sym p op : placeholder ":" p ->
  infix_symbol operator = Some sym -> infix_op operator = Some op ->
  stands_for (n +:+ " " +:+ sym +:+ " " +:+ p) (Compare (OPath [Attr attr]) op (OValue p)).
Proof.
  intros Hp Hs Ho. destruct (infix_lexes operator sym Hs) as (t & op' & Ho' & Ht & Hw).
  rewrite Ho in Ho'. injection Ho' as <-. exists ([(TName, n)] ++ (t, sym) :: [(TValue, p)]). split.
  - intros r Hr. rewrite !string_app_assoc, words_name by done. cbn [String.append].
    rewrite words_blank by done. specialize (Hw (p +:+ r)). cbn [String.append] in Hw.
    by rewrite Hw, words_value by done.
  - by apply G_not_one, G_compare; [apply GOperand_name| |apply GOperand_value].
Qed.

Lemma between_stands p p' : placeholder ":" p -> placeholder ":" p' ->
  stands_for (n +:+ " BETWEEN " +:+ p +:+ " AND " +:+ p') (Between (OPath [Attr attr]) (OValue p) (OValue p')).
Proof.
  intros Hp Hp'.
  exists ([(TName, n)] ++ (TIdent, "BETWEEN") :: [(TValue, p)] ++ (TIdent, "AND") :: [(TValue, p')]). split.
  - intros r Hr. rewrite !string_app_assoc, words_name by done. cbn [String.append].
    next_word. cbn [app]. f_equal. ident "BETWEEN". next_word. rewrite words_value by done.
    cbn [app]. do 2 f_equal. next_word. ident "AND". next_word. by rewrite words_value by done.
  - apply G_not_one, G_between; [by apply GOperand_name|done|apply GOperand_value|done|apply GOperand_value].
Qed.

Lemma in_stands p phs : Forall (placeholder ":") (p :: phs) ->
  stands_for (n +:+ " IN (" +:+ join ", " (p :: phs) +:+ ")") (In (OPath [Attr attr]) (OValue <$> p :: phs)).
Proof.
  intros Hps. destruct (values_list p phs Hps) as (l & Hl & Hw).
  exists ([(TName, n)] ++ (TIdent, "IN") :: (LParen, "(") :: l ++ [(RParen, ")")]). split.
  - intros r Hr. rewrite !string_app_assoc, words_name by done. cbn [String.append].
    next_word. cbn [app]. f_equal. ident "IN". do 2 next_word.
    specialize (Hw r). cbn [String.append] in Hw. by rewrite Hw, <- app_assoc.
  - by apply G_not_one, G_in; [apply GOperand_name| |].
Qed.

Lemma not_contains_stands p : placeholder ":" p ->
  stands_for ("NOT contains(" +:+ n +:+ ", " +:+ p +:+ ")") (Not (Contains (OPath [Attr attr]) (OValue p))).
Proof.
  intros Hp. destruct (contains_stands p Hp) as (l & Hl & Hg).
  exists ((TIdent, "NOT") :: l). split; [|by apply G_not].
  intros r Hr. specialize (Hl r Hr). cbn [String.append] in *. ident "NOT". next_word. cbn [app]. f_equal. exact Hl.
Qed.

Lemma want_ok operator phs k : want operator phs k = Ok tt -> length phs = k.
Proof. unfold want. destruct (Nat.eqb_spec (length phs) k); [done|discriminate]. Qed.

Ltac arity E :=
  apply bind_Ok in E as ([] & E & ?); apply want_ok in E;
  match goal with H : Ok _ = Ok _ |- _ => injection H as <- end;
  repeat match goal with
    | H : length ?l = _ |- _ => is_var l; destruct l; [try discriminate H|try discriminate H]; simpl in H; try injection H as H
    | H : Forall2 _ _ _ |- _ => inversion H; subst; clear H
    | H : Forall _ (_ :: _) |- _ => apply Forall_cons in H as [? H]
    end.

Lemma fragment_stands operator phs role text : Forall (placeholder ":") phs ->
  build_legacy_fragment n operator phs role = Ok text -> stands_for text (fragment_cond operator attr phs).
Proof.
  intros Hps. unfold build_legacy_fragment, fragment_cond. destruct (match role with LegacyKey => _ | _ => _ end); [done|].
  destruct (infix_symbol operator) as [sym|] eqn:Es.
  { destruct (infix_lexes operator sym Es) as (t & op & Eo & _). rewrite Eo. intros E. arity E.
    by eapply infix_stands. }
  rewrite (infix_none operator Es).
  destruct (String.eqb operator "BEGINS_WITH"); [intros E; arity E; by apply begins_stands|].
  destruct (String.eqb operator "BETWEEN"); [intros E; arity E; by apply between_stands|].
  destruct (String.eqb operator "CONTAINS"); [intros E; arity E; by apply contains_stands|].
  destruct (String.eqb operator "NOT_CONTAINS"); [intros E; arity E; by apply not_contains_stands|].
  destruct (String.eqb operator "NOT_NULL"); [intros E; arity E; by apply exists_stands|].
  destruct (String.eqb operator "NULL"); [intros E; arity E; by apply not_exists_stands|].
  destruct (String.eqb operator "IN"); [|done].
  destruct phs as [|p phs]; [done|]. intros [= <-]. by apply in_stands.
Qed.

Lemma resolve_attr item : resolve_doc_path item [Attr attr] = item !! attr.
Proof. simpl. by destruct (item !! attr). Qed.

Ltac one :=
  cbn [eval_cond resolve_operand]; rewrite ?resolve_attr; unfold arg; simpl;
  repeat match goal with H : values !! _ = Some _ |- _ => rewrite H; clear H end;
  match goal with |- context [?i !! attr] => by destruct (i !! attr) end.

(** A fragment evaluates as its operator. *)
Lemma fragment_eval operator phs role text vs item :
  build_legacy_fragment n operator phs role = Ok text ->
  Forall2 (fun ph v => values !! ph = Some v) phs vs ->
  eval_cond (fragment_cond operator attr phs) item values = operator_holds operator (item !! attr) vs.
Proof.
  unfold build_legacy_fragment, fragment_cond, operator_holds.
  destruct (match role with LegacyKey => _ | _ => _ end); [done|].
  destruct (infix_symbol operator) as [sym|] eqn:Es.
  { destruct (infix_lexes operator sym Es) as (t & op & Eo & _). rewrite Eo. intros E Hv. arity E.
    cbn [eval_cond resolve_operand]. rewrite resolve_attr. unfold arg. simpl.
    by match goal with H : values !! _ = Some _ |- _ => rewrite H end. }
  rewrite (infix_none operator Es). intros E Hv.
  destruct (String.eqb_spec operator "BEGINS_WITH") as [->|]; [arity E; one|].
  destruct (String.eqb_spec operator "BETWEEN") as [->|]; [arity E; one|].
  destruct (String.eqb_spec operator "CONTAINS") as [->|]; [arity E; one|].
  destruct (String.eqb_spec operator "NOT_CONTAINS") as [->|]; [arity E; one|].
  destruct (String.eqb_spec operator "NOT_NULL") as [->|]; [arity E; one|].
  destruct (String.eqb_spec operator "NULL") as [->|]; [arity E; one|].
  destruct (String.eqb operator "IN"); [|done].
  cbn [eval_cond resolve_operand]. rewrite resolve_attr. destruct (item !! attr) as [a|]; [|done]. clear E.
  induction Hv as [|p v phs1 vs1 Hp _ IH]; [done|]. rewrite fmap_cons. cbn [existsb resolve_operand].
  by rewrite Hp, IH.
Qed.

End Fragments.

(** ** Whole maps *)

(** The text before a character that is no digit is determined. *)
Lemma digits_prefix a b x y : string_forallb is_ascii_digit a = true -> string_forallb is_ascii_digit b = true ->
  match x with String c _ => is_ascii_digit c = false | EmptyString => True end ->
  match y with String c _ => is_ascii_digit c = false | EmptyString => True end ->
  a +:+ x = b +:+ y -> a = b.
Proof.
  revert b. induction a as [|c a IH]; intros [|d b] Ha Hb Hx Hy E; simpl in *.
  - done.
  - subst x. apply andb_true_iff in Hb as [Hd _]. congruence.
  - subst y. apply andb_true_iff in Ha as [Hc _]. congruence.
  - injection E as -> E. apply andb_true_iff in Ha as [_ Ha]. apply andb_true_iff in Hb as [_ Hb].
    f_equal. by apply IH.
Qed.

Section Translation.
Context `{Base64Decode} `{JsonText} (npre vpre : string)
  (f : nat -> string * Value -> Placeholders -> Placeholders * Result AwsServiceError string)
  (holds : Item -> string * Value -> bool).

(** The placeholders of entry [idx]. *)
Definition own_name (idx : nat) (k : string) : Prop := k = npre +:+ nat_text idx.
Definition own_value (idx : nat) (k : string) : Prop :=
  k = vpre +:+ nat_text idx \/ exists j, k = (vpre +:+ nat_text idx +:+ "_") +:+ nat_text j.

Lemma own_name_inj i j k : own_name i k -> own_name j k -> i = j.
Proof. intros -> E%string_app_inj_l%nat_text_inj. done. Qed.

Lemma own_value_inj i j k : own_value i k -> own_value j k -> i = j.
Proof.
  assert (Hx : forall i, own_value i k -> exists x, k = vpre +:+ (nat_text i +:+ x)
    /\ match x with String c _ => is_ascii_digit c = false | EmptyString => True end).
  { intros i0 [->|[j0 ->]]; [exists ""; by rewrite string_app_nil_r|].
    exists ("_" +:+ nat_text j0). by rewrite !string_app_assoc. }
  intros (x & -> & Px)%Hx (y & E & Py)%Hx. apply string_app_inj_l in E. apply nat_text_inj.
  eapply digits_prefix; [apply nat_text_digits|apply nat_text_digits|exact Px|exact Py|exact E].
Qed.

(** An entry's translation writes its own placeholders only, and its fragment
    means the entry wherever those are kept. *)
Definition agrees (idx : nat) (ph ph' : Placeholders) : Prop :=
  (forall k, own_name idx k -> ph'.1 !! k = ph.1 !! k) /\ (forall k, own_value idx k -> ph'.2 !! k = ph.2 !! k).

Definition means (ph : Placeholders) (e : string * Value) (frag : string) : Prop :=
  exists c, stands_for ph.1 ph.2 frag c /\ forall item, eval_cond c item ph.2 = holds item e.

Context (f_frame : forall idx idx' e ph ph1 r, f idx e ph = (ph1, r) -> idx <> idx' -> agrees idx' ph ph1)
  (f_means : forall idx e ph ph1 frag ph', f idx e ph = (ph1, Ok frag) -> agrees idx ph1 ph' -> means ph' e frag).

Lemma agrees_trans idx a b c : agrees idx a b -> agrees idx b c -> agrees idx a c.
Proof. intros [N1 V1] [N2 V2]. split; intros k Hk; [by rewrite N2, N1|by rewrite V2, V1]. Qed.

Lemma fragments_frame idx idx' entries ph ph' r : fragments f idx entries ph = (ph', r) ->
  idx' < idx -> agrees idx' ph ph'.
Proof.
  revert idx ph ph' r. induction entries as [|e more IH]; intros idx ph ph' r; simpl.
  { intros [= <- <-] _. done. }
  destruct (f idx e ph) as [ph1 [frag|err]] eqn:E.
  - destruct (fragments f (S idx) more ph1) as [ph2 r2] eqn:E2. intros [= <- <-] Hi.
    eapply agrees_trans; [eapply f_frame; [exact E|lia]|eapply IH; [exact E2|lia]].
  - intros [= <- <-] Hi. eapply f_frame; [exact E|lia].
Qed.

Lemma fragments_mean idx entries ph ph' frags : fragments f idx entries ph = (ph', Ok frags) ->
  Forall2 (means ph') entries frags.
Proof.
  revert idx ph frags. induction entries as [|e more IH]; intros idx ph frags; simpl.
  { intros [= <- <-]. constructor. }
  destruct (f idx e ph) as [ph1 [frag|err]] eqn:E; [|done].
  destruct (fragments f (S idx) more ph1) as [ph2 [frags2|err]] eqn:E2; [|done]. intros [= <- <-].
  constructor; [|by eapply IH]. eapply f_means; [exact E|]. eapply fragments_frame; [exact E2|lia].
Qed.

(** ** Joined fragments *)

Lemma concat_snoc sep l x : l <> [] -> join sep (l ++ [x]) = join sep l +:+ sep +:+ x.
Proof.
  unfold join. induction l as [|a [|b l] IH]; intros Hl; [done|done|].
  change (String.concat sep ((a :: b :: l) ++ [x])) with (a +:+ sep +:+ String.concat sep ((b :: l) ++ [x])).
  rewrite IH by done. change (String.concat sep (a :: b :: l)) with (a +:+ sep +:+ String.concat sep (b :: l)).
  by rewrite !string_app_assoc.
Qed.

Lemma lexes_join sep kw a b la lb : (sep = " " +:+ kw +:+ " ")%string -> kw <> "" -> word kw ->
  string_forallb is_ascii_digit kw = false -> lexes true a la -> lexes true b lb ->
  lexes true (a +:+ sep +:+ b) (la ++ (TIdent, kw) :: lb).
Proof.
  intros -> Hk Wk Dk Ha Hb r Hr. rewrite !string_app_assoc, Ha by done. cbn [String.append].
  rewrite words_blank by done. rewrite words_ident by done. rewrite words_blank by done.
  rewrite Hb by done. by rewrite <- app_assoc.
Qed.

(** A chain of one connective over the fragments. *)
Lemma joined (kw sep : string) (mk : Cond -> Cond -> Cond) (item_level level : Level) (op : bool -> bool -> bool)
  (big : (string * Value -> bool) -> list (string * Value) -> bool) ph entries frags :
  sep = " " +:+ kw +:+ " " -> kw <> "" -> word kw -> string_forallb is_ascii_digit kw = false ->
  (forall l c, G ph.1 ph.2 false LNot l c -> G ph.1 ph.2 false item_level l c) ->
  (forall l c, G ph.1 ph.2 false item_level l c -> G ph.1 ph.2 false level l c) ->
  (forall l1 l2 a b, G ph.1 ph.2 false level l1 a -> G ph.1 ph.2 false item_level l2 b ->
     G ph.1 ph.2 false level (l1 ++ (TIdent, kw) :: l2) (mk a b)) ->
  (forall a b item, eval_cond (mk a b) item ph.2 = op (eval_cond a item ph.2) (eval_cond b item ph.2)) ->
  (forall h e, big h [e] = h e) -> (forall h l e, l <> [] -> big h (l ++ [e]) = op (big h l) (h e)) ->
  frags <> [] -> Forall2 (means ph) entries frags ->
  exists l c, lexes true (join sep frags) l /\ G ph.1 ph.2 false level l c
    /\ forall item, eval_cond c item ph.2 = big (holds item) entries.
Proof.
  intros Es Hk Wk Dk Hitem Hone Hstep Hmk Hb1 Hbs Hne. revert entries Hne.
  induction frags as [|x frags IH] using rev_ind; [done|]. intros entries _ HF.
  apply Forall2_app_inv_r in HF as (es & es1 & HF & Hx & ->).
  apply Forall2_cons_inv_r in Hx as (e & es2 & (c & (l & Hl & Hg) & Hc) & Hn & ->).
  apply Forall2_nil_inv_r in Hn as ->. destruct frags as [|y frags].
  { apply Forall2_nil_inv_r in HF as ->. exists l, c. split; [exact Hl|]. split; [by apply Hone, Hitem|].
    intros item. simpl. by rewrite Hb1. }
  destruct (IH es ltac:(done) HF) as (l0 & c0 & Hl0 & Hg0 & Hc0).
  exists (l0 ++ (TIdent, kw) :: l), (mk c0 c). split; [|split].
  - rewrite concat_snoc by done. by apply lexes_join.
  - apply Hstep; [done|by apply Hitem].
  - intros item. rewrite Hmk, Hc0, Hc, Hbs; [done|]. apply Forall2_length in HF. by destruct es.
Qed.

Lemma forallb_snoc {A} (h : A -> bool) l e : forallb h (l ++ [e]) = forallb h l && h e.
Proof. rewrite forallb_app. simpl. by rewrite andb_true_r. Qed.

Lemma existsb_snoc {A} (h : A -> bool) l e : existsb h (l ++ [e]) = existsb h l || h e.
Proof. rewrite existsb_app. simpl. by rewrite orb_false_r. Qed.

Definition combine (any : bool) (h : string * Value -> bool) (l : list (string * Value)) : bool :=
  if any then existsb h l else forallb h l.

Definition joiner (any : bool) : string := if any then " OR " else " AND ".

Lemma lexes_all text l : lexes true text l -> words text true = l.
Proof.
  intros Hl. pose proof (Hl "" I) as E. rewrite string_app_nil_r in E. rewrite E. by rewrite app_nil_r.
Qed.

(** A translated map is read back by the parser and evaluates to the
    combination of its entries. *)
Lemma translation_parses any entries frags ph ph' : frags <> [] -> fragments f 0 entries ph = (ph', Ok frags) ->
  exists c, parse_condition_lenient value_text (join (joiner any) frags) ph'.1 ph'.2 = Some c
    /\ forall item, eval_cond c item ph'.2 = combine any (holds item) entries.
Proof.
  intros Hne HF%fragments_mean. destruct any.
  - destruct (joined "OR" " OR " Or LAnd LOr orb (fun h l => existsb h l) ph' entries frags) as (l & c & Hl & Hg & Hc);
      try done; eauto using G_and_one, G_or_one.
    + intros l1 l2 a b Ha Hb. by apply G_or.
    + intros h e. apply orb_false_r.
    + intros h l e _. apply existsb_snoc.
    + exists c. split; [|done]. apply lenient_parse. cbn [joiner]. by rewrite (lexes_all _ _ Hl).
  - destruct (joined "AND" " AND " And LNot LAnd andb (fun h l => forallb h l) ph' entries frags) as (l & c & Hl & Hg & Hc);
      try done; eauto using G_and_one, G_or_one.
    + intros l1 l2 a b Ha Hb. by apply G_and.
    + intros h e. apply andb_true_r.
    + intros h l e _. apply forallb_snoc.
    + exists c. split; [|done]. apply lenient_parse. cbn [joiner]. rewrite (lexes_all _ _ Hl). by apply G_or_one.
Qed.

End Translation.

(** ** The two legacy forms *)

Lemma Ok_inj {E A} (a b : A) : Ok (E := E) a = Ok b -> a = b.
Proof. by intros [=]. Qed.

Section Forms.
Context `{Base64Decode} `{JsonText}.

Lemma placeholder_nat m c w idx : word (String c w) -> placeholder m (String m (String c w) +:+ nat_text idx).
Proof. intros Hw. apply placeholder_text. change (word (String c w +:+ nat_text idx)). apply word_app; [done|apply nat_text_word]. Qed.

(** The operator form, shared by both. *)
Lemma operator_means idx operator attr spec npre vpre (c d : ascii) (w v : string) role ph phs values text ph' :
  npre = String "#" (String c w) -> vpre = String ":" (String d v) -> word (String c w) -> word (String d v) ->
  hoist_values (vpre +:+ nat_text idx +:+ "_") 0 (value_list spec) ph.2 = (phs, values) ->
  build_legacy_fragment (npre +:+ nat_text idx) operator phs role = Ok text ->
  agrees npre vpre idx (<[npre +:+ nat_text idx := attr]> ph.1, values) ph' ->
  exists k, stands_for ph'.1 ph'.2 text k
    /\ forall item, eval_cond k item ph'.2 = operator_holds operator (item !! attr) (value_list spec).
Proof.
  intros En Ev Wn Wv Eh Eb [An Av]. cbn [fst snd] in *.
  assert (Pn : placeholder "#" (npre +:+ nat_text idx)) by (rewrite En; by apply placeholder_nat).
  assert (Ps : Forall (placeholder ":") phs).
  { rewrite Ev in Eh. eapply (hoist_values_placeholders ":" d (v +:+ nat_text idx +:+ "_")); [|exact Eh].
    change (word (String d v +:+ (nat_text idx +:+ "_"))). apply word_app; [done|].
    apply word_app; [apply nat_text_word|done]. }
  assert (Hn : ph'.1 !! (npre +:+ nat_text idx) = Some attr) by (rewrite An by done; apply lookup_insert_eq).
  exists (fragment_cond operator attr phs). split; [by eapply fragment_stands|].
  intros item. eapply fragment_eval; [exact Eb|]. pose proof (hoist_values_lookup _ _ _ _ _ _ Eh) as Hl.
  pose proof (hoist_values_shape _ _ _ _ _ _ Eh) as Hs. clear -Hl Hs Av.
  induction Hl as [|p x phs l Hp Hl IH]; constructor.
  - apply Forall_cons in Hs as [[j ->] _]. rewrite Av; [done|]. right. by exists j.
  - apply Forall_cons in Hs as [_ Hs]. by apply IH.
Qed.

(** Entries with other indices keep their placeholders. *)
Lemma operator_frame npre vpre idx idx' n values ph phs l : idx <> idx' ->
  hoist_values (vpre +:+ nat_text idx +:+ "_") 0 l ph.2 = (phs, values) ->
  agrees npre vpre idx' ph (<[npre +:+ nat_text idx := n]> ph.1, values).
Proof.
  intros Hi Eh. split; intros k Hk; cbn [fst snd].
  - rewrite lookup_insert_ne; [done|]. intros <-. apply Hi. by eapply own_name_inj.
  - eapply hoist_values_old; [exact Eh|]. intros j ->. apply Hi. eapply own_value_inj; [|exact Hk]. right. by exists j.
Qed.

Lemma legacy_entry_frame role tag idx idx' e ph ph1 r : legacy_entry role tag idx e ph = (ph1, r) -> idx <> idx' ->
  agrees ("#leg" +:+ tag) (":legv" +:+ tag) idx' ph ph1.
Proof.
  unfold legacy_entry. destruct e as [attr spec]. destruct (get_str "ComparisonOperator" spec); [|by intros [= <- <-]].
  destruct (hoist_values _ 0 (value_list spec) ph.2) as [phs values] eqn:E. intros [<- _]%pair_eq Hi.
  rewrite <- (string_app_assoc "#leg" tag). eapply operator_frame; [exact Hi|]. rewrite !string_app_assoc. exact E.
Qed.

Lemma legacy_entry_means role tag idx e ph ph1 frag ph' : word tag ->
  legacy_entry role tag idx e ph = (ph1, Ok frag) ->
  agrees ("#leg" +:+ tag) (":legv" +:+ tag) idx ph1 ph' -> means legacy_holds ph' e frag.
Proof.
  intros Ht. unfold legacy_entry, means, legacy_holds. destruct e as [attr spec]. cbn [fst snd].
  destruct (get_str "ComparisonOperator" spec) as [operator|]; [|done].
  destruct (hoist_values _ 0 (value_list spec) ph.2) as [phs values] eqn:E. intros [<- Eb]%pair_eq A.
  eapply (operator_means idx operator attr spec ("#leg" +:+ tag) (":legv" +:+ tag) "l" "l" ("eg" +:+ tag) ("egv" +:+ tag));
    [done|done|..|rewrite !string_app_assoc; exact E|rewrite string_app_assoc; exact Eb|rewrite string_app_assoc; exact A].
  - by apply (word_app "leg" tag).
  - by apply (word_app "legv" tag).
Qed.

Lemma expected_entry_frame idx idx' e ph ph1 r : expected_entry idx e ph = (ph1, r) -> idx <> idx' ->
  agrees "#exp" ":expv" idx' ph ph1.
Proof.
  unfold expected_entry. destruct e as [attr spec]. intros E Hi.
  assert (Hn : forall k, own_name "#exp" idx' k -> <["#exp" +:+ nat_text idx := attr]> ph.1 !! k = ph.1 !! k).
  { intros k Hk. rewrite lookup_insert_ne; [done|]. intros <-. apply Hi. by eapply own_name_inj. }
  destruct (get "ComparisonOperator" spec) as [o|].
  { destruct (hoist_values _ 0 (value_list spec) ph.2) as [phs values] eqn:Eh. apply pair_eq in E as [<- _].
    by eapply operator_frame. }
  assert (Hv : forall v k, own_value ":expv" idx' k -> <[":expv" +:+ nat_text idx := v]> ph.2 !! k = ph.2 !! k).
  { intros v k Hk. rewrite lookup_insert_ne; [done|]. intros <-. apply Hi. eapply own_value_inj; [by left|exact Hk]. }
  destruct (get "Exists" spec ≫= as_bool) as [[]|], (get "Value" spec) as [v|]; apply pair_eq in E as [<- _];
    (split; [exact Hn|try exact (Hv v); done]).
Qed.

Lemma expected_entry_means idx e ph ph1 frag ph' : expected_entry idx e ph = (ph1, Ok frag) ->
  agrees "#exp" ":expv" idx ph1 ph' -> means expected_holds ph' e frag.
Proof.
  unfold expected_entry, means, expected_holds. destruct e as [attr spec].
  destruct (get "ComparisonOperator" spec) as [o|].
  { destruct (hoist_values _ 0 (value_list spec) ph.2) as [phs values] eqn:E. intros [<- Eb]%pair_eq A.
    by eapply (operator_means idx _ attr spec "#exp" ":expv" "e" "e" "xp" "xpv"). }
  assert (Pn : placeholder "#" ("#exp" +:+ nat_text idx)) by (by apply placeholder_nat).
  assert (Pv : placeholder ":" (":expv" +:+ nat_text idx)) by (by apply placeholder_nat).
  destruct (get "Exists" spec ≫= as_bool) as [[]|], (get "Value" spec) as [v|]; intros [<- Ef]%pair_eq [An Av]; try done; apply Ok_inj in Ef as <-;
    assert (Hn : ph'.1 !! ("#exp" +:+ nat_text idx) = Some attr) by (rewrite An by done; apply lookup_insert_eq).
  all: try (eexists; split; [by eapply exists_stands|by intros; cbn [eval_cond]; rewrite resolve_attr]).
  all: try (eexists; split; [by eapply not_exists_stands|by intros; cbn [eval_cond]; rewrite resolve_attr]).
  all: assert (Hw : ph'.2 !! (":expv" +:+ nat_text idx) = Some v) by (rewrite Av by (by left); apply lookup_insert_eq).
  all: eexists; split; [by eapply (infix_stands _ _ _ attr Pn Hn "EQ" "=")|].
  all: intros item; cbn [eval_cond resolve_operand]; by rewrite resolve_attr, Hw.
Qed.

End Forms.

(** ** The text evaluators terminate *)

(** Every part of a text that was split is shorter than the text. *)
Lemma match_keyword_end s i kw e : match_keyword s i kw = Some e -> e = i + String.length kw /\ e <= String.length s.
Proof.
  unfold match_keyword. destruct (Nat.ltb_spec (String.length s) (i + String.length kw)); [done|].
  repeat case_match; intros [= <-]; lia.
Qed.

Lemma slice_length s i j : String.length (slice s i j) <= j - i.
Proof.
  unfold slice. generalize (j - i) as n, (string_drop i s) as t. intros n. induction n as [|n IH]; intros [|c t]; simpl; try lia.
  specialize (IH t). lia.
Qed.

Lemma split_loop_shorter fuel expr kw i st : kw <> "" -> sp_start st <= i ->
  let parts := split_loop fuel expr kw i st in
  let n := String.length expr - sp_start st in
  Forall (fun p => String.length p <= n) parts
  /\ (2 <= length parts -> Forall (fun p => String.length p < n) parts).
Proof.
  intros Hk. assert (0 < String.length kw) by (destruct kw; simpl; [done|lia]). cbn zeta.
  revert i st. induction fuel as [|fuel IH]; intros i st Hi; cbn [split_loop].
  { split; [|simpl; lia]. constructor; [by rewrite string_drop_length|constructor]. }
  destruct (char_at expr i) as [ch|]; cycle 1.
  { split; [|simpl; lia]. constructor; [by rewrite string_drop_length|constructor]. }
  destruct st as [start depth between sq dq]. cbn [sp_start] in *. cbn zeta.
  assert (Hstep : forall i' st', start <= i' -> sp_start st' = start ->
    Forall (fun p => String.length p <= String.length expr - start) (split_loop fuel expr kw i' st')
    /\ (2 <= length (split_loop fuel expr kw i' st') ->
        Forall (fun p => String.length p < String.length expr - start) (split_loop fuel expr kw i' st'))).
  { intros i' st' Hi' Hs. rewrite <- Hs. apply IH. by rewrite Hs. }
  repeat match goal with |- context [if ?b then split_loop fuel expr kw (i + 1) _ else _] =>
    destruct b; [apply Hstep; [lia|done]|] end.
  destruct (depth =? 0)%nat; [|apply Hstep; [lia|done]].
  destruct (if eq_ignore_ascii_case kw "AND" then match_keyword expr i "BETWEEN" else None) as [e|] eqn:Eb.
  { destruct eq_ignore_ascii_case in Eb; [|done]. apply match_keyword_end in Eb as [-> _]. apply Hstep; [lia|done]. }
  destruct (match_keyword expr i kw) as [e|] eqn:Ek; [|apply Hstep; [lia|done]].
  apply match_keyword_end in Ek as [-> He].
  destruct (_ && _); [apply Hstep; [lia|done]|].
  pose proof (slice_length expr start i) as Hs.
  destruct (IH (i + String.length kw) (mkSplit (i + String.length kw) depth between false false)) as [H1 _]; [done|].
  cbn [sp_start] in H1. assert (Forall (fun p => String.length p < String.length expr - start)
    (split_loop fuel expr kw (i + String.length kw) (mkSplit (i + String.length kw) depth between false false))).
  { eapply Forall_impl; [exact H1|]. cbn beta. lia. }
  split; [constructor|intros _; constructor]; try lia; [|done]. eapply Forall_impl; [done|]. cbn beta. lia.
Qed.

Lemma split_shorter expr kw p : kw <> "" -> 2 <= length (split_on_top_level_keyword expr kw) ->
  p ∈ split_on_top_level_keyword expr kw -> String.length p < String.length expr.
Proof.
  intros Hk Hn Hp. destruct (split_loop_shorter (String.length expr) expr kw 0 (mkSplit 0 0 0 false false) Hk) as [_ H]; [done|].
  cbn [sp_start] in H. specialize (H Hn). rewrite Nat.sub_0_r in H. by eapply Forall_forall in H.
Qed.

Lemma trim_length s : String.length (trim s) <= String.length s.
Proof.
  unfold trim. transitivity (String.length (trim_start s)).
  - generalize (trim_start s). intros t. induction t as [|c t IH]; simpl; [lia|].
    destruct (trim_end t); simpl in *; [destruct (is_whitespace c); simpl; lia|lia].
  - induction s as [|c s IH]; simpl; [lia|]. destruct (is_whitespace c); simpl; lia.
Qed.

Lemma trim_start_head s : match trim_start s with String c _ => is_whitespace c = false | EmptyString => True end.
Proof. induction s as [|c s IH]; simpl; [done|]. destruct (is_whitespace c) eqn:E; [exact IH|done]. Qed.

Lemma trim_end_idem s : trim_end (trim_end s) = trim_end s.
Proof.
  induction s as [|c s IH]; simpl; [done|]. destruct (trim_end s) as [|d t] eqn:E.
  - destruct (is_whitespace c) eqn:W; simpl; [done|by rewrite W].
  - cbn [trim_end] in *. by rewrite IH.
Qed.

Lemma trim_trim s : trim (trim s) = trim s.
Proof.
  unfold trim. pose proof (trim_start_head s) as Hh. destruct (trim_start s) as [|c t]; [done|].
  assert (Es : trim_start (trim_end (String c t)) = trim_end (String c t)).
  { cbn [trim_end]. destruct (trim_end t); [rewrite Hh|]; simpl; by rewrite Hh. }
  by rewrite Es, trim_end_idem.
Qed.

Lemma strip_outer_parens_shorter s : strip_outer_parens s <> trim s ->
  String.length (strip_outer_parens s) < String.length (trim s).
Proof.
  unfold strip_outer_parens. destruct (starts_with "(" (trim s)) eqn:Es; simpl; [|done].
  destruct (ends_with ")" (trim s)); simpl; [|done]. destruct balanced; [|done]. intros _.
  pose proof (slice_length (trim s) 1 (String.length (trim s) - 1)). destruct (trim s); simpl in *; [done|lia].
Qed.

Lemma strip_not_shorter s rest : strip_not s = Some rest -> String.length rest < String.length s.
Proof.
  unfold strip_not. destruct (eq_ignore_ascii_case (string_take 3 s) "NOT") eqn:E; [|done].
  destruct (string_drop 3 s) as [|c t] eqn:Ed; [done|]. case_match; [|done]. intros [= <-].
  rewrite <- Ed, string_drop_length. destruct s; [done|]. simpl. lia.
Qed.

(** A recursive call on a shorter text. *)
Lemma existsb_ext {A} (f g : A -> bool) l : (forall x, x ∈ l -> f x = g x) -> existsb f l = existsb g l.
Proof.
  induction l as [|x l IH]; intros Hl; [done|]. simpl. rewrite Hl by left. f_equal. apply IH.
  intros y Hy. apply Hl. by right.
Qed.

Lemma forallb_ext {A} (f g : A -> bool) l : (forall x, x ∈ l -> f x = g x) -> forallb f l = forallb g l.
Proof.
  induction l as [|x l IH]; intros Hl; [done|]. simpl. rewrite Hl by left. f_equal. apply IH.
  intros y Hy. apply Hl. by right.
Qed.

Section Recursion.
Context `{Base64Decode} `{JsonText} (item : Item) (names : gmap string string) (values : gmap string Value).

Notation filter_n := (filter_expression item names values).
Notation filter := (evaluate_filter_expression item names values).
Notation key_n := (key_condition item names values).
Notation key := (evaluate_key_condition item names values).

Lemma part_shorter kw s p : kw <> "" -> 2 <= length (split_on_top_level_keyword s kw) ->
  p ∈ split_on_top_level_keyword s kw -> String.length (trim p) < String.length s.
Proof. intros Hk Hn Hp. pose proof (split_shorter _ _ _ Hk Hn Hp). pose proof (trim_length p). lia. Qed.

Lemma filter_fuel m n expr : String.length expr < m -> String.length expr < n ->
  filter_n m expr = filter_n n expr.
Proof.
  revert n expr. induction m as [|m IH]; intros [|n] expr Hm Hn; try lia. cbn [filter_expression].
  destruct (parse_condition_lenient value_text expr names values); [done|]. cbn zeta.
  pose proof (trim_length expr) as Ht.
  assert (Hp : forall kw p, kw <> "" -> 2 <= length (split_on_top_level_keyword (trim expr) kw) ->
    p ∈ split_on_top_level_keyword (trim expr) kw -> filter_n m (trim p) = filter_n n (trim p)).
  { intros kw p Hk H2 Hp. pose proof (part_shorter _ _ _ Hk H2 Hp). apply IH; lia. }
  destruct (split_on_or (trim expr)) as [|a [|b l]] eqn:Eo.
  3: { apply existsb_ext. intros p E. rewrite <- Eo in E. eapply (Hp "OR"); [done| |exact E].
       unfold split_on_or in Eo. rewrite Eo. simpl. lia. }
  all: destruct (split_on_and (trim expr)) as [|a' [|b' l']] eqn:Ea.
  3, 6: apply forallb_ext; intros p E; rewrite <- Ea in E; (eapply (Hp "AND"); [done| |exact E]);
        unfold split_on_and in Ea; rewrite Ea; simpl; lia.
  all: destruct (String.eqb_spec (strip_outer_parens (trim expr)) (trim expr)) as [E|E]; simpl.
  all: try (apply IH; pose proof (strip_outer_parens_shorter (trim expr)) as Hs; pose proof (trim_length (trim expr));
            rewrite trim_trim in Hs; specialize (Hs E); lia).
  all: destruct (strip_not (trim expr)) as [rest|] eqn:En; [|done];
       apply strip_not_shorter in En; f_equal; apply IH; lia.
Qed.

Lemma key_fuel m n expr : String.length expr < m -> String.length expr < n -> key_n m expr = key_n n expr.
Proof.
  revert n expr. induction m as [|m IH]; intros [|n] expr Hm Hn; try lia. cbn [key_condition].
  destruct (parse_condition_lenient value_text expr names values); [done|]. cbn zeta.
  pose proof (trim_length expr) as Ht.
  destruct (split_on_and (trim expr)) as [|a [|b l]] eqn:Ea.
  3: { apply forallb_ext. intros p E. rewrite <- Ea in E. pose proof (part_shorter "AND" (trim expr) p ltac:(done)) as Hp.
       unfold split_on_and in Ea, E. rewrite Ea in Hp. simpl in Hp. rewrite Ea in E. specialize (Hp ltac:(lia) E). apply IH; lia. }
  all: destruct (String.eqb_spec (strip_outer_parens (trim expr)) (trim expr)) as [E|E]; simpl; [done|].
  all: apply IH; pose proof (strip_outer_parens_shorter (trim expr)) as Hs; pose proof (trim_length (trim expr));
       rewrite trim_trim in Hs; specialize (Hs E); lia.
Qed.

(** C28 (termination): the evaluators of conditions satisfy the recursion of the source,
    whatever the text: no call runs out of fuel. *)
Theorem condition_text_recursion expr :
  filter expr = match parse_condition_lenient value_text expr names values with
    | Some cond => eval_cond cond item values
    | None =>
        let trimmed := trim expr in
        if (1 <? length (split_on_or trimmed))%nat then existsb (fun p => filter (trim p)) (split_on_or trimmed)
        else if (1 <? length (split_on_and trimmed))%nat then forallb (fun p => filter (trim p)) (split_on_and trimmed)
        else if negb (String.eqb (strip_outer_parens trimmed) trimmed) then filter (strip_outer_parens trimmed)
        else match strip_not trimmed with
             | Some rest => negb (filter rest)
             | None => evaluate_single_filter_condition item names values trimmed
             end
    end
  /\ key expr = match parse_condition_lenient value_text expr names values with
    | Some cond => eval_cond cond item values
    | None =>
        let trimmed := trim expr in
        if (1 <? length (split_on_and trimmed))%nat then forallb (fun p => key (trim p)) (split_on_and trimmed)
        else if negb (String.eqb (strip_outer_parens trimmed) trimmed) then key (strip_outer_parens trimmed)
        else evaluate_single_key_condition item names values trimmed
    end.
Proof.
  pose proof (trim_length expr) as Ht. pose proof (strip_outer_parens_shorter (trim expr)) as Hs. rewrite trim_trim in Hs.
  split.
  - unfold evaluate_filter_expression at 1. cbn [filter_expression].
    destruct (parse_condition_lenient value_text expr names values); [done|]. cbn zeta.
    destruct (split_on_or (trim expr)) as [|a [|b l]] eqn:Eo; cbn [length Nat.ltb Nat.leb].
    3: { apply existsb_ext. intros p E. rewrite <- Eo in E. unfold evaluate_filter_expression.
         pose proof (part_shorter "OR" (trim expr) p ltac:(done)) as Hp. unfold split_on_or in Eo, E.
         rewrite Eo in Hp. simpl in Hp. rewrite Eo in E. specialize (Hp ltac:(lia) E). apply filter_fuel; lia. }
    all: destruct (split_on_and (trim expr)) as [|a' [|b' l']] eqn:Ea; cbn [length Nat.ltb Nat.leb].
    3, 6: apply forallb_ext; intros p E; rewrite <- Ea in E; unfold evaluate_filter_expression;
          pose proof (part_shorter "AND" (trim expr) p ltac:(done)) as Hp; unfold split_on_and in Ea, E;
          rewrite Ea in Hp; simpl in Hp; rewrite Ea in E; specialize (Hp ltac:(lia) E); apply filter_fuel; lia.
    all: destruct (String.eqb_spec (strip_outer_parens (trim expr)) (trim expr)) as [E|E]; cbn [negb].
    all: try (specialize (Hs E); unfold evaluate_filter_expression; apply filter_fuel; lia).
    all: destruct (strip_not (trim expr)) as [rest|] eqn:En; [|done];
         apply strip_not_shorter in En; unfold evaluate_filter_expression; f_equal; apply filter_fuel; lia.
  - unfold evaluate_key_condition at 1. cbn [key_condition].
    destruct (parse_condition_lenient value_text expr names values); [done|]. cbn zeta.
    destruct (split_on_and (trim expr)) as [|a [|b l]] eqn:Ea; cbn [length Nat.ltb Nat.leb].
    3: { apply forallb_ext. intros p E. rewrite <- Ea in E. unfold evaluate_key_condition.
         pose proof (part_shorter "AND" (trim expr) p ltac:(done)) as Hp. unfold split_on_and in Ea, E.
         rewrite Ea in Hp. simpl in Hp. rewrite Ea in E. specialize (Hp ltac:(lia) E). apply key_fuel; lia. }
    all: destruct (String.eqb_spec (strip_outer_parens (trim expr)) (trim expr)) as [E|E]; cbn [negb]; [done|].
    all: specialize (Hs E); unfold evaluate_key_condition; apply key_fuel; lia.
Qed.

End Recursion.

(** ** Legacy parameters mean their entries *)

Section Legacy.
Context `{Base64Decode} `{JsonText}.

Lemma parsed_condition text names values c : parse_condition_lenient value_text text names values = Some c ->
  forall item, evaluate_filter_expression item names values text = eval_cond c item values
    /\ evaluate_key_condition item names values text = eval_cond c item values.
Proof.
  intros E item. unfold evaluate_filter_expression, evaluate_key_condition. simpl. by rewrite E.
Qed.

Lemma combine_perm any h l l' : l ≡ₚ l' -> combine any h l = combine any h l'.
Proof.
  unfold combine. destruct any; induction 1 as [|x l l' _ IH|x y l|l l' l'' _ IH1 _ IH2]; simpl; try congruence.
  - by rewrite orb_assoc, (orb_comm (h y)), <- orb_assoc.
  - by rewrite andb_assoc, (andb_comm (h y)), <- andb_assoc.
Qed.

Lemma combine_sorted any h l : combine any h (sort_entries l) = combine any h l.
Proof. apply combine_perm, merge_sort_Permutation. Qed.

Lemma sort_entries_nil l : sort_entries l = [] -> l = [].
Proof. intros E. apply Permutation_nil_r. rewrite <- E. symmetry. apply merge_sort_Permutation. Qed.

Lemma fragments_length f idx entries ph ph' frags : fragments f idx entries ph = (ph', Ok frags) ->
  length frags = length entries.
Proof.
  revert idx ph frags. induction entries as [|e more IH]; intros idx ph frags; simpl; [by intros [= _ <-]|].
  destruct (f idx e ph) as [ph1 [frag|err]]; [|done].
  destruct (fragments f (S idx) more ph1) as [ph2 [frags2|err]] eqn:E2; [|done]. intros [= <- <-].
  simpl. f_equal. by eapply IH.
Qed.

(** A translated map, whichever the form of its entries. *)
Lemma translated npre vpre f holds any entries frags ph ph' :
  (forall idx idx' e ph ph1 r, f idx e ph = (ph1, r) -> idx <> idx' -> agrees npre vpre idx' ph ph1) ->
  (forall idx e ph ph1 frag ph', f idx e ph = (ph1, Ok frag) -> agrees npre vpre idx ph1 ph' -> means holds ph' e frag) ->
  entries <> [] -> fragments f 0 (sort_entries entries) ph = (ph', Ok frags) ->
  forall item, evaluate_filter_expression item ph'.1 ph'.2 (join (joiner any) frags) = combine any (holds item) entries
    /\ evaluate_key_condition item ph'.1 ph'.2 (join (joiner any) frags) = combine any (holds item) entries.
Proof.
  intros Hf Hm Hne E item.
  assert (frags <> []).
  { intros ->. apply fragments_length in E. apply Hne, sort_entries_nil, nil_length_inv. by rewrite <- E. }
  destruct (translation_parses npre vpre f holds Hf Hm any (sort_entries entries) frags ph ph') as (c & Hp & Hc); [done..|].
  destruct (parsed_condition _ _ _ _ Hp item) as [-> ->]. by rewrite Hc, combine_sorted.
Qed.

(** C17 (equivalence): an [Expected] map that is accepted becomes a condition
    expression which, with the placeholders the translation adds, accepts exactly the items
    the entries accept by themselves, taken all together or, under [OR], any of them; and so
    do [KeyConditions] and [QueryFilter] maps, under both evaluators. *)
Theorem legacy_conditions_faithful entries op ph ph' text :
  entries <> [] ->
  (translate_legacy_expected entries op ph = (ph', Ok text) ->
    forall item, evaluate_filter_expression item ph'.1 ph'.2 text
      = combine (eq_ignore_ascii_case op "OR") (expected_holds item) entries)
  /\ forall role, translate_legacy_conditions entries role op ph = (ph', Ok text) ->
    let any := match role with LegacyFilter => eq_ignore_ascii_case op "OR" | LegacyKey => false end in
    forall item, evaluate_filter_expression item ph'.1 ph'.2 text = combine any (legacy_holds item) entries
      /\ evaluate_key_condition item ph'.1 ph'.2 text = combine any (legacy_holds item) entries.
Proof.
  intros Hne. split.
  - unfold translate_legacy_expected. destruct (fragments _ 0 _ ph) as [ph1 [frags|err]] eqn:E; [|done].
    intros [<- Et]%pair_eq item. apply Ok_inj in Et as <-.
    eapply (translated "#exp" ":expv"); [by eauto using expected_entry_frame|by eauto using expected_entry_means|done|exact E].
  - intros role. unfold translate_legacy_conditions. cbn zeta.
    destruct (fragments _ 0 _ ph) as [ph1 [frags|err]] eqn:E; [|done].
    intros [<- Et]%pair_eq item. apply Ok_inj in Et as <-.
    set (tag := match role with LegacyKey => "k" | LegacyFilter => "f" end) in E.
    assert (word tag) by (by destruct role).
    eapply (translated ("#leg" +:+ tag) (":legv" +:+ tag));
      [by eauto using legacy_entry_frame|by eauto using legacy_entry_means|done|exact E].
Qed.

End Legacy.

(** ** Witnesses *)

Module LegacyWitness.

#[local] Instance base64_none : Base64Decode := {| base64_decode _ := None |}.
#[local] Instance no_text : JsonText := {| scalar_text _ := ""; value_text _ := "" |}.

Definition str (s : string) : Value := VObject [("S", VString s)].
Definition num (n : string) : Value := VObject [("N", VString n)].
Definition cond (op : string) (vs : list Value) : Value :=
  VObject [("ComparisonOperator", VString op); ("AttributeValueList", VArray vs)].

(** The conditions of [key_conditions_eq_and_begins_with]. *)
Definition by_key : list (string * Value) :=
  [("sk", cond "BEGINS_WITH" [str "order#"]); ("pk", cond "EQ" [str "user"])].
Definition order : Item := <["pk" := str "user"]> {[ "sk" := str "order#1" ]}.

Example by_key_text : translate_legacy_conditions by_key LegacyKey "OR" (∅, ∅)
  = ((<["#legk1" := "sk"]> {[ "#legk0" := "pk" ]},
      <[":legvk1_0" := str "order#"]> {[ ":legvk0_0" := str "user" ]}),
     Ok "#legk0 = :legvk0_0 AND begins_with(#legk1, :legvk1_0)").
Proof. vm_compute. reflexivity. Qed.

(** [Expected] with two entries joined by [OR]. *)
Definition either : list (string * Value) :=
  [("status", VObject [("Exists", VBool false)]); ("price", cond "BETWEEN" [num "1"; num "9"])].

Lemma legacy_conditions_faithful_witness :
  let ph := fst (translate_legacy_expected either "or" (∅, ∅)) in
  evaluate_filter_expression {[ "status" := str "new" ]} ph.1 ph.2
    "#exp0 BETWEEN :expv0_0 AND :expv0_1 OR attribute_not_exists(#exp1)" = false
  /\ let ph := fst (translate_legacy_conditions by_key LegacyKey "OR" (∅, ∅)) in
  evaluate_key_condition order ph.1 ph.2 "#legk0 = :legvk0_0 AND begins_with(#legk1, :legvk1_0)" = true.
Proof.
  split.
  - cbv zeta. destruct (legacy_conditions_faithful either "or" (∅, ∅) (fst (translate_legacy_expected either "or" (∅, ∅)))
      "#exp0 BETWEEN :expv0_0 AND :expv0_1 OR attribute_not_exists(#exp1)" ltac:(done)) as [H _].
    rewrite H by (vm_compute; reflexivity). vm_compute. reflexivity.
  - cbv zeta. destruct (legacy_conditions_faithful by_key "OR" (∅, ∅) (fst (translate_legacy_conditions by_key LegacyKey "OR" (∅, ∅)))
      "#legk0 = :legvk0_0 AND begins_with(#legk1, :legvk1_0)" ltac:(done)) as [_ H].
    destruct (H LegacyKey ltac:(vm_compute; reflexivity) order) as [_ ->]. vm_compute. reflexivity.
Defined.

Example epsilon_is_two_to_minus_52 : EPSILON = S754_finite false 4503599627370496 (-104).
Proof. vm_compute. reflexivity. Qed.

(** [KeyConditions] refuse the operators of filters. *)
Example key_operator_refused : exists ph,
  translate_legacy_conditions [("pk", cond "NE" [str "a"])] LegacyKey "AND" (∅, ∅)
    = (ph, Err (validation_error "Unsupported operator on KeyConditions: NE")).
Proof. eexists. vm_compute. reflexivity. Qed.

(** An attribute name with a hyphen is outside the grammar: the text is read
    piece by piece. *)
Example text_fallback :
  let expr := "pk = :p AND NOT gift-wrap = :p" in
  parse_condition_lenient value_text expr ∅ {[ ":p" := str "user" ]} = None
  /\ evaluate_filter_expression order ∅ {[ ":p" := str "user" ]} expr = true
  /\ evaluate_filter_expression (<["gift-wrap" := str "user"]> order) ∅ {[ ":p" := str "user" ]} expr = false.
Proof. vm_compute. auto. Qed.

End LegacyWitness.
