(* ===== verification/DdbItems.v ===== *)
(** * DynamoDB item operations

    PutItem, GetItem, DeleteItem and UpdateItem
    ([fakecloud-dynamodb/src/service/items.rs]) with what they call: request
    members ([helpers/request.rs]), table lookup ([helpers/table_lookup.rs]),
    key and index-key checks ([helpers/keys.rs]), the update's size charge
    ([helpers/sizing.rs]), consumed capacity ([helpers/metrics.rs]) and change
    records ([streams.rs], [service/mod.rs]).

    A handler runs on the tables of the request's account and region.  Its
    state is the table it holds the lock of and the process-wide sequence
    counter; [None] is a panic, an error is a value that comes with the state
    reached.  The clock, the identifiers drawn and the hooks present are read
    from an environment.  Tables have no vector index. *)

From Stdlib Require Import ZArith Lia Bool String Ascii SpecFloat.
From stdpp Require Import base option list strings gmap sorting.
From S2P Require Import Prelude Json BTree Arn Text Sqs DdbNumber DdbValue DdbReserved DdbExpr DdbTable DdbUpdate DdbCondition.
Import Sqs(AwsServiceError, AwsError, aws_error).

Local Open Scope string_scope.

(** ** Request members *)

(** A JSON object as a map. *)
Definition object_map (m : list (string * Value)) : Item := foldl (fun acc kv => <[kv.1 := kv.2]> acc) ∅ m.

Definition require_object (body : Value) (field : string) : Result AwsServiceError Item :=
  match as_object (index body field) with
  | Some m => Ok (object_map m)
  | None => Err (validation_error (field +:+ " is required"))
  end.

Definition RETURN_CONSUMED_CAPACITY_VALUES : list string := ["INDEXES"; "TOTAL"; "NONE"].
Definition RETURN_ITEM_COLLECTION_METRICS_VALUES : list string := ["SIZE"; "NONE"].
Definition RETURN_VALUES : list string := ["NONE"; "ALL_OLD"; "UPDATED_OLD"; "ALL_NEW"; "UPDATED_NEW"].
Definition RETURN_VALUES_ON_FAILURE_VALUES : list string := ["ALL_OLD"; "NONE"].

Definition framework_validation_error (errors : list string) : AwsServiceError :=
  let noun := if (length errors =? 1)%nat then "error" else "errors" in
  validation_error (nat_text (length errors) +:+ " validation " +:+ noun +:+ " detected: " +:+ join "; " errors).

(** The member of the body, the name it has on the wire, its values. *)
Record EnumMember := mkEnumMember { member : string; field : string; allowed : list string }.

Fixpoint request_enum_violations (body : Value) (fields : list EnumMember) : Result AwsServiceError (list string) :=
  match fields with
  | [] => Ok []
  | m :: more =>
      match index body (member m) with
      | Null => request_enum_violations body more
      | VString s =>
          rest ← request_enum_violations body more;
          Ok (if str_in s (allowed m) then rest
              else ("Value '" +:+ s +:+ "' at '" +:+ field m +:+ "' failed to satisfy constraint: "
                    +:+ "Member must satisfy enum value set: [" +:+ join ", " (allowed m) +:+ "]") :: rest)
      | _ => Err (aws_error 400 "SerializationException" ("Value for '" +:+ field m +:+ "' must be a string"))
      end
  end.

Definition validate_request_enums (body : Value) (fields : list EnumMember) : Result AwsServiceError unit :=
  violations ← request_enum_violations body fields;
  match violations with [] => Ok tt | _ => Err (framework_validation_error violations) end.

Definition validate_first_request_enum (body : Value) (fields : list EnumMember) : Result AwsServiceError unit :=
  violations ← request_enum_violations body fields;
  match violations with [] => Ok tt | v :: _ => Err (framework_validation_error [v]) end.

Definition is_table_name_byte (c : ascii) : bool :=
  is_ascii_alphanumeric c || Ascii.eqb c "_" || Ascii.eqb c "." || Ascii.eqb c "-".

Definition validate_data_table_name (body : Value) : Result AwsServiceError string :=
  match as_str (index body "TableName") with
  | None => Err (framework_validation_error
              ["Value null at 'tableName' failed to satisfy constraint: Member must not be null"])
  | Some name =>
      let is_arn := starts_with "arn:" name in
      let max := if is_arn then 1024 else 255 in
      let fault := "Value '" +:+ name +:+ "' at 'tableName' failed to satisfy constraint: " in
      if is_empty_str name then
        Err (framework_validation_error [fault +:+ "Member must have length greater than or equal to 1"])
      else if (max <? byte_len name)%nat then
        Err (framework_validation_error [fault +:+ "Member must have length less than or equal to " +:+ nat_text max])
      else if negb is_arn && negb (string_forallb is_table_name_byte name) then
        Err (framework_validation_error
               [fault +:+ "Member must satisfy regular expression pattern: [a-zA-Z0-9_.-]+"])
      else Ok name
  end.

(** A table name or the name in a table ARN. *)
Definition resolve_table_name (input : string) : string :=
  match Arn.arn_resource input "dynamodb" with
  | Some rest =>
      match split_once ":table/" rest with
      | Some (_, after) =>
          let after_table := from_option fst after (split_once ":table/" after) in
          from_option fst after_table (split_once "/" after_table)
      | None => input
      end
  | None => input
  end.

Definition data_table_not_found : AwsServiceError :=
  aws_error 400 "ResourceNotFoundException" "Requested resource not found".

(** ** Tables *)

Record AttributeDefinition := mkAttributeDefinition { def_name : string; def_type : string }.
Record Projection := mkProjection { projection_type : string; non_key_attributes : list string }.

(** A global or local secondary index. *)
Record SecondaryIndex := mkSecondaryIndex {
  index_name : string;
  index_schema : list KeySchemaElement;
  index_projection : Projection
}.

Record KinesisDestination := mkKinesisDestination { dest_stream_arn : string; destination_status : string }.

Record StreamRecord := mkStreamRecord {
  event_id : string;
  event_name : string;
  event_version : string;
  event_source : string;
  aws_region : string;
  sr_keys : Item;
  new_image : option Item;
  old_image : option Item;
  sequence_number : string;
  sr_size_bytes : Z;
  sr_view_type : string;
  event_source_arn : string;
  sr_timestamp : Z
}.

(** A table: the rows and counters of [DdbTable] with the settings the item
    operations read and the stream they append to. *)
Record Table := mkTable {
  table_name : string;
  table_arn : string;
  store : DynamoTable;
  attribute_definitions : list AttributeDefinition;
  gsi : list SecondaryIndex;
  lsi : list SecondaryIndex;
  kinesis_destinations : list KinesisDestination;
  stream_enabled : bool;
  stream_view_type : option string;
  stream_arn : option string;
  stream_records : list StreamRecord;
  sse_type : option string;
  sse_kms_key_arn : option string
}.

Definition with_store (t : Table) (x : DynamoTable) : Table :=
  mkTable (table_name t) (table_arn t) x (attribute_definitions t) (gsi t) (lsi t) (kinesis_destinations t)
    (stream_enabled t) (stream_view_type t) (stream_arn t) (stream_records t) (sse_type t) (sse_kms_key_arn t).
Definition with_records (t : Table) (x : list StreamRecord) : Table :=
  mkTable (table_name t) (table_arn t) (store t) (attribute_definitions t) (gsi t) (lsi t) (kinesis_destinations t)
    (stream_enabled t) (stream_view_type t) (stream_arn t) x (sse_type t) (sse_kms_key_arn t).

(** ** Keys *)

Definition KEY_SCHEMA_MISMATCH : string := "The provided key element does not match the schema".

Definition is_empty_scalar (val : Value) (expected : string) : bool :=
  str_in expected ["S"; "B"] && from_option is_empty_str false (get_str expected val).

Definition empty_kind (attr_type : string) : string := if String.eqb attr_type "B" then "binary" else "string".

Definition declared_type (t : Table) (name : string) : option string :=
  def_type <$> List.find (fun d => String.eqb (def_name d) name) (attribute_definitions t).

Definition table_key_names (t : DynamoTable) : list string := hash_key_name t :: option_list (range_key_name t).

(** [extract_key]: the key attributes an item has. *)
Definition extract_key (t : DynamoTable) (item : Item) : Item :=
  let key := match item !! hash_key_name t with Some v => {[ hash_key_name t := v ]} | None => ∅ end in
  match range_key_name t with
  | Some rk => match item !! rk with Some v => <[rk := v]> key | None => key end
  | None => key
  end.

Section Keys.
Context `{Base64Decode}.

Definition key_value_size (ty : string) (val : Value) : nat :=
  let raw := default "" (get_str ty val) in
  if String.eqb ty "B" then from_option length (byte_len raw) (base64_decode raw) else byte_len raw.

Definition check_key_type (t : Table) (attrs : Item) (name : string) : Result AwsServiceError unit :=
  match attrs !! name, declared_type t name with
  | Some val, Some expected =>
      let actual := value_type val in
      if negb (bool_decide (actual = Some expected)) then
        Err (validation_error ("One or more parameter values were invalid: Type mismatch for key " +:+ name
               +:+ " expected: " +:+ expected +:+ " actual: " +:+ default "NULL" actual))
      else if is_empty_scalar val expected then
        Err (validation_error ("One or more parameter values are not valid. The AttributeValue for a key "
               +:+ "attribute cannot contain an empty " +:+ (if String.eqb expected "S" then "string" else "binary")
               +:+ " value. Key: " +:+ name))
      else
        let size := key_value_size expected val in
        let is_hash := String.eqb name (hash_key_name (store t)) in
        if is_hash && (2048 <? size)%nat then
          Err (validation_error ("One or more parameter values were invalid: Size of hashkey has exceeded the "
                 +:+ "maximum size limit of2048 bytes"))
        else if negb is_hash && (1024 <? size)%nat then
          Err (validation_error ("One or more parameter values were invalid: Aggregated size of all range keys has "
                 +:+ "exceeded the size limit of 1024 bytes"))
        else Ok tt
  | _, _ => Ok tt
  end.

Definition check_key_types (t : Table) (attrs : Item) : Result AwsServiceError unit :=
  each_ok (check_key_type t attrs) (table_key_names (store t)).

Definition missing_item_key_error (t : Table) (item : Item) : option AwsServiceError :=
  (fun name => validation_error ("One or more parameter values were invalid: Missing the key " +:+ name +:+ " in the item"))
  <$> List.find (fun name => negb (bool_decide (is_Some (item !! name)))) (table_key_names (store t)).

Definition validate_key_in_item (t : Table) (item : Item) : Result AwsServiceError unit :=
  match missing_item_key_error t item with
  | Some e => Err e
  | None => check_key_types t item
  end.

(** Exactly the key attributes, each of its declared type. *)
Definition key_matches_schema (t : Table) (key : Item) : bool :=
  forallb (fun name =>
    match key !! name with
    | None => false
    | Some val => match declared_type t name with
                  | Some expected => String.eqb (attribute_type_tag val) expected
                  | None => true
                  end
    end) (table_key_names (store t))
  && (size key =? length (table_key_names (store t)))%nat.

Definition validate_key_attributes_in_key (t : Table) (key : Item) : Result AwsServiceError unit :=
  if negb (key_matches_schema t key) then Err (validation_error KEY_SCHEMA_MISMATCH)
  else check_key_types t key.

(** *** Secondary-index keys *)

Record IndexKeySpec := mkIndexKeySpec { spec_index : string; spec_attr : string; spec_type : string }.

Inductive IndexKeyFault :=
| FEmpty (index_name attr attr_type : string)
| FTypeMismatch (index_name attr expected actual : string).

Definition put_message (f : IndexKeyFault) : string :=
  match f with
  | FEmpty index_name attr attr_type =>
      "One or more parameter values are not valid. A value specified for a secondary "
      +:+ "index key is not supported. The AttributeValue for a key attribute cannot contain an empty "
      +:+ empty_kind attr_type +:+ " value. IndexName: " +:+ index_name +:+ ", IndexKey: " +:+ attr
  | FTypeMismatch index_name attr expected actual =>
      "One or more parameter values were invalid: Type mismatch for Index Key " +:+ attr
      +:+ " Expected: " +:+ expected +:+ " Actual: " +:+ actual +:+ " IndexName: " +:+ index_name
  end.

Definition update_message (f : IndexKeyFault) : string :=
  match f with
  | FEmpty _ _ attr_type =>
      "One or more parameter values are not valid. The update expression attempted to "
      +:+ "update a secondary index key to a value that is not supported. The "
      +:+ "AttributeValue for a key attribute cannot contain an empty " +:+ empty_kind attr_type +:+ " value."
  | FTypeMismatch _ _ _ _ => put_message f
  end.

Definition index_le (a b : SecondaryIndex) : Prop := BTree.str_le (index_name a) (index_name b).

#[local] Instance index_le_dec : RelDecision index_le.
Proof. intros a b. unfold index_le. apply _. Defined.

(** The key attributes of the indexes in name order, hash keys first, less the
    table's own. *)
Definition index_key_specs (t : Table) : list IndexKeySpec :=
  let keys := table_key_names (store t) in
  merge_sort index_le (gsi t ++ lsi t)%list ≫= fun ix =>
    let ordered := (List.filter (fun k => String.eqb (key_type k) "HASH") (index_schema ix)
                    ++ List.filter (fun k => negb (String.eqb (key_type k) "HASH")) (index_schema ix))%list in
    omap (fun k => if str_in (attribute_name k) keys then None
                   else mkIndexKeySpec (index_name ix) (attribute_name k) <$> declared_type t (attribute_name k)) ordered.

(** A value the update did not write is not judged. *)
Definition written_value (item : Item) (before : option Item) (spec : IndexKeySpec) : option Value :=
  match item !! spec_attr spec, before with
  | Some val, Some prev => if from_option (value_eqb val) false (prev !! spec_attr spec) then None else Some val
  | v, _ => v
  end.

Definition index_key_fault (specs : list IndexKeySpec) (item : Item) (before : option Item) : option IndexKeyFault :=
  let empty := omap (fun spec =>
    val ← written_value item before spec;
    if is_empty_scalar val (spec_type spec)
    then Some (FEmpty (spec_index spec) (spec_attr spec) (spec_type spec)) else None) specs in
  let mismatch := omap (fun spec =>
    val ← written_value item before spec;
    if String.eqb (attribute_type_tag val) (spec_type spec) then None
    else Some (FTypeMismatch (spec_index spec) (spec_attr spec) (spec_type spec) (attribute_type_tag val))) specs in
  match head empty with Some f => Some f | None => head mismatch end.

Definition validate_index_keys_in_item (t : Table) (item : Item) : Result AwsServiceError unit :=
  match index_key_fault (index_key_specs t) item None with
  | Some f => Err (validation_error (put_message f))
  | None => Ok tt
  end.

End Keys.

(** ** The charge of an update *)

Definition UPDATE_BASE_COST : Z := 3.
Definition UPDATE_WRITE_CLAUSE_COST : Z := 19.
Definition UPDATE_REMOVE_CLAUSE_COST : Z := 2.

Record UpdateCharge := mkUpdateCharge { touched : list string; clause_cost : Z }.

Definition no_charge : UpdateCharge := mkUpdateCharge [] 0.

Definition touch (c : UpdateCharge) (cost : Z) (name : string) : UpdateCharge :=
  mkUpdateCharge (if str_in name (touched c) then touched c else (touched c ++ [name])%list) (clause_cost c + cost).

Definition charge_path (action : UpdateAction) (assignment : string) : option string :=
  let path := match action with
              | USet => fst <$> split_once "=" assignment
              | URemove => Some assignment
              | UAdd | UDelete => Some (until_space (trim_start assignment))
              end in
  match trim <$> path with
  | Some p => if is_empty_str p then None else Some p
  | None => None
  end.

Definition charge_assignment (names : gmap string string) (action : UpdateAction) (c : UpdateCharge)
  (assignment : string) : UpdateCharge :=
  match charge_path action assignment with
  | None => c
  | Some path =>
      let cost := match action with
                  | USet | UAdd => (UPDATE_WRITE_CLAUSE_COST + (if contains_str "[" path then 1 else 0))%Z
                  | URemove | UDelete => UPDATE_REMOVE_CLAUSE_COST
                  end in
      let top := trim (from_option fst path (split_once_at (fun c => Ascii.eqb c "." || Ascii.eqb c "[") path)) in
      touch c cost (resolve_attr_name top names)
  end.

Definition for_expression (expr : string) (names : gmap string string) : UpdateCharge :=
  foldl (fun c clause => foldl (charge_assignment names clause.1) c clause.2) no_charge (parse_update_clauses expr).

Definition for_attribute_updates (updates : list (string * Value)) : UpdateCharge :=
  foldl (fun c u =>
    let action := default "PUT" (as_str (index u.2 "Action")) in
    touch c (if String.eqb action "DELETE" then UPDATE_REMOVE_CLAUSE_COST else UPDATE_WRITE_CLAUSE_COST) u.1)
    no_charge updates.

Section Charge.
Context `{Base64Decode}.

Definition written_size (c : UpdateCharge) (item : Item) : Z :=
  sum_Z (omap (fun name => (fun v => Z.of_nat (byte_len name) + attribute_value_size v)%Z <$> item !! name) (touched c)).

Definition update_item_too_large : AwsServiceError :=
  validation_error "Item size to update has exceeded the maximum allowed size".

Definition check_charge (c : UpdateCharge) (item : Item) : Result AwsServiceError unit :=
  let charged := (written_size c item + UPDATE_BASE_COST + clause_cost c)%Z in
  if (MAX_ITEM_SIZE <? charged)%Z || (MAX_ITEM_SIZE <? item_size item)%Z
  then Err update_item_too_large else Ok tt.

End Charge.

(** ** Legacy attribute updates *)

Section LegacyUpdates.
Context `{Base64Decode}.

Definition add_to_attribute (item : Item) (attr : string) (val : Value) : Result AwsServiceError Item :=
  match item !! attr with
  | None => Ok (<[attr := val]> item)
  | Some cur =>
      match get_str "N" cur, get_str "N" val with
      | Some a, Some b =>
          match decimal_add_sub a b true with
          | Some s => Ok (<[attr := VObject [("N", VString s)]]> item)
          | None => Err (validation_error "ADD operand is not a number")
          end
      | _, _ =>
          match omap (fun t => match get_array t cur, get_array t val with
                               | Some a, Some b => Some (t, a, b)
                               | _, _ => None
                               end) SET_TYPES with
          | (t, a, b) :: _ => Ok (<[attr := VObject [(t, VArray (union_members t a b))]]> item)
          | [] => Err (validation_error ("ADD is only supported for number and set types for attribute " +:+ attr))
          end
      end
  end.

(** The first set type of the value decides; nothing happens unless the
    attribute is a set of it. *)
Definition remove_set_elements (item : Item) (attr : string) (val : Value) : Item :=
  match omap (fun t => (fun r => (t, r)) <$> get_array t val) SET_TYPES with
  | (t, remove) :: _ =>
      match item !! attr, item !! attr ≫= get_array t with
      | Some cur, Some arr =>
          <[attr := set_member t (VArray (List.filter (fun e => negb (existsb (fun r => same_member t r e) remove)) arr)) cur]> item
      | _, _ => item
      end
  | [] => item
  end.

(** The item as far as the updates got. *)
Fixpoint apply_attribute_updates (item : Item) (updates : list (string * Value)) : Item * Result AwsServiceError unit :=
  match updates with
  | [] => (item, Ok tt)
  | (attr, spec) :: more =>
      let action := default "PUT" (get_str "Action" spec) in
      let value := get "Value" spec in
      if String.eqb action "PUT" then
        apply_attribute_updates (match value with Some v => <[attr := v]> item | None => item end) more
      else if String.eqb action "DELETE" then
        apply_attribute_updates (match value with
                                 | None => delete attr item
                                 | Some v => remove_set_elements item attr v
                                 end) more
      else if String.eqb action "ADD" then
        match value with
        | None => apply_attribute_updates item more
        | Some v => match add_to_attribute item attr v with
                    | Ok item' => apply_attribute_updates item' more
                    | Err e => (item, Err e)
                    end
        end
      else (item, Err (validation_error ("Unknown AttributeUpdates action: " +:+ action)))
  end.

End LegacyUpdates.

Definition key_attribute_update_error (attr : string) : AwsServiceError :=
  validation_error ("One or more parameter values were invalid: Cannot update attribute " +:+ attr
    +:+ ". This attribute is part of the key").

Definition reject_key_attribute_update_expression (t : DynamoTable) (expr : string) (names : gmap string string)
  : Result AwsServiceError unit :=
  match key_attribute_in_update_expression t expr names with
  | Some attr => Err (key_attribute_update_error attr)
  | None => Ok tt
  end.

Definition reject_key_attribute_updates (t : DynamoTable) (updates : list (string * Value)) : Result AwsServiceError unit :=
  match List.find (fun attr => str_in attr updates.*1) (table_key_names t) with
  | Some attr => Err (key_attribute_update_error attr)
  | None => Ok tt
  end.

Definition reject_key_update (t : DynamoTable) (expr : option string) (updates : option (list (string * Value)))
  (names : gmap string string) : Result AwsServiceError unit :=
  match expr, updates with
  | Some e, _ => reject_key_attribute_update_expression t e names
  | None, Some u => reject_key_attribute_updates t u
  | None, None => Ok tt
  end.

(** The values at the paths of an update. *)
Definition project_paths (item : option Item) (paths : list DocPath) : Item :=
  match item with
  | None => ∅
  | Some item =>
      compact_projected_lists <$>
        foldl (fun out path => match resolve_doc_path item path with
                               | Some v => insert_nested_value_segments out (segment_of <$> path) v
                               | None => out
                               end) ∅ paths
  end.

(** ** Consumed capacity *)

Definition f64_add : f64 -> f64 -> f64 := SFadd f64_prec f64_emax.
Definition f64_mul : f64 -> f64 -> f64 := SFmul f64_prec f64_emax.

Record Consumed := mkConsumed { c_table : f64; c_gsi : gmap string f64; c_lsi : gmap string f64 }.

Definition nothing_consumed : Consumed := mkConsumed (f64_of_Z 0) ∅ ∅.

Definition f64_sum (l : list f64) : f64 := foldl f64_add (f64_of_Z 0) l.

Definition total (c : Consumed) : f64 :=
  f64_add (f64_add (c_table c) (f64_sum (BTree.values (c_gsi c)))) (f64_sum (BTree.values (c_lsi c))).

Definition div_ceil (n d : Z) : Z := ((n + d - 1) / d)%Z.

Definition read_units (bytes : Z) (consistent : bool) : f64 :=
  let units := f64_of_Z (Z.max (div_ceil bytes 4096) 1) in
  if consistent then units else f64_mul units (f64_of_decimal false 5 (-1)).

Definition write_units (bytes : Z) : f64 := f64_of_Z (Z.max (div_ceil bytes 1024) 1).

(** What an index stores of an item. *)
Definition apply_index_projection (item : Item) (p : Projection) (index_key_attrs : list string)
  (table_hash_key : string) (table_range_key : option string) : Item :=
  if String.eqb (projection_type p) "ALL" then item
  else
    let allowed := (table_hash_key :: option_list table_range_key ++ index_key_attrs
      ++ (if String.eqb (projection_type p) "INCLUDE" then non_key_attributes p else []))%list in
    filter (fun kv => str_in kv.1 allowed) item.

(** Equality of items as maps of JSON values. *)
Definition values_eqb (a b : option Value) : bool :=
  match a, b with Some x, Some y => value_eqb x y | None, None => true | _, _ => false end.
Definition items_eqb (a b : Item) : bool :=
  forallb (fun k => values_eqb (a !! k) (b !! k)) (elements (dom a ∪ dom b)).

Section Metrics.
Context `{Base64Decode}.

Definition index_charge (t : DynamoTable) (old new : option Item) (ix : SecondaryIndex) : f64 :=
  let key_attrs := attribute_name <$> index_schema ix in
  let entry (item : option Item) : option Item :=
    i ← item;
    if forallb (fun k => bool_decide (is_Some (i !! k))) key_attrs
    then Some (apply_index_projection i (index_projection ix) key_attrs (hash_key_name t) (range_key_name t))
    else None in
  match entry old, entry new with
  | None, None => f64_of_Z 0
  | Some before, None => write_units (item_size before)
  | None, Some after => write_units (item_size after)
  | Some before, Some after =>
      if existsb (fun k => negb (values_eqb (before !! k) (after !! k))) key_attrs
      then f64_add (write_units (item_size before)) (write_units (item_size after))
      else if negb (items_eqb before after) then write_units (item_size after)
      else f64_of_Z 0
  end.

Definition charges (t : DynamoTable) (old new : option Item) (indexes : list SecondaryIndex) : gmap string f64 :=
  foldl (fun m ix => let units := index_charge t old new ix in
                     if f64_ltb (f64_of_Z 0) units then <[index_name ix := units]> m else m) ∅ indexes.

Definition index_write_units (t : Table) (old new : option Item) : Consumed :=
  mkConsumed (f64_of_Z 0) (charges (store t) old new (gsi t)) (charges (store t) old new (lsi t)).

Definition item_write_consumed (t : Table) (old new : option Item) : Consumed :=
  let bytes := Z.max (from_option item_size 0%Z old) (from_option item_size 0%Z new) in
  let c := index_write_units t old new in
  mkConsumed (write_units bytes) (c_gsi c) (c_lsi c).

End Metrics.

Inductive CapacitySplit := SplitNone | SplitRead | SplitWrite.

(** The document, or [Null]. *)
Definition build_capacity (mode table_name : string) (c : Consumed) (split : CapacitySplit) : Value :=
  if negb (str_in mode ["TOTAL"; "INDEXES"]) then Null
  else
    let arm (units : f64) : list (string * Value) :=
      ("CapacityUnits", VNumber (Float units))
      :: match split with
         | SplitNone => []
         | SplitRead => [("ReadCapacityUnits", VNumber (Float units))]
         | SplitWrite => [("WriteCapacityUnits", VNumber (Float units))]
         end in
    let arms (m : gmap string f64) : Value := VObject ((fun e => (e.1, VObject (arm e.2))) <$> BTree.iter m) in
    VObject (arm (total c) ++ [("TableName", VString table_name)]
      ++ (if String.eqb mode "INDEXES" then
            [("Table", VObject (arm (c_table c)))]
            ++ (if bool_decide (c_gsi c = ∅) then [] else [("GlobalSecondaryIndexes", arms (c_gsi c))])
            ++ (if bool_decide (c_lsi c = ∅) then [] else [("LocalSecondaryIndexes", arms (c_lsi c))])
          else []))%list.

Definition build_consumed_capacity (mode table_name : string) (read write : f64) : Value :=
  build_capacity mode table_name (mkConsumed (f64_add read write) ∅ ∅) SplitNone.

Definition return_consumed_mode (body : Value) : string := default "NONE" (as_str (index body "ReturnConsumedCapacity")).
Definition return_icm_mode (body : Value) : string := default "NONE" (as_str (index body "ReturnItemCollectionMetrics")).

Definition build_item_collection_metrics (mode : string) (t : Table) (key : Item) : Value :=
  if negb (String.eqb mode "SIZE") || bool_decide (lsi t = []) then Null
  else
    let pk := attribute_name <$> List.find (fun k => String.eqb (key_type k) "HASH") (key_schema (store t)) in
    let collection := match pk with
                      | Some n => match key !! n with Some v => [(n, v)] | None => [] end
                      | None => []
                      end in
    VObject [("ItemCollectionKey", VObject collection);
             ("SizeEstimateRangeGB", VArray [VNumber (Float (f64_of_Z 0)); VNumber (Float (f64_of_Z 1))])].

(** ** Running under the table's lock *)

(** What a request reads of its surroundings. *)
Record Env := mkEnv {
  now : Z;
  stream_uuid : string;
  kinesis_uuid : string;
  account_id : string;
  env_region : string;
  delivery : bool;
  kms_hook : bool
}.

(** A computation that changes a state, may panic and may fail. *)
Definition Run (S E A : Type) : Type := S -> option (S * Result E A).

Definition Op (A : Type) : Type := Run (Table * Z) AwsServiceError A.

Definition op_ret {S E A} (a : A) : Run S E A := fun s => Some (s, Ok a).
Definition op_bind {S E A B} (m : Run S E A) (f : A -> Run S E B) : Run S E B := fun s =>
  match m s with
  | None => None
  | Some (s', Err e) => Some (s', Err e)
  | Some (s', Ok a) => f a s'
  end.
Definition check {S E A} (r : Result E A) : Run S E A := fun s => Some (s, r).
Definition read_table : Op Table := fun s => Some (s, Ok s.1).
Definition modify (f : Table -> Table) : Op unit := fun s => Some ((f s.1, s.2), Ok tt).
Definition on_store {A} (f : DynamoTable -> option (A * DynamoTable)) : Op A := fun s =>
  match f (store s.1) with
  | Some (a, st) => Some ((with_store s.1 st, s.2), Ok a)
  | None => None
  end.

Declare Scope op_scope.
Delimit Scope op_scope with op.
Notation "'let*' x ':=' m 'in' k" := (op_bind m (fun x => k))
  (at level 200, x name, m at level 100, k at level 200) : op_scope.
Local Open Scope op_scope.

(** [table.items\[i\]] of a row that was found. *)
Definition row_at (id : option Z) : Op (option Item) := fun s =>
  match id with
  | None => Some (s, Ok None)
  | Some i => (fun x => (s, Ok (Some x))) <$> items_get (items (store s.1)) i
  end.

(** ** Change records *)

Definition pad21 (z : Z) : string :=
  let s := print_Z z in String.concat "" (repeat "0" (21 - String.length s)) +:+ s.

(** [fetch_add(1)] on the process-wide counter. *)
Definition counted (seq : Z) : Z := ((seq + 1) mod two64)%Z.

Definition next_stream_sequence : Op string := fun s => Some ((s.1, counted s.2), Ok (pad21 s.2)).

Definition HOURS_24 : Z := 86400 * nanos.

Definition add_stream_record (now : Z) (t : Table) (r : StreamRecord) : Table :=
  with_records t (List.filter (fun r => now - HOURS_24 <? sr_timestamp r)%Z (stream_records t ++ [r])%list).

Record KinesisChange := mkKinesisChange {
  kc_event_id : string;
  kc_event_name : string;
  kc_region : string;
  kc_keys : Item;
  kc_sequence : string;
  kc_size_bytes : Z;
  kc_table_arn : string;
  kc_table_name : string;
  kc_old : option Item;
  kc_new : option Item
}.

Inductive TableKmsOp := KmsRead | KmsWrite.

(** What leaves the service: the audit of a key's use and change records for
    Kinesis streams, each with its partition key. *)
Inductive Effect :=
| KmsUsage (account table_arn : string) (key_arn : option string) (operation : TableKmsOp)
| SendToKinesis (stream_arn : string) (change : KinesisChange) (partition_key : string).

Definition is_active (d : KinesisDestination) : bool := String.eqb (destination_status d) "ACTIVE".

Record KinesisDeliveryTarget := mkTarget {
  target_destinations : list KinesisDestination;
  target_arn : string;
  target_name : string
}.

Definition kinesis_target_for (t : Table) : option KinesisDeliveryTarget :=
  if existsb is_active (kinesis_destinations t)
  then Some (mkTarget (kinesis_destinations t) (table_arn t) (table_name t)) else None.

Definition needs_change_capture (t : Table) : bool := stream_enabled t || existsb is_active (kinesis_destinations t).

Section Changes.
Context `{ItemText} (env : Env).

Definition text_len (item : Item) : Z := Z.of_nat (byte_len (item_text item)).

Definition generate_stream_record (event : string) (keys : Item) (old new : option Item) : Op (option StreamRecord) :=
  let* t := read_table in
  match (if stream_enabled t then stream_view_type t else None) with
  | None => op_ret None
  | Some view =>
      let '(filtered_old, filtered_new) :=
        if String.eqb view "NEW_IMAGE" then (None, new)
        else if String.eqb view "OLD_IMAGE" then (old, None)
        else if String.eqb view "NEW_AND_OLD_IMAGES" then (old, new)
        else (None, None) in
      let bytes := (text_len keys + from_option text_len 0 filtered_old + from_option text_len 0 filtered_new)%Z in
      let* seq := next_stream_sequence in
      op_ret (Some (mkStreamRecord (stream_uuid env) event "1.1" "aws:dynamodb" (env_region env) keys
                      filtered_new filtered_old seq bytes view (default "" (stream_arn t)) (now env)))
  end.

(** A record generated and added, as the single-item handlers do. *)
Definition append_stream_record (event : string) (keys : Item) (old new : option Item) : Op unit :=
  let* record := generate_stream_record event keys old new in
  match record with
  | Some r => modify (fun t => add_stream_record (now env) t r)
  | None => op_ret tt
  end.

(** What is sent, and the counter after it. *)
Definition deliver_kinesis_change (target : KinesisDeliveryTarget) (event : string) (keys : Item)
  (old new : option Item) (seq : Z) : list Effect * Z :=
  match List.filter is_active (target_destinations target) with
  | [] => ([], seq)
  | active =>
      let change := mkKinesisChange (kinesis_uuid env) event
        (default "us-east-1" (split_char ":" (target_arn target) !! 3)) keys (pad21 seq) (text_len keys)
        (target_arn target) (target_name target) old new in
      ((fun d => SendToKinesis (dest_stream_arn d) change (item_text keys)) <$> active, counted seq)
  end.

Definition deliver_to_kinesis_destinations (target : option KinesisDeliveryTarget) (event : string) (keys : Item)
  (old new : option Item) : Op (list Effect) :=
  match target with
  | Some target =>
      if delivery env then
        fun s => let '(effects, seq) := deliver_kinesis_change target event keys old new s.2 in Some ((s.1, seq), Ok effects)
      else op_ret []
  | None => op_ret []
  end.

Definition kms_audit (t : Table) (operation : TableKmsOp) : list Effect :=
  if bool_decide (sse_type t = Some "KMS") && kms_hook env
  then [KmsUsage (account_id env) (table_arn t) (sse_kms_key_arn t) operation] else [].

End Changes.

(** ** Handlers *)

(** The reply's [Item] or [Attributes], [ConsumedCapacity] and
    [ItemCollectionMetrics], the last two [Null] where they are left out; and
    what the request sends. *)
Record Reply := mkReply {
  returned : option Item;
  capacity : Value;
  collection_metrics : Value;
  sent : list Effect
}.

Definition capacity_member : EnumMember :=
  mkEnumMember "ReturnConsumedCapacity" "returnConsumedCapacity" RETURN_CONSUMED_CAPACITY_VALUES.
Definition metrics_member : EnumMember :=
  mkEnumMember "ReturnItemCollectionMetrics" "returnItemCollectionMetrics" RETURN_ITEM_COLLECTION_METRICS_VALUES.
Definition values_member : EnumMember := mkEnumMember "ReturnValues" "returnValues" RETURN_VALUES.
Definition failure_member : EnumMember :=
  mkEnumMember "ReturnValuesOnConditionCheckFailure" "returnValuesOnConditionCheckFailure" RETURN_VALUES_ON_FAILURE_VALUES.
Definition operator_member : EnumMember := mkEnumMember "ConditionalOperator" "conditionalOperator" ["AND"; "OR"].

Definition check_return_values (body : Value) : Result AwsServiceError unit :=
  match as_str (index body "ReturnValues") with
  | None => Ok tt
  | Some s => if str_in s ["NONE"; "ALL_OLD"] then Ok tt
              else Err (validation_error "ReturnValues can only be ALL_OLD or NONE")
  end.

Section Handlers.
Context `{Base64Decode} `{JsonText} `{ItemText} (env : Env).

Definition check_condition (condition : option string) (existing : option Item) (ph : Placeholders)
  (return_values_on_failure : option string) : Op unit :=
  check match condition with
        | Some cond => evaluate_condition_with_return cond existing ph.1 ph.2 return_values_on_failure
        | None => Ok tt
        end.

Definition consumed_by (mode : string) (t : Table) (old new : option Item) : option Consumed :=
  if String.eqb mode "NONE" then None else Some (item_write_consumed t old new).

Definition capacity_document (mode table_name : string) (c : option Consumed) : Value :=
  from_option (fun c => build_capacity mode table_name c SplitNone) Null c.

(** *** PutItem *)

(** What is checked of the request before the lock is taken: the table name,
    the item, the condition and its placeholders. *)
Definition parse_put (body : Value)
  : Result AwsServiceError (string * Item * (option string * Placeholders)) :=
  name ← validate_data_table_name body;
  _ ← validate_request_enums body [capacity_member; metrics_member; values_member; failure_member; operator_member];
  item ← require_object body "Item";
  _ ← validate_request_expressions value_text body OpPutItem;
  _ ← check_return_values body;
  condition ← resolve_write_condition body (parse_expression_attribute_names body, parse_expression_attribute_values body);
  Ok (name, item, condition).

Definition put_locked (body : Value) (name : string) (item : Item) (condition : option string) (ph : Placeholders)
  : Op Reply :=
  let return_values := default "NONE" (as_str (index body "ReturnValues")) in
  let mode := return_consumed_mode body in
  let* t := read_table in
  let* _ := check (validate_key_in_item t item) in
  let* _ := check (validate_item_attribute_values item) in
  let* _ := check (validate_index_keys_in_item t item) in
  let item := normalize_item_numbers item in
  let* _ := check (check_put_item_size item) in
  let* _ := modify (fun t => with_store t (ensure_key_index (store t))) in
  let* t := read_table in
  let existing_idx := find_item_index (store t) (extract_key (store t) item) in
  let* existing := row_at existing_idx in
  let* _ := check_condition condition existing ph (as_str (index body "ReturnValuesOnConditionCheckFailure")) in
  let old_for_return := if String.eqb return_values "ALL_OLD" then existing else None in
  let old_for_stream := if needs_change_capture t then existing else None in
  let consumed := consumed_by mode t existing (Some item) in
  let* _ := on_store (fun st => put_item_at_key st (now env) item) in
  let* _ := modify (fun t => with_store t (record_item_access (store t) item)) in
  let event := if bool_decide (is_Some existing_idx) then "MODIFY" else "INSERT" in
  let* t := read_table in
  let key := extract_key (store t) item in
  let* _ := append_stream_record env event key old_for_stream (Some item) in
  let* t := read_table in
  let icm := build_item_collection_metrics (return_icm_mode body) t key in
  let* changes := deliver_to_kinesis_destinations env (kinesis_target_for t) event key old_for_stream (Some item) in
  op_ret (mkReply old_for_return (capacity_document mode name consumed) icm
            (kms_audit env t KmsWrite ++ changes)%list).

(** *** DeleteItem *)

Definition parse_delete (body : Value) : Result AwsServiceError (string * Item) :=
  name ← validate_data_table_name body;
  _ ← validate_request_enums body [operator_member; capacity_member; values_member; metrics_member; failure_member];
  key ← require_object body "Key";
  _ ← validate_request_expressions value_text body OpDeleteItem;
  _ ← check_return_values body;
  Ok (name, key).

Definition delete_locked (body : Value) (name : string) (key : Item) : Op Reply :=
  let return_values := default "NONE" (as_str (index body "ReturnValues")) in
  let mode := return_consumed_mode body in
  let* t := read_table in
  let* _ := check (validate_key_attributes_in_key t key) in
  let* write := check (resolve_write_condition body
                         (parse_expression_attribute_names body, parse_expression_attribute_values body)) in
  let* _ := modify (fun t => with_store t (ensure_key_index (store t))) in
  let* t := read_table in
  let existing_idx := find_item_index (store t) key in
  let* existing := row_at existing_idx in
  let* _ := check_condition write.1 existing write.2 (as_str (index body "ReturnValuesOnConditionCheckFailure")) in
  let consumed := consumed_by mode t existing None in
  let* target :=
    match existing with
    | None => op_ret None
    | Some old_item =>
        let* _ := append_stream_record env "REMOVE" key (Some old_item) None in
        let* t := read_table in
        let* _ := on_store (fun st => remove_item_by_key st (now env) key) in
        op_ret (kinesis_target_for t)
    end in
  let* t := read_table in
  let icm := build_item_collection_metrics (return_icm_mode body) t key in
  let* changes := deliver_to_kinesis_destinations env target "REMOVE" key existing None in
  op_ret (mkReply (if String.eqb return_values "ALL_OLD" then existing else None)
            (capacity_document mode name consumed) icm changes).

(** *** UpdateItem *)

Definition parse_update (body : Value) : Result AwsServiceError (string * Item * ParsedExpressions) :=
  name ← validate_data_table_name body;
  _ ← validate_first_request_enum body [values_member; capacity_member; metrics_member; failure_member; operator_member];
  key ← require_object body "Key";
  parsed ← validate_request_expressions value_text body OpUpdateItem;
  Ok (name, key, parsed).

Definition updated_paths (body : Value) (parsed : ParsedExpressions) : list DocPath :=
  match p_update parsed, as_object (index body "AttributeUpdates") with
  | Some ast, _ => target_paths ast
  | None, Some updates => (fun u => [Attr u.1]) <$> updates
  | None, None => []
  end.

(** The ordinals of the REMOVE targets among the updated paths. *)
Definition removed_range (parsed : ParsedExpressions) (i : nat) : bool :=
  match p_update parsed with
  | Some ast => (length (sets ast) <=? i)%nat && (i <? length (sets ast) + length (removes ast))%nat
  | None => false
  end.

(** The updated paths as they read the finished item. *)
Definition new_paths (body : Value) (parsed : ParsedExpressions) (written : list (nat * DocPath)) : list DocPath :=
  let moved := foldl (fun paths w => <[w.1 := w.2]> paths) (updated_paths body parsed) written in
  snd <$> List.filter (fun e => negb (removed_range parsed e.1)) (imap pair moved).

(** The values of a legacy map in canonical form. *)
Definition normalize_update (u : string * Value) : string * Value :=
  (u.1, match get "Value" u.2 with
        | Some v => set_member "Value" (normalize_value_numbers v) u.2
        | None => u.2
        end).

Definition normalize_updates (l : list (string * Value)) : list (string * Value) := normalize_update <$> l.

Definition validate_update_values (body : Value) (values : gmap string Value) : Result AwsServiceError unit :=
  _ ← each_ok validate_attribute_value (item_values values);
  each_ok (fun u => match get "Value" u.2 with Some v => validate_attribute_value v | None => Ok tt end)
    (default [] (as_object (index body "AttributeUpdates"))).

(** The mutation of the row: the update, then the checks of its outcome. *)
Definition update_row (t : Table) (expr : option string) (updates : option (list (string * Value))) (ph : Placeholders)
  (item : Item) : Item * Result AwsServiceError (list (nat * DocPath)) :=
  let specs := index_key_specs t in
  let before := match specs with [] => None | _ => Some item end in
  let charge := match expr, updates with
                | Some e, _ => for_expression e ph.1
                | None, Some u => for_attribute_updates u
                | None, None => no_charge
                end in
  let '(row, r) := match expr, updates with
                   | Some e, _ => apply_update_expression_tracked ph.1 ph.2 item e
                   | None, Some u => let '(row, r) := apply_attribute_updates item u in (row, _ ← r; Ok [])
                   | None, None => (item, Ok [])
                   end in
  (row, written ← r;
        match index_key_fault specs row before with
        | Some f => Err (validation_error (update_message f))
        | None => _ ← check_charge charge row; Ok written
        end).

Definition response_attributes (body : Value) (parsed : ParsedExpressions) (old : option Item) (row : Item)
  (written : list (nat * DocPath)) : option Item :=
  let return_values := default "NONE" (as_str (index body "ReturnValues")) in
  let attrs :=
    if String.eqb return_values "ALL_NEW" then Some row
    else if String.eqb return_values "ALL_OLD" then old
    else if String.eqb return_values "UPDATED_NEW" then Some (project_paths (Some row) (new_paths body parsed written))
    else if String.eqb return_values "UPDATED_OLD" then Some (project_paths old (updated_paths body parsed))
    else None in
  match attrs with
  | Some a => if bool_decide (a = ∅) then None else Some a
  | None => None
  end.

(** The row to update: the one found, or a new one with the key alone. *)
Definition upsert (key : Item) (existing_idx : option Z) : Op Z :=
  match existing_idx with
  | Some id => op_ret id
  | None => let* r := on_store (fun st => put_item_at_key st (now env) (normalize_item_numbers key)) in op_ret r.1
  end.

(** The update of the row; a row the upsert made does not survive a failure. *)
Definition apply_to_row (id : Z) (is_insert : bool) (f : Item -> Item * Result AwsServiceError (list (nat * DocPath)))
  : Op (list (nat * DocPath)) := fun s =>
  match items_get (items (store s.1)) id with
  | None => None
  | Some original =>
      match update_item_at (store s.1) (now env) id (fun x => let '(row, r) := f x in (row, _ ← r; Ok tt)) with
      | None => None
      | Some (Ok _, st) => Some ((with_store s.1 st, s.2), (f original).2)
      | Some (Err e, st) =>
          if is_insert then '(_, st') ← remove_item_at st (now env) id; Some ((with_store s.1 st', s.2), Err e)
          else Some ((with_store s.1 st, s.2), Err e)
      end
  end.

Definition update_locked (body : Value) (name : string) (key : Item) (parsed : ParsedExpressions) : Op Reply :=
  let mode := return_consumed_mode body in
  let expr := as_str (index body "UpdateExpression") in
  let updates := as_object (index body "AttributeUpdates") in
  let* t := read_table in
  let* _ := check (validate_key_attributes_in_key t key) in
  let* _ := modify (fun t => with_store t (ensure_key_index (store t))) in
  let* write := check (resolve_write_condition body
                         (parse_expression_attribute_names body, parse_expression_attribute_values body)) in
  let* _ := check (reject_key_update (store t) expr updates write.2.1) in
  let* _ := check (validate_update_values body write.2.2) in
  let ph : Placeholders := (write.2.1, normalize_value_numbers <$> write.2.2) in
  let* t := read_table in
  let existing_idx := find_item_index (store t) key in
  let* existing := row_at existing_idx in
  let* _ := check_condition write.1 existing ph (as_str (index body "ReturnValuesOnConditionCheckFailure")) in
  let is_insert := negb (bool_decide (is_Some existing_idx)) in
  let* id := upsert key existing_idx in
  let* original := row_at (Some id) in
  let* t := read_table in
  let old_for_stream := if needs_change_capture t then original else None in
  let f := update_row t expr (normalize_updates <$> updates) ph in
  let* written := apply_to_row id is_insert f in
  let* row := row_at (Some id) in
  let row := default ∅ row in
  let event := if is_insert then "INSERT" else "MODIFY" in
  let* _ := append_stream_record env event key old_for_stream (Some row) in
  let* t := read_table in
  let icm := build_item_collection_metrics (return_icm_mode body) t key in
  let consumed := if String.eqb mode "NONE" then nothing_consumed else item_write_consumed t existing (Some row) in
  let* changes := deliver_to_kinesis_destinations env (kinesis_target_for t) event key old_for_stream (Some row) in
  op_ret (mkReply (response_attributes body parsed existing row written)
            (build_capacity mode name consumed SplitNone) icm changes).

(** *** On the region's tables *)

(** The tables by name, and the process-wide sequence counter. *)
Record Region := mkRegion { tables : gmap string Table; sequence : Z }.

(** [get_data_table_mut], the table being held for the whole operation. *)
Definition on_table (name : string) (op : Op Reply) (r : Region) : option (Region * Result AwsServiceError Reply) :=
  match tables r !! resolve_table_name name with
  | None => Some (r, Err data_table_not_found)
  | Some t => '((t', seq), res) ← op (t, sequence r); Some (mkRegion (<[resolve_table_name name := t']> (tables r)) seq, res)
  end.

Definition put_item (body : Value) (r : Region) : option (Region * Result AwsServiceError Reply) :=
  match parse_put body with
  | Err e => Some (r, Err e)
  | Ok (name, item, (condition, ph)) => on_table name (put_locked body name item condition ph) r
  end.

Definition delete_item (body : Value) (r : Region) : option (Region * Result AwsServiceError Reply) :=
  match parse_delete body with
  | Err e => Some (r, Err e)
  | Ok (name, key) => on_table name (delete_locked body name key) r
  end.

Definition update_item (body : Value) (r : Region) : option (Region * Result AwsServiceError Reply) :=
  match parse_update body with
  | Err e => Some (r, Err e)
  | Ok (name, key, parsed) => on_table name (update_locked body name key parsed) r
  end.

(** *** GetItem *)

Definition parse_get (body : Value) : Result AwsServiceError (string * Item) :=
  name ← validate_data_table_name body;
  _ ← validate_request_enums body [capacity_member];
  key ← require_object body "Key";
  _ ← validate_request_expressions value_text body OpGetItem;
  Ok (name, key).

(** Under the read lock: the reply, and whether the access is to be counted. *)
Definition get_locked (body : Value) (name : string) (key : Item) (t : Table)
  : option (Result AwsServiceError (Reply * bool)) :=
  match validate_key_attributes_in_key t key with
  | Err e => Some (Err e)
  | Ok _ =>
      let needs_insights := String.eqb (contributor_insights_status (store t)) "ENABLED" in
      let consistent := default false (as_bool (index body "ConsistentRead")) in
      found ← match find_item_index (store t) key with
              | Some id => Some <$> items_get (items (store t)) id
              | None => Some None
              end;
      let cc := build_consumed_capacity (return_consumed_mode body) name
                  (read_units (from_option item_size 0%Z found) consistent) (f64_of_Z 0) in
      Some (Ok (mkReply ((fun item => project_item item body) <$> found) cc Null (kms_audit env t KmsRead),
                needs_insights))
  end.

(** The access is counted under a second lock, where the table may be gone. *)
Definition count_access (name : string) (key : Item) (r : Region) : Region :=
  match tables r !! resolve_table_name name with
  | Some t => mkRegion (<[resolve_table_name name := with_store t (record_key_access (store t) key)]> (tables r)) (sequence r)
  | None => r
  end.

Definition get_item_read (body : Value) (r : Region)
  : option (Result AwsServiceError (Reply * option (string * Item))) :=
  match parse_get body with
  | Err e => Some (Err e)
  | Ok (name, key) =>
      match tables r !! resolve_table_name name with
      | None => Some (Err data_table_not_found)
      | Some t =>
          res ← get_locked body name key t;
          Some ('(reply, counted) ← res; Ok (reply, if counted : bool then Some (name, key) else None))
      end
  end.

Definition get_item (body : Value) (r : Region) : option (Region * Result AwsServiceError Reply) :=
  res ← get_item_read body r;
  Some (match res with
        | Ok (reply, Some (name, key)) => (count_access name key r, Ok reply)
        | Ok (reply, None) => (r, Ok reply)
        | Err e => (r, Err e)
        end).

End Handlers.
