(* ===== verification/DdbKeyGuard.v ===== *)
(** * Updates do not reach the key

    UpdateItem refuses an expression that names a key attribute by looking at
    the texts of its actions; the actions are then applied by other code that
    reads the same texts again.  The two readings are shown to agree: an
    expression the check lets through leaves every key attribute as it was,
    for key names that are plain words. *)

From Stdlib Require Import ZArith Lia Bool String Ascii.
From stdpp Require Import base option list strings gmap sorting.
From S2P Require Import Prelude Json BTree Text Sqs DdbNumber DdbNumberTheory DdbValue DdbExpr DdbTable DdbTableTheory DdbUpdate DdbExprTheory DdbLex DdbConditionTheory.
Import Sqs(AwsServiceError, AwsError, aws_error).

Local Open Scope string_scope.
Local Open Scope list_scope.

(** ** The first word of a text *)

Definition blank (s : string) : Prop := string_forallb is_ascii_whitespace s = true.

Lemma words_first s t x l : words s true = (t, x) :: l ->
  exists b c s' n, s = b +:+ String c s' /\ blank b /\ lex_token true c s' = (t, n)
    /\ x = string_take n (String c s') /\ l = words (string_drop n (String c s')) true.
Proof.
  induction s as [|c s IH]; [by rewrite words_nil|]. destruct (is_ascii_whitespace c) eqn:Ec.
  - rewrite words_blank by done. intros (b & d & s' & n & -> & Hb & R)%IH. exists (String c b), d, s', n.
    split; [done|]. split; [|done]. unfold blank. simpl. by rewrite Ec.
  - destruct (lex_token true c s) as [t' n] eqn:E. rewrite (words_token true c s t' n) by done. intros [= -> <- <-].
    by exists "", c, s, n.
Qed.

Lemma words_empty s : words s true = [] -> blank s.
Proof.
  induction s as [|c s IH]; [done|]. destruct (is_ascii_whitespace c) eqn:Ec.
  - rewrite words_blank by done. intros Hb%IH. unfold blank. simpl. by rewrite Ec.
  - destruct (lex_token true c s) as [t n] eqn:E. by rewrite (words_token true c s t n).
Qed.

(** The tokens a path may contain, by their first character. *)
Lemma lex_token_kind c s t n : lex_token true c s = (t, n) ->
  match t with
  | Dot => c = "."%char
  | LBracket => c = "["%char
  | TIdent => is_word_byte c = true /\ n = S (word_len s)
  | TName => c = "#"%char /\ n = S (word_len s)
  | TQuoted => c = quote /\ exists e, find_str (String quote EmptyString) s = Some e /\ n = e + 2
  | _ => True
  end.
Proof.
  unfold lex_token. destruct (Ascii.eqb_spec c "#") as [->|N1]; cbn [orb].
  { destruct (word_len s); simpl; intros [= <- <-]; done. }
  destruct (Ascii.eqb_spec c ":") as [->|N2]; [destruct (word_len s); simpl; intros [= <- <-]; done|].
  destruct (is_word_byte c) eqn:W; [destruct string_forallb; intros [= <- <-]; done|].
  destruct (Ascii.eqb_spec c quote) as [->|N3]; cbn [andb].
  { destruct (find_str _ s) as [e|] eqn:E; intros [= <- <-]; [|done]. eauto. }
  repeat match goal with |- context [Ascii.eqb c ?a] => destruct (Ascii.eqb_spec c a) as [->|?];
    [first [intros ?; by simplify_eq/= | repeat case_match; intros ?; by simplify_eq/=]|] end.
  intros ?. by simplify_eq.
Qed.

Lemma take_drop n s : string_take n s +:+ string_drop n s = s.
Proof. revert s. induction n as [|n IH]; intros [|c s]; simpl; try done. by rewrite IH. Qed.

Lemma take_word s : word (string_take (word_len s) s).
Proof. unfold word. induction s as [|c s IH]; simpl; [done|]. destruct (is_word_byte c) eqn:E; simpl; [by rewrite E|done]. Qed.

(** ** Trimming *)

Lemma ascii_ws_ws c : is_ascii_whitespace c = true -> is_whitespace c = true.
Proof. destruct c as [[] [] [] [] [] [] [] []]; vm_compute; done. Qed.

Lemma word_not_ws c : is_word_byte c = true -> is_whitespace c = false.
Proof. destruct c as [[] [] [] [] [] [] [] []]; vm_compute; done. Qed.

Lemma trim_end_blank s : blank s -> trim_end s = "".
Proof.
  unfold blank. induction s as [|c s IH]; simpl; [done|]. intros [Hc Hs]%andb_true_iff.
  by rewrite IH, (ascii_ws_ws c Hc) by done.
Qed.

Lemma trim_end_word w b : string_forallb (fun c => negb (is_whitespace c)) w = true -> trim_end b = "" ->
  trim_end (w +:+ b) = w.
Proof.
  intros Hw Hb. induction w as [|c w IH]; simpl in *; [done|]. apply andb_true_iff in Hw as [Hc Hw].
  apply negb_true_iff in Hc. rewrite IH by done. destruct w; [by rewrite Hc|done].
Qed.

Lemma trim_start_word c s : is_whitespace c = false -> trim_start (String c s) = String c s.
Proof. simpl. by intros ->. Qed.

(** A word at the front of a text, with blanks after it. *)
Lemma trim_word c w b : string_forallb (fun c => negb (is_whitespace c)) (String c w) = true -> blank b ->
  trim (String c w +:+ b) = String c w.
Proof.
  intros Hw Hb. unfold trim. cbn [String.append]. pose proof Hw as Hc. simpl in Hc.
  apply andb_true_iff in Hc as [Hc _]. rewrite trim_start_word by (by apply negb_true_iff).
  apply (trim_end_word (String c w)); [done|by apply trim_end_blank].
Qed.

(** A trimmed text does not start with white space. *)
Lemma trimmed_head p b c s : trim p = b +:+ String c s -> blank b -> b = "" .
Proof.
  unfold trim. pose proof (trim_start_head p) as Hh. destruct (trim_start p) as [|d t]; [by destruct b|].
  destruct b as [|x b]; [done|]. cbn [trim_end String.append]. unfold blank. simpl. intros E [Hx _]%andb_true_iff.
  apply ascii_ws_ws in Hx. destruct (trim_end t); [rewrite Hh in E|]; injection E as -> _; congruence.
Qed.

(** ** The attribute at the front of a path *)

Definition separator (c : ascii) : bool := Ascii.eqb c "." || Ascii.eqb c "[".

Lemma split_skip (P : ascii -> bool) a b : string_forallb (fun c => negb (P c)) a = true ->
  split_once_at P (a +:+ b) = (fun xy => (a +:+ xy.1, xy.2)) <$> split_once_at P b.
Proof.
  induction a as [|c a IH]; simpl.
  - intros _. by destruct (split_once_at P b) as [[]|].
  - intros [Hc Ha]%andb_true_iff. apply negb_true_iff in Hc. rewrite Hc, IH by done.
    by destruct (split_once_at P b) as [[]|].
Qed.

Lemma split_none (P : ascii -> bool) a : string_forallb (fun c => negb (P c)) a = true -> split_once_at P a = None.
Proof. intros Ha. rewrite <- (string_app_nil_r a), split_skip by done. done. Qed.

Lemma blank_no_sep b : blank b -> string_forallb (fun c => negb (separator c)) b = true.
Proof. apply string_forallb_impl. intros c. destruct c as [[] [] [] [] [] [] [] []]; vm_compute; done. Qed.

(** What follows the first name of a path. *)
Lemma after_name names l p R : GSteps names false l p -> l = words R true ->
  exists b, blank b /\ from_option fst R (split_once_at separator R) = b.
Proof.
  intros Hs El. destruct Hs as [|l1 l2 e p He Hs].
  - symmetry in El. apply words_empty in El. exists R. split; [done|]. by rewrite split_none by (by apply blank_no_sep).
  - assert (exists t x l', (t = Dot \/ t = LBracket) /\ words R true = (t, x) :: l') as (t & x & l' & Ht & Ew).
    { rewrite <- El. destruct He; simpl; eauto 10. }
    apply words_first in Ew as (b & c & s & n & -> & Hb & Hk & _ & _). exists b. split; [done|].
    apply lex_token_kind in Hk. assert (separator c = true) as Hc by (destruct Ht as [-> | ->]; by subst c).
    rewrite split_skip by (by apply blank_no_sep). simpl. rewrite Hc. simpl. by rewrite string_app_nil_r.
Qed.

(** Plain names: words in the sense of the check. *)
Definition plain_char (c : ascii) : bool := negb (separator c) && negb (Ascii.eqb c dquote) && negb (is_whitespace c).
Definition plain (n : string) : Prop := n <> "" /\ string_forallb plain_char n = true /\ starts_with "#" n = false.

Definition unquoted (s : string) : Prop := string_forallb (fun c => negb (Ascii.eqb c dquote)) s = true.

Lemma trim_start_unquoted s : unquoted s -> trim_start_matches dquote s = s.
Proof. destruct s as [|c s]; [done|]. unfold unquoted. simpl. intros [Hc _]%andb_true_iff. apply negb_true_iff in Hc. by rewrite Hc. Qed.

Lemma trim_end_unquoted s : unquoted s -> trim_end_matches dquote s = s.
Proof.
  unfold unquoted. induction s as [|c s IH]; [done|]. simpl. intros [Hc Hs]%andb_true_iff. apply negb_true_iff in Hc.
  rewrite IH by done. destruct s; [by rewrite Hc|done].
Qed.

Lemma trim_matches_unquoted s : unquoted s -> trim_matches dquote s = s.
Proof. intros Hs. unfold trim_matches. rewrite trim_start_unquoted by done. by apply trim_end_unquoted. Qed.

Lemma plain_unquoted n : plain n -> unquoted n.
Proof.
  intros (_ & Hn & _). unfold unquoted. eapply string_forallb_impl, Hn. intros c. unfold plain_char.
  intros [[_ Hc]%andb_true_iff _]%andb_true_iff. done.
Qed.

Lemma word_byte_plain c : is_word_byte c = true ->
  negb (separator c) = true /\ negb (Ascii.eqb c dquote) = true /\ negb (is_whitespace c) = true /\ Ascii.eqb c "#" = false.
Proof. destruct c as [[] [] [] [] [] [] [] []]; vm_compute; done. Qed.

(** A word with or without a mark, and what follows it in a path. *)
Lemma name_text names l p c w R : GSteps names false l p -> l = words R true -> word w ->
  is_word_byte c = true \/ c = "#"%char -> trim (String c w +:+ R) = String c w +:+ R ->
  top_level_attribute (String c w +:+ R) = String c w /\ unquoted (String c w).
Proof.
  intros Hs El Hw Hc Ht. assert (Hall : forall P : ascii -> bool, (forall d, is_word_byte d = true -> P d = true) -> P "#"%char = true ->
    string_forallb P (String c w) = true).
  { intros P HP Hm. simpl. rewrite (string_forallb_impl _ _ _ HP Hw), andb_true_r. by destruct Hc as [Hc| ->]; auto. }
  assert (Hq : unquoted (String c w)) by (apply Hall; [apply word_byte_plain|done]).
  assert (Hn : string_forallb (fun c => negb (is_whitespace c)) (String c w) = true).
  { apply Hall; [intros d Hd; by apply word_byte_plain|done]. }
  assert (Hsep : string_forallb (fun c => negb (separator c)) (String c w) = true).
  { apply Hall; [intros d Hd; by apply word_byte_plain|done]. }
  split; [|done]. destruct (after_name names l p R Hs El) as (b & Hb & Eb).
  unfold top_level_attribute. rewrite Ht. cbn [String.append].
  assert (Ascii.eqb c dquote = false) as -> by (unfold unquoted in Hq; simpl in Hq; by apply andb_true_iff in Hq as [?%negb_true_iff _]).
  change (fun c => _ || _) with separator. change (String c (w +:+ R)) with (String c w +:+ R).
  rewrite split_skip by done.
  assert (from_option fst (String c w +:+ R) ((fun xy => (String c w +:+ xy.1, xy.2)) <$> split_once_at separator R)
    = String c w +:+ b) as ->.
  { rewrite <- Eb. by destruct (split_once_at separator R). }
  by apply trim_word.
Qed.

(** The attribute the check sees is the one the path parser writes. *)
Lemma path_top p names top more : parse_document_path (trim p) names = Some (Attr top :: more) -> plain top ->
  resolve_attr_name (top_level_attribute p) names = top.
Proof.
  intros Hp Hplain. assert (Htl : top_level_attribute p = top_level_attribute (trim p))
    by (unfold top_level_attribute; by rewrite trim_trim). rewrite Htl.
  assert (HG : GPath names false (words (trim p) true) (Attr top :: more)).
  { unfold parse_document_path in Hp. change (mkPState None (lex (trim p) true) ∅ ∅) with (initial (trim p) (new_context names ∅ false)) in Hp.
    set (s0 := initial (trim p) (new_context names ∅ false)) in *.
    pose proof (path_outcome (trim p) Update names false s0 (initial_wf _ _)) as Ho.
    destruct (path (trim p) Update names false s0) as [[q s']|]; [|done]. destruct Ho as (l & C & HG).
    case_bool_decide as Epk; [|done]. injection Hp as ->.
    pose proof (consumed_all _ _ _ _ C Epk) as E. simpl in E. by rewrite <- E. }
  inversion HG as [[t x] n l q Hn Hs Ew]; subst. clear HG.
  symmetry in Ew. apply words_first in Ew as (b & c & s & m & Ep & Hb & Hk & Ex & El).
  pose proof (trimmed_head p b c s Ep Hb) as ->. cbn [String.append] in Ep.
  pose proof (trim_trim p) as Htt. rewrite Ep in Htt |- *.
  apply lex_token_kind in Hk. unfold GName in Hn. cbn [fst snd] in Hn.
  assert (Hword : is_word_byte c = true \/ c = "#"%char -> m = S (word_len s) ->
    top_level_attribute (String c s) = x /\ unquoted x).
  { intros Hc ->. cbn [string_take string_drop] in Ex, El. pose proof (take_drop (word_len s) s) as Es.
    destruct (name_text names l more c (string_take (word_len s) s) (string_drop (word_len s) s) Hs El (take_word s) Hc) as [Ht Hq].
    - cbn [String.append]. by rewrite Es.
    - rewrite Ex. split; [|done]. rewrite <- Es at 1. exact Ht. }
  destruct t; try done.
  - destruct Hk as [Hc ->], Hn as (_ & _ & ->). destruct (Hword ltac:(by left) eq_refl) as [-> Hq].
    unfold resolve_attr_name. rewrite trim_matches_unquoted by done. destruct Hplain as (_ & _ & ->). done.
  - destruct Hk as [-> ->]. destruct (Hword ltac:(by right) eq_refl) as [-> Hq].
    unfold resolve_attr_name. rewrite trim_matches_unquoted by done.
    assert (starts_with "#" x = true) as -> by (by rewrite Ex).
    destruct Hn as [-> |(_ & -> & ->)]; done.
  - destruct Hk as [-> (e & Ef & ->)], Hn as (_ & ->).
    unfold find_str in Ef. destruct (split_at_needle _ s) as [[a r]|] eqn:Ea; [|done]. injection Ef as <-.
    pose proof (split_at_needle_Some _ _ _ _ Ea) as Es.
    assert (Exa : x = String dquote (a +:+ String dquote "")).
    { rewrite Ex. replace (String.length a + 2) with (S (String.length (a +:+ String quote "")))
        by (rewrite string_length_app; simpl; lia).
      cbn [string_take]. f_equal. rewrite Es. change (String quote EmptyString +:+ r) with (String quote "" +:+ r).
      rewrite <- (string_app_assoc a). apply string_take_app. }
    assert (Etop : slice x 1 (String.length x - 1) = a).
    { rewrite Exa. unfold slice. cbn [string_drop String.length]. rewrite string_length_app. cbn [String.length].
      replace (S (String.length a + 1) - 1 - 1) with (String.length a) by lia. apply string_take_app. }
    rewrite Etop in *. unfold top_level_attribute. rewrite Htt. rewrite (Ascii.eqb_refl dquote : Ascii.eqb quote dquote = true).
    assert (find_str (String dquote "") s = Some (String.length a)) as ->
      by (change dquote with quote; unfold find_str; by rewrite Ea).
    rewrite <- Ex, Exa. unfold resolve_attr_name, trim_matches. pose proof (plain_unquoted _ Hplain) as Hq.
    cbn [trim_start_matches]. rewrite Ascii.eqb_refl.
    assert (trim_start_matches dquote (a +:+ String dquote "") = a +:+ String dquote "") as ->.
    { destruct Hplain as (Hne & _). destruct a as [|d a]; [done|]. cbn. unfold unquoted in Hq. simpl in Hq.
      apply andb_true_iff in Hq as [Hd%negb_true_iff _]. by rewrite Hd. }
    assert (trim_end_matches dquote (a +:+ String dquote "") = a) as ->.
    { clear -Hq. unfold unquoted in Hq. induction a as [|d a IH]; [done|]. simpl in *.
      apply andb_true_iff in Hq as [Hd%negb_true_iff Ha]. rewrite IH by done. destruct a; [by rewrite Hd|done]. }
    destruct Hplain as (_ & _ & ->). done.
Qed.

(** ** The attribute at the front of an ADD or DELETE *)

(** Texts that are neither split nor stripped. *)
Definition tame (y : string) : Prop :=
  y <> "" /\ string_forallb (fun c => negb (is_whitespace c)) y = true
  /\ string_forallb (fun c => negb (separator c)) y = true /\ unquoted y.

Lemma tame_top y : tame y -> top_level_attribute y = y.
Proof.
  intros (Hne & Hw & Hs & Hq). unfold top_level_attribute. rewrite (trim_no_ws y Hw). destruct y as [|c y]; [done|].
  unfold unquoted in Hq. simpl in Hq. apply andb_true_iff in Hq as [Hc%negb_true_iff _]. rewrite Hc.
  change (fun c => _ || _) with separator. rewrite split_none by done. simpl from_option. by apply trim_no_ws.
Qed.

Lemma until_space_app y r : string_forallb (fun c => negb (is_whitespace c)) y = true ->
  match r with String c _ => is_whitespace c = true | EmptyString => True end -> until_space (y +:+ r) = y.
Proof.
  intros Hy Hr. induction y as [|c y IH]; simpl in *.
  - destruct r as [|c r]; [done|]. simpl. by rewrite Hr.
  - apply andb_true_iff in Hy as [Hc%negb_true_iff Hy]. by rewrite Hc, IH.
Qed.

Lemma trim_end_rest s : exists b, s = trim_end s +:+ b /\ string_forallb is_whitespace b = true.
Proof.
  induction s as [|c s (b & Es & Hb)]; [by exists ""|]. simpl. destruct (trim_end s) as [|d t].
  - destruct (is_whitespace c) eqn:Ec.
    + exists (String c s). split; [done|]. simpl. rewrite Ec. by rewrite Es.
    + exists b. cbn. by rewrite Es.
  - exists b. cbn. by rewrite Es at 1.
Qed.

Lemma trimmed_start a c s : trim a = a -> a = String c s -> is_whitespace c = false.
Proof.
  intros Ht ->. unfold trim in Ht. pose proof (trim_start_head (String c s)) as Hh.
  destruct (trim_start (String c s)) as [|d t]; [done|]. cbn [trim_end] in Ht.
  destruct (trim_end t); [rewrite Hh in Ht|]; by injection Ht as -> _.
Qed.

Lemma splitn_two d a x v : splitn 2 d a = [x; v] -> a = x +:+ String d v.
Proof.
  cbn [splitn]. destruct (split_at_needle _ a) as [[a' b]|] eqn:E; [|done]. intros [= -> ->].
  by apply split_at_needle_Some in E.
Qed.

(** The placeholders of a request: a mark and a word. *)
Definition marked (names : gmap string string) : Prop :=
  forall k, is_Some (names !! k) -> exists w, k = String "#" w /\ word w.

Lemma unquoted_app a b : unquoted (a +:+ b) <-> unquoted a /\ unquoted b.
Proof. unfold unquoted. by rewrite string_forallb_app, andb_true_iff. Qed.

Lemma resolve_unquoted y names : unquoted y ->
  resolve_attr_name y names = if starts_with "#" y then default y (names !! y) else y.
Proof. intros Hy. unfold resolve_attr_name. by rewrite trim_matches_unquoted. Qed.

Lemma assignment_top a x v names n : trim a = a -> unquoted a -> marked names -> splitn 2 " " a = [x; v] ->
  resolve_attr_name (trim x) names = n -> plain n ->
  resolve_attr_name (top_level_attribute (until_space (trim_start a))) names = n.
Proof.
  intros Ht Hq Hm Ea%splitn_two Hn Hp. destruct a as [|c a]; [by destruct x|].
  pose proof (trimmed_start _ c a Ht eq_refl) as Hc. rewrite trim_start_word by done.
  destruct x as [|c' x]; [injection Ea as -> _; by vm_compute in Hc|]. injection Ea as <- Ea.
  assert (Ex : trim (String c x) = trim_end (String c x)) by (unfold trim; by rewrite trim_start_word).
  destruct (trim_end_rest (String c x)) as (b & Eb & Hb). rewrite Ex in Hn. set (y := trim_end (String c x)) in *.
  assert (Es : String c a = y +:+ (b +:+ String " " v)) by (rewrite <- string_app_assoc, <- Eb, Ea; done).
  assert (Hy : unquoted y) by (rewrite Es in Hq; by apply unquoted_app in Hq as [Hq _]).
  rewrite (resolve_unquoted _ _ Hy) in Hn.
  assert (Hname : tame y).
  { destruct (starts_with "#" y) eqn:E.
    - destruct (names !! y) as [n'|] eqn:Ey; [|simpl in Hn; subst n; destruct Hp as (_ & _ & Hp); congruence].
      destruct (Hm y ltac:(by rewrite Ey)) as (w & Ew & Ww). rewrite Ew in *. split; [done|].
      split; [|split; [|done]]; simpl; eapply string_forallb_impl, Ww; intros d Hd; by apply word_byte_plain.
    - subst n. destruct Hp as (Hne & Hpc & _). split; [done|]. split; [|split; [|done]].
      + eapply string_forallb_impl, Hpc. unfold plain_char. intros d. by rewrite !andb_true_iff; intros [[_ _] ?].
      + eapply string_forallb_impl, Hpc. unfold plain_char. intros d. by rewrite !andb_true_iff; intros [[? _] _]. }
  rewrite Es, until_space_app; [|apply Hname|].
  - by rewrite (tame_top y Hname), resolve_unquoted.
  - destruct b as [|d b]; [done|]. simpl in *. by apply andb_true_iff in Hb as [? _].
Qed.

(** ** Actions write their own attribute *)

Lemma assign_frame item segs v i item' n : assign_doc_path item segs v = Ok (i, item') ->
  (forall top more, segs = Attr top :: more -> top <> n) -> item' !! n = item !! n.
Proof.
  unfold assign_doc_path. destruct segs as [|[top|] more]; try done. intros E Hn. specialize (Hn top more eq_refl).
  destruct (split_last more) as [[leaf middle]|]; [|injection E as <- <-; by rewrite lookup_insert_ne].
  apply ok_or_Ok in E. apply bind_Some in E as (cur & _ & E). apply bind_Some in E as ([j cur'] & _ & E).
  injection E as <- <-. by rewrite lookup_insert_ne.
Qed.

Lemma remove_frame item segs n : (forall top more, segs = Attr top :: more -> top <> n) ->
  remove_doc_path item segs !! n = item !! n.
Proof.
  unfold remove_doc_path. destruct segs as [|[top|] more]; try done. intros Hn. specialize (Hn top more eq_refl).
  destruct (split_last more) as [[leaf middle]|]; [|by rewrite lookup_delete_ne].
  destruct (item !! top) as [cur|]; [|done]. cbn [mbind option_bind]. destruct (modify_at _ _ cur) as [[u cur']|]; [|done].
  cbn. by rewrite lookup_insert_ne.
Qed.

Section Frame.
Context `{Base64Decode} (names : gmap string string) (values : gmap string Value) (n : string).

Lemma add_frame item a item' : apply_add_assignment names values item a = Ok item' ->
  (forall attr v, split_assignment names values a = Some (inl (attr, v)) -> attr <> n) -> item' !! n = item !! n.
Proof.
  unfold apply_add_assignment. destruct (split_assignment names values a) as [[[attr v]|[]]|]; [|by intros [= <-]..].
  intros E Hn. specialize (Hn attr v eq_refl). destruct (item !! attr) as [existing|].
  - destruct (get_str "N" existing), (get_str "N" v).
    { destruct decimal_add_sub as [num|]; [|by injection E as <-]. destruct (range_checked num); [|done].
      injection E as <-. by rewrite lookup_insert_ne. }
    all: destruct (List.find _ SET_TYPES) as [set_type|]; [|done]; destruct (get_array set_type v); [|done];
         injection E as <-; by rewrite lookup_insert_ne.
  - destruct is_wellformed_add_operand; [|done]. injection E as <-. by rewrite lookup_insert_ne.
Qed.

Lemma delete_frame item a item' : apply_delete_assignment names values item a = Ok item' ->
  (forall attr v, split_assignment names values a = Some (inl (attr, v)) -> attr <> n) -> item' !! n = item !! n.
Proof.
  unfold apply_delete_assignment. destruct (split_assignment names values a) as [[[attr v]|[]]|]; [|by intros [= <-]..].
  intros E Hn. specialize (Hn attr v eq_refl). destruct (item !! attr) as [existing|]; [|by injection E as <-].
  destruct (omap _ SET_TYPES) as [|[[t e] d] ?]; [done|]. injection E as <-.
  case_match; [by rewrite lookup_delete_ne|by rewrite lookup_insert_ne].
Qed.

(** An assignment the check has looked at. *)
Definition passes (action : UpdateAction) (a : string) : Prop :=
  forall target, assignment_target action a = Some target -> resolve_attr_name (top_level_attribute target) names <> n.

Context (Hn : plain n) (Hm : marked names).

Lemma sets_frame item source ordinal l w item' r : Forall (passes USet) l ->
  apply_sets names values item source ordinal l w = (item', r) -> item' !! n = item !! n.
Proof.
  intros HF. revert item ordinal w. induction HF as [|a l Ha _ IH]; intros item ordinal w; cbn [apply_sets].
  { by intros [= <- _]. }
  destruct (apply_set_assignment_from names values item source a) as [[i item1]|e] eqn:E; [|by intros [= <- _]].
  intros Er. rewrite (IH _ _ _ Er). clear Er IH. unfold apply_set_assignment_from in E. unfold passes, assignment_target in Ha.
  destruct (split_once "=" a) as [[lhs rhs]|]; [|by injection E as <- <-]. apply bind_Ok in E as (v & _ & E).
  destruct v as [v|]; [|by injection E as <- <-]. unfold assign_nested_path in E.
  apply bind_Ok in E as (segs & Es%ok_or_Ok & E). eapply assign_frame; [exact E|]. intros top more -> ->.
  eapply (Ha lhs); [done|]. by eapply path_top.
Qed.

Lemma removes_frame item l w item' r : Forall (passes URemove) l ->
  apply_removes names item l w = (item', r) -> item' !! n = item !! n.
Proof.
  intros HF. revert item w. induction HF as [|a l Ha _ IH]; intros item w; cbn [apply_removes]; [by intros [= <- _]|].
  intros Er. rewrite (IH _ _ Er). unfold remove_path.
  destruct (parse_document_path (trim a) names) as [segs|] eqn:Es; [|done]. cbn. apply remove_frame.
  intros top more -> ->. eapply (Ha a); [done|]. by eapply path_top.
Qed.

(** ADD and DELETE read a trimmed text. *)
Lemma split_passes action a attr v : action = UAdd \/ action = UDelete -> trim a = a -> unquoted a -> passes action a ->
  split_assignment names values a = Some (inl (attr, v)) -> attr <> n.
Proof.
  intros Ha Ht Hq Hp. unfold split_assignment. destruct (splitn 2 " " a) as [|x [|y [|]]] eqn:E; try done.
  destruct (values !! trim y); [|done]. intros [= <- _] En.
  eapply Hp; [destruct Ha as [-> | ->]; reflexivity|]. by eapply assignment_top.
Qed.

Lemma each_frame action f item l w item' r :
  (forall item a item', f item a = Ok item' ->
     (forall attr v, split_assignment names values a = Some (inl (attr, v)) -> attr <> n) -> item' !! n = item !! n) ->
  action = UAdd \/ action = UDelete -> Forall (fun a => trim a = a /\ unquoted a /\ passes action a) l ->
  apply_each f item l w = (item', r) -> item' !! n = item !! n.
Proof.
  intros Hf Ha HF. revert item. induction HF as [|a l (Ht & Hq & Hp) _ IH]; intros item; cbn [apply_each]; [by intros [= <- _]|].
  destruct (f item a) as [item1|e] eqn:E; [|by intros [= <- _]]. intros Er. rewrite (IH _ Er).
  apply (Hf _ _ _ E). intros attr v. by apply (split_passes action).
Qed.

Lemma clauses_frame item source clauses w item' r :
  Forall (fun c => Forall (fun a => trim a = a /\ unquoted a /\ passes c.1 a) c.2) clauses ->
  apply_clauses names values item source clauses w = (item', r) -> item' !! n = item !! n.
Proof.
  intros HF. revert item w. induction HF as [|[action l] clauses Hc _ IH]; intros item w; cbn [apply_clauses]; [by intros [= <- _]|].
  destruct (apply_clause names values item source (action, l) w) as [item1 r1] eqn:E.
  assert (E1 : item1 !! n = item !! n).
  { unfold apply_clause in E. cbn [fst snd] in *. assert (Hl : Forall (passes action) l) by (eapply Forall_impl; [exact Hc|]; naive_solver).
    destruct action; [by eapply sets_frame|by eapply removes_frame|..].
    - eapply (each_frame UAdd); [apply add_frame|by left|exact Hc|exact E].
    - eapply (each_frame UDelete); [apply delete_frame|by right|exact Hc|exact E]. }
  destruct r1 as [w'|e]; [intros Er; by rewrite (IH _ _ Er)|by intros [= <- _]].
Qed.

End Frame.

(** ** Pieces of a text *)

Section Pieces.
Context (P : ascii -> bool).

Lemma forallb_drop i s : string_forallb P s = true -> string_forallb P (string_drop i s) = true.
Proof. intros Hs. rewrite <- (take_drop i s), string_forallb_app in Hs. by apply andb_true_iff in Hs as [_ ?]. Qed.

Lemma forallb_take i s : string_forallb P s = true -> string_forallb P (string_take i s) = true.
Proof. intros Hs. rewrite <- (take_drop i s), string_forallb_app in Hs. by apply andb_true_iff in Hs as [? _]. Qed.

Lemma forallb_slice s i j : string_forallb P s = true -> string_forallb P (slice s i j) = true.
Proof. intros Hs. by apply forallb_take, forallb_drop. Qed.

Lemma forallb_trim s : string_forallb P s = true -> string_forallb P (trim s) = true.
Proof.
  intros Hs. unfold trim. assert (Ha : string_forallb P (trim_start s) = true).
  { induction s as [|c s IH]; [done|]. simpl. destruct (is_whitespace c); [|done].
    simpl in Hs. apply andb_true_iff in Hs as [_ ?]. by apply IH. }
  destruct (trim_end_rest (trim_start s)) as (b & Eb & _). rewrite Eb, string_forallb_app in Ha.
  by apply andb_true_iff in Ha as [? _].
Qed.

Lemma forallb_split fuel expr kw i st : string_forallb P expr = true ->
  Forall (fun p => string_forallb P p = true) (split_loop fuel expr kw i st).
Proof.
  intros He. revert i st. induction fuel as [|fuel IH]; intros i st; cbn [split_loop].
  { repeat constructor. by apply forallb_drop. }
  destruct (char_at expr i); [|repeat constructor; by apply forallb_drop]. destruct st. cbn zeta.
  repeat case_match; first [apply IH | constructor; [by apply forallb_slice|apply IH]].
Qed.

Lemma clauses_pieces expr : string_forallb P expr = true ->
  Forall (fun c => Forall (fun a => trim a = a /\ string_forallb P a = true) c.2) (parse_update_clauses expr).
Proof.
  intros He. unfold parse_update_clauses.
  match goal with |- context [clause_texts expr ?p] => generalize p end.
  intros positions. apply Forall_fmap. induction positions as [|[pos action] more IH]; cbn [clause_texts]; constructor; [|done].
  cbn [fst snd compose]. apply Forall_fmap. unfold split_on_top_level_keyword.
  eapply Forall_impl; [apply forallb_split, forallb_trim, forallb_slice, He|]. intros a Ha. cbn.
  split; [apply trim_trim|by apply forallb_trim].
Qed.

End Pieces.

(** ** The theorem *)

Lemma guard_passes t expr names n : key_attribute_in_update_expression t expr names = None ->
  key_attribute t n -> Forall (fun c => Forall (passes names n c.1) c.2) (parse_update_clauses expr).
Proof.
  unfold key_attribute_in_update_expression. intros Hg Hn. apply Forall_forall. intros c Hc. apply Forall_forall.
  intros a Ha target Et En. rewrite head_None in Hg.
  assert (Hin : n ∈ (parse_update_clauses expr ≫= fun c => omap (fun a => target ← assignment_target c.1 a;
    let attr := resolve_attr_name (top_level_attribute target) names in
    if str_in attr (hash_key_name t :: option_list (range_key_name t)) then Some attr else None) c.2)).
  { apply list_elem_of_bind. exists c. split; [|done]. apply list_elem_of_omap. exists a. split; [done|].
    rewrite Et. cbn [mbind option_bind]. cbv zeta. rewrite En. assert (str_in n (hash_key_name t :: option_list (range_key_name t)) = true) as ->; [|done].
    unfold str_in. destruct Hn as [-> | ->]; simpl; rewrite String.eqb_refl; [done|]. by rewrite orb_true_r. }
  cbv zeta in Hin, Hg. rewrite Hg in Hin. by apply not_elem_of_nil in Hin.
Qed.

(** What passes the check leaves the key alone. *)
Lemma expression_keeps_key `{Base64Decode} t expr names values item item' r n :
  plain n -> key_attribute t n -> unquoted expr -> marked names ->
  key_attribute_in_update_expression t expr names = None ->
  apply_update_expression_tracked names values item expr = (item', r) -> item' !! n = item !! n.
Proof.
  intros Hn Hk Hq Hm Hg. unfold apply_update_expression_tracked.
  assert (HF : Forall (fun c => Forall (fun a => trim a = a /\ unquoted a /\ passes names n c.1 a) c.2) (parse_update_clauses expr)).
  { pose proof (clauses_pieces _ _ Hq) as H1. pose proof (guard_passes _ _ _ _ Hg Hk) as H2.
    rewrite Forall_forall in *. intros c Hc. specialize (H1 c Hc). specialize (H2 c Hc).
    rewrite Forall_forall in *. naive_solver. }
  destruct (parse_update_clauses expr) eqn:E; [case_match; by intros [= <- _]|]. by apply clauses_frame.
Qed.

(** C16 (safety): an update expression that passes the check for key attributes leaves
    the item under its primary key, applied in full or up to the action that fails, whatever
    its clauses: for key names that are plain words ([plain]: no dot, bracket, comma,
    operator, blank or quote, no leading mark), in an expression without double quotes
    over placeholders that are a mark and a word.  For a key name with a dot it fails
    ([dotted_key_is_written]). *)
Theorem update_keeps_key `{Base64Decode} `{JsonText} t expr names values item item' r :
  (forall n, key_attribute t n -> plain n) -> unquoted expr -> marked names ->
  key_attribute_in_update_expression t expr names = None ->
  apply_update_expression_tracked names values item expr = (item', r) ->
  (forall n, key_attribute t n -> item' !! n = item !! n) /\ encode_key t item' = encode_key t item.
Proof.
  intros Hn Hq Hm Hg E.
  assert (Hk : forall n, key_attribute t n -> item' !! n = item !! n) by (intros n Hk; by eapply expression_keeps_key; eauto).
  split; [exact Hk|]. pose proof (Hk _ (or_introl eq_refl)) as Hh. unfold encode_key, encode_key_with. rewrite Hh.
  destruct (range_key_name t) as [rk|] eqn:Er; [|done]. cbn [fmap option_fmap option_map]. by rewrite (Hk rk (or_intror Er)).
Qed.

Module GuardExamples.

#[local] Instance base64_none : Base64Decode := {| base64_decode _ := None |}.
#[local] Instance no_text : JsonText := {| scalar_text _ := ""; value_text _ := "" |}.

Definition one : Value := VObject [("N", VString "1")].
Definition keyed : DynamoTable := new_table [mkKeySchemaElement "pk" "HASH"].
Definition dotted : DynamoTable := new_table [mkKeySchemaElement "a.b" "HASH"].

Lemma update_keeps_key_witness :
  fst (apply_update_expression_tracked {[ "#n" := "count" ]} {[ ":v" := one ]} {[ "pk" := one ]}
    "ADD #n :v SET seen = :v") !! "pk" = Some one.
Proof.
  destruct (apply_update_expression_tracked {[ "#n" := "count" ]} {[ ":v" := one ]} {[ "pk" := one ]} "ADD #n :v SET seen = :v")
    as [item' r] eqn:E. cbn [fst]. change (Some one) with (({[ "pk" := one ]} : Item) !! "pk").
  eapply (update_keeps_key keyed); [..|exact E|by left].
  - intros n [-> |[=]]. by split_and!.
  - vm_compute. reflexivity.
  - intros k [x [<- _]%lookup_singleton_Some]. by exists "n".
  - vm_compute. reflexivity.
Defined.

(** A key name with a dot escapes the check: ADD writes the attribute as
    spelled, the check looks at the part before the dot. *)
Example dotted_key_is_written :
  key_attribute_in_update_expression dotted "ADD a.b :v" ∅ = None
  /\ apply_update_expression_tracked ∅ {[ ":v" := one ]} {[ "a.b" := one ]} "ADD a.b :v"
     = ({[ "a.b" := VObject [("N", VString "2")] ]}, Ok []).
Proof. vm_compute. done. Qed.

End GuardExamples.
