(* ===== verification/DdbItemsTheory.v ===== *)
(** * DynamoDB item operations: the rows as a map

    PutItem, DeleteItem, UpdateItem and GetItem are shown to implement a map
    from primary keys to items with conditional writes: a request that fails,
    for whatever reason and however far it got, leaves the map as it was; one
    that succeeds changes the row of its key and no other.  No request panics
    on a table whose index is sound, and every request leaves it sound. *)

From Stdlib Require Import ZArith Lia Bool String Ascii SpecFloat.
From stdpp Require Import base option list strings gmap sorting.
From S2P Require Import Prelude Json BTree Arn Text OrdMap Sqs DdbNumber DdbNumberTheory DdbValue DdbReserved DdbExpr DdbTable DdbUpdate DdbTableTheory DdbCondition DdbLex DdbConditionTheory DdbKeyGuard DdbItems.
Import Sqs(AwsServiceError, AwsError, aws_error).

Local Open Scope string_scope.
Local Open Scope op_scope.
Local Open Scope list_scope.

(** ** Canonical keys *)

Section Canonical.
Context `{Base64Decode} `{JsonText} `{!JsonTextLaws}.

Lemma normalize_scalar tag s : normalize_value_numbers (VObject [(tag, VString s)])
  = VObject [(tag, VString (match number_of tag s with Some p => canonical_text p | None => s end))].
Proof.
  unfold number_of. simpl. destruct (String.eqb tag "N").
  - unfold canonical_or_same, canonical_number. simpl. by destruct (parse_number s).
  - by repeat case_match.
Qed.

(** A number's canonical text is the same number. *)
Lemma number_of_canonical tag s p : number_of tag s = Some p -> (Z.abs (point p - 1) <= i64_max)%Z ->
  number_of tag (canonical_text p) = Some p.
Proof.
  unfold number_of. destruct (String.eqb tag "N"); [|done]. intros Hp Hb. apply canonical_text_parse; [|done].
  by eapply parse_number_wf.
Qed.

Lemma normalize_key v : key_ok v -> key_ok (normalize_value_numbers v)
  /\ encode_key_value (normalize_value_numbers v) = encode_key_value v
  /\ sort_part (Some (normalize_value_numbers v)) = sort_part (Some v).
Proof.
  intros (tag & s & -> & Hb). rewrite normalize_scalar. destruct (number_of tag s) as [p|] eqn:E.
  - pose proof (number_of_canonical _ _ _ E (Hb _ eq_refl)) as Ec. split; [|split].
    + exists tag, (canonical_text p). split; [done|]. intros q. rewrite Ec. intros [= <-]. by apply Hb.
    + by rewrite !encode_scalar, E, Ec.
    + by rewrite !sort_part_scalar, E, Ec.
  - split; [|done]. exists tag, s. split; [done|]. by rewrite E.
Qed.

Lemma encode_key_eq t a b :
  (forall n, key_attribute t n -> (encode_key_value <$> a !! n) = (encode_key_value <$> b !! n)
     /\ sort_part (a !! n) = sort_part (b !! n)) ->
  encode_key t a = encode_key t b.
Proof.
  intros Hn. unfold encode_key, encode_key_with. destruct (Hn (hash_key_name t) ltac:(by left)) as [Hh _].
  destruct (a !! hash_key_name t) as [x|], (b !! hash_key_name t) as [y|]; try done. injection Hh as Hh. simpl.
  rewrite Hh. do 2 f_equal. destruct (range_key_name t) as [rk|] eqn:E; [|done]. simpl. f_equal. apply Hn. by right.
Qed.

Lemma normalize_item t item : item_ok t item ->
  item_ok t (normalize_item_numbers item) /\ encode_key t (normalize_item_numbers item) = encode_key t item.
Proof.
  intros Hi. unfold normalize_item_numbers. split.
  - intros a v Ha. rewrite lookup_fmap_Some. intros (x & <- & Hx). by eapply normalize_key, Hi.
  - apply encode_key_eq. intros n Hn. rewrite lookup_fmap. destruct (item !! n) as [v|] eqn:E; [|done].
    cbn [fmap option_fmap option_map]. destruct (normalize_key v (Hi _ _ Hn E)) as (_ & -> & ->). done.
Qed.

(** The key of an item, alone. *)
Lemma extract_key_lookup t item n : key_attribute t n -> extract_key t item !! n = item !! n.
Proof.
  intros Hn. unfold extract_key. set (h := hash_key_name t) in *.
  assert (Hh : forall n, n = h -> (match item !! h with Some v => {[ h := v ]} | None => ∅ end : Item) !! n = item !! n).
  { intros ? ->. destruct (item !! h); [apply lookup_singleton_eq|apply lookup_empty]. }
  destruct (range_key_name t) as [rk|] eqn:Er.
  - destruct (decide (n = rk)) as [->|Hne].
    + destruct (item !! rk) eqn:E; [by rewrite lookup_insert_eq|]. destruct (decide (rk = h)) as [->|Hh']; [by rewrite Hh|].
      destruct (item !! h); [by rewrite lookup_singleton_ne|apply lookup_empty].
    + assert (n = h) by (destruct Hn as [->|[= ->]%(eq_trans (eq_sym Er))]; done).
      destruct (item !! rk); [rewrite lookup_insert_ne by done|]; by apply Hh.
  - destruct Hn as [->|E]; [by apply Hh|congruence].
Qed.

Lemma extract_key_ok t item : item_ok t item ->
  item_ok t (extract_key t item) /\ encode_key t (extract_key t item) = encode_key t item.
Proof.
  intros Hi. split.
  - intros a v Ha. rewrite extract_key_lookup by done. by apply Hi.
  - apply encode_key_eq. intros n Hn. by rewrite extract_key_lookup.
Qed.

(** A written item whose key attributes are scalars has usable keys. *)
Lemma each_ok_elem {A} (f : A -> Result AwsServiceError unit) l x : each_ok f l = Ok tt -> x ∈ l -> f x = Ok tt.
Proof.
  induction l as [|y l IH]; simpl; [by intros _ ?%not_elem_of_nil|].
  destruct (f y) as [[]|] eqn:E; [|done]. intros Hl [->|Hx]%elem_of_cons; auto.
Qed.

Lemma valid_number_bound s p : check_number s = Ok tt -> parse_number s = Some p -> (Z.abs (point p - 1) <= i64_max)%Z.
Proof.
  unfold check_number. destruct negb; [done|]. destruct significant_digit_count; [|done]. destruct (_ <? _)%nat; [done|].
  unfold range_checked. destruct (check_number_range s) as [[]|] eqn:E; [|done]. intros _ Hp.
  unfold check_number_range in E. rewrite Hp in E. cbn [mbind option_bind] in E. unfold scientific_exponent in E.
  destruct (parse_number_wf s p Hp) as (_ & _ & _ & Hz). unfold is_zero in E. destruct (is_empty_str (digits p)) eqn:Ed.
  - destruct (digits p); [|done]. destruct (Hz eq_refl) as [_ ->]. done.
  - unfold MAX_SCIENTIFIC_EXPONENT, MIN_SCIENTIFIC_EXPONENT in E.
    destruct (Z.ltb_spec 125 (point p - 1)%Z); [done|]. destruct (Z.ltb_spec (point p - 1)%Z (-130)); [done|].
    unfold i64_max. lia.
Qed.

Lemma written_item_ok t item : (forall a v, key_attribute t a -> item !! a = Some v -> key_value v) ->
  validate_item_attribute_values item = Ok tt -> item_ok t item.
Proof.
  intros Hk Hv a v Ha Hl. destruct (Hk a v Ha Hl) as (tag & s & ->). exists tag, s. split; [done|].
  assert (Hw : validate_written_value (VObject [(tag, VString s)]) = Ok tt).
  { eapply each_ok_elem; [exact Hv|]. unfold item_values. apply list_elem_of_fmap.
    exists (a, VObject [(tag, VString s)]). split; [done|]. by apply elem_of_map_to_list. }
  unfold validate_written_value in Hw. destruct (validate_attribute_value _) as [[]|] eqn:E; [|done].
  intros p. unfold number_of. cbn [validate_attribute_value] in E. destruct (String.eqb tag "N"); [|done].
  intros Hp. by eapply valid_number_bound.
Qed.

End Canonical.

(** ** Sound tables *)

Section Sound.
Context `{Base64Decode} `{JsonText} `{!JsonTextLaws}.

Definition sound (t : DynamoTable) : Prop := table_ok t /\ unique_keys t.

Lemma row_of_elem t k x : sound t ->
  row_of t k = Some x <-> exists id, (id, x) ∈ rows (items t) /\ encode_key t x = Some k.
Proof.
  intros [Ht Hu]. unfold row_of. split.
  - intros (e & E & ->)%fmap_Some. apply find_Some in E as [Hin Eb%bool_decide_eq_true].
    exists e.1. split; [by destruct e|done].
  - intros (id & Hin & Ek). destruct (List.find _ (rows (items t))) as [[id' y]|] eqn:E.
    + apply find_Some in E as [Hin' Eb%bool_decide_eq_true]. simpl in *. f_equal.
      assert (id' = id) as -> by (by eapply Hu). by eapply rows_fun; [apply (ok_sorted _ Ht)|..].
    + apply (find_None _ _ _ E) in Hin. by rewrite bool_decide_true in Hin.
Qed.

(** The rows of a sound table are determined by its elements. *)
Lemma row_of_ext t' (F : RowKey -> option Item) : sound t' ->
  (forall k x, F k = Some x <-> exists id, (id, x) ∈ rows (items t') /\ encode_key t' x = Some k) ->
  forall k, row_of t' k = F k.
Proof.
  intros Hs HF k. apply option_eq. intros x. by rewrite row_of_elem, HF.
Qed.

Lemma ensure_sound t : sound t -> sound (ensure_key_index t).
Proof.
  intros [Ht Hu]. split; [by apply ensure_ok|]. intros i j x y k. rewrite ensure_items.
  rewrite !(encode_key_schema (ensure_key_index t) t) by apply ensure_schema. apply Hu.
Qed.

Lemma ensure_row_of t k : row_of (ensure_key_index t) k = row_of t k.
Proof. rewrite (row_of_schema t) by (symmetry; apply ensure_schema). by rewrite ensure_items. Qed.

(** A table with the same schema whose rows follow from those of a sound one. *)
Lemma sound_core t t' : core t' = core t -> sound t -> sound t' /\ forall k, row_of t' k = row_of t k.
Proof.
  intros E [Ht Hu]. pose proof E as [= Es Ei _ _ _]. split; [split|].
  - by eapply table_ok_core.
  - intros i j x y k. rewrite Ei, !(encode_key_schema t' t) by done. apply Hu.
  - intros k. by rewrite (row_of_schema t), Ei.
Qed.

(** Rows after one row was replaced by another of the same key. *)
Lemma replaced t t' id old x k : sound t -> table_ok t' -> key_schema t' = key_schema t ->
  (id, old) ∈ rows (items t) -> encode_key t old = Some k -> encode_key t x = Some k ->
  (forall i y, (i, y) ∈ rows (items t') <-> (i = id /\ y = x) \/ (i <> id /\ (i, y) ∈ rows (items t))) ->
  sound t' /\ (forall k', row_of t' k' = if decide (k' = k) then Some x else row_of t k')
  /\ items_get (items t') id = Some x.
Proof.
  intros [Ht Hu] Ht' Es Ho Eo Ex Hr.
  assert (Hu' : unique_keys t').
  { intros i j a b k0. rewrite !(encode_key_schema t' t) by done. rewrite !Hr.
    intros [[-> ->]|[Hi Ha]] [[-> ->]|[Hj Hb]] Ea Eb; try done; [| |by eapply Hu].
    - symmetry. eapply Hu; [exact Hb|exact Ho|exact Eb|congruence].
    - eapply Hu; [exact Ha|exact Ho|exact Ea|congruence]. }
  split; [done|]. split.
  - apply row_of_ext; [done|]. intros k' y. setoid_rewrite Hr. rewrite (encode_key_schema t' t) by done.
    destruct (decide (k' = k)) as [->|Hne].
    + split; [intros [= <-]; exists id; split; [by left|done]|].
      intros (i & [[-> ->]|[Hi Hy]] & Ey); [done|]. destruct Hi. by eapply Hu.
    + rewrite row_of_elem by done. split.
      * intros (i & Hy & Ey). exists i. split; [|done]. right. split; [|done]. intros ->.
        apply (rows_fun (items t) id y old (ok_sorted _ Ht)) in Hy as ->; [|done]. congruence.
      * intros (i & [[-> ->]|[Hi Hy]] & Ey); [congruence|eauto].
  - apply items_get_elem; [apply (ok_sorted _ Ht')|]. apply Hr. by left.
Qed.

(** Rows after one of a new key was added. *)
Lemma added t t' id x k : sound t -> table_ok t' -> key_schema t' = key_schema t ->
  encode_key t x = Some k -> row_of t k = None ->
  (forall i y, (i, y) ∈ rows (items t') <-> (i = id /\ y = x) \/ (i, y) ∈ rows (items t)) ->
  (forall y, (id, y) ∉ rows (items t)) ->
  sound t' /\ (forall k', row_of t' k' = if decide (k' = k) then Some x else row_of t k')
  /\ items_get (items t') id = Some x.
Proof.
  intros [Ht Hu] Ht' Es Ex Hn Hr Hid.
  assert (Hfree : forall i y, (i, y) ∈ rows (items t) -> encode_key t y <> Some k).
  { intros i y Hy Ey. assert (row_of t k = Some y) by (apply row_of_elem; [done|eauto]). congruence. }
  assert (Hu' : unique_keys t').
  { intros i j a b k0. rewrite !(encode_key_schema t' t) by done. rewrite !Hr.
    intros [[-> ->]|Ha] [[-> ->]|Hb] Ea Eb; try done; [| |by eapply Hu];
      exfalso; eapply Hfree; [exact Hb|congruence|exact Ha|congruence]. }
  split; [done|]. split.
  - apply row_of_ext; [done|]. intros k' y. setoid_rewrite Hr. rewrite (encode_key_schema t' t) by done.
    destruct (decide (k' = k)) as [->|Hne].
    + split; [intros [= <-]; exists id; split; [by left|done]|].
      intros (i & [[-> ->]|Hy] & Ey); [done|]. by destruct (Hfree i y).
    + rewrite row_of_elem by done. split; [intros (i & Hy & Ey); exists i; eauto|].
      intros (i & [[-> ->]|Hy] & Ey); [congruence|eauto].
  - apply items_get_elem; [apply (ok_sorted _ Ht')|]. apply Hr. by left.
Qed.

(** Rows after one was removed. *)
Lemma removed t t' id x k : sound t -> table_ok t' -> key_schema t' = key_schema t ->
  (id, x) ∈ rows (items t) -> encode_key t x = Some k ->
  (forall i y, (i, y) ∈ rows (items t') <-> i <> id /\ (i, y) ∈ rows (items t)) ->
  sound t' /\ forall k', row_of t' k' = if decide (k' = k) then None else row_of t k'.
Proof.
  intros [Ht Hu] Ht' Es Hx Ex Hr.
  assert (Hu' : unique_keys t').
  { intros i j a b k0. rewrite !(encode_key_schema t' t) by done. rewrite !Hr. intros [_ Ha] [_ Hb]. by apply Hu. }
  split; [done|]. apply row_of_ext; [done|]. intros k' y. setoid_rewrite Hr. rewrite (encode_key_schema t' t) by done.
  destruct (decide (k' = k)) as [->|Hne].
  - split; [done|]. intros (i & [Hi Hy] & Ey). destruct Hi. by eapply Hu.
  - rewrite row_of_elem by done. split.
    + intros (i & Hy & Ey). exists i. split; [|done]. split; [|done]. intros ->.
      apply (rows_fun (items t) id y x (ok_sorted _ Ht)) in Hy as ->; [|done]. congruence.
    + intros (i & [Hi Hy] & Ey). eauto.
Qed.

Lemma find_index_sound t key k : sound t -> item_ok t key -> encode_key t key = Some k ->
  match find_item_index t key with
  | Some id => exists item, (id, item) ∈ rows (items t) /\ items_get (items t) id = Some item
      /\ row_of t k = Some item /\ encode_key t item = Some k
  | None => row_of t k = None
  end.
Proof.
  intros [Ht Hu] Hk Ek. pose proof (find_index_row t key k Ht Hk Ek) as Hf.
  destruct (find_item_index t key) as [id|]; [|done]. destruct Hf as (x & Eg & Hr & Ex). exists x.
  split; [|done]. by apply items_get_elem; [apply (ok_sorted _ Ht)|].
Qed.

Lemma put_sound t now item k : sound t -> item_ok t item -> encode_key t item = Some k ->
  exists id b t', put_item_at_key t now item = Some ((id, b), t') /\ sound t' /\ key_schema t' = key_schema t
    /\ (forall k', row_of t' k' = if decide (k' = k) then Some item else row_of t k')
    /\ items_get (items t') id = Some item.
Proof.
  intros St Hi Ek. pose proof St as [Ht Hu].
  destruct (put_ok t now item Ht Hi) as (id & b & t' & Ep & Ht' & Es & Ef & Er & Hb). exists id, b, t'.
  split; [done|]. set (t0 := ensure_key_index (log_change t item)) in *.
  assert (C0 : key_schema t0 = key_schema t /\ items t0 = items t).
  { unfold t0. rewrite ensure_schema, ensure_items. by injection (core_log t item) as -> -> _ _ _. }
  destruct C0 as [S0 I0]. assert (St0 : sound t0).
  { split; [by apply ensure_ok, log_ok|]. intros i j x y k0. rewrite I0, !(encode_key_schema t0 t) by done. apply Hu. }
  pose proof (find_index_sound t0 item k St0 ltac:(by eapply item_ok_schema)
    ltac:(by rewrite (encode_key_schema t0 t))) as Hf.
  rewrite Ef in Hf. destruct b.
  - destruct Hf as (old & Hin & Eg & _ & Eo). rewrite I0 in Hin, Eg. rewrite (encode_key_schema t0 t) in Eo by done.
    destruct (replaced t t' id old item k) as (S' & R' & G'); try done.
    intros i y. rewrite Er. apply (rows_set_elem _ _ old); [apply (ok_sorted _ Ht)|done].
  - rewrite (row_of_schema t), I0 in Hf by done. rewrite (Hb eq_refl) in *.
    destruct (added t t' (next_id (items t)) item k) as (S' & R' & G'); try done.
    + intros i y. rewrite Er, elem_of_app, list_elem_of_singleton. naive_solver.
    + intros y Hy. pose proof (ok_next _ Ht) as F. rewrite Forall_forall in F. specialize (F _ Hy). simpl in F. lia.
Qed.

Lemma remove_at_sound t now id x k : sound t -> items_get (items t) id = Some x -> encode_key t x = Some k ->
  exists t', remove_item_at t now id = Some (x, t') /\ sound t' /\ key_schema t' = key_schema t
    /\ forall k', row_of t' k' = if decide (k' = k) then None else row_of t k'.
Proof.
  intros St Eg Ex. pose proof St as [Ht _]. destruct (remove_at_ok t now id x Ht Eg) as (t' & E & Ht' & Es & Er).
  exists t'. split; [done|]. destruct (removed t t' id x k) as [S' R']; try done.
  - apply items_get_elem; [apply (ok_sorted _ Ht)|done].
  - intros i y. rewrite Er. rewrite (om_remove_elem (fun _ => True) Z.compare); [|apply (ok_sorted _ Ht)|done]. done.
Qed.

Lemma remove_key_sound t now key k : sound t -> item_ok t key -> encode_key t key = Some k ->
  exists t', remove_item_by_key t now key = Some (row_of t k, t') /\ sound t' /\ key_schema t' = key_schema t
    /\ forall k', row_of t' k' = if decide (k' = k) then None else row_of t k'.
Proof.
  intros St Hi Ek. unfold remove_item_by_key. set (t0 := ensure_key_index t).
  assert (S0 : key_schema t0 = key_schema t) by apply ensure_schema.
  pose proof (ensure_sound t St) as St0. fold t0 in St0.
  pose proof (find_index_sound t0 key k St0 ltac:(by eapply item_ok_schema)
    ltac:(by rewrite (encode_key_schema t0 t))) as Hf.
  assert (Hr0 : forall k', row_of t0 k' = row_of t k') by (intros; apply ensure_row_of).
  destruct (find_item_index t0 key) as [id|].
  - destruct Hf as (x & _ & Eg & Hr & Ex). destruct (remove_at_sound t0 now id x k St0 Eg Ex) as (t' & E & S' & Es & R').
    rewrite E. simpl. exists t'. rewrite <- Hr0, Hr. split; [done|]. split; [done|]. split; [congruence|].
    intros k'. by rewrite R', Hr0.
  - exists t0. rewrite <- Hr0, Hf. split; [done|]. split; [done|]. split; [done|]. intros k'. rewrite Hr0.
    destruct (decide (k' = k)) as [->|]; [|done]. by rewrite <- Hr0.
Qed.

(** An update of one row that keeps its key. *)
Lemma update_sound {E} t now id old row k (f : Item -> Item * Result E unit) : sound t ->
  items_get (items t) id = Some old -> encode_key t old = Some k -> f old = (row, Ok tt) ->
  item_ok t row -> encode_key t row = Some k ->
  exists t', update_item_at t now id f = Some (Ok tt, t') /\ sound t' /\ key_schema t' = key_schema t
    /\ (forall k', row_of t' k' = if decide (k' = k) then Some row else row_of t k')
    /\ items_get (items t') id = Some row.
Proof.
  intros St Eg Eo Ef Hi Er. pose proof St as [Ht _]. unfold update_item_at. rewrite Eg. cbn [mbind option_bind].
  rewrite Ef. eexists. split; [reflexivity|].
  destruct (mutated_ok t _ id old row now Ht Eg Hi eq_refl) as (T' & Es & Ei).
  match type of T' with table_ok ?x => set (t' := x) in * end.
  destruct (replaced t t' id old row k) as (S' & R' & G'); try done.
  - apply items_get_elem; [apply (ok_sorted _ Ht)|done].
  - intros i y. rewrite Ei. by apply (rows_set_elem _ _ old); [apply (ok_sorted _ Ht)|].
Qed.

Lemma update_rejected {E} t now id old row (f : Item -> Item * Result E unit) e : sound t ->
  items_get (items t) id = Some old -> f old = (row, Err e) -> update_item_at t now id f = Some (Err e, t).
Proof.
  intros [Ht _] Eg Ef. unfold update_item_at. rewrite Eg. cbn [mbind option_bind]. rewrite Ef. do 3 f_equal.
  unfold with_items at 1. simpl. rewrite items_set_set, (items_set_same _ _ _ (ok_sorted _ Ht) Eg). by destruct t.
Qed.

Lemma access_sound t key : sound t -> sound (record_key_access t key) /\ forall k, row_of (record_key_access t key) k = row_of t k.
Proof. apply sound_core, core_access. Qed.

End Sound.

(** ** Conditional writes on a map *)

Definition Rows : Type := RowKey -> option Item.
Definition set_row (m : Rows) (k : RowKey) (v : option Item) : Rows := fun k' => if decide (k' = k) then v else m k'.

(** What the write operations promise: after [prep], the checks that do not
    look at the row, the condition is put to the row under the key and the new
    row replaces it.  An error leaves the map as it is; success returns the old
    row. *)
Definition conditional_write {P} (prep : Result AwsServiceError P)
  (cond : P -> option Item -> Result AwsServiceError unit)
  (new : P -> option Item -> Result AwsServiceError (option Item)) (k : RowKey) (m : Rows)
  : Rows * Result AwsServiceError (option Item) :=
  match prep with
  | Err e => (m, Err e)
  | Ok p => match cond p (m k) with
            | Err e => (m, Err e)
            | Ok _ => match new p (m k) with
                      | Err e => (m, Err e)
                      | Ok v => (set_row m k v, Ok (m k))
                      end
            end
  end.

(** ** Reasoning about operations *)

Definition wp {S E A} (m : Run S E A) (s : S) (Q : Result E A -> S -> Prop) : Prop :=
  match m s with Some (s', r) => Q r s' | None => False end.

Lemma wp_bind {S E A B} (m : Run S E A) (f : A -> Run S E B) s Q :
  wp m s (fun r s' => match r with Ok a => wp (f a) s' Q | Err e => Q (Err e) s' end) -> wp (op_bind m f) s Q.
Proof. unfold wp, op_bind. by destruct (m s) as [[s' [a|e]]|]. Qed.

Lemma wp_check {S E A} (r : Result E A) (s : S) (Q : Result E A -> _ -> Prop) : Q r s -> wp (check r) s Q.
Proof. done. Qed.

Lemma wp_ret {S E A} (a : A) (s : S) (Q : Result E A -> _ -> Prop) : Q (Ok a) s -> wp (op_ret a) s Q.
Proof. done. Qed.

Lemma wp_mono {S E A} (m : Run S E A) (s : S) (P Q : Result E A -> S -> Prop) :
  wp m s P -> (forall r s', P r s' -> Q r s') -> wp m s Q.
Proof. unfold wp. destruct (m s) as [[s' r]|]; [|done]. intros HP HQ. by apply HQ. Qed.

Lemma wp_read t seq (Q : Result AwsServiceError Table -> _ -> Prop) : Q (Ok t) (t, seq) -> wp read_table (t, seq) Q.
Proof. done. Qed.

Lemma wp_modify f t seq (Q : Result AwsServiceError unit -> _ -> Prop) : Q (Ok tt) (f t, seq) -> wp (modify f) (t, seq) Q.
Proof. done. Qed.

Lemma wp_on_store {A} (f : DynamoTable -> option (A * DynamoTable)) a st t seq Q : f (store t) = Some (a, st) ->
  Q (Ok a) (with_store t st, seq) -> wp (on_store f) (t, seq) Q.
Proof. intros E HQ. unfold wp, on_store. simpl. by rewrite E. Qed.

Lemma wp_row {id item t seq Q} : items_get (items (store t)) id = Some item ->
  Q (Ok (Some item)) (t, seq) -> wp (row_at (Some id)) (t, seq) Q.
Proof. intros E HQ. unfold wp, row_at. simpl. by rewrite E. Qed.

(** The next operation of a sequence. *)
Ltac step := apply wp_bind; first [apply wp_read | apply wp_modify | apply wp_check]; cbv beta iota.

Section Records.
Context `{ItemText} (env : Env).

Lemma wp_generate event keys old new t seq (Q : Result AwsServiceError (option StreamRecord) -> _ -> Prop) :
  (forall r seq, Q (Ok r) (t, seq)) -> wp (generate_stream_record env event keys old new) (t, seq) Q.
Proof.
  intros HQ. apply wp_bind. cbn. unfold wp.
  destruct (if stream_enabled t then stream_view_type t else None) as [view|]; [|apply HQ].
  match goal with |- context [let '(_, _) := ?x in _] => destruct x end. apply HQ.
Qed.

Lemma wp_append event keys old new s (Q : Result AwsServiceError unit -> _ -> Prop) :
  (forall l seq, Q (Ok tt) (with_records s.1 l, seq)) -> wp (append_stream_record env event keys old new) s Q.
Proof.
  destruct s as [t seq]. intros HQ. apply wp_bind, wp_generate. intros [r|] seq'; [apply HQ|].
  specialize (HQ (stream_records t) seq'). by destruct t.
Qed.

Lemma wp_deliver target event keys old new s (Q : Result AwsServiceError (list Effect) -> _ -> Prop) :
  (forall l seq, Q (Ok l) (s.1, seq)) -> wp (deliver_to_kinesis_destinations env target event keys old new) s Q.
Proof.
  intros HQ. destruct s as [t seq]. unfold wp, deliver_to_kinesis_destinations. destruct target as [target|]; [|apply HQ].
  destruct (delivery env); [|apply HQ]. destruct (deliver_kinesis_change _ _ _ _ _ _ _). apply HQ.
Qed.

End Records.

(** Only the rows and the stream of a table change. *)
Definition same_settings (t t' : Table) : Prop := t' = with_records (with_store t (store t')) (stream_records t').

Section Writes.
Context `{Base64Decode} `{JsonText} `{!JsonTextLaws} `{ItemText} (env : Env).

(** The table after a write, and its reply, as the map says. *)
Definition written (t : Table) (w : Rows * Result AwsServiceError (option Item)) (ret : option Item -> option Item)
  (r : Result AwsServiceError Reply) (s : Table * Z) : Prop :=
  sound (store s.1) /\ same_settings t s.1 /\ key_schema (store s.1) = key_schema (store t)
  /\ (forall k, row_of (store s.1) k = w.1 k)
  /\ match r, w.2 with
     | Ok reply, Ok old => returned reply = ret old
     | Err e, Err e' => e = e'
     | _, _ => False
     end.

Definition key_of (t : DynamoTable) (item : Item) : RowKey := default (mkRowKey 0 "" None) (encode_key t item).

Definition condition_of (body : Value) (condition : option string) (ph : Placeholders) (row : option Item)
  : Result AwsServiceError unit :=
  match condition with
  | Some cond => evaluate_condition_with_return cond row ph.1 ph.2 (as_str (index body "ReturnValuesOnConditionCheckFailure"))
  | None => Ok tt
  end.

Definition returns_old (body : Value) (old : option Item) : option Item :=
  if String.eqb (default "NONE" (as_str (index body "ReturnValues"))) "ALL_OLD" then old else None.

(** The checks of PutItem on the item alone. *)
Definition put_checks (t : Table) (item : Item) : Result AwsServiceError unit :=
  _ ← validate_key_in_item t item;
  _ ← validate_item_attribute_values item;
  _ ← validate_index_keys_in_item t item;
  check_put_item_size (normalize_item_numbers item).

Definition put_spec (t : Table) (body : Value) (item : Item) (condition : option string) (ph : Placeholders) :=
  conditional_write (put_checks t item) (fun _ => condition_of body condition ph)
    (fun _ _ => Ok (Some (normalize_item_numbers item))) (key_of (store t) item).

(** An error before anything was written. *)
Lemma written_error t t' seq e w ret : sound (store t') -> same_settings t t' ->
  key_schema (store t') = key_schema (store t) -> (forall k, row_of (store t') k = row_of (store t) k) ->
  w = (row_of (store t), Err e) -> written t w ret (Err e) (t', seq).
Proof. intros Hs Hse Hk Hr ->. done. Qed.

Lemma key_present t item : validate_key_in_item t item = Ok tt -> is_Some (encode_key (store t) item).
Proof.
  unfold validate_key_in_item, missing_item_key_error. destruct (List.find _ _) eqn:E; [done|]. intros _.
  pose proof (List.find_none _ _ E (hash_key_name (store t)) ltac:(by left)) as Hh.
  apply negb_false_iff, bool_decide_eq_true in Hh as [v Hv]. unfold encode_key, encode_key_with. rewrite Hv. simpl. eauto.
Qed.

(** An item of checked values: its canonical form is stored under its key. *)
Lemma put_key t item : (forall a v, key_attribute (store t) a -> item !! a = Some v -> key_value v) ->
  validate_key_in_item t item = Ok tt -> validate_item_attribute_values item = Ok tt ->
  let item' := normalize_item_numbers item in
  encode_key (store t) item' = Some (key_of (store t) item) /\ item_ok (store t) item'
  /\ encode_key (store t) (extract_key (store t) item') = Some (key_of (store t) item)
  /\ item_ok (store t) (extract_key (store t) item').
Proof.
  intros Hk E1 E2 item'. pose proof (written_item_ok _ _ Hk E2) as Hi.
  destruct (normalize_item _ _ Hi) as [Hi' Ei']. destruct (extract_key_ok _ _ Hi') as [Hx Ex].
  destruct (key_present t item E1) as [k Ek]. unfold key_of. rewrite Ek. simpl.
  unfold item'. rewrite Ex, Ei'. by rewrite Ek.
Qed.

Lemma extract_key_schema t t' item : key_schema t = key_schema t' -> extract_key t item = extract_key t' item.
Proof. intros E. unfold extract_key, hash_key_name, range_key_name, schema_name. by rewrite E. Qed.

(** The row found under a key. *)
Lemma wp_lookup t key k seq (Q : Result AwsServiceError (option Item) -> _ -> Prop) : sound (store t) ->
  item_ok (store t) key -> encode_key (store t) key = Some k ->
  Q (Ok (row_of (store t) k)) (t, seq) -> wp (row_at (find_item_index (store t) key)) (t, seq) Q.
Proof.
  intros St Hi Ek HQ. pose proof (find_index_sound _ _ _ St Hi Ek) as Hf.
  destruct (find_item_index (store t) key) as [id|].
  - destruct Hf as (x & _ & Eg & Er & _). rewrite Er in HQ. by eapply wp_row.
  - rewrite Hf in HQ. exact HQ.
Qed.

Lemma same_settings_refl t : same_settings t t.
Proof. by destruct t. Qed.

Lemma same_settings_store t st : same_settings t (with_store t st).
Proof. by destruct t. Qed.

Lemma same_settings_records t t' l : same_settings t t' -> same_settings t (with_records t' l).
Proof. unfold same_settings. intros ->. by destruct t. Qed.

(** The table with its index built. *)
Definition indexed (t : Table) : Table := with_store t (ensure_key_index (store t)).

Lemma indexed_ok t : sound (store t) -> sound (store (indexed t)) /\ same_settings t (indexed t)
  /\ key_schema (store (indexed t)) = key_schema (store t)
  /\ forall k, row_of (store (indexed t)) k = row_of (store t) k.
Proof.
  intros St. split; [by apply ensure_sound|]. split; [apply same_settings_store|]. split; [apply ensure_schema|].
  intros k. apply ensure_row_of.
Qed.

Lemma indexed_key t key k : item_ok (store t) key -> encode_key (store t) key = Some k ->
  item_ok (store (indexed t)) key /\ encode_key (store (indexed t)) key = Some k.
Proof.
  intros Hi Ek. pose proof (ensure_schema (store t)) as Es. split; [by eapply item_ok_schema|].
  by rewrite (encode_key_schema _ (store t)).
Qed.

Lemma put_locked_refines t seq body name item condition ph : sound (store t) ->
  (forall a v, key_attribute (store t) a -> item !! a = Some v -> key_value v) ->
  wp (put_locked env body name item condition ph) (t, seq)
    (written t (put_spec t body item condition ph (row_of (store t))) (returns_old body)).
Proof.
  intros St Hk. unfold put_locked, put_spec, put_checks. cbv zeta. pose proof (same_settings_refl t) as Hself.
  step. step. destruct (validate_key_in_item t item) as [[]|e] eqn:E1; [|by apply written_error].
  step. destruct (validate_item_attribute_values item) as [[]|e] eqn:E2; [|by apply written_error].
  step. destruct (validate_index_keys_in_item t item) as [[]|e] eqn:E3; [|by apply written_error].
  step. cbn [mbind result_bind]. destruct (check_put_item_size _) as [[]|e] eqn:E4; [|by apply written_error].
  destruct (put_key t item Hk E1 E2) as (Ek & Hi & Ex & Hx). cbn zeta in *.
  set (item' := normalize_item_numbers item) in *. set (k := key_of (store t) item) in *.
  step. step. fold (indexed t). destruct (indexed_ok t St) as (St0 & Se0 & S0 & R0).
  destruct (indexed_key t _ _ Hi Ek) as [Hi0 Ek0]. destruct (indexed_key t _ _ Hx Ex) as [Hx0 Ex0].
  rewrite (extract_key_schema _ (store t)) by done.
  apply wp_bind. eapply wp_lookup; [done|exact Hx0|exact Ex0|]. rewrite R0. unfold check_condition. step.
  fold (condition_of body condition ph (row_of (store t) k)). unfold conditional_write.
  destruct (condition_of body condition ph (row_of (store t) k)) as [[]|e]; [|by apply written_error].
  destruct (put_sound (store (indexed t)) (now env) item' k St0 Hi0 Ek0) as (id & b & st & Ep & Ss & Sc & Rw & _).
  apply wp_bind. eapply wp_on_store; [exact Ep|]. step. step. cbn [store with_store].
  apply wp_bind, wp_append. intros l seq1. step. apply wp_bind, wp_deliver. intros effs seq2. apply wp_ret.
  destruct (access_sound st item' Ss) as [Sa Ra]. split; [exact Sa|]. split; [by destruct t|]. split.
  - cbn. rewrite <- S0, <- Sc. apply core_schema, core_access.
  - split; [|done]. intros k'. cbn. rewrite Ra, Rw. unfold set_row. by rewrite R0.
Qed.

(** *** DeleteItem *)

Definition delete_checks (t : Table) (body : Value) (key : Item)
  : Result AwsServiceError (option string * Placeholders) :=
  _ ← validate_key_attributes_in_key t key;
  resolve_write_condition body (parse_expression_attribute_names body, parse_expression_attribute_values body).

Definition delete_spec (t : Table) (body : Value) (key : Item) :=
  conditional_write (delete_checks t body key) (fun w => condition_of body w.1 w.2) (fun _ _ => Ok None)
    (key_of (store t) key).

Lemma lookup_key t key : validate_key_attributes_in_key t key = Ok tt ->
  encode_key (store t) key = Some (key_of (store t) key).
Proof.
  unfold validate_key_attributes_in_key, key_matches_schema. cbn [forallb table_key_names].
  destruct (key !! hash_key_name (store t)) as [v|] eqn:E; [|done]. intros _.
  unfold key_of, encode_key, encode_key_with. by rewrite E.
Qed.

Lemma delete_locked_refines t seq body name key : sound (store t) -> item_ok (store t) key ->
  wp (delete_locked env body name key) (t, seq)
    (written t (delete_spec t body key (row_of (store t))) (returns_old body)).
Proof.
  intros St Hi. unfold delete_locked, delete_spec, delete_checks. cbv zeta. pose proof (same_settings_refl t) as Hself.
  step. step. destruct (validate_key_attributes_in_key t key) as [[]|e] eqn:E1; [|by apply written_error].
  pose proof (lookup_key t key E1) as Ek. set (k := key_of (store t) key) in *.
  step. cbn [mbind result_bind]. destruct (resolve_write_condition body _) as [w|e]; [|by apply written_error].
  step. step. fold (indexed t). destruct (indexed_ok t St) as (St0 & Se0 & S0 & R0).
  destruct (indexed_key t _ _ Hi Ek) as [Hi0 Ek0].
  apply wp_bind. eapply wp_lookup; [done|exact Hi0|exact Ek0|]. rewrite R0. unfold check_condition. step.
  fold (condition_of body w.1 w.2 (row_of (store t) k)). unfold conditional_write.
  destruct (condition_of body w.1 w.2 (row_of (store t) k)) as [[]|e]; [|by apply written_error].
  apply wp_bind. destruct (row_of (store t) k) as [old|] eqn:Er.
  - apply wp_bind, wp_append. intros l seq1. step.
    destruct (remove_key_sound (store (indexed t)) (now env) key k St0 Hi0 Ek0) as (st & Ed & Ss & Sc & Rw).
    apply wp_bind. eapply wp_on_store; [exact Ed|]. apply wp_ret. step. apply wp_bind, wp_deliver. intros effs seq2.
    apply wp_ret. split; [exact Ss|]. split; [by destruct t|]. split; [by rewrite <- S0|]. split; [|done].
    intros k'. cbn. rewrite Rw. unfold set_row. by rewrite R0.
  - apply wp_ret. step. apply wp_bind, wp_deliver. intros effs seq2. apply wp_ret.
    split; [exact St0|]. split; [done|]. split; [done|]. split; [|done].
    intros k'. cbn [fst]. rewrite R0. unfold set_row. by destruct (decide (k' = k)) as [->|].
Qed.

(** *** UpdateItem *)

Definition update_checks (t : Table) (body : Value) (key : Item)
  : Result AwsServiceError (option string * Placeholders) :=
  _ ← validate_key_attributes_in_key t key;
  resolve_write_condition body (parse_expression_attribute_names body, parse_expression_attribute_values body)
    ≫= fun w : option string * Placeholders =>
  _ ← reject_key_update (store t) (as_str (index body "UpdateExpression")) (as_object (index body "AttributeUpdates")) w.2.1;
  _ ← validate_update_values body w.2.2;
  Ok (w.1, (w.2.1, normalize_value_numbers <$> w.2.2)).

(** The request's mutation of a row. *)
Definition row_update (t : Table) (body : Value) (ph : Placeholders)
  : Item -> Item * Result AwsServiceError (list (nat * DocPath)) :=
  update_row t (as_str (index body "UpdateExpression"))
    (normalize_updates <$> as_object (index body "AttributeUpdates")) ph.

Definition updated (t : Table) (body : Value) (key : Item) (ph : Placeholders) (old : option Item)
  : Item * Result AwsServiceError (list (nat * DocPath)) :=
  row_update t body ph (default (normalize_item_numbers key) old).

Definition update_spec (t : Table) (body : Value) (key : Item) :=
  conditional_write (update_checks t body key) (fun w => condition_of body w.1 w.2)
    (fun w old => let '(row, r) := updated t body key w.2 old in _ ← r; Ok (Some row)) (key_of (store t) key).

Definition update_returns (t : Table) (body : Value) (key : Item) (parsed : ParsedExpressions) (old : option Item)
  : option Item :=
  match update_checks t body key with
  | Ok w => match updated t body key w.2 old with
            | (row, Ok written) => response_attributes body parsed old row written
            | _ => None
            end
  | Err _ => None
  end.

Lemma row_update_settings t t' body ph x : same_settings t t' -> key_schema (store t') = key_schema (store t) ->
  row_update t' body ph x = row_update t body ph x.
Proof.
  intros -> Es. unfold row_update, update_row, index_key_specs, table_key_names, hash_key_name, range_key_name, schema_name.
  destruct t. simpl in *. by rewrite Es.
Qed.

Lemma key_kept t row x : (forall n, key_attribute t n -> row !! n = x !! n) -> item_ok t x ->
  item_ok t row /\ encode_key t row = encode_key t x.
Proof.
  intros Hn Hx. split; [|apply encode_key_eq; intros n Ha; by rewrite Hn].
  intros a v Ha. rewrite Hn by done. by apply Hx.
Qed.

(** The row mutated in place, or put back. *)
Lemma wp_apply t seq id x k is_insert f (Q : Result AwsServiceError (list (nat * DocPath)) -> _ -> Prop) :
  sound (store t) -> items_get (items (store t)) id = Some x -> encode_key (store t) x = Some k -> item_ok (store t) x ->
  (forall row w, f x = (row, Ok w) -> forall n, key_attribute (store t) n -> row !! n = x !! n) ->
  match f x with
  | (row, Ok w) => forall st, sound st -> key_schema st = key_schema (store t) ->
      (forall k', row_of st k' = if decide (k' = k) then Some row else row_of (store t) k') ->
      items_get (items st) id = Some row -> Q (Ok w) (with_store t st, seq)
  | (_, Err e) => forall st, sound st -> key_schema st = key_schema (store t) ->
      (forall k', row_of st k' = if is_insert && bool_decide (k' = k) then None else row_of (store t) k') ->
      Q (Err e) (with_store t st, seq)
  end -> wp (apply_to_row env id is_insert f) (t, seq) Q.
Proof.
  intros St Eg Ex Hx Hkeep HQ. unfold wp, apply_to_row. cbn [fst]. rewrite Eg. destruct (f x) as [row [w|e]] eqn:Ef.
  - destruct (key_kept _ row x (Hkeep _ _ eq_refl) Hx) as [Hr Er].
    destruct (update_sound (store t) (now env) id x row k (fun x => let '(row, r) := f x in (row, _ ← r; Ok tt)))
      as (st & -> & Ss & Sc & Rw & G); try done; [by rewrite Ef|congruence|]. cbn [snd]. by apply HQ.
  - rewrite (update_rejected (store t) (now env) id x row _ e St Eg) by (by rewrite Ef). destruct is_insert.
    + destruct (remove_at_sound (store t) (now env) id x k St Eg Ex) as (st & -> & Ss & Sc & Rw). simpl.
      apply HQ; [done|done|]. intros k'. rewrite Rw. by destruct (decide (k' = k)); case_bool_decide.
    + apply HQ; done.
Qed.

(** The row an update starts from, in the table as the upsert leaves it. *)
Lemma wp_upsert t seq key k (Q : Result AwsServiceError Z -> _ -> Prop) : sound (store t) -> item_ok (store t) key ->
  encode_key (store t) key = Some k ->
  (forall st id x, x = default (normalize_item_numbers key) (row_of (store t) k) ->
     sound st -> key_schema st = key_schema (store t) -> items_get (items st) id = Some x ->
     encode_key (store t) x = Some k -> item_ok (store t) x ->
     (forall k', row_of st k' = if decide (k' = k) then Some x else row_of (store t) k') -> Q (Ok id) (with_store t st, seq)) ->
  wp (upsert env key (find_item_index (store t) key)) (t, seq) Q.
Proof.
  intros St Hi Ek HQ. pose proof (find_index_sound _ _ _ St Hi Ek) as Hf. unfold upsert.
  destruct (find_item_index (store t) key) as [id|].
  - destruct Hf as (x & Hin & Eg & Er & Ex). rewrite Er in *. apply wp_ret.
    pose proof (ok_items _ (proj1 St)) as F. rewrite Forall_forall in F.
    assert (t = with_store t (store t)) as Ht by (by destruct t). rewrite Ht at 1.
    apply (HQ (store t) id x); try done; [by apply (F _ Hin)|]. intros k'. destruct (decide (k' = k)) as [->|]; [by rewrite Er|done].
  - rewrite Hf in *. destruct (normalize_item _ _ Hi) as [Hn En]. rewrite Ek in En.
    destruct (put_sound (store t) (now env) _ k St Hn En) as (id & b & st & Ep & Ss & Sc & Rw & G).
    apply wp_bind. eapply wp_on_store; [exact Ep|]. apply wp_ret. by apply (HQ st id (normalize_item_numbers key)).
Qed.

Lemma found_iff t key k : sound (store t) -> item_ok (store t) key -> encode_key (store t) key = Some k ->
  bool_decide (is_Some (find_item_index (store t) key)) = bool_decide (is_Some (row_of (store t) k)).
Proof.
  intros St Hi Ek. pose proof (find_index_sound _ _ _ St Hi Ek) as Hf. destruct (find_item_index (store t) key).
  - by destruct Hf as (x & _ & _ & -> & _).
  - by rewrite Hf.
Qed.

(** What a mutation must leave alone. *)
Definition keeps_key (t : Table) (f : Item -> Item * Result AwsServiceError (list (nat * DocPath))) : Prop :=
  forall x row w, f x = (row, Ok w) -> forall n, key_attribute (store t) n -> row !! n = x !! n.

Lemma update_locked_refines t seq body name key parsed : sound (store t) -> item_ok (store t) key ->
  (forall w, update_checks t body key = Ok w -> keeps_key t (row_update t body w.2)) ->
  wp (update_locked env body name key parsed) (t, seq)
    (written t (update_spec t body key (row_of (store t))) (update_returns t body key parsed)).
Proof.
  intros St Hi Hkeep. unfold update_locked, update_spec, update_returns. cbv zeta.
  pose proof (same_settings_refl t) as Hself. destruct (indexed_ok t St) as (St0 & Se0 & S0 & R0).
  unfold update_checks in Hkeep |- *.
  step. step. destruct (validate_key_attributes_in_key t key) as [[]|e] eqn:E1; [|by apply written_error].
  pose proof (lookup_key t key E1) as Ek. set (k := key_of (store t) key) in *.
  step. fold (indexed t). step. cbn [mbind result_bind] in *.
  destruct (resolve_write_condition body _) as [w|e]; [|by apply written_error].
  step. cbn [mbind result_bind] in *. destruct (reject_key_update _ _ _ _) as [[]|e]; [|by apply written_error].
  step. cbn [mbind result_bind] in *. destruct (validate_update_values body w.2.2) as [[]|e]; [|by apply written_error].
  specialize (Hkeep _ eq_refl). cbn [mbind result_bind fst snd] in *.
  set (ph := (w.2.1, normalize_value_numbers <$> w.2.2) : Placeholders) in *.
  destruct (indexed_key t _ _ Hi Ek) as [Hi0 Ek0]. step.
  apply wp_bind. eapply wp_lookup; [done|exact Hi0|exact Ek0|]. rewrite R0. unfold check_condition. step.
  fold (condition_of body w.1 ph (row_of (store t) k)). unfold conditional_write. cbn [fst snd].
  destruct (condition_of body w.1 ph (row_of (store t) k)) as [[]|e]; [|by apply written_error].
  apply wp_bind. apply wp_upsert with (k := k); [done..|]. rewrite (found_iff _ _ _ St0 Hi0 Ek0). rewrite R0.
  intros st id x Hx Ss Sc Eg Ex Hix Rw. apply wp_bind. eapply wp_row; [exact Eg|]. step.
  set (t1 := with_store (indexed t) st). fold (row_update t1 body ph).
  assert (Hupd : row_update t1 body ph x = updated t body key ph (row_of (store t) k)).
  { unfold updated. rewrite <- Hx. apply row_update_settings; [by destruct t|]. cbn. congruence. }
  pose proof (encode_key_schema st (store (indexed t)) x Sc) as Exs. rewrite Ex in Exs. rewrite S0 in Sc.
  apply wp_bind. eapply (wp_apply t1 seq id x k); [done|exact Eg|exact Exs|exact (item_ok_schema _ _ _ (eq_trans S0 (eq_sym Sc)) Hix)|..].
  { intros row w0. rewrite Hupd. unfold updated. rewrite <- Hx. intros Ef n Hn. eapply Hkeep; [exact Ef|].
    revert Hn. unfold key_attribute, hash_key_name, range_key_name, schema_name. cbn. by rewrite Sc. }
  rewrite Hupd. destruct (updated t body key ph (row_of (store t) k)) as [row [w0|e]] eqn:Eu.
  - intros st' Ss' Sc' Rw' G'. apply wp_bind. eapply wp_row; [exact G'|]. apply wp_bind, wp_append. intros l seq1. step.
    apply wp_bind, wp_deliver. intros effs seq2. apply wp_ret. split; [exact Ss'|]. split; [by destruct t|].
    split; [cbn; cbn in Sc'; congruence|]. split; [|cbn [returned default snd mbind result_bind]; by rewrite Eu].
    intros k'. cbn [fst snd mbind result_bind store with_records with_store]. rewrite Rw'. unfold set_row.
    destruct (decide (k' = k)) as [->|Hne]; [done|]. cbn [store with_store t1]. rewrite Rw, decide_False by done. apply R0.
  - intros st' Ss' Sc' Rw'. apply written_error; [done|by destruct t|cbn; cbn in Sc'; congruence| |done].
    intros k'. cbn [store with_store]. rewrite Rw'. cbn [store with_store t1]. rewrite Rw, R0.
    destruct (decide (k' = k)) as [->|Hne].
    + rewrite Hx, (bool_decide_true (k = k)) by done. by destruct (row_of (store t) k).
    + by rewrite (bool_decide_false (k' = k)), andb_false_r by done.
Qed.

(** *** The mutations of UpdateItem keep the key *)

(** A request over plain key names. *)
Record plain_request (t : DynamoTable) (body : Value) : Prop := {
  plain_keys : forall n, key_attribute t n -> plain n;
  plain_expression : forall e, as_str (index body "UpdateExpression") = Some e -> unquoted e;
  plain_names : marked (parse_expression_attribute_names body)
}.

Lemma marked_insert names w v : marked names -> word w -> marked (<[String "#" w := v]> names).
Proof.
  intros Hm Hw k [x [[<- _]|[_ Hk]]%lookup_insert_Some]; [by exists w|]. apply Hm. eauto.
Qed.

Lemma expected_marked idx entries ph ph' r : fragments expected_entry idx entries ph = (ph', r) ->
  marked ph.1 -> marked ph'.1.
Proof.
  revert idx ph ph' r. induction entries as [|[attr spec] more IH]; intros idx ph ph' r; cbn [fragments]; [by intros [= <- <-]|].
  assert (Hi : forall names, marked names -> marked (<["#exp" +:+ nat_text idx := attr]> names)).
  { intros names Hm. change ("#exp" +:+ nat_text idx) with (String "#" ("exp" +:+ nat_text idx)).
    apply marked_insert; [done|]. apply word_app; [done|apply nat_text_word]. }
  assert (He : forall ph1 r1, expected_entry idx (attr, spec) ph = (ph1, r1) -> marked ph.1 -> marked ph1.1).
  { intros ph1 r1. unfold expected_entry. repeat case_match; intros [<- _]%pair_eq Hm; by apply Hi. }
  destruct (expected_entry idx (attr, spec) ph) as [ph1 [frag|err]]; [|intros [<- _]%pair_eq; by eapply He].
  destruct (fragments expected_entry (S idx) more ph1) as [ph2 r2] eqn:E2. intros [<- _]%pair_eq Hm.
  eapply IH; [exact E2|]. by eapply He.
Qed.

Lemma resolved_marked body ph c ph' : resolve_write_condition body ph = Ok (c, ph') -> marked ph.1 -> marked ph'.1.
Proof.
  unfold resolve_write_condition. repeat case_match; try done; try (by intros [= _ <-]).
  all: unfold translate_legacy_expected in *; destruct (fragments expected_entry 0 _ ph) as [ph1 r1] eqn:E.
  all: simplify_eq/=; destruct r1 as [frags|]; [|done]; intros [= _ <-]; by eapply expected_marked.
Qed.

Lemma attribute_updates_frame item updates row r n : apply_attribute_updates item updates = (row, r) ->
  n ∉ updates.*1 -> row !! n = item !! n.
Proof.
  revert item. induction updates as [|[attr spec] more IH]; intros item; cbn [apply_attribute_updates]; [by intros [= <- _]|].
  rewrite fmap_cons, not_elem_of_cons. cbn [fst]. intros E [Hne Hn]. cbv zeta in E.
  destruct (String.eqb (default "PUT" (get_str "Action" spec)) "PUT").
  { rewrite (IH _ E Hn). destruct (get "Value" spec); [by rewrite lookup_insert_ne|done]. }
  destruct (String.eqb _ "DELETE").
  { rewrite (IH _ E Hn). destruct (get "Value" spec) as [v|]; [|by rewrite lookup_delete_ne].
    unfold remove_set_elements. repeat case_match; try done; by rewrite lookup_insert_ne. }
  destruct (String.eqb _ "ADD"); [|by injection E as <- _].
  destruct (get "Value" spec) as [v|]; [|by apply IH]. destruct (add_to_attribute item attr v) as [item'|] eqn:Ea; [|by injection E as <- _].
  rewrite (IH _ E Hn). unfold add_to_attribute in Ea. repeat case_match; simplify_eq; by rewrite lookup_insert_ne.
Qed.

Lemma rejected_none t updates n : reject_key_attribute_updates t updates = Ok tt -> key_attribute t n -> n ∉ updates.*1.
Proof.
  unfold reject_key_attribute_updates. destruct (List.find _ _) eqn:E; [done|]. intros _ Hn Hin.
  assert (Hm : List.In n (table_key_names t)).
  { unfold table_key_names. destruct Hn as [-> | ->]; simpl; auto. }
  pose proof (List.find_none _ _ E n Hm) as Hf. cbn beta in Hf. unfold str_in in Hf.
  apply list_elem_of_In in Hin. rewrite <- not_true_iff_false in Hf. apply Hf, existsb_exists. exists n.
  split; [done|]. apply String.eqb_refl.
Qed.

Lemma normalize_updates_keys l : (normalize_updates l).*1 = l.*1.
Proof. unfold normalize_updates. rewrite <- list_fmap_compose. by apply list_fmap_ext. Qed.

Lemma update_mutation_keeps t body key w : plain_request (store t) body -> update_checks t body key = Ok w ->
  keeps_key t (row_update t body w.2).
Proof.
  intros [Pk Pe Pn] Hc. unfold update_checks in Hc. apply bind_Ok in Hc as (_ & _ & Hc).
  apply bind_Ok in Hc as ([c ph] & Er & Hc). apply bind_Ok in Hc as ([] & Hg & Hc). apply bind_Ok in Hc as (_ & _ & Hc).
  injection Hc as <-. cbn [fst snd] in *. apply resolved_marked in Er; [|exact Pn].
  intros x row wr Hu n Hn. unfold row_update, update_row in Hu. cbn [fst snd] in Hu. unfold reject_key_update in Hg.
  destruct (as_str (index body "UpdateExpression")) as [e|].
  - destruct (apply_update_expression_tracked ph.1 _ x e) as [row' r'] eqn:E. injection Hu as <- _.
    eapply (expression_keeps_key (store t)); [by apply Pk|done|by apply Pe|exact Er| |exact E].
    unfold reject_key_attribute_update_expression in Hg. by destruct key_attribute_in_update_expression.
  - destruct (as_object (index body "AttributeUpdates")) as [u|]; cbn [fmap option_fmap option_map] in Hu.
    + destruct (apply_attribute_updates x (normalize_updates u)) as [row' r'] eqn:E. injection Hu as <- _.
      eapply attribute_updates_frame; [exact E|]. rewrite normalize_updates_keys. by eapply rejected_none.
    + by injection Hu as <- _.
Qed.


(** ** Requests on a region *)

Inductive Write := WPut | WDelete | WUpdate.

Definition write (w : Write) (body : Value) (r : Region) : option (Region * Result AwsServiceError Reply) :=
  match w with
  | WPut => put_item env body r
  | WDelete => delete_item env body r
  | WUpdate => update_item env body r
  end.

(** What a write asks of its table: its key, the conditional write on the rows,
    and what the old row makes the reply return. *)
Record Asked := mkAsked {
  asked_name : string;
  asked_key : Item;
  asked_write : Table -> Rows -> Rows * Result AwsServiceError (option Item);
  asked_return : Table -> option Item -> option Item
}.

Definition asked (w : Write) (body : Value) : Result AwsServiceError Asked :=
  match w with
  | WPut => '(name, item, (condition, ph)) ← parse_put body;
      Ok (mkAsked (resolve_table_name name) item (fun t => put_spec t body item condition ph) (fun _ => returns_old body))
  | WDelete => '(name, key) ← parse_delete body;
      Ok (mkAsked (resolve_table_name name) key (fun t => delete_spec t body key) (fun _ => returns_old body))
  | WUpdate => '(name, key, parsed) ← parse_update body;
      Ok (mkAsked (resolve_table_name name) key (fun t => update_spec t body key)
            (fun t => update_returns t body key parsed))
  end.

(** Key attributes of one tag and a text, as a table of declared key types
    requires; a number that is looked up, rather than written, is in range. *)
Definition typed (w : Write) (body : Value) (t : DynamoTable) (key : Item) : Prop :=
  match w with
  | WPut => forall a v, key_attribute t a -> key !! a = Some v -> key_value v
  | WDelete => item_ok t key
  | WUpdate => item_ok t key /\ plain_request t body
  end.

Definition typed_write (w : Write) (body : Value) (r : Region) : Prop :=
  forall a t, asked w body = Ok a -> tables r !! asked_name a = Some t -> typed w body (store t) (asked_key a).

Lemma asked_put body name item condition ph : parse_put body = Ok (name, item, (condition, ph)) ->
  asked WPut body = Ok (mkAsked (resolve_table_name name) item (fun t => put_spec t body item condition ph)
                          (fun _ => returns_old body)).
Proof. intros E. cbn [asked]. by rewrite E. Qed.

Lemma typed_update body r name key parsed : parse_update body = Ok (name, key, parsed) ->
  (forall t, tables r !! resolve_table_name name = Some t -> typed WUpdate body (store t) key) -> typed_write WUpdate body r.
Proof. intros E Ht a t Ea. cbn [asked] in Ea. rewrite E in Ea. injection Ea as <-. apply Ht. Qed.

Definition sound_region (r : Region) : Prop := map_Forall (fun _ t => sound (store t)) (tables r).

(** The region after a write, and its reply, as the map of rows says. *)
Definition region_written (a : Asked) (r r' : Region) (res : Result AwsServiceError Reply) : Prop :=
  (forall n, n <> asked_name a -> tables r' !! n = tables r !! n)
  /\ match tables r !! asked_name a with
     | None => r' = r /\ res = Err data_table_not_found
     | Some t => exists t', tables r' !! asked_name a = Some t'
         /\ written t (asked_write a t (row_of (store t))) (asked_return a t) res (t', sequence r')
     end.

Lemma on_table_written name op a r : asked_name a = resolve_table_name name -> sound_region r ->
  (forall t, tables r !! asked_name a = Some t ->
     wp op (t, sequence r) (written t (asked_write a t (row_of (store t))) (asked_return a t))) ->
  exists r' res, on_table name op r = Some (r', res) /\ sound_region r' /\ region_written a r r' res.
Proof.
  intros En Sr Hop. unfold on_table, region_written. rewrite <- En. destruct (tables r !! asked_name a) as [t|] eqn:Et.
  - specialize (Hop t eq_refl). unfold wp in Hop. destruct (op (t, sequence r)) as [[[t' seq] res]|]; [|done].
    eexists _, res. split; [reflexivity|]. simpl. split.
    + apply map_Forall_insert_2; [|done]. apply Hop.
    + split; [intros n Hn; by rewrite lookup_insert_ne|]. exists t'. by rewrite lookup_insert_eq.
  - eexists _, _. split; [reflexivity|]. done.
Qed.

Lemma write_refines w body r : sound_region r -> typed_write w body r ->
  exists r' res, write w body r = Some (r', res) /\ sound_region r'
    /\ match asked w body with
       | Err e => r' = r /\ res = Err e
       | Ok a => region_written a r r' res
       end.
Proof.
  intros Sr Hty. assert (Hs : forall n t, tables r !! n = Some t -> sound (store t)) by apply Sr.
  unfold typed_write in Hty. destruct w; cbn [asked write] in *.
  - unfold put_item. destruct (parse_put body) as [[[name item] [c ph]]|e]; [|by eexists _, _].
    cbn [mbind result_bind] in *. apply on_table_written; [done..|]. intros t Et.
    apply put_locked_refines; [by eapply Hs|]. exact (Hty _ t eq_refl Et).
  - unfold delete_item. destruct (parse_delete body) as [[name key]|e]; [|by eexists _, _].
    cbn [mbind result_bind] in *. apply on_table_written; [done..|]. intros t Et.
    apply delete_locked_refines; [by eapply Hs|]. exact (Hty _ t eq_refl Et).
  - unfold update_item. destruct (parse_update body) as [[[name key] parsed]|e]; [|by eexists _, _].
    cbn [mbind result_bind] in *. apply on_table_written; [done..|]. intros t Et.
    destruct (Hty _ t eq_refl Et) as [Hi Hp]. apply update_locked_refines; [by eapply Hs|done|].
    intros w. by apply update_mutation_keeps.
Qed.

(** C8 (refinement): PutItem, DeleteItem and UpdateItem implement conditional writes on
    a map from primary keys to items.  On a region whose tables are sound a
    request always returns; a refused request leaves the region as it was; one
    whose table exists has the result and the rows that the conditional write
    gives, in the table it names, and touches no other table and none of the
    table's settings.  The tables stay sound.
    Scope ([typed_write]): key attributes are one tag with a text, a key number
    that is looked up is in range, and an UpdateItem has an expression without
    double quotes, over placeholders that are a mark and a word, on a table whose
    key names are plain words ([plain]: no dot, bracket, comma, operator, blank or
    quote, no leading mark).  A key name with a dot is outside it, and there an
    ADD can rewrite the key ([dotted_key_is_written]). *)
Theorem item_writes_refine_map w body r : sound_region r -> typed_write w body r ->
  exists r' res, write w body r = Some (r', res) /\ sound_region r'
    /\ match asked w body with
       | Err e => r' = r /\ res = Err e
       | Ok a => region_written a r r' res
       end.
Proof. apply write_refines. Qed.

(** The rows of a region's tables. *)
Definition region_rows (r : Region) (n : string) : option Rows := (fun t => row_of (store t)) <$> tables r !! n.
Definition same_rows (r r' : Region) : Prop :=
  forall n, option_Forall2 (fun m m' : Rows => forall k, m' k = m k) (region_rows r n) (region_rows r' n).

Lemma same_rows_refl r : same_rows r r.
Proof. intros n. by destruct (region_rows r n); constructor. Qed.

Lemma same_rows_table r r' n0 t t' : (forall n, n <> n0 -> tables r' !! n = tables r !! n) ->
  tables r !! n0 = Some t -> tables r' !! n0 = Some t' -> (forall k, row_of (store t') k = row_of (store t) k) ->
  same_rows r r'.
Proof.
  intros Ho E E' Hk n. unfold region_rows. destruct (decide (n = n0)) as [->|Hne].
  - rewrite E, E'. by constructor.
  - rewrite Ho by done. destruct (tables r !! n); by constructor.
Qed.

Lemma conditional_write_error {P} prep (cond : P -> _) new k m e : (conditional_write prep cond new k m).2 = Err e ->
  (conditional_write prep cond new k m).1 = m.
Proof. unfold conditional_write. by repeat case_match. Qed.

Lemma asked_write_error w body a t m e : asked w body = Ok a -> (asked_write a t m).2 = Err e -> (asked_write a t m).1 = m.
Proof.
  intros Ha. destruct w; cbn [asked] in Ha; apply bind_Ok in Ha as (x & _ & Ha); repeat case_match; simplify_eq/=;
    apply conditional_write_error.
Qed.

(** C15 (error): a write that fails leaves every row of every table as it was,
    whichever check failed: also an update that fails after its upsert made a row
    and after its expression was partly applied; for requests in the scope of
    [typed_write]. *)
Theorem failed_write_keeps_rows w body r r' e : sound_region r -> typed_write w body r ->
  write w body r = Some (r', Err e) -> same_rows r r'.
Proof.
  intros Sr Hty Ew. destruct (write_refines w body r Sr Hty) as (r1 & res & Ew' & _ & Hw). rewrite Ew in Ew'.
  injection Ew' as <- <-. destruct (asked w body) as [a|] eqn:Ea; [|destruct Hw as [-> _]; apply same_rows_refl].
  destruct Hw as [Ho Ht]. destruct (tables r !! asked_name a) as [t|] eqn:Et; [|destruct Ht as [-> _]; apply same_rows_refl].
  destruct Ht as (t' & Et' & _ & _ & _ & Hr & Hres). eapply same_rows_table; [done..|]. cbn [fst] in Hr.
  intros k. rewrite Hr. destruct (asked_write a t (row_of (store t))).2 as [|e'] eqn:E; [done|].
  by rewrite (asked_write_error _ _ _ _ _ _ Ea E).
Qed.

(** ** Reads *)

Definition typed_get (body : Value) (r : Region) : Prop :=
  forall name key t, parse_get body = Ok (name, key) -> tables r !! resolve_table_name name = Some t -> item_ok (store t) key.

Lemma get_locked_reads body name key t : sound (store t) -> item_ok (store t) key ->
  match get_locked env body name key t with
  | None => False
  | Some (Err e) => validate_key_attributes_in_key t key = Err e
  | Some (Ok (reply, _)) => validate_key_attributes_in_key t key = Ok tt
      /\ returned reply = (fun item => project_item item body) <$> row_of (store t) (key_of (store t) key)
  end.
Proof.
  intros St Hi. unfold get_locked. destruct (validate_key_attributes_in_key t key) as [[]|e] eqn:Ev; [|done].
  pose proof (find_index_sound _ _ _ St Hi (lookup_key t key Ev)) as Hf. cbv zeta.
  destruct (find_item_index (store t) key) as [id|].
  - destruct Hf as (x & _ & -> & -> & _). done.
  - by rewrite Hf.
Qed.

Lemma count_access_rows name key r : sound_region r -> sound_region (count_access name key r) /\ same_rows r (count_access name key r).
Proof.
  intros Sr. unfold count_access. destruct (tables r !! resolve_table_name name) as [t|] eqn:Et; [|by split; [|apply same_rows_refl]].
  destruct (access_sound (store t) key (Sr _ _ Et)) as [Ss Rw]. split.
  - by apply map_Forall_insert_2.
  - eapply (same_rows_table _ _ (resolve_table_name name) t); cbn [tables].
    + intros n Hn. by rewrite lookup_insert_ne.
    + done.
    + by rewrite lookup_insert_eq.
    + exact Rw.
Qed.

(** The rows are read, projected as the request asks, and left alone. *)
Lemma get_reads body r : sound_region r -> typed_get body r ->
  exists r' res, get_item env body r = Some (r', res) /\ sound_region r' /\ same_rows r r'
    /\ match parse_get body with
       | Err e => res = Err e
       | Ok (name, key) =>
           match tables r !! resolve_table_name name with
           | None => res = Err data_table_not_found
           | Some t => match validate_key_attributes_in_key t key with
                       | Err e => res = Err e
                       | Ok _ => exists reply, res = Ok reply
                           /\ returned reply = (fun item => project_item item body) <$> row_of (store t) (key_of (store t) key)
                       end
           end
       end.
Proof.
  intros Sr Hty. unfold get_item, get_item_read. pose proof (same_rows_refl r) as Hrr.
  destruct (parse_get body) as [[name key]|e] eqn:Ep; [|by eexists _, _].
  destruct (tables r !! resolve_table_name name) as [t|] eqn:Et; [|by eexists _, _].
  pose proof (get_locked_reads body name key t (Sr _ _ Et) (Hty _ _ _ Ep Et)) as Hg.
  destruct (get_locked env body name key t) as [[[reply counted]|e]|]; [|rewrite Hg; by eexists _, _|done].
  destruct Hg as [-> Hr]. destruct (count_access_rows name key r Sr) as [Sc Rc].
  destruct counted; (eexists _, _; split; [reflexivity|]; split; [done|]; split; [done|]; by exists reply).
Qed.

(** C9 (roundtrip): after a PutItem that succeeded, a GetItem under the same primary
    key, however its numbers are spelled, finds the item: it returns the item
    with its numbers in canonical form, projected as the request asks. *)
Theorem put_then_get body body' r r1 reply name item w name' key t :
  sound_region r -> typed_write WPut body r -> put_item env body r = Some (r1, Ok reply) ->
  parse_put body = Ok (name, item, w) -> parse_get body' = Ok (name', key) ->
  resolve_table_name name' = resolve_table_name name -> tables r !! resolve_table_name name = Some t ->
  item_ok (store t) key -> validate_key_attributes_in_key t key = Ok tt ->
  encode_key (store t) key = encode_key (store t) item ->
  exists r2 reply', get_item env body' r1 = Some (r2, Ok reply')
    /\ returned reply' = Some (project_item (normalize_item_numbers item) body').
Proof.
  intros Sr Hty Ew Ep Eg En Et Hi Hv Ek.
  destruct (write_refines WPut body r Sr Hty) as (r' & res & Ew' & Sr' & Hw).
  cbn [write asked] in *. rewrite Ew in Ew'. injection Ew' as <- <-. rewrite Ep in Hw. destruct w as [c ph].
  cbn [mbind result_bind] in Hw. destruct Hw as [_ Hw]. cbn [asked_name asked_write asked_return] in Hw.
  rewrite Et in Hw. destruct Hw as (t1 & Et1 & Ss & Hse & Sc & Hr & Hres). cbn [fst snd] in *.
  assert (Hrow : row_of (store t1) (key_of (store t1) key) = Some (normalize_item_numbers item)).
  { rewrite Hr. unfold key_of at 1. rewrite (encode_key_schema _ (store t)), Ek by done.
    fold (key_of (store t) item). revert Hres. unfold put_spec, conditional_write.
    repeat case_match; try done. intros _. simpl. unfold set_row. by rewrite decide_True. }
  assert (Hv1 : validate_key_attributes_in_key t1 key = Ok tt).
  { rewrite <- Hv. clear -Hse Sc. rewrite Hse. unfold validate_key_attributes_in_key, key_matches_schema, check_key_types,
      table_key_names, check_key_type, declared_type, hash_key_name, range_key_name, schema_name. destruct t. simpl in *. by rewrite Sc. }
  destruct (get_reads body' r1 Sr') as (r2 & res & Eget & _ & _ & Hg).
  { intros n k t2 E E2. rewrite Eg in E. injection E as <- <-. rewrite En, Et1 in E2. injection E2 as <-.
    by eapply item_ok_schema. }
  rewrite Eg, En, Et1, Hv1 in Hg. destruct Hg as (reply' & -> & Hret). exists r2, reply'. split; [done|].
  by rewrite Hret, Hrow.
Qed.

(** ** Sequences of requests *)

Definition serve (q : option Write * Value) (r : Region) : option (Region * Result AwsServiceError Reply) :=
  match q.1 with Some w => write w q.2 r | None => get_item env q.2 r end.

Fixpoint serve_all (qs : list (option Write * Value)) (r : Region) : option (Region * list (Result AwsServiceError Reply)) :=
  match qs with
  | [] => Some (r, [])
  | q :: more => '(r1, res) ← serve q r; '(r2, rest) ← serve_all more r1; Some (r2, res :: rest)
  end.

Definition typed_request (r : Region) (q : option Write * Value) : Prop :=
  match q.1 with Some w => typed_write w q.2 r | None => typed_get q.2 r end.

Definition same_schemas (r r' : Region) : Prop :=
  forall n t', tables r' !! n = Some t' -> exists t, tables r !! n = Some t /\ key_schema (store t') = key_schema (store t).

Lemma key_attribute_schema t t' n : key_schema t' = key_schema t -> key_attribute t' n -> key_attribute t n.
Proof. unfold key_attribute, hash_key_name, range_key_name, schema_name. by intros ->. Qed.

Lemma typed_schema w body t t' key : key_schema t' = key_schema t -> typed w body t key -> typed w body t' key.
Proof.
  intros E. destruct w; cbn [typed].
  - intros Hk a v Ha. apply Hk. by eapply key_attribute_schema.
  - by apply item_ok_schema.
  - intros [Hi [Pk Pe Pn]]. split; [by eapply item_ok_schema|]. split; [|done..].
    intros n Hn. by eapply Pk, key_attribute_schema.
Qed.

Lemma typed_request_schemas r r' q : same_schemas r r' -> typed_request r q -> typed_request r' q.
Proof.
  intros Hs. unfold typed_request. destruct q as [[w|] body]; cbn [fst snd].
  - intros Hty a t' Ea Et. destruct (Hs _ _ Et) as (t & Et0 & E). eapply typed_schema; [exact E|]. by eapply Hty.
  - intros Hty name key t' Ep Et. destruct (Hs _ _ Et) as (t & Et0 & E). eapply item_ok_schema; [|by eapply Hty]. done.
Qed.

Lemma write_schemas a r r' res : region_written a r r' res -> same_schemas r r'.
Proof.
  intros [Ho Hw] n t' E'. destruct (decide (n = asked_name a)) as [->|Hne]; [|rewrite Ho in E' by done; eauto].
  destruct (tables r !! asked_name a) as [t|] eqn:Et; [|destruct Hw as [-> _]; congruence].
  destruct Hw as (t1 & E1 & _ & _ & Es & _). rewrite E1 in E'. injection E' as <-. eauto.
Qed.

Lemma get_schemas body r r' res : get_item env body r = Some (r', res) -> same_schemas r r'.
Proof.
  unfold get_item. destruct (get_item_read env body r) as [[[reply [[name key]|]]|e]|]; [|by intros [= <- _] n t; eauto..|done].
  intros [= <- _] n t'. unfold count_access. destruct (tables r !! resolve_table_name name) as [t|] eqn:Et; [|eauto].
  cbn [tables]. intros [[<- <-]|[_ E]]%lookup_insert_Some; [|eauto]. exists t. split; [done|]. apply core_schema, core_access.
Qed.

Lemma serve_ok q r : sound_region r -> typed_request r q ->
  exists r' res, serve q r = Some (r', res) /\ sound_region r' /\ same_schemas r r'.
Proof.
  intros Sr Hty. destruct q as [[w|] body]; unfold serve; cbn [fst snd] in *.
  - destruct (write_refines w body r Sr Hty) as (r' & res & E & Sr' & Hw). exists r', res. split; [done|]. split; [done|].
    destruct (asked w body); [by eapply write_schemas|]. destruct Hw as [-> _]. intros n t; eauto.
  - destruct (get_reads body r Sr Hty) as (r' & res & E & Sr' & _). exists r', res. split; [done|]. split; [done|].
    by eapply get_schemas.
Qed.

(** C14 (invariant): every sequence of typed PutItem, DeleteItem, UpdateItem and GetItem
    requests is answered, one reply each: the index never points at a row that
    is not there, which the code would panic on, and every table is sound
    (rows, index, counters and sizes in agreement, no two rows of one key) after
    it.  Typed ([typed_request]) is the scope of [typed_write] for writes, and for
    reads key attributes of one tag with a text and a number in range: with a key
    name outside it, an update can change a key and give two rows one key. *)
Theorem requests_keep_tables_sound qs r : sound_region r -> Forall (typed_request r) qs ->
  exists r' replies, serve_all qs r = Some (r', replies) /\ length replies = length qs /\ sound_region r'.
Proof.
  revert r. induction qs as [|q qs IH]; intros r Sr Hq; [by exists r, []|].
  apply Forall_cons in Hq as [Hq Hqs]. destruct (serve_ok q r Sr Hq) as (r1 & res & E & S1 & Hs).
  destruct (IH r1 S1) as (r2 & rest & E2 & Hl & S2).
  { eapply Forall_impl; [exact Hqs|]. intros x. by apply typed_request_schemas. }
  exists r2, (res :: rest). cbn [serve_all]. rewrite E. cbn [mbind option_bind]. rewrite E2. split; [done|]. simpl. by rewrite Hl.
Qed.

End Writes.

(** ** Requests on a concrete table *)

Module ItemExamples.

#[local] Existing Instance TableWitness.json_printer.
#[local] Existing Instance TableWitness.json_printer_laws.
#[local] Existing Instance TableWitness.base64_none.
#[local] Instance no_item_text : ItemText := fun _ => "".

Definition env0 : Env := mkEnv 100 "u1" "u2" "123456789012" "us-east-1" true true.

Definition num (n : string) : Value := VObject [("N", VString n)].
Definition str (s : string) : Value := VObject [("S", VString s)].

(** An empty table keyed by a number, with a change stream. *)
Definition orders : Table :=
  mkTable "orders" "arn:aws:dynamodb:us-east-1:123456789012:table/orders"
    (new_table [mkKeySchemaElement "id" "HASH"]) [mkAttributeDefinition "id" "N"] [] [] [] true
    (Some "NEW_AND_OLD_IMAGES") (Some "arn:stream") [] None None.

Definition region0 : Region := mkRegion {[ "orders" := orders ]} 0.

Lemma region0_sound : sound_region region0.
Proof.
  intros n t. cbn [tables region0]. intros [_ <-]%lookup_singleton_Some. split; [apply new_table_ok|].
  intros i j x y k Hx. by apply elem_of_nil in Hx.
Qed.

Definition put_body : Value := VObject [("Item", VObject [("id", num "1.0"); ("qty", num "007")]); ("TableName", VString "orders")].
Definition get_body : Value := VObject [("Key", VObject [("id", num "1e0")]); ("TableName", VString "orders")].

Definition stored : Item := <["id" := num "1"]> {[ "qty" := num "7" ]}.

Lemma region_table r n t : r = region0 -> tables r !! n = Some t -> t = orders.
Proof. intros ->. cbn [tables region0]. by intros [_ <-]%lookup_singleton_Some. Qed.

Lemma number_key_ok t s : (forall p, parse_number s = Some p -> (Z.abs (point p - 1) <= i64_max)%Z) -> item_ok t {[ "id" := num s ]}.
Proof. intros Hp a v _ [_ <-]%lookup_singleton_Some. by exists "N", s. Qed.

Definition raw_item : Item := <["id" := num "1.0"]> {[ "qty" := num "007" ]}.

Lemma put_parsed : parse_put put_body = Ok ("orders", raw_item, (None, (∅, ∅))).
Proof. vm_compute. reflexivity. Qed.

Lemma put_typed : typed_write WPut put_body region0.
Proof.
  intros a t Ea Et. cbn [asked] in Ea. rewrite put_parsed in Ea. injection Ea as <-. apply (region_table _ _ _ eq_refl) in Et as ->.
  intros n v [-> |[=]]. vm_compute. intros [= <-]. by exists "N", "1.0".
Qed.

Lemma put_then_get_witness : exists r1 r2 reply reply', put_item env0 put_body region0 = Some (r1, Ok reply)
  /\ get_item env0 get_body r1 = Some (r2, Ok reply') /\ returned reply' = Some stored.
Proof.
  destruct (put_item env0 put_body region0) as [[r1 [reply|e]]|] eqn:E; [|by vm_compute in E..].
  destruct (put_then_get env0 put_body get_body region0 r1 reply "orders" raw_item
    (None, (∅, ∅)) "orders" {[ "id" := num "1e0" ]} orders) as (r2 & reply' & E2 & Hr);
    [apply region0_sound|apply put_typed|done|apply put_parsed|vm_compute; reflexivity|reflexivity|reflexivity
      |apply number_key_ok; by intros p [= <-]|vm_compute; reflexivity|vm_compute; reflexivity|].
  exists r1, r2, reply, reply'. split; [done|]. split; [done|]. rewrite Hr. vm_compute. reflexivity.
Defined.


(** An update of a row that is not there, whose expression fails. *)
Definition bad_update : Value :=
  VObject [("ExpressionAttributeValues", VObject [(":a", num "1"); (":b", str "x")]);
           ("Key", VObject [("id", num "5")]); ("TableName", VString "orders");
           ("UpdateExpression", VString "SET n = :a ADD tag :b")].

Lemma bad_update_parsed : exists parsed, parse_update bad_update = Ok ("orders", {[ "id" := num "5" ]}, parsed).
Proof. eexists. vm_compute. reflexivity. Qed.

Lemma bad_update_names : parse_expression_attribute_names bad_update = ∅.
Proof. vm_compute. reflexivity. Qed.

Lemma bad_update_plain : plain_request (store orders) bad_update.
Proof.
  split.
  - intros n [-> |[=]]. by split_and!.
  - change (as_str (index bad_update "UpdateExpression")) with (Some "SET n = :a ADD tag :b"). by intros e [= <-].
  - rewrite bad_update_names. intros k [x Ex]. by rewrite lookup_empty in Ex.
Qed.

Lemma five_ok : item_ok (store orders) {[ "id" := num "5" ]}.
Proof. apply number_key_ok. by intros p [= <-]. Qed.

Lemma bad_update_typed : typed_write WUpdate bad_update region0.
Proof.
  destruct bad_update_parsed as [parsed E]. eapply typed_update; [exact E|]. intros t Et.
  apply (region_table _ _ _ eq_refl) in Et as ->. split; [exact five_ok|exact bad_update_plain].
Qed.

Lemma failed_write_keeps_rows_witness : exists r', write env0 WUpdate bad_update region0
    = Some (r', Err (validation_error "An operand in the update expression has an incorrect data type"))
  /\ same_rows region0 r'.
Proof.
  destruct (write env0 WUpdate bad_update region0) as [[r' [reply|e]]|] eqn:E; [by vm_compute in E| |by vm_compute in E].
  exists r'. split; [|exact (failed_write_keeps_rows env0 WUpdate bad_update region0 r' e region0_sound bad_update_typed E)].
  do 3 f_equal. revert E. vm_compute. by intros [= _ <-].
Defined.

Definition key_1 : RowKey := key_of (store orders) raw_item.

Lemma orders_there : tables region0 !! resolve_table_name "orders" = Some orders.
Proof. vm_compute. reflexivity. Qed.

Lemma item_writes_refine_map_witness : exists r' reply t', write env0 WPut put_body region0 = Some (r', Ok reply)
  /\ tables r' !! "orders" = Some t' /\ row_of (store t') key_1 = Some stored.
Proof.
  destruct (item_writes_refine_map env0 WPut put_body region0 region0_sound put_typed) as (r' & res & E & _ & Hw).
  rewrite (asked_put _ _ _ _ _ put_parsed) in Hw. destruct Hw as [_ Hw]. cbn [asked_name asked_write asked_return] in Hw.
  rewrite orders_there in Hw. destruct Hw as (t' & Et & _ & _ & _ & Hr & _).
  destruct res as [reply|e]; [|by vm_compute in E]. exists r', reply, t'. split; [done|]. split; [exact Et|].
  cbn [fst] in Hr. rewrite Hr. vm_compute. reflexivity.
Defined.

Lemma get_parsed : parse_get get_body = Ok ("orders", {[ "id" := num "1e0" ]}).
Proof. vm_compute. reflexivity. Qed.

Lemma get_typed : typed_get get_body region0.
Proof.
  intros name key t E Et. rewrite get_parsed in E. injection E as <- <-. apply (region_table _ _ _ eq_refl) in Et as ->.
  apply number_key_ok. by intros p [= <-].
Qed.

Lemma requests_keep_tables_sound_witness : exists r' replies,
  serve_all env0 [(Some WPut, put_body); (Some WUpdate, bad_update); (None, get_body)] region0 = Some (r', replies)
  /\ length replies = 3%nat /\ sound_region r'.
Proof.
  apply requests_keep_tables_sound; [exact region0_sound|].
  apply Forall_cons_2; [exact put_typed|]. apply Forall_cons_2; [exact bad_update_typed|].
  apply Forall_cons_2; [exact get_typed|apply Forall_nil_2].
Defined.

(** *** Departures *)

Definition update_body (key : Value) (more : list (string * Value)) : Value :=
  VObject (more ++ [("Key", VObject [("id", key)]); ("TableName", VString "orders")]).

Definition orders_after (res : option (Region * Result AwsServiceError Reply)) : option Table :=
  match res with Some (r, Ok _) => tables r !! "orders" | _ => None end.

(** The change record of an update that inserts has an old image: the row with
    the key alone which the upsert has just made.  PutItem's has none. *)
Example upsert_record_has_old_image :
  ((fun t => (fun s => (event_name s, old_image s)) <$> stream_records t)
     <$> orders_after (update_item env0 (update_body (num "5") [("AttributeUpdates", VObject [("n", VObject [("Value", num "1")])])]) region0))
  = Some [("INSERT", Some {[ "id" := num "5" ]})]
  /\ ((fun t => (fun s => (event_name s, old_image s)) <$> stream_records t) <$> orders_after (put_item env0 put_body region0))
     = Some [("INSERT", None)].
Proof. vm_compute. done. Qed.

(** A key that is no number: UpdateItem stores the row, PutItem refuses it. *)
Example upsert_stores_any_number :
  ((fun t => rows (items (store t))) <$> orders_after (update_item env0 (update_body (num "abc") []) region0))
    = Some [(0%Z, {[ "id" := num "abc" ]})]
  /\ orders_after (put_item env0 (VObject [("Item", VObject [("id", num "abc")]); ("TableName", VString "orders")]) region0) = None.
Proof. vm_compute. done. Qed.

(** ADD of a string makes a string attribute where there is none. *)
Example legacy_add_stores_any_type :
  apply_attribute_updates {[ "id" := num "1" ]} [("s", VObject [("Action", VString "ADD"); ("Value", str "x")])]
  = (<["s" := str "x"]> {[ "id" := num "1" ]}, Ok tt).
Proof. vm_compute. reflexivity. Qed.

(** DELETE of the last element leaves an empty set; the update expression's
    DELETE removes the attribute. *)
Example legacy_delete_leaves_empty_set :
  apply_attribute_updates {[ "tags" := VObject [("SS", VArray [VString "a"])] ]}
    [("tags", VObject [("Action", VString "DELETE"); ("Value", VObject [("SS", VArray [VString "a"])])])]
  = ({[ "tags" := VObject [("SS", VArray [])] ]}, Ok tt)
  /\ (apply_update_expression_tracked ∅ {[ ":a" := VObject [("SS", VArray [VString "a"])] ]}
       {[ "tags" := VObject [("SS", VArray [VString "a"])] ]} "DELETE tags :a").1 = ∅.
Proof. vm_compute. done. Qed.

End ItemExamples.
