(* ===== verification/DdbTransact.v ===== *)
(** * DynamoDB transactions

    TransactWriteItems ([fakecloud-dynamodb/src/service/batch.rs]) with the
    idempotency cache of [service/mod.rs] and the table references of
    [service/cross_account.rs].

    The state is the tables of every account in the request's region, each
    under its owner and name, the process-wide sequence counter and the cache.
    The whole request runs under the write lock.  [TextHash] stands for
    [DefaultHasher], whose algorithm is not specified; the identifier of a
    change record is a function of its sequence number.  References to tables
    of another region are refused before this handler runs, and tables have no
    vector index. *)

From Stdlib Require Import ZArith Lia Bool String Ascii SpecFloat.
From stdpp Require Import base option list strings gmap sorting.
From S2P Require Import Prelude Json BTree Arn Text Sqs DdbNumber DdbValue DdbReserved DdbExpr DdbTable DdbUpdate DdbCondition DdbItems Kinesis.
Import Sqs(AwsServiceError, AwsError, aws_error).

Local Open Scope string_scope.
Local Open Scope op_scope.

(** The hash of a text and of a request body. *)
Class TextHash := {
  text_hash : string -> Z;
  body_hash : string -> Z
}.

(** ** Keys *)

Definition keys_equal (t : DynamoTable) (a b : Item) : bool :=
  let hash_key := hash_key_name t in
  if negb (values_equal (a !! hash_key) (b !! hash_key) && bool_decide (is_Some (a !! hash_key))
           && bool_decide (is_Some (b !! hash_key)))
  then false
  else match range_key_name t with Some rk => values_equal (a !! rk) (b !! rk) | None => true end.

Section KeyErrors.
Context `{Base64Decode}.

Definition empty_table_key_error (t : Table) (attrs : Item) : option AwsServiceError :=
  head (omap (fun name =>
    expected ← declared_type t name;
    val ← attrs !! name;
    if is_empty_scalar val expected then
      Some (validation_error ("One or more parameter values are not valid. The AttributeValue for a key "
        +:+ "attribute cannot contain an empty " +:+ empty_kind expected +:+ " value. Key: " +:+ name))
    else None) (table_key_names (store t))).

Definition item_key_type_mismatch (t : Table) (item : Item) : option string :=
  head (omap (fun name =>
    expected ← declared_type t name;
    val ← item !! name;
    let actual := attribute_type_tag val in
    if String.eqb actual expected then None
    else Some ("One or more parameter values were invalid: Type mismatch for key " +:+ name
      +:+ " expected: " +:+ expected +:+ " actual: " +:+ actual)) (table_key_names (store t))).

Definition check_update_item_size (item : Item) : Result AwsServiceError unit :=
  if (MAX_ITEM_SIZE <? item_size item)%Z then Err update_item_too_large else Ok tt.

End KeyErrors.

Definition is_empty_value (f : IndexKeyFault) : bool := match f with FEmpty _ _ _ => true | _ => false end.
Definition put_error (f : IndexKeyFault) : AwsServiceError := validation_error (put_message f).
Definition update_error (f : IndexKeyFault) : AwsServiceError := validation_error (update_message f).

(** ** References to tables *)

Definition arn_scope (arn : string) : option (string * string) :=
  rest ← Arn.arn_resource arn "dynamodb";
  '(region, rest) ← split_once ":" rest;
  '(account, _) ← split_once ":" rest;
  Some (region, account).

Definition owner_account (caller name_or_arn : string) : string :=
  match arn_scope name_or_arn with
  | Some (_, account) => if is_empty_str account then caller else account
  | None => caller
  end.

(** The account that owns a table, and the table's name. *)
Definition TableId : Type := string * string.

Definition table_id (caller name_or_arn : string) : TableId :=
  (owner_account caller name_or_arn, resolve_table_name name_or_arn).

Definition table_not_found (name : string) : AwsServiceError :=
  aws_error 400 "ResourceNotFoundException"
    ("Requested resource not found: Table: " +:+ resolve_table_name name +:+ " not found").

(** ** The state *)

Record IdempotencyEntry := mkEntry { stored_at : Z; request_hash : Z; response : Value }.

Record Accounts := mkAccounts {
  account_tables : gmap TableId Table;
  counter : Z;
  idempotency : gmap (string * string) IdempotencyEntry
}.

Definition with_tables (s : Accounts) (m : gmap TableId Table) : Accounts := mkAccounts m (counter s) (idempotency s).
Definition with_cache (s : Accounts) (c : gmap (string * string) IdempotencyEntry) : Accounts :=
  mkAccounts (account_tables s) (counter s) c.

Definition TRANSACT_IDEMPOTENCY_WINDOW : Z := 600 * nanos.

(** A computation on the state. *)
Definition Txn (A : Type) : Type := Run Accounts AwsServiceError A.

Fixpoint map_each {S E A B} (f : A -> Run S E B) (l : list A) : Run S E (list B) :=
  match l with
  | [] => op_ret []
  | x :: l' => let* y := f x in let* ys := map_each f l' in op_ret (y :: ys)
  end.

Definition for_each {S E A} (f : A -> Run S E unit) (l : list A) : Run S E unit :=
  let* _ := map_each f l in op_ret tt.

(** ** Requests *)

Definition validate_enum (field value : string) (allowed : list string) : Result AwsServiceError unit :=
  if str_in value allowed then Ok tt
  else Err (validation_error ("Value '" +:+ value +:+ "' at '" +:+ field
              +:+ "' failed to satisfy constraint: Member must satisfy enum value set: [" +:+ join ", " allowed +:+ "]")).

Definition validate_optional_enum_value (field : string) (value : Value) (allowed : list string)
  : Result AwsServiceError unit :=
  match value with
  | Null => Ok tt
  | _ => match as_str value with
         | Some s => validate_enum field s allowed
         | None => Err (aws_error 400 "SerializationException" ("Value for '" +:+ field +:+ "' must be a string"))
         end
  end.

Definition transact_op (ti : Value) : string * Value :=
  default ("ConditionCheck", Null)
    (head (omap (fun k => (fun op => (k, op)) <$> get k ti) ["Put"; "Update"; "Delete"; "ConditionCheck"])).

Definition validation_reason (message : string) : Value :=
  VObject [("Code", VString "ValidationError"); ("Message", VString message)].
Definition no_reason : Value := VObject [("Code", VString "None")].

Definition reason_code (r : Value) : string := default "None" (as_str (index r "Code")).

(** The body of the TransactionCanceledException. *)
Definition transaction_canceled (reasons : list Value) : Value :=
  VObject [("CancellationReasons", VArray reasons); ("__type", VString "TransactionCanceledException");
           ("message", VString ("Transaction cancelled, please refer cancellation reasons for specific reasons ["
                                +:+ join ", " (reason_code <$> reasons) +:+ "]"))].

(** [serde_json::from_value(..).unwrap_or_default()] at the type of an item. *)
Definition item_of (v : Value) : Item := from_option object_map ∅ (as_object v).

Definition table_name_of (op : Value) : string := default "" (as_str (index op "TableName")).

Definition MAX_TRANSACTION_BYTES : Z := 4 * 1024 * 1024.

Definition hex_digit (n : Z) : ascii := default "0"%char (String.get (Z.to_nat n) "0123456789abcdef").

(** [{:08x}] of the low 32 bits. *)
Definition hex8 (n : Z) : string :=
  String.concat "" ((fun i => String (hex_digit (Z.land (Z.shiftr n (4 * i)) 15)) "") <$> [7; 6; 5; 4; 3; 2; 1; 0]%Z).

Definition error_message (e : AwsServiceError) : string :=
  match e with
  | Sqs.ServiceNotFound service => "service not found: " +:+ service
  | Sqs.ActionNotImplemented service action => "action " +:+ action +:+ " not implemented for service " +:+ service
  | AwsError _ _ message _ _ => message
  end.

(** The reply: what was written, the replay of an earlier reply, or the reasons
    of each action. *)
Inductive TxnReply :=
| Committed (result : Value)
| Replayed (result : Value)
| Canceled (reasons : list Value).

(** What one action of the apply pass leaves to be done after it. *)
Record PendingKinesis := mkPending {
  p_target : KinesisDeliveryTarget;
  p_event : string;
  p_keys : Item;
  p_old : option Item;
  p_new : option Item
}.

Record Written := mkWritten {
  w_table : string;
  w_counted : bool;
  w_record : option StreamRecord;
  w_kinesis : option PendingKinesis;
  w_consumed : option (Consumed * f64)
}.

Definition consumed_add (c other : Consumed) : Consumed :=
  let add_all (m n : gmap string f64) :=
    foldl (fun acc e => <[e.1 := f64_add (default (f64_of_Z 0) (acc !! e.1)) e.2]> acc) m (BTree.iter n) in
  mkConsumed (f64_add (c_table c) (c_table other)) (add_all (c_gsi c) (c_gsi other)) (add_all (c_lsi c) (c_lsi other)).

Definition consumed_scaled (c : Consumed) (factor : f64) : Consumed :=
  mkConsumed (f64_mul (c_table c) factor) ((fun u => f64_mul u factor) <$> c_gsi c) ((fun u => f64_mul u factor) <$> c_lsi c).

Definition consumed_table (units : f64) : Consumed := mkConsumed units ∅ ∅.

Section Transact.
Context `{Base64Decode} `{JsonText} `{ItemText} `{TextHash} (env : Env) (uuid : Z -> string).

Definition java_list_dump (class : string) (members : list Value) : string :=
  "[" +:+ join ", " ((fun m => "com.amazonaws.dynamodb.v20120810." +:+ class +:+ "@"
                          +:+ hex8 (text_hash (value_text m))) <$> members) +:+ "]".

(** *** Before the lock *)

Definition validate_transaction (body : Value) : Result AwsServiceError (list Value) :=
  _ ← Kinesis.validate_optional_string_length "clientRequestToken" (as_str (index body "ClientRequestToken")) 1 36;
  _ ← validate_optional_enum_value "returnConsumedCapacity" (index body "ReturnConsumedCapacity") ["INDEXES"; "TOTAL"; "NONE"];
  _ ← validate_optional_enum_value "returnItemCollectionMetrics" (index body "ReturnItemCollectionMetrics") ["SIZE"; "NONE"];
  match as_array (index body "TransactItems") with
  | None => Err (validation_error "TransactItems is required")
  | Some items =>
      if (length items =? 0)%nat then
        Err (validation_error ("1 validation error detected: Value '[]' at 'transactItems' "
               +:+ "failed to satisfy constraint: Member must have length greater than or equal to 1"))
      else if (100 <? length items)%nat then
        Err (validation_error ("1 validation error detected: Value '" +:+ java_list_dump "TransactWriteItem" items
               +:+ "' at 'transactItems' failed to satisfy constraint: Member must have length less than or equal to 100"))
      else
        _ ← each_ok (fun ti =>
              if (length (List.filter (fun k => bool_decide (is_Some (get k ti))) ["Put"; "Update"; "Delete"; "ConditionCheck"])
                  =? 1)%nat then Ok tt
              else Err (validation_error ("1 validation error detected: Member must contain exactly one "
                          +:+ "of Put, Update, Delete, or ConditionCheck"))) items;
        _ ← each_ok (fun ti => each_ok (fun k => match get k ti with
                | Some op => validate_optional_enum_value "returnValuesOnConditionCheckFailure"
                               (index op "ReturnValuesOnConditionCheckFailure") ["ALL_OLD"; "NONE"]
                | None => Ok tt
                end) ["Put"; "Delete"; "Update"; "ConditionCheck"]) items;
        Ok items
  end.

(** *** Idempotency *)

(** The reply to replay, if there is one; entries past the window are dropped. *)
Definition transact_idempotency_lookup (token : string) (hash : Z) : Txn (option Value) := fun s =>
  let cache := filter (fun e => now env - stored_at e.2 < TRANSACT_IDEMPOTENCY_WINDOW)%Z (idempotency s) in
  Some (with_cache s cache,
        match cache !! (account_id env, token) with
        | Some entry =>
            if (request_hash entry =? hash)%Z then Ok (Some (response entry))
            else Err (aws_error 400 "IdempotentParameterMismatchException"
                   ("Request parameters do not match the parameters of a previous "
                    +:+ "request with the same client request token"))
        | None => Ok None
        end).

Definition transact_idempotency_store (token : string) (hash : Z) (r : Value) (s : Accounts) : Accounts :=
  with_cache s (<[(account_id env, token) := mkEntry (now env) hash r]> (idempotency s)).

(** *** Reading the tables *)

Definition data_table (name : string) : Txn Table := fun s =>
  Some (s, match account_tables s !! table_id (account_id env) name with
           | Some t => Ok t
           | None => Err data_table_not_found
           end).

(** [table.find_item_index(&key).map(|i| &table.items\[i\])]. *)
Definition stored_row (st : DynamoTable) (key : Item) : option (option Item) :=
  match find_item_index st key with
  | Some id => Some <$> items_get (items st) id
  | None => Some None
  end.

Definition existing_row (t : Table) (key : Item) : Txn (option Item) := fun s =>
  existing ← stored_row (store t) key; Some (s, Ok existing).

Definition op_names (op : Value) : gmap string string := parse_expression_attribute_names op.
Definition op_values (op : Value) : gmap string Value := parse_expression_attribute_values op.

(** The size of the item an Update leaves behind. *)
Definition update_write_size (op : Value) (key : Item) (existing : option Item) : Z :=
  let before := default key existing in
  match as_str (index op "UpdateExpression") with
  | None => estimate_item_size before
  | Some expr => match apply_update_expression (op_names op) (op_values op) before expr with
                 | (after, Ok _) => estimate_item_size after
                 | (_, Err _) => (estimate_item_size key + estimate_item_size (op_values op))%Z
                 end
  end.

(** The up-front validation of one action, and the bytes it writes. *)
Definition upfront (ti : Value) : Txn Z :=
  let '(kind, op) := transact_op ti in
  let* t := data_table (table_name_of op) in
  if String.eqb kind "Put" then
    let item := item_of (index op "Item") in
    let* _ := check (match missing_item_key_error t item with Some e => Err e | None => Ok tt end) in
    let* _ := check (match empty_table_key_error t item with Some e => Err e | None => Ok tt end) in
    let* _ := check (match index_key_fault (index_key_specs t) item None with
                     | Some f => if is_empty_value f then Err (put_error f) else Ok tt
                     | None => Ok tt
                     end) in
    let* _ := check (validate_item_attribute_values item) in
    let* _ := check (check_put_item_size item) in
    op_ret (estimate_item_size item)
  else
    let key := item_of (index op "Key") in
    let* _ := check (match empty_table_key_error t key with Some e => Err e | None => Ok tt end) in
    if String.eqb kind "Update" then
      let* _ := check (match as_str (index op "UpdateExpression") with
                       | Some expr => reject_key_attribute_update_expression (store t) expr (op_names op)
                       | None => Ok tt
                       end) in
      let* _ := check (each_ok validate_attribute_value (item_values (op_values op))) in
      let* existing := existing_row t key in
      op_ret (update_write_size op key existing)
    else op_ret (if String.eqb kind "Delete" then estimate_item_size key else 0%Z).

(** The primary key an action names. *)
Definition action_key (t : DynamoTable) (ti : Value) : Item :=
  let '(kind, op) := transact_op ti in
  if String.eqb kind "Put" then extract_key t (item_of (index op "Item")) else item_of (index op "Key").

(** No two actions on one item. *)
Fixpoint distinct_keys (seen : list (TableId * Item)) (items : list Value) : Txn unit :=
  match items with
  | [] => op_ret tt
  | ti :: more =>
      let name := table_name_of (transact_op ti).2 in
      let* t := data_table name in
      let key := action_key (store t) ti in
      let id := table_id (account_id env) name in
      if existsb (fun e => bool_decide (e.1 = id) && keys_equal (store t) e.2 key) seen then
        check (Err (validation_error "Transaction request cannot include multiple operations on one item"))
      else distinct_keys (seen ++ [(id, key)]) more
  end.

(** *** Judging the actions *)

(** The update applied to the current item, if it can be applied: the fault of
    an index key it would write. *)
Definition dry_run_fault (t : Table) (op : Value) (key : Item) (existing : option Item) : option IndexKeyFault :=
  expr ← as_str (index op "UpdateExpression");
  let before := default key existing in
  match apply_update_expression (op_names op) (op_values op) before expr with
  | (after, Ok _) => index_key_fault (index_key_specs t) after (Some before)
  | (_, Err _) => None
  end.

Definition condition_failed (kind : string) (op : Value) (existing : option Item) : bool :=
  let condition := if String.eqb kind "ConditionCheck" then Some (default "" (as_str (index op "ConditionExpression")))
                   else as_str (index op "ConditionExpression") in
  match condition with
  | Some cond => match evaluate_condition cond existing (op_names op) (op_values op) with Err _ => true | Ok _ => false end
  | None => false
  end.

Definition condition_reason (kind : string) (op : Value) (existing : option Item) : Value :=
  if condition_failed kind op existing then
    VObject ([("Code", VString "ConditionalCheckFailed")]
      ++ (if bool_decide (as_str (index op "ReturnValuesOnConditionCheckFailure") = Some "ALL_OLD")
          then from_option (fun item => [("Item", VObject (BTree.iter item))]) [] existing else [])
      ++ [("Message", VString "The conditional request failed")])%list
  else no_reason.

(** The reason of one action; an empty index key fails the request. *)
Definition judge (ti : Value) : Txn Value :=
  let '(kind, op) := transact_op ti in
  let* t := data_table (table_name_of op) in
  let judged (key : Item) : Txn Value :=
    let* existing := existing_row t key in
    match (if String.eqb kind "Update" then dry_run_fault t op key existing else None) with
    | Some f => if is_empty_value f then check (Err (update_error f)) else op_ret (validation_reason (update_message f))
    | None => op_ret (condition_reason kind op existing)
    end in
  if String.eqb kind "Put" then
    let item := item_of (index op "Item") in
    match item_key_type_mismatch t item with
    | Some message => op_ret (validation_reason message)
    | None => match index_key_fault (index_key_specs t) item None with
              | Some f => op_ret (validation_reason (put_message f))
              | None => judged (extract_key (store t) item)
              end
    end
  else
    let key := item_of (index op "Key") in
    if key_matches_schema t key then judged key else op_ret (validation_reason KEY_SCHEMA_MISMATCH).

(** *** Applying the actions *)

Definition env_for (seq : Z) : Env :=
  mkEnv (now env) (uuid seq) (uuid seq) (account_id env) (env_region env) (delivery env) (kms_hook env).

Definition generate_record (event : string) (keys : Item) (old new : option Item) : Op (option StreamRecord) :=
  fun s => generate_stream_record (env_for s.2) event keys old new s.

Definition pending_for (t : Table) (event : string) (keys : Item) (old new : option Item) : option PendingKinesis :=
  (fun target => mkPending target event keys old new) <$> kinesis_target_for t.

Definition two : f64 := f64_of_Z 2.

(** What a write consumes, and what re-reading its result would. *)
Definition action_consumed (wants_capacity : bool) (t : Table) (old new shown : option Item) : option (Consumed * f64) :=
  if wants_capacity
  then Some (item_write_consumed t old new, f64_mul two (read_units (from_option item_size 0%Z shown) true)) else None.

Definition apply_put (wants_capacity : bool) (name : string) (put : Value) : Op Written :=
  let item := normalize_item_numbers (item_of (index put "Item")) in
  let* t := read_table in
  let key := extract_key (store t) item in
  let* old_image := row_at (find_item_index (store t) key) in
  let consumed := action_consumed wants_capacity t old_image (Some item) (Some item) in
  let* _ := on_store (fun st => put_item_at_key st (now env) item) in
  let event := if bool_decide (is_Some old_image) then "MODIFY" else "INSERT" in
  let* record := generate_record event key old_image (Some item) in
  let* t := read_table in
  op_ret (mkWritten name true record (pending_for t event key old_image (Some item)) consumed).

Definition apply_delete (wants_capacity : bool) (name : string) (delete : Value) : Op Written :=
  let key := item_of (index delete "Key") in
  let* t := read_table in
  let* old_image := row_at (find_item_index (store t) key) in
  let consumed := action_consumed wants_capacity t old_image None old_image in
  let* _ := on_store (fun st => remove_item_by_key st (now env) key) in
  match old_image with
  | None => op_ret (mkWritten name true None None consumed)
  | Some _ =>
      let* record := generate_record "REMOVE" key old_image None in
      let* t := read_table in
      op_ret (mkWritten name true record (pending_for t "REMOVE" key old_image None) consumed)
  end.

(** The mutation of the row of an Update. *)
Definition action_update (update : Value) (item : Item) : Item * Result AwsServiceError unit :=
  let '(row, r) := match as_str (index update "UpdateExpression") with
                   | Some expr => apply_update_expression (op_names update) (normalize_value_numbers <$> op_values update) item expr
                   | None => (item, Ok tt)
                   end in
  (row, _ ← r; check_update_item_size row).

Definition apply_update (wants_capacity : bool) (name : string) (update : Value) : Op Written :=
  let key := item_of (index update "Key") in
  let* _ := modify (fun t => with_store t (ensure_key_index (store t))) in
  let* t := read_table in
  let existing_idx := find_item_index (store t) key in
  let* old_image := row_at existing_idx in
  let* id := upsert env key existing_idx in
  let* r := on_store (fun st => update_item_at st (now env) id (action_update update)) in
  let* _ := check r in
  let* new_image := row_at (Some id) in
  let* t := read_table in
  let consumed := action_consumed wants_capacity t old_image new_image new_image in
  let event := if bool_decide (is_Some old_image) then "MODIFY" else "INSERT" in
  let* record := generate_record event key old_image new_image in
  op_ret (mkWritten name true record (pending_for t event key old_image new_image) consumed).

(** A ConditionCheck is billed as a write of the item it checks. *)
Definition apply_check (name : string) (condition_check : Value) : Op Written :=
  let* t := read_table in
  let* found := row_at (find_item_index (store t) (item_of (index condition_check "Key"))) in
  let bytes := from_option item_size 0%Z found in
  op_ret (mkWritten name false None None (Some (consumed_table (write_units bytes), f64_mul two (read_units bytes true)))).

(** [get_table_mut], the table being held for the operation. *)
Definition on_owned {A} (name : string) (op : Op A) : Txn A := fun s =>
  let id := table_id (account_id env) name in
  match account_tables s !! id with
  | None => Some (s, Err (table_not_found name))
  | Some t => '((t', seq), r) ← op (t, counter s); Some (mkAccounts (<[id := t']> (account_tables s)) seq (idempotency s), r)
  end.

Definition apply_action (wants_capacity : bool) (ti : Value) : Txn (option Written) :=
  let run (op : Value) (f : bool -> string -> Value -> Op Written) :=
    let name := table_name_of op in let* w := on_owned name (f wants_capacity name op) in op_ret (Some w) in
  match get "Put" ti, get "Delete" ti, get "Update" ti, get "ConditionCheck" ti with
  | Some put, _, _, _ => run put apply_put
  | None, Some delete, _, _ => run delete apply_delete
  | None, None, Some update, _ => run update apply_update
  | None, None, None, Some c => if wants_capacity then run c (fun _ => apply_check) else op_ret None
  | None, None, None, None => op_ret None
  end.

(** The actions in order, up to the first that fails: its position and error. *)
Fixpoint apply_all (wants_capacity : bool) (i : nat) (items : list Value)
  : Run Accounts (nat * AwsServiceError) (list Written) :=
  match items with
  | [] => op_ret []
  | ti :: more => fun s =>
      match apply_action wants_capacity ti s with
      | None => None
      | Some (s', Err e) => Some (s', Err (i, e))
      | Some (s', Ok w) => (let* rest := apply_all wants_capacity (S i) more in op_ret (option_list w ++ rest)%list) s'
      end
  end.

(** *** Reverting *)

(** The rows and the history position of each table an action writes. *)
Definition written_ids (items : list Value) : list TableId :=
  items ≫= fun ti => omap (fun k => (fun op => table_id (account_id env) (table_name_of op)) <$> get k ti)
                       ["Put"; "Delete"; "Update"].

Definition snapshot (t : DynamoTable) : list Item * Z := (items_iter (DdbTable.items t), change_marker t).

Definition snapshots (items : list Value) (s : Accounts) : gmap TableId (list Item * Z) :=
  list_to_map ((fun id => (id, from_option (fun t => snapshot (store t)) ([], 0%Z) (account_tables s !! id)))
                 <$> written_ids items).

Definition reverted (snap : list Item * Z) (t : Table) : Table :=
  with_store t (discard_changes_since (replace_items (store t) snap.1) snap.2).

Definition revert (snaps : gmap TableId (list Item * Z)) (s : Accounts) : Accounts :=
  with_tables s (map_imap (fun id t => Some (from_option (fun snap => reverted snap t) t (snaps !! id))) (account_tables s)).

(** *** After the writes *)

Definition add_pending_record (s : Accounts) (w : Written) : Accounts :=
  match w_record w with
  | None => s
  | Some r => with_tables s (alter (fun t => add_stream_record (now env) t r) (table_id (account_id env) (w_table w)) (account_tables s))
  end.

Fixpoint deliver_pending (l : list PendingKinesis) (seq : Z) : list Effect * Z :=
  match l with
  | [] => ([], seq)
  | p :: more =>
      let '(effects, seq) := if delivery env
        then deliver_kinesis_change (env_for seq) (p_target p) (p_event p) (p_keys p) (p_old p) (p_new p) seq
        else ([], seq) in
      let '(rest, seq) := deliver_pending more seq in
      ((effects ++ rest)%list, seq)
  end.

(** A table's capacity documents, for each table name of the request. *)
Definition capacities (mode : string) (split : CapacitySplit) (per_table : gmap string Consumed) : list Value :=
  List.filter (fun v => negb (is_null v))
    ((fun e => build_capacity mode e.1 e.2 split) <$> BTree.iter per_table).

Definition per_table_consumed (l : list Written) : gmap string Consumed :=
  foldl (fun m w => match w_consumed w with
                    | Some (c, _) => <[w_table w := consumed_add (default nothing_consumed (m !! w_table w)) c]> m
                    | None => m
                    end) ∅ l.

Definition per_table_replay (l : list Written) : gmap string f64 :=
  foldl (fun m w => match w_consumed w with
                    | Some (_, units) => <[w_table w := f64_add (default (f64_of_Z 0) (m !! w_table w)) units]> m
                    | None => m
                    end) ∅ l.

Definition capacity_field (l : list Value) : list (string * Value) :=
  match l with [] => [] | _ => [("ConsumedCapacity", VArray l)] end.

Definition metrics_field (return_icm : string) (l : list Written) : list (string * Value) :=
  if String.eqb return_icm "SIZE" then
    let names : gmap string unit := foldl (fun m w => if w_counted w then <[w_table w := tt]> m else m) ∅ l in
    [("ItemCollectionMetrics", VObject ((fun e => (e.1, VArray [])) <$> BTree.iter names))]
  else [].

Definition commit (body : Value) (raw : string) (l : list Written) : Txn (TxnReply * list Effect) := fun s =>
  let mode := return_consumed_mode body in
  let s := foldl add_pending_record s l in
  let icm := metrics_field (return_icm_mode body) l in
  let consumed := capacity_field
    (capacities mode SplitWrite ((fun c => consumed_scaled c two) <$> per_table_consumed l)) in
  let replay_consumed := capacity_field (capacities mode SplitRead (consumed_table <$> per_table_replay l)) in
  let result := VObject (consumed ++ icm) in
  let replay := VObject ((match replay_consumed with [] => consumed | _ => replay_consumed end) ++ icm) in
  let s := match as_str (index body "ClientRequestToken") with
           | Some token => transact_idempotency_store token (body_hash raw) replay s
           | None => s
           end in
  let '(effects, seq) := deliver_pending (omap w_kinesis l) (counter s) in
  Some (mkAccounts (account_tables s) seq (idempotency s), Ok (Committed result, effects)).

(** *** The handler *)

Definition transact_locked (body : Value) (raw : string) (items : list Value) : Txn (TxnReply * list Effect) :=
  let wants_capacity := negb (String.eqb (return_consumed_mode body) "NONE") in
  let* _ := for_each (fun ti => let* _ := data_table (table_name_of (transact_op ti).2) in op_ret tt) items in
  let* bytes := map_each upfront items in
  let* _ := check (if (MAX_TRANSACTION_BYTES <? foldr Z.add 0 bytes)%Z
                   then Err (validation_error "Transaction request cannot include more than 4 MB of data") else Ok tt) in
  let* _ := distinct_keys [] items in
  let* reasons := map_each judge items in
  if existsb (fun r => negb (String.eqb (reason_code r) "None")) reasons then op_ret (Canceled reasons, [])
  else fun s =>
    match apply_all wants_capacity 0 items s with
    | None => None
    | Some (s', Ok l) => commit body raw l s'
    | Some (s', Err (failed, e)) =>
        Some (revert (snapshots items s) s',
              Ok (Canceled (imap (fun i _ => if (i =? failed)%nat then validation_reason (error_message e) else no_reason) items), []))
    end.

Definition transact_write_items (body : Value) (raw : string) : Txn (TxnReply * list Effect) :=
  let* items := check (validate_transaction body) in
  let* cached := match as_str (index body "ClientRequestToken") with
                 | Some token => transact_idempotency_lookup token (body_hash raw)
                 | None => op_ret None
                 end in
  match cached with
  | Some r => op_ret (Replayed r, [])
  | None => transact_locked body raw items
  end.

End Transact.
