(* ===== verification/DdbTransactTheory.v ===== *)
(** * DynamoDB transactions: all or nothing

    TransactWriteItems is shown to be atomic: a transaction that commits has
    the rows that its actions, each applied to the row as it was before the
    transaction, leave; one that does not, for whatever reason and however far
    the apply pass got, leaves every row of every table of every account as it
    was.  A retry with the same token replays the reply and writes nothing. *)

From Stdlib Require Import ZArith Lia Bool String Ascii SpecFloat.
From stdpp Require Import base option list strings gmap sorting.
From S2P Require Import Prelude Json BTree Arn Text OrdMap Sqs DdbNumber DdbNumberTheory DdbValue DdbReserved DdbExpr DdbTable DdbUpdate DdbTableTheory DdbCondition DdbLex DdbConditionTheory DdbKeyGuard DdbItems DdbItemsTheory DdbTransact.
Import Sqs(AwsServiceError, AwsError, aws_error).

Local Open Scope string_scope.
Local Open Scope op_scope.
Local Open Scope list_scope.

(** ** One table *)

Section Table.
Context `{Base64Decode} `{JsonText} `{!JsonTextLaws} `{ItemText} (env : Env) (uuid : Z -> string).

(** The table after the row of one key changed. *)
Definition changed (t : Table) (k : RowKey) (v : option Item) (t' : Table) : Prop :=
  sound (store t') /\ same_settings t t' /\ key_schema (store t') = key_schema (store t)
  /\ forall k', row_of (store t') k' = set_row (row_of (store t)) k v k'.

Lemma wp_record event keys old new t seq (Q : Result AwsServiceError (option StreamRecord) -> _ -> Prop) :
  (forall r seq, Q (Ok r) (t, seq)) -> wp (generate_record env uuid event keys old new) (t, seq) Q.
Proof. intros HQ. unfold wp, generate_record. cbn [snd]. by apply wp_generate. Qed.

Lemma apply_put_changes wants name put t seq k : sound (store t) ->
  let item := normalize_item_numbers (item_of (index put "Item")) in
  item_ok (store t) item -> encode_key (store t) item = Some k ->
  wp (apply_put env uuid wants name put) (t, seq)
    (fun r s => is_ok r = true /\ changed t k (Some item) s.1).
Proof.
  intros St item Hi Ek. unfold apply_put. fold item. cbv zeta. step.
  destruct (extract_key_ok _ _ Hi) as [Hx Ex]. rewrite Ek in Ex.
  apply wp_bind. eapply wp_lookup; [done|exact Hx|exact Ex|].
  destruct (put_sound (store t) (now env) item k St Hi Ek) as (id & b & st & Ep & Ss & Sc & Rw & _).
  apply wp_bind. eapply wp_on_store; [exact Ep|]. apply wp_bind, wp_record. intros r seq'. step. apply wp_ret.
  split; [done|]. split; [exact Ss|]. split; [apply same_settings_store|]. split; [done|]. exact Rw.
Qed.

Lemma apply_delete_changes wants name op t seq k : sound (store t) ->
  item_ok (store t) (item_of (index op "Key")) -> encode_key (store t) (item_of (index op "Key")) = Some k ->
  wp (apply_delete env uuid wants name op) (t, seq) (fun r s => is_ok r = true /\ changed t k None s.1).
Proof.
  intros St Hi Ek. unfold apply_delete. cbv zeta. step. apply wp_bind. eapply wp_lookup; [done|exact Hi|exact Ek|].
  destruct (remove_key_sound (store t) (now env) _ k St Hi Ek) as (st & Ed & Ss & Sc & Rw).
  apply wp_bind. eapply wp_on_store; [exact Ed|].
  assert (Hc : changed t k None (with_store t st)).
  { split; [exact Ss|]. split; [apply same_settings_store|]. split; [done|]. exact Rw. }
  destruct (row_of (store t) k); [|by apply wp_ret]. apply wp_bind, wp_record. intros r seq'. step. by apply wp_ret.
Qed.

(** A table that only differs in its rows. *)
Definition same_table (t t' : Table) : Prop := same_settings t t' /\ key_schema (store t') = key_schema (store t).

Lemma apply_update_changes wants name op t seq k : sound (store t) ->
  let key := item_of (index op "Key") in
  item_ok (store t) key -> encode_key (store t) key = Some k ->
  (forall x row r, action_update op x = (row, r) -> forall n, key_attribute (store t) n -> row !! n = x !! n) ->
  wp (apply_update env uuid wants name op) (t, seq)
    (fun r s => if is_ok r
                then changed t k (Some (action_update op (default (normalize_item_numbers key) (row_of (store t) k))).1) s.1
                else same_table t s.1).
Proof.
  intros St key Hi Ek Hkeep. unfold apply_update. fold key. cbv zeta. destruct (indexed_ok t St) as (St0 & Se0 & S0 & R0).
  step. fold (indexed t). destruct (indexed_key t _ _ Hi Ek) as [Hi0 Ek0]. step.
  apply wp_bind. eapply wp_lookup; [done|exact Hi0|exact Ek0|]. rewrite R0.
  apply wp_bind. apply wp_upsert with (k := k); [done..|]. rewrite R0.
  intros st id x Hx Ss Sc Eg Ex Hix Rw. rewrite <- Hx. destruct (action_update op x) as [row r] eqn:Ea.
  assert (Hin : item_ok st x) by (by eapply item_ok_schema).
  rewrite <- (encode_key_schema st) in Ex by done. rewrite S0 in Sc.
  destruct (key_kept st row x) as [Hr Er]; [|exact Hin|].
  { intros n Hn. eapply Hkeep; [exact Ea|]. by eapply key_attribute_schema. }
  apply wp_bind. destruct r as [[]|e].
  - destruct (update_sound st (now env) id x row k (action_update op)) as (st' & Eu & Ss' & Sc' & Rw' & G'); try done; [congruence|].
    eapply wp_on_store; [exact Eu|]. apply wp_bind, wp_check. cbv beta iota. apply wp_bind. eapply wp_row; [exact G'|]. step.
    apply wp_bind, wp_record. intros rec seq'. apply wp_ret. cbn [is_ok fst snd]. split; [exact Ss'|].
    split; [by destruct t|]. split; [cbn; congruence|]. intros k'. cbn. rewrite Rw'. unfold set_row.
    destruct (decide (k' = k)) as [->|Hne]; [done|]. rewrite Rw, decide_False by done. apply R0.
  - eapply wp_on_store; [exact (update_rejected st (now env) id x row _ e Ss Eg Ea)|]. apply wp_bind, wp_check.
    cbn [is_ok fst]. split; [by destruct t|done].
Qed.

Lemma apply_check_reads name op t seq k : sound (store t) ->
  item_ok (store t) (item_of (index op "Key")) -> encode_key (store t) (item_of (index op "Key")) = Some k ->
  wp (apply_check name op) (t, seq) (fun r s => is_ok r = true /\ s.1 = t).
Proof.
  intros St Hi Ek. unfold apply_check. step. apply wp_bind. eapply wp_lookup; [done|exact Hi|exact Ek|]. by apply wp_ret.
Qed.

End Table.

(** ** The rows of the accounts *)

Section Atomic.
Context `{Base64Decode} `{JsonText} `{!JsonTextLaws} `{ItemText} `{TextHash} (env : Env) (uuid : Z -> string).

Definition AllRows : Type := TableId -> Rows.

Definition rows_in (s : Accounts) : AllRows := fun id =>
  from_option (fun t => row_of (store t)) (fun _ => None) (account_tables s !! id).

Definition sound_accounts (s : Accounts) : Prop := map_Forall (fun _ t => sound (store t)) (account_tables s).

(** The tables of [s], each with the rows given. *)
Definition tables_are (s : Accounts) (rows : AllRows) (s' : Accounts) : Prop :=
  forall id, match account_tables s !! id, account_tables s' !! id with
             | Some t, Some t' => sound (store t') /\ same_table t t' /\ forall k, row_of (store t') k = rows id k
             | None, None => True
             | _, _ => False
             end.

Lemma tables_are_refl s s' : sound_accounts s -> account_tables s' = account_tables s -> tables_are s (rows_in s) s'.
Proof.
  intros Ss Et id. rewrite Et. unfold rows_in. destruct (account_tables s !! id) as [t|] eqn:E; [|done].
  split; [by apply (Ss _ _ E)|]. split; [split; [apply same_settings_refl|done]|done].
Qed.

Lemma tables_are_ext s r r' s' : tables_are s r s' -> (forall id k, r id k = r' id k) -> tables_are s r' s'.
Proof.
  intros Ht Hr id. specialize (Ht id). destruct (account_tables s !! id), (account_tables s' !! id); try done.
  destruct Ht as (? & ? & Hk). split_and!; try done. intros k. by rewrite Hk.
Qed.

(** What an action aims at and what it makes of the row there. *)
Definition target_id (ti : Value) : TableId := table_id (account_id env) (table_name_of (transact_op ti).2).

Definition aim (s : Accounts) (ti : Value) : option (TableId * RowKey) :=
  t ← account_tables s !! target_id ti; Some (target_id ti, key_of (store t) (action_key (store t) ti)).

Definition action_row (ti : Value) (old : option Item) : option Item :=
  let '(kind, op) := transact_op ti in
  if String.eqb kind "Put" then Some (normalize_item_numbers (item_of (index op "Item")))
  else if String.eqb kind "Update" then
    Some (action_update op (default (normalize_item_numbers (item_of (index op "Key"))) old)).1
  else if String.eqb kind "Delete" then None
  else old.

(** The rows after actions on different items, each on the row as it was. *)
Definition after_actions (s : Accounts) (items : list Value) : AllRows := fun id k =>
  match List.find (fun ti => bool_decide (aim s ti = Some (id, k))) items with
  | Some ti => action_row ti (rows_in s id k)
  | None => rows_in s id k
  end.

(** Typed keys, as for single writes. *)
Definition typed_action (t : DynamoTable) (ti : Value) : Prop :=
  let '(kind, op) := transact_op ti in
  if String.eqb kind "Put" then forall a v, key_attribute t a -> item_of (index op "Item") !! a = Some v -> key_value v
  else item_ok t (item_of (index op "Key")) /\ (kind = "Update" -> plain_request t op).

Definition typed_transaction (s : Accounts) (items : list Value) : Prop :=
  Forall (fun ti => forall t, account_tables s !! target_id ti = Some t -> typed_action (store t) ti) items.

(** *** Reading passes *)

Definition reads {A} (m : Txn A) (s : Accounts) (Q : A -> Prop) : Prop :=
  wp m s (fun r s' => s' = s /\ match r with Ok a => Q a | Err _ => True end).

Lemma reads_bind {A B} (m : Txn A) (f : A -> Txn B) s P Q :
  reads m s P -> (forall a, P a -> reads (f a) s Q) -> reads (op_bind m f) s Q.
Proof.
  unfold reads, wp, op_bind. destruct (m s) as [[s' [a|e]]|]; [|done..]. intros [-> Ha] Hf. by apply Hf.
Qed.

Lemma reads_check {A B} (r : Result AwsServiceError A) (f : A -> Txn B) s Q :
  (forall a, r = Ok a -> reads (f a) s Q) -> reads (op_bind (check r) f) s Q.
Proof. intros HQ. unfold reads, wp, op_bind, check. destruct r; [by apply HQ|done]. Qed.

Lemma reads_ret {A} (a : A) s (Q : A -> Prop) : Q a -> reads (op_ret a) s Q.
Proof. done. Qed.

Lemma reads_map_each {A B} (f : A -> Txn B) l s (P : A -> B -> Prop) :
  Forall (fun x => reads (f x) s (P x)) l -> reads (map_each f l) s (Forall2 P l).
Proof.
  induction 1 as [|x l Hx _ IH]; cbn [map_each]; [by apply reads_ret|].
  eapply reads_bind; [exact Hx|]. intros y Hy. eapply reads_bind; [exact IH|]. intros ys Hys. apply reads_ret. by constructor.
Qed.

Lemma reads_data_table {B} name (f : Table -> Txn B) s Q :
  (forall t, account_tables s !! table_id (account_id env) name = Some t -> reads (f t) s Q) ->
  reads (op_bind (data_table env name) f) s Q.
Proof. intros HQ. unfold reads, wp, op_bind, data_table. destruct (account_tables s !! _); [by apply HQ|done]. Qed.

Lemma stored_row_total st key : sound st -> item_ok st key -> is_Some (stored_row st key).
Proof.
  intros St Hi. unfold stored_row. destruct (encode_key st key) as [k|] eqn:Ek.
  - pose proof (find_index_sound st key k St Hi Ek) as Hf. destruct (find_item_index st key); [|eauto].
    destruct Hf as (x & _ & -> & _). eauto.
  - rewrite (find_index_scan st key (proj1 St) Hi), (find_scan_unkeyed st key Ek). eauto.
Qed.

Lemma stored_row_sound st key k : sound st -> item_ok st key -> encode_key st key = Some k -> stored_row st key = Some (row_of st k).
Proof.
  intros St Hi Ek. unfold stored_row. pose proof (find_index_sound st key k St Hi Ek) as Hf.
  destruct (find_item_index st key); [by destruct Hf as (x & _ & -> & -> & _)|by rewrite Hf].
Qed.

Lemma reads_existing {B} t key (f : option Item -> Txn B) s Q : sound (store t) -> item_ok (store t) key ->
  (forall r, stored_row (store t) key = Some r -> reads (f r) s Q) -> reads (op_bind (existing_row t key) f) s Q.
Proof.
  intros St Hi HQ. destruct (stored_row_total _ _ St Hi) as [r Er]. specialize (HQ r Er).
  unfold reads, wp, op_bind, existing_row. rewrite Er. simpl. exact HQ.
Qed.

(** *** What the passes establish *)

(** The action is on an existing table and its key is usable. *)
Definition checked (s : Accounts) (ti : Value) : Prop :=
  exists t, account_tables s !! target_id ti = Some t
    /\ let '(kind, op) := transact_op ti in
       if String.eqb kind "Put" then
         missing_item_key_error t (item_of (index op "Item")) = None
         /\ validate_item_attribute_values (item_of (index op "Item")) = Ok tt
       else kind = "Update" -> forall e, as_str (index op "UpdateExpression") = Some e ->
         reject_key_attribute_update_expression (store t) e (op_names op) = Ok tt.

(** Its condition holds on the row it aims at. *)
Definition met (s : Accounts) (ti : Value) : Prop :=
  exists t, account_tables s !! target_id ti = Some t
    /\ let '(kind, op) := transact_op ti in
       (kind <> "Put" -> key_matches_schema t (item_of (index op "Key")) = true)
       /\ condition_failed kind op (row_of (store t) (key_of (store t) (action_key (store t) ti))) = false.

Lemma upfront_checks s ti : sound_accounts s ->
  (forall t, account_tables s !! target_id ti = Some t -> typed_action (store t) ti) ->
  reads (upfront env ti) s (fun _ => checked s ti).
Proof.
  intros Ss Hty. unfold upfront, checked, typed_action, target_id in *. destruct (transact_op ti) as [kind op]. cbn [snd] in *.
  apply reads_data_table. intros t Et. specialize (Hty t Et). destruct (String.eqb kind "Put").
  - apply reads_check. intros [] Hm. do 2 (apply reads_check; intros ? _). apply reads_check. intros [] Hv.
    apply reads_check. intros ? _. apply reads_ret. exists t. split; [done|]. split; [by destruct missing_item_key_error|done].
  - destruct Hty as [Hi _]. apply reads_check. intros ? _.
    destruct (String.eqb_spec kind "Update") as [->|Hk]; [|apply reads_ret; exists t; split; [done|]; by intros].
    apply reads_check. intros [] Hr. apply reads_check. intros ? _.
    apply reads_existing; [by eapply Ss|done|]. intros x _. apply reads_ret. exists t. split; [done|].
    intros _ e Ee. by rewrite Ee in Hr.
Qed.

(** The reasons of actions whose condition holds are [None]. *)
Definition reason_of (s : Accounts) (ti r : Value) : Prop := reason_code r = "None" -> met s ti.

Lemma action_key_ok t ti : typed_action t ti ->
  (let '(kind, op) := transact_op ti in kind = "Put" -> validate_item_attribute_values (item_of (index op "Item")) = Ok tt) ->
  item_ok t (action_key t ti).
Proof.
  unfold typed_action, action_key. destruct (transact_op ti) as [kind op]. destruct (String.eqb_spec kind "Put") as [->|Hk].
  - intros Hty Hv. apply extract_key_ok. by apply written_item_ok; [|apply Hv].
  - by intros [Hi _] _.
Qed.

Lemma schema_key t key : key_matches_schema t key = true -> encode_key (store t) key = Some (key_of (store t) key).
Proof.
  unfold key_matches_schema. cbn [forallb table_key_names]. destruct (key !! hash_key_name (store t)) as [v|] eqn:E; [|done].
  intros _. unfold key_of, encode_key, encode_key_with. by rewrite E.
Qed.

(** The key of a checked action, as stored. *)
Lemma item_key t item : missing_item_key_error t item = None -> item_ok (store t) item ->
  encode_key (store t) (extract_key (store t) item) = Some (key_of (store t) (extract_key (store t) item))
  /\ encode_key (store t) item = Some (key_of (store t) (extract_key (store t) item)).
Proof.
  unfold missing_item_key_error. intros E Hi. destruct (extract_key_ok _ _ Hi) as [_ Ex].
  destruct (List.find _ _) eqn:Ef; [done|].
  pose proof (List.find_none _ _ Ef (hash_key_name (store t)) ltac:(by left)) as Hh.
  apply negb_false_iff, bool_decide_eq_true in Hh as [v Hv]. unfold key_of. rewrite Ex.
  assert (is_Some (encode_key (store t) item)) as [k ->]; [|done].
  unfold encode_key, encode_key_with. rewrite Hv. simpl. eauto.
Qed.

(** A checked action: its table, and its key there. *)
Lemma checked_key s ti t : sound_accounts s -> checked s ti -> account_tables s !! target_id ti = Some t ->
  typed_action (store t) ti ->
  (let '(kind, op) := transact_op ti in kind <> "Put" -> key_matches_schema t (item_of (index op "Key")) = true) ->
  item_ok (store t) (action_key (store t) ti)
  /\ encode_key (store t) (action_key (store t) ti) = Some (key_of (store t) (action_key (store t) ti)).
Proof.
  intros Ss (t' & Et' & Hc) Et Hty Hk. rewrite Et in Et'. injection Et' as <-.
  unfold typed_action, action_key in *. destruct (transact_op ti) as [kind op]. destruct (String.eqb_spec kind "Put") as [->|Hne].
  - destruct Hc as [Hm Hv]. pose proof (written_item_ok _ _ Hty Hv) as Hi. split; [by apply extract_key_ok|].
    by apply item_key.
  - split; [apply Hty|]. by apply schema_key, Hk.
Qed.

Lemma condition_reason_code kind op existing :
  reason_code (condition_reason kind op existing) = "None" -> condition_failed kind op existing = false.
Proof. unfold condition_reason. by destruct condition_failed. Qed.

Lemma judge_reason s ti : sound_accounts s -> checked s ti ->
  (forall t, account_tables s !! target_id ti = Some t -> typed_action (store t) ti) ->
  reads (judge env ti) s (reason_of s ti).
Proof.
  intros Ss Hc Hty. unfold judge. pose proof (checked_key s ti) as Hck. unfold target_id, reason_of, met in *.
  unfold target_id in *. destruct (transact_op ti) as [kind op] eqn:Eop. cbn [snd] in *.
  apply reads_data_table. intros t Et. specialize (Hty t Et). specialize (Hck t Ss Hc Et Hty). cbv zeta.
  assert (Hj : (kind <> "Put" -> key_matches_schema t (item_of (index op "Key")) = true) ->
    reads (let* existing := existing_row t (action_key (store t) ti) in
           match (if String.eqb kind "Update" then dry_run_fault t op (action_key (store t) ti) existing else None) with
           | Some f => if is_empty_value f then check (Err (update_error f)) else op_ret (validation_reason (update_message f))
           | None => op_ret (condition_reason kind op existing)
           end) s (fun r => reason_code r = "None" -> exists t, account_tables s !! table_id (account_id env) (table_name_of op) = Some t
             /\ (kind <> "Put" -> key_matches_schema t (item_of (index op "Key")) = true)
             /\ condition_failed kind op (row_of (store t) (key_of (store t) (action_key (store t) ti))) = false)).
  { intros Hs. destruct (Hck Hs) as [Hi Ek]. apply reads_existing; [by eapply Ss|done|]. intros r Er.
    rewrite (stored_row_sound _ _ _ (Ss _ _ Et) Hi Ek) in Er. injection Er as <-.
    destruct (if String.eqb kind "Update" then _ else None) as [f|]; [destruct (is_empty_value f); done|].
    apply reads_ret. intros Hr%condition_reason_code. eauto. }
  unfold action_key in Hj at 1 2. rewrite Eop in Hj. destruct (String.eqb_spec kind "Put") as [->|Hne].
  - destruct (item_key_type_mismatch t _); [done|]. destruct (index_key_fault _ _ _); [done|]. by apply Hj.
  - destruct (key_matches_schema t _) eqn:Em; [by apply Hj|done].
Qed.

(** *** The apply pass *)

Definition one_member (ti : Value) : Prop :=
  length (List.filter (fun k => bool_decide (is_Some (get k ti))) ["Put"; "Update"; "Delete"; "ConditionCheck"]) = 1%nat.

(** An action of one kind. *)
Inductive member_of (ti : Value) : Prop :=
| member_put op : transact_op ti = ("Put", op) -> get "Put" ti = Some op -> member_of ti
| member_update op : transact_op ti = ("Update", op) -> get "Put" ti = None -> get "Delete" ti = None ->
    get "Update" ti = Some op -> member_of ti
| member_delete op : transact_op ti = ("Delete", op) -> get "Put" ti = None -> get "Delete" ti = Some op -> member_of ti
| member_check op : transact_op ti = ("ConditionCheck", op) -> get "Put" ti = None -> get "Delete" ti = None ->
    get "Update" ti = None -> get "ConditionCheck" ti = Some op -> member_of ti.

Lemma one_member_of ti : one_member ti -> member_of ti.
Proof.
  unfold one_member. cbn [List.filter].
  destruct (get "Put" ti) as [p|] eqn:E1, (get "Update" ti) as [u|] eqn:E2, (get "Delete" ti) as [d|] eqn:E3,
    (get "ConditionCheck" ti) as [c|] eqn:E4; intros Hl; simpl in Hl; try discriminate Hl.
  - apply (member_put _ p); [|done]. unfold transact_op. cbn. by rewrite E1.
  - apply (member_update _ u); [|done..]. unfold transact_op. cbn. by rewrite E1, E2.
  - apply (member_delete _ d); [|done..]. unfold transact_op. cbn. by rewrite E1, E2, E3.
  - apply (member_check _ c); [|done..]. unfold transact_op. cbn. by rewrite E1, E2, E3, E4.
Qed.

(** The rows with one changed. *)
Definition set_in (m : AllRows) (id : TableId) (k : RowKey) (v : option Item) : AllRows := fun id' =>
  if decide (id' = id) then set_row (m id) k v else m id'.

Lemma tables_are_insert s m s' id t t' k v seq : tables_are s m s' -> account_tables s' !! id = Some t -> changed t k v t' ->
  tables_are s (set_in m id k v) (mkAccounts (<[id := t']> (account_tables s')) seq (idempotency s')).
Proof.
  intros Ht E (Ss & Hse & Hsc & Hr) id'. specialize (Ht id'). cbn [account_tables]. unfold set_in.
  destruct (decide (id' = id)) as [->|Hne]; [|by rewrite lookup_insert_ne].
  rewrite lookup_insert_eq. rewrite E in Ht. destruct (account_tables s !! id) as [t0|]; [|done].
  destruct Ht as (_ & [Hs1 Hc1] & Hr1). split; [done|]. split.
  - split; [|congruence]. unfold same_settings in *. rewrite Hse, Hs1. by destruct t0.
  - intros k'. rewrite Hr. unfold set_row. by destruct (decide (k' = k)).
Qed.

Lemma wp_on_owned {A} name (op : Op A) s t (Q : Result AwsServiceError A -> Accounts -> Prop) :
  account_tables s !! table_id (account_id env) name = Some t ->
  wp op (t, counter s) (fun r p => Q r (mkAccounts (<[table_id (account_id env) name := p.1]> (account_tables s)) p.2 (idempotency s))) ->
  wp (on_owned env name op) s Q.
Proof. intros E. unfold wp, on_owned. rewrite E. by destruct (op (t, counter s)) as [[[t' seq] r]|]. Qed.

(** The state after a failed action: nothing but the rows of its table is lost. *)
Definition spoiled (s s' : Accounts) (ids : list TableId) (m : AllRows) : Prop :=
  forall id, match account_tables s !! id, account_tables s' !! id with
             | Some t, Some t' => same_table t t' /\ (id ∉ ids -> sound (store t') /\ forall k, row_of (store t') k = m id k)
             | None, None => True
             | _, _ => False
             end.

Lemma spoiled_insert s m s' id t t' seq : tables_are s m s' -> account_tables s' !! id = Some t -> same_table t t' ->
  spoiled s (mkAccounts (<[id := t']> (account_tables s')) seq (idempotency s')) [id] m.
Proof.
  intros Ht E [Hse Hsc] id'. specialize (Ht id'). cbn [account_tables].
  destruct (decide (id' = id)) as [->|Hne].
  - rewrite lookup_insert_eq. rewrite E in Ht. destruct (account_tables s !! id) as [t0|]; [|done].
    destruct Ht as (_ & [Hs1 Hc1] & _). split; [|by intros []; left]. split; [|congruence].
    unfold same_settings in *. rewrite Hse, Hs1. by destruct t0.
  - rewrite lookup_insert_ne by done. destruct (account_tables s !! id'), (account_tables s' !! id'); try done.
    destruct Ht as (? & ? & ?). done.
Qed.

Lemma same_table_key t t' item : same_table t t' -> encode_key (store t') item = encode_key (store t) item.
Proof. intros [_ E]. by apply encode_key_schema. Qed.

(** The kind of an action is known. *)
Ltac kinds := repeat match goal with
  | |- context [String.eqb ?a ?b] => let v := eval vm_compute in (String.eqb a b) in change (String.eqb a b) with v
  | X : context [String.eqb ?a ?b] |- _ => let v := eval vm_compute in (String.eqb a b) in change (String.eqb a b) with v in X
  end.

Lemma changed_same t k v : sound (store t) -> row_of (store t) k = v -> changed t k v t.
Proof.
  intros St Er. split; [done|]. split; [apply same_settings_refl|]. split; [done|]. intros k'. unfold set_row.
  by destruct (decide (k' = k)) as [->|].
Qed.

Lemma tables_are_same s m s' id k v : tables_are s m s' -> m id k = v -> tables_are s (set_in m id k v) s'.
Proof.
  intros Ht Hm. eapply tables_are_ext; [exact Ht|]. intros id' k'. unfold set_in, set_row.
  destruct (decide (id' = id)) as [->|]; [|done]. by destruct (decide (k' = k)) as [->|].
Qed.

(** The mutation of an Update keeps the key. *)
Lemma action_update_keeps t op x row r : plain_request t op ->
  (forall e, as_str (index op "UpdateExpression") = Some e -> reject_key_attribute_update_expression t e (op_names op) = Ok tt) ->
  action_update op x = (row, r) -> forall n, key_attribute t n -> row !! n = x !! n.
Proof.
  intros [Pk Pe Pn] Hg E n Hn. unfold action_update, apply_update_expression in E.
  destruct (as_str (index op "UpdateExpression")) as [e|] eqn:Ee; [|by injection E as <- _].
  destruct (apply_update_expression_tracked _ _ x e) as [x' r'] eqn:Ea. injection E as <- _.
  eapply (expression_keeps_key t); [by apply Pk|done|by apply Pe|exact Pn| |exact Ea].
  specialize (Hg e eq_refl). unfold reject_key_attribute_update_expression in Hg. by destruct key_attribute_in_update_expression.
Qed.

(** An action of the request, in a state whose tables have the given rows. *)
Lemma apply_action_step s0 m s wants ti id k : sound_accounts s0 -> tables_are s0 m s -> member_of ti ->
  checked s0 ti -> met s0 ti ->
  (forall t, account_tables s0 !! target_id ti = Some t -> typed_action (store t) ti) ->
  aim s0 ti = Some (id, k) -> m id k = rows_in s0 id k ->
  wp (apply_action env uuid wants ti) s (fun r s' =>
    if is_ok r then tables_are s0 (set_in m id k (action_row ti (rows_in s0 id k))) s'
    else spoiled s0 s' [id] m /\ id ∈ written_ids env [ti]).
Proof.
  intros Ss Hs Hmem Hc Hmet Hty Ha Hm. unfold aim in Ha. destruct (account_tables s0 !! target_id ti) as [t0|] eqn:Et0; [|done].
  injection Ha as <- Hk. destruct Hmet as (t0' & Et0' & Hmet). rewrite Et0 in Et0'. injection Et0' as <-.
  specialize (Hty t0 eq_refl). pose proof (checked_key s0 ti t0 Ss Hc Et0 Hty) as Hck.
  destruct Hc as (t0' & Et0' & Hc). rewrite Et0 in Et0'. injection Et0' as <-.
  pose proof (Hs (target_id ti)) as Hst. rewrite Et0 in Hst.
  destruct (account_tables s !! target_id ti) as [t|] eqn:Et; [|done]. destruct Hst as (St & Hsame & Hrow).
  assert (Hrk : row_of (store t) k = rows_in s0 (target_id ti) k) by (by rewrite Hrow).
  assert (Hschema : key_schema (store t0) = key_schema (store t)) by (symmetry; apply Hsame).
  unfold apply_action, typed_action, action_key, action_row, target_id, written_ids in *.
  destruct Hmem as [op Eop Ep|op Eop Ep Ed Eu|op Eop Ep Ed|op Eop Ep Ed Eu Ec]; rewrite Eop in *; cbn [snd] in *; kinds.
  - rewrite Ep. destruct Hc as [Hmiss Hv]. pose proof (written_item_ok _ _ Hty Hv) as Hi.
    destruct (item_key t0 _ Hmiss Hi) as [_ Ek]. rewrite Hk in Ek. destruct (normalize_item _ _ Hi) as [Hn En]. rewrite Ek in En.
    apply wp_bind. eapply wp_on_owned; [exact Et|].
    eapply wp_mono; [eapply (apply_put_changes env uuid wants _ op t _ k St)|].
    + by eapply item_ok_schema.
    + by rewrite (same_table_key t0).
    + intros [w|e] [t' seq] [Hok Hch]; [|done]. apply wp_ret. cbn [is_ok fst snd]. by eapply tables_are_insert.
  - rewrite Ep, Ed, Eu. destruct Hty as [Hi Hp]. destruct (Hck ltac:(by apply Hmet)) as [_ Ek]. rewrite Hk in Ek.
    apply wp_bind. eapply wp_on_owned; [exact Et|].
    eapply wp_mono; [eapply (apply_update_changes env uuid wants _ op t _ k St)|].
    + by eapply item_ok_schema.
    + by rewrite (same_table_key t0).
    + intros x row r E n Hn. eapply (action_update_keeps (store t0)); [by apply Hp|by apply Hc|exact E|].
      by eapply key_attribute_schema.
    + rewrite Hrk. intros [w|e] [t' seq] Hch; cbn [is_ok fst snd] in *.
      * apply wp_ret. cbn [is_ok]. by eapply tables_are_insert.
      * split; [by eapply spoiled_insert|]. cbn. rewrite Ep, Ed, Eu. set_solver.
  - rewrite Ep, Ed. destruct Hty as [Hi _]. destruct (Hck ltac:(by apply Hmet)) as [_ Ek]. rewrite Hk in Ek.
    apply wp_bind. eapply wp_on_owned; [exact Et|].
    eapply wp_mono; [eapply (apply_delete_changes env uuid wants _ op t _ k St)|].
    + by eapply item_ok_schema.
    + by rewrite (same_table_key t0).
    + intros [w|e] [t' seq] [Hok Hch]; [|done]. apply wp_ret. cbn [is_ok fst snd]. by eapply tables_are_insert.
  - rewrite Ep, Ed, Eu, Ec. destruct Hty as [Hi _]. destruct (Hck ltac:(by apply Hmet)) as [_ Ek]. rewrite Hk in Ek.
    destruct wants; [|apply wp_ret; cbn [is_ok]; by apply tables_are_same].
    apply wp_bind. eapply wp_on_owned; [exact Et|].
    eapply wp_mono; [eapply (apply_check_reads _ op t _ k St)|].
    + by eapply item_ok_schema.
    + by rewrite (same_table_key t0).
    + intros [w|e] [t' seq] [Hok Ht]; [|done]. cbn [fst snd] in *. subst t'. apply wp_ret. cbn [is_ok].
      eapply tables_are_insert; [exact Hs|exact Et|]. by apply changed_same.
Qed.

(** *** Different items *)

Lemma same_key_equal t a b k : item_ok t a -> item_ok t b -> encode_key t a = Some k -> encode_key t b = Some k ->
  keys_equal t a b = true.
Proof.
  intros Ha Hb Ea Eb. assert (Hm : key_matches t b a = true) by (apply key_matches_encode; eauto).
  unfold key_matches in Hm. apply andb_true_iff in Hm as [Hm Hr]. unfold keys_equal. rewrite Hm. simpl.
  unfold encode_key, encode_key_with in Eb. destruct (b !! hash_key_name t); [|done]. exact Hr.
Qed.

Fixpoint distinct_from (s : Accounts) (seen : list (TableId * Item)) (items : list Value) : Prop :=
  match items with
  | [] => True
  | ti :: more => exists t, account_tables s !! target_id ti = Some t
      /\ Forall (fun e => e.1 = target_id ti -> keys_equal (store t) e.2 (action_key (store t) ti) = false) seen
      /\ distinct_from s (seen ++ [(target_id ti, action_key (store t) ti)]) more
  end.

Lemma distinct_keys_distinct s seen items : reads (distinct_keys env seen items) s (fun _ => distinct_from s seen items).
Proof.
  revert seen. induction items as [|ti more IH]; intros seen; cbn [distinct_keys distinct_from]; [done|].
  apply reads_data_table. intros t Et. fold (target_id ti) in *. destruct (existsb _ seen) eqn:E; [done|].
  specialize (IH (seen ++ [(target_id ti, action_key (store t) ti)])). revert IH. unfold reads, wp.
  destruct (distinct_keys _ _ more s) as [[s' [[]|e]]|]; [|done..]. intros [-> Hd]. split; [done|]. exists t.
  split; [done|]. split; [|done]. apply Forall_forall. intros e He Hid. apply not_true_iff_false. intros Hk.
  apply not_true_iff_false in E. apply E, existsb_exists. exists e. split; [by apply list_elem_of_In|].
  rewrite Hk, bool_decide_true by done. done.
Qed.

(** An action that passed the checks. *)
Record ready (s : Accounts) (ti : Value) : Prop := {
  ready_member : member_of ti;
  ready_checked : checked s ti;
  ready_met : met s ti;
  ready_typed : forall t, account_tables s !! target_id ti = Some t -> typed_action (store t) ti
}.

Lemma ready_key s ti t : sound_accounts s -> ready s ti -> account_tables s !! target_id ti = Some t ->
  item_ok (store t) (action_key (store t) ti)
  /\ encode_key (store t) (action_key (store t) ti) = Some (key_of (store t) (action_key (store t) ti)).
Proof.
  intros Ss [_ Hc (t' & Et' & Hm) Hty] Et. rewrite Et in Et'. injection Et' as <-. eapply checked_key; [done..|by apply Hty|].
  destruct (transact_op ti). apply Hm.
Qed.

(** Actions seen before aim elsewhere. *)
Lemma aims_differ s seen ti ti' t : sound_accounts s -> ready s ti -> ready s ti' ->
  account_tables s !! target_id ti = Some t ->
  Forall (fun e => e.1 = target_id ti -> keys_equal (store t) e.2 (action_key (store t) ti) = false) seen ->
  (forall t', account_tables s !! target_id ti' = Some t' -> (target_id ti', action_key (store t') ti') ∈ seen) ->
  aim s ti' <> aim s ti.
Proof.
  intros Ss R R' Et Hd Hseen Heq. unfold aim in Heq. rewrite Et in Heq. cbn [mbind option_bind] in Heq.
  destruct (account_tables s !! target_id ti') as [t'|] eqn:Et'; [|done]. apply (inj Some), pair_eq in Heq as [Eid Ek].
  specialize (Hseen t' eq_refl). rewrite Eid, Et in Et'. injection Et' as <-.
  destruct (ready_key s ti t Ss R Et) as [Hi Hk].
  destruct (ready_key s ti' t Ss R' ltac:(by rewrite Eid)) as [Hi' Hk'].
  rewrite Forall_forall in Hd. specialize (Hd _ Hseen Eid). cbn [snd] in Hd.
  rewrite (same_key_equal (store t) _ _ _ Hi' Hi Hk' ltac:(by rewrite Hk, Ek)) in Hd. done.
Qed.

Lemma after_none s l id k : (forall ti, ti ∈ l -> aim s ti <> Some (id, k)) -> after_actions s l id k = rows_in s id k.
Proof.
  intros Hn. unfold after_actions. destruct (List.find _ l) as [ti|] eqn:E; [|done].
  apply find_some in E as [Hin Ha%bool_decide_eq_true]. apply list_elem_of_In in Hin. by destruct (Hn ti).
Qed.

Lemma after_snoc s l ti id k : aim s ti = Some (id, k) -> (forall ti', ti' ∈ l -> aim s ti' <> aim s ti) ->
  forall id' k', set_in (after_actions s l) id k (action_row ti (rows_in s id k)) id' k' = after_actions s (l ++ [ti]) id' k'.
Proof.
  intros Ha Hn id' k'. unfold after_actions at 2. rewrite find_app. unfold set_in, set_row, after_actions. cbn [List.find].
  destruct (List.find (fun ti => bool_decide (aim s ti = Some (id', k'))) l) as [x|] eqn:E.
  - pose proof E as [Hin Hx%bool_decide_eq_true]%find_some. apply list_elem_of_In in Hin. specialize (Hn x Hin).
    destruct (decide (id' = id)) as [->|]; [|by rewrite E]. destruct (decide (k' = k)) as [->|]; [congruence|]. by rewrite E.
  - rewrite Ha. destruct (decide (id' = id)) as [->|Hid].
    + destruct (decide (k' = k)) as [->|Hk]; [by rewrite bool_decide_true|]. rewrite E. rewrite bool_decide_false by congruence. done.
    + rewrite E, bool_decide_false by congruence. done.
Qed.

Lemma after_unwritten s l id k : Forall (ready s) l -> id ∉ written_ids env l -> after_actions s l id k = rows_in s id k.
Proof.
  intros Hl Hid. unfold after_actions. destruct (List.find _ l) as [ti|] eqn:E; [|done].
  apply find_some in E as [Hin%list_elem_of_In Ha%bool_decide_eq_true].
  assert (Et : target_id ti = id).
  { unfold aim in Ha. destruct (account_tables s !! target_id ti); [|done].
    by apply (inj Some), pair_eq in Ha as [<- _]. }
  rewrite Forall_forall in Hl. destruct (ready_member _ _ (Hl ti Hin)) as [op Eop Ep|op Eop Ep Ed Eu|op Eop Ep Ed|op Eop Ep Ed Eu Ec].
  4: { unfold action_row. rewrite Eop. kinds. done. }
  all: destruct Hid; unfold written_ids; apply list_elem_of_bind; exists ti; split; [|done]; unfold target_id in Et;
    rewrite Eop in Et; cbn [snd] in Et; rewrite <- Et; apply list_elem_of_omap.
  - exists "Put". split; [by left|]. by rewrite Ep.
  - exists "Update". split; [by right; right; left|]. by rewrite Eu.
  - exists "Delete". split; [by right; left|]. by rewrite Ed.
Qed.

Lemma spoiled_mono s s' ids ids' m m' : spoiled s s' ids m -> (forall id, id ∈ ids -> id ∈ ids') ->
  (forall id k, id ∉ ids' -> m id k = m' id k) -> spoiled s s' ids' m'.
Proof.
  intros Hs Hi Hm id. specialize (Hs id). destruct (account_tables s !! id), (account_tables s' !! id); try done.
  destruct Hs as [Hst Hr]. split; [done|]. intros Hid. destruct Hr as [Ss Hr]; [by intros ?%Hi|]. split; [done|].
  intros k. rewrite Hr. by apply Hm.
Qed.

Lemma written_ids_app l l' id : id ∈ written_ids env (l ++ l') <-> id ∈ written_ids env l \/ id ∈ written_ids env l'.
Proof. unfold written_ids. by rewrite bind_app, elem_of_app. Qed.

(** All the actions, or the first that fails. *)
Lemma apply_all_outcome s0 wants items : sound_accounts s0 -> Forall (ready s0) items ->
  forall i before seen s, Forall (ready s0) before ->
  (forall ti t, ti ∈ before -> account_tables s0 !! target_id ti = Some t -> (target_id ti, action_key (store t) ti) ∈ seen) ->
  distinct_from s0 seen items -> tables_are s0 (after_actions s0 before) s ->
  wp (apply_all env uuid wants i items) s (fun r s' =>
    match r with
    | Ok _ => tables_are s0 (after_actions s0 (before ++ items)) s'
    | Err (j, _) => (i <= j < i + length items)%nat /\ spoiled s0 s' (written_ids env (before ++ items)) (rows_in s0)
    end).
Proof.
  intros Ss. induction 1 as [|ti more R _ IH]; intros i before seen s Hb Hseen Hd Ht; cbn [apply_all].
  { apply wp_ret. by rewrite app_nil_r. }
  destruct Hd as (t & Et & Hfresh & Hd).
  set (k := key_of (store t) (action_key (store t) ti)).
  assert (Ha : aim s0 ti = Some (target_id ti, k)) by (unfold aim; by rewrite Et).
  assert (Hdiff : forall ti', ti' ∈ before -> aim s0 ti' <> aim s0 ti).
  { intros ti' Hin. rewrite Forall_forall in Hb. eapply aims_differ; [done|done|by apply Hb|done|exact Hfresh|].
    intros t' Et'. by apply Hseen. }
  pose proof (apply_action_step s0 (after_actions s0 before) s wants ti (target_id ti) k Ss Ht (ready_member _ _ R)
    (ready_checked _ _ R) (ready_met _ _ R) (ready_typed _ _ R) Ha) as Hstep.
  specialize (Hstep ltac:(apply after_none; intros ti' Hin Heq; by destruct (Hdiff ti' Hin); rewrite Heq)).
  unfold wp in Hstep |- *. destruct (apply_action env uuid wants ti s) as [[s' [w|e]]|]; [|..|done]; cbn [is_ok] in Hstep.
  - fold (wp (let* rest := apply_all env uuid wants (S i) more in op_ret (option_list w ++ rest)) s' (fun r s' =>
      match r with
      | Ok _ => tables_are s0 (after_actions s0 (before ++ ti :: more)) s'
      | Err (j, _) => (i <= j < i + length (ti :: more))%nat
          /\ spoiled s0 s' (written_ids env (before ++ ti :: more)) (rows_in s0)
      end)).
    replace (before ++ ti :: more) with ((before ++ [ti]) ++ more) by (by rewrite <- app_assoc).
    apply wp_bind. eapply wp_mono; [eapply (IH (S i) (before ++ [ti]))|].
    + apply Forall_app. split; [done|]. by constructor.
    + intros ti' t' [Hin| ->%list_elem_of_singleton]%elem_of_app Et'; apply elem_of_app; [left; by apply Hseen|right].
      rewrite Et in Et'. injection Et' as <-. by apply list_elem_of_singleton.
    + exact Hd.
    + eapply tables_are_ext; [exact Hstep|]. by apply after_snoc.
    + intros [l|[j e]] s2; [by intros Hl; apply wp_ret|]. intros [Hj Hs2]. split; [simpl; lia|done].
  - destruct Hstep as [Hsp Hw]. split; [simpl; lia|]. eapply spoiled_mono; [exact Hsp| |].
    + intros id ->%list_elem_of_singleton. replace (before ++ ti :: more) with ((before ++ [ti]) ++ more) by (by rewrite <- app_assoc).
      apply written_ids_app. left. apply written_ids_app. by right.
    + intros id k' Hid. apply after_unwritten; [done|]. intros Hin. apply Hid, written_ids_app. by left.
Qed.

(** *** Reverting *)

Lemma rows_position (l : OMap Z Item) p q i x y :
  om_ok (fun _ => True) Z.compare l -> l !! p = Some (i, x) -> l !! q = Some (i, y) -> p = q.
Proof.
  intros [_ Hs]. revert p q. induction Hs as [|e l Hs IH F]; intros p q Hp Hq; [done|].
  assert (Hlt : forall r z, l !! r = Some (i, z) -> e.1 <> i).
  { intros r z Hr. eapply Forall_lookup_1 in Hr; [|exact F]. unfold key_lt in Hr. cbn [fst] in Hr.
    intros <-. rewrite Z.compare_refl in Hr. done. }
  destruct p as [|p], q as [|q]; simpl in *; [done|..].
  - injection Hp as ->. by destruct (Hlt _ _ Hq).
  - injection Hq as ->. by destruct (Hlt _ _ Hp).
  - f_equal. by apply IH.
Qed.

(** The rows are determined by the items in their order. *)
Lemma sound_items t t' : sound t -> table_ok t' -> key_schema t' = key_schema t ->
  items_iter (items t') = items_iter (items t) -> sound t' /\ forall k, row_of t' k = row_of t k.
Proof.
  intros [Ht Hu] Ht' Es Ei. unfold items_iter in Ei.
  assert (Hback : forall p i x, rows (items t') !! p = Some (i, x) -> exists i', rows (items t) !! p = Some (i', x)).
  { intros p i x Hp. assert (Hx : (rows (items t)).*2 !! p = Some x) by (rewrite <- Ei, list_lookup_fmap, Hp; done).
    rewrite list_lookup_fmap in Hx. destruct (rows (items t) !! p) as [[i' x']|]; [|done]. injection Hx as ->. eauto. }
  split; [split; [done|]|].
  - intros i j x y k [p Hp]%list_elem_of_lookup [q Hq]%list_elem_of_lookup. rewrite !(encode_key_schema t' t) by done.
    intros Ex Ey. destruct (Hback _ _ _ Hp) as [i' Hp'], (Hback _ _ _ Hq) as [j' Hq'].
    assert (i' = j') as <- by (eapply Hu; [by eapply list_elem_of_lookup_2|by eapply list_elem_of_lookup_2|exact Ex|exact Ey]).
    assert (p = q) as <- by (eapply rows_position; [apply (ok_sorted _ Ht)|done..]). congruence.
  - intros k. rewrite (row_of_schema t) by done. unfold row_of.
    assert (Hf : forall (l l' : list (Z * Item)), l.*2 = l'.*2 -> snd <$> List.find (fun e => bool_decide (encode_key t e.2 = Some k)) l
      = snd <$> List.find (fun e => bool_decide (encode_key t e.2 = Some k)) l').
    { induction l as [|[i x] l IH]; intros [|[j y] l'] E; simpl in E; try done. injection E as -> E. simpl.
      case_bool_decide; [done|]. by apply IH. }
    by apply Hf.
Qed.

Lemma reverted_rows t0 t' : sound (store t0) -> same_table t0 t' ->
  let t := reverted (snapshot (store t0)) t' in
  sound (store t) /\ same_table t0 t /\ forall k, row_of (store t) k = row_of (store t0) k.
Proof.
  intros S0 [Hse Hsc] t. destruct (replace_ok (store t') (items_iter (DdbTable.items (store t0)))) as (Tr & Er & Ir).
  { unfold items_iter. apply Forall_fmap. eapply Forall_impl; [apply (ok_items _ (proj1 S0))|]. intros e. by apply item_ok_schema. }
  destruct (sound_items (store t0) _ S0 Tr ltac:(congruence) Ir) as [Sr Rr].
  destruct (sound_core (replace_items (store t') (items_iter (DdbTable.items (store t0)))) (store t) eq_refl Sr) as [St Rt]. split; [done|]. split.
  - split; [unfold t, reverted, same_settings in *; rewrite Hse; by destruct t0|]. cbn. by rewrite <- Hsc, <- Er.
  - intros k. by rewrite Rt.
Qed.

Lemma snapshots_lookup items s id : snapshots env items s !! id
  = if decide (id ∈ written_ids env items)
    then Some (from_option (fun t => snapshot (store t)) ([], 0%Z) (account_tables s !! id)) else None.
Proof.
  unfold snapshots. induction (written_ids env items) as [|i l IH]; cbn [fmap list_fmap list_to_map foldr].
  { rewrite lookup_empty. by rewrite decide_False by apply not_elem_of_nil. }
  cbn [fst snd uncurry]. destruct (decide (id = i)) as [->|Hne].
  - rewrite lookup_insert_eq. by rewrite decide_True by left.
  - rewrite lookup_insert_ne by done. rewrite IH. destruct (decide (id ∈ l)) as [Hin|Hin].
    + by rewrite decide_True by (by right).
    + rewrite decide_False; [done|]. by intros [|]%elem_of_cons.
Qed.

Lemma revert_restores s0 items s' : sound_accounts s0 -> spoiled s0 s' (written_ids env items) (rows_in s0) ->
  tables_are s0 (rows_in s0) (revert (snapshots env items s0) s').
Proof.
  intros Ss Hsp id. specialize (Hsp id). unfold revert. cbn [account_tables with_tables]. rewrite map_lookup_imap.
  unfold rows_in in *. destruct (account_tables s0 !! id) as [t0|] eqn:E0, (account_tables s' !! id) as [t'|] eqn:E'; try done.
  cbn [mbind option_bind from_option] in *. rewrite snapshots_lookup, E0. destruct Hsp as [Hst Hr].
  destruct (decide (id ∈ written_ids env items)) as [Hin|Hin]; cbn [from_option].
  - apply reverted_rows; [by apply (Ss _ _ E0)|done].
  - destruct (Hr Hin) as [St Hk]. done.
Qed.

(** *** Committing *)

Lemma tables_are_records s m s' w : tables_are s m s' -> tables_are s m (add_pending_record env s' w).
Proof.
  intros Ht. unfold add_pending_record. destruct (w_record w) as [r|]; [|done]. intros id. specialize (Ht id).
  cbn [account_tables with_tables]. destruct (decide (table_id (account_id env) (w_table w) = id)) as [->|Hne].
  - rewrite lookup_alter_eq. destruct (account_tables s !! id) as [t|], (account_tables s' !! id) as [t'|]; try done.
    cbn [fmap option_fmap option_map]. destruct Ht as (St & [Hse Hsc] & Hr).
    split; [done|]. split; [|done]. split; [|done]. by apply same_settings_records.
  - by rewrite lookup_alter_ne.
Qed.

Lemma commit_keeps s m body raw l s' : tables_are s m s' ->
  wp (commit env uuid body raw l) s' (fun r s'' =>
    match r with Ok (Committed _, _) => tables_are s m s'' | _ => False end).
Proof.
  intros Ht. unfold wp, commit. cbv zeta.
  assert (Hf : tables_are s m (foldl (add_pending_record env) s' l)).
  { revert s' Ht. induction l as [|w l IH]; intros s' Ht; [done|]. by apply IH, tables_are_records. }
  destruct (as_str (index body "ClientRequestToken")); destruct (deliver_pending _ _ _ _) as [effects seq]; exact Hf.
Qed.

(** *** The whole request *)

Lemma reads_then {A B} (m : Txn A) (f : A -> Txn B) s P (Q : Result AwsServiceError B -> Accounts -> Prop) :
  reads m s P -> (forall e, Q (Err e) s) -> (forall a, P a -> wp (f a) s Q) -> wp (op_bind m f) s Q.
Proof. intros Hm He Hf. apply wp_bind. eapply wp_mono; [exact Hm|]. intros [a|e] s' [-> Ha]; [by apply Hf|apply He]. Qed.

(** What a transaction may leave. *)
Definition all_or_nothing (s : Accounts) (items : list Value) (r : Result AwsServiceError (TxnReply * list Effect))
  (s' : Accounts) : Prop :=
  match r with
  | Ok (Committed _, _) => Forall (met s) items /\ tables_are s (after_actions s items) s'
  | Ok (Canceled reasons, _) => length reasons = length items /\ List.Exists (fun r => reason_code r <> "None") reasons
      /\ tables_are s (rows_in s) s'
  | Ok (Replayed _, _) | Err _ => tables_are s (rows_in s) s'
  end.

Lemma Forall2_first {A B} (P : A -> Prop) (l : list A) (l' : list B) : Forall2 (fun x _ => P x) l l' -> Forall P l.
Proof. induction 1; by constructor. Qed.

Lemma failed_reasons failed e (items : list Value) : (failed < length items)%nat ->
  let reasons := imap (fun i _ => if (i =? failed)%nat then validation_reason (error_message e) else no_reason) items in
  length reasons = length items /\ List.Exists (fun r => reason_code r <> "None") reasons.
Proof.
  intros Hf reasons. split; [apply length_imap|]. destruct (lookup_lt_is_Some_2 items failed Hf) as [x Hx].
  apply Exists_exists. exists (validation_reason (error_message e)). split; [|done]. apply list_elem_of_lookup. exists failed.
  unfold reasons. rewrite list_lookup_imap, Hx. simpl. by rewrite Nat.eqb_refl.
Qed.

Lemma each_ok_all {A} (f : A -> Result AwsServiceError unit) l : each_ok f l = Ok tt -> Forall (fun x => f x = Ok tt) l.
Proof. intros E. apply Forall_forall. intros x Hx. by eapply each_ok_elem. Qed.

Lemma validated_members body items : validate_transaction body = Ok items ->
  as_array (index body "TransactItems") = Some items /\ Forall member_of items.
Proof.
  unfold validate_transaction. intros Hv. do 3 apply bind_Ok in Hv as (? & _ & Hv).
  destruct (as_array (index body "TransactItems")) as [l|]; [|done]. destruct (_ =? 0)%nat; [done|].
  destruct (100 <? _)%nat; [done|]. apply bind_Ok in Hv as ([] & Hone & Hv). apply bind_Ok in Hv as (? & _ & Hv).
  injection Hv as ->. split; [done|]. apply each_ok_all in Hone. eapply Forall_impl; [exact Hone|]. intros ti.
  cbn beta. destruct (_ =? 1)%nat eqn:E; [|done]. intros _. apply one_member_of. by apply Nat.eqb_eq in E.
Qed.

Lemma transact_locked_outcome s body raw items : sound_accounts s -> Forall member_of items -> typed_transaction s items ->
  wp (transact_locked env uuid body raw items) s (all_or_nothing s items).
Proof.
  intros Ss Hmem Hty. unfold transact_locked. cbv zeta.
  assert (Hsame : tables_are s (rows_in s) s) by (by apply tables_are_refl).
  apply reads_then with (P := fun _ => True); [|done|].
  { unfold for_each. eapply reads_bind; [apply (reads_map_each _ _ _ (fun _ _ => True))|done].
    apply Forall_forall. intros ti _. apply reads_data_table. done. }
  intros _ _. eapply reads_then; [apply (reads_map_each _ _ _ (fun ti _ => checked s ti))|done|].
  { eapply Forall_impl; [exact Hty|]. intros ti. by apply upfront_checks. }
  intros bytes Hck%Forall2_first. apply wp_bind, wp_check. destruct (_ <? _)%Z; [done|].
  eapply reads_then; [apply distinct_keys_distinct|done|]. intros [] Hd.
  eapply reads_then; [apply (reads_map_each _ _ _ (reason_of s))|done|].
  { eapply Forall_impl; [apply Forall_and; split; [exact Hty|exact Hck]|]. intros ti [Ht Hc]. by apply judge_reason. }
  intros reasons Hr. destruct (existsb _ reasons) eqn:Ex.
  { apply wp_ret. split; [by eapply eq_sym, Forall2_length|]. split; [|done]. apply existsb_exists in Ex as (x & Hx & Hn).
    apply Exists_exists. exists x. split; [by apply list_elem_of_In|]. by destruct (String.eqb_spec (reason_code x) "None"). }
  assert (Hmet : Forall (met s) items).
  { apply not_true_iff_false in Ex. clear -Hr Ex. induction Hr as [|ti r items reasons Ht _ IH]; [constructor|].
    cbn [existsb] in Ex. destruct (String.eqb_spec (reason_code r) "None") as [En|]; [|by destruct Ex].
    constructor; [by apply Ht|]. by apply IH. }
  assert (Hready : Forall (ready s) items).
  { unfold typed_transaction in Hty. rewrite Forall_forall in Hmem, Hty, Hck, Hmet. apply Forall_forall. intros ti Hin. split; auto. }
  pose proof (apply_all_outcome s (negb (String.eqb (return_consumed_mode body) "NONE")) items Ss Hready 0 [] [] s
    ltac:(constructor) ltac:(by intros ? ? ?%not_elem_of_nil) Hd Hsame) as Hall.
  unfold wp in Hall |- *. destruct (apply_all _ _ _ 0 items s) as [[s' [l|[j e]]]|]; [| |done].
  - eapply wp_mono; [by apply commit_keeps|]. intros [[[res|res|rs] effs]|e] s''; done.
  - destruct Hall as [Hj Hsp]. destruct (failed_reasons j e items) as [Hl Hx]; [lia|]. split; [exact Hl|]. split; [exact Hx|].
    by apply revert_restores.
Qed.

Lemma tables_are_sound s m s' : tables_are s m s' -> sound_accounts s'.
Proof.
  intros Ht id t' E. specialize (Ht id). rewrite E in Ht. destruct (account_tables s !! id); [|done]. by destruct Ht.
Qed.

Lemma all_or_nothing_sound s items r s' : all_or_nothing s items r s' -> sound_accounts s'.
Proof.
  unfold all_or_nothing. destruct r as [[[x|x|l] effs]|e].
  - intros [_ Ht]. by eapply tables_are_sound.
  - intros Ht. by eapply tables_are_sound.
  - intros (_ & _ & Ht). by eapply tables_are_sound.
  - intros Ht. by eapply tables_are_sound.
Qed.

(** C7 (refinement): TransactWriteItems is all or nothing.  On sound tables a
    transaction always returns.  When it commits, every condition held on the row
    its action aims at and the tables, of whichever accounts, have exactly the
    rows that the actions make of the rows before the transaction; when it is
    canceled, refused or replayed, every row is as it was, also when an action
    of the apply pass failed after others had been written.  A cancellation has
    one reason for each action and one of them says why.  The tables stay sound. *)
Theorem transaction_all_or_nothing body raw s : sound_accounts s ->
  (forall items, as_array (index body "TransactItems") = Some items -> typed_transaction s items) ->
  exists s' r, transact_write_items env uuid body raw s = Some (s', r) /\ sound_accounts s'
    /\ match validate_transaction body with
       | Err e => s' = s /\ r = Err e
       | Ok items => all_or_nothing s items r s'
       end.
Proof.
  intros Ss Hty. unfold transact_write_items. destruct (validate_transaction body) as [items|e] eqn:Ev; [|by exists s, (Err e)].
  destruct (validated_members _ _ Ev) as [Ei Hmem]. specialize (Hty items Ei).
  assert (Hsame : tables_are s (rows_in s) s) by (by apply tables_are_refl).
  assert (Hwp : forall c, wp (transact_locked env uuid body raw items) (with_cache s c) (all_or_nothing s items)).
  { intros c. exact (transact_locked_outcome (with_cache s c) body raw items Ss Hmem Hty). }
  assert (Hdone : forall (m : option (Accounts * Result AwsServiceError (TxnReply * list Effect))),
    match m with Some (s', r) => all_or_nothing s items r s' | None => False end ->
    exists s' r, m = Some (s', r) /\ sound_accounts s' /\ all_or_nothing s items r s').
  { intros [[s' r]|]; [|done]. intros Ho. exists s', r. split; [done|]. split; [by eapply all_or_nothing_sound|done]. }
  apply Hdone. unfold op_bind at 1. cbn [check]. unfold op_bind.
  destruct (as_str (index body "ClientRequestToken")) as [token|].
  - unfold transact_idempotency_lookup. set (c := filter _ (idempotency s)). cbv zeta.
    destruct (c !! (account_id env, token)) as [entry|]; [|apply Hwp].
    destruct (request_hash entry =? body_hash raw)%Z; exact Hsame.
  - assert (s = with_cache s (idempotency s)) as Hs by (by destruct s). pose proof (Hwp (idempotency s)) as Hw.
    rewrite <- Hs in Hw. exact Hw.
Qed.

(** *** Retries *)

Lemma bind_committed {A B} (m : Txn A) (f : A -> Txn B) s s' b : op_bind m f s = Some (s', Ok b) ->
  exists s1 a, m s = Some (s1, Ok a) /\ f a s1 = Some (s', Ok b).
Proof. unfold op_bind. destruct (m s) as [[s1 [a|e]]|]; [|done..]. eauto. Qed.

(** *** The cache *)

(** The replay of a result differs in the capacity it reports. *)
Definition replays (result replay : Value) : Prop := forall f, f <> "ConsumedCapacity" -> index replay f = index result f.

Lemma capacity_field_other l icm f : f <> "ConsumedCapacity" -> index (VObject (capacity_field l ++ icm)) f = index (VObject icm) f.
Proof.
  intros Hf. destruct l; [done|]. unfold index, get. cbn [capacity_field app as_object mbind option_bind assoc].
  destruct (String.eqb_spec "ConsumedCapacity" f); [congruence|done].
Qed.

Lemma records_keep_cache l s : idempotency (foldl (add_pending_record env) s l) = idempotency s.
Proof.
  revert s. induction l as [|w l IH]; intros s; [done|]. cbn [foldl]. rewrite IH. unfold add_pending_record. by destruct (w_record w).
Qed.

(** What a commit leaves in the cache. *)
Lemma commit_cache body raw l s s' r : commit env uuid body raw l s = Some (s', r) ->
  exists result replay effs, r = Ok (Committed result, effs) /\ replays result replay
    /\ idempotency s' = match as_str (index body "ClientRequestToken") with
                        | Some token => <[(account_id env, token) := mkEntry (now env) (body_hash raw) replay]> (idempotency s)
                        | None => idempotency s
                        end.
Proof.
  unfold commit. cbv zeta. destruct (deliver_pending _ _ _ _) as [effects seq]. intros [= <- <-]. eexists _, _, _. split; [reflexivity|].
  split; [|cbn [idempotency]; destruct (as_str _); cbn; by rewrite records_keep_cache].
  intros f Hf. match goal with |- context [match ?c with [] => _ | _ => _ end] => destruct c eqn:Ec end; [done|].
  rewrite <- Ec. by rewrite !capacity_field_other.
Qed.

(** A computation that leaves the cache alone. *)
Definition keeps_cache {E A} (m : Run Accounts E A) : Prop := forall s s' r, m s = Some (s', r) -> idempotency s' = idempotency s.

Lemma keeps_bind {A B} (m : Txn A) (f : A -> Txn B) : keeps_cache m -> (forall a, keeps_cache (f a)) -> keeps_cache (op_bind m f).
Proof.
  intros Hm Hf s s' r. unfold op_bind. destruct (m s) as [[s1 [a|e]]|] eqn:E; [|intros [= <- _]; by eapply Hm|done].
  intros E2. rewrite (Hf a _ _ _ E2). by eapply Hm.
Qed.

Lemma keeps_check {E A} (r : Result E A) : keeps_cache (check r).
Proof. by intros s s' r' [= <- _]. Qed.

Lemma keeps_ret {A} (a : A) : keeps_cache (op_ret a : Txn A).
Proof. by intros s s' r [= <- _]. Qed.

Lemma keeps_data_table name : keeps_cache (data_table env name).
Proof. by intros s s' r [= <- _]. Qed.

Lemma keeps_existing t key : keeps_cache (existing_row t key).
Proof. intros s s' r. unfold existing_row. by intros (x & _ & [= <- _])%bind_Some. Qed.

Lemma keeps_map_each {A B} (f : A -> Txn B) l : (forall x, keeps_cache (f x)) -> keeps_cache (map_each f l).
Proof.
  intros Hf. induction l as [|x l IH]; cbn [map_each]; [apply keeps_ret|]. apply keeps_bind; [apply Hf|]. intros y.
  apply keeps_bind; [exact IH|]. intros ys. apply keeps_ret.
Qed.

Lemma keeps_on_owned {A} name (op : Op A) : keeps_cache (on_owned env name op).
Proof.
  intros s s' r. unfold on_owned. destruct (account_tables s !! _) as [t|]; [|by intros [= <- _]].
  by intros ([[t' seq] r'] & _ & [= <- _])%bind_Some.
Qed.

#[local] Hint Resolve keeps_check keeps_ret keeps_data_table keeps_existing keeps_on_owned keeps_bind keeps_map_each : cache.

Ltac keeps := repeat first [progress eauto with cache nocore | apply keeps_bind; [|intros ?] | case_match].

Lemma keeps_upfront ti : keeps_cache (upfront env ti).
Proof. unfold upfront. keeps. Qed.

Lemma keeps_judge ti : keeps_cache (judge env ti).
Proof. unfold judge. keeps. Qed.

Lemma keeps_distinct seen items : keeps_cache (distinct_keys env seen items).
Proof. revert seen. induction items as [|ti items IH]; intros seen; cbn [distinct_keys]; keeps. Qed.

Lemma keeps_action wants ti : keeps_cache (apply_action env uuid wants ti).
Proof. unfold apply_action. keeps. Qed.

Lemma keeps_apply wants i items : keeps_cache (apply_all env uuid wants i items).
Proof.
  revert i. induction items as [|ti items IH]; intros i s s' r; cbn [apply_all]; [by intros [= <- _]|].
  destruct (apply_action env uuid wants ti s) as [[s1 [w|e]]|] eqn:E; [|intros [= <- _]; by eapply keeps_action|done].
  unfold op_bind. destruct (apply_all env uuid wants (S i) items s1) as [[s2 [l|e]]|] eqn:E2; [| |done]; intros [= <- _];
    rewrite (IH _ _ _ _ E2); by eapply keeps_action.
Qed.

(** The cache after the locked part: another entry only under its own token. *)
Lemma locked_cache body raw items s s' r : transact_locked env uuid body raw items s = Some (s', r) ->
  match r with
  | Ok (Committed result, _) => exists replay, replays result replay
      /\ idempotency s' = match as_str (index body "ClientRequestToken") with
                          | Some token => <[(account_id env, token) := mkEntry (now env) (body_hash raw) replay]> (idempotency s)
                          | None => idempotency s
                          end
  | _ => idempotency s' = idempotency s
  end.
Proof.
  unfold transact_locked. cbv zeta. intros Hl.
  set (P := fun (s0 : Accounts) (o : option (Accounts * Result AwsServiceError (TxnReply * list Effect))) => o = Some (s', r) -> idempotency s0 = idempotency s ->
    match r with
    | Ok (Committed result, _) => exists replay, replays result replay
      /\ idempotency s' = match as_str (index body "ClientRequestToken") with
                          | Some token => <[(account_id env, token) := mkEntry (now env) (body_hash raw) replay]> (idempotency s)
                          | None => idempotency s
                          end
    | _ => idempotency s' = idempotency s
    end).
  assert (Hstep : forall {A} (m : Txn A) (f : A -> Txn (TxnReply * list Effect)) s0, keeps_cache m ->
    (forall a s1, P s1 (f a s1)) -> P s0 (op_bind m f s0)).
  { intros A m f s0 Hm Hf. unfold P, op_bind. destruct (m s0) as [[s1 [a|e]]|] eqn:E; [| |done].
    - intros E1 E0. eapply Hf; [exact E1|]. by rewrite (Hm _ _ _ E).
    - intros [= <- <-] E0. by rewrite (Hm _ _ _ E). }
  revert Hl. cut (P s (transact_locked env uuid body raw items s)); [intros HP Hl; by apply HP|]. unfold transact_locked. cbv zeta.
  apply Hstep; [unfold for_each; keeps|]. intros _ s1. apply Hstep; [apply keeps_map_each, keeps_upfront|]. intros bytes s2.
  apply Hstep; [apply keeps_check|]. intros _ s3. apply Hstep; [apply keeps_distinct|]. intros _ s4.
  apply Hstep; [apply keeps_map_each, keeps_judge|]. intros reasons s5. destruct (existsb _ reasons); [by intros [= <- <-]|].
  destruct (apply_all env uuid _ 0 items s5) as [[s6 [l|[failed e]]]|] eqn:Ea; [| |done].
  - intros Hc E0. destruct (commit_cache _ _ _ _ _ _ Hc) as (result & replay & effs & -> & Hr & ->). exists replay. split; [done|].
    rewrite (keeps_apply _ _ _ _ _ _ Ea). by rewrite E0.
  - intros [= <- <-] E0. cbn. by rewrite (keeps_apply _ _ _ _ _ _ Ea).
Qed.

Lemma committed_cached body raw token s s1 result effs : as_str (index body "ClientRequestToken") = Some token ->
  transact_write_items env uuid body raw s = Some (s1, Ok (Committed result, effs)) ->
  (exists items, validate_transaction body = Ok items)
  /\ exists replay, replays result replay
       /\ idempotency s1 !! (account_id env, token) = Some (mkEntry (now env) (body_hash raw) replay).
Proof.
  intros Et Hc. unfold transact_write_items in Hc. apply bind_committed in Hc as (s2 & items & Hv & Hc).
  unfold check in Hv. injection Hv as <- Hv. split; [by exists items|].
  apply bind_committed in Hc as (s3 & [r|] & _ & Hc); [done|]. apply locked_cache in Hc as (replay & Hr & Hi). exists replay. split; [done|].
  rewrite Hi, Et. apply lookup_insert_eq.
Qed.

(** An entry within its window survives every transaction. *)
Lemma entry_survives body raw a token entry s s' r : transact_write_items env uuid body raw s = Some (s', r) ->
  idempotency s !! (a, token) = Some entry -> (now env - stored_at entry < TRANSACT_IDEMPOTENCY_WINDOW)%Z ->
  idempotency s' !! (a, token) = Some entry.
Proof.
  intros Hc He Hn. unfold transact_write_items in Hc. unfold op_bind at 1, check in Hc.
  destruct (validate_transaction body) as [items|e]; [|by injection Hc as <- _].
  destruct (as_str (index body "ClientRequestToken")) as [token'|] eqn:Et.
  - unfold op_bind, transact_idempotency_lookup in Hc. cbv zeta in Hc. set (c := filter _ (idempotency s)) in Hc.
    assert (Hl : c !! (a, token) = Some entry) by (apply map_lookup_filter_Some; split; [done|exact Hn]).
    destruct (c !! (account_id env, token')) as [entry'|] eqn:El.
    + destruct (request_hash entry' =? body_hash raw)%Z; by injection Hc as <- _.
    + apply locked_cache in Hc. destruct r as [[[result|x|x] effs]|e]; [|by rewrite Hc..].
      destruct Hc as (replay & _ & ->). rewrite Et, lookup_insert_ne; [done|]. intros [= E1 E2]. rewrite E1, E2, Hl in El. done.
  - unfold op_bind at 1, op_ret in Hc. apply locked_cache in Hc. destruct r as [[[result|x|x] effs]|e]; [|by rewrite Hc..].
    destruct Hc as (replay & _ & ->). by rewrite Et.
Qed.

End Atomic.

(** *** Retries *)

(** What may happen between a transaction and its retry, while its window is
    open: transactions of any account, with any token, and operations that do
    not use the cache. *)
Inductive meanwhile `{Base64Decode} `{JsonText} `{ItemText} `{TextHash} (limit : Z) : Accounts -> Accounts -> Prop :=
| other_transaction env uuid body raw s s' r :
    (now env < limit)%Z -> transact_write_items env uuid body raw s = Some (s', r) -> meanwhile limit s s'
| other_operation s s' : idempotency s' = idempotency s -> meanwhile limit s s'.

Lemma meanwhile_entry `{Base64Decode} `{JsonText} `{ItemText} `{TextHash} a token entry s s' :
  rtc (meanwhile (stored_at entry + TRANSACT_IDEMPOTENCY_WINDOW)) s s' ->
  idempotency s !! (a, token) = Some entry -> idempotency s' !! (a, token) = Some entry.
Proof.
  induction 1 as [|s s1 s' Hs _ IH]; [done|]. intros He. apply IH. destruct Hs as [env uuid body raw s s1 r Hn Hc|s s1 E].
  - eapply entry_survives; [exact Hc|exact He|lia].
  - by rewrite E.
Qed.

(** C18 (functional): a transaction with a client request token is applied once.  After it committed, and
    whatever transactions and other operations happen while the window is open,
    the same request of the same account is answered with one and the same
    stored reply, which is the first reply but for the consumed capacity, and
    changes no table; a valid request of the account under the token whose body
    hashes otherwise is refused, and changes no table either.  The other
    operations are those that leave the idempotency cache alone ([meanwhile]). *)
Theorem retry_applies_once `{Base64Decode} `{JsonText} `{ItemText} `{TextHash} (env : Env) (uuid : Z -> string)
  body raw token s s1 result effs :
  as_str (index body "ClientRequestToken") = Some token ->
  transact_write_items env uuid body raw s = Some (s1, Ok (Committed result, effs)) ->
  exists replay, replays result replay
    /\ forall env' uuid' s2, rtc (meanwhile (now env + TRANSACT_IDEMPOTENCY_WINDOW)) s1 s2 ->
       account_id env' = account_id env -> (now env' < now env + TRANSACT_IDEMPOTENCY_WINDOW)%Z ->
       (exists s3, transact_write_items env' uuid' body raw s2 = Some (s3, Ok (Replayed replay, []))
          /\ account_tables s3 = account_tables s2 /\ counter s3 = counter s2)
       /\ forall body' raw' items', as_str (index body' "ClientRequestToken") = Some token -> body_hash raw' <> body_hash raw ->
          validate_transaction body' = Ok items' ->
          exists s3 message fields headers, transact_write_items env' uuid' body' raw' s2
            = Some (s3, Err (AwsError 400 "IdempotentParameterMismatchException" message fields headers))
            /\ account_tables s3 = account_tables s2 /\ counter s3 = counter s2.
Proof.
  intros Et Hc. destruct (committed_cached env uuid _ _ _ _ _ _ _ Et Hc) as [[items Ev] (replay & Hr & Hcache)].
  exists replay. split; [done|]. intros env' uuid' s2 Hm Ha Hn.
  pose proof (meanwhile_entry _ _ (mkEntry (now env) (body_hash raw) replay) _ _ Hm Hcache) as He.
  set (c := filter (fun e => now env' - stored_at e.2 < TRANSACT_IDEMPOTENCY_WINDOW)%Z (idempotency s2)).
  assert (Hl : c !! (account_id env', token) = Some (mkEntry (now env) (body_hash raw) replay)).
  { rewrite Ha. apply map_lookup_filter_Some. split; [done|]. cbn. lia. }
  split.
  - exists (with_cache s2 c). unfold transact_write_items, op_bind. rewrite Ev, Et. cbn [check]. unfold transact_idempotency_lookup. cbv zeta.
    fold c. rewrite Hl. cbn [request_hash]. by rewrite Z.eqb_refl.
  - intros body' raw' items' Et' Hh Ev'. exists (with_cache s2 c). do 3 eexists. unfold transact_write_items, op_bind. rewrite Ev', Et'.
    cbn [check]. unfold transact_idempotency_lookup. cbv zeta. fold c. rewrite Hl. cbn [request_hash].
    destruct (Z.eqb_spec (body_hash raw) (body_hash raw')); [congruence|]. split; [reflexivity|done].
Qed.

(** ** Transactions on a concrete table *)

Module TransactExamples.

#[local] Existing Instance TableWitness.json_printer.
#[local] Existing Instance TableWitness.json_printer_laws.
#[local] Existing Instance TableWitness.base64_none.
#[local] Instance no_item_text : ItemText := fun _ => "".
#[local] Instance lengths : TextHash := {|
  text_hash s := Z.of_nat (String.length s); body_hash s := Z.of_nat (String.length s)
|}.

Import ItemExamples.

Definition uuid0 (seq : Z) : string := print_Z seq.
Definition orders_id : TableId := ("123456789012", "orders").
Definition accounts0 : Accounts := mkAccounts {[ orders_id := orders ]} 7 ∅.

Lemma accounts0_sound : sound_accounts accounts0.
Proof.
  intros id t. cbn [account_tables accounts0]. intros [_ <-]%lookup_singleton_Some. split; [apply new_table_ok|].
  intros i j x y k Hx. by apply elem_of_nil in Hx.
Qed.

Definition put_action (n : string) : Value :=
  VObject [("Put", VObject [("Item", VObject [("id", num n); ("qty", num "007")]); ("TableName", VString "orders")])].
Definition update_action (n expr : string) (v : Value) : Value :=
  VObject [("Update", VObject [("ExpressionAttributeValues", VObject [(":v", v)]); ("Key", VObject [("id", num n)]);
                               ("TableName", VString "orders"); ("UpdateExpression", VString expr)])].

Definition transaction (actions : list Value) : Value :=
  VObject [("ClientRequestToken", VString "t1"); ("TransactItems", VArray actions)].

Lemma put_action_typed n : typed_action (store orders) (put_action n).
Proof.
  unfold typed_action. change (transact_op (put_action n))
    with ("Put", VObject [("Item", VObject [("id", num n); ("qty", num "007")]); ("TableName", VString "orders")]).
  intros a v [-> |[=]]. change (item_of _) with (<["qty" := num "007"]> (<["id" := num n]> ∅ : Item)).
  change (hash_key_name (store orders)) with "id". rewrite lookup_insert_ne, lookup_insert_eq by done.
  intros [= <-]. by exists "N", n.
Qed.

Lemma update_action_typed n expr v : unquoted expr -> (forall p, parse_number n = Some p -> (Z.abs (point p - 1) <= i64_max)%Z) ->
  typed_action (store orders) (update_action n expr v).
Proof.
  intros Hq Hn. unfold typed_action. change (transact_op (update_action n expr v))
    with ("Update", VObject [("ExpressionAttributeValues", VObject [(":v", v)]); ("Key", VObject [("id", num n)]);
                             ("TableName", VString "orders"); ("UpdateExpression", VString expr)]).
  cbv iota beta. change (String.eqb "Update" "Put") with false. cbv iota.
  split; [change (item_of _) with ({[ "id" := num n ]} : Item); by apply number_key_ok|]. intros _. split.
  - intros a [-> |[=]]. by split_and!.
  - intros e. change (as_str _) with (Some expr). by intros [= <-].
  - change (parse_expression_attribute_names _) with (∅ : gmap string string). intros k [x Ex]. by rewrite lookup_empty in Ex.
Qed.

Lemma typed_in ti : target_id env0 ti = orders_id -> typed_action (store orders) ti ->
  forall t, account_tables accounts0 !! target_id env0 ti = Some t -> typed_action (store t) ti.
Proof. intros -> Hty t. cbn [account_tables accounts0]. by intros [_ <-]%lookup_singleton_Some. Qed.

(** A put is written before the update fails: nothing stays. *)
Definition failing : list Value := [put_action "1"; update_action "2" "ADD tag :v" (str "x")].

Lemma failing_typed items : as_array (index (transaction failing) "TransactItems") = Some items ->
  typed_transaction env0 accounts0 items.
Proof.
  intros [= <-]. apply Forall_cons_2; [|apply Forall_cons_2; [|apply Forall_nil_2]]; apply typed_in.
  - vm_compute. reflexivity.
  - apply put_action_typed.
  - vm_compute. reflexivity.
  - apply update_action_typed; [done|]. by intros p [= <-].
Qed.

Lemma failing_codes :
  match transact_write_items env0 uuid0 (transaction failing) "raw" accounts0 with
  | Some (_, Ok (Canceled reasons, _)) => Some (reason_code <$> reasons)
  | _ => None
  end = Some ["None"; "ValidationError"].
Proof. vm_compute. reflexivity. Qed.

Lemma transaction_all_or_nothing_witness : exists s' reasons effs,
  transact_write_items env0 uuid0 (transaction failing) "raw" accounts0 = Some (s', Ok (Canceled reasons, effs))
  /\ (reason_code <$> reasons) = ["None"; "ValidationError"] /\ tables_are accounts0 (rows_in accounts0) s'.
Proof.
  destruct (transaction_all_or_nothing env0 uuid0 (transaction failing) "raw" accounts0 accounts0_sound failing_typed)
    as (s' & r & E & _ & Ho).
  assert (validate_transaction (transaction failing) = Ok failing) as Hv by (vm_compute; reflexivity). rewrite Hv in Ho.
  pose proof failing_codes as Hc. rewrite E in Hc. destruct r as [[[x|x|reasons] effs]|e]; try discriminate Hc.
  exists s', reasons, effs. split; [exact E|]. split; [by apply (inj Some) in Hc|apply Ho].
Defined.

(** A commit, and its retry a minute later. *)
Definition passing : list Value := [put_action "1"; update_action "2" "SET n = :v" (num "1.50")].

Definition later : Env := mkEnv (100 + 60 * nanos) "u3" "u4" "123456789012" "us-east-1" true true.

Definition outcome (m : option (Accounts * Result AwsServiceError (TxnReply * list Effect)))
  : option (option (list Item) * option (list Effect)) :=
  (fun p => ((fun t => (rows (items (store t))).*2) <$> account_tables p.1 !! orders_id,
             match p.2 with Ok (Committed _, effs) => Some effs | _ => None end)) <$> m.

Lemma passing_outcome : outcome (transact_write_items env0 uuid0 (transaction passing) "raw" accounts0)
  = Some (Some [stored; <["id" := num "2"]> {[ "n" := num "1.5" ]}], Some []).
Proof. vm_compute. reflexivity. Qed.

(** Another transaction in between, under a token of its own. *)
Definition another : Value := VObject [("ClientRequestToken", VString "t2"); ("TransactItems", VArray [put_action "3"])].

Lemma retry_applies_once_witness : exists s1 s2 s3 result replay r,
  transact_write_items env0 uuid0 (transaction passing) "raw" accounts0 = Some (s1, Ok (Committed result, []))
  /\ (fun t => (rows (items (store t))).*2) <$> account_tables s1 !! orders_id
     = Some [stored; <["id" := num "2"]> {[ "n" := num "1.5" ]}]
  /\ transact_write_items later uuid0 another "other raw" s1 = Some (s2, Ok r)
  /\ transact_write_items later uuid0 (transaction passing) "raw" s2 = Some (s3, Ok (Replayed replay, []))
  /\ account_tables s3 = account_tables s2.
Proof.
  pose proof passing_outcome as Ho.
  destruct (transact_write_items env0 uuid0 (transaction passing) "raw" accounts0) as [[s1 [[[result|x|x] effs]|e]]|] eqn:E;
    unfold outcome in Ho; cbn [fmap option_fmap option_map fst snd] in Ho; try discriminate Ho.
  apply (inj Some), pair_eq in Ho as [Hr [= ->]].
  destruct (retry_applies_once env0 uuid0 (transaction passing) "raw" "t1" accounts0 s1 result []) as (replay & _ & Hretry);
    [reflexivity|exact E|].
  destruct (transact_write_items later uuid0 another "other raw" s1) as [[s2 [r|e]]|] eqn:E2;
    [|exfalso; vm_compute in E; injection E as <- _; vm_compute in E2; discriminate E2..].
  destruct (Hretry later uuid0 s2) as [(s3 & E3 & Et & _) _]; [|reflexivity|vm_compute; reflexivity|].
  - apply rtc_once. eapply (other_transaction _ later uuid0 another "other raw"); [vm_compute; reflexivity|exact E2].
  - exists s1, s2, s3, result, replay, r. split; [reflexivity|]. split; [exact Hr|]. split; [exact E2|]. split; [exact E3|exact Et].
Defined.

(** *** Departures *)

(** A key over the size limit: PutItem refuses the item, a transaction writes it. *)
Definition named : Table :=
  mkTable "names" "arn:aws:dynamodb:us-east-1:123456789012:table/names"
    (new_table [mkKeySchemaElement "id" "HASH"]) [mkAttributeDefinition "id" "S"] [] [] [] false None None [] None None.

Definition long_key : Value := str (String.concat "" (repeat "a" (Z.to_nat 2049))).

Example transaction_accepts_long_key :
  (match put_item env0 (VObject [("Item", VObject [("id", long_key)]); ("TableName", VString "names")])
           (mkRegion {[ "names" := named ]} 0) with
   | Some (_, Err (AwsError _ _ message _ _)) => message
   | _ => ""
   end = "One or more parameter values were invalid: Size of hashkey has exceeded the maximum size limit of2048 bytes")
  /\ match transact_write_items env0 uuid0 (VObject [("TransactItems",
             VArray [VObject [("Put", VObject [("Item", VObject [("id", long_key)]); ("TableName", VString "names")])]])]) "raw"
             (mkAccounts {[ ("123456789012", "names") := named ]} 0 ∅) with
     | Some (s, Ok (Committed _, _)) => (fun t => item_count (store t)) <$> account_tables s !! ("123456789012", "names")
     | _ => None
     end = Some 1%Z.
Proof. vm_compute. done. Qed.

End TransactExamples.
