(* ===== verification/DdbQuery.v ===== *)
(** * DynamoDB reads: Query and Scan

    The two paged reads ([fakecloud-dynamodb/src/service/queries.rs]) with the
    key helpers they call ([helpers/keys.rs]): request checks, the rows a read
    goes over, the page, its cursor, its filter and what it charges.

    A read is a function of the table under the read lock; its only effect,
    counted accesses, is applied under a second lock.  [sort_by] is a stable
    insertion; a Rust sort gives the same list for every order that is total.
    [partition_point] counts the leading run, which is what the binary search
    finds on a partitioned list.  Tables have no vector index. *)

From Stdlib Require Import ZArith Lia Bool String Ascii SpecFloat.
From stdpp Require Import base option list strings gmap sorting.
From S2P Require Import Prelude Json BTree Arn Text Sqs DdbNumber DdbValue DdbReserved DdbExpr DdbTable DdbUpdate DdbCondition DdbItems DdbTransact.
Import Sqs(AwsServiceError, AwsError, aws_error).

Local Open Scope string_scope.

(** ** Keys *)

Definition parse_key_map (v : Value) : option Item :=
  match as_object v with
  | Some [] | None => None
  | Some m => Some (object_map m)
  end.

Definition item_matches_key (item key : Item) (hash_key : string) (range_key : option string) : bool :=
  match item !! hash_key, key !! hash_key with
  | Some a, Some b => value_eqb a b
  | _, _ => false
  end
  && match range_key with
     | None => true
     | Some rk => match item !! rk, key !! rk with
                  | Some a, Some b => value_eqb a b
                  | None, None => true
                  | _, _ => false
                  end
     end.

Definition extract_key_for_schema (item : Item) (hash_key : string) (range_key : option string) : Item :=
  let key : Item := match item !! hash_key with Some v => {[ hash_key := v ]} | None => ∅ end in
  match range_key with
  | Some rk => match item !! rk with Some v => <[rk := v]> key | None => key end
  | None => key
  end.

(** ** Request checks *)

Definition SELECT_VALUES : list string := ["SPECIFIC_ATTRIBUTES"; "COUNT"; "ALL_ATTRIBUTES"; "ALL_PROJECTED_ATTRIBUTES"].

Definition select_member : EnumMember := mkEnumMember "Select" "select" SELECT_VALUES.

Definition resolve_select (body : Value) (is_index_query is_query : bool) : Result AwsServiceError bool :=
  let projection_param := List.find (fun p => negb (is_null (index body p))) ["ProjectionExpression"; "AttributesToGet"] in
  match as_str (index body "Select") with
  | None => Ok false
  | Some select =>
      let target := if String.eqb select "ALL_ATTRIBUTES" then Some "ALL_ATTRIBUTES"
                    else if String.eqb select "ALL_PROJECTED_ATTRIBUTES" then Some "ALL_PROJECTED_ATTRIBUTES"
                    else if String.eqb select "COUNT" then Some "only the Count"
                    else None in
      match projection_param, target with
      | Some param, Some target => Err (validation_error ("Cannot specify the " +:+ param +:+ " when choosing to get " +:+ target))
      | _, _ =>
          if String.eqb select "ALL_PROJECTED_ATTRIBUTES" && negb is_index_query then
            Err (validation_error "ALL_PROJECTED_ATTRIBUTES can be used only when Querying using an IndexName")
          else if String.eqb select "SPECIFIC_ATTRIBUTES" && negb (bool_decide (is_Some projection_param)) then
            let message := "Must specify the AttributesToGet or ProjectionExpression when choosing "
                           +:+ "to get SPECIFIC_ATTRIBUTES" in
            Err (if is_query then framework_validation_error [message] else validation_error message)
          else Ok (String.eqb select "COUNT")
      end
  end.

Definition validate_limit (body : Value) : Result AwsServiceError (option nat) :=
  match as_i64 (index body "Limit") with
  | Some l => if (l <? 1)%Z then Err (validation_error "Limit must be >= 1") else Ok (Some (Z.to_nat l))
  | None => Ok None
  end.

Section Resolve.
Context `{Base64Decode} `{JsonText}.

Definition resolve_legacy_or_expression (body : Value) (expression_param legacy_param : string) (role : LegacyConditionRole)
  (ph : Placeholders) : Result AwsServiceError (option string * Placeholders) :=
  let op := default "AND" (as_str (index body "ConditionalOperator")) in
  let expression := match trim <$> as_str (index body expression_param) with
                    | Some s => if is_empty_str s then None else Some s
                    | None => None
                    end in
  let legacy := match as_object (index body legacy_param) with
                | Some [] | None => None
                | Some m => Some m
                end in
  match expression, legacy with
  | Some _, Some _ =>
      Err (validation_error ("Can not use both expression and non-expression parameters in the same request: "
        +:+ "Non-expression parameters: {" +:+ legacy_param +:+ "} Expression parameters: {" +:+ expression_param +:+ "}"))
  | Some expr, None => Ok (Some expr, ph)
  | None, Some m => let '(ph', r) := translate_legacy_conditions m role op ph in text ← r; Ok (Some text, ph')
  | None, None => Ok (None, ph)
  end.

End Resolve.

(** *** The partition key of a Query *)

Definition trim_quotes (s : string) : string := trim_end_matches dquote (trim_start_matches dquote s).

(** [BETWEEN] between white space or the ends of the text. *)
Definition word_between (upper : string) (i : nat) : bool :=
  starts_with "BETWEEN" (string_drop i upper)
  && ((i =? 0)%nat || from_option is_ascii_whitespace false (char_at upper (i - 1)))
  && ((String.length upper <=? i + 7)%nat || from_option is_ascii_whitespace false (char_at upper (i + 7))).

(** The operator of a part and what stands before it. *)
Definition part_operator (part : string) : option (string * string) :=
  let upper := to_ascii_uppercase part in
  match List.find (word_between upper) (List.seq 0 (String.length upper)) with
  | Some i => Some ("BETWEEN", trim (string_take i part))
  | None => head (omap (fun op => (fun p => (op, trim p.1)) <$> split_once op part) ["<="; ">="; "<>"; "="; "<"; ">"])
  end.

Definition is_begins_with (part : string) : bool :=
  let lower := to_ascii_lowercase part in starts_with "begins_with(" lower || starts_with "begins_with (" lower.

Fixpoint partition_key_parts (parts : list string) (partition_key : string) (names : gmap string string) (seen : bool)
  : Result AwsServiceError bool :=
  match parts with
  | [] => Ok seen
  | raw :: more =>
      let part := trim (strip_outer_parens (trim raw)) in
      if is_begins_with part then partition_key_parts more partition_key names seen
      else match part_operator part with
           | None => partition_key_parts more partition_key names seen
           | Some (op, lhs) =>
               if String.eqb (resolve_attr_name (trim_quotes lhs) names) partition_key then
                 if String.eqb op "=" then partition_key_parts more partition_key names true
                 else Err (validation_error "Query key condition not supported")
               else partition_key_parts more partition_key names seen
           end
  end.

Definition validate_partition_key_condition (key_condition partition_key : string) (names : gmap string string)
  : Result AwsServiceError unit :=
  seen ← partition_key_parts (split_on_and key_condition) partition_key names false;
  if seen : bool then Ok tt
  else Err (validation_error ("Query condition missed key schema element: " +:+ partition_key)).

(** ** Pages *)

Definition MAX_PAGE_BYTES : Z := 1024 * 1024.
Definition MAX_TOTAL_SEGMENTS : Z := 1000000.

(** The rows a read goes over, and what it returns of them. *)
Record Page := mkPage {
  page_items : option (list Item);
  page_count : nat;
  scanned_count : nat;
  last_evaluated_key : option Item;
  page_capacity : Value
}.

(** [slice::sort_by], stable. *)
Fixpoint insert_by {A} (le : A -> A -> bool) (x : A) (l : list A) : list A :=
  match l with
  | [] => [x]
  | y :: l' => if le x y then x :: l else y :: insert_by le x l'
  end.

Definition sort_by {A} (le : A -> A -> bool) (l : list A) : list A := foldr (insert_by le) [] l.

Fixpoint partition_point {A} (p : A -> bool) (l : list A) : nat :=
  match l with
  | [] => 0
  | x :: l' => if p x then S (partition_point p l') else 0
  end.

(** A secondary index by name: a global one first. *)
Definition find_index (l : list SecondaryIndex) (name : string) : option SecondaryIndex :=
  List.find (fun i => String.eqb (index_name i) name) l.

Definition read_index (t : Table) (name : string) : option SecondaryIndex :=
  match find_index (gsi t) name with Some g => Some g | None => find_index (lsi t) name end.

Definition index_attr (ix : SecondaryIndex) (ty : string) : option string :=
  attribute_name <$> List.find (fun k => String.eqb (key_type k) ty) (index_schema ix).

Definition index_attrs (ix : SecondaryIndex) : list string := attribute_name <$> index_schema ix.

Definition start_key_matches_schema (t : Table) (esk : Item) (index_keys : list string) : bool :=
  let required := foldl (fun acc k => if str_in k acc then acc else (acc ++ [k])%list) (table_key_names (store t)) index_keys in
  (size esk =? length required)%nat
  && forallb (fun attr => match esk !! attr with
                          | None => false
                          | Some v => match declared_type t attr with
                                      | Some ty => bool_decide (value_type v = Some ty)
                                      | None => true
                                      end
                          end) required.

Section Reads.
Context `{Base64Decode} `{JsonText} `{TextHash}.

Definition item_bytes (item : Item) : Z := item_size item.

Fixpoint page_from (rows : list Item) (limit : option nat) (count : nat) (bytes : Z) : nat :=
  match rows with
  | [] => count
  | row :: more =>
      let count := S count in
      let bytes := (bytes + item_bytes row)%Z in
      if match limit with Some l => (l <=? count)%nat | None => false end || (MAX_PAGE_BYTES <=? bytes)%Z then count
      else page_from more limit count bytes
  end.

Definition page_length (rows : list Item) (limit : option nat) : nat := page_from rows limit 0 0.

(** The entry of an index for an item. *)
Definition index_entry (t : Table) (ix : SecondaryIndex) (item : Item) : Item :=
  apply_index_projection item (index_projection ix) (index_attrs ix) (hash_key_name (store t)) (range_key_name (store t)).

Definition read_consumed (t : Table) (index : option string) (examined : list Item) (consistent : bool) : Consumed :=
  let gsi := index ≫= find_index (gsi t) in
  let lsi := index ≫= find_index (lsi t) in
  match (match gsi with Some g => Some g | None => lsi end) with
  | None => consumed_table (read_units (foldr Z.add 0%Z (item_size <$> examined)) consistent)
  | Some ix =>
      let units := read_units (foldr Z.add 0%Z ((fun item => item_size (index_entry t ix item)) <$> examined)) consistent in
      if bool_decide (is_Some gsi) then mkConsumed (f64_of_Z 0) {[ index_name ix := units ]} ∅
      else mkConsumed (f64_of_Z 0) ∅ {[ index_name ix := units ]}
  end.

(** A filter sees what the index has. *)
Definition filter_row (t : Table) (ix : option SecondaryIndex) (ph : Placeholders) (filter : string) (item : Item) : bool :=
  let holds (item : Item) := match parse_condition_lenient value_text filter ph.1 ph.2 with
                             | Some ast => eval_cond ast item ph.2
                             | None => evaluate_filter_expression item ph.1 ph.2 filter
                             end in
  match ix with
  | Some ix => if String.eqb (projection_type (index_projection ix)) "ALL" then holds item else holds (index_entry t ix item)
  | None => holds item
  end.

(** The page of the examined rows: filtered, projected and charged; and the
    keys counted as accessed. *)
Definition finish_page (body : Value) (name : string) (t : Table) (index : option string) (count_only : bool)
  (filter : option string) (ph : Placeholders) (examined : list Item) (last : option Item) : Page * list string :=
  let ix := index ≫= read_index t in
  let mode := return_consumed_mode body in
  let consistent := default false (as_bool (Json.index body "ConsistentRead")) in
  let consumed := if String.eqb mode "NONE" then None else Some (read_consumed t index examined consistent) in
  let matched := match filter with Some f => List.filter (filter_row t ix ph f) examined | None => examined end in
  let accessed := if String.eqb (contributor_insights_status (store t)) "ENABLED"
                  then omap (fun item => value_text <$> item !! hash_key_name (store t)) matched else [] in
  let shown (item : Item) := let projected := project_item item body in
                             match ix with Some ix => index_entry t ix projected | None => projected end in
  (mkPage (if count_only then None else Some (shown <$> matched)) (length matched) (length examined) last
     (capacity_document mode name consumed), accessed).

(** *** Query *)

Definition no_index (name : string) : AwsServiceError :=
  validation_error ("The table does not have the specified index: " +:+ name).

Definition no_consistent_reads : AwsServiceError :=
  validation_error "Consistent reads are not supported on global secondary indexes".

(** The partition and sort key that a Query goes by. *)
Definition query_keys (t : Table) (index : option string) (consistent : bool)
  : Result AwsServiceError (string * option string) :=
  match index with
  | None => Ok (hash_key_name (store t), range_key_name (store t))
  | Some name =>
      let keys ix := (default "" (index_attr ix "HASH"), index_attr ix "RANGE") in
      match find_index (gsi t) name with
      | Some g => if consistent : bool then Err no_consistent_reads else Ok (keys g)
      | None => match find_index (lsi t) name with
                | Some l => Ok (keys l)
                | None => Err (no_index name)
                end
      end
  end.

Definition key_holds (ph : Placeholders) (condition : string) (item : Item) : bool :=
  match parse_condition_lenient value_text condition ph.1 ph.2 with
  | Some ast => eval_cond ast item ph.2
  | None => evaluate_key_condition item ph.1 ph.2 condition
  end.

(** The rows of a Query, in the order it returns them. *)
Definition query_rows (t : Table) (index : option string) (hash_key : string) (range_key : option string)
  (forward : bool) (ph : Placeholders) (condition : string) : list Item :=
  let in_index (item : Item) := bool_decide (is_Some (item !! hash_key))
        && match range_key with Some rk => bool_decide (is_Some (item !! rk)) | None => true end in
  let rows := List.filter (fun item => (if index then in_index item else true) && key_holds ph condition item)
                (items_iter (items (store t))) in
  match range_key with
  | None => rows
  | Some rk =>
      let sorted := sort_by (fun a b => match compare_attribute_values (a !! rk) (b !! rk) with Gt => false | _ => true end) rows in
      if forward then sorted else reverse sorted
  end.

(** Whether the keys of an index query are not the table's. *)
Definition is_gsi_query (t : Table) (index : option string) (hash_key : string) (range_key : option string) : bool :=
  bool_decide (is_Some index)
  && negb (String.eqb hash_key (hash_key_name (store t)) && bool_decide (range_key = range_key_name (store t))).

(** The rows after the start key: after its row, or, when that is gone, after
    its place in the order. *)
Definition rows_after_start (t : Table) (index : option string) (hash_key : string) (range_key : option string)
  (forward : bool) (rows : list Item) (start : option Item) : list Item :=
  match start with
  | None => rows
  | Some key =>
      let matches_start (item : Item) := item_matches_key item key hash_key range_key
            && (if is_gsi_query t index hash_key range_key
                then item_matches_key item key (hash_key_name (store t)) (range_key_name (store t)) else true) in
      match list_find (fun item => matches_start item = true) rows with
      | Some (pos, _) => drop (S pos) rows
      | None => match range_key with
                | None => rows
                | Some rk =>
                    drop (partition_point (fun item : Item =>
                            match (let c := compare_attribute_values (item !! rk) (key !! rk) in
                                   if forward then c else CompOpp c) with Gt => false | _ => true end) rows) rows
                end
      end
  end.

(** The key of a row as the cursor carries it. *)
Definition query_cursor (t : Table) (index : option string) (hash_key : string) (range_key : option string) (item : Item) : Item :=
  let key := extract_key_for_schema item hash_key range_key in
  if is_gsi_query t index hash_key range_key
  then extract_key_for_schema item (hash_key_name (store t)) (range_key_name (store t)) ∪ key else key.

Definition parse_query (body : Value) : Result AwsServiceError (string * bool) :=
  name ← validate_data_table_name body;
  _ ← validate_request_enums body [select_member; capacity_member; operator_member];
  _ ← match as_i64 (Json.index body "Limit") with
      | Some l => if (l <? 1)%Z then Err (framework_validation_error
                    ["Value at 'Limit' failed to satisfy constraint: Member must have value greater than or equal to 1"])
                  else Ok tt
      | None => Ok tt
      end;
  count_only ← resolve_select body (bool_decide (is_Some (as_str (Json.index body "IndexName")))) true;
  _ ← validate_request_expressions value_text body OpQuery;
  Ok (name, count_only).

Definition bad_start_key : AwsServiceError :=
  validation_error ("The provided starting key is invalid: The provided key element does not match the schema").

(** What a Query goes by: keys, condition, filter, placeholders, limit, start. *)
Record QueryPlan := mkQueryPlan {
  q_index : option string;
  q_hash : string;
  q_range : option string;
  q_condition : string;
  q_filter : option string;
  q_placeholders : Placeholders;
  q_forward : bool;
  q_limit : option nat;
  q_start : option Item
}.

Definition plan_query (body : Value) (t : Table) : Result AwsServiceError QueryPlan :=
  resolve_legacy_or_expression body "KeyConditionExpression" "KeyConditions" LegacyKey
    (parse_expression_attribute_names body, parse_expression_attribute_values body)
    ≫= fun kc : option string * Placeholders =>
  condition ← match kc.1 with
              | Some c => if is_empty_str (trim c) then
                            Err (validation_error "Either the KeyConditions or KeyConditionExpression parameter must be specified in the request.")
                          else Ok c
              | None => Err (validation_error "Either the KeyConditions or KeyConditionExpression parameter must be specified in the request.")
              end;
  resolve_legacy_or_expression body "FilterExpression" "QueryFilter" LegacyFilter kc.2
    ≫= fun flt : option string * Placeholders =>
  limit ← validate_limit body;
  let start := parse_key_map (Json.index body "ExclusiveStartKey") in
  let index := as_str (Json.index body "IndexName") in
  query_keys t index (default false (as_bool (Json.index body "ConsistentRead"))) ≫= fun keys : string * option string =>
  let index_keys := (keys.1 :: option_list keys.2)%list in
  _ ← match index, start with
      | Some _, Some key =>
          if forallb (fun a => bool_decide (is_Some (key !! a))) (table_key_names (store t) ++ index_keys)%list
          then Ok tt else Err bad_start_key
      | _, _ => Ok tt
      end;
  _ ← validate_partition_key_condition condition keys.1 flt.2.1;
  _ ← match start with
      | Some key => if start_key_matches_schema t key index_keys then Ok tt
                    else Err (validation_error "The provided starting key is invalid")
      | None => Ok tt
      end;
  Ok (mkQueryPlan index keys.1 keys.2 condition flt.1 flt.2
        (default true (as_bool (Json.index body "ScanIndexForward"))) limit start).

Definition query_candidates (t : Table) (q : QueryPlan) : list Item :=
  rows_after_start t (q_index q) (q_hash q) (q_range q) (q_forward q)
    (query_rows t (q_index q) (q_hash q) (q_range q) (q_forward q) (q_placeholders q) (q_condition q)) (q_start q).

Definition query_locked (body : Value) (name : string) (count_only : bool) (t : Table)
  : Result AwsServiceError (Page * list string) :=
  q ← plan_query body t;
  let rows := query_candidates t q in
  let page_len := page_length rows (q_limit q) in
  let examined := take page_len rows in
  let last := if (page_len <? length rows)%nat
              then query_cursor t (q_index q) (q_hash q) (q_range q) <$> last examined else None in
  Ok (finish_page body name t (q_index q) count_only (q_filter q) (q_placeholders q) examined last).

(** *** Scan *)

Definition scan_violations (body : Value) (errors : list string) : list string :=
  let int_member field := as_i64 (Json.index body field) in
  (errors
   ++ (match int_member "Limit" with
       | Some l => if (l <? 1)%Z then ["Value '" +:+ print_Z l
                     +:+ "' at 'limit' failed to satisfy constraint: Member must have value greater than or equal to 1"] else []
       | None => []
       end)
   ++ (match int_member "Segment" with
       | Some s => if (s <? 0)%Z then ["Value '" +:+ print_Z s
                     +:+ "' at 'segment' failed to satisfy constraint: Member must have value greater than or equal to 0"] else []
       | None => []
       end)
   ++ (match int_member "TotalSegments" with
       | Some n => if (n <? 1)%Z then ["Value '" +:+ print_Z n
                     +:+ "' at 'totalSegments' failed to satisfy constraint: Member must have value greater than or equal to 1"]
                   else if (MAX_TOTAL_SEGMENTS <? n)%Z then ["Value '" +:+ print_Z n
                     +:+ "' at 'totalSegments' failed to satisfy constraint: Member must have value less than or equal to "
                     +:+ print_Z MAX_TOTAL_SEGMENTS] else []
       | None => []
       end))%list.

(** The segment of a parallel Scan. *)
Definition scan_segment (body : Value) : Result AwsServiceError (option (Z * Z)) :=
  match as_i64 (Json.index body "Segment"), as_i64 (Json.index body "TotalSegments") with
  | Some _, None => Err (validation_error ("The TotalSegments parameter is required but was not present in the request "
                           +:+ "when Segment parameter is present"))
  | None, Some _ => Err (validation_error ("The Segment parameter is required but was not present in the request when "
                           +:+ "parameter TotalSegments is present"))
  | Some seg, Some total =>
      if (total <=? seg)%Z then
        Err (validation_error ("The Segment parameter is zero-based and must be less than parameter TotalSegments: Segment: "
               +:+ print_Z seg +:+ " is not less than TotalSegments: " +:+ print_Z total))
      else Ok (Some (seg, total))
  | None, None => Ok None
  end.

Definition parse_scan (body : Value) : Result AwsServiceError (string * option (Z * Z) * bool) :=
  name ← validate_data_table_name body;
  errors ← request_enum_violations body [select_member; capacity_member; operator_member];
  _ ← match scan_violations body errors with [] => Ok tt | l => Err (framework_validation_error l) end;
  segment ← scan_segment body;
  count_only ← resolve_select body (bool_decide (is_Some (as_str (Json.index body "IndexName")))) false;
  _ ← validate_request_expressions value_text body OpScan;
  Ok (name, segment, count_only).

Record ScanPlan := mkScanPlan {
  s_index : option string;
  s_index_attrs : list string;
  s_filter : option string;
  s_placeholders : Placeholders;
  s_limit : option nat;
  s_start : option Item
}.

Definition scan_index (t : Table) (index : option string) (consistent : bool) : Result AwsServiceError (list string) :=
  match index with
  | None => Ok []
  | Some name =>
      match find_index (gsi t) name with
      | Some g => if consistent : bool then Err no_consistent_reads else Ok (index_attrs g)
      | None => match find_index (lsi t) name with
                | Some l => Ok (index_attrs l)
                | None => Err (no_index name)
                end
      end
  end.

Definition plan_scan (body : Value) (t : Table) : Result AwsServiceError ScanPlan :=
  resolve_legacy_or_expression body "FilterExpression" "ScanFilter" LegacyFilter
    (parse_expression_attribute_names body, parse_expression_attribute_values body)
    ≫= fun flt : option string * Placeholders =>
  limit ← validate_limit body;
  let start := parse_key_map (Json.index body "ExclusiveStartKey") in
  let index := as_str (Json.index body "IndexName") in
  attrs ← scan_index t index (default false (as_bool (Json.index body "ConsistentRead")));
  _ ← match start with
      | Some key => if start_key_matches_schema t key attrs then Ok tt else Err bad_start_key
      | None => Ok tt
      end;
  Ok (mkScanPlan index attrs flt.1 flt.2 limit start).

Definition in_segment (t : Table) (segment : option (Z * Z)) (item : Item) : bool :=
  match segment with
  | Some (seg, total) =>
      ((text_hash (from_option value_text "" (item !! hash_key_name (store t)))) mod total =? seg)%Z
  | None => true
  end.

(** The rows a Scan goes over. *)
Definition scan_candidates (t : Table) (p : ScanPlan) (segment : option (Z * Z)) : list Item :=
  List.filter (in_segment t segment)
    (List.filter (fun item : Item => if s_index p then forallb (fun k => bool_decide (is_Some (item !! k))) (s_index_attrs p) else true)
       (scan_rows_after (store t) (s_start p))).

(** The rows of one page, and whether more follow. *)
Fixpoint scan_page (rows : list Item) (limit : option nat) (count : nat) (bytes : Z) : list Item * bool :=
  match rows with
  | [] => ([], false)
  | item :: more =>
      let count := S count in
      let bytes := (bytes + item_bytes item)%Z in
      if match limit with Some l => (l <=? count)%nat | None => false end || (MAX_PAGE_BYTES <=? bytes)%Z
      then ([item], match more with [] => false | _ => true end)
      else let '(page, has_more) := scan_page more limit count bytes in (item :: page, has_more)
  end.

Definition scan_cursor (t : Table) (attrs : list string) (item : Item) : Item :=
  foldl (fun key attr => match item !! attr with Some v => <[attr := v]> key | None => key end)
    (extract_key_for_schema item (hash_key_name (store t)) (range_key_name (store t))) attrs.

Definition scan_locked (body : Value) (name : string) (segment : option (Z * Z)) (count_only : bool) (t : Table)
  : Result AwsServiceError (Page * list string) :=
  p ← plan_scan body t;
  let '(examined, has_more) := scan_page (scan_candidates t p segment) (s_limit p) 0 0 in
  let last := if has_more : bool then scan_cursor t (s_index_attrs p) <$> last examined else None in
  Ok (finish_page body name t (s_index p) count_only (s_filter p) (s_placeholders p) examined last).

(** *** On the region's tables *)

(** The accesses, counted under a second lock if insights are still on. *)
Definition count_accesses (name : string) (keys : list string) (r : Region) : Region :=
  match keys, tables r !! resolve_table_name name with
  | _ :: _, Some t =>
      if String.eqb (contributor_insights_status (store t)) "ENABLED" then
        let counters := foldl (fun m k => <[k := (default 0%Z (m !! k) + 1)%Z]> m) (contributor_insights_counters (store t)) keys in
        mkRegion (<[resolve_table_name name := with_store t (with_counters (store t) counters)]> (tables r)) (sequence r)
      else r
  | _, _ => r
  end.

Definition read_table_of (name : string) (r : Region) (f : Table -> Result AwsServiceError (Page * list string))
  : Region * Result AwsServiceError Page :=
  match tables r !! resolve_table_name name with
  | None => (r, Err data_table_not_found)
  | Some t => match f t with
              | Err e => (r, Err e)
              | Ok (page, keys) => (count_accesses name keys r, Ok page)
              end
  end.

Definition query (body : Value) (r : Region) : Region * Result AwsServiceError Page :=
  match parse_query body with
  | Err e => (r, Err e)
  | Ok (name, count_only) => read_table_of name r (query_locked body name count_only)
  end.

Definition scan (body : Value) (r : Region) : Region * Result AwsServiceError Page :=
  match parse_scan body with
  | Err e => (r, Err e)
  | Ok (name, segment, count_only) => read_table_of name r (scan_locked body name segment count_only)
  end.

End Reads.
