(* ===== verification/DdbQueryTheory.v ===== *)
(** * DynamoDB reads: pages

    A client that follows the cursors of a Scan or a Query reads every row the
    read goes over, once and in its order, in at most one page per row and one
    more; the workers of a parallel Scan share the rows out between them. *)

From Stdlib Require Import ZArith QArith Lia Bool String Ascii SpecFloat.
From stdpp Require Import base option list strings gmap sorting.
From S2P Require Import Prelude Json BTree Arn Text OrdMap Sqs DdbNumber DdbNumberTheory DdbValue DdbReserved DdbExpr DdbTable DdbUpdate DdbTableTheory DdbScan DdbCondition DdbItems DdbItemsTheory DdbTransact DdbTransactTheory DdbQuery.
Import Sqs(AwsServiceError, AwsError, aws_error).

Local Open Scope string_scope.
Local Open Scope list_scope.

(** ** Scan *)

Section ScanPages.
Context `{Base64Decode} `{JsonText} `{!JsonTextLaws} `{TextHash}.

(** The rows of a table with their keys, in key order. *)
Definition key_rows (t : DynamoTable) : list Row := sort_rows ((fun item => (encode_key t item, item)) <$> items_iter (items t)).

(** Every row has a key. *)
Definition keyed (t : DynamoTable) : Prop := Forall (fun item => is_Some (encode_key t item)) (items_iter (items t)).

Lemma key_rows_elem t r : r ∈ key_rows t -> r.1 = encode_key t r.2 /\ r.2 ∈ items_iter (items t).
Proof.
  unfold key_rows. rewrite sort_rows_perm. intros (x & -> & Hx)%list_elem_of_fmap. done.
Qed.

Lemma keyed_scan_ok t : sound t -> rows_keyed ((fun item => (encode_key t item, item)) <$> items_iter (items t)).
Proof.
  intros [Ht _]. apply Forall_fmap, Forall_forall. intros x Hx. simpl. destruct (encode_key t x) as [k|] eqn:E; [|done].
  simpl. eapply encode_key_ok; [|exact E]. unfold items_iter in Hx. apply list_elem_of_fmap in Hx as (e & -> & He).
  pose proof (ok_items _ Ht) as F. rewrite Forall_forall in F. by apply F.
Qed.

(** A Scan reads the rows by sorting them, whether or not an index covers them. *)
Lemma scan_rows_sorted t start : sound t -> (forall key, start = Some key -> item_ok t key /\ is_Some (encode_key t key)) ->
  scan_rows_after t start = snd <$> List.filter (fun r => row_after (start ≫= encode_key t) r.1) (key_rows t).
Proof.
  intros [Ht Hu] Hst. assert (Hsort : scan_sorted t (start ≫= encode_key t)
    = snd <$> List.filter (fun r => row_after (start ≫= encode_key t) r.1) (key_rows t)) by done.
  assert (Hgo : (exists ids, covered t ids) \/ scan_rows_after t start = scan_sorted t (start ≫= encode_key t)).
  { unfold scan_rows_after. destruct (key_index t) as [|ids n|n] eqn:Ei.
    - right. destruct start as [key|]; [|done]. destruct (Hst key eq_refl) as [_ [k Ek]]. cbn [mbind option_bind]. by rewrite Ek.
    - destruct (bool_decide (n = items_len (items t))) eqn:E1; [destruct (bool_decide (length ids = items_len (items t))) eqn:E2|].
      + left. exists ids. apply bool_decide_eq_true in E1 as ->. apply bool_decide_eq_true in E2. done.
      + right. destruct start as [key|]; [|done]. destruct (Hst key eq_refl) as [_ [k Ek]]. cbn [mbind option_bind]. by rewrite Ek.
      + right. destruct start as [key|]; [|done]. destruct (Hst key eq_refl) as [_ [k Ek]]. cbn [mbind option_bind]. by rewrite Ek.
    - right. destruct start as [key|]; [|done]. destruct (Hst key eq_refl) as [_ [k Ek]]. cbn [mbind option_bind]. by rewrite Ek. }
  destruct Hgo as [[ids Hc]|Hgo]; [|congruence]. unfold key_rows. rewrite (sort_is_index t ids Ht Hc). destruct start as [key|].
  - destruct (Hst key eq_refl) as [Hi Hk]. apply (scan_covered t ids key); [done..|]. by right.
  - apply (scan_covered t ids ∅); [done|done| |by left]. intros a v _. by rewrite lookup_empty.
Qed.

(** No two rows have one key: the order is strict. *)
Lemma items_once t i j x k : sound t -> items_iter (items t) !! i = Some x -> encode_key t x = Some k ->
  forall y, items_iter (items t) !! j = Some y -> encode_key t y = Some k -> i = j.
Proof.
  intros [Ht Hu] Hi Ex y Hj Ey. unfold items_iter in *. rewrite list_lookup_fmap in Hi, Hj.
  destruct (rows (items t) !! i) as [[a x']|] eqn:E1; [|done]. destruct (rows (items t) !! j) as [[b y']|] eqn:E2; [|done].
  injection Hi as ->. injection Hj as ->.
  assert (a = b) as <- by (eapply Hu; [by eapply list_elem_of_lookup_2|by eapply list_elem_of_lookup_2|exact Ex|exact Ey]).
  eapply rows_position; [apply (ok_sorted _ Ht)|done..].
Qed.

Lemma keys_NoDup t : sound t -> keyed t -> NoDup (encode_key t <$> items_iter (items t)).
Proof.
  intros Hs Hk. apply NoDup_alt. intros i j o. rewrite !list_lookup_fmap.
  destruct (items_iter (items t) !! i) as [x|] eqn:Ei; [|done]. destruct (items_iter (items t) !! j) as [y|] eqn:Ej; [|done].
  simpl. intros [= <-] [= E]. destruct (Forall_lookup_1 _ _ _ _ Hk Ei) as [k Ek]. rewrite Ek in E.
  by eapply items_once.
Qed.

(** Ascending rows whose keys differ ascend strictly. *)
Lemma sorted_strict (l : list Row) : rows_keyed l -> NoDup (fst <$> l) -> StronglySorted scan_le l -> StronglySorted row_lt l.
Proof.
  intros Hk Hn Hs. induction Hs as [|r l Hs IH F]; [constructor|]. apply Forall_cons in Hk as [Hr Hk].
  rewrite fmap_cons in Hn. apply NoDup_cons in Hn as [Hx Hn]. constructor; [by apply IH|].
  rewrite Forall_forall in F, Hk |- *. intros y Hy. specialize (F y Hy). unfold scan_le in F. unfold key_lt.
  destruct (cmp_scan_order r.1 y.1) eqn:E; [|done|done]. apply (cmp_eq (ok := scan_ok) (cmp := cmp_scan_order)) in E; [|done|by apply Hk].
  destruct Hx. rewrite E. by apply list_elem_of_fmap_2.
Qed.

(** Rows that ascend strictly by their keys. *)
Definition ascending (t : DynamoTable) (l : list Item) : Prop :=
  StronglySorted (fun a b => cmp_scan_order (encode_key t a) (encode_key t b) = Lt) l.

(** The rows a Scan goes over, in its order. *)
Definition scan_order_rows (t : DynamoTable) : list Item := snd <$> key_rows t.

Lemma scan_order_rows_perm t : scan_order_rows t ≡ₚ items_iter (items t).
Proof.
  unfold scan_order_rows, key_rows. rewrite sort_rows_perm, <- list_fmap_compose. by rewrite list_fmap_id.
Qed.

Lemma scan_order_rows_ascending t : sound t -> keyed t -> ascending t (scan_order_rows t).
Proof.
  intros Hs Hk. pose proof (keyed_scan_ok t Hs) as Ho. assert (Hr : StronglySorted row_lt (key_rows t)).
  { apply sorted_strict; [unfold key_rows; by rewrite sort_rows_perm| |by apply sort_rows_sorted].
    unfold key_rows. rewrite sort_rows_perm, <- list_fmap_compose. by apply keys_NoDup. }
  assert (Hf : forall r, r ∈ key_rows t -> r.1 = encode_key t r.2) by (intros r Hr'; by apply key_rows_elem).
  unfold ascending, scan_order_rows. induction Hr as [|r l Hr IH F]; [constructor|]. rewrite fmap_cons. constructor.
  - apply IH. intros r' Hr'. apply Hf. by right.
  - apply Forall_fmap. rewrite Forall_forall in F |- *. intros y Hy. specialize (F y Hy). unfold key_lt in F. simpl.
    rewrite <- (Hf r), <- (Hf y); [done|by right|by left].
Qed.

Lemma scan_rows_filtered t start : sound t -> (forall key, start = Some key -> item_ok t key /\ is_Some (encode_key t key)) ->
  scan_rows_after t start = List.filter (fun x => row_after (start ≫= encode_key t) (encode_key t x)) (scan_order_rows t).
Proof.
  intros Hs Hst. rewrite scan_rows_sorted by done. apply filter_keyed, Forall_forall. intros r Hr. symmetry.
  by apply key_rows_elem.
Qed.

Lemma ascending_filter t f l : ascending t l -> ascending t (List.filter f l).
Proof.
  unfold ascending. induction 1 as [|x l Hs IH F]; simpl; [constructor|]. destruct (f x); [|done]. constructor; [done|].
  rewrite Forall_forall in F |- *. intros y Hy. apply F. apply list_elem_of_In in Hy. apply filter_In in Hy as [Hy _].
  by apply list_elem_of_In.
Qed.

Lemma filters_commute {A} (f g : A -> bool) l : List.filter f (List.filter g l) = List.filter g (List.filter f l).
Proof. induction l as [|x l IH]; simpl; [done|]. destruct (f x) eqn:F, (g x) eqn:G; simpl; rewrite ?F, ?G, IH; done. Qed.

(** The rows above one of them are those that follow it. *)
Lemma after_row t l i x : Forall (fun x => exists k, encode_key t x = Some k /\ row_ok k) l -> ascending t l -> l !! i = Some x ->
  List.filter (fun y => row_after (encode_key t x) (encode_key t y)) l = drop (S i) l.
Proof.
  intros Hk Hs. revert i. induction Hs as [|y l Hs IH F]; intros i Hi; [done|]. apply Forall_cons in Hk as [(ky & Ey & Hy) Hk].
  destruct i as [|i]; simpl in Hi.
  - injection Hi as ->. cbn [List.filter drop]. rewrite Ey. cbn [row_after]. rewrite (cmp_refl row_ok row_cmp) by done.
    rewrite drop_0. apply filter_every. rewrite Forall_forall in F, Hk |- *. intros z Hz. specialize (F z Hz).
    destruct (Hk z Hz) as (kz & Ez & Hz'). rewrite Ey, Ez in F. rewrite Ez. cbn [row_after]. cbn in F.
    by rewrite (cmp_anti (ok := row_ok) (cmp := row_cmp) ky kz), F.
  - change (drop (S (S i)) (y :: l)) with (drop (S i) l). rewrite <- (IH Hk i Hi). cbn [List.filter].
    pose proof (list_elem_of_lookup_2 _ _ _ Hi) as Hx. rewrite Forall_forall in F. specialize (F x Hx).
    rewrite Forall_forall in Hk. destruct (Hk x Hx) as (kx & Ex & Hkx). rewrite Ey, Ex in F |- *. cbn in F. cbn [row_after].
    by rewrite F.
Qed.

End ScanPages.

(** ** Cursors *)

(** The part of an item under some names. *)
Definition key_part (names : list string) (item : Item) : Item := filter (fun e => e.1 ∈ names) item.

Lemma key_part_lookup names item n : key_part names item !! n = if decide (n ∈ names) then item !! n else None.
Proof.
  unfold key_part. rewrite map_lookup_filter. destruct (item !! n) as [v|]; simpl; [|by destruct (decide _)].
  destruct (decide (n ∈ names)) as [Hn|Hn]; simpl; [by rewrite option_guard_True|by rewrite option_guard_False].
Qed.

Lemma key_part_same names names' item : (forall n, n ∈ names <-> n ∈ names') -> key_part names item = key_part names' item.
Proof.
  intros Hn. apply map_eq. intros n. rewrite !key_part_lookup. destruct (decide (n ∈ names)) as [K|K]; rewrite Hn in K.
  - by rewrite decide_True.
  - by rewrite decide_False.
Qed.

(** Adding the value of one more name. *)
Lemma key_part_add names item n :
  match item !! n with Some v => <[n := v]> (key_part names item) | None => key_part names item end = key_part (names ++ [n]) item.
Proof.
  apply map_eq. intros m. rewrite key_part_lookup. destruct (item !! n) as [v|] eqn:E.
  - destruct (decide (m = n)) as [->|Hne].
    + rewrite lookup_insert_eq, decide_True, E by set_solver. done.
    + rewrite lookup_insert_ne, key_part_lookup by done. destruct (decide (m ∈ names)); [rewrite decide_True by set_solver|rewrite decide_False by set_solver]; done.
  - rewrite key_part_lookup. destruct (decide (m ∈ names)); [rewrite decide_True by set_solver; done|].
    destruct (decide (m ∈ names ++ [n])) as [Hm|]; [|done]. assert (m = n) as -> by set_solver. done.
Qed.

Lemma key_part_nil item : key_part [] item = ∅.
Proof. apply map_eq. intros n. rewrite key_part_lookup, decide_False by set_solver. by rewrite lookup_empty. Qed.

Lemma extract_key_part item h r : extract_key_for_schema item h r = key_part (h :: option_list r) item.
Proof.
  unfold extract_key_for_schema. pose proof (key_part_add [] item h) as E. rewrite key_part_nil in E. cbn [app] in E.
  assert (E' : match item !! h with Some v => {[ h := v ]} | None => ∅ end = key_part [h] item).
  { rewrite <- E. by destruct (item !! h). }
  destruct r as [rk|]; [|exact E']. rewrite E'. apply (key_part_add [h]).
Qed.

Lemma scan_cursor_part t attrs item : scan_cursor t attrs item = key_part (table_key_names (store t) ++ attrs) item.
Proof.
  unfold scan_cursor. rewrite extract_key_part. change (hash_key_name (store t) :: option_list (range_key_name (store t))) with (table_key_names (store t)).
  generalize (table_key_names (store t)) as names. induction attrs as [|a attrs IH]; intros names; cbn [foldl]; [by rewrite app_nil_r|].
  by rewrite key_part_add, IH, <- app_assoc.
Qed.

(** An index read by keys that are the table's is by the table's keys. *)
Lemma query_cursor_part t index h r item : (index = None -> h = hash_key_name (store t) /\ r = range_key_name (store t)) ->
  query_cursor t index h r item = key_part (table_key_names (store t) ++ h :: option_list r) item.
Proof.
  intros Hn. unfold query_cursor. rewrite !extract_key_part. destruct (is_gsi_query t index h r) eqn:E.
  - apply map_eq. intros n. rewrite lookup_union, !key_part_lookup. fold (table_key_names (store t)).
    destruct (decide (n ∈ table_key_names (store t))), (decide (n ∈ h :: option_list r));
      [rewrite (decide_True (P := n ∈ _ ++ _)) by set_solver..|rewrite (decide_False (P := n ∈ _ ++ _)) by set_solver];
      destruct (item !! n); done.
  - assert (h = hash_key_name (store t) /\ r = range_key_name (store t)) as [-> ->].
    { destruct index as [i|]; [|by apply Hn]. unfold is_gsi_query in E. rewrite bool_decide_true in E by eauto.
      cbn [andb] in E. apply negb_false_iff, andb_prop in E as [E1 E2]. apply String.eqb_eq in E1.
      apply bool_decide_eq_true in E2. done. }
    apply key_part_same. unfold table_key_names. set_solver.
Qed.

(** A start key is accepted when it names the key attributes, with their types. *)
Definition typed_row (t : Table) (names : list string) (item : Item) : Prop :=
  forall n, n ∈ names -> exists v, item !! n = Some v /\ forall ty, declared_type t n = Some ty -> value_type v = Some ty.

Lemma str_in_spec x l : str_in x l = true <-> x ∈ l.
Proof.
  unfold str_in. rewrite existsb_exists. split.
  - intros (y & Hy & ->%String.eqb_eq). by apply list_elem_of_In.
  - intros Hx. exists x. split; [by apply list_elem_of_In|by apply String.eqb_eq].
Qed.

Lemma add_names (l acc : list string) : NoDup acc ->
  let required := foldl (fun acc k => if str_in k acc then acc else (acc ++ [k])%list) acc l in
  NoDup required /\ forall n, n ∈ required <-> n ∈ acc ++ l.
Proof.
  revert acc. induction l as [|k l IH]; intros acc Hn; cbn [foldl]; [by rewrite app_nil_r|].
  destruct (str_in k acc) eqn:E.
  - apply str_in_spec in E. destruct (IH acc Hn) as [H1 H2]. split; [done|]. intros n. rewrite H2. set_solver.
  - assert (Hk : k ∉ acc) by (rewrite <- str_in_spec; congruence). destruct (IH (acc ++ [k])) as [H1 H2].
    { apply NoDup_app. split; [done|]. split; [set_solver|apply NoDup_singleton]. }
    split; [done|]. intros n. rewrite H2. set_solver.
Qed.

Lemma key_part_size names item : NoDup names -> (forall n, n ∈ names -> is_Some (item !! n)) -> size (key_part names item) = length names.
Proof.
  intros Hn Hs. rewrite <- size_dom, <- (size_list_to_set (C := gset string)) by done. f_equal. apply set_eq. intros n.
  rewrite elem_of_dom, key_part_lookup, elem_of_list_to_set. destruct (decide (n ∈ names)); split; try done. by intros _; apply Hs.
Qed.

Lemma cursor_accepted t keys item : NoDup (table_key_names (store t)) -> typed_row t (table_key_names (store t) ++ keys) item ->
  start_key_matches_schema t (key_part (table_key_names (store t) ++ keys) item) keys = true.
Proof.
  intros Hn Ht. unfold start_key_matches_schema. destruct (add_names keys _ Hn) as [H1 H2]. set (required := foldl _ _ _) in *.
  rewrite (key_part_same _ required) by (intros n; by rewrite H2). apply andb_true_intro. split.
  - rewrite key_part_size; [by rewrite Nat.eqb_refl|done|]. intros n Hr. rewrite H2 in Hr. destruct (Ht n Hr) as (v & E & _). by eauto.
  - apply forallb_forall. intros n Hr%list_elem_of_In. rewrite key_part_lookup, decide_True by done.
    rewrite H2 in Hr. destruct (Ht n Hr) as (v & -> & Hty). destruct (declared_type t n) as [ty|]; [|done].
    by rewrite bool_decide_true by (by apply Hty).
Qed.

(** ** A client that follows the cursors *)

(** The request again, from a start key. *)
Definition resume (body : Value) (start : option Item) : Value :=
  match start with
  | None => body
  | Some key => VObject (("ExclusiveStartKey", VObject (map_to_list key))
                         :: List.filter (fun e => negb (String.eqb e.1 "ExclusiveStartKey")) (default [] (as_object body)))
  end.

Lemma index_resume body start f : f <> "ExclusiveStartKey" -> index (resume body start) f = index body f.
Proof.
  intros Hf. destruct start as [key|]; [|done]. unfold resume, index, get. cbn [as_object mbind option_bind assoc].
  destruct (String.eqb_spec "ExclusiveStartKey" f) as [E|_]; [congruence|]. f_equal.
  destruct (as_object body) as [m|]; [|done]. cbn [default from_option id mbind option_bind]. unfold default, id, from_option.
  induction m as [|[k v] m IH]; [done|]. cbn [List.filter assoc fst]. destruct (String.eqb_spec k "ExclusiveStartKey") as [->|Hk]; cbn [negb].
  - destruct (String.eqb_spec "ExclusiveStartKey" f); [congruence|done].
  - cbn [assoc]. by rewrite IH.
Qed.

Lemma object_map_list (m : Item) : object_map (map_to_list m) = m.
Proof.
  transitivity (list_to_map (M := Item) (reverse (map_to_list m))).
  - unfold object_map. generalize (map_to_list m) as l. intros l. induction l as [|[k v] l IH] using rev_ind; [done|].
    by rewrite foldl_snoc, IH, reverse_snoc.
  - symmetry. apply list_to_map_flip. by rewrite reverse_Permutation.
Qed.

Lemma parse_resume body key : key <> ∅ -> parse_key_map (index (resume body (Some key)) "ExclusiveStartKey") = Some key.
Proof.
  intros Hk. unfold index, get, resume. cbn [as_object mbind option_bind assoc].
  rewrite String.eqb_refl. cbn [default from_option id]. unfold parse_key_map, default, id, from_option. cbn [as_object].
  destruct (map_to_list key) as [|e l] eqn:E; [by apply map_to_list_empty_iff in E|]. rewrite <- E. by rewrite object_map_list.
Qed.

Definition first_page {E} (r : Result E (Page * list string)) : Result E Page := r ≫= fun x => Ok x.1.

(** The pages of a client that asks again from each cursor it is given. *)
Fixpoint follow {E} (read : option Item -> Result E Page) (fuel : nat) (start : option Item) : option (list Page) :=
  match fuel with
  | 0 => None
  | S fuel' =>
      match read start with
      | Err _ => None
      | Ok page => match last_evaluated_key page with
                   | Some key => rest ← follow read fuel' (Some key); Some (page :: rest)
                   | None => Some [page]
                   end
      end
  end.

Section Following.
Context {E : Type} (read : option Item -> Result E Page) (L : list Item) (cursor : Item -> Item) (keep : Item -> bool) (shown : Item -> Item).

(** A start key that stands before the [i]-th row. *)
Definition stands (start : option Item) (i : nat) : Prop :=
  match start with
  | None => i = 0
  | Some key => exists j x, i = S j /\ L !! j = Some x /\ key = cursor x
  end.

(** What a page at the [i]-th row is: a run of rows, not empty unless nothing
    is left, with a cursor unless it ends them. *)
Definition page_at (i : nat) (page : Page) : Prop :=
  exists n, page_items page = Some (shown <$> List.filter keep (take n (drop i L)))
  /\ page_count page = length (List.filter keep (take n (drop i L)))
  /\ scanned_count page = length (take n (drop i L))
  /\ last_evaluated_key page = (if (n <? length (drop i L))%nat then cursor <$> last (take n (drop i L)) else None)
  /\ (drop i L <> [] -> 0 < n)%nat.

Lemma follow_all : (forall start i, stands start i -> exists page, read start = Ok page /\ page_at i page) ->
  forall fuel start i, stands start i -> (length L - i < fuel)%nat ->
  exists pages, follow read fuel start = Some pages
  /\ concat (omap page_items pages) = shown <$> List.filter keep (drop i L)
  /\ foldr Nat.add 0 (page_count <$> pages) = length (List.filter keep (drop i L))
  /\ foldr Nat.add 0 (scanned_count <$> pages) = length (drop i L)
  /\ (length pages <= S (length L - i))%nat.
Proof.
  intros Hr. induction fuel as [|fuel IH]; intros start i Hs Hf; [lia|]. cbn [follow].
  destruct (Hr start i Hs) as (page & -> & n & Ei & Ec & Esc & El & Hn). rewrite El.
  assert (Hsplit : forall l : list Item, l = take n l ++ drop n l) by (intros l; symmetry; apply take_drop).
  destruct (Nat.ltb_spec n (length (drop i L))) as [Hlt|Hge].
  - rewrite length_drop in Hlt. specialize (Hn ltac:(intros K; apply (f_equal length) in K; rewrite length_drop in K; simpl in K; lia)).
    assert (Hi : (i + n - 1 < length L)%nat) by lia. apply lookup_lt_is_Some_2 in Hi as [x Hx].
    assert (Hlast : last (take n (drop i L)) = Some x).
    { rewrite last_lookup, length_take, length_drop. replace (Nat.pred (n `min` (length L - i))) with (n - 1)%nat by lia.
      rewrite lookup_take_lt, lookup_drop by lia. by replace (i + (n - 1))%nat with (i + n - 1)%nat by lia. }
    rewrite Hlast. cbn [fmap option_fmap option_map].
    destruct (IH (Some (cursor x)) (i + n)%nat) as (pages & -> & E1 & E2 & E3 & E4).
    { exists (i + n - 1)%nat, x. split; [lia|]. done. }
    { lia. }
    exists (page :: pages). split; [done|]. rewrite (Hsplit (drop i L)), drop_drop, List.filter_app, fmap_app, !length_app.
    change (omap page_items (page :: pages)) with (match page_items page with Some l => l :: omap page_items pages | None => omap page_items pages end).
    rewrite !fmap_cons. cbn [foldr length]. rewrite Ei. cbn [concat].
    rewrite E1, E2, E3, Ec, Esc. repeat split; try done. lia.
  - exists [page]. split; [done|]. cbn [omap list_omap fmap list_fmap foldr length]. rewrite Ei, Ec, Esc, take_ge by lia.
    cbn [concat]. rewrite app_nil_r, !Nat.add_0_r. repeat split; try done. lia.
Qed.

End Following.

(** ** Pages of a read *)

Section Pages.
Context `{Base64Decode} `{JsonText} `{!JsonTextLaws} `{TextHash}.

(** Both page cuts take the same rows. *)
Lemma page_cut rows limit count bytes :
  exists n, page_from rows limit count bytes = (count + n)%nat
  /\ scan_page rows limit count bytes = (take n rows, (n <? length rows)%nat) /\ (rows <> [] -> 0 < n)%nat.
Proof.
  revert count bytes. induction rows as [|row rows IH]; intros count bytes.
  - exists 0. cbn. split; [lia|done].
  - cbn [page_from scan_page]. destruct (_ || _).
    + exists 1. split; [lia|]. split; [|lia]. rewrite firstn_cons, firstn_O. by destruct rows.
    + destruct (IH (S count) (bytes + item_bytes row)%Z) as (n & -> & -> & _). exists (S n). split; [lia|]. split; [done|lia].
Qed.

Lemma page_cut_length rows limit : scan_page rows limit 0 0 = (take (page_length rows limit) rows, (page_length rows limit <? length rows)%nat)
  /\ (rows <> [] -> 0 < page_length rows limit)%nat.
Proof. unfold page_length. by destruct (page_cut rows limit 0 0) as (n & -> & -> & Hn). Qed.

(** The rows a page returns, and how. *)
Definition page_keeps (t : Table) (index filter : option string) (ph : Placeholders) (item : Item) : bool :=
  match filter with Some f => filter_row t (index ≫= read_index t) ph f item | None => true end.

Definition page_shows (body : Value) (t : Table) (index : option string) (item : Item) : Item :=
  match index ≫= read_index t with
  | Some ix => index_entry t ix (project_item item body)
  | None => project_item item body
  end.

Lemma finish_page_fields body name t index filter ph examined last :
  let page := (finish_page body name t index false filter ph examined last).1 in
  page_items page = Some (page_shows body t index <$> List.filter (page_keeps t index filter ph) examined)
  /\ page_count page = length (List.filter (page_keeps t index filter ph) examined)
  /\ scanned_count page = length examined /\ last_evaluated_key page = last.
Proof.
  unfold finish_page, page_keeps. destruct filter as [f|]; [done|]. simpl. rewrite filter_every by (by apply Forall_forall). done.
Qed.

Lemma page_shows_resume body start t index item : page_shows (resume body start) t index item = page_shows body t index item.
Proof. unfold page_shows, project_item, parse_expression_attribute_names. by rewrite !index_resume. Qed.

Lemma resolve_resume body start e l role ph : e <> "ExclusiveStartKey" -> l <> "ExclusiveStartKey" ->
  resolve_legacy_or_expression (resume body start) e l role ph = resolve_legacy_or_expression body e l role ph.
Proof. intros He Hl. unfold resolve_legacy_or_expression. by rewrite !index_resume. Qed.

Lemma placeholders_resume body start :
  (parse_expression_attribute_names (resume body start), parse_expression_attribute_values (resume body start))
  = (parse_expression_attribute_names body, parse_expression_attribute_values body).
Proof. unfold parse_expression_attribute_names, parse_expression_attribute_values. by rewrite !index_resume. Qed.

Lemma limit_resume body start : validate_limit (resume body start) = validate_limit body.
Proof. unfold validate_limit. by rewrite !index_resume. Qed.

(** A page of the rows from a start key, of the request from there. *)
Lemma finish_page_at body name t index filter ph cursor L i start limit :
  page_at L cursor (page_keeps t index filter ph) (page_shows body t index) i
    (finish_page (resume body start) name t index false filter ph (take (page_length (drop i L) limit) (drop i L))
       (if (page_length (drop i L) limit <? length (drop i L))%nat
        then cursor <$> last (take (page_length (drop i L) limit) (drop i L)) else None)).1.
Proof.
  set (n := page_length (drop i L) limit). exists n.
  destruct (finish_page_fields (resume body start) name t index filter ph (take n (drop i L))
    (if (n <? length (drop i L))%nat then cursor <$> last (take n (drop i L)) else None)) as (E1 & E2 & E3 & E4).
  split; [|split; [exact E2|split; [exact E3|split; [exact E4|]]]].
  - rewrite E1. f_equal. apply list_fmap_ext. intros _ x _. apply page_shows_resume.
  - unfold n. apply page_cut_length.
Qed.

(** *** Scan *)

Definition with_scan_start (p : ScanPlan) (start : option Item) : ScanPlan :=
  mkScanPlan (s_index p) (s_index_attrs p) (s_filter p) (s_placeholders p) (s_limit p) start.

Lemma plan_scan_resume body t p key : plan_scan body t = Ok p -> key <> ∅ -> start_key_matches_schema t key (s_index_attrs p) = true ->
  plan_scan (resume body (Some key)) t = Ok (with_scan_start p (Some key)).
Proof.
  intros Hp Hk Hm. unfold plan_scan in Hp |- *. rewrite placeholders_resume, resolve_resume, limit_resume by done.
  rewrite !(index_resume body _ "IndexName"), !(index_resume body _ "ConsistentRead"), parse_resume by done.
  destruct (resolve_legacy_or_expression _ _ _ _ _) as [flt|e]; [|discriminate Hp]. cbn [mbind result_bind] in Hp |- *.
  destruct (validate_limit body) as [limit|e]; [|discriminate Hp]. cbn [mbind result_bind] in Hp |- *.
  destruct (scan_index _ _ _) as [attrs|e]; [|discriminate Hp]. cbn [mbind result_bind] in Hp |- *.
  destruct (match parse_key_map _ with Some _ => _ | None => _ end); [|discriminate Hp]. cbn [mbind result_bind] in Hp |- *.
  injection Hp as <-. cbn [s_index_attrs] in Hm. by rewrite Hm.
Qed.

(** The rows of a table have its keys, and its keys and an index's are of the
    declared types. *)
Definition rows_typed (t : Table) (attrs : list string) : Prop :=
  Forall (fun item : Item => typed_row t (table_key_names (store t)) item
    /\ forall n v ty, n ∈ attrs -> item !! n = Some v -> declared_type t n = Some ty -> value_type v = Some ty)
    (items_iter (items (store t))).

Lemma rows_typed_keyed t attrs : rows_typed t attrs -> keyed (store t).
Proof.
  intros Ht. eapply Forall_impl; [exact Ht|]. intros item [Hi _]. destruct (Hi (hash_key_name (store t))) as (v & E & _); [left|].
  unfold encode_key, encode_key_with. rewrite E. by eauto.
Qed.

Lemma rows_typed_row t attrs item : rows_typed t attrs -> item ∈ items_iter (items (store t)) ->
  (forall n, n ∈ attrs -> is_Some (item !! n)) -> typed_row t (table_key_names (store t) ++ attrs) item.
Proof.
  intros Ht Hi Hp n Hn. unfold rows_typed in Ht. rewrite Forall_forall in Ht. destruct (Ht item Hi) as [Hr1 Hr2].
  apply elem_of_app in Hn as [Hn|Hn]; [by apply Hr1|]. destruct (Hp n Hn) as [v E]. exists v. split; [done|]. intros ty. by apply Hr2.
Qed.

Lemma stored_item_ok t item : table_ok t -> item ∈ items_iter (items t) -> item_ok t item.
Proof.
  intros Ht. unfold items_iter. intros (e & -> & He)%list_elem_of_fmap. pose proof (ok_items _ Ht) as F.
  rewrite Forall_forall in F. by apply F.
Qed.

Lemma key_attribute_names t n : key_attribute t n <-> n ∈ table_key_names t.
Proof.
  unfold key_attribute, table_key_names. rewrite elem_of_cons. destruct (range_key_name t) as [rk|]; simpl.
  - rewrite list_elem_of_singleton. naive_solver.
  - rewrite elem_of_nil. naive_solver.
Qed.

Lemma cursor_key t names item : item_ok t item ->
  item_ok t (key_part (table_key_names t ++ names) item) /\ encode_key t (key_part (table_key_names t ++ names) item) = encode_key t item.
Proof.
  intros Hi. assert (Hl : forall n, key_attribute t n -> key_part (table_key_names t ++ names) item !! n = item !! n).
  { intros n Hn%key_attribute_names. rewrite key_part_lookup, decide_True; [done|]. apply elem_of_app. by left. }
  split.
  - intros a v Ha. rewrite Hl by done. by apply Hi.
  - apply encode_key_eq. intros n Hn. by rewrite Hl.
Qed.

(** What an index read goes over. *)
Definition in_index (p : ScanPlan) (item : Item) : bool :=
  if s_index p then forallb (fun k => bool_decide (is_Some (item !! k))) (s_index_attrs p) else true.

Lemma scan_candidates_at t p segment start : sound (store t) ->
  (forall key, start = Some key -> item_ok (store t) key /\ is_Some (encode_key (store t) key)) ->
  scan_candidates t (with_scan_start p start) segment
  = List.filter (fun x => row_after (start ≫= encode_key (store t)) (encode_key (store t) x))
      (List.filter (in_segment t segment) (List.filter (in_index p) (scan_order_rows (store t)))).
Proof.
  intros Hs Hst. unfold scan_candidates. cbn [s_start s_index s_index_attrs with_scan_start].
  rewrite scan_rows_filtered by done. rewrite (filters_commute _ (fun x => row_after _ _)). apply filters_commute.
Qed.

(** The rows of a whole Scan. *)
Lemma scan_candidates_rows t p segment : sound (store t) -> s_start p = None ->
  scan_candidates t p segment = List.filter (in_segment t segment) (List.filter (in_index p) (scan_order_rows (store t))).
Proof.
  intros Hs Hp. transitivity (scan_candidates t (with_scan_start p None) segment).
  - unfold scan_candidates. cbn [s_start s_index s_index_attrs with_scan_start]. by rewrite Hp.
  - rewrite scan_candidates_at by done. apply filter_every. by apply Forall_forall.
Qed.

Lemma scan_candidates_elem t p segment item : sound (store t) -> s_start p = None ->
  item ∈ scan_candidates t p segment <-> item ∈ items_iter (items (store t)) /\ in_index p item = true /\ in_segment t segment item = true.
Proof.
  intros Hs Hp. rewrite scan_candidates_rows by done. rewrite !list_elem_of_In, !filter_In, <- !list_elem_of_In, scan_order_rows_perm.
  tauto.
Qed.

(** From the cursor of a row, a Scan goes over the rows that follow it. *)
Lemma scan_from_cursor t p segment i x attrs : sound (store t) -> keyed (store t) -> s_start p = None ->
  scan_candidates t p segment !! i = Some x ->
  scan_candidates t (with_scan_start p (Some (scan_cursor t attrs x))) segment = drop (S i) (scan_candidates t p segment).
Proof.
  intros Hs Hk Hp Hx. pose proof (list_elem_of_lookup_2 _ _ _ Hx) as He. apply scan_candidates_elem in He as (He & _); [|done..].
  pose proof (stored_item_ok _ _ (proj1 Hs) He) as Hi. destruct (cursor_key _ attrs x Hi) as [Ho Ek].
  unfold keyed in Hk. rewrite Forall_forall in Hk. rewrite scan_candidates_at, scan_cursor_part; [|done|].
  - cbn [mbind option_bind]. rewrite Ek, <- scan_candidates_rows by done. apply after_row; [| |done].
    + apply Forall_forall. intros y Hy. apply scan_candidates_elem in Hy as (Hy & _); [|done..]. destruct (Hk y Hy) as [k E].
      exists k. split; [done|]. eapply encode_key_ok; [|exact E]. by apply stored_item_ok; [apply Hs|].
    + rewrite scan_candidates_rows by done. apply ascending_filter, ascending_filter, scan_order_rows_ascending; [done|].
      by apply Forall_forall.
  - intros key [= <-]. rewrite scan_cursor_part, Ek. split; [done|by apply Hk].
Qed.

Lemma plan_scan_attrs body t p : plan_scan body t = Ok p -> s_index p = None -> s_index_attrs p = [].
Proof.
  intros Hp Hn. unfold plan_scan in Hp.
  destruct (resolve_legacy_or_expression _ _ _ _ _) as [flt|e]; [|discriminate Hp]. cbn [mbind result_bind] in Hp.
  destruct (validate_limit body) as [limit|e]; [|discriminate Hp]. cbn [mbind result_bind] in Hp.
  destruct (scan_index _ _ _) as [attrs|e] eqn:Ei; [|discriminate Hp]. cbn [mbind result_bind] in Hp.
  destruct (match parse_key_map _ with Some _ => _ | None => _ end); [|discriminate Hp].
  injection Hp as <-. cbn [s_index] in Hn. rewrite Hn in Ei. by injection Ei as <-.
Qed.

(** The cursor of a row is a start key the same request takes. *)
Lemma scan_cursor_accepted body t p segment item : sound (store t) -> NoDup (table_key_names (store t)) ->
  rows_typed t (s_index_attrs p) -> plan_scan body t = Ok p -> s_start p = None -> item ∈ scan_candidates t p segment ->
  scan_cursor t (s_index_attrs p) item <> ∅
  /\ start_key_matches_schema t (scan_cursor t (s_index_attrs p) item) (s_index_attrs p) = true.
Proof.
  intros Hs Hn Ht Hp Hp0 Hi. apply scan_candidates_elem in Hi as (Hi & Hix & _); [|done..].
  assert (Htr : typed_row t (table_key_names (store t) ++ s_index_attrs p) item).
  { apply rows_typed_row; [done|done|]. intros n Hm. unfold in_index in Hix. destruct (s_index p) eqn:Ex.
    - rewrite forallb_forall in Hix. apply list_elem_of_In, Hix, bool_decide_eq_true in Hm. done.
    - rewrite (plan_scan_attrs body t p Hp Ex) in Hm. by apply elem_of_nil in Hm. }
  rewrite scan_cursor_part. split; [|by apply cursor_accepted].
  destruct (Htr (hash_key_name (store t)) ltac:(left)) as (v & E & _).
  intros K. apply (f_equal (fun m : Item => m !! hash_key_name (store t))) in K.
  rewrite key_part_lookup, decide_True, E, lookup_empty in K by left. done.
Qed.

(** Theorem (liveness): a client that follows the cursors of a Scan of an unchanged table, one request
    after another, is given every page without an error, within one page per row
    and one more; the pages together return every row of the table (of the index,
    of the segment) that passes the filter, once, in strictly ascending key order,
    and count every row as scanned.  Scope: the stored rows have the table's keys
    and their key and index attributes are of the declared types
    ([rows_typed]), as accepted writes leave them. *)
Theorem scan_reads_everything body name segment t p : sound (store t) -> NoDup (table_key_names (store t)) ->
  rows_typed t (s_index_attrs p) -> plan_scan body t = Ok p -> s_start p = None ->
  let L := scan_candidates t p segment in
  exists pages,
    follow (fun start => first_page (scan_locked (resume body start) name segment false t)) (S (length L)) None = Some pages
    /\ concat (omap page_items pages)
       = page_shows body t (s_index p) <$> List.filter (page_keeps t (s_index p) (s_filter p) (s_placeholders p)) L
    /\ foldr Nat.add 0 (scanned_count <$> pages) = length L
    /\ (length pages <= S (length L))%nat
    /\ ascending (store t) L
    /\ forall item, item ∈ L <-> item ∈ items_iter (items (store t)) /\ in_index p item = true /\ in_segment t segment item = true.
Proof.
  intros Hs Hn Ht Hp Hp0 L. pose proof (rows_typed_keyed t _ Ht) as Hk.
  destruct (follow_all (fun start => first_page (scan_locked (resume body start) name segment false t)) L
              (scan_cursor t (s_index_attrs p)) (page_keeps t (s_index p) (s_filter p) (s_placeholders p))
              (page_shows body t (s_index p))) with (fuel := S (length L)) (start := @None Item) (i := 0)
    as (pages & Hf & Ei & _ & Esc & Hl); [|done|lia|].
  - intros start i Hst. unfold scan_locked.
    assert (Hplan : plan_scan (resume body start) t = Ok (with_scan_start p start) /\ scan_candidates t (with_scan_start p start) segment = drop i L).
    { destruct start as [key|].
      - destruct Hst as (j & x & -> & Hx & ->). destruct (scan_cursor_accepted body t p segment x) as [Hne Hm]; [done..|by eapply list_elem_of_lookup_2|].
        split; [by apply plan_scan_resume|by apply scan_from_cursor].
      - cbn in Hst. subst i. split; [by destruct p; cbn in Hp0; subst|]. rewrite drop_0. unfold L, scan_candidates.
        cbn [s_start s_index s_index_attrs with_scan_start]. by rewrite Hp0. }
    destruct Hplan as [-> Hc]. unfold first_page. cbn [mbind result_bind]. rewrite Hc.
    cbn [s_index s_index_attrs s_filter s_placeholders s_limit with_scan_start]. destruct (page_cut_length (drop i L) (s_limit p)) as [-> _].
    eexists. split; [reflexivity|]. apply finish_page_at.
  - exists pages. split; [exact Hf|]. rewrite drop_0 in Ei, Esc. split; [exact Ei|]. split; [exact Esc|]. split; [lia|]. split.
    + unfold L. rewrite scan_candidates_rows by done. by apply ascending_filter, ascending_filter, scan_order_rows_ascending.
    + intros item. by apply scan_candidates_elem.
Qed.

(** The segments of a parallel Scan share the rows out. *)
Lemma filter_partition {A} (f : A -> Z) (n : nat) (l : list A) : Forall (fun x => (0 <= f x < Z.of_nat n)%Z) l ->
  concat ((fun i => List.filter (fun x => (f x =? i)%Z) l) <$> seqZ 0 (Z.of_nat n)) ≡ₚ l.
Proof.
  induction 1 as [|x l Hx _ IH].
  - generalize (seqZ 0 (Z.of_nat n)) as ids. intros ids. induction ids as [|i ids IH]; [done|exact IH].
  - assert (Hi : f x ∈ seqZ 0 (Z.of_nat n)) by (apply elem_of_seqZ; lia).
    pose proof (NoDup_seqZ 0 (Z.of_nat n)) as Hn.
    transitivity (x :: concat ((fun i => List.filter (fun x => (f x =? i)%Z) l) <$> seqZ 0 (Z.of_nat n))); [|by rewrite IH].
    clear IH Hx. revert Hi Hn.
    generalize (seqZ 0 (Z.of_nat n)) as ids. intros ids. induction ids as [|i ids IH]; [by intros ?%elem_of_nil|].
    intros Hi [Hni Hn]%NoDup_cons. rewrite !fmap_cons. cbn [concat]. cbn [List.filter]. destruct (Z.eqb_spec (f x) i) as [<-|Hne].
    + cbn [app]. apply perm_skip. apply Permutation_app_head. clear IH Hi Hn. induction ids as [|j ids IH]; [done|].
      rewrite !fmap_cons. cbn [concat List.filter]. apply not_elem_of_cons in Hni as [Hj Hni].
      destruct (Z.eqb_spec (f x) j); [done|]. apply Permutation_app_head. by apply IH.
    + apply elem_of_cons in Hi as [?|Hi]; [done|]. rewrite (IH Hi Hn). symmetry. apply Permutation_middle.
Qed.

(** Theorem (safety): the workers of a parallel Scan share the rows out: together the segments
    read every row of the Scan, and no row twice. *)
Theorem segments_share_rows t p (total : nat) : (0 < total)%nat ->
  concat ((fun segment => scan_candidates t p (Some (segment, Z.of_nat total))) <$> seqZ 0 (Z.of_nat total))
  ≡ₚ scan_candidates t p None.
Proof.
  intros Ht. unfold scan_candidates. rewrite (filter_every (in_segment t None)) by (by apply Forall_forall).
  apply (filter_partition (fun item : Item => (text_hash (from_option value_text "" (item !! hash_key_name (store t))) mod Z.of_nat total)%Z)).
  apply Forall_forall. intros item _. apply Z.mod_pos_bound. lia.
Qed.

(** *** Query *)

(** A sort key of a declared type. *)
Definition sort_key_value (ty : string) (v : Value) : Prop :=
  exists s, v = VObject [(ty, VString s)]
  /\ (ty = "S" \/ (ty = "N" /\ is_Some (parse_number s)) \/ (ty = "B" /\ is_Some (base64_decode s))).

Notation value_le a b := (compare_attribute_values (Some a) (Some b) <> Gt).

(** Each type has its own order: text, decimals, bytes. *)
Lemma sort_value_cases ty a b : sort_key_value ty a -> sort_key_value ty b ->
  exists s s', a = VObject [(ty, VString s)] /\ b = VObject [(ty, VString s')]
  /\ ((ty = "S" /\ compare_attribute_values (Some a) (Some b) = str_cmp s s')
      \/ (ty = "N" /\ exists p q, parse_number s = Some p /\ parse_number s' = Some q
           /\ compare_attribute_values (Some a) (Some b) = (qval p ?= qval q)%Q)
      \/ (ty = "B" /\ exists x y, base64_decode s = Some x /\ base64_decode s' = Some y
           /\ compare_attribute_values (Some a) (Some b) = bytes_cmp x y)).
Proof.
  intros (s & -> & Hs) (s' & -> & Hs'). exists s, s'. split; [done|]. split; [done|].
  unfold compare_attribute_values, attribute_type_and_value. rewrite String.eqb_refl. cbn [negb as_str default from_option id].
  destruct Hs as [->|[[-> [p Hp]]|[-> [x Hx]]]].
  - left. done.
  - right; left. split; [done|]. destruct Hs' as [?|[[_ [q Hq]]|[? _]]]; [done| |done]. exists p, q. split; [done|]. split; [done|].
    cbn. rewrite (compare_number_strings_parsed _ _ _ _ Hp Hq). apply cmp_parsed_spec; by eapply parse_number_wf.
  - right; right. split; [done|]. destruct Hs' as [?|[[? _]|[_ [y Hy]]]]; [done|done|]. exists x, y. split; [done|]. split; [done|].
    cbn. unfold default, from_option, id. by rewrite Hx, Hy.
Qed.

Lemma value_le_trans ty a b c : sort_key_value ty a -> sort_key_value ty b -> sort_key_value ty c ->
  value_le a b -> value_le b c -> value_le a c.
Proof.
  intros Ha Hb Hc.
  destruct (sort_value_cases ty a b Ha Hb) as (s & s' & E1 & E2 & [[T1 ->]|[(T1 & p & q & P1 & P2 & ->)|(T1 & p & q & P1 & P2 & ->)]]),
    (sort_value_cases ty b c Hb Hc) as (s1 & s2 & E3 & E4 & [[T2 ->]|[(T2 & p2 & q2 & P3 & P4 & ->)|(T2 & p2 & q2 & P3 & P4 & ->)]]),
    (sort_value_cases ty a c Ha Hc) as (s3 & s4 & E5 & E6 & [[T3 ->]|[(T3 & p3 & q3 & P5 & P6 & ->)|(T3 & p3 & q3 & P5 & P6 & ->)]]);
    subst ty; try discriminate; simplify_eq.
  - by apply (cmp_le_trans (fun _ => True) str_cmp).
  - rewrite <- !Qle_alt. apply Qle_trans.
  - by apply (cmp_le_trans (fun _ => True) bytes_cmp).
Qed.

Lemma value_le_total ty a b : sort_key_value ty a -> sort_key_value ty b -> ~ value_le a b -> value_le b a.
Proof.
  intros Ha Hb.
  destruct (sort_value_cases ty a b Ha Hb) as (s & s' & E1 & E2 & [[T1 ->]|[(T1 & p & q & P1 & P2 & ->)|(T1 & p & q & P1 & P2 & ->)]]),
    (sort_value_cases ty b a Hb Ha) as (s1 & s2 & E3 & E4 & [[T2 ->]|[(T2 & p2 & q2 & P3 & P4 & ->)|(T2 & p2 & q2 & P3 & P4 & ->)]]);
    subst ty; try discriminate; simplify_eq.
  - by apply (cmp_le_total (fun _ => True) str_cmp).
  - rewrite <- !Qle_alt. intros Hn%Qnot_le_lt. by apply Qlt_le_weak.
  - by apply (cmp_le_total (fun _ => True) bytes_cmp).
Qed.

End Pages.

(** *** Sorting *)

Section SortBy.
Context {A : Type} (le : A -> A -> bool) (ok : A -> Prop).
Hypothesis le_trans : forall a b c, ok a -> ok b -> ok c -> le a b = true -> le b c = true -> le a c = true.
Hypothesis le_total : forall a b, ok a -> ok b -> le a b = false -> le b a = true.

Lemma insert_by_perm (x : A) l : insert_by le x l ≡ₚ x :: l.
Proof. induction l as [|y l IH]; simpl; [done|]. destruct (le x y); [done|]. rewrite IH. apply Permutation_swap. Qed.

Lemma sort_by_perm l : sort_by le l ≡ₚ l.
Proof. unfold sort_by. induction l as [|x l IH]; simpl; [done|]. by rewrite insert_by_perm, IH. Qed.

Lemma insert_by_sorted x l : ok x -> Forall ok l -> StronglySorted (fun a b => le a b = true) l ->
  StronglySorted (fun a b => le a b = true) (insert_by le x l).
Proof.
  intros Hx Hl. induction 1 as [|y l Hs IH F]; simpl; [by repeat constructor|]. apply Forall_cons in Hl as [Hy Hl].
  destruct (le x y) eqn:E.
  - constructor; [by constructor|]. constructor; [done|]. rewrite Forall_forall in *. intros z Hz.
    eapply le_trans; [exact Hx|exact Hy|by apply Hl|exact E|by apply F].
  - constructor; [by apply IH|]. rewrite insert_by_perm. constructor; [by apply le_total|done].
Qed.

Lemma sort_by_sorted l : Forall ok l -> StronglySorted (fun a b => le a b = true) (sort_by le l).
Proof.
  unfold sort_by. induction 1 as [|x l Hx Hl IH]; simpl; [constructor|]. apply insert_by_sorted; [done| |done].
  fold (sort_by le l). by rewrite sort_by_perm.
Qed.

Lemma sorted_reverse (R : A -> A -> Prop) l : StronglySorted R l -> StronglySorted (fun a b => R b a) (reverse l).
Proof.
  induction 1 as [|x l Hs IH F]; [constructor|]. rewrite reverse_cons. clear Hs.
  assert (F' : Forall (R x) (reverse l)) by (by rewrite reverse_Permutation). clear F.
  induction IH as [|y l' Hs IH' F]; [by repeat constructor|]. apply Forall_cons in F' as [Hy F']. simpl. constructor; [by apply IH'|].
  apply Forall_app. split; [done|]. by constructor.
Qed.

End SortBy.

Section QueryPages.
Context `{Base64Decode} `{JsonText} `{!JsonTextLaws} `{TextHash}.

(** The rows a Query chooses, before it puts them in order. *)
Definition query_row (index : option string) (h : string) (r : option string) (ph : Placeholders) (condition : string) (item : Item) : bool :=
  (if index then bool_decide (is_Some (item !! h)) && match r with Some rk => bool_decide (is_Some (item !! rk)) | None => true end else true)
  && key_holds ph condition item.

Lemma query_rows_perm t index h r forward ph condition :
  query_rows t index h r forward ph condition ≡ₚ List.filter (query_row index h r ph condition) (items_iter (items (store t))).
Proof.
  unfold query_rows. destruct r as [rk|]; [|done]. destruct forward; rewrite ?reverse_Permutation; apply sort_by_perm.
Qed.

Lemma query_rows_elem t index h r forward ph condition item :
  item ∈ query_rows t index h r forward ph condition
  <-> item ∈ items_iter (items (store t)) /\ query_row index h r ph condition item = true.
Proof. rewrite query_rows_perm, list_elem_of_In, filter_In, <- list_elem_of_In. done. Qed.

Lemma filter_NoDup {A B} (f : A -> bool) (g : A -> B) l : NoDup (g <$> l) -> NoDup (g <$> List.filter f l).
Proof.
  induction l as [|x l IH]; [done|]. rewrite fmap_cons, NoDup_cons. intros [Hx Hn]. cbn [List.filter]. destruct (f x); [|by apply IH].
  rewrite fmap_cons. apply NoDup_cons. split; [|by apply IH]. rewrite list_elem_of_fmap. intros (y & E & Hy). destruct Hx.
  rewrite E. apply list_elem_of_fmap_2. apply list_elem_of_In, filter_In in Hy as [Hy _]. by apply list_elem_of_In.
Qed.

Lemma query_rows_once t index h r forward ph condition : sound (store t) -> keyed (store t) ->
  NoDup (encode_key (store t) <$> query_rows t index h r forward ph condition).
Proof. intros Hs Hk. rewrite query_rows_perm. by apply filter_NoDup, keys_NoDup. Qed.

(** The rows are in the order of the sort key. *)
Definition range_le (rk : string) (a b : Item) : Prop := compare_attribute_values (a !! rk) (b !! rk) <> Gt.

Lemma query_rows_ordered t index h rk (forward : bool) ph condition ty :
  Forall (fun item : Item => exists v, item !! rk = Some v /\ sort_key_value ty v)
    (List.filter (query_row index h (Some rk) ph condition) (items_iter (items (store t)))) ->
  StronglySorted (if forward then range_le rk else flip (range_le rk)) (query_rows t index h (Some rk) forward ph condition).
Proof.
  intros Hok. unfold query_rows. set (le := fun a b : Item => match compare_attribute_values (a !! rk) (b !! rk) with Gt => false | _ => true end).
  assert (Hle : forall a b, le a b = true <-> range_le rk a b).
  { intros a b. unfold le, range_le. by destruct (compare_attribute_values _ _). }
  assert (Hs : StronglySorted (range_le rk) (sort_by le (List.filter (query_row index h (Some rk) ph condition) (items_iter (items (store t)))))).
  { cut (StronglySorted (fun a b => le a b = true) (sort_by le (List.filter (query_row index h (Some rk) ph condition) (items_iter (items (store t)))))).
    { induction 1 as [|x l Hl IH F]; constructor; [done|]. eapply Forall_impl; [exact F|]. intros y. apply Hle. }
    eapply sort_by_sorted; [| |exact Hok].
    - intros a b c (x & Ex & Hx) (y & Ey & Hy) (z & Ez & Hz). rewrite !Hle. unfold range_le. rewrite Ex, Ey, Ez. by eapply value_le_trans.
    - intros a b (x & Ex & Hx) (y & Ey & Hy) Hn. rewrite Hle. unfold range_le. rewrite Ex, Ey.
      eapply value_le_total; [exact Hx|exact Hy|]. intros K. assert (K' : range_le rk a b) by (unfold range_le; by rewrite Ex, Ey).
      apply Hle in K'. congruence. }
  destruct forward; [exact Hs|]. by apply (sorted_reverse (range_le rk)).
Qed.

(** Raw equality of keys is equality of keys. *)
Lemma scalar_same v w : key_value v -> key_value w -> value_eqb v w = true <-> v = w.
Proof. intros (tag & s & ->) (tag' & s' & ->). rewrite scalar_eqb. naive_solver. Qed.

Lemma matches_same item key names h r :
  (forall n v, n ∈ h :: option_list r -> item !! n = Some v -> key_value v) -> is_Some (item !! h) ->
  h ∈ names -> (forall rk, r = Some rk -> rk ∈ names) -> key = key_part names item -> item_matches_key item key h r = true.
Proof.
  intros Hv [v E] Hh Hr ->. unfold item_matches_key. rewrite key_part_lookup, decide_True, E by done.
  assert (Hk : key_value v) by (eapply Hv; [left|done]). rewrite (proj2 (scalar_same v v Hk Hk) eq_refl). cbn [andb].
  destruct r as [rk|]; [|done]. rewrite key_part_lookup, decide_True by (by apply Hr). destruct (item !! rk) as [w|] eqn:Ew; [|done].
  assert (Hw : key_value w) by (eapply Hv; [right; left|done]). by apply scalar_same.
Qed.

Lemma matches_key t y x key : item_ok t y -> item_ok t x -> (forall n, key_attribute t n -> key !! n = x !! n) ->
  item_matches_key y key (hash_key_name t) (range_key_name t) = true -> encode_key t y = encode_key t x.
Proof.
  intros Hy Hx Hk. unfold item_matches_key. rewrite (Hk (hash_key_name t)) by (by left).
  assert (Heq : forall n v w, key_attribute t n -> y !! n = Some v -> x !! n = Some w -> value_eqb v w = true -> y !! n = x !! n).
  { intros n v w Hn Ev Ew Hvw. rewrite Ev, Ew. f_equal. apply scalar_same in Hvw; [done|..]; eapply key_ok_value; [by eapply Hy|by eapply Hx]. }
  intros [E1 E2]%andb_prop. apply encode_key_eq. intros n Hn.
  assert (En : y !! n = x !! n); [|by rewrite En]. destruct Hn as [->|Hn].
  - destruct (y !! hash_key_name t) eqn:Ev; [|done]. destruct (x !! hash_key_name t) eqn:Ew; [|done]. rewrite <- Ev, <- Ew.
    eapply Heq; [by left|done..].
  - rewrite Hn in E2. rewrite (Hk n) in E2 by (by right). destruct (y !! n) eqn:Ev, (x !! n) eqn:Ew; try done. rewrite <- Ev, <- Ew.
    eapply Heq; [by right|done..].
Qed.

(** The keys of the rows of a read are scalars. *)
Definition scalar_keys (t : Table) (names : list string) : Prop :=
  Forall (fun item : Item => forall n v, n ∈ names -> item !! n = Some v -> key_value v) (items_iter (items (store t))).

(** From the cursor of a row, a Query goes over the rows that follow it. *)
Lemma query_from_cursor t index h r forward ph condition i x : sound (store t) -> keyed (store t) ->
  (index = None -> h = hash_key_name (store t) /\ r = range_key_name (store t)) -> scalar_keys t (h :: option_list r) ->
  let rows := query_rows t index h r forward ph condition in
  rows !! i = Some x -> rows_after_start t index h r forward rows (Some (query_cursor t index h r x)) = drop (S i) rows.
Proof.
  intros Hs Hk Hn Hsc rows Hx. unfold rows_after_start.
  assert (Hrow : forall y, y ∈ rows -> y ∈ items_iter (items (store t)) /\ query_row index h r ph condition y = true)
    by (intros y; apply query_rows_elem).
  pose proof (list_elem_of_lookup_2 _ _ _ Hx) as Hxr. apply Hrow in Hxr as [Hxi Hxq].
  assert (Hok : forall y, y ∈ items_iter (items (store t)) -> item_ok (store t) y) by (intros y; apply stored_item_ok, Hs).
  unfold keyed in Hk. rewrite Forall_forall in Hk. unfold scalar_keys in Hsc. rewrite Forall_forall in Hsc.
  rewrite query_cursor_part by done. set (names := table_key_names (store t) ++ h :: option_list r). set (key := key_part names x).
  assert (Hkey : forall n, key_attribute (store t) n -> key !! n = x !! n).
  { intros n Hm%key_attribute_names. unfold key, names. rewrite key_part_lookup, decide_True; [done|]. apply elem_of_app. by left. }
  assert (Hhash : is_Some (x !! hash_key_name (store t))).
  { destruct (Hk x Hxi) as [k E]. unfold encode_key, encode_key_with in E. destruct (x !! hash_key_name (store t)); [by eauto|done]. }
  assert (Hsc' : forall n v, n ∈ table_key_names (store t) -> x !! n = Some v -> key_value v).
  { intros n v Hm%key_attribute_names Ev. eapply key_ok_value, Hok; done. }
  set (P := fun item : Item => _ = true).
  assert (HP : forall y, y ∈ items_iter (items (store t)) -> P y -> encode_key (store t) y = encode_key (store t) x).
  { intros y Hy [P1 P2]%andb_prop. apply (matches_key (store t) y x key); [by apply Hok|by apply Hok|done|].
    destruct (is_gsi_query t index h r) eqn:Eg; [done|]. destruct (decide (index = None)) as [Ei|Ei].
    - destruct (Hn Ei) as [<- <-]. done.
    - unfold is_gsi_query in Eg. rewrite bool_decide_true in Eg by (by apply not_eq_None_Some). cbn [andb] in Eg.
      apply negb_false_iff, andb_prop in Eg as [E1 E2]. apply String.eqb_eq in E1. apply bool_decide_eq_true in E2. by rewrite <- E1, <- E2. }
  assert (HPx : P x).
  { unfold P. apply andb_true_intro. split.
    - eapply matches_same; [by apply Hsc| | | |reflexivity].
      + destruct index as [name|]; [|by destruct (Hn eq_refl) as [-> _]]. unfold query_row in Hxq.
        apply andb_prop in Hxq as [Hxq _]. apply andb_prop in Hxq as [Hxq _]. by apply bool_decide_eq_true in Hxq.
      + unfold names. apply elem_of_app. right. left.
      + intros rk ->. unfold names. apply elem_of_app. right. right. left.
    - destruct (is_gsi_query t index h r); [|done]. eapply matches_same; [exact Hsc'|done| | |reflexivity].
      + unfold names. apply elem_of_app. left. left.
      + intros rk E. unfold names, table_key_names. rewrite E. apply elem_of_app. left. right. left. }
  rewrite (proj2 (list_find_Some P rows i x)); [done|]. split; [done|]. split; [done|]. intros j y Hj Hlt Hy.
  assert (i = j); [|lia]. apply (NoDup_lookup (encode_key (store t) <$> rows) i j (encode_key (store t) x)).
  - apply query_rows_once; [done|]. by apply Forall_forall.
  - by rewrite list_lookup_fmap, Hx.
  - rewrite list_lookup_fmap, Hj. simpl. f_equal. apply HP; [|done]. apply Hrow. by eapply list_elem_of_lookup_2.
Qed.

Definition with_query_start (q : QueryPlan) (start : option Item) : QueryPlan :=
  mkQueryPlan (q_index q) (q_hash q) (q_range q) (q_condition q) (q_filter q) (q_placeholders q) (q_forward q) (q_limit q) start.

Notation query_key_names q := (q_hash q :: option_list (q_range q)).

Lemma plan_query_keys body t q : plan_query body t = Ok q -> q_index q = None ->
  q_hash q = hash_key_name (store t) /\ q_range q = range_key_name (store t).
Proof.
  intros Hq Hn. unfold plan_query in Hq.
  destruct (resolve_legacy_or_expression _ _ _ _ _) as [kc|e]; [|discriminate Hq]. cbn [mbind result_bind] in Hq.
  destruct (match kc.1 with Some _ => _ | None => _ end) as [condition|e]; [|discriminate Hq]. cbn [mbind result_bind] in Hq.
  destruct (resolve_legacy_or_expression _ _ _ _ _) as [flt|e]; [|discriminate Hq]. cbn [mbind result_bind] in Hq.
  destruct (validate_limit body) as [limit|e]; [|discriminate Hq]. cbn [mbind result_bind] in Hq.
  destruct (query_keys _ _ _) as [keys|e] eqn:Ek; [|discriminate Hq]. cbn [mbind result_bind] in Hq.
  destruct (match as_str _ with Some _ => _ | None => _ end); [|discriminate Hq]. cbn [mbind result_bind] in Hq.
  destruct (validate_partition_key_condition _ _ _); [|discriminate Hq]. cbn [mbind result_bind] in Hq.
  destruct (match parse_key_map _ with Some _ => _ | None => _ end); [|discriminate Hq].
  injection Hq as <-. cbn [q_index] in Hn. rewrite Hn in Ek. injection Ek as <-. done.
Qed.

Lemma plan_query_resume body t q key : plan_query body t = Ok q -> key <> ∅ ->
  start_key_matches_schema t key (query_key_names q) = true ->
  (forall n, n ∈ table_key_names (store t) ++ query_key_names q -> is_Some (key !! n)) ->
  plan_query (resume body (Some key)) t = Ok (with_query_start q (Some key)).
Proof.
  intros Hq Hk Hm Hn. unfold plan_query in Hq |- *. rewrite placeholders_resume, resolve_resume, limit_resume by done.
  rewrite !(index_resume body _ "IndexName"), !(index_resume body _ "ConsistentRead"), !(index_resume body _ "ScanIndexForward"), parse_resume by done.
  destruct (resolve_legacy_or_expression _ _ _ _ _) as [kc|e]; [|discriminate Hq]. cbn [mbind result_bind] in Hq |- *.
  destruct (match kc.1 with Some _ => _ | None => _ end) as [condition|e]; [|discriminate Hq]. cbn [mbind result_bind] in Hq |- *.
  rewrite resolve_resume by done.
  destruct (resolve_legacy_or_expression _ _ _ _ _) as [flt|e]; [|discriminate Hq]. cbn [mbind result_bind] in Hq |- *.
  destruct (validate_limit body) as [limit|e]; [|discriminate Hq]. cbn [mbind result_bind] in Hq |- *.
  destruct (query_keys _ _ _) as [keys|e] eqn:Ek; [|discriminate Hq]. cbn [mbind result_bind] in Hq |- *.
  destruct (match as_str _ with Some _ => _ | None => _ end); [|discriminate Hq]. cbn [mbind result_bind] in Hq.
  destruct (validate_partition_key_condition _ _ _) eqn:Ev; [|discriminate Hq]. cbn [mbind result_bind] in Hq.
  destruct (match parse_key_map _ with Some _ => _ | None => _ end); [|discriminate Hq].
  injection Hq as <-. cbn [q_hash q_range] in Hm, Hn.
  assert (Hall : forallb (fun a => bool_decide (is_Some (key !! a))) (table_key_names (store t) ++ keys.1 :: option_list keys.2)%list = true).
  { apply forallb_forall. intros n Hin%list_elem_of_In. apply bool_decide_eq_true. by apply Hn. }
  rewrite Hall. destruct (as_str (index body "IndexName")); cbn [mbind result_bind]; rewrite Hm; done.
Qed.

Lemma query_cursor_accepted body t q item : NoDup (table_key_names (store t)) -> rows_typed t (query_key_names q) ->
  plan_query body t = Ok q -> item ∈ items_iter (items (store t)) ->
  query_row (q_index q) (q_hash q) (q_range q) (q_placeholders q) (q_condition q) item = true ->
  let key := query_cursor t (q_index q) (q_hash q) (q_range q) item in
  key <> ∅ /\ start_key_matches_schema t key (query_key_names q) = true
  /\ forall n, n ∈ table_key_names (store t) ++ query_key_names q -> is_Some (key !! n).
Proof.
  intros Hn Ht Hq Hi Hrow key. pose proof (plan_query_keys body t q Hq) as Hk.
  assert (Htr : typed_row t (table_key_names (store t) ++ query_key_names q) item).
  { apply rows_typed_row; [done|done|]. intros n Hm. destruct (q_index q) as [name|] eqn:Ex.
    - unfold query_row in Hrow. apply andb_prop in Hrow as [Hrow _]. apply andb_prop in Hrow as [H4 H5].
      apply bool_decide_eq_true in H4. apply elem_of_cons in Hm as [->|Hm]; [done|].
      destruct (q_range q) as [rk|]; [|by apply elem_of_nil in Hm]. apply list_elem_of_singleton in Hm as ->. by apply bool_decide_eq_true in H5.
    - destruct (Hk eq_refl) as [E1 E2]. rewrite E1, E2 in Hm. unfold rows_typed in Ht. rewrite Forall_forall in Ht.
      destruct (Ht item Hi) as [Hty _]. destruct (Hty n Hm) as (v & Ev & _). by eauto. }
  unfold key. rewrite query_cursor_part by done. split; [|split; [by apply cursor_accepted|]].
  - destruct (Htr (hash_key_name (store t)) ltac:(left)) as (v & E & _).
    intros K. apply (f_equal (fun m : Item => m !! hash_key_name (store t))) in K.
    rewrite key_part_lookup, decide_True, E, lookup_empty in K by left. done.
  - intros n Hm. destruct (Htr n Hm) as (v & E & _). rewrite key_part_lookup, decide_True by done. by eauto.
Qed.

(** C10 (refinement): a client that follows the cursors of a Query of an unchanged table or index,
    in either direction, is given every page without an error, within one page
    per row and one more; the pages together return exactly the rows that have
    the index keys, meet the key condition and pass the filter, no row twice,
    and in the order of the sort key when its values are of one type.  Scope:
    the stored rows have the table's keys, their key and index attributes are
    single scalars of the declared types ([rows_typed], [scalar_keys]), as
    accepted writes leave them; the request is one that passed the checks made
    before the table is looked up, asks for items and not a count, and has no
    start key at first. *)
Theorem query_reads_everything body name t q : sound (store t) -> NoDup (table_key_names (store t)) ->
  rows_typed t (query_key_names q) -> scalar_keys t (query_key_names q) -> plan_query body t = Ok q -> q_start q = None ->
  let L := query_candidates t q in
  exists pages,
    follow (fun start => first_page (query_locked (resume body start) name false t)) (S (length L)) None = Some pages
    /\ concat (omap page_items pages)
       = page_shows body t (q_index q) <$> List.filter (page_keeps t (q_index q) (q_filter q) (q_placeholders q)) L
    /\ foldr Nat.add 0 (scanned_count <$> pages) = length L
    /\ (length pages <= S (length L))%nat
    /\ (forall item, item ∈ L <-> item ∈ items_iter (items (store t))
          /\ query_row (q_index q) (q_hash q) (q_range q) (q_placeholders q) (q_condition q) item = true)
    /\ NoDup (encode_key (store t) <$> L)
    /\ forall rk ty, q_range q = Some rk -> Forall (fun item : Item => exists v, item !! rk = Some v /\ sort_key_value ty v) L ->
         StronglySorted (if q_forward q then range_le rk else flip (range_le rk)) L.
Proof.
  intros Hs Hn Ht Hsc Hq Hq0 L. pose proof (rows_typed_keyed t _ Ht) as Hk. pose proof (plan_query_keys body t q Hq) as Hi.
  assert (HL : L = query_rows t (q_index q) (q_hash q) (q_range q) (q_forward q) (q_placeholders q) (q_condition q)).
  { unfold L, query_candidates. by rewrite Hq0. }
  destruct (follow_all (fun start => first_page (query_locked (resume body start) name false t)) L
              (query_cursor t (q_index q) (q_hash q) (q_range q)) (page_keeps t (q_index q) (q_filter q) (q_placeholders q))
              (page_shows body t (q_index q))) with (fuel := S (length L)) (start := @None Item) (i := 0)
    as (pages & Hf & Ei & _ & Esc & Hl); [|done|lia|].
  - intros start i Hst. unfold query_locked.
    assert (Hplan : plan_query (resume body start) t = Ok (with_query_start q start) /\ query_candidates t (with_query_start q start) = drop i L).
    { destruct start as [key|].
      - destruct Hst as (j & x & -> & Hx & ->). pose proof (list_elem_of_lookup_2 _ _ _ Hx) as Hxr. rewrite HL in Hxr.
        apply query_rows_elem in Hxr as [Hxi Hxq]. destruct (query_cursor_accepted body t q x Hn Ht Hq Hxi Hxq) as (K1 & K2 & K3).
        split; [by apply plan_query_resume|]. rewrite HL in Hx |- *. by apply query_from_cursor.
      - cbn in Hst. subst i. split; [by destruct q; cbn in Hq0; subst|]. rewrite drop_0. by rewrite HL. }
    destruct Hplan as [-> Hc]. unfold first_page. cbn [mbind result_bind]. rewrite Hc.
    cbn [q_index q_hash q_range q_filter q_placeholders q_limit with_query_start].
    eexists. split; [reflexivity|]. apply finish_page_at.
  - exists pages. split; [exact Hf|]. rewrite drop_0 in Ei, Esc. split; [exact Ei|]. split; [exact Esc|]. split; [lia|].
    rewrite HL. split; [intros item; apply query_rows_elem|]. split; [by apply query_rows_once|]. intros rk ty Hrk Hok. rewrite Hrk in Hok |- *.
    apply query_rows_ordered with ty. by rewrite query_rows_perm in Hok.
Qed.

End QueryPages.

(** ** Witnesses *)

Module QueryExamples.

#[local] Existing Instance TableWitness.json_printer.
#[local] Existing Instance TableWitness.json_printer_laws.
#[local] Existing Instance TableWitness.base64_none.
#[local] Existing Instance ItemExamples.no_item_text.
#[local] Existing Instance TransactExamples.lengths.
Import ItemExamples(num, str).

Definition player (id : string) (score : string) : Item :=
  <["id" := str id]> (<["team" := str "red"]> {[ "score" := num score ]}).

Definition players : list (Z * Item) := [(0, player "a" "1"); (1, player "b" "1"); (2, player "c" "2")]%Z.

(** Three players of one team, two with the same score, and two indexes by
    team, one of them without a sort key. *)
Definition league_of (rows : list (Z * Item)) : Table :=
  mkTable "league" "arn:aws:dynamodb:us-east-1:123456789012:table/league"
    (mkDynamoTable [mkKeySchemaElement "id" "HASH"] (mkTableItems rows 3) Unbuilt (Z.of_nat (length rows))
       (sum_Z (estimate_item_size <$> rows.*2)) false "DISABLED" ∅ no_history (mkChangeLog 0 []))
    [mkAttributeDefinition "id" "S"; mkAttributeDefinition "team" "S"; mkAttributeDefinition "score" "N"]
    [mkSecondaryIndex "by-score" [mkKeySchemaElement "team" "HASH"; mkKeySchemaElement "score" "RANGE"] (mkProjection "ALL" []);
     mkSecondaryIndex "by-team" [mkKeySchemaElement "team" "HASH"] (mkProjection "ALL" [])]
    [] [] false None None [] None None.

Definition league : Table := league_of players.

Lemma player_row i item : (i, item) ∈ players ->
  (i = 0%Z /\ item = player "a" "1") \/ (i = 1%Z /\ item = player "b" "1") \/ (i = 2%Z /\ item = player "c" "2").
Proof. unfold players. rewrite !elem_of_cons, elem_of_nil. naive_solver. Qed.

Lemma player_item item : item ∈ items_iter (items (store league)) -> exists id score, item = player id score.
Proof. unfold items_iter. intros ([i x] & -> & Hx%player_row)%list_elem_of_fmap. naive_solver. Qed.

Lemma league_sound : sound (store league).
Proof.
  split.
  - split; try done.
    + cbn. repeat constructor.
    + cbn. repeat constructor.
    + apply Forall_forall. intros [i x] Hx%player_row a v [->|[=]]. cbn [snd].
      destruct Hx as [[_ ->]|[[_ ->]|[_ ->]]]; intros [= <-]; eexists "S", _; (split; [reflexivity|]); intros p [=].
  - intros i j x y k Hx%player_row Hy%player_row.
    destruct Hx as [[-> ->]|[[-> ->]|[-> ->]]], Hy as [[-> ->]|[[-> ->]|[-> ->]]]; try done; vm_compute; congruence.
Qed.

Lemma player_lookup id score n v : player id score !! n = Some v ->
  (n = "id" /\ v = str id) \/ (n = "team" /\ v = str "red") \/ (n = "score" /\ v = num score).
Proof.
  unfold player. rewrite !lookup_insert_Some, lookup_singleton_Some. naive_solver.
Qed.

Lemma league_typed names : rows_typed league names.
Proof.
  apply Forall_forall. intros item (id & score & ->)%player_item. split.
  - intros n Hn. cbn in Hn. apply list_elem_of_singleton in Hn as ->. exists (str id). split; [done|]. by intros ty [= <-].
  - intros n v ty _ [[-> ->]|[[-> ->]|[-> ->]]]%player_lookup; by intros [= <-].
Qed.

Lemma league_scalar names : scalar_keys league names.
Proof.
  apply Forall_forall. intros item (id & score & ->)%player_item n v _ [[_ ->]|[[_ ->]|[_ ->]]]%player_lookup; by eexists _, _.
Qed.

Definition scan_body : Value := VObject [("Limit", VNumber (PosInt 2)); ("TableName", VString "league")].

Definition query_body (index : string) : Value :=
  VObject [("ExpressionAttributeValues", VObject [(":t", str "red")]); ("IndexName", VString index);
           ("KeyConditionExpression", VString "team = :t"); ("Limit", VNumber (PosInt 1)); ("TableName", VString "league")].

Lemma scan_reads_everything_witness : exists pages,
  follow (fun start => first_page (scan_locked (resume scan_body start) "league" None false league)) 4 None = Some pages
  /\ concat (omap page_items pages) = [player "c" "2"; player "b" "1"; player "a" "1"].
Proof.
  destruct (plan_scan scan_body league) as [p|e] eqn:Ep; [|by vm_compute in Ep].
  assert (Es : s_start p = None) by (vm_compute in Ep; by injection Ep as <-).
  destruct (scan_reads_everything scan_body "league" None league p league_sound ltac:(apply NoDup_singleton) (league_typed _) Ep Es)
    as (pages & Hf & Hc & _). exists pages. vm_compute in Ep. injection Ep as <-. split; [exact Hf|]. rewrite Hc. vm_compute. reflexivity.
Defined.

Lemma segments_share_rows_witness : exists p, plan_scan scan_body league = Ok p
  /\ scan_candidates league p (Some (0, 2)%Z) ++ scan_candidates league p (Some (1, 2)%Z) ++ [] ≡ₚ scan_candidates league p None.
Proof.
  destruct (plan_scan scan_body league) as [p|e] eqn:Ep; [|by vm_compute in Ep]. exists p. split; [done|].
  exact (segments_share_rows league p 2 ltac:(lia)).
Defined.

Lemma query_reads_everything_witness : exists pages,
  follow (fun start => first_page (query_locked (resume (query_body "by-score") start) "league" false league)) 4 None = Some pages
  /\ concat (omap page_items pages) = [player "a" "1"; player "b" "1"; player "c" "2"].
Proof.
  destruct (plan_query (query_body "by-score") league) as [q|e] eqn:Eq; [|by vm_compute in Eq].
  assert (Es : q_start q = None) by (vm_compute in Eq; by injection Eq as <-).
  destruct (query_reads_everything (query_body "by-score") "league" league q league_sound ltac:(apply NoDup_singleton)
    (league_typed _) (league_scalar _) Eq Es) as (pages & Hf & Hc & _). exists pages.
  vm_compute in Eq. injection Eq as <-. split; [exact Hf|]. rewrite Hc. vm_compute. reflexivity.
Defined.

(** The rows a Query of an index still has to read, from the cursor of a row
    that was deleted since. *)
Definition rows_left (index : string) (rows : list (Z * Item)) (last : Item) : option (list Item) :=
  match plan_query (query_body index) league with
  | Ok q => let key := query_cursor league (q_index q) (q_hash q) (q_range q) last in
            match plan_query (resume (query_body index) (Some key)) (league_of rows) with
            | Ok q' => Some (query_candidates (league_of rows) q')
            | Err _ => None
            end
  | Err _ => None
  end.

(** The first player was read and then deleted: the second, with the same
    score, is never read. *)
Example deleted_cursor_skips_ties : rows_left "by-score" (tail players) (player "a" "1") = Some [player "c" "2"].
Proof. vm_compute. reflexivity. Qed.

(** Two players were read and the second then deleted: an index without a sort
    key starts over with the first. *)
Example deleted_cursor_starts_over :
  rows_left "by-team" [(0%Z, player "a" "1"); (2%Z, player "c" "2")] (player "b" "1") = Some [player "a" "1"; player "c" "2"].
Proof. vm_compute. reflexivity. Qed.

End QueryExamples.
