(* ===== verification/DdbBatch.v ===== *)
(** * DynamoDB batches

    BatchGetItem, BatchWriteItem and TransactGetItems
    ([fakecloud-dynamodb/src/service/batch.rs]) on the tables of every account.

    The entries of a request come in the order of its JSON object.  The reads
    run under the read lock, a BatchWriteItem under the write lock.  The check
    of a written item against vector indexes ([vectors::validate_vector_item])
    is left out, as in [DdbItems]: the tables here have none. *)

From Stdlib Require Import ZArith Lia Bool String Ascii SpecFloat.
From stdpp Require Import base option list strings gmap sorting.
From S2P Require Import Prelude Json BTree Arn Text Sqs DdbNumber DdbValue DdbReserved DdbExpr DdbTable DdbUpdate DdbCondition DdbItems DdbTransact.
Import Sqs(AwsServiceError, AwsError, aws_error).

Local Open Scope string_scope.
Local Open Scope op_scope.

Definition schema_mismatch : AwsServiceError := validation_error KEY_SCHEMA_MISMATCH.

Definition duplicate_keys : AwsServiceError := validation_error "Provided list of item keys contains duplicates".

(** [block.get(field).is_some_and(|v| !v.is_null())]. *)
Definition given (block : Value) (field : string) : bool :=
  match get field block with Some v => negb (is_null v) | None => false end.

Definition both_projections : AwsServiceError :=
  validation_error ("Can not use both expression and non-expression parameters in the same request: "
    +:+ "Non-expression parameters: {AttributesToGet} Expression parameters: {ProjectionExpression}").

(** What stands in the way of a request, if anything. *)
Definition no_error (e : option AwsServiceError) : Result AwsServiceError unit :=
  match e with Some e => Err e | None => Ok tt end.

Definition require (b : bool) (e : AwsServiceError) : Result AwsServiceError unit := if b then Ok tt else Err e.

Definition array_length (v : Value) : nat := from_option (@length Value) 0 (as_array v).

Definition ENUM_CAPACITY : list string := ["INDEXES"; "TOTAL"; "NONE"].
Definition ENUM_METRICS : list string := ["SIZE"; "NONE"].

Section Batch.
Context `{Base64Decode} `{JsonText} `{ItemText} `{TextHash} (env : Env).

(** *** Projections *)

Definition validate_projection_expression (expr : string) (names : gmap string string) : Result AwsServiceError unit :=
  _ ← parse_projection_expression expr (new_context names ∅ true); Ok tt.

Definition validate_read_projection (block : Value) : Result AwsServiceError unit :=
  match as_str (index block "ProjectionExpression") with
  | Some expr => if given block "AttributesToGet" then Err both_projections
                 else validate_projection_expression expr (parse_expression_attribute_names block)
  | None => Ok tt
  end.

(** *** BatchGetItem *)

Record BatchGetReply := mkBatchGetReply { responses : list (string * list Item); read_capacity : list Value }.

Definition validate_batch_get (body : Value) : Result AwsServiceError (list (string * Value)) :=
  _ ← validate_optional_enum_value "returnConsumedCapacity" (index body "ReturnConsumedCapacity") ENUM_CAPACITY;
  request_items ← ok_or (validation_error "RequestItems is required") (as_object (index body "RequestItems"));
  _ ← require (negb (length request_items =? 0)%nat)
        (validation_error ("1 validation error detected: Value at 'RequestItems' failed to satisfy "
           +:+ "constraint: Member must have length greater than or equal to 1"));
  _ ← each_ok (fun e => require (array_length (index e.2 "Keys") <=? 100)%nat
        (validation_error ("1 validation error detected: Value at 'RequestItems." +:+ e.1
           +:+ ".member.Keys' failed to satisfy constraint: Member must have length less than or equal to 100"))) request_items;
  let total_keys := foldr Nat.add 0 ((fun e => array_length (index e.2 "Keys")) <$> request_items) in
  _ ← require (total_keys <=? 100)%nat
        (validation_error ("Too many items requested for the BatchGetItem call: " +:+ print_Z (Z.of_nat total_keys) +:+ " (max 100)"));
  _ ← each_ok (fun e => validate_read_projection e.2) request_items;
  let uses field := existsb (fun e => given e.2 field) request_items in
  _ ← require (negb (uses "ProjectionExpression" && uses "AttributesToGet")) both_projections;
  Ok request_items.

(** The key of a read, not one of those before it. *)
Definition batch_key (t : Table) (seen : list Item) (key : Item) : Result AwsServiceError unit :=
  _ ← no_error (empty_table_key_error t key);
  _ ← require (key_matches_schema t key) schema_mismatch;
  require (negb (existsb (fun k => keys_equal (store t) k key) seen)) duplicate_keys.

(** The rows of the keys, and the units their reads cost. *)
Fixpoint read_keys (t : Table) (block : Value) (seen : list Item) (units : f64) (keys : list Value) : Txn (list Item * f64) :=
  match keys with
  | [] => op_ret ([], units)
  | key_val :: more =>
      let key := item_of key_val in
      let* _ := check (batch_key t seen key) in
      let* found := existing_row t key in
      let consistent := default false (as_bool (index block "ConsistentRead")) in
      let units := f64_add units (read_units (from_option item_size 0%Z found) consistent) in
      let* rest := read_keys t block (seen ++ [key])%list units more in
      op_ret ((option_list ((fun item => project_item item block) <$> found) ++ rest.1)%list, rest.2)
  end.

Definition read_block (mode : string) (e : string * Value) : Txn ((string * list Item) * Value) :=
  let* t := data_table env e.1 in
  let* keys := check (ok_or (validation_error "Keys is required") (as_array (index e.2 "Keys"))) in
  let* _ := check (require (negb (length keys =? 0)%nat)
                     (validation_error ("1 validation error detected: Value '[]' at 'requestItems' failed to "
                        +:+ "satisfy constraint: Member must have length greater than or equal to 1"))) in
  let* found := read_keys t e.2 [] (f64_of_Z 0) keys in
  op_ret ((e.1, found.1), build_capacity mode e.1 (consumed_table found.2) SplitNone).

Definition batch_get_item (body : Value) : Txn BatchGetReply :=
  let* request_items := check (validate_batch_get body) in
  let* blocks := map_each (read_block (return_consumed_mode body)) request_items in
  op_ret (mkBatchGetReply (fst <$> blocks) (List.filter (fun v => negb (is_null v)) (snd <$> blocks))).

(** *** BatchWriteItem *)

Definition validate_batch_write (body : Value) : Result AwsServiceError (list (string * Value)) :=
  _ ← validate_optional_enum_value "returnConsumedCapacity" (index body "ReturnConsumedCapacity") ENUM_CAPACITY;
  _ ← validate_optional_enum_value "returnItemCollectionMetrics" (index body "ReturnItemCollectionMetrics") ENUM_METRICS;
  request_items ← ok_or (validation_error "RequestItems is required") (as_object (index body "RequestItems"));
  _ ← require (negb (length request_items =? 0)%nat)
        (validation_error "The requestItems parameter is required for BatchWriteItem");
  _ ← each_ok (fun e => require (array_length e.2 <=? 25)%nat
        (validation_error ("1 validation error detected: Value at 'RequestItems." +:+ e.1
           +:+ ".member' failed to satisfy constraint: Member must have length less than or equal to 25"))) request_items;
  let total_requests := foldr Nat.add 0 ((fun e => array_length e.2) <$> request_items) in
  _ ← require (total_requests <=? 25)%nat
        (validation_error ("Too many items requested for the BatchWriteItem call: " +:+ print_Z (Z.of_nat total_requests) +:+ " (max 25)"));
  Ok request_items.

(** The checks of a WriteRequest, and the key it writes. *)
Definition write_key (t : Table) (request : Value) : Result AwsServiceError (option Item) :=
  _ ← require (xorb (bool_decide (is_Some (get "PutRequest" request))) (bool_decide (is_Some (get "DeleteRequest" request))))
        (validation_error "1 validation error detected: Member must contain exactly one of PutRequest or DeleteRequest");
  match get "PutRequest" request, get "DeleteRequest" request with
  | Some put_req, _ =>
      m ← ok_or (validation_error "PutRequest.Item is not a valid item") (as_object (index put_req "Item"));
      let item := object_map m in
      _ ← no_error (empty_table_key_error t item);
      _ ← require (negb (bool_decide (is_Some (item_key_type_mismatch t item)))) schema_mismatch;
      _ ← validate_key_in_item t item;
      _ ← validate_index_keys_in_item t item;
      _ ← validate_item_attribute_values item;
      let item := normalize_item_numbers item in
      _ ← check_put_item_size item;
      Ok (Some (extract_key (store t) item))
  | None, Some del_req =>
      m ← ok_or (validation_error "DeleteRequest.Key is not a valid key") (as_object (index del_req "Key"));
      let key := object_map m in
      _ ← no_error (empty_table_key_error t key);
      _ ← require (key_matches_schema t key) schema_mismatch;
      Ok (Some key)
  | None, None => Ok None
  end.

Fixpoint validate_writes (t : Table) (seen : list Item) (requests : list Value) : Result AwsServiceError unit :=
  match requests with
  | [] => Ok tt
  | request :: more =>
      key ← write_key t request;
      match key with
      | None => validate_writes t seen more
      | Some key =>
          _ ← require (negb (existsb (fun k => keys_equal (store t) k key) seen)) duplicate_keys;
          validate_writes t (seen ++ [key])%list more
      end
  end.

Definition request_list (requests : Value) : Result AwsServiceError (list Value) :=
  ok_or (validation_error "Request list must be an array") (as_array requests).

Definition validate_entry (e : string * Value) : Txn unit :=
  let* t := data_table env e.1 in
  let* reqs := check (request_list e.2) in
  check (validate_writes t [] reqs).

(** What a write costs, by the row it finds. *)
Definition write_cost (wants_capacity : bool) (key : Item) (new : option Item) : Op Consumed :=
  if wants_capacity then
    let* _ := modify (fun t => with_store t (ensure_key_index (store t))) in
    let* t := read_table in
    let* old := row_at (find_item_index (store t) key) in
    op_ret (item_write_consumed t old new)
  else op_ret nothing_consumed.

(** One write: the key it is for and its cost. *)
Definition apply_request (wants_capacity : bool) (request : Value) : Op (option (Item * Consumed)) :=
  match get "PutRequest" request, get "DeleteRequest" request with
  | Some put_req, _ =>
      let item := normalize_item_numbers (item_of (index put_req "Item")) in
      let* t := read_table in
      let key := extract_key (store t) item in
      let* cost := write_cost wants_capacity key (Some item) in
      let* _ := on_store (fun st => put_item_at_key st (now env) item) in
      op_ret (Some (key, cost))
  | None, Some del_req =>
      let key := item_of (index del_req "Key") in
      let* cost := write_cost wants_capacity key None in
      let* _ := on_store (fun st => remove_item_by_key st (now env) key) in
      op_ret (Some (key, cost))
  | None, None => op_ret None
  end.

(** The collection metrics of the keys written. *)
Definition entry_metrics (return_icm : string) (t : Table) (keys : list Item) : list Value :=
  if String.eqb return_icm "SIZE" && negb (bool_decide (lsi t = []))
  then List.filter (fun v => negb (is_null v)) (build_item_collection_metrics return_icm t <$> keys) else [].

Definition apply_entry (mode return_icm : string) (e : string * Value) : Txn (Value * (string * list Value)) :=
  let* _ := data_table env e.1 in
  let* reqs := check (request_list e.2) in
  on_owned env e.1 (
    let* writes := map_each (apply_request (negb (String.eqb mode "NONE"))) reqs in
    let done := omap id writes in
    let consumed := foldl consumed_add nothing_consumed (snd <$> done) in
    let* t := read_table in
    op_ret (build_capacity mode e.1 consumed SplitNone, (e.1, entry_metrics return_icm t (fst <$> done)))).

Record BatchWriteReply := mkBatchWriteReply { write_capacity : list Value; collection_metrics : list (string * list Value) }.

Definition batch_write_item (body : Value) : Txn BatchWriteReply :=
  let* request_items := check (validate_batch_write body) in
  let* _ := for_each validate_entry request_items in
  let* entries := map_each (apply_entry (return_consumed_mode body) (return_icm_mode body)) request_items in
  op_ret (mkBatchWriteReply (List.filter (fun v => negb (is_null v)) (fst <$> entries))
            (List.filter (fun e => negb (length e.2 =? 0)%nat) (snd <$> entries))).

(** *** TransactGetItems *)

Definition validate_transact_get (body : Value) : Result AwsServiceError (list Value) :=
  _ ← validate_optional_enum_value "returnConsumedCapacity" (index body "ReturnConsumedCapacity") ENUM_CAPACITY;
  items ← ok_or (validation_error "TransactItems is required") (as_array (index body "TransactItems"));
  _ ← require (negb (length items =? 0)%nat)
        (validation_error ("1 validation error detected: Value '[]' at 'transactItems' "
           +:+ "failed to satisfy constraint: Member must have length greater than or equal to 1"));
  _ ← require (length items <=? 100)%nat
        (validation_error ("1 validation error detected: Value '" +:+ java_list_dump "TransactGetItem" items
           +:+ "' at 'transactItems' failed to satisfy constraint: Member must have length less than or equal to 100"));
  _ ← each_ok (fun ti => validate_read_projection (index ti "Get")) items;
  Ok items.

(** The key each Get reads, or none when it does not fit the schema. *)
Fixpoint get_lookups (seen : list (TableId * Item)) (items : list Value) : Txn (list (option Item)) :=
  match items with
  | [] => op_ret []
  | ti :: more =>
      let block := index ti "Get" in
      let* name := check (ok_or (validation_error "TableName is required in Get") (as_str (index block "TableName"))) in
      let* t := data_table env name in
      let* m := check (ok_or (validation_error "Get.Key is not a valid key") (as_object (index block "Key"))) in
      let key := object_map m in
      let* _ := check (no_error (empty_table_key_error t key)) in
      if key_matches_schema t key then
        let id := table_id (account_id env) name in
        let* _ := check (require (negb (existsb (fun k => bool_decide (k.1 = id) && keys_equal (store t) k.2 key) seen))
                           (validation_error "Transaction request cannot include multiple operations on one item")) in
        let* rest := get_lookups (seen ++ [(id, key)])%list more in
        op_ret (Some key :: rest)
      else
        let* rest := get_lookups seen more in
        op_ret (None :: rest)
  end.

(** One read: the item shown and the units, under the table's name. *)
Definition get_one (ti : Value) (lookup : option Item) : Txn (option Item * (string * f64)) :=
  let block := index ti "Get" in
  let name := table_name_of block in
  let* t := data_table env name in
  let* found := existing_row t (default ∅ lookup) in
  let projected := (fun item => project_item item block) <$> found in
  let shown := projected ≫= fun item => if bool_decide (item = ∅) then None else Some item in
  op_ret (shown, (name, f64_mul two (read_units (from_option item_size 0%Z found) true))).

Inductive GetReply :=
| Read (items : list (option Item)) (capacity : list Value)
| ReadCanceled (reasons : list Value).

Definition lookup_reason (lookup : option Item) : Value :=
  match lookup with Some _ => no_reason | None => validation_reason KEY_SCHEMA_MISMATCH end.

Definition transact_get_items (body : Value) : Txn GetReply :=
  let* items := check (validate_transact_get body) in
  let* lookups := get_lookups [] items in
  if existsb (fun l => negb (bool_decide (is_Some l))) lookups then op_ret (ReadCanceled (lookup_reason <$> lookups))
  else
    let* reads := map_each (fun x => get_one x.1 x.2) (zip items lookups) in
    let per_table : gmap string f64 :=
      foldl (fun m e => <[e.1 := f64_add (default (f64_of_Z 0) (m !! e.1)) e.2]> m) ∅ (snd <$> reads) in
    op_ret (Read (fst <$> reads) (capacities (return_consumed_mode body) SplitRead (consumed_table <$> per_table))).

End Batch.
