(* ===== verification/DdbBatchTheory.v ===== *)
(** * DynamoDB batches: theorems

    A BatchWriteItem is refused with no trace or applies every write; the batch
    reads return the rows under their keys. *)

From Stdlib Require Import ZArith Lia Bool String Ascii SpecFloat.
From stdpp Require Import base option list strings gmap sorting.
From S2P Require Import Prelude Json BTree Arn Text OrdMap Sqs DdbNumber DdbNumberTheory DdbValue DdbReserved DdbExpr DdbTable DdbUpdate DdbTableTheory DdbScan DdbCondition DdbItems DdbItemsTheory DdbTransact DdbTransactTheory DdbBatch.
Import Sqs(AwsServiceError, AwsError, aws_error).

Local Open Scope string_scope.
Local Open Scope list_scope.

(** ** The writes of one table *)

Section Table.
Context `{Base64Decode} `{JsonText} `{!JsonTextLaws} `{ItemText} (env : Env).

(** The key a WriteRequest writes and the row it leaves there. *)
Definition request_write (t : DynamoTable) (request : Value) : option (RowKey * option Item) :=
  match get "PutRequest" request, get "DeleteRequest" request with
  | Some put_req, _ => let item := normalize_item_numbers (item_of (index put_req "Item")) in Some (key_of t item, Some item)
  | None, Some del_req => Some (key_of t (item_of (index del_req "Key")), None)
  | None, None => None
  end.

(** The item or key it names. *)
Definition request_item (request : Value) : Item :=
  match get "PutRequest" request, get "DeleteRequest" request with
  | Some put_req, _ => normalize_item_numbers (item_of (index put_req "Item"))
  | None, Some del_req => item_of (index del_req "Key")
  | None, None => ∅
  end.

(** Rows after a sequence of writes. *)
Definition set_rows (m : Rows) (ws : list (RowKey * option Item)) : Rows := foldl (fun m w => set_row m w.1 w.2) m ws.

(** A request whose key is usable in a table of this schema. *)
Definition usable (t : DynamoTable) (request : Value) : Prop :=
  item_ok t (request_item request) /\ (is_Some (request_write t request) -> is_Some (encode_key t (request_item request))).

(** A table after a sequence of writes. *)
Definition all_changed (t : Table) (ws : list (RowKey * option Item)) (t' : Table) : Prop :=
  sound (store t') /\ same_settings t t' /\ key_schema (store t') = key_schema (store t)
  /\ forall k, row_of (store t') k = set_rows (row_of (store t)) ws k.

Lemma wp_cost wants key k new t seq (Q : Result AwsServiceError Consumed -> _ -> Prop) : sound (store t) -> item_ok (store t) key ->
  encode_key (store t) key = Some k ->
  (forall c t', sound (store t') -> same_settings t t' -> key_schema (store t') = key_schema (store t) ->
     (forall k, row_of (store t') k = row_of (store t) k) -> Q (Ok c) (t', seq)) ->
  wp (write_cost wants key new) (t, seq) Q.
Proof.
  intros St Hi Ek HQ. unfold write_cost. destruct wants; [|by apply wp_ret, HQ; [|apply same_settings_refl|..]].
  destruct (indexed_ok t St) as (St0 & Se0 & S0 & R0). destruct (indexed_key t _ _ Hi Ek) as [Hi0 Ek0].
  step. fold (indexed t). step. apply wp_bind. eapply wp_lookup; [done|exact Hi0|exact Ek0|]. apply wp_ret. by apply HQ.
Qed.

Lemma same_settings_trans t t' t'' : same_settings t t' -> same_settings t' t'' -> same_settings t t''.
Proof. unfold same_settings. intros E1 E2. rewrite E2, E1. by destruct t. Qed.

Lemma set_row_ext m m' k v k' : (forall k, m k = m' k) -> set_row m k v k' = set_row m' k v k'.
Proof. intros Hm. unfold set_row. by destruct (decide _). Qed.

Lemma request_step wants request t seq : sound (store t) -> usable (store t) request ->
  wp (apply_request env wants request) (t, seq)
    (fun r s => is_ok r = true /\ all_changed t (option_list (request_write (store t) request)) s.1).
Proof.
  intros St [Hi Hk]. unfold apply_request, request_item, request_write in *.
  destruct (get "PutRequest" request) as [put|]; [|destruct (get "DeleteRequest" request) as [del|]].
  - set (item := normalize_item_numbers _) in *. destruct (Hk ltac:(by eauto)) as [k Ek].
    assert (Ek' : key_of (store t) item = k) by (unfold key_of; by rewrite Ek). rewrite Ek'. cbv zeta.
    destruct (extract_key_ok _ _ Hi) as [Hx Ex]. step. apply wp_bind. eapply wp_cost; [done|exact Hx|by rewrite Ex|].
    intros c t' St' Hse Hsc Hr. destruct (put_sound (store t') (now env) item k St') as (id & b & st & Ep & Ss & Sc & Rw & _);
      [by eapply item_ok_schema|by rewrite (encode_key_schema _ (store t))|].
    apply wp_bind. eapply wp_on_store; [exact Ep|]. apply wp_ret. split; [done|]. split; [exact Ss|].
    split; [eapply same_settings_trans; [exact Hse|apply same_settings_store]|]. split; [cbn; congruence|].
    intros k'. cbn. rewrite Rw. fold (set_row (row_of (store t')) k (Some item) k'). by apply set_row_ext.
  - set (key := item_of _) in *. destruct (Hk ltac:(by eauto)) as [k Ek].
    assert (Ek' : key_of (store t) key = k) by (unfold key_of; by rewrite Ek). rewrite Ek'. cbv zeta.
    apply wp_bind. eapply wp_cost; [done|exact Hi|exact Ek|].
    intros c t' St' Hse Hsc Hr. destruct (remove_key_sound (store t') (now env) key k St') as (st & Ed & Ss & Sc & Rw);
      [by eapply item_ok_schema|by rewrite (encode_key_schema _ (store t))|].
    apply wp_bind. eapply wp_on_store; [exact Ed|]. apply wp_ret. split; [done|]. split; [exact Ss|].
    split; [eapply same_settings_trans; [exact Hse|apply same_settings_store]|]. split; [cbn; congruence|].
    intros k'. cbn. rewrite Rw. fold (set_row (row_of (store t')) k None k'). by apply set_row_ext.
  - apply wp_ret. split; [done|]. split; [done|]. split; [apply same_settings_refl|done].
Qed.

Lemma request_write_schema t t' request : key_schema t' = key_schema t -> request_write t' request = request_write t request.
Proof.
  intros E. unfold request_write, key_of.
  destruct (get "PutRequest" request); [|destruct (get "DeleteRequest" request); [|done]]; by rewrite (encode_key_schema t' t _ E).
Qed.

Lemma usable_schema t t' request : key_schema t' = key_schema t -> usable t request -> usable t' request.
Proof.
  intros E [Hi Hk]. split; [by eapply item_ok_schema|]. by rewrite (encode_key_schema t' t _ E), (request_write_schema t t' _ E).
Qed.

Lemma set_rows_ext m m' ws k : (forall k, m k = m' k) -> set_rows m ws k = set_rows m' ws k.
Proof.
  revert m m'. induction ws as [|w ws IH]; intros m m' Hm; [apply Hm|]. cbn. apply IH. intros k'. by apply set_row_ext.
Qed.

Lemma requests_apply wants requests t seq : sound (store t) -> Forall (usable (store t)) requests ->
  wp (map_each (apply_request env wants) requests) (t, seq)
    (fun r s => is_ok r = true /\ all_changed t (omap (request_write (store t)) requests) s.1).
Proof.
  revert t seq. induction requests as [|request requests IH]; intros t seq St Hu; cbn [map_each].
  - apply wp_ret. split; [done|]. split; [done|]. split; [apply same_settings_refl|done].
  - apply Forall_cons in Hu as [Hr Hu]. apply wp_bind. eapply wp_mono; [apply request_step; [exact St|exact Hr]|].
    intros [w|e] [t1 seq1] [Hok (S1 & Hse1 & Hsc1 & Hr1)]; [|done]. cbn [fst] in *. apply wp_bind. eapply wp_mono.
    { apply IH; [exact S1|]. eapply Forall_impl; [exact Hu|]. intros x. by apply usable_schema. }
    intros [ws|e] [t2 seq2] [Hok2 (S2 & Hse2 & Hsc2 & Hr2)]; [|done]. cbn [fst] in *. apply wp_ret. split; [done|]. split; [done|].
    split; [by eapply same_settings_trans|]. split; [cbn [fst]; congruence|]. intros k. cbn [fst]. rewrite Hr2.
    rewrite (list_omap_ext _ (request_write (store t)) requests requests) by (apply Forall_Forall2_diag, Forall_forall; intros x _; by apply request_write_schema).
    rewrite (set_rows_ext _ _ _ _ Hr1). cbn [omap list_omap]. destruct (request_write (store t) request); reflexivity.
Qed.

End Table.

(** ** BatchWriteItem *)

Section Writes.
Context `{Base64Decode} `{JsonText} `{!JsonTextLaws} `{ItemText} `{TextHash} (env : Env).

Notation tid name := (table_id (account_id env) name).

(** Typed keys, as for single writes. *)
Definition typed_batch_request (t : DynamoTable) (request : Value) : Prop :=
  match get "PutRequest" request, get "DeleteRequest" request with
  | Some put_req, _ => forall a v, key_attribute t a -> item_of (index put_req "Item") !! a = Some v -> key_value v
  | None, Some del_req => item_ok t (item_of (index del_req "Key"))
  | None, None => True
  end.

Definition typed_entry (s : Accounts) (e : string * Value) : Prop :=
  forall t requests, account_tables s !! tid e.1 = Some t -> as_array e.2 = Some requests ->
  Forall (typed_batch_request (store t)) requests.

(** The writes of an entry, in order. *)
Definition entry_writes (s : Accounts) (e : string * Value) : list (RowKey * option Item) :=
  match account_tables s !! tid e.1 with
  | Some t => omap (request_write (store t)) (default [] (as_array e.2))
  | None => []
  end.

(** The rows after the writes of all entries. *)
Definition set_table (m : AllRows) (id : TableId) (ws : list (RowKey * option Item)) : AllRows := fun id' =>
  if decide (id' = id) then set_rows (m id) ws else m id'.

Definition after_entries (s : Accounts) (entries : list (string * Value)) : AllRows :=
  foldl (fun m e => set_table m (tid e.1) (entry_writes s e)) (rows_in s) entries.

(** *** The checks *)

Lemma write_key_facts t request o : write_key t request = Ok o -> typed_batch_request (store t) request ->
  usable (store t) request
  /\ match o, request_write (store t) request with
     | Some key, Some w => item_ok (store t) key /\ encode_key (store t) key = Some w.1
     | None, None => True
     | _, _ => False
     end.
Proof.
  unfold write_key, typed_batch_request, usable, request_item, request_write. intros Hw Hty.
  apply bind_Ok in Hw as (_ & _ & Hw). destruct (get "PutRequest" request) as [put|]; [|destruct (get "DeleteRequest" request) as [del|]].
  - apply bind_Ok in Hw as (m & Em%ok_or_Ok & Hw). cbv zeta in Hw.
    assert (Ei : item_of (index put "Item") = object_map m) by (unfold item_of; by rewrite Em). rewrite Ei in Hty |- *.
    apply bind_Ok in Hw as (_ & _ & Hw). apply bind_Ok in Hw as (_ & _ & Hw). apply bind_Ok in Hw as ([] & Hk & Hw).
    apply bind_Ok in Hw as (_ & _ & Hw). apply bind_Ok in Hw as ([] & Hv & Hw). apply bind_Ok in Hw as (_ & _ & [= <-]).
    destruct (put_key t _ Hty Hk Hv) as (E1 & I1 & E2 & I2).
    assert (Ek : key_of (store t) (normalize_item_numbers (object_map m)) = key_of (store t) (object_map m)) by (unfold key_of at 1; by rewrite E1).
    rewrite Ek, E1. split; [split; [done|intros _; by eauto]|]. by split.
  - apply bind_Ok in Hw as (m & Em%ok_or_Ok & Hw). cbv zeta in Hw.
    assert (Ei : item_of (index del "Key") = object_map m) by (unfold item_of; by rewrite Em). rewrite Ei in Hty |- *.
    apply bind_Ok in Hw as (_ & _ & Hw). apply bind_Ok in Hw as (? & Hm & [= <-]). unfold require in Hm.
    destruct (key_matches_schema t (object_map m)) eqn:Es; [|done]. pose proof (schema_key t _ Es) as Ek. split; [split; [done|intros _; rewrite Ek; by eauto]|]. by split.
  - injection Hw as <-. split; [|done]. split; [|by intros [? ?]]. intros a v _. by rewrite lookup_empty.
Qed.

Lemma validate_writes_facts t seen requests : validate_writes t seen requests = Ok tt ->
  Forall (typed_batch_request (store t)) requests -> Forall (fun key => item_ok (store t) key) seen ->
  Forall (usable (store t)) requests
  /\ NoDup (fst <$> omap (request_write (store t)) requests)
  /\ forall key k, key ∈ seen -> encode_key (store t) key = Some k -> k ∉ fst <$> omap (request_write (store t)) requests.
Proof.
  revert seen. induction requests as [|request requests IH]; intros seen Hv Hty Hseen.
  { split; [done|]. split; [constructor|]. intros ? ? _ _. apply not_elem_of_nil. }
  apply Forall_cons in Hty as [Hr Hty]. cbn [validate_writes] in Hv. apply bind_Ok in Hv as (o & Ho & Hv).
  destruct (write_key_facts t request o Ho Hr) as [Hu Hw].
  change (omap (request_write (store t)) (request :: requests)) with
    (match request_write (store t) request with Some w => w :: omap (request_write (store t)) requests | None => omap (request_write (store t)) requests end).
  destruct o as [key|], (request_write (store t) request) as [w|]; try done.
  - destruct Hw as [Hi Ek]. apply bind_Ok in Hv as (? & Hd & Hv). unfold require in Hd. destruct (existsb _ seen) eqn:Ex; [done|].
    destruct (IH (seen ++ [key]) Hv Hty) as (H1' & H2' & H3'); [apply Forall_app; by split; [|constructor]|].
    split; [by constructor|]. rewrite fmap_cons. split.
    + apply NoDup_cons. split; [|done]. apply (H3' key); [|done]. apply elem_of_app. right. left.
    + intros key' k Hk' Ek'. apply not_elem_of_cons. split; [|apply (H3' key'); [apply elem_of_app; by left|done]].
      intros ->. apply not_true_iff_false in Ex. apply Ex, existsb_exists. exists key'. split; [by apply list_elem_of_In|].
      rewrite Forall_forall in Hseen. eapply same_key_equal; [by apply Hseen|exact Hi|exact Ek'|exact Ek].
  - destruct (IH seen Hv Hty Hseen) as (H1' & H2' & H3'). split; [by constructor|]. by split.
Qed.

(** An entry that passed. *)
Definition passed (s : Accounts) (e : string * Value) : Prop :=
  exists t requests, account_tables s !! tid e.1 = Some t /\ as_array e.2 = Some requests
    /\ Forall (usable (store t)) requests /\ NoDup (fst <$> entry_writes s e).

Lemma validate_entry_reads s e : typed_entry s e -> reads (validate_entry env e) s (fun _ => passed s e).
Proof.
  intros Hty. unfold validate_entry. apply reads_data_table. intros t Et. apply reads_check. intros requests Er%ok_or_Ok.
  unfold reads, wp, check. split; [done|]. destruct (validate_writes t [] requests) as [[]|] eqn:Ev; [|done].
  destruct (validate_writes_facts t [] requests Ev (Hty t requests Et Er)) as (Hu & Hn & _); [constructor|].
  exists t, requests. split; [done|]. split; [done|]. split; [done|]. unfold entry_writes. by rewrite Et, Er.
Qed.

(** *** The writes *)

Lemma tables_are_table s m s' id t t' ws seq : tables_are s m s' -> account_tables s' !! id = Some t -> all_changed t ws t' ->
  tables_are s (set_table m id ws) (mkAccounts (<[id := t']> (account_tables s')) seq (idempotency s')).
Proof.
  intros Ht E (Ss & Hse & Hsc & Hr) id'. specialize (Ht id'). cbn [account_tables]. unfold set_table.
  destruct (decide (id' = id)) as [->|Hne]; [|by rewrite lookup_insert_ne].
  rewrite lookup_insert_eq. rewrite E in Ht. destruct (account_tables s !! id) as [t0|]; [|done].
  destruct Ht as (_ & [Hs1 Hc1] & Hr1). split; [done|]. split; [split; [by eapply same_settings_trans|congruence]|].
  intros k'. rewrite Hr. by apply set_rows_ext.
Qed.

Lemma apply_entry_step s0 m s e mode icm : tables_are s0 m s -> passed s0 e ->
  wp (apply_entry env mode icm e) s (fun r s' => is_ok r = true /\ tables_are s0 (set_table m (tid e.1) (entry_writes s0 e)) s').
Proof.
  intros Ht (t0 & requests & Et0 & Er & Hu & _). pose proof (Ht (tid e.1)) as Hid. rewrite Et0 in Hid.
  destruct (account_tables s !! tid e.1) as [t|] eqn:Et; [|done]. destruct Hid as (St & [_ Hsc] & _).
  unfold apply_entry. apply wp_bind. unfold wp at 1, data_table. rewrite Et. apply wp_bind, wp_check. unfold request_list. rewrite Er.
  cbn [ok_or]. eapply wp_on_owned; [exact Et|]. apply wp_bind. eapply wp_mono.
  { apply requests_apply; [exact St|]. eapply Forall_impl; [exact Hu|]. intros x. by apply usable_schema. }
  intros [ws|err] [t' seq] [Hok Hc]; [|done]. cbv zeta. step. apply wp_ret. split; [done|]. cbn [fst snd].
  apply tables_are_table with t; [done|done|]. unfold entry_writes. rewrite Et0, Er. cbn [default from_option id].
  cbn [fst] in Hc. rewrite (list_omap_ext _ (request_write (store t0)) requests requests) in Hc; [exact Hc|].
  apply Forall_Forall2_diag, Forall_forall. intros x _. by apply request_write_schema.
Qed.

Lemma apply_entries_step s0 m s entries mode icm : tables_are s0 m s -> Forall (passed s0) entries ->
  wp (map_each (apply_entry env mode icm) entries) s (fun r s' => is_ok r = true
    /\ tables_are s0 (foldl (fun m e => set_table m (tid e.1) (entry_writes s0 e)) m entries) s').
Proof.
  intros Ht Hp. revert m s Ht. induction Hp as [|e entries He _ IH]; intros m s Ht; cbn [map_each foldl]; [by apply wp_ret|].
  apply wp_bind. eapply wp_mono; [by apply (apply_entry_step s0 m s e mode icm)|]. intros [x|err] s1 [Hok H1']; [|done].
  apply wp_bind. eapply wp_mono; [by apply IH|]. intros [xs|err] s2 [Hok2 H2']; [|done]. by apply wp_ret.
Qed.

(** Theorem (refinement): BatchWriteItem is refused with no trace or applies every write.  On sound
    tables a batch always returns; after an error the accounts are exactly as
    they were, and after success the tables, of whichever accounts, have the rows
    that the writes make, entry by entry and in order, at most 25 of them and no
    key twice in an entry; the tables stay sound and keep their settings. *)
Theorem batch_write_all_or_nothing body s : sound_accounts s ->
  (forall entries, as_object (index body "RequestItems") = Some entries -> Forall (typed_entry s) entries) ->
  exists s' r, batch_write_item env body s = Some (s', r)
    /\ match r with
       | Err _ => s' = s
       | Ok _ => exists entries, as_object (index body "RequestItems") = Some entries
           /\ (foldr Nat.add 0 ((fun e => array_length e.2) <$> entries) <= 25)%nat
           /\ Forall (fun e => NoDup (fst <$> entry_writes s e)) entries
           /\ tables_are s (after_entries s entries) s'
       end.
Proof.
  intros Ss Hty. assert (Hwp : wp (batch_write_item env body) s (fun r s' => match r with
    | Err _ => s' = s
    | Ok _ => exists entries, as_object (index body "RequestItems") = Some entries
           /\ (foldr Nat.add 0 ((fun e => array_length e.2) <$> entries) <= 25)%nat
           /\ Forall (fun e => NoDup (fst <$> entry_writes s e)) entries
           /\ tables_are s (after_entries s entries) s'
    end)); [|unfold wp in Hwp; destruct (batch_write_item env body s) as [[s' r]|]; [by exists s', r|done]].
  unfold batch_write_item. apply wp_bind, wp_check. destruct (validate_batch_write body) as [entries|e] eqn:Ev; [|done].
  unfold validate_batch_write in Ev. apply bind_Ok in Ev as (_ & _ & Ev). apply bind_Ok in Ev as (_ & _ & Ev).
  apply bind_Ok in Ev as (m & Em%ok_or_Ok & Ev). apply bind_Ok in Ev as (_ & _ & Ev). apply bind_Ok in Ev as (_ & _ & Ev).
  cbv zeta in Ev. apply bind_Ok in Ev as (? & Hn & [= <-]). specialize (Hty m Em).
  assert (Hcount : (foldr Nat.add 0 ((fun e : string * Value => array_length e.2) <$> m) <= 25)%nat).
  { unfold require in Hn. by destruct (Nat.leb_spec (foldr Nat.add 0 ((fun e : string * Value => array_length e.2) <$> m)) 25). }
  eapply reads_then with (P := fun _ => Forall (passed s) m); [|done|].
  - unfold for_each. eapply (reads_bind _ _ s (Forall2 (fun e _ => passed s e) m)).
    2: { intros l Hl. apply reads_ret. exact (Forall2_first _ _ _ Hl). }
    apply reads_map_each. eapply Forall_impl; [exact Hty|]. intros e. by apply validate_entry_reads.
  - intros _ Hp. apply wp_bind. eapply wp_mono; [apply (apply_entries_step s (rows_in s) s); [by apply tables_are_refl|exact Hp]|].
    intros [xs|e] s' [Hok Ht]; [|done]. apply wp_ret. exists m. split; [done|]. split; [done|]. split; [|exact Ht].
    eapply Forall_impl; [exact Hp|]. intros e (t & l & _ & _ & _ & Hnd). exact Hnd.
Qed.

End Writes.

(** ** Reads *)

Section Reads.
Context `{Base64Decode} `{JsonText} `{!JsonTextLaws} `{ItemText} `{TextHash} (env : Env).

Notation tid name := (table_id (account_id env) name).

(** The row a key names, as a read block shows it. *)
Definition shown_row (s : Accounts) (name : string) (block : Value) (key : Item) : option Item :=
  t ← account_tables s !! tid name; (fun item => project_item item block) <$> row_of (store t) (key_of (store t) key).

Definition typed_block (s : Accounts) (e : string * Value) : Prop :=
  forall t keys, account_tables s !! tid e.1 = Some t -> as_array (index e.2 "Keys") = Some keys ->
  Forall (fun key => item_ok (store t) (item_of key)) keys.

Lemma read_keys_rows s name t block seen units keys : account_tables s !! tid name = Some t -> sound (store t) ->
  Forall (fun key => item_ok (store t) (item_of key)) keys ->
  reads (read_keys t block seen units keys) s (fun r => r.1 = omap (fun key => shown_row s name block (item_of key)) keys).
Proof.
  intros Et St Hi. revert seen units. induction Hi as [|key keys Hi _ IH]; intros seen units; cbn [read_keys]; [by apply reads_ret|].
  apply reads_check. intros [] Hk. unfold batch_key in Hk. apply bind_Ok in Hk as (_ & _ & Hk). apply bind_Ok in Hk as (? & Hm & _).
  unfold require in Hm. destruct (key_matches_schema t (item_of key)) eqn:Es; [|done]. pose proof (schema_key t _ Es) as Ek.
  apply reads_existing; [done|done|]. intros r Er. rewrite (stored_row_sound _ _ _ St Hi Ek) in Er. injection Er as <-.
  eapply reads_bind; [apply IH|]. intros [rest units'] ->. apply reads_ret. cbn [fst].
  change (omap (fun key => shown_row s name block (item_of key)) (key :: keys)) with
    (match shown_row s name block (item_of key) with
     | Some x => x :: omap (fun key => shown_row s name block (item_of key)) keys
     | None => omap (fun key => shown_row s name block (item_of key)) keys
     end).
  assert (Es' : shown_row s name block (item_of key)
    = (fun item => project_item item block) <$> row_of (store t) (key_of (store t) (item_of key))) by (unfold shown_row; by rewrite Et).
  rewrite Es'. by destruct (row_of (store t) _).
Qed.

Lemma read_block_rows s mode e : sound_accounts s -> typed_block s e ->
  reads (read_block env mode e) s (fun r => r.1 = (e.1, omap (fun key => shown_row s e.1 e.2 (item_of key)) (default [] (as_array (index e.2 "Keys"))))).
Proof.
  intros Ss Hty. unfold read_block. apply reads_data_table. intros t Et. apply reads_check. intros keys Ek%ok_or_Ok.
  apply reads_check. intros _ _. eapply reads_bind; [apply (read_keys_rows s e.1 t e.2)|].
  - exact Et.
  - exact (Ss _ _ Et).
  - exact (Hty t keys Et Ek).
  - intros [rows units] Er. apply reads_ret. cbn [fst] in *. rewrite Ek. cbn. by rewrite Er.
Qed.

(** The lookup of a Get: its key, when it fits the schema. *)
Definition looked_up (s : Accounts) (ti : Value) (lookup : option Item) : Prop :=
  let block := index ti "Get" in
  exists t, account_tables s !! tid (table_name_of block) = Some t
    /\ lookup = if key_matches_schema t (item_of (index block "Key")) then Some (item_of (index block "Key")) else None.

Lemma get_lookups_keys s seen items : reads (get_lookups env seen items) s (Forall2 (looked_up s) items).
Proof.
  revert seen. induction items as [|ti items IH]; intros seen; cbn [get_lookups]; [by apply reads_ret; constructor|].
  apply reads_check. intros name En%ok_or_Ok. apply reads_data_table. intros t Et. apply reads_check. intros m Em%ok_or_Ok.
  assert (Ei : item_of (index (index ti "Get") "Key") = object_map m) by (unfold item_of; by rewrite Em).
  assert (Hl : forall o, o = (if key_matches_schema t (object_map m) then Some (object_map m) else None) -> looked_up s ti o).
  { intros o ->. exists t. unfold table_name_of. rewrite En, Ei. done. }
  cbv zeta. apply reads_check. intros _ _. destruct (key_matches_schema t (object_map m)) eqn:Es.
  - apply reads_check. intros _ _. eapply reads_bind; [apply IH|]. intros rest Hr. apply reads_ret. constructor; [by apply Hl|done].
  - eapply reads_bind; [apply IH|]. intros rest Hr. apply reads_ret. constructor; [by apply Hl|done].
Qed.

Definition typed_get_action (s : Accounts) (ti : Value) : Prop :=
  forall t, account_tables s !! tid (table_name_of (index ti "Get")) = Some t -> item_ok (store t) (item_of (index (index ti "Get") "Key")).

(** A projection that selects nothing shows nothing. *)
Definition not_empty (o : option Item) : option Item := o ≫= fun item => if bool_decide (item = ∅) then None else Some item.

(** The row of a Get, as it is shown. *)
Definition got_row (s : Accounts) (ti : Value) : option Item :=
  not_empty (shown_row s (table_name_of (index ti "Get")) (index ti "Get") (item_of (index (index ti "Get") "Key"))).

Lemma get_one_row s ti key : sound_accounts s -> typed_get_action s ti -> looked_up s ti (Some key) ->
  reads (get_one env ti (Some key)) s (fun r => r.1 = got_row s ti).
Proof.
  intros Ss Hty (t & Et & Hl). destruct (key_matches_schema t _) eqn:Es; [|done]. injection Hl as ->. pose proof (schema_key t _ Es) as Ek.
  unfold get_one. cbv zeta. apply reads_data_table. intros t' Et'. rewrite Et in Et'. injection Et' as <-. cbn [default from_option id].
  apply reads_existing; [exact (Ss _ _ Et)|by apply Hty|]. intros r Er.
  rewrite (stored_row_sound _ _ _ (Ss _ _ Et) (Hty t Et) Ek) in Er. injection Er as <-. apply reads_ret. cbn [fst].
  unfold got_row, shown_row, not_empty. by rewrite Et.
Qed.

(** Theorem (functional): BatchGetItem and TransactGetItems change nothing and, when they succeed, return
    for each key asked for the row stored under it, projected by its block, and
    nothing for a key without a row: the batch in the order of its keys and
    without gaps, the transaction with one place for each action. *)
Theorem batch_reads_return_rows body s : sound_accounts s ->
  (forall entries, as_object (index body "RequestItems") = Some entries -> Forall (typed_block s) entries) ->
  (forall items, as_array (index body "TransactItems") = Some items -> Forall (typed_get_action s) items) ->
  (exists r, batch_get_item env body s = Some (s, r)
     /\ forall reply, r = Ok reply -> exists entries, as_object (index body "RequestItems") = Some entries
        /\ responses reply
           = (fun e => (e.1, omap (fun key => shown_row s e.1 e.2 (item_of key)) (default [] (as_array (index e.2 "Keys"))))) <$> entries)
  /\ exists r, transact_get_items env body s = Some (s, r)
     /\ forall rows capacity, r = Ok (Read rows capacity) -> exists items, as_array (index body "TransactItems") = Some items
        /\ rows = got_row s <$> items.
Proof.
  intros Ss Hb Hg. assert (Hrun : forall {A} (m : Txn A) (Q : A -> Prop), reads m s Q ->
    exists r, m s = Some (s, r) /\ forall a, r = Ok a -> Q a).
  { intros A m Q. unfold reads, wp. destruct (m s) as [[s' r]|]; [|done]. intros [-> Hr]. exists r. split; [done|]. by intros a ->. }
  split; [apply Hrun|].
  - unfold batch_get_item. apply reads_check. intros entries Ev. unfold validate_batch_get in Ev.
    apply bind_Ok in Ev as (_ & _ & Ev). apply bind_Ok in Ev as (m & Em%ok_or_Ok & Ev).
    do 2 (apply bind_Ok in Ev as (_ & _ & Ev)). cbv zeta in Ev. do 3 (apply bind_Ok in Ev as (_ & _ & Ev)). injection Ev as <-.
    eapply reads_bind; [apply reads_map_each; eapply Forall_impl; [exact (Hb m Em)|]; intros e; by apply read_block_rows|].
    intros blocks Hbl. apply reads_ret. exists m. split; [done|]. cbn [responses]. clear -Hbl.
    induction Hbl as [|e b l blocks E _ IH]; [done|]. rewrite !fmap_cons. by rewrite IH, E.
  - cut (reads (transact_get_items env body) s (fun reply => forall rows capacity, reply = Read rows capacity ->
      exists items, as_array (index body "TransactItems") = Some items
        /\ rows = got_row s <$> items)).
    { intros Hr. destruct (Hrun _ _ _ Hr) as (r & Er & Hq). exists r. split; [done|]. intros rows capacity ->. by eapply Hq. }
    unfold transact_get_items. apply reads_check. intros items Ev. unfold validate_transact_get in Ev.
    apply bind_Ok in Ev as (_ & _ & Ev). apply bind_Ok in Ev as (m & Em%ok_or_Ok & Ev).
    do 3 (apply bind_Ok in Ev as (_ & _ & Ev)). injection Ev as <-. specialize (Hg m Em).
    eapply reads_bind; [apply get_lookups_keys|]. intros lookups Hl. destruct (existsb _ lookups) eqn:Ex; [by apply reads_ret|].
    eapply (reads_bind _ _ s (Forall2 (fun x r => r.1 = got_row s x.1) (zip m lookups))).
    + apply reads_map_each. apply not_true_iff_false in Ex. clear Em. revert Ex Hg. induction Hl as [|ti o l ls Ho _ IH]; intros Ex Hg; [constructor|].
      apply Forall_cons in Hg as [Hti Hg]. cbn [existsb] in Ex. cbn [zip zip_with]. constructor.
      * cbn [fst snd]. destruct o as [key|]; [|by destruct Ex]. by apply get_one_row.
      * apply IH; [|done]. intros K. apply Ex. rewrite K. apply orb_true_r.
    + intros rs Hrs. apply reads_ret. intros rows capacity [= <- _]. exists m. split; [done|].
      pose proof (Forall2_length _ _ _ Hl) as Hlen. clear -Hrs Hlen. revert lookups rs Hlen Hrs.
      induction m as [|ti m IH]; intros [|o lookups] rs Hlen Hrs; try done.
      * by inversion Hrs.
      * cbn [zip zip_with] in Hrs. inversion Hrs as [|? r ? rs' E Hrs']; subst. rewrite !fmap_cons. f_equal; [exact E|].
        eapply IH; [|exact Hrs']. cbn in Hlen. by injection Hlen.
Qed.

End Reads.

(** ** Witnesses *)

Module BatchExamples.

#[local] Existing Instance TableWitness.json_printer.
#[local] Existing Instance TableWitness.json_printer_laws.
#[local] Existing Instance TableWitness.base64_none.
#[local] Existing Instance ItemExamples.no_item_text.
#[local] Existing Instance TransactExamples.lengths.
Import ItemExamples(num, str, env0, orders, stored, number_key_ok, put_body, region0).
Import TransactExamples(accounts0, accounts0_sound, orders_id).

Definition put_request (n : string) : Value := VObject [("PutRequest", VObject [("Item", VObject [("id", num n); ("qty", num "007")])])].
Definition delete_request (n : string) : Value := VObject [("DeleteRequest", VObject [("Key", VObject [("id", num n)])])].
Definition batch (entries : list (string * Value)) : Value := VObject [("RequestItems", VObject entries)].

Definition two_writes : Value := batch [("orders", VArray [put_request "1.0"; delete_request "2"])].

Lemma orders_only name t : account_tables accounts0 !! table_id (account_id env0) name = Some t -> t = orders.
Proof. cbn [account_tables accounts0]. by intros [_ <-]%lookup_singleton_Some. Qed.

Lemma two_writes_typed entries : as_object (index two_writes "RequestItems") = Some entries -> Forall (typed_entry env0 accounts0) entries.
Proof.
  intros [= <-]. constructor; [|constructor]. intros t requests Ht%orders_only [= <-]. subst t. repeat constructor.
  - intros a v [-> |[=]]. change (item_of _) with (<["qty" := num "007"]> (<["id" := num "1.0"]> ∅ : Item)).
    change (hash_key_name (store orders)) with "id". rewrite lookup_insert_ne, lookup_insert_eq by done.
    intros [= <-]. by exists "N", "1.0".
  - change (item_ok (store orders) (<["id" := num "2"]> ∅)). rewrite insert_empty. apply number_key_ok. by intros p [= <-].
Qed.

Definition row_in (s : Accounts) (n : string) : option Item :=
  t ← account_tables s !! orders_id; row_of (store t) (key_of (store t) {[ "id" := num n ]}).

Lemma batch_write_all_or_nothing_witness : exists s' reply, batch_write_item env0 two_writes accounts0 = Some (s', Ok reply)
  /\ row_in s' "1" = Some stored.
Proof.
  destruct (batch_write_all_or_nothing env0 two_writes accounts0 accounts0_sound two_writes_typed) as (s' & r & E & Hr).
  assert (Hok : from_option (fun x : Accounts * Result AwsServiceError BatchWriteReply => match x.2 with Ok _ => true | Err _ => false end)
                  false (batch_write_item env0 two_writes accounts0) = true) by (vm_compute; reflexivity).
  rewrite E in Hok. destruct r as [reply|e]; [|discriminate Hok]. clear Hok. exists s', reply. split; [exact E|]. clear E.
  destruct Hr as (entries & [= <-] & _ & _ & Ht). specialize (Ht orders_id). unfold row_in.
  change (account_tables accounts0 !! orders_id) with (Some orders) in Ht.
  destruct (account_tables s' !! orders_id) as [t'|]; [|done]. cbn [mbind option_bind].
  destruct Ht as (_ & (_ & Hsc) & Hk).
  unfold key_of. rewrite (encode_key_schema _ _ _ Hsc). rewrite Hk. vm_compute. reflexivity.
Defined.

(** Reading both keys afterwards, under another spelling of the first. *)
Definition two_reads : Value :=
  batch [("orders", VObject [("Keys", VArray [VObject [("id", num "1e0")]; VObject [("id", num "2")]])])].

Lemma two_reads_typed s entries : as_object (index two_reads "RequestItems") = Some entries -> Forall (typed_block env0 s) entries.
Proof.
  intros [= <-]. constructor; [|constructor]. intros t keys _ [= <-]. repeat constructor.
  - change (item_ok (store t) (<["id" := num "1e0"]> ∅)). rewrite insert_empty. apply number_key_ok. by intros p [= <-].
  - change (item_ok (store t) (<["id" := num "2"]> ∅)). rewrite insert_empty. apply number_key_ok. by intros p [= <-].
Qed.

Lemma batch_reads_return_rows_witness : exists s' reply,
  batch_get_item env0 two_reads s' = Some (s', Ok reply) /\ responses reply = [("orders", [stored])].
Proof.
  destruct (batch_write_all_or_nothing env0 two_writes accounts0 accounts0_sound two_writes_typed) as (s' & r & E & Hr).
  assert (Hok : match batch_write_item env0 two_writes accounts0 with
                | Some (s', Ok _) => match batch_get_item env0 two_reads s' with
                                     | Some (_, Ok reply) => Some (responses reply)
                                     | _ => None
                                     end
                | _ => None
                end = Some [("orders", [stored])]) by (vm_compute; reflexivity).
  rewrite E in Hok. destruct r as [r|e]; [|discriminate Hok]. clear E. exists s'. destruct Hr as (entries & _ & _ & _ & Ht).
  destruct (batch_reads_return_rows env0 two_reads s') as [(r' & E' & _) _].
  - intros id t Et. specialize (Ht id). rewrite Et in Ht. destruct (account_tables accounts0 !! id); [|done]. apply Ht.
  - apply two_reads_typed.
  - intros its [=].
  - rewrite E' in *. destruct r' as [reply|e]; [|discriminate Hok]. exists reply. split; [done|]. by injection Hok.
Defined.

(** What a batch leaves in the orders table: the rows, and the records of its
    stream. *)
Definition left_behind (r : option (Accounts * Result AwsServiceError BatchWriteReply)) : option (list Item * nat) :=
  match r with
  | Some (s, _) => (fun t => (items_iter (items (store t)), length (stream_records t))) <$> account_tables s !! orders_id
  | None => None
  end.

(** A batch writes no change record on a table whose stream is enabled, where
    PutItem of the same item writes one. *)
Example batch_leaves_no_record : stream_enabled orders = true
  /\ left_behind (batch_write_item env0 two_writes accounts0) = Some ([stored], 0%nat).
Proof. split; vm_compute; reflexivity. Qed.

(** One key, once under the table's name and once under its ARN, is two
    entries of a batch; the later write wins. *)
Definition one_key_twice : Value :=
  batch [("arn:aws:dynamodb:us-east-1:123456789012:table/orders", VArray [put_request "1"]); ("orders", VArray [delete_request "1.0"])].

Example duplicate_across_entries : left_behind (batch_write_item env0 one_key_twice accounts0) = Some ([], 0%nat)
  /\ match batch_write_item env0 one_key_twice accounts0 with Some (_, Ok _) => true | _ => false end = true.
Proof. split; vm_compute; reflexivity. Qed.

End BatchExamples.
